(* ===== verification/_CoqProject ===== *)
-Q . S2P
Prelude.v
Spec.v
Validate.v
ValidateFacts.v
Batch.v
Kernel.v
Scoped.v
ScopedFacts.v
Observation.v
ObservationFacts.v
Machine.v
MachineStore.v
MachineFacts.v
ExchangeFacts.v
InventoryFacts.v
Reservation.v
ReservationFacts.v
MachineOffer.v
OfferFacts.v
MachineRecovery.v
RecoveryFacts.v
Coordinator.v
CoordinatorDemo.v
Text.v
Frames.v
Native.v
ConditionStore.v
Columns.v
ProcessRecords.v
Lifecycle.v
Schedule.v
Release.v
NativeRecovery.v
Life.v
LifeFacts.v
Refinement.v
LifecycleRefinement.v
ReleaseRefinement.v
RecoveryRefinement.v
ScheduleRefinement.v
LifecycleFacts.v
NativeHistory.v
NativeDemo.v
Runner.v
RunnerFacts.v
RunnerDemo.v
Policy.v
PolicyFacts.v
ManagedWait.v
ManagedWaitFacts.v
Submission.v
Kept.v
KeptFacts.v
SubmissionFacts.v
SubmissionRefinement.v
SubmissionHistory.v
SubmissionDemo.v
Registry.v
RegistryOps.v
Authority.v
AuthorityFacts.v
AuthorityInv.v
AuthorityEvolves.v
AuthorityHistory.v
AuthorityDemo.v
Views.v
ViewFacts.v
Trees.v
TreeFacts.v
TreePages.v
TreeViews.v
ViewDemo.v
Pairing.v
PairingLog.v
PairingInv.v
PairingRuns.v
PairingHistory.v
PairingTables.v
PairingDemo.v
