(* ===== verification/Prelude.v ===== *)
(** * Stillyard: a verification of the scheduler's decision logic

    Stillyard admits jobs to the resources of one machine.  This library models
    the parts of it that decide: what a submitted document must satisfy, when a
    job may take capacity, what the host must show before a process starts, how a
    job lives from its acceptance to its outcome and through restarts, and how the
    machine's coordinator shares the machine with attached managers.

    ** The program and its parts

    A client submits job and batch documents ([src/src/spec.rs]).  The daemon
    validates them, records what it received, and accepts or rejects it
    ([src/src/store/admission.rs]); a running job may submit children within its
    policy and wait for them.  Admission ([src/src/admission.rs],
    [src/src/admission/scoped.rs]) compares the claims of a job with the
    capacities of the machine and with what active jobs and reservations already
    take; the host policy ([src/src/host_observation]) adds conditions on measured
    memory, utilisation and processes.  The store then carries a job through its
    life ([src/src/store]): preparation of an attempt with its lease
    ([schedule.rs], [admitting.rs]), readiness conditions and their probes
    ([condition.rs]), release of the suspended root process ([release.rs]), start,
    exit, result, retry and settlement ([lifecycle.rs], [lease.rs]), recovery after
    a restart ([recovery.rs]) and reconciliation of boundaries whose cleanup is not
    proven ([reconciliation.rs]).  A daemon may also coordinate other
    managers: a manager sends requests ([src/src/machine.rs]) that the coordinator
    executes as one transaction each ([src/src/store/machine_allocation.rs],
    [machine_ticket.rs]); the scheduling pass ([machine_queue.rs]) offers capacity
    to their candidates beside the native jobs and their reservations
    ([reservation.rs], [machine_reservation.rs]); a transition that concerns start
    rights is journaled in the authority registry before it is committed, and
    finished from there after a crash ([machine_recovery.rs]).  The registry
    ([src/src/authority.rs]) is a file of its own that outlives the job database: it
    keeps the identities of paired managers, the start rights that may still be in
    use, holds, and the gate that a reset of the database leaves.  Clients read the
    tables through pages of jobs, of events ([store/observation.rs]) and of job trees
    ([store/tree.rs]).

    ** Files

    - [Prelude]: results and their monad, machine integers, stable sorting,
      ordered maps and sets ([BTreeMap], [BTreeSet]) over [gmap] and [gset], string
      functions, and the lemmas and tactics the other files share.
    - [Spec], [Validate], [ValidateFacts]: the documents, the [validate] methods
      and what an accepted document guarantees ([spec.rs]).
    - [Batch]: [BatchSpec::validate] with its dependency check ([spec.rs]).
    - [Kernel]: blockers, checked sums, the reservation decision, priority aging
      and the schedule order ([admission.rs]), with their theorems.
    - [Scoped], [ScopedFacts]: domain trees, expansion of a claim over the
      ancestors of its domain, accounting, fences and impacts, and the flat
      reports ([admission/scoped.rs], [admission.rs]).
    - [Observation], [ObservationFacts]: evidence, process rules, headroom,
      detectors, quiet budget and quiet interval ([host_observation/evidence.rs],
      [host_observation/policy.rs]).
    - [Machine]: the messages, their validation and the rules for the next start
      right ([machine.rs], [machine_ticket.rs], [machine_allocation.rs]).
    - [MachineStore]: the coordinator's tables, every command, and the transaction
      of one request ([exchange_commit]); [MachineFacts] and [ExchangeFacts]: the
      store invariant, grant lifecycles, replay and start rights;
      [InventoryFacts]: the paged inventory.
    - [Reservation], [ReservationFacts]: scalar reservations of native jobs and of
      candidates ([reservation.rs], [machine_reservation.rs]).
    - [MachineOffer], [OfferFacts]: [machine_topology] and the scheduling pass
      [machine_offer_before_native] ([machine_queue.rs]).
    - [MachineRecovery], [RecoveryFacts]: [reconcile_pending_machine_commit] and
      [machine_exchange] with the journal.
    - [Coordinator]: the coordinator as a step relation over tables, open journal
      entry and recorded reset; [CoordinatorDemo]: one evaluated run.
    - [Text]: UTF-8 texts cut to a budget ([values.rs]); [Frames]: frames of both
      protocols and the bridge of a manager ([protocol.rs], [machine.rs],
      [machine/bridge.rs]); [Columns]: names of states and durable identifiers
      ([values.rs], [model.rs]).
    - [Native]: the rows of jobs, attempts, admissions, invocations, containments,
      conditions, observations and leases ([database.rs]).
    - [ConditionStore], [ProcessRecords], [Lifecycle], [Schedule], [Release],
      [NativeRecovery]: the transactions on these rows, a file of [src/src/store]
      each ([admitting.rs] is in [Schedule], [lease.rs] in [Lifecycle],
      [reconciliation.rs] in [NativeRecovery]).
    - [Life]: the abstract life of jobs, attempts, boundaries and leases as a step
      relation; [LifeFacts]: its invariant and the safety of its claims.
    - [Refinement], [LifecycleRefinement], [ReleaseRefinement],
      [RecoveryRefinement], [ScheduleRefinement]: the abstraction function [abs]
      and, per component, that its transactions are steps of [Life].
    - [LifecycleFacts]: the reading of settlements and identities; [NativeHistory]:
      histories of the native tables; [NativeDemo]: one evaluated run, with a
      restart.
    - [Runner], [RunnerFacts], [RunnerDemo]: the thread that runs an invocation
      ([src/src/runner/lifecycle.rs]).
    - [Policy], [PolicyFacts]: what a parent allows its children, [ManagedWait],
      [ManagedWaitFacts]: which waits for children are admitted
      ([store/admission.rs], [resources.rs]).
    - [Submission]: receiving, accepting, rejecting and resuming jobs and batches
      ([store/admission.rs], [store/recovery.rs]); [Kept], [KeptFacts]: the columns
      that only acceptance writes; [SubmissionFacts], [SubmissionRefinement],
      [SubmissionHistory]: submissions as sequences of decisions and the histories
      of the whole system; [SubmissionDemo]: one evaluated run.
    - [Registry]: the registry, its files and their publication; [RegistryOps],
      [Authority]: every operation, loading, opening and initialization
      ([authority.rs], [authority/retirement.rs], [bootstrap.rs],
      [machine/clearance.rs]); [AuthorityFacts], [AuthorityInv], [AuthorityEvolves],
      [AuthorityHistory]: what loading accepts, the invariant, what each operation
      may change, and histories of the directory; [AuthorityDemo]: one evaluated run.
    - [Views], [ViewFacts]: selectors, job lists and the event log
      ([store/observation.rs], the triggers of [database.rs]).
    - [Trees]: the whole of [store/tree.rs]; [TreeFacts]: the forest, selection and
      order of the roots; [TreePages]: what emission shows; [TreeViews]: requests and
      clients; [ViewDemo]: lists, events and trees of one evaluated run.

    ** How the code is represented

    An unsigned integer is an [N] and a signed one a [Z]; the operations that
    check, wrap or saturate do so explicitly ([checked_sub], [checked_total],
    [i64_saturating_add]).  A fallible function returns [result]; a panic is an
    error of its own or [None].  A table is a [gmap] from its key to a record of
    its columns, and a column that stores JSON holds the value it encodes; the rows
    of a query without an order are listed in key order.  A transaction is a
    function from tables to tables; a rejected command leaves them as they were.
    Operating-system functions on strings are the record [Platform], digests and
    encoded lengths the records [Wire] and [AuthorityWire], the answers of the
    authority registry to an exchange the record [Authority], fresh identities and
    clocks are arguments.  The authority directory is a record of its files; a write
    can fail before or after it took effect, as [PublishIo] says, and a read gives the
    value that was written.  The summary of a job in a view and the encoded lengths of
    its nodes are arguments of [Views] and [Trees].

    The native store is the standalone one: an attempt needs no grant of another
    machine.  What a transaction reads from the world, each of its clock readings,
    scans of paths, host samples, the answer of the permission journal, is an
    argument, so that a theorem holds for every answer.  A transaction that can
    commit, roll back or fail says so in its result ([Tx]); [run_tx] gives the
    tables after it.  Event rows, log files and their tails, and reports built from
    rows are left out.

    ** What the theorems show

    - The coordinator.  Over every history of requests, scheduling passes and
      stops at any point of a commit, the tables stay consistent, native leases and
      outstanding grants together stay within every budget of the domain tree with
      compatible fences and impacts, and grants only move along their lifecycle
      ([coordinator_histories_safe]).  A stop between the journal entry and its
      closing followed by a retry gives the original outcome and tables
      ([crash_then_retry]); a committed request replays ([exchange_replays]).
    - Native jobs.  Every transaction refines the abstract life
      ([native_transactions_refine_life]).  Over every history, leases and remote
      grants together fit the machine, an open boundary is always covered by a
      granted lease, an active job has exactly one attempt underway, and a final job
      an outcome ([native_histories_are_safe]) which it keeps
      ([final_jobs_stay_final]).  Recovery leaves nothing underway and releases no
      lease of an unproven boundary ([recovery_settles_everything]); a settlement
      retries exactly when the policy says so ([settlement_reading]); a recorded
      identity reads back ([started_identity_reads_back]).  [native_step] names what
      the callers guarantee: a runner reports on the invocation it owns ([owns]) and
      settles an attempt when nothing of it is handled any more ([idle]), a
      resolution names a stored boundary ([names]), and the coordinator changes its
      grants only within the capacities (the subject of [coordinator_histories_safe]).
    - Runners.  A runner is a program of sections under the lock of the store and of
      executions by the platform ([Prog] of Runner.v); whatever the platform answers
      within the contract [Executor], which statements fail and what other threads do
      between its sections as long as they leave the work of its attempt to it
      ([others]), it keeps the guarantees above ([runners_keep_the_rules]).
    - Submissions.  Over every history of submissions, stops between the
      transactions of one, restarts and native transactions, a key of a scope names
      one submission, and an accepted one has one job per member
      ([submissions_are_decided_once]); a retry, however late, finds the receipt of
      the first answer and changes nothing ([retries_find_the_receipt]).
    - Managed jobs.  A proposal is accepted exactly when every ancestor permits it
      ([managed_policy_spec]), and every stored child lies within the policies of
      all its ancestors ([managed_jobs_stay_within_policies]).  An admitted wait
      reaches neither the waiting job nor a stranger, and each job it waits for fits
      beside the claims that were read for the ancestors
      ([admitted_wait_is_satisfiable]); the walks end ([managed_walks_end]).
    - The authority.  Over every history of operations, starts and initializations
      and whichever writes fail, memory holds what a restart would read, the files
      hold the registry before or after an event, and an answer of success means that
      the change is durable ([authority_publication_is_atomic]); no event loses an
      obligation except by the ends the code names ([authority_keeps_obligations]);
      the identities of a retired manager never return
      ([retired_identities_never_return]).
    - Views.  A client that polls with its last cursor receives every event of its
      selector once and in order ([followers_see_every_event]), and every poll answers
      with progress or names the gap ([observation_answers]); the pages of a list are
      the selected jobs ([list_pages_are_complete]); a page of a tree shows families
      in preorder under roots ordered by attention ([tree_pages_show_families]), and
      following all cursors serves every selected job
      ([every_selected_job_is_served]).
    - Messages and texts.  Frames read back in both protocols
      ([frames_read_back]), a bad frame is an error ([bad_frames_are_errors]), the
      bridge answers in order and never passes on a bad request
      ([bridge_answers_in_order]); names and identifiers read back
      ([stored_names_read_back]); cut diagnostics stay texts within their budget
      ([diagnostics_fit_budget]).
    - Start rights.  One is issued only on a current armed grant, with a host sample
      of at most 250 ms, when the claims fit and the host conditions hold
      ([start_right_requires_readiness]); identities are never shared
      ([start_rights_exclusive]); a released grant carries a cleanup proof for every
      start right ([released_grants_are_sealed]); the pages of the inventory return
      every outstanding grant once ([inventory_pages_complete]).
    - Reservations.  Normalisation keeps the longest fitting run of the ranking and
      is idempotent; the disposition of a job never reserves more than the machine
      has.
    - Admission.  The reservation decision on every branch, no oversubscription,
      aging and the schedule order; trees of budgets, expansion counts a claim once
      per budget, accounting is exact or an error, the scoped and the flat reports
      agree.
    - Host policy.  An evaluation without blockers rests on fresh evidence for all
      that was asked; the wildcard matcher is equivalent to its specification; quiet
      intervals have no gaps and quiet waiting charges elapsed time.
    - Documents.  Batch validation accepts exactly well-formed acyclic batches and
      never panics; accepted jobs are bounded, use the host's GPU and have canonical
      resource names.

    ** Bounds and fuel

    The loops that are not structural take fuel.  The ancestor walk of domains stops at a chain of sixteen domains,
    so seventeen units are enough; [ancestors_spec] shows that every tree within the
    limit is walked to its root.  The batch visit takes one unit per member;
    [batch_validate_spec] shows that it never runs out.  The manager's paging loop
    takes one call per grant plus one; [inventory_pages_complete] proves it returns.
    The bridge takes one unit per byte of its input, and every round consumes some
    ([bridge_answers_in_order]); the two searches for a character boundary take one
    per byte of the text ([next_boundary_spec], [prev_boundary_spec]).
    A chain of managed parents is cut by the code at 64 jobs, so the walk over
    policies takes 64 units and the search for an ancestor 65; the walk that collects
    the claims of ancestors takes two more than there are stored jobs, and the closure
    of a wait one per target and dependency ([managed_walks_end] shows
    that none of them runs out).  A family of a tree is cut by the code at 64 jobs, so
    its walks take 66 units; the breadth-first selection takes one per anchor and job
    and the search of a family one per job ([select_nodes_spec],
    [family_bucket_spec], [emit_node_total] show that they do not run out); the scan of
    a list takes one round per job and one more ([list_pages_are_complete]).  Every
    other recursion is structural.

    ** What is not modelled

    Pairing, connection and reset of managers and a pending domain retirement at the
    start of an exchange; the manager's side of the protocol ([store/attached.rs]),
    which drives a connection to another coordinator; the staging of inputs
    ([store/input.rs]), an upload into files.  Status reports, logs and the doctor read
    rows and format them.  The primitives of the authority file (rename, flush, locks),
    process control, sampling threads, transport, command line and terminal interface
    are input and output and stay outside. *)
From stdpp Require Export base gmap strings list sets sorting pretty.
From Stdlib Require Export ZArith Lia.
From Stdlib Require Ascii String.
#[global] Open Scope list_scope.
#[global] Open Scope N_scope.

(** ** Notation scope of the development *)
Declare Scope stillyard_scope.
Delimit Scope stillyard_scope with stillyard.

(** ** Record update

    [r <| p := v |>] sets the field [p] of a record whose type has an [Eta]
    instance; [r <| p ::= f |>] maps it. *)
Class Eta (R : Type) := eta : R → R.
Class Setter {R T : Type} (proj : R → T) := upd : (T → T) → R → R.
Arguments upd {R T} proj {_} f r /.
Ltac derive_setter :=
  match goal with |- @Setter ?R ?T ?p =>
    let t := constr:(λ (f : T → T) (r : R), ltac:(
      let e := eval hnf in (eta r) in
      let e' := eval pattern (p r) in e in
      lazymatch e' with ?F _ => let b := eval cbv beta in (F (f (p r))) in exact b end)) in exact t
  end.
#[export] Hint Extern 1 (Setter _) => derive_setter : typeclass_instances.
Notation "r <| p := v |>" := (upd p (λ _, v) r) (at level 1, left associativity, p at level 200, v at level 200).
Notation "r <| p ::= f |>" := (upd p f r) (at level 1, left associativity, p at level 200, f at level 200).

(** ** Machine integers

    Unsigned Rust integers are [N] (never negative), signed ones are [Z]; the
    width shows in the checked, saturating and converting operations below. *)
Definition u64_max : N := 18446744073709551615.
Definition u32_max : N := 4294967295.
Definition i64_max : Z := 9223372036854775807.
Definition i64_min : Z := -9223372036854775808.

(** [u64::checked_add]. *)
Definition checked_add (a b : N) : option N :=
  if decide (a + b ≤ u64_max) then Some (a + b) else None.

(** [u64::checked_sub]. *)
Definition checked_sub (a b : N) : option N :=
  if decide (b ≤ a) then Some (a - b) else None.

(** [u64::saturating_sub], [u64::saturating_add], [u64::saturating_mul]. *)
Definition saturating_sub (a b : N) : N := a - b.
Definition saturating_add (a b : N) : N := N.min (a + b) u64_max.
Definition saturating_mul (a b : N) : N := N.min (a * b) u64_max.

(** [i64::saturating_add], [i64::saturating_sub]. *)
Definition i64_clamp (z : Z) : Z := Z.max i64_min (Z.min z i64_max).
Definition i64_saturating_add (a b : Z) : Z := i64_clamp (a + b).
Definition i64_saturating_sub (a b : Z) : Z := i64_clamp (a - b).

(** [u64::try_from(i64).unwrap_or(0)] and [i64::try_from(u64)]. *)
Definition u64_of_i64_or_0 (z : Z) : N := Z.to_N z.
Definition i64_of_u64 (n : N) : option Z :=
  if decide (Z.of_N n ≤ i64_max)%Z then Some (Z.of_N n) else None.

Definition is_i64 (z : Z) : Prop := (i64_min ≤ z ≤ i64_max)%Z.

(** ** Results

    [Result<T, E>]: a two-constructor type with stdpp's monad notations. *)
Inductive result (E A : Type) : Type :=
| Ok (a : A)
| Err (e : E).
Arguments Ok {E A} a.
Arguments Err {E A} e.

#[global] Instance result_ret E : MRet (result E) := λ A a, Ok a.
#[global] Instance result_bind E : MBind (result E) := λ A B f r,
  match r with Ok a => f a | Err e => Err e end.
#[global] Instance result_fmap E : FMap (result E) := λ A B f r,
  match r with Ok a => Ok (f a) | Err e => Err e end.

#[global] Instance result_eq_dec E A `{EqDecision E, EqDecision A} :
  EqDecision (result E A).
Proof. solve_decision. Defined.

Definition is_ok {E A} (r : result E A) : bool :=
  match r with Ok _ => true | Err _ => false end.

(** [Result::unwrap_or]. *)
Definition unwrap_or {E A} (d : A) (r : result E A) : A :=
  match r with Ok a => a | Err _ => d end.

Lemma is_ok_unwrap_or {E A} (d : A) (r : result E A) : is_ok r = true → r = Ok (unwrap_or d r).
Proof. by destruct r. Qed.

(** [Option::ok_or]. *)
Definition ok_or {E A} (o : option A) (e : E) : result E A :=
  match o with Some a => Ok a | None => Err e end.

(** [Result::ok]. *)
Definition result_ok {E A} (r : result E A) : option A :=
  match r with Ok a => Some a | Err _ => None end.

(** [if c { return Err(e) }]. *)
Definition guard_err {E} (c : bool) (e : E) : result E unit :=
  if c then Err e else Ok tt.

(** [Iterator::collect::<Result<Vec<_>, _>>()] over a fallible map: the first
    error wins. *)
Fixpoint result_mapM {E A B} (f : A → result E B) (l : list A) : result E (list B) :=
  match l with
  | [] => Ok []
  | x :: l => y ← f x; ys ← result_mapM f l; Ok (y :: ys)
  end.

(** A [for] loop over [l] with state [s] whose body can return early with an
    error. *)
Fixpoint result_foldM {E A S} (f : S → A → result E S) (s : S) (l : list A) : result E S :=
  match l with
  | [] => Ok s
  | x :: l => s' ← f s x; result_foldM f s' l
  end.

Create HintDb stillyard.

(** Break a successful chain of binds into its steps. *)
Ltac result_inv :=
  repeat match goal with
  | H : Ok _ = Ok _ |- _ => injection H as H; subst
  | H : Err _ = Err _ |- _ => injection H as H; subst
  | H : Ok _ = Err _ |- _ => discriminate H
  | u : unit |- _ => destruct u
  | H : Err _ = Ok _ |- _ => discriminate H
  | H : guard_err ?c _ ≫= _ = Ok _ |- _ =>
      let E := fresh "Hguard" in
      destruct c eqn:E; simpl in H; [discriminate H|]
  | H : guard_err ?c _ = Ok _ |- _ =>
      let E := fresh "Hguard" in
      destruct c eqn:E; simpl in H; [discriminate H|clear H]
  | H : (?m ≫= _) = Ok _ |- _ =>
      let E := fresh "Hstep" in
      destruct m eqn:E; simpl in H; [|discriminate H]
  end.

Lemma result_bind_Ok {E A B} (m : result E A) (f : A → result E B) b :
  (m ≫= f) = Ok b ↔ ∃ a, m = Ok a ∧ f a = Ok b.
Proof. destruct m; simpl; naive_solver. Qed.

Lemma result_mapM_Ok {E A B} (f : A → result E B) l k :
  result_mapM f l = Ok k ↔ Forall2 (λ x y, f x = Ok y) l k.
Proof.
  revert k. induction l as [|x l IH]; intros k; simpl.
  - split; [intros H; result_inv; constructor|by inversion 1].
  - split.
    + intros H. result_inv. constructor; [done|by apply IH].
    + inversion 1 as [|? y ? k' Hx Hl]; subst. rewrite Hx. simpl.
      by rewrite (proj2 (IH _) Hl).
Qed.

(** Invariant rule for fallible loops: [P done s] holds after the elements
    [done]; the step case knows what is left. *)
Lemma result_foldM_ind {E A S} (P : list A → S → Prop) (f : S → A → result E S) s l s' :
  P [] s →
  (∀ done x rest s1 s2, l = done ++ x :: rest → P done s1 → f s1 x = Ok s2 → P (done ++ [x]) s2) →
  result_foldM f s l = Ok s' → P l s'.
Proof.
  intros H0 Hstep. assert (∀ done rest s1, l = done ++ rest → P done s1 →
    result_foldM f s1 rest = Ok s' → P l s') as Haux; [|by apply (Haux [] l)].
  intros done rest. revert done.
  induction rest as [|x rest IH]; intros done s1 Hl HP Hf; simpl in Hf; result_inv.
  - by rewrite app_nil_r.
  - apply (IH (done ++ [x]) a); [by rewrite Hl, <-(assoc_L (++))| |done]. by eapply Hstep.
Qed.

(** The same rule when every step succeeds. *)
Lemma result_foldM_total {E A S} (P : list A → S → Prop) (f : S → A → result E S) s l :
  P [] s →
  (∀ done x rest s1, l = done ++ x :: rest → P done s1 →
     ∃ s2, f s1 x = Ok s2 ∧ P (done ++ [x]) s2) →
  ∃ s', result_foldM f s l = Ok s' ∧ P l s'.
Proof.
  intros H0 Hstep. assert (∀ done rest s1, l = done ++ rest → P done s1 →
    ∃ s', result_foldM f s1 rest = Ok s' ∧ P l s') as Haux; [|by apply (Haux [] l)].
  intros done rest. revert done.
  induction rest as [|x rest IH]; intros done s1 Hl HP; simpl.
  - exists s1. rewrite app_nil_r in Hl. by subst.
  - destruct (Hstep done x rest s1 Hl HP) as (s2 & Hs2 & HP2). rewrite Hs2. simpl.
    apply (IH (done ++ [x])); [by rewrite Hl, <-(assoc_L (++))|done].
Qed.

(** A loop that checks each element and rejects a repeated key:
    [for x in l { check(x)?; if !seen.insert(key(x)) { return Err(..) } }]. *)
Lemma seen_loop {E A} `{Countable K} (check : A → result E unit) (key : A → K) (e : A → E)
    (f : gset K → A → result E (gset K)) (seen seen' : gset K) l :
  (∀ s x, f s x = (_ ← check x; _ ← guard_err (bool_decide (key x ∈ s)) (e x); Ok ({[key x]} ∪ s))) →
  result_foldM f seen l = Ok seen' ↔
    Forall (λ x, check x = Ok tt) l ∧ NoDup (key <$> l) ∧ (∀ x, x ∈ l → key x ∉ seen) ∧
    seen' = list_to_set (key <$> l) ∪ seen.
Proof.
  intros Hf. revert seen. induction l as [|x l IH]; intros seen; simpl.
  { split; [intros H'; result_inv|intros (_ & _ & _ & ->); f_equal; set_solver].
    split_and!; [constructor..|set_solver|set_solver]. }
  rewrite Hf, Forall_cons, NoDup_cons. split.
  - intros Hrun. destruct (check x) as [[]|] eqn:Hc; simpl in Hrun; [|done].
    case_bool_decide as Hx; simpl in Hrun; [done|].
    apply IH in Hrun as (Hall & Hnd & Hout & ->). split_and!; [done|done| |done|..|].
    + intros (y & Heq & Hy)%list_elem_of_fmap. apply (Hout y Hy). set_solver.
    + intros y [->|Hy]%elem_of_cons; [done|]. specialize (Hout y Hy). set_solver.
    + set_solver.
  - intros ([Hc Hall] & [Hx Hnd] & Hout & ->). rewrite Hc. simpl.
    rewrite bool_decide_eq_false_2 by (apply Hout; by left). simpl. apply IH.
    split_and!; [done|done| |set_solver].
    intros y Hy. assert (key y ≠ key x); [|specialize (Hout y); set_solver].
    intros Heq. apply Hx. rewrite <-Heq. by apply list_elem_of_fmap_2.
Qed.

Lemma result_mapM_unit {E A} (f : A → result E unit) l :
  (∃ k, result_mapM f l = Ok k) ↔ Forall (λ x, f x = Ok tt) l.
Proof.
  induction l as [|x l IH]; simpl; [split; [constructor|by eexists]|].
  rewrite Forall_cons, <-IH. split.
  - intros [k Hk]. result_inv. eauto.
  - intros [-> [k Hk]]. simpl. rewrite Hk. by eexists.
Qed.

(** ** Boolean conditions *)
Lemma bool_decide_or_false P Q `{Decision P, Decision Q} :
  bool_decide P || bool_decide Q = false → ¬ P ∧ ¬ Q.
Proof. intros [?%bool_decide_eq_false ?%bool_decide_eq_false]%orb_false_iff; done. Qed.

(** Turn a disjunction of rejected conditions into separate facts. *)
Ltac split_conditions :=
  repeat match goal with
  | H : (_ || _) = false |- _ => apply orb_false_iff in H; destruct H
  | H : (_ && _) = true |- _ => apply andb_true_iff in H; destruct H
  | H : negb _ = false |- _ => apply negb_false_iff in H
  | H : negb _ = true |- _ => apply negb_true_iff in H
  | H : bool_decide _ = true |- _ => apply bool_decide_eq_true in H
  | H : bool_decide _ = false |- _ => apply bool_decide_eq_false in H
  end.

(** ** Sums and checked sums *)
Definition sum_N (l : list N) : N := foldr N.add 0 l.

Lemma sum_N_app l k : sum_N (l ++ k) = sum_N l + sum_N k.
Proof. induction l as [|x l IH]; simpl; [done|]. rewrite IH. lia. Qed.

Lemma sum_N_elem_of x l : x ∈ l → x ≤ sum_N l.
Proof. induction 1; simpl; lia. Qed.

#[global] Instance sum_N_Permutation : Proper ((≡ₚ) ==> (=)) sum_N.
Proof. induction 1; simpl; lia. Qed.

Lemma sum_N_zero l : sum_N l = 0 ↔ Forall (λ x, x = 0) l.
Proof.
  induction l as [|x l IH]; simpl; [done|].
  rewrite Forall_cons, <-IH. lia.
Qed.

Lemma checked_add_Some a b c : checked_add a b = Some c ↔ c = a + b ∧ a + b ≤ u64_max.
Proof.
  unfold checked_add. case_decide; (split; [intros Heq|intros [-> ?]]);
    simplify_eq; auto; lia.
Qed.

Lemma checked_sub_Some a b c : checked_sub a b = Some c ↔ c = a - b ∧ b ≤ a.
Proof.
  unfold checked_sub. case_decide; (split; [intros Heq|intros [-> ?]]);
    simplify_eq; auto; lia.
Qed.

Lemma checked_sub_None a b : checked_sub a b = None ↔ a < b.
Proof. unfold checked_sub. case_decide; split; intros; simplify_eq; auto; lia. Qed.

(** ** Ordered keys: the [Ord] of [BTreeMap] keys and [BTreeSet] elements *)
Class BTreeKey (K : Type) := {
  btree_le : relation K;
  btree_le_dec :: RelDecision btree_le;
  btree_le_po :: PartialOrder btree_le;
  btree_le_total :: Total btree_le;
}.

#[global] Instance btree_string : BTreeKey string := {| btree_le := String.le |}.
#[global] Instance btree_N : BTreeKey N := {| btree_le := N.le |}.
#[global] Instance btree_Z : BTreeKey Z := {| btree_le := Z.le |}.

(** Derived [Ord] of a pair: lexicographic. *)
Definition lex_le `{BTreeKey A, BTreeKey B} (p q : A * B) : Prop :=
  (p.1 ≠ q.1 ∧ btree_le p.1 q.1) ∨ (p.1 = q.1 ∧ btree_le p.2 q.2).

#[global] Instance lex_le_dec `{EqDecision A, BTreeKey A, BTreeKey B} :
  RelDecision (lex_le (A:=A) (B:=B)).
Proof. unfold lex_le. intros p q. apply _. Defined.

#[global] Program Instance btree_prod `{EqDecision A, BTreeKey A, BTreeKey B} :
  BTreeKey (A * B) := {| btree_le := lex_le |}.
Next Obligation.
  intros A ? ? B ?. split; [split|].
  - intros [a b]. right. done.
  - intros [a b] [c d] [e f] [[H1 H2]|[H1 H2]] [[H3 H4]|[H3 H4]]; simpl in *; subst.
    + left. simpl. split; [|by etrans]. intros ->. apply H1.
      by apply (anti_symm btree_le).
    + by left.
    + by left.
    + right. simpl. split; [done|by etrans].
  - intros [a b] [c d] [[H1 H2]|[H1 H2]] [[H3 H4]|[H3 H4]]; simpl in *; subst; try done.
    + destruct H1. by apply (anti_symm btree_le).
    + f_equal. by apply (anti_symm btree_le).
Qed.
Next Obligation.
  intros A ? ? B ? [a b] [c d]. unfold lex_le; simpl.
  destruct (decide (a = c)) as [->|Hne].
  - destruct (total btree_le b d); [left|right]; right; done.
  - destruct (total btree_le a c); [left|right]; left; done.
Qed.

(** An order carried along an injective function. *)
Program Definition btree_inj {A B} `{BTreeKey B} (f : A → B) `{!Inj (=) (=) f} : BTreeKey A :=
  {| btree_le x y := btree_le (f x) (f y) |}.
Next Obligation. intros A B ? f ? x y. apply _. Defined.
Next Obligation.
  intros A B ? f ?. split; [split|].
  - by intros x.
  - intros x y z ? ?. by etrans.
  - intros x y ? ?. apply (inj f). by apply (anti_symm btree_le).
Qed.
Next Obligation. intros A B ? f ? x y. apply (total btree_le). Qed.

(** ** Stable sorting: [slice::sort_by] *)
Section sort_by.
Context {A : Type} (R : relation A) `{!RelDecision R}.

Fixpoint sort_insert (x : A) (l : list A) : list A :=
  match l with
  | [] => [x]
  | y :: l' => if decide (R x y) then x :: l else y :: sort_insert x l'
  end.
Definition sort_by (l : list A) : list A := foldr sort_insert [] l.

Lemma sort_insert_Permutation x l : sort_insert x l ≡ₚ x :: l.
Proof.
  induction l as [|y l IH]; simpl; [done|].
  case_decide; [done|]. rewrite IH. constructor.
Qed.

Lemma sort_by_Permutation l : sort_by l ≡ₚ l.
Proof.
  induction l as [|x l IH]; simpl; [done|].
  by rewrite sort_insert_Permutation, IH.
Qed.

Lemma elem_of_sort_by x l : x ∈ sort_by l ↔ x ∈ l.
Proof. by rewrite sort_by_Permutation. Qed.

Lemma sort_insert_sorted `{!Transitive R, !Total R} x l :
  StronglySorted R l → StronglySorted R (sort_insert x l).
Proof.
  induction 1 as [|y l Hl IH Hy]; simpl; [by repeat constructor|].
  case_decide as Hxy.
  - constructor; [by constructor|]. constructor; [done|].
    eapply Forall_impl; [done|]. intros z ?. by etrans.
  - constructor; [done|].
    rewrite sort_insert_Permutation. constructor; [|done].
    by destruct (total R x y).
Qed.

Lemma sort_by_sorted `{!Transitive R, !Total R} l : StronglySorted R (sort_by l).
Proof. induction l; simpl; [constructor|by apply sort_insert_sorted]. Qed.
End sort_by.

(** [Vec::dedup]: drops consecutive repetitions. *)
Fixpoint dedup {A} `{EqDecision A} (l : list A) : list A :=
  match l with
  | [] => []
  | x :: l' =>
      match dedup l' with
      | y :: k => if decide (x = y) then y :: k else x :: y :: k
      | [] => [x]
      end
  end.

Section dedup.
Context {A : Type} `{EqDecision A}.

Lemma elem_of_dedup (x : A) l : x ∈ dedup l ↔ x ∈ l.
Proof.
  induction l as [|y l IH]; simpl; [done|]. rewrite elem_of_cons, <-IH.
  destruct (dedup l) as [|z k]; [set_solver|]. case_decide; set_solver.
Qed.

Lemma dedup_nil (l : list A) : dedup l = [] ↔ l = [].
Proof.
  destruct l as [|x l]; simpl; [done|].
  destruct (dedup l); [done|]. by case_decide.
Qed.

(** On a list sorted by a partial order, [dedup] leaves each element once. *)
Lemma dedup_sorted_NoDup (R : relation A) `{!PartialOrder R} l :
  StronglySorted R l → StronglySorted R (dedup l) ∧ NoDup (dedup l).
Proof.
  induction 1 as [|x l Hl [IH1 IH2] Hx]; simpl; [by repeat constructor|].
  assert (Forall (R x) (dedup l)) as Hx'.
  { apply Forall_forall. intros y Hy. rewrite elem_of_dedup in Hy.
    by apply (proj1 (Forall_forall _ _) Hx). }
  destruct (dedup l) as [|y k] eqn:E; [split; repeat constructor; set_solver|].
  case_decide as Hxy; [done|]. split; [by constructor|].
  constructor; [|done]. intros [->|Hin]%elem_of_cons; [done|].
  inversion IH1 as [|? ? _ Hy]; subst.
  inversion Hx' as [|? ? Hxy' _]; subst.
  apply Hxy. apply (anti_symm R); [done|].
  by apply (proj1 (Forall_forall _ _) Hy).
Qed.
End dedup.

(** Sorting by a partial order and dropping repetitions gives a canonical
    form: it only depends on the set of elements. *)
Lemma sort_dedup_ext {A} `{EqDecision A} (R : relation A)
    `{!RelDecision R, !PartialOrder R, !Total R} (l k : list A) :
  (∀ x, x ∈ l ↔ x ∈ k) → dedup (sort_by R l) = dedup (sort_by R k).
Proof.
  intros Hlk.
  destruct (dedup_sorted_NoDup R _ (sort_by_sorted R l)) as [Hs1 Hd1].
  destruct (dedup_sorted_NoDup R _ (sort_by_sorted R k)) as [Hs2 Hd2].
  apply (StronglySorted_unique R); [done..|].
  apply NoDup_Permutation; [done..|]. intros x.
  by rewrite !elem_of_dedup, !elem_of_sort_by.
Qed.

(** ** [BTreeMap] and [BTreeSet]

    A [BTreeMap<K, V>] is a [gmap K V]; iteration is in key order. *)
Section btree.
Context `{Countable K, BTreeKey K} {V : Type}.

Definition entry_le (p q : K * V) : Prop := btree_le p.1 q.1.
#[global] Instance entry_le_dec : RelDecision entry_le.
Proof. intros p q. unfold entry_le. apply _. Defined.

Definition btree_entries (m : gmap K V) : list (K * V) :=
  sort_by entry_le (map_to_list m).
Definition btree_keys (m : gmap K V) : list K := (btree_entries m).*1.
Definition btree_values (m : gmap K V) : list V := (btree_entries m).*2.
Definition btree_elements (s : gset K) : list K := sort_by btree_le (elements s).

(** [collect::<BTreeMap<_, _>>()] and [extend]: later entries overwrite. *)
Definition btree_extend (m : gmap K V) (l : list (K * V)) : gmap K V :=
  foldl (λ m p, <[p.1 := p.2]> m) m l.

Lemma elem_of_btree_entries (m : gmap K V) k v :
  (k, v) ∈ btree_entries m ↔ m !! k = Some v.
Proof. unfold btree_entries. by rewrite elem_of_sort_by, elem_of_map_to_list. Qed.

Lemma elem_of_btree_keys (m : gmap K V) k : k ∈ btree_keys m ↔ is_Some (m !! k).
Proof.
  unfold btree_keys. rewrite list_elem_of_fmap. split.
  - intros ([k' v] & -> & Hin%elem_of_btree_entries). by eexists.
  - intros [v Hv]. exists (k, v). by rewrite elem_of_btree_entries.
Qed.

Lemma btree_entries_Permutation (m : gmap K V) : btree_entries m ≡ₚ map_to_list m.
Proof. apply sort_by_Permutation. Qed.

Lemma NoDup_btree_keys (m : gmap K V) : NoDup (btree_keys m).
Proof.
  unfold btree_keys. rewrite btree_entries_Permutation. apply NoDup_fst_map_to_list.
Qed.

Lemma elem_of_btree_elements (s : gset K) k : k ∈ btree_elements s ↔ k ∈ s.
Proof. unfold btree_elements. by rewrite elem_of_sort_by, elem_of_elements. Qed.

Lemma Forall_btree_entries (P : K * V → Prop) (m : gmap K V) :
  Forall P (btree_entries m) ↔ ∀ k v, m !! k = Some v → P (k, v).
Proof.
  rewrite Forall_forall. split.
  - intros HP k v Hk. apply HP. by apply elem_of_btree_entries.
  - intros HP [k v] Hin%elem_of_btree_entries. by apply HP.
Qed.
End btree.
#[global] Arguments btree_elements : simpl never.
#[global] Arguments btree_entries : simpl never.

(** ** Strings

    A Rust [String] is its UTF-8 bytes: Stdlib's [string], one [ascii] per
    byte.  [str::len] is the number of bytes. *)
Abbreviation ascii := Ascii.ascii.
Abbreviation N_of_ascii := Ascii.N_of_ascii.
Abbreviation ascii_of_N := Ascii.ascii_of_N.

Definition len (s : string) : N := N.of_nat (String.length s).

Fixpoint string_forall (p : ascii → bool) (s : string) : bool :=
  match s with
  | EmptyString => true
  | String c s => p c && string_forall p s
  end.
Definition string_exists (p : ascii → bool) (s : string) : bool :=
  negb (string_forall (λ c, negb (p c)) s).
Fixpoint string_map (f : ascii → ascii) (s : string) : string :=
  match s with
  | EmptyString => EmptyString
  | String c s => String (f c) (string_map f s)
  end.

(** [str::contains] of one of several characters. *)
Definition contains_any (cs : list ascii) (s : string) : bool :=
  string_exists (λ c, bool_decide (c ∈ cs)) s.
Definition nul : ascii := Ascii.zero.
Definition contains_nul (s : string) : bool := contains_any [nul] s.

(** [str::strip_prefix] and [str::starts_with]. *)
Fixpoint strip_prefix (p s : string) : option string :=
  match p, s with
  | EmptyString, _ => Some s
  | String a p, String b s => if decide (a = b) then strip_prefix p s else None
  | String _ _, EmptyString => None
  end.
Definition starts_with (p s : string) : bool := bool_decide (is_Some (strip_prefix p s)).

(** [str::is_ascii], [str::to_ascii_lowercase], [str::eq_ignore_ascii_case]. *)
Definition byte_is_ascii (c : ascii) : bool := bool_decide (N_of_ascii c < 128).
Definition is_ascii (s : string) : bool := string_forall byte_is_ascii s.
Definition ascii_lower (c : ascii) : ascii :=
  let n := N_of_ascii c in
  if bool_decide (65 ≤ n ∧ n ≤ 90) then ascii_of_N (n + 32) else c.
Definition to_ascii_lowercase (s : string) : string := string_map ascii_lower s.
Definition eq_ignore_ascii_case (a b : string) : bool :=
  bool_decide (to_ascii_lowercase a = to_ascii_lowercase b).

Lemma ascii_lower_idemp c : ascii_lower (ascii_lower c) = ascii_lower c.
Proof. destruct c as [[] [] [] [] [] [] [] []]; reflexivity. Qed.

Lemma byte_is_ascii_lower c : byte_is_ascii (ascii_lower c) = byte_is_ascii c.
Proof. destruct c as [[] [] [] [] [] [] [] []]; reflexivity. Qed.

Lemma ascii_lower_nul c : ascii_lower c = nul ↔ c = nul.
Proof.
  destruct c as [[] [] [] [] [] [] [] []]; split; vm_compute; intros H;
    first [discriminate H | reflexivity].
Qed.

Lemma to_ascii_lowercase_idemp s :
  to_ascii_lowercase (to_ascii_lowercase s) = to_ascii_lowercase s.
Proof.
  unfold to_ascii_lowercase. induction s as [|c s IH]; simpl; [done|].
  by rewrite ascii_lower_idemp, IH.
Qed.

Lemma length_string_map f s : String.length (string_map f s) = String.length s.
Proof. induction s; simpl; congruence. Qed.

Lemma len_to_ascii_lowercase s : len (to_ascii_lowercase s) = len s.
Proof. unfold len, to_ascii_lowercase. by rewrite length_string_map. Qed.

Lemma is_ascii_to_ascii_lowercase s : is_ascii (to_ascii_lowercase s) = is_ascii s.
Proof.
  unfold is_ascii, to_ascii_lowercase. induction s as [|c s IH]; simpl; [done|].
  by rewrite byte_is_ascii_lower, IH.
Qed.

Lemma contains_nul_to_ascii_lowercase s :
  contains_nul (to_ascii_lowercase s) = contains_nul s.
Proof.
  unfold contains_nul, contains_any, string_exists, to_ascii_lowercase. f_equal.
  induction s as [|c s IH]; simpl; [done|]. rewrite IH. f_equal. f_equal.
  apply bool_decide_ext. rewrite !list_elem_of_singleton. apply ascii_lower_nul.
Qed.

Lemma strip_prefix_Some p s t : strip_prefix p s = Some t ↔ s = p +:+ t.
Proof.
  revert s. induction p as [|a p IH]; intros s; simpl.
  { split; [by intros [= ->]|by intros ->]. }
  destruct s as [|b s]; [done|]. case_decide as Hab.
  - subst. rewrite IH. split; [by intros ->|by intros [= ->]].
  - split; [done|]. intros [= -> ->]. done.
Qed.

Lemma strip_prefix_app p s : strip_prefix p (p +:+ s) = Some s.
Proof. by apply strip_prefix_Some. Qed.
#[global] Arguments strip_prefix : simpl never.

Lemma app_cons_s c (a b : string) : String c a +:+ b = String c (a +:+ b).
Proof. done. Qed.

Lemma app_assoc_s (a b c : string) : a +:+ (b +:+ c) = (a +:+ b) +:+ c.
Proof.
  induction a as [|x a IH]; [done|].
  by rewrite !app_cons_s, IH.
Qed.

Lemma app_nil_s (a : string) : a +:+ "" = a.
Proof.
  induction a as [|x a IH]; [done|]. by rewrite app_cons_s, IH.
Qed.

Lemma len_app s t : len (s +:+ t) = len s + len t.
Proof.
  unfold len. assert (String.length (s +:+ t) = (String.length s + String.length t)%nat) as ->.
  { induction s as [|c s IH]; [done|]. change (String c s +:+ t) with (String c (s +:+ t)).
    simpl. by rewrite IH. }
  lia.
Qed.

(** ** UUIDs

    A [Uuid] is its 128-bit value; [Uuid::nil()] is zero and its [Ord] is the
    order of the big-endian bytes. *)
Definition Uuid := N.
Definition uuid_nil : Uuid := 0.
Definition uuid_is_nil (u : Uuid) : bool := bool_decide (u = uuid_nil).
#[global] Instance Uuid_eq_dec : EqDecision Uuid := N.eq_dec.
#[global] Instance Uuid_countable : Countable Uuid := N_countable.
#[global] Instance Uuid_btree : BTreeKey Uuid := btree_N.
