(* ===== verification/Spec.v ===== *)
(** * Spec: submission documents and host configuration ([src/src/spec.rs])

    The document types as records and variants, and canonical resource names.  A
    [PathBuf] is its rendered string.  What the operating system or another
    crate computes on a string is the record [Platform]. *)
From S2P Require Import Prelude.

(** The functions the validators call but the repository does not define. *)
Record Platform := {
  windows : bool;                          (* cfg!(windows) *)
  to_uppercase : string → string;          (* str::to_uppercase *)
  path_is_absolute : string → bool;        (* Path::is_absolute *)
  json_len : string → option N;            (* serde_json::to_vec(_)?.len() *)
  debug_str : string → string;             (* the {:?} rendering of a str *)
}.

(** Errors of [src/src/error.rs] the validators produce. *)
Inductive Error : Type :=
| InvalidSpec (detail : string)
| Serialization.
#[global] Instance Error_eq_dec : EqDecision Error.
Proof. solve_decision. Defined.

(** ** Constants *)
Definition SPEC_VERSION : N := 4.
Definition MIN_JOB_PRIORITY : Z := -3.
Definition NEUTRAL_JOB_PRIORITY : Z := 0.
Definition MAX_JOB_PRIORITY : Z := 3.
Definition PRIORITY_AGING_QUANTUM_MILLIS : N := 60000.
Definition MAX_EFFECTIVE_PRIORITY : Z := 1000000.
Definition SCALAR_RESERVATION_HOLD_MILLIS : N := 60000.
Definition SCALAR_RESERVATION_BACKOFF_MILLIS : N := 5000.

(** ** Documents *)
Record Label := { label_key : string; label_value : string }.

Inductive StdinSpec :=
| StdinEof
| StdinFile (path : string).

Record EnvironmentSpec := {
  env_set : gmap string string;
  env_unset : list string;
}.

Record ResourceClaims := {
  rc_cpu_units : option N;
  rc_ram_mb : option N;
  rc_cargo_slots : option N;
  rc_gpu_slots : option N;
  rc_custom : gmap string N;
  rc_shared_fences : list string;
  rc_exclusive_fences : list string;
  rc_impacts : list string;
}.

Record ResourceCapacities := {
  cap_cpu_units : N;
  cap_ram_mb : N;
  cap_cargo_slots : N;
  cap_gpu_slots : N;
  cap_custom : gmap string N;
}.

Record ResourceClaimLimits := {
  lim_cpu_units : option N;
  lim_ram_mb : option N;
  lim_cargo_slots : option N;
  lim_gpu_slots : option N;
  lim_custom : gmap string N;
}.

Record ChildFencePolicy := {
  cf_shared_roots : list string;
  cf_exclusive_roots : list string;
}.

Record ChildSubmissionPolicy := {
  cp_min_priority : Z;
  cp_max_priority : Z;
  cp_max_claims : ResourceClaimLimits;
  cp_allowed_impacts : list string;
  cp_required_labels : list Label;
  cp_fences : ChildFencePolicy;
  cp_allow_observed : bool;
  cp_allow_quiet : bool;
  cp_allow_delegation : bool;
}.

Inductive PathConditionState := Absent | Present.

Inductive ConditionDeadline :=
| DeadlineNone
| DeadlineRelative (seconds : N)
| DeadlineAbsolute (unix_millis : Z).

Inductive ConditionDeadlineOutcome := DeadlineFailed | DeadlineCanceled.

Record ProbeCondition := {
  probe_executable : string;
  probe_args : list string;
  probe_working_directory : string;
  probe_environment : EnvironmentSpec;
  probe_resources : ResourceClaims;
  probe_timeout_seconds : N;
  probe_interval_seconds : N;
  probe_accepted_exit_codes : list Z;
}.

Inductive ConditionPredicate :=
| PathExists (path : string)
| PathAbsent (path : string)
| PathTransition (path : string) (from to : PathConditionState)
| NotBefore (unix_millis : Z)
| Probe (probe : ProbeCondition).

Record ConditionSpec := {
  cond_predicate : ConditionPredicate;
  cond_deadline : ConditionDeadline;
  cond_on_deadline : ConditionDeadlineOutcome;
}.

Inductive QuietDetector :=
| CpuUtilization (max_percent : N)
| GpuUtilization (gpu_uuid : string) (max_percent : N)
| DiskUtilization (max_percent : N)
| ForeignGpuCompute (gpu_uuid : string)
| BlockedProcesses.

Record QuietPolicy := {
  quiet_stable_seconds : N;
  quiet_max_sample_age_seconds : N;
  quiet_wait_budget_seconds : N;
  quiet_detectors : list QuietDetector;
}.

Record ObservedResourcePolicy := {
  obs_max_sample_age_seconds : N;
  obs_cpu_utilization_percent_at_most : option N;
  obs_gpu_utilization_percent_at_most : gmap string N;
}.

Record RetryPolicy := {
  retry_max_attempts : N;
  retry_backoff_seconds : N;
  retry_retryable : list string;
}.

Record PostconditionSpec := {
  post_executable : string;
  post_args : list string;
  post_working_directory : option string;
  post_accepted_exit_codes : list Z;
  post_retryable_exit_codes : list Z;
}.

Record JobSpec := {
  job_spec_version : N;
  job_priority : Z;
  job_executable : string;
  job_args : list string;
  job_working_directory : string;
  job_stdin : StdinSpec;
  job_environment : EnvironmentSpec;
  job_resources : ResourceClaims;
  job_observed : option ObservedResourcePolicy;
  job_conditions : list ConditionSpec;
  job_retry : RetryPolicy;
  job_postconditions : list PostconditionSpec;
  job_labels : list Label;
  job_expected_duration_seconds : option N;
  job_timeout_seconds : option N;
  job_quiet : option QuietPolicy;
  job_artifacts : list string;
  job_child_submission_policy : option ChildSubmissionPolicy;
}.

Record ProcessRules := {
  rules_block : list string;
  rules_ignore : list string;
}.

Inductive GpuProviderConfig := Nvml | Disabled.

Record HostObservationConfig := {
  hoc_sample_interval_millis : N;
  hoc_quiet_max_sample_gap_millis : N;
  hoc_generation_max_cadence_gap_millis : N;
  hoc_memory_max_sample_age_millis : N;
  hoc_ram_safety_margin_mb : N;
  hoc_vram_safety_margin_mb : N;
  hoc_gpu_slot_uuid : option string;
  hoc_process_rules : ProcessRules;
  hoc_pre_release_max_deferrals : N;
  hoc_pre_release_backoff_millis : N;
  hoc_admission_wall_clock_limit_seconds : N;
  hoc_condition_rescan_interval_millis : N;
  hoc_gpu_provider : GpuProviderConfig;
}.

Record HostConfig := {
  host_resources : ResourceCapacities;
  host_impact_incompatibilities : gmap string (list string);
  host_observation : HostObservationConfig;
}.

Inductive DependencyKind := DependencySuccess | DependencyFailure | DependencyTerminal.

Record DependencySpec := { dep_job : string; dep_on : DependencyKind }.

Record BatchMember := {
  member_name : string;
  member_spec : JobSpec;
  member_dependencies : list DependencySpec;
}.

Record BatchSpec := {
  batch_spec_version : N;
  batch_jobs : list BatchMember;
}.

#[global] Instance Label_eq_dec : EqDecision Label.
Proof. solve_decision. Defined.
#[global] Instance PathConditionState_eq_dec : EqDecision PathConditionState.
Proof. solve_decision. Defined.
#[global] Instance QuietDetector_eq_dec : EqDecision QuietDetector.
Proof. solve_decision. Defined.
#[global] Instance QuietPolicy_eq_dec : EqDecision QuietPolicy.
Proof. solve_decision. Defined.
#[global] Instance ObservedResourcePolicy_eq_dec : EqDecision ObservedResourcePolicy.
Proof. solve_decision. Defined.
#[global] Instance DependencyKind_eq_dec : EqDecision DependencyKind.
Proof. solve_decision. Defined.

(** ** Resource names *)
Definition is_builtin_resource (name : string) : bool :=
  bool_decide (name ∈ ["cpu_units"; "ram_mb"; "cargo_slots"; "gpu_slots"]%string).

Definition vram_prefix : string := "vram_mb:".
Definition gpu_prefix : string := "gpu-".

Definition canonical_gpu_uuid (value : string) : result Error string :=
  if bool_decide (value = "") || bool_decide (128 < len value) || contains_nul value
     || negb (is_ascii value) || negb (starts_with gpu_prefix (to_ascii_lowercase value))
  then Err (InvalidSpec "invalid GPU UUID")
  else Ok (to_ascii_lowercase value).

Definition split_vram_key (value : string) : result Error (string * string) :=
  match strip_prefix vram_prefix value with
  | None => Err (InvalidSpec "invalid VRAM resource key")
  | Some uuid => _ ← canonical_gpu_uuid uuid; Ok ("vram_mb", uuid)
  end.

Definition canonical_custom_resource_name (value : string) : result Error string :=
  match strip_prefix vram_prefix value with
  | Some uuid => canonical ← canonical_gpu_uuid uuid; Ok (vram_prefix +:+ canonical)
  | None => Ok value
  end.

(** The loop body of [validate_vram_keys]. *)
Definition validate_vram_key (canonical : gset string) (name : string)
    : result Error (gset string) :=
  if starts_with vram_prefix (to_ascii_lowercase name) then
    _ ← guard_err (negb (starts_with vram_prefix name))
          (InvalidSpec "VRAM resource keys require the lowercase vram_mb: prefix");
    split ← split_vram_key name;
    uuid ← canonical_gpu_uuid split.2;
    _ ← guard_err (bool_decide (uuid ∈ canonical)) (InvalidSpec "duplicate VRAM GPU UUID");
    Ok ({[uuid]} ∪ canonical)
  else Ok canonical.

Definition validate_vram_keys (keys : list string) : result Error unit :=
  _ ← result_foldM validate_vram_key ∅ keys; Ok tt.
