(* ===== verification/Validate.v ===== *)
(** * Validate: the [validate] methods of [src/src/spec.rs]

    Every method returns the first failing check, in the order of the source.
    The loops that insert into a [BTreeSet] and reject a repetition are
    [result_foldM] over the set of values seen so far. *)
From S2P Require Import Prelude Spec.

Section validate.
Context (pf : Platform).

Definition validate_policy_name (kind name : string) : result Error unit :=
  guard_err (bool_decide (name = "") || bool_decide (64 < len name) || contains_nul name)
    (InvalidSpec ("invalid " +:+ kind +:+ " name")).

Definition validate_percent (value : N) : result Error unit :=
  if bool_decide (value ≤ 100) then Ok tt
  else Err (InvalidSpec "utilization percentage exceeds 100").

Definition pattern_forbidden : list ascii :=
  [nul; ascii_of_N 47; ascii_of_N 92; ascii_of_N 63; ascii_of_N 91; ascii_of_N 93].

Definition validate_process_pattern (pattern : string) : result Error unit :=
  guard_err (bool_decide (pattern = "") || bool_decide (128 < len pattern)
             || contains_any pattern_forbidden pattern || negb (is_ascii pattern))
    (InvalidSpec "invalid process basename pattern").

Definition Label_validate (l : Label) : result Error unit :=
  _ ← guard_err (bool_decide (label_key l = "") || bool_decide (64 < len (label_key l))
                 || bool_decide (label_value l = "") || bool_decide (128 < len (label_value l)))
        (InvalidSpec "label key/value is empty");
  guard_err (contains_any [nul; ascii_of_N 61] (label_key l) || contains_nul (label_value l))
    (InvalidSpec "label contains NUL or key contains '='").

(** [for label in labels { label.validate()?; if !keys.insert(..) {..} }] *)
Definition validate_labels (duplicate : string → string) (labels : list Label)
    : result Error unit :=
  _ ← result_foldM (λ (seen : gset string) l,
        _ ← Label_validate l;
        _ ← guard_err (bool_decide (label_key l ∈ seen)) (InvalidSpec (duplicate (label_key l)));
        Ok ({[label_key l]} ∪ seen)) ∅ labels;
  Ok tt.

(** [for impact in impacts { validate_policy_name(..)?; if !insert {..} }] *)
Definition validate_impacts (duplicate : string) (impacts : list string)
    : result Error unit :=
  _ ← result_foldM (λ (seen : gset string) impact,
        _ ← validate_policy_name "impact" impact;
        _ ← guard_err (bool_decide (impact ∈ seen)) (InvalidSpec duplicate);
        Ok ({[impact]} ∪ seen)) ∅ impacts;
  Ok tt.

(** The closure over [custom.iter()] shared by claims and claim limits. *)
Definition custom_claim_invalid (p : string * N) : bool :=
  bool_decide (p.1 = "") || bool_decide (64 < len p.1) || contains_nul p.1
  || is_builtin_resource p.1 || bool_decide (p.2 = 0).

Definition scalar_claims_invalid (cpu ram cargo gpu : option N) (custom : gmap string N) : bool :=
  bool_decide (cpu = Some 0) || bool_decide (ram = Some 0) || bool_decide (cargo = Some 0)
  || bool_decide (gpu = Some 0) || existsb custom_claim_invalid (btree_entries custom).

Definition ResourceClaimLimits_validate (l : ResourceClaimLimits) : result Error unit :=
  _ ← guard_err (bool_decide (16 < size (lim_custom l))%nat)
        (InvalidSpec "child policy has more than 16 custom claim limits");
  _ ← guard_err (scalar_claims_invalid (lim_cpu_units l) (lim_ram_mb l) (lim_cargo_slots l)
                   (lim_gpu_slots l) (lim_custom l))
        (InvalidSpec "child claim limits and custom names must be valid and non-zero");
  validate_vram_keys (btree_keys (lim_custom l)).

Definition validate_policy_fence_roots (mode : string) (roots : list string)
    : result Error unit :=
  _ ← result_foldM (λ (spellings : gset string) root,
        encoded_len ← ok_or (json_len pf root) Serialization;
        _ ← guard_err (bool_decide (root = "") || contains_nul root
                       || negb (path_is_absolute pf root) || bool_decide (512 < encoded_len))
              (InvalidSpec ("child policy " +:+ mode +:+
                " roots must be nonempty absolute paths without NUL and at most 512 JSON bytes"));
        _ ← guard_err (bool_decide (root ∈ spellings))
              (InvalidSpec ("child policy contains a duplicate " +:+ mode +:+ " root spelling"));
        Ok ({[root]} ∪ spellings)) ∅ roots;
  Ok tt.

Definition ChildFencePolicy_validate (f : ChildFencePolicy) : result Error unit :=
  _ ← guard_err (bool_decide (8 < length (cf_shared_roots f))%nat
                 || bool_decide (8 < length (cf_exclusive_roots f))%nat)
        (InvalidSpec "child policy has more than 8 roots in one fence mode");
  _ ← validate_policy_fence_roots "shared" (cf_shared_roots f);
  validate_policy_fence_roots "exclusive" (cf_exclusive_roots f).

Definition ChildSubmissionPolicy_validate (p : ChildSubmissionPolicy) : result Error unit :=
  _ ← guard_err (bool_decide (cp_min_priority p < MIN_JOB_PRIORITY)%Z
                 || bool_decide (cp_max_priority p > MAX_JOB_PRIORITY)%Z
                 || bool_decide (cp_min_priority p > cp_max_priority p)%Z)
        (InvalidSpec ("child priority range must be inclusive, ordered, and within " +:+
           pretty MIN_JOB_PRIORITY +:+ "..=" +:+ pretty MAX_JOB_PRIORITY));
  _ ← ResourceClaimLimits_validate (cp_max_claims p);
  _ ← guard_err (bool_decide (16 < length (cp_allowed_impacts p))%nat)
        (InvalidSpec "child policy has more than 16 allowed impacts");
  _ ← validate_impacts "child policy contains a duplicate allowed impact" (cp_allowed_impacts p);
  _ ← guard_err (bool_decide (32 < length (cp_required_labels p))%nat)
        (InvalidSpec "child policy has more than 32 required labels");
  _ ← validate_labels (λ key, "child policy repeats required label key " +:+ debug_str pf key)
        (cp_required_labels p);
  ChildFencePolicy_validate (cp_fences p).

Definition canonical_environment_name (name : string) : string :=
  if windows pf then to_uppercase pf name else name.

Definition validate_environment_entry (name : string) (value : option string)
    : result Error unit :=
  guard_err (bool_decide (name = "") || contains_any [nul; ascii_of_N 61] name
             || match value with Some v => contains_nul v | None => false end
             || starts_with "STILLYARD_" (canonical_environment_name name))
    (InvalidSpec ("invalid or reserved environment entry " +:+ debug_str pf name)).

Definition EnvironmentSpec_validate (e : EnvironmentSpec) : result Error unit :=
  names ← result_foldM (λ (names : gset string) '(name, value),
        _ ← validate_environment_entry name (Some value);
        _ ← guard_err (bool_decide (canonical_environment_name name ∈ names))
              (InvalidSpec ("environment repeats " +:+ debug_str pf name));
        Ok ({[canonical_environment_name name]} ∪ names)) ∅ (btree_entries (env_set e));
  _ ← result_foldM (λ (names : gset string) name,
        _ ← validate_environment_entry name None;
        _ ← guard_err (bool_decide (canonical_environment_name name ∈ names))
              (InvalidSpec ("environment both sets and unsets " +:+ debug_str pf name));
        Ok ({[canonical_environment_name name]} ∪ names)) names (env_unset e);
  Ok tt.

Definition validate_path_fence (fence : string) : result Error unit :=
  if bool_decide (fence = "") || contains_nul fence || negb (path_is_absolute pf fence) then
    Err (InvalidSpec
      "path fences must be nonempty absolute paths without NUL and at most 512 JSON bytes")
  else
    encoded_len ← ok_or (json_len pf fence) Serialization;
    guard_err (bool_decide (512 < encoded_len)) (InvalidSpec
      "path fences must be nonempty absolute paths without NUL and at most 512 JSON bytes").

Definition ResourceClaims_validate (c : ResourceClaims) : result Error unit :=
  _ ← guard_err (bool_decide (16 < size (rc_custom c))%nat
                 || bool_decide (16 < length (rc_impacts c))%nat
                 || bool_decide (8 < length (rc_shared_fences c) + length (rc_exclusive_fences c))%nat)
        (InvalidSpec "resource claims exceed the version 2 count bounds");
  _ ← guard_err (scalar_claims_invalid (rc_cpu_units c) (rc_ram_mb c) (rc_cargo_slots c)
                   (rc_gpu_slots c) (rc_custom c))
        (InvalidSpec "resource quantities and custom names must be non-zero");
  _ ← validate_vram_keys (btree_keys (rc_custom c));
  _ ← validate_impacts "duplicate impact tag" (rc_impacts c);
  let shared : gset string := list_to_set (rc_shared_fences c) in
  let exclusive : gset string := list_to_set (rc_exclusive_fences c) in
  _ ← guard_err (bool_decide (size shared ≠ length (rc_shared_fences c))
                 || bool_decide (size exclusive ≠ length (rc_exclusive_fences c)))
        (InvalidSpec "duplicate path fence");
  _ ← guard_err (existsb (λ fence, bool_decide (fence ∈ shared)) (rc_exclusive_fences c))
        (InvalidSpec "one path fence cannot be both shared and exclusive");
  _ ← result_mapM validate_path_fence (rc_shared_fences c ++ rc_exclusive_fences c);
  Ok tt.

Definition ResourceCapacities_validate (c : ResourceCapacities) : result Error unit :=
  _ ← guard_err (existsb (λ name, bool_decide (name = "") || bool_decide (128 < len name)
                            || contains_nul name || is_builtin_resource name)
                   (btree_keys (cap_custom c)))
        (InvalidSpec "invalid, empty, or reserved custom capacity name");
  validate_vram_keys (btree_keys (cap_custom c)).

Definition validate_condition_path (path : string) : result Error unit :=
  if negb (path_is_absolute pf path) || bool_decide (path = "") || contains_nul path then
    Err (InvalidSpec "Condition path must be a bounded absolute path without NUL")
  else
    encoded_len ← ok_or (json_len pf path) Serialization;
    guard_err (bool_decide (4096 < encoded_len))
      (InvalidSpec "Condition path must be a bounded absolute path without NUL").

Definition has_nul_process (executable working_directory : string) (args : list string) : bool :=
  contains_nul executable || contains_nul working_directory || existsb contains_nul args.

Definition ProbeCondition_validate (p : ProbeCondition) : result Error unit :=
  _ ← guard_err (negb (path_is_absolute pf (probe_executable p))
                 || negb (path_is_absolute pf (probe_working_directory p))
                 || has_nul_process (probe_executable p) (probe_working_directory p) (probe_args p))
        (InvalidSpec "probe executable and working_directory must be absolute and contain no NUL");
  _ ← guard_err (negb (bool_decide (1 ≤ probe_timeout_seconds p ≤ 3600))
                 || negb (bool_decide (1 ≤ probe_interval_seconds p ≤ 86400))
                 || bool_decide (probe_accepted_exit_codes p = [])
                 || bool_decide (256 < length (probe_accepted_exit_codes p))%nat)
        (InvalidSpec "invalid probe bounds");
  _ ← guard_err (negb (bool_decide (NoDup (probe_accepted_exit_codes p))))
        (InvalidSpec "duplicate accepted probe exit code");
  _ ← EnvironmentSpec_validate (probe_environment p);
  ResourceClaims_validate (probe_resources p).

Definition ConditionSpec_validate (c : ConditionSpec) : result Error unit :=
  _ ← match cond_deadline c with
      | DeadlineNone => Ok tt
      | DeadlineRelative seconds =>
          guard_err (negb (bool_decide (1 ≤ seconds ≤ 31536000)))
            (InvalidSpec "invalid Condition deadline")
      | DeadlineAbsolute unix_millis =>
          guard_err (negb (bool_decide (unix_millis > 0)%Z))
            (InvalidSpec "invalid Condition deadline")
      end;
  match cond_predicate c with
  | PathTransition path from to =>
      if decide (from = to) then
        Err (InvalidSpec "path transition must change between absent and present")
      else validate_condition_path path
  | PathExists path | PathAbsent path => validate_condition_path path
  | NotBefore unix_millis =>
      guard_err (bool_decide (unix_millis ≤ 0)%Z)
        (InvalidSpec "not_before unix_millis must be positive")
  | Probe probe => ProbeCondition_validate probe
  end.

Definition QuietDetector_validate (d : QuietDetector) : result Error unit :=
  match d with
  | CpuUtilization max_percent | DiskUtilization max_percent => validate_percent max_percent
  | GpuUtilization gpu_uuid max_percent =>
      _ ← canonical_gpu_uuid gpu_uuid; validate_percent max_percent
  | ForeignGpuCompute gpu_uuid => _ ← canonical_gpu_uuid gpu_uuid; Ok tt
  | BlockedProcesses => Ok tt
  end.

Definition QuietDetector_gpu_uuid (d : QuietDetector) : option string :=
  match d with
  | GpuUtilization gpu_uuid _ | ForeignGpuCompute gpu_uuid => Some gpu_uuid
  | _ => None
  end.

Definition QuietPolicy_validate (q : QuietPolicy) : result Error unit :=
  _ ← guard_err (negb (bool_decide (1 ≤ quiet_stable_seconds q ≤ 3600))
                 || negb (bool_decide (1 ≤ quiet_max_sample_age_seconds q ≤ 30))
                 || bool_decide (quiet_wait_budget_seconds q < quiet_stable_seconds q)
                 || bool_decide (86400 < quiet_wait_budget_seconds q)
                 || bool_decide (quiet_detectors q = [])
                 || bool_decide (16 < length (quiet_detectors q))%nat)
        (InvalidSpec "invalid quiet policy bounds");
  _ ← result_foldM (λ (unique : list QuietDetector) d,
        _ ← QuietDetector_validate d;
        _ ← guard_err (bool_decide (d ∈ unique)) (InvalidSpec "duplicate quiet detector");
        Ok (d :: unique)) [] (quiet_detectors q);
  Ok tt.

Definition ObservedResourcePolicy_validate (o : ObservedResourcePolicy) : result Error unit :=
  let nonempty := bool_decide (is_Some (obs_cpu_utilization_percent_at_most o))
                  || bool_decide (obs_gpu_utilization_percent_at_most o ≠ ∅) in
  _ ← guard_err (negb nonempty || negb (bool_decide (1 ≤ obs_max_sample_age_seconds o ≤ 30)))
        (InvalidSpec "invalid observed resource policy bounds");
  _ ← match obs_cpu_utilization_percent_at_most o with
      | Some percent => validate_percent percent
      | None => Ok tt
      end;
  _ ← result_foldM (λ (canonical : gset string) '(uuid, percent),
        _ ← validate_percent percent;
        u ← canonical_gpu_uuid uuid;
        _ ← guard_err (bool_decide (u ∈ canonical)) (InvalidSpec "duplicate observed GPU UUID");
        Ok ({[u]} ∪ canonical)) ∅ (btree_entries (obs_gpu_utilization_percent_at_most o));
  Ok tt.

Definition VERDICTS : list string :=
  ["succeeded"; "process_failed"; "start_failed"; "timed_out"; "interrupted"; "safety_failed";
   "postcondition_retryable"; "postcondition_failed"; "canceled"]%string.

Definition RetryPolicy_validate (r : RetryPolicy) : result Error unit :=
  _ ← guard_err (bool_decide (retry_max_attempts r = 0) || bool_decide (100 < retry_max_attempts r))
        (InvalidSpec "retry.max_attempts must be in 1..=100");
  _ ← result_foldM (λ (seen : gset string) verdict,
        _ ← guard_err (negb (bool_decide (verdict ∈ VERDICTS)))
              (InvalidSpec ("unknown retryable Attempt verdict " +:+ verdict));
        _ ← guard_err (bool_decide
               (verdict ∈ ["succeeded"; "canceled"; "timed_out"; "interrupted"]%string))
              (InvalidSpec ("Attempt verdict " +:+ verdict +:+ " cannot be retried"));
        _ ← guard_err (bool_decide (verdict ∈ seen))
              (InvalidSpec "retry.retryable contains a duplicate verdict");
        Ok ({[verdict]} ∪ seen)) ∅ (retry_retryable r);
  Ok tt.

Definition PostconditionSpec_validate (p : PostconditionSpec) (job : JobSpec)
    : result Error unit :=
  _ ← guard_err (negb (path_is_absolute pf (post_executable p))
                 || contains_nul (post_executable p) || existsb contains_nul (post_args p))
        (InvalidSpec
          "postcondition executable must be absolute and process fields must not contain NUL");
  let working_directory := default (job_working_directory job) (post_working_directory p) in
  _ ← guard_err (negb (path_is_absolute pf working_directory) || contains_nul working_directory)
        (InvalidSpec "postcondition working_directory must be absolute without NUL");
  let accepted : gset Z := list_to_set (post_accepted_exit_codes p) in
  let retryable : gset Z := list_to_set (post_retryable_exit_codes p) in
  guard_err (bool_decide (256 < length (post_accepted_exit_codes p))%nat
             || bool_decide (256 < length (post_retryable_exit_codes p))%nat
             || bool_decide (size accepted ≠ length (post_accepted_exit_codes p))
             || existsb (λ code, bool_decide (code ∈ accepted)) (post_retryable_exit_codes p)
             || bool_decide (size retryable ≠ length (post_retryable_exit_codes p)))
    (InvalidSpec "postcondition accepted/retryable exit-code sets must be unique and disjoint").

Definition is_probe (c : ConditionSpec) : bool :=
  match cond_predicate c with Probe _ => true | _ => false end.

Definition condition_probe (c : ConditionSpec) : option ProbeCondition :=
  match cond_predicate c with Probe probe => Some probe | _ => None end.

(** [lifecycle_invocations] of [JobSpec::validate]. *)
Definition lifecycle_invocations (j : JobSpec) : N :=
  saturating_mul (retry_max_attempts (job_retry j))
    (N.of_nat (length (job_postconditions j)
               + length (List.filter is_probe (job_conditions j)) + 1)).

Definition validate_option {A} (f : A → result Error unit) (o : option A) : result Error unit :=
  match o with Some a => f a | None => Ok tt end.

(** The checks of [JobSpec::validate] up to and including the policies. *)
Definition JobSpec_validate_head (j : JobSpec) : result Error unit :=
  _ ← guard_err (bool_decide (job_spec_version j ≠ SPEC_VERSION))
        (InvalidSpec ("unsupported spec_version " +:+ pretty (job_spec_version j)
           +:+ ", expected " +:+ pretty SPEC_VERSION));
  _ ← guard_err (negb (bool_decide (MIN_JOB_PRIORITY ≤ job_priority j ≤ MAX_JOB_PRIORITY)%Z))
        (InvalidSpec ("priority " +:+ pretty (job_priority j)
           +:+ " is outside the supported inclusive range " +:+ pretty MIN_JOB_PRIORITY
           +:+ "..=" +:+ pretty MAX_JOB_PRIORITY));
  _ ← guard_err (bool_decide (job_executable j = "")) (InvalidSpec "executable is empty");
  _ ← guard_err (negb (path_is_absolute pf (job_executable j))
                 || negb (path_is_absolute pf (job_working_directory j)))
        (InvalidSpec "executable and working_directory must be absolute");
  _ ← guard_err (has_nul_process (job_executable j) (job_working_directory j) (job_args j))
        (InvalidSpec "process path or argument contains NUL");
  _ ← guard_err (bool_decide (32 < length (job_labels j))%nat)
        (InvalidSpec "more than 32 labels");
  _ ← validate_labels (λ key, "duplicate label key " +:+ debug_str pf key) (job_labels j);
  _ ← EnvironmentSpec_validate (job_environment j);
  _ ← match job_stdin j with
      | StdinFile path =>
          guard_err (negb (path_is_absolute pf path) || contains_nul path)
            (InvalidSpec "stdin file source must be an absolute path without NUL")
      | StdinEof => Ok tt
      end;
  _ ← guard_err (bool_decide (retry_max_attempts (job_retry j) = 0))
        (InvalidSpec "retry.max_attempts must be positive");
  _ ← ResourceClaims_validate (job_resources j);
  _ ← validate_option ChildSubmissionPolicy_validate (job_child_submission_policy j);
  _ ← validate_option ObservedResourcePolicy_validate (job_observed j);
  _ ← validate_option QuietPolicy_validate (job_quiet j);
  RetryPolicy_validate (job_retry j).

Definition JobSpec_validate (j : JobSpec) : result Error unit :=
  _ ← JobSpec_validate_head j;
  _ ← guard_err (bool_decide (32 < length (job_postconditions j))%nat)
        (InvalidSpec "more than 32 postconditions");
  _ ← guard_err (bool_decide (32 < length (job_conditions j))%nat)
        (InvalidSpec "more than 32 Conditions");
  _ ← result_mapM ConditionSpec_validate (job_conditions j);
  _ ← guard_err (bool_decide (256 < lifecycle_invocations j))
        (InvalidSpec "retry attempts times Invocations per Attempt exceeds 256");
  _ ← result_mapM (λ p, PostconditionSpec_validate p j) (job_postconditions j);
  guard_err (bool_decide (job_artifacts j ≠ []))
    (InvalidSpec "staged/EOF stdin, explicit environment, resource admission, retries, postconditions, observed thresholds, quiet admission, and Conditions do not support artifacts").

(** The loop over the [vram_mb:] keys of one claim map. *)
Definition collect_vram_uuids (uuids : gset string) (names : list string)
    : result Error (gset string) :=
  result_foldM (λ (uuids : gset string) name,
    if starts_with vram_prefix name then
      split ← split_vram_key name;
      uuid ← canonical_gpu_uuid split.2;
      Ok ({[uuid]} ∪ uuids)
    else Ok uuids) uuids names.

Definition collect_uuids (uuids : gset string) (names : list string)
    : result Error (gset string) :=
  result_foldM (λ (uuids : gset string) name,
    uuid ← canonical_gpu_uuid name; Ok ({[uuid]} ∪ uuids)) uuids names.

Definition gpu_uuids (j : JobSpec) : result Error (gset string) :=
  uuids ← collect_vram_uuids ∅ (btree_keys (rc_custom (job_resources j)));
  uuids ← result_foldM (λ uuids probe,
            collect_vram_uuids uuids (btree_keys (rc_custom (probe_resources probe))))
          uuids (omap condition_probe (job_conditions j));
  uuids ← match job_observed j with
          | Some o => collect_uuids uuids (btree_keys (obs_gpu_utilization_percent_at_most o))
          | None => Ok uuids
          end;
  uuids ← match job_quiet j with
          | Some q => collect_uuids uuids (omap QuietDetector_gpu_uuid (quiet_detectors q))
          | None => Ok uuids
          end;
  _ ← guard_err (bool_decide (1 < size uuids)%nat)
        (InvalidSpec "one Job cannot name more than one GPU UUID");
  Ok uuids.

Definition resource_claims_require_host_observation (c : ResourceClaims) : bool :=
  bool_decide (is_Some (rc_ram_mb c)) || bool_decide (is_Some (rc_gpu_slots c))
  || existsb (starts_with vram_prefix) (btree_keys (rc_custom c)).

(** The condition shared by the two observation queries below. *)
Definition claims_require_observation (j : JobSpec) : bool :=
  resource_claims_require_host_observation (job_resources j)
  || existsb (λ c, match condition_probe c with
                   | Some probe => resource_claims_require_host_observation (probe_resources probe)
                   | None => false
                   end) (job_conditions j).

Definition requires_host_observation (j : JobSpec) : bool :=
  claims_require_observation j || bool_decide (is_Some (job_observed j))
  || bool_decide (is_Some (job_quiet j)).

(** [ages.into_iter().min()]. *)
Definition list_min (l : list N) : option N :=
  match l with [] => None | x :: l => Some (foldr N.min x l) end.

Definition minimum_observation_age_millis (j : JobSpec) (host : HostConfig) : option N :=
  list_min
    ((if claims_require_observation j
      then [hoc_memory_max_sample_age_millis (host_observation host)] else [])
     ++ match job_observed j with
        | Some o => [saturating_mul (obs_max_sample_age_seconds o) 1000] | None => [] end
     ++ match job_quiet j with
        | Some q => [saturating_mul (quiet_max_sample_age_seconds q) 1000] | None => [] end).

Definition validate_patterns (duplicate : string) (patterns : list string)
    : result Error (gset string) :=
  result_foldM (λ (seen : gset string) pattern,
    _ ← validate_process_pattern pattern;
    _ ← guard_err (bool_decide (to_ascii_lowercase pattern ∈ seen)) (InvalidSpec duplicate);
    Ok ({[to_ascii_lowercase pattern]} ∪ seen)) ∅ patterns.

Definition ProcessRules_validate (r : ProcessRules) : result Error unit :=
  block ← validate_patterns "duplicate blocked process pattern" (rules_block r);
  ignore ← validate_patterns "duplicate ignored process pattern" (rules_ignore r);
  guard_err (negb (bool_decide (block ## ignore)))
    (InvalidSpec "process pattern appears in both block and ignore").

Definition HostObservationConfig_validate (o : HostObservationConfig) : result Error unit :=
  _ ← guard_err
        (negb (bool_decide (100 ≤ hoc_sample_interval_millis o ≤ 5000))
         || bool_decide (hoc_quiet_max_sample_gap_millis o < hoc_sample_interval_millis o)
         || bool_decide (hoc_generation_max_cadence_gap_millis o < hoc_quiet_max_sample_gap_millis o)
         || bool_decide (hoc_memory_max_sample_age_millis o < hoc_sample_interval_millis o)
         || negb (bool_decide (1 ≤ hoc_pre_release_max_deferrals o ≤ 64))
         || negb (bool_decide (100 ≤ hoc_pre_release_backoff_millis o ≤ 60000))
         || negb (bool_decide (1 ≤ hoc_admission_wall_clock_limit_seconds o ≤ 86400))
         || negb (bool_decide (100 ≤ hoc_condition_rescan_interval_millis o ≤ 60000)))
        (InvalidSpec "invalid host observation bounds");
  _ ← match hoc_gpu_slot_uuid o with
      | Some uuid => _ ← canonical_gpu_uuid uuid; Ok tt
      | None => Ok tt
      end;
  ProcessRules_validate (hoc_process_rules o).

Definition validate_incompatibility (p : string * list string) : result Error unit :=
  _ ← validate_policy_name "impact" p.1;
  validate_impacts ("duplicate incompatibility for impact " +:+ p.1) p.2.

(** The configured VRAM capacities: [vram_mb:] keys with a positive value. *)
Definition configured_vram (c : ResourceCapacities) : list (string * N) :=
  List.filter (λ p, starts_with vram_prefix p.1 && bool_decide (0 < p.2))
    (btree_entries (cap_custom c)).

Definition HostConfig_validate (h : HostConfig) : result Error unit :=
  let r := host_resources h in
  let o := host_observation h in
  _ ← ResourceCapacities_validate r;
  _ ← HostObservationConfig_validate o;
  _ ← result_mapM validate_incompatibility (btree_entries (host_impact_incompatibilities h));
  _ ← guard_err (bool_decide (0 < cap_ram_mb r) && bool_decide (hoc_ram_safety_margin_mb o = 0))
        (InvalidSpec "nonzero ram_mb capacity requires a positive RAM safety margin");
  _ ← guard_err (negb (bool_decide (configured_vram r = []))
                 && bool_decide (hoc_vram_safety_margin_mb o = 0))
        (InvalidSpec "nonzero VRAM capacity requires a positive VRAM safety margin");
  if bool_decide (0 < cap_gpu_slots r) || negb (bool_decide (configured_vram r = [])) then
    placement ← ok_or (hoc_gpu_slot_uuid o)
      (InvalidSpec "configured GPU capacity requires gpu_slot_uuid");
    placement ← canonical_gpu_uuid placement;
    _ ← result_mapM (λ p : string * N,
          split ← split_vram_key p.1;
          uuid ← canonical_gpu_uuid split.2;
          guard_err (bool_decide (uuid ≠ placement))
            (InvalidSpec "configured VRAM UUID differs from gpu_slot_uuid"))
        (configured_vram r);
    Ok tt
  else Ok tt.

(** [invocations] of [HostConfig::validate_job]. *)
Definition host_invocations (h : HostConfig) (j : JobSpec) : N :=
  saturating_mul (retry_max_attempts (job_retry j))
    (saturating_add (N.of_nat (length (job_postconditions j) + 1))
       (hoc_pre_release_max_deferrals (host_observation h))).

Definition validate_job (h : HostConfig) (j : JobSpec) : result Error unit :=
  configured ← match hoc_gpu_slot_uuid (host_observation h) with
               | Some uuid => u ← canonical_gpu_uuid uuid; Ok (Some u)
               | None => Ok None
               end;
  uuids ← gpu_uuids j;
  _ ← result_mapM (λ uuid,
        guard_err (match configured with
                   | Some value => bool_decide (value ≠ uuid) | None => false end)
          (InvalidSpec "Job GPU UUID differs from host gpu_slot_uuid"))
      (btree_elements uuids);
  match job_quiet j with
  | Some quiet =>
      _ ← guard_err (bool_decide (hoc_admission_wall_clock_limit_seconds (host_observation h)
                                  < quiet_stable_seconds quiet))
            (InvalidSpec "quiet stable_seconds exceeds host admission wall-clock limit");
      guard_err (bool_decide (256 < host_invocations h j))
        (InvalidSpec "quiet retries, postconditions, and host deferrals exceed 256 Invocations")
  | None => Ok tt
  end.
End validate.
