(* ===== verification/ValidateFacts.v ===== *)
(** * ValidateFacts: what an accepted document guarantees

    Resource names, environments, retry policies, job bounds and GPU placement,
    proved of the validators of [Spec] and [Validate]. *)
From S2P Require Import Prelude Spec Validate.

#[local] Arguments canonical_gpu_uuid : simpl never.

(** ** Resource names *)
Lemma strip_vram_starts name u :
  strip_prefix vram_prefix name = Some u → starts_with vram_prefix name = true.
Proof. intros H. unfold starts_with. rewrite H. by apply bool_decide_eq_true_2. Qed.

Lemma strip_vram_lower name :
  starts_with vram_prefix (to_ascii_lowercase name) = false → strip_prefix vram_prefix name = None.
Proof.
  intros H. destruct (strip_prefix vram_prefix name) as [u|] eqn:E; [|done].
  apply strip_prefix_Some in E as ->.
  assert (to_ascii_lowercase (vram_prefix +:+ u) = vram_prefix +:+ to_ascii_lowercase u) as Hl by done.
  rewrite Hl in H. unfold starts_with in H. rewrite strip_prefix_app in H.
  by apply bool_decide_eq_false in H; destruct H.
Qed.

Lemma canonical_gpu_uuid_idemp u c : canonical_gpu_uuid u = Ok c → canonical_gpu_uuid c = Ok c.
Proof.
  unfold canonical_gpu_uuid. destruct (_ || _) eqn:E; [done|]. intros H. result_inv.
  rewrite to_ascii_lowercase_idemp, len_to_ascii_lowercase, contains_nul_to_ascii_lowercase,
    is_ascii_to_ascii_lowercase.
  repeat (apply orb_false_iff in E as [E ?]). apply bool_decide_eq_false in E.
  rewrite (bool_decide_eq_false_2 (to_ascii_lowercase u = "")).
  - by repeat match goal with H : _ = false |- _ => rewrite H; clear H end.
  - intros Hz. apply E. by destruct u.
Qed.

(** Canonical resource names are a normal form: canonicalizing an accepted
    name again changes nothing, whatever its letter case was. *)
Lemma canonical_name_idempotent name c :
  canonical_custom_resource_name name = Ok c → canonical_custom_resource_name c = Ok c.
Proof.
  unfold canonical_custom_resource_name.
  destruct (strip_prefix vram_prefix name) as [u|] eqn:E; intros H; result_inv.
  - rewrite strip_prefix_app. by rewrite (canonical_gpu_uuid_idemp _ _ Hstep).
  - by rewrite E.
Qed.

(** The loop of [validate_vram_keys] after the names [done]. *)
Definition vram_loop (done : list string) (canonical : gset string) : Prop :=
  ∀ k, k ∈ done → ∃ c, canonical_custom_resource_name k = Ok c ∧
    (starts_with vram_prefix k = true → ∃ u, c = vram_prefix +:+ u ∧ u ∈ canonical) ∧
    ∀ k', k' ∈ done → canonical_custom_resource_name k' = Ok c → k' = k.

Lemma canonical_plain k :
  strip_prefix vram_prefix k = None → canonical_custom_resource_name k = Ok k.
Proof. intros H. unfold canonical_custom_resource_name. by rewrite H. Qed.

Lemma starts_with_None p s : strip_prefix p s = None ↔ starts_with p s = false.
Proof.
  unfold starts_with. rewrite bool_decide_eq_false. by rewrite <-eq_None_not_Some.
Qed.

(** One key: its canonical form, and what it adds to the set. *)
Lemma validate_vram_key_Ok s k s' :
  validate_vram_key s k = Ok s' →
  (strip_prefix vram_prefix k = None ∧ s' = s) ∨
  ∃ u, canonical_custom_resource_name k = Ok (vram_prefix +:+ u) ∧ u ∉ s ∧ s' = {[u]} ∪ s.
Proof.
  unfold validate_vram_key. destruct (starts_with vram_prefix (to_ascii_lowercase k)) eqn:Hl.
  - intros H. result_inv. apply negb_false_iff in Hguard. right. unfold split_vram_key in *.
    unfold canonical_custom_resource_name.
    destruct (strip_prefix vram_prefix k) as [u|] eqn:Hu; [|done]. result_inv. simpl in *.
    simplify_eq/=. split_conditions. exists a0. by split_and!; [congruence|..].
  - intros H. result_inv. left. split; [by apply strip_vram_lower|done].
Qed.

Lemma vram_loop_step done k rest s s' :
  NoDup (done ++ k :: rest) → vram_loop done s → validate_vram_key s k = Ok s' →
  vram_loop (done ++ [k]) s'.
Proof.
  intros Hnd Hloop Hk. assert (k ∉ done) as Hnew.
  { apply NoDup_app in Hnd as (_ & Hdis & _). intros Hin. apply (Hdis k Hin). by left. }
  assert (s ⊆ s') as Hsub by (destruct (validate_vram_key_Ok _ _ _ Hk) as [[_ ->]|(? & _ & _ & ->)]; set_solver).
  assert (∃ c, canonical_custom_resource_name k = Ok c ∧
    (starts_with vram_prefix k = true → ∃ u, c = vram_prefix +:+ u ∧ u ∈ s') ∧
    ∀ k', k' ∈ done → canonical_custom_resource_name k' ≠ Ok c) as (c & Hc & Hvram & Hfresh).
  { destruct (validate_vram_key_Ok _ _ _ Hk) as [[Hnone ->]|(u & Hc & Hu & ->)].
    - exists k. rewrite canonical_plain by done. split_and!; [done| |].
      + apply starts_with_None in Hnone. congruence.
      + intros k' Hk' Hc'. destruct (Hloop k' Hk') as (c & Hc & Hv & _).
        destruct (starts_with vram_prefix k') eqn:Hs.
        * destruct Hv as (u & Hu & _); [done|]. assert (k = vram_prefix +:+ u) as Hku by congruence.
          rewrite Hku, strip_prefix_app in Hnone. done.
        * apply starts_with_None, canonical_plain in Hs. assert (k' = k) as -> by congruence. done.
    - exists (vram_prefix +:+ u). split_and!; [done|intros _; exists u; set_solver|].
      intros k' Hk' Hc'. destruct (Hloop k' Hk') as (c & Hcc & Hv & _).
      destruct (starts_with vram_prefix k') eqn:Hs.
      + destruct Hv as (u' & Heq & Hu'); [done|].
        assert (vram_prefix +:+ u' = vram_prefix +:+ u) as Hue%(inj (String.app vram_prefix)) by congruence.
        by subst.
      + apply starts_with_None in Hs. pose proof (canonical_plain _ Hs) as Hp.
        assert (k' = vram_prefix +:+ u) as Hku by congruence.
        rewrite Hku, strip_prefix_app in Hs. done. }
  intros k' [Hk'|Hk1%list_elem_of_singleton]%elem_of_app.
  - destruct (Hloop k' Hk') as (c' & Hc' & Hv' & Hinj). exists c'. split_and!; [done| |].
    + intros Hs. destruct (Hv' Hs) as (u & ? & ?). exists u. set_solver.
    + intros k2 [Hk2|Hk2%list_elem_of_singleton]%elem_of_app Heq; [by apply Hinj|].
      subst k2. destruct (Hfresh k' Hk'). congruence.
  - subst k'. exists c. split_and!; [done..|].
    intros k2 [Hk2|Hk2%list_elem_of_singleton]%elem_of_app Heq; [|done].
    by destruct (Hfresh k2 Hk2).
Qed.

Lemma validate_vram_keys_inj keys :
  NoDup keys → validate_vram_keys keys = Ok tt → ∃ s, vram_loop keys s.
Proof.
  intros Hnd H. unfold validate_vram_keys in H. result_inv. exists a.
  revert Hstep. apply (result_foldM_ind vram_loop); [intros k Hk; by apply not_elem_of_nil in Hk|].
  intros done k rest s s' Hk. rewrite Hk in Hnd. by eapply vram_loop_step.
Qed.

(** In an accepted capacity table every custom name has a canonical form,
    and no two names share one: looking capacities up by canonical name never
    confuses two resources or splits one. *)
Theorem validated_capacity_names_canonical c k :
  ResourceCapacities_validate c = Ok tt → is_Some (cap_custom c !! k) →
  ∃ n, canonical_custom_resource_name k = Ok n ∧
    ∀ k', is_Some (cap_custom c !! k') → canonical_custom_resource_name k' = Ok n → k' = k.
Proof.
  intros H Hk. unfold ResourceCapacities_validate in H. result_inv.
  destruct (validate_vram_keys_inj _ (NoDup_btree_keys _) H) as [s Hs].
  destruct (Hs k) as (n & Hn & _ & Hinj); [by apply elem_of_btree_keys|].
  exists n. split; [done|]. intros k' Hk'. by apply Hinj, elem_of_btree_keys.
Qed.

Definition sample_capacities : ResourceCapacities :=
  {| cap_cpu_units := 8; cap_ram_mb := 1024; cap_cargo_slots := 1; cap_gpu_slots := 1;
     cap_custom := {["vram_mb:GPU-A" := 16; "vram_mb:gpu-b" := 8; "licence" := 2]} |}.

Lemma validated_capacity_names_canonical_witness :
  ∃ n, canonical_custom_resource_name "vram_mb:GPU-A" = Ok n ∧
    ∀ k', is_Some (cap_custom sample_capacities !! k') →
      canonical_custom_resource_name k' = Ok n → k' = "vram_mb:GPU-A"%string.
Proof.
  apply (validated_capacity_names_canonical sample_capacities "vram_mb:GPU-A").
  - vm_compute. reflexivity.
  - exists 16. vm_compute. reflexivity.
Defined.

Section facts.
Context (pf : Platform).

(** ** Environments *)

(** What one entry must satisfy: a name without NUL or [=] outside the
    reserved [STILLYARD_] prefix and a value without NUL. *)
Definition environment_entry_ok (name : string) (value : option string) : Prop :=
  name ≠ "" ∧ contains_any [nul; ascii_of_N 61] name = false ∧
  (∀ v, value = Some v → contains_nul v = false) ∧
  starts_with "STILLYARD_" (canonical_environment_name pf name) = false.

Lemma validate_environment_entry_iff name value :
  validate_environment_entry pf name value = Ok tt ↔ environment_entry_ok name value.
Proof.
  unfold validate_environment_entry, environment_entry_ok. split.
  - intros H. result_inv. split_conditions. split_and!; try done.
    by intros v ->.
  - intros (Hne & Hc & Hv & Hs). rewrite (bool_decide_eq_false_2 _ Hne), Hc, Hs.
    destruct value as [v|]; [by rewrite (Hv v)|done].
Qed.

(** An environment is accepted exactly when every variable it sets or
    unsets is well formed and not reserved, and no variable (up to the
    platform's notion of equal names) occurs twice, set or unset. *)
Theorem environment_validate_spec e :
  EnvironmentSpec_validate pf e = Ok tt ↔
  (∀ name value, env_set e !! name = Some value → environment_entry_ok name (Some value)) ∧
  (∀ name, name ∈ env_unset e → environment_entry_ok name None) ∧
  NoDup (canonical_environment_name pf <$> btree_keys (env_set e) ++ env_unset e).
Proof.
  set (key := canonical_environment_name pf).
  pose proof (seen_loop (λ p : string * string, validate_environment_entry pf p.1 (Some p.2))
    (λ p, key p.1) (λ p, InvalidSpec ("environment repeats " +:+ debug_str pf p.1))) as Lset.
  pose proof (seen_loop (λ name, validate_environment_entry pf name None) key
    (λ name, InvalidSpec ("environment both sets and unsets " +:+ debug_str pf name))) as Lunset.
  assert (key <$> btree_keys (env_set e) = (λ p, key p.1) <$> btree_entries (env_set e)) as Hkeys.
  { unfold btree_keys. by rewrite <-list_fmap_compose. }
  unfold EnvironmentSpec_validate. rewrite fmap_app, NoDup_app, Hkeys. split.
  - intros H. result_inv.
    apply Lset in Hstep as (Hall & Hnd & _ & ->); [|by intros ? []].
    apply Lunset in Hstep0 as (Hall' & Hnd' & Hout & _); [|done].
    rewrite Forall_btree_entries in Hall. rewrite Forall_forall in Hall'.
    split_and!; [..|done| |done].
    + intros n v Hn. by apply validate_environment_entry_iff, (Hall n v Hn).
    + intros n Hn. by apply validate_environment_entry_iff, Hall'.
    + intros x Hx (n & -> & Hn)%list_elem_of_fmap. apply (Hout n Hn), elem_of_union_l.
      by apply elem_of_list_to_set.
  - intros (Hset & Hunset & Hnd & Hdis & Hnd').
    apply result_bind_Ok. eexists. split.
    { apply Lset; [by intros ? []|]. split_and!; [|done|intros ? _; apply not_elem_of_empty|reflexivity].
      apply Forall_btree_entries. intros n v Hn. by apply validate_environment_entry_iff, Hset. }
    apply result_bind_Ok. eexists. split; [|done].
    apply Lunset; [done|]. split_and!; [|done| |reflexivity].
    + apply Forall_forall. intros n Hn. by apply validate_environment_entry_iff, Hunset.
    + intros n Hn [Hin%elem_of_list_to_set|Hin%elem_of_empty]%elem_of_union; [|done].
      apply (Hdis (key n) Hin). by apply list_elem_of_fmap_2.
Qed.

(** ** Retry policies *)
Definition retryable_verdicts : list string :=
  ["process_failed"; "start_failed"; "safety_failed"; "postcondition_retryable";
   "postcondition_failed"]%string.

(** A retry policy is accepted exactly when it allows 1 to 100 attempts
    and lists distinct verdicts that may be retried: never a success, a
    cancellation, a timeout or an interruption. *)
Lemma retry_validate_spec r :
  RetryPolicy_validate r = Ok tt ↔
  1 ≤ retry_max_attempts r ≤ 100 ∧ NoDup (retry_retryable r) ∧
  ∀ v, v ∈ retry_retryable r → v ∈ retryable_verdicts.
Proof.
  pose (check v := _ ← guard_err (negb (bool_decide (v ∈ VERDICTS)))
              (InvalidSpec ("unknown retryable Attempt verdict " +:+ v));
        guard_err (bool_decide (v ∈ ["succeeded"; "canceled"; "timed_out"; "interrupted"]%string))
              (InvalidSpec ("Attempt verdict " +:+ v +:+ " cannot be retried"))).
  assert (∀ v, check v = Ok tt ↔ v ∈ retryable_verdicts) as Hcheck.
  { intros v. unfold check. split.
    - intros H. result_inv. split_conditions.
      unfold VERDICTS in Hguard. repeat (apply elem_of_cons in Hguard as [Hv|Hguard];
        [subst v; first [by apply (bool_decide_eq_true (_ ∈ retryable_verdicts))
                        |by destruct Hguard0; apply (bool_decide_eq_true (_ ∈ _))]|]).
      by apply not_elem_of_nil in Hguard.
    - intros Hv. unfold retryable_verdicts in Hv.
      repeat (apply elem_of_cons in Hv as [->|Hv]; [by vm_compute|]).
      by apply not_elem_of_nil in Hv. }
  pose proof (seen_loop check id (λ _, InvalidSpec "retry.retryable contains a duplicate verdict"))
    as L.
  assert (∀ (s : gset string) v, (_ ← guard_err (negb (bool_decide (v ∈ VERDICTS)))
              (InvalidSpec ("unknown retryable Attempt verdict " +:+ v));
        _ ← guard_err (bool_decide (v ∈ ["succeeded"; "canceled"; "timed_out"; "interrupted"]%string))
              (InvalidSpec ("Attempt verdict " +:+ v +:+ " cannot be retried"));
        _ ← guard_err (bool_decide (v ∈ s))
              (InvalidSpec "retry.retryable contains a duplicate verdict");
        Ok ({[v]} ∪ s)) = (_ ← check v; _ ← guard_err (bool_decide (id v ∈ s))
              (InvalidSpec "retry.retryable contains a duplicate verdict"); Ok ({[id v]} ∪ s))) as Hbody.
  { intros s v. unfold check. by destruct (negb _). }
  unfold RetryPolicy_validate. split.
  - intros H. result_inv. apply L in Hstep as (Hall & Hnd & _ & _); [|done].
    split_conditions. rewrite Forall_forall in Hall. rewrite list_fmap_id in Hnd.
    split_and!; [lia..|done|]. intros v Hv. by apply Hcheck, Hall.
  - intros (Hb & Hnd & Hv). rewrite !bool_decide_eq_false_2 by lia. simpl.
    apply result_bind_Ok. eexists. split; [|done]. apply L; [done|].
    split_and!; [|by rewrite list_fmap_id|intros ? _; apply not_elem_of_empty|reflexivity].
    apply Forall_forall. intros v Hin. by apply Hcheck, Hv.
Qed.

(** ** Jobs *)
Lemma JobSpec_validate_head_Ok j : JobSpec_validate_head pf j = Ok tt →
  (MIN_JOB_PRIORITY ≤ job_priority j ≤ MAX_JOB_PRIORITY)%Z ∧
  EnvironmentSpec_validate pf (job_environment j) = Ok tt ∧
  ResourceClaims_validate pf (job_resources j) = Ok tt ∧
  RetryPolicy_validate (job_retry j) = Ok tt.
Proof. intros H. unfold JobSpec_validate_head in H. result_inv. split_conditions. tauto. Qed.

Lemma RetryPolicy_validate_attempts r :
  RetryPolicy_validate r = Ok tt → 1 ≤ retry_max_attempts r ≤ 100.
Proof. intros H. unfold RetryPolicy_validate in H. result_inv. split_conditions. lia. Qed.

(** An accepted job can start at most 256 processes: its attempts (1 to
    100) times the processes of one attempt (the main process, its probes and
    its postconditions) stays within the bound without saturating, its
    priority is in the supported range, and all scalar claims are positive. *)
Theorem job_validate_bounds j :
  JobSpec_validate pf j = Ok tt →
  1 ≤ retry_max_attempts (job_retry j) ≤ 100 ∧
  retry_max_attempts (job_retry j) *
    N.of_nat (length (job_postconditions j) + length (List.filter is_probe (job_conditions j)) + 1)
    ≤ 256 ∧
  (MIN_JOB_PRIORITY ≤ job_priority j ≤ MAX_JOB_PRIORITY)%Z ∧
  ∀ name amount, rc_custom (job_resources j) !! name = Some amount →
    0 < amount ∧ is_builtin_resource name = false.
Proof.
  intros H. unfold JobSpec_validate in H. result_inv.
  match goal with H : JobSpec_validate_head _ _ = _ |- _ =>
    apply JobSpec_validate_head_Ok in H as (Hprio & _ & Hclaims & Hretry) end.
  split_conditions. apply RetryPolicy_validate_attempts in Hretry. split_and!; [lia..| |lia|lia|].
  - match goal with H : ¬ 256 < lifecycle_invocations j |- _ => revert H end.
    unfold lifecycle_invocations, saturating_mul, u64_max. lia.
  - intros name amount Hname. unfold ResourceClaims_validate in Hclaims. result_inv.
    match goal with H : scalar_claims_invalid _ _ _ _ _ = false |- _ =>
      unfold scalar_claims_invalid in H end.
    split_conditions. match goal with H : existsb custom_claim_invalid _ = false |- _ =>
      rename H into Hcustom end.
    destruct (custom_claim_invalid (name, amount)) eqn:E.
    + assert (existsb custom_claim_invalid (btree_entries (rc_custom (job_resources j))) = true);
        [|congruence]. apply existsb_exists. exists (name, amount). split; [|done].
      by apply list_elem_of_In, elem_of_btree_entries.
    + unfold custom_claim_invalid in E. split_conditions. simpl in *. split; [lia|done].
Qed.

(** ** GPU placement *)

(** The GPU spellings of one claim map, and all those a job mentions. *)
Definition vram_names (custom : gmap string N) : list string :=
  omap (strip_prefix vram_prefix) (btree_keys custom).
Definition job_gpu_names (j : JobSpec) : list string :=
  vram_names (rc_custom (job_resources j))
  ++ (omap condition_probe (job_conditions j) ≫= λ p, vram_names (rc_custom (probe_resources p)))
  ++ match job_observed j with Some o => btree_keys (obs_gpu_utilization_percent_at_most o) | None => [] end
  ++ match job_quiet j with Some q => omap QuietDetector_gpu_uuid (quiet_detectors q) | None => [] end.

(** [us'] is [us] with the canonical forms of [names], all of them valid. *)
Definition collects (us : gset string) (names : list string) (us' : gset string) : Prop :=
  Forall (λ name, ∃ u, canonical_gpu_uuid name = Ok u ∧ u ∈ us') names ∧ us ⊆ us'.

Lemma collects_app us n1 us1 n2 us2 :
  collects us n1 us1 → collects us1 n2 us2 → collects us (n1 ++ n2) us2.
Proof.
  intros [H1 Hs1] [H2 Hs2]. split; [|by etrans]. apply Forall_app. split; [|done].
  eapply Forall_impl; [done|]. intros n (u & ? & ?). exists u. set_solver.
Qed.

Lemma collects_nil us : collects us [] us.
Proof. split; [constructor|done]. Qed.

Lemma collects_one us name u : canonical_gpu_uuid name = Ok u → collects us [name] ({[u]} ∪ us).
Proof. intros Hu. split; [|set_solver]. constructor; [|constructor]. exists u. set_solver. Qed.

Lemma collect_uuids_collects us names us' :
  collect_uuids us names = Ok us' → collects us names us'.
Proof.
  apply (result_foldM_ind (λ done, collects us done)); [apply collects_nil|].
  intros done name rest s1 s2 _ Hs1 H. result_inv.
  eapply collects_app; [done|by apply collects_one].
Qed.

Lemma collect_vram_collects us names us' :
  collect_vram_uuids us names = Ok us' → collects us (omap (strip_prefix vram_prefix) names) us'.
Proof.
  apply (result_foldM_ind (λ done, collects us (omap (strip_prefix vram_prefix) done)));
    [apply collects_nil|].
  intros done name rest s1 s2 _ Hs1 H. rewrite omap_app. eapply collects_app; [done|]. simpl.
  destruct (starts_with vram_prefix name) eqn:Hs.
  - unfold split_vram_key in H. destruct (strip_prefix vram_prefix name) as [u|]; [|done].
    result_inv. simpl in *. by apply collects_one.
  - result_inv. apply starts_with_None in Hs as ->. apply collects_nil.
Qed.

Lemma gpu_uuids_collects j us :
  gpu_uuids j = Ok us → collects ∅ (job_gpu_names j) us ∧ (size us ≤ 1)%nat.
Proof.
  intros H. unfold gpu_uuids in H. result_inv. split_conditions. split; [|lia].
  unfold job_gpu_names. eapply collects_app; [by eapply collect_vram_collects|].
  apply (collects_app a _ a0); [|apply (collects_app a0 _ a1)].
  - revert Hstep0. apply (result_foldM_ind (λ done, collects a
      (done ≫= λ p, vram_names (rc_custom (probe_resources p))))); [apply collects_nil|].
    intros done p rest s1 s2 _ Hs1 Hs2%collect_vram_collects. rewrite bind_app.
    eapply collects_app; [done|]. simpl. by rewrite app_nil_r.
  - destruct (job_observed j); [by eapply collect_uuids_collects|].
    result_inv. apply collects_nil.
  - destruct (job_quiet j); [by eapply collect_uuids_collects|].
    result_inv. apply collects_nil.
Qed.

(** A job accepted by a host with a configured GPU slot refers to that
    one GPU only: every spelling in its claims, probe claims, observation
    thresholds and quiet detectors has the canonical form of the slot. *)
Theorem accepted_job_uses_host_gpu h j slot name :
  hoc_gpu_slot_uuid (host_observation h) = Some slot → validate_job h j = Ok tt →
  name ∈ job_gpu_names j →
  ∃ u, canonical_gpu_uuid name = Ok u ∧ canonical_gpu_uuid slot = Ok u.
Proof.
  intros Hslot H Hname. unfold validate_job in H. rewrite Hslot in H.
  destruct (canonical_gpu_uuid slot) as [c|] eqn:Hc; [|done]. simpl in H.
  destruct (gpu_uuids j) as [us|] eqn:Hus; [|done]. simpl in H.
  apply gpu_uuids_collects in Hus as [[Hall _] _].
  destruct (result_mapM _ _) as [k|] eqn:Hmap; [|done].
  rewrite Forall_forall in Hall. destruct (Hall name Hname) as (u & Hu & Hin).
  exists u. split; [done|].
  pose proof (proj1 (result_mapM_unit _ _) (ex_intro _ k Hmap)) as Hk.
  rewrite Forall_forall in Hk. specialize (Hk u). simpl in Hk.
  rewrite elem_of_btree_elements in Hk. specialize (Hk Hin).
  case_bool_decide as Hcu; [done|]. congruence.
Qed.
End facts.

(** ** A sample host and job *)
Module Sample.
(** Unix: case-sensitive names, absolute paths start with a slash. *)
Definition unix : Platform :=
  {| windows := false; to_uppercase := λ s, s; path_is_absolute := starts_with "/";
     json_len := λ s, Some (len s + 2); debug_str := λ s, s |}.

Definition claims (custom : gmap string N) : ResourceClaims :=
  {| rc_cpu_units := Some 2; rc_ram_mb := Some 512; rc_cargo_slots := None; rc_gpu_slots := Some 1;
     rc_custom := custom; rc_shared_fences := ["/work"%string]; rc_exclusive_fences := [];
     rc_impacts := ["build"%string] |}.

Definition environment : EnvironmentSpec :=
  {| env_set := {["PATH" := "/bin"; "LANG" := "C"]}; env_unset := ["HOME"%string] |}.

Definition job : JobSpec :=
  {| job_spec_version := 4; job_priority := 1; job_executable := "/bin/true"; job_args := [];
     job_working_directory := "/work"; job_stdin := StdinEof; job_environment := environment;
     job_resources := claims {["vram_mb:GPU-A" := 4]}; job_observed := None;
     job_conditions :=
       [{| cond_predicate := Probe {| probe_executable := "/bin/probe"; probe_args := [];
             probe_working_directory := "/"; probe_environment := environment;
             probe_resources := claims ∅; probe_timeout_seconds := 10;
             probe_interval_seconds := 5; probe_accepted_exit_codes := [0%Z] |};
           cond_deadline := DeadlineRelative 60; cond_on_deadline := DeadlineFailed |}];
     job_retry := {| retry_max_attempts := 3; retry_backoff_seconds := 1;
                     retry_retryable := ["process_failed"%string] |};
     job_postconditions := [];
     job_labels := [{| label_key := "team"; label_value := "a" |}];
     job_expected_duration_seconds := None; job_timeout_seconds := Some 100;
     job_quiet := Some {| quiet_stable_seconds := 5; quiet_max_sample_age_seconds := 5;
        quiet_wait_budget_seconds := 60; quiet_detectors := [ForeignGpuCompute "gpu-A"] |};
     job_artifacts := []; job_child_submission_policy := None |}.

Definition host : HostConfig :=
  {| host_resources := {| cap_cpu_units := 8; cap_ram_mb := 1024; cap_cargo_slots := 1;
       cap_gpu_slots := 1; cap_custom := {["vram_mb:gpu-a" := 16]} |};
     host_impact_incompatibilities := ∅;
     host_observation :=
       {| hoc_sample_interval_millis := 1000; hoc_quiet_max_sample_gap_millis := 2000;
          hoc_generation_max_cadence_gap_millis := 5000; hoc_memory_max_sample_age_millis := 5000;
          hoc_ram_safety_margin_mb := 64; hoc_vram_safety_margin_mb := 64;
          hoc_gpu_slot_uuid := Some "GPU-a"%string;
          hoc_process_rules := {| rules_block := []; rules_ignore := [] |};
          hoc_pre_release_max_deferrals := 4; hoc_pre_release_backoff_millis := 500;
          hoc_admission_wall_clock_limit_seconds := 3600;
          hoc_condition_rescan_interval_millis := 1000; hoc_gpu_provider := Nvml |} |}.

Lemma host_valid : HostConfig_validate host = Ok tt.
Proof. vm_compute. reflexivity. Qed.

Lemma job_validate_bounds_witness :
  retry_max_attempts (job_retry job) *
    N.of_nat (length (job_postconditions job)
              + length (List.filter is_probe (job_conditions job)) + 1) ≤ 256.
Proof. apply (job_validate_bounds unix job). vm_compute. reflexivity. Defined.

Lemma accepted_job_uses_host_gpu_witness :
  ∃ u, canonical_gpu_uuid "gpu-A" = Ok u ∧ canonical_gpu_uuid "GPU-a" = Ok u.
Proof.
  apply (accepted_job_uses_host_gpu host job "GPU-a" "gpu-A").
  - reflexivity.
  - vm_compute. reflexivity.
  - apply (bool_decide_eq_true (_ ∈ job_gpu_names job)). vm_compute. reflexivity.
Defined.
End Sample.
