(* ===== verification/Batch.v ===== *)
(** * Batch: validation of a batch document ([BatchSpec::validate] of [src/src/spec.rs])

    Member names, dependency resolution and the topological check.  The check
    decrements counters and indexes vectors, so a run is an [option]: [None] is
    an arithmetic underflow, an index out of range or an exhausted loop bound. *)
From S2P Require Import Prelude Spec Validate.

Section batch.
Context (pf : Platform).

(** First pass: names are well-formed and unique, members validate. *)
Definition index_member (indices : gmap string nat) (entry : nat * BatchMember)
    : result Error (gmap string nat) :=
  let '(index, member) := entry in
  _ ← guard_err (bool_decide (member_name member = "")
                 || bool_decide (128 < len (member_name member))
                 || contains_nul (member_name member)) (InvalidSpec "invalid batch member name");
  _ ← guard_err (bool_decide (is_Some (indices !! member_name member)))
        (InvalidSpec ("duplicate batch member " +:+ debug_str pf (member_name member)));
  _ ← JobSpec_validate pf (member_spec member);
  Ok (<[member_name member := index]> indices).

Definition member_indices (jobs : list BatchMember) : result Error (gmap string nat) :=
  result_foldM index_member ∅ (imap pair jobs).

(** The arrays [incoming] and [successors] of the second pass. *)
Record Graph := { incoming : list nat; successors : list (list nat) }.

Definition add_dependency (indices : gmap string nat) (index : nat) (name : string)
    (st : gset nat * Graph) (d : DependencySpec) : result Error (gset nat * Graph) :=
  let '(seen, g) := st in
  predecessor ← ok_or (indices !! dep_job d)
    (InvalidSpec ("batch member " +:+ debug_str pf name +:+ " depends on unknown member "
                  +:+ debug_str pf (dep_job d)));
  _ ← guard_err (bool_decide (predecessor = index) || bool_decide (predecessor ∈ seen))
        (InvalidSpec ("invalid or duplicate dependency for " +:+ debug_str pf name));
  Ok ({[predecessor]} ∪ seen,
      {| incoming := alter S index (incoming g);
         successors := alter (λ l, l ++ [index]) predecessor (successors g) |}).

Definition add_member (indices : gmap string nat) (g : Graph) (entry : nat * BatchMember)
    : result Error Graph :=
  let '(index, member) := entry in
  st ← result_foldM (add_dependency indices index (member_name member)) (∅, g)
         (member_dependencies member);
  Ok st.2.

Definition dependency_graph (indices : gmap string nat) (jobs : list BatchMember)
    : result Error Graph :=
  result_foldM (add_member indices)
    {| incoming := replicate (length jobs) 0%nat; successors := replicate (length jobs) [] |}
    (imap pair jobs).

(** Third pass.  [ready] has the end of the Rust vector at its head. *)
Fixpoint release_successors (succs : list nat) (inc ready : list nat)
    : option (list nat * list nat) :=
  match succs with
  | [] => Some (inc, ready)
  | s :: succs =>
      match inc !! s with
      | Some (S c) =>
          release_successors succs (<[s := c]> inc)
            (if decide (c = 0%nat) then s :: ready else ready)
      | _ => None
      end
  end.

Fixpoint visit (fuel : nat) (succs : list (list nat)) (inc ready : list nat) (visited : nat)
    : option nat :=
  match ready with
  | [] => Some visited
  | index :: ready =>
      match fuel with
      | O => None
      | S fuel =>
          next ← succs !! index;
          '(inc, ready) ← release_successors next inc ready;
          visit fuel succs inc ready (S visited)
      end
  end.

Definition initially_ready (inc : list nat) : list nat :=
  reverse (omap (λ '(index, count), if decide (count = 0%nat) then Some index else None)
             (imap pair inc)).

(** Each member is visited at most once, which bounds the loop. *)
Definition visited_count (g : Graph) : option nat :=
  visit (length (incoming g)) (successors g) (incoming g) (initially_ready (incoming g)) 0.

Definition BatchSpec_validate (b : BatchSpec) : option (result Error unit) :=
  match
    (_ ← guard_err (bool_decide (batch_spec_version b ≠ SPEC_VERSION))
           (InvalidSpec ("unsupported spec_version " +:+ pretty (batch_spec_version b)
              +:+ ", expected " +:+ pretty SPEC_VERSION));
     _ ← guard_err (bool_decide (batch_jobs b = []) || bool_decide (1024 < length (batch_jobs b))%nat)
           (InvalidSpec "a batch must contain 1..=1024 jobs");
     indices ← member_indices (batch_jobs b);
     dependency_graph indices (batch_jobs b))
  with
  | Err e => Some (Err e)
  | Ok g =>
      visited ← visited_count g;
      Some (guard_err (bool_decide (visited ≠ length (batch_jobs b)))
              (InvalidSpec "batch dependency graph contains a cycle"))
  end.
End batch.

(** * Topological visits of a graph given by its predecessor lists *)
Section kahn.
Context (n : nat) (preds : nat → list nat) (succs : list (list nat)).

(** [edge p s]: [s] waits for [p]. *)
Definition edge (p s : nat) : Prop := (s < n)%nat ∧ p ∈ preds s.

Hypothesis preds_lt : ∀ s p, (s < n)%nat → p ∈ preds s → (p < n)%nat.
Hypothesis preds_nodup : ∀ s, (s < n)%nat → NoDup (preds s).
Hypothesis succs_spec : ∀ p l, succs !! p = Some l → NoDup l ∧ ∀ s, s ∈ l ↔ edge p s.
Hypothesis succs_length : length succs = n.

(** How many predecessors of [s] are not in [V]. *)
Definition waiting (V : list nat) (s : nat) : nat := length (filter (λ p, p ∉ V) (preds s)).

Lemma waiting_0 V s : waiting V s = 0%nat ↔ ∀ p, p ∈ preds s → p ∈ V.
Proof.
  unfold waiting. rewrite length_zero_iff_nil. split.
  - intros Hnil p Hp. destruct (decide (p ∈ V)); [done|].
    assert (p ∈ filter (λ p, p ∉ V) (preds s)) as Hin by by apply list_elem_of_filter.
    rewrite Hnil in Hin. by apply not_elem_of_nil in Hin.
  - intros Hall. destruct (filter _ _) as [|p l] eqn:E; [done|].
    assert (p ∈ filter (λ p, p ∉ V) (preds s)) as Hin by (rewrite E; by left).
    apply list_elem_of_filter in Hin as [Hno Hin]. by destruct (Hno (Hall p Hin)).
Qed.

(** Visiting one more member lowers the count of its successors by one. *)
Lemma waiting_cons V v s : (s < n)%nat → v ∉ V →
  waiting V s = (waiting (v :: V) s + if decide (v ∈ preds s) then 1 else 0)%nat.
Proof.
  intros Hs Hv. unfold waiting. pose proof (preds_nodup s Hs) as Hnd.
  induction (preds s) as [|p l IH]; [done|].
  apply NoDup_cons in Hnd as [Hp Hnd]. specialize (IH Hnd).
  destruct (decide (p = v)) as [->|Hpv].
  - rewrite (filter_cons_True (λ p, p ∉ V)) by done.
    rewrite (filter_cons_False (λ p, p ∉ v :: V)) by set_solver.
    rewrite (decide_False (P := v ∈ l)) in IH by done.
    rewrite (decide_True (P := v ∈ v :: l)) by set_solver. simpl. lia.
  - assert ((if decide (v ∈ p :: l) then 1 else 0) = (if decide (v ∈ l) then 1 else 0))%nat as ->
      by (apply decide_ext; set_solver).
    destruct (decide (p ∈ V)) as [HpV|HpV].
    + rewrite (filter_cons_False (λ p, p ∉ V)) by naive_solver.
      rewrite (filter_cons_False (λ p, p ∉ v :: V)) by set_solver. done.
    + rewrite (filter_cons_True (λ p, p ∉ V)) by done.
      rewrite (filter_cons_True (λ p, p ∉ v :: V)) by set_solver. simpl. lia.
Qed.

(** Every listed member comes after its predecessors (latest first). *)
Fixpoint ordered (V : list nat) : Prop :=
  match V with [] => True | v :: V => (∀ p, p ∈ preds v → p ∈ V) ∧ ordered V end.

(** The loop state: [V] lists the visited members. *)
Record visit_inv (V inc ready : list nat) : Prop := {
  vi_nodup : NoDup (V ++ ready);
  vi_inc : ∀ s, (s < n)%nat → inc !! s = Some (waiting V s);
  vi_ready : ∀ s, s ∈ V ++ ready ↔ (s < n)%nat ∧ waiting V s = 0%nat;
  vi_ordered : ordered V;
}.

Lemma release_successors_spec l inc ready :
  NoDup l → (∀ s, s ∈ l → ∃ c, inc !! s = Some (S c)) →
  ∃ inc' new, release_successors l inc ready = Some (inc', new ++ ready) ∧ NoDup new ∧
    (∀ s, s ∈ new ↔ s ∈ l ∧ inc !! s = Some 1%nat) ∧
    (∀ s, inc' !! s = if decide (s ∈ l) then pred <$> inc !! s else inc !! s).
Proof.
  revert inc ready. induction l as [|s l IH]; intros inc ready Hnd Hpos; simpl.
  { exists inc, []. split_and!; [done|constructor|set_solver|].
    done. }
  apply NoDup_cons in Hnd as [Hs Hnd].
  destruct (Hpos s) as [c Hc]; [by left|]. rewrite Hc.
  destruct (IH (<[s := c]> inc) (if decide (c = 0%nat) then s :: ready else ready))
    as (inc' & new & Hrun & Hnew & Hin & Hinc); [done|..].
  { intros s' Hs'. rewrite list_lookup_insert_ne by set_solver. apply Hpos. by right. }
  assert (∀ x, x ∈ l → <[s := c]> inc !! x = inc !! x) as Hsame.
  { intros x Hx. apply list_lookup_insert_ne. set_solver. }
  exists inc', (new ++ if decide (c = 0%nat) then [s] else []). rewrite Hrun. split_and!.
  - case_decide; [by rewrite <-(assoc_L (++))|by rewrite app_nil_r].
  - case_decide; [|by rewrite app_nil_r]. apply NoDup_app. split_and!; [done| |apply NoDup_singleton].
    intros x Hx%Hin. set_solver.
  - intros x. rewrite elem_of_app, Hin, elem_of_cons. split.
    + intros [[Hx Hx1]|Hx]; [rewrite Hsame in Hx1 by done; auto|].
      case_decide; [|set_solver]. apply list_elem_of_singleton in Hx as ->. subst. auto.
    + intros [[->|Hx] Hx1]; [right|left; by rewrite Hsame].
      rewrite Hc in Hx1. simplify_eq. by left.
  - intros x. rewrite Hinc. destruct (decide (x ∈ l)) as [Hx|Hx].
    + rewrite decide_True by set_solver. by rewrite Hsame.
    + destruct (decide (x = s)) as [->|Hxs].
      * rewrite decide_True by set_solver. rewrite Hc. simpl.
        apply list_lookup_insert_eq. by eapply lookup_lt_Some.
      * rewrite decide_False by set_solver. by rewrite list_lookup_insert_ne.
Qed.

Lemma visit_step V inc v ready :
  visit_inv V inc (v :: ready) →
  ∃ l inc' ready', succs !! v = Some l ∧
    release_successors l inc ready = Some (inc', ready') ∧ visit_inv (v :: V) inc' ready'.
Proof.
  intros [Hnd Hinc Hrd Hord].
  destruct (proj1 (Hrd v)) as [Hv Hw]; [set_solver|].
  destruct (lookup_lt_is_Some_2 succs v) as [l Hl]; [by rewrite succs_length|].
  destruct (succs_spec v l Hl) as [Hlnd Hle].
  apply NoDup_app in Hnd as (HndV & Hdis & HndR). apply NoDup_cons in HndR as [HvR HndR].
  assert (v ∉ V) as HvV by (intros Hin; apply (Hdis v Hin); by left).
  assert (∀ s, s ∈ l → inc !! s = Some (S (waiting (v :: V) s))) as Hsl.
  { intros s Hs. apply Hle in Hs as [Hs Hp]. rewrite Hinc by done.
    rewrite (waiting_cons V v s Hs HvV). rewrite decide_True by done. f_equal. lia. }
  destruct (release_successors_spec l inc ready Hlnd) as (inc' & new & Hrun & Hnew & Hin & Hinc');
    [eauto|].
  exists l, inc', (new ++ ready). split_and!; [done..|].
  assert (∀ s, (s < n)%nat → inc' !! s = Some (waiting (v :: V) s)) as Hfin.
  { intros s Hs. rewrite Hinc'. case_decide as Hsl'; [by rewrite Hsl|].
    rewrite Hinc, (waiting_cons V v s) by done.
    rewrite decide_False; [by rewrite Nat.add_0_r|]. intros Hp. apply Hsl'. by apply Hle. }
  assert (∀ s, s ∈ new → s ∉ v :: V ∧ s ∉ ready) as Hfresh.
  { intros s [Hs Hone]%Hin. assert (s ∉ V ++ v :: ready) as Hno; [|set_solver].
    intros [Hlt H0]%Hrd. rewrite Hinc in Hone by done. congruence. }
  split; [|done| |simpl; split; [by apply waiting_0|done]].
  - apply NoDup_app. split_and!; [by constructor| |].
    + intros s [->|Hs]%elem_of_cons [Hn|Hn]%elem_of_app; [|done| |].
      * by apply Hfresh in Hn as [[]%not_elem_of_cons _].
      * by apply Hfresh in Hn as [[]%not_elem_of_cons _].
      * apply (Hdis s Hs). by right.
    + apply NoDup_app. split_and!; [done| |done]. intros s Hs. by apply Hfresh.
  - intros s. split.
    + intros Hs. assert (s ∈ V ++ v :: ready ∨ s ∈ new) as [Hold|Hn] by set_solver.
      * apply Hrd in Hold as [Hlt H0]. split; [done|].
        rewrite (waiting_cons V v s Hlt HvV) in H0. lia.
      * apply Hin in Hn as [Hl' Hone]. apply Hle in Hl' as Hedge. destruct Hedge as [Hlt _].
        split; [done|]. rewrite Hsl in Hone by done. by simplify_eq.
    + intros [Hlt H0]. destruct (decide (waiting V s = 0%nat)) as [Hz|Hz].
      * assert (s ∈ V ++ v :: ready) as Hs by by apply Hrd. set_solver.
      * assert (v ∈ preds s) as Hp.
        { destruct (decide (v ∈ preds s)) as [|Hno]; [done|].
          rewrite (waiting_cons V v s Hlt HvV), H0, decide_False in Hz by done. done. }
        assert (s ∈ new) as Hs; [|set_solver]. apply Hin.
        assert (s ∈ l) as Hs by (apply Hle; by split). rewrite Hsl, H0 by done. done.
Qed.

Lemma visit_inv_length V inc ready : visit_inv V inc ready → (length (V ++ ready) ≤ n)%nat.
Proof.
  intros [Hnd _ Hrd _]. rewrite <-(length_seq n 0). apply submseteq_length.
  apply NoDup_submseteq; [done|]. intros s Hs%Hrd. apply elem_of_seq. lia.
Qed.

(** The visit never gets stuck and ends with a closed set: no member outside
    it has all its predecessors inside. *)
Lemma visit_spec fuel V inc ready :
  visit_inv V inc ready → (n ≤ length V + fuel)%nat →
  ∃ V', visit fuel succs inc ready (length V) = Some (length V') ∧ NoDup V' ∧ ordered V' ∧
    ∀ s, s ∈ V' ↔ (s < n)%nat ∧ waiting V' s = 0%nat.
Proof.
  revert V inc ready. induction fuel as [|fuel IH]; intros V inc [|v ready] Hinv Hf; simpl.
  1, 3: exists V; destruct Hinv as [Hnd _ Hrd Hord]; rewrite app_nil_r in *; done.
  - apply visit_inv_length in Hinv. rewrite length_app in Hinv. simpl in Hinv. lia.
  - destruct (visit_step _ _ _ _ Hinv) as (l & inc' & ready' & Hl & Hrun & Hinv').
    rewrite Hl. simpl. rewrite Hrun. simpl. apply (IH (v :: V)); [done|simpl; lia].
Qed.

(** ** Acyclicity *)
Lemma ordered_acc V : ordered V → ∀ v, v ∈ V → Acc edge v.
Proof.
  induction V as [|w V IH]; intros Hord v Hv; [by apply not_elem_of_nil in Hv|].
  destruct Hord as [Hw Hord]. apply elem_of_cons in Hv as [->|Hv]; [|by apply IH].
  constructor. intros p [_ Hp]. apply IH; [done|by apply Hw].
Qed.

Lemma acc_no_cycle v : Acc edge v → ¬ tc edge v v.
Proof.
  induction 1 as [v _ IH]. intros Hc.
  assert (∀ x y, tc edge x y → ∃ p, rtc edge x p ∧ edge p y) as Hlast.
  { induction 1 as [x y Hxy|x y z Hxy Hyz (p & Hp & Hpz)]; [by exists x|].
    exists p. split; [by eapply rtc_l|done]. }
  destruct (Hlast v v Hc) as (p & Hvp & Hpv).
  apply (IH p Hpv). eapply tc_rtc_r; [by apply tc_once|done].
Qed.

(** Without cycles, a path of distinct members can only be extended by a new
    one, so predecessor chains are bounded by [n]. *)
Lemma no_cycle_acc : (∀ v, ¬ tc edge v v) → ∀ v, Acc edge v.
Proof.
  intros Hnc.
  cut (∀ k v path, (n ≤ length path + k)%nat → NoDup (v :: path) →
    (∀ w, w ∈ v :: path → (w < n)%nat) → (∀ w, w ∈ path → tc edge v w) → Acc edge v).
  { intros Hcut v. destruct (decide (v < n)%nat) as [Hv|Hv].
    - apply (Hcut n v []); [simpl; lia|apply NoDup_singleton|set_solver|set_solver].
    - constructor. intros p [Hp _]. lia. }
  induction k as [|k IH]; intros v path Hlen Hnd Hlt Htc.
  { assert (length (v :: path) ≤ n)%nat as Hle; [|simpl in Hle; lia].
    rewrite <-(length_seq n 0). apply submseteq_length, NoDup_submseteq; [done|].
    intros w Hw%Hlt. apply elem_of_seq. lia. }
  constructor. intros p Hp. apply (IH p (v :: path)); [simpl; lia|..].
  - constructor; [|done]. intros [->|Hin]%elem_of_cons; [by apply (Hnc v), tc_once|].
    apply (Hnc v). eapply tc_r; [by apply Htc|done].
  - intros w [->|Hw]%elem_of_cons; [|by apply Hlt].
    destruct Hp as [Hv Hp]. by apply (preds_lt v).
  - intros w [->|Hw]%elem_of_cons; [by apply tc_once|]. eapply tc_l; [done|by apply Htc].
Qed.

Lemma visit_all_iff V : NoDup V → ordered V →
  (∀ s, s ∈ V ↔ (s < n)%nat ∧ waiting V s = 0%nat) →
  length V = n ↔ ∀ v, ¬ tc edge v v.
Proof.
  intros Hnd Hord Hcl. assert (V ⊆+ seq 0 n) as Hsub.
  { apply NoDup_submseteq; [done|]. intros s [Hs _]%Hcl. apply elem_of_seq. lia. }
  split.
  - intros Hlen v. apply acc_no_cycle.
    assert (V ≡ₚ seq 0 n) as Hperm.
    { apply submseteq_length_Permutation; [done|]. rewrite length_seq. lia. }
    destruct (decide (v < n)%nat) as [Hv|Hv]; [|constructor; intros p [Hp _]; lia].
    apply (ordered_acc V); [done|]. rewrite Hperm. apply elem_of_seq. lia.
  - intros Hnc. pose proof (no_cycle_acc Hnc) as Hacc.
    assert (∀ s, (s < n)%nat → s ∈ V) as Hall.
    { intros s. specialize (Hacc s). induction Hacc as [s _ IH]. intros Hs. apply Hcl.
      split; [done|]. apply waiting_0. intros p Hp. apply IH; [by split|by apply (preds_lt s)]. }
    assert (length (seq 0 n) ≤ length V)%nat as Hge.
    { apply submseteq_length, NoDup_submseteq; [apply NoDup_ListNoDup, List.seq_NoDup|].
      intros s Hs%elem_of_seq. apply Hall. lia. }
    apply submseteq_length in Hsub. rewrite length_seq in *. lia.
Qed.

Lemma initially_ready_nodup inc : NoDup (initially_ready inc).
Proof.
  unfold initially_ready. rewrite reverse_Permutation.
  set (pick := λ '(index, count), if decide (count = 0%nat) then Some index else None).
  assert (∀ l k, NoDup (omap pick (imap (λ i x, (k + i, x)%nat) l)) ∧
    ∀ i, i ∈ omap pick (imap (λ i x, (k + i, x)%nat) l) → (k ≤ i)%nat)
    as Haux; [|apply (Haux inc 0%nat)].
  induction l as [|c l IH]; intros k; [split; [constructor|set_solver]|].
  destruct (IH (S k)) as [IH1 IH2]. rewrite imap_cons. cbn [omap list_omap].
  assert (imap ((λ i x, (k + i, x)%nat) ∘ S) l = imap (λ i x, (S k + i, x)%nat) l) as ->
    by (apply imap_ext; intros; simpl; f_equal; lia).
  rewrite Nat.add_0_r. simpl. case_decide; split; try done.
  - constructor; [|done]. intros Hk%IH2. lia.
  - intros i [->|Hi%IH2]%elem_of_cons; lia.
  - intros i Hi%IH2. lia.
Qed.

Lemma initially_ready_inv inc :
  length inc = n → (∀ s, (s < n)%nat → inc !! s = Some (length (preds s))) →
  visit_inv [] inc (initially_ready inc).
Proof.
  intros Hlen Hinc.
  assert (∀ s, waiting [] s = length (preds s)) as Hw.
  { intros s. unfold waiting. induction (preds s) as [|p l IH]; [done|].
    rewrite filter_cons_True by set_solver. cbn [length]. by f_equal. }
  assert (∀ s, s ∈ initially_ready inc ↔ inc !! s = Some 0%nat) as Hin.
  { intros s. unfold initially_ready. rewrite elem_of_reverse, list_elem_of_omap. split.
    - intros ([i c] & Hi & Hc). case_decide; simplify_eq.
      apply list_elem_of_lookup in Hi as [j Hj]. rewrite list_lookup_imap in Hj.
      destruct (inc !! j) eqn:E; by simplify_eq/=.
    - intros Hs. exists (s, 0%nat). split; [|done]. apply list_elem_of_lookup. exists s.
      by rewrite list_lookup_imap, Hs. }
  split; simpl.
  - apply initially_ready_nodup.
  - intros s Hs. by rewrite Hw, Hinc.
  - intros s. rewrite Hin, Hw. split.
    + intros Hs. assert (s < n)%nat as Hlt by (rewrite <-Hlen; by eapply lookup_lt_Some).
      rewrite Hinc in Hs by done. by simplify_eq.
    + intros [Hs H0]. by rewrite Hinc, H0.
  - done.
Qed.

(** The count reaches [n] exactly when there is no dependency cycle. *)
Lemma visited_count_spec inc :
  length inc = n → (∀ s, (s < n)%nat → inc !! s = Some (length (preds s))) →
  ∃ k, visited_count {| incoming := inc; successors := succs |} = Some k ∧
    (k = n ↔ ∀ v, ¬ tc edge v v).
Proof.
  intros Hlen Hinc. unfold visited_count; simpl.
  destruct (visit_spec (length inc) [] inc (initially_ready inc))
    as (V & Hrun & Hnd & Hord & Hcl); [by apply initially_ready_inv|simpl; lia|].
  exists (length V). split; [done|]. by apply visit_all_iff.
Qed.
End kahn.

(** * The graph the second pass builds *)
Section graph.
Context (n : nat).

(** [g] is the graph of the predecessor lists [pr] on [0 .. n). *)
Record graph_inv (pr : nat → list nat) (g : Graph) : Prop := {
  gi_incoming : length (incoming g) = n;
  gi_successors : length (successors g) = n;
  gi_count : ∀ s, (s < n)%nat → incoming g !! s = Some (length (pr s));
  gi_edges : ∀ p l, successors g !! p = Some l → NoDup l ∧ ∀ s, s ∈ l ↔ edge n pr p s;
}.

Lemma graph_inv_ext pr pr' g :
  (∀ s, (s < n)%nat → pr s = pr' s) → graph_inv pr g → graph_inv pr' g.
Proof.
  intros Hpr [? ? Hcount Hedges]. split; [done..| |].
  - intros s Hs. by rewrite <-Hpr by done; apply Hcount.
  - intros p l Hl. destruct (Hedges p l Hl) as [Hnd Hin]. split; [done|].
    intros s. rewrite Hin. unfold edge. split; intros [Hs Hp]; (split; [done|]).
    + by rewrite <-Hpr.
    + by rewrite Hpr.
Qed.

Lemma graph_inv_empty :
  graph_inv (λ _, []) {| incoming := replicate n 0%nat; successors := replicate n [] |}.
Proof.
  split; simpl; rewrite ?length_replicate; [done..| |].
  - intros s Hs. by apply lookup_replicate_2.
  - intros p l [-> _]%lookup_replicate. split; [constructor|].
    intros s. unfold edge. set_solver.
Qed.

Definition add_pred (index p : nat) (pr : nat → list nat) : nat → list nat :=
  λ s, if decide (s = index) then pr s ++ [p] else pr s.

Lemma graph_inv_add pr g index p :
  (index < n)%nat → p ∉ pr index → graph_inv pr g →
  graph_inv (add_pred index p pr)
    {| incoming := alter S index (incoming g);
       successors := alter (λ l, l ++ [index]) p (successors g) |}.
Proof.
  intros Hi Hp [Hli Hls Hcount Hedges]. unfold add_pred.
  split; simpl; rewrite ?length_alter; [done..| |].
  - intros s Hs. case_decide as Hsi.
    + subst. rewrite list_lookup_alter_eq, Hcount by done. simpl. f_equal.
      rewrite length_app. simpl. lia.
    + by rewrite list_lookup_alter_ne, Hcount.
  - intros q l Hl. destruct (decide (q = p)) as [->|Hqp].
    + rewrite list_lookup_alter_eq in Hl.
      destruct (successors g !! p) as [l0|] eqn:E; simplify_eq/=.
      destruct (Hedges p l0 E) as [Hnd Hin].
      assert (index ∉ l0) as Hno by (rewrite Hin; unfold edge; tauto).
      split.
      * apply NoDup_app. split_and!; [done| |apply NoDup_singleton]. set_solver.
      * intros s. rewrite elem_of_app, list_elem_of_singleton, Hin. unfold edge.
        case_decide; [subst; set_solver|naive_solver].
    + rewrite list_lookup_alter_ne in Hl by done.
      destruct (Hedges q l Hl) as [Hnd Hin]. split; [done|]. intros s. rewrite Hin. unfold edge.
      case_decide; [subst; set_solver|done].
Qed.
End graph.

(** * What a batch document must satisfy *)
Section batch_wf.
Context (pf : Platform).

Definition name_ok (name : string) : Prop :=
  name ≠ "" ∧ len name ≤ 128 ∧ contains_nul name = false.

(** Member [s] names member [p] as a dependency. *)
Definition depends (jobs : list BatchMember) (p s : string) : Prop :=
  ∃ m, m ∈ jobs ∧ member_name m = s ∧ p ∈ dep_job <$> member_dependencies m.

Record batch_wf (b : BatchSpec) : Prop := {
  bw_version : batch_spec_version b = SPEC_VERSION;
  bw_length : (1 ≤ length (batch_jobs b) ≤ 1024)%nat;
  bw_names : ∀ m, m ∈ batch_jobs b → name_ok (member_name m);
  bw_unique : NoDup (member_name <$> batch_jobs b);
  bw_specs : ∀ m, m ∈ batch_jobs b → JobSpec_validate pf (member_spec m) = Ok tt;
  bw_known : ∀ p s, depends (batch_jobs b) p s → p ∈ member_name <$> batch_jobs b;
  bw_deps_unique : ∀ m, m ∈ batch_jobs b → NoDup (dep_job <$> member_dependencies m);
  bw_acyclic : ∀ x, ¬ tc (depends (batch_jobs b)) x x;
}.

Lemma imap_pair_snd {A} (jobs : list A) : (imap pair jobs).*2 = jobs.
Proof.
  apply list_eq. intros k. rewrite list_lookup_fmap, list_lookup_imap. by destruct (jobs !! k).
Qed.

Lemma imap_pair_split {A} (jobs : list A) done i x rest :
  imap pair jobs = done ++ (i, x) :: rest → i = length done ∧ jobs = done.*2 ++ x :: rest.*2.
Proof.
  intros H. pose proof (imap_pair_snd jobs) as Hsnd. split.
  - assert (imap pair jobs !! length done = Some (i, x)) as Hl.
    { rewrite H. apply list_lookup_middle. done. }
    rewrite list_lookup_imap in Hl. destruct (jobs !! length done); by simplify_eq/=.
  - by rewrite <-Hsnd, H, fmap_app, fmap_cons.
Qed.

(** [idx] maps exactly the member names to their positions. *)
Definition indexes (jobs : list BatchMember) (idx : gmap string nat) : Prop :=
  ∀ name i, idx !! name = Some i ↔ (member_name <$> jobs) !! i = Some name.

Definition member_ok (m : BatchMember) : Prop :=
  name_ok (member_name m) ∧ JobSpec_validate pf (member_spec m) = Ok tt.

Definition indexed (jobs : list BatchMember) (idx : gmap string nat) : Prop :=
  indexes jobs idx ∧ NoDup (member_name <$> jobs) ∧ Forall member_ok jobs.

Lemma indexed_nil : indexed [] ∅.
Proof. split_and!; [|constructor..]. intros name i. rewrite lookup_empty. by destruct i. Qed.

Lemma indexes_elem jobs idx name :
  indexes jobs idx → is_Some (idx !! name) ↔ name ∈ member_name <$> jobs.
Proof.
  intros Hidx. rewrite list_elem_of_lookup. split; intros [i Hi]; exists i; by apply Hidx.
Qed.

Lemma index_member_Ok jobs idx m idx' :
  indexed jobs idx →
  index_member pf idx (length jobs, m) = Ok idx' ↔
    member_ok m ∧ member_name m ∉ member_name <$> jobs ∧
    idx' = <[member_name m := length jobs]> idx.
Proof.
  intros [Hidx _]. unfold index_member, member_ok, name_ok.
  pose proof (indexes_elem jobs idx (member_name m) Hidx) as Hel. split.
  - intros H. result_inv. split_conditions. split_and!; try done; [lia|]. by rewrite <-Hel.
  - intros ((( Hne & Hlen & Hnul) & Hval) & Hnew & ->).
    rewrite !bool_decide_eq_false_2, Hnul by (rewrite ?Hel; try done; lia). simpl.
    by rewrite Hval.
Qed.

Lemma indexed_step jobs idx m :
  indexed jobs idx → member_ok m → member_name m ∉ member_name <$> jobs →
  indexed (jobs ++ [m]) (<[member_name m := length jobs]> idx).
Proof.
  intros (Hidx & Hnd & Hok) Hm Hnew. split_and!.
  - intros name i. rewrite fmap_app. simpl. rewrite lookup_insert, lookup_snoc_Some, length_fmap.
    specialize (Hidx name i). case_decide as Hn.
    + subst. split; [intros [= <-]; by right|].
      intros [[Hlt Hl]|[-> _]]; [|done]. destruct Hnew. by eapply list_elem_of_lookup_2.
    + rewrite Hidx. split; [|naive_solver]. intros Hl. left. split; [|done].
      apply lookup_lt_Some in Hl. by rewrite length_fmap in Hl.
  - rewrite fmap_app. apply NoDup_app. split_and!; [done| |apply NoDup_singleton]. set_solver.
  - apply Forall_app. split; [done|by constructor].
Qed.

Lemma member_indices_Ok jobs idx : member_indices pf jobs = Ok idx → indexed jobs idx.
Proof.
  intros H. assert (indexed (imap pair jobs).*2 idx) as Hi; [|].
  { revert H. apply (result_foldM_ind (λ done, indexed done.*2)); [apply indexed_nil|].
    intros done [i m] rest s1 s2 [-> _]%imap_pair_split Hs1 Hs2.
    rewrite <-(length_fmap snd) in Hs2. apply (index_member_Ok _ _ _ _ Hs1) in Hs2 as (? & ? & ->).
    rewrite fmap_app. by apply indexed_step. }
  by rewrite (imap_pair_snd jobs) in Hi.
Qed.

Lemma member_indices_total jobs :
  NoDup (member_name <$> jobs) → Forall member_ok jobs →
  ∃ idx, member_indices pf jobs = Ok idx ∧ indexed jobs idx.
Proof.
  intros Hnd Hok. destruct (result_foldM_total (λ done, indexed done.*2) (index_member pf) ∅
    (imap pair jobs)) as (idx & Hrun & Hi); [apply indexed_nil| |].
  - intros done [i m] rest s1 [-> Hj]%imap_pair_split Hs1.
    exists (<[member_name m := length done.*2]> s1).
    assert (member_ok m) as Hm.
    { rewrite Forall_forall in Hok. apply Hok. rewrite Hj. set_solver. }
    assert (member_name m ∉ member_name <$> done.*2) as Hnew.
    { rewrite Hj, fmap_app, fmap_cons in Hnd. apply NoDup_app in Hnd as (_ & Hdis & _).
      intros Hin. apply (Hdis _ Hin). by left. }
    rewrite <-(length_fmap snd) at 1. split; [by apply index_member_Ok|].
    rewrite fmap_app. by apply indexed_step.
  - exists idx. by rewrite (imap_pair_snd jobs) in Hi.
Qed.

(** ** The second pass *)
Definition dep_indices (idx : gmap string nat) (deps : list DependencySpec) : list nat :=
  omap (λ d, idx !! dep_job d) deps.

Definition member_preds (idx : gmap string nat) (jobs : list BatchMember) (s : nat) : list nat :=
  match jobs !! s with Some m => dep_indices idx (member_dependencies m) | None => [] end.

(** What one member's dependency list must satisfy. *)
Definition deps_ok (idx : gmap string nat) (index : nat) (deps : list DependencySpec) : Prop :=
  Forall (λ d, is_Some (idx !! dep_job d)) deps ∧ NoDup (dep_indices idx deps) ∧
  index ∉ dep_indices idx deps.

Definition with_preds (index : nat) (l : list nat) (pr : nat → list nat) : nat → list nat :=
  λ s, if decide (s = index) then l else pr s.

(** After the dependencies [deps] of member [index]. *)
Definition dep_loop (n : nat) (idx : gmap string nat) (index : nat) (pr : nat → list nat)
    (deps : list DependencySpec) (st : gset nat * Graph) : Prop :=
  deps_ok idx index deps ∧ st.1 = list_to_set (dep_indices idx deps) ∧
  graph_inv n (with_preds index (dep_indices idx deps) pr) st.2.

Lemma dep_indices_snoc idx deps d p :
  idx !! dep_job d = Some p → dep_indices idx (deps ++ [d]) = dep_indices idx deps ++ [p].
Proof. intros Hd. unfold dep_indices. rewrite omap_app. simpl. by rewrite Hd. Qed.

Lemma add_dependency_Ok n idx index name pr deps st d :
  (index < n)%nat → dep_loop n idx index pr deps st →
  (∀ st', add_dependency pf idx index name st d = Ok st' →
     dep_loop n idx index pr (deps ++ [d]) st') ∧
  (deps_ok idx index (deps ++ [d]) →
     is_ok (add_dependency pf idx index name st d) = true).
Proof.
  intros Hi ((Hknown & Hnd & Hself) & Hseen & Hg). destruct st as [seen g]; simpl in *.
  split.
  - intros st' H. destruct (idx !! dep_job d) as [p|] eqn:Hp; simpl in H; [|done].
    result_inv. apply bool_decide_or_false in Hguard as [Hpi Hps].
    rewrite elem_of_list_to_set in Hps. unfold dep_loop, deps_ok.
    rewrite (dep_indices_snoc _ _ _ _ Hp). split_and!.
    + apply Forall_app. split; [done|]. constructor; [by eexists|constructor].
    + apply NoDup_app. split_and!; [done| |apply NoDup_singleton]. set_solver.
    + set_solver.
    + simpl. rewrite list_to_set_app_L. set_solver.
    + simpl. eapply graph_inv_ext; [|apply graph_inv_add; [done| |done]].
      * intros s Hs. unfold add_pred, with_preds. by case_decide.
      * unfold with_preds. by rewrite decide_True.
  - intros ([_ [[p Hp] _]%Forall_cons]%Forall_app & Hnd' & Hself').
    rewrite (dep_indices_snoc _ _ _ _ Hp) in Hnd', Hself'.
    rewrite Hp. simpl. apply NoDup_app in Hnd' as (_ & Hdis & _).
    rewrite (bool_decide_eq_false_2 (p = index)) by set_solver.
    rewrite (bool_decide_eq_false_2 (p ∈ seen)); [done|].
    rewrite Hseen, elem_of_list_to_set. set_solver.
Qed.

Lemma deps_ok_app idx index a b : deps_ok idx index (a ++ b) → deps_ok idx index a.
Proof.
  unfold deps_ok, dep_indices. rewrite omap_app.
  intros ([? _]%Forall_app & (? & _ & _)%NoDup_app & Hs). split_and!; [done..|]. set_solver.
Qed.

Lemma add_member_spec n idx index m pr g :
  (index < n)%nat → pr index = [] → graph_inv n pr g →
  (∀ g', add_member pf idx g (index, m) = Ok g' →
     deps_ok idx index (member_dependencies m) ∧
     graph_inv n (with_preds index (dep_indices idx (member_dependencies m)) pr) g') ∧
  (deps_ok idx index (member_dependencies m) →
     is_ok (add_member pf idx g (index, m)) = true).
Proof.
  intros Hi Hpr Hg. assert (dep_loop n idx index pr [] (∅, g)) as H0.
  { split_and!; [split_and!; [constructor..|set_solver]|done|].
    eapply graph_inv_ext; [|done]. intros s _. unfold with_preds. case_decide as Hs; [by rewrite Hs|done]. }
  unfold add_member. split.
  - intros g' H. result_inv.
    apply (result_foldM_ind (dep_loop n idx index pr)) in Hstep as (Hok & _ & Hg'); [done..|].
    intros done d rest s1 s2 _ Hs1 Hs2.
    by apply (proj1 (add_dependency_Ok _ _ _ (member_name m) _ _ _ d Hi Hs1)).
  - intros Hok. destruct (result_foldM_total (dep_loop n idx index pr)
      (add_dependency pf idx index (member_name m)) (∅, g) (member_dependencies m))
      as (st & Hst & _); [done| |by rewrite Hst].
    intros done d rest s1 Hl Hs1.
    destruct (add_dependency_Ok _ _ _ (member_name m) _ _ _ d Hi Hs1) as [Hinv Htot].
    rewrite Hl in Hok. replace (done ++ d :: rest) with ((done ++ [d]) ++ rest) in Hok
      by by rewrite <-(assoc_L (++)).
    apply deps_ok_app in Hok. specialize (Htot Hok).
    destruct (add_dependency pf idx index (member_name m) s1 d) as [s2|] eqn:E; [|done].
    exists s2. split; [done|by apply Hinv].
Qed.

Lemma member_preds_snoc idx js m s :
  with_preds (length js) (dep_indices idx (member_dependencies m)) (member_preds idx js) s
  = member_preds idx (js ++ [m]) s.
Proof.
  unfold with_preds, member_preds. case_decide as Hs.
  - subst. by rewrite list_lookup_middle.
  - destruct (decide (s < length js)%nat) as [Hlt|Hge]; [by rewrite lookup_app_l|].
    rewrite lookup_ge_None_2 by lia. rewrite lookup_ge_None_2; [done|].
    rewrite length_app. simpl. lia.
Qed.

Definition graph_loop (n : nat) (idx : gmap string nat) (done : list (nat * BatchMember))
    (g : Graph) : Prop :=
  graph_inv n (member_preds idx done.*2) g ∧
  ∀ i m, done.*2 !! i = Some m → deps_ok idx i (member_dependencies m).

Lemma graph_loop_step n idx done m g g' :
  (length done < n)%nat → graph_loop n idx done g →
  add_member pf idx g (length done, m) = Ok g' → graph_loop n idx (done ++ [(length done, m)]) g'.
Proof.
  intros Hlt [Hg Hdeps] Hadd. rewrite <-(length_fmap snd) in Hlt, Hadd.
  apply (add_member_spec n _ _ _ (member_preds idx done.*2)) in Hadd as [Hok Hg']; [|done| |done].
  - split; rewrite fmap_app; simpl.
    + eapply graph_inv_ext; [|done]. intros s _. apply member_preds_snoc.
    + intros i m' [[Hi Hl]|[-> ->]]%lookup_snoc_Some; [by apply Hdeps|done].
  - unfold member_preds. by rewrite lookup_ge_None_2 by done.
Qed.

Lemma dependency_graph_Ok idx jobs g :
  dependency_graph pf idx jobs = Ok g →
  graph_inv (length jobs) (member_preds idx jobs) g ∧
  ∀ i m, jobs !! i = Some m → deps_ok idx i (member_dependencies m).
Proof.
  intros H. apply (result_foldM_ind (graph_loop (length jobs) idx)) in H.
  - unfold graph_loop in H. by rewrite imap_pair_snd in H.
  - split; [|by intros []]. eapply graph_inv_ext; [|apply graph_inv_empty]. done.
  - intros done [i m] rest s1 s2 [-> Hj]%imap_pair_split. apply graph_loop_step.
    rewrite Hj, length_app, length_fmap. simpl. lia.
Qed.

Lemma dependency_graph_total idx jobs :
  (∀ i m, jobs !! i = Some m → deps_ok idx i (member_dependencies m)) →
  ∃ g, dependency_graph pf idx jobs = Ok g.
Proof.
  intros Hdeps. destruct (result_foldM_total (graph_loop (length jobs) idx) (add_member pf idx)
    {| incoming := replicate (length jobs) 0%nat; successors := replicate (length jobs) [] |}
    (imap pair jobs)) as (g & Hg & _); [| |by exists g].
  - split; [|by intros []]. eapply graph_inv_ext; [|apply graph_inv_empty]. done.
  - intros done [i m] rest s1 [-> Hj]%imap_pair_split Hs1.
    assert (length done < length jobs)%nat as Hlt
      by (rewrite Hj, length_app, length_fmap; simpl; lia).
    assert (deps_ok idx (length done) (member_dependencies m)) as Hok.
    { apply Hdeps. rewrite Hj. rewrite list_lookup_middle; [done|by rewrite length_fmap]. }
    destruct (add_member_spec (length jobs) idx (length done) m (member_preds idx done.*2) s1 Hlt)
      as [_ Htot]; [|apply Hs1|].
    { unfold member_preds. rewrite lookup_ge_None_2; [done|by rewrite length_fmap]. }
    specialize (Htot Hok).
    destruct (add_member pf idx s1 (length done, m)) as [s2|] eqn:E; [|done].
    exists s2. split; [done|]. by eapply graph_loop_step.
Qed.

(** ** Cycles among positions and cycles among names *)
Lemma member_preds_edge idx jobs p s :
  indexes jobs idx → (∀ q t, depends jobs q t → q ∈ member_name <$> jobs) →
  depends jobs p s →
  edge (length jobs) (member_preds idx jobs) (default 0%nat (idx !! p)) (default 0%nat (idx !! s)).
Proof.
  intros Hidx Hknown Hd. pose proof (Hknown _ _ Hd) as Hp.
  destruct Hd as (m & Hm & <- & Hdep).
  apply list_elem_of_lookup in Hm as [i Hi].
  assert (idx !! member_name m = Some i) as -> by (apply Hidx; by rewrite list_lookup_fmap, Hi).
  apply (indexes_elem _ _ _ Hidx) in Hp as [j Hj]. rewrite Hj. simpl.
  split; [by eapply lookup_lt_Some|]. unfold member_preds, dep_indices. rewrite Hi.
  apply list_elem_of_fmap in Hdep as (d & -> & Hd). apply list_elem_of_omap. eauto.
Qed.

Lemma edge_depends idx jobs p s :
  indexes jobs idx → edge (length jobs) (member_preds idx jobs) p s →
  depends jobs (default "" ((member_name <$> jobs) !! p)) (default "" ((member_name <$> jobs) !! s)).
Proof.
  intros Hidx [_ Hp]. unfold member_preds in Hp.
  destruct (jobs !! s) as [m|] eqn:Hs; [|by apply not_elem_of_nil in Hp].
  apply list_elem_of_omap in Hp as (d & Hd & Hdp). apply Hidx in Hdp. rewrite Hdp.
  rewrite list_lookup_fmap, Hs. simpl. exists m. split_and!; [by eapply list_elem_of_lookup_2|done|].
  by apply list_elem_of_fmap_2.
Qed.

Lemma acyclic_iff idx jobs :
  indexes jobs idx → (∀ q t, depends jobs q t → q ∈ member_name <$> jobs) →
  (∀ v, ¬ tc (edge (length jobs) (member_preds idx jobs)) v v) ↔ ∀ x, ¬ tc (depends jobs) x x.
Proof.
  intros Hidx Hknown. split; intros Hno x Hc.
  - eapply Hno, (tc_congruence (λ name, default 0%nat (idx !! name))); [|done].
    intros. by apply member_preds_edge.
  - eapply Hno, (tc_congruence (λ i, default "" ((member_name <$> jobs) !! i))); [|done].
    intros. by eapply edge_depends.
Qed.

Lemma dep_indices_NoDup idx jobs deps :
  indexes jobs idx → Forall (λ d, is_Some (idx !! dep_job d)) deps →
  NoDup (dep_indices idx deps) ↔ NoDup (dep_job <$> deps).
Proof.
  intros Hidx. induction 1 as [|d deps [p Hp] _ IH]; [split; constructor|].
  unfold dep_indices in *; simpl. rewrite Hp, !NoDup_cons, IH.
  assert (p ∈ omap (λ d, idx !! dep_job d) deps ↔ dep_job d ∈ dep_job <$> deps) as ->; [|done].
  rewrite list_elem_of_omap, list_elem_of_fmap. split.
  - intros (d' & Hd' & Hp'). exists d'. split; [|done].
    apply Hidx in Hp, Hp'. congruence.
  - intros (d' & Heq & Hd'). exists d'. by rewrite <-Heq.
Qed.

(** The per-member conditions, by name. *)
Lemma deps_ok_iff idx jobs :
  indexes jobs idx → (∀ x, ¬ tc (edge (length jobs) (member_preds idx jobs)) x x) →
  (∀ i m, jobs !! i = Some m → deps_ok idx i (member_dependencies m)) ↔
  (∀ p s, depends jobs p s → p ∈ member_name <$> jobs) ∧
  (∀ m, m ∈ jobs → NoDup (dep_job <$> member_dependencies m)).
Proof.
  intros Hidx Hacyc. split.
  - intros Hok. split.
    + intros p s (m & [i Hi]%list_elem_of_lookup & _ & (d & -> & Hd)%list_elem_of_fmap).
      destruct (Hok i m Hi) as (Hknown & _ & _). rewrite Forall_forall in Hknown.
      by apply (indexes_elem _ _ _ Hidx), Hknown.
    + intros m [i Hi]%list_elem_of_lookup. destruct (Hok i m Hi) as (Hknown & Hnd & _).
      by eapply dep_indices_NoDup.
  - intros [Hknown Hnd] i m Hi.
    assert (Forall (λ d, is_Some (idx !! dep_job d)) (member_dependencies m)) as Hall.
    { apply Forall_forall. intros d Hd. apply (indexes_elem _ _ _ Hidx).
      apply (Hknown _ (member_name m)). exists m. split_and!; [by eapply list_elem_of_lookup_2|done|].
      by apply list_elem_of_fmap_2. }
    split_and!; [done| |].
    + eapply dep_indices_NoDup; [done..|]. apply Hnd. by eapply list_elem_of_lookup_2.
    + intros Hself. apply (Hacyc i), tc_once. split; [by eapply lookup_lt_Some|].
      unfold member_preds. by rewrite Hi.
Qed.

(** The third pass on the graph of the second. *)
Lemma visited_count_graph idx jobs g :
  indexes jobs idx → (∀ i m, jobs !! i = Some m → deps_ok idx i (member_dependencies m)) →
  graph_inv (length jobs) (member_preds idx jobs) g →
  ∃ k, visited_count g = Some k ∧
    (k = length jobs ↔ ∀ v, ¬ tc (edge (length jobs) (member_preds idx jobs)) v v).
Proof.
  intros Hidx Hok [Hli Hls Hcount Hedges]. destruct g as [inc succs]; simpl in *.
  apply visited_count_spec; try done.
  - intros s p Hs Hp. unfold member_preds in Hp. destruct (jobs !! s) as [m|]; [|by apply not_elem_of_nil in Hp].
    apply list_elem_of_omap in Hp as (d & _ & Hd). apply Hidx in Hd.
    apply lookup_lt_Some in Hd. by rewrite length_fmap in Hd.
  - intros s Hs. unfold member_preds. destruct (jobs !! s) as [m|] eqn:Hm; [|constructor].
    by destruct (Hok s m Hm) as (_ & ? & _).
Qed.

Lemma indexed_wf b : batch_wf b →
  Forall member_ok (batch_jobs b) ∧ NoDup (member_name <$> batch_jobs b).
Proof.
  intros [_ _ Hnames Huniq Hspecs _ _ _]. split; [|done]. apply Forall_forall.
  intros m Hm. split; [by apply Hnames|by apply Hspecs].
Qed.

(** With the first two passes done, acceptance is well-formedness. *)
Lemma batch_graph_iff b idx g :
  batch_spec_version b = SPEC_VERSION → (1 ≤ length (batch_jobs b) ≤ 1024)%nat →
  member_indices pf (batch_jobs b) = Ok idx → dependency_graph pf idx (batch_jobs b) = Ok g →
  ∃ k, visited_count g = Some k ∧ (k = length (batch_jobs b) ↔ batch_wf b).
Proof.
  intros Hv Hlen (Hidx & Hnd & Hok)%member_indices_Ok [Hg Hdeps]%dependency_graph_Ok.
  destruct (visited_count_graph _ _ _ Hidx Hdeps Hg) as (k & Hk & Hiff).
  exists k. split; [done|]. rewrite Hiff. rewrite Forall_forall in Hok. split.
  - intros Hacyc. apply (deps_ok_iff _ _ Hidx) in Hdeps as [Hknown Hdu]; [|done].
    split; try done; [intros m Hm; by apply Hok..|]. by eapply acyclic_iff.
  - intros []. by eapply acyclic_iff.
Qed.

(** C40: Batch validation always terminates without a panic (no counter
    underflows and no index is out of range), and it accepts exactly the
    well-formed batches: 1 to 1024 members with valid, distinct names and
    valid documents, whose dependencies name members, are distinct, and
    contain no cycle. *)
Theorem batch_validate_spec b :
  ∃ r, BatchSpec_validate pf b = Some r ∧ (r = Ok tt ↔ batch_wf b).
Proof.
  unfold BatchSpec_validate.
  destruct (decide (batch_spec_version b = SPEC_VERSION)) as [Hv|Hv]; cycle 1.
  { rewrite (bool_decide_eq_true_2 (batch_spec_version b ≠ _)) by done. eexists. split; [reflexivity|]. split; [done|by intros []]. }
  rewrite (bool_decide_eq_false_2 (batch_spec_version b ≠ _)) by tauto. simpl.
  destruct (decide (1 ≤ length (batch_jobs b) ≤ 1024)%nat) as [Hlen|Hlen]; cycle 1.
  { assert (bool_decide (batch_jobs b = []) || bool_decide (1024 < length (batch_jobs b))%nat = true)
      as ->.
    { destruct (batch_jobs b); [done|]. simpl in *. apply bool_decide_eq_true. lia. }
    eexists. split; [done|]. split; [done|by intros []]. }
  rewrite (bool_decide_eq_false_2 (batch_jobs b = [])), (bool_decide_eq_false_2 (1024 < _)%nat)
    by (try (intros E; rewrite E in Hlen; simpl in Hlen); lia). simpl.
  destruct (member_indices pf (batch_jobs b)) as [idx|e] eqn:Hi; simpl; cycle 1.
  { eexists. split; [done|]. split; [done|]. intros [Hok Hnd]%indexed_wf.
    destruct (member_indices_total _ Hnd Hok) as (idx & Hidx & _). congruence. }
  destruct (dependency_graph pf idx (batch_jobs b)) as [g|e] eqn:Hg; cycle 1.
  { eexists. split; [done|]. split; [done|]. intros [_ _ _ _ _ Hknown Hdu Hacyc].
    apply member_indices_Ok in Hi as (Hidx & _ & _).
    destruct (dependency_graph_total idx (batch_jobs b)) as [g Hg']; [|congruence].
    apply deps_ok_iff; [done|by eapply acyclic_iff|done]. }
  destruct (batch_graph_iff b idx g) as (k & -> & Hk); [done..|]. simpl.
  eexists. split; [done|]. rewrite <-Hk. case_bool_decide; simpl; [|tauto].
  split; [done|tauto].
Qed.
End batch_wf.
