(* ===== verification/Kernel.v ===== *)
(** * Kernel: pure admission decisions ([src/src/admission.rs])

    Blockers, the scalar vector kernel that local admission and hierarchical
    grants share ([scalar_vector_blockers] of [src/src/admission/scoped.rs]),
    the priority and ordering functions, and the reservation decision.  The
    kernel is generic in the resource key, as in the source. *)
From S2P Require Import Prelude Spec.

(** ** Blockers ([Blocker] of [src/src/api.rs]) *)
Record Blocker := { blocker_code : string; blocker_detail : string }.
#[global] Instance Blocker_eq_dec : EqDecision Blocker.
Proof. solve_decision. Defined.

Definition blocker_pair (b : Blocker) : string * string := (blocker_code b, blocker_detail b).
#[global] Instance blocker_pair_inj : Inj (=) (=) blocker_pair.
Proof. intros [a b] [c d]. by intros [= -> ->]. Qed.
#[global] Instance Blocker_btree : BTreeKey Blocker := btree_inj blocker_pair.

(** [blockers.sort_by(code, then detail); blockers.dedup()]. *)
Definition sort_blockers (blockers : list Blocker) : list Blocker :=
  dedup (sort_by btree_le blockers).

(** [values.try_fold(0, u64::checked_add)]. *)
Definition checked_total (values : list N) : option N :=
  foldl (λ acc value, acc ≫= λ total, checked_add total value) (Some 0) values.

Definition scalar_blocker (name : string) (requested capacity : N) (granted : option N)
    : list Blocker :=
  if decide (requested = 0) then []
  else match granted with
  | None =>
      [{| blocker_code := "resource_busy";
          blocker_detail := name +:+ ": granted debit sum overflow" |}]
  | Some granted =>
      let available := saturating_sub capacity granted in
      if decide (available < requested) then
        [{| blocker_code := if decide (capacity < requested) then "resource_capacity"
                            else "resource_busy";
            blocker_detail := name +:+ ": requested " +:+ pretty requested +:+ ", available "
              +:+ pretty available +:+ ", configured " +:+ pretty capacity |}]
      else []
  end.

Definition ancestor_scalar_blocker (name : string) (requested capacity : N)
    (retained_by_ancestors : option N) : list Blocker :=
  if decide (requested = 0) then []
  else if decide (capacity < requested) then
    [{| blocker_code := "resource_capacity";
        blocker_detail := name +:+ ": requested " +:+ pretty requested
          +:+ ", configured capacity " +:+ pretty capacity |}]
  else match retained_by_ancestors with
  | None =>
      [{| blocker_code := "blocked_by_ancestor";
          blocker_detail := name +:+ ": retained ancestor debit sum overflow" |}]
  | Some retained =>
      if decide (retained = 0) then []
      else
        let available_after_ancestors := saturating_sub capacity retained in
        if decide (available_after_ancestors < requested) then
          [{| blocker_code := "blocked_by_ancestor";
              blocker_detail := name +:+ ": requested " +:+ pretty requested
                +:+ ", available while ancestors retain Leases "
                +:+ pretty available_after_ancestors +:+ ", configured " +:+ pretty capacity |}]
        else []
  end.

Definition fence_blocker (fence : string) : Blocker :=
  {| blocker_code := "path_fence_busy"; blocker_detail := fence |}.

Definition ancestor_fence_blocker (fence : string) : Blocker :=
  {| blocker_code := "blocked_by_ancestor";
     blocker_detail := "path fence retained by an ancestor: " +:+ fence |}.

Definition impact_blocker (impact held : string) : Blocker :=
  {| blocker_code := "impact_busy";
     blocker_detail := impact +:+ " incompatible with active " +:+ held |}.

Definition impacts_conflict (left right : string) (rules : gmap string (list string)) : bool :=
  match rules !! left with Some values => bool_decide (right ∈ values) | None => false end
  || match rules !! right with Some values => bool_decide (left ∈ values) | None => false end.

Definition observed_resource_blocker (name : string)
    (requested observed_headroom safety_margin granted_excluding_self : N) : option Blocker :=
  if decide (requested = 0) then None
  else
    match checked_sub observed_headroom safety_margin ≫= λ headroom,
          checked_sub headroom granted_excluding_self with
    | Some available =>
        if decide (requested ≤ available) then None
        else Some {| blocker_code := "observed_resource_busy";
                     blocker_detail := name +:+ ": requested " +:+ pretty requested
                       +:+ ", observed " +:+ pretty observed_headroom
                       +:+ ", margin " +:+ pretty safety_margin
                       +:+ ", granted " +:+ pretty granted_excluding_self
                       +:+ ", available " +:+ pretty available |}
    | None =>
        Some {| blocker_code := "observation_unusable";
                blocker_detail := name +:+ ": checked headroom arithmetic failed for observed "
                  +:+ pretty observed_headroom +:+ ", margin " +:+ pretty safety_margin
                  +:+ ", granted " +:+ pretty granted_excluding_self |}
    end.

(** ** The scalar vector kernel *)
Section vector.
Context `{Countable K, BTreeKey K}.

(** [debits.iter().map(|claim| claim.get(key).copied().unwrap_or(0))]. *)
Definition debits_of (key : K) (debits : list (gmap K N)) : list N :=
  map (λ claim, default 0 (claim !! key)) debits.

Definition scalar_vector_blockers (claims capacities : gmap K N) (debits : list (gmap K N))
    (display : K → string) (ancestors_only : bool) : list Blocker :=
  sort_blockers (concat (map (λ '(key, requested),
    let used := checked_total (debits_of key debits) in
    let capacity := default 0 (capacities !! key) in
    if ancestors_only
    then ancestor_scalar_blocker (display key) requested capacity used
    else scalar_blocker (display key) requested capacity used) (btree_entries claims))).

Record ReservationInput := {
  ri_claims : gmap K N;
  ri_capacities : gmap K N;
  ri_active : list (gmap K N);
  ri_reserved : list (gmap K N);
  ri_own_deadline : option Z;
  ri_higher_overlaps : bool;
  ri_not_before : option Z;
  ri_now : Z;
}.

(** The closure [fits]. *)
Definition fits (claims capacities : gmap K N) (debits : list (gmap K N)) : bool :=
  forallb (λ '(key, amount),
    bool_decide (amount = 0)
    || match checked_total (debits_of key debits) with
       | Some used => bool_decide (amount ≤ saturating_sub (default 0 (capacities !! key)) used)
       | None => false
       end) (btree_entries claims).

(** [overflow]: the active debits of a claimed key do not sum in 64 bits. *)
Definition active_overflow (claims : gmap K N) (active : list (gmap K N)) : bool :=
  existsb (λ '(key, amount),
    bool_decide (0 < amount) && bool_decide (checked_total (debits_of key active) = None))
    (btree_entries claims).
End vector.
Arguments ReservationInput : clear implicits.
Arguments ReservationInput K {_ _}.

Inductive ReservationDecision := Grant | Hold | Create | Expire | Drop.
#[global] Instance ReservationDecision_eq_dec : EqDecision ReservationDecision.
Proof. solve_decision. Defined.

Definition reservation_decision `{Countable K, BTreeKey K} (input : ReservationInput K)
    : ReservationDecision :=
  let fits := fits (ri_claims input) (ri_capacities input) in
  if negb (fits []) then Drop
  else match ri_own_deadline input with
  | Some deadline =>
      if decide (deadline ≤ ri_now input)%Z then Expire
      else if negb (ri_higher_overlaps input) && fits (ri_active input) then Grant else Hold
  | None =>
      if match ri_not_before input with
         | Some not_before => bool_decide (not_before > ri_now input)%Z | None => false end
      then Hold
      else if fits (ri_active input ++ ri_reserved input) then Grant
      else if negb (existsb (λ amount, bool_decide (0 < amount)) (btree_values (ri_claims input)))
              || active_overflow (ri_claims input) (ri_active input)
              || negb (fits (ri_reserved input))
      then Hold else Create
  end.

(** ** Priorities and the schedule order *)
Record ScheduleKey := {
  sk_effective_priority : Z;
  sk_accepted_ms : Z;
  sk_rowid : Z;
}.
#[global] Instance ScheduleKey_eq_dec : EqDecision ScheduleKey.
Proof. solve_decision. Defined.

Definition effective_priority_at (priority accepted_ms now : Z) : Z :=
  let waited_ms := u64_of_i64_or_0 (i64_saturating_sub now accepted_ms) in
  let quanta := waited_ms / PRIORITY_AGING_QUANTUM_MILLIS in
  Z.min (i64_saturating_add priority (default i64_max (i64_of_u64 quanta))) MAX_EFFECTIVE_PRIORITY.

(** [Ordering::then]. *)
Definition cmp_then (c d : comparison) : comparison :=
  match c with Eq => d | _ => c end.

Definition schedule_order (left right : ScheduleKey) : comparison :=
  cmp_then (Z.compare (sk_effective_priority right) (sk_effective_priority left))
    (cmp_then (Z.compare (sk_accepted_ms left) (sk_accepted_ms right))
       (Z.compare (sk_rowid left) (sk_rowid right))).

Definition outranks (left right : ScheduleKey) : bool :=
  match schedule_order left right with Lt => true | _ => false end.

(** Sort relation for [sort_by(schedule_order)]. *)
Definition schedule_le (left right : ScheduleKey) : Prop := schedule_order left right ≠ Gt.
#[global] Instance schedule_le_dec : RelDecision schedule_le.
Proof. intros a b. unfold schedule_le. apply _. Defined.

(** * Properties *)

(** ** Blocker lists *)
Lemma elem_of_sort_blockers b bs : b ∈ sort_blockers bs ↔ b ∈ bs.
Proof. unfold sort_blockers. by rewrite elem_of_dedup, elem_of_sort_by. Qed.

Lemma sort_blockers_nil bs : sort_blockers bs = [] ↔ bs = [].
Proof.
  unfold sort_blockers. rewrite dedup_nil. split; [|by intros ->].
  intros Hs. apply Permutation_nil_r. by rewrite <-Hs, sort_by_Permutation.
Qed.

Lemma sort_blockers_ext bs bs' : (∀ b, b ∈ bs ↔ b ∈ bs') → sort_blockers bs = sort_blockers bs'.
Proof. intros Hbs. by apply (sort_dedup_ext btree_le). Qed.

(** [sort_blockers] only depends on the set of blockers. *)
Lemma sort_blockers_strict bs :
  StronglySorted btree_le (sort_blockers bs) ∧ NoDup (sort_blockers bs).
Proof. apply dedup_sorted_NoDup; [apply _|]. apply (sort_by_sorted btree_le). Qed.

Lemma concat_map_nil {A B} (f : A → list B) l : concat (map f l) = [] ↔ ∀ x, x ∈ l → f x = [].
Proof.
  induction l as [|x l IH]; simpl.
  - split; [|done]. intros _ x Hx. by apply not_elem_of_nil in Hx.
  - rewrite app_nil, IH. split.
    + intros [Hx Hl] y [->|Hy]%elem_of_cons; auto.
    + intros Hl. split; [apply Hl; by left|]. intros y Hy. apply Hl. by right.
Qed.

Lemma elem_of_concat_map {A B} (f : A → list B) l b :
  b ∈ concat (map f l) ↔ ∃ x, x ∈ l ∧ b ∈ f x.
Proof.
  rewrite <-flat_map_concat_map, list_elem_of_In, in_flat_map.
  setoid_rewrite list_elem_of_In. done.
Qed.

Lemma impacts_conflict_sym left right rules :
  impacts_conflict left right rules = impacts_conflict right left rules.
Proof. unfold impacts_conflict. apply orb_comm. Qed.

(** ** Checked totals *)
Lemma checked_total_from a l : a ≤ u64_max →
  foldl (λ acc value, acc ≫= λ total, checked_add total value) (Some a) l =
  if decide (a + sum_N l ≤ u64_max) then Some (a + sum_N l) else None.
Proof.
  revert a. induction l as [|x l IH]; intros a Ha; simpl.
  { rewrite N.add_0_r. by rewrite decide_True. }
  unfold checked_add at 2. case_decide as Hx; simpl.
  - rewrite IH by done. rewrite N.add_assoc. done.
  - rewrite decide_False by lia. clear. by induction l.
Qed.

Lemma checked_total_spec l :
  checked_total l = if decide (sum_N l ≤ u64_max) then Some (sum_N l) else None.
Proof. unfold checked_total. by rewrite checked_total_from. Qed.

Lemma checked_total_Some l t : checked_total l = Some t ↔ t = sum_N l ∧ sum_N l ≤ u64_max.
Proof. rewrite checked_total_spec. case_decide; naive_solver. Qed.

Lemma checked_total_None l : checked_total l = None ↔ u64_max < sum_N l.
Proof. rewrite checked_total_spec. case_decide; split; intros; simplify_eq; auto; lia. Qed.

Section vector_lemmas.
Context `{Countable K, BTreeKey K}.
Implicit Types (claims capacities : gmap K N) (debits : list (gmap K N)).

(** The total debit of a key. *)
Definition total_debit (key : K) debits : N := sum_N (debits_of key debits).

(** What it means for a claim vector to fit beside [debits]: for every key
    claimed in a positive amount the debits sum in 64 bits and leave room. *)
Definition vector_fits claims capacities debits : Prop :=
  ∀ key amount, claims !! key = Some amount → 0 < amount →
    total_debit key debits ≤ u64_max ∧
    total_debit key debits + amount ≤ default 0 (capacities !! key).

(** No key is debited beyond its capacity. *)
Definition within_capacity capacities debits : Prop :=
  ∀ key, total_debit key debits ≤ default 0 (capacities !! key).

Lemma total_debit_cons key claims debits :
  total_debit key (claims :: debits) = default 0 (claims !! key) + total_debit key debits.
Proof. done. Qed.

Lemma total_debit_app key debits debits' :
  total_debit key (debits ++ debits') = total_debit key debits + total_debit key debits'.
Proof. unfold total_debit, debits_of. by rewrite map_app, sum_N_app. Qed.

(** One key of the scalar kernel. *)
Lemma scalar_blocker_nil name requested capacity l :
  scalar_blocker name requested capacity (checked_total l) = [] ↔
  (0 < requested → sum_N l ≤ u64_max ∧ sum_N l + requested ≤ capacity).
Proof.
  unfold scalar_blocker, saturating_sub. rewrite checked_total_spec.
  repeat case_decide; split; intros; simplify_eq; try done; lia.
Qed.

Lemma ancestor_scalar_blocker_nil name requested capacity l :
  ancestor_scalar_blocker name requested capacity (checked_total l) = [] ↔
  (0 < requested → sum_N l ≤ u64_max ∧ sum_N l + requested ≤ capacity).
Proof.
  unfold ancestor_scalar_blocker, saturating_sub. rewrite checked_total_spec.
  repeat case_decide; split; intros; simplify_eq; try done; lia.
Qed.

Lemma scalar_vector_blockers_nil claims capacities debits display b :
  scalar_vector_blockers claims capacities debits display b = [] ↔
  vector_fits claims capacities debits.
Proof.
  unfold scalar_vector_blockers. rewrite sort_blockers_nil, concat_map_nil.
  split.
  - intros Hall key amount Hk. specialize (Hall (key, amount)). simpl in Hall.
    rewrite elem_of_btree_entries in Hall. specialize (Hall Hk).
    destruct b; [rewrite ancestor_scalar_blocker_nil in Hall|rewrite scalar_blocker_nil in Hall];
      exact Hall.
  - intros Hfit [key amount] Hk%elem_of_btree_entries.
    specialize (Hfit key amount Hk). simpl.
    destruct b; [rewrite ancestor_scalar_blocker_nil|rewrite scalar_blocker_nil]; exact Hfit.
Qed.

Lemma fits_spec claims capacities debits :
  fits claims capacities debits = true ↔ vector_fits claims capacities debits.
Proof.
  unfold fits. rewrite forallb_forall. split.
  - intros Hall key amount Hk Ha. specialize (Hall (key, amount)).
    rewrite <-list_elem_of_In, elem_of_btree_entries in Hall. specialize (Hall Hk).
    rewrite checked_total_spec in Hall. unfold saturating_sub in Hall.
    rewrite bool_decide_false in Hall by lia. unfold total_debit.
    case_decide; simpl in Hall; [|done]. apply bool_decide_eq_true in Hall. lia.
  - intros Hfit [key amount] Hin%list_elem_of_In%elem_of_btree_entries.
    apply orb_true_iff. destruct (decide (amount = 0)) as [->|Ha]; [by left|right].
    destruct (Hfit key amount Hin) as [? ?]; [lia|].
    rewrite checked_total_spec. unfold total_debit in *. rewrite decide_True by done.
    apply bool_decide_eq_true. unfold saturating_sub. lia.
Qed.

Lemma within_capacity_admit claims capacities debits :
  within_capacity capacities debits → vector_fits claims capacities debits →
  within_capacity capacities (claims :: debits).
Proof.
  intros Hw Hfit key. rewrite total_debit_cons.
  destruct (claims !! key) as [amount|] eqn:Hk; simpl; [|by rewrite N.add_0_l].
  destruct (decide (amount = 0)) as [->|Ha]; [by rewrite N.add_0_l|].
  destruct (Hfit key amount Hk) as [_ ?]; lia.
Qed.

Lemma vector_fits_app_l claims capacities debits debits' :
  vector_fits claims capacities (debits ++ debits') → vector_fits claims capacities debits.
Proof.
  intros Hfit key amount Hk Ha. destruct (Hfit key amount Hk Ha) as [H1 H2].
  rewrite total_debit_app in H1, H2. lia.
Qed.

Lemma reservation_decision_Grant (input : ReservationInput K) :
  reservation_decision input = Grant → vector_fits (ri_claims input) (ri_capacities input) (ri_active input).
Proof.
  unfold reservation_decision. intros Hd. apply fits_spec.
  destruct (fits _ _ []); simpl in Hd; [|done].
  destruct (ri_own_deadline input).
  - case_decide; [done|]. destruct (ri_higher_overlaps input); simpl in Hd; [done|].
    by destruct (fits _ _ (ri_active input)).
  - match type of Hd with (if ?c then _ else _) = _ => destruct c end; [done|].
    destruct (fits _ _ (_ ++ _)) eqn:Hf; [|by repeat case_match].
    apply fits_spec in Hf. apply fits_spec. by eapply vector_fits_app_l.
Qed.
End vector_lemmas.

(** ** The schedule order *)
Lemma cmp_then_opp c d : CompOpp (cmp_then c d) = cmp_then (CompOpp c) (CompOpp d).
Proof. by destruct c. Qed.

Lemma schedule_order_antisym a b : schedule_order b a = CompOpp (schedule_order a b).
Proof.
  unfold schedule_order. rewrite !cmp_then_opp, <-!Z.compare_antisym. done.
Qed.

Lemma schedule_order_Lt a b :
  schedule_order a b = Lt ↔
  (sk_effective_priority b < sk_effective_priority a ∨
   sk_effective_priority a = sk_effective_priority b ∧
   (sk_accepted_ms a < sk_accepted_ms b ∨
    sk_accepted_ms a = sk_accepted_ms b ∧ sk_rowid a < sk_rowid b))%Z.
Proof.
  unfold schedule_order, cmp_then.
  destruct (Z.compare_spec (sk_effective_priority b) (sk_effective_priority a));
  destruct (Z.compare_spec (sk_accepted_ms a) (sk_accepted_ms b));
  destruct (Z.compare_spec (sk_rowid a) (sk_rowid b)); split; intros; try done; try lia.
Qed.

Lemma schedule_order_Eq a b : schedule_order a b = Eq ↔ a = b.
Proof.
  destruct a as [p1 t1 r1], b as [p2 t2 r2]. unfold schedule_order, cmp_then; simpl.
  destruct (Z.compare_spec p2 p1); destruct (Z.compare_spec t1 t2);
  destruct (Z.compare_spec r1 r2); split; intros; simplify_eq; try done; try lia.
Qed.

Lemma outranks_spec a b : outranks a b = true ↔ schedule_order a b = Lt.
Proof. unfold outranks. by destruct (schedule_order a b). Qed.

#[global] Instance schedule_le_total : Total schedule_le.
Proof.
  intros a b. unfold schedule_le. rewrite (schedule_order_antisym a b).
  destruct (schedule_order a b); simpl; auto.
Qed.

#[global] Instance schedule_le_trans : Transitive schedule_le.
Proof.
  intros a b c. unfold schedule_le. intros H1 H2 H3.
  assert (schedule_order c a = Lt) as H4 by (by rewrite schedule_order_antisym, H3).
  assert (schedule_order b a ≠ Lt) as H5
    by (rewrite schedule_order_antisym; by destruct (schedule_order a b)).
  assert (schedule_order c b ≠ Lt) as H6
    by (rewrite schedule_order_antisym; by destruct (schedule_order b c)).
  rewrite schedule_order_Lt in H4, H5, H6. lia.
Qed.

#[export] Hint Rewrite @fits_spec @scalar_vector_blockers_nil sort_blockers_nil : stillyard.

(** The reading of every [ReservationDecision], branch by branch. *)
Definition decision_spec `{Countable K, BTreeKey K} (input : ReservationInput K)
    (d : ReservationDecision) : Prop :=
  let fits := vector_fits (ri_claims input) (ri_capacities input) in
  match d with
  | Grant =>
      fits (ri_active input) ∧
      match ri_own_deadline input with
      | Some deadline => (ri_now input < deadline)%Z ∧ ri_higher_overlaps input = false
      | None => fits (ri_active input ++ ri_reserved input)
      end
  | Create =>
      ri_own_deadline input = None ∧ fits (ri_reserved input) ∧
      ¬ fits (ri_active input ++ ri_reserved input) ∧
      (∃ key amount, ri_claims input !! key = Some amount ∧ 0 < amount) ∧
      (∀ t, ri_not_before input = Some t → (t ≤ ri_now input)%Z)
  | Expire => ∃ deadline, ri_own_deadline input = Some deadline ∧ (deadline ≤ ri_now input)%Z
  | Drop => ¬ fits []
  | Hold => fits []
  end.

Lemma btree_values_positive `{Countable K, BTreeKey K} (m : gmap K N) :
  existsb (λ amount, bool_decide (0 < amount)) (btree_values m) = true →
  ∃ key amount, m !! key = Some amount ∧ 0 < amount.
Proof.
  intros (amount & Hin%list_elem_of_In & Hpos%bool_decide_eq_true)%existsb_exists.
  apply list_elem_of_fmap in Hin as ([key a] & -> & Hin%elem_of_btree_entries). by eauto.
Qed.

Lemma reservation_decision_reading `{Countable K, BTreeKey K} (input : ReservationInput K) :
  decision_spec input (reservation_decision input).
Proof.
  unfold decision_spec, reservation_decision.
  destruct (fits _ _ []) eqn:Hmax; simpl; [|by rewrite <-fits_spec, Hmax].
  apply fits_spec in Hmax.
  destruct (ri_own_deadline input) as [deadline|].
  { case_decide; [eauto|]. destruct (ri_higher_overlaps input); simpl; [done|].
    destruct (fits _ _ (ri_active input)) eqn:Ha; [|done].
    apply fits_spec in Ha. split_and!; [done|lia|done]. }
  match goal with |- context [if ?c then Hold else _] => destruct c eqn:Hn end; [done|].
  destruct (fits _ _ (_ ++ _)) eqn:Har.
  { apply fits_spec in Har. split; [by eapply vector_fits_app_l|done]. }
  destruct (existsb _ _) eqn:Hpos; simpl; [|done].
  destruct (active_overflow _ _); simpl; [done|].
  destruct (fits _ _ (ri_reserved input)) eqn:Hr; simpl; [|done].
  apply fits_spec in Hr. split_and!; try done.
  - by rewrite <-fits_spec, Har.
  - by apply btree_values_positive.
  - intros t Ht. rewrite Ht in Hn. apply bool_decide_eq_false in Hn. lia.
Qed.

(** Every verdict of [reservation_decision] means what the scheduler acts
    on: a Grant always fits beside the active debits (and beside the
    reservations too unless it converts the Job's own live reservation), a
    Create fits beside the reservations alone, Expire and Drop fire exactly on a
    passed deadline and on a claim larger than the machine. *)
Theorem reservation_decision_spec `{Countable K, BTreeKey K} (input : ReservationInput K) :
  decision_spec input (reservation_decision input).
Proof. apply reservation_decision_reading. Qed.

(** Granting never oversubscribes: if no key of the active debits exceeds
    its capacity and [reservation_decision] says Grant, the same holds with the
    granted vector added. *)
Lemma grant_preserves_capacity `{Countable K, BTreeKey K} (input : ReservationInput K)
    (Hd : reservation_decision input = Grant)
    (Hw : within_capacity (ri_capacities input) (ri_active input)) :
  within_capacity (ri_capacities input) (ri_claims input :: ri_active input).
Proof. apply within_capacity_admit; [done|by apply reservation_decision_Grant]. Qed.

(** The two readers of the scalar kernel agree: admission reports no scalar
    blocker exactly when the reservation closure [fits] accepts the vector, for
    the ordinary and for the ancestor-only report. *)
Lemma scalar_blockers_agree_with_fits `{Countable K, BTreeKey K}
    (claims capacities : gmap K N) (debits : list (gmap K N)) (display : K → string) (b : bool) :
  scalar_vector_blockers claims capacities debits display b = [] ↔
  fits claims capacities debits = true.
Proof. by rewrite scalar_vector_blockers_nil, fits_spec. Qed.

Lemma observed_headroom_iff name requested observed margin granted :
  observed_resource_blocker name requested observed margin granted = None ↔
  requested = 0 ∨ requested + granted + margin ≤ observed.
Proof.
  unfold observed_resource_blocker. case_decide as H0; [naive_solver|].
  unfold checked_sub. repeat (case_decide; simpl);
    split; intros; simplify_eq; try done; try (right; lia);
    destruct_or!; done || lia.
Qed.

(** ** Aging *)
Lemma effective_priority_at_eq p t now :
  (MIN_JOB_PRIORITY ≤ p ≤ MAX_JOB_PRIORITY → 0 ≤ t ≤ now → now ≤ i64_max →
   effective_priority_at p t now = Z.min (p + (now - t) `div` 60000) MAX_EFFECTIVE_PRIORITY)%Z.
Proof.
  unfold effective_priority_at, i64_saturating_sub, i64_saturating_add, i64_clamp,
    u64_of_i64_or_0, MIN_JOB_PRIORITY, MAX_JOB_PRIORITY, MAX_EFFECTIVE_PRIORITY.
  intros Hp Ht Hnow. assert (is_i64 (now - t)) as Hi by (unfold is_i64, i64_min, i64_max in *; lia).
  rewrite (Z.min_l (now - t)), (Z.max_r i64_min (now - t))
    by (unfold is_i64, i64_min, i64_max in *; lia).
  set (q := Z.to_N (now - t) / PRIORITY_AGING_QUANTUM_MILLIS).
  assert (Z.of_N q = (now - t) `div` 60000)%Z as Hq.
  { unfold q. rewrite N2Z.inj_div. rewrite Z2N.id by lia. done. }
  assert (0 ≤ Z.of_N q ≤ i64_max `div` 60000)%Z as Hb.
  { rewrite Hq. split; [apply Z.div_pos; lia|]. apply Z.div_le_mono; lia. }
  change (i64_max `div` 60000)%Z with 153722867280912%Z in Hb.
  unfold i64_of_u64. rewrite decide_True by (unfold i64_max; lia). simpl. rewrite Hq in *.
  unfold i64_min, i64_max. lia.
Qed.

(** The key a Job is scheduled under at [now]. *)
Definition job_key_at (priority accepted_ms rowid now : Z) : ScheduleKey :=
  {| sk_effective_priority := effective_priority_at priority accepted_ms now;
     sk_accepted_ms := accepted_ms; sk_rowid := rowid |}.



(** Effective priority never drops below the declared priority, never
    exceeds the cap, and never decreases while the clock advances. *)
Lemma effective_priority_bounds (p t now now' : Z)
    (Hp : (MIN_JOB_PRIORITY ≤ p ≤ MAX_JOB_PRIORITY)%Z) (Ht : (0 ≤ t ≤ now)%Z)
    (Hnow : (now ≤ now' ≤ i64_max)%Z) :
  (p ≤ effective_priority_at p t now ≤ MAX_EFFECTIVE_PRIORITY ∧
   effective_priority_at p t now ≤ effective_priority_at p t now')%Z.
Proof.
  rewrite !effective_priority_at_eq by lia.
  pose proof (Z.div_pos (now - t) 60000).
  pose proof (Z.div_le_mono (now - t) (now' - t) 60000).
  unfold MIN_JOB_PRIORITY, MAX_JOB_PRIORITY, MAX_EFFECTIVE_PRIORITY in *. lia.
Qed.

(** The schedule order is a total order on keys: exactly one of two distinct
    keys outranks the other, and outranking is transitive. *)
Theorem outranks_strict_total :
  (∀ a, outranks a a = false) ∧
  (∀ a b c, outranks a b = true → outranks b c = true → outranks a c = true) ∧
  (∀ a b, a ≠ b → outranks a b = negb (outranks b a)).
Proof.
  split_and!.
  - intros a. unfold outranks. by rewrite (proj2 (schedule_order_Eq a a)).
  - intros a b c. rewrite !outranks_spec, !schedule_order_Lt. lia.
  - intros a b Hab. unfold outranks. rewrite (schedule_order_antisym a b).
    destruct (schedule_order a b) eqn:E; [by apply schedule_order_Eq in E|done..].
Qed.

(** A two-key machine used by the witnesses: four CPU units, one slot. *)
Definition demo_input (claim : N) : ReservationInput string :=
  {| ri_claims := {["cpu_units" := claim]};
     ri_capacities := {["cpu_units" := 4; "cargo_slots" := 1]};
     ri_active := [{["cpu_units" := 2]}]; ri_reserved := [];
     ri_own_deadline := None; ri_higher_overlaps := false; ri_not_before := None;
     ri_now := 100 |}.

Example demo_decisions :
  map (λ c, reservation_decision (demo_input c)) [2; 3; 5] = [Grant; Create; Drop].
Proof. vm_compute. reflexivity. Qed.

