(* ===== verification/Scoped.v ===== *)
(** * Scoped: resource identities and hierarchy expansion
      ([src/src/admission/scoped.rs])

    A topology is a tree of execution domains under one machine root.  A claim
    submitted in a domain is expanded to one entry per ancestor that budgets the
    resource: ancestors are constraints on one physical debit, never extra
    consumers.  [None] of an [option] result is a Rust panic. *)
From S2P Require Import Prelude Spec Kernel.

(** ** Claims resolved at admission ([ResolvedClaims] of [src/src/admission.rs]) *)
Record ResolvedClaims := {
  cl_cpu_units : N;
  cl_ram_mb : N;
  cl_cargo_slots : N;
  cl_gpu_slots : N;
  cl_custom : gmap string N;
  cl_shared_fences : gset string;
  cl_exclusive_fences : gset string;
  cl_impacts : gset string;
}.
#[global] Instance ResolvedClaims_eq_dec : EqDecision ResolvedClaims.
Proof. solve_decision. Defined.

Definition no_claims : ResolvedClaims :=
  {| cl_cpu_units := 0; cl_ram_mb := 0; cl_cargo_slots := 0; cl_gpu_slots := 0;
     cl_custom := ∅; cl_shared_fences := ∅; cl_exclusive_fences := ∅; cl_impacts := ∅ |}.

(** ** Identities *)
Abbreviation ExecutionDomainId := Uuid.

Inductive ResourceKind := Scalar | FilesystemFence | Impact.
#[global] Instance ResourceKind_eq_dec : EqDecision ResourceKind.
Proof. solve_decision. Defined.

Record ScopedResourceId := {
  scope : ExecutionDomainId;
  kind : ResourceKind;
  resource_id : string;
}.
#[global] Instance ScopedResourceId_eq_dec : EqDecision ScopedResourceId.
Proof. solve_decision. Defined.

(** The derived [Ord]: scope, then kind in declaration order, then name. *)
Definition kind_index (k : ResourceKind) : N :=
  match k with Scalar => 0 | FilesystemFence => 1 | Impact => 2 end.
Definition scoped_tuple (r : ScopedResourceId) : N * (N * string) :=
  (scope r, (kind_index (kind r), resource_id r)).
#[global] Instance scoped_tuple_inj : Inj (=) (=) scoped_tuple.
Proof.
  intros [s [] r] [s' [] r'] Heq; unfold scoped_tuple in Heq; simpl in Heq; congruence.
Qed.
#[global] Instance ScopedResourceId_countable : Countable ScopedResourceId :=
  inj_countable scoped_tuple
    (λ '(s, (k, r)), Some {| scope := s;
       kind := if decide (k = 0) then Scalar else if decide (k = 1) then FilesystemFence else Impact;
       resource_id := r |})
    (λ x, match x with {| scope := _; kind := Scalar |} | {| kind := FilesystemFence |}
                     | {| kind := Impact |} => eq_refl end).
#[global] Instance ScopedResourceId_btree : BTreeKey ScopedResourceId := btree_inj scoped_tuple.

Definition scalar_id (domain : ExecutionDomainId) (name : string) : ScopedResourceId :=
  {| scope := domain; kind := Scalar; resource_id := name |}.
Definition fence_id (domain : ExecutionDomainId) (name : string) : ScopedResourceId :=
  {| scope := domain; kind := FilesystemFence; resource_id := name |}.

Record ScopedResourceSnapshot := {
  snap_resource : ScopedResourceId;
  snap_capacity : N;
  snap_granted : N;
  snap_offered : N;
  snap_reserved : N;
}.

Record DomainBudget := {
  db_id : ExecutionDomainId;
  db_parent : option ExecutionDomainId;
  db_capacities : gmap string N;
}.

Record ResourceTopology := {
  rt_root : ExecutionDomainId;
  rt_domains : gmap ExecutionDomainId DomainBudget;
  rt_aliases : gmap (ExecutionDomainId * string) string;
}.

Record ScopedClaims := {
  sc_scalars : gmap ScopedResourceId N;
  sc_shared_fences : gset ScopedResourceId;
  sc_exclusive_fences : gset ScopedResourceId;
  sc_impacts : gset string;
}.

Definition no_scoped_claims : ScopedClaims :=
  {| sc_scalars := ∅; sc_shared_fences := ∅; sc_exclusive_fences := ∅; sc_impacts := ∅ |}.

Section scoped.
(** [Uuid]'s [Display]. *)
Context (uuid_to_string : Uuid → string).

Definition display (r : ScopedResourceId) : string :=
  if uuid_is_nil (scope r) then resource_id r
  else resource_id r +:+ " in domain " +:+ uuid_to_string (scope r).

(** [self.domains[&self.root].capacities]; a topology built by
    [ResourceTopology_new] has its root. *)
Definition root_capacities (t : ResourceTopology) : gmap string N :=
  match rt_domains t !! rt_root t with Some d => db_capacities d | None => ∅ end.

(** The loop of [ancestors]: [result] holds the chain so far.  The guard on
    its length bounds the iterations, so seventeen units of fuel suffice. *)
Fixpoint ancestors_loop (fuel : nat) (t : ResourceTopology) (id : ExecutionDomainId)
    (chain : list DomainBudget) (seen : gset ExecutionDomainId)
    : result string (list DomainBudget) :=
  match fuel with
  | O => Err "loop bound"
  | S fuel =>
      if bool_decide (16 ≤ length chain)%nat || bool_decide (id ∈ seen) then
        Err "domain tree is cyclic or deeper than 16"
      else
        domain ← ok_or (rt_domains t !! id) "unknown domain";
        match db_parent domain with
        | Some parent => ancestors_loop fuel t parent (chain ++ [domain]) ({[id]} ∪ seen)
        | None =>
            if decide (id = rt_root t) then Ok (chain ++ [domain])
            else Err "domain is disconnected from machine root"
        end
  end.

Definition ancestors (t : ResourceTopology) (id : ExecutionDomainId)
    : result string (list DomainBudget) :=
  ancestors_loop 17 t id [] ∅.

Definition ResourceTopology_new (root : ExecutionDomainId) (domains : list DomainBudget)
    (aliases : gmap (ExecutionDomainId * string) string) : result string ResourceTopology :=
  _ ← guard_err (bool_decide (domains = []) || bool_decide (256 < length domains)%nat)
        "topology requires 1..256 domains";
  let count := length domains in
  let domains : gmap ExecutionDomainId DomainBudget :=
    btree_extend ∅ (map (λ domain, (db_id domain, domain)) domains) in
  _ ← guard_err (bool_decide (size domains ≠ count)
                 || match domains !! root with
                    | None => true | Some domain => bool_decide (is_Some (db_parent domain)) end)
        "duplicate domain or invalid machine root";
  let topology := {| rt_root := root; rt_domains := domains; rt_aliases := aliases |} in
  _ ← result_mapM (ancestors topology) (btree_keys domains);
  _ ← result_mapM (λ '(domain, _, physical),
        guard_err (bool_decide (domains !! domain = None)
                   || bool_decide (root_capacities topology !! physical = None))
          "alias has an unknown domain or physical resource") (btree_entries aliases);
  Ok topology.

Definition scalar_entries (claims : ResolvedClaims) : gmap string N :=
  btree_extend (cl_custom claims)
    [("cpu_units", cl_cpu_units claims); ("ram_mb", cl_ram_mb claims);
     ("cargo_slots", cl_cargo_slots claims); ("gpu_slots", cl_gpu_slots claims)]%string.

(** The loop that sums claims under their physical names. *)
Definition physical_step (t : ResourceTopology) (domain : ExecutionDomainId)
    (physical : gmap string N) (entry : string * N) : result string (gmap string N) :=
  let '(name, value) := entry in
  if decide (value = 0) then Ok physical
  else
    let name := default name (rt_aliases t !! (domain, name)) in
    _ ← guard_err (bool_decide (root_capacities t !! name = None))
          ("unmapped physical resource " +:+ name);
    total ← ok_or (checked_add (default 0 (physical !! name)) value) "physical claim overflow";
    Ok (<[name := total]> physical).

(** One entry per ancestor that budgets the resource. *)
Definition insert_ancestors (chain : list DomainBudget) (scalars : gmap ScopedResourceId N)
    (entry : string * N) : gmap ScopedResourceId N :=
  foldl (λ scalars ancestor,
    if decide (db_capacities ancestor !! entry.1 = None) then scalars
    else <[scalar_id (db_id ancestor) entry.1 := entry.2]> scalars) scalars chain.

Definition expand (t : ResourceTopology) (domain : ExecutionDomainId) (claims : ResolvedClaims)
    : result string ScopedClaims :=
  chain ← ancestors t domain;
  physical ← result_foldM (physical_step t domain) ∅ (btree_entries (scalar_entries claims));
  Ok {| sc_scalars := foldl (insert_ancestors chain) ∅ (btree_entries physical);
        sc_shared_fences := set_map (fence_id domain) (cl_shared_fences claims);
        sc_exclusive_fences := set_map (fence_id domain) (cl_exclusive_fences claims);
        sc_impacts := cl_impacts claims |}.

Definition capacities (t : ResourceTopology) : gmap ScopedResourceId N :=
  btree_extend ∅ (concat (map (λ domain,
    map (λ '(name, value), (scalar_id (db_id domain) name, value))
      (btree_entries (db_capacities domain))) (btree_values (rt_domains t)))).

(** [accounting]: totals per key, or the name of the key that overflows. *)
Definition accounting_total (key : ScopedResourceId) (claims : list ScopedClaims)
    : result string N :=
  ok_or (checked_total (debits_of key (map sc_scalars claims)))
    (display key +:+ ": accounting overflow").

Definition accounting (t : ResourceTopology) (granted offered reserved : list ScopedClaims)
    : result string (list ScopedResourceSnapshot) :=
  let keys : gset ScopedResourceId :=
    dom (capacities t) ∪ ⋃ (map (dom ∘ sc_scalars) (granted ++ offered ++ reserved)) in
  result_mapM (λ key,
    g ← accounting_total key granted;
    o ← accounting_total key offered;
    r ← accounting_total key reserved;
    Ok {| snap_resource := key; snap_capacity := default 0 (capacities t !! key);
          snap_granted := g; snap_offered := o; snap_reserved := r |}) (btree_elements keys).

(** The fence and impact part of the two blocker reports, for one holder. *)
Definition fence_conflicts {F} `{Countable F, BTreeKey F} (se ss ce cs : gset F) : list F :=
  btree_elements (se ∩ ce) ++ btree_elements (se ∩ cs) ++ btree_elements (ss ∩ ce).

Definition impact_conflicts (mine held : gset string) (rules : gmap string (list string))
    : list (string * string) :=
  concat (map (λ impact,
    concat (map (λ active_impact,
      if impacts_conflict impact active_impact rules then [(impact, active_impact)] else [])
      (btree_elements held))) (btree_elements mine)).

Definition ScopedClaims_blockers (self : ScopedClaims) (t : ResourceTopology)
    (active : list ScopedClaims) (rules : gmap string (list string)) : list Blocker :=
  sort_blockers
    (scalar_vector_blockers (sc_scalars self) (capacities t) (map sc_scalars active) display false
     ++ concat (map (λ claim,
          map (λ fence, fence_blocker (display fence))
            (fence_conflicts (sc_exclusive_fences self) (sc_shared_fences self)
               (sc_exclusive_fences claim) (sc_shared_fences claim))
          ++ map (λ p, impact_blocker p.1 p.2)
               (impact_conflicts (sc_impacts self) (sc_impacts claim) rules)) active)).

(** ** Native admission: one root scope *)
Definition custom_capacity (c : ResourceCapacities) (requested_name : string) : N :=
  default 0 (head (omap (λ '(name, capacity),
    match canonical_custom_resource_name name with
    | Ok canonical => if decide (canonical = requested_name) then Some capacity else None
    | Err _ => None
    end) (btree_entries (cap_custom c)))).

Definition legacy_capacities (c : ResourceCapacities) : gmap string N :=
  btree_extend
    (btree_extend ∅ (map (λ name,
       let canonical := default name (result_ok (canonical_custom_resource_name name)) in
       (canonical, custom_capacity c canonical)) (btree_keys (cap_custom c))))
    [("cpu_units", cap_cpu_units c); ("ram_mb", cap_ram_mb c);
     ("cargo_slots", cap_cargo_slots c); ("gpu_slots", cap_gpu_slots c)]%string.

Definition machine_capacities (c : ResourceCapacities) : gmap string N := legacy_capacities c.

(** [capacities.entry(name).or_insert(0)] for every name of every claim. *)
Definition or_insert_zero (caps : gmap string N) (claims : list ResolvedClaims) : gmap string N :=
  foldl (λ caps claim,
    foldl (λ caps name, if decide (caps !! name = None) then <[name := 0]> caps else caps)
      caps (btree_keys (scalar_entries claim))) caps claims.

Record AuthorityDomains := {
  ad_machine_id : Uuid;
  ad_machine_scope : ExecutionDomainId;
  ad_native_domain : ExecutionDomainId;
}.

Definition native_accounting (domains : AuthorityDomains) (c : ResourceCapacities)
    (granted reserved : list ResolvedClaims) : result string (list ScopedResourceSnapshot) :=
  let caps := or_insert_zero (legacy_capacities c) (granted ++ reserved) in
  t ← ResourceTopology_new (ad_machine_scope domains)
        [{| db_id := ad_machine_scope domains; db_parent := None; db_capacities := caps |};
         {| db_id := ad_native_domain domains; db_parent := Some (ad_machine_scope domains);
            db_capacities := ∅ |}] ∅;
  g ← result_mapM (expand t (ad_native_domain domains)) granted;
  r ← result_mapM (expand t (ad_native_domain domains)) reserved;
  accounting t g [] r.

(** [legacy_full_vector_blockers]: [None] is one of its [expect]s failing. *)
Definition legacy_full_vector_blockers (claims : ResolvedClaims) (c : ResourceCapacities)
    (active : list ResolvedClaims) (rules : gmap string (list string)) : option (list Blocker) :=
  let root := uuid_nil in
  let caps := or_insert_zero (legacy_capacities c) (claims :: active) in
  t ← result_ok (ResourceTopology_new root
        [{| db_id := root; db_parent := None; db_capacities := caps |}] ∅);
  expanded ← result_ok (expand t root claims);
  active ← result_ok (result_mapM (expand t root) active);
  Some (ScopedClaims_blockers expanded t active rules).

(** ** The methods of [ResolvedClaims] ([src/src/admission.rs]) *)
Definition blockers := legacy_full_vector_blockers.

Definition scalar_blockers (self : ResolvedClaims) (c : ResourceCapacities)
    (debits : list ResolvedClaims) : list Blocker :=
  scalar_vector_blockers (scalar_entries self) (legacy_capacities c) (map scalar_entries debits)
    id false.

Definition non_scalar_blockers (self : ResolvedClaims) (active : list ResolvedClaims)
    (rules : gmap string (list string)) : list Blocker :=
  sort_blockers (concat (map (λ claim,
    map fence_blocker
      (fence_conflicts (cl_exclusive_fences self) (cl_shared_fences self)
         (cl_exclusive_fences claim) (cl_shared_fences claim))
    ++ map (λ p, impact_blocker p.1 p.2)
         (impact_conflicts (cl_impacts self) (cl_impacts claim) rules)) active)).

Definition scalar_only (self : ResolvedClaims) : ResolvedClaims :=
  {| cl_cpu_units := cl_cpu_units self; cl_ram_mb := cl_ram_mb self;
     cl_cargo_slots := cl_cargo_slots self; cl_gpu_slots := cl_gpu_slots self;
     cl_custom := cl_custom self; cl_shared_fences := ∅; cl_exclusive_fences := ∅;
     cl_impacts := ∅ |}.

Definition overlaps_scalars (self other : ResolvedClaims) : bool :=
  (bool_decide (0 < cl_cpu_units self) && bool_decide (0 < cl_cpu_units other))
  || (bool_decide (0 < cl_ram_mb self) && bool_decide (0 < cl_ram_mb other))
  || (bool_decide (0 < cl_cargo_slots self) && bool_decide (0 < cl_cargo_slots other))
  || (bool_decide (0 < cl_gpu_slots self) && bool_decide (0 < cl_gpu_slots other))
  || existsb (λ '(name, value), bool_decide (0 < value)
       && match cl_custom other !! name with Some v => bool_decide (0 < v) | None => false end)
       (btree_entries (cl_custom self)).

Definition ancestor_impact_blocker (impact ancestor_impact : string) : Blocker :=
  {| blocker_code := "blocked_by_ancestor";
     blocker_detail := "impact " +:+ impact +:+ " incompatible with ancestor " +:+ ancestor_impact |}.

Definition ancestor_blockers (self : ResolvedClaims) (c : ResourceCapacities)
    (ancestors : list ResolvedClaims) (rules : gmap string (list string)) : list Blocker :=
  sort_blockers
    (scalar_vector_blockers (scalar_entries self) (legacy_capacities c)
       (map scalar_entries ancestors) id true
     ++ concat (map (λ claim,
          map ancestor_fence_blocker
            (fence_conflicts (cl_exclusive_fences self) (cl_shared_fences self)
               (cl_exclusive_fences claim) (cl_shared_fences claim))
          ++ map (λ p, ancestor_impact_blocker p.1 p.2)
               (impact_conflicts (cl_impacts self) (cl_impacts claim) rules)) ancestors)).

Definition local_reservation_decision (claims : ResolvedClaims) (c : ResourceCapacities)
    (active reserved : list ResolvedClaims) (own_deadline : option Z) (higher_overlaps : bool)
    (not_before : option Z) (now : Z) : ReservationDecision :=
  reservation_decision
    {| ri_claims := scalar_entries claims; ri_capacities := legacy_capacities c;
       ri_active := map scalar_entries active; ri_reserved := map scalar_entries reserved;
       ri_own_deadline := own_deadline; ri_higher_overlaps := higher_overlaps;
       ri_not_before := not_before; ri_now := now |}.
End scoped.
