(* ===== verification/ScopedFacts.v ===== *)
(** * ScopedFacts: what the topology and the blocker reports guarantee *)
From S2P Require Import Prelude Spec Kernel Scoped.

(** ** [BTreeMap::extend] *)
Section extend.
Context `{Countable K} {V : Type}.
Implicit Types (m : gmap K V) (l : list (K * V)).

Lemma btree_extend_cons m p l : btree_extend m (p :: l) = btree_extend (<[p.1 := p.2]> m) l.
Proof. done. Qed.

Lemma lookup_btree_extend_not_in m l k : k ∉ l.*1 → btree_extend m l !! k = m !! k.
Proof.
  revert m. induction l as [|[k' v'] l IH]; intros m Hk; [done|].
  rewrite btree_extend_cons, IH by set_solver. rewrite lookup_insert_ne by set_solver. done.
Qed.

Lemma lookup_btree_extend_in m l k v :
  NoDup l.*1 → (k, v) ∈ l → btree_extend m l !! k = Some v.
Proof.
  revert m. induction l as [|[k' v'] l IH]; intros m Hnd Hin; [by apply not_elem_of_nil in Hin|].
  rewrite btree_extend_cons. simpl in Hnd. apply NoDup_cons in Hnd as [Hk' Hnd].
  apply elem_of_cons in Hin as [[= -> ->]|Hin]; [|by apply IH].
  rewrite lookup_btree_extend_not_in by done. apply lookup_insert_eq.
Qed.

Lemma lookup_btree_extend_Some m l k v :
  btree_extend m l !! k = Some v → (k, v) ∈ l ∨ m !! k = Some v.
Proof.
  revert m. induction l as [|[k' v'] l IH]; intros m Hk; [by right|].
  rewrite btree_extend_cons in Hk. apply IH in Hk as [Hk|Hk]; [left; by right|].
  simpl in Hk. rewrite lookup_insert in Hk. case_decide; simplify_eq; [left; by left|by right].
Qed.

Lemma lookup_btree_extend_unique m l k v :
  (k, v) ∈ l → (∀ v', (k, v') ∈ l → v' = v) → btree_extend m l !! k = Some v.
Proof.
  revert m. induction l as [|[k' v'] l IH]; intros m Hin Hun; [by apply not_elem_of_nil in Hin|].
  rewrite btree_extend_cons. destruct (decide (k ∈ l.*1)) as [Hl|Hl].
  - apply list_elem_of_fmap in Hl as ([k2 v2] & -> & Hl). simpl in *.
    assert (v2 = v) as -> by (apply Hun; by right). apply IH; [done|]. intros. apply Hun. by right.
  - rewrite lookup_btree_extend_not_in by done.
    apply elem_of_cons in Hin as [[= -> ->]|Hin]; [apply lookup_insert_eq|].
    destruct Hl. apply list_elem_of_fmap. by exists (k, v).
Qed.
End extend.

Section facts.

(** ** Ancestor chains *)

(** [chain] leads from [id] to the machine root, one parent at a time. *)
Inductive leads_to_root (t : ResourceTopology) : ExecutionDomainId → list DomainBudget → Prop :=
| chain_root d :
    rt_domains t !! rt_root t = Some d → db_parent d = None → leads_to_root t (rt_root t) [d]
| chain_step id d parent chain :
    rt_domains t !! id = Some d → db_parent d = Some parent →
    leads_to_root t parent chain → leads_to_root t id (d :: chain).

(** Every domain is stored under its own identifier. *)
Definition keyed (t : ResourceTopology) : Prop :=
  ∀ id d, rt_domains t !! id = Some d → db_id d = id.

Lemma ancestors_loop_spec fuel t id chain seen full :
  ancestors_loop fuel t id chain seen = Ok full →
  ∃ suffix, full = chain ++ suffix ∧ leads_to_root t id suffix ∧ (length full ≤ 16)%nat ∧
    (keyed t → NoDup (db_id <$> suffix) ∧ ∀ x, x ∈ db_id <$> suffix → x ∉ seen).
Proof.
  revert id chain seen. induction fuel as [|fuel IH]; intros id chain seen Hrun; simpl in Hrun;
    [done|].
  destruct (bool_decide _ || bool_decide _) eqn:Hg; [done|]. split_conditions.
  destruct (rt_domains t !! id) as [d|] eqn:Hd; simpl in Hrun; [|done].
  destruct (db_parent d) as [parent|] eqn:Hp.
  - apply IH in Hrun as (suffix & -> & Hlead & Hlen & Hnd).
    exists (d :: suffix). rewrite <-(assoc_L (++)). split_and!; [done|by econstructor|..].
    { by rewrite <-(assoc_L (++)) in Hlen. }
    intros Hk. destruct (Hnd Hk) as [Hnd' Hseen]. pose proof (Hk _ _ Hd) as Hid.
    rewrite fmap_cons. split; [constructor; [|done]|].
    + intros Hin. apply (Hseen _ Hin). set_solver.
    + intros x [->|Hx]%elem_of_cons; [congruence|]. specialize (Hseen _ Hx). set_solver.
  - case_decide as Hid; simplify_eq. exists [d].
    split_and!; [done|by constructor|rewrite length_app; simpl; lia|].
    intros Hk. split; [apply NoDup_singleton|].
    intros x Hx. apply list_elem_of_singleton in Hx as ->. by rewrite (Hk _ _ Hd).
Qed.

(** The loop is complete: a chain that reaches the root without repeating a
    domain is found when the fuel covers it. *)
Lemma ancestors_loop_complete t id suffix :
  leads_to_root t id suffix → keyed t → ∀ fuel chain seen,
  (length suffix ≤ fuel)%nat → (length chain + length suffix ≤ 16)%nat →
  NoDup (db_id <$> suffix) → (∀ x, x ∈ db_id <$> suffix → x ∉ seen) →
  ancestors_loop fuel t id chain seen = Ok (chain ++ suffix).
Proof.
  intros Hlead Hk. induction Hlead as [d Hd Hp|id d parent suffix Hd Hp Hlead IH];
    intros [|fuel] chain seen Hf Hlen Hnd Hseen; simpl in *; try lia.
  - rewrite bool_decide_false by lia.
    rewrite bool_decide_false by (apply Hseen; rewrite (Hk _ _ Hd); set_solver). simpl.
    rewrite Hd; simpl. rewrite Hp. by rewrite decide_True.
  - rewrite bool_decide_false by lia.
    rewrite bool_decide_false by (apply Hseen; rewrite (Hk _ _ Hd); set_solver). simpl.
    rewrite Hd; simpl. rewrite Hp. pose proof (Hk _ _ Hd) as Hid.
    apply NoDup_cons in Hnd as [Hnin Hnd].
    rewrite IH; [by rewrite <-(assoc_L (++))|lia|rewrite length_app; simpl; lia|done|].
    intros x Hx. specialize (Hseen x). set_solver.
Qed.

Lemma leads_to_root_app t id c1 d c2 :
  leads_to_root t id (c1 ++ d :: c2) → keyed t → leads_to_root t (db_id d) (d :: c2).
Proof.
  intros Hlead Hk. remember (c1 ++ d :: c2) as c eqn:Hc. revert c1 Hc.
  induction Hlead as [d' Hd Hp|id d' parent chain Hd Hp Hlead IH]; intros [|x c1] Hc;
    simplify_eq/=.
  - rewrite (Hk _ _ Hd). by constructor.
  - by destruct c1.
  - rewrite (Hk _ _ Hd). by econstructor.
  - by eapply IH.
Qed.

Lemma leads_to_root_fun t id c1 c2 : leads_to_root t id c1 → leads_to_root t id c2 → c1 = c2.
Proof.
  intros H1. revert c2. induction H1 as [d Hd Hp|id d parent chain Hd Hp Hlead IH]; intros c2 H2;
    inversion H2; simplify_eq/=; try done. f_equal. by apply IH.
Qed.

(** [ancestors] succeeds exactly on the domains whose parent chain reaches
    the machine root within sixteen domains without a repetition, and then
    returns that chain, root last; cycles, dangling parents and
    disconnected domains are all rejected. *)
Theorem ancestors_spec (t : ResourceTopology) (Hk : keyed t) id chain :
  ancestors t id = Ok chain ↔
  leads_to_root t id chain ∧ (length chain ≤ 16)%nat ∧ NoDup (db_id <$> chain).
Proof.
  unfold ancestors. split.
  - intros (suffix & -> & Hlead & Hlen & Hnd)%ancestors_loop_spec. simpl in *.
    split_and!; [done..|]. by apply Hnd.
  - intros (Hlead & Hlen & Hnd).
    rewrite (ancestors_loop_complete t id chain Hlead Hk); [done|lia|simpl; lia|done|set_solver].
Qed.

(** ** Well-formed topologies *)
Record wf_topology (t : ResourceTopology) : Prop := {
  wf_keyed : keyed t;
  wf_root : ∃ d, rt_domains t !! rt_root t = Some d ∧ db_parent d = None;
  wf_chains : ∀ id d, rt_domains t !! id = Some d → ∃ chain, ancestors t id = Ok chain;
  wf_aliases : ∀ domain name physical, rt_aliases t !! (domain, name) = Some physical →
    is_Some (rt_domains t !! domain) ∧ is_Some (root_capacities t !! physical);
}.

Lemma ResourceTopology_new_fields root domains aliases t :
  ResourceTopology_new root domains aliases = Ok t →
  rt_root t = root ∧ rt_aliases t = aliases ∧
  rt_domains t = btree_extend ∅ (map (λ domain, (db_id domain, domain)) domains).
Proof. unfold ResourceTopology_new. intros H. result_inv. done. Qed.

Lemma ResourceTopology_new_wf root domains aliases t :
  ResourceTopology_new root domains aliases = Ok t → wf_topology t.
Proof.
  unfold ResourceTopology_new. intros H. result_inv. simpl in *.
  set (m := btree_extend ∅ _ : gmap ExecutionDomainId DomainBudget) in *.
  apply result_mapM_Ok in Hstep, Hstep0. split_conditions. split; simpl.
  - intros id d Hd. simpl in Hd. unfold m in Hd.
    apply lookup_btree_extend_Some in Hd as [Hd|Hd]; [|by rewrite lookup_empty in Hd].
    by apply list_elem_of_fmap in Hd as (d' & [= -> ->] & _).
  - destruct (m !! root) as [d|]; [|done]. exists d. split; [done|].
    apply bool_decide_eq_false in H0. by apply eq_None_not_Some.
  - intros id d Hd.
    destruct (Forall2_lookup_l _ _ _ (default 0%nat (fst <$> list_find (eq id) (btree_keys m))) id Hstep)
      as (chain & _ & Hc); [|eauto].
    assert (id ∈ btree_keys m) as Hin by (apply elem_of_btree_keys; by eexists).
    destruct (list_find_elem_of (eq id) _ id Hin) as [[i y] Hf]; [done|].
    rewrite Hf. simpl. apply list_find_Some in Hf as (Hf & <- & _). done.
  - intros domain name physical Ha.
    assert ((domain, name, physical) ∈ btree_entries aliases) as Hin
      by by apply elem_of_btree_entries.
    apply list_elem_of_lookup in Hin as [i Hi].
    destruct (Forall2_lookup_l _ _ _ _ _ Hstep0 Hi) as ([] & _ & Hg). simpl in Hg. result_inv.
    split_conditions. split; by apply not_eq_None_Some.
Qed.

(** a topology that [ResourceTopology::new] accepts is a tree: every domain
    is keyed by its id, the root has no parent, every domain reaches the root,
    and every alias names a known domain and a physical resource. *)
Theorem topology_new_is_tree root domains aliases t
    (Hnew : ResourceTopology_new root domains aliases = Ok t) :
  wf_topology t ∧ rt_root t = root ∧ rt_aliases t = aliases ∧
  (∀ id d, rt_domains t !! id = Some d → ∃ chain, leads_to_root t id chain).
Proof.
  pose proof (ResourceTopology_new_wf _ _ _ _ Hnew) as Hwf.
  destruct (ResourceTopology_new_fields _ _ _ _ Hnew) as (Hr & Ha & _).
  split_and!; [done..|]. intros id d Hd. destruct (wf_chains t Hwf id d Hd) as [chain Hc].
  unfold ancestors in Hc. apply ancestors_loop_spec in Hc as (s & -> & Hl & _). eauto.
Qed.

(** ** Expansion *)

(** The domains of [chain] that budget [name]. *)
Definition budgets (chain : list DomainBudget) (s : ExecutionDomainId) (name : string) : bool :=
  existsb (λ d, bool_decide (db_id d = s) && bool_decide (is_Some (db_capacities d !! name))) chain.
#[local] Arguments budgets : simpl never.

Lemma lookup_insert_ancestors chain m name v r :
  insert_ancestors chain m (name, v) !! r =
  if decide (kind r = Scalar ∧ resource_id r = name ∧ budgets chain (scope r) name = true)
  then Some v else m !! r.
Proof.
  unfold insert_ancestors. revert m.
  induction chain as [|d chain IH]; intros m; simpl.
  { rewrite decide_False; [done|]. naive_solver. }
  rewrite IH. clear IH.
  destruct (decide (db_capacities d !! name = None)) as [Hn|Hn].
  - unfold budgets; simpl.
    rewrite (bool_decide_false (is_Some (db_capacities d !! name)))
      by (rewrite Hn; intros [? [=]]).
    by rewrite andb_false_r.
  - unfold budgets; simpl. apply not_eq_None_Some in Hn.
    rewrite (bool_decide_true (is_Some _)) by done. rewrite andb_true_r.
    destruct r as [s k n]; simpl. unfold scalar_id.
    destruct (existsb _ chain) eqn:Hex.
    + rewrite orb_true_r. destruct (decide (k = Scalar ∧ n = name ∧ true = true)) as [?|Hno];
        [done|]. rewrite lookup_insert_ne; [done|]. intros [= <- <- <-]. by destruct Hno.
    + rewrite orb_false_r. rewrite (decide_False (P := _ ∧ _ ∧ false = true)) by naive_solver.
      rewrite lookup_insert.
      destruct (decide (db_id d = s)) as [->|Hs].
      * rewrite bool_decide_true by done. repeat case_decide; naive_solver.
      * rewrite bool_decide_false by done.
        rewrite decide_False by congruence. rewrite decide_False by naive_solver. done.
Qed.

Lemma lookup_expand_scalars chain (physical : gmap string N) r :
  foldl (insert_ancestors chain) ∅ (btree_entries physical) !! r =
  if decide (kind r = Scalar ∧ budgets chain (scope r) (resource_id r) = true)
  then physical !! resource_id r else None.
Proof.
  assert (∀ l (m : gmap ScopedResourceId N), NoDup l.*1 →
    foldl (insert_ancestors chain) m l !! r =
    match list_to_map (M:=gmap string N) l !! resource_id r with
    | Some v => if decide (kind r = Scalar ∧ budgets chain (scope r) (resource_id r) = true)
                then Some v else m !! r
    | None => m !! r
    end) as Haux.
  { induction l as [|[n v] l IH]; intros m Hnd; [done|]. simpl.
    simpl in Hnd. apply NoDup_cons in Hnd as [Hn Hnd]. rewrite IH by done.
    rewrite lookup_insert_ancestors, lookup_insert.
    destruct (decide (n = resource_id r)) as [->|Hne].
    - rewrite (not_elem_of_list_to_map_1 l (resource_id r)) by done.
      repeat case_decide; naive_solver.
    - rewrite (decide_False (P := kind r = Scalar ∧ resource_id r = n ∧ _)) by naive_solver.
      done. }
  rewrite Haux by apply NoDup_btree_keys. rewrite lookup_empty.
  assert (list_to_map (btree_entries physical) = physical) as ->.
  { rewrite <-(list_to_map_to_list physical) at 2. apply list_to_map_proper.
    - apply NoDup_btree_keys.
    - apply btree_entries_Permutation. }
  by destruct (physical !! resource_id r); case_decide.
Qed.

(** The claims of [domain] that stand for the physical resource [name]. *)
Definition physical_total (t : ResourceTopology) (domain : ExecutionDomainId)
    (entries : list (string * N)) (name : string) : N :=
  sum_N (map (λ p, if decide (default p.1 (rt_aliases t !! (domain, p.1)) = name)
                   then p.2 else 0) entries).

Lemma physical_total_snoc t domain l p name :
  physical_total t domain (l ++ [p]) name =
  physical_total t domain l name +
  (if decide (default p.1 (rt_aliases t !! (domain, p.1)) = name) then p.2 else 0).
Proof. unfold physical_total. rewrite map_app, sum_N_app. simpl. lia. Qed.

Lemma physical_fold_spec t domain entries physical :
  result_foldM (physical_step t domain) ∅ entries = Ok physical →
  (∀ name, default 0 (physical !! name) = physical_total t domain entries name) ∧
  (∀ name v, physical !! name = Some v →
     0 < v ∧ v ≤ u64_max ∧ is_Some (root_capacities t !! name)).
Proof.
  apply (result_foldM_ind (λ done phys,
    (∀ name, default 0 (phys !! name) = physical_total t domain done name) ∧
    (∀ name v, phys !! name = Some v →
       0 < v ∧ v ≤ u64_max ∧ is_Some (root_capacities t !! name)))).
  - split; [done|]. intros name v Hv. by rewrite lookup_empty in Hv.
  - intros done [n v] rest phys phys' _ [IH1 IH2] Hstep. unfold physical_step in Hstep.
    case_decide as Hv.
    + simplify_eq. split; [|exact IH2]. intros name. rewrite physical_total_snoc, IH1.
      simpl. case_decide; lia.
    + set (n' := default n (rt_aliases t !! (domain, n))) in *.
      result_inv. split_conditions.
      destruct (checked_add _ v) as [total|] eqn:Hadd; simpl in Hstep0; [|done].
      simplify_eq. apply checked_add_Some in Hadd as [-> Hle].
      split.
      * intros name. rewrite physical_total_snoc, <-IH1. simpl. fold n'.
        destruct (decide (n' = name)) as [<-|Hne].
        -- rewrite lookup_insert_eq. done.
        -- rewrite lookup_insert_ne by done. lia.
      * intros name w. rewrite lookup_insert. case_decide as Hn; [|apply IH2].
        intros [= <-]. subst name. split_and!; [lia|done|]. by apply not_eq_None_Some.
Qed.

(** What [expand] computes, entry by entry. *)
Lemma expand_lookup t domain claims sc :
  expand t domain claims = Ok sc →
  ∃ chain, ancestors t domain = Ok chain ∧
  (∀ r, default 0 (sc_scalars sc !! r) =
     if decide (kind r = Scalar ∧ budgets chain (scope r) (resource_id r) = true)
     then physical_total t domain (btree_entries (scalar_entries claims)) (resource_id r) else 0) ∧
  (∀ r v, sc_scalars sc !! r = Some v → 0 < v) ∧
  (∀ name, 0 < physical_total t domain (btree_entries (scalar_entries claims)) name →
     is_Some (root_capacities t !! name)).
Proof.
  unfold expand. intros H. result_inv.
  apply physical_fold_spec in Hstep0 as [Hphys Hpos]. exists a. simpl. split_and!; [done|..].
  - intros r. rewrite lookup_expand_scalars. case_decide; [|done]. apply Hphys.
  - intros r v. rewrite lookup_expand_scalars. case_decide; [|done]. intros Hv.
    by apply Hpos in Hv as [? _].
  - intros name Hn. rewrite <-Hphys in Hn.
    destruct (a0 !! name) as [v|] eqn:Hv; simpl in Hn; [|lia]. by apply Hpos in Hv as (_ & _ & ?).
Qed.

Lemma leads_to_root_last t id chain :
  leads_to_root t id chain → ∃ d, d ∈ chain ∧ rt_domains t !! rt_root t = Some d.
Proof.
  induction 1 as [d Hd Hp|id d parent chain Hd Hp Hlead (d' & Hin & Hd')].
  - exists d. split; [by left|done].
  - exists d'. split; [by right|done].
Qed.

(** Hierarchy expansion debits each resource once per constraint: every
    ancestor that budgets a resource carries exactly the physical amount the
    claim asks for (the sum over its aliases), the machine root always does,
    and no other entry exists. *)
Theorem expand_counts_once t (Hwf : wf_topology t) domain claims sc
    (Hexp : expand t domain claims = Ok sc) :
  (∀ s name v, sc_scalars sc !! scalar_id s name = Some v →
     v = physical_total t domain (btree_entries (scalar_entries claims)) name ∧ 0 < v ∧
     ∃ chain, ancestors t domain = Ok chain ∧ budgets chain s name = true) ∧
  (∀ name, 0 < physical_total t domain (btree_entries (scalar_entries claims)) name →
     sc_scalars sc !! scalar_id (rt_root t) name =
     Some (physical_total t domain (btree_entries (scalar_entries claims)) name)) ∧
  (∀ r, is_Some (sc_scalars sc !! r) → kind r = Scalar).
Proof.
  destruct (expand_lookup _ _ _ _ Hexp) as (chain & Hc & Hlook & Hpos & Hroot).
  assert (∀ r v, sc_scalars sc !! r = Some v →
    kind r = Scalar ∧ budgets chain (scope r) (resource_id r) = true ∧
    v = physical_total t domain (btree_entries (scalar_entries claims)) (resource_id r)) as Hsome.
  { intros r v Hv. pose proof (Hlook r) as Hr. pose proof (Hpos r v Hv) as Hp.
    rewrite Hv in Hr. simpl in Hr. case_decide as Hcond; [naive_solver|lia]. }
  split_and!.
  - intros s name v Hv. pose proof (Hpos _ _ Hv). apply Hsome in Hv as (_ & Hb & ->). eauto.
  - intros name Hn. destruct (Hroot name Hn) as [cap Hcap].
    assert (budgets chain (rt_root t) name = true) as Hb.
    { pose proof Hc as Hc'. unfold ancestors in Hc'.
      apply ancestors_loop_spec in Hc' as (s & -> & Hl & _). simpl in *.
      destruct (leads_to_root_last _ _ _ Hl) as (d & Hin & Hd).
      unfold budgets. apply existsb_exists. exists d. split; [by apply list_elem_of_In|].
      unfold root_capacities in Hcap. rewrite Hd in Hcap.
      rewrite (wf_keyed t Hwf _ _ Hd). rewrite !bool_decide_true by (done || by eexists). done. }
    specialize (Hlook (scalar_id (rt_root t) name)). simpl in Hlook.
    rewrite decide_True in Hlook by done.
    destruct (sc_scalars sc !! _) as [v|]; simpl in Hlook; [by subst|lia].
  - intros r [v Hv]. by apply Hsome in Hv as [? _].
Qed.

(** ** Capacities *)
Lemma lookup_capacities t r : keyed t →
  capacities t !! r =
  if decide (kind r = Scalar)
  then rt_domains t !! scope r ≫= λ d, db_capacities d !! resource_id r else None.
Proof.
  intros Hk. unfold capacities. set (l := concat _).
  assert (∀ r' v, (r', v) ∈ l ↔ ∃ d, rt_domains t !! scope r' = Some d ∧ kind r' = Scalar ∧
    db_capacities d !! resource_id r' = Some v) as Hl.
  { intros r' v. unfold l. rewrite elem_of_concat_map. split.
    - intros (d & Hd & Hv). apply list_elem_of_fmap in Hd as ([id d'] & -> & Hd%elem_of_btree_entries).
      apply list_elem_of_fmap in Hv as ([n w] & [= -> ->] & Hv%elem_of_btree_entries). simpl in *.
      rewrite (Hk _ _ Hd). eauto.
    - intros (d & Hd & Hkind & Hv). exists d. split.
      + apply list_elem_of_fmap. exists (scope r', d). split; [done|by apply elem_of_btree_entries].
      + apply list_elem_of_fmap. exists (resource_id r', v). rewrite elem_of_btree_entries.
        split; [|done]. rewrite (Hk _ _ Hd). destruct r' as [? k ?]; simpl in *; by subst k. }
  destruct (decide (kind r = Scalar)) as [Hr|Hr].
  - destruct (rt_domains t !! scope r) as [d|] eqn:Hd; simpl.
    + destruct (db_capacities d !! resource_id r) as [v|] eqn:Hv.
      * apply lookup_btree_extend_unique; [apply Hl; eauto|].
        intros v' Hv'. apply Hl in Hv' as (? & ? & _ & ?). congruence.
      * destruct (btree_extend ∅ l !! r) as [v|] eqn:He; [|done].
        apply lookup_btree_extend_Some in He as [He|He]; [|by rewrite lookup_empty in He].
        apply Hl in He as (? & ? & _ & ?). congruence.
    + destruct (btree_extend ∅ l !! r) as [v|] eqn:He; [|done].
      apply lookup_btree_extend_Some in He as [He|He]; [|by rewrite lookup_empty in He].
      apply Hl in He as (? & ? & _). congruence.
  - destruct (btree_extend ∅ l !! r) as [v|] eqn:He; [|done].
    apply lookup_btree_extend_Some in He as [He|He]; [|by rewrite lookup_empty in He].
    apply Hl in He as (? & _ & ? & _). congruence.
Qed.

(** ** Native admission *)

(** Every amount fits its Rust type. *)
Definition claims_u64 (claims : ResolvedClaims) : Prop :=
  ∀ name v, scalar_entries claims !! name = Some v → v ≤ u64_max.

Definition single_domain (caps : gmap string N) : DomainBudget :=
  {| db_id := uuid_nil; db_parent := None; db_capacities := caps |}.
Definition single_topology (caps : gmap string N) : ResourceTopology :=
  {| rt_root := uuid_nil; rt_domains := {[uuid_nil := single_domain caps]}; rt_aliases := ∅ |}.

Lemma single_keyed caps : keyed (single_topology caps).
Proof. intros id d Hd. simpl in Hd. apply lookup_singleton_Some in Hd as [<- <-]. done. Qed.

Lemma single_ancestors caps : ancestors (single_topology caps) uuid_nil = Ok [single_domain caps].
Proof.
  apply ancestors_spec; [apply single_keyed|]. split_and!.
  - apply chain_root; [apply lookup_singleton_eq|done].
  - simpl; lia.
  - apply NoDup_singleton.
Qed.

Lemma single_topology_new caps :
  ResourceTopology_new uuid_nil [single_domain caps] ∅ = Ok (single_topology caps).
Proof.
  unfold ResourceTopology_new. cbn [map db_id single_domain length].
  change (btree_extend ∅ _) with
    ({[uuid_nil := single_domain caps]} : gmap ExecutionDomainId DomainBudget).
  rewrite map_size_singleton, lookup_singleton_eq. simpl.
  assert (btree_keys ({[uuid_nil := single_domain caps]} : gmap ExecutionDomainId DomainBudget)
    = [uuid_nil]) as ->.
  { unfold btree_keys, btree_entries. by rewrite map_to_list_singleton. }
  simpl. fold (single_topology caps). rewrite single_ancestors. simpl.
  unfold btree_entries. rewrite map_to_list_empty. done.
Qed.

Lemma sum_indicator (l : list (string * N)) name : NoDup l.*1 →
  sum_N (map (λ p, if decide (p.1 = name) then p.2 else 0) l) =
  default 0 (list_to_map (M:=gmap string N) l !! name).
Proof.
  induction l as [|[n v] l IH]; intros Hnd; [done|]. simpl in *.
  apply NoDup_cons in Hnd as [Hn Hnd]. rewrite IH by done. rewrite lookup_insert.
  case_decide as Hd; [|lia]. subst. rewrite not_elem_of_list_to_map_1 by done. simpl. lia.
Qed.

Lemma physical_total_no_alias t domain (m : gmap string N) name : rt_aliases t = ∅ →
  physical_total t domain (btree_entries m) name = default 0 (m !! name).
Proof.
  intros Ha. unfold physical_total. rewrite Ha.
  rewrite (map_ext _ (λ p : string * N, if decide (p.1 = name) then p.2 else 0))
    by (intros p; by rewrite lookup_empty).
  rewrite sum_indicator by apply NoDup_btree_keys. f_equal. f_equal.
  rewrite <-(list_to_map_to_list m) at 2. apply list_to_map_proper;
    [apply NoDup_btree_keys|apply btree_entries_Permutation].
Qed.

(** Without aliases nothing is summed, so u64 amounts cannot overflow. *)
Lemma physical_fold_no_alias t domain (l : list (string * N)) : rt_aliases t = ∅ →
  NoDup l.*1 → (∀ n v, (n, v) ∈ l → v ≤ u64_max ∧ is_Some (root_capacities t !! n)) →
  ∃ physical, result_foldM (physical_step t domain) ∅ l = Ok physical.
Proof.
  intros Ha Hnd Hl.
  cut (∀ (m : gmap string N), (∀ n, n ∈ l.*1 → m !! n = None) →
    ∃ physical, result_foldM (physical_step t domain) m l = Ok physical).
  { intros Hm. apply Hm. done. }
  induction l as [|[n v] l IH]; intros m Hm; [by eexists|]. simpl in *.
  apply NoDup_cons in Hnd as [Hn Hnd].
  assert (∀ n v, (n, v) ∈ l → v ≤ u64_max ∧ is_Some (root_capacities t !! n)) as Hl'
    by (intros; apply Hl; by right).
  case_decide as Hv; simpl.
  { apply IH; [done..|]. intros; apply Hm; by right. }
  rewrite Ha, lookup_empty. simpl.
  destruct (Hl n v) as [Hle [c Hc]]; [by left|]. rewrite Hc. rewrite bool_decide_false by done.
  simpl. rewrite (Hm n) by by left. simpl. unfold checked_add. rewrite decide_True by lia. simpl.
  apply IH; [done..|]. intros n' Hn'. rewrite lookup_insert_ne by (by intros ->).
  apply Hm. by right.
Qed.

(** An expansion in the single root scope is the claim itself, without its
    zero entries. *)
Record native_expansion (claims : ResolvedClaims) (sc : ScopedClaims) : Prop := {
  ne_scalars : ∀ name, default 0 (sc_scalars sc !! scalar_id uuid_nil name) =
                       default 0 (scalar_entries claims !! name);
  ne_shape : ∀ r v, sc_scalars sc !! r = Some v → 0 < v ∧ r = scalar_id uuid_nil (resource_id r);
  ne_shared : sc_shared_fences sc = set_map (fence_id uuid_nil) (cl_shared_fences claims);
  ne_exclusive : sc_exclusive_fences sc = set_map (fence_id uuid_nil) (cl_exclusive_fences claims);
  ne_impacts : sc_impacts sc = cl_impacts claims;
}.

Lemma budgets_single caps s name :
  budgets [single_domain caps] s name =
  bool_decide (uuid_nil = s) && bool_decide (is_Some (caps !! name)).
Proof. unfold budgets; simpl. by rewrite orb_false_r. Qed.

Lemma single_root caps : root_capacities (single_topology caps) = caps.
Proof. unfold root_capacities; simpl. by rewrite lookup_singleton_eq. Qed.

Lemma expand_native_spec caps claims sc :
  (∀ name, is_Some (scalar_entries claims !! name) → is_Some (caps !! name)) →
  expand (single_topology caps) uuid_nil claims = Ok sc → native_expansion claims sc.
Proof.
  intros Hcaps Hexp. set (t := single_topology caps) in *.
  pose proof (single_ancestors caps : ancestors t uuid_nil = _) as Hanc.
  pose proof (expand_lookup _ _ _ _ Hexp) as (chain & Hc & Hlook & Hpos & _).
  rewrite Hanc in Hc. simplify_eq.
  unfold expand in Hexp. rewrite Hanc in Hexp. simpl in Hexp. result_inv.
  split; simpl in *; [| |done..].
  - intros name. rewrite Hlook. simpl. rewrite physical_total_no_alias by done.
    rewrite budgets_single. case_decide as Hd; [done|].
    destruct (scalar_entries claims !! name) eqn:Hn; [|done]. destruct Hd. split; [done|].
    rewrite !bool_decide_true; [done| |done]. apply Hcaps. by eexists.
  - intros r v Hv. split; [by eapply Hpos|]. pose proof (Hlook r) as Hr. rewrite Hv in Hr.
    simpl in Hr. apply Hpos in Hv. case_decide as Hd; [|lia].
    destruct Hd as [Hk Hb]. rewrite budgets_single in Hb. split_conditions.
    destruct r as [s' k n]. simpl in *. by subst s' k.
Qed.

Lemma expand_native caps claims : claims_u64 claims →
  (∀ name, is_Some (scalar_entries claims !! name) → is_Some (caps !! name)) →
  ∃ sc, expand (single_topology caps) uuid_nil claims = Ok sc.
Proof.
  intros Hu Hcaps. pose proof (single_ancestors caps : ancestors (single_topology caps) uuid_nil = _) as Hanc.
  destruct (physical_fold_no_alias (single_topology caps) uuid_nil (btree_entries (scalar_entries claims)))
    as [physical Hphys]; [done|apply NoDup_btree_keys|..].
  { intros n v Hin%elem_of_btree_entries. rewrite single_root.
    split; [by eapply Hu|]. apply Hcaps. by eexists. }
  unfold expand. rewrite Hanc. simpl. rewrite Hphys. simpl. by eexists.
Qed.

Lemma or_insert_zero_spec caps claims name :
  default 0 (or_insert_zero caps claims !! name) = default 0 (caps !! name) ∧
  (is_Some (caps !! name) ∨ (∃ c, c ∈ claims ∧ is_Some (scalar_entries c !! name)) →
   is_Some (or_insert_zero caps claims !! name)).
Proof.
  assert (∀ keys (m : gmap string N),
    let m' := foldl (λ caps n, if decide (caps !! n = None) then <[n := 0]> caps else caps) m keys in
    default 0 (m' !! name) = default 0 (m !! name) ∧
    (is_Some (m !! name) ∨ name ∈ keys → is_Some (m' !! name))) as Hkeys.
  { induction keys as [|n keys IH]; intros m; simpl.
    { split; [done|]. intros [?|?%not_elem_of_nil]; done. }
    case_decide as Hn; [|destruct (IH m) as [IH1 IH2]; split; [done|]; intros [?|[->|?]%elem_of_cons];
      apply IH2; auto; left; by apply not_eq_None_Some].
    destruct (IH (<[n := 0]> m)) as [IH1 IH2]. rewrite IH1. clear IH1. split.
    - rewrite lookup_insert. case_decide; [|done]. subst. by rewrite Hn.
    - intros Hor. apply IH2. rewrite lookup_insert. case_decide; [left; by eexists|].
      destruct Hor as [?|[->|?]%elem_of_cons]; auto; done. }
  revert caps. induction claims as [|c claims IH]; intros caps; unfold or_insert_zero; simpl.
  { split; [done|]. intros [?|(c & []%not_elem_of_nil & _)]; done. }
  destruct (Hkeys (btree_keys (scalar_entries c)) caps) as [Hk1 Hk2].
  destruct (IH (foldl (λ caps n, if decide (caps !! n = None) then <[n := 0]> caps else caps)
    caps (btree_keys (scalar_entries c)))) as [IH1 IH2].
  unfold or_insert_zero in IH1, IH2. rewrite IH1, Hk1. split; [done|].
  intros [?|(c' & [->|Hc]%elem_of_cons & Hs)]; apply IH2.
  - left. apply Hk2. by left.
  - left. apply Hk2. right. by apply elem_of_btree_keys.
  - right. eauto.
Qed.

Lemma native_debits_of active active' name :
  Forall2 native_expansion active active' →
  debits_of (scalar_id uuid_nil name) (map sc_scalars active') =
  debits_of name (map scalar_entries active).
Proof.
  induction 1 as [|c sc l l' Hc Hl IH]; [done|]. unfold debits_of in *; simpl.
  by rewrite IH, (ne_scalars _ _ Hc).
Qed.

Lemma elem_of_fence_conflicts {F} `{Countable F, BTreeKey F} (se ss ce cs : gset F) x :
  x ∈ fence_conflicts se ss ce cs ↔
  x ∈ se ∧ x ∈ ce ∨ x ∈ se ∧ x ∈ cs ∨ x ∈ ss ∧ x ∈ ce.
Proof.
  unfold fence_conflicts. rewrite !elem_of_app, !elem_of_btree_elements. set_solver.
Qed.

Lemma elem_of_impact_conflicts mine held rules a b :
  (a, b) ∈ impact_conflicts mine held rules ↔
  a ∈ mine ∧ b ∈ held ∧ impacts_conflict a b rules = true.
Proof.
  unfold impact_conflicts. rewrite elem_of_concat_map. split.
  - intros (x & Hx%elem_of_btree_elements & Hb). apply elem_of_concat_map in Hb
      as (y & Hy%elem_of_btree_elements & Hb).
    destruct (impacts_conflict x y rules) eqn:E; [|by apply not_elem_of_nil in Hb].
    by apply list_elem_of_singleton in Hb as [= -> ->].
  - intros (Ha & Hb & Hc). exists a. rewrite elem_of_btree_elements. split; [done|].
    apply elem_of_concat_map. exists b. rewrite elem_of_btree_elements. split; [done|].
    rewrite Hc. by left.
Qed.

Lemma elem_of_scalar_vector_blockers `{Countable K, BTreeKey K} (claims caps : gmap K N) debits
    disp b :
  b ∈ scalar_vector_blockers claims caps debits disp false ↔
  ∃ key requested, claims !! key = Some requested ∧ 0 < requested ∧
    b ∈ scalar_blocker (disp key) requested (default 0 (caps !! key))
          (checked_total (debits_of key debits)).
Proof.
  unfold scalar_vector_blockers. rewrite elem_of_sort_blockers, elem_of_concat_map. split.
  - intros ([key requested] & Hin%elem_of_btree_entries & Hb). exists key, requested.
    split_and!; [done| |done]. destruct (decide (requested = 0)) as [->|]; [|lia].
    simpl in Hb. by apply not_elem_of_nil in Hb.
  - intros (key & requested & Hin & _ & Hb). exists (key, requested).
    by rewrite elem_of_btree_entries.
Qed.

(** [Uuid]'s [Display], for the reports that name a domain. *)
Context (uuid_to_string : Uuid → string).

(** The scalar part of the two reports has the same blockers. *)
Lemma native_scalar_blockers claims sc active active' (c : ResourceCapacities) caps b :
  native_expansion claims sc → Forall2 native_expansion active active' →
  (∀ name, default 0 (caps !! name) = default 0 (legacy_capacities c !! name)) →
  b ∈ scalar_vector_blockers (sc_scalars sc) (capacities (single_topology caps))
        (map sc_scalars active') (display uuid_to_string) false ↔
  b ∈ scalar_blockers claims c active.
Proof.
  intros Hne Hact Hcaps. unfold scalar_blockers. rewrite !elem_of_scalar_vector_blockers.
  assert (∀ name, default 0 (capacities (single_topology caps) !! scalar_id uuid_nil name)
    = default 0 (legacy_capacities c !! name)) as Hcap.
  { intros name. rewrite lookup_capacities by apply single_keyed. simpl.
    rewrite lookup_singleton_eq. simpl. apply Hcaps. }
  split.
  - intros (r & v & Hv & Hpos & Hb). destruct (ne_shape _ _ Hne r v Hv) as [_ Hr].
    rewrite Hr in Hv, Hb. set (name := resource_id r) in *. exists name, v.
    pose proof (ne_scalars _ _ Hne name) as Hs. rewrite Hv in Hs. simpl in Hs.
    rewrite Hcap in Hb. rewrite (native_debits_of active active') in Hb by done.
    split_and!; [|done|done]. destruct (scalar_entries claims !! name); simpl in Hs; [congruence|lia].
  - intros (name & v & Hv & Hpos & Hb). exists (scalar_id uuid_nil name), v.
    pose proof (ne_scalars _ _ Hne name) as Hs. rewrite Hv in Hs. simpl in Hs.
    rewrite Hcap, (native_debits_of active active') by done.
    split_and!; [|done|done]. destruct (sc_scalars sc !! _); simpl in Hs; [by subst|lia].
Qed.

(** So has the fence and impact part. *)
Lemma native_holder_blockers claims sc claim sc' rules b :
  native_expansion claims sc → native_expansion claim sc' →
  b ∈ map (λ fence, fence_blocker (display uuid_to_string fence))
        (fence_conflicts (sc_exclusive_fences sc) (sc_shared_fences sc)
           (sc_exclusive_fences sc') (sc_shared_fences sc'))
      ++ map (λ p, impact_blocker p.1 p.2) (impact_conflicts (sc_impacts sc) (sc_impacts sc') rules) ↔
  b ∈ map fence_blocker
        (fence_conflicts (cl_exclusive_fences claims) (cl_shared_fences claims)
           (cl_exclusive_fences claim) (cl_shared_fences claim))
      ++ map (λ p, impact_blocker p.1 p.2)
           (impact_conflicts (cl_impacts claims) (cl_impacts claim) rules).
Proof.
  intros Hne Hne'. rewrite !elem_of_app.
  rewrite (ne_impacts _ _ Hne), (ne_impacts _ _ Hne').
  apply or_iff_compat_r. rewrite !list_elem_of_fmap.
  rewrite (ne_shared _ _ Hne), (ne_shared _ _ Hne'), (ne_exclusive _ _ Hne), (ne_exclusive _ _ Hne').
  split.
  - intros (r & -> & Hr). apply elem_of_fence_conflicts in Hr.
    exists (resource_id r). rewrite elem_of_fence_conflicts. rewrite !elem_of_map in Hr.
    assert (∀ A B : gset string, (∃ x, r = fence_id uuid_nil x ∧ x ∈ A) ∧
      (∃ x, r = fence_id uuid_nil x ∧ x ∈ B) →
      r = fence_id uuid_nil (resource_id r) ∧ resource_id r ∈ A ∧ resource_id r ∈ B) as Hex.
    { intros A B [(x & -> & ?) (y & [= ->] & ?)]. done. }
    destruct Hr as [Hr|[Hr|Hr]]; apply Hex in Hr as (-> & ? & ?); simpl; auto 10.
  - intros (n & -> & Hn). apply elem_of_fence_conflicts in Hn.
    exists (fence_id uuid_nil n). rewrite elem_of_fence_conflicts. split; [done|].
    rewrite !elem_of_map. naive_solver.
Qed.

(** What the topology of one root reports is the flat report. *)
Lemma legacy_blockers_flat claims c active rules l :
  legacy_full_vector_blockers uuid_to_string claims c active rules = Some l →
  l = sort_blockers (scalar_blockers claims c active ++ non_scalar_blockers claims active rules).
Proof.
  unfold legacy_full_vector_blockers. set (caps := or_insert_zero (legacy_capacities c) (claims :: active)).
  change {| db_id := uuid_nil; db_parent := None; db_capacities := caps |} with (single_domain caps).
  rewrite single_topology_new. simpl.
  assert (∀ cl, cl ∈ claims :: active → ∀ name, is_Some (scalar_entries cl !! name) →
    is_Some (caps !! name)) as Hnames.
  { intros cl Hcl name Hn. apply or_insert_zero_spec. right. eauto. }
  assert (∀ name, default 0 (caps !! name) = default 0 (legacy_capacities c !! name)) as Hleg
    by (intros; apply or_insert_zero_spec).
  clearbody caps. destruct (expand _ uuid_nil claims) as [sc|] eqn:Hsc; [|done]. simpl.
  destruct (result_mapM _ active) as [active'|] eqn:Hmap; [|done]. simpl. intros [= <-].
  apply expand_native_spec in Hsc as Hne; [|apply Hnames; by left].
  assert (Forall2 native_expansion active active') as Hall.
  { assert (∀ cl, cl ∈ active → ∀ name, is_Some (scalar_entries cl !! name) → is_Some (caps !! name)) as Hn'
      by (intros; eapply Hnames; [by right|done]).
    apply result_mapM_Ok in Hmap. clear -Hmap Hn'. induction Hmap as [|cl sc' l l' Hexp _ IH]; [done|].
    constructor; [|by apply IH; intros ??; apply Hn'; right].
    eapply expand_native_spec; [|exact Hexp]. apply Hn'. by left. }
  unfold ScopedClaims_blockers. apply sort_blockers_ext.
  intros b. rewrite !elem_of_app. rewrite (native_scalar_blockers claims sc active active' c) by done.
  apply or_iff_compat_l. unfold non_scalar_blockers. rewrite elem_of_sort_blockers.
  rewrite !elem_of_concat_map. split.
  - intros (sc' & Hin & Hb). apply list_elem_of_lookup in Hin as [i Hi].
    destruct (Forall2_lookup_r _ _ _ _ _ Hall Hi) as (cl & Hcl & Hne').
    exists cl. split; [by eapply list_elem_of_lookup_2|]. by eapply native_holder_blockers.
  - intros (cl & Hin & Hb). apply list_elem_of_lookup in Hin as [i Hi].
    destruct (Forall2_lookup_l _ _ _ _ _ Hall Hi) as (sc' & Hsc' & Hne').
    exists sc'. split; [by eapply list_elem_of_lookup_2|]. by eapply native_holder_blockers.
Qed.

(** Claims of machine width always have one. *)
Lemma legacy_blockers_total claims c active rules :
  claims_u64 claims → Forall claims_u64 active →
  legacy_full_vector_blockers uuid_to_string claims c active rules =
  Some (sort_blockers (scalar_blockers claims c active ++ non_scalar_blockers claims active rules)).
Proof.
  intros Hu Hact. destruct (legacy_full_vector_blockers _ claims c active rules) as [l|] eqn:Hl;
    [by rewrite (legacy_blockers_flat _ _ _ _ _ Hl)|]. exfalso. revert Hl.
  unfold legacy_full_vector_blockers. set (caps := or_insert_zero (legacy_capacities c) (claims :: active)).
  change {| db_id := uuid_nil; db_parent := None; db_capacities := caps |} with (single_domain caps).
  rewrite single_topology_new. simpl.
  assert (∀ cl, cl ∈ claims :: active → ∀ name, is_Some (scalar_entries cl !! name) →
    is_Some (caps !! name)) as Hnames.
  { intros cl Hcl name Hn. apply or_insert_zero_spec. right. eauto. }
  destruct (expand_native caps claims Hu) as (sc & ->); [apply Hnames; by left|]. simpl.
  assert (∃ active', result_mapM (expand (single_topology caps) uuid_nil) active = Ok active') as (active' & ->); [|done].
  assert (∀ cl, cl ∈ active → ∀ name, is_Some (scalar_entries cl !! name) →
    is_Some (caps !! name)) as Hn' by (intros; eapply Hnames; [by right|done]).
  clear Hnames Hu. clearbody caps. induction Hact as [|cl l Hcl Hl IH]; [exists []; done|]. simpl.
  destruct (expand_native caps cl Hcl) as (sc' & ->); [apply Hn'; by left|].
  destruct IH as (l' & Hl'); [intros ?? ; eapply Hn'; by right|]. simpl. rewrite Hl'. by eexists.
Qed.

(** ** Compatibility of holders *)
Definition fences_compatible {F} `{Countable F} (se ss ce cs : gset F) : Prop :=
  se ## ce ∧ se ## cs ∧ ss ## ce.
Definition impacts_compatible (rules : gmap string (list string)) (mine held : gset string) : Prop :=
  ∀ a b, a ∈ mine → b ∈ held → impacts_conflict a b rules = false.

Lemma fence_conflicts_nil {F} `{Countable F, BTreeKey F} (se ss ce cs : gset F) :
  fence_conflicts se ss ce cs = [] ↔ fences_compatible se ss ce cs.
Proof.
  split.
  - intros Hnil.
    assert (∀ x, x ∉ fence_conflicts se ss ce cs) as Hno
      by (rewrite Hnil; intros x; apply not_elem_of_nil).
    split_and!; intros x Hx Hy; apply (Hno x); apply elem_of_fence_conflicts; auto.
  - intros (H1 & H2 & H3). destruct (fence_conflicts _ _ _ _) as [|x l] eqn:E; [done|]. assert (x ∈ fence_conflicts se ss ce cs) as Hx by (rewrite E; by left).
    apply elem_of_fence_conflicts in Hx. set_solver.
Qed.

Lemma impact_conflicts_nil mine held rules :
  impact_conflicts mine held rules = [] ↔ impacts_compatible rules mine held.
Proof.
  split.
  - intros Hnil a b Ha Hb. destruct (impacts_conflict a b rules) eqn:E; [|done].
    assert ((a, b) ∈ impact_conflicts mine held rules) as Hin by by apply elem_of_impact_conflicts.
    rewrite Hnil in Hin. by apply not_elem_of_nil in Hin.
  - intros Hc. destruct (impact_conflicts mine held rules) as [|[a b] l] eqn:E; [done|].
    assert ((a, b) ∈ impact_conflicts mine held rules) as Hin by (rewrite E; by left).
    apply elem_of_impact_conflicts in Hin as (Ha & Hb & Hi). specialize (Hc a b Ha Hb). congruence.
Qed.

(** Two claims that may hold leases at the same time, scalars aside. *)
Definition claims_compatible (rules : gmap string (list string)) (a b : ResolvedClaims) : Prop :=
  fences_compatible (cl_exclusive_fences a) (cl_shared_fences a)
    (cl_exclusive_fences b) (cl_shared_fences b) ∧
  impacts_compatible rules (cl_impacts a) (cl_impacts b).
Definition scoped_compatible (rules : gmap string (list string)) (a b : ScopedClaims) : Prop :=
  fences_compatible (sc_exclusive_fences a) (sc_shared_fences a)
    (sc_exclusive_fences b) (sc_shared_fences b) ∧
  impacts_compatible rules (sc_impacts a) (sc_impacts b).

(** The common shape of the non-scalar reports: nothing for any holder. *)
Lemma holder_report_nil {A F} `{Countable F, BTreeKey F} (fb : F → Blocker)
    (ib : string * string → Blocker) (se ss : gset F) (mine : gset string)
    (ce cs : A → gset F) (held : A → gset string) rules (active : list A) :
  concat (map (λ claim, map fb (fence_conflicts se ss (ce claim) (cs claim))
    ++ map ib (impact_conflicts mine (held claim) rules)) active) = [] ↔
  Forall (λ claim, fences_compatible se ss (ce claim) (cs claim) ∧
                   impacts_compatible rules mine (held claim)) active.
Proof.
  rewrite concat_map_nil, Forall_forall. apply forall_proper; intros claim.
  split; intros Hx Hin; specialize (Hx Hin).
  - apply app_nil in Hx as [Hf Hi]. apply map_eq_nil in Hf, Hi.
    by rewrite <-fence_conflicts_nil, <-impact_conflicts_nil.
  - destruct Hx as [Hf Hi]. apply fence_conflicts_nil in Hf. apply impact_conflicts_nil in Hi.
    by rewrite Hf, Hi.
Qed.

Lemma non_scalar_blockers_nil claims active rules :
  non_scalar_blockers claims active rules = [] ↔ Forall (claims_compatible rules claims) active.
Proof. unfold non_scalar_blockers. rewrite sort_blockers_nil. apply holder_report_nil. Qed.

(** native admission through the one-root topology never panics and reports
    exactly what the flat scalar and non-scalar reports say: the fast path and
    the hierarchical kernel are the same decision. *)
Theorem native_blockers_match_flat_reports claims c active rules
    (Hu : claims_u64 claims) (Hact : Forall claims_u64 active) :
  blockers uuid_to_string claims c active rules =
  Some (sort_blockers (scalar_blockers claims c active ++ non_scalar_blockers claims active rules)).
Proof. by apply legacy_blockers_total. Qed.

(** C36: native admission lets a claim through exactly when its whole scalar
    vector fits beside the active debits and it conflicts with no held path
    fence and no incompatible impact. *)
Theorem native_admission_spec claims c active rules
    (Hu : claims_u64 claims) (Hact : Forall claims_u64 active) :
  blockers uuid_to_string claims c active rules = Some [] ↔
  vector_fits (scalar_entries claims) (legacy_capacities c) (map scalar_entries active) ∧
  Forall (claims_compatible rules claims) active.
Proof.
  unfold blockers. rewrite legacy_blockers_total by done.
  rewrite <-(scalar_vector_blockers_nil _ _ _ id false), <-non_scalar_blockers_nil.
  unfold scalar_blockers. split.
  - intros [= Hnil]. by apply sort_blockers_nil, app_nil in Hnil.
  - intros [-> ->]. done.
Qed.

(** The managed-wait report is empty exactly when the claim fits beside what
    its ancestors retain: the whole scalar vector, every fence and every
    impact. *)
Theorem ancestor_blockers_spec claims c ancestors rules :
  ancestor_blockers claims c ancestors rules = [] ↔
  vector_fits (scalar_entries claims) (legacy_capacities c) (map scalar_entries ancestors) ∧
  Forall (claims_compatible rules claims) ancestors.
Proof.
  unfold ancestor_blockers. rewrite sort_blockers_nil, app_nil, scalar_vector_blockers_nil.
  by rewrite (holder_report_nil ancestor_fence_blocker (λ p, ancestor_impact_blocker p.1 p.2)).
Qed.

Lemma ScopedClaims_blockers_nil self t active rules :
  ScopedClaims_blockers uuid_to_string self t active rules = [] ↔
  vector_fits (sc_scalars self) (capacities t) (map sc_scalars active) ∧
  Forall (scoped_compatible rules self) active.
Proof.
  unfold ScopedClaims_blockers. rewrite sort_blockers_nil, app_nil, scalar_vector_blockers_nil.
  by rewrite (holder_report_nil (λ f, fence_blocker (display uuid_to_string f))
    (λ p, impact_blocker p.1 p.2)).
Qed.

(** ** Admission histories *)

(** One admission or one release over a fixed topology. *)
Inductive admission_step (t : ResourceTopology) (rules : gmap string (list string)) :
    list ScopedClaims → list ScopedClaims → Prop :=
| step_admit active domain claims sc :
    expand t domain claims = Ok sc →
    ScopedClaims_blockers uuid_to_string sc t active rules = [] →
    admission_step t rules active (sc :: active)
| step_release l1 sc l2 :
    admission_step t rules (l1 ++ sc :: l2) (l1 ++ l2).

Definition pairwise {A} (R : A → A → Prop) (l : list A) : Prop :=
  ∀ l1 a l2 b l3, l = l1 ++ a :: l2 ++ b :: l3 → R a b.

Lemma pairwise_cons {A} (R : A → A → Prop) x l :
  Forall (R x) l → pairwise R l → pairwise R (x :: l).
Proof.
  intros Hx Hl [|y l1] a l2 b l3 Heq; simplify_eq/=; [|by eapply Hl].
  rewrite Forall_forall in Hx. apply Hx. set_solver.
Qed.

Lemma pairwise_delete {A} (R : A → A → Prop) l1 x l2 :
  pairwise R (l1 ++ x :: l2) → pairwise R (l1 ++ l2).
Proof.
  intros Hp. induction l1 as [|y l1 IH]; simpl in *.
  - intros k1 a k2 b k3 ->. by apply (Hp (x :: k1) a k2 b k3).
  - apply pairwise_cons.
    + apply Forall_forall. intros z Hz.
      assert (z ∈ l1 ++ x :: l2) as Hz' by set_solver.
      apply list_elem_of_split in Hz' as (k1 & k2 & Hk).
      apply (Hp [] y k1 z k2). simpl. by rewrite Hk.
    + apply IH. intros k1 a k2 b k3 Heq. apply (Hp (y :: k1) a k2 b k3). simpl. by rewrite Heq.
Qed.

(** What every reachable set of holders satisfies. *)
Definition holders_safe (t : ResourceTopology) rules (active : list ScopedClaims) : Prop :=
  within_capacity (capacities t) (map sc_scalars active) ∧ pairwise (scoped_compatible rules) active.

Lemma holders_safe_step t rules active active' :
  admission_step t rules active active' → holders_safe t rules active → holders_safe t rules active'.
Proof.
  intros [act domain claims sc Hexp [Hfit Hc]%ScopedClaims_blockers_nil|l1 sc l2] [Hw Hp].
  - split; [by apply within_capacity_admit|by apply pairwise_cons].
  - split; [|by eapply pairwise_delete]. intros key. specialize (Hw key).
    rewrite map_app in *. rewrite total_debit_app in *. simpl in Hw.
    rewrite total_debit_cons in Hw. lia.
Qed.

Lemma holders_safe_rtc t rules active active' :
  rtc (admission_step t rules) active active' →
  holders_safe t rules active → holders_safe t rules active'.
Proof. induction 1; eauto using holders_safe_step. Qed.


(** ** Accounting *)
Lemma accounting_total_Ok key claims total :
  accounting_total uuid_to_string key claims = Ok total ↔
  total = total_debit key (map sc_scalars claims) ∧ total ≤ u64_max.
Proof.
  unfold accounting_total. rewrite checked_total_spec.
  fold (total_debit key (map sc_scalars claims)).
  case_decide; simpl; split; [by intros [= <-]|by intros [-> _]|done|intros [-> ?]; lia].
Qed.

End facts.

(** ** A three-level machine: host 1, virtual machine 2, guest 3 *)
Module ThreeLevel.
Definition show (u : Uuid) : string := pretty u.
Definition budget (id : Uuid) (parent : option Uuid) (cpu ram : N) : DomainBudget :=
  {| db_id := id; db_parent := parent;
     db_capacities := {["cpu_units" := cpu; "ram_mb" := ram; "cargo_slots" := 2]} |}.
Definition domains : list DomainBudget :=
  [budget 1 None 16 32768; budget 2 (Some 1) 8 12288; budget 3 (Some 2) 6 10240].
Definition topology : ResourceTopology :=
  {| rt_root := 1; rt_domains := {[1 := budget 1 None 16 32768; 2 := budget 2 (Some 1) 8 12288;
                                   3 := budget 3 (Some 2) 6 10240]}; rt_aliases := ∅ |}.
Definition work (cpu ram cargo : N) : ResolvedClaims :=
  {| cl_cpu_units := cpu; cl_ram_mb := ram; cl_cargo_slots := cargo; cl_gpu_slots := 0;
     cl_custom := ∅; cl_shared_fences := ∅; cl_exclusive_fences := {["C:\out"]};
     cl_impacts := ∅ |}.
Definition expanded : ScopedClaims :=
  unwrap_or no_scoped_claims (expand topology 3 (work 4 6144 1)).
Definition host_capacities : ResourceCapacities :=
  {| cap_cpu_units := 16; cap_ram_mb := 32768; cap_cargo_slots := 2; cap_gpu_slots := 0;
     cap_custom := ∅ |}.

Lemma topology_new : ResourceTopology_new 1 domains ∅ = Ok topology.
Proof. vm_compute. reflexivity. Qed.

Lemma keyed_topology : keyed topology.
Proof. apply (wf_keyed _ (ResourceTopology_new_wf _ _ _ _ topology_new)). Qed.

Lemma ancestors_spec_witness :
  leads_to_root topology 3 [budget 3 (Some 2) 6 10240; budget 2 (Some 1) 8 12288;
                            budget 1 None 16 32768].
Proof. apply (ancestors_spec topology keyed_topology 3). vm_compute. reflexivity. Defined.

Lemma topology_new_is_tree_witness : wf_topology topology.
Proof. apply (topology_new_is_tree 1 domains ∅ topology topology_new). Defined.

Lemma expand_work : expand topology 3 (work 4 6144 1) = Ok expanded.
Proof. apply is_ok_unwrap_or. vm_compute. reflexivity. Qed.

Lemma expand_counts_once_witness :
  sc_scalars expanded !! scalar_id 1 "cpu_units" = Some 4.
Proof.
  destruct (expand_counts_once topology (ResourceTopology_new_wf _ _ _ _ topology_new) 3
    (work 4 6144 1) expanded expand_work) as (_ & Hroot & _).
  etrans; [apply (Hroot "cpu_units"%string)|]; vm_compute; reflexivity.
Defined.

Lemma work_u64 cpu ram cargo : cpu ≤ 100000 → ram ≤ 100000 → cargo ≤ 100000 →
  claims_u64 (work cpu ram cargo).
Proof.
  intros ? ? ? name v Hv. unfold scalar_entries in Hv.
  apply lookup_btree_extend_Some in Hv as [Hv|Hv]; simpl in Hv; [|by rewrite lookup_empty in Hv].
  rewrite !elem_of_cons, elem_of_nil in Hv. unfold u64_max. destruct_or!; simplify_eq; lia.
Qed.

Lemma native_blockers_match_flat_reports_witness :
  is_Some (blockers show (work 4 100 1) host_capacities [work 2 50 1] ∅).
Proof.
  eexists. apply (native_blockers_match_flat_reports show (work 4 100 1) host_capacities
    [work 2 50 1] ∅); [apply work_u64; lia|].
  repeat constructor. apply work_u64; lia.
Defined.

Lemma native_admission_spec_witness :
  ¬ Forall (claims_compatible ∅ (work 4 100 1)) [work 2 50 1].
Proof.
  intros Hc.
  assert (blockers show (work 4 100 1) host_capacities [work 2 50 1] ∅ = Some []) as Hb.
  { apply (native_admission_spec show (work 4 100 1) host_capacities [work 2 50 1] ∅);
      [apply work_u64; lia|repeat constructor; apply work_u64; lia|].
    split; [|exact Hc].
    apply (scalar_vector_blockers_nil _ _ _ id false). vm_compute. reflexivity. }
  vm_compute in Hb. discriminate Hb.
Defined.


Definition rows : list ScopedResourceSnapshot :=
  unwrap_or [] (accounting show topology [expanded] [] [expanded]).


Example accounting_rows :
  map (λ row, (scope (snap_resource row), resource_id (snap_resource row), snap_capacity row,
               snap_granted row, snap_reserved row)) (take 3 rows) =
  [(1, "cargo_slots"%string, 2, 1, 1); (1, "cpu_units"%string, 16, 4, 4);
   (1, "ram_mb"%string, 32768, 6144, 6144)].
Proof. vm_compute. reflexivity. Qed.
End ThreeLevel.
