(* ===== verification/Observation.v ===== *)
(** * Observation: host evidence and the admission policy on it
    ([src/src/host_observation/evidence.rs] and [policy.rs])

    A host sample carries one timestamped component per provider.  The policy
    turns a request, the host configuration and a sample into the blockers that
    keep the request waiting.  The loops that push into shared vectors are
    written as pairs of lists appended in source order. *)
From S2P Require Import Prelude Spec Validate Kernel Scoped.

(** ** Evidence *)
Inductive ComponentValue (T : Type) :=
| Available (value : T)
| Unavailable (detail : string)
| CError (detail : string).
Arguments Available {T} value.
Arguments Unavailable {T} detail.
Arguments CError {T} detail.

Record ComponentEvidence (T : Type) := {
  ce_captured_unix_millis : Z;
  ce_captured_monotonic_millis : N;
  ce_value : ComponentValue T;
}.
Arguments ce_captured_unix_millis {T} _.
Arguments ce_captured_monotonic_millis {T} _.
Arguments ce_value {T} _.

Inductive EvidenceFailure :=
| Stale (age_millis : N)
| FUnavailable (detail : string)
| FError (detail : string)
| ClockDiscontinuity.

Definition value_if_fresh {T} (e : ComponentEvidence T) (now_monotonic_millis max_age_millis : N)
    : result EvidenceFailure T :=
  age ← ok_or (checked_sub now_monotonic_millis (ce_captured_monotonic_millis e)) ClockDiscontinuity;
  _ ← guard_err (bool_decide (max_age_millis < age)) (Stale age);
  match ce_value e with
  | Available value => Ok value
  | Unavailable detail => Err (FUnavailable detail)
  | CError detail => Err (FError detail)
  end.

Record MemoryEvidence := {
  available_physical_mb : N;
  commit_headroom_mb : option N;
}.

Definition headroom_mb (m : MemoryEvidence) : N :=
  match commit_headroom_mb m with
  | Some commit => N.min (available_physical_mb m) commit
  | None => available_physical_mb m
  end.

Record ProcessEvidence := { proc_pid : N; proc_basename : string }.

Record GpuEvidence := {
  gpu_uuid : string;
  gpu_driver_version : string;
  gpu_free_memory_mb : N;
  gpu_utilization_percent : N;
  gpu_compute_processes : list ProcessEvidence;
}.

Record HostSample := {
  hs_observation_generation : Uuid;
  hs_captured_unix_millis : Z;
  hs_captured_monotonic_millis : N;
  hs_memory : ComponentEvidence MemoryEvidence;
  hs_cpu_utilization : ComponentEvidence N;
  hs_disk_utilization : ComponentEvidence N;
  hs_processes : ComponentEvidence (list ProcessEvidence);
  hs_gpus : ComponentEvidence (gmap string GpuEvidence);
}.

(** ** Reports ([src/src/api.rs]) *)
Record ObservedOperandSnapshot := {
  oo_name : string;
  oo_requested : N;
  oo_configured_capacity : option N;
  oo_observed : option N;
  oo_safety_margin : N;
  oo_granted_debit : option N;
  oo_satisfied : bool;
}.

Record DetectorEvidenceSnapshot := {
  de_detector : string;
  de_observed : option N;
  de_threshold : option N;
  de_satisfied : bool;
  de_detail : option string;
}.

Record AdmissionContext := {
  ac_evaluated_unix_millis : Z;
  ac_evaluated_monotonic_millis : N;
  ac_observation_generation : Uuid;
  ac_blockers : list Blocker;
  ac_non_quiet_blockers : list Blocker;
  ac_quiet_blockers : list Blocker;
  ac_quiet_sample_satisfied : bool;
  ac_gpu_uuid : option string;
  ac_gpu_driver_version : option string;
  ac_operands : list ObservedOperandSnapshot;
  ac_detectors : list DetectorEvidenceSnapshot;
}.

Record ObservationRequest := {
  or_resources : ResourceClaims;
  or_observed : option ObservedResourcePolicy;
  or_quiet : option QuietPolicy;
}.

(** ** Process patterns *)

(** [str::find]: the leftmost occurrence of [needle], as what is before it
    and what is after it. *)
Fixpoint find (needle hay : string) : option (string * string) :=
  match strip_prefix needle hay with
  | Some rest => Some (EmptyString, rest)
  | None =>
      match hay with
      | EmptyString => None
      | String c hay' => '(before, rest) ← find needle hay'; Some (String c before, rest)
      end
  end.

(** [str::split] on one character: never empty. *)
Fixpoint split_on (sep : ascii) (s : string) : list string :=
  match s with
  | EmptyString => [EmptyString]
  | String c s' =>
      if decide (c = sep) then EmptyString :: split_on sep s'
      else match split_on sep s' with
           | part :: parts => String c part :: parts
           | [] => [String c EmptyString]
           end
  end.

(** [str::ends_with]. *)
Fixpoint ends_with (suffix s : string) : bool :=
  bool_decide (s = suffix) ||
  match s with EmptyString => false | String _ s' => ends_with suffix s' end.

Definition star : ascii := ascii_of_N 42.

(** The loop over the parts; [rest] is [value[offset..]]. *)
Fixpoint match_parts (anchored : bool) (rest : string) (parts : list string) : bool :=
  match parts with
  | [] => true
  | part :: parts =>
      if bool_decide (part = EmptyString) then match_parts false rest parts
      else match find part rest with
           | None => false
           | Some (before, rest') =>
               if anchored && negb (bool_decide (before = EmptyString)) then false
               else match_parts false rest' parts
           end
  end.

Definition wildcard_match (value pattern : string) : bool :=
  let value := to_ascii_lowercase value in
  let pattern := to_ascii_lowercase pattern in
  let parts := split_on star pattern in
  if decide (length parts = 1%nat) then bool_decide (value = pattern)
  else
    match_parts (negb (starts_with (String star EmptyString) pattern)) value parts
    && (ends_with (String star EmptyString) pattern
        || match last parts with Some part => ends_with part value | None => true end).

Definition matches_any (value : string) (patterns : list string) : bool :=
  existsb (wildcard_match value) patterns.

(** ** Blockers of evidence *)
Definition evidence_blocker (name : string) (failure : EvidenceFailure) : Blocker :=
  match failure with
  | Stale age => {| blocker_code := "observation_stale";
      blocker_detail := name +:+ " evidence age " +:+ pretty age +:+ "ms exceeds policy" |}
  | FUnavailable detail | FError detail =>
      {| blocker_code := "detector_unavailable"; blocker_detail := name +:+ ": " +:+ detail |}
  | ClockDiscontinuity => {| blocker_code := "observation_stale";
      blocker_detail := name +:+ ": monotonic clock moved behind capture" |}
  end.

Definition resource_evidence_blocker (name : string) (failure : EvidenceFailure) : Blocker :=
  match failure with
  | Stale age => {| blocker_code := "observation_stale";
      blocker_detail := name +:+ " evidence age " +:+ pretty age +:+ "ms exceeds host policy" |}
  | FUnavailable detail | FError detail =>
      {| blocker_code := "observation_missing"; blocker_detail := name +:+ ": " +:+ detail |}
  | ClockDiscontinuity => {| blocker_code := "observation_stale";
      blocker_detail := name +:+ ": monotonic clock moved behind capture" |}
  end.

Definition checked_granted (name : string) (values : list N) : result Blocker N :=
  ok_or (checked_total values)
    {| blocker_code := "observation_unusable";
       blocker_detail := name +:+ ": granted debit sum overflow" |}.

Definition option_list {A} (o : option A) : list A := match o with Some a => [a] | None => [] end.

(** [gpu_slots.unwrap_or(0) > 0 || custom.keys().any(vram)]. *)
Definition gpu_resources_required (r : ResourceClaims) : bool :=
  bool_decide (0 < default 0 (rc_gpu_slots r))
  || existsb (starts_with vram_prefix) (btree_keys (rc_custom r)).

Definition gpu_observed_required (o : option ObservedResourcePolicy) : bool :=
  match o with
  | Some policy => negb (bool_decide (obs_gpu_utilization_percent_at_most policy = ∅))
  | None => false
  end.

Definition is_gpu_detector (d : QuietDetector) : bool :=
  match d with GpuUtilization _ _ | ForeignGpuCompute _ => true | _ => false end.

Definition quiet_gpu_required (q : option QuietPolicy) : bool :=
  match q with Some quiet => existsb is_gpu_detector (quiet_detectors quiet) | None => false end.

Definition non_quiet_gpu_required (job : ObservationRequest) : bool :=
  gpu_resources_required (or_resources job) || gpu_observed_required (or_observed job).

Definition required_gpu_max_age (job : ObservationRequest) (config : HostConfig) : option N :=
  list_min
    ((if gpu_resources_required (or_resources job)
      then [hoc_memory_max_sample_age_millis (host_observation config)] else [])
     ++ (match or_observed job with
         | Some policy => if gpu_observed_required (or_observed job)
             then [saturating_mul (obs_max_sample_age_seconds policy) 1000] else []
         | None => [] end)
     ++ (match or_quiet job with
         | Some quiet => if quiet_gpu_required (or_quiet job)
             then [saturating_mul (quiet_max_sample_age_seconds quiet) 1000] else []
         | None => [] end)).

(** ** Components of [evaluate_request] *)

(** The [ram_mb] block. *)
Definition evaluate_ram (job : ObservationRequest) (config : HostConfig) (sample : HostSample)
    (granted : list ResolvedClaims) (now_monotonic_millis : N)
    : list Blocker * list ObservedOperandSnapshot :=
  match rc_ram_mb (or_resources job) with
  | None => ([], [])
  | Some requested =>
      let margin := hoc_ram_safety_margin_mb (host_observation config) in
      let operand observed debit satisfied :=
        {| oo_name := "ram_mb"; oo_requested := requested;
           oo_configured_capacity := Some (cap_ram_mb (host_resources config));
           oo_observed := observed; oo_safety_margin := margin; oo_granted_debit := debit;
           oo_satisfied := satisfied |} in
      match value_if_fresh (hs_memory sample) now_monotonic_millis
              (hoc_memory_max_sample_age_millis (host_observation config)) with
      | Ok memory =>
          match checked_granted "ram_mb" (map cl_ram_mb granted) with
          | Ok debit =>
              let blocker := observed_resource_blocker "ram_mb" requested (headroom_mb memory) margin debit in
              (option_list blocker,
               [operand (Some (headroom_mb memory)) (Some debit) (bool_decide (blocker = None))])
          | Err blocker => ([blocker], [operand (Some (headroom_mb memory)) None false])
          end
      | Err failure => ([resource_evidence_blocker "ram_mb" failure], [operand None None false])
      end
  end.

(** The GPU block: the selected device, non-quiet and quiet blockers. *)
Definition select_gpu (job : ObservationRequest) (config : HostConfig) (sample : HostSample)
    (now_monotonic_millis : N) : option GpuEvidence * list Blocker * list Blocker :=
  let placement := hoc_gpu_slot_uuid (host_observation config) ≫= λ uuid,
                   result_ok (canonical_gpu_uuid uuid) in
  let non_quiet := non_quiet_gpu_required job in
  let quiet := quiet_gpu_required (or_quiet job) in
  let report (b q : Blocker) := ((if non_quiet then [b] else []), (if quiet then [q] else [])) in
  match placement with
  | None =>
      if non_quiet || quiet then
        let blocker := {| blocker_code := "gpu_placement_unconfigured";
                          blocker_detail := "GPU-dependent Job requires host gpu_slot_uuid" |} in
        (None, (report blocker blocker).1, (report blocker blocker).2)
      else (None, [], [])
  | Some placement =>
      match required_gpu_max_age job config with
      | None => (None, [], [])
      | Some max_age =>
          match value_if_fresh (hs_gpus sample) now_monotonic_millis max_age with
          | Ok gpus =>
              match gpus !! placement with
              | Some evidence => (Some evidence, [], [])
              | None =>
                  let detail := "configured GPU " +:+ placement
                                +:+ " is absent from current NVML topology" in
                  let r := report {| blocker_code := "observation_missing"; blocker_detail := detail |}
                                  {| blocker_code := "detector_unavailable"; blocker_detail := detail |} in
                  (None, r.1, r.2)
              end
          | Err failure =>
              let r := report (resource_evidence_blocker "nvml" failure)
                              (evidence_blocker "nvml" failure) in
              (None, r.1, r.2)
          end
      end
  end.

(** One [vram_mb:] claim of [evaluate_vram]. *)
Definition evaluate_vram_claim (config : HostConfig) (gpu : GpuEvidence)
    (granted : list ResolvedClaims) (name : string) (requested : N)
    : list Blocker * list ObservedOperandSnapshot :=
  let canonical_name := vram_prefix +:+ gpu_uuid gpu in
  let margin := hoc_vram_safety_margin_mb (host_observation config) in
  let configured := match cap_custom (host_resources config) !! name with
    | Some capacity => Some capacity
    | None => snd <$> List.find (λ p, eq_ignore_ascii_case p.1 canonical_name)
                        (btree_entries (cap_custom (host_resources config)))
    end in
  let operand debit satisfied :=
    {| oo_name := canonical_name; oo_requested := requested; oo_configured_capacity := configured;
       oo_observed := Some (gpu_free_memory_mb gpu); oo_safety_margin := margin;
       oo_granted_debit := debit; oo_satisfied := satisfied |} in
  match checked_granted name (map (λ claims, default 0 (cl_custom claims !! canonical_name)) granted) with
  | Err blocker => ([blocker], [operand None false])
  | Ok debit =>
      let blocker := observed_resource_blocker name requested (gpu_free_memory_mb gpu) margin debit in
      (option_list blocker, [operand (Some debit) (bool_decide (blocker = None))])
  end.

Definition evaluate_vram (job : ObservationRequest) (config : HostConfig) (gpu : GpuEvidence)
    (granted : list ResolvedClaims) : list Blocker * list ObservedOperandSnapshot :=
  let rs := map (λ p, evaluate_vram_claim config gpu granted p.1 p.2)
              (List.filter (λ p, starts_with vram_prefix p.1) (btree_entries (rc_custom (or_resources job)))) in
  (concat rs.*1, concat rs.*2).

Definition evaluate_observed_cpu (job : ObservationRequest) (sample : HostSample)
    (now_monotonic_millis : N) : list Blocker * list DetectorEvidenceSnapshot :=
  match or_observed job with
  | None => ([], [])
  | Some policy =>
      match obs_cpu_utilization_percent_at_most policy with
      | None => ([], [])
      | Some threshold =>
          let max_age := saturating_mul (obs_max_sample_age_seconds policy) 1000 in
          let '(observed, blocker) :=
            match value_if_fresh (hs_cpu_utilization sample) now_monotonic_millis max_age with
            | Ok value =>
                (Some value,
                 if decide (value ≤ threshold) then None
                 else Some {| blocker_code := "observed_resource_busy";
                              blocker_detail := "cpu_utilization observed " +:+ pretty value
                                +:+ "%, threshold " +:+ pretty threshold +:+ "%" |})
            | Err failure => (None, Some (evidence_blocker "cpu_utilization" failure))
            end in
          (option_list blocker,
           [{| de_detector := "observed.cpu_utilization"; de_observed := observed;
               de_threshold := Some threshold; de_satisfied := bool_decide (blocker = None);
               de_detail := blocker_detail <$> blocker |}])
      end
  end.

(** One entry of the GPU loop of [evaluate_observed]. *)
Definition evaluate_observed_gpu (gpu : GpuEvidence) (max_age : N) (uuid : string) (threshold : N)
    : list Blocker * list DetectorEvidenceSnapshot :=
  if bool_decide (result_ok (canonical_gpu_uuid uuid) = Some (gpu_uuid gpu)) then
    let blocker :=
      if bool_decide (threshold < gpu_utilization_percent gpu) then
        Some {| blocker_code := "observed_resource_busy";
                blocker_detail := "gpu_utilization:" +:+ gpu_uuid gpu +:+ " observed "
                  +:+ pretty (gpu_utilization_percent gpu) +:+ "%, threshold " +:+ pretty threshold
                  +:+ "%, max_age " +:+ pretty max_age +:+ "ms" |}
      else None in
    (option_list blocker,
     [{| de_detector := "observed.gpu_utilization:" +:+ gpu_uuid gpu;
         de_observed := Some (gpu_utilization_percent gpu); de_threshold := Some threshold;
         de_satisfied := bool_decide (blocker = None); de_detail := blocker_detail <$> blocker |}])
  else ([], []).

Definition evaluate_observed (job : ObservationRequest) (sample : HostSample) (gpu : GpuEvidence)
    (now_monotonic_millis : N) : list Blocker * list DetectorEvidenceSnapshot :=
  let cpu := evaluate_observed_cpu job sample now_monotonic_millis in
  match or_observed job with
  | None => cpu
  | Some policy =>
      let max_age := saturating_mul (obs_max_sample_age_seconds policy) 1000 in
      let rs := map (λ p, evaluate_observed_gpu gpu max_age p.1 p.2)
                  (btree_entries (obs_gpu_utilization_percent_at_most policy)) in
      (cpu.1 ++ concat rs.*1, cpu.2 ++ concat rs.*2)
  end.

(** ** Quiet detectors *)
Definition component_value (e : ComponentEvidence N) (now_monotonic_millis max_age_millis : N)
    : option N :=
  result_ok (value_if_fresh e now_monotonic_millis max_age_millis).

Definition compare_component (name : string) (e : ComponentEvidence N) (threshold : N)
    (now_monotonic_millis max_age_millis : N) : result Blocker unit :=
  match value_if_fresh e now_monotonic_millis max_age_millis with
  | Ok value =>
      if decide (value ≤ threshold) then Ok tt
      else Err {| blocker_code := "quiet_contaminated";
                  blocker_detail := name +:+ " observed " +:+ pretty value
                    +:+ "%, threshold " +:+ pretty threshold +:+ "%" |}
  | Err failure => Err (evidence_blocker name failure)
  end.

Fixpoint blocked_process (config : HostConfig) (processes : list ProcessEvidence)
    : result Blocker unit :=
  let rules := hoc_process_rules (host_observation config) in
  match processes with
  | [] => Ok tt
  | process :: processes =>
      if matches_any (proc_basename process) (rules_ignore rules) then blocked_process config processes
      else if matches_any (proc_basename process) (rules_block rules) then
        Err {| blocker_code := "quiet_contaminated";
               blocker_detail := "blocked_process pid=" +:+ pretty (proc_pid process)
                 +:+ " basename=" +:+ proc_basename process |}
      else blocked_process config processes
  end.

(** The [GpuUtilization] arm. *)
Definition gpu_utilization_result (gpu : option GpuEvidence) (max_percent : N)
    : result Blocker unit :=
  match gpu with
  | None => Err {| blocker_code := "detector_unavailable";
                   blocker_detail := "GPU utilization has no fresh evidence" |}
  | Some gpu =>
      if decide (gpu_utilization_percent gpu ≤ max_percent) then Ok tt
      else Err {| blocker_code := "quiet_contaminated";
                  blocker_detail := "gpu_utilization:" +:+ gpu_uuid gpu +:+ " observed "
                    +:+ pretty (gpu_utilization_percent gpu) +:+ "%, threshold "
                    +:+ pretty max_percent +:+ "%" |}
  end.

(** The [ForeignGpuCompute] arm. *)
Definition foreign_gpu_result (config : HostConfig) (gpu : option GpuEvidence)
    : result Blocker unit :=
  match gpu with
  | None => Err {| blocker_code := "detector_unavailable";
                   blocker_detail := "GPU compute process evidence unavailable" |}
  | Some gpu =>
      match List.find (λ process, negb (matches_any (proc_basename process)
              (rules_ignore (hoc_process_rules (host_observation config)))))
              (gpu_compute_processes gpu) with
      | None => Ok tt
      | Some process =>
          Err {| blocker_code := "quiet_contaminated";
                 blocker_detail := "foreign_gpu_compute:" +:+ gpu_uuid gpu +:+ " pid="
                   +:+ pretty (proc_pid process) +:+ " basename=" +:+ proc_basename process |}
      end
  end.

(** The tuple [(name, observed, threshold, result)] of one detector. *)
Definition detector_result (config : HostConfig) (sample : HostSample) (gpu : option GpuEvidence)
    (now max_age : N) (d : QuietDetector) : string * option N * option N * result Blocker unit :=
  match d with
  | CpuUtilization max_percent =>
      ("quiet.cpu_utilization"%string, component_value (hs_cpu_utilization sample) now max_age,
       Some max_percent,
       compare_component "cpu_utilization" (hs_cpu_utilization sample) max_percent now max_age)
  | DiskUtilization max_percent =>
      ("quiet.disk_utilization"%string, component_value (hs_disk_utilization sample) now max_age,
       Some max_percent,
       compare_component "disk_utilization" (hs_disk_utilization sample) max_percent now max_age)
  | GpuUtilization _ max_percent =>
      ("quiet.gpu_utilization"%string, gpu_utilization_percent <$> gpu, Some max_percent,
       gpu_utilization_result gpu max_percent)
  | ForeignGpuCompute _ =>
      ("quiet.foreign_gpu_compute"%string,
       (λ gpu, N.of_nat (length (gpu_compute_processes gpu))) <$> gpu, Some 0,
       foreign_gpu_result config gpu)
  | BlockedProcesses =>
      let rules := hoc_process_rules (host_observation config) in
      ("quiet.blocked_processes"%string,
       (λ processes, N.of_nat (length (List.filter (λ process,
          negb (matches_any (proc_basename process) (rules_ignore rules))
          && matches_any (proc_basename process) (rules_block rules)) processes)))
         <$> result_ok (value_if_fresh (hs_processes sample) now max_age),
       Some 0,
       match value_if_fresh (hs_processes sample) now max_age with
       | Ok processes => blocked_process config processes
       | Err failure => Err (evidence_blocker "blocked_processes" failure)
       end)
  end.

Definition result_err {E A} (r : result E A) : option E :=
  match r with Ok _ => None | Err e => Some e end.

Definition detector_snapshot (r : string * option N * option N * result Blocker unit)
    : DetectorEvidenceSnapshot :=
  let '(name, observed, threshold, outcome) := r in
  {| de_detector := name; de_observed := observed; de_threshold := threshold;
     de_satisfied := is_ok outcome; de_detail := blocker_detail <$> result_err outcome |}.

(** The returned flag, the blockers and the detector reports. *)
Definition evaluate_quiet (job : ObservationRequest) (config : HostConfig) (sample : HostSample)
    (gpu : option GpuEvidence) (now_monotonic_millis : N)
    : bool * list Blocker * list DetectorEvidenceSnapshot :=
  match or_quiet job with
  | None => (true, [], [])
  | Some quiet =>
      let max_age := saturating_mul (quiet_max_sample_age_seconds quiet) 1000 in
      let rs := map (detector_result config sample gpu now_monotonic_millis max_age)
                  (quiet_detectors quiet) in
      (forallb (λ r, is_ok r.2) rs, omap (λ r, result_err r.2) rs, map detector_snapshot rs)
  end.

Definition evaluate_request (job : ObservationRequest) (config : HostConfig) (sample : HostSample)
    (granted : list ResolvedClaims) (now_unix_millis : Z) (now_monotonic_millis : N)
    : AdmissionContext :=
  let ram := evaluate_ram job config sample granted now_monotonic_millis in
  let '(gpu, gpu_blockers, gpu_quiet_blockers) := select_gpu job config sample now_monotonic_millis in
  let vram := match gpu with Some gpu => evaluate_vram job config gpu granted | None => ([], []) end in
  let observed := match gpu with
    | Some gpu => evaluate_observed job sample gpu now_monotonic_millis
    | None => evaluate_observed_cpu job sample now_monotonic_millis end in
  let '(quiet_sample_satisfied, detector_blockers, detectors) :=
    evaluate_quiet job config sample gpu now_monotonic_millis in
  let non_quiet_blockers := sort_blockers (ram.1 ++ gpu_blockers ++ vram.1 ++ observed.1) in
  let quiet_blockers := sort_blockers (gpu_quiet_blockers ++ detector_blockers) in
  {| ac_evaluated_unix_millis := now_unix_millis;
     ac_evaluated_monotonic_millis := now_monotonic_millis;
     ac_observation_generation := hs_observation_generation sample;
     ac_blockers := sort_blockers (non_quiet_blockers ++ quiet_blockers);
     ac_non_quiet_blockers := non_quiet_blockers;
     ac_quiet_blockers := quiet_blockers;
     ac_quiet_sample_satisfied := quiet_sample_satisfied;
     ac_gpu_uuid := gpu_uuid <$> gpu;
     ac_gpu_driver_version := gpu_driver_version <$> gpu;
     ac_operands := ram.2 ++ vram.2;
     ac_detectors := observed.2 ++ detectors |}.

Definition evaluate_admission (job : JobSpec) (config : HostConfig) (sample : HostSample)
    (granted : list ResolvedClaims) (now_unix_millis : Z) (now_monotonic_millis : N)
    : AdmissionContext :=
  evaluate_request {| or_resources := job_resources job; or_observed := job_observed job;
                      or_quiet := job_quiet job |}
    config sample granted now_unix_millis now_monotonic_millis.

(** ** The quiet interval *)
Section quiet.
Context (uuid_to_string : Uuid → string).

Definition quiet_budget (consumed : N) (previous_generation : option string)
    (previous_millis : option N) (context : AdmissionContext) : N :=
  let generation := uuid_to_string (ac_observation_generation context) in
  let additional :=
    match previous_generation, previous_millis with
    | Some previous_generation, Some previous =>
        if decide (previous_generation = generation)
        then saturating_sub (ac_evaluated_monotonic_millis context) previous else 0
    | _, _ => 0
    end in
  saturating_add consumed additional.

Definition quiet_stability (previous_generation : option string)
    (previous_first previous_last : option N) (context : AdmissionContext) (maximum_gap_millis : N)
    : option N * option N :=
  if negb (ac_quiet_sample_satisfied context) || negb (bool_decide (ac_quiet_blockers context = []))
  then (None, None)
  else
    let generation := uuid_to_string (ac_observation_generation context) in
    let continues :=
      bool_decide (previous_generation = Some generation)
      && match previous_last ≫= λ last, checked_sub (ac_evaluated_monotonic_millis context) last with
         | Some gap => bool_decide (gap ≤ maximum_gap_millis)
         | None => false
         end in
    ((if continues then previous_first else Some (ac_evaluated_monotonic_millis context)),
     Some (ac_evaluated_monotonic_millis context)).
End quiet.
