(* ===== verification/ObservationFacts.v ===== *)
(** * ObservationFacts: process patterns, fail-closed evaluation and the quiet interval *)
From S2P Require Import Prelude Spec Validate Kernel Scoped Observation.

(** ** Process patterns against a declarative glob *)

(** [*] stands for any text, every other character for itself. *)
Inductive glob : string → string → Prop :=
| glob_nil : glob "" ""
| glob_char c p v : c ≠ star → glob p v → glob (String c p) (String c v)
| glob_star p v1 v2 : glob p v2 → glob (String star p) (v1 +:+ v2).

(** Of two endings of one text, the shorter is an ending of the longer. *)
Lemma suffix_of_suffix a x b y :
  a +:+ x = b +:+ y → len y ≤ len x → ∃ z, x = z +:+ y.
Proof.
  revert b. induction a as [|c a IH]; intros b Heq Hlen; [by exists b|].
  rewrite app_cons_s in Heq.
  destruct b as [|d b]; [|rewrite app_cons_s in Heq; injection Heq as _ Heq; by apply (IH b)].
  exfalso. apply (f_equal len) in Heq. rewrite <-app_cons_s, !len_app in Heq.
  unfold len in *. simpl in *. lia.
Qed.

Lemma find_None n h : find n h = None → ∀ b r, h ≠ b +:+ (n +:+ r).
Proof.
  induction h as [|c h IH]; simpl.
  - destruct (strip_prefix n "") eqn:E; [done|]. intros _ b r Heq.
    destruct b; [|done]. change ("" +:+ (n +:+ r)) with (n +:+ r) in Heq.
    symmetry in Heq. rewrite <-Heq in E. by rewrite strip_prefix_app in E.
  - destruct (strip_prefix n (String c h)) eqn:E; [done|].
    destruct (find n h) as [[b0 r0]|]; [done|]. intros _ b r Heq.
    destruct b as [|d b].
    + change ("" +:+ (n +:+ r)) with (n +:+ r) in Heq. rewrite Heq in E.
      by rewrite strip_prefix_app in E.
    + rewrite app_cons_s in Heq.
      injection Heq as _ Heq. by apply (IH eq_refl b r).
Qed.

(** The occurrence found is the leftmost: what follows any other one is an
    ending of what follows it. *)
Lemma find_Some n h b r :
  find n h = Some (b, r) →
  h = b +:+ (n +:+ r) ∧ ∀ b' r', h = b' +:+ (n +:+ r') → ∃ x, r = x +:+ r'.
Proof.
  revert b. induction h as [|c h IH]; intros b; simpl.
  - destruct (strip_prefix n "") as [r0|] eqn:E; [|done]. intros [= <- <-].
    apply strip_prefix_Some in E. split; [done|]. intros b' r' Heq.
    assert (r0 = "") as -> by (destruct n; [by destruct r0|done]).
    destruct b'; [|done]. destruct n; [|done]. exists "". by destruct r'.
  - destruct (strip_prefix n (String c h)) as [r0|] eqn:E.
    + intros [= <- <-]. apply strip_prefix_Some in E. split; [done|]. intros b' r' Heq.
      rewrite E in Heq. rewrite app_assoc_s in Heq. apply (suffix_of_suffix n r0 (b' +:+ n) r' Heq).
      apply (f_equal len) in Heq. rewrite !len_app in Heq. lia.
    + destruct (find n h) as [[b0 r0]|] eqn:F; simpl; [|done]. intros [= <- ->].
      destruct (IH b0 eq_refl) as [-> Hleft].
      split; [done|]. intros [|d b'] r' Heq.
      * change ("" +:+ (n +:+ r')) with (n +:+ r') in Heq. rewrite Heq in E.
        by rewrite strip_prefix_app in E.
      * rewrite app_cons_s in Heq.
        injection Heq as _ Heq. by apply (Hleft b').
Qed.

Lemma ends_with_spec s t : ends_with s t = true ↔ ∃ b, t = b +:+ s.
Proof.
  induction t as [|c t IH]; simpl.
  - rewrite orb_false_r, bool_decide_eq_true. split; [intros <-; by exists ""|].
    intros [b Heq]. by destruct b, s.
  - rewrite orb_true_iff, bool_decide_eq_true, IH. split.
    + intros [<-|[b ->]]; [by exists ""|by exists (String c b)].
    + intros [[|d b] Heq]; [by left|right]. exists b.
      rewrite app_cons_s in Heq. by injection Heq.
Qed.

(** The parts of a pattern, in order, with anything between them. *)
Fixpoint parts_match (parts : list string) (v : string) : Prop :=
  match parts with
  | [] => False
  | part :: parts' =>
      match parts' with
      | [] => v = part
      | _ :: _ => ∃ v1 v2, v = part +:+ (v1 +:+ v2) ∧ parts_match parts' v2
      end
  end.

Lemma split_on_cons sep s : ∃ part parts, split_on sep s = part :: parts.
Proof. destruct s as [|c s]; simpl; [eauto|]. case_decide; [eauto|]. destruct (split_on sep s); eauto. Qed.

Lemma glob_parts p v : glob p v ↔ parts_match (split_on star p) v.
Proof.
  revert v. induction p as [|c p IH]; intros v; simpl.
  { split; [by inversion 1|intros ->; constructor]. }
  destruct (split_on_cons star p) as (part & parts & Hs). case_decide as Hc.
  - subst. rewrite Hs. split.
    + inversion 1; subst; [done|]. exists v1, v2. split; [done|].
      rewrite <-Hs. by apply IH.
    + intros (v1 & v2 & -> & Hm). change ("" +:+ (v1 +:+ v2)) with (v1 +:+ v2).
      constructor. apply IH. by rewrite Hs.
  - rewrite Hs in *. split.
    + inversion 1 as [|c' p' v' _ Hg|]; subst; [|done]. apply IH in Hg.
      destruct parts as [|q parts]; simpl in *; [by subst|].
      destruct Hg as (v1 & v2 & -> & Hm). by exists v1, v2.
    + destruct parts as [|q parts]; simpl.
      * intros ->. constructor; [done|]. by apply IH.
      * intros (v1 & v2 & -> & Hm). constructor; [done|]. apply IH. by exists v1, v2.
Qed.

(** The same, preceded by anything. *)
Definition floating (parts : list string) (v : string) : Prop :=
  ∃ v1 v2, v = v1 +:+ v2 ∧ parts_match parts v2.

Lemma floating_app parts v1 v2 : floating parts v2 → floating parts (v1 +:+ v2).
Proof. intros (a & b & -> & Hm). exists (v1 +:+ a), b. by rewrite app_assoc_s. Qed.

Lemma floating_cons p q parts v :
  floating (p :: q :: parts) v ↔ ∃ b r, v = b +:+ (p +:+ r) ∧ floating (q :: parts) r.
Proof.
  split.
  - intros (b & v2 & -> & (r1 & r2 & -> & Hm)). exists b, (r1 +:+ r2). split; [done|]. by exists r1, r2.
  - intros (b & r & -> & (r1 & r2 & -> & Hm)). exists b, (p +:+ (r1 +:+ r2)). split; [done|].
    by exists r1, r2.
Qed.

Lemma match_parts_cons anchored v part parts :
  match_parts anchored v (part :: parts) =
    if bool_decide (part = "") then match_parts false v parts
    else match find part v with
         | None => false
         | Some (before, rest) =>
             if anchored && negb (bool_decide (before = "")) then false
             else match_parts false rest parts
         end.
Proof. done. Qed.
#[local] Arguments match_parts : simpl never.

(** The parts found one after the other leave room for the last one. *)
Lemma match_parts_last_len anchored v parts part :
  match_parts anchored v parts = true → last parts = Some part → len part ≤ len v.
Proof.
  revert anchored v. induction parts as [|p parts IH]; intros anchored v; [done|].
  rewrite match_parts_cons. case_bool_decide as Hp.
  - subst. intros Hm Hl. destruct parts as [|q parts].
    + simplify_eq/=. unfold len. simpl. lia.
    + eapply IH; [done|]. by destruct parts.
  - destruct (find p v) as [[b r]|] eqn:F; [|done]. destruct (_ && _); [done|].
    apply find_Some in F as [-> _]. rewrite !len_app. intros Hm Hl.
    destruct parts as [|q parts]; [simplify_eq/=; lia|].
    assert (len part ≤ len r); [|lia]. eapply IH; [done|]. by destruct parts.
Qed.

Lemma ends_with_app part b r :
  len part ≤ len r → ends_with part (b +:+ r) = true ↔ ends_with part r = true.
Proof.
  intros Hlen. rewrite !ends_with_spec. split.
  - intros [a Heq]. by apply (suffix_of_suffix b r a part).
  - intros [a ->]. exists (b +:+ a). by rewrite app_assoc_s.
Qed.

(** Taking the leftmost occurrence of each part is complete. *)
Lemma match_parts_floating parts part v :
  last parts = Some part →
  match_parts false v parts = true ∧ ends_with part v = true ↔ floating parts v.
Proof.
  revert v. induction parts as [|p parts IH]; intros v Hlast; [done|].
  destruct parts as [|q parts].
  - simpl in *. simplify_eq. unfold floating. rewrite match_parts_cons, ends_with_spec. split.
    + intros [_ [b ->]]. by exists b, part.
    + intros (b & v2 & -> & Hv2). simpl in Hv2. subst v2. split; [|by exists b].
      case_bool_decide as Hp; [done|].
      destruct (find part (b +:+ part)) as [[b0 r0]|] eqn:F; [done|].
      destruct (find_None _ _ F b ""). by rewrite app_nil_s.
  - assert (last (q :: parts) = Some part) as Hl by done. pose proof (λ v, IH v Hl) as IH'.
    rewrite floating_cons, match_parts_cons. case_bool_decide as Hp.
    + subst p. rewrite IH'. split.
      * intros Hf. exists "", v. done.
      * intros (b & r & -> & Hf). by apply floating_app.
    + destruct (find p v) as [[b r]|] eqn:F; cbn [andb].
      * apply find_Some in F as [-> Hleft]. split.
        { intros [Hm He]. exists b, r. split; [done|]. apply (IH r Hl). split; [done|].
          pose proof (match_parts_last_len _ _ _ _ Hm Hl) as Hlen.
          rewrite app_assoc_s in He. by apply ends_with_app in He. }
        { intros (b' & r' & Heq & Hf). destruct (Hleft b' r' Heq) as [x ->].
          pose proof (floating_app _ x _ Hf) as Hf'. apply (IH _ Hl) in Hf' as [Hm He].
          split; [done|]. pose proof (match_parts_last_len _ _ _ _ Hm Hl) as Hlen.
          rewrite app_assoc_s. by apply ends_with_app. }
      * split; [by intros [? _]|]. intros (b & r & Heq & _). by destruct (find_None _ _ F b r).
Qed.

Lemma split_on_single p part : split_on star p = [part] → part = p.
Proof.
  revert part. induction p as [|c p IH]; intros part; simpl; [by intros [= <-]|].
  destruct (split_on_cons star p) as (x & xs & Hx). rewrite Hx. case_decide; [done|].
  intros [= <- ->]. by rewrite (IH x Hx).
Qed.

Lemma split_on_anchored p part q parts :
  split_on star p = part :: q :: parts → part ≠ "" →
  starts_with (String star "") p = false.
Proof.
  intros Hs Hp. destruct p as [|c p]; [done|]. simpl in Hs. case_decide as Hc; [by simplify_eq|].
  apply bool_decide_eq_false_2. unfold strip_prefix. rewrite decide_False by done. by intros [].
Qed.

Lemma ends_with_star_last p :
  ends_with (String star "") p = true → last (split_on star p) = Some "".
Proof.
  intros [b ->]%ends_with_spec. induction b as [|c b IH]; [done|].
  rewrite app_cons_s. simpl. destruct (split_on_cons star (b +:+ String star "")) as (x & xs & Hs).
  rewrite Hs in *. case_decide; [done|].
  destruct xs as [|y xs]; [|done]. exfalso. clear -Hs.
  revert x Hs. induction b as [|d b IH]; intros x Hs; [done|].
  rewrite app_cons_s in Hs. simpl in Hs. destruct (split_on_cons star (b +:+ String star "")) as (z & zs & Hz).
  rewrite Hz in Hs. case_decide; [done|]. simplify_eq. by apply (IH z).
Qed.

(** The tail test on the whole text is the test of the last part. *)
Lemma wildcard_tail p v part :
  last (split_on star p) = Some part →
  ends_with (String star "") p || ends_with part v = ends_with part v.
Proof.
  intros Hl. destruct (ends_with (String star "") p) eqn:He; [|done].
  apply ends_with_star_last in He. rewrite Hl in He. simplify_eq. symmetry.
  apply ends_with_spec. exists v. by rewrite app_nil_s.
Qed.

(** C35: The pattern matcher, which looks for the leftmost occurrence of each
    literal part, decides the declarative meaning of a pattern: a star stands
    for any text, and letters match in either case. *)
Theorem wildcard_match_spec value pattern :
  wildcard_match value pattern = true ↔
  glob (to_ascii_lowercase pattern) (to_ascii_lowercase value).
Proof.
  unfold wildcard_match. generalize (to_ascii_lowercase value) (to_ascii_lowercase pattern).
  clear. intros v p. rewrite glob_parts.
  destruct (split_on_cons star p) as (part & parts & Hs).
  destruct parts as [|q parts].
  { pose proof (split_on_single _ _ Hs) as ->. rewrite Hs. simpl. by rewrite bool_decide_eq_true. }
  rewrite decide_False by (rewrite Hs; simpl; lia).
  destruct (last (split_on star p)) as [tail|] eqn:Hl; [|by rewrite Hs, last_None in Hl].
  rewrite (wildcard_tail p v tail Hl).
  rewrite andb_true_iff, Hs in *. assert (last (q :: parts) = Some tail) as Hl' by done.
  destruct (decide (part = "")) as [->|Hp].
  - rewrite match_parts_cons, bool_decide_eq_true_2 by done.
    rewrite (match_parts_floating _ _ _ Hl'). split.
    + intros (v1 & v2 & -> & Hm). by exists v1, v2.
    + intros (v1 & v2 & -> & Hm). by exists v1, v2.
  - rewrite (split_on_anchored _ _ _ _ Hs Hp), match_parts_cons.
    rewrite bool_decide_eq_false_2 by done. cbn [negb andb]. split.
    + destruct (find part v) as [[b r]|] eqn:F; [|by intros [? _]].
      apply find_Some in F as [-> _]. case_bool_decide; simpl; [|by intros [? _]].
      subst b. intros [Hm He].
      pose proof (match_parts_last_len _ _ _ _ Hm Hl') as Hlen.
      change ("" +:+ (part +:+ r)) with (part +:+ r) in *. apply ends_with_app in He; [|done].
      destruct (proj1 (match_parts_floating _ _ r Hl') (conj Hm He)) as (v1 & v2 & -> & Hm2).
      by exists v1, v2.
    + intros (v1 & v2 & -> & Hm).
      assert (find part (part +:+ (v1 +:+ v2)) = Some ("", v1 +:+ v2)) as ->.
      { destruct part as [|c part]; [done|]. rewrite app_cons_s. cbn [find].
        rewrite <-app_cons_s, strip_prefix_app. done. }
      rewrite bool_decide_eq_true_2 by done. simpl.
      destruct (proj2 (match_parts_floating (q :: parts) tail (v1 +:+ v2) Hl')) as [Hm' He];
        [by exists v1, v2|].
      pose proof (match_parts_last_len _ _ _ _ Hm' Hl') as Hlen.
      split; [done|]. by apply ends_with_app.
Qed.

(** ** What an evaluation without blockers guarantees *)

(** The component was captured in the past, at most [age] ago, with a value. *)
Definition fresh {T} (e : ComponentEvidence T) (now age : N) (v : T) : Prop :=
  ce_captured_monotonic_millis e ≤ now ∧ now - ce_captured_monotonic_millis e ≤ age ∧
  ce_value e = Available v.

Lemma value_if_fresh_Ok {T} (e : ComponentEvidence T) now age v :
  value_if_fresh e now age = Ok v ↔ fresh e now age v.
Proof.
  unfold value_if_fresh, fresh, checked_sub. case_decide as Hle; simpl.
  - case_bool_decide as Hage; simpl; [split; [done|lia]|].
    destruct (ce_value e); (split; [intros Hv; result_inv; by split_and!; [|lia|]|]);
      intros (_ & _ & Hv); by simplify_eq.
  - split; [done|lia].
Qed.

Lemma value_if_fresh_Err {T} (e : ComponentEvidence T) now age f v :
  value_if_fresh e now age = Err f → ¬ fresh e now age v.
Proof. intros He Hf. apply value_if_fresh_Ok in Hf. congruence. Qed.

Lemma fresh_unique {T} (e : ComponentEvidence T) now age v now' age' v' :
  fresh e now age v → fresh e now' age' v' → v = v'.
Proof. intros (_ & _ & H1) (_ & _ & H2). congruence. Qed.

Section evaluation.
Context (job : ObservationRequest) (config : HostConfig) (sample : HostSample).
Context (granted : list ResolvedClaims) (now : N).

(** The host's GPU is present in fresh evidence. *)
Definition device (g : GpuEvidence) : Prop :=
  ∃ slot u age gpus,
    hoc_gpu_slot_uuid (host_observation config) = Some slot ∧ canonical_gpu_uuid slot = Ok u ∧
    required_gpu_max_age job config = Some age ∧ fresh (hs_gpus sample) now age gpus ∧
    gpus !! u = Some g.

(** [requested] fits into [observed] beside the granted debits. *)
Definition headroom_ok (requested observed margin : N) (debits : list N) : Prop :=
  sum_N debits ≤ u64_max ∧ (requested = 0 ∨ requested + sum_N debits + margin ≤ observed).

Definition detector_ok (max_age : N) (d : QuietDetector) : Prop :=
  match d with
  | CpuUtilization max_percent => ∃ v, fresh (hs_cpu_utilization sample) now max_age v ∧ v ≤ max_percent
  | DiskUtilization max_percent => ∃ v, fresh (hs_disk_utilization sample) now max_age v ∧ v ≤ max_percent
  | GpuUtilization _ max_percent => ∃ g, device g ∧ gpu_utilization_percent g ≤ max_percent
  | ForeignGpuCompute _ => ∃ g, device g ∧ ∀ p, p ∈ gpu_compute_processes g →
      matches_any (proc_basename p) (rules_ignore (hoc_process_rules (host_observation config))) = true
  | BlockedProcesses => ∃ ps, fresh (hs_processes sample) now max_age ps ∧ ∀ p, p ∈ ps →
      matches_any (proc_basename p) (rules_ignore (hoc_process_rules (host_observation config))) = true ∨
      matches_any (proc_basename p) (rules_block (hoc_process_rules (host_observation config))) = false
  end.

Record request_satisfied : Prop := {
  rs_ram : ∀ requested, rc_ram_mb (or_resources job) = Some requested →
    ∃ m, fresh (hs_memory sample) now (hoc_memory_max_sample_age_millis (host_observation config)) m ∧
      headroom_ok requested (headroom_mb m) (hoc_ram_safety_margin_mb (host_observation config))
        (map cl_ram_mb granted);
  rs_device : non_quiet_gpu_required job || quiet_gpu_required (or_quiet job) = true → ∃ g, device g;
  rs_vram : ∀ g name requested, device g → rc_custom (or_resources job) !! name = Some requested →
    starts_with vram_prefix name = true →
    headroom_ok requested (gpu_free_memory_mb g) (hoc_vram_safety_margin_mb (host_observation config))
      (map (λ c, default 0 (cl_custom c !! (vram_prefix +:+ gpu_uuid g))) granted);
  rs_observed_cpu : ∀ policy threshold, or_observed job = Some policy →
    obs_cpu_utilization_percent_at_most policy = Some threshold →
    ∃ v, fresh (hs_cpu_utilization sample) now
           (saturating_mul (obs_max_sample_age_seconds policy) 1000) v ∧ v ≤ threshold;
  rs_observed_gpu : ∀ g policy uuid threshold, device g → or_observed job = Some policy →
    obs_gpu_utilization_percent_at_most policy !! uuid = Some threshold →
    canonical_gpu_uuid uuid = Ok (gpu_uuid g) → gpu_utilization_percent g ≤ threshold;
  rs_quiet : ∀ quiet d, or_quiet job = Some quiet → d ∈ quiet_detectors quiet →
    detector_ok (saturating_mul (quiet_max_sample_age_seconds quiet) 1000) d;
}.

Lemma checked_granted_Ok name values total :
  checked_granted name values = Ok total ↔ total = sum_N values ∧ sum_N values ≤ u64_max.
Proof.
  unfold checked_granted. rewrite checked_total_spec. case_decide; simpl.
  - split; [intros Ht; by result_inv|by intros [-> _]].
  - split; [done|by intros [_ ?]].
Qed.

Lemma option_list_nil {A} (o : option A) : option_list o = [] ↔ o = None.
Proof. by destruct o. Qed.

(** One operand: debits, then the observed headroom. *)
Lemma headroom_ok_iff name requested observed margin debits :
  match checked_granted name debits with
  | Ok debit => observed_resource_blocker name requested observed margin debit = None
  | Err _ => False
  end ↔ headroom_ok requested observed margin debits.
Proof.
  unfold headroom_ok. destruct (checked_granted name debits) as [t|b] eqn:E.
  - apply checked_granted_Ok in E as [-> Hb]. rewrite observed_headroom_iff. tauto.
  - split; [done|]. intros [Hb _].
    rewrite (proj2 (checked_granted_Ok name debits _)) in E by done. done.
Qed.

Lemma evaluate_ram_nil :
  (evaluate_ram job config sample granted now).1 = [] ↔
  ∀ requested, rc_ram_mb (or_resources job) = Some requested →
    ∃ m, fresh (hs_memory sample) now (hoc_memory_max_sample_age_millis (host_observation config)) m ∧
      headroom_ok requested (headroom_mb m) (hoc_ram_safety_margin_mb (host_observation config))
        (map cl_ram_mb granted).
Proof.
  unfold evaluate_ram. destruct (rc_ram_mb _) as [requested|]; [|by split].
  destruct (value_if_fresh _ _ _) as [m|f] eqn:Hm; simpl.
  - apply value_if_fresh_Ok in Hm as Hf.
    transitivity (headroom_ok requested (headroom_mb m) (hoc_ram_safety_margin_mb (host_observation config))
      (map cl_ram_mb granted)).
    + rewrite <-(headroom_ok_iff "ram_mb"). destruct (checked_granted _ _); simpl; [|by split].
      apply option_list_nil.
    + split; [intros Hh ? [= <-]; by exists m|]. intros Hall. destruct (Hall requested eq_refl) as (m' & Hm' & Hh).
      by rewrite (fresh_unique _ _ _ _ _ _ _ Hf Hm').
  - split; [done|]. intros Hall. destruct (Hall requested eq_refl) as (m & Hf & _).
    by destruct (value_if_fresh_Err _ _ _ _ m Hm).
Qed.

Lemma list_min_None l : list_min l = None ↔ l = [].
Proof. by destruct l. Qed.

Lemma required_gpu_max_age_None :
  required_gpu_max_age job config = None ↔
  non_quiet_gpu_required job = false ∧ quiet_gpu_required (or_quiet job) = false.
Proof.
  unfold required_gpu_max_age, non_quiet_gpu_required. rewrite list_min_None, !app_nil, orb_false_iff.
  assert (∀ (b : bool) (x : N), (if b then [x] else []) = [] ↔ b = false) as Hif by (intros []; done).
  rewrite Hif. destruct (or_observed job) as [o|]; destruct (or_quiet job) as [q|]; rewrite ?Hif; simpl; tauto.
Qed.

(** The device selection: a device without blockers, or no device at all and a
    blocker for each use that needs one. *)
Lemma select_gpu_spec :
  (∃ g, select_gpu job config sample now = (Some g, [], []) ∧ device g) ∨
  (∃ b q, select_gpu job config sample now = (None, b, q) ∧ (∀ g, ¬ device g) ∧
    (b = [] ↔ non_quiet_gpu_required job = false) ∧
    (q = [] ↔ quiet_gpu_required (or_quiet job) = false)).
Proof.
  unfold select_gpu.
  assert (∀ (b : bool) (x : Blocker), (if b then [x] else []) = [] ↔ b = false) as Hif by (intros []; done).
  destruct (hoc_gpu_slot_uuid _ ≫= _) as [u|] eqn:Hu; cycle 1.
  { right. assert (∀ g, ¬ device g) as Hno.
    { intros g (slot & u & age & gpus & Hslot & Hc & _). rewrite Hslot in Hu. simpl in Hu.
      by rewrite Hc in Hu. }
    destruct (_ || _) eqn:Hor; simpl.
    - eexists _, _. split; [done|]. by rewrite !Hif.
    - apply orb_false_iff in Hor as [-> ->]. by eexists _, _. }
  apply bind_Some in Hu as (slot & Hslot & Hc).
  destruct (canonical_gpu_uuid slot) as [u'|] eqn:Hc'; simplify_eq/=.
  destruct (required_gpu_max_age job config) as [age|] eqn:Hage; cycle 1.
  { right. apply required_gpu_max_age_None in Hage as Hreq. destruct Hreq as [-> ->].
    eexists _, _. split; [done|]. split; [|done]. intros g (? & ? & ? & ? & _ & _ & Ha & _). congruence. }
  destruct (value_if_fresh (hs_gpus sample) now age) as [gpus|f] eqn:Hf; [|].
  - apply value_if_fresh_Ok in Hf. destruct (gpus !! u) as [g|] eqn:Hg.
    + left. exists g. split; [done|]. by exists slot, u, age, gpus.
    + right. eexists _, _. split; [done|]. simpl. rewrite !Hif. split; [|done].
      intros g (? & ? & ? & gpus' & ? & ? & ? & Hf' & ?).
      pose proof (fresh_unique _ _ _ _ _ _ _ Hf Hf'). simplify_eq. congruence.
  - right. eexists _, _. split; [done|]. simpl. rewrite !Hif. split; [|done].
    intros g (? & ? & ? & gpus' & ? & ? & ? & Hf' & ?). simplify_eq.
    by destruct (value_if_fresh_Err _ _ _ _ gpus' Hf).
Qed.

Lemma device_unique g g' : device g → device g' → g = g'.
Proof.
  intros (? & ? & ? & ? & ? & ? & ? & Hf & ?) (? & ? & ? & ? & ? & ? & ? & Hf' & ?).
  pose proof (fresh_unique _ _ _ _ _ _ _ Hf Hf'). congruence.
Qed.

Lemma concat_fst_nil {A B C} (f : A → list B * list C) l :
  concat (map f l).*1 = [] ↔ ∀ x, x ∈ l → (f x).1 = [].
Proof.
  induction l as [|x l IH]; simpl; [set_solver|]. rewrite app_nil, IH.
  split; [intros [H1 H2] y [->|Hy]%elem_of_cons; auto|].
  intros Hall. split; [apply Hall; by left|]. intros y Hy. apply Hall. by right.
Qed.

Lemma evaluate_vram_nil g :
  (evaluate_vram job config g granted).1 = [] ↔
  ∀ name requested, rc_custom (or_resources job) !! name = Some requested →
    starts_with vram_prefix name = true →
    headroom_ok requested (gpu_free_memory_mb g) (hoc_vram_safety_margin_mb (host_observation config))
      (map (λ c, default 0 (cl_custom c !! (vram_prefix +:+ gpu_uuid g))) granted).
Proof.
  unfold evaluate_vram. cbn [fst]. rewrite concat_fst_nil.
  assert (∀ name requested, (evaluate_vram_claim config g granted name requested).1 = [] ↔
    headroom_ok requested (gpu_free_memory_mb g) (hoc_vram_safety_margin_mb (host_observation config))
      (map (λ c, default 0 (cl_custom c !! (vram_prefix +:+ gpu_uuid g))) granted)) as Hone.
  { intros name requested. rewrite <-(headroom_ok_iff name). unfold evaluate_vram_claim.
    destruct (checked_granted _ _); simpl; [apply option_list_nil|done]. }
  split.
  - intros Hall name requested Hn Hs. apply (Hone name). apply (Hall (name, requested)).
    apply list_elem_of_In, filter_In. split; [|done]. by apply list_elem_of_In, elem_of_btree_entries.
  - intros Hall [name requested] [Hin Hs]%list_elem_of_In%filter_In. apply Hone.
    apply (Hall name); [|done]. by apply elem_of_btree_entries, list_elem_of_In.
Qed.

Lemma evaluate_observed_cpu_nil :
  (evaluate_observed_cpu job sample now).1 = [] ↔
  ∀ policy threshold, or_observed job = Some policy →
    obs_cpu_utilization_percent_at_most policy = Some threshold →
    ∃ v, fresh (hs_cpu_utilization sample) now
           (saturating_mul (obs_max_sample_age_seconds policy) 1000) v ∧ v ≤ threshold.
Proof.
  unfold evaluate_observed_cpu. destruct (or_observed job) as [policy|]; [|by split].
  destruct (obs_cpu_utilization_percent_at_most policy) as [threshold|] eqn:Ht.
  2: { split; [|done]. intros _ ? ? [= <-]. congruence. }
  destruct (value_if_fresh _ _ _) as [v|f] eqn:Hv; simpl.
  - rewrite option_list_nil. apply value_if_fresh_Ok in Hv. split.
    + case_decide; [|done]. intros _ ? ? [= <-] ?. simplify_eq. eauto.
    + intros Hall. destruct (Hall policy threshold) as (v' & Hv' & Hle); [done..|].
      pose proof (fresh_unique _ _ _ _ _ _ _ Hv Hv') as <-. by rewrite decide_True.
  - split; [done|]. intros Hall. destruct (Hall policy threshold) as (v & Hf & _); [done..|].
    by destruct (value_if_fresh_Err _ _ _ _ v Hv).
Qed.

Lemma evaluate_observed_nil g :
  (evaluate_observed job sample g now).1 = [] ↔
  (evaluate_observed_cpu job sample now).1 = [] ∧
  ∀ policy uuid threshold, or_observed job = Some policy →
    obs_gpu_utilization_percent_at_most policy !! uuid = Some threshold →
    canonical_gpu_uuid uuid = Ok (gpu_uuid g) → gpu_utilization_percent g ≤ threshold.
Proof.
  unfold evaluate_observed. destruct (or_observed job) as [policy|]; [|naive_solver].
  cbn [fst]. rewrite app_nil, concat_fst_nil.
  assert (∀ age uuid threshold, (evaluate_observed_gpu g age uuid threshold).1 = [] ↔
    (canonical_gpu_uuid uuid = Ok (gpu_uuid g) → gpu_utilization_percent g ≤ threshold)) as Hone.
  { intros age uuid threshold. unfold evaluate_observed_gpu.
    assert (result_ok (canonical_gpu_uuid uuid) = Some (gpu_uuid g) ↔
      canonical_gpu_uuid uuid = Ok (gpu_uuid g)) as Hc by (destruct (canonical_gpu_uuid uuid); naive_solver).
    case_bool_decide as Hu; [|naive_solver]. cbn [fst]. rewrite option_list_nil.
    apply Hc in Hu. case_bool_decide; split; try done; [|lia]. intros Hle. specialize (Hle Hu). lia. }
  split; intros [Hc Hall]; (split; [done|]).
  - intros ? uuid threshold [= <-] Hu. apply (Hone (saturating_mul (obs_max_sample_age_seconds policy) 1000)).
    by apply (Hall (uuid, threshold)), elem_of_btree_entries.
  - intros [uuid threshold] Hu%elem_of_btree_entries. apply Hone. by apply (Hall policy).
Qed.

Lemma compare_component_Ok name e threshold max_age :
  compare_component name e threshold now max_age = Ok tt ↔
  ∃ v, fresh e now max_age v ∧ v ≤ threshold.
Proof.
  unfold compare_component. destruct (value_if_fresh e now max_age) as [v|f] eqn:Hv.
  - apply value_if_fresh_Ok in Hv. case_decide; (split; [try done; eauto|]); [done|].
    intros (v' & Hv' & Hle). by rewrite <-(fresh_unique _ _ _ _ _ _ _ Hv Hv') in Hle.
  - split; [done|]. intros (v & Hf & _). by destruct (value_if_fresh_Err _ _ _ _ v Hv).
Qed.

Lemma blocked_process_Ok ps :
  blocked_process config ps = Ok tt ↔ ∀ p, p ∈ ps →
    matches_any (proc_basename p) (rules_ignore (hoc_process_rules (host_observation config))) = true ∨
    matches_any (proc_basename p) (rules_block (hoc_process_rules (host_observation config))) = false.
Proof.
  induction ps as [|p ps IH]; simpl; [split; [set_solver|done]|].
  destruct (matches_any _ (rules_ignore _)) eqn:Hi; [|destruct (matches_any _ (rules_block _)) eqn:Hb].
  - rewrite IH. split; [|intros Hall q Hq; apply Hall; by right].
    intros Hall q [->|Hq]%elem_of_cons; [by left|by apply Hall].
  - split; [done|]. intros Hall. destruct (Hall p); [by left|congruence..].
  - rewrite IH. split; [|intros Hall q Hq; apply Hall; by right].
    intros Hall q [->|Hq]%elem_of_cons; [by right|by apply Hall].
Qed.

(** The result of each detector, given the selected device. *)
Lemma detector_result_Ok gpu max_age d :
  (∀ g, gpu = Some g ↔ device g) →
  (detector_result config sample gpu now max_age d).2 = Ok tt ↔ detector_ok max_age d.
Proof.
  intros Hgpu. destruct d as [mp|u mp|mp|u|]; cbn [detector_result snd detector_ok].
  - apply compare_component_Ok.
  - unfold gpu_utilization_result. destruct gpu as [g|].
    + assert (device g) as Hg by by apply Hgpu. case_decide; split; try done; [eauto|].
      intros (g' & Hg' & Hle). by rewrite (device_unique _ _ Hg' Hg) in Hle.
    + split; [done|]. by intros (g & Hg%Hgpu & _).
  - apply compare_component_Ok.
  - unfold foreign_gpu_result. destruct gpu as [g|]; [|split; [done|by intros (g & Hg%Hgpu & _)]].
    assert (device g) as Hg by by apply Hgpu. destruct (List.find _ _) as [p|] eqn:Hp.
    + split; [done|]. intros (g' & Hg' & Hall). rewrite (device_unique _ _ Hg' Hg) in Hall.
      apply find_some in Hp as [Hin Hp%negb_true_iff]. rewrite Hall in Hp; [done|]. by apply list_elem_of_In.
    + split; [|done]. intros _. exists g. split; [done|]. intros p Hin.
      apply negb_false_iff. apply (find_none _ _ Hp). by apply list_elem_of_In.
  - destruct (value_if_fresh (hs_processes sample) now max_age) as [ps|f] eqn:Hv.
    + apply value_if_fresh_Ok in Hv. rewrite blocked_process_Ok. split; [eauto|].
      intros (ps' & Hf' & Hall). by rewrite (fresh_unique _ _ _ _ _ _ _ Hv Hf').
    + split; [done|]. intros (ps & Hf & _). by destruct (value_if_fresh_Err _ _ _ _ ps Hv).
Qed.

Lemma omap_result_err_nil {A} (f : A → string * option N * option N * result Blocker unit) l :
  omap (λ r, result_err r.2) (map f l) = [] ↔ ∀ x, x ∈ l → (f x).2 = Ok tt.
Proof.
  induction l as [|x l IH]; simpl; [set_solver|].
  destruct ((f x).2) as [[]|b] eqn:Hx; simpl.
  - rewrite IH. split; [intros Hall y [->|Hy]%elem_of_cons; auto|].
    intros Hall y Hy. apply Hall. by right.
  - split; [done|]. intros Hall. rewrite Hall in Hx by by left. done.
Qed.

Lemma evaluate_quiet_nil gpu :
  (∀ g, gpu = Some g ↔ device g) →
  (evaluate_quiet job config sample gpu now).1.2 = [] ↔
  ∀ quiet d, or_quiet job = Some quiet → d ∈ quiet_detectors quiet →
    detector_ok (saturating_mul (quiet_max_sample_age_seconds quiet) 1000) d.
Proof.
  intros Hgpu. unfold evaluate_quiet. destruct (or_quiet job) as [quiet|]; [|by split].
  cbn [fst snd]. rewrite omap_result_err_nil. split.
  - intros Hall ? d [= <-] Hd. by apply (detector_result_Ok gpu), Hall.
  - intros Hall d Hd. apply detector_result_Ok; [done|]. by apply Hall.
Qed.
End evaluation.

(** C33: Observation fails closed: an evaluation reports no blocker exactly when
    every requirement of the request is backed by fresh evidence: memory and
    VRAM headroom beside all granted debits and the safety margin, the host's
    configured GPU, the utilization thresholds, and every quiet detector.
    Missing, stale or failed evidence always blocks. *)
Theorem evaluation_fails_closed job config sample granted unix now :
  ac_blockers (evaluate_request job config sample granted unix now) = [] ↔
  request_satisfied job config sample granted now.
Proof.
  unfold evaluate_request.
  pose proof (evaluate_ram_nil job config sample granted now) as Hram.
  pose proof (evaluate_observed_cpu_nil job sample now) as Hcpu.
  destruct (select_gpu_spec job config sample now) as [(g & -> & Hg)|(b & q & -> & Hno & Hb & Hq)].
  - pose proof (evaluate_quiet_nil job config sample now (Some g)) as Hquiet.
    destruct (evaluate_quiet job config sample (Some g) now) as [[sat bl] de].
    cbn [fst snd ac_blockers] in *. rewrite sort_blockers_nil, !app_nil, !sort_blockers_nil, !app_nil.
    rewrite Hram, evaluate_vram_nil, evaluate_observed_nil, Hcpu, Hquiet.
    2: { intros g'. split; [by intros [= <-]|]. intros Hg'. f_equal. by eapply device_unique. }
    split.
    + intros ((H1 & _ & H2 & H3 & H4) & _ & H5). split; try done; [by exists g|..].
      * intros g' name r Hg'. rewrite (device_unique _ _ _ _ _ _ Hg' Hg). apply H2.
      * intros g' p u t Hg'. rewrite (device_unique _ _ _ _ _ _ Hg' Hg). apply H4.
    + intros [H1 _ H2 H3 H4 H5]. split_and!; try done; [by intros; eapply H2|by intros; eapply H4].
  - pose proof (evaluate_quiet_nil job config sample now None) as Hquiet.
    destruct (evaluate_quiet job config sample None now) as [[sat bl] de].
    cbn [fst snd ac_blockers] in *. rewrite sort_blockers_nil, !app_nil, !sort_blockers_nil, !app_nil.
    rewrite Hram, Hcpu, Hquiet, Hb, Hq by (intros g'; split; [done|by intros ?%Hno]).
    split.
    + intros ((H1 & Hb' & _ & H3) & Hq' & H5).
      split; try done; [by rewrite Hb', Hq'|by intros ? ? ? ?%Hno|by intros ? ? ? ? ?%Hno].
    + intros [H1 Hd H2 H3 H4 H5].
      assert (non_quiet_gpu_required job || quiet_gpu_required (or_quiet job) = false) as Hor.
      { apply not_true_iff_false. intros Ht. by destruct (Hd Ht) as [g ?%Hno]. }
      apply orb_false_iff in Hor as [-> ->]. split_and!; done.
Qed.

(** ** The quiet interval over a sequence of evaluations *)
Section quiet_trace.
Context (uuid_to_string : Uuid → string) (gap : N).

Record QuietState := {
  qs_generation : option string;
  qs_first : option N;
  qs_last : option N;
}.
Definition quiet_start : QuietState := {| qs_generation := None; qs_first := None; qs_last := None |}.

(** What the callers keep between two evaluations. *)
Definition quiet_observe (st : QuietState) (context : AdmissionContext) : QuietState :=
  let s := quiet_stability uuid_to_string (qs_generation st) (qs_first st) (qs_last st) context gap in
  {| qs_generation := Some (uuid_to_string (ac_observation_generation context));
     qs_first := s.1; qs_last := s.2 |}.

Definition is_quiet (context : AdmissionContext) : Prop :=
  ac_quiet_sample_satisfied context = true ∧ ac_quiet_blockers context = [].

(** A run of evaluations that starts at [f] and ends with the last argument:
    all quiet, one generation, no step back and no gap above the maximum. *)
Inductive quiet_run : N → list AdmissionContext → AdmissionContext → Prop :=
| quiet_run_one c : is_quiet c → quiet_run (ac_evaluated_monotonic_millis c) [c] c
| quiet_run_snoc f l c c' :
    quiet_run f l c → is_quiet c' →
    uuid_to_string (ac_observation_generation c') = uuid_to_string (ac_observation_generation c) →
    ac_evaluated_monotonic_millis c ≤ ac_evaluated_monotonic_millis c' →
    ac_evaluated_monotonic_millis c' - ac_evaluated_monotonic_millis c ≤ gap →
    quiet_run f (l ++ [c']) c'.

Lemma quiet_observe_first trace f :
  qs_first (foldl quiet_observe quiet_start trace) = Some f →
  ∃ before run c, trace = before ++ run ∧ quiet_run f run c ∧
    qs_last (foldl quiet_observe quiet_start trace) = Some (ac_evaluated_monotonic_millis c) ∧
    qs_generation (foldl quiet_observe quiet_start trace)
      = Some (uuid_to_string (ac_observation_generation c)).
Proof.
  revert f. induction trace as [|c trace IH] using rev_ind; intros f; [done|].
  rewrite foldl_app. cbn [foldl]. set (st := foldl quiet_observe quiet_start trace) in *.
  unfold quiet_observe, quiet_stability. cbn [qs_first qs_last qs_generation].
  destruct (negb _ || negb _) eqn:Hq; [done|].
  apply orb_false_iff in Hq as [Hq1%negb_false_iff Hq2%negb_false_iff%bool_decide_eq_true].
  assert (is_quiet c) as Hquiet by done. cbn [fst snd].
  destruct (bool_decide _ && _) eqn:Hcont.
  - apply andb_true_iff in Hcont as [Hgen%bool_decide_eq_true Hgap]. intros Hf.
    destruct (IH f Hf) as (before & run & c0 & -> & Hrun & Hlast & Hgen0).
    exists before, (run ++ [c]), c. rewrite (assoc_L (++)). split_and!; try done.
    rewrite Hlast in Hgap. simpl in Hgap. rewrite Hgen in Hgen0. simplify_eq.
    destruct (checked_sub _ _) as [d|] eqn:Hd; [|done].
    apply checked_sub_Some in Hd as [-> Hle]. apply bool_decide_eq_true in Hgap.
    by econstructor.
  - intros [= <-]. exists trace, [c], c. split_and!; try done. by constructor.
Qed.

Lemma quiet_run_elapsed f run c :
  quiet_run f run c →
  Forall is_quiet run ∧ f ≤ ac_evaluated_monotonic_millis c ∧
  ac_evaluated_monotonic_millis c - f + gap ≤ gap * N.of_nat (length run).
Proof.
  induction 1 as [c Hc|f l c c' Hr (IH1 & IH2 & IH3) Hq _ Hle Hgap].
  - split_and!; [by constructor|lia|simpl; lia].
  - rewrite length_app. simpl. split_and!; [|lia|lia]. apply Forall_app. split; [done|by constructor].
Qed.

(** C34: When the progress of a quiet wait records the interval start [f], the
    last evaluations are an unbroken run that began at [f]: every one of them
    was quiet, all came from one observation generation, and no two
    consecutive ones were further apart than the maximum gap.  An interval of
    [d] milliseconds therefore rests on at least [d / gap] quiet samples. *)
Theorem quiet_interval_unbroken trace f :
  qs_first (foldl quiet_observe quiet_start trace) = Some f →
  ∃ before run c, trace = before ++ run ∧ quiet_run f run c ∧ Forall is_quiet run ∧
    f ≤ ac_evaluated_monotonic_millis c ∧
    ac_evaluated_monotonic_millis c - f + gap ≤ gap * N.of_nat (length run).
Proof.
  intros Hf. destruct (quiet_observe_first _ _ Hf) as (before & run & c & Ht & Hrun & _ & _).
  destruct (quiet_run_elapsed _ _ _ Hrun) as (? & ? & ?). by exists before, run, c.
Qed.

(** The wait budget over a run of one generation is the elapsed time. *)
Fixpoint budget_run (consumed : N) (previous : AdmissionContext) (trace : list AdmissionContext) : N :=
  match trace with
  | [] => consumed
  | c :: trace =>
      budget_run (quiet_budget uuid_to_string consumed
        (Some (uuid_to_string (ac_observation_generation previous)))
        (Some (ac_evaluated_monotonic_millis previous)) c) c trace
  end.

(** Evaluations of one generation whose clock never steps back. *)
Fixpoint steady (previous : AdmissionContext) (trace : list AdmissionContext) : Prop :=
  match trace with
  | [] => True
  | c :: trace =>
      ac_observation_generation c = ac_observation_generation previous ∧
      ac_evaluated_monotonic_millis previous ≤ ac_evaluated_monotonic_millis c ∧ steady c trace
  end.

Fixpoint final (previous : AdmissionContext) (trace : list AdmissionContext) : AdmissionContext :=
  match trace with [] => previous | c :: trace => final c trace end.

Lemma steady_final trace c :
  steady c trace → ac_evaluated_monotonic_millis c ≤ ac_evaluated_monotonic_millis (final c trace).
Proof.
  revert c. induction trace as [|d trace IH]; intros c Hs; [done|].
  destruct Hs as (_ & Hle & Hs). specialize (IH d Hs). simpl. lia.
Qed.

(** Within one observation generation the quiet wait budget charges exactly
    the time between the first and the last evaluation, whatever the number
    of evaluations, and saturates instead of wrapping. *)
Theorem quiet_budget_charges_elapsed_time trace previous consumed :
  consumed ≤ u64_max → steady previous trace →
  budget_run consumed previous trace =
    N.min (consumed + (ac_evaluated_monotonic_millis (final previous trace)
                       - ac_evaluated_monotonic_millis previous)) u64_max.
Proof.
  revert previous consumed. induction trace as [|c trace IH]; intros previous consumed Hc Hs.
  { cbn [budget_run final]. lia. }
  destruct Hs as (Hgen & Hle & Hs). pose proof (steady_final _ _ Hs) as Hlast.
  cbn [budget_run final]. unfold quiet_budget at 1. rewrite Hgen, decide_True by done.
  unfold saturating_sub, saturating_add. rewrite IH; [lia|lia|done].
Qed.
End quiet_trace.

Definition quiet_sample_at (t : N) : AdmissionContext :=
  {| ac_evaluated_unix_millis := 0; ac_evaluated_monotonic_millis := t;
     ac_observation_generation := 7; ac_blockers := []; ac_non_quiet_blockers := [];
     ac_quiet_blockers := []; ac_quiet_sample_satisfied := true; ac_gpu_uuid := None;
     ac_gpu_driver_version := None; ac_operands := []; ac_detectors := [] |}.

(** A gap of 900 ms restarts the interval at 1600. *)
Lemma quiet_interval_unbroken_witness :
  ∃ before run c, map quiet_sample_at [100; 700; 1600; 2100] = before ++ run ∧
    quiet_run pretty 600 1600 run c ∧ Forall is_quiet run ∧
    1600 ≤ ac_evaluated_monotonic_millis c ∧
    ac_evaluated_monotonic_millis c - 1600 + 600 ≤ 600 * N.of_nat (length run).
Proof. apply (quiet_interval_unbroken pretty 600). vm_compute. reflexivity. Defined.

Lemma quiet_budget_charges_elapsed_time_witness :
  budget_run pretty 50 (quiet_sample_at 100) (map quiet_sample_at [700; 900; 1600]) = 1550.
Proof.
  rewrite (quiet_budget_charges_elapsed_time pretty).
  - vm_compute. reflexivity.
  - unfold u64_max. lia.
  - cbn. lia.
Defined.
