(* ===== verification/Machine.v ===== *)
(** * Machine: the coordination protocol between managers and the coordinator
    ([src/src/machine.rs], [src/src/store/machine_ticket.rs],
    [src/src/store/machine_allocation.rs])

    Messages as records and variants, ownership, request and candidate
    validation, and the rules for the next invocation ticket.  JSON sizes and
    digests are functions of the record [Wire]. *)
From S2P Require Import Prelude Spec Validate Kernel Scoped.

(** ** Identities *)

(** [JobId], [AttemptId], [InvocationId], [ContainmentId] and [GrantId]: a store
    and an entity of that store. *)
Record DurableId := { store_uuid : Uuid; entity_uuid : Uuid }.
#[global] Instance DurableId_eq_dec : EqDecision DurableId.
Proof. solve_decision. Defined.
Definition durable_pair (d : DurableId) : Uuid * Uuid := (store_uuid d, entity_uuid d).
#[global] Program Instance DurableId_countable : Countable DurableId :=
  inj_countable' durable_pair (λ p, {| store_uuid := p.1; entity_uuid := p.2 |}) _.
Next Obligation. by intros []. Qed.
#[global] Instance durable_pair_inj : Inj (=) (=) durable_pair.
Proof. intros [] []. unfold durable_pair; simpl. by intros [= -> ->]. Qed.
#[global] Instance DurableId_btree : BTreeKey DurableId := btree_inj durable_pair.

Record AllocationKey := {
  ak_machine_id : Uuid;
  ak_authority_epoch : Uuid;
  ak_domain_id : ExecutionDomainId;
  ak_manager_store_uuid : Uuid;
  ak_lease_id : Uuid;
}.
#[global] Instance AllocationKey_eq_dec : EqDecision AllocationKey.
Proof. solve_decision. Defined.

(** The tables are keyed by the JSON text of the key.  All its fields are UUIDs
    of one textual width, so the text order is the order of the fields. *)
Definition key_tuple (k : AllocationKey) : Uuid * (Uuid * (Uuid * (Uuid * Uuid))) :=
  (ak_machine_id k, (ak_authority_epoch k, (ak_domain_id k, (ak_manager_store_uuid k, ak_lease_id k)))).
#[global] Instance key_tuple_inj : Inj (=) (=) key_tuple.
Proof. intros [] []. unfold key_tuple; simpl. by intros [= -> -> -> -> ->]. Qed.
#[global] Program Instance AllocationKey_countable : Countable AllocationKey :=
  inj_countable' key_tuple (λ p, {| ak_machine_id := p.1; ak_authority_epoch := p.2.1;
    ak_domain_id := p.2.2.1; ak_manager_store_uuid := p.2.2.2.1; ak_lease_id := p.2.2.2.2 |}) _.
Next Obligation. by intros []. Qed.
#[global] Instance AllocationKey_btree : BTreeKey AllocationKey := btree_inj key_tuple.

Record SessionIdentity := {
  se_machine_id : Uuid;
  se_authority_epoch : Uuid;
  se_domain_id : ExecutionDomainId;
  se_manager_store_uuid : Uuid;
  se_executor_incarnation : Uuid;
  se_connection_epoch : N;
}.
#[global] Instance SessionIdentity_eq_dec : EqDecision SessionIdentity.
Proof. solve_decision. Defined.

Definition owns (s : SessionIdentity) (key : AllocationKey) : bool :=
  bool_decide (se_machine_id s = ak_machine_id key)
  && bool_decide (se_authority_epoch s = ak_authority_epoch key)
  && bool_decide (se_domain_id s = ak_domain_id key)
  && bool_decide (se_manager_store_uuid s = ak_manager_store_uuid key).

(** ** Messages *)
Record Claims := {
  mc_scalars : gmap string N;
  mc_shared_fences : list string;
  mc_exclusive_fences : list string;
  mc_impacts : list string;
}.
#[global] Instance Claims_eq_dec : EqDecision Claims.
Proof. solve_decision. Defined.

Inductive AllocationOwner :=
| Work (job_id attempt_id : DurableId)
| ProbeOwner (job_id invocation_id : DurableId).
#[global] Instance AllocationOwner_eq_dec : EqDecision AllocationOwner.
Proof. solve_decision. Defined.

Record Candidate := {
  cd_key : AllocationKey;
  cd_owner : AllocationOwner;
  cd_revision : N;
  cd_priority : Z;
  cd_claims : Claims;
  cd_configuration_sha256 : string;
  cd_observed : option ObservedResourcePolicy;
  cd_quiet : option QuietPolicy;
}.
#[global] Instance Candidate_eq_dec : EqDecision Candidate.
Proof. solve_decision. Defined.

Record TicketCleanup := {
  tc_invocation_id : DurableId;
  tc_release_sequence : N;
  tc_boundary_sha256 : string;
  tc_proof_sha256 : string;
  tc_user_code_released : bool;
}.
#[global] Instance TicketCleanup_eq_dec : EqDecision TicketCleanup.
Proof. solve_decision. Defined.

Inductive InvocationRole := RolePrimary | RoleProbe | RolePostcondition.
#[global] Instance InvocationRole_eq_dec : EqDecision InvocationRole.
Proof. solve_decision. Defined.

Record InvocationIntent := {
  in_invocation_id : DurableId;
  in_containment_id : DurableId;
  in_role : InvocationRole;
  in_role_index : N;
  in_release_sequence : N;
  in_executable_sha256 : string;
  in_boundary_sha256 : string;
  in_readiness_challenge : Uuid;
  in_previous_cleanup : option TicketCleanup;
}.
#[global] Instance InvocationIntent_eq_dec : EqDecision InvocationIntent.
Proof. solve_decision. Defined.

Record SealedRelease := {
  sr_key : AllocationKey;
  sr_offer_nonce : Uuid;
  sr_sealed_sequence : N;
  sr_tickets : list TicketCleanup;
}.
#[global] Instance SealedRelease_eq_dec : EqDecision SealedRelease.
Proof. solve_decision. Defined.

Inductive GrantState := Offered | Expired | Armed | Uncertain | Released.
#[global] Instance GrantState_eq_dec : EqDecision GrantState.
Proof. solve_decision. Defined.

Record GrantSnapshot := {
  gs_queue_accepted_unix_millis : Z;
  gs_queue_sequence : N;
  gs_uncertainty_reason : option string;
  gs_risk_clearance : option Uuid;
  gs_grant_id : DurableId;
  gs_candidate : Candidate;
  gs_offer_nonce : Uuid;
  gs_state : GrantState;
  gs_offered_unix_millis : Z;
  gs_offer_deadline_unix_millis : Z;
  gs_armed_unix_millis : option Z;
  gs_released_unix_millis : option Z;
  gs_tickets : list InvocationIntent;
  gs_sealed_release : option SealedRelease;
}.

Record InvocationTicket := {
  it_grant_id : DurableId;
  it_key : AllocationKey;
  it_offer_nonce : Uuid;
  it_intent : InvocationIntent;
  it_configuration_sha256 : string;
  it_issued_unix_millis : Z;
  it_host_observation_generation : Uuid;
  it_host_sample_unix_millis : Z;
  it_session : SessionIdentity;
}.

Record ReconcileAllocation := {
  ra_key : AllocationKey;
  ra_offer_nonce : Uuid;
  ra_tickets : list InvocationIntent;
  ra_sealed_release : option SealedRelease;
}.
#[global] Instance ReconcileAllocation_eq_dec : EqDecision ReconcileAllocation.
Proof. solve_decision. Defined.

Inductive Outcome :=
| InventoryPage (grants : list GrantSnapshot) (next : option AllocationKey) (configuration_sha256 : string)
| Acknowledged (through_sequence : N)
| Accepted (revision : N)
| OGrant (grant : GrantSnapshot)
| OTicket (ticket : InvocationTicket)
| OReleased (grant_id : DurableId) (sealed_sequence : N)
| Inspection (grants : list GrantSnapshot) (truncated : bool)
| Reconciled (end_sequence : N) (released : list AllocationKey)
| Rejected (code detail : string).

Inductive Command :=
| ReportUncertain (key : AllocationKey) (offer_nonce : Uuid) (reason : string)
| InspectPage (after : option AllocationKey) (limit : N)
| Acknowledge (through_sequence : N)
| CandidateUpsert (candidate : Candidate)
| Withdraw (key : AllocationKey) (revision : N)
| Arm (key : AllocationKey) (offer_nonce : Uuid)
| AuthorizeInvocation (key : AllocationKey) (offer_nonce : Uuid) (intent : InvocationIntent)
| CancelCandidate (key : AllocationKey) (revision : N)
| Release (release : SealedRelease)
| Inspect (key : option AllocationKey)
| ReconcileBegin (snapshot_id : Uuid) (begin_sequence end_sequence page_count : N)
    (digest configuration_sha256 : string)
| ReconcilePage (snapshot_id : Uuid) (index : N) (allocations : list ReconcileAllocation)
| ReconcileCommit (snapshot_id : Uuid).

Record Request := {
  rq_version : N;
  rq_session : SessionIdentity;
  rq_request_sequence : N;
  rq_operation_id : Uuid;
  rq_payload_sha256 : string;
  rq_command : Command;
  rq_authentication : string;
}.

Record Reply := {
  rp_session : SessionIdentity;
  rp_request_sequence : N;
  rp_operation_id : Uuid;
  rp_coordinator_revision : N;
  rp_outcome : Outcome;
}.

Definition WIRE_VERSION : N := 1.
Definition MAX_FRAME_BYTES : N := 1024 * 1024.
Definition MAX_DOMAIN_CANDIDATES : N := 4096.
Definition MAX_MACHINE_CANDIDATES : N := 65536.
Definition MAX_RECONCILE_PAGE : N := 256.
Definition MAX_RECONCILE_BYTES : N := 16 * 1024 * 1024.
Definition OFFER_MILLIS : Z := 5000.
Definition CANDIDATE_MILLIS : Z := 30000.

(** What [serde_json] and [sha2] compute of the messages. *)
Record Wire := {
  payload_hash : Command → string;
  pages_hash : list (list ReconcileAllocation) → string;
  candidate_len : Candidate → N;
  grant_len : GrantSnapshot → N;
  pages_len : list (option (list ReconcileAllocation)) → N;
  reply_len : Reply → N;
  request_len : Request → N;
}.

(** ** Errors ([StoreError] of [src/src/store/mod.rs]): the variants of the
    modelled paths *)
Inductive StoreError :=
| OperationRejected (code detail : string)
| ERejected (detail : string)
| EBlockedByAncestor (detail : string)
| EManagedWaitRejected (code detail : string)
| EIdempotencyConflict (existing requested : string)
| EViewStale (detail : string)
| EViewUnavailable (detail : string)
| EInvalidSpec (detail : string)
| EInvalidState (detail : string)
| ENotFound (detail : string)
| EIo (detail : string)
| EJson (detail : string)
| ESql (detail : string)
| EPanic (detail : string).   (* not an error value: the process panics *)

Definition rejected (code detail : string) : StoreError := OperationRejected code detail.

(** ** Validation *)
Section machine.
Context (wire : Wire).

Definition Request_validate (r : Request) : result string unit :=
  let s := rq_session r in
  _ ← guard_err (bool_decide (rq_version r ≠ WIRE_VERSION)) "unsupported machine wire version"%string;
  _ ← guard_err (bool_decide (rq_request_sequence r = 0) || uuid_is_nil (rq_operation_id r)
                 || bool_decide (se_connection_epoch s = 0) || uuid_is_nil (se_machine_id s)
                 || uuid_is_nil (se_authority_epoch s) || uuid_is_nil (se_domain_id s)
                 || uuid_is_nil (se_manager_store_uuid s) || uuid_is_nil (se_executor_incarnation s)
                 || bool_decide (rq_payload_sha256 r ≠ payload_hash wire (rq_command r)))
        "invalid machine request identity or payload hash"%string;
  match rq_command r with
  | ReconcilePage _ _ allocations =>
      guard_err (bool_decide (MAX_RECONCILE_PAGE < N.of_nat (length allocations)))
        "reconciliation page exceeds record limit"%string
  | _ => Ok tt
  end.

Definition owned (r : Request) (key : AllocationKey) : result StoreError unit :=
  guard_err (negb (owns (rq_session r) key) || uuid_is_nil (ak_lease_id key))
    (rejected "unauthorized" "allocation belongs to another authority/domain/store").

Definition is_hexdigit (c : ascii) : bool :=
  let n := N_of_ascii c in
  bool_decide (48 ≤ n ≤ 57) || bool_decide (65 ≤ n ≤ 70) || bool_decide (97 ≤ n ≤ 102).

Definition is_digest (value : string) : bool :=
  bool_decide (len value = 64) && string_forall is_hexdigit value.

Definition spec_error (r : result Error unit) : result StoreError unit :=
  match r with
  | Ok u => Ok u
  | Err (InvalidSpec detail) => Err (EInvalidSpec ("invalid specification: " +:+ detail))
  | Err Serialization => Err (EInvalidSpec "serialization failed")
  end.

Definition owner_store_matches (c : Candidate) : bool :=
  match cd_owner c with
  | Work job_id attempt_id =>
      bool_decide (store_uuid job_id = ak_manager_store_uuid (cd_key c))
      && bool_decide (store_uuid attempt_id = store_uuid job_id)
  | ProbeOwner job_id invocation_id =>
      bool_decide (store_uuid job_id = ak_manager_store_uuid (cd_key c))
      && bool_decide (store_uuid invocation_id = store_uuid job_id)
  end.

Definition claim_name_invalid (s : string) : bool :=
  bool_decide (s = "") || bool_decide (1024 < len s) || contains_nul s.

Definition validate_candidate (r : Request) (c : Candidate) (configuration : string)
    : result StoreError unit :=
  _ ← owned r (cd_key c);
  _ ← guard_err (bool_decide (MAX_FRAME_BYTES / 2 < candidate_len wire c))
        (rejected "limit_exceeded" "candidate exceeds the allocation byte budget");
  _ ← spec_error (validate_option ObservedResourcePolicy_validate (cd_observed c));
  _ ← spec_error (validate_option QuietPolicy_validate (cd_quiet c));
  _ ← guard_err (negb (owner_store_matches c) || negb (bool_decide (-3 ≤ cd_priority c ≤ 3)%Z)
                 || bool_decide (cd_revision c = 0) || bool_decide (i64_max < Z.of_N (cd_revision c))%Z
                 || bool_decide (cd_configuration_sha256 c ≠ configuration))
        (rejected "invalid_candidate" "candidate owner, priority, revision or configuration is invalid");
  let m := cd_claims c in
  guard_err (bool_decide (256 < size (mc_scalars m))%nat
             || bool_decide (512 < length (mc_shared_fences m) + length (mc_exclusive_fences m))%nat
             || bool_decide (64 < length (mc_impacts m))%nat
             || existsb claim_name_invalid
                  (btree_keys (mc_scalars m) ++ mc_shared_fences m ++ mc_exclusive_fences m ++ mc_impacts m))
    (rejected "limit_exceeded" "candidate vector exceeds shape bounds").
End machine.

(** ** Tickets ([src/src/store/machine_ticket.rs]) *)
Definition cleanup_matches (intent : InvocationIntent) (proof : TicketCleanup) : bool :=
  bool_decide (tc_invocation_id proof = in_invocation_id intent)
  && bool_decide (tc_release_sequence proof = in_release_sequence intent)
  && bool_decide (tc_boundary_sha256 proof = in_boundary_sha256 intent)
  && is_digest (tc_proof_sha256 proof).

(** [u32::checked_add(1)]. *)
Definition u32_succ (n : N) : option N := if decide (n + 1 ≤ u32_max) then Some (n + 1) else None.

Definition valid_role (owner : AllocationOwner) (previous : option InvocationIntent)
    (intent : InvocationIntent) : bool :=
  match owner with
  | ProbeOwner _ invocation_id =>
      bool_decide (previous = None) && bool_decide (in_role intent = RoleProbe)
      && bool_decide (in_role_index intent = 0) && bool_decide (in_invocation_id intent = invocation_id)
  | Work _ _ =>
      match previous with
      | None => bool_decide (in_role intent = RolePrimary) && bool_decide (in_role_index intent = 0)
      | Some last =>
          let released := match in_previous_cleanup intent with
                          | Some p => tc_user_code_released p | None => false end in
          match in_role last, in_role intent, released with
          | RolePrimary, RolePrimary, false => bool_decide (in_role_index intent = 0)
          | RolePrimary, RolePostcondition, true => bool_decide (in_role_index intent = 0)
          | RolePostcondition, RolePostcondition, false =>
              bool_decide (in_role_index intent = in_role_index last)
          | RolePostcondition, RolePostcondition, true =>
              bool_decide (u32_succ (in_role_index last) = Some (in_role_index intent))
          | _, _, _ => false
          end
      end
  end.

Definition sequence_follows (previous : option InvocationIntent) (intent : InvocationIntent) : bool :=
  match previous, in_previous_cleanup intent with
  | None, None => bool_decide (in_release_sequence intent = 1)
  | Some last, Some proof =>
      cleanup_matches last proof
      && bool_decide (checked_add (in_release_sequence last) 1 = Some (in_release_sequence intent))
  | _, _ => false
  end.

Definition validate_next (grant : GrantSnapshot) (intent : InvocationIntent) : result StoreError unit :=
  let store := ak_manager_store_uuid (cd_key (gs_candidate grant)) in
  _ ← guard_err (bool_decide (store_uuid (in_invocation_id intent) ≠ store)
                 || bool_decide (store_uuid (in_containment_id intent) ≠ store)
                 || uuid_is_nil (entity_uuid (in_invocation_id intent))
                 || uuid_is_nil (entity_uuid (in_containment_id intent))
                 || uuid_is_nil (in_readiness_challenge intent)
                 || negb (is_digest (in_executable_sha256 intent))
                 || negb (is_digest (in_boundary_sha256 intent))
                 || bool_decide (in_release_sequence intent = 0)
                 || bool_decide (i64_max < Z.of_N (in_release_sequence intent))%Z)
        (rejected "invalid_spec" "Invocation identity, challenge or boundary is invalid");
  _ ← guard_err (bool_decide (256 ≤ length (gs_tickets grant))%nat)
        (rejected "limit_exceeded" "allocation ticket history exhausted");
  _ ← guard_err (existsb (λ t, bool_decide (in_invocation_id t = in_invocation_id intent)
                   || bool_decide (in_containment_id t = in_containment_id intent)
                   || bool_decide (in_readiness_challenge t = in_readiness_challenge intent))
                   (gs_tickets grant))
        (rejected "conflict" "ticket identity is single-use; replay the original operation");
  let previous := last (gs_tickets grant) in
  _ ← guard_err (negb (sequence_follows previous intent))
        (rejected "cleanup_incomplete"
           "next Invocation requires the exact predecessor cleanup and release sequence");
  guard_err (negb (valid_role (cd_owner (gs_candidate grant)) previous intent))
    (rejected "conflict" "Invocation role/order is incompatible with its allocation owner").
