(* ===== verification/MachineStore.v ===== *)
(** * MachineStore: the coordinator's tables and commands
    ([src/src/store/machine.rs] schema, [src/src/store/machine_allocation.rs],
    [machine_queue.rs], [machine_reservation.rs], [machine_ticket.rs])

    The tables are finite maps; a JSON column holds the value it encodes.  A
    command maps the tables to new tables and an outcome, or to an error whose
    effects the savepoint rolls back. *)
From S2P Require Import Prelude Spec Validate Kernel Scoped Observation Machine.

(** ** Tables *)
Inductive CandidateState := Ready | Withdrawn | Canceled | CReleased.
#[global] Instance CandidateState_eq_dec : EqDecision CandidateState.
Proof. solve_decision. Defined.

(** [queue_owner]: [remote:<job>] or [native:<job>]. *)
Inductive QueueOwner := Remote (job : DurableId) | Native (job : Uuid).
#[global] Instance QueueOwner_eq_dec : EqDecision QueueOwner.
Proof. solve_decision. Defined.
Definition queue_owner_code (o : QueueOwner) : DurableId + Uuid :=
  match o with Remote job => inl job | Native job => inr job end.
#[global] Program Instance QueueOwner_countable : Countable QueueOwner :=
  inj_countable' queue_owner_code (λ c, match c with inl job => Remote job | inr job => Native job end) _.
Next Obligation. by intros []. Qed.

Record CandidateRow := {
  cr_domain_id : ExecutionDomainId;
  cr_candidate : Candidate;
  cr_queue_owner : QueueOwner;
  cr_state : CandidateState;
  cr_expires_ms : Z;
  cr_revision : N;
  cr_reservation_deadline_ms : option Z;
  cr_not_before_ms : option Z;
}.

Record GrantRow := {
  gr_snapshot : GrantSnapshot;
  gr_physical_claims : ResolvedClaims;
  gr_state : GrantState;
  gr_deadline_ms : Z;
}.

Record DomainRow := {
  dr_manager_store_uuid : Uuid;
  dr_connection_epoch : N;
  dr_executor_incarnation : option Uuid;
  dr_reconciliation_required : bool;
  dr_retired_sequence_floor : N;
  dr_accepted_sequence : N;
}.

Record OperationRow := {
  op_operation_id : Uuid;
  op_payload_sha256 : string;
  op_response : Outcome;
}.

Record QueueRow := {
  qr_sequence : Z;
  qr_accepted_ms : Z;
  qr_priority : option Z;
}.

Record TicketIdentityRow := {
  ti_containment_id : DurableId;
  ti_allocation_key : AllocationKey;
  ti_intent : InvocationIntent;
}.
#[global] Instance TicketIdentityRow_eq_dec : EqDecision TicketIdentityRow.
Proof. solve_decision. Defined.

Record QuietProgress := {
  qp_consumed : N;
  qp_generation : option string;
  qp_evaluated : option N;
  qp_first : option N;
  qp_last : option N;
}.

(** The manifest of a snapshot: the fields of its [ReconcileBegin]. *)
Record ReconcileRow := {
  rr_snapshot_id : Uuid;
  rr_end_sequence : N;
  rr_digest : string;
  rr_pages : list (option (list ReconcileAllocation));
}.

Record Tables := {
  tb_domains : gmap ExecutionDomainId DomainRow;
  tb_operations : gmap (ExecutionDomainId * N) OperationRow;
  tb_queue : gmap QueueOwner QueueRow;
  tb_queue_next : Z;
  tb_candidates : gmap AllocationKey CandidateRow;
  tb_grants : gmap AllocationKey GrantRow;
  tb_tickets : gmap DurableId TicketIdentityRow;
  tb_readiness : gmap AllocationKey QuietProgress;
  tb_reservations : gmap AllocationKey ResolvedClaims;
  tb_reconciles : gmap ExecutionDomainId ReconcileRow;
  tb_schedule_ms : Z;
  tb_revision : N;
  tb_leases : list ResolvedClaims;   (* claims_json of leases in state granted *)
}.

Definition set_candidates (f : gmap AllocationKey CandidateRow → gmap AllocationKey CandidateRow)
    (t : Tables) : Tables :=
  {| tb_domains := tb_domains t; tb_operations := tb_operations t; tb_queue := tb_queue t;
     tb_queue_next := tb_queue_next t; tb_candidates := f (tb_candidates t); tb_grants := tb_grants t;
     tb_tickets := tb_tickets t; tb_readiness := tb_readiness t; tb_reservations := tb_reservations t;
     tb_reconciles := tb_reconciles t; tb_schedule_ms := tb_schedule_ms t;
     tb_revision := tb_revision t; tb_leases := tb_leases t |}.

Definition set_grants (f : gmap AllocationKey GrantRow → gmap AllocationKey GrantRow)
    (t : Tables) : Tables :=
  {| tb_domains := tb_domains t; tb_operations := tb_operations t; tb_queue := tb_queue t;
     tb_queue_next := tb_queue_next t; tb_candidates := tb_candidates t; tb_grants := f (tb_grants t);
     tb_tickets := tb_tickets t; tb_readiness := tb_readiness t; tb_reservations := tb_reservations t;
     tb_reconciles := tb_reconciles t; tb_schedule_ms := tb_schedule_ms t;
     tb_revision := tb_revision t; tb_leases := tb_leases t |}.

Definition set_tickets (tickets : gmap DurableId TicketIdentityRow) (t : Tables) : Tables :=
  {| tb_domains := tb_domains t; tb_operations := tb_operations t; tb_queue := tb_queue t;
     tb_queue_next := tb_queue_next t; tb_candidates := tb_candidates t; tb_grants := tb_grants t;
     tb_tickets := tickets; tb_readiness := tb_readiness t; tb_reservations := tb_reservations t;
     tb_reconciles := tb_reconciles t; tb_schedule_ms := tb_schedule_ms t;
     tb_revision := tb_revision t; tb_leases := tb_leases t |}.

Definition set_readiness (key : AllocationKey) (p : QuietProgress) (t : Tables) : Tables :=
  {| tb_domains := tb_domains t; tb_operations := tb_operations t; tb_queue := tb_queue t;
     tb_queue_next := tb_queue_next t; tb_candidates := tb_candidates t; tb_grants := tb_grants t;
     tb_tickets := tb_tickets t; tb_readiness := <[key := p]> (tb_readiness t);
     tb_reservations := tb_reservations t; tb_reconciles := tb_reconciles t;
     tb_schedule_ms := tb_schedule_ms t; tb_revision := tb_revision t; tb_leases := tb_leases t |}.

Definition set_domains (f : gmap ExecutionDomainId DomainRow → gmap ExecutionDomainId DomainRow)
    (t : Tables) : Tables :=
  {| tb_domains := f (tb_domains t); tb_operations := tb_operations t; tb_queue := tb_queue t;
     tb_queue_next := tb_queue_next t; tb_candidates := tb_candidates t; tb_grants := tb_grants t;
     tb_tickets := tb_tickets t; tb_readiness := tb_readiness t; tb_reservations := tb_reservations t;
     tb_reconciles := tb_reconciles t; tb_schedule_ms := tb_schedule_ms t;
     tb_revision := tb_revision t; tb_leases := tb_leases t |}.

Definition set_operations (f : gmap (ExecutionDomainId * N) OperationRow → gmap (ExecutionDomainId * N) OperationRow)
    (t : Tables) : Tables :=
  {| tb_domains := tb_domains t; tb_operations := f (tb_operations t); tb_queue := tb_queue t;
     tb_queue_next := tb_queue_next t; tb_candidates := tb_candidates t; tb_grants := tb_grants t;
     tb_tickets := tb_tickets t; tb_readiness := tb_readiness t; tb_reservations := tb_reservations t;
     tb_reconciles := tb_reconciles t; tb_schedule_ms := tb_schedule_ms t;
     tb_revision := tb_revision t; tb_leases := tb_leases t |}.

Definition set_reconciles (f : gmap ExecutionDomainId ReconcileRow → gmap ExecutionDomainId ReconcileRow)
    (t : Tables) : Tables :=
  {| tb_domains := tb_domains t; tb_operations := tb_operations t; tb_queue := tb_queue t;
     tb_queue_next := tb_queue_next t; tb_candidates := tb_candidates t; tb_grants := tb_grants t;
     tb_tickets := tb_tickets t; tb_readiness := tb_readiness t; tb_reservations := tb_reservations t;
     tb_reconciles := f (tb_reconciles t); tb_schedule_ms := tb_schedule_ms t;
     tb_revision := tb_revision t; tb_leases := tb_leases t |}.

Definition set_queue (owner : QueueOwner) (row : QueueRow) (t : Tables) : Tables :=
  {| tb_domains := tb_domains t; tb_operations := tb_operations t;
     tb_queue := <[owner := row]> (tb_queue t); tb_queue_next := tb_queue_next t + 1;
     tb_candidates := tb_candidates t; tb_grants := tb_grants t;
     tb_tickets := tb_tickets t; tb_readiness := tb_readiness t; tb_reservations := tb_reservations t;
     tb_reconciles := tb_reconciles t; tb_schedule_ms := tb_schedule_ms t;
     tb_revision := tb_revision t; tb_leases := tb_leases t |}.

Definition set_meta (schedule_ms : Z) (revision : N) (t : Tables) : Tables :=
  {| tb_domains := tb_domains t; tb_operations := tb_operations t; tb_queue := tb_queue t;
     tb_queue_next := tb_queue_next t; tb_candidates := tb_candidates t; tb_grants := tb_grants t;
     tb_tickets := tb_tickets t; tb_readiness := tb_readiness t; tb_reservations := tb_reservations t;
     tb_reconciles := tb_reconciles t; tb_schedule_ms := schedule_ms;
     tb_revision := revision; tb_leases := tb_leases t |}.

Definition set_reservations (f : gmap AllocationKey ResolvedClaims → gmap AllocationKey ResolvedClaims)
    (t : Tables) : Tables :=
  {| tb_domains := tb_domains t; tb_operations := tb_operations t; tb_queue := tb_queue t;
     tb_queue_next := tb_queue_next t; tb_candidates := tb_candidates t; tb_grants := tb_grants t;
     tb_tickets := tb_tickets t; tb_readiness := tb_readiness t;
     tb_reservations := f (tb_reservations t); tb_reconciles := tb_reconciles t;
     tb_schedule_ms := tb_schedule_ms t; tb_revision := tb_revision t; tb_leases := tb_leases t |}.

(** ** Grants *)
Definition is_outstanding (s : GrantState) : bool :=
  match s with Offered | Armed | Uncertain => true | Expired | Released => false end.

Definition with_state (g : GrantSnapshot) (s : GrantState) (armed released : option Z)
    (reason : option string) (seal : option SealedRelease) : GrantSnapshot :=
  {| gs_queue_accepted_unix_millis := gs_queue_accepted_unix_millis g;
     gs_queue_sequence := gs_queue_sequence g; gs_uncertainty_reason := reason;
     gs_risk_clearance := gs_risk_clearance g; gs_grant_id := gs_grant_id g;
     gs_candidate := gs_candidate g; gs_offer_nonce := gs_offer_nonce g; gs_state := s;
     gs_offered_unix_millis := gs_offered_unix_millis g;
     gs_offer_deadline_unix_millis := gs_offer_deadline_unix_millis g;
     gs_armed_unix_millis := armed; gs_released_unix_millis := released;
     gs_tickets := gs_tickets g; gs_sealed_release := seal |}.

(** The mutations of a loaded snapshot. *)
Definition arm_grant (g : GrantSnapshot) (now : Z) : GrantSnapshot :=
  with_state g Armed (Some now) (gs_released_unix_millis g) (gs_uncertainty_reason g) (gs_sealed_release g).
Definition expire_grant (g : GrantSnapshot) : GrantSnapshot :=
  with_state g Expired (gs_armed_unix_millis g) (gs_released_unix_millis g)
    (gs_uncertainty_reason g) (gs_sealed_release g).
Definition uncertain_grant (g : GrantSnapshot) (reason : string) : GrantSnapshot :=
  with_state g Uncertain (gs_armed_unix_millis g) (gs_released_unix_millis g)
    (Some reason) (gs_sealed_release g).
Definition release_grant (g : GrantSnapshot) (release : SealedRelease) (now : Z) : GrantSnapshot :=
  with_state g Released (gs_armed_unix_millis g) (Some (default now (gs_released_unix_millis g)))
    (gs_uncertainty_reason g) (Some release).
Definition push_ticket (g : GrantSnapshot) (intent : InvocationIntent) : GrantSnapshot :=
  {| gs_queue_accepted_unix_millis := gs_queue_accepted_unix_millis g;
     gs_queue_sequence := gs_queue_sequence g; gs_uncertainty_reason := gs_uncertainty_reason g;
     gs_risk_clearance := gs_risk_clearance g; gs_grant_id := gs_grant_id g;
     gs_candidate := gs_candidate g; gs_offer_nonce := gs_offer_nonce g; gs_state := gs_state g;
     gs_offered_unix_millis := gs_offered_unix_millis g;
     gs_offer_deadline_unix_millis := gs_offer_deadline_unix_millis g;
     gs_armed_unix_millis := gs_armed_unix_millis g;
     gs_released_unix_millis := gs_released_unix_millis g;
     gs_tickets := gs_tickets g ++ [intent]; gs_sealed_release := gs_sealed_release g |}.

Definition load_grant (t : Tables) (key : AllocationKey) : result StoreError GrantSnapshot :=
  row ← ok_or (tb_grants t !! key) (rejected "not_found" "allocation has no Offer or Grant");
  let grant := gr_snapshot row in
  _ ← guard_err (bool_decide (cd_key (gs_candidate grant) ≠ key) || bool_decide (gs_state grant ≠ gr_state row))
        (EInvalidState "Grant state or allocation identity is inconsistent");
  Ok grant.

(** [INSERT OR IGNORE INTO machine_ticket_identities]: the invocation is the
    primary key and the containment is unique. *)
Definition insert_ticket_identity (tickets : gmap DurableId TicketIdentityRow) (key : AllocationKey)
    (intent : InvocationIntent) : gmap DurableId TicketIdentityRow :=
  if bool_decide (is_Some (tickets !! in_invocation_id intent))
     || existsb (λ p, bool_decide (ti_containment_id p.2 = in_containment_id intent)) (map_to_list tickets)
  then tickets
  else <[in_invocation_id intent := {| ti_containment_id := in_containment_id intent;
           ti_allocation_key := key; ti_intent := intent |}]> tickets.

Definition record_ticket (key : AllocationKey) (tickets : gmap DurableId TicketIdentityRow)
    (intent : InvocationIntent) : result StoreError (gmap DurableId TicketIdentityRow) :=
  let tickets := insert_ticket_identity tickets key intent in
  _ ← guard_err (negb (bool_decide (tickets !! in_invocation_id intent =
                   Some {| ti_containment_id := in_containment_id intent;
                           ti_allocation_key := key; ti_intent := intent |})))
        (rejected "conflict" "Invocation or Containment already has another start right");
  Ok tickets.

Definition save_grant (t : Tables) (grant : GrantSnapshot) (physical : option ResolvedClaims)
    : result StoreError Tables :=
  let key := cd_key (gs_candidate grant) in
  let row claims := {| gr_snapshot := grant; gr_physical_claims := claims; gr_state := gs_state grant;
                       gr_deadline_ms := gs_offer_deadline_unix_millis grant |} in
  let t := match physical with
    | Some claims => set_grants (λ grants, <[key := row claims]> grants) t
    | None => set_grants (λ grants, alter (λ old, row (gr_physical_claims old)) key grants) t
    end in
  tickets ← result_foldM (record_ticket key) (tb_tickets t) (gs_tickets grant);
  Ok (set_tickets tickets t).

Definition update_candidate (key : AllocationKey) (f : CandidateRow → CandidateRow) (t : Tables) : Tables :=
  set_candidates (λ rows, alter f key rows) t.

Definition retire_candidate (state : CandidateState) (revision : option N) (row : CandidateRow)
    : CandidateRow :=
  {| cr_domain_id := cr_domain_id row; cr_candidate := cr_candidate row;
     cr_queue_owner := cr_queue_owner row; cr_state := state; cr_expires_ms := cr_expires_ms row;
     cr_revision := default (cr_revision row) revision; cr_reservation_deadline_ms := None;
     cr_not_before_ms := cr_not_before_ms row |}.

(** ** Release *)

(** One issued ticket against the proofs of the seal. *)
Definition cover_ticket (grant : GrantSnapshot) (release : SealedRelease) (covered : gset DurableId)
    (ticket : InvocationIntent) : result StoreError (gset DurableId) :=
  proof ← ok_or (List.find (λ p, bool_decide (tc_invocation_id p = in_invocation_id ticket)
                   && bool_decide (tc_release_sequence p = in_release_sequence ticket)) (sr_tickets release))
    (rejected "cleanup_incomplete" "issued Invocation ticket has no sealed proof");
  _ ← guard_err (bool_decide (tc_invocation_id proof ∈ covered)
                 || bool_decide (tc_boundary_sha256 proof ≠ in_boundary_sha256 ticket)
                 || negb (is_digest (tc_proof_sha256 proof))
                 || existsb (λ prior, bool_decide (tc_invocation_id prior = tc_invocation_id proof)
                                      && bool_decide (prior ≠ proof))
                      (omap in_previous_cleanup (gs_tickets grant)))
        (rejected "cleanup_incomplete" "cleanup proof identity is invalid or duplicated");
  Ok ({[tc_invocation_id proof]} ∪ covered).

Definition apply_release (t : Tables) (r : Request) (release : SealedRelease) (now : Z)
    : result StoreError (Tables * GrantSnapshot) :=
  _ ← owned r (sr_key release);
  grant ← load_grant t (sr_key release);
  _ ← guard_err (match gs_sealed_release grant with Some old => bool_decide (old ≠ release) | None => false end)
        (rejected "conflict" "a sealed release cannot change its payload");
  _ ← guard_err (bool_decide (gs_offer_nonce grant ≠ sr_offer_nonce release)
                 || bool_decide (sr_sealed_sequence release = 0))
        (rejected "conflict" "release seal does not name the allocated Offer");
  _ ← guard_err (match gs_state grant with Armed | Uncertain | Released => false | _ => true end)
        (rejected "stale" "release does not cover a potentially used Grant");
  _ ← guard_err (bool_decide (length (sr_tickets release) ≠ length (gs_tickets grant)))
        (rejected "cleanup_incomplete" "release does not cover every issued ticket");
  _ ← result_foldM (cover_ticket grant release) ∅ (gs_tickets grant);
  let grant := release_grant grant release now in
  t ← save_grant t grant None;
  Ok (update_candidate (sr_key release) (retire_candidate CReleased None) t, grant).

(** ** Tickets: [authorize] *)
Record Readiness := {
  rd_config : HostConfig;
  rd_sample : option HostSample;
  rd_clock : result StoreError (Z * N);   (* observation_clock() *)
}.

Definition u32_claim (v : N) : option N :=
  if bool_decide (v ≤ u32_max) && bool_decide (0 < v) then Some v else None.

Definition observed_claims (physical : ResolvedClaims) : ResourceClaims :=
  {| rc_cpu_units := u32_claim (cl_cpu_units physical);
     rc_ram_mb := if bool_decide (0 < cl_ram_mb physical) then Some (cl_ram_mb physical) else None;
     rc_cargo_slots := u32_claim (cl_cargo_slots physical);
     rc_gpu_slots := u32_claim (cl_gpu_slots physical);
     rc_custom := cl_custom physical; rc_shared_fences := []; rc_exclusive_fences := [];
     rc_impacts := btree_elements (cl_impacts physical) |}.

(** Native leases and the other outstanding grants. *)
Definition active_debits (t : Tables) (key : AllocationKey) : list ResolvedClaims :=
  tb_leases t ++ omap (λ '(k, row),
    if bool_decide (k ≠ key) && is_outstanding (gr_state row) then Some (gr_physical_claims row) else None)
    (btree_entries (tb_grants t)).

Section store.
Context (uuid_to_string : Uuid → string) (wire : Wire).

(** The quiet part: new progress and what the ticket still waits for. *)
Definition quiet_progress (config : HostConfig) (quiet : QuietPolicy) (context : AdmissionContext)
    (monotonic : N) (p : QuietProgress) : QuietProgress * option Blocker :=
  let consumed := quiet_budget uuid_to_string (qp_consumed p) (qp_generation p) (qp_evaluated p) context in
  let stability := quiet_stability uuid_to_string (qp_generation p) (qp_first p) (qp_last p) context
                     (hoc_quiet_max_sample_gap_millis (host_observation config)) in
  let progress := {| qp_consumed := consumed;
    qp_generation := Some (uuid_to_string (ac_observation_generation context));
    qp_evaluated := Some monotonic; qp_first := stability.1; qp_last := stability.2 |} in
  (progress,
   if bool_decide (saturating_mul (quiet_wait_budget_seconds quiet) 1000 ≤ consumed) then
     Some {| blocker_code := "quiet_unattainable";
             blocker_detail := "allocation exhausted its cumulative quiet wait budget" |}
   else if match stability.1 ≫= λ first, checked_sub monotonic first with
           | Some elapsed => bool_decide (elapsed < saturating_mul (quiet_stable_seconds quiet) 1000)
           | None => true
           end
   then Some (default {| blocker_code := "quiet_waiting";
                         blocker_detail := "host quiet interval is not yet stable" |}
                (head (ac_quiet_blockers context)))
   else None).

(** Resource blockers and the observation of one authorization. *)
Definition ticket_waiting (config : HostConfig) (grant : GrantSnapshot) (context : AdmissionContext)
    (resource_blockers : list Blocker) (monotonic : N) (p : QuietProgress)
    : QuietProgress * option Blocker :=
  match match head resource_blockers with
        | Some b => Some b | None => head (ac_non_quiet_blockers context) end with
  | Some blocker =>
      ({| qp_consumed := qp_consumed p; qp_generation := None; qp_evaluated := None;
          qp_first := None; qp_last := None |}, Some blocker)
  | None =>
      match cd_quiet (gs_candidate grant) with
      | Some quiet => quiet_progress config quiet context monotonic p
      | None => (p, None)
      end
  end.

Definition no_progress : QuietProgress :=
  {| qp_consumed := 0; qp_generation := None; qp_evaluated := None; qp_first := None; qp_last := None |}.

Definition issue_ticket (r : Request) (grant : GrantSnapshot) (intent : InvocationIntent)
    (sample : HostSample) (unix : Z) : InvocationTicket :=
  {| it_grant_id := gs_grant_id grant; it_key := cd_key (gs_candidate grant);
     it_offer_nonce := gs_offer_nonce grant; it_intent := intent;
     it_configuration_sha256 := cd_configuration_sha256 (gs_candidate grant);
     it_issued_unix_millis := unix;
     it_host_observation_generation := hs_observation_generation sample;
     it_host_sample_unix_millis := hs_captured_unix_millis sample; it_session := rq_session r |}.

Definition authorize (t : Tables) (r : Request) (grant : GrantSnapshot) (intent : InvocationIntent)
    (rd : Readiness) : result StoreError (Tables * Outcome) :=
  _ ← validate_next grant intent;
  let key := cd_key (gs_candidate grant) in
  row ← ok_or (tb_candidates t !! key) (ESql "candidate row");
  _ ← guard_err (bool_decide (cr_state row ≠ Ready))
        (rejected "stale" "withdrawn or canceled allocation cannot issue new start rights");
  sample ← ok_or (rd_sample rd) (rejected "unavailable" "Invocation needs a fresh host observation barrier");
  clock ← rd_clock rd;
  let '(unix, monotonic) := clock in
  _ ← guard_err (match checked_sub monotonic (hs_captured_monotonic_millis sample) with
                 | Some age => bool_decide (250 < age) | None => true end)
        (rejected "unavailable" "host sample expired before ticket commit");
  grant_row ← ok_or (tb_grants t !! key) (ESql "grant row");
  let physical := gr_physical_claims grant_row in
  let active := active_debits t key in
  _ ← guard_err (bool_decide (u32_max < cl_cpu_units physical)
                 || bool_decide (u32_max < cl_cargo_slots physical)
                 || bool_decide (u32_max < cl_gpu_slots physical))
        (rejected "invalid_spec" "built-in claims exceed supported quantities");
  let context := evaluate_request
    {| or_resources := observed_claims physical; or_observed := cd_observed (gs_candidate grant);
       or_quiet := cd_quiet (gs_candidate grant) |} (rd_config rd) sample active unix monotonic in
  let prior := default no_progress (tb_readiness t !! key) in
  resource_blockers ← ok_or (blockers uuid_to_string physical (host_resources (rd_config rd)) active
      (host_impact_incompatibilities (rd_config rd))) (EPanic "native topology");
  let '(progress, waiting) := ticket_waiting (rd_config rd) grant context resource_blockers monotonic prior in
  let t := set_readiness key progress t in
  match waiting with
  | Some blocker => Ok (t, Rejected (blocker_code blocker) (blocker_detail blocker))
  | None =>
      t ← save_grant t (push_ticket grant intent) None;
      Ok (t, OTicket (issue_ticket r grant intent sample unix))
  end.

(** ** Commands *)
Definition compact_operations (t : Tables) (domain : ExecutionDomainId) (floor : N) : Tables :=
  set_domains (λ rows, alter (λ row,
      {| dr_manager_store_uuid := dr_manager_store_uuid row;
         dr_connection_epoch := dr_connection_epoch row;
         dr_executor_incarnation := dr_executor_incarnation row;
         dr_reconciliation_required := dr_reconciliation_required row;
         dr_retired_sequence_floor := N.max (dr_retired_sequence_floor row) floor;
         dr_accepted_sequence := dr_accepted_sequence row |}) domain rows)
    (set_operations (filter (λ p : ExecutionDomainId * N * OperationRow,
       ¬ (p.1.1 = domain ∧ p.1.2 ≤ floor))) t).

Definition acknowledge (t : Tables) (r : Request) (through_sequence : N)
    : result StoreError (Tables * Outcome) :=
  row ← ok_or (tb_domains t !! se_domain_id (rq_session r)) (ESql "domain row");
  _ ← guard_err (bool_decide (dr_accepted_sequence row < through_sequence)
                 || bool_decide (through_sequence < dr_retired_sequence_floor row))
        (rejected "stale" "acknowledgement is outside the continuous accepted interval");
  Ok (compact_operations t (se_domain_id (rq_session r)) through_sequence, Acknowledged through_sequence).

Definition authorize_invocation (t : Tables) (r : Request) (configuration : string)
    (recovering authority_closed : bool) (rd : Readiness) (key : AllocationKey) (offer_nonce : Uuid)
    (intent : InvocationIntent) : result StoreError (Tables * Outcome) :=
  _ ← owned r key;
  grant ← load_grant t key;
  _ ← guard_err (recovering || authority_closed || bool_decide (gs_state grant ≠ Armed)
                 || bool_decide (gs_offer_nonce grant ≠ offer_nonce)
                 || bool_decide (cd_configuration_sha256 (gs_candidate grant) ≠ configuration))
        (rejected "stale" "Invocation authorization needs a current reconciled Armed Grant");
  authorize t r grant intent rd.

Definition arm (t : Tables) (r : Request) (configuration : string) (recovering authority_closed : bool)
    (now : Z) (key : AllocationKey) (offer_nonce : Uuid) : result StoreError (Tables * Outcome) :=
  _ ← owned r key;
  grant ← load_grant t key;
  _ ← guard_err (bool_decide (gs_offer_nonce grant ≠ offer_nonce)) (rejected "stale" "Offer nonce changed");
  match gs_state grant with
  | Armed | Uncertain => Ok (t, OGrant grant)
  | Offered =>
      _ ← guard_err (recovering || authority_closed
                     || bool_decide (gs_offer_deadline_unix_millis grant ≤ now)%Z
                     || bool_decide (cd_configuration_sha256 (gs_candidate grant) ≠ configuration))
            (rejected "stale" "Offer expired or authority/readiness needs reconciliation");
      row ← ok_or (tb_candidates t !! key) (ESql "candidate row");
      _ ← guard_err (bool_decide (cr_state row ≠ Ready)
                     || bool_decide (cr_revision row ≠ cd_revision (gs_candidate grant))
                     || bool_decide (cr_expires_ms row ≤ now)%Z)
            (rejected "stale" "candidate readiness was withdrawn");
      let grant := arm_grant grant now in
      t ← save_grant t grant None;
      Ok (t, OGrant grant)
  | Expired | Released => Err (rejected "stale" "allocation is retired or no longer offered")
  end.

Definition release_command (t : Tables) (r : Request) (now : Z) (release : SealedRelease)
    : result StoreError (Tables * Outcome) :=
  res ← apply_release t r release now;
  Ok (res.1, OReleased (gs_grant_id res.2) (sr_sealed_sequence release)).

Definition report_uncertain (t : Tables) (r : Request) (key : AllocationKey) (offer_nonce : Uuid)
    (reason : string) : result StoreError (Tables * Outcome) :=
  _ ← owned r key;
  _ ← guard_err (bool_decide (reason = "") || bool_decide (1024 < len reason) || contains_nul reason)
        (rejected "invalid_spec" "uncertainty needs a bounded reason");
  grant ← load_grant t key;
  _ ← guard_err (bool_decide (gs_offer_nonce grant ≠ offer_nonce)
                 || match gs_state grant with Armed | Uncertain => false | _ => true end)
        (rejected "stale" "uncertainty requires an outstanding Armed allocation");
  let grant := uncertain_grant grant reason in
  t ← save_grant t grant None;
  Ok (t, OGrant grant).

(** Ready and unexpired candidates, and outstanding grants, other than [except]. *)
Definition counts_as_active (t : Tables) (except : AllocationKey) (now : Z)
    (p : AllocationKey * CandidateRow) : bool :=
  bool_decide (p.1 ≠ except)
  && ((bool_decide (cr_state p.2 = Ready) && bool_decide (now < cr_expires_ms p.2)%Z)
      || match tb_grants t !! p.1 with Some g => is_outstanding (gr_state g) | None => false end).

Definition active_candidate_counts (t : Tables) (domain : ExecutionDomainId) (except : AllocationKey)
    (now : Z) : N * N :=
  let rows := List.filter (counts_as_active t except now) (map_to_list (tb_candidates t)) in
  (N.of_nat (length (List.filter (λ p, bool_decide (cr_domain_id p.2 = domain)) rows)),
   N.of_nat (length rows)).

Definition owner_job (o : AllocationOwner) : DurableId :=
  match o with Work job_id _ => job_id | ProbeOwner job_id _ => job_id end.

(** The update of a candidate that is already known. *)
Definition refresh_candidate (t : Tables) (candidate : Candidate) (row : CandidateRow) (now : Z)
    : result StoreError Tables :=
  let prior := cr_candidate row in
  _ ← guard_err (bool_decide (cd_claims prior ≠ cd_claims candidate)
                 || bool_decide (cd_owner prior ≠ cd_owner candidate)
                 || bool_decide (cd_priority prior ≠ cd_priority candidate)
                 || bool_decide (cd_observed prior ≠ cd_observed candidate)
                 || bool_decide (cd_quiet prior ≠ cd_quiet candidate))
        (rejected "conflict" "allocation owner, claims and priority are immutable");
  _ ← guard_err (bool_decide (cd_revision candidate < cr_revision row)
                 || bool_decide (cr_state row = Canceled) || bool_decide (cr_state row = CReleased))
        (rejected "stale" "candidate revision was withdrawn or retired");
  _ ← guard_err (bool_decide (cd_revision candidate = cr_revision row) && bool_decide (prior ≠ candidate))
        (rejected "conflict" "candidate revision payload changed");
  _ ← guard_err (bool_decide (cd_revision candidate = cr_revision row) && bool_decide (cr_state row ≠ Ready))
        (rejected "stale" "withdrawn revision cannot become ready again");
  Ok (update_candidate (cd_key candidate) (λ row,
        {| cr_domain_id := cr_domain_id row; cr_candidate := candidate;
           cr_queue_owner := cr_queue_owner row; cr_state := Ready;
           cr_expires_ms := i64_saturating_add now CANDIDATE_MILLIS; cr_revision := cd_revision candidate;
           cr_reservation_deadline_ms := cr_reservation_deadline_ms row;
           cr_not_before_ms := cr_not_before_ms row |}) t).

(** The first acceptance: a queue entry per job, kept across retries. *)
Definition accept_candidate (t : Tables) (candidate : Candidate) (now : Z) : result StoreError Tables :=
  let owner := Remote (owner_job (cd_owner candidate)) in
  let t := match tb_queue t !! owner with
    | Some _ => t
    | None => set_queue owner {| qr_sequence := tb_queue_next t; qr_accepted_ms := now;
                                 qr_priority := Some (cd_priority candidate) |} t
    end in
  accepted ← ok_or (tb_queue t !! owner ≫= qr_priority) (ESql "queue priority");
  _ ← guard_err (bool_decide (accepted ≠ cd_priority candidate))
        (rejected "conflict" "retry changed the original accepted priority");
  Ok (set_candidates (λ rows, <[cd_key candidate :=
        {| cr_domain_id := ak_domain_id (cd_key candidate); cr_candidate := candidate;
           cr_queue_owner := owner; cr_state := Ready;
           cr_expires_ms := i64_saturating_add now CANDIDATE_MILLIS; cr_revision := cd_revision candidate;
           cr_reservation_deadline_ms := None; cr_not_before_ms := None |}]> rows) t).

Definition candidate_upsert (t : Tables) (r : Request) (configuration : string)
    (recovering authority_closed : bool) (now : Z) (candidate : Candidate)
    : result StoreError (Tables * Outcome) :=
  _ ← validate_candidate wire r candidate configuration;
  _ ← guard_err (recovering || authority_closed)
        (rejected "history_unknown" "candidate admission requires completed reconciliation");
  let counts := active_candidate_counts t (ak_domain_id (cd_key candidate)) (cd_key candidate) now in
  _ ← guard_err (bool_decide (MAX_DOMAIN_CANDIDATES ≤ counts.1) || bool_decide (MAX_MACHINE_CANDIDATES ≤ counts.2))
        (rejected "limit_exceeded" "ready candidate budget exhausted");
  t ← match tb_candidates t !! cd_key candidate with
      | Some row => refresh_candidate t candidate row now
      | None => accept_candidate t candidate now
      end;
  Ok (t, Accepted (cd_revision candidate)).

Definition withdraw (t : Tables) (r : Request) (key : AllocationKey) (revision : N) (canceled : bool)
    : result StoreError (Tables * Outcome) :=
  _ ← owned r key;
  _ ← guard_err (match tb_candidates t !! key with
                 | Some row => bool_decide (revision ≤ cr_revision row) | None => true end
                 || bool_decide (i64_max < Z.of_N revision)%Z)
        (rejected "stale" "withdrawal needs a newer candidate revision");
  let state := if canceled then Canceled else Withdrawn in
  let t := update_candidate key (retire_candidate state (Some revision)) t in
  t ← match tb_grants t !! key with
      | Some row =>
          if bool_decide (gr_state row = Offered)
          then save_grant t (expire_grant (gr_snapshot row)) None else Ok t
      | None => Ok t
      end;
  Ok (t, Accepted revision).

(** ** Inventory *)

(** The rows of the query, in key order, before [LIMIT]. *)
Definition inventory_rows (t : Tables) (domain : ExecutionDomainId) (exact after : option AllocationKey)
    (outstanding_only : bool) : list GrantSnapshot :=
  omap (λ '(key, row),
    if match tb_candidates t !! key with Some c => bool_decide (cr_domain_id c = domain) | None => false end
       && match exact with Some e => bool_decide (key = e) | None => true end
       && match after with Some a => bool_decide (btree_le a key) && bool_decide (a ≠ key) | None => true end
       && (negb outstanding_only || is_outstanding (gr_state row))
    then Some (gr_snapshot row) else None) (btree_entries (tb_grants t)).

(** The loop over the rows: [grants] so far, their [bytes], and the truncation. *)
Fixpoint take_page (limit : N) (rows : list GrantSnapshot) (grants : list GrantSnapshot) (bytes : N)
    : result StoreError (list GrantSnapshot * bool) :=
  match rows with
  | [] => Ok (grants, false)
  | row :: rows =>
      if bool_decide (N.of_nat (length grants) = limit)
         || bool_decide (MAX_FRAME_BYTES - 4096 < bytes + grant_len wire row + 1) then
        _ ← guard_err (bool_decide (length grants = 0%nat))
              (rejected "limit_exceeded" "single allocation exceeds the inventory page byte budget");
        Ok (grants, true)
      else take_page limit rows (grants ++ [row]) (bytes + grant_len wire row + 1)
  end.

Definition inventory_page (t : Tables) (domain : ExecutionDomainId) (exact after : option AllocationKey)
    (limit : N) (outstanding_only : bool) : result StoreError (list GrantSnapshot * bool) :=
  _ ← guard_err (bool_decide (limit = 0) || bool_decide (256 < limit))
        (rejected "limit_exceeded" "inventory page size must be 1..256");
  take_page limit (take (N.to_nat (limit + 1)) (inventory_rows t domain exact after outstanding_only)) [] 0.

Definition owned_option (r : Request) (key : option AllocationKey) : result StoreError unit :=
  match key with Some key => owned r key | None => Ok tt end.

Definition inspect_page (t : Tables) (r : Request) (configuration : string) (after : option AllocationKey)
    (limit : N) : result StoreError (Tables * Outcome) :=
  _ ← owned_option r after;
  page ← inventory_page t (se_domain_id (rq_session r)) None after limit true;
  let next := if page.2 : bool then (λ g, cd_key (gs_candidate g)) <$> last page.1 else None in
  Ok (t, InventoryPage page.1 next configuration).

Definition inspect (t : Tables) (r : Request) (key : option AllocationKey)
    : result StoreError (Tables * Outcome) :=
  _ ← owned_option r key;
  page ← inventory_page t (se_domain_id (rq_session r)) key None 256 false;
  Ok (t, Inspection page.1 page.2).

(** ** Reconciliation *)
Definition set_reconciliation_required (required : bool) (row : DomainRow) : DomainRow :=
  {| dr_manager_store_uuid := dr_manager_store_uuid row;
     dr_connection_epoch := dr_connection_epoch row;
     dr_executor_incarnation := dr_executor_incarnation row;
     dr_reconciliation_required := required;
     dr_retired_sequence_floor := dr_retired_sequence_floor row;
     dr_accepted_sequence := dr_accepted_sequence row |}.

Definition reconcile_begin (t : Tables) (r : Request) (configuration : string) (snapshot_id : Uuid)
    (begin_sequence end_sequence page_count : N) (digest configuration_sha256 : string)
    : result StoreError (Tables * Outcome) :=
  let domain := se_domain_id (rq_session r) in
  row ← ok_or (tb_domains t !! domain) (ESql "domain row");
  _ ← guard_err (uuid_is_nil snapshot_id || bool_decide (MAX_DOMAIN_CANDIDATES < page_count)
                 || bool_decide (end_sequence < begin_sequence)
                 || bool_decide (end_sequence ≠ dr_accepted_sequence row)
                 || bool_decide (begin_sequence ≠ 0)
                 || bool_decide (configuration_sha256 ≠ configuration))
        (rejected "history_unknown" "snapshot sequence, configuration or page bounds are discontinuous");
  let t := set_reconciles (λ rows, <[domain := {| rr_snapshot_id := snapshot_id;
             rr_end_sequence := end_sequence; rr_digest := digest;
             rr_pages := replicate (N.to_nat page_count) None |}]> rows) t in
  Ok (set_domains (λ rows, alter (set_reconciliation_required true) domain rows) t,
      Accepted end_sequence).

Definition find_reconcile (t : Tables) (domain : ExecutionDomainId) (snapshot_id : Uuid)
    : result StoreError ReconcileRow :=
  match tb_reconciles t !! domain with
  | Some row => if bool_decide (rr_snapshot_id row = snapshot_id) then Ok row
                else Err (rejected "stale" "snapshot not begun")
  | None => Err (rejected "stale" "snapshot not begun")
  end.

Definition reconcile_page (t : Tables) (r : Request) (snapshot_id : Uuid) (index : N)
    (allocations : list ReconcileAllocation) : result StoreError (Tables * Outcome) :=
  let domain := se_domain_id (rq_session r) in
  row ← find_reconcile t domain snapshot_id;
  let pages := rr_pages row in
  let i := N.to_nat index in
  _ ← guard_err (bool_decide (MAX_RECONCILE_PAGE < N.of_nat (length allocations))
                 || bool_decide (length pages ≤ i)%nat
                 || existsb (λ p, bool_decide (p = None)) (take i pages))
        (rejected "history_unknown" "snapshot page is oversized or out of order");
  _ ← result_mapM (λ a, owned r (ra_key a)) allocations;
  _ ← guard_err (match pages !! i with
                 | Some (Some old) => bool_decide (old ≠ allocations) | _ => false end)
        (rejected "conflict" "snapshot page changed");
  let pages := <[i := Some allocations]> pages in
  _ ← guard_err (bool_decide (MAX_DOMAIN_CANDIDATES < N.of_nat (length (concat (omap id pages))))
                 || bool_decide (MAX_RECONCILE_BYTES < pages_len wire pages))
        (rejected "limit_exceeded" "reconciliation inventory exceeds durable count/byte bounds");
  Ok (set_reconciles (λ rows, <[domain := {| rr_snapshot_id := rr_snapshot_id row;
        rr_end_sequence := rr_end_sequence row; rr_digest := rr_digest row; rr_pages := pages |}]> rows) t,
      Accepted index).

(** The inventory of a complete snapshot, by key. *)
Definition snapshot_inventory (pages : list (list ReconcileAllocation))
    : result StoreError (gmap AllocationKey ReconcileAllocation) :=
  result_foldM (λ inventory a,
    _ ← guard_err (bool_decide (is_Some (inventory !! ra_key a)))
          (rejected "conflict" "duplicate allocation in snapshot");
    Ok (<[ra_key a := a]> inventory)) ∅ (concat pages).

(** Every outstanding grant of the domain appears with its nonce and tickets. *)
Definition outstanding_grants (t : Tables) (domain : ExecutionDomainId) : list (AllocationKey * GrantSnapshot) :=
  omap (λ '(key, row),
    if match tb_candidates t !! key with Some c => bool_decide (cr_domain_id c = domain) | None => false end
       && is_outstanding (gr_state row)
    then Some (key, gr_snapshot row) else None) (btree_entries (tb_grants t)).

Definition check_expected (inventory : gmap AllocationKey ReconcileAllocation)
    (expected : AllocationKey * GrantSnapshot) : result StoreError unit :=
  let '(key, grant) := expected in
  recorded ← ok_or (inventory !! key)
    (rejected "history_unknown" "snapshot omitted an outstanding allocation");
  guard_err (bool_decide (ra_offer_nonce recorded ≠ gs_offer_nonce grant)
             || bool_decide (ra_tickets recorded ≠ gs_tickets grant))
    (rejected "history_unknown" "snapshot does not cover all issued start rights").

(** One record of the inventory against the coordinator's history. *)
Definition reconcile_record (r : Request) (now : Z) (st : Tables * list AllocationKey)
    (entry : AllocationKey * ReconcileAllocation) : result StoreError (Tables * list AllocationKey) :=
  let '(t, released) := st in
  let '(key, record) := entry in
  if bool_decide (tb_grants t !! key = None) then
    _ ← guard_err (negb (uuid_is_nil (ra_offer_nonce record)) || negb (bool_decide (ra_tickets record = []))
                   || bool_decide (is_Some (ra_sealed_release record)))
          (rejected "history_unknown" "manager has start rights absent from coordinator history");
    Ok (t, released)
  else
    grant ← load_grant t (ra_key record);
    _ ← guard_err (bool_decide (ra_offer_nonce record ≠ gs_offer_nonce grant)
                   || bool_decide (ra_tickets record ≠ gs_tickets grant))
          (rejected "history_unknown" "snapshot changed a retained allocation identity or ticket inventory");
    match ra_sealed_release record with
    | Some seal =>
        _ ← guard_err (bool_decide (sr_key seal ≠ ra_key record)
                       || bool_decide (sr_offer_nonce seal ≠ ra_offer_nonce record))
              (rejected "conflict" "snapshot seal belongs to another allocation");
        res ← apply_release t r seal now;
        Ok (res.1, released ++ [ra_key record])
    | None => Ok (t, released)
    end.

Definition reconcile_commit (t : Tables) (r : Request) (now : Z) (snapshot_id : Uuid)
    : result StoreError (Tables * Outcome) :=
  let domain := se_domain_id (rq_session r) in
  row ← find_reconcile t domain snapshot_id;
  pages ← ok_or (mapM id (rr_pages row)) (rejected "history_unknown" "snapshot has missing pages");
  _ ← guard_err (bool_decide (pages_hash wire pages ≠ rr_digest row))
        (rejected "history_unknown" "snapshot digest mismatch");
  inventory ← snapshot_inventory pages;
  _ ← result_mapM (check_expected inventory) (outstanding_grants t domain);
  st ← result_foldM (reconcile_record r now) (t, []) (btree_entries inventory);
  let t := set_domains (λ rows, alter (set_reconciliation_required false) domain rows) st.1 in
  Ok (set_reconciles (delete domain) t, Reconciled (rr_end_sequence row) st.2).

Definition apply_command (t : Tables) (r : Request) (configuration : string)
    (recovering authority_closed : bool) (now : Z) (rd : Readiness) : result StoreError (Tables * Outcome) :=
  match rq_command r with
  | Acknowledge through_sequence => acknowledge t r through_sequence
  | AuthorizeInvocation key offer_nonce intent =>
      authorize_invocation t r configuration recovering authority_closed rd key offer_nonce intent
  | Arm key offer_nonce => arm t r configuration recovering authority_closed now key offer_nonce
  | Release release => release_command t r now release
  | ReportUncertain key offer_nonce reason => report_uncertain t r key offer_nonce reason
  | CandidateUpsert candidate => candidate_upsert t r configuration recovering authority_closed now candidate
  | Withdraw key revision => withdraw t r key revision false
  | CancelCandidate key revision => withdraw t r key revision true
  | InspectPage after limit => inspect_page t r configuration after limit
  | Inspect key => inspect t r key
  | ReconcileBegin snapshot_id begin_sequence end_sequence page_count digest configuration_sha256 =>
      reconcile_begin t r configuration snapshot_id begin_sequence end_sequence page_count digest
        configuration_sha256
  | ReconcilePage snapshot_id index allocations => reconcile_page t r snapshot_id index allocations
  | ReconcileCommit snapshot_id => reconcile_commit t r now snapshot_id
  end.

(** ** The exchange *)

(** The grants whose new state the authority journal records first. *)
Definition commit_grants (t : Tables) (r : Request) (outcome : Outcome)
    : result StoreError (list GrantSnapshot) :=
  match outcome with
  | OGrant grant =>
      match gs_state grant with Armed | Uncertain => Ok [grant] | _ => Ok [] end
  | OReleased grant_id _ =>
      match rq_command r with
      | Release release =>
          grant ← load_grant t (sr_key release);
          _ ← guard_err (bool_decide (gs_grant_id grant ≠ grant_id))
                (EInvalidState "release Grant identity changed");
          Ok [grant]
      | _ => Err (EInvalidState "release outcome has no allocation")
      end
  | OTicket ticket => grant ← load_grant t (it_key ticket); Ok [grant]
  | Reconciled _ released => result_mapM (load_grant t) released
  | _ => Ok []
  end.

Definition is_acknowledged (o : Outcome) : bool := match o with Acknowledged _ => true | _ => false end.
Definition is_acknowledge (c : Command) : bool := match c with Acknowledge _ => true | _ => false end.

(** What the authority registry and its journal contribute to an exchange
    ([src/src/authority.rs]): any implementation. *)
Record Authority := {
  au_retired_domain : ExecutionDomainId → bool;
  (* the committed executor of a domain: its role and its session *)
  au_participant : ExecutionDomainId → option (bool * option SessionIdentity);
  au_verify : Request → bool;
  au_epoch : option Uuid;
  au_machine_id : option Uuid;
  au_blocked : bool;
  (* [check_machine_commit] and [prepare_machine_commit] *)
  au_check_commit : Request → Outcome → list GrantSnapshot → result StoreError unit;
  au_prepare_commit : Request → Outcome → list GrantSnapshot → result StoreError unit;
}.

(** [rejection]: errors that become a durable outcome. *)
Definition rejection (e : StoreError) : result StoreError Outcome :=
  match e with
  | OperationRejected code detail => Ok (Rejected code detail)
  | EInvalidSpec detail => Ok (Rejected "invalid_spec" detail)
  | _ => Err e
  end.

(** The recorded operation with this sequence or operation id. *)
Definition find_operation (t : Tables) (r : Request) : option (N * OperationRow) :=
  head (omap (λ p : ExecutionDomainId * N * OperationRow,
    if bool_decide (p.1.1 = se_domain_id (rq_session r))
       && (bool_decide (p.1.2 = rq_request_sequence r) || bool_decide (op_operation_id p.2 = rq_operation_id r))
    then Some (p.1.2, p.2) else None) (btree_entries (tb_operations t))).

Definition operation_count (t : Tables) (domain : ExecutionDomainId) : N :=
  N.of_nat (length (List.filter (λ p : ExecutionDomainId * N * OperationRow,
    bool_decide (p.1.1 = domain)) (map_to_list (tb_operations t)))).

(** The command in its savepoint: its effects and outcome, or nothing and the
    rejection. *)
Definition run_command (t : Tables) (r : Request) (configuration : string) (recovering : bool)
    (au : Authority) (now : Z) (rd : Readiness) : result StoreError (Tables * Outcome) :=
  match
    (res ← apply_command t r configuration recovering (au_blocked au) now rd;
     let preview := {| rp_session := rq_session r; rp_request_sequence := rq_request_sequence r;
                       rp_operation_id := rq_operation_id r; rp_coordinator_revision := u64_max;
                       rp_outcome := res.2 |} in
     _ ← guard_err (bool_decide (MAX_FRAME_BYTES < reply_len wire preview))
           (rejected "limit_exceeded" "machine response exceeds the wire byte budget");
     grants ← commit_grants res.1 r res.2;
     _ ← (if negb (bool_decide (length grants = 0%nat)) || is_acknowledged res.2
          then au_check_commit au r res.2 grants else Ok tt);
     Ok res)
  with
  | Ok res => Ok res
  | Err e => outcome ← rejection e; Ok (t, outcome)
  end.

Definition record_operation (t : Tables) (r : Request) (outcome : Outcome) : Tables :=
  let domain := se_domain_id (rq_session r) in
  let t := set_operations (λ ops, <[(domain, rq_request_sequence r) :=
             {| op_operation_id := rq_operation_id r; op_payload_sha256 := rq_payload_sha256 r;
                op_response := outcome |}]> ops) t in
  let t := set_domains (λ rows, alter (λ row,
      {| dr_manager_store_uuid := dr_manager_store_uuid row;
         dr_connection_epoch := dr_connection_epoch row;
         dr_executor_incarnation := dr_executor_incarnation row;
         dr_reconciliation_required := dr_reconciliation_required row;
         dr_retired_sequence_floor := dr_retired_sequence_floor row;
         dr_accepted_sequence := rq_request_sequence r |}) domain rows) t in
  set_meta (tb_schedule_ms t) (tb_revision t + 1) t.

(** A new operation: sequence checks, the command, the replay record. *)
Definition new_operation (t : Tables) (r : Request) (configuration : string) (au : Authority)
    (participant : DomainRow) (wall : Z) (rd : Readiness) : result StoreError (Tables * Outcome) :=
  _ ← guard_err (bool_decide (rq_request_sequence r ≤ dr_retired_sequence_floor participant))
        (rejected "history_unknown" "operation is below the retired sequence floor");
  _ ← guard_err (bool_decide (checked_add (dr_accepted_sequence participant) 1 ≠ Some (rq_request_sequence r))
                 || bool_decide (i64_max < Z.of_N (rq_request_sequence r))%Z)
        (rejected "stale" "request sequence is not the next durable operation");
  _ ← guard_err (bool_decide (16384 ≤ operation_count t (se_domain_id (rq_session r)))
                 && negb (is_acknowledge (rq_command r)))
        (rejected "limit_exceeded" "operation history requires bilateral acknowledgement before compaction");
  let now := Z.max wall (tb_schedule_ms t) in
  let t := set_meta now (tb_revision t) t in
  res ← run_command t r configuration (dr_reconciliation_required participant) au now rd;
  Ok (record_operation res.1 r res.2, res.2).

(** The guards of the session. *)
Definition check_session (t : Tables) (r : Request) (au : Authority) : result StoreError DomainRow :=
  let s := rq_session r in
  _ ← guard_err (au_retired_domain au (se_domain_id s))
        (rejected "retired_domain" "the owner retired this manager registration");
  _ ← match Request_validate wire r with Ok u => Ok u | Err e => Err (EIo e) end;
  _ ← guard_err (bool_decide (MAX_FRAME_BYTES < request_len wire r)) (EIo "machine frame exceeds length bounds");
  anchor ← ok_or (au_participant au (se_domain_id s)) (rejected "unauthorized" "paired executor not found");
  _ ← guard_err (negb anchor.1)
        (rejected "unauthorized" "runtime-adapter role cannot issue executor operations");
  _ ← guard_err (negb (au_verify au r))
        (rejected "unauthorized" "machine operation authentication failed");
  _ ← guard_err (bool_decide (anchor.2 ≠ Some s))
        (rejected "stale" "session was fenced by the durable pairing anchor");
  machine_id ← ok_or (au_machine_id au) (rejected "history_unknown" "machine identity is unavailable");
  _ ← guard_err (bool_decide (au_epoch au ≠ Some (se_authority_epoch s))
                 || bool_decide (machine_id ≠ se_machine_id s))
        (rejected "stale" "machine authority changed");
  participant ← ok_or (tb_domains t !! se_domain_id s) (rejected "not_found" "participant is not registered");
  _ ← guard_err (bool_decide (dr_connection_epoch participant ≠ se_connection_epoch s)
                 || bool_decide (dr_manager_store_uuid participant ≠ se_manager_store_uuid s)
                 || bool_decide (dr_executor_incarnation participant ≠ Some (se_executor_incarnation s)))
        (rejected "stale" "participant connection or store was fenced");
  Ok participant.

(** A journaled transition ([MachineCommitIntent] of [src/src/authority.rs]). *)
Record MachineCommitIntent := {
  mi_request : Request;
  mi_outcome : Outcome;
  mi_grants : list GrantSnapshot;
}.

(** The transaction of [machine_exchange], from the session guards to
    [tx.commit()]: the tables it commits, the reply, and the transition it
    journals first, if any. *)
Definition exchange_commit (t : Tables) (r : Request) (configuration : string) (au : Authority)
    (wall : Z) (rd : Readiness) : result StoreError (Tables * Reply * option MachineCommitIntent) :=
  participant ← check_session t r au;
  res ← match find_operation t r with
        | Some (sequence, op) =>
            _ ← guard_err (bool_decide (sequence ≠ rq_request_sequence r)
                           || bool_decide (op_operation_id op ≠ rq_operation_id r)
                           || bool_decide (op_payload_sha256 op ≠ rq_payload_sha256 r))
                  (rejected "conflict" "operation or sequence has another payload");
            Ok (t, op_response op, false)
        | None =>
            res ← new_operation t r configuration au participant wall rd;
            Ok (res.1, res.2, true)
        end;
  let '(t, outcome, is_new) := res in
  grants ← (if is_new : bool then commit_grants t r outcome else Ok []);
  let prepared := negb (bool_decide (length grants = 0%nat)) || is_acknowledged outcome in
  _ ← (if prepared then au_prepare_commit au r outcome grants else Ok tt);
  Ok (t, {| rp_session := rq_session r; rp_request_sequence := rq_request_sequence r;
            rp_operation_id := rq_operation_id r; rp_coordinator_revision := tb_revision t;
            rp_outcome := outcome |},
      if prepared then Some {| mi_request := r; mi_outcome := outcome; mi_grants := grants |} else None).
End store.
