(* ===== verification/MachineFacts.v ===== *)
(** * MachineFacts: invariants of the coordinator store

    Every command keeps the tables consistent, moves each grant along its
    lifecycle and issues start rights in sequence; operations replay. *)
From S2P Require Import Prelude Spec Validate Kernel Scoped Observation Machine MachineStore.

(** ** The tickets of one grant *)

(** Tickets issued in order: each one follows the cleanup of its predecessor,
    has a role its owner allows next, and shares no identity with the others. *)
Inductive ticket_chain (owner : AllocationOwner) : list InvocationIntent → Prop :=
| chain_nil : ticket_chain owner []
| chain_snoc l i :
    ticket_chain owner l →
    sequence_follows (last l) i = true →
    valid_role owner (last l) i = true →
    (∀ t, t ∈ l → in_invocation_id t ≠ in_invocation_id i ∧ in_containment_id t ≠ in_containment_id i ∧
       in_readiness_challenge t ≠ in_readiness_challenge i) →
    ticket_chain owner (l ++ [i]).

Lemma sequence_follows_succ l i :
  sequence_follows (last l) i = true →
  (∀ j t, l !! j = Some t → in_release_sequence t = N.of_nat (S j)) →
  in_release_sequence i = N.of_nat (S (length l)).
Proof.
  intros Hs Hl. unfold sequence_follows in Hs.
  destruct (last l) as [t|] eqn:Hlast; destruct (in_previous_cleanup i) as [p|]; try done.
  - apply andb_true_iff in Hs as [_ Hs%bool_decide_eq_true]. apply checked_add_Some in Hs as [-> _].
    rewrite last_lookup in Hlast. destruct l as [|x l]; [done|]. apply Hl in Hlast as ->.
    simpl. lia.
  - apply last_None in Hlast as ->. by apply bool_decide_eq_true in Hs as ->.
Qed.

(** The release sequence numbers of a chain count from one. *)
Lemma ticket_chain_sequence owner l j t :
  ticket_chain owner l → l !! j = Some t → in_release_sequence t = N.of_nat (S j).
Proof.
  intros Hc. revert j t. induction Hc as [|l i Hc IH Hs _ _]; intros j t; [done|].
  intros [[Hj Ht]|[-> ->]]%lookup_snoc_Some; [by apply IH|by apply sequence_follows_succ].
Qed.

Lemma ticket_chain_NoDup owner l :
  ticket_chain owner l → NoDup (in_invocation_id <$> l) ∧ NoDup (in_containment_id <$> l).
Proof.
  induction 1 as [|l i Hc [IH1 IH2] _ _ Hfresh]; [split; constructor|].
  rewrite !fmap_app. split; apply NoDup_app; (split_and!; [done| |apply NoDup_singleton]);
    intros x (t & -> & Ht)%list_elem_of_fmap Hx%list_elem_of_singleton;
    destruct (Hfresh t Ht) as (? & ? & ?); done.
Qed.

(** [proof] closes [ticket] without contradicting an earlier cleanup. *)
Definition closes (tickets : list InvocationIntent) (ticket : InvocationIntent) (proof : TicketCleanup) : Prop :=
  cleanup_matches ticket proof = true ∧
  ∀ later prior, later ∈ tickets → in_previous_cleanup later = Some prior →
    tc_invocation_id prior = in_invocation_id ticket → prior = proof.

(** The seal names the grant and closes each of its tickets. *)
Definition seal_covers (g : GrantSnapshot) (seal : SealedRelease) : Prop :=
  sr_key seal = cd_key (gs_candidate g) ∧ sr_offer_nonce seal = gs_offer_nonce g ∧
  length (sr_tickets seal) = length (gs_tickets g) ∧
  ∀ ticket, ticket ∈ gs_tickets g → ∃ proof, proof ∈ sr_tickets seal ∧ closes (gs_tickets g) ticket proof.

Record grant_wf (key : AllocationKey) (row : GrantRow) : Prop := {
  gw_key : cd_key (gs_candidate (gr_snapshot row)) = key;
  gw_state : gr_state row = gs_state (gr_snapshot row);
  gw_deadline : gr_deadline_ms row = gs_offer_deadline_unix_millis (gr_snapshot row);
  gw_chain : ticket_chain (cd_owner (gs_candidate (gr_snapshot row))) (gs_tickets (gr_snapshot row));
  gw_bound : (length (gs_tickets (gr_snapshot row)) ≤ 256)%nat;
  gw_unused : gr_state row = Offered ∨ gr_state row = Expired → gs_tickets (gr_snapshot row) = [];
  gw_sealed : ∀ seal, gs_sealed_release (gr_snapshot row) = Some seal →
    gr_state row = Released ∧ seal_covers (gr_snapshot row) seal;
  gw_released : gr_state row = Released →
    is_Some (gs_sealed_release (gr_snapshot row)) ∧ is_Some (gs_released_unix_millis (gr_snapshot row));
}.

Definition ticket_row (key : AllocationKey) (i : InvocationIntent) : TicketIdentityRow :=
  {| ti_containment_id := in_containment_id i; ti_allocation_key := key; ti_intent := i |}.

Record store_inv (t : Tables) : Prop := {
  si_grants : ∀ key row, tb_grants t !! key = Some row → grant_wf key row;
  si_candidates : ∀ key row, tb_candidates t !! key = Some row →
    cd_key (cr_candidate row) = key ∧ cr_domain_id row = ak_domain_id key;
  si_grant_candidate : ∀ key, is_Some (tb_grants t !! key) → is_Some (tb_candidates t !! key);
  si_tickets : ∀ key row i, tb_grants t !! key = Some row → i ∈ gs_tickets (gr_snapshot row) →
    tb_tickets t !! in_invocation_id i = Some (ticket_row key i);
  si_containments : ∀ a b x y, tb_tickets t !! a = Some x → tb_tickets t !! b = Some y →
    ti_containment_id x = ti_containment_id y → a = b;
  si_sequences : ∀ d s op, tb_operations t !! (d, s) = Some op →
    ∃ row, tb_domains t !! d = Some row ∧ dr_retired_sequence_floor row < s ≤ dr_accepted_sequence row;
  si_floor : ∀ d row, tb_domains t !! d = Some row →
    dr_retired_sequence_floor row ≤ dr_accepted_sequence row;
  si_operations : ∀ d s s' op op', tb_operations t !! (d, s) = Some op →
    tb_operations t !! (d, s') = Some op' → op_operation_id op = op_operation_id op' → s = s';
}.

(** ** Saving a grant *)
Lemma record_ticket_spec key tk i tk' :
  record_ticket key tk i = Ok tk' →
  tk ⊆ tk' ∧ tk' !! in_invocation_id i = Some (ticket_row key i) ∧
  ((∀ a b x y, tk !! a = Some x → tk !! b = Some y → ti_containment_id x = ti_containment_id y → a = b) →
   (∀ a b x y, tk' !! a = Some x → tk' !! b = Some y → ti_containment_id x = ti_containment_id y → a = b)).
Proof.
  unfold record_ticket, insert_ticket_identity. intros H. result_inv. split_conditions.
  destruct (bool_decide _ || _) eqn:Hor; [done|]. split_conditions.
  match goal with H : ¬ is_Some _ |- _ => apply eq_None_not_Some in H as Hnone end.
  assert (∀ a x, tk !! a = Some x → ti_containment_id x ≠ in_containment_id i) as Hfresh.
  { intros a x Ha Hx. match goal with H : existsb _ _ = false |- _ => rename H into Hex end.
    apply not_true_iff_false in Hex. apply Hex, existsb_exists. exists (a, x). split.
    - by apply list_elem_of_In, elem_of_map_to_list.
    - by apply bool_decide_eq_true. }
  split_and!; [by apply insert_subseteq|done|].
  intros Huniq a b x y. rewrite !lookup_insert.
  repeat case_decide; subst; try done; intros Hx Hy Hxy; simplify_eq/=.
  - by destruct (Hfresh _ _ Hy).
  - by destruct (Hfresh _ _ Hx).
  - by apply (Huniq a b x y).
Qed.

Lemma record_tickets_spec key tk l tk' :
  result_foldM (record_ticket key) tk l = Ok tk' →
  tk ⊆ tk' ∧ (∀ i, i ∈ l → tk' !! in_invocation_id i = Some (ticket_row key i)) ∧
  ((∀ a b x y, tk !! a = Some x → tk !! b = Some y → ti_containment_id x = ti_containment_id y → a = b) →
   (∀ a b x y, tk' !! a = Some x → tk' !! b = Some y → ti_containment_id x = ti_containment_id y → a = b)).
Proof.
  apply (result_foldM_ind (λ done tk', tk ⊆ tk' ∧
    (∀ i, i ∈ done → tk' !! in_invocation_id i = Some (ticket_row key i)) ∧
    ((∀ a b x y, tk !! a = Some x → tk !! b = Some y → ti_containment_id x = ti_containment_id y → a = b) →
     (∀ a b x y, tk' !! a = Some x → tk' !! b = Some y → ti_containment_id x = ti_containment_id y → a = b)))).
  { split_and!; [done|set_solver|done]. }
  intros done i rest s1 s2 _ (IH1 & IH2 & IH3) (H1 & H2 & H3)%record_ticket_spec.
  split_and!; [by etrans| |tauto].
  intros j [Hj|Hj%list_elem_of_singleton]%elem_of_app; [|by subst].
  eapply lookup_weaken; [by apply IH2|done].
Qed.

(** The row an update writes. *)
Definition saved_row (old : GrantRow) (g : GrantSnapshot) : GrantRow :=
  {| gr_snapshot := g; gr_physical_claims := gr_physical_claims old; gr_state := gs_state g;
     gr_deadline_ms := gs_offer_deadline_unix_millis g |}.

(** Everything but the grants and the ticket identities is untouched. *)
Definition same_but_grants (t t' : Tables) : Prop :=
  t' = set_tickets (tb_tickets t') (set_grants (λ _, tb_grants t') t).

Lemma save_grant_Ok t g t' :
  save_grant t g None = Ok t' →
  same_but_grants t t' ∧
  tb_grants t' = alter (λ old, saved_row old g) (cd_key (gs_candidate g)) (tb_grants t) ∧
  result_foldM (record_ticket (cd_key (gs_candidate g))) (tb_tickets t) (gs_tickets g) = Ok (tb_tickets t').
Proof. unfold save_grant. intros H. result_inv. done. Qed.

(** ** Lifecycles *)

(** The states reachable from a state by commands. *)
Definition lifecycle (s s' : GrantState) : bool :=
  match s, s' with
  | Offered, _ => true
  | Armed, (Armed | Uncertain | Released) => true
  | Uncertain, (Uncertain | Released) => true
  | Expired, Expired => true
  | Released, Released => true
  | _, _ => false
  end.

Record grant_evolves (row row' : GrantRow) : Prop := {
  ge_identity : gs_grant_id (gr_snapshot row') = gs_grant_id (gr_snapshot row) ∧
    gs_candidate (gr_snapshot row') = gs_candidate (gr_snapshot row) ∧
    gs_offer_nonce (gr_snapshot row') = gs_offer_nonce (gr_snapshot row) ∧
    gr_physical_claims row' = gr_physical_claims row;
  ge_state : lifecycle (gr_state row) (gr_state row') = true;
  ge_tickets : gs_tickets (gr_snapshot row) `prefix_of` gs_tickets (gr_snapshot row');
  ge_start_rights : gs_tickets (gr_snapshot row') ≠ gs_tickets (gr_snapshot row) →
    gr_state row = Offered ∨ gr_state row = Armed;
  ge_final : gr_state row = Released → row' = row;
}.

#[global] Instance grant_evolves_preorder : PreOrder grant_evolves.
Proof.
  split.
  - intros row. split; try done. by destruct (gr_state row).
  - intros a b c [(I1 & I2 & I3 & I4) S1 T1 R1 F1] [(J1 & J2 & J3 & J4) S2 T2 R2 F2]. split.
    + by rewrite J1, J2, J3, J4.
    + by destruct (gr_state a), (gr_state b), (gr_state c).
    + by etrans.
    + intros Hne. destruct (decide (gs_tickets (gr_snapshot b) = gs_tickets (gr_snapshot a))) as [Heq|]; [|auto].
      rewrite <-Heq in Hne. destruct (R2 Hne) as [Hb|Hb]; rewrite Hb in S1; destruct (gr_state a); auto; done.
    + intros Ha. specialize (F1 Ha). subst. auto.
Qed.

(** The grants of two tables correspond key by key. *)
Definition store_evolves (t t' : Tables) : Prop :=
  map_relation (λ _, grant_evolves) (λ _ _, False) (λ _ _, False) (tb_grants t) (tb_grants t').

#[global] Instance store_evolves_preorder : PreOrder store_evolves.
Proof.
  split.
  - intros t key. destruct (tb_grants t !! key); simpl; [reflexivity|done].
  - intros t1 t2 t3 H12 H23 key. specialize (H12 key). specialize (H23 key).
    destruct (tb_grants t1 !! key), (tb_grants t2 !! key), (tb_grants t3 !! key); simpl in *; try done.
    by etrans.
Qed.

Lemma store_evolves_same t t' : tb_grants t' = tb_grants t → store_evolves t t'.
Proof. intros Heq key. rewrite Heq. destruct (tb_grants t !! key); simpl; [reflexivity|done]. Qed.

Definition keeps (t t' : Tables) : Prop := store_inv t' ∧ store_evolves t t'.

(** Changes outside the tables of the invariant keep it. *)
Lemma keeps_frame t t' :
  store_inv t → tb_grants t' = tb_grants t → tb_tickets t' = tb_tickets t →
  tb_operations t' = tb_operations t → tb_candidates t' = tb_candidates t →
  (∀ d row', tb_domains t' !! d = Some row' → ∃ row, tb_domains t !! d = Some row ∧
     dr_retired_sequence_floor row' = dr_retired_sequence_floor row ∧
     dr_accepted_sequence row' = dr_accepted_sequence row) →
  (∀ d, is_Some (tb_domains t !! d) → is_Some (tb_domains t' !! d)) →
  keeps t t'.
Proof.
  intros [Ig Ic Igc It Ico Is If Io] Hg Ht Ho Hc Hd1 Hd2. split; [|by apply store_evolves_same].
  split; rewrite ?Hg, ?Ht, ?Ho, ?Hc; try done.
  - intros d s op Hop. destruct (Is d s op Hop) as (row & Hrow & Hlt).
    destruct (Hd2 d) as [row' Hrow']; [by eexists|]. destruct (Hd1 d row' Hrow') as (row0 & Hrow0 & Hf & Ha).
    simplify_eq. exists row'. by rewrite Hf, Ha.
  - intros d row' Hrow'. destruct (Hd1 d row' Hrow') as (row & Hrow & -> & ->). by apply (If d).
Qed.

(** Candidate rows may change as long as they keep their key. *)
Lemma keeps_candidates t f :
  store_inv t →
  (∀ key row, f (tb_candidates t) !! key = Some row →
     cd_key (cr_candidate row) = key ∧ cr_domain_id row = ak_domain_id key) →
  (∀ key, is_Some (tb_candidates t !! key) → is_Some (f (tb_candidates t) !! key)) →
  keeps t (set_candidates f t).
Proof.
  intros [Ig Ic Igc It Ico Is If Io] H1 H2. split; [|by apply store_evolves_same].
  split; simpl; try done. intros key Hkey. by apply H2, Igc.
Qed.

Lemma keeps_update_candidate t key f :
  store_inv t →
  (∀ row, tb_candidates t !! key = Some row →
     cd_key (cr_candidate (f row)) = cd_key (cr_candidate row) ∧ cr_domain_id (f row) = cr_domain_id row) →
  keeps t (update_candidate key f t).
Proof.
  intros Hinv Hf. apply keeps_candidates; [done|..].
  - intros k row Hrow. rewrite lookup_alter in Hrow. case_decide; [|by apply (si_candidates t Hinv)].
    subst. apply fmap_Some in Hrow as (row0 & Hrow0 & ->). destruct (Hf row0 Hrow0) as [-> ->].
    by apply (si_candidates t Hinv).
  - intros k Hk. rewrite lookup_alter. case_decide; [subst; by apply fmap_is_Some|done].
Qed.

(** Saving a well-formed successor of a grant. *)
Lemma keeps_save_grant t key old g t' :
  store_inv t → tb_grants t !! key = Some old → cd_key (gs_candidate g) = key →
  grant_wf key (saved_row old g) → grant_evolves old (saved_row old g) →
  save_grant t g None = Ok t' → keeps t t'.
Proof.
  intros [Ig Ic Igc It Ico Is If Io] Hold Hkey Hwf Hev (Hsame & Hg & Hfold)%save_grant_Ok.
  rewrite Hkey in *. apply record_tickets_spec in Hfold as (Hsub & Hin & Huniq).
  rewrite Hsame. split.
  - split; simpl; try done; rewrite ?Hg.
    + intros k row. rewrite lookup_alter. case_decide; [|apply Ig].
      subst. rewrite Hold. by intros [= <-].
    + intros k. rewrite lookup_alter. case_decide; [subst; rewrite fmap_is_Some|]; apply Igc.
    + intros k row i. rewrite lookup_alter. case_decide.
      * subst. rewrite Hold. intros [= <-]. apply Hin.
      * intros Hrow Hi. eapply lookup_weaken; [by eapply It|done].
    + by apply Huniq.
  - intros k. simpl. rewrite Hg, lookup_alter. case_decide.
    + subst. rewrite Hold. done.
    + destruct (tb_grants t !! k); simpl; [reflexivity|done].
Qed.

(** ** The grant updates *)
Lemma load_grant_Ok t key g :
  load_grant t key = Ok g →
  ∃ row, tb_grants t !! key = Some row ∧ gr_snapshot row = g ∧ cd_key (gs_candidate g) = key ∧
    gr_state row = gs_state g.
Proof.
  unfold load_grant. destruct (tb_grants t !! key) as [row|]; simpl; [|done].
  intros H. result_inv. apply bool_decide_or_false in Hguard as [H1%dec_stable H2%dec_stable].
  exists row. by split_and!.
Qed.

(** A change of state other than a release. *)
Lemma with_state_ok key row s armed released reason :
  grant_wf key row → gr_state row ≠ Released → s ≠ Released →
  lifecycle (gr_state row) s = true → (s = Expired → gr_state row = Offered) →
  let g := with_state (gr_snapshot row) s armed released reason (gs_sealed_release (gr_snapshot row)) in
  grant_wf key (saved_row row g) ∧ grant_evolves row (saved_row row g).
Proof.
  intros [W1 W2 W3 W4 W5 W6 W7 W8] Hnr Hs Hlc Hexp g. split; split; simpl; try done.
  - intros [->|Hx].
    + apply W6. destruct (gr_state row); auto; done.
    + apply W6. left. by apply Hexp.
  - intros seal Hseal. by destruct (W7 seal Hseal).
Qed.

Lemma cover_ticket_Ok g release covered ticket covered' :
  cover_ticket g release covered ticket = Ok covered' →
  ∃ proof, proof ∈ sr_tickets release ∧ closes (gs_tickets g) ticket proof.
Proof.
  unfold cover_ticket. destruct (List.find _ _) as [proof|] eqn:Hf; simpl; [|done].
  intros H. result_inv. apply find_some in Hf as [Hin Hmatch]. split_conditions.
  exists proof. split; [by apply list_elem_of_In|]. split.
  - unfold cleanup_matches. rewrite !bool_decide_eq_true_2 by (done || by apply dec_stable). done.
  - intros later prior Hl Hprev Hid. apply dec_stable. intros Hne.
    match goal with H : existsb _ _ = false |- _ => rename H into Hex end.
    apply not_true_iff_false in Hex. apply Hex, existsb_exists. exists prior. split.
    + apply list_elem_of_In, list_elem_of_omap. eauto.
    + apply andb_true_iff. split; apply bool_decide_eq_true; [congruence|done].
Qed.

Lemma cover_tickets_Ok g release :
  is_ok (result_foldM (cover_ticket g release) ∅ (gs_tickets g)) = true →
  ∀ ticket, ticket ∈ gs_tickets g →
    ∃ proof, proof ∈ sr_tickets release ∧ closes (gs_tickets g) ticket proof.
Proof.
  destruct (result_foldM _ _ _) as [c|] eqn:Hf; [|done]. intros _.
  revert Hf. apply (result_foldM_ind (λ done _, ∀ ticket, ticket ∈ done →
    ∃ proof, proof ∈ sr_tickets release ∧ closes (gs_tickets g) ticket proof)); [set_solver|].
  intros done x rest s1 s2 _ IH Hx%cover_ticket_Ok ticket.
  intros [Ht|Ht%list_elem_of_singleton]%elem_of_app; [by apply IH|by subst].
Qed.

Lemma release_grant_same g release now :
  gs_state g = Released → gs_sealed_release g = Some release → is_Some (gs_released_unix_millis g) →
  release_grant g release now = g.
Proof.
  destruct g; simpl. intros -> -> [z ->]. done.
Qed.

Lemma saved_row_same key row : grant_wf key row → saved_row row (gr_snapshot row) = row.
Proof. intros [_ W2 W3 _ _ _ _ _]. destruct row; unfold saved_row; simpl in *. by rewrite W2, W3. Qed.

Lemma release_grant_ok key row release now :
  grant_wf key row → gr_state row ≠ Offered → gr_state row ≠ Expired →
  (∀ old, gs_sealed_release (gr_snapshot row) = Some old → old = release) →
  seal_covers (gr_snapshot row) release →
  grant_wf key (saved_row row (release_grant (gr_snapshot row) release now)) ∧
  grant_evolves row (saved_row row (release_grant (gr_snapshot row) release now)).
Proof.
  intros Hwf Ho He Hseal Hcov. pose proof Hwf as [W1 W2 W3 W4 W5 W6 W7 W8]. split; split; simpl; try done.
  - by intros [|].
  - by intros seal [= <-].
  - by destruct (gr_state row).
  - intros Hr. destruct (W8 Hr) as [[old Hold] Hrel].
    rewrite release_grant_same; [by eapply saved_row_same|congruence| |done].
    by rewrite Hold, (Hseal _ Hold).
Qed.

Lemma validate_next_Ok g i :
  validate_next g i = Ok tt →
  (length (gs_tickets g) < 256)%nat ∧ sequence_follows (last (gs_tickets g)) i = true ∧
  valid_role (cd_owner (gs_candidate g)) (last (gs_tickets g)) i = true ∧
  ∀ t, t ∈ gs_tickets g → in_invocation_id t ≠ in_invocation_id i ∧
    in_containment_id t ≠ in_containment_id i ∧ in_readiness_challenge t ≠ in_readiness_challenge i.
Proof.
  unfold validate_next. intros H.
  repeat match type of H with (guard_err ?c _ ≫= _) = Ok _ =>
    let Hc := fresh "Hc" in destruct c eqn:Hc; cbn [guard_err mbind result_bind] in H; [done|] end.
  match type of H with guard_err ?c _ = _ => destruct c eqn:Hrole; [done|] end.
  apply bool_decide_eq_false in Hc0. apply negb_false_iff in Hc2, Hrole.
  split_and!; [lia|done|done|]. intros t Ht.
  apply not_true_iff_false in Hc1. apply dec_stable. intros Hn. apply Hc1, existsb_exists.
  exists t. split; [by apply list_elem_of_In|].
  rewrite !orb_true_iff, !bool_decide_eq_true.
  destruct (decide (in_invocation_id t = in_invocation_id i)); [tauto|].
  destruct (decide (in_containment_id t = in_containment_id i)); [tauto|].
  destruct (decide (in_readiness_challenge t = in_readiness_challenge i)); [tauto|]. by destruct Hn.
Qed.

Lemma push_ticket_ok key row i :
  grant_wf key row → gr_state row = Armed → validate_next (gr_snapshot row) i = Ok tt →
  grant_wf key (saved_row row (push_ticket (gr_snapshot row) i)) ∧
  grant_evolves row (saved_row row (push_ticket (gr_snapshot row) i)).
Proof.
  intros [W1 W2 W3 W4 W5 W6 W7 W8] Ha (Hlen & Hseq & Hrole & Hfresh)%validate_next_Ok.
  split; split; simpl; try done.
  - by constructor.
  - rewrite length_app. simpl. lia.
  - rewrite <-W2, Ha. by intros [|].
  - intros seal Hseal. destruct (W7 seal Hseal) as [Hr _]. congruence.
  - rewrite <-W2. congruence.
  - rewrite <-W2, Ha. done.
  - by apply prefix_app_r.
  - by right.
  - congruence.
Qed.

(** ** Commands *)
Lemma apply_release_keeps t r release now t' g' :
  store_inv t → apply_release t r release now = Ok (t', g') →
  keeps t t' ∧ ∃ row, tb_grants t' !! sr_key release = Some row ∧ gr_snapshot row = g' ∧
    gr_state row = Released ∧ gs_sealed_release g' = Some release.
Proof.
  intros Hinv H. unfold apply_release in H. result_inv.
  match goal with H : load_grant _ _ = Ok ?g |- _ =>
    apply load_grant_Ok in H as (row & Hrow & <- & Hkey & Hstate) end.
  pose proof (si_grants t Hinv _ _ Hrow) as Hwf.
  match goal with H : save_grant t _ None = Ok ?x |- _ => rename x into t1, H into Hsave end.
  destruct (release_grant_ok (sr_key release) row release now) as [Hwf' Hev]; try done.
  - intros Ho. rewrite Hstate in Ho. by rewrite Ho in *.
  - intros Ho. rewrite Hstate in Ho. by rewrite Ho in *.
  - intros old Hold. rewrite Hold in *. split_conditions. by apply dec_stable.
  - split_conditions. split_and!; [by rewrite Hkey|by symmetry; apply dec_stable|by apply dec_stable|].
    apply cover_tickets_Ok.
    match goal with H : result_foldM _ _ _ = Ok _ |- _ => by rewrite H end.
  - destruct (keeps_save_grant t (sr_key release) row (release_grant (gr_snapshot row) release now) t1
      Hinv Hrow Hkey Hwf' Hev Hsave) as [Hinv1 Hev1].
    destruct (keeps_update_candidate t1 (sr_key release) (retire_candidate CReleased None)) as [Hinv2 Hev2];
      [done|done|].
    split; [split; [done|by etrans]|].
    apply save_grant_Ok in Hsave as (_ & Hg & _). eexists. split_and!.
    + cbn [tb_grants update_candidate set_candidates]. rewrite Hg.
      replace (cd_key (gs_candidate (release_grant (gr_snapshot row) release now))) with (sr_key release)
        by done.
      by rewrite lookup_alter_eq, Hrow.
    + done.
    + done.
    + done.
Qed.

Section commands.
Context (uuid_to_string : Uuid → string) (wire : Wire).

Lemma acknowledge_keeps t r n t' o : store_inv t → acknowledge t r n = Ok (t', o) → keeps t t'.
Proof.
  intros Hinv H. unfold acknowledge in H.
  destruct (tb_domains t !! se_domain_id (rq_session r)) as [row|] eqn:Hrow; simpl in H; [|done].
  result_inv. apply bool_decide_or_false in Hguard as [Hn1 Hn2]. simplify_eq.
  pose proof Hinv as [Ig Ic Igc It Ico Is If Io]. set (dom := se_domain_id (rq_session r)) in *.
  split; [|by apply store_evolves_same]. split; simpl; try done.
  - intros d s op [Hop Hnot]%map_lookup_filter_Some. destruct (Is d s op Hop) as (row0 & Hrow0 & Hlt).
    rewrite lookup_alter. case_decide as Hd; [|eauto]. subst d. rewrite Hrow0. simpl.
    eexists. split; [done|]. simpl in *. simplify_eq.
    destruct (decide (s ≤ n)); [by destruct Hnot|]. lia.
  - intros d row'. rewrite lookup_alter. case_decide as Hd; [|apply If]. subst d. rewrite Hrow.
    intros [= <-]. simpl. specialize (If _ _ Hrow). lia.
  - intros d s s' op op' [H1 _]%map_lookup_filter_Some [H2 _]%map_lookup_filter_Some. by eapply Io.
Qed.

Lemma arm_keeps t r cfg rec cl now key nonce t' o :
  store_inv t → arm t r cfg rec cl now key nonce = Ok (t', o) → keeps t t'.
Proof.
  intros Hinv H. unfold arm in H. result_inv.
  match goal with H : load_grant _ _ = Ok ?g |- _ =>
    apply load_grant_Ok in H as (row & Hrow & <- & Hkey & Hstate) end.
  pose proof (si_grants t Hinv _ _ Hrow) as Hwf.
  destruct (gs_state (gr_snapshot row)) eqn:Hs; simpl in H; result_inv; simplify_eq; try by split.
  destruct (with_state_ok _ row Armed (Some now) (gs_released_unix_millis (gr_snapshot row))
    (gs_uncertainty_reason (gr_snapshot row)) Hwf) as [Hwf' Hev]; rewrite ?Hstate; try done.
  eapply keeps_save_grant; [exact Hinv|exact Hrow| |exact Hwf'|exact Hev|eassumption]; done.
Qed.

Lemma report_uncertain_keeps t r key nonce reason t' o :
  store_inv t → report_uncertain t r key nonce reason = Ok (t', o) → keeps t t'.
Proof.
  intros Hinv H. unfold report_uncertain in H. result_inv. simplify_eq.
  match goal with H : load_grant _ _ = Ok ?g |- _ =>
    apply load_grant_Ok in H as (row & Hrow & <- & Hkey & Hstate) end.
  pose proof (si_grants t Hinv _ _ Hrow) as Hwf. split_conditions.
  destruct (with_state_ok _ row Uncertain (gs_armed_unix_millis (gr_snapshot row))
    (gs_released_unix_millis (gr_snapshot row)) (Some reason) Hwf) as [Hwf' Hev];
    rewrite ?Hstate; try (by destruct (gs_state (gr_snapshot row))).
  eapply keeps_save_grant; [exact Hinv|exact Hrow| |exact Hwf'|exact Hev|eassumption]; done.
Qed.

Lemma withdraw_keeps t r key revision canceled t' o :
  store_inv t → withdraw t r key revision canceled = Ok (t', o) → keeps t t'.
Proof.
  intros Hinv H. unfold withdraw in H.
  destruct (keeps_update_candidate t key
    (retire_candidate (if canceled then Canceled else Withdrawn) (Some revision)) Hinv) as [Hinv1 Hev1]; [done|].
  generalize dependent (update_candidate key
    (retire_candidate (if canceled then Canceled else Withdrawn) (Some revision)) t).
  intros t1 H Hinv1 Hev1. result_inv. simplify_eq.
  destruct (tb_grants t1 !! key) as [row|] eqn:Hrow; [|by result_inv].
  case_bool_decide as Ho; [|by result_inv].
  pose proof (si_grants t1 Hinv1 _ _ Hrow) as Hwf.
  destruct (with_state_ok _ row Expired (gs_armed_unix_millis (gr_snapshot row))
    (gs_released_unix_millis (gr_snapshot row)) (gs_uncertainty_reason (gr_snapshot row)) Hwf)
    as [Hwf' Hev]; rewrite ?Ho; try done.
  match goal with H : save_grant t1 _ None = Ok ?t2 |- _ =>
    destruct (keeps_save_grant t1 _ row (expire_grant (gr_snapshot row)) t2 Hinv1 Hrow
      (gw_key _ _ Hwf) Hwf' Hev H) as [? ?] end.
  split; [done|by etrans].
Qed.

Lemma candidate_upsert_keeps t r cfg rec cl now c t' o :
  store_inv t → candidate_upsert wire t r cfg rec cl now c = Ok (t', o) → keeps t t'.
Proof.
  intros Hinv H. unfold candidate_upsert in H. result_inv. simplify_eq.
  destruct (tb_candidates t !! cd_key c) as [row|] eqn:Hrow.
  - match goal with H : refresh_candidate _ _ _ _ = Ok _ |- _ => unfold refresh_candidate in H end.
    result_inv. apply keeps_update_candidate; [done|]. intros row0 Hrow0. simplify_eq.
    by destruct (si_candidates t Hinv _ _ Hrow) as [-> _].
  - match goal with H : accept_candidate _ _ _ = Ok _ |- _ => unfold accept_candidate in H end.
    set (t1 := match tb_queue t !! _ with Some _ => t | None => _ end) in *.
    assert (keeps t t1) as [Hinv1 Hev1].
    { unfold t1. destruct (tb_queue t !! _); [by split|].
      apply keeps_frame; try done. intros d row' Hd. eauto. }
    result_inv. destruct (keeps_candidates t1 (λ rows, <[cd_key c := {|
        cr_domain_id := ak_domain_id (cd_key c); cr_candidate := c;
        cr_queue_owner := Remote (owner_job (cd_owner c)); cr_state := Ready;
        cr_expires_ms := i64_saturating_add now CANDIDATE_MILLIS; cr_revision := cd_revision c;
        cr_reservation_deadline_ms := None; cr_not_before_ms := None |}]> rows) Hinv1) as [Hinv2 Hev2].
    + intros k row [[<- <-]|[_ Hk]]%lookup_insert_Some; [done|by apply (si_candidates t1 Hinv1)].
    + intros k Hk. apply lookup_insert_is_Some. destruct (decide (cd_key c = k)); auto.
    + split; [done|by etrans].
Qed.

Lemma set_readiness_keeps t key p : store_inv t → keeps t (set_readiness key p t).
Proof. intros Hinv. apply keeps_frame; try done. intros d row' Hd. eauto. Qed.

Lemma authorize_invocation_keeps t r cfg rec cl rd key nonce i t' o :
  store_inv t → authorize_invocation uuid_to_string t r cfg rec cl rd key nonce i = Ok (t', o) → keeps t t'.
Proof.
  intros Hinv H. unfold authorize_invocation in H. result_inv.
  match goal with H : load_grant _ _ = Ok ?g |- _ =>
    apply load_grant_Ok in H as (row & Hrow & <- & Hkey & Hstate) end.
  pose proof (si_grants t Hinv _ _ Hrow) as Hwf. split_conditions.
  assert (gr_state row = Armed) as Ha by (rewrite Hstate; by apply dec_stable).
  unfold authorize in H.
  destruct (validate_next (gr_snapshot row) i) as [[]|] eqn:Hnext; cbn [mbind result_bind] in H; [|done].
  result_inv. match goal with c : Z * N |- _ => destruct c as [unix monotonic] end. result_inv.
  destruct (ticket_waiting _ _ _ _ _ _ _) as [progress waiting].
  destruct (set_readiness_keeps t (cd_key (gs_candidate (gr_snapshot row))) progress Hinv) as [Hinv1 Hev1].
  destruct waiting as [b|]; result_inv; simplify_eq; [done|].
  destruct (push_ticket_ok _ row i Hwf Ha Hnext) as [Hwf' Hev].
  match goal with H : save_grant ?t1 _ None = Ok ?t2 |- _ =>
    destruct (keeps_save_grant t1 _ row (push_ticket (gr_snapshot row) i) t2 Hinv1 Hrow
      eq_refl Hwf' Hev H) as [? ?] end.
  split; [done|by etrans].
Qed.

Lemma set_reconciliation_keeps t d b f :
  store_inv t →
  keeps t (set_domains (λ rows, alter (set_reconciliation_required b) d rows) (set_reconciles f t)).
Proof.
  intros Hinv. apply keeps_frame; try done; simpl.
  - intros d' row'. rewrite lookup_alter. case_decide; [|eauto].
    subst. intros (row & Hrow & ->)%fmap_Some. eauto.
  - intros d' Hd'. rewrite lookup_alter. case_decide; [subst; by apply fmap_is_Some|done].
Qed.

Lemma reconcile_record_keeps t r now st e st' :
  keeps t st.1 → reconcile_record r now st e = Ok st' → keeps t st'.1.
Proof.
  destruct st as [t1 rel], e as [key record]. simpl. intros [Hinv1 Hev1] H.
  case_bool_decide; result_inv; [by split|].
  destruct (ra_sealed_release record); result_inv; [|by split].
  match goal with H : apply_release _ _ _ _ = Ok ?res |- _ => destruct res as [t2 g2];
    apply (apply_release_keeps _ _ _ _ _ _ Hinv1) in H as [[Hinv2 Hev2] _] end.
  split; [done|by etrans].
Qed.

Lemma reconcile_commit_keeps t r now sid t' o :
  store_inv t → reconcile_commit wire t r now sid = Ok (t', o) → keeps t t'.
Proof.
  intros Hinv H. unfold reconcile_commit in H. result_inv. simplify_eq.
  match goal with H : result_foldM (reconcile_record _ _) _ _ = Ok ?x |- _ => rename x into st, H into Hf end.
  assert (keeps t st.1) as [Hinv1 Hev1].
  { revert Hf. apply (result_foldM_ind (λ _ st, keeps t st.1)); [by split|].
    intros done e rest s1 s2 _. apply reconcile_record_keeps. }
  destruct (set_reconciliation_keeps st.1 (se_domain_id (rq_session r)) false
    (delete (se_domain_id (rq_session r))) Hinv1) as [Hinv2 Hev2].
  split; [exact Hinv2|]. etrans; [exact Hev1|exact Hev2].
Qed.

Lemma reconcile_page_keeps t r sid i l t' o :
  store_inv t → reconcile_page wire t r sid i l = Ok (t', o) → keeps t t'.
Proof.
  intros Hinv H. unfold reconcile_page in H. result_inv. simplify_eq.
  apply keeps_frame; try done. intros d row' Hd. eauto.
Qed.

(** Every command keeps the invariant and moves grants along their lifecycle. *)
Lemma apply_command_keeps t r cfg rec cl now rd t' o :
  store_inv t → apply_command uuid_to_string wire t r cfg rec cl now rd = Ok (t', o) → keeps t t'.
Proof.
  intros Hinv. unfold apply_command. destruct (rq_command r).
  - by apply report_uncertain_keeps.
  - unfold inspect_page. intros H. result_inv. by simplify_eq.
  - by apply acknowledge_keeps.
  - by apply candidate_upsert_keeps.
  - by apply withdraw_keeps.
  - by apply arm_keeps.
  - by apply authorize_invocation_keeps.
  - by apply withdraw_keeps.
  - unfold release_command. intros H. result_inv. simplify_eq.
    match goal with H : apply_release _ _ _ _ = Ok ?res |- _ => destruct res as [t2 g2];
      by apply (apply_release_keeps _ _ _ _ _ _ Hinv) in H as [? _] end.
  - unfold inspect. intros H. result_inv. by simplify_eq.
  - unfold reconcile_begin. intros H. result_inv. simplify_eq. by apply set_reconciliation_keeps.
  - by apply reconcile_page_keeps.
  - by apply reconcile_commit_keeps.
Qed.

(** ** Sessions and operations under a command *)
Record sessions_kept (t t' : Tables) : Prop := {
  sk_rows : ∀ d row, tb_domains t !! d = Some row → ∃ row', tb_domains t' !! d = Some row' ∧
    dr_accepted_sequence row' = dr_accepted_sequence row ∧
    dr_manager_store_uuid row' = dr_manager_store_uuid row ∧
    dr_connection_epoch row' = dr_connection_epoch row ∧
    dr_executor_incarnation row' = dr_executor_incarnation row;
  sk_operations : tb_operations t' ⊆ tb_operations t;
  sk_leases : tb_leases t' = tb_leases t;
}.

(** Two stores that only differ in the allocation tables. *)
Definition same_log (t t' : Tables) : Prop :=
  tb_domains t' = tb_domains t ∧ tb_operations t' = tb_operations t ∧ tb_leases t' = tb_leases t.

Lemma alter_row_kept (f : DomainRow → DomainRow) d0 (rows : gmap ExecutionDomainId DomainRow) d row :
  (∀ row, dr_accepted_sequence (f row) = dr_accepted_sequence row ∧
    dr_manager_store_uuid (f row) = dr_manager_store_uuid row ∧
    dr_connection_epoch (f row) = dr_connection_epoch row ∧
    dr_executor_incarnation (f row) = dr_executor_incarnation row) →
  rows !! d = Some row → ∃ row', alter f d0 rows !! d = Some row' ∧
    dr_accepted_sequence row' = dr_accepted_sequence row ∧
    dr_manager_store_uuid row' = dr_manager_store_uuid row ∧
    dr_connection_epoch row' = dr_connection_epoch row ∧
    dr_executor_incarnation row' = dr_executor_incarnation row.
Proof.
  intros Hf Hrow. rewrite lookup_alter. case_decide; [|by exists row].
  subst. rewrite Hrow. exists (f row). split; [done|apply Hf].
Qed.

Lemma sessions_same t t' : same_log t t' → sessions_kept t t'.
Proof.
  intros (Hd & Ho & Hl). split; [|by rewrite Ho|done]. intros d row Hrow. rewrite Hd. by exists row.
Qed.

Lemma save_grant_same t g t' :
  save_grant t g None = Ok t' → same_log t t'.
Proof. intros (Hs & _ & _)%save_grant_Ok. by rewrite Hs. Qed.

Lemma apply_release_same t r release now res :
  apply_release t r release now = Ok res → same_log t res.1.
Proof.
  intros H. unfold apply_release in H. result_inv. simpl.
  match goal with H : save_grant _ _ None = Ok _ |- _ => by apply save_grant_same in H end.
Qed.

Lemma reconcile_records_same t r now l st st' :
  same_log t st.1 → result_foldM (reconcile_record r now) st l = Ok st' → same_log t st'.1.
Proof.
  intros H0. apply (result_foldM_ind (λ _ st', same_log t st'.1)); [done|].
  intros done [key record] rest [t1 rel] st2 _ IH H. simpl in H, IH.
  case_bool_decide; result_inv; [done|]. destruct (ra_sealed_release record); result_inv; [|done].
  match goal with H : apply_release _ _ _ _ = Ok _ |- _ => apply apply_release_same in H as (Hd & Ho & Hl) end.
  destruct IH as (IHd & IHo & IHl). unfold same_log. simpl. split_and!; congruence.
Qed.

Lemma apply_command_sessions t r cfg rec cl now rd t' o :
  apply_command uuid_to_string wire t r cfg rec cl now rd = Ok (t', o) → sessions_kept t t'.
Proof.
  unfold apply_command. destruct (rq_command r); intros H.
  - unfold report_uncertain in H. result_inv. simplify_eq.
    match goal with H : save_grant _ _ None = Ok _ |- _ => apply save_grant_same in H end.
    by apply sessions_same.
  - unfold inspect_page in H. result_inv. simplify_eq. by apply sessions_same.
  - unfold acknowledge in H. result_inv. simplify_eq. split; simpl.
    + intros d row. by apply alter_row_kept.
    + apply map_filter_subseteq.
    + done.
  - unfold candidate_upsert in H. result_inv. simplify_eq. destruct (tb_candidates t !! _).
    + unfold refresh_candidate in *. result_inv. by apply sessions_same.
    + unfold accept_candidate in *. destruct (tb_queue t !! _); result_inv; by apply sessions_same.
  - unfold withdraw in H. result_inv. simplify_eq. destruct (tb_grants _ !! key); [|by result_inv; apply sessions_same].
    case_bool_decide; [|by result_inv; apply sessions_same].
    match goal with H : save_grant _ _ None = Ok _ |- _ => apply save_grant_same in H end.
    by apply sessions_same.
  - unfold arm in H. result_inv. destruct (gs_state _); result_inv; simplify_eq; try by apply sessions_same.
    match goal with H : save_grant _ _ None = Ok _ |- _ => apply save_grant_same in H end.
    by apply sessions_same.
  - unfold authorize_invocation, authorize in H. result_inv.
    match goal with c : Z * N |- _ => destruct c as [unix monotonic] end. result_inv.
    destruct (ticket_waiting _ _ _ _ _ _ _) as [progress [b|]]; result_inv; simplify_eq; [by apply sessions_same|].
    match goal with H : save_grant _ _ None = Ok _ |- _ => apply save_grant_same in H end.
    by apply sessions_same.
  - unfold withdraw in H. result_inv. simplify_eq. destruct (tb_grants _ !! key); [|by result_inv; apply sessions_same].
    case_bool_decide; [|by result_inv; apply sessions_same].
    match goal with H : save_grant _ _ None = Ok _ |- _ => apply save_grant_same in H end.
    by apply sessions_same.
  - unfold release_command in H. result_inv. simplify_eq.
    match goal with H : apply_release _ _ _ _ = Ok _ |- _ => apply apply_release_same in H end.
    by apply sessions_same.
  - unfold inspect in H. result_inv. simplify_eq. by apply sessions_same.
  - unfold reconcile_begin in H. result_inv. simplify_eq. split; simpl; [|done..].
    intros d row. by apply alter_row_kept.
  - unfold reconcile_page in H. result_inv. simplify_eq. by apply sessions_same.
  - unfold reconcile_commit in H. result_inv. simplify_eq.
    match goal with H : result_foldM (reconcile_record _ _) _ _ = Ok _ |- _ =>
      apply (reconcile_records_same t) in H as (Hd & Ho & Hl); [|done] end.
    split; simpl; [|by rewrite Ho|done].
    intros d row. rewrite Hd. by apply alter_row_kept.
Qed.
End commands.
