(* ===== verification/ExchangeFacts.v ===== *)
(** * ExchangeFacts: the exchange of one request, and histories of exchanges

    What a committed exchange guarantees: the store invariant, the lifecycle of
    every grant, exact replay, and the conditions behind a start right. *)
From S2P Require Import Prelude Spec Validate Kernel Scoped Observation Machine MachineStore MachineFacts.

Section exchange.
Context (uuid_to_string : Uuid → string) (wire : Wire).

Lemma find_operation_Some t r s op :
  find_operation t r = Some (s, op) →
  tb_operations t !! (se_domain_id (rq_session r), s) = Some op ∧
  (s = rq_request_sequence r ∨ op_operation_id op = rq_operation_id r).
Proof.
  intros H. unfold find_operation in H. apply head_Some_elem_of in H.
  apply list_elem_of_omap in H as ([[d s'] op'] & Hin & Hif). simpl in Hif.
  destruct (_ && _) eqn:Hc; simplify_eq. split_conditions. simplify_eq.
  apply elem_of_btree_entries in Hin. split; [done|].
  match goal with H : _ || _ = true |- _ => apply orb_true_iff in H as [?|?] end; split_conditions; auto.
Qed.

Lemma find_operation_None t r s op :
  find_operation t r = None → tb_operations t !! (se_domain_id (rq_session r), s) = Some op →
  s ≠ rq_request_sequence r ∧ op_operation_id op ≠ rq_operation_id r.
Proof.
  intros H Hop. unfold find_operation in H. apply head_None in H.
  apply elem_of_btree_entries in Hop.
  assert (¬ (s = rq_request_sequence r ∨ op_operation_id op = rq_operation_id r)) as Hn; [|tauto].
  intros Hor. apply (not_elem_of_nil (s, op)). rewrite <-H.
  apply list_elem_of_omap. exists (se_domain_id (rq_session r), s, op). split; [done|]. simpl.
  rewrite bool_decide_eq_true_2 by done.
  replace (bool_decide (s = rq_request_sequence r) || bool_decide (op_operation_id op = rq_operation_id r))
    with true; [done|]. symmetry. apply orb_true_iff. by rewrite !bool_decide_eq_true.
Qed.

(** The command in its savepoint either applies or leaves the tables alone. *)
Lemma run_command_cases t r cfg rec au now rd t' o :
  run_command uuid_to_string wire t r cfg rec au now rd = Ok (t', o) →
  apply_command uuid_to_string wire t r cfg rec (au_blocked au) now rd = Ok (t', o) ∨
  (t' = t ∧ ∃ code detail, o = Rejected code detail).
Proof.
  assert (∀ e, (outcome ← rejection e; Ok (t, outcome)) = Ok (t', o) →
    t' = t ∧ ∃ code detail, o = Rejected code detail) as Hrej.
  { intros [] H; simpl in H; result_inv; simplify_eq; by split; [|eexists _, _]. }
  unfold run_command. destruct (apply_command _ _ _ _ _ _ _ _ _) as [[t1 o1]|e]; cbn [mbind result_bind];
    [|by intros ?%Hrej; right].
  destruct (guard_err _ _) as [?|e]; cbn [mbind result_bind]; [|by intros ?%Hrej; right].
  destruct (commit_grants _ _ _) as [gs|e]; cbn [mbind result_bind]; [|by intros ?%Hrej; right].
  destruct (if _ || _ then _ else _) as [?|e]; cbn [mbind result_bind]; [|by intros ?%Hrej; right].
  intros [= <- <-]. by left.
Qed.

Lemma run_command_keeps t r cfg rec au now rd t' o :
  store_inv t → run_command uuid_to_string wire t r cfg rec au now rd = Ok (t', o) →
  keeps t t' ∧ sessions_kept t t'.
Proof.
  intros Hinv [H|[-> _]]%run_command_cases.
  - split; [by eapply apply_command_keeps|by eapply apply_command_sessions].
  - split; [by split|by apply sessions_same].
Qed.

Lemma record_operation_keeps t r o row :
  store_inv t → tb_domains t !! se_domain_id (rq_session r) = Some row →
  rq_request_sequence r = dr_accepted_sequence row + 1 →
  (∀ s op, tb_operations t !! (se_domain_id (rq_session r), s) = Some op →
     op_operation_id op ≠ rq_operation_id r) →
  keeps t (record_operation t r o).
Proof.
  intros [Ig Ic Igc It Ico Is If Io] Hrow Hseq Hfresh. set (d := se_domain_id (rq_session r)) in *.
  pose proof (If d row Hrow) as Hfloor.
  split; [|by apply store_evolves_same]. split; simpl; try done; fold d.
  - intros d' s op Hop. apply lookup_insert_Some in Hop as [[Heq <-]|[Hne Hop]].
    + injection Heq as <- <-. rewrite lookup_alter_eq, Hrow. simpl. eexists. split; [done|]. simpl. lia.
    + destruct (Is d' s op Hop) as (row' & Hrow' & Hlt). rewrite lookup_alter.
      destruct (decide (d = d')) as [<-|]; [|by exists row'].
      rewrite Hrow'. simpl. eexists. split; [done|]. simpl. simplify_eq. lia.
  - intros d' row'. rewrite lookup_alter. destruct (decide (d = d')) as [<-|]; [|apply If].
    rewrite Hrow. intros [= <-]. simpl. lia.
  - intros d' s s' op op' H1 H2 Hid.
    apply lookup_insert_Some in H1 as [[Heq <-]|[Hne1 H1]]; apply lookup_insert_Some in H2 as [[Heq' <-]|[Hne2 H2]];
      simpl in *; simplify_eq; try done.
    + by destruct (Hfresh s' op').
    + by destruct (Hfresh s op).
    + by eapply Io.
Qed.

Lemma new_operation_spec t r cfg au row wall rd t' o :
  store_inv t → tb_domains t !! se_domain_id (rq_session r) = Some row → find_operation t r = None →
  new_operation uuid_to_string wire t r cfg au row wall rd = Ok (t', o) →
  keeps t t' ∧
  (∃ row', tb_domains t' !! se_domain_id (rq_session r) = Some row' ∧
     dr_manager_store_uuid row' = dr_manager_store_uuid row ∧
     dr_connection_epoch row' = dr_connection_epoch row ∧
     dr_executor_incarnation row' = dr_executor_incarnation row ∧
     dr_accepted_sequence row' = rq_request_sequence r) ∧
  tb_operations t' !! (se_domain_id (rq_session r), rq_request_sequence r) =
    Some {| op_operation_id := rq_operation_id r; op_payload_sha256 := rq_payload_sha256 r; op_response := o |} ∧
  tb_leases t' = tb_leases t.
Proof.
  intros Hinv Hrow Hnone H. unfold new_operation in H. result_inv.
  apply bool_decide_or_false in Hguard0 as [Hseq%dec_stable _].
  apply checked_add_Some in Hseq as [Hseq _].
  match goal with H : run_command _ _ ?t1 _ _ _ _ _ _ = Ok ?x |- _ => rename x into res, H into Hrun;
    assert (keeps t t1) as [Hinv1 Hev1] end.
  { apply keeps_frame; try done. intros d row' Hd. eauto. }
  destruct res as [t2 o2]. simplify_eq/=.
  apply (run_command_keeps _ _ _ _ _ _ _ _ _ Hinv1) in Hrun as [[Hinv2 Hev2] [Hs Ho Hl]].
  destruct (Hs _ row Hrow) as (row2 & Hrow2 & Hacc & Hm & Hc & He).
  destruct (record_operation_keeps t2 r o2 row2 Hinv2 Hrow2) as [Hinv3 Hev3]; [congruence| |].
  { intros s op Hop. eapply lookup_weaken in Hop; [|exact Ho]. by eapply find_operation_None. }
  split_and!.
  - split; [done|]. etrans; [exact Hev1|]. by etrans.
  - simpl. rewrite lookup_alter_eq, Hrow2. simpl. by eexists.
  - simpl. by rewrite lookup_insert_eq.
  - done.
Qed.

(** The session guards only read the session columns of the domain. *)
Lemma check_session_kept t t' r au row row' :
  check_session wire t r au = Ok row →
  tb_domains t' !! se_domain_id (rq_session r) = Some row' →
  dr_manager_store_uuid row' = dr_manager_store_uuid row →
  dr_connection_epoch row' = dr_connection_epoch row →
  dr_executor_incarnation row' = dr_executor_incarnation row →
  check_session wire t' r au = Ok row'.
Proof.
  intros H Hrow' Hm Hc He. revert H. unfold check_session. cbv zeta.
  destruct (guard_err (au_retired_domain _ _) _); simpl; [|done].
  destruct (match Request_validate wire r with Ok u => Ok u | Err e => Err (EIo e) end); simpl; [|done].
  destruct (guard_err (bool_decide (MAX_FRAME_BYTES < _)) _); simpl; [|done].
  destruct (ok_or (au_participant _ _) _) as [anchor|]; simpl; [|done].
  destruct (guard_err (negb anchor.1) _); simpl; [|done].
  destruct (guard_err (negb (au_verify _ _)) _); simpl; [|done].
  destruct (guard_err (bool_decide (anchor.2 ≠ _)) _); simpl; [|done].
  destruct (ok_or (au_machine_id _) _); simpl; [|done].
  destruct (guard_err _ (rejected "stale" "machine authority changed")); simpl; [|done].
  rewrite Hrow'. simpl. destruct (tb_domains t !! _) as [row0|]; simpl; [|done].
  destruct (guard_err _ _) eqn:Hg at 1; simpl; [|done]. intros [= <-].
  rewrite Hm, Hc, He. by rewrite Hg.
Qed.

Lemma check_session_row t r au row :
  check_session wire t r au = Ok row → tb_domains t !! se_domain_id (rq_session r) = Some row.
Proof.
  intros H. unfold check_session in H. result_inv.
  by match goal with H : ok_or (tb_domains t !! ?d) _ = Ok _ |- _ => destruct (tb_domains t !! d); simplify_eq/= end.
Qed.

(** An exchange either replays a recorded operation or commits a new one. *)
Lemma exchange_commit_cases t r cfg au wall rd t' rep intent :
  exchange_commit uuid_to_string wire t r cfg au wall rd = Ok (t', rep, intent) →
  ∃ row, check_session wire t r au = Ok row ∧
  ((t' = t ∧ ∃ op, tb_operations t !! (se_domain_id (rq_session r), rq_request_sequence r) = Some op ∧
      op_operation_id op = rq_operation_id r ∧ op_payload_sha256 op = rq_payload_sha256 r ∧
      rp_outcome rep = op_response op ∧
      (is_acknowledged (rp_outcome rep) = true → au_prepare_commit au r (rp_outcome rep) [] = Ok tt)) ∨
   (find_operation t r = None ∧
      new_operation uuid_to_string wire t r cfg au row wall rd = Ok (t', rp_outcome rep) ∧
      (is_acknowledged (rp_outcome rep) = true → au_prepare_commit au r (rp_outcome rep) [] = Ok tt) ∧
      ∃ grants, commit_grants t' r (rp_outcome rep) = Ok grants ∧
        intent = (if negb (bool_decide (length grants = 0%nat)) || is_acknowledged (rp_outcome rep)
                  then Some {| mi_request := r; mi_outcome := rp_outcome rep; mi_grants := grants |}
                  else None))).
Proof.
  unfold exchange_commit. destruct (check_session wire t r au) as [row|] eqn:Hs; simpl; [|done].
  intros H. exists row. split; [done|].
  destruct (find_operation t r) as [[s op]|] eqn:Hf.
  - left. destruct (guard_err _ _) eqn:Hg in H; cbn [mbind result_bind] in H; [|done].
    unfold guard_err in Hg. destruct (_ || _ || _) eqn:Hor in Hg; [done|].
    apply orb_false_iff in Hor as [Hor H3%bool_decide_eq_false%dec_stable].
    apply bool_decide_or_false in Hor as [H1%dec_stable H2%dec_stable]. subst s.
    apply find_operation_Some in Hf as [Hop _]. cbn in H.
    destruct (is_acknowledged (op_response op)) eqn:Ha; result_inv; simplify_eq/=;
      (split; [done|]); exists op; split_and!; try done; by rewrite Ha.
  - destruct (new_operation _ _ _ _ _ _ _ _ _) as [[t1 o1]|] eqn:Hn; simpl in H; [|done].
    destruct (commit_grants t1 r o1) as [grants|] eqn:Hg; cbn [mbind result_bind] in H; [|done].
    result_inv. right. simplify_eq/=. split_and!; [done|done| |by exists grants].
    intros Ha. destruct o1; simpl in *; try done. result_inv. done.
Qed.

Lemma exchange_commit_keeps t r cfg au wall rd t' rep intent :
  store_inv t → exchange_commit uuid_to_string wire t r cfg au wall rd = Ok (t', rep, intent) →
  keeps t t' ∧ tb_leases t' = tb_leases t.
Proof.
  intros Hinv (row & Hs & [[-> _]|(Hf & Hn & _ & _)])%exchange_commit_cases; [by split|].
  apply check_session_row in Hs. by eapply new_operation_spec in Hn as (? & _ & _ & ?).
Qed.

(** The tables record the outcome of [r], and its session is current. *)
Definition recorded (t : Tables) (r : Request) (au : Authority) (o : Outcome) : Prop :=
  ∃ row op, check_session wire t r au = Ok row ∧
    tb_operations t !! (se_domain_id (rq_session r), rq_request_sequence r) = Some op ∧
    op_operation_id op = rq_operation_id r ∧ op_payload_sha256 op = rq_payload_sha256 r ∧
    op_response op = o ∧ (is_acknowledged o = true → au_prepare_commit au r o [] = Ok tt).

Lemma exchange_commit_records t r cfg au wall rd t' rep intent :
  store_inv t → exchange_commit uuid_to_string wire t r cfg au wall rd = Ok (t', rep, intent) →
  recorded t' r au (rp_outcome rep).
Proof.
  intros Hinv (row & Hs & Hcase)%exchange_commit_cases. pose proof (check_session_row _ _ _ _ Hs) as Hrow.
  destruct Hcase as [(-> & op & Hop & Hid & Hpay & Hres & Hack)|(Hf & Hn & Hack & _)].
  - exists row, op. by rewrite Hres in *.
  - eapply new_operation_spec in Hn as (_ & (row' & Hrow' & Hm & Hc & He & _) & Hop & _); [|done..].
    exists row'. eexists. split; [by eapply check_session_kept|]. by split.
Qed.

(** A recorded operation is answered from its record. *)
Lemma exchange_commit_recorded t r cfg au wall rd o :
  store_inv t → recorded t r au o →
  ∃ rep intent, exchange_commit uuid_to_string wire t r cfg au wall rd = Ok (t, rep, intent) ∧
    rp_outcome rep = o.
Proof.
  intros Hinv (row & op & Hs & Hop & Hid & Hpay & Hres & Hack).
  assert (find_operation t r = Some (rq_request_sequence r, op)) as Hf.
  { destruct (find_operation t r) as [[s op']|] eqn:Hf.
    - apply find_operation_Some in Hf as [Hop' [->|Hid']]; [by simplify_eq|].
      assert (s = rq_request_sequence r) as -> by (eapply (si_operations t Hinv); [done..|congruence]).
      by simplify_eq.
    - destruct (find_operation_None _ _ _ _ Hf Hop). done. }
  unfold exchange_commit. rewrite Hs. cbn [mbind result_bind]. rewrite Hf.
  rewrite !bool_decide_eq_false_2 by tauto. cbn.
  rewrite Hres. destruct (is_acknowledged o) eqn:Ha; cbn; [rewrite Hack by done; cbn|]; by eexists _, _.
Qed.

(** C28: Repeating a committed request returns the recorded outcome and changes
    nothing, whatever the clock, the host sample or the configuration are by
    then. *)
Theorem exchange_replays t r cfg au wall rd t' rep intent cfg' wall' rd' :
  store_inv t → exchange_commit uuid_to_string wire t r cfg au wall rd = Ok (t', rep, intent) →
  ∃ rep' intent', exchange_commit uuid_to_string wire t' r cfg' au wall' rd' = Ok (t', rep', intent') ∧
    rp_outcome rep' = rp_outcome rep.
Proof.
  intros Hinv H. pose proof (exchange_commit_keeps _ _ _ _ _ _ _ _ _ Hinv H) as [[Hinv' _] _].
  eapply exchange_commit_recorded; [done|].
  exact (exchange_commit_records _ _ _ _ _ _ _ _ _ Hinv H).
Qed.
End exchange.

(** ** Consequences of the invariant *)



(** ** What stands behind a start right *)
Section authorization.
Context (uuid_to_string : Uuid → string).

Lemma quiet_progress_None config quiet context monotonic p p' :
  quiet_progress uuid_to_string config quiet context monotonic p = (p', None) →
  ∃ first, qp_first p' = Some first ∧
    first + saturating_mul (quiet_stable_seconds quiet) 1000 ≤ monotonic ∧
    qp_consumed p' < saturating_mul (quiet_wait_budget_seconds quiet) 1000.
Proof.
  unfold quiet_progress. case_bool_decide as Hb; [done|].
  set (s := quiet_stability _ _ _ _ _ _). destruct s.1 as [first|] eqn:Hs; simpl; [|done].
  destruct (checked_sub monotonic first) as [e|] eqn:He; [|done].
  case_bool_decide as Hl; [done|]. intros [= <-]. exists first. simpl.
  apply checked_sub_Some in He as [-> Hle]. split_and!; [done|lia|lia].
Qed.

Lemma ticket_waiting_None config grant context rb monotonic p p' :
  ticket_waiting uuid_to_string config grant context rb monotonic p = (p', None) →
  rb = [] ∧ ac_non_quiet_blockers context = [] ∧
  ∀ quiet, cd_quiet (gs_candidate grant) = Some quiet → ∃ first, qp_first p' = Some first ∧
    first + saturating_mul (quiet_stable_seconds quiet) 1000 ≤ monotonic ∧
    qp_consumed p' < saturating_mul (quiet_wait_budget_seconds quiet) 1000.
Proof.
  unfold ticket_waiting. destruct rb as [|b rb]; simpl; [|done].
  destruct (ac_non_quiet_blockers context) as [|b bs]; simpl; [|done].
  intros H. split_and!; [done..|]. intros quiet Hq. rewrite Hq in H. by eapply quiet_progress_None.
Qed.

Lemma owned_Ok r key u : owned r key = Ok u → owns (rq_session r) key = true.
Proof. unfold owned, guard_err. by destruct (owns _ _). Qed.

(** C27: A start right is issued only on a current, reconciled, armed grant of
    this session whose candidate is still ready, from a host sample at most
    250 ms old, when the grant's claims fit beside every native lease and
    every other outstanding grant, no observed requirement blocks, and a
    requested quiet interval has been stable for its full length within its
    wait budget.  The ticket is recorded as the next of the grant. *)
Theorem start_right_requires_readiness t r cfg rec cl rd key nonce i t' ticket :
  authorize_invocation uuid_to_string t r cfg rec cl rd key nonce i = Ok (t', OTicket ticket) →
  rec = false ∧ cl = false ∧ owns (rq_session r) key = true ∧
  ∃ row crow sample unix mono,
    tb_grants t !! key = Some row ∧ gr_state row = Armed ∧ gs_offer_nonce (gr_snapshot row) = nonce ∧
    cd_configuration_sha256 (gs_candidate (gr_snapshot row)) = cfg ∧
    tb_candidates t !! key = Some crow ∧ cr_state crow = Ready ∧
    rd_sample rd = Some sample ∧ rd_clock rd = Ok (unix, mono) ∧
    hs_captured_monotonic_millis sample ≤ mono ≤ hs_captured_monotonic_millis sample + 250 ∧
    blockers uuid_to_string (gr_physical_claims row) (host_resources (rd_config rd))
      (active_debits t key) (host_impact_incompatibilities (rd_config rd)) = Some [] ∧
    ac_non_quiet_blockers (evaluate_request
      {| or_resources := observed_claims (gr_physical_claims row);
         or_observed := cd_observed (gs_candidate (gr_snapshot row));
         or_quiet := cd_quiet (gs_candidate (gr_snapshot row)) |}
      (rd_config rd) sample (active_debits t key) unix mono) = [] ∧
    (∀ quiet, cd_quiet (gs_candidate (gr_snapshot row)) = Some quiet →
       ∃ p first, tb_readiness t' !! key = Some p ∧ qp_first p = Some first ∧
         first + saturating_mul (quiet_stable_seconds quiet) 1000 ≤ mono ∧
         qp_consumed p < saturating_mul (quiet_wait_budget_seconds quiet) 1000) ∧
    tb_grants t' !! key = Some (saved_row row (push_ticket (gr_snapshot row) i)) ∧
    it_intent ticket = i ∧ validate_next (gr_snapshot row) i = Ok tt.
Proof.
  intros H. unfold authorize_invocation in H.
  destruct (owned r key) as [[]|] eqn:Hown; cbn [mbind result_bind] in H; [|done].
  destruct (load_grant t key) as [g|] eqn:Hload; cbn [mbind result_bind] in H; [|done].
  apply load_grant_Ok in Hload as (row & Hrow & <- & Hkey & Hstate).
  destruct (guard_err _ _) eqn:Hg in H; cbn [mbind result_bind] in H; [|done].
  unfold guard_err in Hg. destruct (_ || _) eqn:Hor in Hg; [done|]. clear Hg. split_conditions.
  unfold authorize in H. rewrite Hkey in H.
  destruct (validate_next (gr_snapshot row) i) as [[]|] eqn:Hnext; cbn [mbind result_bind] in H; [|done].
  destruct (tb_candidates t !! key) as [crow|] eqn:Hcrow; cbn [ok_or mbind result_bind] in H; [|done].
  destruct (bool_decide (cr_state crow ≠ Ready)) eqn:Hready; cbn [guard_err mbind result_bind] in H; [done|].
  apply bool_decide_eq_false, dec_stable in Hready.
  destruct (rd_sample rd) as [sample|] eqn:Hsample; cbn [ok_or mbind result_bind] in H; [|done].
  destruct (rd_clock rd) as [[unix mono]|] eqn:Hclock; cbn [mbind result_bind] in H; [|done].
  destruct (checked_sub mono (hs_captured_monotonic_millis sample)) as [age|] eqn:Hage; [|done].
  destruct (bool_decide (250 < age)) eqn:Hold; cbn [guard_err mbind result_bind] in H; [done|].
  apply bool_decide_eq_false in Hold.
  rewrite Hrow in H. cbn [ok_or mbind result_bind] in H.
  destruct (guard_err _ _) as [[]|] eqn:Hu32 in H; cbn [mbind result_bind] in H; [|done]. clear Hu32.
  destruct (blockers _ _ _ _ _) as [rb|] eqn:Hrb; cbn [ok_or mbind result_bind] in H; [|done].
  destruct (ticket_waiting _ _ _ _ _ _ _) as [progress [b|]] eqn:Hwait; [by simplify_eq|].
  apply ticket_waiting_None in Hwait as (-> & Hnq & Hquiet).
  destruct (save_grant _ _ _) as [t2|] eqn:Hsave; cbn [mbind result_bind] in H; [|done].
  simplify_eq. apply save_grant_Ok in Hsave as (Hsame & Hgr & _).
  apply checked_sub_Some in Hage as [-> Hle]. apply owned_Ok in Hown.
  split_and!; [done..|]. exists row, crow, sample, unix, mono.
  split_and!; try done; try (by apply dec_stable); try (by rewrite Hstate; apply dec_stable); try lia.
  - intros quiet Hq. destruct (Hquiet quiet Hq) as (first & Hf & Hel & Hc). exists progress, first.
    split; [|done]. rewrite Hsame. simpl. by rewrite lookup_insert_eq.
  - rewrite Hgr. simpl. rewrite lookup_alter_eq. simpl. by rewrite Hrow.
Qed.
End authorization.
