(* ===== verification/InventoryFacts.v ===== *)
(** * InventoryFacts: the paged inventory

    A manager that follows the pages of the inventory sees every outstanding
    grant of its domain exactly once. *)
From S2P Require Import Prelude Spec Validate Kernel Scoped Observation Machine MachineStore.
From S2P Require Import MachineFacts ExchangeFacts.

Section sorted.
Context `{Countable K, BTreeKey K} {V : Type}.

Definition key_lt (p q : K * V) : Prop := btree_le p.1 q.1 ∧ p.1 ≠ q.1.

Lemma btree_entries_strict (m : gmap K V) : StronglySorted key_lt (btree_entries m).
Proof.
  assert (StronglySorted entry_le (btree_entries m)) as Hs.
  { apply sort_by_sorted; [intros x y z; apply (transitivity (R := btree_le))|].
    intros x y. apply (total btree_le). }
  pose proof (NoDup_btree_keys m) as Hnd. unfold btree_keys in Hnd.
  induction Hs as [|p l Hs IH Hp]; [constructor|]. simpl in Hnd. inversion Hnd as [|? ? Hx Hl]; subst.
  constructor; [by apply IH|]. rewrite Forall_forall in Hp |- *. intros q Hq. split; [by apply Hp|].
  intros Heq. apply Hx. rewrite Heq. apply list_elem_of_fmap. by exists q.
Qed.

Lemma StronglySorted_filter (f : K * V → bool) l : StronglySorted key_lt l → StronglySorted key_lt (List.filter f l).
Proof.
  induction 1 as [|p l Hs IH Hp]; [constructor|]. simpl. destruct (f p); [|done].
  constructor; [done|]. rewrite Forall_forall in Hp |- *. intros q Hq. apply Hp.
  apply list_elem_of_In, filter_In in Hq as [Hq _]. by apply list_elem_of_In.
Qed.

(** What lies after the last key of a prefix. *)
Lemma filter_after_prefix l1 l2 p :
  StronglySorted key_lt (l1 ++ l2) → last l1 = Some p →
  List.filter (λ q, bool_decide (btree_le p.1 q.1) && bool_decide (p.1 ≠ q.1)) (l1 ++ l2) = l2.
Proof.
  intros Hs (l & ->)%last_Some. rewrite <-(assoc_L (++)) in *. simpl in *.
  induction l as [|q l IH]; simpl in *.
  - inversion Hs as [|? ? Hs' Hp]; subst. rewrite (bool_decide_eq_false_2 (p.1 ≠ p.1)), andb_false_r by tauto.
    clear Hs Hs'. induction Hp as [|r l [Hle Hne] _ IH]; [done|]. simpl.
    rewrite !bool_decide_eq_true_2 by done. simpl. by rewrite IH.
  - inversion Hs as [|? ? Hs' Hq]; subst. rewrite IH by done.
    destruct (bool_decide (btree_le p.1 q.1)) eqn:Hle; [|done]. apply bool_decide_eq_true in Hle.
    rewrite Forall_forall in Hq. destruct (Hq p) as [Hle' Hne]; [set_solver|].
    destruct Hne. by apply (anti_symm btree_le).
Qed.
End sorted.

(** The outstanding grants of a domain, with their keys, in key order. *)
Definition in_domain (t : Tables) (domain : ExecutionDomainId) (p : AllocationKey * GrantRow) : bool :=
  match tb_candidates t !! p.1 with Some c => bool_decide (cr_domain_id c = domain) | None => false end
  && is_outstanding (gr_state p.2).
Definition domain_rows (t : Tables) (domain : ExecutionDomainId) : list (AllocationKey * GrantRow) :=
  List.filter (in_domain t domain) (btree_entries (tb_grants t)).
Definition snapshots (l : list (AllocationKey * GrantRow)) : list GrantSnapshot := (λ p, gr_snapshot p.2) <$> l.

Lemma inventory_rows_all t domain :
  inventory_rows t domain None None true = snapshots (domain_rows t domain).
Proof.
  unfold inventory_rows, domain_rows, in_domain. induction (btree_entries _) as [|[k row] l IH]; [done|]. simpl.
  rewrite !andb_true_r. destruct (_ && _); simpl; [f_equal|]; exact IH.
Qed.

Lemma inventory_rows_after t domain a :
  inventory_rows t domain None (Some a) true =
  snapshots (List.filter (λ q, bool_decide (btree_le a q.1) && bool_decide (a ≠ q.1)) (domain_rows t domain)).
Proof.
  unfold inventory_rows, domain_rows, in_domain. induction (btree_entries _) as [|[k row] l IH]; [done|]. simpl.
  rewrite andb_true_r. destruct (match tb_candidates t !! k with Some _ => _ | None => _ end); simpl; [|done].
  destruct (is_outstanding (gr_state row)); simpl; [|by rewrite andb_false_r].
  rewrite andb_true_r. destruct (_ && _); simpl; [f_equal|]; exact IH.
Qed.

Lemma elem_of_domain_rows t d key row : store_inv t →
  (key, row) ∈ domain_rows t d ↔
  tb_grants t !! key = Some row ∧ is_outstanding (gr_state row) = true ∧ ak_domain_id key = d.
Proof.
  intros Hinv. unfold domain_rows. rewrite list_elem_of_In, filter_In, <-list_elem_of_In, elem_of_btree_entries.
  unfold in_domain. simpl. split.
  - intros [Hrow Hd]. apply andb_true_iff in Hd as [Hd Ho].
    destruct (tb_candidates t !! key) as [c|] eqn:Hc; [|done]. apply bool_decide_eq_true in Hd.
    destruct (si_candidates t Hinv _ _ Hc) as [_ Hdom]. split_and!; congruence.
  - intros (Hrow & Ho & Hd). split; [done|]. rewrite Ho, andb_true_r.
    destruct (si_grant_candidate t Hinv key) as [c Hc]; [by eexists|]. rewrite Hc.
    apply bool_decide_eq_true. destruct (si_candidates t Hinv _ _ Hc) as [_ Hdom]. congruence.
Qed.

Lemma NoDup_domain_rows t d : NoDup (domain_rows t d).*1.
Proof.
  pose proof (NoDup_btree_keys (tb_grants t)) as Hnd. unfold domain_rows, btree_keys in *.
  induction (btree_entries (tb_grants t)) as [|p l IH]; [constructor|]. simpl in *.
  inversion Hnd as [|? ? Hp Hl]; subst. destruct (in_domain t d p); simpl; [|by apply IH].
  constructor; [|by apply IH]. intros (q & Hq & Hin)%list_elem_of_fmap. apply Hp. rewrite Hq.
  apply list_elem_of_In, filter_In in Hin as [Hin _]. apply list_elem_of_fmap. exists q.
  split; [done|by apply list_elem_of_In].
Qed.

Lemma length_domain_rows t d : (length (domain_rows t d) ≤ size (tb_grants t))%nat.
Proof.
  unfold domain_rows. etrans; [apply List.filter_length_le|].
  by rewrite btree_entries_Permutation, length_map_to_list.
Qed.

Section pages.
Context (wire : Wire).

(** One page is a non-empty prefix of the rows, and says whether it is all. *)
Definition fits_page (g : GrantSnapshot) : Prop := grant_len wire g + 1 ≤ MAX_FRAME_BYTES - 4096.

Lemma take_page_spec limit rows grants bytes :
  0 < limit → Forall fits_page rows → (grants = [] → bytes = 0) →
  (length grants ≤ N.to_nat limit)%nat → (grants ++ rows ≠ []) →
  ∃ pre post, take_page wire limit rows grants bytes = Ok (grants ++ pre, bool_decide (post ≠ [])) ∧
    rows = pre ++ post ∧ grants ++ pre ≠ [] ∧ (length (grants ++ pre) ≤ N.to_nat limit)%nat.
Proof.
  intros Hlim Hfit. revert grants bytes. induction Hfit as [|g rows Hg _ IH]; intros grants bytes Hb Hlen Hne; simpl.
  - exists [], []. rewrite app_nil_r in *. by rewrite bool_decide_eq_false_2 by tauto.
  - destruct (_ || _) eqn:Hfull.
    + assert (grants ≠ []) as Hne'.
      { intros ->. apply orb_true_iff in Hfull as [Hf|Hf]; apply bool_decide_eq_true in Hf.
        - simpl in Hf. lia.
        - unfold fits_page in Hg. rewrite (Hb eq_refl) in Hf. lia. }
      exists [], (g :: rows). rewrite app_nil_r. rewrite (bool_decide_eq_false_2 (length grants = 0%nat)).
      2: { intros Hz. by apply length_zero_iff_nil in Hz. }
      done.
    + apply orb_false_iff in Hfull as [Hf%bool_decide_eq_false _].
      destruct (IH (grants ++ [g]) (bytes + grant_len wire g + 1)) as (pre & post & Ht & -> & Hn & Hl).
      * by destruct grants.
      * rewrite length_app. simpl. lia.
      * by destruct grants.
      * exists (g :: pre), post. rewrite <-(assoc_L (++)) in *. done.
Qed.

(** The manager's loop over [InspectPage]: each page asks from the last key of
    the page before, until a page has no continuation. *)
Fixpoint collect_pages (fuel : nat) (t : Tables) (r : Request) (configuration : string) (limit : N)
    (after : option AllocationKey) : result StoreError (list GrantSnapshot) :=
  match fuel with
  | O => Err (EPanic "out of fuel")
  | S fuel =>
      res ← inspect_page wire t r configuration after limit;
      match res.2 with
      | InventoryPage grants None _ => Ok grants
      | InventoryPage grants (Some next) _ =>
          rest ← collect_pages fuel t r configuration limit (Some next);
          Ok (grants ++ rest)
      | _ => Err (EPanic "not a page")
      end
  end.
End pages.

(** A page of the rows is a prefix of the grants behind them. *)
Lemma page_split (limit : N) (l : list (AllocationKey * GrantRow)) pre post :
  take (N.to_nat (limit + 1)) (snapshots l) = pre ++ post → (length pre ≤ N.to_nat limit)%nat →
  ∃ c1 c2, l = c1 ++ c2 ∧ pre = snapshots c1 ∧ (post = [] ↔ c2 = []).
Proof.
  intros Hsplit Hlen. exists (take (length pre) l), (drop (length pre) l). split; [by rewrite take_drop|].
  pose proof (f_equal (take (length pre)) Hsplit) as H1. rewrite take_app_length, take_take in H1.
  rewrite Nat.min_l in H1 by lia. split.
  - unfold snapshots in *. by rewrite fmap_take, H1.
  - pose proof (f_equal length Hsplit) as H2. rewrite length_app, length_take in H2.
    unfold snapshots in H2. rewrite length_fmap in H2.
    split; intros Hz; [subst post|]; apply length_zero_iff_nil.
    + rewrite length_drop. simpl in H2. lia.
    + apply (f_equal length) in Hz. rewrite length_drop in Hz. simpl in Hz. lia.
Qed.

Section complete.
Context (wire : Wire) (t : Tables) (r : Request) (configuration : string) (limit : N).
Hypothesis Hinv : store_inv t.
Hypothesis Hlimit : 0 < limit ≤ 256.

Lemma domain_rows_key p : p ∈ domain_rows t (se_domain_id (rq_session r)) → cd_key (gs_candidate (gr_snapshot p.2)) = p.1.
Proof.
  destruct p as [k row]. intros Hp. apply list_elem_of_In, filter_In in Hp as [Hp _].
  apply list_elem_of_In, elem_of_btree_entries in Hp. by apply (gw_key _ _ (si_grants t Hinv _ _ Hp)).
Qed.

(** From any point of the inventory the loop returns the rest. *)
Lemma collect_pages_rest l2 fuel l1 :
  domain_rows t (se_domain_id (rq_session r)) = l1 ++ l2 →
  Forall (fits_page wire) (snapshots l2) →
  Forall (λ p, owned r p.1 = Ok tt) (l1 ++ l2) → (length l2 < fuel)%nat →
  collect_pages wire fuel t r configuration limit (fst <$> last l1) = Ok (snapshots l2).
Proof.
  revert l2 l1. induction fuel as [|fuel IH]; intros l2 l1 Hrows Hfit Hown Hfuel; [lia|]. cbn [collect_pages].
  assert (owned_option r (fst <$> last l1) = Ok tt) as Howned.
  { destruct (last l1) as [p|] eqn:Hl; [|done]. simpl. rewrite Forall_forall in Hown. apply Hown.
    apply last_Some_elem_of in Hl. set_solver. }
  assert (inventory_rows t (se_domain_id (rq_session r)) None (fst <$> last l1) true = snapshots l2) as Hinvrows.
  { destruct (last l1) as [p|] eqn:Hl.
    - simpl. rewrite inventory_rows_after, Hrows. f_equal. apply filter_after_prefix; [|done].
      rewrite <-Hrows. apply StronglySorted_filter, btree_entries_strict.
    - apply last_None in Hl as ->. by rewrite inventory_rows_all, Hrows. }
  unfold inspect_page. rewrite Howned. cbn [mbind result_bind]. unfold inventory_page.
  rewrite !bool_decide_eq_false_2 by lia. cbn [orb guard_err mbind result_bind]. rewrite Hinvrows.
  destruct l2 as [|p l2']; [simpl; by rewrite take_nil|]. set (l2 := p :: l2') in *.
  assert (l2 ≠ []) as Hl2 by done. clearbody l2.
  destruct (take_page_spec wire limit (take (N.to_nat (limit + 1)) (snapshots l2)) [] 0)
    as (pre & post & -> & Hsplit & Hne & Hlen); [lia|by apply Forall_take|done|simpl; lia|
      rewrite N.add_1_r, N2Nat.inj_succ; by destruct l2|].
  cbn [mbind result_bind fst snd app] in *.
  destruct (page_split limit l2 pre post Hsplit Hlen) as (c1 & c2 & Hc & -> & Hpost).
  destruct (decide (c2 = [])) as [->|Hc2].
  - rewrite (proj2 Hpost eq_refl). cbn. by rewrite Hc, app_nil_r.
  - rewrite bool_decide_eq_true_2 by (intros Hp; by apply Hc2, Hpost).
    assert (c1 ≠ []) as Hc1 by by intros ->.
    destruct (last c1) as [q|] eqn:Hlast; [|by apply last_None in Hlast].
    assert (last (snapshots c1) = Some (gr_snapshot q.2)) as -> by (unfold snapshots; by rewrite fmap_last, Hlast).
    cbn [fmap option_fmap option_map].
    assert (cd_key (gs_candidate (gr_snapshot q.2)) = q.1) as ->.
    { apply domain_rows_key. rewrite Hrows, Hc. apply last_Some_elem_of in Hlast. set_solver. }
    assert (Some q.1 = fst <$> last (l1 ++ c1)) as -> by (rewrite last_app, Hlast; done).
    rewrite (IH c2 (l1 ++ c1)); cbn.
    + by rewrite Hc; unfold snapshots; rewrite fmap_app.
    + by rewrite Hrows, Hc, (assoc_L (++)).
    + rewrite Hc in Hfit. unfold snapshots in *. rewrite fmap_app in Hfit. by apply Forall_app in Hfit as [_ ?].
    + by rewrite <-(assoc_L (++)), <-Hc.
    + assert (length l2 = length c1 + length c2)%nat as Hl by by rewrite Hc, length_app.
      destruct c1; [done|]. simpl in Hl. lia.
Qed.
End complete.

(** C31: Following the pages of the inventory returns every outstanding grant of
    the domain exactly once, whatever the page size, in at most one call per
    grant plus one; nothing else appears. *)
Theorem inventory_pages_complete wire t r configuration limit :
  store_inv t → 0 < limit ≤ 256 →
  (∀ key row, tb_grants t !! key = Some row → is_outstanding (gr_state row) = true →
     ak_domain_id key = se_domain_id (rq_session r) →
     fits_page wire (gr_snapshot row) ∧ owned r key = Ok tt) →
  ∃ grants, collect_pages wire (S (size (tb_grants t))) t r configuration limit None = Ok grants ∧
    NoDup ((λ g, cd_key (gs_candidate g)) <$> grants) ∧
    ∀ g, g ∈ grants ↔ ∃ row, tb_grants t !! cd_key (gs_candidate g) = Some row ∧ gr_snapshot row = g ∧
      is_outstanding (gr_state row) = true ∧
      ak_domain_id (cd_key (gs_candidate g)) = se_domain_id (rq_session r).
Proof.
  intros Hinv Hlimit Hall. set (d := se_domain_id (rq_session r)).
  assert (∀ key row, (key, row) ∈ domain_rows t d ↔ tb_grants t !! key = Some row ∧
    is_outstanding (gr_state row) = true ∧ ak_domain_id key = d) as Hrows.
  { intros key row. exact (elem_of_domain_rows t d key row Hinv). }
  exists (snapshots (domain_rows t d)). split_and!.
  - apply (collect_pages_rest wire t r configuration limit Hinv Hlimit (domain_rows t d) _ []); [done|..].
    + apply Forall_forall. intros g ([key row] & -> & Hin)%list_elem_of_fmap.
      apply Hrows in Hin as (Hrow & Ho & Hd). by apply (Hall key row).
    + apply Forall_forall. intros [key row] Hin. apply Hrows in Hin as (Hrow & Ho & Hd). by apply (Hall key row).
    + pose proof (length_domain_rows t d). lia.
  - unfold snapshots. rewrite <-list_fmap_compose.
    rewrite (list_fmap_ext _ fst) by (intros i p Hp; simpl; by eapply domain_rows_key, list_elem_of_lookup_2).
    apply NoDup_domain_rows.
  - intros g. unfold snapshots. rewrite list_elem_of_fmap. split.
    + intros ([key row] & -> & Hin). pose proof (domain_rows_key t r Hinv (key, row) Hin) as Hk. simpl in *.
      apply Hrows in Hin as (Hrow & Ho & Hd). rewrite Hk. by exists row.
    + intros (row & Hrow & <- & Ho & Hd). eexists (_, row). split; [done|]. by apply Hrows.
Qed.
