(* ===== verification/Reservation.v ===== *)
(** * Reservation: scalar reservations
    ([src/src/store/reservation.rs], [src/src/store/machine_reservation.rs])

    A reservation holds scalar capacity for a job that does not fit yet.  Native
    jobs keep theirs in [reservations]; candidates of attached managers in
    [machine_reservations].  The rows of an unordered query are listed in key
    order. *)
From S2P Require Import Prelude Spec Validate Kernel Scoped Observation Machine MachineStore.

Inductive JobState := Pending | Active | Finalizing | Final.
#[global] Instance JobState_eq_dec : EqDecision JobState.
Proof. solve_decision. Defined.

(** The columns of [jobs] that scheduling reads; [jb_priority] is the priority of
    [spec_json]. *)
Record JobRow := {
  jb_state : JobState;
  jb_priority : Z;
  jb_accepted_ms : Z;
  jb_rowid : Z;
  jb_cancel_requested : bool;
  jb_reservation_not_before_ms : option Z;
}.

(** A row of [reservations]; [job_id] is unique and is the key of the map. *)
Record ReservationRow := {
  rv_id : Uuid;
  rv_claims : ResolvedClaims;
  rv_created_ms : Z;
  rv_hold_deadline_ms : Z;
}.

(** The coordinator's tables and the native ones. *)
Record Store := {
  so_machine : Tables;
  so_jobs : gmap Uuid JobRow;
  so_reservations : gmap Uuid ReservationRow;
}.

Definition set_machine (t : Tables) (s : Store) : Store :=
  {| so_machine := t; so_jobs := so_jobs s; so_reservations := so_reservations s |}.
Definition set_jobs (jobs : gmap Uuid JobRow) (s : Store) : Store :=
  {| so_machine := so_machine s; so_jobs := jobs; so_reservations := so_reservations s |}.
Definition set_native_reservations (rows : gmap Uuid ReservationRow) (s : Store) : Store :=
  {| so_machine := so_machine s; so_jobs := so_jobs s; so_reservations := rows |}.

Definition back_off (not_before : Z) (row : JobRow) : JobRow :=
  {| jb_state := jb_state row; jb_priority := jb_priority row; jb_accepted_ms := jb_accepted_ms row;
     jb_rowid := jb_rowid row; jb_cancel_requested := jb_cancel_requested row;
     jb_reservation_not_before_ms := Some not_before |}.

Record StoredReservation := {
  str_job_id : Uuid;
  str_claims : ResolvedClaims;
  str_hold_deadline_ms : Z;
}.

Inductive ScalarDisposition := DGrant | DHold | DCreated | DStateChanged.
#[global] Instance ScalarDisposition_eq_dec : EqDecision ScalarDisposition.
Proof. solve_decision. Defined.

(** ** Reservations of candidates *)
Record RemoteReservation := {
  rr_candidate : Candidate;
  rr_rank : ScheduleKey;
  rr_physical : ResolvedClaims;
}.

(** [c.state='ready' AND c.expires_ms>?1 AND c.reservation_deadline_ms>?1]. *)
Definition holds_reservation (row : CandidateRow) (now : Z) : bool :=
  bool_decide (cr_state row = Ready) && bool_decide (now < cr_expires_ms row)%Z
  && match cr_reservation_deadline_ms row with
     | Some deadline => bool_decide (now < deadline)%Z | None => false end.

Definition remote_reservations (t : Tables) (now : Z) : list RemoteReservation :=
  omap (λ '(key, physical),
    row ← tb_candidates t !! key;
    queue ← tb_queue t !! cr_queue_owner row;
    domain ← tb_domains t !! cr_domain_id row;
    if holds_reservation row now && negb (dr_reconciliation_required domain) then
      Some {| rr_candidate := cr_candidate row;
              rr_rank := {| sk_effective_priority :=
                              effective_priority_at (cd_priority (cr_candidate row)) (qr_accepted_ms queue) now;
                            sk_accepted_ms := qr_accepted_ms queue; sk_rowid := qr_sequence queue |};
              rr_physical := physical |}
    else None) (btree_entries (tb_reservations t)).

Definition remote_debits (t : Tables) (now : Z) (higher_than : option ScheduleKey) : list ResolvedClaims :=
  map rr_physical (List.filter (λ r,
    match higher_than with Some rank => outranks (rr_rank r) rank | None => true end)
    (remote_reservations t now)).

Definition set_hold (deadline not_before : option Z) (row : CandidateRow) : CandidateRow :=
  {| cr_domain_id := cr_domain_id row; cr_candidate := cr_candidate row;
     cr_queue_owner := cr_queue_owner row; cr_state := cr_state row; cr_expires_ms := cr_expires_ms row;
     cr_revision := cr_revision row; cr_reservation_deadline_ms := deadline;
     cr_not_before_ms := not_before |}.

(** Which candidates the [UPDATE] of [expire] changes. *)
Definition hold_is_due (row : CandidateRow) (now : Z) : bool :=
  match cr_reservation_deadline_ms row with
  | Some deadline => bool_decide (deadline ≤ now)%Z || bool_decide (cr_expires_ms row ≤ now)%Z
                     || bool_decide (cr_state row ≠ Ready)
  | None => false
  end.

(** Which reservations its [DELETE] removes. *)
Definition hold_is_over (t : Tables) (now : Z) (key : AllocationKey) : bool :=
  match tb_candidates t !! key with
  | Some row => bool_decide (cr_reservation_deadline_ms row = None) || bool_decide (cr_state row ≠ Ready)
                || bool_decide (cr_expires_ms row ≤ now)%Z
  | None => false
  end.

Definition expire (t : Tables) (now : Z) : Tables * bool :=
  let changed := existsb (λ p, hold_is_due p.2 now) (map_to_list (tb_candidates t)) in
  let t := set_candidates (fmap (λ row,
    if hold_is_due row now then set_hold None (Some (i64_saturating_add now 5000)) row else row)) t in
  (set_reservations (filter (λ p : AllocationKey * ResolvedClaims, hold_is_over t now p.1 = false)) t,
   changed).

Definition drop_reservation (t : Tables) (key : AllocationKey) : Tables * bool :=
  let t := update_candidate key (λ row, set_hold None (cr_not_before_ms row) row) t in
  (set_reservations (delete key) t, bool_decide (is_Some (tb_reservations t !! key))).

(** ** Reservations of native jobs *)
Definition is_live (s : Store) (now : Z) (job : Uuid) (row : ReservationRow) : bool :=
  bool_decide (now < rv_hold_deadline_ms row)%Z
  && match so_jobs s !! job with
     | Some j => bool_decide (jb_state j = Pending) && negb (jb_cancel_requested j) | None => false end.

Definition active_reservations (s : Store) (now : Z) : list StoredReservation :=
  omap (λ '(job, row),
    if is_live s now job row then
      Some {| str_job_id := job; str_claims := rv_claims row; str_hold_deadline_ms := rv_hold_deadline_ms row |}
    else None) (btree_entries (so_reservations s)).

Definition schedule_key (s : Store) (job : Uuid) (now : Z) : result StoreError ScheduleKey :=
  j ← ok_or (so_jobs s !! job) (ESql "no rows");
  queue ← ok_or (tb_queue (so_machine s) !! Native job) (ESql "no rows");
  Ok {| sk_effective_priority := effective_priority_at (jb_priority j) (qr_accepted_ms queue) now;
        sk_accepted_ms := qr_accepted_ms queue; sk_rowid := qr_sequence queue |}.

Definition release_reservation_tx (s : Store) (job : Uuid) : Store * bool :=
  (set_native_reservations (delete job (so_reservations s)) s,
   bool_decide (is_Some (so_reservations s !! job))).

(** [i64::try_from(constant).unwrap_or(i64::MAX)] added to the clock. *)
Definition after_millis (now : Z) (millis : N) : Z :=
  i64_saturating_add now (default i64_max (i64_of_u64 millis)).

(** Pending jobs whose hold is over. *)
Definition overdue (s : Store) (now : Z) (job : Uuid) (j : JobRow) : bool :=
  bool_decide (jb_state j = Pending)
  && match so_reservations s !! job with
     | Some row => bool_decide (rv_hold_deadline_ms row ≤ now)%Z | None => false end.

Definition expire_due_reservations_tx (s : Store) (now : Z) : Store * bool :=
  let backoff := after_millis now SCALAR_RESERVATION_BACKOFF_MILLIS in
  let updated := existsb (λ p, overdue s now p.1 p.2) (map_to_list (so_jobs s)) in
  let s' := set_jobs (map_imap (λ job j,
    Some (if overdue s now job j then back_off backoff j else j)) (so_jobs s)) s in
  (if updated then
     set_native_reservations (filter (λ p : Uuid * ReservationRow,
       ¬ (rv_hold_deadline_ms p.2 ≤ now)%Z) (so_reservations s')) s'
   else s', updated).

Definition reservation_debits_for_job (s : Store) (job_key : Uuid) (now : Z)
    : result StoreError (list ResolvedClaims) :=
  let reservations := active_reservations s now in
  if negb (existsb (λ r, bool_decide (str_job_id r = job_key)) reservations) then
    Ok (map str_claims reservations ++ remote_debits (so_machine s) now None)
  else
    candidate ← schedule_key s job_key now;
    result_foldM (λ blocking r,
      if bool_decide (str_job_id r = job_key) then Ok blocking
      else
        rank ← schedule_key s (str_job_id r) now;
        Ok (if outranks rank candidate then blocking ++ [str_claims r] else blocking))
      (remote_debits (so_machine s) now (Some candidate)) reservations.

(** ** Normalisation after a change of the capacities *)
Record RankedReservation := {
  nr_key : ScheduleKey;
  nr_job_id : Uuid;
  nr_claims : ResolvedClaims;
}.
Definition nr_le (a b : RankedReservation) : Prop := schedule_le (nr_key a) (nr_key b).
#[global] Instance nr_le_dec : RelDecision nr_le.
Proof. intros a b. unfold nr_le. apply _. Defined.

(** The live reservations, highest rank first; the rank uses the job's own row. *)
Definition ranked_reservations (s : Store) (now : Z) : list RankedReservation :=
  sort_by nr_le (omap (λ '(job, row),
    j ← so_jobs s !! job;
    if is_live s now job row then
      Some {| nr_key := {| sk_effective_priority := effective_priority_at (jb_priority j) (jb_accepted_ms j) now;
                           sk_accepted_ms := jb_accepted_ms j; sk_rowid := jb_rowid j |};
              nr_job_id := job; nr_claims := rv_claims row |}
    else None) (btree_entries (so_reservations s))).

(** The loop that finds [suffix_start]: [None] when every reservation fits. *)
Fixpoint suffix_start (c : ResourceCapacities) (retained : list ResolvedClaims) (index : nat)
    (rs : list RankedReservation) : option nat :=
  match rs with
  | [] => None
  | r :: rs =>
      if bool_decide (scalar_blockers (nr_claims r) c retained = []) then
        suffix_start c (retained ++ [nr_claims r]) (S index) rs
      else Some index
  end.

Definition drop_ranked (backoff : Z) (s : Store) (r : RankedReservation) : Store :=
  let s := set_jobs (alter (λ j,
    if decide (jb_state j = Pending) then
      back_off (Z.max (default backoff (jb_reservation_not_before_ms j)) backoff) j
    else j) (nr_job_id r) (so_jobs s)) s in
  (release_reservation_tx s (nr_job_id r)).1.

Definition normalize_reservations_for_capacities_tx (s : Store) (c : ResourceCapacities) (now : Z)
    : Store * bool :=
  let reservations := ranked_reservations s now in
  match suffix_start c [] 0 reservations with
  | None => (s, false)
  | Some start =>
      let backoff := after_millis now SCALAR_RESERVATION_BACKOFF_MILLIS in
      (foldl (drop_ranked backoff) s (drop start reservations), true)
  end.

(** ** The disposition of one job *)
Definition reservation_tx (s : Store) (job : Uuid) : option StoredReservation :=
  row ← so_reservations s !! job;
  Some {| str_job_id := job; str_claims := rv_claims row; str_hold_deadline_ms := rv_hold_deadline_ms row |}.

Definition reservation_claims_tx (s : Store) (now : Z) (excluded_job : option Uuid) : list ResolvedClaims :=
  omap (λ '(job, row),
    if is_live s now job row && match excluded_job with Some e => bool_decide (job ≠ e) | None => true end
    then Some (rv_claims row) else None) (btree_entries (so_reservations s))
  ++ remote_debits (so_machine s) now None.

(** The loop over the other live reservations: stops at the first that outranks
    the candidate and overlaps its claims. *)
Fixpoint overlaps_loop (s : Store) (now : Z) (candidate : ScheduleKey) (claims : ResolvedClaims)
    (others : list StoredReservation) : result StoreError bool :=
  match others with
  | [] => Ok false
  | r :: others =>
      rank ← schedule_key s (str_job_id r) now;
      if outranks rank candidate && overlaps_scalars claims (str_claims r) then Ok true
      else overlaps_loop s now candidate claims others
  end.

Definition higher_reservation_overlaps (s : Store) (job : Uuid) (claims : ResolvedClaims) (now : Z)
    : result StoreError bool :=
  candidate ← schedule_key s job now;
  if existsb (overlaps_scalars claims) (remote_debits (so_machine s) now (Some candidate)) then Ok true
  else overlaps_loop s now candidate claims
         (List.filter (λ r, bool_decide (str_job_id r ≠ job)) (active_reservations s now)).

(** [new_id] is the fresh reservation id. *)
Definition scalar_disposition_tx (s : Store) (new_id : Uuid) (c : ResourceCapacities) (job : Uuid)
    (claims : ResolvedClaims) (active : list ResolvedClaims) (now : Z)
    : result StoreError (Store * ScalarDisposition) :=
  let own := reservation_tx s job in
  j ← ok_or (so_jobs s !! job) (ESql "no rows");
  let not_before := jb_reservation_not_before_ms j in
  let reservations := reservation_claims_tx s now None in
  higher ← (if bool_decide (is_Some own) then higher_reservation_overlaps s job claims now else Ok false);
  match local_reservation_decision claims c active reservations (str_hold_deadline_ms <$> own) higher
          not_before now with
  | Drop =>
      let '(s, released) := release_reservation_tx s job in
      Ok (s, if released : bool then DStateChanged else DHold)
  | Expire =>
      let backoff := after_millis now SCALAR_RESERVATION_BACKOFF_MILLIS in
      let s := set_jobs (alter (back_off backoff) job (so_jobs s)) s in
      Ok ((release_reservation_tx s job).1, DStateChanged)
  | Grant =>
      Ok (if bool_decide (is_Some own) then (release_reservation_tx s job).1 else s, DGrant)
  | Hold => Ok (s, DHold)
  | Create =>
      let deadline := after_millis now SCALAR_RESERVATION_HOLD_MILLIS in
      _ ← guard_err (bool_decide (is_Some (so_reservations s !! job)) || bool_decide (deadline ≤ now)%Z)
            (ESql "constraint of reservations");
      Ok (set_native_reservations (<[job := {| rv_id := new_id; rv_claims := scalar_only claims;
            rv_created_ms := now; rv_hold_deadline_ms := deadline |}]> (so_reservations s)) s, DCreated)
  end.
