(* ===== verification/ReservationFacts.v ===== *)
(** * ReservationFacts: reservations hold capacity that exists

    Normalisation after a change of the capacities keeps the highest-ranked
    reservations that still fit together, and the disposition of a job never
    reserves more than the machine has. *)
From S2P Require Import Prelude Spec Validate Kernel Scoped Observation Machine MachineStore Reservation.

(** The scalar vector a reservation debits. *)
Definition ranked_vectors (rs : list RankedReservation) : list (gmap string N) :=
  (λ r, scalar_entries (nr_claims r)) <$> rs.

(** Reservations held together within the capacities. *)
Definition held_within (c : ResourceCapacities) (rs : list RankedReservation) : Prop :=
  within_capacity (legacy_capacities c) (ranked_vectors rs).

Definition capacities_64 (c : ResourceCapacities) : Prop :=
  ∀ key, default 0 (legacy_capacities c !! key) ≤ u64_max.

Section held.
Context (c : ResourceCapacities).

Lemma total_debit_Permutation key (l k : list (gmap string N)) : l ≡ₚ k → total_debit key l = total_debit key k.
Proof.
  induction 1 as [|x l k _ IH|x y l|l k m _ IH1 _ IH2]; [done|..].
  - by rewrite !total_debit_cons, IH.
  - rewrite !total_debit_cons. lia.
  - by rewrite IH1.
Qed.

Lemma held_within_Permutation rs rs' : rs ≡ₚ rs' → held_within c rs → held_within c rs'.
Proof.
  intros Hp Hw key. rewrite <-(total_debit_Permutation key (ranked_vectors rs)); [apply Hw|].
  unfold ranked_vectors. by rewrite Hp.
Qed.

Lemma held_within_snoc rs r :
  held_within c rs → scalar_blockers (nr_claims r) c (map nr_claims rs) = [] → held_within c (rs ++ [r]).
Proof.
  intros Hw Hb. apply scalar_vector_blockers_nil in Hb.
  apply (held_within_Permutation (r :: rs)); [apply Permutation_cons_append|].
  apply within_capacity_admit; [exact Hw|]. by rewrite map_map in Hb.
Qed.

Lemma held_within_fits rs r post :
  capacities_64 c → held_within c (rs ++ r :: post) → scalar_blockers (nr_claims r) c (map nr_claims rs) = [].
Proof.
  intros H64 Hw. apply scalar_vector_blockers_nil. rewrite map_map. intros key amount Hk _.
  specialize (Hw key). specialize (H64 key). unfold ranked_vectors in Hw.
  rewrite fmap_app, fmap_cons, total_debit_app, total_debit_cons, Hk in Hw. simpl in Hw.
  change (map _ rs) with ((λ r, scalar_entries (nr_claims r)) <$> rs). lia.
Qed.

(** The loop keeps a prefix that fits and stops at a reservation that does not. *)
Lemma suffix_start_spec pre rs :
  held_within c pre →
  ∃ kept dropped, rs = kept ++ dropped ∧ held_within c (pre ++ kept) ∧
    suffix_start c (map nr_claims pre) (length pre) rs =
      (if decide (dropped = []) then None else Some (length pre + length kept)%nat) ∧
    (capacities_64 c → ∀ r, head dropped = Some r → ¬ held_within c (pre ++ kept ++ [r])).
Proof.
  revert pre. induction rs as [|r rs IH]; intros pre Hpre; simpl.
  - exists [], []. split_and!; [done|by rewrite app_nil_r|by rewrite decide_True|by intros _ r [=]].
  - case_bool_decide as Hb.
    + destruct (IH (pre ++ [r])) as (kept & dropped & -> & Hw & Hs & Hmax); [by apply held_within_snoc|].
      exists (r :: kept), dropped. rewrite <-(assoc_L (++)) in Hw.
      rewrite map_app, length_app in Hs. simpl in Hs. rewrite Nat.add_1_r in Hs. rewrite Hs.
      split_and!; [done|done|by case_decide; [|f_equal; simpl; lia]|].
      intros H64 q Hq. specialize (Hmax H64 q Hq). by rewrite <-(assoc_L (++)) in Hmax.
    + exists [], (r :: rs). simpl. split_and!; [done|by rewrite app_nil_r|by rewrite Nat.add_0_r|].
      intros H64 q [= <-] Hw. by apply Hb, (held_within_fits pre r []).
Qed.
End held.

(** ** The ranked list *)
Definition ranked_of (s : Store) (now : Z) (r : RankedReservation) (row : ReservationRow) (j : JobRow) : Prop :=
  so_reservations s !! nr_job_id r = Some row ∧ so_jobs s !! nr_job_id r = Some j ∧
  is_live s now (nr_job_id r) row = true ∧ nr_claims r = rv_claims row ∧
  nr_key r = {| sk_effective_priority := effective_priority_at (jb_priority j) (jb_accepted_ms j) now;
                sk_accepted_ms := jb_accepted_ms j; sk_rowid := jb_rowid j |}.

Lemma elem_of_ranked s now r : r ∈ ranked_reservations s now ↔ ∃ row j, ranked_of s now r row j.
Proof.
  unfold ranked_reservations. rewrite elem_of_sort_by, list_elem_of_omap. split.
  - intros ([job row] & Hin%elem_of_btree_entries & Hr). simpl in Hr.
    destruct (so_jobs s !! job) as [j|] eqn:Hj; simpl in Hr; [|done].
    destruct (is_live s now job row) eqn:Hl; [|done]. injection Hr as <-. by exists row, j.
  - intros (row & j & Hrow & Hj & Hl & Hc & Hk). exists (nr_job_id r, row).
    split; [by apply elem_of_btree_entries|]. simpl. rewrite Hj. simpl. rewrite Hl. f_equal.
    destruct r. simpl in *. by subst.
Qed.

Lemma NoDup_ranked s now : NoDup (nr_job_id <$> ranked_reservations s now).
Proof.
  unfold ranked_reservations. rewrite sort_by_Permutation.
  pose proof (NoDup_btree_keys (so_reservations s)) as Hnd. unfold btree_keys in Hnd.
  induction (btree_entries (so_reservations s)) as [|[job row] l IH]; [constructor|].
  inversion Hnd as [|? ? Hx Hl]; subst. specialize (IH Hl).
  simpl. destruct (so_jobs s !! job) as [j|]; [|exact IH]. simpl.
  destruct (is_live s now job row); [|exact IH]. simpl. constructor; [|exact IH].
  intros (r & -> & Hr)%list_elem_of_fmap. apply Hx. simpl in *.
  apply list_elem_of_omap in Hr as ([job' row'] & Hin & Hr). simpl in Hr.
  destruct (so_jobs s !! job') as [j'|]; simpl in Hr; [|done].
  destruct (is_live s now job' row'); [|done]. injection Hr as <-. simpl.
  apply list_elem_of_fmap. by exists (job', row').
Qed.

(** ** Dropping the suffix *)
Definition pushed_back (backoff : Z) (j : JobRow) : JobRow :=
  if decide (jb_state j = Pending) then
    back_off (Z.max (default backoff (jb_reservation_not_before_ms j)) backoff) j
  else j.

Lemma pushed_back_idem backoff j : pushed_back backoff (pushed_back backoff j) = pushed_back backoff j.
Proof.
  unfold pushed_back. destruct (decide (jb_state j = Pending)) as [Hp|Hp]; [|by rewrite decide_False].
  simpl. rewrite decide_True by done. unfold back_off. simpl. do 2 f_equal. lia.
Qed.

Lemma drop_ranked_fold backoff dropped s :
  let s' := foldl (drop_ranked backoff) s dropped in
  so_machine s' = so_machine s ∧
  ∀ job,
    so_reservations s' !! job =
      (if decide (job ∈ nr_job_id <$> dropped) then None else so_reservations s !! job) ∧
    so_jobs s' !! job =
      (if decide (job ∈ nr_job_id <$> dropped) then pushed_back backoff <$> so_jobs s !! job
       else so_jobs s !! job).
Proof.
  revert s. induction dropped as [|r dropped IH]; intros s; simpl; [done|].
  destruct (IH (drop_ranked backoff s r)) as [Hm Hs]. split; [exact Hm|]. intros job.
  destruct (Hs job) as [-> ->]. unfold drop_ranked. cbn [release_reservation_tx set_native_reservations
    set_jobs so_reservations so_jobs fst].
  destruct (decide (job = nr_job_id r)) as [->|Hne].
  - rewrite !(decide_True (P := nr_job_id r ∈ nr_job_id r :: _)) by set_solver.
    rewrite lookup_delete_eq, lookup_alter_eq. split; [by case_decide|].
    change (λ j, if decide (jb_state j = Pending) then _ else j) with (pushed_back backoff).
    case_decide; [|done]. rewrite <-option_fmap_compose.
    destruct (so_jobs s !! nr_job_id r); [|done]. simpl. f_equal. apply pushed_back_idem.
  - rewrite lookup_delete_ne, lookup_alter_ne by done.
    destruct (decide (job ∈ nr_job_id <$> dropped));
      [rewrite !decide_True by set_solver|rewrite !decide_False by set_solver]; done.
Qed.

Lemma ranked_after_drop s now backoff kept dropped :
  ranked_reservations s now = kept ++ dropped →
  ranked_reservations (foldl (drop_ranked backoff) s dropped) now ≡ₚ kept.
Proof.
  intros Hsplit. pose proof (NoDup_ranked s now) as Hnd. rewrite Hsplit, fmap_app in Hnd.
  apply NoDup_app in Hnd as (Hk & Hdisj & _).
  destruct (drop_ranked_fold backoff dropped s) as [_ Hs]. set (s' := foldl _ _ _) in *.
  apply NoDup_Permutation; [eapply NoDup_fmap_1, NoDup_ranked|by eapply NoDup_fmap_1|]. intros r.
  assert (nr_job_id r ∉ nr_job_id <$> dropped →
    (∃ row j, ranked_of s' now r row j) ↔ ∃ row j, ranked_of s now r row j) as Hsame.
  { intros Hout. destruct (Hs (nr_job_id r)) as [Hr Hj]. rewrite decide_False in Hr by done. rewrite decide_False in Hj by done.
    unfold ranked_of, is_live. by rewrite Hr, Hj. }
  rewrite elem_of_ranked. split.
  - intros (row & j & Hof). assert (nr_job_id r ∉ nr_job_id <$> dropped) as Hout.
    { intros Hin. destruct Hof as [Hrow _]. destruct (Hs (nr_job_id r)) as [Hr _].
      rewrite decide_True in Hr by done. congruence. }
    assert (r ∈ kept ++ dropped) as [?|Hd]%elem_of_app; [|done|].
    + rewrite <-Hsplit, elem_of_ranked. apply Hsame; [done|by exists row, j].
    + destruct Hout. apply list_elem_of_fmap. by exists r.
  - intros Hin. apply Hsame; [apply Hdisj, list_elem_of_fmap; by exists r|].
    apply elem_of_ranked. rewrite Hsplit. set_solver.
Qed.

(** C32: Normalisation keeps the longest run of highest-ranked live reservations
    that together stay within the capacities.  Every later one is removed and its
    job may not reserve again before the back-off; other jobs, other reservations
    and the coordinator's tables keep their values; the flag says whether
    anything was removed; and normalising again changes nothing. *)
Theorem normalization_keeps_fitting_prefix s c now s' changed :
  capacities_64 c →
  normalize_reservations_for_capacities_tx s c now = (s', changed) →
  ∃ kept dropped,
    ranked_reservations s now = kept ++ dropped ∧ changed = bool_decide (dropped ≠ []) ∧
    held_within c kept ∧ (∀ r, head dropped = Some r → ¬ held_within c (kept ++ [r])) ∧
    so_machine s' = so_machine s ∧
    (∀ job, so_reservations s' !! job =
      if decide (job ∈ nr_job_id <$> dropped) then None else so_reservations s !! job) ∧
    (∀ job, job ∉ nr_job_id <$> dropped → so_jobs s' !! job = so_jobs s !! job) ∧
    (∀ job, job ∈ nr_job_id <$> dropped → ∃ j not_before, so_jobs s' !! job = Some j ∧
      jb_reservation_not_before_ms j = Some not_before ∧
      (after_millis now SCALAR_RESERVATION_BACKOFF_MILLIS ≤ not_before)%Z) ∧
    normalize_reservations_for_capacities_tx s' c now = (s', false).
Proof.
  intros H64 Hn. set (backoff := after_millis now SCALAR_RESERVATION_BACKOFF_MILLIS).
  destruct (suffix_start_spec c [] (ranked_reservations s now)) as (kept & dropped & Hsplit & Hw & Hs & Hmax).
  { intros key. apply N.le_0_l. }
  assert (s' = foldl (drop_ranked backoff) s dropped ∧ changed = bool_decide (dropped ≠ [])) as [Hs' ->].
  { unfold normalize_reservations_for_capacities_tx in Hn. simpl in Hs. rewrite Hs in Hn.
    case_decide as Hd; [rewrite Hd in *|].
    - injection Hn as <- <-. split; [done|by rewrite bool_decide_eq_false_2 by tauto].
    - injection Hn as <- <-. rewrite bool_decide_eq_true_2 by done. by rewrite Hsplit, drop_app_length. }
  destruct (drop_ranked_fold backoff dropped s) as [Hm Hjobs]. rewrite <-Hs' in Hm, Hjobs.
  exists kept, dropped. split_and!; try done; [by apply Hmax|intros job; by apply Hjobs|..].
  - intros job Hout. destruct (Hjobs job) as [_ ->]. by rewrite decide_False.
  - intros job Hin. destruct (Hjobs job) as [_ ->]. rewrite decide_True by done.
    apply list_elem_of_fmap in Hin as (r & -> & Hin).
    assert (r ∈ ranked_reservations s now) as (row & j & _ & Hj & Hl & _)%elem_of_ranked by (rewrite Hsplit; set_solver).
    rewrite Hj. simpl. unfold is_live in Hl. rewrite Hj in Hl. apply andb_true_iff in Hl as [_ Hl].
    apply andb_true_iff in Hl as [Hp%bool_decide_eq_true _]. unfold pushed_back. rewrite decide_True by done.
    eexists _, _. split_and!; [done|done|fold backoff; lia].
  - unfold normalize_reservations_for_capacities_tx.
    destruct (suffix_start_spec c [] (ranked_reservations s' now)) as (kept' & dropped' & Hsplit' & _ & Hs2 & Hmax').
    { intros key. apply N.le_0_l. }
    simpl in Hs2. rewrite Hs2. case_decide as Hd; [done|]. destruct dropped' as [|r dropped']; [done|].
    destruct (Hmax' H64 r eq_refl). simpl.
    assert (held_within c (kept' ++ r :: dropped')) as Hall.
    { rewrite <-Hsplit', Hs'. apply (held_within_Permutation c kept); [symmetry; by apply ranked_after_drop|done]. }
    intros key. specialize (Hall key). unfold ranked_vectors in *.
    rewrite !fmap_app, fmap_cons, !total_debit_app, !total_debit_cons in *. simpl.
    change (total_debit key []) with 0. lia.
Qed.

(** ** What all reservations debit together *)
Definition reserved_vectors (s : Store) (now : Z) : list (gmap string N) :=
  map scalar_entries (reservation_claims_tx s now None).

Definition row_claims (s : Store) (now : Z) (p : Uuid * ReservationRow) : list ResolvedClaims :=
  if is_live s now p.1 p.2 then [rv_claims p.2] else [].

(** A reservation more or less debits its own claims more or less. *)
Lemma reserved_insert s now job row :
  so_reservations s !! job = None →
  reserved_vectors (set_native_reservations (<[job := row]> (so_reservations s)) s) now ≡ₚ
  map scalar_entries (row_claims s now (job, row)) ++ reserved_vectors s now.
Proof.
  intros Hnone. unfold reserved_vectors, reservation_claims_tx, row_claims. cbn [set_native_reservations
    so_reservations so_jobs so_machine fst snd].
  rewrite !btree_entries_Permutation, map_to_list_insert by done. cbn [omap list_omap].
  rewrite andb_true_r. unfold is_live. cbn [so_jobs]. by destruct (_ && _).
Qed.

Lemma reserved_delete c s now job :
  within_capacity (legacy_capacities c) (reserved_vectors s now) →
  within_capacity (legacy_capacities c) (reserved_vectors (release_reservation_tx s job).1 now).
Proof.
  intros Hw. destruct (so_reservations s !! job) as [row|] eqn:Hrow.
  - intros key. specialize (Hw key). set (s' := (release_reservation_tx s job).1).
    assert (s = set_native_reservations (<[job := row]> (so_reservations s')) s') as Hs.
    { destruct s as [t jobs rows]. unfold s'. simpl in *. unfold set_native_reservations. simpl.
      by rewrite insert_delete_eq, insert_id. }
    rewrite Hs in Hw. rewrite (total_debit_Permutation _ _ _ (reserved_insert s' now job row
      (lookup_delete_eq (so_reservations s) job))), total_debit_app in Hw. lia.
  - simpl. rewrite delete_id by done. by destruct s.
Qed.

(** Backing a job off does not change which reservations are live. *)
Lemma reserved_back_off s now job backoff :
  reserved_vectors (set_jobs (alter (back_off backoff) job (so_jobs s)) s) now = reserved_vectors s now.
Proof.
  unfold reserved_vectors, reservation_claims_tx. do 2 f_equal. cbn [set_jobs so_reservations].
  apply list_omap_ext, Forall2_same_length_lookup_2; [done|]. intros i [k row] q H1 H2.
  assert (q = (k, row)) as -> by congruence. unfold is_live. cbn [set_jobs so_jobs].
  destruct (decide (k = job)) as [->|Hne]; [rewrite lookup_alter_eq|by rewrite lookup_alter_ne].
  by destruct (so_jobs s !! job).
Qed.

(** What each disposition leaves behind for its job. *)
Definition disposition_spec (s s' : Store) (c : ResourceCapacities) (job : Uuid) (claims : ResolvedClaims)
    (active : list ResolvedClaims) (now : Z) (d : ScalarDisposition) : Prop :=
  let fits := vector_fits (scalar_entries claims) (legacy_capacities c) in
  match d with
  | DGrant => fits (map scalar_entries active) ∧ so_jobs s' = so_jobs s ∧ so_reservations s' !! job = None ∧
      (so_reservations s !! job = None → fits (map scalar_entries active ++ reserved_vectors s now))
  | DCreated => so_jobs s' = so_jobs s ∧ so_reservations s !! job = None ∧
      ¬ fits (map scalar_entries active ++ reserved_vectors s now) ∧
      ∃ row, so_reservations s' !! job = Some row ∧ rv_claims row = scalar_only claims ∧
        rv_created_ms row = now ∧ (now < rv_hold_deadline_ms row)%Z
  | DStateChanged => is_Some (so_reservations s !! job) ∧ so_reservations s' !! job = None
  | DHold => s' = s
  end.

Lemma reservation_tx_is_Some s job : is_Some (reservation_tx s job) ↔ is_Some (so_reservations s !! job).
Proof. unfold reservation_tx. destruct (so_reservations s !! job); simpl; split; intros [? [=]]; by eexists. Qed.

(** The disposition of a job never reserves more than the machine has, and
    touches only that job.  A granted job fits beside the active claims, and
    beside every reservation unless it held its own, which it gives up; a created
    reservation is one the job did not have, for its scalar claims, that holds
    beyond now; a changed state has given the reservation up; a hold changes
    nothing. *)
Theorem disposition_reserves_within_capacity s new_id c job claims active now s' d :
  within_capacity (legacy_capacities c) (reserved_vectors s now) →
  scalar_disposition_tx s new_id c job claims active now = Ok (s', d) →
  within_capacity (legacy_capacities c) (reserved_vectors s' now) ∧ so_machine s' = so_machine s ∧
  (∀ other, other ≠ job → so_reservations s' !! other = so_reservations s !! other ∧
     so_jobs s' !! other = so_jobs s !! other) ∧
  disposition_spec s s' c job claims active now d.
Proof.
  intros Hw Hrun. unfold scalar_disposition_tx in Hrun. result_inv.
  pose proof (reservation_tx_is_Some s job) as Hown.
  destruct (local_reservation_decision _ _ _ _ _ _ _ _) eqn:E in Hrun; unfold local_reservation_decision in E;
    match type of E with reservation_decision ?i = _ => pose proof (reservation_decision_reading i) as Hd end;
    rewrite E in Hd; clear E; unfold decision_spec in Hd; cbn [ri_claims ri_capacities ri_active ri_reserved
      ri_own_deadline ri_higher_overlaps ri_not_before ri_now] in Hd.
  - (* Grant *) case_bool_decide as Ho; injection Hrun as <- <-.
    + split; [by apply reserved_delete|]. split; [done|]. split; [intros; simpl; by rewrite lookup_delete_ne|].
      split_and!; [apply Hd|done|apply lookup_delete_eq|]. intros Hnone. apply Hown in Ho as [? ?]. congruence.
    + assert (so_reservations s !! job = None) as Hnone by (apply eq_None_not_Some; tauto).
      assert (reservation_tx s job = None) as Hr by by apply eq_None_not_Some. rewrite Hr in Hd. by destruct Hd.
  - (* Hold *) by injection Hrun as <- <-.
  - (* Create *) destruct Hd as (Hnone & Hfit & Hnot & _). result_inv.
    apply orb_false_iff in Hguard as [Hrow%bool_decide_eq_false Hlate%bool_decide_eq_false].
    assert (so_reservations s !! job = None) as Hnew by by apply eq_None_not_Some.
    split_and!; [|done|intros; simpl; by rewrite lookup_insert_ne|].
    + intros key. rewrite (total_debit_Permutation _ _ _ (reserved_insert s now job _ Hnew)).
      unfold row_claims. destruct (is_live _ _ _ _); [|apply Hw].
      apply (within_capacity_admit (scalar_entries claims) _ (reserved_vectors s now)); [done|exact Hfit].
    + split_and!; [done|done|exact Hnot|]. eexists. split_and!; [apply lookup_insert_eq|done|done|].
      simpl. lia.
  - (* Expire *) destruct Hd as (deadline & Hdl & _). injection Hrun as <- <-. split_and!.
    + refine (reserved_delete c (set_jobs _ s) now job _). by rewrite reserved_back_off.
    + done.
    + intros other Hne. simpl. by rewrite lookup_delete_ne, lookup_alter_ne.
    + split; [|apply lookup_delete_eq]. apply Hown. destruct (reservation_tx s job); [by eexists|done].
  - (* Drop *) cbn in Hrun. case_bool_decide as Hrow; injection Hrun as <- <-.
    + split; [by apply reserved_delete|]. split; [done|].
      split; [intros; simpl; by rewrite lookup_delete_ne|]. split; [done|apply lookup_delete_eq].
    + rewrite delete_id by by apply eq_None_not_Some. by destruct s.
Qed.

(** ** A machine that lost half of its processors *)
Module Shrunk.
Definition job (n : Z) : JobRow :=
  {| jb_state := Pending; jb_priority := 0; jb_accepted_ms := n; jb_rowid := n; jb_cancel_requested := false;
     jb_reservation_not_before_ms := None |}.
Definition claims (cpus : N) : ResolvedClaims :=
  {| cl_cpu_units := cpus; cl_ram_mb := 0; cl_cargo_slots := 0; cl_gpu_slots := 0; cl_custom := ∅;
     cl_shared_fences := ∅; cl_exclusive_fences := ∅; cl_impacts := ∅ |}.
Definition hold (id cpus : N) : ReservationRow :=
  {| rv_id := id; rv_claims := claims cpus; rv_created_ms := 0; rv_hold_deadline_ms := 9000 |}.
Definition capacities (cpus : N) : ResourceCapacities :=
  {| cap_cpu_units := cpus; cap_ram_mb := 0; cap_cargo_slots := 0; cap_gpu_slots := 0; cap_custom := ∅ |}.
Definition tables : Tables :=
  {| tb_domains := ∅; tb_operations := ∅; tb_queue := ∅; tb_queue_next := 1; tb_candidates := ∅; tb_grants := ∅;
     tb_tickets := ∅; tb_readiness := ∅; tb_reservations := ∅; tb_reconciles := ∅; tb_schedule_ms := 0;
     tb_revision := 0; tb_leases := [] |}.
(** Three reservations of 3, 2 and 1 processors, oldest first. *)
Definition store : Store :=
  {| so_machine := tables; so_jobs := list_to_map [(1, job 1); (2, job 2); (3, job 3); (4, job 4)];
     so_reservations := list_to_map [(1, hold 11 3); (2, hold 12 2); (3, hold 13 1)] |}.

Definition normal := normalize_reservations_for_capacities_tx store (capacities 4) 1000.

(** The second does not fit beside the first, so the third goes with it. *)
Example shrunk_run : btree_keys (so_reservations normal.1) = [1] ∧ normal.2 = true.
Proof. vm_compute. done. Qed.

Lemma capacities_bounded cpus : cpus ≤ u64_max → capacities_64 (capacities cpus).
Proof.
  intros Hc key. unfold legacy_capacities, capacities. simpl. rewrite !lookup_insert.
  repeat case_decide; simpl; (done || (rewrite lookup_empty; done)).
Qed.

Lemma normalization_keeps_fitting_prefix_witness :
  normalize_reservations_for_capacities_tx normal.1 (capacities 4) 1000 = (normal.1, false).
Proof.
  destruct (normalization_keeps_fitting_prefix store (capacities 4) 1000 normal.1 normal.2)
    as (kept & dropped & _ & _ & _ & _ & _ & _ & _ & _ & Hagain).
  - apply capacities_bounded. discriminate.
  - vm_compute. reflexivity.
  - exact Hagain.
Defined.

Definition disposed := scalar_disposition_tx store 14 (capacities 8) 4 (claims 2) [claims 7] 1000.
Definition after_disposal : Store := (unwrap_or (store, DHold) disposed).1.

Lemma store_within : within_capacity (legacy_capacities (capacities 8)) (reserved_vectors store 1000).
Proof.
  assert (reserved_vectors store 1000 = map scalar_entries [claims 3; claims 2; claims 1]) as ->.
  { refine (bool_decide_unpack _ _). vm_compute. exact I. }
  repeat (apply within_capacity_admit; [|apply fits_spec; vm_compute; reflexivity]).
  intros key. apply N.le_0_l.
Qed.

Lemma disposition_reserves_within_capacity_witness :
  within_capacity (legacy_capacities (capacities 8)) (reserved_vectors after_disposal 1000).
Proof.
  apply (disposition_reserves_within_capacity store 14 (capacities 8) 4 (claims 2) [claims 7] 1000
    after_disposal DCreated).
  - exact store_within.
  - vm_compute. reflexivity.
Defined.
End Shrunk.
