(* ===== verification/MachineOffer.v ===== *)
(** * MachineOffer: offers to attached managers
    ([src/src/store/machine_queue.rs])

    One scheduling pass: overdue holds and offers expire, reservations that no
    longer fit in rank order are dropped, and ready candidates that rank before
    the next native job are offered, reserved or left waiting.  Fresh identities
    come from the argument [mint], one pair per candidate. *)
From S2P Require Import Prelude Spec Validate Kernel Scoped Observation Machine MachineStore Reservation.

(** ** Claims of a candidate *)
Definition claims (c : Claims) : ResolvedClaims :=
  let take name m := (default 0 (m !! name), delete name m) in
  let '(cpu_units, scalars) := take "cpu_units"%string (mc_scalars c) in
  let '(ram_mb, scalars) := take "ram_mb"%string scalars in
  let '(cargo_slots, scalars) := take "cargo_slots"%string scalars in
  let '(gpu_slots, scalars) := take "gpu_slots"%string scalars in
  {| cl_cpu_units := cpu_units; cl_ram_mb := ram_mb; cl_cargo_slots := cargo_slots;
     cl_gpu_slots := gpu_slots; cl_custom := scalars;
     cl_shared_fences := list_to_set (mc_shared_fences c);
     cl_exclusive_fences := list_to_set (mc_exclusive_fences c);
     cl_impacts := list_to_set (mc_impacts c) |}.

(** What the authority registry holds of a paired manager. *)
Record Registration := {
  rg_domain_id : ExecutionDomainId;
  rg_parent_domain : ExecutionDomainId;
  rg_budgets : gmap string N;
  rg_aliases : gmap string string;
}.

(** [authority] is the registry, when there is one: its domains and anchors. *)
Definition machine_topology (authority : option (option AuthorityDomains * list Registration))
    (c : ResourceCapacities) : result StoreError (option (AuthorityDomains * ResourceTopology)) :=
  match authority with
  | None | Some (None, _) | Some (_, []) => Ok None
  | Some (Some domains, anchors) =>
      let nodes :=
        [{| db_id := ad_machine_scope domains; db_parent := None; db_capacities := machine_capacities c |};
         {| db_id := ad_native_domain domains; db_parent := Some (ad_machine_scope domains);
            db_capacities := ∅ |}]
        ++ map (λ r, {| db_id := rg_domain_id r; db_parent := Some (rg_parent_domain r);
                        db_capacities := rg_budgets r |}) anchors in
      let aliases := btree_extend ∅ (concat (map (λ r,
        map (λ '(alias, physical), ((rg_domain_id r, alias), physical)) (btree_entries (rg_aliases r)))
        anchors)) in
      match ResourceTopology_new (ad_machine_scope domains) nodes aliases with
      | Ok topology => Ok (Some (domains, topology))
      | Err detail => Err (EInvalidState detail)
      end
  end.

(** ** Reservations of one pass *)

(** The key of a reservation: a job id, or the JSON text of an allocation key.
    The text starts with a brace, after every job id. *)
Inductive Slot := NativeSlot (job : Uuid) | RemoteSlot (key : AllocationKey).
#[global] Instance Slot_eq_dec : EqDecision Slot.
Proof. solve_decision. Defined.
Definition slot_le (a b : Slot) : Prop :=
  match a, b with
  | NativeSlot a, NativeSlot b => a ≤ b
  | NativeSlot _, RemoteSlot _ => True
  | RemoteSlot _, NativeSlot _ => False
  | RemoteSlot a, RemoteSlot b => btree_le a b
  end.
#[global] Instance slot_le_dec : RelDecision slot_le.
Proof. intros [] []; simpl; apply _. Defined.

Record Held := { hd_slot : Slot; hd_rank : ScheduleKey; hd_claims : ScopedClaims }.
Definition held_le (a b : Held) : Prop :=
  match schedule_order (hd_rank a) (hd_rank b) with
  | Lt => True | Gt => False | Eq => slot_le (hd_slot a) (hd_slot b) end.
#[global] Instance held_le_dec : RelDecision held_le.
Proof. intros a b. unfold held_le. destruct (schedule_order _ _); apply _. Defined.

Definition ready_le (a b : Candidate * ScheduleKey) : Prop :=
  match schedule_order a.2 b.2 with
  | Lt => True | Gt => False | Eq => ak_lease_id (cd_key a.1) ≤ ak_lease_id (cd_key b.1) end.
#[global] Instance ready_le_dec : RelDecision ready_le.
Proof. intros a b. unfold ready_le. destruct (schedule_order _ _); apply _. Defined.

Definition scalars_only (c : ScopedClaims) : ScopedClaims :=
  {| sc_scalars := sc_scalars c; sc_shared_fences := ∅; sc_exclusive_fences := ∅; sc_impacts := ∅ |}.
Definition non_scalars (c : ScopedClaims) : ScopedClaims :=
  {| sc_scalars := ∅; sc_shared_fences := sc_shared_fences c;
     sc_exclusive_fences := sc_exclusive_fences c; sc_impacts := sc_impacts c |}.

(** [reserved.retain(|r| r.1 || r.0 != key)]. *)
Definition forget (key : AllocationKey) (reserved : list Held) : list Held :=
  List.filter (λ h, bool_decide (hd_slot h ≠ RemoteSlot key)) reserved.

(** [topology.expand(..).map_err(StoreError::InvalidState)]. *)
Definition expand_state (topology : ResourceTopology) (domain : ExecutionDomainId) (c : ResolvedClaims)
    : result StoreError ScopedClaims :=
  match expand topology domain c with Ok e => Ok e | Err detail => Err (EInvalidState detail) end.

Record Pass := {
  ps_store : Store;
  ps_active : list ScopedClaims;
  ps_reserved : list Held;
  ps_changed : bool;
}.

Section offer.
Context (uuid_to_string : Uuid → string).

Definition physical_claims (expanded : ScopedClaims) (root : ExecutionDomainId) : ResolvedClaims :=
  let scalars := btree_extend ∅ (omap (λ '(key, value),
    if bool_decide (scope key = root) then Some (resource_id key, value) else None)
    (btree_entries (sc_scalars expanded))) in
  let result := claims {| mc_scalars := scalars; mc_shared_fences := []; mc_exclusive_fences := [];
                          mc_impacts := btree_elements (sc_impacts expanded) |} in
  let named id := "domain:" +:+ uuid_to_string (scope id) +:+ ":" +:+ resource_id id in
  {| cl_cpu_units := cl_cpu_units result; cl_ram_mb := cl_ram_mb result;
     cl_cargo_slots := cl_cargo_slots result; cl_gpu_slots := cl_gpu_slots result;
     cl_custom := cl_custom result; cl_shared_fences := set_map named (sc_shared_fences expanded);
     cl_exclusive_fences := set_map named (sc_exclusive_fences expanded);
     cl_impacts := cl_impacts result |}.

(** Offers past their deadline. *)
Definition expired_offers (t : Tables) (now : Z) : list GrantSnapshot :=
  omap (λ '(_, row),
    if bool_decide (gr_state row = Offered) && bool_decide (gr_deadline_ms row ≤ now)%Z
    then Some (gr_snapshot row) else None) (btree_entries (tb_grants t)).

Definition set_not_before (not_before : Z) (row : CandidateRow) : CandidateRow :=
  set_hold (cr_reservation_deadline_ms row) (Some not_before) row.

Definition expire_offer (now : Z) (t : Tables) (g : GrantSnapshot) : result StoreError Tables :=
  t ← save_grant t (expire_grant g) None;
  Ok (update_candidate (cd_key (gs_candidate g)) (set_not_before (i64_saturating_add now 5000)) t).

(** Candidates that may be offered, by rank. *)
Definition is_ready (t : Tables) (now : Z) (key : AllocationKey) (row : CandidateRow) : bool :=
  bool_decide (cr_state row = Ready) && bool_decide (now < cr_expires_ms row)%Z
  && bool_decide (default 0 (cr_not_before_ms row) ≤ now)%Z
  && match tb_grants t !! key with Some g => bool_decide (gr_state g = Expired) | None => true end.

Definition ready_candidates (t : Tables) (now : Z) : list (Candidate * ScheduleKey) :=
  sort_by ready_le (omap (λ '(key, row),
    queue ← tb_queue t !! cr_queue_owner row;
    domain ← tb_domains t !! cr_domain_id row;
    if is_ready t now key row && negb (dr_reconciliation_required domain) then
      Some (cr_candidate row,
        {| sk_effective_priority :=
             effective_priority_at (cd_priority (cr_candidate row)) (qr_accepted_ms queue) now;
           sk_accepted_ms := qr_accepted_ms queue; sk_rowid := qr_sequence queue |})
    else None) (btree_entries (tb_candidates t))).

(** Native leases and outstanding grants, expanded over the hierarchy. *)
Definition active_holders (t : Tables) (domains : AuthorityDomains) (topology : ResourceTopology)
    : result StoreError (list ScopedClaims) :=
  native ← result_mapM (expand_state topology (ad_native_domain domains)) (tb_leases t);
  remote ← result_mapM (λ g : GrantSnapshot,
      expand_state topology (ak_domain_id (cd_key (gs_candidate g))) (claims (cd_claims (gs_candidate g))))
    (omap (λ p : AllocationKey * GrantRow,
      if is_outstanding (gr_state p.2) then Some (gr_snapshot p.2) else None) (btree_entries (tb_grants t)));
  Ok (native ++ remote).

Definition native_held (s : Store) (domains : AuthorityDomains) (topology : ResourceTopology) (now : Z)
    : result StoreError (list Held) :=
  result_mapM (λ '(job, row),
    rank ← schedule_key s job now;
    expanded ← expand_state topology (ad_native_domain domains) (rv_claims row);
    Ok {| hd_slot := NativeSlot job; hd_rank := rank; hd_claims := expanded |})
    (List.filter (λ p : Uuid * ReservationRow, bool_decide (now < rv_hold_deadline_ms p.2)%Z)
       (btree_entries (so_reservations s))).

(** A remote reservation joins [reserved], or is dropped when its candidate
    was computed for another configuration. *)
Definition remote_held (topology : ResourceTopology) (config : string) (st : Tables * list Held * bool)
    (r : RemoteReservation) : result StoreError (Tables * list Held * bool) :=
  let '(t, reserved, changed) := st in
  let c := rr_candidate r in
  if bool_decide (cd_configuration_sha256 c ≠ config) then
    let '(t, dropped) := drop_reservation t (cd_key c) in
    Ok (t, reserved, changed || dropped)
  else
    expanded ← expand_state topology (ak_domain_id (cd_key c)) (claims (cd_claims c));
    Ok (t, reserved ++ [{| hd_slot := RemoteSlot (cd_key c); hd_rank := rr_rank r;
                           hd_claims := scalars_only expanded |}], changed).

(** The longest prefix in rank order that fits by itself; the rest is dropped
    and backs off. *)
Definition drop_held (now : Z) (s : Store) (slot : Slot) : Store :=
  let backoff := i64_saturating_add now 5000 in
  match slot with
  | NativeSlot job =>
      (release_reservation_tx (set_jobs (alter (back_off backoff) job (so_jobs s)) s) job).1
  | RemoteSlot key =>
      set_machine (update_candidate key (set_not_before backoff) (drop_reservation (so_machine s) key).1) s
  end.

Fixpoint retain_prefix (topology : ResourceTopology) (rules : gmap string (list string)) (now : Z)
    (s : Store) (retained : list Held) (suffix : bool) (changed : bool) (reserved : list Held)
    : Store * list Held * bool :=
  match reserved with
  | [] => (s, retained, changed)
  | h :: reserved =>
      let suffix := suffix || negb (bool_decide
        (ScopedClaims_blockers uuid_to_string (hd_claims h) topology (map hd_claims retained) rules = [])) in
      if suffix : bool then
        retain_prefix topology rules now (drop_held now s (hd_slot h)) retained suffix true reserved
      else retain_prefix topology rules now s (retained ++ [h]) suffix changed reserved
  end.

(** Another, higher-ranked reservation claims a scalar of this candidate. *)
Definition higher_overlaps (reserved : list Held) (key : AllocationKey) (rank : ScheduleKey)
    (expanded : ScopedClaims) : bool :=
  existsb (λ h,
    bool_decide (hd_slot h ≠ RemoteSlot key) && outranks (hd_rank h) rank
    && existsb (λ p : ScopedResourceId * N, bool_decide (0 < p.2)
         && match sc_scalars (hd_claims h) !! p.1 with Some v => bool_decide (0 < v) | None => false end)
         (btree_entries (sc_scalars expanded))) reserved.

Definition offer_decision (topology : ResourceTopology) (pass : Pass) (now : Z) (row : CandidateRow)
    (key : AllocationKey) (rank : ScheduleKey) (expanded : ScopedClaims) : ReservationDecision :=
  reservation_decision
    {| ri_claims := sc_scalars expanded; ri_capacities := capacities topology;
       ri_active := map sc_scalars (ps_active pass);
       ri_reserved := map (λ h, sc_scalars (hd_claims h)) (ps_reserved pass);
       ri_own_deadline := cr_reservation_deadline_ms row;
       ri_higher_overlaps := higher_overlaps (ps_reserved pass) key rank expanded;
       ri_not_before := cr_not_before_ms row; ri_now := now |}.

(** Drop the candidate's own reservation, in the tables and in [reserved]. *)
Definition drop_own (pass : Pass) (key : AllocationKey) : Pass * bool :=
  let '(t, dropped) := drop_reservation (so_machine (ps_store pass)) key in
  ({| ps_store := set_machine t (ps_store pass); ps_active := ps_active pass;
      ps_reserved := forget key (ps_reserved pass); ps_changed := ps_changed pass |}, dropped).

Definition mark_changed (b : bool) (pass : Pass) : Pass :=
  {| ps_store := ps_store pass; ps_active := ps_active pass; ps_reserved := ps_reserved pass;
     ps_changed := ps_changed pass || b |}.

Definition map_tables (f : Tables → Tables) (pass : Pass) : Pass :=
  {| ps_store := set_machine (f (so_machine (ps_store pass))) (ps_store pass);
     ps_active := ps_active pass; ps_reserved := ps_reserved pass; ps_changed := ps_changed pass |}.

Definition create_hold (root : ExecutionDomainId) (now : Z) (pass : Pass) (key : AllocationKey)
    (rank : ScheduleKey) (expanded : ScopedClaims) : Pass :=
  let deadline := i64_saturating_add now (Z.of_N SCALAR_RESERVATION_HOLD_MILLIS) in
  let t := update_candidate key (λ row, set_hold (Some deadline) (cr_not_before_ms row) row)
             (so_machine (ps_store pass)) in
  let t := set_reservations (<[key := scalar_only (physical_claims expanded root)]>) t in
  {| ps_store := set_machine t (ps_store pass); ps_active := ps_active pass;
     ps_reserved := ps_reserved pass ++ [{| hd_slot := RemoteSlot key; hd_rank := rank;
                                            hd_claims := scalars_only expanded |}];
     ps_changed := true |}.

(** A re-offer keeps the grant id of the expired offer. *)
Definition offer_grant_id (store_uuid : Uuid) (t : Tables) (key : AllocationKey) (fresh : Uuid)
    : result StoreError DurableId :=
  match tb_grants t !! key with
  | Some row =>
      let prior := gs_grant_id (gr_snapshot row) in
      _ ← guard_err (bool_decide (Machine.store_uuid prior ≠ store_uuid))
            (EInvalidState "Grant belongs to another coordinator store");
      Ok {| Machine.store_uuid := store_uuid; entity_uuid := entity_uuid prior |}
  | None => Ok {| Machine.store_uuid := store_uuid; entity_uuid := fresh |}
  end.

Definition new_offer (grant_id : DurableId) (candidate : Candidate) (rank : ScheduleKey) (nonce : Uuid)
    (now : Z) : GrantSnapshot :=
  {| gs_queue_accepted_unix_millis := sk_accepted_ms rank;
     gs_queue_sequence := Z.to_N (sk_rowid rank); gs_uncertainty_reason := None;
     gs_risk_clearance := None; gs_grant_id := grant_id; gs_candidate := candidate;
     gs_offer_nonce := nonce; gs_state := Offered; gs_offered_unix_millis := now;
     gs_offer_deadline_unix_millis := i64_saturating_add now OFFER_MILLIS;
     gs_armed_unix_millis := None; gs_released_unix_millis := None; gs_tickets := [];
     gs_sealed_release := None |}.

Definition place_offer (store_uuid root : Uuid) (mint : AllocationKey → Uuid * Uuid) (now : Z) (pass : Pass)
    (candidate : Candidate) (rank : ScheduleKey) (expanded : ScopedClaims) : result StoreError Pass :=
  let key := cd_key candidate in
  let t := so_machine (ps_store pass) in
  grant_id ← offer_grant_id store_uuid t key (mint key).1;
  _ ← guard_err (bool_decide (sk_rowid rank < 0)%Z) (EInvalidState "negative queue identity");
  t ← save_grant t (new_offer grant_id candidate rank (mint key).2 now) (Some (physical_claims expanded root));
  Ok {| ps_store := set_machine t (ps_store pass); ps_active := ps_active pass ++ [expanded];
        ps_reserved := ps_reserved pass; ps_changed := true |}.

(** The body of the loop over [ready], after the rank check. *)
Definition consider (topology : ResourceTopology) (rules : gmap string (list string)) (config : string)
    (store_uuid root : Uuid) (mint : AllocationKey → Uuid * Uuid) (now : Z) (pass : Pass)
    (candidate : Candidate) (rank : ScheduleKey) : result StoreError Pass :=
  let key := cd_key candidate in
  if bool_decide (cd_configuration_sha256 candidate ≠ config) then Ok pass
  else match expand topology (ak_domain_id key) (claims (cd_claims candidate)) with
  | Err _ => Ok pass
  | Ok expanded =>
      if negb (bool_decide
           (ScopedClaims_blockers uuid_to_string (non_scalars expanded) topology (ps_active pass) rules = [])) then
        let '(pass, dropped) := drop_own pass key in Ok (mark_changed dropped pass)
      else
        row ← ok_or (tb_candidates (so_machine (ps_store pass)) !! key) (ESql "no rows");
        match offer_decision topology pass now row key rank expanded with
        | Drop => let '(pass, dropped) := drop_own pass key in Ok (mark_changed dropped pass)
        | Expire =>
            let '(pass, _) := drop_own pass key in
            Ok (mark_changed true (map_tables (update_candidate key
              (set_not_before (i64_saturating_add now 5000))) pass))
        | Hold => Ok pass
        | Create => Ok (create_hold root now pass key rank expanded)
        | Grant =>
            place_offer store_uuid root mint now (drop_own pass key).1 candidate rank expanded
        end
  end.

Fixpoint offer_loop (topology : ResourceTopology) (rules : gmap string (list string)) (config : string)
    (store_uuid root : Uuid) (mint : AllocationKey → Uuid * Uuid) (now : Z)
    (native_rank : option ScheduleKey) (pass : Pass) (ready : list (Candidate * ScheduleKey))
    : result StoreError Pass :=
  match ready with
  | [] => Ok pass
  | (candidate, rank) :: ready =>
      if match native_rank with
         | Some n => bool_decide (schedule_order rank n = Gt) | None => false end
      then Ok pass
      else
        pass ← consider topology rules config store_uuid root mint now pass candidate rank;
        offer_loop topology rules config store_uuid root mint now native_rank pass ready
  end.

(** The pass within its transaction. *)
Definition offer_pass (s : Store) (domains : AuthorityDomains) (topology : ResourceTopology)
    (rules : gmap string (list string)) (config : string) (store_uuid : Uuid)
    (mint : AllocationKey → Uuid * Uuid) (native : option Uuid) (now : Z) : result StoreError (Store * bool) :=
  let '(t, changed) := expire (so_machine s) now in
  let overdue := expired_offers t now in
  t ← result_foldM (expire_offer now) t overdue;
  let changed := changed || negb (bool_decide (length overdue = 0%nat)) in
  let s := set_machine t s in
  native_rank ← match native with
                | Some job => rank ← schedule_key s job now; Ok (Some rank) | None => Ok None end;
  let ready := ready_candidates t now in
  active ← active_holders t domains topology;
  natives ← native_held s domains topology now;
  st ← result_foldM (remote_held topology config) (t, natives, changed) (remote_reservations t now);
  let '(t, reserved, changed) := st in
  let '(s, reserved, changed) :=
    retain_prefix topology rules now (set_machine t s) [] false changed (sort_by held_le reserved) in
  pass ← offer_loop topology rules config store_uuid (ad_machine_scope domains) mint now native_rank
    {| ps_store := s; ps_active := active; ps_reserved := reserved; ps_changed := changed |} ready;
  let s := ps_store pass in
  if ps_changed pass then
    Ok (set_machine (set_meta now (tb_revision (so_machine s) + 1) (so_machine s)) s, true)
  else Ok (s, false).

Definition machine_offer_before_native (s : Store) (authority_blocked : bool)
    (authority : option (option AuthorityDomains * list Registration)) (c : ResourceCapacities)
    (rules : gmap string (list string)) (config : string) (store_uuid : Uuid)
    (mint : AllocationKey → Uuid * Uuid) (wall : Z) (native : option Uuid) : result StoreError (Store * bool) :=
  if authority_blocked then Ok (s, false)
  else
    topology ← machine_topology authority c;
    match topology with
    | None => Ok (s, false)
    | Some (domains, topology) =>
        offer_pass s domains topology rules config store_uuid mint native
          (Z.max wall (tb_schedule_ms (so_machine s)))
    end.
End offer.
