(* ===== verification/OfferFacts.v ===== *)
(** * OfferFacts: scheduling passes

    A pass keeps the store consistent, never takes a used grant back, and only
    offers what fits the whole hierarchy beside everything outstanding. *)
From S2P Require Import Prelude Spec Validate Kernel Scoped ScopedFacts Observation Machine MachineStore.
From S2P Require Import MachineFacts ExchangeFacts Reservation MachineOffer.

(** ** Holders as a multiset *)
Lemma pairwise_inv {A} (R : A → A → Prop) x l :
  pairwise R (x :: l) → Forall (R x) l ∧ pairwise R l.
Proof.
  intros Hp. split; [|by apply (pairwise_delete R [] x l)].
  apply Forall_forall. intros y (l1 & l2 & ->)%list_elem_of_split. by apply (Hp [] x l1 y l2).
Qed.

#[global] Instance pairwise_Permutation {A} (R : A → A → Prop) `{!Symmetric R} :
  Proper ((≡ₚ) ==> impl) (pairwise R).
Proof.
  intros l k Hlk. induction Hlk as [|x l k Hlk IH|x y l|l k m _ IH1 _ IH2]; intros Hp; [done| | |by auto].
  - apply pairwise_inv in Hp as [Hx Hp]. apply pairwise_cons; [by rewrite <-Hlk|by apply IH].
  - apply pairwise_inv in Hp as [Hy Hp]. apply pairwise_inv in Hp as [Hx Hp].
    inversion Hy; subst. repeat apply pairwise_cons; try done. constructor; [by symmetry|done].
Qed.

#[global] Instance scoped_compatible_symmetric rules : Symmetric (scoped_compatible rules).
Proof.
  intros a b. unfold scoped_compatible, fences_compatible, impacts_compatible.
  intros [Hf Hi]. split; [set_solver|]. intros x y Hx Hy. rewrite impacts_conflict_sym. by apply Hi.
Qed.

Lemma holders_safe_submseteq t rules l k :
  l ⊆+ k → holders_safe t rules k → holders_safe t rules l.
Proof.
  intros (rest & Hk)%submseteq_Permutation [Hw Hp]. split.
  - intros key. specialize (Hw key). unfold total_debit, debits_of in *.
    rewrite Hk, !map_app, sum_N_app in Hw. lia.
  - rewrite Hk in Hp. clear Hk Hw. induction rest as [|x rest IH]; [by rewrite app_nil_r in Hp|].
    by apply IH, (pairwise_delete _ _ x).
Qed.

Section holders.
Context (topology : ResourceTopology) (domains : AuthorityDomains).

Definition expand_candidate (c : Candidate) : result StoreError ScopedClaims :=
  expand_state topology (ak_domain_id (cd_key c)) (claims (cd_claims c)).

(** The candidates whose grants are outstanding. *)
Definition outstanding (t : Tables) : gmap AllocationKey Candidate :=
  omap (λ row, if is_outstanding (gr_state row) then Some (gs_candidate (gr_snapshot row)) else None)
    (tb_grants t).

(** [l] lists the expanded holders of [t], in some order. *)
Definition holds (t : Tables) (l : list ScopedClaims) : Prop :=
  ∃ native remote, result_mapM (expand_state topology (ad_native_domain domains)) (tb_leases t) = Ok native ∧
    result_mapM expand_candidate (map_to_list (outstanding t)).*2 = Ok remote ∧ l ≡ₚ native ++ remote.

Lemma result_mapM_Permutation {E A B} (f : A → result E B) l l' k :
  l ≡ₚ l' → result_mapM f l = Ok k → ∃ k', result_mapM f l' = Ok k' ∧ k ≡ₚ k'.
Proof.
  intros Hl Hk%result_mapM_Ok.
  destruct (Permutation_Forall2 Hl Hk) as (k' & Hp & Hk'). exists k'. by rewrite result_mapM_Ok.
Qed.

Lemma result_mapM_fmap {E A B C} (f : B → result E C) (g : A → B) l :
  result_mapM f (g <$> l) = result_mapM (λ x, f (g x)) l.
Proof. induction l as [|x l IH]; [done|]. simpl. by rewrite <-IH. Qed.

Lemma outstanding_list t :
  gs_candidate <$> omap (λ p : AllocationKey * GrantRow,
    if is_outstanding (gr_state p.2) then Some (gr_snapshot p.2) else None) (btree_entries (tb_grants t))
  ≡ₚ (map_to_list (outstanding t)).*2.
Proof.
  set (f := λ p : AllocationKey * GrantRow,
    if is_outstanding (gr_state p.2) then Some (p.1, gs_candidate (gr_snapshot p.2)) else None).
  transitivity (omap f (btree_entries (tb_grants t))).*2.
  - induction (btree_entries (tb_grants t)) as [|p l IH]; [done|]. unfold f; simpl.
    destruct (is_outstanding (gr_state p.2)); simpl; [by constructor|done].
  - apply fmap_Permutation. apply NoDup_Permutation.
    + apply (NoDup_fmap_1 fst). pose proof (NoDup_btree_keys (tb_grants t)) as Hnd.
      unfold btree_keys in Hnd. induction (btree_entries (tb_grants t)) as [|p l IH]; [constructor|].
      simpl in *. inversion Hnd as [|? ? Hp Hl]; subst. unfold f at 1.
      destruct (is_outstanding _); simpl; [|by apply IH]. constructor; [|by apply IH].
      intros ([k c] & Hk & (q & Hq & Hf)%list_elem_of_omap)%list_elem_of_fmap. unfold f in Hf.
      destruct (is_outstanding _) in Hf; simplify_eq/=. apply Hp.
      apply list_elem_of_fmap. exists q. split; [congruence|done].
    + apply NoDup_map_to_list.
    + intros [k c]. rewrite list_elem_of_omap, elem_of_map_to_list. unfold outstanding. rewrite lookup_omap.
      split.
      * intros ([k' row] & Hin & Hf). apply elem_of_btree_entries in Hin. unfold f in Hf. simpl in Hf.
        destruct (is_outstanding (gr_state row)) eqn:Ho; simplify_eq. rewrite Hin. simpl. by rewrite Ho.
      * destruct (tb_grants t !! k) as [row|] eqn:Hrow; simpl; [|done]. intros Hc.
        exists (k, row). split; [by apply elem_of_btree_entries|]. unfold f; simpl.
        by destruct (is_outstanding (gr_state row)); simplify_eq.
Qed.

Lemma active_holders_holds t l : active_holders t domains topology = Ok l → holds t l.
Proof.
  unfold active_holders. intros H. result_inv.
  match goal with H : result_mapM (expand_state _ _) _ = Ok ?n, H' : result_mapM _ (omap _ _) = Ok ?r |- _ =>
    rename n into native, r into remote, H into Hn, H' into Hr end.
  rewrite <-(result_mapM_fmap expand_candidate gs_candidate) in Hr.
  destruct (result_mapM_Permutation _ _ _ _ (outstanding_list t) Hr) as (remote' & Hr' & Hp).
  exists native, remote'. split_and!; [done..|]. by rewrite Hp.
Qed.

Lemma holds_active_holders t l : holds t l → ∃ l', active_holders t domains topology = Ok l' ∧ l' ≡ₚ l.
Proof.
  intros (native & remote & Hn & Hr & Hl).
  destruct (result_mapM_Permutation _ _ _ _ (symmetry (outstanding_list t)) Hr) as (remote' & Hr' & Hp).
  unfold expand_candidate in Hr'. rewrite (result_mapM_fmap _ gs_candidate) in Hr'.
  exists (native ++ remote'). unfold active_holders. rewrite Hn. simpl. rewrite Hr'. simpl.
  split; [done|]. by rewrite Hl, Hp.
Qed.

(** Fewer outstanding grants hold less. *)
Lemma holds_subseteq t t' l :
  tb_leases t' = tb_leases t → outstanding t' ⊆ outstanding t → holds t l →
  ∃ l', holds t' l' ∧ l' ⊆+ l.
Proof.
  intros Hlease Hsub (native & remote & Hn & Hr & Hl).
  apply map_to_list_submseteq in Hsub. apply (fmap_submseteq snd) in Hsub.
  apply submseteq_Permutation in Hsub as (rest & Hp).
  destruct (result_mapM_Permutation _ _ _ _ Hp Hr) as (all & Hall & Hperm).
  apply result_mapM_Ok, Forall2_app_inv_l in Hall as (remote' & gone & Hr' & _ & ->).
  apply result_mapM_Ok in Hr'.
  exists (native ++ remote'). split; [by exists native, remote'; rewrite Hlease|].
  rewrite Hl, Hperm. apply submseteq_skips_l, submseteq_inserts_r. done.
Qed.

(** A new outstanding grant holds its expanded claims. *)
Lemma holds_insert t t' key c expanded l :
  tb_leases t' = tb_leases t → outstanding t !! key = None →
  outstanding t' = <[key := c]> (outstanding t) → expand_candidate c = Ok expanded →
  holds t l → holds t' (l ++ [expanded]).
Proof.
  intros Hlease Hnone Hout Hexp (native & remote & Hn & Hr & Hl).
  assert (result_mapM expand_candidate (c :: (map_to_list (outstanding t)).*2) = Ok (expanded :: remote)) as Hr'.
  { simpl. rewrite Hexp. simpl. by rewrite Hr. }
  assert (c :: (map_to_list (outstanding t)).*2 ≡ₚ (map_to_list (outstanding t')).*2) as Hp.
  { rewrite Hout, map_to_list_insert by done. done. }
  destruct (result_mapM_Permutation _ _ _ _ Hp Hr') as (remote' & Hr2 & Hp2).
  exists native, remote'. split_and!; [by rewrite Hlease|done|].
  rewrite Hl, <-Hp2. rewrite <-(assoc_L (++)). f_equiv. by rewrite <-Permutation_cons_append.
Qed.
End holders.

(** ** What holds and back-offs leave alone *)

(** Everything but the reservations and the hold columns of candidates. *)
Record hold_frame (t t' : Tables) : Prop := {
  hf_grants : tb_grants t' = tb_grants t;
  hf_tickets : tb_tickets t' = tb_tickets t;
  hf_operations : tb_operations t' = tb_operations t;
  hf_domains : tb_domains t' = tb_domains t;
  hf_leases : tb_leases t' = tb_leases t;
  hf_candidates : ∀ key, (λ row, (cr_domain_id row, cr_candidate row)) <$> tb_candidates t' !! key =
    (λ row, (cr_domain_id row, cr_candidate row)) <$> tb_candidates t !! key;
}.

#[global] Instance hold_frame_preorder : PreOrder hold_frame.
Proof.
  split; [by split|]. intros a b c [] []. split; congruence.
Qed.

Lemma hold_frame_keeps t t' : store_inv t → hold_frame t t' → keeps t t'.
Proof.
  intros [Ig Ic Igc It Ico Is If Io] [Hg Ht Ho Hd Hl Hc]. split; [|by apply store_evolves_same].
  split; rewrite ?Hg, ?Ht, ?Ho, ?Hd; try done.
  - intros key row Hrow. specialize (Hc key). rewrite Hrow in Hc. simpl in Hc.
    destruct (tb_candidates t !! key) as [row0|] eqn:Hrow0; simplify_eq/=.
    destruct (Ic key row0 Hrow0). split; congruence.
  - intros key Hkey. apply Igc in Hkey as [row0 Hrow0]. specialize (Hc key). rewrite Hrow0 in Hc.
    destruct (tb_candidates t' !! key); [by eexists|done].
Qed.

Lemma hold_frame_candidate t t' key :
  hold_frame t t' → is_Some (tb_candidates t !! key) → is_Some (tb_candidates t' !! key).
Proof.
  intros Hf [row Hrow]. pose proof (hf_candidates _ _ Hf key) as Hc. rewrite Hrow in Hc.
  destruct (tb_candidates t' !! key); [by eexists|done].
Qed.

Lemma hold_frame_update key f t :
  (∀ row, cr_domain_id (f row) = cr_domain_id row ∧ cr_candidate (f row) = cr_candidate row) →
  hold_frame t (update_candidate key f t).
Proof.
  intros Hf. split; try done. intros k. simpl. rewrite lookup_alter. case_decide; [|done].
  subst. destruct (tb_candidates t !! k) as [row|]; [|done]. simpl. by destruct (Hf row) as [-> ->].
Qed.

Lemma hold_frame_reservations f t : hold_frame t (set_reservations f t).
Proof. done. Qed.

Lemma hold_frame_drop t key : hold_frame t (drop_reservation t key).1.
Proof.
  etrans; [|apply hold_frame_reservations].
  by apply (hold_frame_update key (λ row, set_hold None (cr_not_before_ms row) row)).
Qed.

Lemma hold_frame_expire t now : hold_frame t (expire t now).1.
Proof.
  split; try done. intros key. simpl. rewrite lookup_fmap.
  destruct (tb_candidates t !! key) as [row|]; [|done]. simpl. by destruct (hold_is_due row now).
Qed.

Lemma hold_frame_drop_held now s slot : hold_frame (so_machine s) (so_machine (drop_held now s slot)).
Proof.
  destruct slot as [job|key]; [done|]. etrans; [apply (hold_frame_drop _ key)|].
  by apply (hold_frame_update key (set_not_before (i64_saturating_add now 5000))).
Qed.

Lemma hold_frame_remote_held topology config t natives changed rs st :
  result_foldM (remote_held topology config) (t, natives, changed) rs = Ok st → hold_frame t st.1.1.
Proof.
  apply (result_foldM_ind (λ _ st, hold_frame t st.1.1)); [done|].
  intros done r rest [[t1 held] ch] s2 _ IH H. unfold remote_held in H. case_bool_decide.
  - simpl in H. result_inv. etrans; [exact IH|]. apply hold_frame_drop.
  - result_inv. exact IH.
Qed.

(** ** Histories of grants *)

(** A grant that may have been used. *)
Definition used (s : GrantState) : bool :=
  match s with Armed | Uncertain | Released => true | Offered | Expired => false end.

(** No grant disappears or changes its id; a used one follows its lifecycle. *)
Definition history_evolves (t t' : Tables) : Prop :=
  ∀ key row, tb_grants t !! key = Some row → ∃ row', tb_grants t' !! key = Some row' ∧
    gs_grant_id (gr_snapshot row') = gs_grant_id (gr_snapshot row) ∧
    (used (gr_state row) = true → grant_evolves row row').

#[global] Instance history_evolves_preorder : PreOrder history_evolves.
Proof.
  split.
  - intros t key row Hrow. by exists row.
  - intros a b c Hab Hbc key row Hrow. destruct (Hab key row Hrow) as (row1 & H1 & Hid1 & He1).
    destruct (Hbc key row1 H1) as (row2 & H2 & Hid2 & He2). exists row2.
    split_and!; [done|congruence|]. intros Hu. specialize (He1 Hu). etrans; [exact He1|]. apply He2.
    pose proof (ge_state _ _ He1) as Hl. by destruct (gr_state row), (gr_state row1).
Qed.

Lemma store_evolves_history t t' : store_evolves t t' → history_evolves t t'.
Proof.
  intros He key row Hrow. specialize (He key). rewrite Hrow in He.
  destruct (tb_grants t' !! key) as [row'|]; [|done]. simpl in He. exists row'.
  split_and!; [done| |done]. apply He.
Qed.

(** Outside a scheduling pass the outstanding grants only shrink. *)
Lemma store_evolves_outstanding t t' : store_evolves t t' → outstanding t' ⊆ outstanding t.
Proof.
  intros He. apply map_subseteq_spec. intros key c. unfold outstanding. rewrite !lookup_omap.
  specialize (He key). destruct (tb_grants t' !! key) as [row'|]; [|done].
  destruct (tb_grants t !! key) as [row|]; simpl in *; [|done].
  destruct He as [(_ & Hc & _) Hl _ _ _]. rewrite Hc.
  by destruct (gr_state row), (gr_state row').
Qed.

Lemma NoDup_omap_keys `{Countable K, BTreeKey K} {V B} (f : K * V → option B) (key : B → K) (m : gmap K V) :
  (∀ k v y, m !! k = Some v → f (k, v) = Some y → key y = k) →
  NoDup (key <$> omap f (btree_entries m)).
Proof.
  intros Hf. pose proof (NoDup_btree_keys m) as Hnd. unfold btree_keys in Hnd.
  assert (∀ p, p ∈ btree_entries m → m !! p.1 = Some p.2) as Hm.
  { intros [k v] Hp. by apply elem_of_btree_entries in Hp. }
  induction (btree_entries m) as [|[k v] l IH]; [constructor|]. simpl in *.
  inversion Hnd as [|? ? Hk Hl]; subst.
  assert (NoDup (key <$> omap f l)) as IH' by (apply IH; [done|]; intros p Hp; apply Hm; by right).
  destruct (f (k, v)) as [y|] eqn:Hy; [|done]. simpl. constructor; [|done].
  rewrite (Hf k v y); [|by apply (Hm (k, v)); left|done].
  intros (z & Hz & ([k' v'] & Hin & Hfz)%list_elem_of_omap)%list_elem_of_fmap. apply Hk.
  rewrite (Hf k' v' z) in Hz; [|by apply (Hm (k', v')); right|done]. subst.
  apply list_elem_of_fmap. by exists (k', v').
Qed.

(** ** Expired offers *)
Lemma expire_offer_spec now t key row t' :
  store_inv t → tb_grants t !! key = Some row → gr_state row = Offered →
  expire_offer now t (gr_snapshot row) = Ok t' →
  keeps t t' ∧ tb_leases t' = tb_leases t ∧ ∀ k, k ≠ key → tb_grants t' !! k = tb_grants t !! k.
Proof.
  intros Hinv Hrow Hoff H. unfold expire_offer in H. result_inv.
  match goal with H : save_grant _ _ None = Ok ?x |- _ => rename x into t1, H into Hsave end.
  pose proof (si_grants t Hinv _ _ Hrow) as Hwf. pose proof (gw_key _ _ Hwf) as Hkey.
  destruct (with_state_ok key row Expired (gs_armed_unix_millis (gr_snapshot row))
    (gs_released_unix_millis (gr_snapshot row)) (gs_uncertainty_reason (gr_snapshot row))) as [Hwf' Hev];
    [done|by rewrite Hoff|done|by rewrite Hoff|done|].
  pose proof (save_grant_Ok _ _ _ Hsave) as (Hsame & Hg & _). simpl in Hg. rewrite Hkey in Hg.
  destruct (keeps_save_grant t key row (expire_grant (gr_snapshot row)) t1) as [Hinv1 Hev1]; [done..|].
  destruct (hold_frame_keeps t1 (update_candidate (cd_key (gs_candidate (gr_snapshot row)))
    (set_not_before (i64_saturating_add now 5000)) t1) Hinv1) as [Hinv2 Hev2].
  { by apply hold_frame_update. }
  split_and!.
  - split; [done|by etrans].
  - simpl. by rewrite Hsame.
  - intros k Hk. simpl. rewrite Hg. by apply lookup_alter_ne.
Qed.

Lemma elem_of_expired_offers t now g :
  store_inv t → g ∈ expired_offers t now →
  ∃ row, tb_grants t !! cd_key (gs_candidate g) = Some row ∧ gr_snapshot row = g ∧ gr_state row = Offered.
Proof.
  intros Hinv ([key row] & Hin & Hf)%list_elem_of_omap. apply elem_of_btree_entries in Hin.
  destruct (_ && _) eqn:Hc; simplify_eq. split_conditions. exists row.
  by rewrite (gw_key _ _ (si_grants t Hinv _ _ Hin)).
Qed.

Lemma expire_offers_spec now t t' :
  store_inv t → result_foldM (expire_offer now) t (expired_offers t now) = Ok t' →
  keeps t t' ∧ tb_leases t' = tb_leases t.
Proof.
  intros Hinv H.
  assert (NoDup ((λ g, cd_key (gs_candidate g)) <$> expired_offers t now)) as Hnd.
  { apply NoDup_omap_keys. intros key row g Hrow Hf. destruct (_ && _) in Hf; simplify_eq.
    apply (gw_key _ _ (si_grants t Hinv _ _ Hrow)). }
  pose proof (elem_of_expired_offers t now) as Hel. revert H.
  assert (keeps t t' ∧ tb_leases t' = tb_leases t ∧ (∀ k,
    k ∉ (λ g, cd_key (gs_candidate g)) <$> expired_offers t now → tb_grants t' !! k = tb_grants t !! k) →
    keeps t t' ∧ tb_leases t' = tb_leases t) as Hw by tauto.
  intros H. apply Hw. clear Hw. revert H.
  apply (result_foldM_ind (λ done t', keeps t t' ∧ tb_leases t' = tb_leases t ∧ ∀ k,
    k ∉ (λ g, cd_key (gs_candidate g)) <$> done → tb_grants t' !! k = tb_grants t !! k)).
  { split_and!; [by split|done..]. }
  intros done g rest t1 t2 Hl ([Hinv1 Hev1] & Hlease & Hsame) H.
  destruct (Hel g Hinv) as (row & Hrow & <- & Hoff); [rewrite Hl; set_solver|].
  rewrite Hl, fmap_app, fmap_cons in Hnd. apply NoDup_app in Hnd as (_ & Hnd & _).
  rewrite <-Hsame in Hrow by (intros Hin; apply (Hnd _ Hin); by left).
  destruct (expire_offer_spec now t1 _ row t2 Hinv1 Hrow Hoff H) as ([Hinv2 Hev2] & Hlease2 & Hsame2).
  split_and!; [split; [done|by etrans]|congruence|].
  intros k Hk. rewrite fmap_app in Hk. rewrite Hsame2, Hsame by set_solver. done.
Qed.

(** ** Placing an offer *)

(** The key may receive an offer: nothing is outstanding or used under it. *)
Definition offerable (t : Tables) (key : AllocationKey) : Prop :=
  is_Some (tb_candidates t !! key) ∧
  match tb_grants t !! key with Some row => gr_state row = Expired | None => True end.

Lemma offerable_frame t t' key : hold_frame t t' → offerable t key → offerable t' key.
Proof.
  intros Hf [Hc Hg]. split; [by eapply hold_frame_candidate|]. by rewrite (hf_grants _ _ Hf).
Qed.

Lemma save_new_offer t id c rank nonce now physical :
  save_grant t (new_offer id c rank nonce now) (Some physical) =
  Ok (set_tickets (tb_tickets t) (set_grants (<[cd_key c :=
    {| gr_snapshot := new_offer id c rank nonce now; gr_physical_claims := physical; gr_state := Offered;
       gr_deadline_ms := i64_saturating_add now OFFER_MILLIS |}]>) t)).
Proof. done. Qed.

Lemma offer_grant_wf key c id rank nonce now physical : cd_key c = key →
  grant_wf key {| gr_snapshot := new_offer id c rank nonce now; gr_physical_claims := physical;
    gr_state := Offered; gr_deadline_ms := i64_saturating_add now OFFER_MILLIS |}.
Proof. intros <-. split; simpl; try done; [constructor|lia]. Qed.

Lemma place_offer_spec show su root mint now pass c rank expanded pass' :
  let t := so_machine (ps_store pass) in let t' := so_machine (ps_store pass') in
  store_inv t → offerable t (cd_key c) →
  place_offer show su root mint now pass c rank expanded = Ok pass' →
  store_inv t' ∧ history_evolves t t' ∧ tb_leases t' = tb_leases t ∧
  outstanding t !! cd_key c = None ∧ outstanding t' = <[cd_key c := c]> (outstanding t) ∧
  ps_active pass' = ps_active pass ++ [expanded] ∧
  tb_candidates t' = tb_candidates t ∧ ∀ k, k ≠ cd_key c → tb_grants t' !! k = tb_grants t !! k.
Proof.
  intros t t' Hinv [Hcand Hold] H. unfold place_offer in H. fold t in H.
  destruct (offer_grant_id _ _ _ _) as [id|] eqn:Hid in H; cbn [mbind result_bind] in H; [|done].
  destruct (guard_err _ _); cbn [mbind result_bind] in H; [|done].
  rewrite save_new_offer in H. cbn [mbind result_bind] in H. injection H as H. subst t'. rewrite <-H. simpl.
  destruct Hinv as [Ig Ic Igc It Ico Is If Io]. split_and!.
  - split; simpl; try done.
    + intros k row. rewrite lookup_insert_Some. intros [[<- <-]|[_ Hrow]]; [by apply offer_grant_wf|by apply Ig].
    + intros k [row Hrow]. apply lookup_insert_Some in Hrow as [[<- _]|[_ Hrow]]; [done|]. eauto.
    + intros k row i. rewrite lookup_insert_Some. intros [[<- <-]|[_ Hrow]]; [|by eapply It].
      simpl. intros []%not_elem_of_nil.
  - intros k row Hrow. simpl. destruct (decide (cd_key c = k)) as [<-|Hne].
    + rewrite Hrow in Hold. rewrite lookup_insert_eq. eexists. split_and!; [done| |by rewrite Hold].
      unfold offer_grant_id in Hid. rewrite Hrow in Hid. result_inv. split_conditions.
      simpl. destruct (gs_grant_id (gr_snapshot row)) as [su' eu]. simpl in *. apply dec_stable in Hguard. by subst.
    + rewrite lookup_insert_ne by done. by exists row.
  - done.
  - unfold outstanding. rewrite lookup_omap. destruct (tb_grants t !! cd_key c); [|done].
    simpl. by rewrite Hold.
  - unfold outstanding. apply map_eq. intros k. simpl. rewrite lookup_omap.
    destruct (decide (cd_key c = k)) as [<-|Hne]; [by rewrite !lookup_insert_eq|].
    by rewrite !lookup_insert_ne, lookup_omap.
  - done.
  - done.
  - intros k Hk. by rewrite lookup_insert_ne.
Qed.

(** ** The loop over ready candidates *)
Section loop.
Context (show : Uuid → string) (topology : ResourceTopology) (domains : AuthorityDomains)
  (rules : gmap string (list string)) (config : string) (su : Uuid) (mint : AllocationKey → Uuid * Uuid)
  (now : Z) (t0 : Tables).

(** What holds before each candidate: the rest of [ready] may still be offered. *)
Record pass_inv (pass : Pass) (ready : list (Candidate * ScheduleKey)) : Prop := {
  pi_store : store_inv (so_machine (ps_store pass));
  pi_history : history_evolves t0 (so_machine (ps_store pass));
  pi_leases : tb_leases (so_machine (ps_store pass)) = tb_leases t0;
  pi_holds : holds topology domains (so_machine (ps_store pass)) (ps_active pass);
  pi_safe : holders_safe topology rules (ps_active pass);
  pi_ready : Forall (λ r, offerable (so_machine (ps_store pass)) (cd_key r.1)) ready;
  pi_keys : NoDup ((λ r, cd_key r.1) <$> ready);
}.

(** Steps that only touch reservations. *)
Lemma pass_inv_frame pass pass' r ready :
  hold_frame (so_machine (ps_store pass)) (so_machine (ps_store pass')) →
  ps_active pass' = ps_active pass → pass_inv pass (r :: ready) → pass_inv pass' ready.
Proof.
  intros Hf Ha [Hs Hh Hl Hd Hsafe Hr Hk]. apply Forall_cons in Hr as [_ Hr].
  apply NoDup_cons in Hk as [_ Hk].
  destruct (hold_frame_keeps _ _ Hs Hf) as [Hs' Hev]. split; rewrite ?Ha; try done.
  - etrans; [exact Hh|by apply store_evolves_history].
  - by rewrite (hf_leases _ _ Hf).
  - destruct Hd as (n & rm & Hn & Hrm & Hp). exists n, rm.
    unfold outstanding in *. by rewrite (hf_leases _ _ Hf), (hf_grants _ _ Hf).
  - eapply Forall_impl; [exact Hr|]. intros x. by apply offerable_frame.
Qed.

Lemma drop_own_frame pass key :
  hold_frame (so_machine (ps_store pass)) (so_machine (ps_store (drop_own pass key).1)).
Proof. apply hold_frame_drop. Qed.

Lemma non_scalars_compatible expanded active :
  ScopedClaims_blockers show (non_scalars expanded) topology active rules = [] →
  Forall (scoped_compatible rules expanded) active.
Proof. intros [_ Hc]%ScopedClaims_blockers_nil. exact Hc. Qed.

Lemma holders_safe_snoc active expanded :
  vector_fits (sc_scalars expanded) (capacities topology) (map sc_scalars active) →
  Forall (scoped_compatible rules expanded) active →
  holders_safe topology rules active → holders_safe topology rules (active ++ [expanded]).
Proof.
  intros Hfit Hc [Hw Hp]. split.
  - intros key. rewrite map_app, total_debit_app. pose proof (within_capacity_admit _ _ _ Hw Hfit key) as Hk.
    rewrite total_debit_cons in Hk. simpl. rewrite total_debit_cons. cbn [total_debit]. unfold total_debit at 2.
    simpl. lia.
  - eapply pairwise_Permutation; [apply _|apply Permutation_cons_append|]. by apply pairwise_cons.
Qed.

Lemma consider_inv pass c rank ready pass' :
  pass_inv pass ((c, rank) :: ready) →
  consider show topology rules config su (ad_machine_scope domains) mint now pass c rank = Ok pass' →
  pass_inv pass' ready.
Proof.
  intros Hinv H. unfold consider in H. cbv zeta in H.
  destruct (bool_decide (cd_configuration_sha256 c ≠ config)); [by result_inv; eapply pass_inv_frame|].
  destruct (expand topology _ _) as [expanded|] eqn:Hexp; [|by result_inv; eapply pass_inv_frame].
  destruct (bool_decide (ScopedClaims_blockers _ _ _ _ _ = [])) eqn:Hns; cbn [negb] in H.
  2: { simpl in H. result_inv. eapply pass_inv_frame; [apply (drop_own_frame pass (cd_key c))|done|exact Hinv]. }
  apply bool_decide_eq_true, non_scalars_compatible in Hns.
  destruct (tb_candidates _ !! cd_key c) as [row|] eqn:Hrow; cbn [ok_or mbind result_bind] in H; [|done].
  destruct (offer_decision _ _ _ _ _ _ _) eqn:Hdec.
  - apply reservation_decision_Grant in Hdec. simpl in Hdec.
    destruct Hinv as [Hs Hh Hl Hd Hsafe Hr Hk]. apply Forall_cons in Hr as [Hc Hr].
    apply NoDup_cons in Hk as [Hfresh Hk]. pose proof (drop_own_frame pass (cd_key c)) as Hf.
    destruct (hold_frame_keeps _ _ Hs Hf) as [Hs1 Hev1].
    apply place_offer_spec in H as (Hs2 & Hh2 & Hl2 & Hnone & Hout & Ha & Hcand & Hsame);
      [|done|by eapply offerable_frame].
    assert (outstanding (so_machine (ps_store (drop_own pass (cd_key c)).1)) =
            outstanding (so_machine (ps_store pass))) as Hout0.
    { unfold outstanding. by rewrite (hf_grants _ _ Hf). }
    rewrite Hout0 in Hnone, Hout. split; try done.
    + etrans; [exact Hh|]. etrans; [by apply store_evolves_history|done].
    + by rewrite Hl2.
    + rewrite Ha. eapply holds_insert; [| |exact Hout| |exact Hd]; [by rewrite Hl2|done|].
      unfold expand_candidate, expand_state. by rewrite Hexp.
    + rewrite Ha. by apply holders_safe_snoc.
    + rewrite Forall_forall in Hr |- *. intros r Hin. destruct (offerable_frame _ _ _ Hf (Hr r Hin)) as [H1 H2].
      split; [by rewrite Hcand|]. rewrite Hsame; [done|]. intros Heq. apply Hfresh. simpl. rewrite <-Heq.
      apply list_elem_of_fmap. by exists r.
  - result_inv. by eapply pass_inv_frame.
  - result_inv. eapply (pass_inv_frame pass); [|done|exact Hinv]. etrans; [|apply hold_frame_reservations].
    by apply (hold_frame_update (cd_key c) (λ row, set_hold (Some _) (cr_not_before_ms row) row)).
  - simpl in H. result_inv. eapply (pass_inv_frame pass); [|done|exact Hinv].
    etrans; [apply (drop_own_frame pass (cd_key c))|].
    by apply (hold_frame_update (cd_key c) (set_not_before (i64_saturating_add now 5000))).
  - simpl in H. result_inv. eapply pass_inv_frame; [apply (drop_own_frame pass (cd_key c))|done|exact Hinv].
Qed.

Lemma offer_loop_inv native_rank pass ready pass' :
  pass_inv pass ready →
  offer_loop show topology rules config su (ad_machine_scope domains) mint now native_rank pass ready = Ok pass' →
  pass_inv pass' [].
Proof.
  assert (∀ pass ready, pass_inv pass ready → pass_inv pass []) as Hnil.
  { intros p ready' [Hs Hh Hl Hd Hsafe _ _]. split; [done..|by apply Forall_nil|apply NoDup_nil_2]. }
  revert pass. induction ready as [|[c rank] ready IH]; intros pass Hinv H; simpl in H; [by result_inv|].
  destruct (match native_rank with Some _ => _ | None => _ end); [by result_inv; eapply Hnil|].
  result_inv. eapply IH; [|done]. by eapply consider_inv.
Qed.
End loop.

(** ** The whole pass *)
Lemma retain_prefix_frame show topology rules now s retained suffix changed reserved :
  hold_frame (so_machine s)
    (so_machine (retain_prefix show topology rules now s retained suffix changed reserved).1.1).
Proof.
  revert s retained suffix changed. induction reserved as [|h reserved IH]; intros s retained b changed; [done|].
  cbn [retain_prefix]. destruct (b || _); [|apply IH].
  etrans; [apply (hold_frame_drop_held now s (hd_slot h))|apply IH].
Qed.

Lemma elem_of_ready_candidates t now c rank : store_inv t →
  (c, rank) ∈ ready_candidates t now → offerable t (cd_key c).
Proof.
  intros Hinv Hin. unfold ready_candidates in Hin. rewrite elem_of_sort_by in Hin.
  apply list_elem_of_omap in Hin as ([key row] & Hin & Hf). apply elem_of_btree_entries in Hin.
  destruct (tb_queue t !! _) as [q|]; simpl in Hf; [|done].
  destruct (tb_domains t !! _) as [d|]; simpl in Hf; [|done].
  destruct (_ && _) eqn:Hc; simplify_eq. unfold is_ready in Hc. split_conditions.
  destruct (si_candidates t Hinv _ _ Hin) as [-> _]. split; [by eexists|].
  destruct (tb_grants t !! key); [|done]. by split_conditions.
Qed.

Lemma NoDup_ready_candidates t now : store_inv t →
  NoDup ((λ r, cd_key r.1) <$> ready_candidates t now).
Proof.
  intros Hinv. unfold ready_candidates. rewrite sort_by_Permutation. apply NoDup_omap_keys.
  intros key row [c rank] Hrow Hf. simpl.
  destruct (tb_queue t !! _) as [q|]; simpl in Hf; [|done].
  destruct (tb_domains t !! _) as [d|]; simpl in Hf; [|done].
  destruct (_ && _); simplify_eq. apply (si_candidates t Hinv _ _ Hrow).
Qed.

(** The holders of a store, listed as the scheduler lists them, are safe. *)
Definition safely_held (topology : ResourceTopology) (domains : AuthorityDomains)
    (rules : gmap string (list string)) (t : Tables) : Prop :=
  ∃ held, active_holders t domains topology = Ok held ∧ holders_safe topology rules held.

Lemma safely_held_holds topology domains rules t l :
  holds topology domains t l → holders_safe topology rules l → safely_held topology domains rules t.
Proof.
  intros (l' & Ha & Hp)%holds_active_holders Hs. exists l'. split; [done|].
  eapply holders_safe_submseteq; [|exact Hs]. by rewrite Hp.
Qed.

(** Steps that end or keep outstanding grants keep the holders safe. *)
Lemma safely_held_evolves topology domains rules t t' :
  store_evolves t t' → tb_leases t' = tb_leases t →
  safely_held topology domains rules t → safely_held topology domains rules t'.
Proof.
  intros Hev Hl (held & Ha & Hs). apply active_holders_holds in Ha.
  apply store_evolves_outstanding in Hev.
  destruct (holds_subseteq topology domains t t' held Hl Hev Ha) as (l' & Hh & Hsub).
  eapply safely_held_holds; [exact Hh|]. by eapply holders_safe_submseteq.
Qed.

Lemma offer_pass_inv show s domains topology rules config su mint native now s' changed :
  let t := so_machine s in let t' := so_machine s' in
  store_inv t → safely_held topology domains rules t →
  offer_pass show s domains topology rules config su mint native now = Ok (s', changed) →
  store_inv t' ∧ safely_held topology domains rules t' ∧ history_evolves t t'.
Proof.
  intros t t' Hinv Hsafe H. unfold offer_pass in H.
  pose proof (hold_frame_expire t now) as Hf1. fold t in H.
  destruct (expire t now) as [t1 ch1]. simpl in Hf1.
  destruct (hold_frame_keeps _ _ Hinv Hf1) as [Hinv1 Hev1].
  destruct (result_foldM (expire_offer now) _ _) as [t2|] eqn:Hexp; cbn [mbind result_bind] in H; [|done].
  apply (expire_offers_spec _ _ _ Hinv1) in Hexp as [[Hinv2 Hev2] Hl2].
  assert (store_evolves t t2) as Hev by by etrans.
  assert (tb_leases t2 = tb_leases t) as Hl by (rewrite Hl2; apply Hf1).
  apply (safely_held_evolves _ _ _ _ _ Hev Hl) in Hsafe as (held & Hact & Hsafe).
  destruct (match native with Some _ => _ | None => _ end) as [native_rank|];
    cbn [mbind result_bind] in H; [|done].
  rewrite Hact in H. cbn [mbind result_bind] in H.
  destruct (native_held _ _ _ _) as [natives|]; cbn [mbind result_bind] in H; [|done].
  destruct (result_foldM (remote_held _ _) _ _) as [[[t3 reserved] ch3]|] eqn:Hrem;
    cbn [mbind result_bind] in H; [|done].
  apply hold_frame_remote_held in Hrem. simpl in Hrem.
  pose proof (retain_prefix_frame show topology rules now (set_machine t3 (set_machine t2 s)) [] false ch3
    (sort_by held_le reserved)) as Hf4.
  destruct (retain_prefix _ _ _ _ _ _ _ _ _) as [[s4 reserved4] ch4]. simpl in Hf4.
  assert (hold_frame t2 (so_machine s4)) as Hf by by etrans.
  destruct (hold_frame_keeps _ _ Hinv2 Hf) as [Hinv4 Hev4].
  destruct (offer_loop _ _ _ _ _ _ _ _ _ _ _) as [pass|] eqn:Hloop; cbn [mbind result_bind] in H; [|done].
  apply (offer_loop_inv show topology domains rules config su mint now t) in Hloop.
  - destruct Hloop as [Hs Hh Hlease Hd Hsf _ _].
    assert (∃ m r, t' = set_meta m r (so_machine (ps_store pass))) as (m & r & ->).
    { destruct (ps_changed pass); simplify_eq; [by eexists _, _|].
      exists (tb_schedule_ms (so_machine (ps_store pass))), (tb_revision (so_machine (ps_store pass))).
      subst t'. by destruct (so_machine (ps_store pass)). }
    split_and!; [|by eapply safely_held_holds|done].
    apply (keeps_frame (so_machine (ps_store pass))); try done. intros d row Hd'. eauto.
  - split; simpl; try done.
    + apply store_evolves_history. by etrans.
    + by rewrite (hf_leases _ _ Hf).
    + apply active_holders_holds in Hact as (n & rm & Hn & Hrm & Hp). exists n, rm.
      unfold outstanding in *. by rewrite (hf_leases _ _ Hf), (hf_grants _ _ Hf).
    + apply Forall_forall. intros [c rank] Hin. eapply offerable_frame; [exact Hf|].
      by eapply elem_of_ready_candidates.
    + by apply NoDup_ready_candidates.
Qed.
