(* ===== verification/MachineRecovery.v ===== *)
(** * MachineRecovery: the commit journal
    ([src/src/store/machine_recovery.rs], [machine_exchange] of
    [src/src/store/machine_allocation.rs])

    A transition that creates, uses or ends a start right is journaled in the
    authority registry before the tables commit it.  A crash leaves the journal
    entry; the next operation finishes it first. *)
From S2P Require Import Prelude Spec Validate Kernel Scoped Observation Machine MachineStore.

#[global] Instance GrantSnapshot_eq_dec : EqDecision GrantSnapshot.
Proof. solve_decision. Defined.
#[global] Instance InvocationTicket_eq_dec : EqDecision InvocationTicket.
Proof. solve_decision. Defined.
#[global] Instance Outcome_eq_dec : EqDecision Outcome.
Proof. solve_decision. Defined.

(** What recovery leaves: tables to commit, or the rolled-back tables with a
    recorded reset. *)
Inductive Recovery := Finished (t : Tables) | ResetRecorded (reason : string).

(** [UPDATE machine_candidates SET state='released',reservation_deadline_ms=NULL]. *)
Definition release_candidate (key : AllocationKey) (t : Tables) : Tables :=
  update_candidate key (retire_candidate CReleased None) t.

(** One journaled grant; [missing] is [row.is_none()]. *)
Definition recover_grant (missing : bool) (t : Tables) (grant : GrantSnapshot) : result StoreError Recovery :=
  let key := cd_key (gs_candidate grant) in
  if bool_decide (tb_grants t !! key = None) then Ok (ResetRecorded "machine commit lost its allocation row")
  else if missing then
    t ← save_grant t grant None;
    Ok (Finished (if bool_decide (gs_state grant = Released) then release_candidate key t else t))
  else
    persisted ← load_grant t key;
    Ok (if bool_decide (persisted ≠ grant)
        then ResetRecorded "machine commit Grant differs from its durable permission" else Finished t).

Fixpoint recover_grants (missing : bool) (t : Tables) (grants : list GrantSnapshot)
    : result StoreError Recovery :=
  match grants with
  | [] => Ok (Finished t)
  | grant :: grants =>
      step ← recover_grant missing t grant;
      match step with
      | Finished t => recover_grants missing t grants
      | ResetRecorded reason => Ok (ResetRecorded reason)
      end
  end.

(** The rest of a transition whose tables were not committed. *)
Definition recover_operation (t : Tables) (intent : MachineCommitIntent) : Tables :=
  let r := mi_request intent in
  let domain := se_domain_id (rq_session r) in
  let t := match mi_outcome intent with
           | Acknowledged through_sequence => compact_operations t domain through_sequence | _ => t end in
  let t := match mi_outcome intent with
           | Reconciled _ _ =>
               set_reconciles (delete domain)
                 (set_domains (λ rows, alter (set_reconciliation_required false) domain rows) t)
           | _ => t end in
  record_operation t r (mi_outcome intent).

(** [current]: the journal belongs to this store and no reset is pending. *)
Definition reconcile_pending_machine_commit (t : Tables) (current : bool)
    (pending : option MachineCommitIntent) : result StoreError Recovery :=
  match pending with
  | None => Ok (Finished t)
  | Some intent =>
      if negb current then Ok (Finished t)
      else
        let r := mi_request intent in
        let domain := se_domain_id (rq_session r) in
        let row := tb_operations t !! (domain, rq_request_sequence r) in
        let accepted := dr_accepted_sequence <$> tb_domains t !! domain in
        let inconsistent := match row with
          | Some op => bool_decide (op_operation_id op ≠ rq_operation_id r)
                       || bool_decide (op_payload_sha256 op ≠ rq_payload_sha256 r)
                       || bool_decide (op_response op ≠ mi_outcome intent)
                       || bool_decide (accepted ≠ Some (rq_request_sequence r))
          | None => bool_decide (accepted ≫= (λ seq, checked_add seq 1) ≠ Some (rq_request_sequence r))
          end in
        if inconsistent then
          Ok (ResetRecorded "machine commit journal and SQLite operation history disagree")
        else
          let missing := bool_decide (row = None) in
          step ← recover_grants missing t (mi_grants intent);
          Ok (match step with
              | Finished t => Finished (if missing then recover_operation t intent else t)
              | ResetRecorded reason => ResetRecorded reason
              end)
  end.

Section exchange.
Context (uuid_to_string : Uuid → string) (wire : Wire).

(** [machine_exchange] with the journal entry found at its start and the calls
    that close the entry after the commit.  The tables it leaves, and its result:
    an error after the commit does not undo it. *)
Definition machine_exchange (t : Tables) (current : bool) (pending : option MachineCommitIntent)
    (r : Request) (configuration : string) (au : Authority) (wall : Z) (rd : Readiness)
    (finish checkpoint : result StoreError unit) : Tables * result StoreError Reply :=
  match reconcile_pending_machine_commit t current pending with
  | Err e => (t, Err e)
  | Ok recovery =>
      let t := match recovery with Finished t => t | ResetRecorded _ => t end in
      match exchange_commit uuid_to_string wire t r configuration au wall rd with
      | Err e => (t, Err e)
      | Ok (t, reply, prepared) =>
          (t, _ ← (if prepared then finish else Ok tt); _ ← checkpoint; Ok reply)
      end
  end.
End exchange.
