(* ===== verification/RecoveryFacts.v ===== *)
(** * RecoveryFacts: finishing a journaled transition

    A crash between the journal entry and its closing loses nothing: recovery
    leaves the tables the exchange would have committed, up to the scheduling
    clock and the quiet progress, which are not journaled. *)
From S2P Require Import Prelude Spec Validate Kernel Scoped Observation Machine MachineStore.
From S2P Require Import MachineFacts ExchangeFacts MachineRecovery.

(** ** What the journal preserves *)

(** The tables without the scheduling clock and the quiet progress. *)
Definition durable (t : Tables) : Tables :=
  {| tb_domains := tb_domains t; tb_operations := tb_operations t; tb_queue := tb_queue t;
     tb_queue_next := tb_queue_next t; tb_candidates := tb_candidates t; tb_grants := tb_grants t;
     tb_tickets := tb_tickets t; tb_readiness := ∅; tb_reservations := tb_reservations t;
     tb_reconciles := tb_reconciles t; tb_schedule_ms := 0; tb_revision := tb_revision t;
     tb_leases := tb_leases t |}.

Definition durable_recovery (r : Recovery) : Recovery :=
  match r with Finished t => Finished (durable t) | ResetRecorded reason => ResetRecorded reason end.

Lemma save_grant_durable t g p : save_grant (durable t) g p = durable <$> save_grant t g p.
Proof.
  unfold save_grant. destruct p; simpl; destruct (result_foldM _ _ _); done.
Qed.

Lemma recover_grants_durable missing t gs :
  recover_grants missing (durable t) gs = durable_recovery <$> recover_grants missing t gs.
Proof.
  revert t. induction gs as [|g gs IH]; intros t; [done|]. cbn [recover_grants].
  assert (recover_grant missing (durable t) g = durable_recovery <$> recover_grant missing t g) as ->.
  { unfold recover_grant. simpl. case_bool_decide; [done|]. destruct missing.
    - rewrite save_grant_durable. destruct (save_grant t g None); simpl; [|done]. by case_bool_decide.
    - unfold load_grant. simpl. destruct (tb_grants t !! _); simpl; [|done].
      destruct (guard_err _ _); simpl; [|done]. by case_bool_decide. }
  destruct (recover_grant missing t g) as [[t1|]|]; simpl; [apply IH|done..].
Qed.

Lemma recover_operation_durable t i : recover_operation (durable t) i = durable (recover_operation t i).
Proof. unfold recover_operation. by destruct (mi_outcome i). Qed.

Lemma record_operation_durable t r o : durable (record_operation t r o) = record_operation (durable t) r o.
Proof. done. Qed.

Lemma recover_grants_app missing t gs gs' t1 :
  recover_grants missing t gs = Ok (Finished t1) →
  recover_grants missing t (gs ++ gs') = recover_grants missing t1 gs'.
Proof.
  revert t. induction gs as [|g gs IH]; intros t H; simpl in *; [by simplify_eq|].
  destruct (recover_grant missing t g) as [[t2|]|]; simpl in *; [|done..]. by apply IH.
Qed.

(** ** Redoing the update of one grant *)
Lemma load_grant_saved t key row g t' :
  tb_grants t !! key = Some row → cd_key (gs_candidate g) = key → save_grant t g None = Ok t' →
  load_grant t' key = Ok g ∧ ∀ k, k ≠ key → tb_grants t' !! k = tb_grants t !! k.
Proof.
  intros Hrow Hkey (_ & Hg & _)%save_grant_Ok. rewrite Hkey in Hg. split.
  - unfold load_grant. rewrite Hg, lookup_alter_eq, Hrow. simpl.
    by rewrite !bool_decide_eq_false_2 by (intros ?; congruence).
  - intros k Hk. rewrite Hg. by apply lookup_alter_ne.
Qed.

Lemma recover_saved t key row g t' :
  tb_grants t !! key = Some row → cd_key (gs_candidate g) = key → gs_state g ≠ Released →
  save_grant t g None = Ok t' → recover_grant true t g = Ok (Finished t').
Proof.
  intros Hrow Hkey Hs Hsave. unfold recover_grant. rewrite Hkey, Hrow, Hsave. simpl.
  by rewrite bool_decide_eq_false_2.
Qed.

(** Saving the recorded snapshot again changes nothing. *)
Lemma save_grant_again t key row :
  store_inv t → tb_grants t !! key = Some row → save_grant t (gr_snapshot row) None = Ok t.
Proof.
  intros Hinv Hrow. pose proof (si_grants t Hinv _ _ Hrow) as Hwf. unfold save_grant.
  rewrite (gw_key _ _ Hwf). cbn [set_grants tb_tickets].
  assert (result_foldM (record_ticket key) (tb_tickets t) (gs_tickets (gr_snapshot row)) = Ok (tb_tickets t)) as ->.
  { destruct (result_foldM_total (λ _ tk, tk = tb_tickets t) (record_ticket key) (tb_tickets t)
      (gs_tickets (gr_snapshot row))) as (tk & H & ->); [done| |done].
    intros done i rest tk Hl ->. exists (tb_tickets t). split; [|done].
    assert (tb_tickets t !! in_invocation_id i = Some (ticket_row key i)) as Hi.
    { apply (si_tickets t Hinv key row); [done|]. rewrite Hl. set_solver. }
    unfold record_ticket, insert_ticket_identity. rewrite Hi.
    rewrite (bool_decide_eq_true_2 (is_Some _)) by by eexists. simpl. rewrite Hi.
    by rewrite bool_decide_eq_true_2. }
  simpl. f_equal. destruct t as [? ? ? ? ? grants ? ? ? ? ? ? ?]. unfold set_tickets, set_grants; simpl in *.
  f_equal. apply map_eq. intros k. rewrite lookup_alter. case_decide; [|done]. subst. rewrite Hrow. simpl.
  f_equal. apply (saved_row_same _ _ Hwf).
Qed.

Lemma apply_release_recover t r seal now t' g :
  apply_release t r seal now = Ok (t', g) →
  recover_grant true t g = Ok (Finished t') ∧ load_grant t' (sr_key seal) = Ok g ∧
  (∀ k, k ≠ sr_key seal → tb_grants t' !! k = tb_grants t !! k) ∧ gs_state g = Released.
Proof.
  intros H. unfold apply_release in H. result_inv. simplify_eq.
  match goal with H : load_grant _ _ = Ok ?g |- _ =>
    apply load_grant_Ok in H as (row & Hrow & <- & Hkey & Hstate) end.
  match goal with H : save_grant _ _ None = Ok ?x |- _ => rename x into t1, H into Hsave end.
  destruct (load_grant_saved t (sr_key seal) row (release_grant (gr_snapshot row) seal now) t1 Hrow Hkey Hsave) as [Hload Hother].
  split_and!; [|done|done|done].
  unfold recover_grant. simpl. rewrite Hkey, Hrow, Hsave. done.
Qed.

(** ** Redoing a reconciliation *)
Lemma snapshot_inventory_keys pages inventory k a :
  snapshot_inventory pages = Ok inventory → inventory !! k = Some a → ra_key a = k.
Proof.
  unfold snapshot_inventory. intros H. revert H k a.
  apply (result_foldM_ind (λ _ inventory, ∀ k a, inventory !! k = Some a → ra_key a = k)).
  { intros k a Hk. by rewrite lookup_empty in Hk. }
  intros done x rest s1 s2 _ IH H k a Hk. result_inv.
  apply lookup_insert_Some in Hk as [[<- <-]|[_ Hk]]; [done|by apply IH].
Qed.

(** The released grants, in order, redo the whole loop. *)
Lemma reconcile_records_recover t r now l t' released :
  NoDup l.*1 → (∀ k a, (k, a) ∈ l → ra_key a = k) →
  result_foldM (reconcile_record r now) (t, []) l = Ok (t', released) →
  ∃ gs, recover_grants true t gs = Ok (Finished t') ∧ Forall2 (λ k g, load_grant t' k = Ok g) released gs.
Proof.
  intros Hnd Hkeys H.
  assert (∃ gs, recover_grants true t gs = Ok (Finished t') ∧
    Forall2 (λ k g, load_grant t' k = Ok g) released gs ∧ ∀ k, k ∈ released → k ∈ l.*1)
    as (gs & ? & ? & _); [|by exists gs].
  change t' with (t', released).1. change released with (t', released).2. revert H.
  apply (result_foldM_ind (λ done st, ∃ gs, recover_grants true t gs = Ok (Finished st.1) ∧
    Forall2 (λ k g, load_grant st.1 k = Ok g) st.2 gs ∧ ∀ k, k ∈ st.2 → k ∈ done.*1)).
  { exists []. split_and!; [done|constructor|done]. }
  intros done [key record] rest [t1 rel1] st2 Hl (gs & Hrec & Hgs & Hsub) H. simpl in H, Hrec, Hgs, Hsub.
  assert (ra_key record = key) as Hra by (apply Hkeys; rewrite Hl; set_solver).
  rewrite Hl, fmap_app, fmap_cons in Hnd. apply NoDup_app in Hnd as (_ & Hnew & _).
  assert (∀ k, k ∈ rel1 → k ∈ (done ++ [(key, record)]).*1) as Hsub' by (rewrite fmap_app; set_solver).
  destruct (bool_decide (tb_grants t1 !! key = None)) in H; [by result_inv; exists gs|]. result_inv.
  destruct (ra_sealed_release record) as [seal|]; [|by result_inv; exists gs]. result_inv.
  match goal with H : apply_release _ _ _ _ = Ok ?res |- _ => destruct res as [t2 g] end.
  match goal with H : apply_release _ _ _ _ = Ok _ |- _ =>
    apply apply_release_recover in H as (Hg & Hload & Hother & _) end.
  split_conditions. match goal with H : ¬ sr_key seal ≠ _ |- _ => apply dec_stable in H; rewrite H in * end.
  exists (gs ++ [g]). simpl. split_and!.
  - rewrite (recover_grants_app _ _ _ _ _ Hrec). simpl. by rewrite Hg.
  - apply Forall2_app; [|by constructor]. eapply Forall2_impl; [|intros ? ? Hx; exact Hx].
    apply Forall2_same_length_lookup. split; [by eapply Forall2_length|].
    intros i k g' Hk Hg'. pose proof (Forall2_lookup_lr _ _ _ _ _ _ Hgs Hk Hg') as Hk'. simpl in Hk'.
    unfold load_grant in *. rewrite Hother; [done|]. intros ->. apply (Hnew (ra_key record)); [|by left].
    apply Hsub. by eapply list_elem_of_lookup_2.
  - intros k [Hk|Hk]%elem_of_app; [by apply Hsub'|]. apply list_elem_of_singleton in Hk as ->.
    rewrite fmap_app. set_solver.
Qed.

(** ** Redoing a command *)
Section recovery.
Context (uuid_to_string : Uuid → string) (wire : Wire).

(** The journaled grants redo the command on the tables before it, and are the
    grants of the tables after it. *)
Definition redoes (t t' : Tables) (r : Request) (o : Outcome) (grants : list GrantSnapshot) : Prop :=
  (∃ t1, recover_grants true t grants = Ok (Finished t1) ∧
     durable (recover_operation t1 {| mi_request := r; mi_outcome := o; mi_grants := grants |}) =
     durable (record_operation t' r o)) ∧
  Forall (λ g, load_grant t' (cd_key (gs_candidate g)) = Ok g) grants.

Lemma load_grant_self t k g : load_grant t k = Ok g → load_grant t (cd_key (gs_candidate g)) = Ok g.
Proof. intros H. pose proof (load_grant_Ok _ _ _ H) as (_ & _ & _ & Hk & _). by rewrite Hk. Qed.

(** One grant, saved in a state other than released. *)
Lemma redoes_saved t key row g t' r o :
  tb_grants t !! key = Some row → cd_key (gs_candidate g) = key → gs_state g ≠ Released →
  save_grant t g None = Ok t' → (∀ n, o ≠ Acknowledged n) → (∀ e l, o ≠ Reconciled e l) →
  redoes t t' r o [g].
Proof.
  intros Hrow Hkey Hs Hsave Ha Hr. split.
  - exists t'. simpl. rewrite (recover_saved t key row g t') by done. split; [done|].
    unfold recover_operation. simpl. destruct o; try done; [by destruct (Ha through_sequence)|by edestruct Hr].
  - constructor; [|done]. rewrite Hkey. by eapply load_grant_saved.
Qed.

Lemma arm_redo t r cfg rec cl now key nonce t' o grants :
  store_inv t → arm t r cfg rec cl now key nonce = Ok (t', o) → commit_grants t' r o = Ok grants →
  redoes t t' r o grants.
Proof.
  intros Hinv H Hc. unfold arm in H. result_inv.
  match goal with H : load_grant _ _ = Ok ?g |- _ =>
    apply load_grant_Ok in H as (row & Hrow & <- & Hkey & Hstate) end.
  assert (∀ s, s ≠ Released → gs_state (gr_snapshot row) = s →
    redoes t t r (OGrant (gr_snapshot row)) [gr_snapshot row]) as Hsame.
  { intros s Hs Heq. eapply redoes_saved; [exact Hrow|done|congruence|by eapply save_grant_again|done|done]. }
  destruct (gs_state (gr_snapshot row)) eqn:Hgs; result_inv; simplify_eq/=.
  - match goal with H : save_grant _ _ None = Ok _ |- _ => rename H into Hsave end.
    by eapply redoes_saved; [exact Hrow|..].
  - rewrite Hgs in Hc. simplify_eq. by apply (Hsame Armed).
  - rewrite Hgs in Hc. simplify_eq. by apply (Hsame Uncertain).
Qed.

Lemma report_uncertain_redo t r key nonce reason t' o grants :
  report_uncertain t r key nonce reason = Ok (t', o) → commit_grants t' r o = Ok grants →
  redoes t t' r o grants.
Proof.
  intros H Hc. unfold report_uncertain in H. result_inv. simplify_eq/=.
  match goal with H : load_grant _ _ = Ok ?g |- _ =>
    apply load_grant_Ok in H as (row & Hrow & <- & Hkey & Hstate) end.
  by eapply redoes_saved; [exact Hrow|..].
Qed.

Lemma release_redo t r now seal t' o grants :
  rq_command r = Release seal →
  release_command t r now seal = Ok (t', o) → commit_grants t' r o = Ok grants → redoes t t' r o grants.
Proof.
  intros Hcmd H Hc. unfold release_command in H. result_inv. simplify_eq.
  match goal with H : apply_release _ _ _ _ = Ok ?res |- _ => destruct res as [t2 g] end.
  match goal with H : apply_release _ _ _ _ = Ok _ |- _ =>
    apply apply_release_recover in H as (Hg & Hload & _ & _) end.
  simpl in Hc. rewrite Hcmd, Hload in Hc. result_inv. split.
  - exists t2. simpl. by rewrite Hg.
  - constructor; [|done]. by eapply load_grant_self.
Qed.

Lemma authorize_outcome t r cfg rec cl rd key nonce i t' o :
  authorize_invocation uuid_to_string t r cfg rec cl rd key nonce i = Ok (t', o) →
  (∃ code detail, o = Rejected code detail) ∨ ∃ ticket, o = OTicket ticket.
Proof.
  intros H. unfold authorize_invocation, authorize in H. result_inv.
  match goal with c : Z * N |- _ => destruct c as [unix monotonic] end. result_inv.
  destruct (ticket_waiting _ _ _ _ _ _ _) as [progress [b|]]; result_inv; simplify_eq; eauto.
Qed.

Lemma authorize_redo t r cfg rec cl rd key nonce i t' ticket grants :
  authorize_invocation uuid_to_string t r cfg rec cl rd key nonce i = Ok (t', OTicket ticket) →
  commit_grants t' r (OTicket ticket) = Ok grants → redoes t t' r (OTicket ticket) grants.
Proof.
  intros H Hc. unfold authorize_invocation, authorize in H. result_inv.
  match goal with c : Z * N |- _ => destruct c as [unix monotonic] end. result_inv.
  match goal with H : load_grant t _ = Ok ?g |- _ =>
    apply load_grant_Ok in H as (row & Hrow & <- & <- & Hstate) end.
  set (key := cd_key (gs_candidate (gr_snapshot row))) in *.
  destruct (ticket_waiting _ _ _ _ _ _ _) as [progress [b|]]; result_inv; simplify_eq.
  match goal with H : save_grant ?x (push_ticket ?y ?z) None = Ok _ |- _ =>
    rename H into Hsave; set (t1 := x) in Hsave; set (g := push_ticket y z) in Hsave end.
  assert (tb_grants t1 !! key = Some row) as Hrow1 by done.
  destruct (load_grant_saved t1 key row g t' Hrow1) as [Hload _]; [done..|].
  cbn [commit_grants it_key issue_ticket] in Hc. fold key in Hc. rewrite Hload in Hc. cbn in Hc.
  injection Hc as <-. assert (durable t1 = durable t) as Hd by done.
  assert (gs_state g = Armed) as Hst by (split_conditions; simpl; by apply dec_stable).
  assert (recover_grant true t1 g = Ok (Finished t')) as Hrec.
  { eapply (recover_saved t1 key row); [done|done|by rewrite Hst|done]. }
  split; [|by constructor; [eapply load_grant_self|]].
  assert (recover_grants true t1 [g] = Ok (Finished t')) as Hrec1 by (simpl; by rewrite Hrec).
  assert (durable_recovery <$> recover_grants true t [g] = Ok (Finished (durable t'))) as Hrec2.
  { rewrite <-recover_grants_durable, <-Hd, recover_grants_durable, Hrec1. done. }
  destruct (recover_grants true t [g]) as [[t2|]|]; cbn in Hrec2; try discriminate Hrec2.
  assert (durable t2 = durable t') as Hd2 by congruence.
  exists t2. split; [done|]. unfold recover_operation. cbn [mi_outcome mi_request].
  by rewrite !record_operation_durable, Hd2.
Qed.

Lemma reconcile_commit_redo t r now sid t' o grants :
  reconcile_commit wire t r now sid = Ok (t', o) → commit_grants t' r o = Ok grants → redoes t t' r o grants.
Proof.
  intros H Hc. unfold reconcile_commit in H. result_inv. simplify_eq.
  match goal with H : result_foldM (reconcile_record _ _) _ _ = Ok ?x, Hi : snapshot_inventory _ = Ok ?inv |- _ =>
    rename H into Hfold, Hi into Hinv; destruct x as [t1 released]; rename inv into inventory end.
  apply reconcile_records_recover in Hfold as (gs & Hrec & Hgs).
  - cbn [commit_grants] in Hc. apply result_mapM_Ok in Hc.
    assert (grants = gs) as ->.
    { clear Hrec. revert grants Hc. induction Hgs as [|k g released gs Hk _ IH]; intros grants Hc;
        inversion Hc; simplify_eq; [done|]. f_equal; [|by apply IH].
      match goal with H : load_grant _ k = Ok ?y |- ?y = _ => unfold load_grant in H, Hk; simpl in H; congruence end. }
    split; [by exists t1|].
    apply Forall_forall. intros g (i & Hi)%list_elem_of_lookup.
    destruct (Forall2_lookup_r _ _ _ _ _ Hc Hi) as (k & _ & Hk). by eapply load_grant_self.
  - apply NoDup_btree_keys.
  - intros k x Hk%elem_of_btree_entries. by eapply snapshot_inventory_keys.
Qed.

(** Every journaled command can be redone. *)
Lemma apply_command_redo t r cfg rec cl now rd t' o grants :
  store_inv t → apply_command uuid_to_string wire t r cfg rec cl now rd = Ok (t', o) →
  commit_grants t' r o = Ok grants →
  negb (bool_decide (length grants = 0%nat)) || is_acknowledged o = true →
  redoes t t' r o grants.
Proof.
  intros Hinv. unfold apply_command. destruct (rq_command r) eqn:Hcmd; intros H Hc Hp.
  - by eapply report_uncertain_redo.
  - unfold inspect_page in H. result_inv. by simplify_eq/=.
  - unfold acknowledge in H. result_inv. simplify_eq/=. split; [by exists t|constructor].
  - unfold candidate_upsert in H. result_inv. by simplify_eq/=.
  - unfold withdraw in H. result_inv. by simplify_eq/=.
  - by eapply arm_redo.
  - destruct (authorize_outcome _ _ _ _ _ _ _ _ _ _ _ H) as [(code & detail & ->)|[ticket ->]];
      [by simplify_eq/=|by eapply authorize_redo].
  - unfold withdraw in H. result_inv. by simplify_eq/=.
  - by eapply release_redo.
  - unfold inspect in H. result_inv. by simplify_eq/=.
  - unfold reconcile_begin in H. result_inv. by simplify_eq/=.
  - unfold reconcile_page in H. result_inv. by simplify_eq/=.
  - by eapply reconcile_commit_redo.
Qed.

(** ** Crashes *)
Lemma recover_grants_present t gs :
  Forall (λ g, load_grant t (cd_key (gs_candidate g)) = Ok g) gs →
  recover_grants false t gs = Ok (Finished t).
Proof.
  induction 1 as [|g gs Hg _ IH]; [done|]. simpl. unfold recover_grant.
  pose proof (load_grant_Ok _ _ _ Hg) as (row & Hrow & _). rewrite Hrow, Hg. simpl.
  by rewrite bool_decide_eq_false_2 by tauto.
Qed.

Lemma new_operation_redo t r cfg au row wall rd t' o grants :
  store_inv t → tb_domains t !! se_domain_id (rq_session r) = Some row →
  new_operation uuid_to_string wire t r cfg au row wall rd = Ok (t', o) →
  commit_grants t' r o = Ok grants →
  negb (bool_decide (length grants = 0%nat)) || is_acknowledged o = true →
  checked_add (dr_accepted_sequence row) 1 = Some (rq_request_sequence r) ∧
  (∃ t1, recover_grants true t grants = Ok (Finished t1) ∧
     durable (recover_operation t1 {| mi_request := r; mi_outcome := o; mi_grants := grants |}) = durable t') ∧
  Forall (λ g, load_grant t' (cd_key (gs_candidate g)) = Ok g) grants.
Proof.
  intros Hinv Hrow H Hc Hp. unfold new_operation in H. result_inv.
  apply bool_decide_or_false in Hguard0 as [Hseq%dec_stable _]. split; [done|].
  match goal with H : run_command _ _ ?x _ _ _ _ _ _ = Ok ?res |- _ =>
    rename H into Hrun; set (t1 := x) in Hrun; destruct res as [t2 o2] end.
  simplify_eq/=.
  assert (store_inv t1) as Hinv1.
  { apply (keeps_frame t); try done. intros d row' Hd. eauto. }
  destruct (run_command_cases _ _ _ _ _ _ _ _ _ _ _ Hrun) as [Hcmd|[_ (code & detail & ->)]];
    [|by simplify_eq/=].
  assert (commit_grants t2 r o2 = Ok grants) as Hc2 by done.
  destruct (apply_command_redo _ _ _ _ _ _ _ _ _ _ Hinv1 Hcmd Hc2 Hp) as [(t3 & Hrec & Hd) Hload].
  split; [|done].
  assert (durable_recovery <$> recover_grants true t grants = Ok (Finished (durable t3))) as Hrec2.
  { rewrite <-recover_grants_durable. change (durable t) with (durable t1).
    by rewrite recover_grants_durable, Hrec. }
  destruct (recover_grants true t grants) as [[t4|]|]; cbn in Hrec2; try discriminate Hrec2.
  assert (durable t4 = durable t3) as Hd2 by congruence.
  exists t4. split; [done|]. by rewrite <-Hd, <-!recover_operation_durable, Hd2.
Qed.

(** Recovery does not read the clock or the quiet progress. *)
Lemma reconcile_durable t current pending :
  reconcile_pending_machine_commit (durable t) current pending =
  durable_recovery <$> reconcile_pending_machine_commit t current pending.
Proof.
  unfold reconcile_pending_machine_commit. destruct pending as [i|]; [|done]. destruct (negb current); [done|].
  cbn [durable tb_operations tb_domains].
  destruct (match tb_operations t !! _ with Some _ => _ | None => _ end); [done|].
  rewrite recover_grants_durable. destruct (recover_grants _ t _) as [[t1|]|]; simpl; [|done..].
  case_bool_decide; [|done]. by rewrite recover_operation_durable.
Qed.

Lemma reconcile_same_durable t t' i t1 :
  durable t = durable t' → reconcile_pending_machine_commit t true (Some i) = Ok (Finished t1) →
  ∃ t2, reconcile_pending_machine_commit t' true (Some i) = Ok (Finished t2) ∧ durable t2 = durable t1.
Proof.
  intros Hd H. pose proof (reconcile_durable t true (Some i)) as H1. rewrite H, Hd, reconcile_durable in H1.
  destruct (reconcile_pending_machine_commit t' true (Some i)) as [[t2|]|]; cbn in H1; try discriminate H1.
  exists t2. split; [done|congruence].
Qed.

(** Replaying a recorded operation changes no table; its entry, if any, is
    complete or, when later operations were accepted, refused by recovery. *)
Lemma exchange_replay t r cfg au wall rd t' rep i :
  is_Some (find_operation t r) →
  exchange_commit uuid_to_string wire t r cfg au wall rd = Ok (t', rep, Some i) →
  t' = t ∧ (reconcile_pending_machine_commit t true (Some i) = Ok (Finished t) ∨
    ∃ reason, reconcile_pending_machine_commit t true (Some i) = Ok (ResetRecorded reason)).
Proof.
  intros [op Hf] H. unfold exchange_commit in H.
  destruct (check_session wire t r au) as [row|] eqn:Hs; cbn [mbind result_bind] in H; [|done].
  rewrite Hf in H. destruct op as [seq op]. destruct (guard_err _ _) eqn:Hg in H; cbn in H; [|done].
  destruct (is_acknowledged (op_response op)); cbn in H; [|by simplify_eq].
  rewrite !orb_true_r in H. destruct (au_prepare_commit _ _ _ _); cbn in H; simplify_eq. split; [done|].
  unfold guard_err in Hg. destruct (_ || _ || _) eqn:Hor in Hg; [done|].
  apply orb_false_iff in Hor as [Hor _]. apply bool_decide_or_false in Hor as [->%dec_stable _].
  eapply find_operation_Some in Hf as [Hop _].
  unfold reconcile_pending_machine_commit. cbn [negb mi_request mi_outcome mi_grants]. rewrite Hop.
  destruct (_ || _); [right; by eexists|]. left. done.
Qed.

Lemma crash_recovers t r cfg au wall rd t' rep intent :
  store_inv t → find_operation t r = None →
  exchange_commit uuid_to_string wire t r cfg au wall rd = Ok (t', rep, Some intent) →
  (∃ t'', reconcile_pending_machine_commit t true (Some intent) = Ok (Finished t'') ∧
     durable t'' = durable t') ∧
  reconcile_pending_machine_commit t' true (Some intent) = Ok (Finished t').
Proof.
  intros Hinv Hf H. apply exchange_commit_cases in H as (row & Hs & [(_ & op & Hop & _)|(_ & Hn & _ & Hi)]).
  { by eapply find_operation_None in Hop as [? _]. }
  destruct Hi as (grants & Hc & Hi). destruct (negb _ || _) eqn:Hp in Hi; simplify_eq.
  apply check_session_row in Hs as Hrow.
  destruct (new_operation_redo _ _ _ _ _ _ _ _ _ _ Hinv Hrow Hn Hc Hp) as (Hseq & (t1 & Hrec & Hd) & Hload).
  pose proof (new_operation_spec _ _ _ _ _ _ _ _ _ _ _ Hinv Hrow Hf Hn)
    as (_ & (row' & Hrow' & _ & _ & _ & Hacc) & Hop & _).
  assert (tb_operations t !! (se_domain_id (rq_session r), rq_request_sequence r) = None) as Hnone.
  { destruct (tb_operations t !! _) as [op|] eqn:Hop'; [|done].
    by eapply find_operation_None in Hop' as [? _]. }
  split; unfold reconcile_pending_machine_commit; cbn [negb mi_request mi_outcome mi_grants].
  - rewrite Hnone, Hrow. simpl. rewrite Hseq. rewrite bool_decide_eq_false_2 by tauto.
    rewrite Hrec. simpl. by eexists.
  - rewrite Hop, Hrow'. simpl. rewrite Hacc. rewrite !bool_decide_eq_false_2 by (intros ?; congruence || tauto).
    simpl. by rewrite recover_grants_present.
Qed.

Lemma recorded_durable t t' r au o : durable t = durable t' → recorded wire t' r au o → recorded wire t r au o.
Proof.
  intros Hd (row & op & Hs & Hop & Hid & Hpay & Hres & Hack).
  assert (tb_domains t = tb_domains t') as Hdom by by injection Hd.
  assert (tb_operations t = tb_operations t') as Hops by by injection Hd.
  exists row, op. rewrite Hops. split_and!; try done. eapply check_session_kept; [exact Hs|..]; try done.
  rewrite Hdom. by eapply check_session_row.
Qed.

Lemma store_inv_durable t t' : durable t = durable t' → store_inv t' → store_inv t.
Proof.
  intros Hd [Ig Ic Igc It Ico Is If Io].
  assert (tb_grants t = tb_grants t') as Hg by by injection Hd.
  assert (tb_tickets t = tb_tickets t') as Ht by by injection Hd.
  assert (tb_operations t = tb_operations t') as Ho by by injection Hd.
  assert (tb_candidates t = tb_candidates t') as Hc by by injection Hd.
  assert (tb_domains t = tb_domains t') as Hdom by by injection Hd.
  split; rewrite ?Hg, ?Ht, ?Ho, ?Hc, ?Hdom; done.
Qed.

End recovery.
