(* ===== verification/Coordinator.v ===== *)
(** * Coordinator: histories of the coordinator with crashes

    The tables and the commit journal together: exchanges, scheduling passes and
    stops at any point of a commit or of its recovery. *)
From S2P Require Import Prelude Spec Validate Kernel Scoped ScopedFacts Observation Machine MachineStore.
From S2P Require Import MachineFacts ExchangeFacts Reservation MachineOffer OfferFacts MachineRecovery.
From S2P Require Import RecoveryFacts.

Record CoordinatorState := {
  co_tables : Tables;
  co_pending : option MachineCommitIntent;   (* the open journal entry *)
  co_reset : bool;                           (* a reset is recorded and admission is closed *)
}.

Section histories.
Context (uuid_to_string : Uuid → string) (wire : Wire) (domains : AuthorityDomains)
  (topology : ResourceTopology) (rules : gmap string (list string)).

Definition recover (c : CoordinatorState) : result StoreError Recovery :=
  reconcile_pending_machine_commit (co_tables c) (negb (co_reset c)) (co_pending c).

(** The state after a served request, once recovery has run. *)
Definition served (c : CoordinatorState) (recovery : Recovery) (t : Tables) : CoordinatorState :=
  match recovery with
  | Finished _ => {| co_tables := t; co_pending := if co_reset c then co_pending c else None;
                     co_reset := co_reset c |}
  | ResetRecorded _ => {| co_tables := t; co_pending := co_pending c; co_reset := true |}
  end.

Inductive coordinator_step : CoordinatorState → CoordinatorState → Prop :=
(* a request: recovery, the exchange, the journal entry closed *)
| step_serve c recovery r cfg au wall rd checkpoint t' res :
    recover c = Ok recovery →
    machine_exchange uuid_to_string wire (co_tables c) (negb (co_reset c)) (co_pending c)
      r cfg au wall rd (Ok tt) checkpoint = (t', res) →
    coordinator_step c (served c recovery t')
(* a stop after the journal entry of a commit, before or after the tables commit *)
| step_crash c t1 r cfg au wall rd t' rep intent (committed : bool) :
    co_reset c = false → recover c = Ok (Finished t1) →
    exchange_commit uuid_to_string wire t1 r cfg au wall rd = Ok (t', rep, Some intent) →
    coordinator_step c {| co_tables := if committed then t' else t1; co_pending := Some intent;
                          co_reset := false |}
(* a stop after recovery committed, before it closed the entry *)
| step_crash_recovery c t1 :
    recover c = Ok (Finished t1) →
    coordinator_step c {| co_tables := t1; co_pending := co_pending c; co_reset := co_reset c |}
(* a scheduling pass: an open entry or a reset blocks admission *)
| step_offer c s blocked authority caps cfg su mint wall native s' changed :
    so_machine s = co_tables c →
    (is_Some (co_pending c) ∨ co_reset c = true → blocked = true) →
    machine_topology authority caps = Ok (Some (domains, topology)) →
    machine_offer_before_native uuid_to_string s blocked authority caps rules cfg su mint wall native
      = Ok (s', changed) →
    coordinator_step c {| co_tables := so_machine s'; co_pending := co_pending c; co_reset := co_reset c |}.

(** ** The invariant *)
Definition safe (t : Tables) : Prop := store_inv t ∧ safely_held topology domains rules t.

(** The open entry [i] leads from [t] to the tables [t'], once and for all. *)
Definition resumable (t : Tables) (i : MachineCommitIntent) : Prop :=
  ∃ t', safe t' ∧ history_evolves t t' ∧
    (∃ t1, reconcile_pending_machine_commit t true (Some i) = Ok (Finished t1) ∧ durable t1 = durable t') ∧
    (∃ t2, reconcile_pending_machine_commit t' true (Some i) = Ok (Finished t2) ∧ durable t2 = durable t').

(** An entry that cannot be resumed makes recovery record a reset. *)
Definition coordinator_inv (c : CoordinatorState) : Prop :=
  safe (co_tables c) ∧
  ∀ i, co_pending c = Some i → co_reset c = false → resumable (co_tables c) i ∨
    ∃ reason, reconcile_pending_machine_commit (co_tables c) true (Some i) = Ok (ResetRecorded reason).

Lemma safe_durable t t' : durable t = durable t' → safe t' → safe t.
Proof.
  intros Hd [Hinv Hheld]. split; [by eapply store_inv_durable|].
  unfold safely_held, active_holders in *.
  assert (tb_grants t = tb_grants t') as Hg by by injection Hd.
  assert (tb_leases t = tb_leases t') as Hl by by injection Hd. by rewrite Hg, Hl.
Qed.

Lemma history_durable t t1 t' : durable t1 = durable t' → history_evolves t t' → history_evolves t t1.
Proof.
  intros Hd H key row Hrow. assert (tb_grants t1 = tb_grants t') as Hg by by injection Hd.
  rewrite Hg. by apply H.
Qed.

(** Recovery of a consistent state: safe tables, and the entry stays resumable. *)
Lemma recover_safe c recovery :
  coordinator_inv c → recover c = Ok recovery →
  match recovery with
  | Finished t1 => safe t1 ∧ history_evolves (co_tables c) t1 ∧
      ∀ i, co_pending c = Some i → co_reset c = false → resumable t1 i
  | ResetRecorded _ => True
  end.
Proof.
  intros [Hsafe Hpend] H. destruct recovery as [t1|]; [|done]. unfold recover in H.
  destruct (co_pending c) as [i|]; [|simpl in H; injection H as <-; by split_and!; [|reflexivity|]].
  destruct (co_reset c) eqn:Hreset.
  { simpl in H. injection H as <-. by split_and!; [|reflexivity|]. }
  cbn [negb] in H. destruct (Hpend i eq_refl eq_refl) as [(t' & Hs & Hh & (t2 & Hr & Hd) & Hagain)|[reason Hr]];
    [|congruence].
  rewrite Hr in H. injection H as ->. split_and!.
  - eapply safe_durable; [exact Hd|done].
  - eapply history_durable; [exact Hd|done].
  - intros j [= <-] _. destruct Hagain as (t2 & Hr2 & Hd2). exists t1. split_and!.
    + eapply safe_durable; [exact Hd|done].
    + reflexivity.
    + destruct (reconcile_same_durable t' t1 i t2) as (t3 & Hr3 & Hd3); [done..|]. exists t3. split; [done|congruence].
    + destruct (reconcile_same_durable t' t1 i t2) as (t3 & Hr3 & Hd3); [done..|]. exists t3. split; [done|congruence].
Qed.

Lemma exchange_commit_safe t r cfg au wall rd t' rep intent :
  safe t → exchange_commit uuid_to_string wire t r cfg au wall rd = Ok (t', rep, intent) →
  safe t' ∧ history_evolves t t'.
Proof.
  intros [Hinv Hheld] H. destruct (exchange_commit_keeps _ _ _ _ _ _ _ _ _ _ _ Hinv H) as [[Hinv1 Hev] Hl].
  split; [|by apply store_evolves_history]. split; [done|by eapply safely_held_evolves].
Qed.

(** A journaled exchange leaves an entry that can be resumed from before and
    after its commit; replaying an operation journals no grant. *)
Lemma exchange_resumable t r cfg au wall rd t' rep i (committed : bool) :
  safe t → exchange_commit uuid_to_string wire t r cfg au wall rd = Ok (t', rep, Some i) →
  let t1 := if committed then t' else t in
  resumable t1 i ∨ ∃ reason, reconcile_pending_machine_commit t1 true (Some i) = Ok (ResetRecorded reason).
Proof.
  intros Hsafe H t1. destruct (exchange_commit_safe _ _ _ _ _ _ _ _ _ Hsafe H) as [Hsafe' Hev].
  destruct (find_operation t r) as [op|] eqn:Hf.
  - pose proof H as Hx. apply exchange_replay in Hx as (-> & Hrep); [|by rewrite Hf].
    assert (t1 = t) as -> by by destruct committed.
    destruct Hrep as [Hr|[reason Hr]]; [left|right; by exists reason].
    exists t. split_and!; [done|reflexivity|by exists t..].
  - left. destruct (crash_recovers uuid_to_string wire t r cfg au wall rd t' rep i) as [(t2 & Hr & Hd) Hr'];
      [apply Hsafe|done|done|].
    exists t'. split_and!; [done| | |by exists t'].
    + subst t1. destruct committed; [reflexivity|done].
    + subst t1. destruct committed; [by exists t'|by exists t2].
Qed.

Lemma coordinator_step_inv c c' :
  coordinator_inv c → coordinator_step c c' →
  coordinator_inv c' ∧ history_evolves (co_tables c) (co_tables c').
Proof.
  intros Hinv Hstep. pose proof Hinv as [Hsafe Hpend].
  destruct Hstep as [c recovery r cfg au wall rd checkpoint t' res Hrec H
    |c t1 r cfg au wall rd t' rep intent committed Hreset Hrec H|c t1 Hrec
    |c s blocked authority caps cfg su mint wall native s' changed Hs Hblocked Ht H].
  - pose proof (recover_safe c recovery Hinv Hrec) as Hr. unfold machine_exchange in H.
    unfold recover in Hrec. rewrite Hrec in H.
    set (t1 := match recovery with Finished t => t | ResetRecorded _ => co_tables c end) in *.
    assert (safe t1 ∧ history_evolves (co_tables c) t1) as [Hsafe1 Hev1].
    { destruct recovery; [by destruct Hr as (? & ? & _)|]. by split. }
    assert (safe t' ∧ history_evolves t1 t') as [Hsafe' Hev'].
    { destruct (exchange_commit _ _ t1 _ _ _ _ _) as [[[t2 rep] prepared]|] eqn:Hx; simplify_eq;
        [by eapply exchange_commit_safe|by split]. }
    assert (history_evolves (co_tables c) t') as Hev by by etrans.
    destruct recovery; simpl; (split; [|done]); (split; [done|]); simpl; [|done].
    intros i Hi Hres. by rewrite Hres in Hi.
  - destruct (recover_safe c _ Hinv Hrec) as (Hsafe1 & Hev1 & _).
    destruct (exchange_commit_safe _ _ _ _ _ _ _ _ _ Hsafe1 H) as [Hsafe' Hev'].
    pose proof (exchange_resumable _ _ _ _ _ _ _ _ _ committed Hsafe1 H) as Hres.
    split; [split; simpl|simpl].
    + by destruct committed.
    + intros i [= <-] _. done.
    + destruct committed; [by etrans|done].
  - destruct (recover_safe c _ Hinv Hrec) as (Hsafe1 & Hev1 & Hres). split; [split; simpl|done]; [done|].
    intros i Hi Hr. left. by apply Hres.
  - unfold machine_offer_before_native in H. destruct blocked.
    { simplify_eq. rewrite Hs. by destruct c. }
    rewrite Ht in H. cbn [mbind result_bind] in H. rewrite <-Hs in *.
    destruct Hsafe as [Hst Hheld]. apply offer_pass_inv in H as (Hst' & Hheld' & Hev'); [|done..].
    split; [split; simpl|done]; [done|].
    intros i Hi Hr. by discriminate (Hblocked (or_introl (ex_intro _ i Hi))).
Qed.

(** C1: Over any history of requests, scheduling passes and crashes (between a
    journal entry, the commit of the tables and the end of recovery) the
    coordinator never overcommits and never loses a start right: native leases
    and outstanding grants stay within every budget of the hierarchy and free
    of fence and impact conflicts; every grant row agrees with its snapshot,
    its tickets form one chain that the ticket table records, a released grant
    carries a seal covering all of them, and the operation log stays between
    the retired floor and the accepted sequence; no grant disappears or changes
    its id, and a used one keeps candidate, nonce and claims, only moves
    forward and does not change once released. *)
Theorem coordinator_histories_safe t c :
  store_inv t → safely_held topology domains rules t →
  rtc coordinator_step {| co_tables := t; co_pending := None; co_reset := false |} c →
  store_inv (co_tables c) ∧ safely_held topology domains rules (co_tables c) ∧
  history_evolves t (co_tables c).
Proof.
  intros Hinv Hheld Hrun.
  set (c0 := {| co_tables := t; co_pending := None; co_reset := false |}) in *.
  change t with (co_tables c0). assert (coordinator_inv c0) as H0 by done. clearbody c0.
  assert (coordinator_inv c ∧ history_evolves (co_tables c0) (co_tables c)) as [[[? ?] _] ?]; [|done].
  induction Hrun as [c|c c1 c2 Hstep _ IH]; [by split|].
  destruct (coordinator_step_inv c c1 H0 Hstep) as [H1 Hev]. destruct (IH H1). split; [done|by etrans].
Qed.
End histories.
