(* ===== verification/CoordinatorDemo.v ===== *)
(** * CoordinatorDemo: one allocation from candidate to sealed release

    A concrete coordinator with one attached manager: the manager submits a
    candidate, a scheduling pass offers it, the manager arms the offer, starts
    one process and releases.  The runs are evaluated, and each shows that the
    hypotheses of the theorems about the coordinator hold. *)
From S2P Require Import Prelude Spec Validate ValidateFacts Kernel Scoped ScopedFacts Observation.
From S2P Require Import Machine MachineStore MachineFacts ExchangeFacts InventoryFacts Reservation.
From S2P Require Import MachineOffer OfferFacts MachineRecovery RecoveryFacts Coordinator.

Module Demo.
Definition show (u : Uuid) : string := pretty u.
Definition digest : string := "0123456789abcdef0123456789abcdef0123456789abcdef0123456789abcdef".

Definition wire : Wire :=
  {| payload_hash := λ _, digest; pages_hash := λ _, digest; candidate_len := λ _, 100;
     grant_len := λ _, 100; pages_len := λ _, 100; reply_len := λ _, 100; request_len := λ _, 100 |}.

Definition domains : AuthorityDomains :=
  {| ad_machine_id := 100; ad_machine_scope := 1; ad_native_domain := 2 |}.
Definition registry : option (option AuthorityDomains * list Registration) :=
  Some (Some domains, [{| rg_domain_id := 3; rg_parent_domain := 1;
    rg_budgets := {["cpu_units" := 4; "ram_mb" := 512]}; rg_aliases := ∅ |}]).
Definition host_caps : ResourceCapacities := host_resources Sample.host.

Definition topology : ResourceTopology :=
  match machine_topology registry host_caps with
  | Ok (Some (_, t)) => t
  | _ => {| rt_root := 1; rt_domains := ∅; rt_aliases := ∅ |}
  end.
Lemma topology_ok : machine_topology registry host_caps = Ok (Some (domains, topology)).
Proof. vm_compute. reflexivity. Qed.

Definition session : SessionIdentity :=
  {| se_machine_id := 100; se_authority_epoch := 200; se_domain_id := 3; se_manager_store_uuid := 300;
     se_executor_incarnation := 400; se_connection_epoch := 1 |}.
Definition authority : Authority :=
  {| au_retired_domain := λ _, false;
     au_participant := λ d, if decide (d = 3) then Some (true, Some session) else None;
     au_verify := λ _, true; au_epoch := Some 200; au_machine_id := Some 100; au_blocked := false;
     au_check_commit := λ _ _ _, Ok tt; au_prepare_commit := λ _ _ _, Ok tt |}.

Definition key : AllocationKey :=
  {| ak_machine_id := 100; ak_authority_epoch := 200; ak_domain_id := 3; ak_manager_store_uuid := 300;
     ak_lease_id := 500 |}.
Definition id (n : Uuid) : DurableId := {| store_uuid := 300; entity_uuid := n |}.
Definition candidate : Candidate :=
  {| cd_key := key; cd_owner := Work (id 10) (id 11); cd_revision := 1; cd_priority := 0;
     cd_claims := {| mc_scalars := {["cpu_units" := 2]}; mc_shared_fences := ["/work"%string];
                     mc_exclusive_fences := []; mc_impacts := [] |};
     cd_configuration_sha256 := "cfg"; cd_observed := None;
     cd_quiet := Some {| quiet_stable_seconds := 1; quiet_max_sample_age_seconds := 5;
                         quiet_wait_budget_seconds := 60; quiet_detectors := [CpuUtilization 50] |} |}.

(** A native lease is held; the manager's domain is reconciled. *)
Definition native_lease : ResolvedClaims :=
  {| cl_cpu_units := 3; cl_ram_mb := 256; cl_cargo_slots := 0; cl_gpu_slots := 0; cl_custom := ∅;
     cl_shared_fences := ∅; cl_exclusive_fences := {["/native"%string]}; cl_impacts := ∅ |}.
Definition t0 : Tables :=
  {| tb_domains := {[3 := {| dr_manager_store_uuid := 300; dr_connection_epoch := 1;
       dr_executor_incarnation := Some 400; dr_reconciliation_required := false;
       dr_retired_sequence_floor := 0; dr_accepted_sequence := 0 |}]};
     tb_operations := ∅; tb_queue := ∅; tb_queue_next := 1; tb_candidates := ∅; tb_grants := ∅;
     tb_tickets := ∅; tb_readiness := ∅; tb_reservations := ∅; tb_reconciles := ∅; tb_schedule_ms := 0;
     tb_revision := 0; tb_leases := [native_lease] |}.

Definition request (n : N) (command : Command) : Request :=
  {| rq_version := 1; rq_session := session; rq_request_sequence := n; rq_operation_id := 1000 + n;
     rq_payload_sha256 := digest; rq_command := command; rq_authentication := "tag" |}.

(** A sample taken at [mono], read 100 ms later. *)
Definition available {T} (mono : N) (v : T) : ComponentEvidence T :=
  {| ce_captured_unix_millis := 1000; ce_captured_monotonic_millis := mono; ce_value := Available v |}.
Definition sample (mono : N) : HostSample :=
  {| hs_observation_generation := 7; hs_captured_unix_millis := 1000; hs_captured_monotonic_millis := mono;
     hs_memory := available mono {| available_physical_mb := 900; commit_headroom_mb := None |};
     hs_cpu_utilization := available mono 10; hs_disk_utilization := available mono 10;
     hs_processes := available mono []; hs_gpus := available mono ∅ |}.
Definition readiness (mono : N) : Readiness :=
  {| rd_config := Sample.host; rd_sample := Some (sample mono); rd_clock := Ok (1000%Z, mono + 100) |}.

Definition no_reply : Reply :=
  {| rp_session := session; rp_request_sequence := 0; rp_operation_id := 0; rp_coordinator_revision := 0;
     rp_outcome := Accepted 0 |}.
Definition exchange (mono : N) (t : Tables) (r : Request)
    : result StoreError (Tables * Reply * option MachineCommitIntent) :=
  exchange_commit show wire t r "cfg" authority 1000 (readiness mono).
Definition outcome_of (mono : N) (t : Tables) (r : Request) : Tables * Reply * option MachineCommitIntent :=
  unwrap_or (t, no_reply, None) (exchange mono t r).
Definition after (mono : N) (t : Tables) (r : Request) : Tables := (outcome_of mono t r).1.1.
Definition reply (mono : N) (t : Tables) (r : Request) : Reply := (outcome_of mono t r).1.2.
Definition entry (mono : N) (t : Tables) (r : Request) : option MachineCommitIntent := (outcome_of mono t r).2.

Definition mint (_ : AllocationKey) : Uuid * Uuid := (600, 700).
Definition store (t : Tables) : Store := {| so_machine := t; so_jobs := ∅; so_reservations := ∅ |}.
Definition pass (t : Tables) : result StoreError (Store * bool) :=
  machine_offer_before_native show (store t) false registry host_caps ∅ "cfg" 900 mint 1000 None.

Definition intent : InvocationIntent :=
  {| in_invocation_id := id 20; in_containment_id := id 21; in_role := RolePrimary; in_role_index := 0;
     in_release_sequence := 1; in_executable_sha256 := digest; in_boundary_sha256 := digest;
     in_readiness_challenge := 22; in_previous_cleanup := None |}.
Definition seal : SealedRelease :=
  {| sr_key := key; sr_offer_nonce := 700; sr_sealed_sequence := 9;
     sr_tickets := [{| tc_invocation_id := id 20; tc_release_sequence := 1; tc_boundary_sha256 := digest;
                       tc_proof_sha256 := digest; tc_user_code_released := true |}] |}.

Definition submit := request 1 (CandidateUpsert candidate).
Definition arm_offer := request 2 (Arm key 700).
Definition start n := request n (AuthorizeInvocation key 700 intent).
Definition release := request 5 (Release seal).

(** The first start waits for a stable quiet interval of one second. *)
Definition t1 := after 5000 t0 submit.
Definition t2 := so_machine (unwrap_or (store t1, false) (pass t1)).1.
Definition t3 := after 5000 t2 arm_offer.
Definition t4 := after 5000 t3 (start 3).
Definition t5 := after 6000 t4 (start 4).
Definition t6 := after 7000 t5 release.

(** The run: the state and the number of tickets of the grant after each step. *)
Example run :
  map (λ t, (λ row, (gr_state row, length (gs_tickets (gr_snapshot row)))) <$> tb_grants t !! key)
    [t0; t1; t2; t3; t4; t5; t6] =
  [None; None; Some (Offered, 0%nat); Some (Armed, 0%nat); Some (Armed, 0%nat); Some (Armed, 1%nat);
   Some (Released, 1%nat)].
Proof. vm_compute. reflexivity. Qed.

Example waiting : rp_outcome (reply 5000 t3 (start 3)) =
  Rejected "quiet_waiting" "host quiet interval is not yet stable".
Proof. vm_compute. reflexivity. Qed.

(** ** An acknowledgement replayed late

    The manager acknowledges, sends another request, then repeats the
    acknowledgement.  The exchange answers from the record and changes nothing,
    but it journals the acknowledgement again; after a stop at that point,
    recovery compares the sequence of the repeated request with the accepted one
    and records a reset, although the journal and the history agree. *)
Definition ack := request 6 (Acknowledge 2).
Definition t7 := after 7000 t6 ack.
Definition t8 := after 7000 t7 (request 7 (Inspect None)).

Example late_acknowledgement_is_journaled_again :
  match entry 7000 t8 ack with
  | Some i =>
      tb_operations t8 !! (3, 6) = Some {| op_operation_id := 1006; op_payload_sha256 := digest;
                                           op_response := mi_outcome i |} ∧
      reconcile_pending_machine_commit t8 true (Some i) =
        Ok (ResetRecorded "machine commit journal and SQLite operation history disagree")
  | None => False
  end.
Proof. vm_compute. split; reflexivity. Qed.

(** ** The hypotheses of the theorems *)
Abbreviation step := (coordinator_step show wire domains topology ∅).
Definition idle (t : Tables) : CoordinatorState := {| co_tables := t; co_pending := None; co_reset := false |}.

Lemma exchange_ok mono t r : is_ok (exchange mono t r) = true →
  exchange_commit show wire t r "cfg" authority 1000 (readiness mono) =
  Ok (after mono t r, reply mono t r, entry mono t r).
Proof. unfold after, reply, entry, outcome_of, exchange. by destruct (exchange_commit _ _ _ _ _ _ _ _) as [[[]]|]. Qed.

Lemma serve_step mono t r : is_ok (exchange mono t r) = true → step (idle t) (idle (after mono t r)).
Proof.
  intros H. apply (step_serve show wire domains topology ∅ (idle t) (Finished t) r "cfg" authority 1000
    (readiness mono) (Ok tt) (after mono t r)
    (_ ← (if entry mono t r then Ok tt else Ok tt); _ ← Ok tt; Ok (reply mono t r))); [done|].
  unfold machine_exchange. cbn [idle co_tables co_reset co_pending reconcile_pending_machine_commit].
  by rewrite exchange_ok.
Qed.

Lemma step1 : step (idle t0) (idle t1).
Proof. apply serve_step. vm_compute. reflexivity. Qed.
Lemma ok_pair {E A B} (d : A * B) (r : result E (A * B)) : is_ok r = true →
  r = Ok ((unwrap_or d r).1, (unwrap_or d r).2).
Proof. by destruct r as [[]|]. Qed.
Lemma step2 : step (idle t1) (idle t2).
Proof.
  apply (step_offer show wire domains topology ∅ (idle t1) (store t1) false registry host_caps "cfg" 900 mint
    1000 None (unwrap_or (store t1, false) (pass t1)).1 (unwrap_or (store t1, false) (pass t1)).2).
  - done.
  - by intros [[? [=]]|[=]].
  - exact topology_ok.
  - apply (ok_pair (store t1, false)). vm_compute. reflexivity.
Qed.
Lemma step3 : step (idle t2) (idle t3).
Proof. apply serve_step. vm_compute. reflexivity. Qed.
Lemma step4 : step (idle t3) (idle t4).
Proof. apply serve_step. vm_compute. reflexivity. Qed.
Lemma step5 : step (idle t4) (idle t5).
Proof. apply serve_step. vm_compute. reflexivity. Qed.
Lemma step6 : step (idle t5) (idle t6).
Proof. apply serve_step. vm_compute. reflexivity. Qed.

Lemma t0_inv : store_inv t0.
Proof. split; unfold t0; simpl; by (intros; simplify_map_eq). Qed.

Definition lease_expanded : ScopedClaims :=
  unwrap_or no_scoped_claims (expand topology 2 native_lease).

Lemma t0_held : safely_held topology domains ∅ t0.
Proof.
  exists [lease_expanded]. split; [vm_compute; reflexivity|].
  apply (holders_safe_rtc show topology ∅ []); [|split; [intros key; apply N.le_0_l|]].
  - apply rtc_once. apply (step_admit show topology ∅ [] 2 native_lease).
    + apply is_ok_unwrap_or. vm_compute. reflexivity.
    + vm_compute. reflexivity.
  - intros [] ? ? ? ? [=].
Qed.

(** The store is consistent after each step. *)
Lemma t0_coordinator : coordinator_inv domains topology ∅ (idle t0).
Proof. split; [split; [exact t0_inv|exact t0_held]|done]. Qed.

Lemma inv_run : store_inv t2 ∧ store_inv t3 ∧ store_inv t4 ∧ store_inv t5 ∧ store_inv t6.
Proof.
  destruct (coordinator_step_inv _ _ _ _ _ _ _ t0_coordinator step1) as [I1 _].
  destruct (coordinator_step_inv _ _ _ _ _ _ _ I1 step2) as [I2 _].
  destruct (coordinator_step_inv _ _ _ _ _ _ _ I2 step3) as [I3 _].
  destruct (coordinator_step_inv _ _ _ _ _ _ _ I3 step4) as [I4 _].
  destruct (coordinator_step_inv _ _ _ _ _ _ _ I4 step5) as [I5 _].
  destruct (coordinator_step_inv _ _ _ _ _ _ _ I5 step6) as [I6 _].
  split_and!; [apply I2|apply I3|apply I4|apply I5|apply I6].
Qed.

(** The entry of the release, and the coordinator stopped before its commit. *)
Definition release_entry : MachineCommitIntent :=
  default {| mi_request := release; mi_outcome := Accepted 0; mi_grants := [] |} (entry 7000 t5 release).
Lemma release_journaled :
  exchange_commit show wire t5 release "cfg" authority 1000 (readiness 7000) =
  Ok (t6, reply 7000 t5 release, Some release_entry).
Proof.
  assert (entry 7000 t5 release = Some release_entry) as <- by (vm_compute; reflexivity).
  apply exchange_ok. vm_compute. reflexivity.
Qed.
Lemma step_stop : step (idle t5) {| co_tables := t5; co_pending := Some release_entry; co_reset := false |}.
Proof.
  apply (step_crash show wire domains topology ∅ (idle t5) t5 release "cfg" authority 1000 (readiness 7000) t6
    (reply 7000 t5 release) release_entry false); [done|done|exact release_journaled].
Qed.

Lemma coordinator_histories_safe_witness :
  store_inv t5 ∧ safely_held topology domains ∅ t5 ∧ history_evolves t0 t5.
Proof.
  apply (coordinator_histories_safe show wire domains topology ∅ t0 _ t0_inv t0_held
    (rtc_l _ _ _ _ step1 (rtc_l _ _ _ _ step2 (rtc_l _ _ _ _ step3 (rtc_l _ _ _ _ step4
      (rtc_l _ _ _ _ step5 (rtc_once _ _ step_stop))))))).
Defined.


(** The release replays after its reply was lost, under another clock. *)
Lemma exchange_replays_witness :
  ∃ rep' intent', exchange_commit show wire t6 release "other" authority 9000 (readiness 0)
      = Ok (t6, rep', intent') ∧ rp_outcome rep' = rp_outcome (reply 7000 t5 release).
Proof.
  apply (exchange_replays show wire t5 release "cfg" authority 1000 (readiness 7000) t6
    (reply 7000 t5 release) (Some release_entry)); [apply inv_run|exact release_journaled].
Defined.

Definition grant (t : Tables) : GrantRow :=
  default {| gr_snapshot := new_offer (id 0) candidate (job_key_at 0 0 0 0) 0 0;
             gr_physical_claims := no_claims; gr_state := Expired; gr_deadline_ms := 0 |} (tb_grants t !! key).



(** Pages of one grant: the only grant of the store, on one page. *)
Lemma inventory_pages_complete_witness :
  ∃ grants, collect_pages wire (S (size (tb_grants t5))) t5 release "cfg" 1 None = Ok grants ∧
    gr_snapshot (grant t5) ∈ grants.
Proof.
  assert (Hkey : tb_grants t5 !! key = Some (grant t5)) by (vm_compute; reflexivity).
  assert (Hall : map_to_list (tb_grants t5) = [(key, grant t5)]) by (vm_compute; reflexivity).
  destruct (inventory_pages_complete wire t5 release "cfg" 1) as (grants & Hrun & _ & Hall').
  - apply inv_run.
  - split; [reflexivity|discriminate].
  - intros k row Hrow _ _. apply elem_of_map_to_list in Hrow. rewrite Hall in Hrow.
    apply list_elem_of_singleton in Hrow.
    pose proof (f_equal fst Hrow) as Hk. pose proof (f_equal snd Hrow) as Hr. cbn [fst snd] in Hk, Hr.
    rewrite Hk, Hr. clear Hrow Hk Hr.
    split; vm_compute; [discriminate|reflexivity].
  - exists grants. split; [exact Hrun|]. apply Hall'. exists (grant t5).
    split; [|split; [reflexivity|split; vm_compute; reflexivity]].
    vm_compute. reflexivity.
Defined.

Definition issued (r : result StoreError (Tables * Outcome)) : option (Tables * InvocationTicket) :=
  match r with Ok (t, OTicket ticket) => Some (t, ticket) | _ => None end.
Definition authorized : result StoreError (Tables * Outcome) :=
  authorize_invocation show t4 (start 4) "cfg" false false (readiness 6000) key 700 intent.
Definition ticket : InvocationTicket :=
  match issued authorized with
  | Some p => p.2
  | None => issue_ticket (start 4) (gr_snapshot (grant t4)) intent (sample 0) 0
  end.

Lemma issued_ok r t k : is_Some (issued r) → r = Ok (match issued r with Some p => p.1 | None => t end,
  OTicket (match issued r with Some p => p.2 | None => k end)).
Proof. by destruct r as [[? []]|]; simpl; intros [? [=]]. Qed.

Lemma start_right_requires_readiness_witness :
  ∃ row, tb_grants t4 !! key = Some row ∧ gr_state row = Armed ∧ it_intent ticket = intent.
Proof.
  destruct (start_right_requires_readiness show t4 (start 4) "cfg" false false (readiness 6000) key 700 intent
    (match issued authorized with Some p => p.1 | None => t4 end) ticket)
    as (_ & _ & _ & row & _ & _ & _ & _ & Hrow & Harmed & _ & _ & _ & _ & _ & _ & _ & _ & _ & _ & _ & Hi & _).
  - apply issued_ok. vm_compute. eexists. reflexivity.
  - exists row. split; [exact Hrow|]. split; [exact Harmed|exact Hi].
Defined.
End Demo.
