(* ===== verification/Text.v ===== *)
(** * Text: UTF-8 texts cut to a budget ([src/src/store/values.rs])

    A Rust [String] is the bytes of a valid UTF-8 text.  Snapshots keep the tails of
    the logs of an invocation within one budget, reports of the doctor are cut to a
    fixed length.  A slice at an index that is not a character boundary is a panic,
    here [None].  The theorem: no panic, what is kept is a text again, and the budget
    is spent on the newest texts first. *)
From S2P Require Import Prelude.

(** ** Bytes and boundaries *)
Fixpoint str_drop (n : nat) (s : string) : string :=
  match n, s with
  | S n, String _ s => str_drop n s
  | _, _ => s
  end.
Fixpoint str_take (n : nat) (s : string) : string :=
  match n, s with
  | S n, String c s => String c (str_take n s)
  | _, _ => ""
  end.

Definition byte_in (lo hi : N) (c : ascii) : bool := bool_decide (lo ≤ N_of_ascii c) && bool_decide (N_of_ascii c ≤ hi).
Definition is_continuation : ascii → bool := byte_in 128 191.

(** [str::is_char_boundary] *)
Definition is_char_boundary (s : string) (i : N) : bool :=
  bool_decide (i = 0) ||
  match String.get (N.to_nat i) s with
  | Some c => negb (is_continuation c)
  | None => bool_decide (i = len s)
  end.

(** [&value[start..]] and [String::truncate] *)
Definition slice_from (s : string) (i : N) : option string :=
  if is_char_boundary s i then Some (str_drop (N.to_nat i) s) else None.
Definition truncate (s : string) (i : N) : option string :=
  if bool_decide (len s < i) then Some s
  else if is_char_boundary s i then Some (str_take (N.to_nat i) s) else None.

(** [str::chars], each character as its bytes. *)
Fixpoint chars (s : string) : list string :=
  match s with
  | EmptyString => []
  | String c rest =>
      match chars rest, rest with
      | x :: l, String d _ => if is_continuation d then String c x :: l else String c "" :: x :: l
      | l, _ => String c "" :: l
      end
  end.
Definition take_chars (n : nat) (s : string) : string := String.concat "" (take n (chars s)).

(** ** The tails of a snapshot *)
Definition SNAPSHOT_DIAGNOSTIC_BUDGET_BYTES : N := 64 * 1024.
Definition DOCTOR_CODE_MAX_BYTES : nat := 128.
Definition DOCTOR_SUMMARY_MAX_BYTES : N := 1024.
Definition DOCTOR_DETAIL_MAX_BYTES : N := 2048.

(** [while !value.is_char_boundary(start) { start += 1; }] *)
Fixpoint next_boundary (fuel : nat) (s : string) (start : N) : option N :=
  if is_char_boundary s start then Some start
  else match fuel with O => None | S fuel => next_boundary fuel s (start + 1) end.

(** [while !value.is_char_boundary(boundary) { boundary -= 1; }] *)
Fixpoint prev_boundary (fuel : nat) (s : string) (boundary : N) : option N :=
  if is_char_boundary s boundary then Some boundary
  else match fuel, checked_sub boundary 1 with
       | S fuel, Some boundary => prev_boundary fuel s boundary
       | _, _ => None
       end.

Definition keep_tail_within_budget (value : string) (remaining : N) : option (string * N) :=
  if bool_decide (len value ≤ remaining) then Some (value, remaining - len value)
  else if bool_decide (remaining = 0) then Some ("", remaining)
  else start ← next_boundary (String.length value) value (len value - remaining);
       value ← slice_from value start;
       Some (value, 0).

(** The two tails of an [InvocationSnapshot]. *)
Record Tails := { tl_stdout_tail : string; tl_stderr_tail : string }.

Definition bound_invocation (t : Tails) (remaining : N) : option (Tails * N) :=
  '(err, remaining) ← keep_tail_within_budget (tl_stderr_tail t) remaining;
  '(out, remaining) ← keep_tail_within_budget (tl_stdout_tail t) remaining;
  Some ({| tl_stdout_tail := out; tl_stderr_tail := err |}, remaining).

(** [for x in l.iter_mut().rev()] *)
Fixpoint bound_rev {A} (f : A → N → option (A * N)) (l : list A) (remaining : N) : option (list A * N) :=
  match l with
  | [] => Some ([], remaining)
  | x :: l =>
      '(l, remaining) ← bound_rev f l remaining;
      '(x, remaining) ← f x remaining;
      Some (x :: l, remaining)
  end.

Definition bound_snapshot_diagnostics (attempts : list (list Tails)) : option (list (list Tails)) :=
  fst <$> bound_rev (bound_rev bound_invocation) attempts SNAPSHOT_DIAGNOSTIC_BUDGET_BYTES.

Definition bounded_doctor_code (value : string) : string :=
  String.concat "" (take DOCTOR_CODE_MAX_BYTES
    (map (λ c, match c with String b "" => if byte_is_ascii b then c else "?" | _ => "?" end) (chars value))).

Definition bounded_doctor_text (value : string) (max_bytes : N) : option string :=
  if bool_decide (len value ≤ max_bytes) then Some value
  else boundary ← prev_boundary (N.to_nat max_bytes) value max_bytes; truncate value boundary.

(** ** Texts *)
(** The well-formed byte sequences of one character (table 3-7 of the Unicode Standard). *)
Definition utf8_char (s : string) : bool :=
  let c := byte_in 128 191 in
  match s with
  | String a "" => byte_in 0 127 a
  | String a (String b "") => byte_in 194 223 a && c b
  | String a (String b (String d "")) =>
      (byte_in 224 224 a && byte_in 160 191 b || byte_in 225 236 a && c b || byte_in 237 237 a && byte_in 128 159 b
       || byte_in 238 239 a && c b) && c d
  | String a (String b (String d (String e ""))) =>
      (byte_in 240 240 a && byte_in 144 191 b || byte_in 241 243 a && c b || byte_in 244 244 a && byte_in 128 143 b)
      && c d && c e
  | _ => false
  end.

Inductive utf8 : string → Prop :=
| utf8_nil : utf8 ""
| utf8_cons c s : utf8_char c = true → utf8 s → utf8 (c +:+ s).

(** [y] is the longest tail of [x] of whole characters within [budget]. *)
Definition longest_tail (budget : N) (x y : string) : Prop :=
  (∃ p, x = p +:+ y) ∧ utf8 y ∧ len y ≤ budget ∧
  ∀ p z, x = p +:+ z → utf8 z → len z ≤ budget → len z ≤ len y.

(** Texts, newest first, and what a budget keeps of them: whole texts while they fit,
    of the first that does not the longest tail, nothing of the others. *)
Inductive fit : N → list string → list string → Prop :=
| fit_nil budget : fit budget [] []
| fit_whole budget x l l' : len x ≤ budget → fit (budget - len x) l l' → fit budget (x :: l) (x :: l')
| fit_cut budget x y l : budget < len x → longest_tail budget x y →
    fit budget (x :: l) (y :: replicate (length l) "").

(** The texts of a snapshot in the order the budget is spent. *)
Definition newest_first (attempts : list (list Tails)) : list string :=
  concat (map (λ t, [tl_stderr_tail t; tl_stdout_tail t]) (rev (concat attempts))).

(** ** Drop, take and boundaries *)
Lemma str_take_drop n s : str_take n s +:+ str_drop n s = s.
Proof. revert s. induction n as [|n IH]; intros [|c s]; [done..|]. apply (f_equal (String c)), IH. Qed.

Lemma str_drop_app p z : str_drop (String.length p) (p +:+ z) = z.
Proof. by induction p. Qed.

Lemma str_drop_app_ge p z n : str_drop (String.length p + n) (p +:+ z) = str_drop n z.
Proof. by induction p. Qed.

Lemma length_str_drop n s : String.length (str_drop n s) = (String.length s - n)%nat.
Proof. revert s. induction n as [|n IH]; intros [|c s]; simpl; [done..|apply IH]. Qed.

Lemma get_str_drop n s : String.get n s = match str_drop n s with String c _ => Some c | "" => None end.
Proof. revert s. induction n as [|n IH]; intros [|c s]; simpl; try done. Qed.

(** The index is a boundary when the rest starts with the first byte of a character. *)
Definition starts_char (s : string) : bool :=
  match s with String c _ => negb (is_continuation c) | "" => true end.

Lemma is_char_boundary_spec s i : i ≤ len s →
  is_char_boundary s i = bool_decide (i = 0) || starts_char (str_drop (N.to_nat i) s).
Proof.
  intros Hi. unfold is_char_boundary. rewrite get_str_drop. f_equal.
  destruct (str_drop (N.to_nat i) s) as [|c r] eqn:E; [|done]. simpl.
  apply bool_decide_eq_true. pose proof (length_str_drop (N.to_nat i) s) as Hl. rewrite E in Hl. simpl in Hl.
  unfold len in *. lia.
Qed.

Lemma is_char_boundary_len s : is_char_boundary s (len s) = true.
Proof.
  rewrite is_char_boundary_spec by done. unfold len. rewrite Nat2N.id.
  destruct (str_drop (String.length s) s) as [|c r] eqn:E; [by rewrite orb_true_r|].
  pose proof (length_str_drop (String.length s) s) as Hl. rewrite E in Hl. simpl in Hl. lia.
Qed.

Lemma byte_in_spec lo hi c : byte_in lo hi c = true ↔ lo ≤ N_of_ascii c ≤ hi.
Proof. unfold byte_in. by rewrite andb_true_iff, !bool_decide_eq_true. Qed.

(** A character is a first byte and continuation bytes. *)
Lemma utf8_char_shape c : utf8_char c = true →
  ∃ a r, c = String a r ∧ is_continuation a = false ∧ string_forall is_continuation r = true.
Proof.
  assert (∀ lo hi a, byte_in lo hi a = true → hi < 128 ∨ 191 < lo → is_continuation a = false) as Hfirst.
  { intros lo hi a Ha Hr. apply not_true_iff_false. intros Hc.
    apply byte_in_spec in Ha. unfold is_continuation in Hc. apply byte_in_spec in Hc. lia. }
  assert (∀ lo hi b, byte_in lo hi b = true → 128 ≤ lo → hi ≤ 191 → is_continuation b = true) as Hmore.
  { intros lo hi b Hb Hl Hh. unfold is_continuation. apply byte_in_spec in Hb. apply byte_in_spec. lia. }
  unfold utf8_char. intros H.
  destruct c as [|a [|b [|d [|e [|f r]]]]]; try done; exists a; eexists; (split; [reflexivity|]);
    repeat match goal with
    | H : _ && _ = true |- _ => apply andb_true_iff in H as [? ?]
    | H : _ || _ = true |- _ => apply orb_true_iff in H as [H|H]
    end; simpl; rewrite ?andb_true_iff; split_and!; try done; eauto 2;
    (eapply Hfirst; [eassumption|lia]) || (eapply Hmore; [eassumption|lia..]).
Qed.

Lemma starts_char_utf8 s : utf8 s → starts_char s = true.
Proof.
  intros [|c r Hc _]; [done|]. apply utf8_char_shape in Hc as (a & r' & -> & Ha & _). simpl. by rewrite Ha.
Qed.

(** Inside a character every rest starts with a continuation byte. *)
Lemma inside_char c s n : utf8_char c = true → n ≠ 0%nat → (n < String.length c)%nat →
  starts_char (str_drop n (c +:+ s)) = false.
Proof.
  intros Hc Hn Hlt. apply utf8_char_shape in Hc as (a & r & -> & _ & Hr). destruct n as [|n]; [done|]. simpl in *.
  assert (n < String.length r)%nat as Hlt' by lia. clear -Hr Hlt'. revert n Hlt'.
  induction r as [|b r IH]; intros n Hlt; simpl in *; [lia|]. apply andb_true_iff in Hr as [Hc Hr].
  destruct n as [|n]; simpl; [by rewrite Hc|]. apply (IH Hr n). lia.
Qed.

(** A text cut at a boundary is a text. *)
Lemma utf8_drop s n : utf8 s → (n ≤ String.length s)%nat → n = 0%nat ∨ starts_char (str_drop n s) = true →
  utf8 (str_drop n s).
Proof.
  intros Hs. revert n. induction Hs as [|c s Hc Hs IH]; intros n Hn Hb; [by destruct n; constructor|].
  destruct (decide (n = 0%nat)) as [->|Hn0]; [simpl; by constructor|]. destruct Hb as [?|Hb]; [done|].
  destruct (decide (String.length c ≤ n)%nat) as [Hle|Hlt].
  { replace n with (String.length c + (n - String.length c))%nat in * by lia. rewrite str_drop_app_ge in *.
    apply IH; [|by right]. pose proof (len_app c s). unfold len in *. lia. }
  by rewrite inside_char in Hb by (done || lia).
Qed.

Lemma next_boundary_spec s fuel start : start ≤ len s → (len s - start ≤ N.of_nat fuel) →
  ∃ k, next_boundary fuel s start = Some k ∧ start ≤ k ≤ len s ∧ is_char_boundary s k = true ∧
    ∀ j, start ≤ j < k → is_char_boundary s j = false.
Proof.
  revert start. induction fuel as [|fuel IH]; intros start Hs Hf; simpl;
    destruct (is_char_boundary s start) eqn:Hb; try (exists start; split_and!; [done|lia|lia|done|lia]).
  - assert (start = len s) as -> by lia. by rewrite is_char_boundary_len in Hb.
  - assert (start ≠ len s) as Hne by (intros ->; by rewrite is_char_boundary_len in Hb).
    destruct (IH (start + 1)) as (k & Hk & Hr & Hkb & Hmin); [lia..|].
    exists k. split_and!; [done|lia..|done|]. intros j Hj. destruct (decide (j = start)) as [->|]; [done|].
    apply Hmin. lia.
Qed.

(** ** Spending a budget *)
Lemma keep_tail_cut x budget : utf8 x → budget < len x →
  ∃ y, keep_tail_within_budget x budget = Some (y, 0) ∧ longest_tail budget x y.
Proof.
  intros Hx Hb. unfold keep_tail_within_budget. rewrite bool_decide_eq_false_2 by lia.
  destruct (decide (budget = 0)) as [->|Hb0].
  { exists "". split; [done|]. split_and!; [exists x; by rewrite app_nil_s|constructor|done|done]. }
  rewrite bool_decide_eq_false_2 by done.
  destruct (next_boundary_spec x (String.length x) (len x - budget)) as (k & Hk & Hr & Hkb & Hmin);
    [lia|unfold len; lia|].
  rewrite Hk. simpl. unfold slice_from. rewrite Hkb. simpl.
  exists (str_drop (N.to_nat k) x). split; [done|].
  rewrite is_char_boundary_spec in Hkb by lia. apply orb_true_iff in Hkb as Hor.
  split_and!.
  - exists (str_take (N.to_nat k) x). by rewrite str_take_drop.
  - apply utf8_drop; [done|unfold len in *; lia|]. destruct Hor as [Hor|]; [|by right].
    apply bool_decide_eq_true in Hor. lia.
  - unfold len in *. rewrite length_str_drop. lia.
  - intros p z -> Hz Hlz. destruct (decide (k ≤ len p)) as [Hle|Hgt].
    { pose proof (len_app p z). unfold len in *. rewrite length_str_drop. lia. }
    exfalso. pose proof (len_app p z) as Hpz.
    enough (is_char_boundary (p +:+ z) (len p) = true) as Ht by (rewrite Hmin in Ht by lia; done).
    rewrite is_char_boundary_spec by lia. unfold len. rewrite Nat2N.id, str_drop_app.
    by rewrite starts_char_utf8, orb_true_r.
Qed.

(** The loop, over the texts in their order. *)
Fixpoint keep_all (l : list string) (budget : N) : option (list string * N) :=
  match l with
  | [] => Some ([], budget)
  | x :: l =>
      '(x, budget) ← keep_tail_within_budget x budget;
      '(l, budget) ← keep_all l budget;
      Some (x :: l, budget)
  end.

Lemma keep_all_app l k budget : keep_all (l ++ k) budget =
  ('(l', budget) ← keep_all l budget; '(k', budget) ← keep_all k budget; Some (l' ++ k', budget)).
Proof.
  revert budget. induction l as [|x l IH]; intros budget; simpl.
  - by destruct (keep_all k budget) as [[k' b]|].
  - destruct (keep_tail_within_budget x budget) as [[x' b]|]; [|done]. simpl. rewrite IH.
    destruct (keep_all l b) as [[l' b']|]; [|done]. simpl. by destruct (keep_all k b') as [[k' b'']|].
Qed.

Lemma keep_all_spent l : keep_all l 0 = Some (replicate (length l) "", 0).
Proof.
  induction l as [|x l IH]; [done|]. simpl. unfold keep_tail_within_budget.
  case_bool_decide as Hx; simpl; [|by rewrite IH]. destruct x; [change (0 - len "") with 0; by rewrite IH|]. unfold len in Hx. simpl in Hx. lia.
Qed.

Lemma keep_all_fit l budget : Forall utf8 l → ∃ l' left, keep_all l budget = Some (l', left) ∧ fit budget l l'.
Proof.
  intros Hl. revert budget. induction Hl as [|x l Hx Hl IH]; intros budget; simpl; [by repeat econstructor|].
  destruct (decide (len x ≤ budget)) as [Hle|Hgt].
  - unfold keep_tail_within_budget. rewrite bool_decide_eq_true_2 by done. simpl.
    destruct (IH (budget - len x)) as (l' & left & -> & Hf). exists (x :: l'), left. split; [done|by constructor].
  - destruct (keep_tail_cut x budget Hx) as (y & -> & Hy); [lia|]. simpl. rewrite keep_all_spent. simpl.
    eexists _, _. split; [done|]. constructor; [lia|done].
Qed.

(** Texts of a value, in the order of the loop. *)
Definition rev_texts {A} (texts : A → list string) (l : list A) : list string := concat (map texts (rev l)).

Lemma rev_texts_cons {A} (texts : A → list string) x l : rev_texts texts (x :: l) = rev_texts texts l ++ texts x.
Proof. unfold rev_texts. simpl. rewrite map_app, concat_app. simpl. by rewrite app_nil_r. Qed.

(** A loop over values, whose body is the loop over the texts of a value. *)
Lemma bound_rev_keep_all {A} (f : A → N → option (A * N)) (texts : A → list string) (same : A → A → Prop) l budget :
  (∀ x b l' b', keep_all (texts x) b = Some (l', b') →
     ∃ x', f x b = Some (x', b') ∧ texts x' = l' ∧ same x x') →
  ∀ l' left, keep_all (rev_texts texts l) budget = Some (l', left) →
  ∃ k, bound_rev f l budget = Some (k, left) ∧ rev_texts texts k = l' ∧ Forall2 same l k.
Proof.
  intros Hf. induction l as [|x l IH]; intros l' left; [intros [= <- <-]; by exists []|].
  rewrite rev_texts_cons, keep_all_app. destruct (keep_all (rev_texts texts l) budget) as [[l1 b1]|] eqn:E; [|done].
  simpl. destruct (keep_all (texts x) b1) as [[l2 b2]|] eqn:E2; [|done]. intros [= <- <-].
  destruct (IH _ _ eq_refl) as (k & -> & Hk & Hs). destruct (Hf _ _ _ _ E2) as (x' & Hx & Ht & Hs').
  simpl. rewrite Hx. exists (x' :: k). by rewrite rev_texts_cons, Hk, Ht; auto.
Qed.

Definition texts_of (t : Tails) : list string := [tl_stderr_tail t; tl_stdout_tail t].

Lemma newest_first_nested attempts : newest_first attempts = rev_texts (rev_texts texts_of) attempts.
Proof.
  unfold newest_first. fold texts_of. induction attempts as [|a l IH]; [done|]. rewrite rev_texts_cons. simpl.
  by rewrite rev_app_distr, map_app, concat_app, IH.
Qed.

Lemma fit_length budget l l' : fit budget l l' → length l' = length l.
Proof. induction 1; simpl; [done|congruence|by rewrite length_replicate]. Qed.

Lemma fit_bounded budget l l' : fit budget l l' → sum_N (map len l') ≤ budget.
Proof.
  induction 1 as [|budget x l l' Hx Hf IH|budget x y l Hx (_ & _ & Hy & _)]; simpl; [lia..|].
  enough (sum_N (map len (replicate (length l) "")) = 0) as -> by lia.
  clear. induction l as [|z l IH]; [done|]. simpl. by rewrite IH.
Qed.

Lemma fit_utf8 budget l l' : fit budget l l' → Forall utf8 l → Forall utf8 l'.
Proof.
  induction 1 as [|budget x l l' Hx Hf IH|budget x y l Hx (_ & Hy & _)]; intros Hl; [done| |].
  - apply Forall_cons in Hl as [??]. by constructor; auto.
  - constructor; [done|]. apply Forall_replicate. constructor.
Qed.

(** C26: cutting the diagnostics of a snapshot never panics and keeps its shape; every
    text stays valid UTF-8, all of them together fit the budget, and the budget is
    spent on the newest texts first: they are kept whole while they fit, then the
    longest tail of whole characters of one text is, then nothing. *)
Theorem diagnostics_fit_budget attempts : Forall utf8 (newest_first attempts) →
  ∃ attempts', bound_snapshot_diagnostics attempts = Some attempts' ∧
    map length attempts' = map length attempts ∧
    fit SNAPSHOT_DIAGNOSTIC_BUDGET_BYTES (newest_first attempts) (newest_first attempts') ∧
    sum_N (map len (newest_first attempts')) ≤ SNAPSHOT_DIAGNOSTIC_BUDGET_BYTES ∧
    Forall utf8 (newest_first attempts').
Proof.
  intros Hu. destruct (keep_all_fit _ SNAPSHOT_DIAGNOSTIC_BUDGET_BYTES Hu) as (l' & left & Hk & Hf).
  rewrite newest_first_nested in Hk.
  apply (bound_rev_keep_all (bound_rev bound_invocation) _ (λ a a', length a' = length a))
    in Hk as (attempts' & Hb & Ht & Hs).
  - exists attempts'. rewrite newest_first_nested with (attempts := attempts'), Ht.
    split_and!; [unfold bound_snapshot_diagnostics; by rewrite Hb| |done|by eapply fit_bounded|by eapply fit_utf8].
    clear -Hs. induction Hs; simpl; congruence.
  - clear. intros a b l' b' Ha.
    apply (bound_rev_keep_all bound_invocation _ (λ _ _, True)) in Ha as (a' & ? & ? & Hs).
    + exists a'. split_and!; [done..|]. symmetry. by eapply Forall2_length.
    + clear. intros [out err] b l' b'. unfold texts_of, bound_invocation. simpl.
      destruct (keep_tail_within_budget err b) as [[err' b1]|]; [|done]. simpl.
      destruct (keep_tail_within_budget out b1) as [[out' b2]|]; [|done]. intros [= <- <-]. by eexists.
Qed.

(** ** Reports of the doctor *)
Lemma utf8_take s n : utf8 s → n = 0%nat ∨ starts_char (str_drop n s) = true → utf8 (str_take n s).
Proof.
  intros Hs. revert n. induction Hs as [|c s Hc Hs IH]; intros n Hb; [by destruct n; constructor|].
  destruct (decide (n = 0%nat)) as [->|Hn0]; [constructor|]. destruct Hb as [?|Hb]; [done|].
  destruct (decide (String.length c ≤ n)%nat) as [Hle|Hlt].
  - replace n with (String.length c + (n - String.length c))%nat in * by lia. rewrite str_drop_app_ge in Hb.
    set (m := (n - String.length c)%nat) in *.
    assert (str_take (String.length c + m) (c +:+ s) = c +:+ str_take m s) as ->.
    { clearbody m. clear. induction c as [|a c IH]; [done|]. apply (f_equal (String a)), IH. }
    constructor; [done|]. apply IH. by right.
  - by rewrite inside_char in Hb by (done || lia).
Qed.

Lemma length_str_take n s : (n ≤ String.length s)%nat → String.length (str_take n s) = n.
Proof. revert s. induction n as [|n IH]; intros [|c s] Hn; simpl in *; [lia..|]. rewrite IH; lia. Qed.

Lemma prev_boundary_spec s fuel i : i ≤ len s → i ≤ N.of_nat fuel →
  ∃ k, prev_boundary fuel s i = Some k ∧ k ≤ i ∧ is_char_boundary s k = true.
Proof.
  revert i. induction fuel as [|fuel IH]; intros i Hi Hf; simpl;
    destruct (is_char_boundary s i) eqn:Hb; try (by exists i; split_and!; [done|lia|done]).
  - assert (i = 0) as -> by lia. by unfold is_char_boundary in Hb.
  - assert (i ≠ 0) as Hi0 by (intros ->; by unfold is_char_boundary in Hb).
    replace (checked_sub i 1) with (Some (i - 1)) by (symmetry; apply checked_sub_Some; lia).
    destruct (IH (i - 1)) as (k & -> & ? & ?); [lia..|]. exists k. split_and!; [done|lia|done].
Qed.

(** A report is cut to whole characters within its limit, without a panic. *)
Lemma bounded_doctor_text_spec s max : utf8 s →
  ∃ t, bounded_doctor_text s max = Some t ∧ utf8 t ∧ len t ≤ max ∧ ∃ r, s = t +:+ r.
Proof.
  intros Hs. unfold bounded_doctor_text. case_bool_decide as Hl.
  { exists s. split_and!; [done..|exists ""; by rewrite app_nil_s]. }
  destruct (prev_boundary_spec s (N.to_nat max) max) as (k & -> & Hk & Hb); [lia..|]. simpl.
  unfold truncate. rewrite bool_decide_eq_false_2, Hb by lia. exists (str_take (N.to_nat k) s).
  rewrite is_char_boundary_spec in Hb by lia. split_and!; [done| |unfold len in *; rewrite length_str_take by lia; lia|].
  - apply utf8_take; [done|]. apply orb_true_iff in Hb as [Hb|]; [|by right].
    apply bool_decide_eq_true in Hb as ->. by left.
  - exists (str_drop (N.to_nat k) s). by rewrite str_take_drop.
Qed.

Example cut_between_characters : keep_tail_within_budget "aéé" 3 = Some ("é", 0).
Proof. reflexivity. Qed.

Lemma diagnostics_fit_budget_witness :
  ∃ attempts', bound_snapshot_diagnostics [[{| tl_stdout_tail := "é"; tl_stderr_tail := "ab" |}]] = Some attempts' ∧
    sum_N (map len (newest_first attempts')) ≤ SNAPSHOT_DIAGNOSTIC_BUDGET_BYTES.
Proof.
  destruct (diagnostics_fit_budget [[{| tl_stdout_tail := "é"; tl_stderr_tail := "ab" |}]]) as (l & Hl & _ & _ & Hs & _).
  - repeat constructor; [apply (utf8_cons "a" "b"), (utf8_cons "b" "")|apply (utf8_cons "é" "")];
      reflexivity || constructor.
  - by exists l.
Defined.
