(* ===== verification/Frames.v ===== *)
(** * Frames: length-prefixed messages and the bridge of an attached manager

    [write_frame] and [read_frame] of [src/src/protocol.rs] (clients of the daemon)
    and of [src/src/machine.rs] (attached managers), over a stream of bytes, and the
    loop [serve] of [src/src/machine/bridge.rs], which carries the second kind of
    frames.  The JSON codec of a message is a parameter.  A writer is the bytes
    written so far; failures of the transport itself are left out. *)
From Stdlib Require Strings.Byte.
From S2P Require Import Prelude Machine Text.

Notation byte := Byte.byte.

(** ** Bytes *)
(** [n as u8] *)
Definition byte_of (n : N) : byte := default Byte.x00 (Byte.of_N (n mod 256)).
(** [n as u32] *)
Definition as_u32 (n : N) : N := n mod 4294967296.
(** [u32::to_le_bytes], [u32::from_le_bytes] *)
Definition to_le_bytes (n : N) : list byte :=
  [byte_of n; byte_of (n / 256); byte_of (n / 65536); byte_of (n / 16777216)].
Definition from_le_bytes (l : list byte) : N := foldr (λ b n, Byte.to_N b + 256 * n) 0 l.

Definition byte_len (l : list byte) : N := N.of_nat (length l).

(** [std::io::Error] by its kind. *)
Inductive IoError := UnexpectedEof | InvalidData (message : string) | OtherError (message : string).

(** [Read::read_exact]: the bytes and the rest of the stream. *)
Definition read_exact (n : N) (input : list byte) : result IoError (list byte * list byte) :=
  if bool_decide (n ≤ byte_len input) then Ok (take (N.to_nat n) input, drop (N.to_nat n) input)
  else Err UnexpectedEof.

(** Errors of [serde_json] that are not I/O errors, and their conversions to I/O
    errors: [std::io::Error::other] and [From<serde_json::Error>]. *)
Inductive JsonError := JsonData (text : string) | JsonEof (text : string).
Definition io_other {A} (r : result JsonError A) : result IoError A :=
  match r with Ok a => Ok a | Err (JsonData e | JsonEof e) => Err (OtherError e) end.
Definition io_from {A} (r : result JsonError A) : result IoError A :=
  match r with Ok a => Ok a | Err (JsonData e) => Err (InvalidData e) | Err (JsonEof _) => Err UnexpectedEof end.

(** ** Frames of the local protocol *)
Definition LOCAL_MAX_FRAME_BYTES : N := 16 * 1024 * 1024.

Section codec.
Context {T : Type}.
(* [serde_json::to_vec], [serde_json::from_slice]; [serde_json::to_writer] writes the
   text in chunks. *)
Context (to_vec : T → result JsonError (list byte)) (to_chunks : T → result JsonError (list (list byte)))
  (from_slice : list byte → result JsonError T).

Definition write_local_frame (out : list byte) (value : T) : result IoError (list byte) :=
  bytes ← io_other (to_vec value);
  _ ← guard_err (bool_decide (LOCAL_MAX_FRAME_BYTES < byte_len bytes)) (InvalidData "local protocol frame exceeds 16 MiB");
  Ok (out ++ to_le_bytes (as_u32 (byte_len bytes)) ++ bytes).

Definition read_local_frame (input : list byte) : result IoError (T * list byte) :=
  '(prefix, input) ← read_exact 4 input;
  let length := from_le_bytes prefix in
  _ ← guard_err (bool_decide (LOCAL_MAX_FRAME_BYTES < length)) (InvalidData "local protocol frame exceeds 16 MiB");
  '(bytes, input) ← read_exact length input;
  value ← io_other (from_slice bytes);
  Ok (value, input).

(** ** Frames of the coordination protocol *)
(** [Bounded::write] *)
Definition bounded_write (buffer chunk : list byte) : result IoError (list byte) :=
  _ ← guard_err (bool_decide (saturating_sub MAX_FRAME_BYTES (byte_len buffer) < byte_len chunk))
        (InvalidData "machine frame exceeds length bounds");
  Ok (buffer ++ chunk).

Definition write_frame (out : list byte) (value : T) : result IoError (list byte) :=
  chunks ← io_from (to_chunks value);
  encoded ← result_foldM bounded_write [] chunks;
  Ok (out ++ to_le_bytes (as_u32 (byte_len encoded)) ++ encoded).

Definition read_frame (input : list byte) : result IoError (T * list byte) :=
  '(prefix, input) ← read_exact 4 input;
  let length := from_le_bytes prefix in
  _ ← guard_err (bool_decide (length = 0) || bool_decide (MAX_FRAME_BYTES < length))
        (InvalidData "machine frame exceeds length bounds");
  '(body, input) ← read_exact length input;
  value ← io_from (from_slice body);
  Ok (value, input).

(** Writing and reading several values. *)
Definition write_all (write : list byte → T → result IoError (list byte)) (l : list T) : result IoError (list byte) :=
  result_foldM write [] l.
Fixpoint read_all (read : list byte → result IoError (T * list byte)) (n : nat) (input : list byte)
    : result IoError (list T * list byte) :=
  match n with
  | O => Ok ([], input)
  | S n =>
      '(value, input) ← read input;
      '(l, input) ← read_all read n input;
      Ok (value :: l, input)
  end.
End codec.

(** ** The bridge *)
Definition BRIDGE_VERSION : N := 1.
Definition PROTOCOL_VERSION : N := 25.

Record BridgeRequest (C : Type) := {
  bq_version : N;
  bq_protocol_version : N;
  bq_request_id : Uuid;
  bq_deadline_millis : N;
  bq_command : C;
}.
Arguments bq_version {C}. Arguments bq_protocol_version {C}. Arguments bq_request_id {C}.
Arguments bq_deadline_millis {C}. Arguments bq_command {C}.

(** [BridgeOutcome]: the answers to commands are opaque to the bridge. *)
Inductive BridgeOutcome (A : Type) := BridgeAnswer (a : A) | BridgeFailure (code detail : string).
Arguments BridgeAnswer {A}. Arguments BridgeFailure {A}.

Record BridgeReply (A : Type) := {
  bp_version : N;
  bp_protocol_version : N;
  bp_request_id : Uuid;
  bp_outcome : BridgeOutcome A;
}.

(** The errors of a client the bridge tells apart; [text] is its [Display]. *)
Inductive ClientError :=
| ClientRejected (code text : string) | ClientDeadlineElapsed (text : string) | ClientOther (text : string).
Definition client_error_text (e : ClientError) : string :=
  match e with ClientRejected _ text | ClientDeadlineElapsed text | ClientOther text => text end.

Section bridge.
Context {C A S : Type}.
Context (request_of : list byte → result JsonError (BridgeRequest C))
  (reply_chunks : BridgeReply A → result JsonError (list (list byte))).
(* the coordinator behind the bridge: a command and its deadline *)
Context (exchange : S → C → N → S * result ClientError A).

Definition unsupported (r : BridgeRequest C) : bool :=
  bool_decide (bq_version r ≠ BRIDGE_VERSION) || bool_decide (bq_protocol_version r ≠ PROTOCOL_VERSION)
  || uuid_is_nil (bq_request_id r) || negb (bool_decide (1 ≤ bq_deadline_millis r ≤ 30000)).

Definition bridge_outcome (r : result ClientError A) : BridgeOutcome A :=
  match r with
  | Ok a => BridgeAnswer a
  | Err e => BridgeFailure
      (match e with
       | ClientRejected code _ => code
       | ClientDeadlineElapsed _ => "deadline_elapsed"
       | ClientOther _ => "bridge_unavailable" end)
      (take_chars 4096 (client_error_text e))
  end.

(** One exchange: the state of the coordinator and the reply. *)
Definition answer (s : S) (r : BridgeRequest C) : S * BridgeReply A :=
  let '(s, outcome) := exchange s (bq_command r) (bq_deadline_millis r) in
  (s, {| bp_version := BRIDGE_VERSION; bp_protocol_version := PROTOCOL_VERSION;
         bp_request_id := bq_request_id r; bp_outcome := bridge_outcome outcome |}).

(** How the loop ends, what it wrote and the state it left. *)
Definition Served : Type := result IoError unit * list byte * S.

(** [serve]: the first byte is read apart, to tell the end of the stream from a
    partial frame.  Every round consumes input, so that its length is fuel enough. *)
Fixpoint serve_loop (fuel : nat) (input out : list byte) (s : S) : option Served :=
  match input, fuel with
  | [], _ => Some (Ok tt, out, s)
  | _, O => None
  | _, Datatypes.S fuel =>
      match read_frame request_of input with
      | Err e => Some (Err e, out, s)
      | Ok (request, rest) =>
          if unsupported request
          then Some (Err (InvalidData "unsupported or invalid bridge frame"), out, s)
          else
            let '(s, reply) := answer s request in
            match write_frame reply_chunks out reply with
            | Err e => Some (Err e, out, s)
            | Ok out => serve_loop fuel rest out s
            end
      end
  end.
Definition serve (input out : list byte) (s : S) : option Served := serve_loop (length input) input out s.

(** The exchanges of a list of requests, one after the other. *)
Fixpoint answers (s : S) (l : list (BridgeRequest C)) : S * list (BridgeReply A) :=
  match l with
  | [] => (s, [])
  | r :: l => let '(s, reply) := answer s r in let '(s, replies) := answers s l in (s, reply :: replies)
  end.
End bridge.

(** ** Bytes *)
Lemma to_N_byte_of n : Byte.to_N (byte_of n) = n mod 256.
Proof.
  unfold byte_of. destruct (Byte.of_N (n mod 256)) as [b|] eqn:E; simpl.
  - by apply Byte.to_of_N in E.
  - apply Byte.of_N_None_iff in E. pose proof (N.mod_lt n 256). lia.
Qed.

Lemma from_to_le_bytes n : n < 4294967296 → from_le_bytes (to_le_bytes n) = n.
Proof.
  intros Hn. unfold from_le_bytes, to_le_bytes. simpl foldr. rewrite !to_N_byte_of.
  zify. Z.to_euclidean_division_equations. lia.
Qed.

Lemma read_exact_app l rest : read_exact (byte_len l) (l ++ rest) = Ok (l, rest).
Proof.
  unfold read_exact, byte_len. rewrite bool_decide_eq_true_2 by (rewrite length_app; lia).
  by rewrite Nat2N.id, take_app_length, drop_app_length.
Qed.

Lemma read_exact_short n input : byte_len input < n → read_exact n input = Err UnexpectedEof.
Proof. intros H. unfold read_exact. by rewrite bool_decide_eq_false_2 by lia. Qed.

Lemma read_exact_Ok n input l rest : read_exact n input = Ok (l, rest) → input = l ++ rest ∧ byte_len l = n.
Proof.
  unfold read_exact. case_bool_decide as Hn; [|done]. intros [= <- <-]. rewrite take_drop. split; [done|].
  unfold byte_len in *. rewrite length_take. lia.
Qed.

#[global] Arguments to_le_bytes : simpl never.
#[global] Arguments from_le_bytes : simpl never.

(** ** One frame *)
(** [read] takes exactly the bytes [f] for [value], and no fewer. *)
Definition framed {T} (read : list byte → result IoError (T * list byte)) (f : list byte) (value : T) : Prop :=
  (∀ rest, read (f ++ rest) = Ok (value, rest)) ∧
  (∀ p q, f = p ++ q → q ≠ [] → read p = Err UnexpectedEof).

(** The prefix of a frame is complete, or the stream ends before the body does. *)
Lemma read_prefixed bytes p q : to_le_bytes (byte_len bytes) ++ bytes = p ++ q → q ≠ [] →
  read_exact 4 p = Err UnexpectedEof ∨
  ∃ p', read_exact 4 p = Ok (to_le_bytes (byte_len bytes), p') ∧ read_exact (byte_len bytes) p' = Err UnexpectedEof.
Proof.
  intros He Hq. destruct (decide (byte_len p < 4)) as [Hlt|Hge]; [left; by apply read_exact_short|]. right.
  assert (∃ p', p = to_le_bytes (byte_len bytes) ++ p' ∧ bytes = p' ++ q) as (p' & -> & Hb).
  { exists (drop 4 p). assert (take 4 p = to_le_bytes (byte_len bytes)) as Ht.
    { rewrite <-(take_app_le p q 4) by (unfold byte_len in Hge; lia). by rewrite <-He. }
    split; [by rewrite <-Ht, take_drop|]. rewrite <-(drop_app_le p q 4) by (unfold byte_len in Hge; lia).
    by rewrite <-He. }
  exists p'. split; [apply (read_exact_app (to_le_bytes _))|]. apply read_exact_short. rewrite Hb at 1.
  unfold byte_len. rewrite length_app. destruct q; [done|]. simpl. lia.
Qed.

Lemma as_u32_small n max : n ≤ max → max < 4294967296 → as_u32 n = n ∧ from_le_bytes (to_le_bytes n) = n.
Proof. intros Hn Hm. split; [apply N.mod_small; lia|apply from_to_le_bytes; lia]. Qed.

Section codec_facts.
Context {T : Type} (to_vec : T → result JsonError (list byte))
  (to_chunks : T → result JsonError (list (list byte))) (from_slice : list byte → result JsonError T).

(** What [serde_json] documents for the messages: a value is read back from its
    text, whatever chunks it is written in, and no text is empty. *)
Definition reads_back : Prop := ∀ v bytes, to_vec v = Ok bytes → from_slice bytes = Ok v.
Definition reads_chunks_back : Prop :=
  ∀ v chunks, to_chunks v = Ok chunks → concat chunks ≠ [] ∧ from_slice (concat chunks) = Ok v.

Lemma local_framed out v out' : reads_back → write_local_frame to_vec out v = Ok out' →
  ∃ f, out' = out ++ f ∧ framed (read_local_frame from_slice) f v.
Proof.
  intros Hrb. unfold write_local_frame, io_other. destruct (to_vec v) as [bytes|[]] eqn:Hv; try done. simpl.
  intros H. result_inv. apply bool_decide_eq_false, N.nlt_ge in Hguard.
  destruct (as_u32_small _ _ Hguard) as [Hu Hle]; [done|]. rewrite Hu. exists (to_le_bytes (byte_len bytes) ++ bytes). split; [done|].
  unfold read_local_frame. split.
  - intros rest. rewrite <-app_assoc. change 4 with (byte_len (to_le_bytes (byte_len bytes))) at 1.
    rewrite read_exact_app. simpl. rewrite Hle, bool_decide_eq_false_2 by lia. simpl.
    rewrite read_exact_app. simpl. by rewrite (Hrb _ _ Hv).
  - intros p q He Hq. destruct (read_prefixed _ _ _ He Hq) as [->|(p' & -> & Hp')]; [done|]. simpl.
    rewrite Hle, bool_decide_eq_false_2 by lia. simpl. by rewrite Hp'.
Qed.

Lemma bounded_writes chunks buffer encoded : result_foldM bounded_write buffer chunks = Ok encoded →
  byte_len buffer ≤ MAX_FRAME_BYTES → encoded = buffer ++ concat chunks ∧ byte_len encoded ≤ MAX_FRAME_BYTES.
Proof.
  revert buffer. induction chunks as [|c chunks IH]; intros buffer; simpl.
  { intros [= <-] ?. by rewrite app_nil_r. }
  intros H Hb. result_inv. unfold bounded_write in Hstep. result_inv. apply bool_decide_eq_false in Hguard.
  destruct (IH _ H) as [-> Hl].
  { unfold saturating_sub, byte_len in *. rewrite length_app. lia. }
  by rewrite app_assoc.
Qed.

Lemma machine_framed out v out' : reads_chunks_back → write_frame to_chunks out v = Ok out' →
  ∃ f, out' = out ++ f ∧ framed (read_frame from_slice) f v.
Proof.
  intros Hrb. unfold write_frame, io_from. destruct (to_chunks v) as [chunks|[]] eqn:Hv; try done. simpl.
  intros H. result_inv. apply bounded_writes in Hstep as [-> Hl]; [|done]. simpl in *.
  destruct (Hrb _ _ Hv) as [Hne Hback]. set (bytes := concat chunks) in *.
  destruct (as_u32_small _ _ Hl) as [Hu Hle]; [done|]. rewrite Hu. exists (to_le_bytes (byte_len bytes) ++ bytes). split; [done|].
  assert (byte_len bytes ≠ 0) as Hn0 by (unfold byte_len; destruct bytes; simpl; [done|lia]).
  unfold read_frame. split.
  - intros rest. rewrite <-app_assoc. change 4 with (byte_len (to_le_bytes (byte_len bytes))) at 1.
    rewrite read_exact_app. simpl. rewrite Hle, (bool_decide_eq_false_2 (_ = 0)), bool_decide_eq_false_2 by (lia || done).
    simpl. rewrite read_exact_app. simpl. by rewrite Hback.
  - intros p q He Hq. destruct (read_prefixed _ _ _ He Hq) as [->|(p' & -> & Hp')]; [done|]. simpl.
    rewrite Hle, (bool_decide_eq_false_2 (_ = 0)), bool_decide_eq_false_2 by (lia || done). simpl. by rewrite Hp'.
Qed.

(** ** Streams of frames *)
Lemma write_all_framed write read : (∀ out v out', write out v = Ok out' → ∃ f, out' = out ++ f ∧ framed read f v) →
  ∀ l out out', result_foldM (E:=IoError) write out l = Ok out' →
  ∃ fs : list (list byte), out' = out ++ concat fs ∧ Forall2 (framed (T:=T) read) fs l.
Proof.
  intros Hw l. induction l as [|v l IH]; intros out out' H; simpl in H.
  { injection H as <-. exists []. by rewrite app_nil_r. }
  result_inv. destruct (Hw _ _ _ Hstep) as (f & -> & Hf). destruct (IH _ _ H) as (fs & -> & Hfs).
  exists (f :: fs). simpl. by rewrite app_assoc; auto.
Qed.

Lemma read_all_framed read fs l rest : Forall2 (framed (T:=T) read) fs l →
  read_all read (length l) (concat fs ++ rest) = Ok (l, rest).
Proof.
  induction 1 as [|f v fs l [Hf _] _ IH]; [done|]. simpl. rewrite <-app_assoc, Hf. simpl. by rewrite IH.
Qed.

Lemma read_all_truncated read fs l p q : Forall2 (framed (T:=T) read) fs l →
  concat fs = p ++ q → q ≠ [] → read_all read (length l) p = Err UnexpectedEof.
Proof.
  intros Hfs. revert p. induction Hfs as [|f v fs l [Hf Ht] _ IH]; intros p He Hq; simpl in *.
  { destruct p, q; done. }
  destruct (decide (length f ≤ length p)%nat) as [Hle|Hgt].
  - assert (p = f ++ drop (length f) p) as Hp.
    { rewrite <-(take_drop (length f) p) at 1. f_equal. rewrite <-(take_app_le p q) by done.
      by rewrite <-He, take_app_length. }
    rewrite Hp, Hf. simpl. rewrite (IH (drop (length f) p)); [done| |done].
    rewrite Hp, <-app_assoc in He. by apply app_inv_head in He.
  - assert (f = p ++ drop (length p) f) as Hfp.
    { rewrite <-(take_drop (length p) f) at 1. f_equal. rewrite <-(take_app_le f (concat fs)) by lia.
      by rewrite He, take_app_length. }
    rewrite (Ht _ _ Hfp); [done|]. intros E. rewrite E, app_nil_r in Hfp. subst f. lia.
Qed.
End codec_facts.

(** C25: the messages written to a connection are read back, in order and without the
    bytes that follow them, in the local protocol and in the coordination protocol,
    however the encoder cuts a message into chunks. *)
Theorem frames_read_back {T} (to_vec : T → result JsonError (list byte)) to_chunks from_slice l out rest :
  reads_back to_vec from_slice → reads_chunks_back to_chunks from_slice →
  (write_all (write_local_frame to_vec) l = Ok out →
   read_all (read_local_frame from_slice) (length l) (out ++ rest) = Ok (l, rest)) ∧
  (write_all (write_frame to_chunks) l = Ok out →
   read_all (read_frame from_slice) (length l) (out ++ rest) = Ok (l, rest)).
Proof.
  intros Hv Hc. split; intros Hw.
  - eapply write_all_framed in Hw as (fs & -> & Hfs); [|intros; by eapply local_framed]. by apply read_all_framed.
  - eapply write_all_framed in Hw as (fs & -> & Hfs); [|intros; by eapply machine_framed]. by apply read_all_framed.
Qed.

(** C24: every way a frame can be wrong is an error.  A stream that ends early, at any
    byte, is the error of an unexpected end, never a shorter message; a length over
    the limit (or zero, for managers) is refused before any of the body is read, and
    a message that is too long is not written. *)
Theorem bad_frames_are_errors {T} (to_vec : T → result JsonError (list byte)) to_chunks from_slice :
  reads_back to_vec from_slice → reads_chunks_back to_chunks from_slice →
  (∀ l p q, q ≠ [] → write_all (write_local_frame to_vec) l = Ok (p ++ q) →
     read_all (read_local_frame from_slice) (length l) p = Err UnexpectedEof) ∧
  (∀ l p q, q ≠ [] → write_all (write_frame to_chunks) l = Ok (p ++ q) →
     read_all (read_frame from_slice) (length l) p = Err UnexpectedEof) ∧
  (∀ n body, LOCAL_MAX_FRAME_BYTES < n ≤ u32_max →
     read_local_frame from_slice (to_le_bytes n ++ body) = Err (InvalidData "local protocol frame exceeds 16 MiB")) ∧
  (∀ n body, n = 0 ∨ MAX_FRAME_BYTES < n ≤ u32_max →
     read_frame from_slice (to_le_bytes n ++ body) = Err (InvalidData "machine frame exceeds length bounds")) ∧
  (∀ out v bytes, to_vec v = Ok bytes → LOCAL_MAX_FRAME_BYTES < byte_len bytes →
     write_local_frame to_vec out v = Err (InvalidData "local protocol frame exceeds 16 MiB")) ∧
  (∀ out v chunks, to_chunks v = Ok chunks → MAX_FRAME_BYTES < byte_len (concat chunks) →
     ∃ e, write_frame to_chunks out v = Err e).
Proof.
  intros Hv Hc. split_and!.
  - intros l p q Hq Hw. eapply write_all_framed in Hw as (fs & He & Hfs); [|intros; by eapply local_framed].
    by eapply read_all_truncated.
  - intros l p q Hq Hw. eapply write_all_framed in Hw as (fs & He & Hfs); [|intros; by eapply machine_framed].
    by eapply read_all_truncated.
  - intros n body Hn. unfold read_local_frame. change 4 with (byte_len (to_le_bytes n)).
    rewrite read_exact_app. simpl. unfold u32_max in Hn. by rewrite from_to_le_bytes, bool_decide_eq_true_2 by lia.
  - intros n body Hn. unfold read_frame. change 4 with (byte_len (to_le_bytes n)). unfold u32_max in Hn.
    rewrite read_exact_app. simpl. rewrite from_to_le_bytes by lia. destruct Hn as [->|Hn]; [done|].
    by rewrite (bool_decide_eq_true_2 (MAX_FRAME_BYTES < n)), orb_true_r by lia.
  - intros out v bytes Hb Hl. unfold write_local_frame, io_other. by rewrite Hb; simpl; rewrite bool_decide_eq_true_2.
  - intros out v chunks Hch Hl. unfold write_frame, io_from. rewrite Hch. simpl.
    destruct (result_foldM bounded_write [] chunks) as [encoded|e] eqn:E; [|by exists e].
    apply bounded_writes in E as [-> Hle]; [|done]. simpl in Hle. lia.
Qed.

(** ** The loop of the bridge *)
Section bridge_facts.
Context {C A S : Type}.
Context (request_chunks : BridgeRequest C → result JsonError (list (list byte)))
  (request_of : list byte → result JsonError (BridgeRequest C))
  (reply_chunks : BridgeReply A → result JsonError (list (list byte)))
  (exchange : S → C → N → S * result ClientError A).
Local Notation loop := (serve_loop request_of reply_chunks exchange).
Local Notation bridge := (serve request_of reply_chunks exchange).
Implicit Types (s : S) (input out rest : list byte).

Lemma read_frame_consumes input r rest : read_frame request_of input = Ok (r, rest) → (length rest < length input)%nat.
Proof.
  unfold read_frame. intros H. result_inv. destruct a as [prefix input']. result_inv. destruct a as [body input''].
  result_inv. apply read_exact_Ok in Hstep as [-> Hp], Hstep0 as [-> _]. simplify_eq.
  unfold byte_len in Hp. rewrite !length_app. lia.
Qed.

(** The length of the input is fuel enough, and more fuel changes nothing. *)
Lemma serve_loop_total fuel input out s : (length input ≤ fuel)%nat → is_Some (loop fuel input out s).
Proof.
  revert input out s. induction fuel as [|fuel IH]; intros input out s Hf.
  { destruct input; [by eexists|simpl in Hf; lia]. }
  destruct input as [|b input]; [by eexists|]. simpl loop. set (l := b :: input) in *.
  destruct (read_frame request_of l) as [[r rest]|e] eqn:Hr; [|by eexists]. apply read_frame_consumes in Hr.
  destruct (unsupported r); [by eexists|]. destruct (answer exchange s r) as [s1 reply].
  destruct (write_frame reply_chunks out reply) as [out1|e]; [|by eexists]. apply IH. lia.
Qed.

Lemma serve_loop_fuel fuel fuel' input out s : (length input ≤ fuel)%nat → (length input ≤ fuel')%nat →
  loop fuel input out s = loop fuel' input out s.
Proof.
  revert fuel' input out s. induction fuel as [|fuel IH]; intros [|fuel'] [|b input] out s H H'; try done;
    simpl in H, H'; try lia. simpl loop. set (l := b :: input) in *.
  destruct (read_frame request_of l) as [[r rest]|e] eqn:Hr; [|done]. apply read_frame_consumes in Hr. simpl in Hr.
  destruct (unsupported r); [done|]. destruct (answer exchange s r) as [s1 reply].
  destruct (write_frame reply_chunks out reply) as [out1|e]; [|done]. apply IH; lia.
Qed.

(** One round. *)
Lemma serve_round f r rest out out1 s s1 reply : framed (read_frame request_of) f r → f ≠ [] → unsupported r = false →
  answer exchange s r = (s1, reply) → write_frame reply_chunks out reply = Ok out1 →
  bridge (f ++ rest) out s = bridge rest out1 s1.
Proof.
  intros [Hf _] Hne Hok Ha Hw. unfold serve. destruct (f ++ rest) as [|b l] eqn:E.
  { by apply app_eq_nil in E as [-> _]. }
  pose proof (Hf rest) as Hread. rewrite E in Hread. simpl loop. rewrite Hread, Hok, Ha, Hw.
  apply serve_loop_fuel; [|done].
  apply (f_equal length) in E. rewrite length_app in E. simpl in E. destruct f; [done|]. simpl in E. lia.
Qed.

Lemma framed_nonempty f r : framed (read_frame request_of) f r → f ≠ [].
Proof. intros [Hf _] ->. specialize (Hf []). by rewrite app_nil_l in Hf. Qed.

Lemma serve_frames fs rs rest out out' s s' replies : Forall2 (framed (read_frame request_of)) fs rs →
  Forall (λ r, unsupported r = false) rs → answers exchange s rs = (s', replies) →
  result_foldM (write_frame reply_chunks) out replies = Ok out' →
  bridge (concat fs ++ rest) out s = bridge rest out' s' ∧ map (bp_request_id _) replies = map bq_request_id rs.
Proof.
  intros Hfs. revert out s replies. induction Hfs as [|f r fs rs Hf _ IH]; intros out s replies Hok Ha Hw; simpl in Ha.
  { simplify_eq. simpl in Hw. by simplify_eq. }
  apply Forall_cons in Hok as [Hr Hok]. destruct (answer exchange s r) as [s1 reply] eqn:E1.
  destruct (answers exchange s1 rs) as [s2 l] eqn:E2. simplify_eq. simpl in Hw. result_inv.
  destruct (IH _ _ _ Hok E2 Hw) as [IH1 IH2]. simpl. rewrite <-app_assoc.
  rewrite (serve_round _ _ _ _ _ _ _ _ Hf (framed_nonempty _ _ Hf) Hr E1 Hstep), IH1, IH2. split; [done|].
  f_equal. unfold answer in E1. destruct (exchange s (bq_command r) (bq_deadline_millis r)). by simplify_eq.
Qed.

(** C23: the bridge returns on every stream.  It passes the requests of a stream to the
    coordinator one at a time and in order, writes for each exactly the reply with
    its request identity, and ends well at the end of the stream; a partial, malformed
    or unsupported frame ends it with an error and is never passed on. *)
Theorem bridge_answers_in_order rs stream rest out out' s s' replies :
  reads_chunks_back request_chunks request_of →
  write_all (write_frame request_chunks) rs = Ok stream → Forall (λ r, unsupported r = false) rs →
  answers exchange s rs = (s', replies) → result_foldM (write_frame reply_chunks) out replies = Ok out' →
  is_Some (bridge (stream ++ rest) out s) ∧
  map (bp_request_id _) replies = map bq_request_id rs ∧
  (rest = [] → bridge (stream ++ rest) out s = Some (Ok tt, out', s')) ∧
  (∀ e, rest ≠ [] → read_frame request_of rest = Err e → bridge (stream ++ rest) out s = Some (Err e, out', s')) ∧
  (∀ r more, read_frame request_of rest = Ok (r, more) → unsupported r = true →
     bridge (stream ++ rest) out s
     = Some (Err (InvalidData "unsupported or invalid bridge frame"), out', s')).
Proof.
  intros Hrb Hw Hok Ha Hr. eapply write_all_framed in Hw as (fs & -> & Hfs); [|intros; by eapply machine_framed].
  simpl. destruct (serve_frames _ _ rest _ _ _ _ _ Hfs Hok Ha Hr) as [-> Hids]. unfold serve.
  split_and!; [by apply serve_loop_total|done|by intros ->|..].
  - intros e Hne He. destruct rest as [|b rest]; [done|]. simpl loop. by rewrite He.
  - intros r more He Hu. destruct rest as [|b rest]; [done|]. simpl loop. by rewrite He, Hu.
Qed.
End bridge_facts.

(** ** A run *)
Module FramesDemo.
Definition text (b : bool) : list byte := if b then [Byte.x74; Byte.x0a] else [Byte.x66].
Definition parse (l : list byte) : result JsonError bool :=
  match l with
  | [Byte.x74; Byte.x0a] => Ok true
  | [Byte.x66] => Ok false
  | _ => Err (JsonData "expected value")
  end.
Definition to_vec (b : bool) : result JsonError (list byte) := Ok (text b).
Definition to_chunks (b : bool) : result JsonError (list (list byte)) := Ok (map (λ x, [x]) (text b)).

Lemma parse_text : reads_back to_vec parse ∧ reads_chunks_back to_chunks parse.
Proof. split; intros b x H; unfold to_vec, to_chunks in H; simplify_eq; by destruct b. Qed.

(** Requests as five bytes. *)
Definition request_bytes (r : BridgeRequest bool) : list N :=
  [bq_version r; bq_protocol_version r; bq_request_id r; bq_deadline_millis r; if bq_command r then 1 else 0].
Definition request_chunks (r : BridgeRequest bool) : result JsonError (list (list byte)) :=
  if forallb (λ n, n <? 256) (request_bytes r) then Ok [map byte_of (request_bytes r)] else Err (JsonData "too large").
Definition request_of (l : list byte) : result JsonError (BridgeRequest bool) :=
  match Byte.to_N <$> l with
  | [v; p; i; d; c] => Ok {| bq_version := v; bq_protocol_version := p; bq_request_id := i;
                            bq_deadline_millis := d; bq_command := bool_decide (c = 1) |}
  | _ => Err (JsonEof "end of input")
  end.
Definition reply_chunks (r : BridgeReply bool) : result JsonError (list (list byte)) :=
  Ok [[byte_of (bp_request_id _ r)]; match bp_outcome _ r with BridgeAnswer _ => [Byte.x01] | _ => [] end].
(** A coordinator that records the commands and rejects one of them. *)
Definition exchange (s : list bool) (c : bool) (deadline : N) : list bool * result ClientError bool :=
  (c :: s, if c then Ok c else Err (ClientRejected "refused" "refused command")).
Definition request (i : N) (c : bool) : BridgeRequest bool :=
  {| bq_version := 1; bq_protocol_version := 25; bq_request_id := i; bq_deadline_millis := 100; bq_command := c |}.

Lemma request_reads_back : reads_chunks_back request_chunks request_of.
Proof.
  intros [v p i d c] chunks. unfold request_chunks, request_of. simpl.
  destruct (v <? 256) eqn:Hv, (p <? 256) eqn:Hp, (i <? 256) eqn:Hi, (d <? 256) eqn:Hd; try done.
  simpl. intros H. destruct c; simpl in H; simplify_eq; (split; [done|]); simpl;
    by rewrite !to_N_byte_of, !N.mod_small by (by apply N.ltb_lt).
Qed.

Lemma frames_read_back_witness :
  read_all (read_frame parse) 2 (unwrap_or [] (write_all (write_frame to_chunks) [true; false]) ++ [Byte.xff])
  = Ok ([true; false], [Byte.xff]).
Proof.
  apply (frames_read_back to_vec to_chunks parse [true; false] _ [Byte.xff]); [apply parse_text..|reflexivity].
Defined.

Lemma bad_frames_are_errors_witness :
  read_all (read_local_frame parse) 1 [Byte.x02; Byte.x00; Byte.x00; Byte.x00; Byte.x74] = Err UnexpectedEof.
Proof.
  destruct (bad_frames_are_errors to_vec to_chunks parse) as [H _]; [apply parse_text..|].
  apply (H [true] _ [Byte.x0a]); [done|reflexivity].
Defined.

Lemma bridge_answers_in_order_witness :
  serve request_of reply_chunks exchange
    (unwrap_or [] (write_all (write_frame request_chunks) [request 7 true; request 8 false]) ++ [Byte.x05]) [] []
  = Some (Err UnexpectedEof, unwrap_or [] (result_foldM (write_frame reply_chunks) []
      (answers exchange [] [request 7 true; request 8 false]).2), [false; true]).
Proof.
  destruct (bridge_answers_in_order request_chunks request_of reply_chunks exchange [request 7 true; request 8 false]
    (unwrap_or [] (write_all (write_frame request_chunks) [request 7 true; request 8 false])) [Byte.x05] []
    (unwrap_or [] (result_foldM (write_frame reply_chunks) []
      (answers exchange [] [request 7 true; request 8 false]).2)) [] [false; true]
    (answers exchange [] [request 7 true; request 8 false]).2) as (_ & _ & _ & H & _);
    [exact request_reads_back|reflexivity|by repeat constructor|reflexivity|reflexivity|].
  by apply H.
Defined.
End FramesDemo.
