(* ===== verification/Native.v ===== *)
(** * Native: the tables of native jobs ([create_current_schema] of
    [src/src/store/database.rs])

    Jobs, attempts, admissions, invocations, containments, conditions,
    observations and leases, one record per row.  A column that holds a state name
    holds the state, one that holds JSON holds the value.  A durable identifier is
    its entity UUID: all of them belong to one store.  Event rows and the log
    tails of an invocation are diagnostic and left out. *)
From S2P Require Import Prelude Spec Validate Kernel Scoped Observation Machine MachineStore Reservation.

(** ** States *)
Inductive AttemptState := APlanned | AAdmitting | AStarting | ARunning | ASettled.
#[global] Instance AttemptState_eq_dec : EqDecision AttemptState.
Proof. solve_decision. Defined.
Inductive InvocationState := IPrepared | IStarted | IExited | IResolved.
#[global] Instance InvocationState_eq_dec : EqDecision InvocationState.
Proof. solve_decision. Defined.
Inductive ContainmentState := CCreating | CLive | CEmpty | CUncertain | CCleared.
#[global] Instance ContainmentState_eq_dec : EqDecision ContainmentState.
Proof. solve_decision. Defined.
Inductive ConditionState := CondWaiting | CondSatisfied | CondFailed.
#[global] Instance ConditionState_eq_dec : EqDecision ConditionState.
Proof. solve_decision. Defined.
Inductive LeaseState := LGranted | LReleased.
#[global] Instance LeaseState_eq_dec : EqDecision LeaseState.
Proof. solve_decision. Defined.
#[global] Instance InvocationRole_eq_dec' : EqDecision InvocationRole.
Proof. solve_decision. Defined.
#[global] Instance ConditionDeadlineOutcome_eq_dec' : EqDecision ConditionDeadlineOutcome.
Proof. solve_decision. Defined.
#[global] Instance PathConditionState_eq_dec' : EqDecision PathConditionState.
Proof. solve_decision. Defined.

Inductive AttemptVerdict :=
| VSucceeded | VProcessFailed | VStartFailed | VTimedOut | VInterrupted | VSafetyFailed
| VPostconditionRetryable | VPostconditionFailed | VCanceled.
#[global] Instance AttemptVerdict_eq_dec : EqDecision AttemptVerdict.
Proof. solve_decision. Defined.
Inductive JobOutcome :=
| JSucceeded | JFailed | JTimedOut | JInterrupted | JCanceled | JSkipped.
#[global] Instance JobOutcome_eq_dec : EqDecision JobOutcome.
Proof. solve_decision. Defined.
Inductive ExitClassification := ExitAccepted | ExitRetryable | ExitFailed.
#[global] Instance ExitClassification_eq_dec : EqDecision ExitClassification.
Proof. solve_decision. Defined.

(** [AttemptVerdict::as_str] *)
Definition verdict_str (v : AttemptVerdict) : string :=
  match v with
  | VSucceeded => "succeeded" | VProcessFailed => "process_failed" | VStartFailed => "start_failed"
  | VTimedOut => "timed_out" | VInterrupted => "interrupted" | VSafetyFailed => "safety_failed"
  | VPostconditionRetryable => "postcondition_retryable"
  | VPostconditionFailed => "postcondition_failed" | VCanceled => "canceled"
  end.

Definition outcome_for_verdict (v : AttemptVerdict) : JobOutcome :=
  match v with
  | VSucceeded => JSucceeded
  | VTimedOut => JTimedOut
  | VInterrupted => JInterrupted
  | VCanceled => JCanceled
  | VProcessFailed | VStartFailed | VSafetyFailed | VPostconditionRetryable | VPostconditionFailed => JFailed
  end.

(** ** The result of a primary invocation *)
Inductive InvocationVerdict :=
| PSucceeded | PProcessFailed | PStartFailed | PTimedOut | PInterrupted | PSafetyFailed | PCanceled.
#[global] Instance InvocationVerdict_eq_dec : EqDecision InvocationVerdict.
Proof. solve_decision. Defined.
Inductive TerminationReason :=
| TExited | TStartFailed | TTimeout | TInterrupt | TCancel | TSafetyFailure.
#[global] Instance TerminationReason_eq_dec : EqDecision TerminationReason.
Proof. solve_decision. Defined.

(** [PrimaryInvocationResult] of [src/src/api.rs] *)
Record PrimaryInvocationResult := {
  pr_schema_version : N;
  pr_job_id : Uuid;
  pr_attempt_id : Uuid;
  pr_invocation_id : Uuid;
  pr_verdict : InvocationVerdict;
  pr_root_exit_code : option Z;
  pr_termination : TerminationReason;
  pr_containment : ContainmentState;
  pr_started_unix_millis : option Z;
  pr_exited_unix_millis : option Z;
  pr_resolved_unix_millis : Z;
}.
#[export] Instance PrimaryInvocationResult_eta : Eta PrimaryInvocationResult := λ r,
  {| pr_schema_version := pr_schema_version r; pr_job_id := pr_job_id r;
     pr_attempt_id := pr_attempt_id r; pr_invocation_id := pr_invocation_id r;
     pr_verdict := pr_verdict r; pr_root_exit_code := pr_root_exit_code r;
     pr_termination := pr_termination r; pr_containment := pr_containment r;
     pr_started_unix_millis := pr_started_unix_millis r;
     pr_exited_unix_millis := pr_exited_unix_millis r;
     pr_resolved_unix_millis := pr_resolved_unix_millis r |}.

(** ** Process identities ([ProcessIdentity] of [src/src/api.rs]); the evidence of an
    unknown platform is its JSON text. *)
Inductive ProcessIdentity :=
| LinuxProcess (host_id boot_id : string) (pid start_ticks pid_namespace_inode uid : N)
| WindowsProcess (host_id boot_id : string) (pid creation_filetime_100ns : N)
| UnknownProcess (unknown_platform evidence : string).
#[global] Instance ProcessIdentity_eq_dec : EqDecision ProcessIdentity.
Proof. solve_decision. Defined.

(** ** Rows *)
(** A row of [jobs]. *)
Record Job := {
  nj_state : JobState;
  nj_outcome : option JobOutcome;
  nj_reason_code : option string;
  nj_spec : JobSpec;
  nj_claims : ResolvedClaims;
  nj_stdin_hash : option string;
  nj_stdin_len : option N;
  nj_attempt_id : option Uuid;
  nj_invocation_id : option Uuid;
  nj_containment_id : option Uuid;
  nj_root_exit_code : option Z;
  nj_accepted_ms : Z;
  nj_rowid : Z;
  nj_started_ms : option Z;
  nj_finished_ms : option Z;
  nj_stdout_len : N;
  nj_stderr_len : N;
  nj_cancel_requested : bool;
  nj_retry_not_before_ms : option Z;
  nj_reservation_not_before_ms : option Z;
  nj_batch_member : option string;
  nj_batch_index : option N;
}.
#[export] Instance Job_eta : Eta Job := λ r,
  {| nj_state := nj_state r; nj_outcome := nj_outcome r; nj_reason_code := nj_reason_code r;
     nj_spec := nj_spec r; nj_claims := nj_claims r; nj_stdin_hash := nj_stdin_hash r;
     nj_stdin_len := nj_stdin_len r; nj_attempt_id := nj_attempt_id r;
     nj_invocation_id := nj_invocation_id r; nj_containment_id := nj_containment_id r;
     nj_root_exit_code := nj_root_exit_code r; nj_accepted_ms := nj_accepted_ms r;
     nj_rowid := nj_rowid r; nj_started_ms := nj_started_ms r; nj_finished_ms := nj_finished_ms r;
     nj_stdout_len := nj_stdout_len r; nj_stderr_len := nj_stderr_len r;
     nj_cancel_requested := nj_cancel_requested r; nj_retry_not_before_ms := nj_retry_not_before_ms r;
     nj_reservation_not_before_ms := nj_reservation_not_before_ms r;
     nj_batch_member := nj_batch_member r; nj_batch_index := nj_batch_index r |}.

(** A row of [attempts]. *)
Record Attempt := {
  na_job_id : Uuid;
  na_state : AttemptState;
  na_index : N;
  na_verdict : option AttemptVerdict;
  na_safety_reason : option string;
  na_created_ms : Z;
  na_started_ms : option Z;
  na_deadline_ms : option Z;
  na_finished_ms : option Z;
  na_primary_result : option PrimaryInvocationResult;
}.
#[export] Instance Attempt_eta : Eta Attempt := λ r,
  {| na_job_id := na_job_id r; na_state := na_state r; na_index := na_index r;
     na_verdict := na_verdict r; na_safety_reason := na_safety_reason r;
     na_created_ms := na_created_ms r; na_started_ms := na_started_ms r;
     na_deadline_ms := na_deadline_ms r; na_finished_ms := na_finished_ms r;
     na_primary_result := na_primary_result r |}.

(** A row of [admissions].  The recorded evidence is the context it was made of. *)
Record AdmissionRow := {
  nm_admitting_started_ms : Z;
  nm_wall_deadline_ms : Z;
  nm_quiet_consumed_ms : N;
  nm_last_eval_monotonic_ms : option N;
  nm_last_eval_generation : option string;
  nm_quiet_generation : option string;
  nm_quiet_first_monotonic_ms : option N;
  nm_quiet_last_monotonic_ms : option N;
  nm_deferral_count : N;
  nm_retry_not_before_ms : option Z;
  nm_last_blockers : list Blocker;
  nm_last_evidence : option AdmissionContext;
  nm_reservation_generation : option string;
  nm_reservation_evidence : option AdmissionContext;
  nm_release_evidence : option (option AdmissionContext);   (* the inner [None] is the empty object *)
  nm_pre_resume_defer_reason : option string;
  nm_gpu_uuid : option string;
  nm_gpu_driver_version : option string;
}.
#[export] Instance AdmissionRow_eta : Eta AdmissionRow := λ r,
  {| nm_admitting_started_ms := nm_admitting_started_ms r;
     nm_wall_deadline_ms := nm_wall_deadline_ms r; nm_quiet_consumed_ms := nm_quiet_consumed_ms r;
     nm_last_eval_monotonic_ms := nm_last_eval_monotonic_ms r;
     nm_last_eval_generation := nm_last_eval_generation r;
     nm_quiet_generation := nm_quiet_generation r;
     nm_quiet_first_monotonic_ms := nm_quiet_first_monotonic_ms r;
     nm_quiet_last_monotonic_ms := nm_quiet_last_monotonic_ms r;
     nm_deferral_count := nm_deferral_count r; nm_retry_not_before_ms := nm_retry_not_before_ms r;
     nm_last_blockers := nm_last_blockers r; nm_last_evidence := nm_last_evidence r;
     nm_reservation_generation := nm_reservation_generation r;
     nm_reservation_evidence := nm_reservation_evidence r;
     nm_release_evidence := nm_release_evidence r;
     nm_pre_resume_defer_reason := nm_pre_resume_defer_reason r; nm_gpu_uuid := nm_gpu_uuid r;
     nm_gpu_driver_version := nm_gpu_driver_version r |}.

(** A row of [invocations]. *)
Record Invocation := {
  ni_attempt_id : Uuid;
  ni_role : InvocationRole;
  ni_role_index : Z;
  ni_state : InvocationState;
  ni_root_pid : option N;
  ni_root_host_id : option string;
  ni_root_boot_id : option string;
  ni_root_creation_filetime_100ns : option Z;
  ni_root_identity : option ProcessIdentity;   (* the row of [invocation_process_identities] *)
  ni_root_exit_code : option Z;
  ni_exited_ms : option Z;
  ni_executable_hash : option string;
  ni_daemon_generation : option Uuid;
  ni_postcondition_index : option N;
  ni_condition_id : option Uuid;
  ni_started_ms : option Z;
  ni_finished_ms : option Z;
  ni_exit_classification : option ExitClassification;
  ni_rowid : N;
}.
#[export] Instance Invocation_eta : Eta Invocation := λ r,
  {| ni_attempt_id := ni_attempt_id r; ni_role := ni_role r; ni_role_index := ni_role_index r;
     ni_state := ni_state r; ni_root_pid := ni_root_pid r; ni_root_host_id := ni_root_host_id r;
     ni_root_boot_id := ni_root_boot_id r; ni_root_creation_filetime_100ns := ni_root_creation_filetime_100ns r;
     ni_root_identity := ni_root_identity r;
     ni_root_exit_code := ni_root_exit_code r; ni_exited_ms := ni_exited_ms r;
     ni_executable_hash := ni_executable_hash r; ni_daemon_generation := ni_daemon_generation r;
     ni_postcondition_index := ni_postcondition_index r; ni_condition_id := ni_condition_id r;
     ni_started_ms := ni_started_ms r; ni_finished_ms := ni_finished_ms r;
     ni_exit_classification := ni_exit_classification r; ni_rowid := ni_rowid r |}.

(** A row of [containments]. *)
Record Containment := {
  nt_invocation_id : Uuid;
  nt_state : ContainmentState;
  nt_host_id : option string;
  nt_boot_id : option string;
  nt_daemon_generation : option Uuid;
  nt_version : N;
  nt_incident_sequence : option N;
  nt_reason_code : option string;
  nt_detail : option string;
  nt_opened_ms : option Z;
  nt_retained_claims : option ResourceClaims;
  nt_resolved_ms : option Z;
}.
#[export] Instance Containment_eta : Eta Containment := λ r,
  {| nt_invocation_id := nt_invocation_id r; nt_state := nt_state r; nt_host_id := nt_host_id r;
     nt_boot_id := nt_boot_id r; nt_daemon_generation := nt_daemon_generation r;
     nt_version := nt_version r; nt_incident_sequence := nt_incident_sequence r;
     nt_reason_code := nt_reason_code r; nt_detail := nt_detail r; nt_opened_ms := nt_opened_ms r;
     nt_retained_claims := nt_retained_claims r; nt_resolved_ms := nt_resolved_ms r |}.

(** A row of [conditions]. *)
Record Condition := {
  nc_job_id : Uuid;
  nc_index : N;
  nc_state : ConditionState;
  nc_spec : ConditionSpec;
  nc_deadline_ms : option Z;
  nc_deadline_outcome : ConditionDeadlineOutcome;
  nc_transition_armed : bool;
  nc_next_probe_ms : option Z;
  nc_probe_invocation_id : option Uuid;
}.
#[export] Instance Condition_eta : Eta Condition := λ r,
  {| nc_job_id := nc_job_id r; nc_index := nc_index r; nc_state := nc_state r; nc_spec := nc_spec r;
     nc_deadline_ms := nc_deadline_ms r; nc_deadline_outcome := nc_deadline_outcome r;
     nc_transition_armed := nc_transition_armed r; nc_next_probe_ms := nc_next_probe_ms r;
     nc_probe_invocation_id := nc_probe_invocation_id r |}.

Inductive ConditionObservationSource := SourceFilesystem | SourceClock | SourceProbe | SourceInvalidation.
#[global] Instance ConditionObservationSource_eq_dec : EqDecision ConditionObservationSource.
Proof. solve_decision. Defined.
Inductive ConditionObservationValue :=
| ValuePath (exists_ : bool)
| ValueTime (reached : bool)
| ValueProbe (exit_code : option Z) (timed_out accepted : bool)
| ValueInvalidated (reason : string).

(** A row of [observations]; the table is a list in row order. *)
Record ObservationRow := {
  ob_id : Uuid;
  ob_condition_id : Uuid;
  ob_observed_ms : Z;
  ob_observed_monotonic_ms : N;
  ob_boot_id : option string;
  ob_daemon_generation : Uuid;
  ob_fresh_until_ms : Z;
  ob_source : ConditionObservationSource;
  ob_value : ConditionObservationValue;
}.
#[export] Instance ObservationRow_eta : Eta ObservationRow := λ r,
  {| ob_id := ob_id r; ob_condition_id := ob_condition_id r; ob_observed_ms := ob_observed_ms r;
     ob_observed_monotonic_ms := ob_observed_monotonic_ms r; ob_boot_id := ob_boot_id r;
     ob_daemon_generation := ob_daemon_generation r; ob_fresh_until_ms := ob_fresh_until_ms r;
     ob_source := ob_source r; ob_value := ob_value r |}.

(** A row of [leases]. *)
Record Lease := {
  nl_attempt_id : Uuid;
  nl_invocation_id : option Uuid;
  nl_state : LeaseState;
  nl_claims : ResolvedClaims;
}.
#[export] Instance Lease_eta : Eta Lease := λ r,
  {| nl_attempt_id := nl_attempt_id r; nl_invocation_id := nl_invocation_id r; nl_state := nl_state r;
     nl_claims := nl_claims r |}.

(** The tables: [nv_dependencies] lists predecessor, successor and kind. *)
Record NativeStore := {
  nv_jobs : gmap Uuid Job;
  nv_attempts : gmap Uuid Attempt;
  nv_admissions : gmap Uuid AdmissionRow;
  nv_invocations : gmap Uuid Invocation;
  nv_containments : gmap Uuid Containment;
  nv_conditions : gmap Uuid Condition;
  nv_observations : list ObservationRow;
  nv_leases : gmap Uuid Lease;
  nv_reservations : gmap Uuid ReservationRow;
  nv_dependencies : list (Uuid * Uuid * DependencyKind);
  nv_machine : Tables;
}.
#[export] Instance NativeStore_eta : Eta NativeStore := λ r,
  {| nv_jobs := nv_jobs r; nv_attempts := nv_attempts r; nv_admissions := nv_admissions r;
     nv_invocations := nv_invocations r; nv_containments := nv_containments r;
     nv_conditions := nv_conditions r; nv_observations := nv_observations r; nv_leases := nv_leases r;
     nv_reservations := nv_reservations r; nv_dependencies := nv_dependencies r;
     nv_machine := nv_machine r |}.

(** ** Statements

    [UPDATE t SET … WHERE id = ?1 AND guard] is an [alter] of one row; the guard is
    part of the function. *)
Definition upd_job (key : Uuid) (f : Job → Job) (s : NativeStore) : NativeStore :=
  s <| nv_jobs ::= alter f key |>.
Definition upd_attempt (key : Uuid) (f : Attempt → Attempt) (s : NativeStore) : NativeStore :=
  s <| nv_attempts ::= alter f key |>.
Definition upd_admission (key : Uuid) (f : AdmissionRow → AdmissionRow) (s : NativeStore) : NativeStore :=
  s <| nv_admissions ::= alter f key |>.
Definition upd_invocation (key : Uuid) (f : Invocation → Invocation) (s : NativeStore) : NativeStore :=
  s <| nv_invocations ::= alter f key |>.
Definition upd_containment (key : Uuid) (f : Containment → Containment) (s : NativeStore) : NativeStore :=
  s <| nv_containments ::= alter f key |>.
Definition upd_condition (key : Uuid) (f : Condition → Condition) (s : NativeStore) : NativeStore :=
  s <| nv_conditions ::= alter f key |>.

(** [WHERE guard]: rows the guard rejects keep their columns. *)
Definition where_ {R} (guard : bool) (f : R → R) (r : R) : R := if guard then f r else r.

(** The trigger [jobs_reservation_cleanup]: an [UPDATE] of [state] or
    [cancel_requested] that leaves a row not pending, or canceled, deletes the
    reservation of its job. *)
Definition jobs_reservation_cleanup (key : Uuid) (s : NativeStore) : NativeStore :=
  match nv_jobs s !! key with
  | Some j => if bool_decide (nj_state j ≠ Pending) || nj_cancel_requested j
              then s <| nv_reservations ::= delete key |> else s
  | None => s
  end.

(** An [UPDATE] of the state or of the cancellation of one job, [guard] being the
    rest of its [WHERE]. *)
Definition upd_job_state (key : Uuid) (guard : Job → bool) (f : Job → Job) (s : NativeStore) : NativeStore :=
  match nv_jobs s !! key with
  | Some j => if guard j then jobs_reservation_cleanup key (upd_job key f s) else s
  | None => s
  end.

(** ** Rows in order *)
Definition index_le (p q : Uuid * Condition) : Prop := (nc_index p.2 ≤ nc_index q.2)%N.
#[global] Instance index_le_dec : RelDecision index_le.
Proof. intros p q. unfold index_le. apply _. Defined.

(** [FROM conditions WHERE job_id = ?1 ORDER BY condition_index] *)
Definition conditions_of (s : NativeStore) (job : Uuid) : list (Uuid * Condition) :=
  sort_by index_le (List.filter (λ p, bool_decide (nc_job_id p.2 = job)) (btree_entries (nv_conditions s))).

(** [COALESCE(MAX(attempt_index), 0) + 1 FROM attempts WHERE job_id = ?1] *)
Definition next_attempt_index (s : NativeStore) (job : Uuid) : N :=
  foldr N.max 0 (omap (λ a, if bool_decide (na_job_id a = job) then Some (na_index a) else None)
    (btree_values (nv_attempts s))) + 1.

(** [COALESCE(MAX(role_index), -1) + 1 FROM invocations WHERE attempt_id = ?1] *)
Definition next_role_index (s : NativeStore) (attempt : Uuid) : Z :=
  (foldr Z.max (-1) (omap (λ i, if bool_decide (ni_attempt_id i = attempt) then Some (ni_role_index i) else None)
    (btree_values (nv_invocations s))) + 1)%Z.

(** [SELECT MIN(started_ms) FROM attempts WHERE job_id = ?1 AND started_ms IS NOT NULL] *)
Definition first_start (s : NativeStore) (job : Uuid) : option Z :=
  match omap (λ a, if bool_decide (na_job_id a = job) then na_started_ms a else None)
          (btree_values (nv_attempts s)) with
  | [] => None
  | z :: zs => Some (foldr Z.min z zs)
  end.

(** [COALESCE(MAX(incident_sequence), 0) FROM containments] *)
Definition last_incident (s : NativeStore) : N :=
  foldr N.max 0 (omap nt_incident_sequence (btree_values (nv_containments s))).

Definition is_none {A} (o : option A) : bool := match o with Some _ => false | None => true end.

(** The row id SQLite gives to the next row of [invocations]. *)
Definition next_rowid (s : NativeStore) : N :=
  foldr N.max 0 (ni_rowid <$> btree_values (nv_invocations s)) + 1.

(** [INSERT] of a row: a primary key in use, or a reference to a row that is not
    there, violates a constraint ([PRAGMA foreign_keys = ON]). *)
Definition insert_attempt (key : Uuid) (row : Attempt) (s : NativeStore) : result StoreError NativeStore :=
  _ ← guard_err (bool_decide (is_Some (nv_attempts s !! key)) || is_none (nv_jobs s !! na_job_id row))
        (ESql "constraint of attempts");
  Ok (s <| nv_attempts ::= <[key := row]> |>).
Definition insert_invocation (key : Uuid) (row : Invocation) (s : NativeStore) : result StoreError NativeStore :=
  _ ← guard_err (bool_decide (is_Some (nv_invocations s !! key)) || is_none (nv_attempts s !! ni_attempt_id row))
        (ESql "constraint of invocations");
  Ok (s <| nv_invocations ::= <[key := row]> |>).
Definition insert_containment (key : Uuid) (row : Containment) (s : NativeStore) : result StoreError NativeStore :=
  _ ← guard_err (bool_decide (is_Some (nv_containments s !! key)) || is_none (nv_invocations s !! nt_invocation_id row))
        (ESql "constraint of containments");
  Ok (s <| nv_containments ::= <[key := row]> |>).
Definition insert_lease (key : Uuid) (row : Lease) (s : NativeStore) : result StoreError NativeStore :=
  _ ← guard_err (bool_decide (is_Some (nv_leases s !! key))
                 || is_none (nv_attempts s !! nl_attempt_id row)
                 || match nl_invocation_id row with
                    | Some i => is_none (nv_invocations s !! i) | None => false end)
        (ESql "constraint of leases");
  Ok (s <| nv_leases ::= <[key := row]> |>).

(** [SELECT … FROM t WHERE id = ?1] through [query_row]: no row is an error. *)
Definition get_job (s : NativeStore) (key : Uuid) : result StoreError Job :=
  ok_or (nv_jobs s !! key) (ESql "no rows").
Definition get_attempt (s : NativeStore) (key : Uuid) : result StoreError Attempt :=
  ok_or (nv_attempts s !! key) (ESql "no rows").
Definition get_invocation (s : NativeStore) (key : Uuid) : result StoreError Invocation :=
  ok_or (nv_invocations s !! key) (ESql "no rows").

(** Containments of the invocations of an attempt, with the invocation. *)
Definition containments_of (s : NativeStore) (attempt : Uuid) : list (Uuid * Containment * Invocation) :=
  omap (λ '(key, c),
    i ← nv_invocations s !! nt_invocation_id c;
    if bool_decide (ni_attempt_id i = attempt) then Some (key, c, i) else None)
    (btree_entries (nv_containments s)).

(** ** The tables the reservations and the coordinator see *)
Definition job_row (j : Job) : JobRow :=
  {| jb_state := nj_state j; jb_priority := job_priority (nj_spec j); jb_accepted_ms := nj_accepted_ms j;
     jb_rowid := nj_rowid j; jb_cancel_requested := nj_cancel_requested j;
     jb_reservation_not_before_ms := nj_reservation_not_before_ms j |}.

(** [SELECT claims_json FROM leases WHERE state='granted'] *)
Definition native_debits (s : NativeStore) : list ResolvedClaims :=
  omap (λ l, if decide (nl_state l = LGranted) then Some (nl_claims l) else None) (btree_values (nv_leases s)).

(** [remote_debits] of [machine_queue.rs] *)
Definition grant_debits (t : Tables) : list ResolvedClaims :=
  omap (λ row, if is_outstanding (gr_state row) then Some (gr_physical_claims row) else None)
    (btree_values (tb_grants t)).

Definition active_claims_tx (s : NativeStore) : list ResolvedClaims :=
  native_debits s ++ grant_debits (nv_machine s).

Definition with_leases (leases : list ResolvedClaims) (t : Tables) : Tables :=
  {| tb_domains := tb_domains t; tb_operations := tb_operations t; tb_queue := tb_queue t;
     tb_queue_next := tb_queue_next t; tb_candidates := tb_candidates t; tb_grants := tb_grants t;
     tb_tickets := tb_tickets t; tb_readiness := tb_readiness t; tb_reservations := tb_reservations t;
     tb_reconciles := tb_reconciles t; tb_schedule_ms := tb_schedule_ms t;
     tb_revision := tb_revision t; tb_leases := leases |}.

Definition view (s : NativeStore) : Store :=
  {| so_machine := with_leases (native_debits s) (nv_machine s); so_jobs := job_row <$> nv_jobs s;
     so_reservations := nv_reservations s |}.

(** What an operation on the view changed, written back to the tables. *)
Definition write_back (v : Store) (s : NativeStore) : NativeStore :=
  s <| nv_machine := so_machine v |> <| nv_reservations := so_reservations v |>
    <| nv_jobs ::= map_imap (λ key j, Some (match so_jobs v !! key with
         | Some row => j <| nj_reservation_not_before_ms := jb_reservation_not_before_ms row |>
         | None => j end)) |>.

(** ** An invocation handed to a runner ([PreparedJob]) *)
(** [PreparedJob] of [src/src/store/mod.rs]; log paths are left out. *)
Record PreparedJob := {
  pj_job_id : Uuid;
  pj_attempt_id : Uuid;
  pj_invocation_id : Uuid;
  pj_containment_id : Uuid;
  pj_spec : JobSpec;
  pj_stdin : option (string * N);
  pj_role : InvocationRole;
  pj_condition_id : option Uuid;
  pj_attempt_deadline_unix_millis : option Z;
  pj_primary_result : option PrimaryInvocationResult;
}.
#[export] Instance PreparedJob_eta : Eta PreparedJob := λ r,
  {| pj_job_id := pj_job_id r; pj_attempt_id := pj_attempt_id r;
     pj_invocation_id := pj_invocation_id r; pj_containment_id := pj_containment_id r;
     pj_spec := pj_spec r; pj_stdin := pj_stdin r; pj_role := pj_role r;
     pj_condition_id := pj_condition_id r;
     pj_attempt_deadline_unix_millis := pj_attempt_deadline_unix_millis r;
     pj_primary_result := pj_primary_result r |}.

(** What a store knows about its daemon: configuration, identity of the generation. *)
Record Daemon := {
  dm_config : HostConfig;
  dm_generation : Uuid;
  dm_host_id : option string;
  dm_boot_id : option string;
  dm_capable : bool;   (* [startup_identity.capable()] *)
  dm_authority_blocker : bool;   (* [authority_blocker()?.is_some()] *)
}.
#[export] Instance Daemon_eta : Eta Daemon := λ r,
  {| dm_config := dm_config r; dm_generation := dm_generation r; dm_host_id := dm_host_id r;
     dm_boot_id := dm_boot_id r; dm_capable := dm_capable r;
     dm_authority_blocker := dm_authority_blocker r |}.
