(* ===== verification/ConditionStore.v ===== *)
(** * ConditionStore: readiness conditions of native jobs
      ([src/src/store/condition.rs], [condition_blockers_tx] of
      [src/src/store/schedule.rs])

    Conditions are inserted when a job is accepted, refreshed by rescans of the
    file system and the clock, and probed by processes that run under a lease of
    their own.  What the file system said is an argument ([ConditionEvaluations]),
    as are clocks and fresh identifiers; [oid] gives the identifier of the new
    observation of each condition.  Log tails, log files and their garbage
    collection are left out. *)
From S2P Require Import Prelude Spec Validate Kernel Scoped Observation Machine MachineStore Reservation.
From S2P Require Import Native.

Definition MAX_RETAINED_OBSERVATIONS_PER_CONDITION : nat := 8.
Definition MAX_RETAINED_PROBE_INVOCATIONS_PER_CONDITION : nat := 64.

(** [now.saturating_add(i64::try_from(seconds.saturating_mul(1_000)).unwrap_or(i64::MAX))] *)
Definition after_seconds (now : Z) (seconds : N) : Z := after_millis now (saturating_mul seconds 1000).

(** ** Evaluations taken before the transaction *)
Inductive PathInspection := InspectedPresent (exists_ : bool) | InspectedInvalidated (reason : string).

Record ConditionEvaluations := {
  ce_observed_ms : Z;
  ce_observed_monotonic_ms : N;
  ce_scan_elapsed : N;   (* milliseconds *)
  ce_paths : gmap N PathInspection;
}.

Definition evaluated_path (e : ConditionEvaluations) (index : N) : result StoreError PathInspection :=
  ok_or (ce_paths e !! index)
    (EInvalidState "Condition path evaluation was not captured before the write transaction").

Definition expires_monotonic (e : ConditionEvaluations) (freshness_millis : N) : N :=
  saturating_add (ce_observed_monotonic_ms e) freshness_millis.

Record ConditionAcceptance := {
  ca_daemon_generation : Uuid;
  ca_boot_id : option string;
  ca_accepted_ms : Z;
  ca_freshness_millis : N;
}.

Record ConditionRefresh := {
  cf_blockers : list Blocker;
  cf_state_changed : bool;
  cf_deadline_expired : bool;
}.

Record ConditionRefreshContext := {
  cc_daemon_generation : Uuid;
  cc_boot_id : option string;
  cc_now : Z;
  cc_freshness_millis : N;
  cc_force : bool;
  cc_evaluations : ConditionEvaluations;
}.

(** ** Pure helpers *)
Definition resolve_deadline (deadline : ConditionDeadline) (accepted_ms : Z) : option Z :=
  match deadline with
  | DeadlineNone => None
  | DeadlineRelative seconds => Some (after_seconds accepted_ms seconds)
  | DeadlineAbsolute unix_millis => Some unix_millis
  end.

Definition is_probe (predicate : ConditionPredicate) : bool :=
  match predicate with Probe _ => true | _ => false end.

Definition condition_path (c : ConditionSpec) : option string :=
  match cond_predicate c with
  | PathExists path | PathAbsent path | PathTransition path _ _ => Some path
  | NotBefore _ | Probe _ => None
  end.

Definition observation_is_stale (fresh_until : option Z) (generation : option Uuid)
    (observed_monotonic : option N) (daemon_generation : Uuid) (now : Z) (now_monotonic : N)
    (freshness_millis : N) : bool :=
  bool_decide (generation ≠ Some daemon_generation)
  || match fresh_until with Some deadline => bool_decide (deadline ≤ now)%Z | None => true end
  || match observed_monotonic with
     | Some observed =>
         match checked_sub now_monotonic observed with
         | Some elapsed => bool_decide (freshness_millis ≤ elapsed)
         | None => true
         end
     | None => true
     end.

Definition outcome_name (o : ConditionDeadlineOutcome) : string :=
  match o with DeadlineFailed => "failed" | DeadlineCanceled => "canceled" end.

(** ** Rows of one condition *)

(** [SELECT … FROM observations WHERE condition_id = ?1 ORDER BY rowid DESC LIMIT 1] *)
Definition last_observation (s : NativeStore) (condition : Uuid) : option ObservationRow :=
  last (List.filter (λ o, bool_decide (ob_condition_id o = condition)) (nv_observations s)).

(** The [DELETE] that keeps the last observations of a condition. *)
Definition prune_observations (condition : Uuid) (rows : list ObservationRow) : list ObservationRow :=
  let mine := List.filter (λ o, bool_decide (ob_condition_id o = condition)) rows in
  let kept := drop (length mine - MAX_RETAINED_OBSERVATIONS_PER_CONDITION) mine in
  List.filter (λ o, bool_decide (ob_condition_id o ≠ condition) || bool_decide (ob_id o ∈ ob_id <$> kept)) rows.

(** [INSERT INTO observations] followed by that [DELETE]. *)
Definition insert_observation (o : ObservationRow) (s : NativeStore) : result StoreError NativeStore :=
  _ ← guard_err (bool_decide (ob_id o ∈ ob_id <$> nv_observations s)) (ESql "constraint of observations");
  Ok (s <| nv_observations := prune_observations (ob_condition_id o) (nv_observations s ++ [o]) |>).

Definition upd_conditions_of (job : Uuid) (f : Condition → Condition) (s : NativeStore) : NativeStore :=
  s <| nv_conditions ::= fmap (λ c, if decide (nc_job_id c = job) then f c else c) |>.

(** [UPDATE conditions SET state = 'failed', next_probe_ms = NULL
     WHERE job_id = ?1 AND state != 'failed'] *)
Definition fail_conditions (job : Uuid) (s : NativeStore) : NativeStore :=
  upd_conditions_of job (λ c, where_ (bool_decide (nc_state c ≠ CondFailed))
    (λ c, c <| nc_state := CondFailed |> <| nc_next_probe_ms := None |>) c) s.

(** [SELECT deadline_outcome FROM conditions WHERE job_id = ?1 AND deadline_ms IS NOT NULL
     AND … ORDER BY deadline_ms, condition_index LIMIT 1], the rest of the condition being [p]. *)
Definition deadline_le (p q : Z * ConditionDeadlineOutcome) : Prop := (p.1 ≤ q.1)%Z.
#[global] Instance deadline_le_dec : RelDecision deadline_le.
Proof. intros p q. unfold deadline_le. apply _. Defined.

Definition first_deadline (s : NativeStore) (job : Uuid) (p : Condition → Z → bool)
    : option ConditionDeadlineOutcome :=
  snd <$> head (sort_by deadline_le (omap (λ row : Uuid * Condition,
    deadline ← nc_deadline_ms row.2;
    if p row.2 deadline then Some (deadline, nc_deadline_outcome row.2) else None) (conditions_of s job))).

(** [state = 'failed' OR deadline_ms <= ?2], the condition of every durable
    deadline outcome. *)
Definition due_or_failed (now : Z) (c : Condition) (deadline : Z) : bool :=
  bool_decide (nc_state c = CondFailed) || bool_decide (deadline ≤ now)%Z.

Definition job_has_live_probe_tx (s : NativeStore) (job : Uuid) : bool :=
  existsb (λ c, match nv_invocations s !! nt_invocation_id c with
    | Some i => bool_decide (ni_role i = RoleProbe)
        && match ni_condition_id i with
           | Some condition => match nv_conditions s !! condition with
               | Some row => bool_decide (nc_job_id row = job) | None => false end
           | None => false end
        && (bool_decide (ni_state i ≠ IResolved) || bool_decide (nt_state c = CCreating)
            || bool_decide (nt_state c = CLive))
    | None => false end) (btree_values (nv_containments s)).

Definition release_reservation (job : Uuid) (s : NativeStore) : NativeStore * bool :=
  (s <| nv_reservations ::= delete job |>, bool_decide (is_Some (nv_reservations s !! job))).

(** ** Terminal states of pending jobs *)
Definition finalize_pending_condition_terminal_tx (s : NativeStore) (job : Uuid)
    (outcome : ConditionDeadlineOutcome) (reason : option string) (now : Z) : NativeStore :=
  let s := upd_conditions_of job (λ c, c <| nc_next_probe_ms := None |>) s in
  let s := match nv_jobs s !! job with
    | Some {| nj_attempt_id := Some attempt |} =>
        upd_attempt attempt (λ a, where_ (bool_decide (na_state a = APlanned) || bool_decide (na_state a = AAdmitting))
          (λ a, a <| na_state := ASettled |>
                  <| na_verdict := Some (if decide (outcome = DeadlineCanceled) then VCanceled else VSafetyFailed) |>
                  <| na_safety_reason ::= (λ old, match reason with Some r => Some r | None => old end) |>
                  <| na_finished_ms := Some now |>) a) s
    | _ => s
    end in
  upd_job_state job (λ j, bool_decide (nj_state j = Pending))
    (λ j, j <| nj_state := Final |>
            <| nj_outcome := Some (if decide (outcome = DeadlineCanceled) then JCanceled else JFailed) |>
            <| nj_reason_code := reason |> <| nj_finished_ms := Some now |>
            <| nj_retry_not_before_ms := None |> <| nj_reservation_not_before_ms := None |>) s.

Definition finalize_pending_condition_terminal_if_ready_tx (s : NativeStore) (job : Uuid) (now : Z)
    : result StoreError (NativeStore * bool) :=
  j ← get_job s job;
  if bool_decide (nj_state j ≠ Pending) || job_has_live_probe_tx s job then Ok (s, false)
  else match first_deadline s job (λ c _, bool_decide (nc_state c = CondFailed)) with
  | Some outcome =>
      Ok (finalize_pending_condition_terminal_tx s job outcome (Some "condition_deadline_expired"%string) now, true)
  | None =>
      if nj_cancel_requested j
      then Ok (finalize_pending_condition_terminal_tx s job DeadlineCanceled None now, true)
      else Ok (s, false)
  end.

Definition expire_condition_deadline_tx (s : NativeStore) (job : Uuid) (now : Z)
    : result StoreError (NativeStore * option ConditionDeadlineOutcome) :=
  match first_deadline s job (λ c deadline, bool_decide (nc_state c ≠ CondFailed) && bool_decide (deadline ≤ now)%Z) with
  | Some outcome =>
      let s := (release_reservation job s).1 in
      let s := fail_conditions job s in
      '(s, _) ← finalize_pending_condition_terminal_if_ready_tx s job now;
      Ok (s, Some outcome)
  | None => Ok (s, None)
  end.

(** Jobs in the order of the schedule queries: [ORDER BY jobs.accepted_ms, jobs.rowid]. *)
Definition accepted_le (p q : Uuid * Job) : Prop :=
  (nj_accepted_ms p.2 < nj_accepted_ms q.2)%Z
  ∨ nj_accepted_ms p.2 = nj_accepted_ms q.2 ∧ (nj_rowid p.2 ≤ nj_rowid q.2)%Z.
#[global] Instance accepted_le_dec : RelDecision accepted_le.
Proof. intros p q. unfold accepted_le. apply _. Defined.

Definition jobs_where (s : NativeStore) (p : Uuid → Job → bool) : list Uuid :=
  fst <$> sort_by accepted_le (List.filter (λ row : Uuid * Job, p row.1 row.2) (btree_entries (nv_jobs s))).

Definition finalize_recovered_condition_terminals_tx (s : NativeStore) (now : Z)
    : result StoreError (NativeStore * bool) :=
  result_foldM (λ '(s, changed) job,
      '(s, c) ← finalize_pending_condition_terminal_if_ready_tx s job now; Ok (s, changed || c))
    (s, false)
    (jobs_where s (λ job j, bool_decide (nj_state j = Pending)
      && (nj_cancel_requested j
          || existsb (λ row, bool_decide (nc_state row.2 = CondFailed) && bool_decide (is_Some (nc_deadline_ms row.2)))
               (conditions_of s job)))).

Definition expire_due_condition_deadlines_tx (s : NativeStore) (now : Z)
    : result StoreError (NativeStore * bool) :=
  let due := jobs_where s (λ job j, bool_decide (nj_state j = Pending)
    && existsb (λ row, bool_decide (nc_state row.2 ≠ CondFailed)
         && match nc_deadline_ms row.2 with Some deadline => bool_decide (deadline ≤ now)%Z | None => false end)
         (conditions_of s job)) in
  s ← result_foldM (λ s job, '(s, _) ← expire_condition_deadline_tx s job now; Ok s) s due;
  Ok (s, negb (bool_decide (due = []))).

(** ** Evaluation *)
Definition evaluate_predicate (row : result StoreError Condition) (predicate : ConditionPredicate)
    (observed_ms : Z) (e : ConditionEvaluations) (index : N)
    : result StoreError (ConditionObservationValue * ConditionState * option bool * ConditionObservationSource) :=
  let level (satisfied : bool) := if satisfied then CondSatisfied else CondWaiting in
  match predicate with
  | PathExists _ =>
      inspection ← evaluated_path e index;
      Ok match inspection with
      | InspectedPresent b => (ValuePath b, level b, None, SourceFilesystem)
      | InspectedInvalidated error => (ValueInvalidated error, CondWaiting, None, SourceInvalidation)
      end
  | PathAbsent _ =>
      inspection ← evaluated_path e index;
      Ok match inspection with
      | InspectedPresent b => (ValuePath b, level (negb b), None, SourceFilesystem)
      | InspectedInvalidated error => (ValueInvalidated error, CondWaiting, None, SourceInvalidation)
      end
  | PathTransition _ from to =>
      inspection ← evaluated_path e index;
      match inspection with
      | InspectedPresent b =>
          let current := if b : bool then Present else Absent in
          row ← row;
          let armed := nc_transition_armed row || bool_decide (current = from) in
          let satisfied := bool_decide (nc_state row = CondSatisfied) || (armed && bool_decide (current = to)) in
          Ok (ValuePath b, level satisfied, Some armed, SourceFilesystem)
      | InspectedInvalidated error =>
          row ← row;
          Ok (ValueInvalidated error, level (bool_decide (nc_state row = CondSatisfied)), None, SourceInvalidation)
      end
  | NotBefore unix_millis =>
      let reached := bool_decide (unix_millis ≤ observed_ms)%Z in
      Ok (ValueTime reached, level reached, None, SourceClock)
  | Probe _ => Err (EInvalidState "probe Condition cannot be evaluated as an in-process predicate")
  end.

Definition evaluate_one_tx (s : NativeStore) (daemon_generation : Uuid) (boot_id : option string)
    (condition new_id : Uuid) (spec : ConditionSpec) (observed_ms : Z) (observed_monotonic_ms : N)
    (freshness_millis : N) (e : ConditionEvaluations) (index : N)
    : result StoreError (NativeStore * ConditionState) :=
  '(value, state, armed, source) ←
    evaluate_predicate (ok_or (nv_conditions s !! condition) (ESql "no rows"))
      (cond_predicate spec) observed_ms e index;
  s ← insert_observation
    {| ob_id := new_id; ob_condition_id := condition; ob_observed_ms := observed_ms;
       ob_observed_monotonic_ms := observed_monotonic_ms; ob_boot_id := boot_id;
       ob_daemon_generation := daemon_generation;
       ob_fresh_until_ms := after_millis observed_ms freshness_millis;
       ob_source := source; ob_value := value |} s;
  Ok (upd_condition condition (λ c, c <| nc_state := state |>
        <| nc_transition_armed ::= (λ old, default old armed) |>) s, state).

(** [cid] gives the fresh identifier of each condition, [oid] its observation. *)
Definition insert_condition_tx (job : Uuid) (a : ConditionAcceptance) (e : ConditionEvaluations)
    (oid : Uuid → Uuid) (s : NativeStore) (entry : N * Uuid * ConditionSpec)
    : result StoreError NativeStore :=
  let '(index, id, spec) := entry in
  _ ← guard_err (bool_decide (u32_max < index)) (EInvalidSpec "too many Conditions");
  _ ← guard_err (bool_decide (is_Some (nv_conditions s !! id)) || is_none (nv_jobs s !! job))
        (ESql "constraint of conditions");
  let s := s <| nv_conditions ::= <[id :=
    {| nc_job_id := job; nc_index := index; nc_state := CondWaiting; nc_spec := spec;
       nc_deadline_ms := resolve_deadline (cond_deadline spec) (ca_accepted_ms a);
       nc_deadline_outcome := cond_on_deadline spec; nc_transition_armed := false;
       nc_next_probe_ms := if is_probe (cond_predicate spec) then Some (ca_accepted_ms a) else None;
       nc_probe_invocation_id := None |}]> |> in
  if is_probe (cond_predicate spec) then Ok s
  else
    '(s, _) ← evaluate_one_tx s (ca_daemon_generation a) (ca_boot_id a) id (oid id) spec (ca_accepted_ms a)
      (ce_observed_monotonic_ms e) (ca_freshness_millis a) e index;
    Ok s.

Definition insert_conditions_tx (s : NativeStore) (job : Uuid) (conditions : list ConditionSpec)
    (cid : N → Uuid) (oid : Uuid → Uuid) (a : ConditionAcceptance) (e : ConditionEvaluations)
    : result StoreError NativeStore :=
  result_foldM (insert_condition_tx job a e oid) s
    (imap (λ i spec, (N.of_nat i, cid (N.of_nat i), spec)) conditions).

Section blockers.
Context (condition_json : ConditionSpec → string).   (* [serde_json::to_string] of a condition *)

(** Conditions are inserted in index order, so row order is index order. *)
Definition condition_blockers_tx (s : NativeStore) (job : Uuid) : list Blocker :=
  omap (λ row, if decide (nc_state row.2 = CondSatisfied) then None
    else Some {| blocker_code := if decide (nc_state row.2 = CondFailed)
                   then "condition_failed" else "condition_waiting";
                 blocker_detail := condition_json (nc_spec row.2) |}) (conditions_of s job).

(** One turn of the rescan loop. *)
Definition refresh_one_tx (ctx : ConditionRefreshContext) (oid : Uuid → Uuid)
    (st : NativeStore * bool) (row : Uuid * Condition * option ObservationRow)
    : result StoreError (NativeStore * bool) :=
  let '(s, changed) := st in
  let '(key, c, last) := row in
  let e := cc_evaluations ctx in
  if bool_decide (nc_state c = CondFailed) || is_probe (cond_predicate (nc_spec c)) then Ok (s, changed)
  else if cc_force ctx || observation_is_stale (ob_fresh_until_ms <$> last) (ob_daemon_generation <$> last)
            (ob_observed_monotonic_ms <$> last) (cc_daemon_generation ctx) (cc_now ctx)
            (ce_observed_monotonic_ms e) (cc_freshness_millis ctx)
  then
    '(s, _) ← evaluate_one_tx s (cc_daemon_generation ctx) (cc_boot_id ctx) key (oid key) (nc_spec c)
      (ce_observed_ms e) (ce_observed_monotonic_ms e) (cc_freshness_millis ctx) e (nc_index c);
    Ok (s, true)
  else Ok (s, changed).

Definition refresh_conditions_tx (s : NativeStore) (job : Uuid) (ctx : ConditionRefreshContext)
    (oid : Uuid → Uuid) : result StoreError (NativeStore * ConditionRefresh) :=
  '(s, expired) ← expire_condition_deadline_tx s job (cc_now ctx);
  match expired with
  | Some outcome =>
      Ok (s, {| cf_blockers := [{| blocker_code := "condition_deadline_expired";
                                   blocker_detail := "deadline outcome=" +:+ outcome_name outcome |}];
                cf_state_changed := true; cf_deadline_expired := true |})
  | None =>
      let rows := (λ row, (row.1, row.2, last_observation s row.1)) <$> conditions_of s job in
      '(s, changed) ← result_foldM (refresh_one_tx ctx oid) (s, false) rows;
      Ok (s, {| cf_blockers := condition_blockers_tx s job; cf_state_changed := changed;
                cf_deadline_expired := false |})
  end.
End blockers.

Definition reset_conditions_for_retry_tx (s : NativeStore) (job : Uuid) (not_before : Z) : NativeStore :=
  foldl (λ s row,
    let predicate := cond_predicate (nc_spec row.2) in
    let next_state := match predicate with
      | PathTransition _ _ _ => if decide (nc_state row.2 = CondSatisfied) then CondSatisfied else CondWaiting
      | _ => CondWaiting end in
    upd_condition row.1 (λ c, c <| nc_state := next_state |> <| nc_probe_invocation_id := None |>
      <| nc_next_probe_ms := if is_probe predicate then Some not_before else None |>) s)
    s (conditions_of s job).

(** ** History of probes *)

(** The rows [prune_resolved_probe_history_tx] may delete: resolved, closed, no
    granted lease, no retained event ([retained] tells which invocations events
    still name). *)
Definition prunable_probe (s : NativeStore) (retained : Uuid → bool) (key : Uuid) (i : Invocation) : bool :=
  bool_decide (ni_state i = IResolved)
  && existsb (λ c, bool_decide (nt_invocation_id c = key)
       && (bool_decide (nt_state c = CEmpty) || bool_decide (nt_state c = CCleared)))
       (btree_values (nv_containments s))
  && negb (existsb (λ l, bool_decide (nl_invocation_id l = Some key) && bool_decide (nl_state l = LGranted))
       (btree_values (nv_leases s)))
  && negb (retained key).

Definition rowid_ge (p q : Uuid * Invocation) : Prop := (ni_rowid q.2 ≤ ni_rowid p.2)%N.
#[global] Instance rowid_ge_dec : RelDecision rowid_ge.
Proof. intros p q. unfold rowid_ge. apply _. Defined.

Definition delete_probe (s : NativeStore) (key : Uuid) : NativeStore :=
  let s := s <| nv_leases ::= filter (λ p : Uuid * Lease,
    ¬ (nl_invocation_id p.2 = Some key ∧ nl_state p.2 = LReleased)) |> in
  let s := s <| nv_containments ::= filter (λ p : Uuid * Containment,
    ¬ (nt_invocation_id p.2 = key ∧ (nt_state p.2 = CEmpty ∨ nt_state p.2 = CCleared))) |> in
  s <| nv_invocations ::= filter (λ p : Uuid * Invocation,
    ¬ (p.1 = key ∧ ni_state p.2 = IResolved)) |>.

Definition prune_resolved_probe_history_tx (retained : Uuid → bool) (s : NativeStore) (condition : Uuid)
    : NativeStore :=
  let stale := drop MAX_RETAINED_PROBE_INVOCATIONS_PER_CONDITION (fst <$> sort_by rowid_ge
    (List.filter (λ row : Uuid * Invocation, bool_decide (ni_condition_id row.2 = Some condition)
       && prunable_probe s retained row.1 row.2
       && match nv_attempts s !! ni_attempt_id row.2 with
          | Some a => negb (is_none (nv_jobs s !! na_job_id a)) | None => false end)
       (btree_entries (nv_invocations s)))) in
  foldl delete_probe s stale.

Definition prune_condition_history (retained : Uuid → bool) (s : NativeStore) : NativeStore :=
  let mine condition := List.filter (λ row : Uuid * Invocation,
      bool_decide (ni_role row.2 = RoleProbe) && bool_decide (ni_condition_id row.2 = Some condition)
      && prunable_probe s retained row.1 row.2) (btree_entries (nv_invocations s)) in
  let conditions := List.filter (λ condition,
      bool_decide (MAX_RETAINED_PROBE_INVOCATIONS_PER_CONDITION < length (mine condition))%nat)
      (dedup (omap ni_condition_id (btree_values (nv_invocations s)))) in
  foldl (prune_resolved_probe_history_tx retained) s conditions.

(** ** Probes *)
Definition probe_spec (original : JobSpec) (probe : ProbeCondition) : JobSpec :=
  {| job_spec_version := job_spec_version original; job_priority := job_priority original;
     job_executable := probe_executable probe; job_args := probe_args probe;
     job_working_directory := probe_working_directory probe; job_stdin := StdinEof;
     job_environment := probe_environment probe; job_resources := probe_resources probe;
     job_observed := None; job_conditions := [];
     job_retry := {| retry_max_attempts := 1; retry_backoff_seconds := 0; retry_retryable := [] |};
     job_postconditions := []; job_labels := job_labels original;
     job_expected_duration_seconds := Some (probe_timeout_seconds probe);
     job_timeout_seconds := Some (probe_timeout_seconds probe); job_quiet := None;
     job_artifacts := []; job_child_submission_policy := None |}.

(** [ObservationMoment] of [src/src/host_observation/mod.rs] *)
Record ObservationMoment := {
  om_sample : HostSample;
  om_now_unix_millis : Z;
  om_now_monotonic_millis : N;
  om_live_clock : bool;
}.

(** [clock] is what [observation_clock()] answers. *)
Definition after_provider_work (clock : result StoreError (Z * N)) (elapsed_millis : N) (m : ObservationMoment)
    : result StoreError ObservationMoment :=
  if om_live_clock m then
    '(unix, monotonic) ← clock;
    Ok {| om_sample := om_sample m; om_now_unix_millis := unix; om_now_monotonic_millis := monotonic;
          om_live_clock := true |}
  else
    Ok {| om_sample := om_sample m; om_now_unix_millis := after_millis (om_now_unix_millis m) elapsed_millis;
          om_now_monotonic_millis := saturating_add (om_now_monotonic_millis m) elapsed_millis;
          om_live_clock := false |}.

(** Fresh identifiers of one preparation ([Uuid::now_v7]). *)
Record FreshIds := {
  fi_attempt : Uuid;
  fi_invocation : Uuid;
  fi_containment : Uuid;
  fi_lease : Uuid;
  fi_reservation : Uuid;
}.

(** The [INSERT]s of a prepared invocation and of its containment. *)
Definition insert_prepared (d : Daemon) (attempt invocation containment : Uuid) (role : InvocationRole)
    (postcondition_index : option N) (condition : option Uuid) (s : NativeStore)
    : result StoreError NativeStore :=
  s ← insert_invocation invocation
    {| ni_attempt_id := attempt; ni_role := role; ni_role_index := next_role_index s attempt;
       ni_state := IPrepared; ni_root_pid := None; ni_root_host_id := None; ni_root_boot_id := None;
       ni_root_creation_filetime_100ns := None; ni_root_identity := None; ni_root_exit_code := None;
       ni_exited_ms := None; ni_executable_hash := None; ni_daemon_generation := None;
       ni_postcondition_index := postcondition_index; ni_condition_id := condition; ni_started_ms := None;
       ni_finished_ms := None; ni_exit_classification := None; ni_rowid := next_rowid s |} s;
  insert_containment containment
    {| nt_invocation_id := invocation; nt_state := CCreating; nt_host_id := dm_host_id d;
       nt_boot_id := dm_boot_id d; nt_daemon_generation := Some (dm_generation d); nt_version := 1;
       nt_incident_sequence := None; nt_reason_code := None; nt_detail := None; nt_opened_ms := None;
       nt_retained_claims := None; nt_resolved_ms := None |} s.

(** [INSERT INTO attempts(…) VALUES (…, 'planned', …)] *)
Definition insert_planned_attempt (attempt job : Uuid) (now : Z) (s : NativeStore)
    : result StoreError NativeStore :=
  insert_attempt attempt
    {| na_job_id := job; na_state := APlanned; na_index := next_attempt_index s job; na_verdict := None;
       na_safety_reason := None; na_created_ms := now; na_started_ms := None; na_deadline_ms := None;
       na_finished_ms := None; na_primary_result := None |} s.

Definition set_job_attempt (job attempt : Uuid) (s : NativeStore) : NativeStore :=
  upd_job job (λ j, where_ (bool_decide (nj_state j = Pending)) (λ j, j <| nj_attempt_id := Some attempt |>) j) s.

(** ** Claims ([ResolvedClaims::resolve] of [src/src/resources.rs]) *)
Section probes.
Context (uuid_to_string : Uuid → string)
  (resolve_fences : list string → result StoreError (gset string)).   (* resolves paths on the file system *)

Definition resolve_custom (custom : gmap string N) : result StoreError (gmap string N) :=
  result_foldM (λ m '(name, value),
    canonical ← match canonical_custom_resource_name name with
      | Ok c => Ok c | Err _ => Err (EIo "invalid custom resource name") end;
    _ ← guard_err (bool_decide (is_Some (m !! canonical))) (EIo "duplicate canonical custom resource");
    Ok (<[canonical := value]> m)) ∅ (btree_entries custom).

Definition resolve (claims : ResourceClaims) : result StoreError ResolvedClaims :=
  custom ← resolve_custom (rc_custom claims);
  shared ← resolve_fences (rc_shared_fences claims);
  exclusive ← resolve_fences (rc_exclusive_fences claims);
  _ ← guard_err (negb (bool_decide (shared ∩ exclusive = ∅)))
        (EIo "one resolved path fence cannot be both shared and exclusive");
  Ok {| cl_cpu_units := default 0 (rc_cpu_units claims); cl_ram_mb := default 0 (rc_ram_mb claims);
        cl_cargo_slots := default 0 (rc_cargo_slots claims); cl_gpu_slots := default 0 (rc_gpu_slots claims);
        cl_custom := custom; cl_shared_fences := shared; cl_exclusive_fences := exclusive;
        cl_impacts := list_to_set (rc_impacts claims) |}.

(** The condition whose probe is due. *)
Definition due_probe (s : NativeStore) (job : Uuid) (now : Z) : option (Uuid * Condition) :=
  head (List.filter (λ row : Uuid * Condition,
    let c := row.2 in
    bool_decide (nc_state c = CondWaiting)
    && match nc_next_probe_ms c with Some at_ => bool_decide (at_ ≤ now)%Z | None => false end
    && is_none (nc_probe_invocation_id c)
    && match nc_deadline_ms c with Some deadline => bool_decide (now < deadline)%Z | None => true end
    && match nv_jobs s !! job with
       | Some j => bool_decide (nj_state j = Pending) && negb (nj_cancel_requested j) | None => false end)
    (conditions_of s job)).

(** [None]: admission is blocked, nothing is committed. *)
Definition probe_admissible (d : Daemon) (s : NativeStore) (spec : JobSpec) (claims : ResolvedClaims)
    (observation : option ObservationMoment) (now : Z) : result StoreError bool :=
  let debits := active_claims_tx s ++ reservation_claims_tx (view s) now None in
  resource_blockers ← ok_or (blockers uuid_to_string claims (host_resources (dm_config d)) debits
    (host_impact_incompatibilities (dm_config d))) (EPanic "native topology");
  if negb (bool_decide (resource_blockers = [])) then Ok false
  else if requires_host_observation spec then
    match observation with
    | None => Ok false
    | Some m => Ok (bool_decide (ac_blockers (evaluate_admission spec (dm_config d) (om_sample m) debits
                  (om_now_unix_millis m) (om_now_monotonic_millis m)) = []))
    end
  else Ok true.

(** The attempt a pending job uses: its own when it is planned or admitting, or a
    fresh one. *)
Definition planned_attempt (s : NativeStore) (job : Uuid) (fresh : Uuid) (now : Z)
    : result StoreError (NativeStore * Uuid) :=
  j ← get_job s job;
  match nj_attempt_id j with
  | Some key =>
      a ← get_attempt s key;
      _ ← guard_err (negb (bool_decide (na_state a = APlanned) || bool_decide (na_state a = AAdmitting)))
            (EInvalidState "planned/admitting Attempt required");
      Ok (s, key)
  | None => s ← insert_planned_attempt fresh job now s; Ok (s, fresh)
  end.

Definition prepare_due_probe (d : Daemon) (s : NativeStore) (job : Uuid) (original : JobSpec)
    (observation : option ObservationMoment) (ids : FreshIds) (now : Z)
    : result StoreError (NativeStore * option PreparedJob) :=
  if dm_authority_blocker d then Ok (s, None)
  else match due_probe s job now with
  | None => Ok (s, None)
  | Some (condition, c) =>
      match cond_predicate (nc_spec c) with
      | Probe probe =>
          let spec := probe_spec original probe in
          claims ← resolve (probe_resources probe);
          admissible ← probe_admissible d s spec claims observation now;
          if negb admissible then Ok (s, None)
          else
            fresh ← (j ← get_job s job; Ok (is_none (nj_attempt_id j)));
            '(s, attempt) ← planned_attempt s job (fi_attempt ids) now;
            let s := if fresh : bool then set_job_attempt job attempt s else s in
            s ← insert_prepared d attempt (fi_invocation ids) (fi_containment ids) RoleProbe None (Some condition) s;
            s ← insert_lease (fi_lease ids)
              {| nl_attempt_id := attempt; nl_invocation_id := Some (fi_invocation ids); nl_state := LGranted;
                 nl_claims := claims |} s;
            let s := upd_condition condition (λ c, where_ (is_none (nc_probe_invocation_id c))
              (λ c, c <| nc_probe_invocation_id := Some (fi_invocation ids) |> <| nc_next_probe_ms := None |>) c) s in
            Ok (s, Some {| pj_job_id := job; pj_attempt_id := attempt; pj_invocation_id := fi_invocation ids;
              pj_containment_id := fi_containment ids; pj_spec := spec; pj_stdin := None; pj_role := RoleProbe;
              pj_condition_id := Some condition;
              pj_attempt_deadline_unix_millis := Some (after_seconds now (probe_timeout_seconds probe));
              pj_primary_result := None |})
      | _ => Err (EInvalidState "non-probe Condition has a probe schedule")
      end
  end.
End probes.

(** [UPDATE leases SET state = 'released' WHERE invocation_id = ?1 AND state = 'granted'] *)
Definition release_probe_lease (invocation : Uuid) (s : NativeStore) : NativeStore :=
  s <| nv_leases ::= fmap (λ l, where_ (bool_decide (nl_invocation_id l = Some invocation)
         && bool_decide (nl_state l = LGranted)) (λ l, l <| nl_state := LReleased |>) l) |>.

Definition is_open_boundary (state : ContainmentState) : bool :=
  bool_decide (state = CCreating) || bool_decide (state = CLive).

(** An observation of a probe: fresh until the instant it was made. *)
Definition probe_observation (d : Daemon) (id condition : Uuid) (now : Z) (monotonic : N)
    (exit_code : option Z) (timed_out accepted : bool) : ObservationRow :=
  {| ob_id := id; ob_condition_id := condition; ob_observed_ms := now; ob_observed_monotonic_ms := monotonic;
     ob_boot_id := dm_boot_id d; ob_daemon_generation := dm_generation d; ob_fresh_until_ms := now;
     ob_source := SourceProbe; ob_value := ValueProbe exit_code timed_out accepted |}.

(** The transaction of [settle_probe]; [settle_probe] also prunes the history. *)
Definition settle_probe_tx (d : Daemon) (s : NativeStore) (job : PreparedJob) (exit_code : option Z)
    (timed_out : bool) (now : Z) (monotonic : N) (observation : Uuid) : result StoreError NativeStore :=
  condition ← ok_or (pj_condition_id job) (EInvalidState "probe Invocation has no Condition identity");
  c ← ok_or (nv_conditions s !! condition) (ESql "no rows");
  _ ← guard_err (bool_decide (nc_job_id c ≠ pj_job_id job)) (ESql "no rows");
  j ← get_job s (pj_job_id job);
  _ ← guard_err (bool_decide (nc_probe_invocation_id c ≠ Some (pj_invocation_id job)))
        (EInvalidState "resolved probe is not the Condition's unresolved Invocation");
  boundary ← ok_or (nv_containments s !! pj_containment_id job) (ESql "no rows");
  _ ← guard_err (bool_decide (nt_invocation_id boundary ≠ pj_invocation_id job)) (ESql "no rows");
  _ ← guard_err (negb (is_open_boundary (nt_state boundary)))
        (EInvalidState "probe cannot settle without an owned empty proof");
  match cond_predicate (nc_spec c) with
  | Probe probe =>
      let accepted := negb timed_out
        && match exit_code with Some code => bool_decide (code ∈ probe_accepted_exit_codes probe) | None => false end in
      let s := upd_invocation (pj_invocation_id job) (λ i, i <| ni_state := IResolved |>
        <| ni_root_exit_code ::= (λ old, match exit_code with Some code => Some code | None => old end) |>
        <| ni_exit_classification := Some (if accepted then ExitAccepted else ExitFailed) |>
        <| ni_finished_ms := Some now |>) s in
      let s := upd_containment (pj_containment_id job)
        (λ c, where_ (is_open_boundary (nt_state c)) (λ c, c <| nt_state := CEmpty |>) c) s in
      s ← insert_observation (probe_observation d observation condition now monotonic exit_code timed_out accepted) s;
      let next_probe :=
        if negb accepted && bool_decide (nc_state c ≠ CondFailed) && bool_decide (nj_state j = Pending)
           && negb (nj_cancel_requested j)
        then Some (after_seconds now (probe_interval_seconds probe)) else None in
      let next_state :=
        if bool_decide (nc_state c = CondFailed) || bool_decide (nj_state j ≠ Pending) then nc_state c
        else if accepted then CondSatisfied else CondWaiting in
      let s := upd_condition condition (λ c, c <| nc_state := next_state |> <| nc_probe_invocation_id := None |>
        <| nc_next_probe_ms := next_probe |>) s in
      let s := release_probe_lease (pj_invocation_id job) s in
      '(s, _) ← finalize_pending_condition_terminal_if_ready_tx s (pj_job_id job) now;
      Ok s
  | _ => Err (EInvalidState "probe Invocation belongs to a non-probe Condition")
  end.

(** A failure of the pruning is ignored. *)
Definition settle_probe (d : Daemon) (s : NativeStore) (job : PreparedJob) (exit_code : option Z)
    (timed_out : bool) (now : Z) (monotonic : N) (observation : Uuid) (retained : Uuid → bool)
    (prune_failed : bool) : result StoreError NativeStore :=
  s ← settle_probe_tx d s job exit_code timed_out now monotonic observation;
  Ok (if prune_failed then s else prune_condition_history retained s).

(** [UPDATE containments SET state = 'uncertain' …] of a boundary that is still open;
    columns a former incident filled are kept. *)
Definition open_incident (containment : Uuid) (sequence : N) (reason detail : string) (opened : Z)
    (retained : ResourceClaims) (s : NativeStore) : NativeStore :=
  let keep {A} (new : A) (old : option A) := Some (default new old) in
  upd_containment containment (λ c, where_ (is_open_boundary (nt_state c))
    (λ c, c <| nt_state := CUncertain |> <| nt_version ::= N.succ |>
            <| nt_incident_sequence ::= keep sequence |> <| nt_reason_code ::= keep reason |>
            <| nt_detail ::= keep detail |> <| nt_opened_ms ::= keep opened |>
            <| nt_retained_claims ::= keep retained |>) c) s.

(** The clocks are read when the invocation resolves, when the incident opens and
    when the job is finalized. *)
Definition mark_probe_uncertain (s : NativeStore) (job : PreparedJob) (exit_code : option Z)
    (resolved opened now : Z) : result StoreError NativeStore :=
  condition ← ok_or (pj_condition_id job) (EInvalidState "probe Invocation has no Condition identity");
  let sequence := last_incident s + 1 in
  let s := upd_invocation (pj_invocation_id job) (λ i, i <| ni_state := IResolved |>
    <| ni_root_exit_code ::= (λ old, match exit_code with Some code => Some code | None => old end) |>
    <| ni_finished_ms := Some resolved |>) s in
  let s := upd_containment (pj_containment_id job) (λ c, where_ (is_open_boundary (nt_state c))
    (λ c, c <| nt_state := CUncertain |> <| nt_version ::= N.succ |>
            <| nt_incident_sequence ::= (λ old, Some (default sequence old)) |>
            <| nt_reason_code := Some "probe_cleanup_uncertain"%string |>
            <| nt_detail := Some "probe cleanup could not be proven within the bounded runner wait"%string |>
            <| nt_opened_ms ::= (λ old, Some (default opened old)) |>
            <| nt_retained_claims := Some (job_resources (pj_spec job)) |>) c) s in
  let s := upd_condition condition (λ c, c <| nc_state ::= (λ old,
    if decide (old = CondFailed) then old else CondWaiting) |>) s in
  '(s, _) ← finalize_pending_condition_terminal_if_ready_tx s (pj_job_id job) now;
  Ok s.

(** ** Repair of probes a former commit left half settled *)
Definition repair_le (p q : Uuid * Condition) : Prop :=
  (nc_job_id p.2 < nc_job_id q.2)%N ∨ nc_job_id p.2 = nc_job_id q.2 ∧ (nc_index p.2 ≤ nc_index q.2)%N.
#[global] Instance repair_le_dec : RelDecision repair_le.
Proof. intros p q. unfold repair_le. apply _. Defined.

(** The rows of the query: condition, its probe invocation and the job. *)
Definition resolved_empty_probes (s : NativeStore) : list (Uuid * Condition * Uuid * Invocation * Job) :=
  omap (λ '(key, c),
    invocation ← nc_probe_invocation_id c;
    i ← nv_invocations s !! invocation;
    j ← nv_jobs s !! nc_job_id c;
    if bool_decide (ni_state i = IResolved)
       && existsb (λ b, bool_decide (nt_invocation_id b = invocation) && bool_decide (nt_state b = CEmpty))
            (btree_values (nv_containments s))
       && existsb (λ l, bool_decide (nl_invocation_id l = Some invocation) && bool_decide (nl_state l = LGranted))
            (btree_values (nv_leases s))
    then Some (key, c, invocation, i, j) else None)
    (sort_by repair_le (btree_entries (nv_conditions s))).

Definition repair_one_tx (d : Daemon) (now : Z) (monotonic : N) (oid : Uuid → Uuid) (s : NativeStore)
    (row : Uuid * Condition * Uuid * Invocation * Job) : result StoreError NativeStore :=
  let '(key, c, invocation, i, j) := row in
  match cond_predicate (nc_spec c) with
  | Probe probe =>
      let s := upd_invocation invocation (λ i, i <| ni_exit_classification ::=
        (λ old, Some (default ExitFailed old)) |>) s in
      s ← insert_observation (probe_observation d (oid key) key now monotonic (ni_root_exit_code i) false false) s;
      let next_probe := if bool_decide (nj_state j = Pending) && negb (nj_cancel_requested j)
        then Some (after_seconds now (probe_interval_seconds probe)) else None in
      let next_state := if bool_decide (nc_state c = CondFailed) || bool_decide (nj_state j ≠ Pending)
        then nc_state c else CondWaiting in
      let s := upd_condition key (λ c, c <| nc_state := next_state |> <| nc_probe_invocation_id := None |>
        <| nc_next_probe_ms := next_probe |>) s in
      let s := release_probe_lease invocation s in
      '(s, _) ← finalize_pending_condition_terminal_if_ready_tx s (nc_job_id c) now;
      Ok s
  | _ => Err (EInvalidState "resolved empty probe references a non-probe Condition")
  end.

Definition repair_resolved_empty_probes_tx (d : Daemon) (s : NativeStore) (now : Z) (monotonic : N)
    (oid : Uuid → Uuid) : result StoreError (NativeStore * bool) :=
  let rows := resolved_empty_probes s in
  s ← result_foldM (repair_one_tx d now monotonic oid) s rows;
  Ok (s, negb (bool_decide (rows = []))).

(** ** Public transactions *)
Definition expire_job_condition_deadline (s : NativeStore) (job : Uuid) (now : Z)
    : result StoreError (NativeStore * bool) :=
  '(s', expired) ← expire_condition_deadline_tx s job now;
  Ok (if bool_decide (is_Some expired) then (s', true) else (s, false)).

Definition expire_due_condition_deadlines (s : NativeStore) (now : Z) : result StoreError (NativeStore * bool) :=
  '(s', changed) ← expire_due_condition_deadlines_tx s now;
  Ok (if changed : bool then (s', true) else (s, false)).
