(* ===== verification/Columns.v ===== *)
(** * Columns: names of states and identifiers in the tables

    The text of states, verdicts and results in a column and in an event
    ([src/src/store/values.rs], [src/src/store/condition.rs]) and of durable
    identifiers ([src/src/model.rs]).  A text that names nothing is an error, never
    a default; results of newer versions, which are kept as [Unknown] texts, cannot
    enter the tables. *)
From S2P Require Import Prelude Spec Validate Kernel Scoped Observation Machine MachineStore Reservation.
From S2P Require Import Native ConditionStore.

Definition unknown {A} (kind value : string) : result StoreError A :=
  Err (EInvalidState ("unknown " +:+ kind +:+ " " +:+ value)).

(** ** States *)
Definition parse_job_state (s : string) : result StoreError JobState :=
  if decide (s = "pending") then Ok Pending
  else if decide (s = "active") then Ok Active
  else if decide (s = "finalizing") then Ok Finalizing
  else if decide (s = "final") then Ok Final
  else unknown "job state" s.

Definition parse_invocation_role (s : string) : result StoreError InvocationRole :=
  if decide (s = "primary") then Ok RolePrimary
  else if decide (s = "probe") then Ok RoleProbe
  else if decide (s = "postcondition") then Ok RolePostcondition
  else unknown "Invocation role" s.

Definition parse_invocation_state (s : string) : result StoreError InvocationState :=
  if decide (s = "prepared") then Ok IPrepared
  else if decide (s = "started") then Ok IStarted
  else if decide (s = "exited") then Ok IExited
  else if decide (s = "resolved") then Ok IResolved
  else unknown "Invocation state" s.

Definition parse_containment_state (s : string) : result StoreError ContainmentState :=
  if decide (s = "creating") then Ok CCreating
  else if decide (s = "live") then Ok CLive
  else if decide (s = "empty") then Ok CEmpty
  else if decide (s = "uncertain") then Ok CUncertain
  else if decide (s = "cleared") then Ok CCleared
  else unknown "Containment state" s.

Definition parse_condition_state (s : string) : result StoreError ConditionState :=
  if decide (s = "waiting") then Ok CondWaiting
  else if decide (s = "satisfied") then Ok CondSatisfied
  else if decide (s = "failed") then Ok CondFailed
  else unknown "Condition state" s.

(** ** Values with a printer *)
Definition parse_outcome (s : string) : result StoreError JobOutcome :=
  if decide (s = "succeeded") then Ok JSucceeded
  else if decide (s = "failed") then Ok JFailed
  else if decide (s = "timed_out") then Ok JTimedOut
  else if decide (s = "interrupted") then Ok JInterrupted
  else if decide (s = "canceled") then Ok JCanceled
  else if decide (s = "skipped") then Ok JSkipped
  else unknown "job outcome" s.
Definition outcome_string (o : JobOutcome) : string :=
  match o with
  | JSucceeded => "succeeded" | JFailed => "failed" | JTimedOut => "timed_out"
  | JInterrupted => "interrupted" | JCanceled => "canceled" | JSkipped => "skipped"
  end.

Definition parse_attempt_verdict (s : string) : result StoreError AttemptVerdict :=
  if decide (s = "succeeded") then Ok VSucceeded
  else if decide (s = "process_failed") then Ok VProcessFailed
  else if decide (s = "start_failed") then Ok VStartFailed
  else if decide (s = "timed_out") then Ok VTimedOut
  else if decide (s = "interrupted") then Ok VInterrupted
  else if decide (s = "safety_failed") then Ok VSafetyFailed
  else if decide (s = "postcondition_retryable") then Ok VPostconditionRetryable
  else if decide (s = "postcondition_failed") then Ok VPostconditionFailed
  else if decide (s = "canceled") then Ok VCanceled
  else unknown "Attempt verdict" s.

Definition parse_exit_classification (s : string) : result StoreError ExitClassification :=
  if decide (s = "accepted") then Ok ExitAccepted
  else if decide (s = "retryable") then Ok ExitRetryable
  else if decide (s = "failed") then Ok ExitFailed
  else unknown "exit classification" s.
Definition exit_classification_string (c : ExitClassification) : string :=
  match c with ExitAccepted => "accepted" | ExitRetryable => "retryable" | ExitFailed => "failed" end.

Definition parse_observation_source (s : string) : result StoreError ConditionObservationSource :=
  if decide (s = "filesystem_rescan") then Ok SourceFilesystem
  else if decide (s = "clock") then Ok SourceClock
  else if decide (s = "probe") then Ok SourceProbe
  else if decide (s = "invalidation") then Ok SourceInvalidation
  else unknown "Condition observation source" s.
Definition observation_source_string (v : ConditionObservationSource) : string :=
  match v with
  | SourceFilesystem => "filesystem_rescan" | SourceClock => "clock" | SourceProbe => "probe"
  | SourceInvalidation => "invalidation"
  end.

(** ** Results a newer version may add to *)
Inductive ReconciliationResult :=
| StillResolves | BoundaryNotEmpty | BoundaryUninspectable | IdentityUnavailable | IdentityAbsent
| PidReused | ProvenEmpty | PriorBoot | UnknownReconciliation (text : string).

Definition parse_reconciliation_result (s : string) : result StoreError ReconciliationResult :=
  if decide (s = "still_resolves") then Ok StillResolves
  else if decide (s = "boundary_not_empty") then Ok BoundaryNotEmpty
  else if decide (s = "boundary_uninspectable") then Ok BoundaryUninspectable
  else if decide (s = "identity_unavailable") then Ok IdentityUnavailable
  else if decide (s = "identity_absent") then Ok IdentityAbsent
  else if decide (s = "pid_reused") then Ok PidReused
  else if decide (s = "proven_empty") then Ok ProvenEmpty
  else if decide (s = "prior_boot") then Ok PriorBoot
  else unknown "reconciliation result" s.
Definition reconciliation_result_string (r : ReconciliationResult) : result StoreError string :=
  match r with
  | StillResolves => Ok "still_resolves" | BoundaryNotEmpty => Ok "boundary_not_empty"
  | BoundaryUninspectable => Ok "boundary_uninspectable" | IdentityUnavailable => Ok "identity_unavailable"
  | IdentityAbsent => Ok "identity_absent" | PidReused => Ok "pid_reused" | ProvenEmpty => Ok "proven_empty"
  | PriorBoot => Ok "prior_boot"
  | UnknownReconciliation other =>
      unknown "reconciliation result cannot enter durable state:" other
  end%string.

Inductive ContainmentResolution :=
| ResolvedEmpty | ResolvedReboot | ForcedRiskAcceptance | UnknownResolution (text : string).

Definition parse_containment_resolution (s : string) : result StoreError ContainmentResolution :=
  if decide (s = "proven_empty") then Ok ResolvedEmpty
  else if decide (s = "reboot") then Ok ResolvedReboot
  else if decide (s = "forced_risk_acceptance") then Ok ForcedRiskAcceptance
  else unknown "containment resolution" s.
Definition containment_resolution_string (r : ContainmentResolution) : result StoreError string :=
  match r with
  | ResolvedEmpty => Ok "proven_empty" | ResolvedReboot => Ok "reboot"
  | ForcedRiskAcceptance => Ok "forced_risk_acceptance"
  | UnknownResolution other => unknown "containment resolution cannot enter durable state:" other
  end%string.

(** ** Durable identifiers *)
Section durable.
(* [Uuid::to_string] and [Uuid::parse_str] *)
Context (uuid_to_string : Uuid → string) (parse_uuid : string → option Uuid).

Definition tilde : ascii := Ascii.ascii_of_N 126.

(** [str::split_once('~')] *)
Fixpoint split_tilde (s : string) : option (string * string) :=
  match s with
  | "" => None
  | String c rest =>
      if decide (c = tilde) then Some ("", rest)
      else '(a, b) ← split_tilde rest; Some (String c a, b)
  end.

Definition durable_to_string (d : DurableId) : string :=
  uuid_to_string (store_uuid d) +:+ String tilde (uuid_to_string (entity_uuid d)).

Definition durable_from_str (value : string) : option DurableId :=
  '(store, entity) ← split_tilde value;
  if contains_any [tilde] entity then None
  else
    store ← parse_uuid store;
    entity ← parse_uuid entity;
    Some {| store_uuid := store; entity_uuid := entity |}.
End durable.

(** ** Reading back *)
(** Texts and values correspond: a value is read from its text and from no other. *)
Definition exact {A} (print : A → result StoreError string) (parse : string → result StoreError A) : Prop :=
  ∀ a s, print a = Ok s ↔ parse s = Ok a.

(** What is not the text of a value is the error of an invalid state. *)
Definition strict {A} (parse : string → result StoreError A) : Prop :=
  ∀ s e, parse s = Err e → ∃ detail, e = EInvalidState detail.

Ltac exact_column :=
  let a := fresh in let s := fresh in let H := fresh in
  intros a s; split; intros H;
  [destruct a; simplify_eq/=; reflexivity || done
  |repeat match type of H with (if decide ?P then _ else _) = _ => destruct (decide P) as [->|]; [by simplify_eq|] end; done].
Ltac strict_column :=
  let H := fresh in intros ? ? H;
  repeat match type of H with (if decide ?P then _ else _) = _ => destruct (decide P); [done|] end;
  unfold unknown in H; simplify_eq; eauto.

Lemma outcome_column : exact (λ o, Ok (outcome_string o)) parse_outcome ∧ strict parse_outcome.
Proof. unfold parse_outcome. split; [exact_column|strict_column]. Qed.
Lemma verdict_column : exact (λ v, Ok (verdict_str v)) parse_attempt_verdict ∧ strict parse_attempt_verdict.
Proof. unfold parse_attempt_verdict. split; [exact_column|strict_column]. Qed.
Lemma classification_column :
  exact (λ c, Ok (exit_classification_string c)) parse_exit_classification ∧ strict parse_exit_classification.
Proof. unfold parse_exit_classification. split; [exact_column|strict_column]. Qed.
Lemma source_column :
  exact (λ v, Ok (observation_source_string v)) parse_observation_source ∧ strict parse_observation_source.
Proof. unfold parse_observation_source. split; [exact_column|strict_column]. Qed.
Lemma reconciliation_column :
  exact reconciliation_result_string parse_reconciliation_result ∧ strict parse_reconciliation_result.
Proof. unfold parse_reconciliation_result. split; [exact_column|strict_column]. Qed.
Lemma resolution_column :
  exact containment_resolution_string parse_containment_resolution ∧ strict parse_containment_resolution.
Proof. unfold parse_containment_resolution. split; [exact_column|strict_column]. Qed.

(** Every state has one text. *)
Definition named {A} (parse : string → result StoreError A) : Prop := ∀ a, ∃ s, ∀ s', parse s' = Ok a ↔ s' = s.

Ltac named_column names :=
  let a := fresh in let s' := fresh in let H := fresh in
  intros a; exists (names a); intros s'; split; [intros H|intros ->; by destruct a];
  repeat match type of H with (if decide ?P then _ else _) = _ => destruct (decide P) as [->|]; [by simplify_eq|] end; done.

Lemma state_columns :
  (named parse_job_state ∧ strict parse_job_state) ∧
  (named parse_invocation_role ∧ strict parse_invocation_role) ∧
  (named parse_invocation_state ∧ strict parse_invocation_state) ∧
  (named parse_containment_state ∧ strict parse_containment_state) ∧
  (named parse_condition_state ∧ strict parse_condition_state).
Proof.
  unfold parse_job_state, parse_invocation_role, parse_invocation_state, parse_containment_state, parse_condition_state.
  split_and!; try strict_column.
  - named_column (λ a, match a with Pending => "pending" | Active => "active" | Finalizing => "finalizing" | Final => "final" end).
  - named_column (λ a, match a with RolePrimary => "primary" | RoleProbe => "probe" | RolePostcondition => "postcondition" end).
  - named_column (λ a, match a with IPrepared => "prepared" | IStarted => "started" | IExited => "exited" | IResolved => "resolved" end).
  - named_column (λ a, match a with CCreating => "creating" | CLive => "live" | CEmpty => "empty" | CUncertain => "uncertain"
      | CCleared => "cleared" end).
  - named_column (λ a, match a with CondWaiting => "waiting" | CondSatisfied => "satisfied" | CondFailed => "failed" end).
Qed.

Lemma contains_tilde_cons c s : contains_any [tilde] (String c s) = bool_decide (c = tilde) || contains_any [tilde] s.
Proof.
  unfold contains_any, string_exists. simpl. rewrite negb_andb, negb_involutive. f_equal.
  apply bool_decide_ext. by rewrite list_elem_of_singleton.
Qed.

Lemma split_tilde_app a b : contains_any [tilde] a = false → split_tilde (a +:+ String tilde b) = Some (a, b).
Proof.
  induction a as [|c a IH]; intros H; [done|]. rewrite contains_tilde_cons in H. apply orb_false_iff in H as [Hc Ha].
  apply bool_decide_eq_false in Hc. rewrite app_cons_s. simpl. rewrite decide_False by done. by rewrite IH.
Qed.

Lemma split_tilde_Some s a b : split_tilde s = Some (a, b) → s = a +:+ String tilde b ∧ contains_any [tilde] a = false.
Proof.
  revert a. induction s as [|c s IH]; intros a; simpl; [done|]. case_decide as Hc.
  { intros [= <- <-]. by subst. }
  destruct (split_tilde s) as [[a' b']|]; [|done]. intros [= <- <-]. destruct (IH a' eq_refl) as [-> Ha].
  rewrite app_cons_s, contains_tilde_cons, Ha. by rewrite bool_decide_eq_false_2.
Qed.

(** What the store writes as a name it reads back as the same value, and no other
    text is read as that value: outcomes, verdicts, exit classes, sources,
    reconciliation results and resolutions with their printers, states and roles by
    their names, durable identifiers by their two UUIDs.  Any other text is an error of
    the state of the store, and a result only a newer version knows is not written. *)
Theorem stored_names_read_back (uuid_to_string : Uuid → string) (parse_uuid : string → option Uuid) :
  (∀ u, parse_uuid (uuid_to_string u) = Some u) → (∀ u, contains_any [tilde] (uuid_to_string u) = false) →
  (exact (λ o, Ok (outcome_string o)) parse_outcome ∧ strict parse_outcome) ∧
  (exact (λ v, Ok (verdict_str v)) parse_attempt_verdict ∧ strict parse_attempt_verdict) ∧
  (exact (λ c, Ok (exit_classification_string c)) parse_exit_classification ∧ strict parse_exit_classification) ∧
  (exact (λ v, Ok (observation_source_string v)) parse_observation_source ∧ strict parse_observation_source) ∧
  (exact reconciliation_result_string parse_reconciliation_result ∧ strict parse_reconciliation_result) ∧
  (exact containment_resolution_string parse_containment_resolution ∧ strict parse_containment_resolution) ∧
  ((named parse_job_state ∧ strict parse_job_state) ∧ (named parse_invocation_role ∧ strict parse_invocation_role) ∧
   (named parse_invocation_state ∧ strict parse_invocation_state) ∧
   (named parse_containment_state ∧ strict parse_containment_state) ∧
   (named parse_condition_state ∧ strict parse_condition_state)) ∧
  (∀ text, ¬ is_ok (reconciliation_result_string (UnknownReconciliation text)) ∧
           ¬ is_ok (containment_resolution_string (UnknownResolution text))) ∧
  (∀ d, durable_from_str parse_uuid (durable_to_string uuid_to_string d) = Some d) ∧
  (∀ value d, durable_from_str parse_uuid value = Some d →
     ∃ store entity, value = store +:+ String tilde entity ∧ contains_any [tilde] store = false ∧
       contains_any [tilde] entity = false ∧ parse_uuid store = Some (store_uuid d) ∧ parse_uuid entity = Some (entity_uuid d)).
Proof.
  intros Hp Ht.
  split_and!; try apply outcome_column; try apply verdict_column; try apply classification_column;
    try apply source_column; try apply reconciliation_column; try apply resolution_column; try apply state_columns.
  - intros text. split; by intros [].
  - intros [store entity]. unfold durable_from_str, durable_to_string. simpl.
    rewrite split_tilde_app by done. simpl. by rewrite Ht, !Hp.
  - intros value d. unfold durable_from_str. destruct (split_tilde value) as [[store entity]|] eqn:E; [|done]. simpl.
    destruct (contains_any [tilde] entity) eqn:He; [done|].
    destruct (parse_uuid store) as [u|] eqn:H1; [|done]. destruct (parse_uuid entity) as [w|] eqn:H2; [|done].
    intros [= <-]. apply split_tilde_Some in E as [-> Hs]. by exists store, entity.
Qed.

Module ColumnsDemo.
Fixpoint marks (n : nat) : string := match n with O => "" | S n => String (Ascii.ascii_of_N 120) (marks n) end.
Definition text (u : Uuid) : string := marks (N.to_nat u).

Lemma text_len u : len (text u) = u.
Proof. unfold text, len. enough (∀ n, String.length (marks n) = n) as ->; [lia|]. induction n; simpl; congruence. Qed.
Lemma text_tilde u : contains_any [tilde] (text u) = false.
Proof. unfold text. induction (N.to_nat u) as [|n IH]; [done|]. simpl marks. by rewrite contains_tilde_cons, IH. Qed.

Lemma stored_names_read_back_witness :
  durable_from_str (λ s, Some (len s)) (durable_to_string text {| store_uuid := 2; entity_uuid := 3 |})
  = Some {| store_uuid := 2; entity_uuid := 3 |}.
Proof.
  apply (stored_names_read_back text (λ s, Some (len s))).
  - intros u. by rewrite text_len.
  - apply text_tilde.
Defined.
End ColumnsDemo.
