(* ===== verification/ProcessRecords.v ===== *)
(** * ProcessRecords: recorded identities of root processes
      ([src/src/store/process_records.rs], the codec of [src/src/identity.rs])

    The identity of the root of an invocation is kept twice: as a typed record and
    in columns that older stores read. *)
From S2P Require Import Prelude Spec Validate Kernel Scoped Observation Machine MachineStore Reservation.
From S2P Require Import Native.

Definition encode_process_record (identity : ProcessIdentity) (root_pid : N)
    : result string (string * string * Z) :=
  match identity with
  | WindowsProcess host_id boot_id pid creation =>
      if decide (pid = root_pid) then
        creation ← ok_or (i64_of_u64 creation) "process creation identity exceeds SQLite range"%string;
        Ok (host_id, boot_id, creation)
      else Err "process identity PID does not match created PID"%string
  | UnknownProcess _ _ => Err "unknown process identity cannot authorize native containment"%string
  | LinuxProcess _ _ _ _ _ _ =>
      Err "Linux identity requires the platform identity journal, not legacy FILETIME columns"%string
  end.

Definition decode_legacy_process_record (pid : option N) (host_id boot_id : option string) (creation : option Z)
    : result string (option ProcessIdentity) :=
  match pid, host_id, boot_id, creation with
  | Some pid, Some host_id, Some boot_id, Some creation =>
      _ ← guard_err (bool_decide (creation < 0)%Z) "negative process creation identity"%string;
      Ok (Some (WindowsProcess host_id boot_id pid (Z.to_N creation)))
  | _, _, _, _ => Ok None
  end.

Definition invalid_state {A} (r : result string A) : result StoreError A :=
  match r with Ok a => Ok a | Err detail => Err (EInvalidState detail) end.

Definition LegacyColumns : Type := option string * option string * option Z.

Definition legacy_columns (identity : ProcessIdentity) (pid : N) : result StoreError LegacyColumns :=
  match identity with
  | LinuxProcess host_id boot_id actual start_ticks pid_namespace_inode _ =>
      if bool_decide (actual = pid) && bool_decide (pid ≠ 0) && bool_decide (start_ticks ≠ 0)
         && bool_decide (pid_namespace_inode ≠ 0) && bool_decide (host_id ≠ ""%string)
         && bool_decide (boot_id ≠ ""%string)
      then Ok (Some host_id, Some boot_id, None)
      else Err (EInvalidState "invalid exact Linux process identity")
  | _ =>
      '(host, boot, creation) ← invalid_state (encode_process_record identity pid);
      Ok (Some host, Some boot, Some creation)
  end.

(** [record]: the first identity of an invocation stays; another one is refused. *)
Definition record_identity (invocation : Uuid) (identity : ProcessIdentity) (pid : N) (s : NativeStore)
    : result StoreError NativeStore :=
  _ ← legacy_columns identity pid;
  i ← ok_or (nv_invocations s !! invocation) (ESql "constraint of invocation_process_identities");
  let existing := default identity (ni_root_identity i) in
  _ ← guard_err (bool_decide (existing ≠ identity)) (EInvalidState "Invocation root identity cannot be replaced");
  Ok (upd_invocation invocation (λ i, i <| ni_root_identity := Some existing |>) s).

Definition process_identity_record (typed : option ProcessIdentity) (pid : option N)
    (host boot : option string) (creation : option Z) : result StoreError (option ProcessIdentity) :=
  match typed with
  | None => invalid_state (decode_legacy_process_record pid host boot creation)
  | Some identity =>
      recorded_pid ← ok_or pid (EInvalidState "typed root has no recorded PID");
      columns ← legacy_columns identity recorded_pid;
      _ ← guard_err (negb (bool_decide (columns = (host, boot, creation))))
            (EInvalidState "typed root disagrees with Invocation columns");
      Ok (Some identity)
  end.

(** The identity of the root of a stored invocation. *)
Definition root_identity_of (i : Invocation) : result StoreError (option ProcessIdentity) :=
  process_identity_record (ni_root_identity i) (ni_root_pid i) (ni_root_host_id i) (ni_root_boot_id i)
    (ni_root_creation_filetime_100ns i).
