(* ===== verification/Lifecycle.v ===== *)
(** * Lifecycle: running invocations and settling attempts
      ([src/src/store/lifecycle.rs], [src/src/store/lease.rs])

    Every operation is one transaction: [Err] leaves the tables as they were.  The
    store runs by itself, not attached to another coordinator.  [permission] is
    what the authority journal answers when a start is recorded; when it is
    [Err], nothing is written. *)
From S2P Require Import Prelude Spec Validate Kernel Scoped Observation Machine MachineStore Reservation.
From S2P Require Import Native ConditionStore ProcessRecords.

(** ** Leases *)
Definition is_closed (state : ContainmentState) : bool :=
  bool_decide (state = CEmpty) || bool_decide (state = CCleared).

(** [NOT EXISTS(SELECT 1 FROM containments JOIN invocations … WHERE attempt_id = ?1 AND
    containments.state NOT IN ('empty', 'cleared'))], [except] being left out. *)
Definition all_closed (s : NativeStore) (attempt : Uuid) (except : option Uuid) : bool :=
  forallb (λ '(key, c, _), bool_decide (Some key = except) || is_closed (nt_state c))
    (containments_of s attempt).

Definition attempt_in (s : NativeStore) (attempt : Uuid) (states : list AttemptState) : bool :=
  match nv_attempts s !! attempt with Some a => bool_decide (na_state a ∈ states) | None => false end.

Definition has_granted_lease (s : NativeStore) (attempt : Uuid) : bool :=
  existsb (λ l, bool_decide (nl_attempt_id l = attempt) && bool_decide (nl_state l = LGranted))
    (btree_values (nv_leases s)).

(** [UPDATE leases SET state = 'released' WHERE attempt_id = ?1 AND state = 'granted'] *)
Definition release_leases (attempt : Uuid) (s : NativeStore) : NativeStore :=
  s <| nv_leases ::= fmap (λ l, where_ (bool_decide (nl_attempt_id l = attempt) && bool_decide (nl_state l = LGranted))
         (λ l, l <| nl_state := LReleased |>) l) |>.

Definition release_attempt_lease_if_safe (s : NativeStore) (attempt : Uuid) : NativeStore * bool :=
  if attempt_in s attempt [ASettled] && all_closed s attempt None
  then (release_leases attempt s, has_granted_lease s attempt) else (s, false).

Definition release_never_run_attempt_lease_if_safe (s : NativeStore) (attempt : Uuid) : NativeStore * bool :=
  if attempt_in s attempt [AStarting; ARunning]
     && forallb (λ i, bool_decide (ni_attempt_id i ≠ attempt) || bool_decide (ni_state i = IResolved))
          (btree_values (nv_invocations s))
     && all_closed s attempt None
  then (release_leases attempt s, has_granted_lease s attempt) else (s, false).

Definition attempt_lease_release_eligible_after_target (s : NativeStore) (attempt target : Uuid) : bool :=
  attempt_in s attempt [ASettled] && has_granted_lease s attempt && all_closed s attempt (Some target).

Definition release_all_safe_attempt_leases (s : NativeStore) : NativeStore :=
  s <| nv_leases ::= fmap (λ l, where_ (bool_decide (nl_state l = LGranted)
         && attempt_in s (nl_attempt_id l) [ASettled] && all_closed s (nl_attempt_id l) None)
         (λ l, l <| nl_state := LReleased |>) l) |>.

(** ** Starting *)
Definition coalesce {A} (new old : option A) : option A := match new with Some _ => new | None => old end.

Definition columns_of (identity : option ProcessIdentity) (pid : N) : result StoreError LegacyColumns :=
  match identity with Some i => legacy_columns i pid | None => Ok (None, None, None) end.

Definition mark_started_with_ticket (d : Daemon) (s : NativeStore) (job : PreparedJob) (root_pid : N)
    (executable_hash : string) (identity : option ProcessIdentity) (permission : result StoreError unit)
    (started : Z) : result StoreError NativeStore :=
  '(host, boot, creation) ← columns_of identity root_pid;
  j ← get_job s (pj_job_id job);
  let state_allowed := if decide (pj_role job = RoleProbe) then bool_decide (nj_state j = Pending)
                       else bool_decide (nj_state j = Active) in
  _ ← guard_err (negb state_allowed) (EInvalidState "job cannot start");
  _ ← permission;
  s ← match identity with Some i => record_identity (pj_invocation_id job) i root_pid s | None => Ok s end;
  let s := upd_invocation (pj_invocation_id job) (λ i, i <| ni_state := IStarted |> <| ni_root_pid := Some root_pid |>
    <| ni_executable_hash := Some executable_hash |> <| ni_started_ms := Some started |>
    <| ni_daemon_generation := Some (dm_generation d) |> <| ni_root_host_id := host |>
    <| ni_root_boot_id := boot |> <| ni_root_creation_filetime_100ns := creation |>) s in
  let s := upd_containment (pj_containment_id job) (λ c, c <| nt_state := CLive |>) s in
  let s := if decide (pj_role job = RoleProbe) then s
           else upd_attempt (pj_attempt_id job) (λ a, a <| na_state := ARunning |>) s in
  let s := if decide (pj_role job = RolePrimary)
           then upd_job (pj_job_id job) (λ j, j <| nj_started_ms ::= (λ old, coalesce old (Some started)) |>) s else s in
  Ok s.

Definition commit_log_offset (s : NativeStore) (job : Uuid) (stdout : bool) (offset : N) : NativeStore :=
  upd_job job (λ j, if stdout then j <| nj_stdout_len := offset |> else j <| nj_stderr_len := offset |>) s.

Definition mark_root_exited (s : NativeStore) (job : PreparedJob) (exit_code now : Z)
    : result StoreError NativeStore :=
  j ← get_job s (pj_job_id job);
  let state_allowed := if decide (pj_role job = RoleProbe)
    then bool_decide (nj_state j = Pending) || bool_decide (nj_state j = Final)
    else bool_decide (nj_state j = Active) in
  _ ← guard_err (negb state_allowed) (EInvalidState "job cannot record root exit");
  let s := upd_invocation (pj_invocation_id job) (λ i, where_ (bool_decide (ni_state i = IStarted))
    (λ i, i <| ni_state := IExited |> <| ni_root_exit_code := Some exit_code |> <| ni_exited_ms := Some now |>) i) s in
  Ok (if decide (pj_role job = RolePrimary)
      then upd_job (pj_job_id job) (λ j, where_ (bool_decide (nj_state j = Active))
             (λ j, j <| nj_root_exit_code := Some exit_code |>) j) s else s).

Definition mark_invocation_resolved (s : NativeStore) (job : PreparedJob) (exit_code : option Z)
    (classification : option ExitClassification) (now : Z) : NativeStore :=
  let s := upd_invocation (pj_invocation_id job) (λ i, i <| ni_state := IResolved |>
    <| ni_root_exit_code ::= coalesce exit_code |> <| ni_exit_classification := classification |>
    <| ni_finished_ms := Some now |>) s in
  upd_containment (pj_containment_id job) (λ c, c <| nt_state := CEmpty |>) s.

(** ** The primary result *)
Definition validate_primary_result_identity (result : PrimaryInvocationResult) (job : PreparedJob)
    : Prelude.result StoreError unit :=
  guard_err (bool_decide (pr_schema_version result ≠ 1) || bool_decide (pr_job_id result ≠ pj_job_id job)
             || bool_decide (pr_attempt_id result ≠ pj_attempt_id job)
             || bool_decide (pr_invocation_id result ≠ pj_invocation_id job)
             || bool_decide (pr_containment result ≠ CEmpty))
    (EInvalidState "durable primary result identity or schema does not match the active primary Invocation").

Definition validate_primary_result_semantics (verdict : InvocationVerdict) (termination : TerminationReason)
    (root_exit_code : option Z) : Prelude.result StoreError unit :=
  let pair_is_valid := match verdict, termination with
    | PSucceeded, TExited | PProcessFailed, TExited | PStartFailed, TStartFailed | PTimedOut, TTimeout
    | PInterrupted, TInterrupt | PSafetyFailed, TSafetyFailure | PCanceled, TCancel => true
    | _, _ => false end in
  let root_is_valid := match verdict with
    | PSucceeded => bool_decide (root_exit_code = Some 0%Z)
    | PProcessFailed => match root_exit_code with Some code => bool_decide (code ≠ 0%Z) | None => false end
    | _ => true end in
  guard_err (negb pair_is_valid || negb root_is_valid)
    (EInvalidState "primary Invocation verdict, termination, and root exit are inconsistent").

(** The containment of an invocation ([JOIN containments]); the first one in key order. *)
Definition containment_of (s : NativeStore) (invocation : Uuid) : option Containment :=
  List.find (λ c, bool_decide (nt_invocation_id c = invocation)) (btree_values (nv_containments s)).

Definition record_primary_result (s : NativeStore) (job : PreparedJob) (verdict : InvocationVerdict)
    (termination : TerminationReason) : result StoreError (NativeStore * PrimaryInvocationResult) :=
  _ ← guard_err (bool_decide (pj_role job ≠ RolePrimary))
        (EInvalidState "only the primary Invocation has a primary result");
  a ← get_attempt s (pj_attempt_id job);
  match na_primary_result a with
  | Some existing =>
      _ ← validate_primary_result_identity existing job;
      _ ← validate_primary_result_semantics (pr_verdict existing) (pr_termination existing) (pr_root_exit_code existing);
      _ ← guard_err (bool_decide (pr_verdict existing ≠ verdict) || bool_decide (pr_termination existing ≠ termination))
            (EInvalidState "durable primary result cannot be replaced");
      Ok (s, existing)
  | None =>
      i ← get_invocation s (pj_invocation_id job);
      c ← ok_or (containment_of s (pj_invocation_id job)) (ESql "no rows");
      _ ← guard_err (bool_decide (ni_attempt_id i ≠ pj_attempt_id job) || bool_decide (ni_role i ≠ RolePrimary))
            (ESql "no rows");
      _ ← guard_err (bool_decide (ni_state i ≠ IResolved) || bool_decide (nt_state c ≠ CEmpty))
            (EInvalidState "primary result requires a resolved Invocation and empty Containment");
      _ ← validate_primary_result_semantics verdict termination (ni_root_exit_code i);
      resolved ← ok_or (ni_finished_ms i) (EInvalidState "resolved primary Invocation has no timestamp");
      let r := {| pr_schema_version := 1; pr_job_id := pj_job_id job; pr_attempt_id := pj_attempt_id job;
                  pr_invocation_id := pj_invocation_id job; pr_verdict := verdict;
                  pr_root_exit_code := ni_root_exit_code i; pr_termination := termination;
                  pr_containment := CEmpty; pr_started_unix_millis := ni_started_ms i;
                  pr_exited_unix_millis := ni_exited_ms i; pr_resolved_unix_millis := resolved |} in
      Ok (upd_attempt (pj_attempt_id job) (λ a, where_ (is_none (na_primary_result a))
            (λ a, a <| na_primary_result := Some r |>) a) s, r)
  end.

(** ** Settling *)

(** [UPDATE jobs SET state = 'pending', attempt_id = NULL, … WHERE id = ?1]: the job
    goes back to the queue without an attempt. *)
Definition requeue_job (job : Uuid) (not_before : Z) (s : NativeStore) : NativeStore :=
  upd_job_state job (λ _, true) (λ j, j <| nj_state := Pending |> <| nj_attempt_id := None |>
    <| nj_invocation_id := None |> <| nj_containment_id := None |> <| nj_root_exit_code := None |>
    <| nj_retry_not_before_ms := Some not_before |> <| nj_cancel_requested := false |>) s.

(** The terminal state a durable deadline outcome stands for. *)
Definition deadline_terminal (o : ConditionDeadlineOutcome) : AttemptVerdict * JobOutcome :=
  match o with DeadlineCanceled => (VCanceled, JCanceled) | DeadlineFailed => (VSafetyFailed, JFailed) end.

(** [readiness_never_started] with a terminal latch: the attempt never ran. *)
Definition settle_never_started (s : NativeStore) (job : PreparedJob) (deadline : option ConditionDeadlineOutcome)
    (now : Z) : NativeStore :=
  let s := if bool_decide (is_Some deadline) then fail_conditions (pj_job_id job) s else s in
  let '(verdict, outcome) := default (VCanceled, JCanceled) (deadline_terminal <$> deadline) in
  let reason := (λ _, "condition_deadline_expired"%string) <$> deadline in
  let s := upd_invocation (pj_invocation_id job) (λ i, i <| ni_started_ms := None |>) s in
  let s := upd_attempt (pj_attempt_id job) (λ a, a <| na_state := ASettled |> <| na_verdict := Some verdict |>
    <| na_safety_reason := reason |> <| na_primary_result := None |> <| na_started_ms := None |>
    <| na_deadline_ms := None |> <| na_finished_ms := Some now |>) s in
  let s := (release_attempt_lease_if_safe s (pj_attempt_id job)).1 in
  let started := first_start s (pj_job_id job) in
  upd_job_state (pj_job_id job) (λ _, true) (λ j, j <| nj_state := Final |> <| nj_outcome := Some outcome |>
    <| nj_reason_code := reason |> <| nj_root_exit_code := None |> <| nj_started_ms := started |>
    <| nj_finished_ms := Some now |> <| nj_retry_not_before_ms := None |>) s.

(** The columns a start that never happened left behind are cleared. *)
Definition forget_start (s : NativeStore) (job : PreparedJob) : NativeStore :=
  let s := upd_invocation (pj_invocation_id job) (λ i, i <| ni_started_ms := None |>) s in
  let s := upd_attempt (pj_attempt_id job) (λ a, a
    <| na_primary_result ::= fmap (λ r, r <| pr_started_unix_millis := None |>) |>
    <| na_started_ms := None |> <| na_deadline_ms := None |>) s in
  let started := first_start s (pj_job_id job) in
  upd_job (pj_job_id job) (λ j, j <| nj_started_ms := started |>) s.

Definition retryable (spec : JobSpec) (index : N) (verdict : AttemptVerdict) : bool :=
  bool_decide (index < retry_max_attempts (job_retry spec))
  && existsb (String.eqb (verdict_str verdict)) (retry_retryable (job_retry spec)).

(** [now] is [settled_now], [retry_now] the clock read for the backoff. *)
Definition settle_attempt (s : NativeStore) (job : PreparedJob) (verdict : AttemptVerdict) (now retry_now : Z)
    : result StoreError (NativeStore * bool) :=
  j ← get_job s (pj_job_id job);
  _ ← guard_err (bool_decide (nj_attempt_id j ≠ Some (pj_attempt_id job))) (ESql "no rows");
  a ← get_attempt s (pj_attempt_id job);
  _ ← guard_err (bool_decide (nj_state j ≠ Active)) (EInvalidState "job cannot settle Attempt");
  let spec := nj_spec j in
  let cancel := nj_cancel_requested j in
  let never_started := bool_decide (verdict = VStartFailed)
    && (bool_decide (is_Some (job_quiet spec)) || negb (bool_decide (length (job_conditions spec) = 0%nat))) in
  let deadline := if never_started then first_deadline s (pj_job_id job) (due_or_failed now) else None in
  if never_started && (bool_decide (is_Some deadline) || cancel)
  then Ok (settle_never_started s job deadline now, false)
  else
    let s := if never_started then forget_start s job else s in
    let retry := negb cancel && retryable spec (na_index a) verdict in
    let s := upd_attempt (pj_attempt_id job) (λ a, a <| na_state := ASettled |> <| na_verdict := Some verdict |>
      <| na_finished_ms := Some now |>) s in
    let s := (release_attempt_lease_if_safe s (pj_attempt_id job)).1 in
    if retry then
      let not_before := after_seconds retry_now (retry_backoff_seconds (job_retry spec)) in
      let s := requeue_job (pj_job_id job) not_before s in
      Ok (reset_conditions_for_retry_tx s (pj_job_id job) not_before, true)
    else
      let effective := if cancel then VCanceled else verdict in
      let s := if decide (effective = verdict) then s
               else upd_attempt (pj_attempt_id job) (λ a, a <| na_verdict := Some effective |>) s in
      Ok (upd_job_state (pj_job_id job) (λ _, true) (λ j, j <| nj_state := Final |>
            <| nj_outcome := Some (outcome_for_verdict effective) |> <| nj_finished_ms := Some now |>
            <| nj_retry_not_before_ms := None |>) s, false).

(** ** Cancellation *)
Definition invocation_stop_requested (s : NativeStore) (job : Uuid) (now : Z)
    : result StoreError (NativeStore * bool) :=
  j ← get_job s job;
  let mine := snd <$> conditions_of s job in
  let stop := nj_cancel_requested j || bool_decide (nj_state j = Final)
    || existsb (λ c, bool_decide (nc_state c = CondFailed) && bool_decide (is_Some (nc_deadline_ms c))) mine in
  let due := existsb (λ c, match nc_deadline_ms c with Some d => bool_decide (d ≤ now)%Z | None => false end) mine in
  if bool_decide (nj_state j = Pending) && due then
    '(s, _) ← expire_condition_deadline_tx s job now; Ok (s, true)
  else Ok (s, stop).

Definition MAX_CANCEL_JOBS : nat := 16.

(** One job of the loop, [now] being the clock it reads. *)
Definition cancel_one (s : NativeStore) (entry : Uuid * Z) : result StoreError NativeStore :=
  let '(job, now) := entry in
  j ← ok_or (nv_jobs s !! job) (ENotFound "job");
  match nj_state j with
  | Pending =>
      '(s, _) ← expire_condition_deadline_tx s job now;
      let s := upd_job_state job (λ j, bool_decide (nj_state j = Pending)) (λ j, j <| nj_cancel_requested := true |>) s in
      let s := (release_reservation job s).1 in
      '(s, _) ← finalize_pending_condition_terminal_if_ready_tx s job now;
      Ok s
  | Active => Ok (upd_job_state job (λ _, true) (λ j, j <| nj_cancel_requested := true |>) s)
  | Final => Ok s
  | Finalizing => Err (EInvalidState "cannot cancel Job")
  end.

(** [clock i] is read for the [i]-th job; the snapshots of the answer are left out. *)
Definition cancel_jobs (s : NativeStore) (jobs : list Uuid) (clock : nat → Z) : result StoreError NativeStore :=
  _ ← guard_err (bool_decide (jobs = [])) (EInvalidSpec "cancel requires at least one explicit Job ID");
  _ ← guard_err (bool_decide (MAX_CANCEL_JOBS < length jobs)%nat) (EInvalidSpec "cancel accepts at most 16 Job IDs per request");
  result_foldM cancel_one s (imap (λ i job, (job, clock i)) jobs).

(** ** Invocations that end without a runner, or without a proof *)
Definition mark_finished (s : NativeStore) (job : PreparedJob) (exit_code : option Z) (outcome : JobOutcome)
    (verdict : AttemptVerdict) (now : Z) : result StoreError NativeStore :=
  j ← get_job s (pj_job_id job);
  _ ← guard_err (bool_decide (nj_state j ≠ Active)) (EInvalidState "job cannot settle");
  let spec := nj_spec j in
  let preserve := bool_decide (pj_role job = RolePrimary) && bool_decide (verdict = VStartFailed)
    && (bool_decide (is_Some (job_quiet spec)) || negb (bool_decide (length (job_conditions spec) = 0%nat))) in
  let deadline := if preserve then first_deadline s (pj_job_id job) (due_or_failed now) else None in
  let s := if bool_decide (is_Some deadline) then fail_conditions (pj_job_id job) s else s in
  let '(verdict, outcome) := match deadline with
    | Some o => deadline_terminal o
    | None => if nj_cancel_requested j then (VCanceled, JCanceled) else (verdict, outcome) end in
  let reason := (λ _, "condition_deadline_expired"%string) <$> deadline in
  let s := upd_invocation (pj_invocation_id job) (λ i, i <| ni_state := IResolved |>
    <| ni_root_exit_code := exit_code |>
    <| ni_started_ms ::= (λ old, if preserve then None else old) |> <| ni_finished_ms := Some now |>) s in
  let s := upd_containment (pj_containment_id job) (λ c, c <| nt_state := CEmpty |>) s in
  let s := upd_attempt (pj_attempt_id job) (λ a, a <| na_state := ASettled |> <| na_verdict := Some verdict |>
    <| na_safety_reason := reason |> <| na_started_ms ::= (λ old, if preserve then None else old) |>
    <| na_deadline_ms ::= (λ old, if preserve then None else old) |> <| na_finished_ms := Some now |>) s in
  let s := (release_attempt_lease_if_safe s (pj_attempt_id job)).1 in
  let started := first_start s (pj_job_id job) in
  Ok (upd_job_state (pj_job_id job) (λ _, true) (λ j, j <| nj_state := Final |> <| nj_outcome := Some outcome |>
        <| nj_reason_code := reason |>
        <| nj_root_exit_code ::= (λ old, if decide (pj_role job = RolePrimary) then exit_code else old) |>
        <| nj_started_ms ::= (λ old, if preserve then started else old) |> <| nj_finished_ms := Some now |>) s).

(** The clocks are read at the start, when the incident opens and when the
    invocation resolves. *)
Definition mark_uncertain_settlement (s : NativeStore) (job : PreparedJob) (exit_code : option Z)
    (verdict : AttemptVerdict) (safety_reason : option string) (outcome : JobOutcome) (preserve : bool)
    (now opened resolved : Z) : result StoreError NativeStore :=
  j ← get_job s (pj_job_id job);
  _ ← guard_err (bool_decide (nj_state j ≠ Active)) (EInvalidState "job cannot become uncertain");
  let deadline := if preserve then first_deadline s (pj_job_id job) (due_or_failed now) else None in
  let s := if bool_decide (is_Some deadline) then fail_conditions (pj_job_id job) s else s in
  let '(verdict, reason, outcome) := match deadline with
    | Some o => (fst (deadline_terminal o), Some "condition_deadline_expired"%string, snd (deadline_terminal o))
    | None => if preserve && nj_cancel_requested j then (VCanceled, None, JCanceled)
              else (verdict, safety_reason, outcome) end in
  let sequence := last_incident s + 1 in
  i ← get_invocation s (pj_invocation_id job);
  a ← get_attempt s (ni_attempt_id i);
  owner ← get_job s (na_job_id a);
  let s := upd_invocation (pj_invocation_id job) (λ i, where_ (bool_decide (ni_state i ≠ IResolved))
    (λ i, i <| ni_state := IResolved |> <| ni_root_exit_code ::= coalesce exit_code |>
            <| ni_finished_ms := Some resolved |>) i) s in
  let s := open_incident (pj_containment_id job) sequence (default (verdict_str verdict) reason)
    "cleanup could not be proven within the bounded runner wait" opened (job_resources (nj_spec owner)) s in
  let s := upd_attempt (pj_attempt_id job) (λ a, where_ (bool_decide (na_state a ≠ ASettled))
    (λ a, a <| na_state := ASettled |> <| na_verdict := Some verdict |> <| na_safety_reason := reason |>
            <| na_started_ms ::= (λ old, if preserve then None else old) |>
            <| na_deadline_ms ::= (λ old, if preserve then None else old) |> <| na_finished_ms := Some now |>) a) s in
  let s := if preserve then upd_invocation (pj_invocation_id job) (λ i, i <| ni_started_ms := None |>) s else s in
  let started := first_start s (pj_job_id job) in
  let s := if preserve then upd_job (pj_job_id job) (λ j, j <| nj_started_ms := started |>) s else s in
  Ok (upd_job_state (pj_job_id job) (λ j, bool_decide (nj_state j = Active)) (λ j, j <| nj_state := Final |>
        <| nj_outcome := Some outcome |> <| nj_reason_code := reason |>
        <| nj_root_exit_code ::= coalesce (if decide (pj_role job = RolePrimary) then exit_code else None) |>
        <| nj_finished_ms := Some now |>) s).

Definition mark_uncertain (s : NativeStore) (job : PreparedJob) (exit_code : option Z) (verdict : AttemptVerdict)
    (now opened resolved : Z) : result StoreError NativeStore :=
  mark_uncertain_settlement s job exit_code verdict None JInterrupted false now opened resolved.

Definition mark_pre_release_cleanup_uncertain (s : NativeStore) (job : PreparedJob) (exit_code : option Z)
    (now opened resolved : Z) : result StoreError NativeStore :=
  mark_uncertain_settlement s job exit_code VSafetyFailed (Some "pre_release_cleanup_uncertain"%string) JFailed true
    now opened resolved.
