(* ===== verification/Schedule.v ===== *)
(** * Schedule: admission and start of native jobs
      ([src/src/store/schedule.rs], [src/src/store/admitting.rs],
      [dependency_blockers_tx] of [src/src/store/admission.rs])

    A pass over the pending jobs prepares at most one invocation per job: a probe of
    one of its conditions, or its primary.  Clocks, fresh identifiers, the sample of
    the host and the answers of the file system are fields of [PrepareInput]. *)
From S2P Require Import Prelude Spec Validate Kernel Scoped Observation Machine MachineStore Reservation.
From S2P Require Import Native ConditionStore ProcessRecords Lifecycle.

(** ** Transactions *)
Inductive Tx (A : Type) := Commit (s : NativeStore) (a : A) | Rollback (a : A).
Arguments Commit {A} s a.
Arguments Rollback {A} a.

Definition run_tx {A} (s : NativeStore) (r : result StoreError (Tx A)) : NativeStore * result StoreError A :=
  match r with
  | Ok (Commit s' a) => (s', Ok a)
  | Ok (Rollback a) => (s, Ok a)
  | Err e => (s, Err e)
  end.

Inductive PrepareJob := PrepareReady (job : PreparedJob) | PrepareBlocked | PrepareStateChanged.

(** The result of a preparation, or the job whose condition is to be probed. *)
Definition Preparation : Type := PrepareJob + JobSpec.

(** ** The order of the queue *)
Definition native_key (now : Z) (row : Uuid * Job) : ScheduleKey :=
  {| sk_effective_priority := effective_priority_at (job_priority (nj_spec row.2)) (nj_accepted_ms row.2) now;
     sk_accepted_ms := nj_accepted_ms row.2; sk_rowid := nj_rowid row.2 |}.
Definition queue_le (now : Z) (p q : Uuid * Job) : Prop := schedule_le (native_key now p) (native_key now q).
#[global] Instance queue_le_dec now : RelDecision (queue_le now).
Proof. intros p q. unfold queue_le. apply _. Defined.

Definition pending_jobs_at (s : NativeStore) (now : Z) : list Uuid :=
  fst <$> sort_by (queue_le now)
    (List.filter (λ row : Uuid * Job, bool_decide (nj_state row.2 = Pending)) (btree_entries (nv_jobs s))).

(** [position … map(index + 1)] *)
Definition queue_rank_for_job_at (s : NativeStore) (job : Uuid) (now : Z) : option N :=
  '(i, _) ← list_find (λ key, key = job) (pending_jobs_at s now);
  Some (N.min (N.min (N.of_nat i) u64_max + 1) u64_max).

(** ** Dependencies *)
Definition batch_le (p q : Job * DependencyKind) : Prop :=
  match nj_batch_index p.1, nj_batch_index q.1 with
  | None, _ => True
  | Some _, None => False
  | Some a, Some b => (a ≤ b)%N
  end.
#[global] Instance batch_le_dec : RelDecision batch_le.
Proof. intros p q. unfold batch_le. destruct (nj_batch_index p.1), (nj_batch_index q.1); apply _. Defined.

Definition predecessors (s : NativeStore) (job : Uuid) : list (Job * DependencyKind) :=
  sort_by batch_le (omap (λ '(predecessor, successor, kind),
    if bool_decide (successor = job) then j ← nv_jobs s !! predecessor; Some (j, kind) else None)
    (nv_dependencies s)).

Definition dependency_satisfied (kind : DependencyKind) (outcome : option JobOutcome) : bool :=
  match kind with
  | DependencySuccess => bool_decide (outcome = Some JSucceeded)
  | DependencyFailure => bool_decide (outcome = Some JFailed)
  | DependencyTerminal => true
  end.

Definition dependency_blockers_tx (s : NativeStore) (job : Uuid) : list Blocker * bool :=
  foldl (λ '(blockers, impossible) '(j, kind),
    if bool_decide (nj_state j ≠ Final) then
      (blockers ++ [{| blocker_code := "dependency_pending";
                       blocker_detail := default "predecessor"%string (nj_batch_member j) |}], impossible)
    else (blockers, impossible || negb (dependency_satisfied kind (nj_outcome j))))
    ([], false) (predecessors s job).

(** ** Staged input ([src/src/store/input.rs]) *)
Definition MAX_STDIN_BYTES : N := 64 * 1024 * 1024.

Definition is_lower_hex (c : ascii) : bool :=
  let n := N_of_ascii c in bool_decide (48 ≤ n ≤ 57) || bool_decide (97 ≤ n ≤ 102).

Definition validate_input_ref (input : string * N) : result StoreError unit :=
  guard_err (bool_decide (MAX_STDIN_BYTES < input.2) || bool_decide (len input.1 ≠ 64)
             || negb (string_forall is_lower_hex input.1))
    (EInvalidSpec "staged stdin must be at most 67108864 bytes with a lowercase SHA-256").

Definition validate_input_shape (spec : JobSpec) (stdin : option (string * N)) : result StoreError unit :=
  match job_stdin spec, stdin with
  | StdinEof, None => Ok tt
  | StdinFile _, Some input => validate_input_ref input
  | StdinEof, Some _ => Err (EInvalidSpec "EOF stdin must not carry a staged input")
  | StdinFile _, None => Err (EInvalidSpec "file stdin requires one committed staged input")
  end.

Definition staged_input (hash : option string) (length : option N) : result StoreError (option (string * N)) :=
  match hash, length with
  | Some sha256, Some length => Ok (Some (sha256, length))
  | None, None => Ok None
  | _, _ => Err (EInvalidState "job has a partial staged stdin reference")
  end.

(** ** Admission rows *)

(** [INSERT OR IGNORE INTO admissions] *)
Definition ensure_admitting_row (attempt : Uuid) (now : Z) (wall_limit_seconds : N) (s : NativeStore) : NativeStore :=
  match nv_admissions s !! attempt with
  | Some _ => s
  | None => s <| nv_admissions ::= <[attempt :=
      {| nm_admitting_started_ms := now; nm_wall_deadline_ms := after_seconds now wall_limit_seconds;
         nm_quiet_consumed_ms := 0; nm_last_eval_monotonic_ms := None; nm_last_eval_generation := None;
         nm_quiet_generation := None; nm_quiet_first_monotonic_ms := None; nm_quiet_last_monotonic_ms := None;
         nm_deferral_count := 0; nm_retry_not_before_ms := None; nm_last_blockers := [];
         nm_last_evidence := None; nm_reservation_generation := None; nm_reservation_evidence := None;
         nm_release_evidence := None; nm_pre_resume_defer_reason := None; nm_gpu_uuid := None;
         nm_gpu_driver_version := None |}]> |>
  end.

Definition admission_deadline_expired (s : NativeStore) (attempt : Uuid) (now : Z) : bool :=
  match nv_admissions s !! attempt with
  | Some m => bool_decide (nm_wall_deadline_ms m ≤ now)%Z | None => false end.

Definition record_admission_blockers (attempt : Uuid) (blockers : list Blocker) (s : NativeStore) : NativeStore :=
  upd_admission attempt (λ m, m <| nm_last_blockers := blockers |>) s.

Definition record_admission_context (attempt : Uuid) (context : AdmissionContext) (s : NativeStore) : NativeStore :=
  upd_admission attempt (λ m, m <| nm_last_blockers := ac_blockers context |>
    <| nm_last_evidence := Some context |>) s.

Definition pause_quiet_progress (attempt : Uuid) (s : NativeStore) : NativeStore :=
  upd_admission attempt (λ m, m <| nm_last_eval_monotonic_ms := None |> <| nm_last_eval_generation := None |>
    <| nm_quiet_generation := None |> <| nm_quiet_first_monotonic_ms := None |>
    <| nm_quiet_last_monotonic_ms := None |>) s.

Definition settle_admission (s : NativeStore) (spec : JobSpec) (job attempt : Uuid) (reason : string) (now : Z)
    : result StoreError NativeStore :=
  a ← get_attempt s attempt;
  let s := upd_attempt attempt (λ a, a <| na_state := ASettled |> <| na_verdict := Some VSafetyFailed |>
    <| na_safety_reason := Some reason |> <| na_finished_ms := Some now |>) s in
  if retryable spec (na_index a) VSafetyFailed then
    let not_before := after_seconds now (retry_backoff_seconds (job_retry spec)) in
    let s := upd_job job (λ j, where_ (bool_decide (nj_state j = Pending)) (λ j, j <| nj_attempt_id := None |>
      <| nj_invocation_id := None |> <| nj_containment_id := None |>
      <| nj_retry_not_before_ms := Some not_before |>) j) s in
    Ok (reset_conditions_for_retry_tx s job not_before)
  else
    Ok (upd_job_state job (λ j, bool_decide (nj_state j = Pending)) (λ j, j <| nj_state := Final |>
          <| nj_outcome := Some JFailed |> <| nj_finished_ms := Some now |> <| nj_retry_not_before_ms := None |>) s).

(** ** What a preparation reads from outside *)
Record PrepareInput := {
  pi_deadline_now : Z;   (* clocks, in the order they are read *)
  pi_pending_now : Z;
  pi_observed_now : Z;
  pi_now : Z;
  pi_skip_now : Z;
  pi_final_now : Z;
  pi_probe_now : Z;
  pi_evaluations : ConditionEvaluations;
  pi_observation : option ObservationMoment;
  pi_provider_clock : result StoreError (Z * N);
  pi_ids : FreshIds;
  pi_oid : Uuid → Uuid;         (* observations of the first rescan *)
  pi_final_oid : Uuid → Uuid;   (* observations of the last one *)
  pi_log_directory : result StoreError unit;
}.

Section schedule.
Context (uuid_to_string : Uuid → string) (condition_json : ConditionSpec → string)
  (resolve_fences : list string → result StoreError (gset string)).
Implicit Types (d : Daemon) (s : NativeStore) (job : Uuid).

(** [SELECT … FROM jobs WHERE id = ?1 AND state = 'pending'
     AND COALESCE(retry_not_before_ms, 0) <= ?2] *)
Definition ready_row s job (now : Z) : option Job :=
  j ← nv_jobs s !! job;
  if bool_decide (nj_state j = Pending) && bool_decide (default 0%Z (nj_retry_not_before_ms j) ≤ now)%Z
  then Some j else None.

(** A reservation is given up; the preparation is over if there was one. *)
Definition yield_reservation s job : Tx Preparation :=
  let '(s', released) := release_reservation job s in
  if released : bool then Commit s' (inl PrepareStateChanged) else Rollback (inl PrepareBlocked).

(** The rows of a primary invocation and of its lease. *)
Definition insert_primary d (attempt : Uuid) (ids : FreshIds) (claims : ResolvedClaims) s
    : result StoreError NativeStore :=
  s ← insert_prepared d attempt (fi_invocation ids) (fi_containment ids) RolePrimary None None s;
  insert_lease (fi_lease ids)
    {| nl_attempt_id := attempt; nl_invocation_id := None; nl_state := LGranted; nl_claims := claims |} s.

Definition activate (attempt : Uuid) (ids : FreshIds) (j : Job) : Job :=
  j <| nj_state := Active |> <| nj_attempt_id := Some attempt |>
    <| nj_invocation_id := Some (fi_invocation ids) |> <| nj_containment_id := Some (fi_containment ids) |>
    <| nj_stdout_len := 0 |> <| nj_stderr_len := 0 |> <| nj_retry_not_before_ms := None |>
    <| nj_reservation_not_before_ms := None |>.

Definition set_starting (from : list AttemptState) (started deadline : option Z) (a : Attempt) : Attempt :=
  where_ (bool_decide (na_state a ∈ from)) (λ a, a <| na_state := AStarting |> <| na_started_ms := started |>
    <| na_deadline_ms := deadline |>) a.

Definition primary_job job (attempt : Uuid) (ids : FreshIds) (spec : JobSpec) (stdin : option (string * N))
    (deadline : option Z) : PreparedJob :=
  {| pj_job_id := job; pj_attempt_id := attempt; pj_invocation_id := fi_invocation ids;
     pj_containment_id := fi_containment ids; pj_spec := spec; pj_stdin := stdin; pj_role := RolePrimary;
     pj_condition_id := None; pj_attempt_deadline_unix_millis := deadline; pj_primary_result := None |}.

Definition refresh_context d (input : PrepareInput) (now : Z) (force : bool) : ConditionRefreshContext :=
  {| cc_daemon_generation := dm_generation d; cc_boot_id := dm_boot_id d; cc_now := now;
     cc_freshness_millis := hoc_condition_rescan_interval_millis (host_observation (dm_config d));
     cc_force := force; cc_evaluations := pi_evaluations input |}.

(** The claims of a primary fit: [scalar_disposition_tx] on the tables. *)
Definition native_disposition d s job (input : PrepareInput) (claims : ResolvedClaims)
    (active : list ResolvedClaims) : result StoreError (NativeStore * ScalarDisposition) :=
  '(v, disposition) ← scalar_disposition_tx (view s) (fi_reservation (pi_ids input))
    (host_resources (dm_config d)) job claims active (pi_now input);
  Ok (write_back v s, disposition).

(** The transaction of [prepare_job_inner]: [inr] asks for a probe of a condition. *)
Definition prepare_tx d s job (input : PrepareInput) : result StoreError (Tx Preparation) :=
  let now := pi_now input in
  match ready_row s job now with
  | None => Ok (Rollback (inl PrepareBlocked))
  | Some j =>
  let spec := nj_spec j in
  '(s, expired) ← expire_condition_deadline_tx s job now;
  if bool_decide (is_Some expired) then Ok (Commit s (inl PrepareStateChanged)) else
  let '(dependency_blockers, impossible) := dependency_blockers_tx s job in
  if impossible : bool then
    Ok (Commit (upd_job_state job (λ j, bool_decide (nj_state j = Pending)) (λ j, j <| nj_state := Final |>
          <| nj_outcome := Some JSkipped |> <| nj_finished_ms := Some (pi_skip_now input) |>) s)
        (inl PrepareStateChanged))
  else if negb (bool_decide (dependency_blockers = [])) then Ok (yield_reservation s job) else
  '(s1, refresh) ← refresh_conditions_tx condition_json s job (refresh_context d input now false) (pi_oid input);
  if cf_deadline_expired refresh then Ok (Commit s1 (inl PrepareStateChanged)) else
  if negb (bool_decide (cf_blockers refresh = [])) then
    let '(s2, released) := release_reservation job s1 in
    let next := if released : bool then inl PrepareStateChanged else inr spec in
    Ok (if (released : bool) || cf_state_changed refresh then Commit s2 next else Rollback next)
  else
  let claims := nj_claims j in
  let active := active_claims_tx s1 in
  if negb (bool_decide (non_scalar_blockers claims active (host_impact_incompatibilities (dm_config d)) = []))
  then Ok (yield_reservation s1 job) else
  '(s2, final) ← refresh_conditions_tx condition_json s1 job (refresh_context d input (pi_final_now input) true)
    (pi_final_oid input);
  if cf_deadline_expired final || negb (bool_decide (cf_blockers final = [])) then
    Ok (Commit (release_reservation job s2).1 (inl PrepareStateChanged))
  else
  '(s3, disposition) ← native_disposition d s2 job input claims active;
  match disposition with
  | DCreated | DStateChanged => Ok (Commit s3 (inl PrepareStateChanged))
  | DHold => Ok (Rollback (inl PrepareBlocked))
  | DGrant =>
      stdin ← staged_input (nj_stdin_hash j) (nj_stdin_len j);
      _ ← validate_input_shape spec stdin;
      _ ← pi_log_directory input;
      let ids := pi_ids input in
      '(s4, attempt) ← match nj_attempt_id j with
        | Some key =>
            a ← get_attempt s3 key;
            _ ← guard_err (negb (bool_decide (na_state a ∈ [APlanned; AAdmitting])))
                  (EInvalidState "primary preparation requires planned/admitting Attempt");
            Ok (s3, key)
        | None => s4 ← insert_planned_attempt (fi_attempt ids) job now s3; Ok (s4, fi_attempt ids)
        end;
      let s5 := upd_job_state job (λ j, bool_decide (nj_state j = Pending)) (activate attempt ids) s4 in
      let waits := negb (bool_decide (length (job_conditions spec) = 0%nat)) in
      let started := if waits then None else Some now in
      let deadline := started ← started; after_seconds started <$> job_timeout_seconds spec in
      let s6 := if waits then ensure_admitting_row attempt now
          (hoc_admission_wall_clock_limit_seconds (host_observation (dm_config d))) s5 else s5 in
      let s7 := upd_attempt attempt (set_starting [APlanned; AAdmitting] started deadline) s6 in
      s8 ← insert_primary d attempt ids claims s7;
      Ok (Commit s8 (inl (PrepareReady (primary_job job attempt ids spec stdin deadline))))
  end
  end.

(** After the transaction: the probe of a waiting condition. *)
Definition finish_prepare d job (input : PrepareInput) (observation : result StoreError (option ObservationMoment))
    (r : NativeStore * result StoreError Preparation) : NativeStore * result StoreError PrepareJob :=
  let '(s, outcome) := r in
  match outcome with
  | Err e => (s, Err e)
  | Ok (inl p) => (s, Ok p)
  | Ok (inr spec) =>
      match (observation ← observation;
             prepare_due_probe uuid_to_string resolve_fences d s job spec observation (pi_ids input) (pi_probe_now input))
      with
      | Ok (s', Some probe) => (s', Ok (PrepareReady probe))
      | Ok (s', None) => (s', Ok PrepareBlocked)
      | Err e => (s, Err e)
      end
  end.

(** ** Admission that waits for the host *)
Definition update_admission_progress (attempt : Uuid) (context : AdmissionContext) (consumed : N)
    (stability : option N * option N) s : NativeStore :=
  let generation := Some (uuid_to_string (ac_observation_generation context)) in
  upd_admission attempt (λ m, m <| nm_quiet_consumed_ms := consumed |>
    <| nm_last_eval_monotonic_ms := Some (ac_evaluated_monotonic_millis context) |>
    <| nm_last_eval_generation := generation |> <| nm_quiet_generation := generation |>
    <| nm_quiet_first_monotonic_ms := stability.1 |> <| nm_quiet_last_monotonic_ms := stability.2 |>
    <| nm_last_blockers := ac_blockers context |> <| nm_last_evidence := Some context |>) s.

Definition accumulated_quiet_budget (m : AdmissionRow) (context : AdmissionContext) : N :=
  quiet_budget uuid_to_string (nm_quiet_consumed_ms m) (nm_last_eval_generation m) (nm_last_eval_monotonic_ms m) context.

Definition next_stability (m : AdmissionRow) (context : AdmissionContext) (gap : N) : option N * option N :=
  quiet_stability uuid_to_string (nm_quiet_generation m) (nm_quiet_first_monotonic_ms m)
    (nm_quiet_last_monotonic_ms m) context gap.

Definition add_quiet_blocker (b : Blocker) (c : AdmissionContext) : AdmissionContext :=
  {| ac_evaluated_unix_millis := ac_evaluated_unix_millis c;
     ac_evaluated_monotonic_millis := ac_evaluated_monotonic_millis c;
     ac_observation_generation := ac_observation_generation c; ac_blockers := ac_blockers c ++ [b];
     ac_non_quiet_blockers := ac_non_quiet_blockers c; ac_quiet_blockers := ac_quiet_blockers c ++ [b];
     ac_quiet_sample_satisfied := ac_quiet_sample_satisfied c; ac_gpu_uuid := ac_gpu_uuid c;
     ac_gpu_driver_version := ac_gpu_driver_version c; ac_operands := ac_operands c;
     ac_detectors := ac_detectors c |}.

(** The quiet part: the reason to settle, or whether the interval is long enough,
    with the progress recorded. *)
Definition advance_quiet d s (attempt : Uuid) (quiet : QuietPolicy) (m : AdmissionRow) (context : AdmissionContext)
    : option (NativeStore * AdmissionContext * bool) :=
  let consumed := accumulated_quiet_budget m context in
  if bool_decide (saturating_mul (quiet_wait_budget_seconds quiet) 1000 ≤ consumed) then None
  else
    let stability := next_stability m context (hoc_quiet_max_sample_gap_millis (host_observation (dm_config d))) in
    let stable_millis := saturating_mul (quiet_stable_seconds quiet) 1000 in
    let elapsed := first ← stability.1; checked_sub (ac_evaluated_monotonic_millis context) first in
    let stable := match elapsed with Some e => bool_decide (stable_millis ≤ e) | None => false end in
    let context := if negb stable && bool_decide (ac_quiet_blockers context = []) then
        add_quiet_blocker {| blocker_code := "quiet_waiting";
          blocker_detail := "quiet sample qualifies for " +:+ pretty (default 0 elapsed) +:+ "ms of required "
                            +:+ pretty stable_millis +:+ "ms" |} context
      else context in
    Some (update_admission_progress attempt context consumed stability s, context, stable).

(** The start at the end of [advance_observed_admission]. *)
Definition start_observed d s job (input : PrepareInput) (j : Job) (attempt : Uuid) (context : AdmissionContext)
    : result StoreError (Tx Preparation) :=
  let spec := nj_spec j in
  let ids := pi_ids input in
  stdin ← staged_input (nj_stdin_hash j) (nj_stdin_len j);
  _ ← validate_input_shape spec stdin;
  _ ← pi_log_directory input;
  let waits := bool_decide (is_Some (job_quiet spec)) || negb (bool_decide (length (job_conditions spec) = 0%nat)) in
  let started := if waits then None else Some (pi_now input) in
  let deadline := started ← started; after_seconds started <$> job_timeout_seconds spec in
  let s1 := upd_job_state job (λ j, bool_decide (nj_state j = Pending) && bool_decide (nj_attempt_id j = Some attempt))
              (activate attempt ids) s in
  let s2 := upd_attempt attempt (set_starting [AAdmitting] started deadline) s1 in
  s3 ← insert_primary d attempt ids (nj_claims j) s2;
  let s4 := upd_admission attempt (λ m, m
    <| nm_reservation_generation := Some (uuid_to_string (ac_observation_generation context)) |>
    <| nm_reservation_evidence := Some context |> <| nm_gpu_uuid := ac_gpu_uuid context |>
    <| nm_gpu_driver_version := ac_gpu_driver_version context |>) s3 in
  Ok (Commit s4 (inl (PrepareReady (primary_job job attempt ids spec stdin deadline)))).

(** The last rescan and the disposition of the claims. *)
Definition reserve_observed d s job (input : PrepareInput) (j : Job) (attempt : Uuid) (active : list ResolvedClaims)
    (context : AdmissionContext) : result StoreError (Tx Preparation) :=
  '(s1, final) ← refresh_conditions_tx condition_json s job (refresh_context d input (pi_final_now input) true)
    (pi_final_oid input);
  if cf_deadline_expired final || negb (bool_decide (cf_blockers final = [])) then
    let s2 := (release_reservation job s1).1 in
    Ok (Commit (pause_quiet_progress attempt s2) (inl PrepareStateChanged))
  else
  '(s2, disposition) ← native_disposition d s1 job input (nj_claims j) active;
  match disposition with
  | DCreated | DStateChanged => Ok (Commit s2 (inl PrepareStateChanged))
  | DHold => Ok (Commit s2 (inl PrepareBlocked))
  | DGrant => start_observed d s2 job input j attempt context
  end.

(** The sample of the host: from the admitting attempt to the quiet interval. *)
Definition observe_admission d s job (input : PrepareInput) (j : Job) (attempt : Uuid) (active : list ResolvedClaims)
    : result StoreError (Tx Preparation) :=
  let now := pi_now input in
  let spec := nj_spec j in
  let settle reason s := s ← settle_admission s spec job attempt reason now; Ok (Commit s (inl PrepareStateChanged)) in
  match pi_observation input with
  | None =>
      let s := (release_reservation job s).1 in
      let s := record_admission_blockers attempt [{| blocker_code := "observation_missing";
        blocker_detail := "host observation sample is not available" |}] s in
      let s := pause_quiet_progress attempt s in
      if admission_deadline_expired s attempt now then settle "admission_starved"%string s
      else Ok (Commit s (inl PrepareBlocked))
  | Some moment =>
      moment ← after_provider_work (pi_provider_clock input) (ce_scan_elapsed (pi_evaluations input)) moment;
      let context := evaluate_admission spec (dm_config d) (om_sample moment) active
        (om_now_unix_millis moment) (om_now_monotonic_millis moment) in
      m ← ok_or (nv_admissions s !! attempt) (ESql "no rows");
      if bool_decide (nm_wall_deadline_ms m ≤ now)%Z then
        settle (if bool_decide (is_Some (job_quiet spec)) && bool_decide (ac_non_quiet_blockers context = [])
                then "quiet_unattainable" else "admission_starved")%string s
      else if negb (bool_decide (ac_non_quiet_blockers context = [])) then
        let s := (release_reservation job s).1 in
        let s := record_admission_context attempt context s in
        Ok (Commit (pause_quiet_progress attempt s) (inl PrepareBlocked))
      else match job_quiet spec with
      | None => reserve_observed d s job input j attempt active context
      | Some quiet =>
          match advance_quiet d s attempt quiet m context with
          | None => settle "quiet_unattainable"%string s
          | Some (s, context, stable) =>
              if negb stable then Ok (Commit (release_reservation job s).1 (inl PrepareBlocked))
              else reserve_observed d s job input j attempt active context
          end
      end
  end.

(** The transaction of [advance_observed_admission]. *)
Definition observed_tx d s job (input : PrepareInput) : result StoreError (Tx Preparation) :=
  let now := pi_now input in
  let '(v, reservations_expired) := expire_due_reservations_tx (view s) now in
  if reservations_expired : bool then Ok (Commit (write_back v s) (inl PrepareStateChanged)) else
  match ready_row s job now with
  | None => Ok (Rollback (inl PrepareBlocked))
  | Some j =>
  let spec := nj_spec j in
  '(s, expired) ← expire_condition_deadline_tx s job now;
  if bool_decide (is_Some expired) then Ok (Commit s (inl PrepareStateChanged)) else
  let '(dependency_blockers, impossible) := dependency_blockers_tx s job in
  if impossible : bool then
    let s := match nj_attempt_id j with
      | Some attempt => upd_attempt attempt (λ a, where_ (bool_decide (na_state a ∈ [APlanned; AAdmitting]))
          (λ a, a <| na_state := ASettled |> <| na_verdict := Some VSafetyFailed |>
                  <| na_safety_reason := Some "dependency_impossible"%string |> <| na_finished_ms := Some now |>) a) s
      | None => s end in
    Ok (Commit (upd_job_state job (λ j, bool_decide (nj_state j = Pending)) (λ j, j <| nj_state := Final |>
          <| nj_outcome := Some JSkipped |> <| nj_finished_ms := Some now |>) s) (inl PrepareStateChanged))
  else if negb (bool_decide (dependency_blockers = [])) then Ok (yield_reservation s job) else
  '(s1, refresh) ← refresh_conditions_tx condition_json s job (refresh_context d input now false) (pi_oid input);
  if cf_deadline_expired refresh then Ok (Commit s1 (inl PrepareStateChanged)) else
  if negb (bool_decide (cf_blockers refresh = [])) then
    let '(s2, released) := release_reservation job s1 in
    let next := if released : bool then inl PrepareStateChanged else inr spec in
    Ok (if (released : bool) || cf_state_changed refresh then Commit s2 next else Rollback next)
  else
  match nj_attempt_id j with
  | None =>
      s2 ← insert_planned_attempt (fi_attempt (pi_ids input)) job now s1;
      Ok (Commit (set_job_attempt job (fi_attempt (pi_ids input)) s2) (inl PrepareStateChanged))
  | Some attempt =>
      let active := active_claims_tx s1 in
      let static_blockers := scalar_blockers (nj_claims j) (host_resources (dm_config d)) []
        ++ non_scalar_blockers (nj_claims j) active (host_impact_incompatibilities (dm_config d)) in
      let s2 := ensure_admitting_row attempt now
        (hoc_admission_wall_clock_limit_seconds (host_observation (dm_config d))) s1 in
      if negb (bool_decide (static_blockers = [])) then
        let s3 := (release_reservation job s2).1 in
        if admission_deadline_expired s3 attempt now then
          s4 ← settle_admission s3 spec job attempt "admission_starved" now;
          Ok (Commit s4 (inl PrepareStateChanged))
        else
          let s4 := record_admission_blockers attempt static_blockers s3 in
          Ok (Commit (pause_quiet_progress attempt s4) (inl PrepareBlocked))
      else
        let s3 := upd_attempt attempt (λ a, where_ (bool_decide (na_state a = APlanned))
          (λ a, a <| na_state := AAdmitting |>) a) s2 in
        observe_admission d s3 job input j attempt active
  end
  end.

Definition advance_observed_admission d s job (input : PrepareInput) : NativeStore * result StoreError PrepareJob :=
  match ready_row s job (pi_observed_now input) with
  | None => (s, Ok PrepareBlocked)
  | Some _ =>
      let moved := match pi_observation input with
        | Some m => Some <$> after_provider_work (pi_provider_clock input) (ce_scan_elapsed (pi_evaluations input)) m
        | None => Ok None end in
      finish_prepare d job input moved (run_tx s (observed_tx d s job input))
  end.

Definition prepare_job_inner d s job (input : PrepareInput) : NativeStore * result StoreError PrepareJob :=
  match expire_job_condition_deadline s job (pi_deadline_now input) with
  | Err e => (s, Err e)
  | Ok (s', true) => (s', Ok PrepareStateChanged)
  | Ok (s, false) =>
      if negb (dm_capable d) || dm_authority_blocker d then (s, Ok PrepareBlocked)
      else match ready_row s job (pi_pending_now input) with
      | None => (s, Ok PrepareBlocked)
      | Some j =>
          if requires_host_observation (nj_spec j) then advance_observed_admission d s job input
          else finish_prepare d job input (Ok (pi_observation input)) (run_tx s (prepare_tx d s job input))
      end
  end.
End schedule.

(** ** Postconditions *)
Definition postcondition_spec (primary : JobSpec) (p : PostconditionSpec) : JobSpec :=
  {| job_spec_version := job_spec_version primary; job_priority := job_priority primary;
     job_executable := post_executable p; job_args := post_args p;
     job_working_directory := default (job_working_directory primary) (post_working_directory p);
     job_stdin := StdinEof; job_environment := job_environment primary; job_resources := job_resources primary;
     job_observed := None; job_conditions := []; job_retry := job_retry primary; job_postconditions := [];
     job_labels := job_labels primary; job_expected_duration_seconds := job_expected_duration_seconds primary;
     job_timeout_seconds := job_timeout_seconds primary; job_quiet := None;
     job_artifacts := job_artifacts primary; job_child_submission_policy := None |}.

Definition prepare_postcondition (d : Daemon) (s : NativeStore) (primary : PreparedJob) (index : nat)
    (invocation containment : Uuid) : result StoreError (NativeStore * PreparedJob) :=
  p ← ok_or (job_postconditions (pj_spec primary) !! index) (EInvalidState "postcondition index out of range");
  j ← get_job s (pj_job_id primary);
  current ← ok_or (nj_attempt_id j) (ESql "no rows");
  a ← get_attempt s current;
  _ ← guard_err (bool_decide (nj_state j ≠ Active) || bool_decide (current ≠ pj_attempt_id primary))
        (EInvalidState "postcondition requires the current active Attempt");
  r ← ok_or (na_primary_result a) (EInvalidState "postcondition requires a durable primary Invocation result");
  _ ← match validate_primary_result_identity r primary with
      | Ok _ => Ok tt
      | Err _ => Err (EInvalidState "postcondition requires a matching versioned primary result with empty Containment proof")
      end;
  _ ← validate_primary_result_semantics (pr_verdict r) (pr_termination r) (pr_root_exit_code r);
  i ← get_invocation s (pj_invocation_id primary);
  c ← ok_or (containment_of s (pj_invocation_id primary)) (ESql "no rows");
  _ ← guard_err (bool_decide (ni_attempt_id i ≠ pj_attempt_id primary) || bool_decide (ni_role i ≠ RolePrimary))
        (ESql "no rows");
  _ ← guard_err (bool_decide (nt_state c ≠ CEmpty) || negb (has_granted_lease s (pj_attempt_id primary)))
        (EInvalidState "postcondition release requires empty primary Containment and the same granted work Lease");
  _ ← guard_err (bool_decide (u32_max < N.of_nat index)) (EInvalidState "too many postconditions");
  s ← insert_prepared d (pj_attempt_id primary) invocation containment RolePostcondition (Some (N.of_nat index)) None s;
  let s := upd_job (pj_job_id primary) (λ j, j <| nj_invocation_id := Some invocation |>
    <| nj_containment_id := Some containment |>) s in
  Ok (s, {| pj_job_id := pj_job_id primary; pj_attempt_id := pj_attempt_id primary; pj_invocation_id := invocation;
            pj_containment_id := containment; pj_spec := postcondition_spec (pj_spec primary) p; pj_stdin := None;
            pj_role := RolePostcondition; pj_condition_id := None;
            pj_attempt_deadline_unix_millis := na_deadline_ms a; pj_primary_result := Some r |}).
