(* ===== verification/Release.v ===== *)
(** * Release: the last check before a suspended root runs
      ([src/src/store/release.rs])

    A job with readiness conditions or a quiet policy is started suspended; its
    conditions, claims and host sample are checked once more before it is resumed.
    A start that is called off goes back to planning ([replan_never_run]). *)
From S2P Require Import Prelude Spec Validate Kernel Scoped Observation Machine MachineStore Reservation.
From S2P Require Import Native ConditionStore ProcessRecords Lifecycle Schedule.

Inductive ReleaseAuthorization :=
| Authorized (runtime_deadline_unix_millis : option Z) (evidence_expires_monotonic_millis : N)
| Deferred (reason : string).

(** [jobs JOIN attempts ON attempts.id = jobs.attempt_id JOIN invocations ON
    invocations.id = jobs.invocation_id WHERE jobs.id = ?1 AND attempts.id = ?2 AND
    invocations.id = ?3] *)
Definition current_rows (s : NativeStore) (job : PreparedJob) : result StoreError (Job * Attempt * Invocation) :=
  j ← get_job s (pj_job_id job);
  _ ← guard_err (bool_decide (nj_attempt_id j ≠ Some (pj_attempt_id job))
                 || bool_decide (nj_invocation_id j ≠ Some (pj_invocation_id job))) (ESql "no rows");
  a ← get_attempt s (pj_attempt_id job);
  i ← get_invocation s (pj_invocation_id job);
  Ok (j, a, i).

Definition is_suspended (j : Job) (a : Attempt) (i : Invocation) : bool :=
  bool_decide (nj_state j = Active) && bool_decide (na_state a = AStarting) && bool_decide (ni_state i = IPrepared).

Definition record_suspended_root (d : Daemon) (s : NativeStore) (job : PreparedJob) (root_pid : N)
    (executable_hash : string) (identity : ProcessIdentity) (permission : result StoreError unit)
    : result StoreError NativeStore :=
  '(host, boot, creation) ← legacy_columns identity root_pid;
  '(j, a, i) ← current_rows s job;
  _ ← guard_err (negb (is_suspended j a i)) (EInvalidState "suspended root cannot be recorded");
  _ ← permission;
  s ← record_identity (pj_invocation_id job) identity root_pid s;
  let s := upd_invocation (pj_invocation_id job) (λ i, where_ (bool_decide (ni_state i = IPrepared))
    (λ i, i <| ni_root_pid := Some root_pid |> <| ni_executable_hash := Some executable_hash |>
            <| ni_daemon_generation := Some (dm_generation d) |> <| ni_root_host_id := host |>
            <| ni_root_boot_id := boot |> <| ni_root_creation_filetime_100ns := creation |>) i) s in
  Ok (upd_containment (pj_containment_id job) (λ c, where_ (bool_decide (nt_state c = CCreating))
        (λ c, c <| nt_state := CLive |>) c) s).

(** [SELECT claims_json FROM leases WHERE state = 'granted' AND attempt_id != ?1] *)
Definition active_claims_excluding_attempt (s : NativeStore) (excluded : Uuid) : list ResolvedClaims :=
  omap (λ l, if bool_decide (nl_state l = LGranted) && bool_decide (nl_attempt_id l ≠ excluded)
             then Some (nl_claims l) else None) (btree_values (nv_leases s)).

Definition generation_blocker : Blocker :=
  {| blocker_code := "observation_generation_changed";
     blocker_detail := "observation generation changed after reservation" |}.

(** The three [UPDATE]s that mark the start. *)
Definition mark_released (job : PreparedJob) (started : Z) (deadline : option Z) (s : NativeStore) : NativeStore :=
  let s := upd_invocation (pj_invocation_id job) (λ i, where_ (bool_decide (ni_state i = IPrepared))
    (λ i, i <| ni_state := IStarted |> <| ni_started_ms := Some started |>) i) s in
  let s := upd_attempt (pj_attempt_id job) (λ a, where_ (bool_decide (na_state a = AStarting))
    (λ a, a <| na_state := ARunning |> <| na_started_ms := Some started |> <| na_deadline_ms := deadline |>) a) s in
  upd_job (pj_job_id job) (λ j, where_ (bool_decide (nj_state j = Active))
    (λ j, j <| nj_started_ms ::= (λ old, coalesce old (Some started)) |>) j) s.

(** What a release reads from outside. *)
Record ReleaseInput := {
  rl_evaluation_now : Z;
  rl_evaluations : ConditionEvaluations;
  rl_oid : Uuid → Uuid;
  rl_provider_clock : result StoreError (Z * N);
  rl_release_monotonic : N;   (* [observation_clock()] at the release, [u64::MAX] if it fails *)
  rl_started_now : Z;
}.

Section release.
Context (uuid_to_string : Uuid → string) (condition_json : ConditionSpec → string)
  (blockers_json : list Blocker → string).   (* [serde_json::to_string] of the blockers *)
Implicit Types (d : Daemon) (s : NativeStore) (job : PreparedJob).

Definition release_context d (input : ReleaseInput) : ConditionRefreshContext :=
  {| cc_daemon_generation := dm_generation d; cc_boot_id := dm_boot_id d; cc_now := rl_evaluation_now input;
     cc_freshness_millis := hoc_condition_rescan_interval_millis (host_observation (dm_config d));
     cc_force := true; cc_evaluations := rl_evaluations input |}.

Definition deadline_reason (refresh : ConditionRefresh) : string :=
  "condition_deadline_expired:" +:+
    match cf_blockers refresh with b :: _ => blocker_detail b | [] => "deadline outcome=failed" end.

(** [dependency_blockers_tx(…)?.0], the conditions and the claims beside every other lease. *)
Definition release_blockers d s job (claims : ResolvedClaims) (refresh : ConditionRefresh)
    (active : list ResolvedClaims) : result StoreError (list Blocker) :=
  resource_blockers ← ok_or (blockers uuid_to_string claims (host_resources (dm_config d)) active
    (host_impact_incompatibilities (dm_config d))) (EPanic "native topology");
  Ok ((dependency_blockers_tx s (pj_job_id job)).1 ++ cf_blockers refresh ++ resource_blockers).

(** The sample still belongs to the generation of the reservation. *)
Definition generation_blockers s job (context : AdmissionContext) : result StoreError (list Blocker) :=
  m ← ok_or (nv_admissions s !! pj_attempt_id job) (ESql "no rows");
  Ok (if bool_decide (nm_reservation_generation m ≠ Some (uuid_to_string (ac_observation_generation context)))
      then [generation_blocker] else []).

Definition authorize_release d s job (observation : ObservationMoment) (input : ReleaseInput)
    : result StoreError (Tx ReleaseAuthorization) :=
  '(j, a, i) ← current_rows s job;
  _ ← guard_err (negb (is_suspended j a i)) (EInvalidState "release cannot be authorized");
  if nj_cancel_requested j then Ok (Rollback (Deferred "cancel_requested")) else
  let spec := nj_spec j in
  let active := active_claims_excluding_attempt s (pj_attempt_id job) in
  let dependencies := (dependency_blockers_tx s (pj_job_id job)).1 in
  '(s, refresh) ← refresh_conditions_tx condition_json s (pj_job_id job) (release_context d input) (rl_oid input);
  if cf_deadline_expired refresh then Ok (Commit s (Deferred (deadline_reason refresh))) else
  resource_blockers ← ok_or (blockers uuid_to_string (nj_claims j) (host_resources (dm_config d)) active
    (host_impact_incompatibilities (dm_config d))) (EPanic "native topology");
  observation ← after_provider_work (rl_provider_clock input) (ce_scan_elapsed (rl_evaluations input)) observation;
  let context := evaluate_admission spec (dm_config d) (om_sample observation) active
    (om_now_unix_millis observation) (om_now_monotonic_millis observation) in
  generation ← generation_blockers s job context;
  let all := sort_blockers (dependencies ++ cf_blockers refresh ++ resource_blockers ++ ac_blockers context ++ generation) in
  if negb (bool_decide (all = [])) || negb (ac_quiet_sample_satisfied context)
  then Ok (Commit s (Deferred (blockers_json all))) else
  max_age ← ok_or (minimum_observation_age_millis spec (dm_config d))
    (EInvalidState "quiet release has no observation age bound");
  match checked_add (hs_captured_monotonic_millis (om_sample observation)) max_age with
  | None => Ok (Rollback (Deferred "release evidence expiry overflow"))
  | Some expires =>
      let conditional := negb (bool_decide (length (job_conditions (pj_spec job)) = 0%nat)) in
      let expires := if conditional then N.min expires (expires_monotonic (rl_evaluations input)
          (hoc_condition_rescan_interval_millis (host_observation (dm_config d)))) else expires in
      if conditional && bool_decide (expires ≤ rl_release_monotonic input)
      then Ok (Rollback (Deferred "release evidence expired during the bounded Condition rescan")) else
      let deadline := after_seconds (rl_started_now input) <$> job_timeout_seconds spec in
      let s := mark_released job (rl_started_now input) deadline s in
      let s := upd_admission (pj_attempt_id job) (λ m, m <| nm_release_evidence := Some (Some context) |>
        <| nm_pre_resume_defer_reason := None |>) s in
      Ok (Commit s (Authorized deadline expires))
  end.

(** The sample of a conditional release: blockers, the context and when the sample was taken. *)
Definition condition_sample d s job (observation : option ObservationMoment) (active : list ResolvedClaims)
    (input : ReleaseInput) : result StoreError (list Blocker * option (AdmissionContext * N)) :=
  if negb (requires_host_observation (pj_spec job)) then Ok ([], None)
  else match observation with
  | None => Ok ([{| blocker_code := "observation_missing";
                    blocker_detail := "release-time host observation sample is not available" |}], None)
  | Some observation =>
      observation ← after_provider_work (rl_provider_clock input) (ce_scan_elapsed (rl_evaluations input)) observation;
      let context := evaluate_admission (pj_spec job) (dm_config d) (om_sample observation) active
        (om_now_unix_millis observation) (om_now_monotonic_millis observation) in
      generation ← generation_blockers s job context;
      Ok (ac_blockers context ++ generation, Some (context, hs_captured_monotonic_millis (om_sample observation)))
  end.

Definition authorize_condition_release d s job (observation : option ObservationMoment) (input : ReleaseInput)
    : result StoreError (Tx ReleaseAuthorization) :=
  '(j, a, i) ← current_rows s job;
  _ ← guard_err (negb (is_suspended j a i)) (EInvalidState "Condition release cannot be authorized");
  if nj_cancel_requested j then Ok (Rollback (Deferred "cancel_requested")) else
  '(s, refresh) ← refresh_conditions_tx condition_json s (pj_job_id job) (release_context d input) (rl_oid input);
  if cf_deadline_expired refresh then Ok (Commit s (Deferred (deadline_reason refresh))) else
  let active := active_claims_excluding_attempt s (pj_attempt_id job) in
  static ← release_blockers d s job (nj_claims j) refresh active;
  '(sample_blockers, sample) ← condition_sample d s job observation active input;
  let all := sort_blockers (static ++ sample_blockers) in
  if negb (bool_decide (all = [])) then Ok (Commit s (Deferred (blockers_json all))) else
  let deadline := after_seconds (rl_started_now input) <$> job_timeout_seconds (pj_spec job) in
  let s := mark_released job (rl_started_now input) deadline s in
  let expires := expires_monotonic (rl_evaluations input)
    (hoc_condition_rescan_interval_millis (host_observation (dm_config d))) in
  let expires := match sample, minimum_observation_age_millis (pj_spec job) (dm_config d) with
    | Some (_, captured), Some max_age => N.min expires (saturating_add captured max_age)
    | _, _ => expires end in
  if bool_decide (expires ≤ rl_release_monotonic input)
  then Ok (Rollback (Deferred "Condition release evidence expired during the bounded rescan")) else
  let s := upd_admission (pj_attempt_id job) (λ m, m <| nm_pre_resume_defer_reason := None |>
    <| nm_release_evidence := Some (fst <$> sample) |>) s in
  Ok (Commit s (Authorized deadline expires)).
End release.

(** ** Stopping before the resume *)
Definition set_defer_reason (job : Uuid) (reason : string) (s : NativeStore) : NativeStore :=
  match nv_jobs s !! job with
  | Some {| nj_attempt_id := Some attempt |} =>
      upd_admission attempt (λ m, m <| nm_pre_resume_defer_reason := Some reason |>) s
  | _ => s
  end.

Definition job_state_name (state : JobState) : string :=
  match state with Pending => "pending" | Active => "active" | Finalizing => "finalizing" | Final => "final" end.

Definition pre_resume_defer_reason (s : NativeStore) (job : Uuid) (now : Z)
    : result StoreError (NativeStore * option string) :=
  j ← get_job s job;
  if bool_decide (nj_state j ≠ Active)
  then Ok (s, Some ("job left active state before resume: " +:+ job_state_name (nj_state j)))
  else match first_deadline s job (due_or_failed now) with
  | Some outcome =>
      let reason := "condition_deadline_expired:deadline outcome=" +:+ outcome_name outcome in
      Ok (set_defer_reason job reason (fail_conditions job s), Some reason)
  | None =>
      if nj_cancel_requested j
      then Ok (set_defer_reason job "cancel_requested" s, Some "cancel_requested"%string)
      else Ok (s, None)
  end.

(** ** Replanning a start that never ran *)

(** [str::contains] *)
Fixpoint contains (needle hay : string) : bool :=
  match strip_prefix needle hay with
  | Some _ => true
  | None => match hay with EmptyString => false | String _ rest => contains needle rest end
  end.

Definition deferred_blockers (reason : string) : list Blocker :=
  [{| blocker_code := "pre_release_deferred"; blocker_detail := reason |}].

Definition settle_replanned (job : PreparedJob) (verdict : AttemptVerdict) (reason : option string) (now : Z)
    (s : NativeStore) : NativeStore :=
  upd_attempt (pj_attempt_id job) (λ a, a <| na_state := ASettled |> <| na_verdict := Some verdict |>
    <| na_safety_reason ::= coalesce reason |> <| na_finished_ms := Some now |>) s.

Definition finalize_job (job : Uuid) (f : Job → Job) (outcome : JobOutcome) (now : Z) (s : NativeStore) : NativeStore :=
  upd_job_state job (λ _, true) (λ j, (f j) <| nj_state := Final |> <| nj_outcome := Some outcome |>
    <| nj_finished_ms := Some now |>) s.

(** The deferrals are used up: retry or fail. *)
Definition replan_exhausted (s : NativeStore) (job : PreparedJob) (spec : JobSpec) (index deferrals : N)
    (reason : string) (now : Z) : NativeStore :=
  let why := if bool_decide (length (job_conditions spec) = 0%nat) then "quiet_unattainable"%string
             else "readiness_unstable"%string in
  let s := upd_admission (pj_attempt_id job) (λ m, m <| nm_deferral_count := deferrals |>
    <| nm_last_blockers := deferred_blockers reason |>) s in
  let s := settle_replanned job VSafetyFailed (Some why) now s in
  if retryable spec index VSafetyFailed then
    let not_before := after_seconds now (retry_backoff_seconds (job_retry spec)) in
    reset_conditions_for_retry_tx (requeue_job (pj_job_id job) not_before s) (pj_job_id job) not_before
  else finalize_job (pj_job_id job) (λ j, j <| nj_reason_code := Some why |> <| nj_retry_not_before_ms := None |>)
         JFailed now s.

(** The attempt is planned again after a backoff. *)
Definition replan_later (d : Daemon) (s : NativeStore) (job : PreparedJob) (deferrals : N) (reason : string) (now : Z)
    : NativeStore :=
  let not_before := after_millis now (hoc_pre_release_backoff_millis (host_observation (dm_config d))) in
  let s := upd_admission (pj_attempt_id job) (λ m, m <| nm_deferral_count := deferrals |>
    <| nm_retry_not_before_ms := Some not_before |> <| nm_last_blockers := deferred_blockers reason |>
    <| nm_quiet_generation := None |> <| nm_last_eval_monotonic_ms := None |> <| nm_last_eval_generation := None |>
    <| nm_quiet_first_monotonic_ms := None |> <| nm_quiet_last_monotonic_ms := None |>
    <| nm_reservation_generation := None |> <| nm_reservation_evidence := None |>
    <| nm_release_evidence := None |>) s in
  let s := upd_attempt (pj_attempt_id job) (λ a, a <| na_state := APlanned |>) s in
  upd_job_state (pj_job_id job) (λ _, true) (λ j, j <| nj_state := Pending |> <| nj_invocation_id := None |>
    <| nj_containment_id := None |> <| nj_retry_not_before_ms := Some not_before |>) s.

(** [u32::saturating_add(1)] *)
Definition u32_saturating_succ (n : N) : N := N.min (n + 1) u32_max.

(** The terminal outcome: a durable deadline, or one the reason names. *)
Definition replan_terminal (deadline : option ConditionDeadlineOutcome) (reason : string)
    : option (AttemptVerdict * JobOutcome) :=
  match deadline with
  | Some o => Some (deadline_terminal o)
  | None =>
      detail ← strip_prefix "condition_deadline_expired:" reason;
      Some (deadline_terminal (if contains "canceled" detail then DeadlineCanceled else DeadlineFailed))
  end.

Definition replan_never_run (d : Daemon) (s : NativeStore) (job : PreparedJob) (reason : string) (now : Z)
    : result StoreError NativeStore :=
  '(j, a, i) ← current_rows s job;
  m ← ok_or (nv_admissions s !! pj_attempt_id job) (ESql "no rows");
  let pre_release_state := match na_state a, ni_state i with
    | AStarting, IPrepared | ARunning, IStarted => true | _, _ => false end in
  _ ← guard_err (bool_decide (nj_state j ≠ Active) || negb pre_release_state)
        (EInvalidState "never-run Invocation cannot replan");
  let s := upd_invocation (pj_invocation_id job) (λ i, where_ (bool_decide (ni_state i ∈ [IPrepared; IStarted]))
    (λ i, i <| ni_state := IResolved |> <| ni_started_ms := None |> <| ni_finished_ms := Some now |>) i) s in
  let s := upd_containment (pj_containment_id job) (λ c, where_ (bool_decide (nt_state c = CLive))
    (λ c, c <| nt_state := CEmpty |>) c) s in
  let '(s, released) := release_never_run_attempt_lease_if_safe s (pj_attempt_id job) in
  _ ← guard_err (negb released) (EInvalidState "never-run Attempt Lease was not safe to release");
  let s := upd_attempt (pj_attempt_id job) (λ a, a <| na_started_ms := None |> <| na_deadline_ms := None |>) s in
  let started := first_start s (pj_job_id job) in
  let s := upd_job (pj_job_id job) (λ j, j <| nj_started_ms := started |>) s in
  let spec := nj_spec j in
  let quiet_budget := match job_quiet spec with
    | Some q => saturating_mul (quiet_wait_budget_seconds q) 1000 | None => u64_max end in
  let deferrals := u32_saturating_succ (nm_deferral_count m) in
  let exhausted := bool_decide (hoc_pre_release_max_deferrals (host_observation (dm_config d)) ≤ deferrals)
    || bool_decide (quiet_budget ≤ nm_quiet_consumed_ms m) in
  let deadline := first_deadline s (pj_job_id job) (due_or_failed now) in
  let s := if bool_decide (is_Some deadline) then fail_conditions (pj_job_id job) s else s in
  Ok match replan_terminal deadline reason with
  | Some (verdict, outcome) =>
      let s := settle_replanned job verdict (Some "condition_deadline_expired"%string) now s in
      finalize_job (pj_job_id job) (λ j, j <| nj_reason_code := Some "condition_deadline_expired"%string |>
        <| nj_retry_not_before_ms := None |>) outcome now s
  | None =>
      if nj_cancel_requested j then
        finalize_job (pj_job_id job) id JCanceled now (settle_replanned job VCanceled None now s)
      else if exhausted then replan_exhausted s job spec (na_index a) deferrals reason now
      else replan_later d s job deferrals reason now
  end.
