(* ===== verification/NativeRecovery.v ===== *)
(** * NativeRecovery: interrupted work after a restart, and its clearance
      ([recover_interrupted] of [src/src/store/recovery.rs],
      [src/src/store/reconciliation.rs])

    A daemon that starts finds the rows its predecessor left: every boundary that
    was not proven empty becomes an uncertain incident, its attempts settle and its
    jobs finish; the leases of uncertain boundaries stay granted until the incident
    is resolved. *)
From S2P Require Import Prelude Spec Validate Kernel Scoped Observation Machine MachineStore Reservation.
From S2P Require Import Native ConditionStore ProcessRecords Lifecycle Schedule Release.

(** ** Recovery *)

(** [SELECT … FROM containments JOIN invocations JOIN attempts JOIN jobs LEFT JOIN conditions
    WHERE containments.state IN ('creating', 'live') ORDER BY containments.rowid], by the
    row ids of the invocations: a containment is inserted with its invocation. *)
Definition interrupted_le (p q : Uuid * Containment * Invocation * Job) : Prop :=
  (ni_rowid p.1.2 ≤ ni_rowid q.1.2)%N.
#[global] Instance interrupted_le_dec : RelDecision interrupted_le.
Proof. intros p q. unfold interrupted_le. apply _. Defined.

Definition interrupted (s : NativeStore) : list (Uuid * Containment * Invocation * Job) :=
  sort_by interrupted_le (omap (λ '(key, c),
    i ← nv_invocations s !! nt_invocation_id c;
    a ← nv_attempts s !! ni_attempt_id i;
    j ← nv_jobs s !! na_job_id a;
    if is_open_boundary (nt_state c) then Some (key, c, i, j) else None) (btree_entries (nv_containments s))).

Definition retained_claims (s : NativeStore) (i : Invocation) (j : Job) : result StoreError ResourceClaims :=
  if decide (ni_role i = RoleProbe) then
    c ← ok_or (condition ← ni_condition_id i; nv_conditions s !! condition)
          (EInvalidState "interrupted probe Invocation has no durable Condition");
    match cond_predicate (nc_spec c) with
    | Probe probe => Ok (probe_resources probe)
    | _ => Err (EInvalidState "interrupted probe Invocation references a non-probe Condition")
    end
  else Ok (job_resources (nj_spec j)).

(** One incident: the columns are replaced, not kept. *)
Definition interrupt_one (now : Z) (st : NativeStore * N) (row : Uuid * Containment * Invocation * Job)
    : result StoreError (NativeStore * N) :=
  let '(s, sequence) := st in
  let '(key, c, i, j) := row in
  let sequence := saturating_add sequence 1 in
  claims ← retained_claims s i j;
  let '(reason, detail) := if decide (nt_state c = CCreating)
    then ("daemon_restart_before_resume"%string,
          "daemon restarted before process release; boundary closure awaits proof"%string)
    else ("daemon_restart_cleanup_unproven"%string,
          "daemon restarted while containment cleanup was not durably proven"%string) in
  Ok (upd_containment key (λ c, where_ (is_open_boundary (nt_state c)) (λ c, c <| nt_state := CUncertain |>
        <| nt_version ::= N.succ |> <| nt_incident_sequence := Some sequence |> <| nt_reason_code := Some reason |>
        <| nt_detail := Some detail |> <| nt_opened_ms := Some now |> <| nt_retained_claims := Some claims |>) c) s,
      sequence).

(** Active jobs whose start was to be called off: a latch, a failed or due deadline,
    or a cancellation before the resume. *)
Definition pre_resume_row (s : NativeStore) (now : Z) (job : Uuid) (j : Job)
    : option (Uuid * Uuid * Uuid * option string * AttemptState) :=
  attempt ← nj_attempt_id j;
  invocation ← nj_invocation_id j;
  a ← nv_attempts s !! attempt;
  i ← nv_invocations s !! invocation;
  m ← nv_admissions s !! attempt;
  let mine := snd <$> conditions_of s job in
  let failed := existsb (λ c, bool_decide (nc_state c = CondFailed) && bool_decide (is_Some (nc_deadline_ms c))) mine in
  let due := existsb (λ c, match nc_deadline_ms c with Some d => bool_decide (d ≤ now)%Z | None => false end) mine in
  if bool_decide (nj_state j = Active) && bool_decide (na_state a ∈ [AStarting; ARunning])
     && bool_decide (ni_role i = RolePrimary)
     && (bool_decide (is_Some (nm_pre_resume_defer_reason m)) || failed
         || (bool_decide (na_state a = AStarting) && (nj_cancel_requested j || due)))
  then Some (job, attempt, invocation, nm_pre_resume_defer_reason m, na_state a) else None.

Definition pre_resume_terminals (s : NativeStore) (now : Z) : list (Uuid * Uuid * Uuid * option string * AttemptState) :=
  omap (λ job, j ← nv_jobs s !! job; pre_resume_row s now job j) (jobs_where s (λ _ _, true)).

Definition finish_pre_resume (now : Z) (s : NativeStore) (row : Uuid * Uuid * Uuid * option string * AttemptState)
    : result StoreError NativeStore :=
  let '(job, attempt, invocation, defer_reason, attempt_state) := row in
  let deadline := first_deadline s job (λ c d, bool_decide (nc_state c = CondFailed)
    || ((bool_decide (is_Some defer_reason) || bool_decide (attempt_state = AStarting)) && bool_decide (d ≤ now)%Z)) in
  '(s, verdict, outcome, reason) ← match deadline with
    | Some o =>
        let '(verdict, outcome) := deadline_terminal o in
        Ok (fail_conditions job s, verdict, outcome, Some "condition_deadline_expired"%string)
    | None =>
        if bool_decide (defer_reason = Some "cancel_requested"%string) || bool_decide (attempt_state = AStarting)
        then Ok (s, VCanceled, JCanceled, None)
        else Err (EInvalidState "active Job has an invalid pre-resume terminal latch")
    end;
  let s := upd_invocation invocation (λ i, i <| ni_started_ms := None |>) s in
  let s := upd_attempt attempt (λ a, where_ (bool_decide (na_state a ∈ [AStarting; ARunning]))
    (λ a, a <| na_state := ASettled |> <| na_verdict := Some verdict |> <| na_safety_reason := reason |>
            <| na_started_ms := None |> <| na_deadline_ms := None |> <| na_finished_ms := Some now |>) a) s in
  let started := first_start s job in
  Ok (upd_job_state job (λ j, bool_decide (nj_state j = Active)) (λ j, j <| nj_state := Final |>
        <| nj_outcome := Some outcome |> <| nj_reason_code := reason |> <| nj_started_ms := started |>
        <| nj_finished_ms := Some now |>) s).

(** [UPDATE attempts SET state = 'settled', verdict = …, finished_ms = ?1 WHERE state = …] *)
Definition settle_all (from : AttemptState) (verdict : AttemptVerdict) (now : Z) (s : NativeStore) : NativeStore :=
  s <| nv_attempts ::= fmap (λ a, where_ (bool_decide (na_state a = from)) (λ a, a <| na_state := ASettled |>
         <| na_verdict := Some verdict |> <| na_finished_ms := Some now |>) a) |>.

(** [UPDATE jobs SET state = 'final', outcome = CASE … WHERE state = 'active'], with
    the trigger of each row. *)
Definition finish_active_jobs (now : Z) (s : NativeStore) : NativeStore :=
  foldl (λ s job, upd_job_state job (λ j, bool_decide (nj_state j = Active)) (λ j, j <| nj_state := Final |>
      <| nj_outcome := Some (match attempt ← nj_attempt_id j; nv_attempts s !! attempt with
           | Some a => if bool_decide (na_verdict a = Some VStartFailed) && bool_decide (na_finished_ms a = Some now)
                       then JFailed else JInterrupted
           | None => JInterrupted end) |> <| nj_finished_ms := Some now |>) s) s (btree_keys (nv_jobs s)).

Definition recover_interrupted (d : Daemon) (s : NativeStore) (now : Z) (monotonic : N) (oid : Uuid → Uuid)
    (retained : Uuid → bool) : result StoreError NativeStore :=
  let rows := interrupted s in
  let s := s <| nv_invocations ::= fmap (λ i, where_ (bool_decide (ni_state i ≠ IResolved))
    (λ i, i <| ni_state := IResolved |> <| ni_finished_ms := Some now |>) i) |> in
  '(s, _) ← result_foldM (interrupt_one now) (s, last_incident s) rows;
  s ← result_foldM (finish_pre_resume now) s (pre_resume_terminals s now);
  let s := settle_all AStarting VStartFailed now s in
  let s := settle_all ARunning VInterrupted now s in
  let s := finish_active_jobs now s in
  let s := release_all_safe_attempt_leases s in
  '(s, _) ← repair_resolved_empty_probes_tx d s now monotonic oid;
  '(s, _) ← expire_due_condition_deadlines_tx s now;
  '(s, _) ← finalize_recovered_condition_terminals_tx s now;
  Ok (prune_condition_history retained s).

(** ** Reconciliation *)
Record ReconciliationCandidate := {
  rn_containment_id : Uuid;
  rn_invocation_id : Uuid;
  rn_attempt_id : Uuid;
  rn_version : N;
  rn_host_id : option string;
  rn_boot_id : option string;
  rn_daemon_generation : option Uuid;
  rn_root_pid_recorded : bool;
  rn_root_identity : option ProcessIdentity;
  rn_incident_sequence : N;
}.

Definition candidate_of (key : Uuid) (c : Containment) (i : Invocation) : result StoreError ReconciliationCandidate :=
  identity ← root_identity_of i;
  Ok {| rn_containment_id := key; rn_invocation_id := nt_invocation_id c; rn_attempt_id := ni_attempt_id i;
        rn_version := nt_version c; rn_host_id := nt_host_id c; rn_boot_id := nt_boot_id c;
        rn_daemon_generation := nt_daemon_generation c; rn_root_pid_recorded := negb (is_none (ni_root_pid i));
        rn_root_identity := identity; rn_incident_sequence := default 0 (nt_incident_sequence c) |}.

(** [reconciliation_candidate] of one containment. *)
Definition reconciliation_candidate (s : NativeStore) (containment : Uuid)
    : result StoreError ReconciliationCandidate :=
  let absent := rejected "containment_not_uncertain" "containment does not exist in the current store" in
  c ← ok_or (nv_containments s !! containment) absent;
  i ← ok_or (nv_invocations s !! nt_invocation_id c) absent;
  _ ← guard_err (bool_decide (nt_state c = CCleared))
        (rejected "containment_already_cleared" "containment is already cleared");
  _ ← guard_err (bool_decide (nt_state c ≠ CUncertain))
        (rejected "containment_not_uncertain" "containment is not uncertain");
  candidate_of containment c i.

(** The uncertain incidents in the order of the scan: after [after] first, by sequence
    and then by id; at most 32. *)
Definition candidate_le (after : N) (p q : Uuid * Containment) : Prop :=
  let key (r : Uuid * Containment) := default 0 (nt_incident_sequence r.2) in
  let late (r : Uuid * Containment) := bool_decide (after < key r) in
  (late p = true ∧ late q = false) ∨
  (late p = late q ∧ ((key p < key q)%N ∨ key p = key q ∧ (p.1 ≤ q.1)%N)).
#[global] Instance candidate_le_dec after : RelDecision (candidate_le after).
Proof. intros p q. unfold candidate_le. apply _. Defined.

Definition reconciliation_candidates (s : NativeStore) (after : N) (limit : N)
    : result StoreError (list ReconciliationCandidate) :=
  let rows := take (N.to_nat (N.min limit 32)) (sort_by (candidate_le after)
    (List.filter (λ p : Uuid * Containment, bool_decide (nt_state p.2 = CUncertain)
       && negb (is_none (nv_invocations s !! nt_invocation_id p.2))) (btree_entries (nv_containments s)))) in
  result_mapM (λ '(key, c), i ← get_invocation s (nt_invocation_id c); candidate_of key c i) rows.

(** Invocations whose boundary this generation owns and has not closed. *)
Definition generation_invocations (d : Daemon) (s : NativeStore) : list Uuid :=
  sort_by N.le (omap (λ c,
    if bool_decide (nt_daemon_generation c = Some (dm_generation d)) && negb (is_closed (nt_state c))
       && negb (is_none (nv_invocations s !! nt_invocation_id c))
    then Some (nt_invocation_id c) else None) (btree_values (nv_containments s))).

(** [None]: the candidate is not current any more, nothing is committed; [Some b]: cleared,
    [b] telling whether its lease was released. *)
Definition commit_containment_resolution (d : Daemon) (s : NativeStore) (candidate : ReconciliationCandidate)
    (expected : option (list Uuid)) (resolved next_now : Z) : result StoreError (NativeStore * option bool) :=
  match nv_containments s !! rn_containment_id candidate with
  | None => Ok (s, None)
  | Some c =>
  if bool_decide (nt_state c ≠ CUncertain) || bool_decide (nt_version c ≠ rn_version candidate)
     || bool_decide (nt_host_id c ≠ rn_host_id candidate) || bool_decide (nt_boot_id c ≠ rn_boot_id candidate)
     || bool_decide (nt_daemon_generation c ≠ rn_daemon_generation candidate)
     || match expected with Some ids => negb (bool_decide (generation_invocations d s = ids)) | None => false end
  then Ok (s, None) else
  i ← get_invocation s (rn_invocation_id candidate);
  let released := if decide (ni_role i = RoleProbe)
    then existsb (λ l, bool_decide (nl_invocation_id l = Some (rn_invocation_id candidate))
           && bool_decide (nl_state l = LGranted)) (btree_values (nv_leases s))
    else attempt_lease_release_eligible_after_target s (rn_attempt_id candidate) (rn_containment_id candidate) in
  let s := upd_containment (rn_containment_id candidate) (λ c, where_ (bool_decide (nt_state c = CUncertain)
      && bool_decide (nt_version c = rn_version candidate))
    (λ c, c <| nt_state := CCleared |> <| nt_version ::= N.succ |> <| nt_resolved_ms := Some resolved |>) c) s in
  if negb released then Ok (s, Some false)
  else if decide (ni_role i = RoleProbe) then
    let s := release_probe_lease (rn_invocation_id candidate) s in
    match ni_condition_id i with
    | None => Ok (s, Some true)
    | Some condition =>
        c ← ok_or (nv_conditions s !! condition) (ESql "no rows");
        match cond_predicate (nc_spec c) with
        | Probe probe =>
            let next_probe := after_seconds next_now (probe_interval_seconds probe) in
            let waiting := match nv_jobs s !! nc_job_id c with
              | Some j => bool_decide (nj_state j = Pending) && negb (nj_cancel_requested j) | None => false end in
            Ok (upd_condition condition (λ c, c
                  <| nc_state ::= (λ old, if decide (old = CondFailed) then old else CondWaiting) |>
                  <| nc_probe_invocation_id := None |>
                  <| nc_next_probe_ms := if waiting then Some next_probe else None |>) s, Some true)
        | _ => Err (EInvalidState "probe Invocation references a non-probe Condition")
        end
    end
  else Ok (release_leases (rn_attempt_id candidate) s, Some true)
  end.
