(* ===== verification/Life.v ===== *)
(** * Life: what the native tables promise

    An abstract machine for the life of a job.  It keeps, of every row, only what
    safety is about: the state of a job and its current attempt, the state of an
    attempt, which attempt an invocation belongs to, the state of its boundary and
    the leases.  [life_step] lists what may happen; the tables and operations of
    [Native.v], [Lifecycle.v], [Schedule.v], … refine it ([Refinement.v]). *)
From S2P Require Import Prelude Spec Validate Kernel Scoped ScopedFacts Observation Machine MachineStore.
From S2P Require Import MachineFacts ExchangeFacts Reservation MachineOffer OfferFacts.
From S2P Require Import Native ConditionStore Lifecycle.

(** ** State *)
Record JobLife := {
  jl_state : JobState;
  jl_attempt : option Uuid;
  jl_outcome : option JobOutcome;
}.
#[export] Instance JobLife_eta : Eta JobLife := λ r,
  {| jl_state := jl_state r; jl_attempt := jl_attempt r; jl_outcome := jl_outcome r |}.

Record AttemptLife := { al_job : Uuid; al_state : AttemptState }.
#[export] Instance AttemptLife_eta : Eta AttemptLife := λ r, {| al_job := al_job r; al_state := al_state r |}.

Record InvocationLife := { il_attempt : Uuid; il_role : InvocationRole }.

Record BoundaryLife := { bl_invocation : Uuid; bl_state : ContainmentState }.
#[export] Instance BoundaryLife_eta : Eta BoundaryLife := λ r,
  {| bl_invocation := bl_invocation r; bl_state := bl_state r |}.

Record Life := {
  lf_jobs : gmap Uuid JobLife;
  lf_attempts : gmap Uuid AttemptLife;
  lf_invocations : gmap Uuid InvocationLife;
  lf_boundaries : gmap Uuid BoundaryLife;
  lf_leases : gmap Uuid Lease;
}.
#[export] Instance Life_eta : Eta Life := λ r,
  {| lf_jobs := lf_jobs r; lf_attempts := lf_attempts r; lf_invocations := lf_invocations r;
     lf_boundaries := lf_boundaries r; lf_leases := lf_leases r |}.

(** ** Vocabulary *)
Definition waiting (st : AttemptState) : Prop := st = APlanned ∨ st = AAdmitting.
Definition underway (st : AttemptState) : Prop := st = AStarting ∨ st = ARunning.

(** A boundary whose process the daemon still handles. *)
Definition handled (st : ContainmentState) : Prop := st = CCreating ∨ st = CLive.
(** A boundary proven empty, or cleared by an operator. *)
Definition closed (st : ContainmentState) : Prop := st = CEmpty ∨ st = CCleared.

(** The lease that covers an invocation: its own for a probe, the work lease of the
    attempt for a primary or a postcondition. *)
Definition covers (l : Lease) (i : Uuid) (inv : InvocationLife) : Prop :=
  nl_attempt_id l = il_attempt inv ∧
  nl_invocation_id l = (if decide (il_role inv = RoleProbe) then Some i else None).

Definition is_work_lease (l : Lease) (a : Uuid) : Prop :=
  nl_state l = LGranted ∧ nl_attempt_id l = a ∧ nl_invocation_id l = None.

(** A boundary of a primary or a postcondition of an attempt that is still handled. *)
Definition works (lf : Life) (c : Uuid) (a : Uuid) : Prop :=
  ∃ b inv, lf_boundaries lf !! c = Some b ∧ lf_invocations lf !! bl_invocation b = Some inv ∧
    il_attempt inv = a ∧ il_role inv ≠ RoleProbe ∧ handled (bl_state b).

(** Nothing a lease covers is open. *)
Definition releasable (lf : Life) (l : Lease) : Prop :=
  (∀ c b inv, lf_boundaries lf !! c = Some b → lf_invocations lf !! bl_invocation b = Some inv →
     covers l (bl_invocation b) inv → closed (bl_state b)) ∧
  (∀ a, is_work_lease l a → ∀ row, lf_attempts lf !! a = Some row → ¬ underway (al_state row)).

Definition release (p : Lease → bool) (l : Lease) : Lease := if p l then l <| nl_state := LReleased |> else l.

(** The claims of the granted leases. *)
Definition held (lf : Life) : list ResolvedClaims :=
  omap (λ p : Uuid * Lease, if decide (nl_state p.2 = LGranted) then Some (nl_claims p.2) else None)
    (map_to_list (lf_leases lf)).

Definition is_prepared (lf : Life) (i c : Uuid) : Prop :=
  lf_invocations lf !! i = None ∧ lf_boundaries lf !! c = None.

Definition prepare (a i c : Uuid) (role : InvocationRole) (lf : Life) : Life :=
  lf <| lf_invocations ::= <[i := {| il_attempt := a; il_role := role |}]> |>
     <| lf_boundaries ::= <[c := {| bl_invocation := i; bl_state := CCreating |}]> |>.

(** ** Steps *)
Section life.
Context (caps : ResourceCapacities) (rules : gmap string (list string)).

Definition admissible (claims : ResolvedClaims) (active : list ResolvedClaims) : Prop :=
  vector_fits (scalar_entries claims) (legacy_capacities caps) (map scalar_entries active) ∧
  Forall (claims_compatible rules claims) active.

(** [remote] are the claims of the outstanding grants of attached managers. *)
Inductive life_step (remote : list ResolvedClaims) (lf : Life) : Life → Prop :=
(* a job is accepted *)
| life_accept j :
    lf_jobs lf !! j = None →
    life_step remote lf (lf <| lf_jobs ::= <[j := {| jl_state := Pending; jl_attempt := None; jl_outcome := None |}]> |>)
(* a pending job gets an attempt *)
| life_plan j row a :
    lf_jobs lf !! j = Some row → jl_state row = Pending → jl_attempt row = None → lf_attempts lf !! a = None →
    life_step remote lf (lf <| lf_attempts ::= <[a := {| al_job := j; al_state := APlanned |}]> |>
                            <| lf_jobs ::= <[j := row <| jl_attempt := Some a |>]> |>)
| life_admit a row :
    lf_attempts lf !! a = Some row → waiting (al_state row) →
    life_step remote lf (lf <| lf_attempts ::= <[a := row <| al_state := AAdmitting |>]> |>)
(* the primary starts: its claims fit beside everything that is held *)
| life_start j row a arow i c l claims :
    lf_jobs lf !! j = Some row → jl_state row = Pending → jl_attempt row = Some a →
    lf_attempts lf !! a = Some arow → waiting (al_state arow) →
    is_prepared lf i c → lf_leases lf !! l = None →
    admissible claims (held lf ++ remote) →
    life_step remote lf (prepare a i c RolePrimary lf
      <| lf_jobs ::= <[j := row <| jl_state := Active |>]> |>
      <| lf_attempts ::= <[a := arow <| al_state := AStarting |>]> |>
      <| lf_leases ::= <[l := {| nl_attempt_id := a; nl_invocation_id := None; nl_state := LGranted; nl_claims := claims |}]> |>)
(* a probe starts under a lease of its own *)
| life_probe j row a arow i c l claims :
    lf_jobs lf !! j = Some row → jl_state row = Pending → jl_attempt row = Some a →
    lf_attempts lf !! a = Some arow → is_prepared lf i c → lf_leases lf !! l = None →
    admissible claims (held lf ++ remote) →
    life_step remote lf (prepare a i c RoleProbe lf
      <| lf_leases ::= <[l := {| nl_attempt_id := a; nl_invocation_id := Some i; nl_state := LGranted; nl_claims := claims |}]> |>)
(* a postcondition starts under the work lease, after everything before it ended *)
| life_postcondition j row a i c :
    lf_jobs lf !! j = Some row → jl_state row = Active → jl_attempt row = Some a →
    is_prepared lf i c → (∀ c', ¬ works lf c' a) →
    life_step remote lf (prepare a i c RolePostcondition lf)
(* the process exists *)
| life_live c b :
    lf_boundaries lf !! c = Some b → handled (bl_state b) →
    life_step remote lf (lf <| lf_boundaries ::= <[c := b <| bl_state := CLive |>]> |>)
| life_run a row :
    lf_attempts lf !! a = Some row → underway (al_state row) →
    life_step remote lf (lf <| lf_attempts ::= <[a := row <| al_state := ARunning |>]> |>)
(* the boundary is proven empty, or the proof fails, or an operator clears it *)
| life_close c b :
    lf_boundaries lf !! c = Some b → handled (bl_state b) →
    life_step remote lf (lf <| lf_boundaries ::= <[c := b <| bl_state := CEmpty |>]> |>)
| life_uncertain c b :
    lf_boundaries lf !! c = Some b → handled (bl_state b) →
    life_step remote lf (lf <| lf_boundaries ::= <[c := b <| bl_state := CUncertain |>]> |>)
| life_clear c b :
    lf_boundaries lf !! c = Some b → bl_state b = CUncertain →
    life_step remote lf (lf <| lf_boundaries ::= <[c := b <| bl_state := CCleared |>]> |>)
(* the attempt of an active job settles; [None] sends the job back to the queue *)
| life_settle j row a arow outcome :
    lf_jobs lf !! j = Some row → jl_state row = Active → jl_attempt row = Some a →
    lf_attempts lf !! a = Some arow → (∀ c, ¬ works lf c a) →
    life_step remote lf (lf <| lf_attempts ::= <[a := arow <| al_state := ASettled |>]> |>
      <| lf_jobs ::= <[j := match outcome with
           | Some o => row <| jl_state := Final |> <| jl_outcome := Some o |>
           | None => row <| jl_state := Pending |> <| jl_attempt := None |> end]> |>)
(* leases that cover nothing open are released *)
| life_release p :
    (∀ k l, lf_leases lf !! k = Some l → p l = true → nl_state l = LGranted → releasable lf l) →
    life_step remote lf (lf <| lf_leases ::= fmap (release p) |>)
(* a start that never ran is planned again; its leases are released with it *)
| life_replan j row a arow :
    lf_jobs lf !! j = Some row → jl_state row = Active → jl_attempt row = Some a →
    lf_attempts lf !! a = Some arow →
    (∀ c b inv, lf_boundaries lf !! c = Some b → lf_invocations lf !! bl_invocation b = Some inv →
       il_attempt inv = a → closed (bl_state b)) →
    life_step remote lf (lf <| lf_attempts ::= <[a := arow <| al_state := APlanned |>]> |>
      <| lf_jobs ::= <[j := row <| jl_state := Pending |>]> |>
      <| lf_leases ::= fmap (release (λ l, bool_decide (nl_attempt_id l = a))) |>)
(* a pending job ends; its attempt settles or is left as it is *)
| life_finish j row o (settled : bool) :
    lf_jobs lf !! j = Some row → jl_state row = Pending →
    life_step remote lf (lf
      <| lf_attempts ::= match jl_attempt row with
           | Some a => if settled then alter (λ r, r <| al_state := ASettled |>) a else id
           | None => id end |>
      <| lf_jobs ::= <[j := row <| jl_state := Final |> <| jl_outcome := Some o |>]> |>)
(* the attempt of a pending job settles and the job gets another one *)
| life_abandon j row a :
    lf_jobs lf !! j = Some row → jl_state row = Pending → jl_attempt row = Some a →
    life_step remote lf (lf <| lf_attempts ::= alter (λ r, r <| al_state := ASettled |>) a |>
      <| lf_jobs ::= <[j := row <| jl_attempt := None |>]> |>)
(* the daemon restarts: what it handled is uncertain, what was underway ends *)
| life_restart (outcome : Uuid → JobOutcome) :
    life_step remote lf (lf
      <| lf_boundaries ::= fmap (λ b, if is_open_boundary (bl_state b) then b <| bl_state := CUncertain |> else b) |>
      <| lf_attempts ::= fmap (λ r, if bool_decide (al_state r = AStarting) || bool_decide (al_state r = ARunning)
                                    then r <| al_state := ASettled |> else r) |>
      <| lf_jobs ::= map_imap (λ j row, Some (if bool_decide (jl_state row = Active)
           then row <| jl_state := Final |> <| jl_outcome := Some (outcome j) |> else row)) |>)
(* the rows of an old invocation are deleted *)
| life_forget i inv :
    lf_invocations lf !! i = Some inv →
    (∀ c b, lf_boundaries lf !! c = Some b → bl_invocation b = i → closed (bl_state b)) →
    (∀ k l, lf_leases lf !! k = Some l → nl_invocation_id l = Some i → nl_state l = LReleased) →
    life_step remote lf (lf
      <| lf_leases ::= filter (λ p : Uuid * Lease, nl_invocation_id p.2 ≠ Some i) |>
      <| lf_boundaries ::= filter (λ p : Uuid * BoundaryLife, bl_invocation p.2 ≠ i) |>
      <| lf_invocations ::= delete i |>).
End life.
