(* ===== verification/LifeFacts.v ===== *)
(** * LifeFacts: the safety of the abstract life of a job

    The invariant of [life_step]: who owns what, which lease covers which boundary,
    and that the leases never claim more than the machine has. *)
From S2P Require Import Prelude Spec Validate Kernel Scoped ScopedFacts Observation Machine MachineStore.
From S2P Require Import MachineFacts ExchangeFacts Reservation MachineOffer OfferFacts.
From S2P Require Import Native ConditionStore Lifecycle Life.

(** ** Claims that are held together *)
#[global] Instance claims_compatible_symmetric rules : Symmetric (claims_compatible rules).
Proof.
  intros a b. unfold claims_compatible, fences_compatible, impacts_compatible.
  intros [Hf Hi]. split; [set_solver|]. intros x y Hx Hy. rewrite impacts_conflict_sym. by apply Hi.
Qed.

Definition claims_safe (caps : ResourceCapacities) (rules : gmap string (list string))
    (active : list ResolvedClaims) : Prop :=
  within_capacity (legacy_capacities caps) (map scalar_entries active) ∧
  pairwise (claims_compatible rules) active.

Lemma claims_safe_submseteq caps rules l k : l ⊆+ k → claims_safe caps rules k → claims_safe caps rules l.
Proof.
  intros (rest & Hk)%submseteq_Permutation [Hw Hp]. split.
  - intros key. specialize (Hw key). unfold total_debit, debits_of in *.
    rewrite Hk, !map_app, sum_N_app in Hw. lia.
  - rewrite Hk in Hp. clear Hk Hw. induction rest as [|x rest IH]; [by rewrite app_nil_r in Hp|].
    by apply IH, (pairwise_delete _ _ x).
Qed.

Lemma claims_safe_admit caps rules claims active :
  admissible caps rules claims active → claims_safe caps rules active →
  claims_safe caps rules (claims :: active).
Proof. intros [Hfit Hc] [Hw Hp]. split; [by apply within_capacity_admit|by apply pairwise_cons]. Qed.

(** ** What is held, as a multiset *)
Definition granted_claims (l : Lease) : option ResolvedClaims :=
  if decide (nl_state l = LGranted) then Some (nl_claims l) else None.

Lemma held_insert lf k l : lf_leases lf !! k = None →
  held (lf <| lf_leases ::= <[k := l]> |>) ≡ₚ option_list (granted_claims l) ++ held lf.
Proof.
  intros Hk. unfold held; simpl. rewrite map_to_list_insert by done. simpl.
  unfold granted_claims. by case_decide.
Qed.

(** A map of the leases that never grants one holds less. *)
Lemma omap_submseteq {A B} (f : A → option B) l k : l ⊆+ k → omap f l ⊆+ omap f k.
Proof.
  intros (rest & Hk)%submseteq_Permutation. rewrite Hk, omap_app. by apply submseteq_inserts_r.
Qed.

Lemma held_fmap (m : gmap Uuid Lease) (g : Lease → Lease) :
  (∀ l, granted_claims (g l) = granted_claims l ∨ granted_claims (g l) = None) →
  omap (λ p : Uuid * Lease, granted_claims p.2) (map_to_list (g <$> m)) ⊆+
  omap (λ p : Uuid * Lease, granted_claims p.2) (map_to_list m).
Proof.
  intros Hg. rewrite map_to_list_fmap. generalize (map_to_list m). intros l.
  induction l as [|[k x] l IH]; [done|]. simpl. destruct (Hg x) as [-> | ->].
  - destruct (granted_claims x); [by apply submseteq_skip|done].
  - destruct (granted_claims x); [by apply submseteq_cons|done].
Qed.

Lemma held_release lf p : held (lf <| lf_leases ::= fmap (release p) |>) ⊆+ held lf.
Proof.
  apply held_fmap. intros l. unfold release. destruct (p l); [right|by left].
  unfold granted_claims. by rewrite decide_False.
Qed.

Lemma held_filter lf (P : Uuid * Lease → Prop) `{∀ x, Decision (P x)} :
  held (lf <| lf_leases ::= filter P |>) ⊆+ held lf.
Proof. apply omap_submseteq, map_to_list_submseteq, map_filter_subseteq. Qed.

(** ** The invariant *)
Record life_inv (lf : Life) : Prop := {
  li_attempt_job a row : lf_attempts lf !! a = Some row → is_Some (lf_jobs lf !! al_job row);
  li_invocation_attempt i inv : lf_invocations lf !! i = Some inv → is_Some (lf_attempts lf !! il_attempt inv);
  li_boundary_invocation c b : lf_boundaries lf !! c = Some b → is_Some (lf_invocations lf !! bl_invocation b);
  li_boundary_unique c c' b b' : lf_boundaries lf !! c = Some b → lf_boundaries lf !! c' = Some b' →
    bl_invocation b = bl_invocation b' → c = c';
  li_lease_attempt k l : lf_leases lf !! k = Some l → is_Some (lf_attempts lf !! nl_attempt_id l);
  li_lease_invocation k l i : lf_leases lf !! k = Some l → nl_invocation_id l = Some i →
    is_Some (lf_invocations lf !! i);
  (* a pending job waits with its attempt, an active one has it underway, a final one has an outcome *)
  li_pending j row a : lf_jobs lf !! j = Some row → jl_state row = Pending → jl_attempt row = Some a →
    ∃ arow, lf_attempts lf !! a = Some arow ∧ al_job arow = j ∧ waiting (al_state arow);
  li_active j row : lf_jobs lf !! j = Some row → jl_state row = Active →
    ∃ a arow, jl_attempt row = Some a ∧ lf_attempts lf !! a = Some arow ∧ al_job arow = j ∧ underway (al_state arow);
  li_final j row : lf_jobs lf !! j = Some row → jl_state row = Final → is_Some (jl_outcome row);
  li_finalizing j row : lf_jobs lf !! j = Some row → jl_state row ≠ Finalizing;
  (* an attempt is underway only as the current attempt of an active job *)
  li_underway a arow : lf_attempts lf !! a = Some arow → underway (al_state arow) →
    ∃ row, lf_jobs lf !! al_job arow = Some row ∧ jl_state row = Active ∧ jl_attempt row = Some a;
  (* exactly the attempts that started hold a work lease, and they hold one *)
  li_work_lease a arow : lf_attempts lf !! a = Some arow → underway (al_state arow) →
    ∃ k l, lf_leases lf !! k = Some l ∧ is_work_lease l a;
  li_no_early_lease k l a arow : lf_leases lf !! k = Some l → is_work_lease l a → lf_attempts lf !! a = Some arow →
    ¬ waiting (al_state arow);
  li_one_lease k k' l l' a : lf_leases lf !! k = Some l → lf_leases lf !! k' = Some l' →
    is_work_lease l a → is_work_lease l' a → k = k';
  (* an open boundary is covered by a granted lease *)
  li_covered c b inv : lf_boundaries lf !! c = Some b → lf_invocations lf !! bl_invocation b = Some inv →
    ¬ closed (bl_state b) → ∃ k l, lf_leases lf !! k = Some l ∧ nl_state l = LGranted ∧ covers l (bl_invocation b) inv;
  (* work that is handled belongs to an attempt underway, one boundary at a time *)
  li_works c a : works lf c a → ∃ arow, lf_attempts lf !! a = Some arow ∧ underway (al_state arow);
  li_one_work c c' a : works lf c a → works lf c' a → c = c';
}.

(** ** Preservation, one kind of change at a time *)

(** Case analysis on every lookup in an updated map among the hypotheses. *)
Ltac split_lookups :=
  repeat match goal with
  | H : <[?k := ?x]> ?m !! ?k' = Some ?y |- _ =>
      apply lookup_insert_Some in H; destruct H as [[? ?]|[? H]]; simplify_eq/=
  | H : alter ?f ?k ?m !! ?k' = Some ?y |- _ =>
      apply lookup_alter_Some in H; destruct H as [(? & ? & H & ?)|[? H]]; simplify_eq/=
  | H : (?f <$> ?m) !! ?k = Some ?y |- _ =>
      apply lookup_fmap_Some in H; destruct H as (? & ? & H); simplify_eq/=
  | H : filter ?P ?m !! ?k = Some ?y |- _ =>
      apply map_lookup_filter_Some in H; destruct H as [H ?]; simplify_eq/=
  | H : delete ?k ?m !! ?k' = Some ?y |- _ =>
      apply lookup_delete_Some in H; destruct H as [? H]; simplify_eq/=
  end.

(** A lookup that exists in a map exists in the updated one. *)
Lemma is_Some_insert {A} (m : gmap Uuid A) k x k' : is_Some (m !! k') → is_Some (<[k := x]> m !! k').
Proof. rewrite lookup_insert_is_Some'. auto. Qed.
Lemma is_Some_alter {A} (m : gmap Uuid A) f k k' : is_Some (m !! k') → is_Some (alter f k m !! k').
Proof. by rewrite lookup_alter_is_Some. Qed.
#[local] Hint Resolve is_Some_insert is_Some_alter : life.
#[local] Hint Resolve li_attempt_job li_invocation_attempt li_boundary_invocation li_lease_attempt
  li_lease_invocation li_final li_finalizing : life.

Lemma works_spec lf c a : works lf c a ↔ ∃ b inv, lf_boundaries lf !! c = Some b ∧
  lf_invocations lf !! bl_invocation b = Some inv ∧ il_attempt inv = a ∧ il_role inv ≠ RoleProbe ∧
  handled (bl_state b).
Proof. done. Qed.

(** A boundary moves on: it does not open or become handled again. *)
Lemma life_inv_boundary lf c b st :
  life_inv lf → lf_boundaries lf !! c = Some b →
  (handled st → handled (bl_state b)) → (closed (bl_state b) → closed st) →
  life_inv (lf <| lf_boundaries ::= <[c := b <| bl_state := st |>]> |>).
Proof.
  intros Hinv Hb Hh Hc.
  assert (∀ c' a, works (lf <| lf_boundaries ::= <[c := b <| bl_state := st |>]> |>) c' a → works lf c' a) as Hworks.
  { intros c' a (b' & inv & Hb' & Hi & Ha & Hr & Hst). simpl in *. split_lookups; [|by exists b', inv].
    exists b, inv. split_and!; auto. }
  destruct Hinv. constructor; simpl; eauto.
  - intros c' b' Hb'. split_lookups; eauto.
  - intros c1 c2 b1 b2 H1 H2 Heq. split_lookups; eauto.
  - intros c' b' inv Hb' Hi Hop. split_lookups; eauto.
Qed.

Lemma underway_not_waiting st : underway st → ¬ waiting st.
Proof. intros [-> | ->] [|]; done. Qed.
Lemma not_closed_handled st : handled st → ¬ closed st.
Proof. intros [-> | ->] [|]; done. Qed.
#[local] Hint Resolve not_closed_handled : life.

(** Steps that leave jobs, invocations and boundaries alone keep [works]. *)
Lemma works_frame lf lf' c a :
  lf_invocations lf' = lf_invocations lf → lf_boundaries lf' = lf_boundaries lf → works lf' c a ↔ works lf c a.
Proof. unfold works. by intros -> ->. Qed.

(** An attempt changes its state without being started or ended. *)
Lemma life_inv_attempt lf a row st :
  life_inv lf → lf_attempts lf !! a = Some row →
  (waiting (al_state row) ↔ waiting st) → (underway (al_state row) ↔ underway st) →
  life_inv (lf <| lf_attempts ::= <[a := row <| al_state := st |>]> |>).
Proof.
  intros Hinv Ha Hwait Hunder. set (lf' := upd _ _ _).
  assert (∀ c a, works lf' c a → works lf c a) as Hworks by by intros ??; apply works_frame.
  assert (∀ a' r, lf_attempts lf !! a' = Some r → ∃ r', lf_attempts lf' !! a' = Some r' ∧ al_job r' = al_job r ∧
    (waiting (al_state r) → waiting (al_state r')) ∧ (underway (al_state r) → underway (al_state r'))) as Hkeep.
  { intros a' r Hr. simpl. destruct (decide (a = a')) as [->|Hne].
    - simplify_eq. rewrite lookup_insert_eq. eexists. split_and!; [done|done|simpl; tauto..].
    - rewrite lookup_insert_ne by done. eauto 10. }
  destruct Hinv. constructor; subst lf'; simpl in *; eauto with life.
  - intros a' r Hr. split_lookups; eauto.
  - intros j r a' Hj Hp Hja. destruct (li_pending0 j r a' Hj Hp Hja) as (ar & Har & Hjob & Hw).
    destruct (Hkeep a' ar Har) as (r' & ? & ? & ? & ?). exists r'. split_and!; [done|congruence|auto].
  - intros j r Hj Hact. destruct (li_active0 j r Hj Hact) as (a' & ar & Hja & Har & Hjob & Hu).
    destruct (Hkeep a' ar Har) as (r' & ? & ? & ? & ?). exists a', r'. split_and!; [done..|congruence|auto].
  - intros a' ar Har Hu. split_lookups; [|eauto]. eapply li_underway0; [done|]. tauto.
  - intros a' ar Har Hu. split_lookups; [|eauto]. eapply li_work_lease0; [done|]. tauto.
  - intros k l a' ar Hl Hw Har. split_lookups; [|eauto]. rewrite <-Hwait. eauto.
  - intros c a' Hw. destruct (li_works0 c a') as (ar & Har & Hu); [by apply Hworks|].
    destruct (Hkeep a' ar Har) as (r' & ? & ? & ? & ?). eauto.
Qed.

(** A job and its attempt start waiting together. *)
Lemma life_inv_plan lf j row a :
  life_inv lf → lf_jobs lf !! j = Some row → jl_state row = Pending → jl_attempt row = None →
  lf_attempts lf !! a = None →
  life_inv (lf <| lf_attempts ::= <[a := {| al_job := j; al_state := APlanned |}]> |>
               <| lf_jobs ::= <[j := row <| jl_attempt := Some a |>]> |>).
Proof.
  intros Hinv Hj Hp Hn Ha. set (lf' := upd _ _ _).
  assert (∀ c a, works lf' c a → works lf c a) as Hworks by by intros ??; apply works_frame.
  assert (∀ a' r, lf_attempts lf !! a' = Some r → lf_attempts lf' !! a' = Some r) as Hkeep.
  { intros a' r Hr. simpl. rewrite lookup_insert_ne; [done|]. intros ->. congruence. }
  destruct Hinv. constructor; subst lf'; simpl in *; eauto with life.
  - intros a' r Hr. split_lookups; eauto with life.
  - intros j' r a' Hj' Hp' Hja. split_lookups.
    + exists {| al_job := j'; al_state := APlanned |}. rewrite lookup_insert_eq. split_and!; [done..|by left].
    + destruct (li_pending0 j' r a') as (ar & ? & ? & ?); eauto.
  - intros j' r Hj' Hact. split_lookups; [congruence|].
    destruct (li_active0 j' r Hj' Hact) as (a' & ar & ? & ? & ? & ?). eauto 10.
  - intros j' r Hj' Hf. split_lookups; [congruence|eauto].
  - intros j' r Hj'. split_lookups; [congruence|eauto].
  - intros a' ar Har Hu. split_lookups; [by destruct Hu|].
    destruct (li_underway0 a' ar Har Hu) as (r & Hr & ? & ?).
    assert (al_job ar ≠ j) by (intros <-; congruence). exists r. by rewrite lookup_insert_ne.
  - intros a' ar Har Hu. split_lookups; [by destruct Hu|eauto].
  - intros k l a' ar Hl Hw Har. split_lookups; [|eauto]. destruct Hw as (_ & <- & _).
    apply li_lease_attempt0 in Hl as [? ?]. congruence.
  - intros c a' Hw. destruct (li_works0 c a') as (ar & Har & Hu); [by apply Hworks|]. eauto.
Qed.

Lemma life_inv_accept lf j :
  life_inv lf → lf_jobs lf !! j = None →
  life_inv (lf <| lf_jobs ::= <[j := {| jl_state := Pending; jl_attempt := None; jl_outcome := None |}]> |>).
Proof.
  intros Hinv Hj. set (lf' := upd _ _ _).
  assert (∀ c a, works lf' c a → works lf c a) as Hworks by by intros ??; apply works_frame.
  destruct Hinv. constructor; subst lf'; simpl in *; eauto with life.
  - intros j' r a' Hj' Hp' Hja. split_lookups. eauto.
  - intros j' r Hj' Hact. split_lookups. eauto.
  - intros j' r Hj' Hf. split_lookups. eauto.
  - intros j' r Hj'. split_lookups; [done|eauto].
  - intros a' ar Har Hu. destruct (li_underway0 a' ar Har Hu) as (r & Hr & ? & ?).
    exists r. rewrite lookup_insert_ne; [done|]. intros ->. congruence.
Qed.

(** ** A prepared invocation *)
Lemma prepare_works lf a i c role c' a' :
  life_inv lf → is_prepared lf i c →
  works (prepare a i c role lf) c' a' → works lf c' a' ∨ (c' = c ∧ a' = a ∧ role ≠ RoleProbe).
Proof.
  intros Hinv [Hi Hc] (b & inv & Hb & Hinv' & Ha & Hr & Hst). simpl in *. split_lookups.
  - by right.
  - destruct (li_boundary_invocation lf Hinv _ _ Hb). congruence.
  - left. by exists b, inv.
Qed.

(** The references and the coverage after an invocation is prepared under a
    granted lease that covers it. *)
Lemma prepare_covered lf a i c role k l (leases : gmap Uuid Lease) :
  life_inv lf → is_prepared lf i c →
  leases !! k = Some l → nl_state l = LGranted → covers l i {| il_attempt := a; il_role := role |} →
  (∀ k' l', lf_leases lf !! k' = Some l' → leases !! k' = Some l') →
  ∀ c' b inv, lf_boundaries (prepare a i c role lf) !! c' = Some b →
    lf_invocations (prepare a i c role lf) !! bl_invocation b = Some inv →
    ¬ closed (bl_state b) → ∃ k l, leases !! k = Some l ∧ nl_state l = LGranted ∧ covers l (bl_invocation b) inv.
Proof.
  intros Hinv [Hi Hc] Hk Hg Hcov Hkeep c' b inv Hb Hinv' Hop. simpl in *. split_lookups.
  - by exists k, l.
  - destruct (li_boundary_invocation lf Hinv _ _ Hb). congruence.
  - destruct (li_covered lf Hinv _ _ _ Hb Hinv' Hop) as (k' & l' & ? & ? & ?). exists k', l'. auto.
Qed.

Lemma prepare_references lf a i c role :
  life_inv lf → is_prepared lf i c → is_Some (lf_attempts lf !! a) →
  (∀ i' inv, lf_invocations (prepare a i c role lf) !! i' = Some inv → is_Some (lf_attempts lf !! il_attempt inv)) ∧
  (∀ c' b, lf_boundaries (prepare a i c role lf) !! c' = Some b →
     is_Some (lf_invocations (prepare a i c role lf) !! bl_invocation b)) ∧
  (∀ c1 c2 b1 b2, lf_boundaries (prepare a i c role lf) !! c1 = Some b1 →
     lf_boundaries (prepare a i c role lf) !! c2 = Some b2 → bl_invocation b1 = bl_invocation b2 → c1 = c2).
Proof.
  intros Hinv [Hi Hc] Ha. simpl. split_and!.
  - intros i' inv Hi'. split_lookups; [done|]. by eapply li_invocation_attempt.
  - intros c' b Hb. split_lookups; [rewrite lookup_insert_eq; by eexists|].
    apply is_Some_insert. by eapply li_boundary_invocation.
  - intros c1 c2 b1 b2 H1 H2 Heq.
    assert (∀ c' b', lf_boundaries lf !! c' = Some b' → bl_invocation b' ≠ i) as Hfresh.
    { intros c' b' Hb' Hbi. destruct (li_boundary_invocation lf Hinv _ _ Hb'). congruence. }
    split_lookups; first [done | by exfalso; eapply Hfresh; eauto | by eapply li_boundary_unique].
Qed.

Lemma life_inv_probe lf j row a arow i c l claims :
  life_inv lf → lf_jobs lf !! j = Some row → lf_attempts lf !! a = Some arow →
  is_prepared lf i c → lf_leases lf !! l = None →
  life_inv (prepare a i c RoleProbe lf
    <| lf_leases ::= <[l := {| nl_attempt_id := a; nl_invocation_id := Some i; nl_state := LGranted; nl_claims := claims |}]> |>).
Proof.
  intros Hinv Hj Ha Hprep Hl. set (lease := Build_Lease _ _ _ _).
  destruct (prepare_references lf a i c RoleProbe Hinv Hprep) as (Hr1 & Hr2 & Hr3); [by eexists|].
  pose proof (prepare_works lf a i c RoleProbe) as Hworks.
  pose proof (prepare_covered lf a i c RoleProbe l lease (<[l := lease]> (lf_leases lf)) Hinv Hprep
    ltac:(apply lookup_insert_eq) eq_refl ltac:(done)) as Hcov.
  assert (∀ k' l', lf_leases lf !! k' = Some l' → <[l := lease]> (lf_leases lf) !! k' = Some l') as Hkeep.
  { intros k' l' Hk'. rewrite lookup_insert_ne; [done|]. congruence. }
  assert (∀ k r a', <[l := lease]> (lf_leases lf) !! k = Some r → is_work_lease r a' → lf_leases lf !! k = Some r) as Hwork.
  { intros k r a' Hk (_ & _ & Hn). by split_lookups. }
  specialize (Hcov Hkeep). destruct Hprep as [Hi Hc].
  assert (∀ c' a', works (prepare a i c RoleProbe lf
    <| lf_leases ::= <[l := lease]> |>) c' a' → works lf c' a') as Hworks'.
  { intros c' a' Hw. by destruct (Hworks c' a' Hinv (conj Hi Hc) Hw) as [|(_ & _ & [])]. }
  clear Hworks. destruct Hinv. constructor; simpl in *; eauto.
  - intros k r Hk. split_lookups; eauto.
  - intros k r i' Hk Hi'. split_lookups; [rewrite lookup_insert_eq; by eexists|eauto with life].
  - intros a' ar Har Hu. destruct (li_work_lease0 a' ar Har Hu) as (k & r & ? & ?). eauto.
Qed.

Lemma life_inv_postcondition lf j row a i c :
  life_inv lf → lf_jobs lf !! j = Some row → jl_state row = Active → jl_attempt row = Some a →
  is_prepared lf i c → (∀ c', ¬ works lf c' a) →
  life_inv (prepare a i c RolePostcondition lf).
Proof.
  intros Hinv Hj Hact Hja Hprep Hidle.
  destruct (li_active lf Hinv j row Hj Hact) as (a' & arow & Ha' & Har & Hjob & Hu). simplify_eq.
  destruct (li_work_lease lf Hinv _ _ Har Hu) as (k & l & Hk & Hg & Hl1 & Hl2).
  destruct (prepare_references lf a i c RolePostcondition Hinv Hprep) as (Hr1 & Hr2 & Hr3); [by eexists|].
  pose proof (prepare_covered lf a i c RolePostcondition k l (lf_leases lf) Hinv Hprep Hk Hg
    ltac:(by split) ltac:(done)) as Hcov.
  assert (∀ c' a', works (prepare a i c RolePostcondition lf) c' a' → works lf c' a' ∨ (c' = c ∧ a' = a)) as Hworks.
  { intros c' a' Hw. destruct (prepare_works lf a i c _ c' a' Hinv Hprep Hw) as [|(-> & -> & _)]; auto. }
  destruct Hinv. constructor; simpl in *; eauto with life.
  - intros c' a' Hw. destruct (Hworks c' a' Hw) as [?|[-> ->]]; eauto.
  - intros c1 c2 a' H1 H2. destruct (Hworks _ _ H1) as [?|[-> ->]], (Hworks _ _ H2) as [?|[? ?]]; simplify_eq; eauto;
      by destruct (Hidle c1) || by destruct (Hidle c2).
Qed.

Lemma life_inv_start lf j row a arow i c l claims :
  life_inv lf → lf_jobs lf !! j = Some row → jl_state row = Pending → jl_attempt row = Some a →
  lf_attempts lf !! a = Some arow → waiting (al_state arow) →
  is_prepared lf i c → lf_leases lf !! l = None →
  life_inv (prepare a i c RolePrimary lf
    <| lf_jobs ::= <[j := row <| jl_state := Active |>]> |>
    <| lf_attempts ::= <[a := arow <| al_state := AStarting |>]> |>
    <| lf_leases ::= <[l := {| nl_attempt_id := a; nl_invocation_id := None; nl_state := LGranted; nl_claims := claims |}]> |>).
Proof.
  intros Hinv Hj Hp Hja Ha Hwait Hprep Hl. set (lease := Build_Lease _ _ _ _).
  destruct (li_pending lf Hinv j row a Hj Hp Hja) as (? & ? & Hjob & _). simplify_eq.
  destruct (prepare_references lf a i c RolePrimary Hinv Hprep) as (Hr1 & Hr2 & Hr3); [by eexists|].
  pose proof (prepare_covered lf a i c RolePrimary l lease (<[l := lease]> (lf_leases lf)) Hinv Hprep
    ltac:(apply lookup_insert_eq) eq_refl ltac:(done)) as Hcov.
  assert (∀ k' l', lf_leases lf !! k' = Some l' → <[l := lease]> (lf_leases lf) !! k' = Some l') as Hkeep.
  { intros k' l' Hk'. rewrite lookup_insert_ne; [done|]. congruence. }
  specialize (Hcov Hkeep). pose proof (underway_not_waiting) as Hdisj.
  assert (∀ c' a', works (prepare a i c RolePrimary lf) c' a' → works lf c' a' ∨ (c' = c ∧ a' = a)) as Hworks.
  { intros c' a' Hw. destruct (prepare_works lf a i c _ c' a' Hinv Hprep Hw) as [|(-> & -> & _)]; auto. }
  assert (∀ c', ¬ works lf c' a) as Hidle.
  { intros c' Hw. destruct (li_works lf Hinv _ _ Hw) as (? & ? & ?). simplify_eq. by eapply Hdisj. }
  assert (∀ k' l', lf_leases lf !! k' = Some l' → ¬ is_work_lease l' a) as Hnolease.
  { intros k' l' Hk' Hw. by eapply (li_no_early_lease lf Hinv). }
  destruct Hinv. constructor; simpl in *; eauto with life.
  - intros a' r Hr. split_lookups; eauto with life.
  - intros k r Hk. split_lookups; eauto with life.
  - intros k r i' Hk Hi'. split_lookups; eauto with life.
  - intros j' r a' Hj' Hp' Hja'. split_lookups.
    destruct (li_pending0 j' r a') as (ar & Har & ? & ?); [done..|]. exists ar.
    rewrite lookup_insert_ne; [done|congruence].
  - intros j' r Hj' Hact. split_lookups.
    + exists a. eexists. rewrite lookup_insert_eq. split_and!; [done..|by left].
    + destruct (li_active0 j' r Hj' Hact) as (a' & ar & ? & Har & ? & Hu). exists a', ar.
      rewrite lookup_insert_ne; [done|]. by intros ->; simplify_eq.
  - intros j' r Hj' Hf. split_lookups; eauto.
  - intros j' r Hj'. split_lookups; [done|eauto].
  - intros a' ar Har Hu. split_lookups.
    + eexists. rewrite lookup_insert_eq. by split_and!.
    + destruct (li_underway0 a' ar Har Hu) as (r & Hr & ? & ?). exists r.
      rewrite lookup_insert_ne; [done|congruence].
  - intros a' ar Har Hu. split_lookups.
    + exists l, lease. rewrite lookup_insert_eq. by split_and!.
    + destruct (li_work_lease0 a' ar Har Hu) as (k & r & ? & ?). eauto.
  - intros k r a' ar Hk Hw Har. split_lookups.
    + intros [|]; done.
    + intros [|]; done.
    + destruct Hw as (_ & ? & _). simplify_eq/=.
    + eauto.
  - intros k k' r r' a' Hk Hk' Hw Hw'. split_lookups; eauto.
    + destruct Hw' as (_ & ? & _). simplify_eq/=. by destruct (Hnolease _ _ Hk).
    + destruct Hw as (_ & ? & _). simplify_eq/=. by destruct (Hnolease _ _ Hk').
  - intros c' a' Hw. destruct (Hworks c' a' Hw) as [Hw'|[-> ->]].
    + destruct (li_works0 c' a' Hw') as (ar & Har & Hu). exists ar. rewrite lookup_insert_ne; [done|].
      intros ->. by destruct (Hidle c').
    + eexists. rewrite lookup_insert_eq. split; [done|by left].
  - intros c1 c2 a' H1 H2. destruct (Hworks _ _ H1) as [?|[-> ->]], (Hworks _ _ H2) as [?|[? ?]]; simplify_eq; eauto;
      by destruct (Hidle c1) || by destruct (Hidle c2).
Qed.

(** ** Ends *)

(** A pending job ends, or gives its attempt up. *)
Lemma life_inv_job lf j row row' :
  life_inv lf → lf_jobs lf !! j = Some row → jl_state row = Pending →
  (jl_state row' = Final ∧ is_Some (jl_outcome row')) ∨ (jl_state row' = Pending ∧ jl_attempt row' = None) →
  life_inv (lf <| lf_jobs ::= <[j := row']> |>).
Proof.
  intros Hinv Hj Hp Hrow'. set (lf' := upd _ _ _).
  assert (∀ c a, works lf' c a → works lf c a) as Hworks by by intros ??; apply works_frame.
  destruct Hinv. constructor; subst lf'; simpl in *; eauto with life.
  - intros j' r a' Hj' Hp' Hja. split_lookups; [|eauto]. destruct Hrow' as [[? ?]|[? ?]]; congruence.
  - intros j' r Hj' Hact. split_lookups; [|eauto]. destruct Hrow' as [[? ?]|[? ?]]; congruence.
  - intros j' r Hj' Hf. split_lookups; [|eauto]. destruct Hrow' as [[? ?]|[? ?]]; [done|congruence].
  - intros j' r Hj'. split_lookups; [|eauto]. destruct Hrow' as [[-> ?]|[-> ?]]; done.
  - intros a' ar Har Hu. destruct (li_underway0 a' ar Har Hu) as (r & Hr & ? & ?). exists r.
    rewrite lookup_insert_ne; [done|congruence].
Qed.

(** An attempt that is not the current one of a live job settles. *)
Lemma life_inv_settle_idle lf a arow :
  life_inv lf → lf_attempts lf !! a = Some arow → ¬ underway (al_state arow) →
  (∀ row, lf_jobs lf !! al_job arow = Some row → jl_attempt row = Some a → jl_state row = Final) →
  life_inv (lf <| lf_attempts ::= <[a := arow <| al_state := ASettled |>]> |>).
Proof.
  intros Hinv Ha Hu Hjob. set (lf' := upd _ _ _).
  assert (∀ c a, works lf' c a → works lf c a) as Hworks by by intros ??; apply works_frame.
  destruct Hinv. constructor; subst lf'; simpl in *; eauto with life.
  - intros a' r Hr. split_lookups; eauto.
  - intros j r a' Hj Hp Hja. destruct (li_pending0 j r a' Hj Hp Hja) as (ar & Har & <- & Hw). exists ar.
    rewrite lookup_insert_ne; [done|]. intros ->. simplify_eq. rewrite (Hjob r) in Hp; done.
  - intros j r Hj Hact. destruct (li_active0 j r Hj Hact) as (a' & ar & Hja & Har & <- & Hua). exists a', ar.
    rewrite lookup_insert_ne; [done|]. intros ->. by simplify_eq.
  - intros a' ar Har Hua. split_lookups; [by destruct Hua|eauto].
  - intros a' ar Har Hua. split_lookups; [by destruct Hua|eauto].
  - intros k l a' ar Hl Hw Har. split_lookups; [by intros [|]|eauto].
  - intros c a' Hw. destruct (li_works0 c a') as (ar & Har & Hua); [by apply Hworks|]. exists ar.
    rewrite lookup_insert_ne; [done|]. intros ->. by simplify_eq.
Qed.

(** The attempt of an active job settles with it. *)
Lemma life_inv_settle lf j row a arow row' :
  life_inv lf → lf_jobs lf !! j = Some row → jl_state row = Active → jl_attempt row = Some a →
  lf_attempts lf !! a = Some arow → (∀ c, ¬ works lf c a) →
  (jl_state row' = Final ∧ is_Some (jl_outcome row')) ∨ (jl_state row' = Pending ∧ jl_attempt row' = None) →
  life_inv (lf <| lf_attempts ::= <[a := arow <| al_state := ASettled |>]> |> <| lf_jobs ::= <[j := row']> |>).
Proof.
  intros Hinv Hj Hact Hja Ha Hidle Hrow'. set (lf' := upd _ _ _).
  assert (∀ c a, works lf' c a → works lf c a) as Hworks by by intros ??; apply works_frame.
  destruct (li_active lf Hinv j row Hj Hact) as (a0 & ar0 & Hja0 & Har0 & Hjob & Hu0). simplify_eq.
  destruct Hinv. constructor; subst lf'; simpl in *; eauto with life.
  - intros a' r Hr. split_lookups; eauto with life.
  - intros j' r a' Hj' Hp' Hja'. split_lookups; [destruct Hrow' as [[? ?]|[? ?]]; congruence|].
    destruct (li_pending0 j' r a') as (ar & Har & ? & ?); [done..|]. exists ar.
    rewrite lookup_insert_ne; [done|congruence].
  - intros j' r Hj' Hact'. split_lookups; [destruct Hrow' as [[? ?]|[? ?]]; congruence|].
    destruct (li_active0 j' r Hj' Hact') as (a' & ar & ? & Har & ? & Hu). exists a', ar.
    rewrite lookup_insert_ne; [done|congruence].
  - intros j' r Hj' Hf. split_lookups; [|eauto]. destruct Hrow' as [[? ?]|[? ?]]; [done|congruence].
  - intros j' r Hj'. split_lookups; [|eauto]. destruct Hrow' as [[-> ?]|[-> ?]]; done.
  - intros a' ar Har Hu. split_lookups; [by destruct Hu|].
    destruct (li_underway0 a' ar Har Hu) as (r & Hr & ? & ?). exists r.
    rewrite lookup_insert_ne; [done|congruence].
  - intros a' ar Har Hu. split_lookups; [by destruct Hu|eauto].
  - intros k l a' ar Hl Hw Har. split_lookups; [by intros [|]|eauto].
  - intros c a' Hw. destruct (li_works0 c a') as (ar & Har & Hua); [by apply Hworks|]. exists ar.
    rewrite lookup_insert_ne; [done|]. intros ->. by destruct (Hidle c (Hworks _ _ Hw)).
Qed.

(** A settled attempt is planned again as the attempt of its pending job. *)
Lemma life_inv_revive lf j row a arow :
  life_inv lf → lf_jobs lf !! j = Some row → jl_state row = Pending → jl_attempt row = None →
  lf_attempts lf !! a = Some arow → al_job arow = j → ¬ underway (al_state arow) →
  (∀ k l, lf_leases lf !! k = Some l → ¬ is_work_lease l a) →
  life_inv (lf <| lf_attempts ::= <[a := arow <| al_state := APlanned |>]> |>
               <| lf_jobs ::= <[j := row <| jl_attempt := Some a |>]> |>).
Proof.
  intros Hinv Hj Hp Hn Ha Hjob Hnu Hfree. set (lf' := upd _ _ _).
  assert (∀ c a, works lf' c a → works lf c a) as Hworks by by intros ??; apply works_frame.
  destruct Hinv. constructor; subst lf'; simpl in *; eauto with life.
  - intros a' r Hr. split_lookups; eauto with life.
  - intros j' r a' Hj' Hp' Hja'. split_lookups.
    + eexists. rewrite lookup_insert_eq. split_and!; [done..|by left].
    + destruct (li_pending0 j' r a') as (ar & Har & ? & ?); [done..|]. exists ar.
      rewrite lookup_insert_ne; [done|congruence].
  - intros j' r Hj' Hact'. split_lookups; [congruence|].
    destruct (li_active0 j' r Hj' Hact') as (a' & ar & ? & Har & ? & Hu). exists a', ar.
    rewrite lookup_insert_ne; [done|congruence].
  - intros j' r Hj' Hf. split_lookups; [congruence|eauto].
  - intros j' r Hj'. split_lookups; [congruence|eauto].
  - intros a' ar Har Hu. split_lookups; [by destruct Hu|].
    destruct (li_underway0 a' ar Har Hu) as (r & Hr & ? & ?). exists r.
    rewrite lookup_insert_ne; [done|congruence].
  - intros a' ar Har Hu. split_lookups; [by destruct Hu|eauto].
  - intros k l a' ar Hl Hw Har. split_lookups; [by destruct (Hfree _ _ Hl)|eauto].
  - intros c a' Hw. destruct (li_works0 c a') as (ar & Har & Hua); [by apply Hworks|]. exists ar.
    rewrite lookup_insert_ne; [done|]. intros ->. by simplify_eq.
Qed.

(** Leases that cover nothing open are released. *)
Lemma life_inv_release lf p :
  life_inv lf →
  (∀ k l, lf_leases lf !! k = Some l → p l = true → nl_state l = LGranted → releasable lf l) →
  life_inv (lf <| lf_leases ::= fmap (release p) |>).
Proof.
  intros Hinv Hp. set (lf' := upd _ _ _).
  assert (∀ c a, works lf' c a → works lf c a) as Hworks by by intros ??; apply works_frame.
  assert (∀ l, nl_attempt_id (release p l) = nl_attempt_id l ∧ nl_invocation_id (release p l) = nl_invocation_id l)
    as Hids by (intros l; unfold release; by destruct (p l)).
  assert (∀ l a, is_work_lease (release p l) a → is_work_lease l a) as Hwl.
  { intros l a (Hg & Hw). unfold release in *. destruct (p l); [done|by split]. }
  assert (∀ k l, lf_leases lf !! k = Some l → (p l = true → nl_state l = LGranted → ¬ releasable lf l) →
    nl_state l = LGranted → lf_leases lf' !! k = Some l) as Hkeep.
  { intros k l Hk Hno Hg. simpl. rewrite lookup_fmap, Hk. simpl. unfold release.
    destruct (p l) eqn:E; [|done]. destruct (Hno eq_refl Hg). by eapply Hp. }
  destruct Hinv. constructor; subst lf'; simpl in *; eauto with life.
  - intros k l Hk. split_lookups. rewrite (proj1 (Hids _)). eauto.
  - intros k l i Hk Hi. split_lookups. rewrite (proj2 (Hids _)) in Hi. eauto.
  - intros a arow Ha Hu. destruct (li_work_lease0 a arow Ha Hu) as (k & l & Hk & Hw). exists k, l.
    split; [|done]. apply Hkeep; [done| |by destruct Hw]. intros _ _ [_ Hr]. by eapply Hr.
  - intros k l a arow Hk Hw. split_lookups. eauto.
  - intros k k' l l' a Hk Hk' Hw Hw'. split_lookups. eauto.
  - intros c b inv Hb Hi Hop. destruct (li_covered0 c b inv Hb Hi Hop) as (k & l & Hk & Hg & Hc). exists k, l.
    split_and!; [|done..]. apply Hkeep; [done| |done]. intros _ _ [Hr _]. by destruct Hop; eapply Hr.
Qed.

(** ** Restart and deletion *)
Lemma life_inv_restart lf (outcome : Uuid → JobOutcome) :
  life_inv lf →
  life_inv (lf
    <| lf_boundaries ::= fmap (λ b, if is_open_boundary (bl_state b) then b <| bl_state := CUncertain |> else b) |>
    <| lf_attempts ::= fmap (λ r, if bool_decide (al_state r = AStarting) || bool_decide (al_state r = ARunning)
                                  then r <| al_state := ASettled |> else r) |>
    <| lf_jobs ::= map_imap (λ j row, Some (if bool_decide (jl_state row = Active)
         then row <| jl_state := Final |> <| jl_outcome := Some (outcome j) |> else row)) |>).
Proof.
  intros Hinv.
  set (fb := λ b, if is_open_boundary (bl_state b) then b <| bl_state := CUncertain |> else b).
  set (fa := λ r, if bool_decide (al_state r = AStarting) || bool_decide (al_state r = ARunning)
                  then r <| al_state := ASettled |> else r).
  set (fj := λ j row, Some (if bool_decide (jl_state row = Active)
         then row <| jl_state := Final |> <| jl_outcome := Some (outcome j) |> else row)).
  assert (∀ b, bl_invocation (fb b) = bl_invocation b ∧ (closed (bl_state b) → closed (bl_state (fb b))) ∧
    ¬ handled (bl_state (fb b))) as Hfb.
  { intros [i []]; unfold fb, closed, handled; simpl; naive_solver. }
  assert (∀ r, al_job (fa r) = al_job r ∧ ¬ underway (al_state (fa r)) ∧
    (waiting (al_state r) → waiting (al_state (fa r))) ∧ (waiting (al_state (fa r)) → waiting (al_state r))) as Hfa.
  { intros [i []]; unfold fa, waiting, underway; simpl; naive_solver. }
  assert (∀ m : gmap Uuid JobLife, ∀ j row, map_imap fj m !! j = Some row → ∃ row0, m !! j = Some row0 ∧
    jl_attempt row = jl_attempt row0 ∧ (jl_state row = Final ∧ is_Some (jl_outcome row) ∨ row = row0) ∧
    jl_state row ≠ Active) as Hfj.
  { intros m j row. rewrite map_lookup_imap. destruct (m !! j) as [row0|]; [|done]. simpl. unfold fj.
    intros [= <-]. exists row0. case_bool_decide; simpl; eauto 10. }
  assert (∀ c a, ¬ works (lf <| lf_boundaries ::= fmap fb |> <| lf_attempts ::= fmap fa |>
    <| lf_jobs ::= map_imap fj |>) c a) as Hworks.
  { intros c a (b & inv & Hb & _ & _ & _ & Hst). simpl in *. split_lookups. by eapply (Hfb _). }
  assert (∀ m : gmap Uuid AttemptLife, ∀ a, is_Some (m !! a) → is_Some ((fa <$> m) !! a)) as Hsa.
  { intros m a. by rewrite lookup_fmap, fmap_is_Some. }
  destruct Hinv. constructor; simpl in *; eauto with life.
  - intros a row Ha. split_lookups. rewrite (proj1 (Hfa _)). rewrite map_lookup_imap.
    destruct (li_attempt_job0 _ _ Ha) as [jr ->]. by eexists.
  - intros c b Hb. split_lookups. rewrite (proj1 (Hfb _)). eauto.
  - intros c c' b b' Hb Hb' Heq. split_lookups. rewrite !(proj1 (Hfb _)) in Heq. eauto.
  - intros j row a Hj Hp Hja. destruct (Hfj _ _ _ Hj) as (r0 & Hr0 & Hat & [[? ?]| ->] & _); [congruence|].
    destruct (li_pending0 j r0 a Hr0 Hp Hja) as (ar & Har & ? & ?). exists (fa ar).
    rewrite lookup_fmap, Har. split_and!; [done|by rewrite (proj1 (Hfa _))|by apply (Hfa ar)].
  - intros j row Hj Hact. by destruct (Hfj _ _ _ Hj) as (r0 & Hr0 & Hat & _ & []).
  - intros j row Hj Hf. destruct (Hfj _ _ _ Hj) as (r0 & Hr0 & Hat & [[? ?]| ->] & _); [done|eauto].
  - intros j row Hj. destruct (Hfj _ _ _ Hj) as (r0 & Hr0 & Hat & [[-> ?]| ->] & _); [done|eauto].
  - intros a arow Ha Hu. split_lookups. by destruct (Hfa x) as (_ & [] & _).
  - intros a arow Ha Hu. split_lookups. by destruct (Hfa x) as (_ & [] & _).
  - intros k l a arow Hl Hw Ha Hwait. split_lookups. eapply li_no_early_lease0; [done..|]. by apply (Hfa x).
  - intros c b inv Hb Hi Hop. split_lookups. rewrite (proj1 (Hfb _)) in *.
    eapply li_covered0; [done..|]. intros Hcl. by apply Hop, (Hfb x).
  - intros c a Hw. by destruct (Hworks c a Hw).
  - intros c c' a Hw. by destruct (Hworks c a Hw).
Qed.

Lemma life_inv_forget lf i inv :
  life_inv lf → lf_invocations lf !! i = Some inv →
  (∀ c b, lf_boundaries lf !! c = Some b → bl_invocation b = i → closed (bl_state b)) →
  (∀ k l, lf_leases lf !! k = Some l → nl_invocation_id l = Some i → nl_state l = LReleased) →
  life_inv (lf
    <| lf_leases ::= filter (λ p : Uuid * Lease, nl_invocation_id p.2 ≠ Some i) |>
    <| lf_boundaries ::= filter (λ p : Uuid * BoundaryLife, bl_invocation p.2 ≠ i) |>
    <| lf_invocations ::= delete i |>).
Proof.
  intros Hinv Hi Hcl Hrel. set (lf' := upd _ _ _).
  assert (∀ c a, works lf' c a → works lf c a) as Hworks.
  { intros c a (b & inv' & Hb & Hi' & ? & ? & ?). simpl in *. split_lookups. by exists b, inv'. }
  assert (∀ k l, lf_leases lf !! k = Some l → nl_state l = LGranted → lf_leases lf' !! k = Some l) as Hkeep.
  { intros k l Hk Hg. simpl. apply map_lookup_filter_Some. split; [done|]. simpl. intros He.
    rewrite (Hrel _ _ Hk He) in Hg. done. }
  destruct Hinv. constructor; subst lf'; simpl in *; eauto with life.
  - intros i' inv' Hi'. split_lookups. eauto.
  - intros c b Hb. split_lookups. rewrite lookup_delete_ne by done. eauto.
  - intros c c' b b' Hb Hb' Heq. split_lookups. eauto.
  - intros k l Hk. split_lookups. eauto.
  - intros k l i' Hk Hi'. split_lookups. rewrite lookup_delete_ne by congruence. eauto.
  - intros a arow Ha Hu. destruct (li_work_lease0 a arow Ha Hu) as (k & l & Hk & Hw). exists k, l.
    split; [|done]. apply Hkeep; [done|by destruct Hw].
  - intros k l a arow Hk Hw Ha. split_lookups. eauto.
  - intros k k' l l' a Hk Hk' Hw Hw'. split_lookups. eauto.
  - intros c b inv' Hb Hi' Hop. split_lookups. destruct (li_covered0 c b inv' Hb Hi' Hop) as (k & l & Hk & Hg & Hc).
    eauto 10.
Qed.

(** ** Every step *)
Section histories.
Context (caps : ResourceCapacities) (rules : gmap string (list string)).

Lemma alter_insert_some {A} (m : gmap Uuid A) f k x : m !! k = Some x → alter f k m = <[k := f x]> m.
Proof.
  intros Hk. apply map_eq. intros k'. destruct (decide (k = k')) as [->|Hne].
  - by rewrite lookup_alter_eq, Hk, lookup_insert_eq.
  - by rewrite lookup_alter_ne, lookup_insert_ne.
Qed.

Lemma life_inv_finish lf j row o (settled : bool) :
  life_inv lf → lf_jobs lf !! j = Some row → jl_state row = Pending →
  life_inv (lf
    <| lf_attempts ::= match jl_attempt row with
         | Some a => if settled then alter (λ r, r <| al_state := ASettled |>) a else id
         | None => id end |>
    <| lf_jobs ::= <[j := row <| jl_state := Final |> <| jl_outcome := Some o |>]> |>).
Proof.
  intros Hinv Hj Hp. set (row' := row <| jl_state := Final |> <| jl_outcome := Some o |>).
  assert (life_inv (lf <| lf_jobs ::= <[j := row']> |>)) as H1 by (eapply life_inv_job; eauto).
  destruct (jl_attempt row) as [a|] eqn:Hja; [|exact H1]. destruct settled; [|exact H1].
  destruct (li_pending lf Hinv j row a Hj Hp Hja) as (arow & Ha & Hjob & Hw). simpl.
  pose proof underway_not_waiting as Hdisj.
  rewrite (alter_insert_some _ _ _ _ Ha).
  assert (¬ underway (al_state arow)) as Hu by (intros Hu; by destruct (Hdisj _ Hu)).
  pose proof (life_inv_settle_idle _ a arow H1 Ha Hu) as H2. simpl in H2. apply H2.
  intros r. rewrite Hjob, lookup_insert_eq. by intros [= <-].
Qed.

Lemma life_inv_abandon lf j row a :
  life_inv lf → lf_jobs lf !! j = Some row → jl_state row = Pending → jl_attempt row = Some a →
  life_inv (lf <| lf_attempts ::= alter (λ r, r <| al_state := ASettled |>) a |>
               <| lf_jobs ::= <[j := row <| jl_attempt := None |>]> |>).
Proof.
  intros Hinv Hj Hp Hja. set (row' := row <| jl_attempt := None |>).
  assert (life_inv (lf <| lf_jobs ::= <[j := row']> |>)) as H1 by (eapply life_inv_job; eauto).
  destruct (li_pending lf Hinv j row a Hj Hp Hja) as (arow & Ha & Hjob & Hw). simpl.
  pose proof underway_not_waiting as Hdisj.
  rewrite (alter_insert_some _ _ _ _ Ha).
  assert (¬ underway (al_state arow)) as Hu by (intros Hu; by destruct (Hdisj _ Hu)).
  pose proof (life_inv_settle_idle _ a arow H1 Ha Hu) as H2. simpl in H2. apply H2.
  intros r. rewrite Hjob, lookup_insert_eq. by intros [= <-].
Qed.

Lemma life_inv_replan lf j row a arow :
  life_inv lf → lf_jobs lf !! j = Some row → jl_state row = Active → jl_attempt row = Some a →
  lf_attempts lf !! a = Some arow →
  (∀ c b inv, lf_boundaries lf !! c = Some b → lf_invocations lf !! bl_invocation b = Some inv →
     il_attempt inv = a → closed (bl_state b)) →
  life_inv (lf <| lf_attempts ::= <[a := arow <| al_state := APlanned |>]> |>
    <| lf_jobs ::= <[j := row <| jl_state := Pending |>]> |>
    <| lf_leases ::= fmap (release (λ l, bool_decide (nl_attempt_id l = a))) |>).
Proof.
  intros Hinv Hj Hact Hja Ha Hcl. set (p := λ l, bool_decide (nl_attempt_id l = a)).
  set (row1 := row <| jl_state := Pending |> <| jl_attempt := None |>).
  set (lf1 := lf <| lf_attempts ::= <[a := arow <| al_state := ASettled |>]> |> <| lf_jobs ::= <[j := row1]> |>).
  assert (al_job arow = j) as Hjob.
  { destruct (li_active lf Hinv j row Hj Hact) as (? & ? & ? & ? & ? & ?). by simplify_eq. }
  assert (life_inv lf1) as H1.
  { eapply life_inv_settle; eauto. intros c (b & inv & Hb & Hi & Hia & _ & Hh).
    by eapply not_closed_handled, Hcl. }
  assert (life_inv (lf1 <| lf_leases ::= fmap (release p) |>)) as H2.
  { apply life_inv_release; [done|]. intros k l Hk Hpl Hg. apply bool_decide_eq_true in Hpl. split.
    - intros c b inv Hb Hi [Hc _]. eapply Hcl; [done..|congruence].
    - intros a' (_ & Ha' & _) r Hr Hu. subst a' lf1. simpl in Hr. rewrite Hpl, lookup_insert_eq in Hr.
      simplify_eq. by destruct Hu. }
  assert (life_inv (lf1 <| lf_leases ::= fmap (release p) |>
    <| lf_attempts ::= <[a := (arow <| al_state := ASettled |>) <| al_state := APlanned |>]> |>
    <| lf_jobs ::= <[j := row1 <| jl_attempt := Some a |>]> |>)) as H3.
  { eapply life_inv_revive; simpl; eauto; try (apply lookup_insert_eq); [done..| |].
    - intros [|]; done.
    - intros k l (x & <- & _)%lookup_fmap_Some (Hg & Ht & _). unfold release, p in Hg, Ht.
      case_bool_decide as E; [done|by apply E]. }
  assert (row <| jl_state := Pending |> = row1 <| jl_attempt := Some a |>) as Hrow.
  { destruct row. simpl in *. by rewrite Hja. }
  rewrite Hrow. simpl in *. by rewrite !insert_insert_eq in H3.
Qed.

(** The claims that are held stay safe. *)
Lemma claims_safe_held remote lf lf' :
  held lf' ⊆+ held lf → claims_safe caps rules (held lf ++ remote) → claims_safe caps rules (held lf' ++ remote).
Proof. intros Hsub. apply claims_safe_submseteq. by apply submseteq_skips_r. Qed.

Lemma claims_safe_insert remote lf k l claims :
  lf_leases lf !! k = None → nl_claims l = claims → admissible caps rules claims (held lf ++ remote) →
  claims_safe caps rules (held lf ++ remote) →
  claims_safe caps rules (held (lf <| lf_leases ::= <[k := l]> |>) ++ remote).
Proof.
  intros Hk <- Hadm Hsafe. apply (claims_safe_submseteq _ _ _ (nl_claims l :: held lf ++ remote)).
  - rewrite held_insert by done. unfold granted_claims. case_decide; simpl; [done|by apply submseteq_cons].
  - by apply claims_safe_admit.
Qed.

(** Every step keeps the invariant, and the claims that are held safe. *)
Lemma life_step_inv remote lf lf' : life_step caps rules remote lf lf' → life_inv lf → life_inv lf'.
Proof.
  intros Hstep Hinv. destruct Hstep.
  - by apply life_inv_accept.
  - by apply life_inv_plan.
  - apply life_inv_attempt; [done..| |].
    + split; intros _; [by right|done].
    + split; [by intros Hu%underway_not_waiting|by intros [|]].
  - by eapply life_inv_start.
  - by eapply life_inv_probe.
  - by eapply life_inv_postcondition.
  - apply life_inv_boundary; [done..|]. by intros ?; destruct (not_closed_handled (bl_state b)).
  - apply life_inv_attempt; [done..| |].
    + split; [intros ?; by destruct (underway_not_waiting (al_state row))|by intros [|]].
    + split; intros _; [by right|done].
  - apply life_inv_boundary; [done..|by intros [|]|by left].
  - apply life_inv_boundary; [done..|by intros [|]|]. by intros ?; destruct (not_closed_handled (bl_state b)).
  - apply life_inv_boundary; [done..|by intros [|]|by right].
  - eapply life_inv_settle; [done..|]. destruct outcome; simpl; eauto.
  - by apply life_inv_release.
  - by apply life_inv_replan.
  - by apply life_inv_finish.
  - by apply life_inv_abandon.
  - by apply life_inv_restart.
  - by eapply life_inv_forget.
Qed.

Lemma life_step_safe remote lf lf' : life_step caps rules remote lf lf' →
  claims_safe caps rules (held lf ++ remote) → claims_safe caps rules (held lf' ++ remote).
Proof.
  intros Hstep Hsafe. destruct Hstep; try exact Hsafe.
  - by eapply (claims_safe_insert _ lf).
  - by eapply (claims_safe_insert _ lf).
  - eapply claims_safe_held; [apply held_release|done].
  - eapply (claims_safe_held _ lf); [|done]. apply (held_release lf).
  - eapply (claims_safe_held _ lf); [|done]. apply (held_filter lf).
Qed.

Lemma life_steps_inv remote lf lf' : rtc (life_step caps rules remote) lf lf' → life_inv lf → life_inv lf'.
Proof. induction 1; eauto using life_step_inv. Qed.
Lemma life_steps_safe remote lf lf' : rtc (life_step caps rules remote) lf lf' →
  claims_safe caps rules (held lf ++ remote) → claims_safe caps rules (held lf' ++ remote).
Proof. induction 1; eauto using life_step_safe. Qed.

(** A final job stays as it is: no step gives it another outcome. *)
Lemma life_step_final remote lf lf' j row : life_step caps rules remote lf lf' →
  lf_jobs lf !! j = Some row → jl_state row = Final → lf_jobs lf' !! j = Some row.
Proof.
  intros Hstep Hj Hf. destruct Hstep; simpl; try exact Hj;
    try (rewrite lookup_insert_ne; [done|congruence]).
  rewrite map_lookup_imap, Hj. simpl. by rewrite bool_decide_eq_false_2 by (rewrite Hf; done).
Qed.
Lemma life_steps_final remote lf lf' j row : rtc (life_step caps rules remote) lf lf' →
  lf_jobs lf !! j = Some row → jl_state row = Final → lf_jobs lf' !! j = Some row.
Proof. induction 1; eauto using life_step_final. Qed.
End histories.
