(* ===== verification/Refinement.v ===== *)
(** * Refinement: the native tables implement the life of a job

    [abs] forgets every column that safety is not about.  [sim] says that what an
    operation does to the tables is a sequence of steps of [Life.v], beside the same
    claims of attached managers.  The lemmas of this file are the building blocks:
    one per statement, release and terminal transaction. *)
From S2P Require Import Prelude Spec Validate Kernel Scoped ScopedFacts Observation Machine MachineStore.
From S2P Require Import MachineFacts ExchangeFacts Reservation ReservationFacts MachineOffer OfferFacts.
From S2P Require Import Native ConditionStore ProcessRecords Lifecycle Schedule Release NativeRecovery Life LifeFacts.

(** Case analysis on the condition a hypothesis or a goal branches on. *)
Ltac branch H := lazymatch type of H with (if ?c then _ else _) = _ => destruct c eqn:? end.

(** What the guards of a successful transaction say. *)
Ltac guards :=
  split_conditions;
  repeat match goal with H : ¬ (_ ≠ _) |- _ => apply dec_stable in H end.

(** ** The abstraction *)
Definition job_life (j : Job) : JobLife :=
  {| jl_state := nj_state j; jl_attempt := nj_attempt_id j; jl_outcome := nj_outcome j |}.
Definition attempt_life (a : Attempt) : AttemptLife := {| al_job := na_job_id a; al_state := na_state a |}.
Definition invocation_life (i : Invocation) : InvocationLife :=
  {| il_attempt := ni_attempt_id i; il_role := ni_role i |}.
Definition boundary_life (c : Containment) : BoundaryLife :=
  {| bl_invocation := nt_invocation_id c; bl_state := nt_state c |}.

Definition abs (s : NativeStore) : Life :=
  {| lf_jobs := job_life <$> nv_jobs s; lf_attempts := attempt_life <$> nv_attempts s;
     lf_invocations := invocation_life <$> nv_invocations s;
     lf_boundaries := boundary_life <$> nv_containments s; lf_leases := nv_leases s |}.

(** ** Updates of one row *)
Lemma fmap_alter_at {A B} (h : A → B) (f : A → A) (m : gmap Uuid A) k x :
  m !! k = Some x → h <$> alter f k m = <[k := h (f x)]> (h <$> m).
Proof.
  intros Hk. apply map_eq. intros k'. rewrite lookup_fmap. destruct (decide (k = k')) as [<-|Hne].
  - by rewrite lookup_alter_eq, Hk, lookup_insert_eq.
  - by rewrite lookup_alter_ne, lookup_insert_ne, lookup_fmap.
Qed.

Lemma fmap_alter_frame {A B} (h : A → B) (f : A → A) (m : gmap Uuid A) k :
  (∀ x, m !! k = Some x → h (f x) = h x) → h <$> alter f k m = h <$> m.
Proof.
  intros Hf. apply map_eq. intros k'. rewrite !lookup_fmap. destruct (decide (k = k')) as [<-|Hne].
  - rewrite lookup_alter_eq. destruct (m !! k); [|done]. simpl. by rewrite Hf.
  - by rewrite lookup_alter_ne.
Qed.

Lemma insert_fmap_id {A B} (h : A → B) (m : gmap Uuid A) k x :
  m !! k = Some x → <[k := h x]> (h <$> m) = h <$> m.
Proof. intros Hk. apply insert_id. by rewrite lookup_fmap, Hk. Qed.

Section refinement.
Context (caps : ResourceCapacities) (rules : gmap string (list string)).
Implicit Types (s : NativeStore) (lf : Life).

(** The claims of the attached managers. *)
Definition remote s : list ResolvedClaims := grant_debits (nv_machine s).

(** From tables that satisfy the invariant, the operation is a sequence of steps. *)
Definition sim s s' : Prop :=
  life_inv (abs s) → rtc (life_step caps rules (remote s)) (abs s) (abs s') ∧ remote s' = remote s.

#[global] Instance sim_preorder : PreOrder sim.
Proof.
  split; [by split|]. intros s1 s2 s3 H12 H23 Hinv. destruct (H12 Hinv) as [Hs1 He1].
  destruct H23 as [Hs2 He2]; [by eapply life_steps_inv|]. rewrite He1 in Hs2. split; [by etrans|congruence].
Qed.

Lemma sim_inv s s' : sim s s' → life_inv (abs s) → life_inv (abs s').
Proof. intros Hs Hinv. destruct (Hs Hinv) as [Hsteps _]. by eapply life_steps_inv. Qed.

Lemma sim_same s s' : abs s' = abs s → remote s' = remote s → sim s s'.
Proof. intros Ha Hr _. by rewrite Ha. Qed.

Lemma sim_step s s' lf : abs s' = lf → remote s' = remote s →
  (life_inv (abs s) → life_step caps rules (remote s) (abs s) lf) → sim s s'.
Proof. intros <- Hr Hstep Hinv. split; [apply rtc_once; auto|done]. Qed.

(** The invariant may be used while a simulation is built. *)
Lemma sim_with_inv s s' : (life_inv (abs s) → sim s s') → sim s s'.
Proof. intros H Hinv. by apply H. Qed.

(** Columns outside the abstraction. *)
Record frame s s' : Prop := {
  fr_abs : abs s' = abs s;
  fr_machine : remote s' = remote s;
}.
#[global] Instance frame_preorder : PreOrder frame.
Proof.
  split; [by split|]. intros s1 s2 s3 [Ha1 Hr1] [Ha2 Hr2]. split; congruence.
Qed.
Lemma sim_frame s s' : frame s s' → sim s s'.
Proof. intros [Ha Hr]. by apply sim_same. Qed.

Lemma frame_upd_job k f s : (∀ j, nv_jobs s !! k = Some j → job_life (f j) = job_life j) → frame s (upd_job k f s).
Proof. intros Hf. split; [|done]. unfold abs. simpl. by rewrite fmap_alter_frame. Qed.
Lemma frame_upd_attempt k f s :
  (∀ a, nv_attempts s !! k = Some a → attempt_life (f a) = attempt_life a) → frame s (upd_attempt k f s).
Proof. intros Hf. split; [|done]. unfold abs. simpl. by rewrite fmap_alter_frame. Qed.
Lemma frame_upd_invocation k f s :
  (∀ i, invocation_life (f i) = invocation_life i) → frame s (upd_invocation k f s).
Proof. intros Hf. split; [|done]. unfold abs. simpl. by rewrite fmap_alter_frame. Qed.
Lemma frame_upd_containment k f s :
  (∀ c, nv_containments s !! k = Some c → boundary_life (f c) = boundary_life c) → frame s (upd_containment k f s).
Proof. intros Hf. split; [|done]. unfold abs. simpl. by rewrite fmap_alter_frame. Qed.
Lemma frame_upd_condition k f s : frame s (upd_condition k f s).
Proof. done. Qed.
Lemma frame_upd_conditions_of k f s : frame s (upd_conditions_of k f s).
Proof. done. Qed.
Lemma frame_upd_admission k f s : frame s (upd_admission k f s).
Proof. done. Qed.
Lemma frame_release_reservation k s : frame s (release_reservation k s).1.
Proof. done. Qed.
Lemma frame_fail_conditions k s : frame s (fail_conditions k s).
Proof. done. Qed.
Lemma frame_cleanup k s : frame s (jobs_reservation_cleanup k s).
Proof. unfold jobs_reservation_cleanup. destruct (nv_jobs s !! k) as [j|]; [|done]. by destruct (_ || _). Qed.

Lemma abs_upd_attempt k f s a : nv_attempts s !! k = Some a →
  abs (upd_attempt k f s) = (abs s) <| lf_attempts ::= <[k := attempt_life (f a)]> |>.
Proof. intros Hk. unfold abs. simpl. by rewrite (fmap_alter_at _ _ _ _ _ Hk). Qed.
Lemma abs_upd_containment k f s c : nv_containments s !! k = Some c →
  abs (upd_containment k f s) = (abs s) <| lf_boundaries ::= <[k := boundary_life (f c)]> |>.
Proof. intros Hk. unfold abs. simpl. by rewrite (fmap_alter_at _ _ _ _ _ Hk). Qed.
Lemma abs_upd_job_state k guard f s j : nv_jobs s !! k = Some j → guard j = true →
  abs (upd_job_state k guard f s) = (abs s) <| lf_jobs ::= <[k := job_life (f j)]> |>.
Proof.
  intros Hk Hg. unfold upd_job_state. rewrite Hk, Hg. rewrite (fr_abs _ _ (frame_cleanup _ _)).
  unfold abs. simpl. by rewrite (fmap_alter_at _ _ _ _ _ Hk).
Qed.
Lemma remote_upd_job_state k guard f s : remote (upd_job_state k guard f s) = remote s.
Proof.
  unfold upd_job_state. destruct (nv_jobs s !! k) as [j|]; [|done]. destruct (guard j); [|done].
  by rewrite (fr_machine _ _ (frame_cleanup _ _)).
Qed.
Lemma frame_upd_job_state k guard f s :
  (∀ j, nv_jobs s !! k = Some j → guard j = true → job_life (f j) = job_life j) → frame s (upd_job_state k guard f s).
Proof.
  intros Hf. split; [|apply remote_upd_job_state]. unfold upd_job_state.
  destruct (nv_jobs s !! k) as [j|] eqn:Hk; [|done]. destruct (guard j) eqn:Hg; [|done].
  rewrite (fr_abs _ _ (frame_cleanup _ _)). apply fr_abs, frame_upd_job. intros j' Hj'. rewrite Hk in Hj'.
  simplify_eq. by apply Hf.
Qed.

(** What [upd_job_state] does to the tables. *)
Lemma upd_job_state_fields k g f s : let s' := upd_job_state k g f s in
  nv_attempts s' = nv_attempts s ∧ nv_invocations s' = nv_invocations s ∧ nv_containments s' = nv_containments s ∧
  nv_leases s' = nv_leases s ∧ nv_machine s' = nv_machine s ∧
  nv_jobs s' = alter (λ j, if g j then f j else j) k (nv_jobs s).
Proof.
  unfold upd_job_state, jobs_reservation_cleanup. simpl. destruct (nv_jobs s !! k) as [j|] eqn:Hk.
  - assert (alter (λ j, if g j then f j else j) k (nv_jobs s) = if g j then alter f k (nv_jobs s) else nv_jobs s) as ->.
    { apply map_eq. intros k'. destruct (decide (k = k')) as [<-|Hne].
      - rewrite lookup_alter_eq, Hk. simpl. destruct (g j); [|done]. by rewrite lookup_alter_eq, Hk.
      - rewrite lookup_alter_ne by done. destruct (g j); [|done]. by rewrite lookup_alter_ne. }
    destruct (g j); [|done]. simpl. destruct (alter f k (nv_jobs s) !! k) as [j'|]; [|done]. by destruct (_ || _).
  - split_and!; [done..|]. apply map_eq. intros k'. destruct (decide (k = k')) as [<-|Hne].
    + by rewrite lookup_alter_eq, Hk.
    + by rewrite lookup_alter_ne.
Qed.

(** ** Lookups through the abstraction *)
Lemma abs_job s k j : nv_jobs s !! k = Some j → lf_jobs (abs s) !! k = Some (job_life j).
Proof. intros Hk. simpl. by rewrite lookup_fmap, Hk. Qed.
Lemma abs_attempt s k a : nv_attempts s !! k = Some a → lf_attempts (abs s) !! k = Some (attempt_life a).
Proof. intros Hk. simpl. by rewrite lookup_fmap, Hk. Qed.
Lemma abs_invocation s k i : nv_invocations s !! k = Some i → lf_invocations (abs s) !! k = Some (invocation_life i).
Proof. intros Hk. simpl. by rewrite lookup_fmap, Hk. Qed.
Lemma abs_boundary s k c : nv_containments s !! k = Some c → lf_boundaries (abs s) !! k = Some (boundary_life c).
Proof. intros Hk. simpl. by rewrite lookup_fmap, Hk. Qed.
Lemma abs_boundary_inv s k b : lf_boundaries (abs s) !! k = Some b →
  ∃ c, nv_containments s !! k = Some c ∧ b = boundary_life c.
Proof. simpl. rewrite lookup_fmap_Some. intros (c & <- & Hc). by exists c. Qed.
Lemma abs_invocation_inv s k b : lf_invocations (abs s) !! k = Some b →
  ∃ c, nv_invocations s !! k = Some c ∧ b = invocation_life c.
Proof. simpl. rewrite lookup_fmap_Some. intros (c & <- & Hc). by exists c. Qed.
Lemma abs_attempt_inv s k b : lf_attempts (abs s) !! k = Some b →
  ∃ c, nv_attempts s !! k = Some c ∧ b = attempt_life c.
Proof. simpl. rewrite lookup_fmap_Some. intros (c & <- & Hc). by exists c. Qed.
Lemma abs_job_inv s k b : lf_jobs (abs s) !! k = Some b → ∃ c, nv_jobs s !! k = Some c ∧ b = job_life c.
Proof. simpl. rewrite lookup_fmap_Some. intros (c & <- & Hc). by exists c. Qed.

(** ** Boundaries *)
Lemma is_closed_spec st : is_closed st = true ↔ closed st.
Proof. unfold is_closed, closed. destruct st; simpl; naive_solver. Qed.
Lemma is_open_boundary_spec st : is_open_boundary st = true ↔ handled st.
Proof. unfold is_open_boundary, handled. destruct st; simpl; naive_solver. Qed.

Definition closable (st : ContainmentState) : Prop := st = CLive ∨ st = CEmpty ∨ st = CUncertain.

Lemma sim_upd_containment s k f :
  (∀ c, nv_containments s !! k = Some c →
     boundary_life (f c) = boundary_life c ∨
     handled (nt_state c) ∧ nt_invocation_id (f c) = nt_invocation_id c ∧ closable (nt_state (f c))) →
  sim s (upd_containment k f s).
Proof.
  intros Hf. destruct (nv_containments s !! k) as [c|] eqn:Hk;
    [|by apply sim_frame, frame_upd_containment; intros; simplify_eq].
  destruct (Hf c eq_refl) as [He|(Hh & Hi & Hc)].
  { apply sim_frame, frame_upd_containment. intros c' Hc'. by assert (c' = c) as -> by congruence. }
  eapply sim_step; [by apply abs_upd_containment|done|]. intros _.
  assert (boundary_life (f c) = (boundary_life c) <| bl_state := nt_state (f c) |>) as ->.
  { unfold boundary_life. simpl. by rewrite Hi. }
  apply abs_boundary in Hk. destruct Hc as [-> | [-> | ->]]; by constructor.
Qed.

(** ** Releases *)
Lemma all_closed_spec s a except :
  all_closed s a except = true ↔ ∀ k c i, nv_containments s !! k = Some c →
    nv_invocations s !! nt_invocation_id c = Some i → ni_attempt_id i = a → Some k = except ∨ closed (nt_state c).
Proof.
  unfold all_closed, containments_of. rewrite forallb_forall. split.
  - intros H k c i Hk Hi Ha. specialize (H (k, c, i)). simpl in H. rewrite orb_true_iff, bool_decide_eq_true in H.
    rewrite <-is_closed_spec. apply H, list_elem_of_In, list_elem_of_omap. exists (k, c).
    rewrite elem_of_btree_entries. split; [done|]. rewrite Hi. simpl. by rewrite bool_decide_eq_true_2.
  - intros H [[k c] i] Hin%list_elem_of_In. apply list_elem_of_omap in Hin as ([k' c'] & Hin & Heq).
    apply elem_of_btree_entries in Hin. destruct (nv_invocations s !! nt_invocation_id c') as [i'|] eqn:Hi; [|done].
    simpl in Heq. case_bool_decide; [|done]. simplify_eq.
    rewrite orb_true_iff, bool_decide_eq_true, is_closed_spec. by eapply H.
Qed.

Lemma attempt_in_spec s a states :
  attempt_in s a states = true → ∃ row, nv_attempts s !! a = Some row ∧ na_state row ∈ states.
Proof.
  unfold attempt_in. destruct (nv_attempts s !! a) as [row|]; [|done]. rewrite bool_decide_eq_true. by exists row.
Qed.

Lemma sim_release s (p : Lease → bool) :
  (∀ k l, nv_leases s !! k = Some l → p l = true → nl_state l = LGranted → releasable (abs s) l) →
  sim s (s <| nv_leases ::= fmap (release p) |>).
Proof. intros Hp. eapply sim_step; [done..|]. intros _. by apply life_release. Qed.

(** A settled attempt whose boundaries are closed has nothing left to cover. *)
Lemma releasable_settled s a l :
  attempt_in s a [ASettled] = true → all_closed s a None = true → nl_attempt_id l = a → releasable (abs s) l.
Proof.
  intros (row & Hrow & Hst)%attempt_in_spec Hcl Ha. rewrite all_closed_spec in Hcl. split.
  - intros k b inv (c & Hc & ->)%abs_boundary_inv (i & Hi & ->)%abs_invocation_inv [Hat _]. simpl in *.
    assert (ni_attempt_id i = a) as Hia by congruence. by destruct (Hcl k c i Hc Hi Hia).
  - intros a' (_ & Ha' & _) r (row' & Hr & ->)%abs_attempt_inv Hu. simpl in Hu.
    apply list_elem_of_singleton in Hst. subst a'. rewrite Ha in Hr. simplify_eq. rewrite Hst in Hu. by destruct Hu.
Qed.

Lemma sim_release_attempt_lease s a : sim s (release_attempt_lease_if_safe s a).1.
Proof.
  unfold release_attempt_lease_if_safe. destruct (_ && _) eqn:E; [|done]. apply andb_true_iff in E as [E1 E2].
  apply sim_release. intros k l _ Hp _. apply andb_true_iff in Hp as [Hp _]. apply bool_decide_eq_true in Hp.
  by eapply releasable_settled.
Qed.

Lemma sim_release_all_safe s : sim s (release_all_safe_attempt_leases s).
Proof.
  apply sim_release. intros k l _ Hp _. rewrite !andb_true_iff in Hp. destruct Hp as [[_ Hp1] Hp2].
  by eapply releasable_settled.
Qed.

(** The lease of a probe whose boundary is closed. *)
Definition probe_closed s (i : Uuid) : Prop :=
  ∀ k c, nv_containments s !! k = Some c → nt_invocation_id c = i → closed (nt_state c).

Lemma sim_release_probe_lease s i : probe_closed s i → sim s (release_probe_lease i s).
Proof.
  intros Hcl. apply sim_release. intros k l _ Hp _. apply andb_true_iff in Hp as [Hp _].
  apply bool_decide_eq_true in Hp. split.
  - intros k' b inv (c & Hc & ->)%abs_boundary_inv _ [_ Hcov]. rewrite Hp in Hcov. case_decide; [|done].
    simplify_eq/=. by eapply Hcl.
  - intros a (_ & _ & Hn). congruence.
Qed.

(** ** Pending jobs that end *)
Lemma sim_finish_pending s job outcome reason now j :
  nv_jobs s !! job = Some j → nj_state j = Pending →
  sim s (finalize_pending_condition_terminal_tx s job outcome reason now).
Proof.
  intros Hj Hp. apply sim_with_inv. intros Hinv. unfold finalize_pending_condition_terminal_tx.
  set (s1 := upd_conditions_of _ _ s). transitivity s1; [by apply sim_frame|].
  assert (life_inv (abs s1)) as Hinv1 by done. assert (nv_jobs s1 !! job = Some j) as Hj1 by done.
  clearbody s1. clear Hj Hinv. rewrite Hj1. set (s2 := match j with Build_Job _ _ _ _ _ _ _ _ _ _ _ _ _ _ _ _ _ _ _ _ _ _ => _ end).
  assert (abs s2 = (abs s1) <| lf_attempts ::= match nj_attempt_id j with
    | Some a => alter (λ r, r <| al_state := ASettled |>) a | None => id end |> ∧
    remote s2 = remote s1 ∧ nv_jobs s2 = nv_jobs s1) as (Habs & Hr & Hjobs).
  { subst s2. destruct j as [? ? ? ? ? ? ? at_ ? ? ? ? ? ? ? ? ? ? ? ? ? ?]; simpl in *.
    destruct at_ as [a|]; simpl; [|done]. split_and!; [|done..].
    destruct (li_pending _ Hinv1 job _ a (abs_job _ _ _ Hj1)) as (ar & Har & _ & Hw); [done..|].
    pose proof Har as (row & Hrow & ->)%abs_attempt_inv. rewrite (abs_upd_attempt _ _ _ _ Hrow).
    simpl in *. rewrite (alter_insert_some _ _ _ _ Har).
    unfold where_. destruct Hw as [Hw|Hw]; simpl in Hw; rewrite Hw; done. }
  clearbody s2. eapply sim_step; [|by rewrite remote_upd_job_state|].
  - rewrite (abs_upd_job_state _ _ _ _ j); [|by rewrite Hjobs|by rewrite bool_decide_eq_true_2]. rewrite Habs. done.
  - intros _. apply (life_finish _ _ _ (abs s1) job (job_life j) _ true); [by apply abs_job|done].
Qed.

Lemma sim_finalize_if_ready s job now s' b :
  finalize_pending_condition_terminal_if_ready_tx s job now = Ok (s', b) → sim s s'.
Proof.
  unfold finalize_pending_condition_terminal_if_ready_tx, get_job. destruct (nv_jobs s !! job) as [j|] eqn:Hj; [|done].
  simpl. destruct (bool_decide _ || _) eqn:Hg; [intros [= <- <-]; done|].
  apply orb_false_iff in Hg as [Hp%bool_decide_eq_false _]. apply dec_stable in Hp.
  destruct (first_deadline _ _ _); [intros [= <- _]; by eapply sim_finish_pending|].
  destruct (nj_cancel_requested j); intros [= <- _]; [by eapply sim_finish_pending|done].
Qed.

Lemma sim_expire s job now s' o : expire_condition_deadline_tx s job now = Ok (s', o) → sim s s'.
Proof.
  unfold expire_condition_deadline_tx. destruct (first_deadline _ _ _); [|by intros [= <- _]].
  intros H. result_inv. destruct a as [s1 b]. result_inv. simplify_eq.
  etrans; [|by eapply sim_finalize_if_ready]. by apply sim_frame.
Qed.

(** Nothing expires: nothing changes. *)
Lemma expire_none s job now s' : expire_condition_deadline_tx s job now = Ok (s', None) → s' = s.
Proof.
  unfold expire_condition_deadline_tx. destruct (first_deadline _ _ _); [|by intros [= <-]].
  intros H. result_inv. destruct a. result_inv. simplify_eq.
Qed.

(** A fallible loop whose every turn is a simulation. *)
Lemma sim_foldM {A} (f : NativeStore → A → result StoreError NativeStore) s l s' :
  (∀ x s1 s2, x ∈ l → f s1 x = Ok s2 → sim s1 s2) → result_foldM f s l = Ok s' → sim s s'.
Proof.
  intros Hf. revert s. induction l as [|x l IH]; simpl; intros s H; result_inv; [done|].
  etrans; [eapply (Hf x); [by left|done]|]. apply IH; [|done]. intros ????. eapply Hf. by right.
Qed.
Lemma sim_foldM_pair {A B} (f : NativeStore * B → A → result StoreError (NativeStore * B)) s b l s' b' :
  (∀ x s1 b1 s2 b2, f (s1, b1) x = Ok (s2, b2) → sim s1 s2) → result_foldM f (s, b) l = Ok (s', b') → sim s s'.
Proof.
  intros Hf. revert s b. induction l as [|x l IH]; simpl; intros s b H; result_inv; [by simplify_eq|].
  destruct a as [s1 b1]. etrans; [by eapply Hf|]. by eapply IH.
Qed.

Lemma sim_expire_due_tx s now s' b : expire_due_condition_deadlines_tx s now = Ok (s', b) → sim s s'.
Proof.
  unfold expire_due_condition_deadlines_tx. intros H. result_inv. simplify_eq.
  eapply sim_foldM; [|done]. intros x s1 s2 _ Hx. simpl in Hx. result_inv. destruct a as [s3 o]. result_inv.
  by eapply sim_expire.
Qed.

Lemma sim_finalize_recovered s now s' b : finalize_recovered_condition_terminals_tx s now = Ok (s', b) → sim s s'.
Proof.
  apply sim_foldM_pair. intros x s1 b1 s2 b2 Hx. result_inv. destruct a as [s3 c]. result_inv. simplify_eq.
  by eapply sim_finalize_if_ready.
Qed.

(** ** Conditions and observations *)
Definition conditions_only s s' : Prop := ∃ cs os, s' = s <| nv_conditions := cs |> <| nv_observations := os |>.
#[global] Instance conditions_only_preorder : PreOrder conditions_only.
Proof.
  split.
  - intros s. exists (nv_conditions s), (nv_observations s). by destruct s.
  - intros s1 s2 s3 (cs & os & ->) (cs' & os' & ->). by exists cs', os'.
Qed.
Lemma frame_conditions s s' : conditions_only s s' → frame s s'.
Proof. by intros (cs & os & ->). Qed.
Lemma conditions_only_upd k f s : conditions_only s (upd_condition k f s).
Proof. by exists (alter f k (nv_conditions s)), (nv_observations s). Qed.
Lemma conditions_only_observation o s s' : insert_observation o s = Ok s' → conditions_only s s'.
Proof. unfold insert_observation. intros H. result_inv. eexists (nv_conditions s), _. done. Qed.

Lemma conditions_only_evaluate s d b c n sp o m f e i s' st :
  evaluate_one_tx s d b c n sp o m f e i = Ok (s', st) → conditions_only s s'.
Proof.
  unfold evaluate_one_tx. intros H. result_inv. destruct a as [[[value state] armed] source]. result_inv. simplify_eq.
  etrans; [by eapply conditions_only_observation|apply conditions_only_upd].
Qed.

Lemma conditions_only_reset s job t : conditions_only s (reset_conditions_for_retry_tx s job t).
Proof.
  unfold reset_conditions_for_retry_tx. generalize (conditions_of s job). intros l. revert s.
  induction l as [|row l IH]; intros s; simpl; [done|]. etrans; [|apply IH]. apply conditions_only_upd.
Qed.

Section refresh.
Context (condition_json : ConditionSpec → string).

Lemma sim_refresh s job ctx oid s' r : refresh_conditions_tx condition_json s job ctx oid = Ok (s', r) → sim s s' ∧
  (cf_deadline_expired r = false → conditions_only s s').
Proof.
  unfold refresh_conditions_tx. intros H. result_inv. destruct a as [s1 [o|]]; result_inv; simplify_eq/=.
  { split; [by eapply sim_expire|done]. }
  apply expire_none in Hstep as ->. result_inv. destruct a as [s2 b]. result_inv. simplify_eq.
  assert (conditions_only s s') as Hc; [|by split; [apply sim_frame, frame_conditions|]].
  lazymatch goal with H : result_foldM _ _ _ = _ |- _ => revert H end. generalize ((λ row, (row.1, row.2, last_observation s row.1)) <$> conditions_of s job).
  intros l. generalize false. revert s. induction l as [|[[k c] last] l IH]; intros s b0 H; simpl in H; result_inv.
  - by simplify_eq.
  - destruct a as [s1 b1]. simpl in *. etrans; [|by eapply IH]. clear IH H.
    destruct (_ || _); [by simplify_eq|]. destruct (_ || _); [|by simplify_eq].
    result_inv. destruct a as [s3 st]. result_inv. simplify_eq. by eapply conditions_only_evaluate.
Qed.
End refresh.
End refinement.
