(* ===== verification/LifecycleRefinement.v ===== *)
(** * LifecycleRefinement: invocations and settlements refine the life of a job

    Simulations of the operations of [Lifecycle.v], [Release.v] and of the probes of
    [ConditionStore.v].  [owns] is what a runner relies on: from the preparation of an
    invocation until its boundary is closed or uncertain, the rows the [PreparedJob]
    names are its own. *)
From S2P Require Import Prelude Spec Validate Kernel Scoped ScopedFacts Observation Machine MachineStore.
From S2P Require Import MachineFacts ExchangeFacts Reservation ReservationFacts MachineOffer OfferFacts.
From S2P Require Import Native ConditionStore ProcessRecords Lifecycle Schedule Release NativeRecovery Life LifeFacts.
From S2P Require Import Refinement.

(** ** Ownership *)
Record owns (s : NativeStore) (job : PreparedJob) : Prop := {
  ow_boundary : ∃ c, nv_containments s !! pj_containment_id job = Some c ∧
    nt_invocation_id c = pj_invocation_id job ∧ handled (nt_state c);
  ow_invocation : ∃ i, nv_invocations s !! pj_invocation_id job = Some i ∧
    ni_attempt_id i = pj_attempt_id job ∧ ni_role i = pj_role job;
  ow_attempt : ∃ a, nv_attempts s !! pj_attempt_id job = Some a ∧ na_job_id a = pj_job_id job;
}.

(** No primary or postcondition of the attempt is still handled. *)
Definition idle (s : NativeStore) (attempt : Uuid) : Prop := ∀ c, ¬ works (abs s) c attempt.

(** What ownership of a primary or a postcondition means under the invariant. *)
Lemma owns_active s job : life_inv (abs s) → owns s job → pj_role job ≠ RoleProbe →
  works (abs s) (pj_containment_id job) (pj_attempt_id job) ∧
  ∃ j a, nv_jobs s !! pj_job_id job = Some j ∧ nj_state j = Active ∧ nj_attempt_id j = Some (pj_attempt_id job) ∧
    nv_attempts s !! pj_attempt_id job = Some a ∧ na_job_id a = pj_job_id job ∧ underway (na_state a).
Proof.
  intros Hinv [(c & Hc & Hci & Hh) (i & Hi & Hia & Hir) (a & Ha & Haj)] Hrole.
  assert (works (abs s) (pj_containment_id job) (pj_attempt_id job)) as Hw.
  { exists (boundary_life c), (invocation_life i). split_and!; simpl; [by apply abs_boundary| |done|congruence|done].
    apply abs_invocation. by rewrite Hci. }
  split; [done|]. destruct (li_works _ Hinv _ _ Hw) as (ar & Har & Hu).
  pose proof Har as (a' & Ha' & ->)%abs_attempt_inv. simplify_eq.
  destruct (li_underway _ Hinv _ _ Har Hu) as (row & Hrow & Hst & Hat). simpl in Hrow. rewrite Haj in Hrow.
  apply abs_job_inv in Hrow as (j & Hj & ->). by exists j, a.
Qed.

(** Once the boundary it owns is not handled any more, the attempt is idle. *)
Lemma owns_idle s s' job : life_inv (abs s) → owns s job → pj_role job ≠ RoleProbe →
  lf_invocations (abs s') = lf_invocations (abs s) →
  (∀ k b, lf_boundaries (abs s') !! k = Some b → k ≠ pj_containment_id job → lf_boundaries (abs s) !! k = Some b) →
  (∀ b, lf_boundaries (abs s') !! pj_containment_id job = Some b → ¬ handled (bl_state b)) →
  idle s' (pj_attempt_id job).
Proof.
  intros Hinv Hown Hrole Hi Hb Hc k (b & inv & Hk & Hinv' & Ha & Hr & Hh).
  destruct (owns_active _ _ Hinv Hown Hrole) as [Hw _].
  destruct (decide (k = pj_containment_id job)) as [->|Hne]; [by eapply Hc|].
  apply Hne. eapply (li_one_work _ Hinv); [|exact Hw]. exists b, inv. rewrite Hi in Hinv'. auto.
Qed.

Section lifecycle.
Context (caps : ResourceCapacities) (rules : gmap string (list string)).
Implicit Types (s : NativeStore) (lf : Life).
Notation sim := (sim caps rules).

(** ** Settling an attempt and its job *)

(** What [release_attempt_lease_if_safe] does, wherever the jobs stand. *)
Lemma release_safe s a : ∃ L, (release_attempt_lease_if_safe s a).1 = s <| nv_leases := L |> ∧
  ∀ lf rem, lf_attempts lf = lf_attempts (abs s) → lf_invocations lf = lf_invocations (abs s) →
    lf_boundaries lf = lf_boundaries (abs s) → lf_leases lf = lf_leases (abs s) →
    rtc (life_step caps rules rem) lf (lf <| lf_leases := L |>).
Proof.
  unfold release_attempt_lease_if_safe. destruct (_ && _) eqn:E.
  - apply andb_true_iff in E as [E1 E2]. eexists. split; [done|]. intros lf rem Ha Hi Hb Hl. apply rtc_once.
    simpl in Hl. unfold release_leases. simpl. rewrite <-Hl. apply life_release. intros k l Hk Hp Hg. apply andb_true_iff in Hp as [Hp _].
    apply bool_decide_eq_true in Hp. destruct (releasable_settled s a l E1 E2 Hp) as [H1 H2].
    split; [by rewrite Hb, Hi|by rewrite Ha].
  - exists (nv_leases s). split; [by destruct s|]. intros lf rem _ _ _ Hl. simpl in Hl. rewrite <-Hl. by destruct lf.
Qed.

(** The rows a settlement leaves behind. *)
Definition settled_job (outcome : option JobOutcome) (row : JobLife) : JobLife :=
  match outcome with
  | Some o => row <| jl_state := Final |> <| jl_outcome := Some o |>
  | None => row <| jl_state := Pending |> <| jl_attempt := None |>
  end.

Section settled.
Context (s s1 s3 s' : NativeStore) (job at_ : Uuid) (row : JobLife) (arow : AttemptLife)
  (outcome : option JobOutcome).
Hypotheses (Hj : lf_jobs (abs s) !! job = Some row) (Hact : jl_state row = Active)
  (Hat : jl_attempt row = Some at_) (Ha : lf_attempts (abs s) !! at_ = Some arow) (Hidle : idle s at_)
  (H1 : abs s1 = (abs s) <| lf_attempts ::= <[at_ := arow <| al_state := ASettled |>]> |>)
  (H' : abs s' = (abs s3) <| lf_jobs ::= <[job := settled_job outcome row]> |>)
  (Hrem : remote s' = remote s).

(** The attempt settles, the lease is released if it can be, the job settles. *)
Lemma sim_settled_released : abs s3 = abs (release_attempt_lease_if_safe s1 at_).1 → sim s s'.
Proof.
  intros H3 _. split; [|done]. destruct (release_safe s1 at_) as (L & HL & Hrel).
  eapply rtc_l; [by eapply (life_settle _ _ _ _ job row at_ arow outcome)|].
  assert (abs s3 = (abs s1) <| lf_leases := L |>) as H3' by by rewrite H3, HL. rewrite H', H3', H1.
  set (lf := (abs s) <| lf_attempts ::= <[at_ := arow <| al_state := ASettled |>]> |>
                     <| lf_jobs ::= <[job := settled_job outcome row]> |>).
  change (rtc (life_step caps rules (remote s)) lf (lf <| lf_leases := L |>)).
  apply Hrel; by rewrite H1.
Qed.

(** The same with every lease kept. *)
Lemma sim_settled_kept : abs s3 = abs s1 → sim s s'.
Proof.
  intros H3 _. split; [|done]. apply rtc_once. rewrite H', H3, H1.
  by eapply (life_settle _ _ _ _ job row at_ arow outcome).
Qed.
End settled.

(** A guarded update that the abstraction does not see. *)
Lemma where_frame {R B} (h : R → B) b (f : R → R) r : h (f r) = h r → h (where_ b f r) = h r.
Proof. by destruct b. Qed.

(** ** Running *)
Lemma frame_record_identity i ident pid s s' : record_identity i ident pid s = Ok s' → frame s s'.
Proof. unfold record_identity. intros H. result_inv. by apply frame_upd_invocation. Qed.

(** A boundary the runner owns moves on. *)
Lemma sim_owned_boundary s job f : owns s job →
  (∀ c, nt_invocation_id (f c) = nt_invocation_id c ∧ (closable (nt_state (f c)) ∨ f c = c)) →
  sim s (upd_containment (pj_containment_id job) f s).
Proof.
  intros [(c & Hc & _ & Hh) _ _] Hf. apply sim_upd_containment. intros c' Hc'.
  assert (c' = c) as -> by congruence. destruct (Hf c) as [? [?| ->]]; [by right|by left].
Qed.

Lemma underway_run s a row f : life_inv (abs s) → nv_attempts s !! a = Some row → underway (na_state row) →
  (∀ r, attempt_life (f r) = (attempt_life r) <| al_state := ARunning |>) → sim s (upd_attempt a f s).
Proof.
  intros Hinv Ha Hu Hf. eapply sim_step; [by apply abs_upd_attempt|done|]. intros _. rewrite Hf.
  apply life_run; [by apply abs_attempt|done].
Qed.

Lemma sim_mark_started d s job pid hash ident perm now s' : owns s job →
  mark_started_with_ticket d s job pid hash ident perm now = Ok s' → sim s s'.
Proof.
  intros Hown. unfold mark_started_with_ticket. intros H. result_inv. destruct a as [[host boot] creation].
  result_inv. rename a into j, a0 into s1. apply sim_with_inv. intros Hinv.
  set (s2 := upd_invocation _ _ s1). set (s3 := upd_containment _ _ s2).
  assert (frame s s2) as Hf2.
  { transitivity s1; [|by apply frame_upd_invocation].
    destruct ident; [by eapply frame_record_identity|by simplify_eq]. }
  assert (nv_containments s2 = nv_containments s ∧ nv_attempts s2 = nv_attempts s) as [Hcs Has].
  { subst s2. simpl. destruct ident; [|by simplify_eq]. unfold record_identity in *. result_inv. done. }
  assert (sim s s3) as Hs3.
  { transitivity s2; [by apply sim_frame|]. apply sim_upd_containment. rewrite Hcs. intros c Hc. right.
    destruct (ow_boundary _ _ Hown) as (c' & Hc' & _ & Hh).
    assert (c' = c) as -> by congruence. split_and!; [done..|by left]. }
  set (s4 := if decide (pj_role job = RoleProbe) then s3 else _).
  assert (sim s s4) as Hs4.
  { transitivity s3; [done|]. subst s4. destruct (decide _) as [|Hr]; [done|].
    destruct (owns_active _ _ Hinv Hown Hr) as (_ & j' & a & _ & _ & _ & Ha & _ & Hu).
    eapply underway_run; [by eapply sim_inv|by rewrite <-Has in Ha|done|done]. }
  transitivity s4; [done|]. apply sim_frame. destruct (decide (pj_role job = RolePrimary)); [|done].
  by apply frame_upd_job.
Qed.

Lemma frame_mark_root_exited s job code now s' : mark_root_exited s job code now = Ok s' → frame s s'.
Proof.
  unfold mark_root_exited. intros H. result_inv. set (s1 := upd_invocation _ _ s).
  assert (frame s s1) as H1 by (apply frame_upd_invocation; intros i; by apply where_frame).
  destruct (decide (pj_role job = RolePrimary)); [|done]. transitivity s1; [done|].
  apply frame_upd_job. intros j _. by apply where_frame.
Qed.

(** The boundary is proven empty; saying so again changes nothing. *)
Definition may_resolve s (job : PreparedJob) : Prop :=
  ∀ c, nv_containments s !! pj_containment_id job = Some c → handled (nt_state c) ∨ nt_state c = CEmpty.

Lemma sim_mark_resolved s job code cls now : may_resolve s job → sim s (mark_invocation_resolved s job code cls now).
Proof.
  intros Hmay. unfold mark_invocation_resolved. set (s1 := upd_invocation _ _ s).
  transitivity s1; [by apply sim_frame, frame_upd_invocation|]. apply sim_upd_containment. intros c Hc.
  destruct (Hmay c Hc) as [Hh|He]; [right; split_and!; [done..|right; by left]|left].
  unfold boundary_life. simpl. by rewrite He.
Qed.

Lemma frame_record_primary_result s job v t s' r : record_primary_result s job v t = Ok (s', r) → frame s s'.
Proof.
  unfold record_primary_result. intros H. result_inv. destruct (na_primary_result a) as [existing|]; result_inv;
    simplify_eq; [done|]. apply frame_upd_attempt. intros a' _. by apply where_frame.
Qed.

(** ** Settling *)

(** The attempt of an active job settles on the tables: [fa] and [fj] are what the
    statements write, [s0] the tables after statements that [abs] does not see, [s3]
    those before the job is written. *)
Lemma sim_settle_rows s s0 s3 job at_ j a j3 fa g fj outcome :
  frame (release_attempt_lease_if_safe (upd_attempt at_ fa s0) at_).1 s3 ∨ frame (upd_attempt at_ fa s0) s3 →
  nv_jobs s !! job = Some j → nj_state j = Active → nj_attempt_id j = Some at_ →
  nv_attempts s0 !! at_ = Some a → idle s at_ → frame s s0 →
  attempt_life (fa a) = (attempt_life a) <| al_state := ASettled |> →
  nv_jobs s3 !! job = Some j3 → g j3 = true →
  job_life (fj j3) = settled_job outcome (job_life j) →
  sim s (upd_job_state job g fj s3).
Proof.
  intros Hf3 Hj Hact Hat Ha Hidle Hf0 Hfa Hj3 Hg Hfj.
  pose proof (abs_job _ _ _ Hj) as Hja. pose proof (abs_attempt _ _ _ Ha) as Haa.
  rewrite (fr_abs _ _ Hf0) in Haa.
  assert (abs (upd_attempt at_ fa s0) = (abs s) <| lf_attempts ::= <[at_ := (attempt_life a) <| al_state := ASettled |>]> |>)
    as H1 by by rewrite (abs_upd_attempt _ _ _ _ Ha), Hfa, (fr_abs _ _ Hf0).
  assert (abs (upd_job_state job g fj s3) = (abs s3) <| lf_jobs ::= <[job := settled_job outcome (job_life j)]> |>)
    as H' by by rewrite (abs_upd_job_state _ _ _ _ _ Hj3 Hg), Hfj.
  assert (remote s3 = remote s) as Hr3.
  { rewrite <-(fr_machine _ _ Hf0). destruct Hf3 as [Hf3|Hf3]; rewrite (fr_machine _ _ Hf3); [|done].
    unfold release_attempt_lease_if_safe. by destruct (_ && _). }
  destruct Hf3 as [Hf3|Hf3].
  - eapply (sim_settled_released _ _ _ _ job at_); [exact Hja|done|done|exact Haa|done|exact H1|exact H'| |exact (fr_abs _ _ Hf3)].
    by rewrite remote_upd_job_state.
  - eapply (sim_settled_kept _ _ _ _ job at_); [exact Hja|done|done|exact Haa|done|exact H1|exact H'| |exact (fr_abs _ _ Hf3)].
    by rewrite remote_upd_job_state.
Qed.

Lemma release_attempt_lease_jobs s a : nv_jobs (release_attempt_lease_if_safe s a).1 = nv_jobs s.
Proof. unfold release_attempt_lease_if_safe. by destruct (_ && _). Qed.

Lemma failed_if (c : bool) job s : let s0 := if c then fail_conditions job s else s in
  frame s s0 ∧ nv_jobs s0 = nv_jobs s ∧ nv_attempts s0 = nv_attempts s.
Proof. by destruct c. Qed.

Lemma sim_settle_never_started s job deadline now j a :
  nv_jobs s !! pj_job_id job = Some j → nj_state j = Active → nj_attempt_id j = Some (pj_attempt_id job) →
  nv_attempts s !! pj_attempt_id job = Some a → idle s (pj_attempt_id job) →
  sim s (settle_never_started s job deadline now).
Proof.
  intros Hj Hact Hat Ha Hidle. unfold settle_never_started.
  set (s0 := if bool_decide _ then _ else s).
  assert (frame s s0 ∧ nv_jobs s0 = nv_jobs s ∧ nv_attempts s0 = nv_attempts s) as (Hf & Hjobs & Hats).
  { apply failed_if. }
  clearbody s0. destruct (default _ _) as [verdict outcome].
  eapply (sim_settle_rows s _ _ _ (pj_attempt_id job) j a j _ _ _ (Some outcome));
    [left; reflexivity|exact Hj|exact Hact|exact Hat| |exact Hidle| |done| |done|done].
  - simpl. by rewrite Hats.
  - etrans; [exact Hf|by apply frame_upd_invocation].
  - rewrite release_attempt_lease_jobs. simpl. by rewrite Hjobs.
Qed.

(** Rows keep their life through statements the abstraction does not see. *)
Lemma frame_job s s' k j : frame s s' → nv_jobs s !! k = Some j →
  ∃ j', nv_jobs s' !! k = Some j' ∧ job_life j' = job_life j.
Proof.
  intros [Ha _] Hj%abs_job. rewrite <-Ha in Hj. apply abs_job_inv in Hj as (j' & Hj' & ->). by exists j'.
Qed.
Lemma frame_attempt s s' k a : frame s s' → nv_attempts s !! k = Some a →
  ∃ a', nv_attempts s' !! k = Some a' ∧ attempt_life a' = attempt_life a.
Proof.
  intros [Ha _] Hj%abs_attempt. rewrite <-Ha in Hj. apply abs_attempt_inv in Hj as (a' & Ha' & ->). by exists a'.
Qed.

Lemma frame_if (c : bool) s s1 s2 : frame s s1 → frame s s2 → frame s (if c then s1 else s2).
Proof. by destruct c. Qed.

Lemma frame_forget_start s job : frame s (forget_start s job).
Proof.
  unfold forget_start. set (s1 := upd_invocation _ _ s). set (s2 := upd_attempt _ _ s1).
  transitivity s1; [by apply frame_upd_invocation|]. transitivity s2; [by apply frame_upd_attempt|].
  by apply frame_upd_job.
Qed.

Lemma sim_settle_attempt s job v now retry_now s' b : idle s (pj_attempt_id job) →
  settle_attempt s job v now retry_now = Ok (s', b) → sim s s'.
Proof.
  intros Hidle. unfold settle_attempt, get_job, get_attempt.
  destruct (nv_jobs s !! pj_job_id job) as [j|] eqn:Hj; [|done]. simpl. intros H.
  destruct (bool_decide (nj_attempt_id j ≠ _)) eqn:Hat; [done|]. simpl in H.
  destruct (nv_attempts s !! pj_attempt_id job) as [a|] eqn:Ha; [|done]. simpl in H.
  destruct (bool_decide (nj_state j ≠ Active)) eqn:Hact; [done|]. simpl in H.
  apply bool_decide_eq_false, dec_stable in Hat, Hact.
  branch H; simplify_eq; [by eapply sim_settle_never_started|].
  set (s0 := if _ && _ then forget_start s job else s) in H.
  assert (frame s s0) as Hf0 by (apply frame_if; [apply frame_forget_start|done]). clearbody s0.
  set (s1 := upd_attempt _ _ s0) in H.
  destruct (frame_job _ _ _ _ Hf0 Hj) as (j0 & Hj0 & Hl0). destruct (frame_attempt _ _ _ _ Hf0 Ha) as (a0 & Ha0 & Hal0).
  assert (nv_jobs (release_attempt_lease_if_safe s1 (pj_attempt_id job)).1 !! pj_job_id job = Some j0) as Hj1
    by by rewrite release_attempt_lease_jobs.
  injection Hl0 as Hl1 Hl2 Hl3. branch H; simplify_eq.
  - etrans; [|apply sim_frame, frame_conditions, conditions_only_reset]. unfold requeue_job. subst s1.
    eapply (sim_settle_rows s s0 _ _ (pj_attempt_id job) j a0 j0 _ _ _ None);
      [left; reflexivity|done|done|done|done|done|done|done|done|done|].
    unfold job_life. simpl. by rewrite Hl3.
  - set (s3 := if decide _ then _ else _).
    assert (frame (release_attempt_lease_if_safe s1 (pj_attempt_id job)).1 s3 ∧ nv_jobs s3 = nv_jobs s0) as [Hf3 Hj3].
    { subst s3. destruct (decide _).
      - split; [done|by rewrite release_attempt_lease_jobs].
      - split; [by apply frame_upd_attempt|simpl; by rewrite release_attempt_lease_jobs]. }
    eapply (sim_settle_rows s s0 s3 _ (pj_attempt_id job) j a0 j0 _ _ _ (Some _));
      [left; exact Hf3|done|done|done|done|done|done|done|by rewrite Hj3|done|].
    unfold job_life. simpl. by rewrite Hl2.
Qed.

(** ** Invocations that end without a settlement of their own *)
Lemma owns_frame s s' job : frame s s' → owns s job → owns s' job.
Proof.
  intros Hf [(c & Hc & Hci & Hh) (i & Hi & Hia & Hir) (a & Ha & Haj)].
  apply abs_boundary in Hc. apply abs_invocation in Hi. apply abs_attempt in Ha.
  rewrite <-(fr_abs _ _ Hf) in Hc, Hi, Ha. apply abs_boundary_inv in Hc as (c' & Hc & Ec).
  apply abs_invocation_inv in Hi as (i' & Hi & Ei). apply abs_attempt_inv in Ha as (a' & Ha & Ea).
  injection Ec as Ec1 Ec2. injection Ei as Ei1 Ei2. injection Ea as Ea1 Ea2. split.
  - exists c'. by rewrite <-Ec1, <-Ec2.
  - exists i'. by rewrite <-Ei1, <-Ei2.
  - exists a'. by rewrite <-Ea1.
Qed.

(** The boundary is closed, or given up as uncertain: the attempt is idle. *)
Lemma sim_owned_close s job f : life_inv (abs s) → owns s job → pj_role job ≠ RoleProbe →
  (∀ c, handled (nt_state c) → nt_invocation_id (f c) = nt_invocation_id c ∧
     (nt_state (f c) = CEmpty ∨ nt_state (f c) = CUncertain)) →
  sim s (upd_containment (pj_containment_id job) f s) ∧
  idle (upd_containment (pj_containment_id job) f s) (pj_attempt_id job).
Proof.
  intros Hinv Hown Hrole Hf. destruct (ow_boundary _ _ Hown) as (c & Hc & _ & Hh).
  destruct (Hf c Hh) as [Hfi Hfs]. split.
  - apply sim_upd_containment. intros c' Hc'. assert (c' = c) as -> by congruence. right. by split_and!; [..|right].
  - eapply owns_idle; [done..| |].
    + intros k b. rewrite (abs_upd_containment _ _ _ _ Hc). simpl. intros Hk Hne. by rewrite lookup_insert_ne in Hk.
    + intros b. rewrite (abs_upd_containment _ _ _ _ Hc). simpl. rewrite lookup_insert_eq. intros [= <-]. simpl.
      destruct Hfs as [-> | ->]; by intros [|].
Qed.

Lemma sim_mark_finished s job code outcome v now s' : owns s job → pj_role job ≠ RoleProbe →
  mark_finished s job code outcome v now = Ok s' → sim s s'.
Proof.
  intros Hown Hrole H. apply sim_with_inv. intros Hinv.
  destruct (owns_active _ _ Hinv Hown Hrole) as (_ & j & a & Hj & Hact & Hat & Ha & _ & _).
  unfold mark_finished, get_job in H. rewrite Hj in H. simpl in H. rewrite Hact in H.
  simpl in H. set (s0 := if bool_decide _ then _ else s) in H.
  assert (frame s s0 ∧ nv_jobs s0 = nv_jobs s ∧ nv_attempts s0 = nv_attempts s) as (Hf0 & Hjobs & Hats).
  { apply failed_if. }
  clearbody s0. lazymatch type of H with (let '(_, _) := ?m in _) = _ => destruct m as [v' outcome'] end.
  injection H as <-. set (s1 := upd_invocation _ _ s0).
  assert (frame s s1) as Hf1 by (etrans; [exact Hf0|by apply frame_upd_invocation]).
  set (s2 := upd_containment _ _ s1).
  destruct (sim_owned_close s1 job (λ c, c <| nt_state := CEmpty |>)) as [Hs2 Hidle];
    [by rewrite (fr_abs _ _ Hf1)|by eapply owns_frame|done|by split; [|left]|].
  transitivity s2; [etrans; [by apply sim_frame|exact Hs2]|].
  eapply (sim_settle_rows s2 s2 _ _ (pj_attempt_id job) j a j _ _ _ (Some outcome'));
    [left; reflexivity| |done|done| |exact Hidle|done|done| |done|done].
  - subst s2 s1. simpl. by rewrite Hjobs.
  - subst s2 s1. simpl. by rewrite Hats.
  - rewrite release_attempt_lease_jobs. subst s2 s1. simpl. by rewrite Hjobs.
Qed.

Lemma sim_mark_uncertain_settlement s job code v reason outcome preserve now opened resolved s' :
  owns s job → pj_role job ≠ RoleProbe →
  mark_uncertain_settlement s job code v reason outcome preserve now opened resolved = Ok s' → sim s s'.
Proof.
  intros Hown Hrole H. apply sim_with_inv. intros Hinv.
  destruct (owns_active _ _ Hinv Hown Hrole) as (_ & j & a & Hj & Hact & Hat & Ha & _ & Hu).
  unfold mark_uncertain_settlement in H. assert (get_job s (pj_job_id job) = Ok j) as Hget
    by (unfold get_job; by rewrite Hj). rewrite Hget in H. simpl in H.
  rewrite Hact in H. simpl in H. set (s0 := if bool_decide _ then _ else s) in H.
  assert (frame s s0 ∧ nv_jobs s0 = nv_jobs s ∧ nv_attempts s0 = nv_attempts s) as (Hf0 & Hjobs & Hats).
  { apply failed_if. }
  clearbody s0. lazymatch type of H with (let '(_, _) := ?m in _) = _ => destruct m as [[v' reason'] outcome'] end.
  result_inv. clear Hstep Hstep0 Hstep1. set (s1 := upd_invocation _ _ s0).
  assert (frame s s1) as Hf1.
  { etrans; [exact Hf0|]. apply frame_upd_invocation. intros i. by apply where_frame. }
  unfold open_incident. lazymatch goal with |- context [upd_containment _ ?f s1] =>
    destruct (sim_owned_close s1 job f) as [Hs2 Hidle];
      [by rewrite (fr_abs _ _ Hf1)|by eapply owns_frame|done| |set (s2 := upd_containment (pj_containment_id job) f s1) in *] end.
  { intros c Hc%is_open_boundary_spec. unfold where_. rewrite Hc. by split; [|right]. }
  transitivity s2; [etrans; [by apply sim_frame|exact Hs2]|]. set (s3 := upd_attempt _ _ s2).
  set (s4 := if preserve then upd_invocation _ _ s3 else s3).
  set (s5 := if preserve then upd_job _ _ s4 else s4).
  assert (frame s3 s5) as Hf5.
  { transitivity s4; [by apply frame_if; [apply frame_upd_invocation|]|by apply frame_if; [apply frame_upd_job|]]. }
  assert (nv_jobs s3 !! pj_job_id job = Some j) as Hj3 by (subst s3 s2 s1; simpl; by rewrite Hjobs).
  destruct (frame_job _ _ _ _ Hf5 Hj3) as (j5 & Hj5 & Hl5). injection Hl5 as Hl1 Hl2 Hl3.
  eapply (sim_settle_rows s2 s2 s5 _ (pj_attempt_id job) j a j5 _ _ _ (Some outcome'));
    [right; exact Hf5|exact Hj3|done|done| |exact Hidle|done| |exact Hj5| |].
  - subst s2 s1. simpl. by rewrite Hats.
  - unfold where_. rewrite bool_decide_eq_true_2; [done|]. intros Hs. rewrite Hs in Hu. by destruct Hu.
  - by rewrite Hl1, bool_decide_eq_true_2.
  - unfold job_life. simpl. by rewrite Hl2.
Qed.
End lifecycle.
