(* ===== verification/ReleaseRefinement.v ===== *)
(** * ReleaseRefinement: cancellation, probes, releases and clearance refine the
      life of a job *)
From S2P Require Import Prelude Spec Validate Kernel Scoped ScopedFacts Observation Machine MachineStore.
From S2P Require Import MachineFacts ExchangeFacts Reservation ReservationFacts MachineOffer OfferFacts.
From S2P Require Import Native ConditionStore ProcessRecords Lifecycle Schedule Release NativeRecovery Life LifeFacts.
From S2P Require Import Refinement LifecycleRefinement.

Section releases.
Context (caps : ResourceCapacities) (rules : gmap string (list string)).
Implicit Types (s : NativeStore) (lf : Life).
Notation sim := (sim caps rules).

(** ** Cancellation *)
Lemma sim_cancel_one s entry s' : cancel_one s entry = Ok s' → sim s s'.
Proof.
  destruct entry as [job now]. unfold cancel_one. destruct (nv_jobs s !! job) as [j|]; [|done]. simpl.
  destruct (nj_state j); intros H; simplify_eq/=; [|by apply sim_frame, frame_upd_job_state|done].
  result_inv. destruct a as [s1 o]. result_inv. destruct a as [s2 b]. result_inv. simplify_eq.
  etrans; [by eapply sim_expire|]. etrans; [|by eapply sim_finalize_if_ready].
  apply sim_frame. set (s3 := upd_job_state _ _ _ s1). transitivity s3; [by apply frame_upd_job_state|done].
Qed.

Lemma sim_cancel_jobs s jobs clock s' : cancel_jobs s jobs clock = Ok s' → sim s s'.
Proof.
  unfold cancel_jobs. intros H. result_inv. eapply sim_foldM; [|done]. intros. by eapply sim_cancel_one.
Qed.

Lemma sim_stop_requested s job now s' b : invocation_stop_requested s job now = Ok (s', b) → sim s s'.
Proof.
  unfold invocation_stop_requested. intros H. result_inv. branch H; result_inv; [|by simplify_eq].
  destruct a0 as [s1 o]. result_inv. simplify_eq. by eapply sim_expire.
Qed.

Lemma frame_defer_reason s job now s' o : pre_resume_defer_reason s job now = Ok (s', o) → frame s s'.
Proof.
  assert (∀ s1 k r, frame s1 (set_defer_reason k r s1)) as Hset.
  { intros s1 k r. unfold set_defer_reason. destruct (nv_jobs s1 !! k) as [[? ? ? ? ? ? ? [at_|] ? ? ? ? ? ? ? ? ? ? ? ? ? ?]|]; done. }
  unfold pre_resume_defer_reason. intros H. result_inv. branch H; [by simplify_eq|].
  destruct (first_deadline _ _ _); [simplify_eq; etrans; [apply (frame_fail_conditions job)|apply Hset]|].
  destruct (nj_cancel_requested a); by simplify_eq.
Qed.

(** ** Probes *)

(** One boundary per invocation. *)
Lemma boundary_unique s k k' c c' : life_inv (abs s) → nv_containments s !! k = Some c →
  nv_containments s !! k' = Some c' → nt_invocation_id c = nt_invocation_id c' → k = k' ∧ c = c'.
Proof.
  intros Hinv Hk Hk' He. assert (k = k') as ->.
  { eapply (li_boundary_unique _ Hinv); [by apply abs_boundary|by apply abs_boundary|done]. }
  by simplify_eq.
Qed.

Lemma sim_settle_probe_tx d s job code timed_out now mono oid s' : owns s job →
  settle_probe_tx d s job code timed_out now mono oid = Ok s' → sim s s'.
Proof.
  intros Hown H. apply sim_with_inv. intros Hinv. destruct (ow_boundary _ _ Hown) as (c & Hc & Hci & Hh).
  unfold settle_probe_tx in H. rewrite Hc in H. result_inv. destruct (cond_predicate (nc_spec a0)); result_inv.
  destruct a3 as [s5 b]. result_inv. etrans; [|by eapply sim_finalize_if_ready].
  match goal with H : insert_observation _ ?t = Ok ?t' |- _ => set (s2 := t) in *; rename t' into s3; rename H into Ho end.
  apply conditions_only_observation in Ho as Hc3. set (s4 := upd_condition _ _ s3).
  assert (conditions_only s2 s4) as Hc4 by (etrans; [exact Hc3|apply conditions_only_upd]).
  transitivity s4.
  - etrans; [|apply sim_frame, frame_conditions; exact Hc4]. set (s1 := upd_invocation _ _ s) in s2.
    transitivity s1; [by apply sim_frame, frame_upd_invocation|]. apply sim_upd_containment. intros c' Hc'.
    assert (c' = c) as -> by (subst s1; simpl in Hc'; congruence). right. unfold where_.
    apply is_open_boundary_spec in Hh as Ho'. rewrite Ho'. split_and!; [done..|right; by left].
  - apply sim_release_probe_lease. intros k c' Hk Hki. destruct Hc4 as (cs & os & ->). subst s2. simpl in Hk.
    destruct (decide (k = pj_containment_id job)) as [->|Hne].
    + rewrite lookup_alter_eq, Hc in Hk. simpl in Hk. unfold where_ in Hk.
      apply is_open_boundary_spec in Hh as Ho'. rewrite Ho' in Hk. simplify_eq. by left.
    + rewrite lookup_alter_ne in Hk by done. destruct Hne.
      eapply (boundary_unique s k (pj_containment_id job) c' c); [done..|congruence].
Qed.

Lemma sim_mark_probe_uncertain s job code resolved opened now s' : 
  mark_probe_uncertain s job code resolved opened now = Ok s' → sim s s'.
Proof.
  unfold mark_probe_uncertain. intros H. result_inv. destruct a0 as [s4 b]. result_inv.
  etrans; [|by eapply sim_finalize_if_ready]. set (s1 := upd_invocation _ _ s). set (s2 := upd_containment _ _ s1).
  transitivity s2; [|by apply sim_frame]. transitivity s1; [by apply sim_frame, frame_upd_invocation|].
  apply sim_upd_containment. intros c _. unfold where_. destruct (is_open_boundary _) eqn:E; [right|by left].
  apply is_open_boundary_spec in E. split_and!; [done..|by right; right].
Qed.

(** ** Preparing an invocation *)
Lemma insert_prepared_spec d a i c role post cond s s' : insert_prepared d a i c role post cond s = Ok s' →
  abs s' = prepare a i c role (abs s) ∧ is_prepared (abs s) i c ∧ is_Some (nv_attempts s !! a) ∧ remote s' = remote s ∧
  nv_jobs s' = nv_jobs s ∧ nv_attempts s' = nv_attempts s ∧ nv_leases s' = nv_leases s ∧
  is_Some (nv_invocations s' !! i).
Proof.
  unfold insert_prepared, insert_invocation, insert_containment. intros H. result_inv. simpl in *.
  apply orb_false_iff in Hguard0 as [Hi Ha], Hguard as [Hc _]. apply bool_decide_eq_false, eq_None_not_Some in Hi, Hc.
  split_and!; [| |by destruct (nv_attempts s !! a)|done..|].
  - unfold abs, prepare. simpl. by rewrite !fmap_insert.
  - split; simpl; by rewrite lookup_fmap, ?Hi, ?Hc.
  - rewrite lookup_insert_eq. by eexists.
Qed.

Lemma sim_prepare_postcondition d s primary index i c s' post : idle s (pj_attempt_id primary) →
  prepare_postcondition d s primary index i c = Ok (s', post) → sim s s'.
Proof.
  intros Hidle. unfold prepare_postcondition, get_job. intros H.
  destruct (nv_jobs s !! pj_job_id primary) as [j|] eqn:Hj; simpl in H; result_inv. simplify_eq. guards. subst.
  destruct (nj_attempt_id j) as [at_|] eqn:Hat; simplify_eq/=.
  match goal with H : insert_prepared _ _ _ _ _ _ _ s = Ok _ |- _ => apply insert_prepared_spec in H as
    (Habs & Hprep & _ & Hrem & Hjobs & _) end.
  match goal with |- sim s (upd_job _ _ ?t) => transitivity t; [|by apply sim_frame, frame_upd_job] end.
  eapply sim_step; [exact Habs|done|]. intros _.
  by apply (life_postcondition _ _ _ _ (pj_job_id primary) (job_life j)); [apply abs_job|..].
Qed.

(** ** Releasing a suspended root *)
Lemma sim_record_suspended_root d s job pid hash ident perm s' :
  record_suspended_root d s job pid hash ident perm = Ok s' → sim s s'.
Proof.
  unfold record_suspended_root. intros H. result_inv. destruct a as [[host boot] creation]. result_inv.
  destruct a as [[j a] i]. result_inv.
  match goal with H : record_identity _ _ _ _ = Ok ?t |- _ =>
    pose proof (frame_record_identity _ _ _ _ _ H) as Hf1; rename t into s1 end.
  set (s2 := upd_invocation _ _ s1). transitivity s2.
  - apply sim_frame. etrans; [exact Hf1|]. apply frame_upd_invocation. intros i'. by apply where_frame.
  - apply sim_upd_containment. intros c _. unfold where_. case_bool_decide as Hc; [right|by left].
    split_and!; [by left|done|by left].
Qed.

Lemma sim_mark_released s job started deadline a : nv_attempts s !! pj_attempt_id job = Some a →
  na_state a = AStarting → sim s (mark_released job started deadline s).
Proof.
  intros Ha Hst. unfold mark_released. set (s1 := upd_invocation _ _ s). set (s2 := upd_attempt _ _ s1).
  transitivity s1; [apply sim_frame, frame_upd_invocation; intros i; by apply where_frame|].
  transitivity s2; [|apply sim_frame, frame_upd_job; intros j _; by apply where_frame].
  eapply sim_step; [by apply abs_upd_attempt|done|]. intros _. unfold where_. rewrite bool_decide_eq_true_2 by done.
  apply (life_run _ _ _ _ _ (attempt_life a)); [by apply (abs_attempt s1)|by left].
Qed.

Lemma current_rows_spec s job j a i : current_rows s job = Ok (j, a, i) →
  nv_jobs s !! pj_job_id job = Some j ∧ nj_attempt_id j = Some (pj_attempt_id job) ∧
  nv_attempts s !! pj_attempt_id job = Some a ∧ nv_invocations s !! pj_invocation_id job = Some i.
Proof.
  unfold current_rows, get_job, get_attempt, get_invocation. intros H.
  destruct (nv_jobs s !! pj_job_id job) as [j'|]; simpl in H; result_inv.
  destruct (nv_attempts s !! pj_attempt_id job) as [a'|]; simpl in *; result_inv.
  destruct (nv_invocations s !! pj_invocation_id job) as [i'|]; simpl in *; result_inv. simplify_eq. guards. done.
Qed.

(** A transaction either commits a simulation or leaves the tables alone. *)
Lemma sim_run_tx {A} s (r : result StoreError (Tx A)) :
  (∀ s' a, r = Ok (Commit s' a) → sim s s') → sim s (run_tx s r).1.
Proof. intros H. destruct r as [[s' a|a]|e]; simpl; [by eapply H|done|done]. Qed.

Section authorize.
Context (uuid_to_string : Uuid → string) (condition_json : ConditionSpec → string)
  (blockers_json : list Blocker → string).

Lemma sim_authorize_release d s job obs input s' r :
  authorize_release uuid_to_string condition_json blockers_json d s job obs input = Ok (Commit s' r) → sim s s'.
Proof.
  unfold authorize_release. intros H. result_inv. destruct a as [[j a] i]. apply current_rows_spec in Hstep as (_ & _ & Ha & _).
  result_inv. unfold is_suspended in *. guards. branch H; [by result_inv|]. result_inv. destruct a0 as [s1 refresh].
  apply (sim_refresh caps rules) in Hstep as [Hs1 Hc1]. branch H; [by simplify_eq|]. specialize (Hc1 eq_refl).
  result_inv. branch H; [by simplify_eq|]. result_inv. destruct (checked_add _ _) as [expires|]; [|by simplify_eq].
  branch H; simplify_eq. etrans; [exact Hs1|]. etrans; [|apply sim_frame, frame_upd_admission].
  destruct Hc1 as (cs & os & ->). by eapply sim_mark_released.
Qed.

Lemma sim_authorize_condition_release d s job obs input s' r :
  authorize_condition_release uuid_to_string condition_json blockers_json d s job obs input = Ok (Commit s' r) → sim s s'.
Proof.
  unfold authorize_condition_release. intros H. result_inv. destruct a as [[j a] i].
  apply current_rows_spec in Hstep as (_ & _ & Ha & _).
  result_inv. unfold is_suspended in *. guards. branch H; [by result_inv|]. result_inv. destruct a0 as [s1 refresh].
  apply (sim_refresh caps rules) in Hstep as [Hs1 Hc1]. branch H; [by simplify_eq|]. specialize (Hc1 eq_refl).
  result_inv. destruct a1 as [sb sample]. branch H; [by simplify_eq|]. branch H; simplify_eq.
  etrans; [exact Hs1|]. etrans; [|apply sim_frame, frame_upd_admission].
  destruct Hc1 as (cs & os & ->). by eapply sim_mark_released.
Qed.
End authorize.

(** ** A start that never ran *)
Definition of_attempt (a : Uuid) (l : Lease) : bool :=
  bool_decide (nl_attempt_id l = a) && bool_decide (nl_state l = LGranted).

Lemma all_closed_idle s a : all_closed s a None = true → idle s a.
Proof.
  rewrite all_closed_spec. intros Hcl k (b & inv & (c & Hc & ->)%abs_boundary_inv & (i & Hi & ->)%abs_invocation_inv & Ha & _ & Hh).
  simpl in *. destruct (Hcl k c i Hc Hi Ha) as [|Hcl']; [done|]. by eapply not_closed_handled.
Qed.

Section never_run.
Context (s s' : NativeStore) (job at_ : Uuid) (row : JobLife) (arow : AttemptLife).
Hypotheses (Hj : lf_jobs (abs s) !! job = Some row) (Hact : jl_state row = Active)
  (Hat : jl_attempt row = Some at_) (Ha : lf_attempts (abs s) !! at_ = Some arow)
  (Hcl : all_closed s at_ None = true) (Hrem : remote s' = remote s).

(** It ends, or goes back to the queue, with its leases released. *)
Lemma sim_never_run_settled outcome :
  abs s' = (abs s) <| lf_attempts ::= <[at_ := arow <| al_state := ASettled |>]> |>
    <| lf_jobs ::= <[job := settled_job outcome row]> |> <| lf_leases ::= fmap (release (of_attempt at_)) |> →
  sim s s'.
Proof.
  intros Habs _. split; [|done]. eapply rtc_l; [by apply (life_settle _ _ _ _ job row at_ arow outcome), all_closed_idle|].
  rewrite Habs. apply rtc_once, life_release. intros k l Hk Hp Hg. unfold of_attempt in Hp. guards. split.
  - intros c b inv Hb Hi [Hc _]. simpl in *.
    destruct (abs_boundary_inv _ _ _ Hb) as (c' & Hc' & ->). destruct (abs_invocation_inv _ _ _ Hi) as (i & Hi' & ->).
    rewrite all_closed_spec in Hcl. assert (ni_attempt_id i = at_) as Hia by (simpl in Hc; congruence).
    by destruct (Hcl c c' i Hc' Hi' Hia).
  - intros a' (_ & Ha' & _) r Hr Hu. simpl in Hr. subst a'. rewrite H, lookup_insert_eq in Hr. simplify_eq. by destruct Hu.
Qed.

(** It is planned again. *)
Lemma sim_never_run_replanned :
  abs s' = (abs s) <| lf_attempts ::= <[at_ := arow <| al_state := APlanned |>]> |>
    <| lf_jobs ::= <[job := row <| jl_state := Pending |>]> |> <| lf_leases ::= fmap (release (of_attempt at_)) |> →
  sim s s'.
Proof.
  intros Habs _. split; [|done]. apply rtc_once. rewrite Habs.
  assert (∀ m, release (of_attempt at_) <$> m = release (λ l, bool_decide (nl_attempt_id l = at_)) <$> (m : gmap Uuid Lease)) as Heq.
  { intros m. apply map_fmap_ext. intros k l _. unfold release, of_attempt. case_bool_decide; [|done]. simpl.
    case_bool_decide as Hg; [done|]. destruct l as [? ? [] ?]; done. }
  simpl. rewrite Heq. apply (life_replan _ _ _ (abs s) job row at_ arow); [done..|].
  intros c b inv Hb Hi Hia. destruct (abs_boundary_inv _ _ _ Hb) as (c' & Hc' & ->).
  destruct (abs_invocation_inv _ _ _ Hi) as (i & Hi' & ->). rewrite all_closed_spec in Hcl.
  by destruct (Hcl c c' i Hc' Hi' Hia).
Qed.
End never_run.

Lemma release_never_run_spec s a s' : release_never_run_attempt_lease_if_safe s a = (s', true) →
  all_closed s a None = true ∧ s' = s <| nv_leases ::= fmap (release (of_attempt a)) |>.
Proof.
  unfold release_never_run_attempt_lease_if_safe. destruct (_ && _) eqn:E; [|done].
  intros [= <- _]. apply andb_true_iff in E as [_ E]. done.
Qed.

Lemma sim_replan_never_run d s job reason now s' : replan_never_run d s job reason now = Ok s' → sim s s'.
Proof.
  unfold replan_never_run. intros H. result_inv. destruct a as [[j a] i].
  apply current_rows_spec in Hstep as (Hj & Hat & Ha & Hi). result_inv. guards.
  set (s1 := upd_invocation _ _ s) in H. set (s2 := upd_containment _ _ s1) in H.
  assert (sim s s2) as Hs2.
  { transitivity s1; [apply sim_frame, frame_upd_invocation; intros i'; by apply where_frame|].
    apply sim_upd_containment. intros c _. unfold where_.
    destruct (bool_decide (nt_state c = CLive)) eqn:Hc; [right|by left]. apply bool_decide_eq_true in Hc.
    split_and!; [by right|done|right; by left]. }
  destruct (release_never_run_attempt_lease_if_safe s2 (pj_attempt_id job)) as [s3 released] eqn:Hrel.
  result_inv. guards. subst released. apply release_never_run_spec in Hrel as [Hcl Hs3].
  set (s4 := upd_attempt _ _ s3). set (s5 := upd_job _ _ s4).
  set (s6 := if bool_decide (is_Some _) then fail_conditions _ s5 else s5).
  assert (frame s3 s6) as Hf6.
  { transitivity s4; [by apply frame_upd_attempt|]. transitivity s5; [by apply frame_upd_job|]. apply frame_if; done. }
  transitivity s2; [done|].
  assert (nv_jobs s3 !! pj_job_id job = Some j ∧ nv_attempts s3 !! pj_attempt_id job = Some a) as [Hj3 Ha3] by by subst s3.
  destruct (frame_job _ _ _ _ Hf6 Hj3) as (j6 & Hj6 & Hl6). destruct (frame_attempt _ _ _ _ Hf6 Ha3) as (a6 & Ha6 & Hla6).
  assert (abs s6 = (abs s2) <| lf_leases ::= fmap (release (of_attempt (pj_attempt_id job))) |>) as Habs6.
  { rewrite (fr_abs _ _ Hf6). by subst s3. }
  assert (remote s6 = remote s2) as Hr6 by (rewrite (fr_machine _ _ Hf6); by subst s3).
  assert (lf_jobs (abs s2) !! pj_job_id job = Some (job_life j)) as Hj2 by by apply (abs_job s).
  assert (lf_attempts (abs s2) !! pj_attempt_id job = Some (attempt_life a)) as Ha2 by by apply (abs_attempt s).
  assert (∀ s7 fa g fj outcome, abs s7 = abs s6 → remote s7 = remote s6 → nv_jobs s7 !! pj_job_id job = Some j6 →
    nv_attempts s7 !! pj_attempt_id job = Some a6 → (∀ x, attempt_life (fa x) = (attempt_life x) <| al_state := ASettled |>) →
    g j6 = true → job_life (fj j6) = settled_job outcome (job_life j6) →
    sim s2 (upd_job_state (pj_job_id job) g fj (upd_attempt (pj_attempt_id job) fa s7))) as Hsettle.
  { intros s7 fa g fj outcome Habs7 Hr7 Hj7 Ha7 Hfa Hg Hfj.
    eapply (sim_never_run_settled s2 _ _ _ _ _ Hj2); [done|done|exact Ha2|done|by rewrite remote_upd_job_state, <-Hr6|].
    rewrite (abs_upd_job_state _ _ _ _ j6), (abs_upd_attempt _ _ _ a6), Hfa, Hfj, Hl6, Hla6, Habs7, Habs6 by done. done. }
  clearbody s6. destruct (replan_terminal _ _) as [[v o]|].
  - by eapply (Hsettle s6 _ _ _ (Some o)).
  - destruct (nj_cancel_requested j); [by eapply (Hsettle s6 _ _ _ (Some JCanceled))|].
    lazymatch goal with |- sim _ (if ?c then _ else _) => destruct c end.
    + unfold replan_exhausted. lazymatch goal with |- context [if ?c then reset_conditions_for_retry_tx _ _ _ else _] => destruct c end.
      * etrans; [|apply sim_frame, frame_conditions, conditions_only_reset].
        by eapply (Hsettle _ _ _ _ None).
      * by eapply (Hsettle _ _ _ _ (Some JFailed)).
    + unfold replan_later. eapply (sim_never_run_replanned s2 _ _ _ _ _ Hj2); [done|done|exact Ha2|done|by rewrite remote_upd_job_state, <-Hr6|].
      rewrite (abs_upd_job_state _ _ _ _ j6), (abs_upd_attempt _ _ _ a6) by done.
      assert (∀ s7 f, abs (upd_admission (pj_attempt_id job) f s7) = abs s7) as Hadm by done. rewrite Hadm, Habs6.
      injection Hl6 as E1 E2 E3. injection Hla6 as E4 E5. unfold abs, job_life, attempt_life. simpl.
      by rewrite E2, E3, E4.
Qed.
End releases.
