(* ===== verification/RecoveryRefinement.v ===== *)
(** * RecoveryRefinement: restart, repair, pruning and clearance refine the life of
      a job *)
From S2P Require Import Prelude Spec Validate Kernel Scoped ScopedFacts Observation Machine MachineStore.
From S2P Require Import MachineFacts ExchangeFacts Reservation ReservationFacts MachineOffer OfferFacts.
From S2P Require Import Native ConditionStore ProcessRecords Lifecycle Schedule Release NativeRecovery Life LifeFacts.
From S2P Require Import Refinement LifecycleRefinement ReleaseRefinement.

Section recovery.
Context (caps : ResourceCapacities) (rules : gmap string (list string)).
Implicit Types (s : NativeStore) (lf : Life).
Notation sim := (sim caps rules).

(** ** Clearance *)

(** The candidate was read from the tables: identifiers of rows never change. *)
Definition names s (candidate : ReconciliationCandidate) : Prop :=
  ∀ c i, nv_containments s !! rn_containment_id candidate = Some c →
    nv_invocations s !! rn_invocation_id candidate = Some i →
    nt_invocation_id c = rn_invocation_id candidate ∧ ni_attempt_id i = rn_attempt_id candidate.

Lemma sim_clear s k f c : nv_containments s !! k = Some c → nt_state c = CUncertain →
  boundary_life (f c) = (boundary_life c) <| bl_state := CCleared |> → sim s (upd_containment k f s).
Proof.
  intros Hc Hst Hf. eapply sim_step; [by apply abs_upd_containment|done|]. intros _. rewrite Hf.
  apply life_clear; [by apply abs_boundary|done].
Qed.

Lemma sim_commit_resolution d s candidate expected resolved next_now s' r : names s candidate →
  commit_containment_resolution d s candidate expected resolved next_now = Ok (s', r) → sim s s'.
Proof.
  intros Hnames. unfold commit_containment_resolution.
  destruct (nv_containments s !! rn_containment_id candidate) as [c|] eqn:Hc; [|by intros [= <- _]].
  intros H. branch H; [by simplify_eq|]. unfold get_invocation in H.
  destruct (nv_invocations s !! rn_invocation_id candidate) as [i|] eqn:Hi; [|done]. simpl in H.
  destruct (Hnames c i) as [Hci Hia]; [done..|]. guards. apply sim_with_inv. intros Hinv.
  set (s1 := upd_containment _ _ s) in H.
  assert (nv_containments s1 !! rn_containment_id candidate = Some (c <| nt_state := CCleared |> <| nt_version ::= N.succ |>
    <| nt_resolved_ms := Some resolved |>)) as Hc1.
  { subst s1. simpl. rewrite lookup_alter_eq, Hc. simpl. unfold where_. by rewrite !bool_decide_eq_true_2. }
  assert (sim s s1) as Hs1.
  { eapply sim_clear; [done..|]. unfold where_. by rewrite !bool_decide_eq_true_2. }
  destruct (decide (ni_role i = RoleProbe)) as [Hrole|Hrole].
  - branch H; [by simplify_eq|].
    assert (sim s (release_probe_lease (rn_invocation_id candidate) s1)) as Hs2.
    { etrans; [exact Hs1|]. apply sim_release_probe_lease. intros k c' Hk Hki.
      assert (life_inv (abs s1)) as Hinv1 by by eapply sim_inv.
      destruct (boundary_unique s1 k (rn_containment_id candidate) c' _ Hinv1 Hk Hc1) as [_ ->]; [simpl; congruence|by right]. }
    destruct (ni_condition_id i) as [condition|]; [|by simplify_eq]. result_inv.
    destruct (cond_predicate _); simplify_eq. etrans; [exact Hs2|]. by apply sim_frame.
  - branch H; [by simplify_eq|]. simplify_eq. etrans; [exact Hs1|].
    unfold attempt_lease_release_eligible_after_target in *. guards.
    apply sim_release. intros k l _ Hp _. guards. eapply (releasable_settled s1); [done| |done].
    rewrite all_closed_spec in *. intros k' c' i' Hk' Hi' Ha'. right.
    destruct (decide (k' = rn_containment_id candidate)) as [->|Hne]; [rewrite Hc1 in Hk'; simplify_eq; by right|].
    simpl in Hk', Hi'. rewrite lookup_alter_ne in Hk' by done.
    match goal with Hall : ∀ k c i, nv_containments s !! k = Some c → _ |- _ => by destruct (Hall k' c' i' Hk' Hi' Ha') as [[=]|] end.
Qed.

(** ** Repair *)
Lemma finalize_containments s job outcome reason now :
  nv_containments (finalize_pending_condition_terminal_tx s job outcome reason now) = nv_containments s.
Proof.
  unfold finalize_pending_condition_terminal_tx, upd_job_state, jobs_reservation_cleanup.
  repeat (simpl; case_match); done.
Qed.

Lemma finalize_if_ready_containments s job now s' b :
  finalize_pending_condition_terminal_if_ready_tx s job now = Ok (s', b) → nv_containments s' = nv_containments s.
Proof.
  unfold finalize_pending_condition_terminal_if_ready_tx. intros H. result_inv. branch H; [by simplify_eq|].
  destruct (first_deadline _ _ _); [simplify_eq; apply finalize_containments|].
  branch H; simplify_eq; [apply finalize_containments|done].
Qed.

Lemma sim_repair_one d now mono oid s key c invocation i j s' : probe_closed s invocation →
  repair_one_tx d now mono oid s (key, c, invocation, i, j) = Ok s' →
  sim s s' ∧ nv_containments s' = nv_containments s.
Proof.
  intros Hcl. unfold repair_one_tx. destruct (cond_predicate (nc_spec c)); intros H; result_inv.
  destruct a0 as [s5 b]. result_inv. match goal with H : insert_observation _ _ = Ok ?t |- _ =>
    apply conditions_only_observation in H as Hc3; rename t into s3 end.
  match goal with H : finalize_pending_condition_terminal_if_ready_tx ?t _ _ = _ |- _ => rename H into Hfin; set (s4 := t) in * end.
  assert (nv_containments s4 = nv_containments s) as Hcs by by (destruct Hc3 as (cs & os & ->)).
  split; [|by rewrite (finalize_if_ready_containments _ _ _ _ _ Hfin)].
  etrans; [|by eapply sim_finalize_if_ready]. set (s2 := upd_condition _ _ s3) in s4.
  assert (frame s s2) as Hf2.
  { etrans; [|etrans; [apply frame_conditions; exact Hc3|apply frame_upd_condition]]. by apply frame_upd_invocation. }
  etrans; [apply sim_frame; exact Hf2|]. apply sim_release_probe_lease. by destruct Hc3 as (cs & os & ->).
Qed.

Lemma resolved_empty_probe_closed s key c invocation i j : life_inv (abs s) →
  (key, c, invocation, i, j) ∈ resolved_empty_probes s → probe_closed s invocation.
Proof.
  intros Hinv. unfold resolved_empty_probes. rewrite list_elem_of_omap. intros ([k0 c0] & _ & H).
  destruct (nc_probe_invocation_id c0) as [i0|]; [|done]. simpl in H.
  destruct (nv_invocations s !! i0); [|done]. simpl in H. destruct (nv_jobs s !! _); [|done]. simpl in H.
  branch H; [|done]. simplify_eq. guards. intros k c' Hk Hki.
  match goal with H : existsb _ (btree_values (nv_containments s)) = true |- _ =>
    apply existsb_exists in H as (c1 & Hin & Hc1) end. guards.
  apply list_elem_of_In in Hin. unfold btree_values in Hin. apply list_elem_of_fmap in Hin as ([k1 c1'] & -> & Hin).
  apply elem_of_btree_entries in Hin. simpl in *.
  destruct (boundary_unique s k k1 c' c1' Hinv Hk Hin) as [_ ->]; [congruence|by left].
Qed.

Lemma sim_repair d s now mono oid s' b : repair_resolved_empty_probes_tx d s now mono oid = Ok (s', b) → sim s s'.
Proof.
  unfold repair_resolved_empty_probes_tx. intros H. result_inv. simplify_eq. apply sim_with_inv. intros Hinv.
  apply (result_foldM_ind (λ _ s1, sim s s1 ∧ nv_containments s1 = nv_containments s)) in Hstep; [by apply Hstep|done|].
  intros dn [[[[key c] invocation] i] j] rest s1 s2 Hl [Hs1 Hc1] H2.
  assert (probe_closed s invocation) as Hcl.
  { eapply resolved_empty_probe_closed; [done|]. rewrite Hl. apply elem_of_app. right. by left. }
  apply sim_repair_one in H2 as [H2 Hc2]; [|unfold probe_closed; by rewrite Hc1].
  split; [by etrans|congruence].
Qed.

(** ** Pruning *)
Definition forgettable s (i : Uuid) : Prop :=
  (∀ row, nv_invocations s !! i = Some row → ni_state row = IResolved) ∧ probe_closed s i ∧
  (∀ k l, nv_leases s !! k = Some l → nl_invocation_id l = Some i → nl_state l = LReleased).

Lemma sim_delete_probe s i : forgettable s i → sim s (delete_probe s i).
Proof.
  intros (Hres & Hcl & Hrel). apply sim_with_inv. intros Hinv.
  assert (nv_leases (delete_probe s i) = filter (λ p : Uuid * Lease, nl_invocation_id p.2 ≠ Some i) (nv_leases s)) as El.
  { apply map_filter_ext. intros k l Hl. simpl. split; [|tauto]. intros Hn He. apply Hn. eauto. }
  assert (nv_containments (delete_probe s i) = filter (λ p : Uuid * Containment, nt_invocation_id p.2 ≠ i) (nv_containments s)) as Ec.
  { apply map_filter_ext. intros k c Hc. simpl. split; [|tauto]. intros Hn He. apply Hn. split; [done|]. by eapply Hcl. }
  assert (nv_invocations (delete_probe s i) = delete i (nv_invocations s)) as Ei.
  { apply map_eq. intros k. simpl. destruct (decide (k = i)) as [->|Hne].
    - rewrite lookup_delete_eq. apply map_lookup_filter_None. right. intros row Hrow Hn. apply Hn. eauto.
    - rewrite lookup_delete_ne by done. destruct (nv_invocations s !! k) as [row|] eqn:Hk.
      + apply map_lookup_filter_Some. split; [done|]. simpl. tauto.
      + apply map_lookup_filter_None. by left. }
  destruct (nv_invocations s !! i) as [row|] eqn:Hi.
  - eapply sim_step; [|done|].
    2: { intros _. eapply (life_forget _ _ _ _ i (invocation_life row)); [by apply abs_invocation| |done].
         intros k b (c & Hc & ->)%abs_boundary_inv. exact (Hcl k c Hc). }
    unfold abs. rewrite El, Ec, Ei. simpl. rewrite fmap_delete. f_equal.
    apply map_eq. intros k. rewrite lookup_fmap, !map_lookup_filter, lookup_fmap.
    destruct (nv_containments s !! k) as [c|]; simpl; [|done]. by repeat case_guard.
  - apply sim_same; [|done]. unfold abs. rewrite El, Ec, Ei, delete_id by done. f_equal.
    + f_equal. apply map_filter_id. intros k c Hc He. simpl in He.
      destruct (li_boundary_invocation _ Hinv k (boundary_life c)) as [r Hr]; [by apply abs_boundary|].
      simpl in Hr. rewrite He, lookup_fmap, Hi in Hr. done.
    + apply map_filter_id. intros k l Hl He. simpl in He.
      destruct (li_lease_invocation _ Hinv k l i) as [r Hr]; [done..|]. simpl in Hr. by rewrite lookup_fmap, Hi in Hr.
Qed.

Lemma forgettable_delete s i i' : forgettable s i → forgettable (delete_probe s i') i.
Proof.
  intros (Hres & Hcl & Hrel). unfold forgettable, probe_closed, delete_probe. simpl. split_and!.
  - intros row [H _]%map_lookup_filter_Some. eauto.
  - intros k c [H _]%map_lookup_filter_Some. eauto.
  - intros k l [H _]%map_lookup_filter_Some. eauto.
Qed.

Lemma sim_delete_probes s l : Forall (forgettable s) l → sim s (foldl delete_probe s l).
Proof.
  revert s. induction l as [|i l IH]; intros s Hl; simpl; [done|]. inversion_clear Hl as [|? ? Hi Hl'].
  etrans; [by apply sim_delete_probe|]. apply IH. eapply Forall_impl; [exact Hl'|]. intros. by apply forgettable_delete.
Qed.

Lemma existsb_values {A} (f : A → bool) (m : gmap Uuid A) :
  existsb f (btree_values m) = true ↔ ∃ k x, m !! k = Some x ∧ f x = true.
Proof.
  rewrite existsb_exists. split.
  - intros (x & Hin%list_elem_of_In & Hf). unfold btree_values in Hin.
    apply list_elem_of_fmap in Hin as ([k x'] & -> & Hin%elem_of_btree_entries). by exists k, x'.
  - intros (k & x & Hk & Hf). exists x. split; [|done]. apply list_elem_of_In. unfold btree_values.
    apply list_elem_of_fmap. exists (k, x). by rewrite elem_of_btree_entries.
Qed.

Lemma prunable_forgettable s retained i row : life_inv (abs s) → nv_invocations s !! i = Some row →
  prunable_probe s retained i row = true → forgettable s i.
Proof.
  intros Hinv Hi Hp. unfold prunable_probe in Hp. guards.
  match goal with H : existsb _ (btree_values (nv_containments s)) = true |- _ =>
    apply existsb_values in H as (k1 & c1 & Hk1 & Hc1) end.
  apply andb_true_iff in Hc1 as [Hc1 Hst]. apply bool_decide_eq_true in Hc1. split_and!.
  - intros r Hr. by simplify_eq.
  - intros k c Hk Hki. destruct (boundary_unique s k k1 c c1 Hinv Hk Hk1) as [_ ->]; [congruence|].
    rewrite orb_true_iff, !bool_decide_eq_true in Hst. done.
  - intros k l Hk Hki. destruct (nl_state l) eqn:Hs; [|done]. exfalso.
    match goal with H : existsb _ (btree_values (nv_leases s)) = false |- _ => apply not_true_iff_false in H; apply H end.
    apply existsb_values. exists k, l. split; [done|]. by rewrite !bool_decide_eq_true_2.
Qed.

Lemma sim_prune_condition retained s condition : sim s (prune_resolved_probe_history_tx retained s condition).
Proof.
  apply sim_with_inv. intros Hinv. apply sim_delete_probes. apply Forall_drop, Forall_forall.
  intros i Hi. apply list_elem_of_fmap in Hi as ([i' row] & -> & Hin). apply elem_of_sort_by, list_elem_of_In, filter_In in Hin.
  destruct Hin as [Hin%list_elem_of_In%elem_of_btree_entries Hp]. simpl in *. guards.
  by eapply prunable_forgettable.
Qed.

Lemma sim_prune retained s : sim s (prune_condition_history retained s).
Proof.
  unfold prune_condition_history. generalize (List.filter (λ condition, bool_decide
    (MAX_RETAINED_PROBE_INVOCATIONS_PER_CONDITION < length (List.filter (λ row : Uuid * Invocation,
      bool_decide (ni_role row.2 = RoleProbe) && bool_decide (ni_condition_id row.2 = Some condition)
      && prunable_probe s retained row.1 row.2) (btree_entries (nv_invocations s))))%nat)
    (dedup (omap ni_condition_id (btree_values (nv_invocations s))))).
  intros l. revert s. induction l as [|c l IH]; intros s; simpl; [done|].
  etrans; [apply sim_prune_condition|apply IH].
Qed.

(** ** Restart *)
Lemma elem_of_interrupted s k c i j : (k, c, i, j) ∈ interrupted s ↔ ∃ a,
  nv_containments s !! k = Some c ∧ nv_invocations s !! nt_invocation_id c = Some i ∧
  nv_attempts s !! ni_attempt_id i = Some a ∧ nv_jobs s !! na_job_id a = Some j ∧ handled (nt_state c).
Proof.
  unfold interrupted. rewrite elem_of_sort_by, list_elem_of_omap. split.
  - intros ([k' c'] & Hk%elem_of_btree_entries & H).
    destruct (nv_invocations s !! nt_invocation_id c') as [i'|] eqn:Hi; [|done]. simpl in H.
    destruct (nv_attempts s !! ni_attempt_id i') as [a|] eqn:Ha; [|done]. simpl in H.
    destruct (nv_jobs s !! na_job_id a) as [j'|] eqn:Hj; [|done]. simpl in H. branch H; [|done]. simplify_eq.
    exists a. by rewrite <-is_open_boundary_spec.
  - intros (a & Hk & Hi & Ha & Hj & Hh%is_open_boundary_spec). exists (k, c). rewrite elem_of_btree_entries.
    split; [done|]. rewrite Hi. simpl. rewrite Ha. simpl. rewrite Hj. simpl. by rewrite Hh.
Qed.

(** No boundary is handled. *)
Definition calm_boundaries s : Prop := ∀ k c, nv_containments s !! k = Some c → ¬ handled (nt_state c).

Lemma calm_idle s a : calm_boundaries s → idle s a.
Proof. intros Hc k (b & inv & (c & Hk & ->)%abs_boundary_inv & _ & _ & _ & Hh). by eapply Hc. Qed.

Lemma sim_interrupt_one now st row st' : interrupt_one now st row = Ok st' →
  sim st.1 st'.1 ∧ ∃ f, st'.1 = upd_containment row.1.1.1 f st.1 ∧ ∀ c, ¬ handled (nt_state (f c)) ∧
    (handled (nt_state c) ∨ f c = c).
Proof.
  destruct st as [s n], row as [[[k c] i] j]. unfold interrupt_one. intros H. result_inv.
  destruct (if decide (nt_state c = CCreating) then _ else _) as [reason detail]. result_inv. simpl. split.
  - apply sim_upd_containment. intros c' _. unfold where_. destruct (is_open_boundary (nt_state c')) eqn:E; [right|by left].
    apply is_open_boundary_spec in E. split_and!; [done..|by right; right].
  - eexists. split; [done|]. intros c'. unfold where_. destruct (is_open_boundary (nt_state c')) eqn:E.
    + apply is_open_boundary_spec in E. split; [by intros [|]|by left].
    + split; [|by right]. rewrite <-is_open_boundary_spec. by rewrite E.
Qed.

Lemma sim_interrupt_all now s s0 n s1 m : life_inv (abs s) → nv_containments s0 = nv_containments s →
  result_foldM (interrupt_one now) (s0, n) (interrupted s) = Ok (s1, m) →
  sim s0 s1 ∧ calm_boundaries s1 ∧ s1 = s0 <| nv_containments := nv_containments s1 |>.
Proof.
  intros Hinv Hc0 H.
  apply (result_foldM_ind (λ dn st, sim s0 st.1 ∧ st.1 = s0 <| nv_containments := nv_containments st.1 |> ∧
    ∀ k c, nv_containments st.1 !! k = Some c → handled (nt_state c) → nv_containments s !! k = Some c ∧
      k ∉ (λ r : Uuid * Containment * Invocation * Job, r.1.1.1) <$> dn)) in H.
  - destruct H as (Hs & He & Hk). split_and!; [done| |done]. intros k c Hc Hh. simpl in *.
    destruct (Hk k c Hc Hh) as [Hsc Hnot]. apply Hnot. apply abs_boundary in Hsc as Hb.
    destruct (li_boundary_invocation _ Hinv _ _ Hb) as [inv Hi]. apply abs_invocation_inv in Hi as Hi'. destruct Hi' as (i & Hi' & ->).
    destruct (li_invocation_attempt _ Hinv _ _ Hi) as [ar Ha]. apply abs_attempt_inv in Ha as Ha'. destruct Ha' as (a & Ha' & ->).
    destruct (li_attempt_job _ Hinv _ _ Ha) as [jr Hj]. apply abs_job_inv in Hj as (j & Hj & ->).
    apply list_elem_of_fmap. exists (k, c, i, j). split; [done|]. apply elem_of_interrupted. by exists a.
  - split_and!; [done|by destruct s0|]. simpl. rewrite Hc0. intros k c Hc _. split; [done|]. by intros ?%elem_of_nil.
  - intros dn row rest st1 st2 _ (Hs & He & Hk) [Hs2 (f & Ef & Hf)]%sim_interrupt_one. split_and!.
    + by etrans.
    + rewrite Ef. rewrite He at 1. by destruct s0.
    + intros k c Hc Hh. rewrite Ef in Hc. simpl in Hc. destruct (decide (k = row.1.1.1)) as [->|Hne].
      * rewrite lookup_alter_eq in Hc. destruct (nv_containments st1.1 !! row.1.1.1) as [c0|]; [|done]. simplify_eq/=.
        by destruct (proj1 (Hf c0)).
      * rewrite lookup_alter_ne in Hc by done. destruct (Hk k c Hc Hh) as [Hsc Hnot]. split; [done|].
        rewrite fmap_app, elem_of_app. intros [?|Hin]; [done|]. apply list_elem_of_singleton in Hin. done.
Qed.

(** Starts that were to be called off. *)
Lemma elem_of_pre_resume s now job attempt invocation reason st :
  (job, attempt, invocation, reason, st) ∈ pre_resume_terminals s now →
  ∃ j a, nv_jobs s !! job = Some j ∧ nj_state j = Active ∧ nj_attempt_id j = Some attempt ∧
    nv_attempts s !! attempt = Some a.
Proof.
  unfold pre_resume_terminals. rewrite list_elem_of_omap. intros (k & _ & H).
  destruct (nv_jobs s !! k) as [j|] eqn:Hj; [|done]. simpl in H. unfold pre_resume_row in H.
  destruct (nj_attempt_id j) as [at_|] eqn:Hat; [|done]. simpl in H.
  destruct (nj_invocation_id j) as [iv|]; [|done]. simpl in H.
  destruct (nv_attempts s !! at_) as [a|] eqn:Ha; [|done]. simpl in H.
  destruct (nv_invocations s !! iv) as [i|]; [|done]. simpl in H.
  destruct (nv_admissions s !! at_) as [m|]; [|done]. simpl in H. branch H; [|done]. simplify_eq. guards. by exists j, a.
Qed.

(** What [finish_pre_resume] writes: the attempt settles if it is underway, the job
    ends if it is active. *)
Lemma finish_pre_resume_spec now s job attempt invocation reason st s' :
  finish_pre_resume now s (job, attempt, invocation, reason, st) = Ok s' → ∃ s0 v why o fj,
  frame s s0 ∧ nv_jobs s0 = nv_jobs s ∧ nv_attempts s0 = nv_attempts s ∧ nv_containments s0 = nv_containments s ∧
  s' = upd_job_state job (λ j, bool_decide (nj_state j = Active)) fj
    (upd_attempt attempt (λ a, where_ (bool_decide (na_state a ∈ [AStarting; ARunning]))
      (λ a, a <| na_state := ASettled |> <| na_verdict := v |> <| na_safety_reason := why |>
            <| na_started_ms := None |> <| na_deadline_ms := None |> <| na_finished_ms := Some now |>) a) s0) ∧
  ∀ j, job_life (fj j) = (job_life j) <| jl_state := Final |> <| jl_outcome := Some o |>.
Proof.
  unfold finish_pre_resume. intros H.
  assert (∃ s1 v o why, conditions_only s s1 ∧ (let s := upd_invocation invocation (λ i, i <| ni_started_ms := None |>) s1 in
    let s := upd_attempt attempt (λ a, where_ (bool_decide (na_state a ∈ [AStarting; ARunning]))
      (λ a, a <| na_state := ASettled |> <| na_verdict := Some v |> <| na_safety_reason := why |>
            <| na_started_ms := None |> <| na_deadline_ms := None |> <| na_finished_ms := Some now |>) a) s in
    let started := first_start s job in
    Ok (upd_job_state job (λ j, bool_decide (nj_state j = Active)) (λ j, j <| nj_state := Final |>
        <| nj_outcome := Some o |> <| nj_reason_code := why |> <| nj_started_ms := started |>
        <| nj_finished_ms := Some now |>) s)) = (Ok s' : result StoreError NativeStore)) as (s1 & v & o & why & Hc & Hs').
  { destruct (first_deadline s job _) as [d|].
    - destruct (deadline_terminal d) as [v o]. simpl in H. exists (fail_conditions job s), v, o. eexists.
      split; [|exact H]. by eexists _, (nv_observations s).
    - lazymatch type of H with (if ?c then _ else _) ≫= _ = _ => destruct c; [|done] end.
      simpl in H. exists s, VCanceled, JCanceled, None. split; [done|exact H]. }
  clear H. simpl in Hs'. injection Hs' as <-. destruct Hc as (cs & os & ->).
  eexists (upd_invocation invocation (λ i, i <| ni_started_ms := None |>)
    (s <| nv_conditions := cs |> <| nv_observations := os |>)), (Some v), why, o, _.
  split_and!; [|reflexivity..|done]. etrans; [|by apply frame_upd_invocation]. done.
Qed.

(** Active jobs were active before and keep their attempt, attempts their job. *)
Definition same_owners s s1 : Prop :=
  (∀ k j1, nv_jobs s1 !! k = Some j1 → nj_state j1 = Active →
     ∃ j, nv_jobs s !! k = Some j ∧ nj_state j = Active ∧ nj_attempt_id j = nj_attempt_id j1) ∧
  (∀ k a1, nv_attempts s1 !! k = Some a1 → ∃ a, nv_attempts s !! k = Some a ∧ na_job_id a = na_job_id a1) ∧
  nv_containments s1 = nv_containments s.
#[local] Instance same_owners_preorder : PreOrder same_owners.
Proof.
  split.
  - intros s. split_and!; eauto.
  - intros s1 s2 s3 (J1 & A1 & C1) (J2 & A2 & C2). split_and!; [| |congruence].
    + intros k j Hk Ha. destruct (J2 k j Hk Ha) as (j2 & Hj2 & Ha2 & <-). eauto.
    + intros k a Hk. destruct (A2 k a Hk) as (a2 & Ha2 & <-). eauto.
Qed.

Lemma same_owners_finish now s row s' : finish_pre_resume now s row = Ok s' → same_owners s s'.
Proof.
  destruct row as [[[[job attempt] invocation] reason] st].
  intros (s0 & v & why & o & fj & _ & Hj0 & Ha0 & Hc0 & -> & Hfj)%finish_pre_resume_spec.
  destruct (upd_job_state_fields job (λ j, bool_decide (nj_state j = Active)) fj
    (upd_attempt attempt (λ a, where_ (bool_decide (na_state a ∈ [AStarting; ARunning]))
      (λ a, a <| na_state := ASettled |> <| na_verdict := v |> <| na_safety_reason := why |>
            <| na_started_ms := None |> <| na_deadline_ms := None |> <| na_finished_ms := Some now |>) a) s0))
    as (Ea & _ & Ec & _ & _ & Ej).
  split_and!.
  - rewrite Ej. simpl. rewrite Hj0. intros k j1 [(_ & j0 & Hj & ->)|[_ Hj]]%lookup_alter_Some Hact; [|by exists j1].
    destruct (bool_decide (nj_state j0 = Active)) eqn:E; [|by exists j0].
    assert (jl_state (job_life (fj j0)) = Final) as HF by by rewrite Hfj. simpl in HF. congruence.
  - rewrite Ea. simpl. rewrite Ha0. intros k a1 [(_ & a0 & Ha & ->)|[_ Ha]]%lookup_alter_Some; [|by exists a1].
    exists a0. split; [done|]. unfold where_. by destruct (bool_decide _).
  - by rewrite Ec.
Qed.

Lemma sim_finish_pre_resume now s job attempt invocation reason st s' : calm_boundaries s →
  (∀ j, nv_jobs s !! job = Some j → nj_state j = Active → nj_attempt_id j = Some attempt) →
  (∀ a, nv_attempts s !! attempt = Some a → na_job_id a = job) →
  finish_pre_resume now s (job, attempt, invocation, reason, st) = Ok s' → sim s s'.
Proof.
  intros Hcalm Hjob Hatt (s0 & v & why & o & fj & Hf0 & Hj0 & Ha0 & _ & -> & Hfj)%finish_pre_resume_spec.
  apply sim_with_inv. intros Hinv. set (fa := λ a, where_ _ _ a).
  destruct (nv_attempts s !! attempt) as [a|] eqn:Ha.
  2: { etrans; [apply sim_frame; exact Hf0|]. apply sim_frame. set (s1 := upd_attempt _ _ s0).
       transitivity s1; [apply frame_upd_attempt; intros a; by rewrite Ha0, Ha|]. apply frame_upd_job_state.
       intros j Hj Hact%bool_decide_eq_true. simpl in Hj. rewrite Hj0 in Hj.
       destruct (li_active _ Hinv job (job_life j)) as (a & ar & Hat & Har & _); [by apply abs_job|done|].
       simpl in Hat. rewrite (Hjob j) in Hat by done. simplify_eq. apply abs_attempt_inv in Har as (a' & Ha' & _). congruence. }
  specialize (Hatt a eq_refl). destruct (decide (na_state a ∈ [AStarting; ARunning])) as [Hu|Hnu].
  - assert (underway (na_state a)) as Hu' by (set_unfold; destruct Hu as [|[|[]]]; [by left|by right]).
    destruct (li_underway _ Hinv attempt (attempt_life a)) as (row & Hrow & Hact & Hat); [by apply abs_attempt|done|].
    simpl in Hrow. rewrite Hatt in Hrow. apply abs_job_inv in Hrow as (j & Hj & ->). simpl in Hact, Hat.
    eapply (sim_settle_rows _ _ s s0 _ job attempt j a j _ _ _ (Some o));
      [right; reflexivity|done|done|done|by rewrite Ha0|by apply calm_idle|done| |simpl; by rewrite Hj0|by rewrite bool_decide_eq_true_2|by rewrite Hfj].
    unfold fa, where_. by rewrite bool_decide_eq_true_2.
  - apply sim_frame. etrans; [exact Hf0|]. set (s1 := upd_attempt _ _ s0). transitivity s1.
    { apply frame_upd_attempt. intros a'. rewrite Ha0, Ha. intros [= <-]. unfold fa, where_. by rewrite bool_decide_eq_false_2. }
    apply frame_upd_job_state. intros j Hj Hact%bool_decide_eq_true. simpl in Hj. rewrite Hj0 in Hj.
    destruct (li_active _ Hinv job (job_life j)) as (a' & ar & Hat & Har & _ & Hu); [by apply abs_job|done|].
    simpl in Hat. rewrite (Hjob j) in Hat by done. simplify_eq. apply abs_attempt_inv in Har as (a2 & Ha2 & ->).
    simplify_eq. destruct Hnu. simpl in Hu. set_unfold. destruct Hu as [-> | ->]; tauto.
Qed.

Lemma sim_finish_pre_resume_all now s s' : life_inv (abs s) → calm_boundaries s →
  result_foldM (finish_pre_resume now) s (pre_resume_terminals s now) = Ok s' → sim s s' ∧ calm_boundaries s'.
Proof.
  intros Hinv Hcalm H. apply (result_foldM_ind (λ _ s1, sim s s1 ∧ same_owners s s1)) in H.
  - destruct H as [Hs (_ & _ & Hc)]. split; [done|]. unfold calm_boundaries. by rewrite Hc.
  - done.
  - intros dn [[[[job attempt] invocation] reason] st] rest s1 s2 Hl [Hs1 Ho1] H2.
    destruct (elem_of_pre_resume s now job attempt invocation reason st) as (j & a & Hj & Hact & Hat & Ha).
    { rewrite Hl. apply elem_of_app. right. by left. }
    split; [|etrans; [exact Ho1|by eapply same_owners_finish]]. etrans; [exact Hs1|].
    destruct Ho1 as (J & A & C). eapply sim_finish_pre_resume; [..|exact H2].
    + unfold calm_boundaries. by rewrite C.
    + intros j1 Hj1 Ha1. destruct (J _ _ Hj1 Ha1) as (j' & Hj' & _ & He). simplify_eq. congruence.
    + intros a1 Ha1. destruct (A _ _ Ha1) as (a' & Ha' & <-). simplify_eq.
      destruct (li_active _ Hinv job (job_life j)) as (a2 & ar & Hat2 & Har & Hjob & _); [by apply abs_job|done|].
      simpl in Hat2. simplify_eq. apply abs_attempt_inv in Har as (a3 & Ha3 & ->). by simplify_eq.
Qed.

(** The loop over the active jobs. *)
Definition recovered_outcome (now : Z) s (j : Job) : JobOutcome :=
  match attempt ← nj_attempt_id j; nv_attempts s !! attempt with
  | Some a => if bool_decide (na_verdict a = Some VStartFailed) && bool_decide (na_finished_ms a = Some now)
              then JFailed else JInterrupted
  | None => JInterrupted end.
Definition finished_job (now : Z) s (j : Job) : Job :=
  if bool_decide (nj_state j = Active)
  then j <| nj_state := Final |> <| nj_outcome := Some (recovered_outcome now s j) |> <| nj_finished_ms := Some now |>
  else j.

Lemma finish_active_jobs_spec now s : let s' := finish_active_jobs now s in
  nv_attempts s' = nv_attempts s ∧ nv_invocations s' = nv_invocations s ∧ nv_containments s' = nv_containments s ∧
  nv_leases s' = nv_leases s ∧ nv_machine s' = nv_machine s ∧ nv_jobs s' = finished_job now s <$> nv_jobs s.
Proof.
  unfold finish_active_jobs. set (F := λ s job, upd_job_state job _ _ s).
  assert (∀ l s0, NoDup l → let s' := foldl F s0 l in
    nv_attempts s' = nv_attempts s0 ∧ nv_invocations s' = nv_invocations s0 ∧ nv_containments s' = nv_containments s0 ∧
    nv_leases s' = nv_leases s0 ∧ nv_machine s' = nv_machine s0 ∧
    ∀ k, nv_jobs s' !! k = if decide (k ∈ l) then finished_job now s0 <$> nv_jobs s0 !! k else nv_jobs s0 !! k) as Hl.
  { induction l as [|x l IH]; intros s0 Hnd; simpl; [by split_and!|]. inversion_clear Hnd as [|? ? Hx Hl].
    destruct (IH (F s0 x) Hl) as (E1 & E2 & E3 & E4 & E5 & E6).
    destruct (upd_job_state_fields x (λ j, bool_decide (nj_state j = Active)) (λ j, j <| nj_state := Final |>
      <| nj_outcome := Some (recovered_outcome now s0 j) |> <| nj_finished_ms := Some now |>) s0) as (D1 & D2 & D3 & D4 & D5 & D6).
    fold (finished_job now s0) in D6. change (upd_job_state x _ _ s0) with (F s0 x) in *.
    split_and!; [congruence..|]. intros k. rewrite E6. unfold finished_job, recovered_outcome. rewrite D1, D6.
    destruct (decide (k = x)) as [->|Hne].
    - rewrite decide_False, decide_True by (done || by left). by rewrite lookup_alter_eq.
    - rewrite lookup_alter_ne by done. destruct (decide (k ∈ l)).
      + by rewrite decide_True by by right.
      + rewrite decide_False; [done|]. by intros [|]%elem_of_cons. }
  destruct (Hl (btree_keys (nv_jobs s)) s) as (E1 & E2 & E3 & E4 & E5 & E6); [apply NoDup_btree_keys|].
  split_and!; [done..|]. apply map_eq. intros k. rewrite E6, lookup_fmap. case_decide as Hk; [done|].
  rewrite elem_of_btree_keys in Hk. destruct (nv_jobs s !! k); [|done]. by destruct Hk.
Qed.

(** The statements between the incidents and the releases are the restart step. *)
Lemma sim_restart now s : calm_boundaries s →
  sim s (finish_active_jobs now (settle_all ARunning VInterrupted now (settle_all AStarting VStartFailed now s))).
Proof.
  intros Hcalm. set (s1 := settle_all ARunning _ _ _).
  destruct (finish_active_jobs_spec now s1) as (E1 & E2 & E3 & E4 & E5 & E6).
  eapply sim_step; [| |intros _; apply (life_restart _ _ _ _ (λ k, from_option (recovered_outcome now s1) JFailed (nv_jobs s !! k)))].
  - unfold abs at 1. rewrite E1, E2, E3, E4, E6. unfold abs. simpl. f_equal.
    + apply map_eq. intros k. rewrite !lookup_fmap, map_lookup_imap, lookup_fmap.
      destruct (nv_jobs s !! k) as [j|] eqn:Hj; simpl; [|done]. f_equal. unfold finished_job.
      destruct (bool_decide (nj_state j = Active)) eqn:E; [|done].
      done.
    + rewrite <-!map_fmap_compose. apply map_fmap_ext. intros k a _. by destruct a as [? [] ? ? ? ? ? ? ? ?].
    + rewrite <-map_fmap_compose. apply map_fmap_ext. intros k c Hk. simpl.
      destruct (is_open_boundary (nt_state c)) eqn:E; [|done]. apply is_open_boundary_spec in E. by destruct (Hcalm k c).
  - unfold remote. by rewrite E5.
Qed.

(** ** The whole recovery *)

(** Nothing is underway. *)
Record calm s : Prop := {
  cm_jobs k j : nv_jobs s !! k = Some j → nj_state j ≠ Active;
  cm_attempts k a : nv_attempts s !! k = Some a → ¬ underway (na_state a);
  cm_boundaries : calm_boundaries s;
}.

(** [s'] has no rows in progress that [s] does not have. *)
Definition calmer s s' : Prop := calm s → calm s'.
#[local] Instance calmer_preorder : PreOrder calmer.
Proof. split; [by intros s Hs|]. intros s1 s2 s3 H1 H2 H. auto. Qed.

Lemma calmer_frame s s' : frame s s' → calmer s s'.
Proof.
  intros [Ha _] [HJ HA HC]. split.
  - intros k j Hj%abs_job. rewrite Ha in Hj. apply abs_job_inv in Hj as (j' & Hj' & E). injection E as E _ _.
    rewrite E. eauto.
  - intros k a Hk%abs_attempt. rewrite Ha in Hk. apply abs_attempt_inv in Hk as (a' & Ha' & E). injection E as _ E.
    rewrite E. eauto.
  - intros k c Hk%abs_boundary. rewrite Ha in Hk. apply abs_boundary_inv in Hk as (c' & Hc' & E). injection E as _ E.
    rewrite E. eauto.
Qed.
Lemma calmer_leases s L : calmer s (s <| nv_leases := L |>).
Proof. by intros [HJ HA HC]. Qed.

Lemma calmer_finalize s job outcome reason now :
  calmer s (finalize_pending_condition_terminal_tx s job outcome reason now).
Proof.
  intros Hs. unfold finalize_pending_condition_terminal_tx. set (s1 := upd_conditions_of _ _ s).
  assert (calm s1) as H1 by (by apply (calmer_frame s)). clearbody s1. clear Hs s.
  set (s2 := match nv_jobs s1 !! job with Some _ => _ | None => _ end).
  assert (calm s2) as [HJ HA HC].
  { subst s2. destruct (nv_jobs s1 !! job) as [[? ? ? ? ? ? ? [at_|] ? ? ? ? ? ? ? ? ? ? ? ? ? ?]|]; [|done..].
    destruct H1 as [HJ HA HC]. split; simpl; [done| |done].
    intros k a [(_ & a0 & Ha & ->)|[_ Ha]]%lookup_alter_Some; [|eauto].
    unfold where_. destruct (_ || _); [by intros [|]|eauto]. }
  clearbody s2. clear H1 s1. match goal with |- calm (upd_job_state ?k ?g ?f ?t) =>
    destruct (upd_job_state_fields k g f t) as (E1 & _ & E3 & _ & _ & E6) end.
  split; [|by rewrite E1|unfold calm_boundaries; by rewrite E3].
  rewrite E6. intros k j [(_ & j0 & Hj & ->)|[_ Hj]]%lookup_alter_Some; [|eauto]. case_bool_decide; [done|eauto].
Qed.

Lemma calmer_finalize_if_ready s job now s' b :
  finalize_pending_condition_terminal_if_ready_tx s job now = Ok (s', b) → calmer s s'.
Proof.
  unfold finalize_pending_condition_terminal_if_ready_tx. intros H. result_inv. branch H; [by simplify_eq|].
  destruct (first_deadline _ _ _); [simplify_eq; apply calmer_finalize|].
  branch H; simplify_eq; [apply calmer_finalize|done].
Qed.
Lemma calmer_expire s job now s' o : expire_condition_deadline_tx s job now = Ok (s', o) → calmer s s'.
Proof.
  unfold expire_condition_deadline_tx. destruct (first_deadline _ _ _); [|by intros [= <- _]].
  intros H. result_inv. destruct a as [s1 b]. result_inv. simplify_eq.
  etrans; [|by eapply calmer_finalize_if_ready]. by apply calmer_frame.
Qed.

Lemma calmer_foldM {A} (f : NativeStore → A → result StoreError NativeStore) s l s' :
  (∀ x s1 s2, f s1 x = Ok s2 → calmer s1 s2) → result_foldM f s l = Ok s' → calmer s s'.
Proof.
  intros Hf. revert s. induction l as [|x l IH]; simpl; intros s H; result_inv; [done|].
  etrans; [by eapply Hf|by apply IH].
Qed.

Lemma calmer_repair d s now mono oid s' b : repair_resolved_empty_probes_tx d s now mono oid = Ok (s', b) → calmer s s'.
Proof.
  unfold repair_resolved_empty_probes_tx. intros H. result_inv. simplify_eq. eapply calmer_foldM; [|done].
  intros [[[[key c] invocation] i] j] s1 s2 H2. unfold repair_one_tx in H2.
  destruct (cond_predicate (nc_spec c)); result_inv. destruct a0 as [s5 b']. result_inv.
  etrans; [|by eapply calmer_finalize_if_ready]. match goal with H : insert_observation _ _ = Ok _ |- _ =>
    apply conditions_only_observation in H as Hc3 end.
  etrans; [|apply calmer_leases]. etrans; [|etrans; [apply calmer_frame, frame_conditions; exact Hc3|
    apply calmer_frame, frame_upd_condition]]. by apply calmer_frame, frame_upd_invocation.
Qed.

Lemma calmer_expire_due s now s' b : expire_due_condition_deadlines_tx s now = Ok (s', b) → calmer s s'.
Proof.
  unfold expire_due_condition_deadlines_tx. intros H. result_inv. simplify_eq. eapply calmer_foldM; [|done].
  intros x s1 s2 Hx. simpl in Hx. result_inv. destruct a as [s3 o]. result_inv. by eapply calmer_expire.
Qed.
Lemma calmer_finalize_recovered s now s' b : finalize_recovered_condition_terminals_tx s now = Ok (s', b) → calmer s s'.
Proof.
  unfold finalize_recovered_condition_terminals_tx. generalize (jobs_where s (λ job j, bool_decide (nj_state j = Pending)
      && (nj_cancel_requested j
          || existsb (λ row, bool_decide (nc_state row.2 = CondFailed) && bool_decide (is_Some (nc_deadline_ms row.2)))
               (conditions_of s job)))). intros l. generalize false. revert s.
  induction l as [|x l IH]; simpl; intros s b0 H; result_inv; [by simplify_eq|]. destruct a0 as [s3 c]. result_inv.
  etrans; [by eapply calmer_finalize_if_ready|by eapply IH].
Qed.

Lemma calmer_prune retained s : calmer s (prune_condition_history retained s).
Proof.
  assert (∀ l s, calmer s (foldl delete_probe s l)) as Hdel.
  { induction l as [|i l IH]; intros s0; simpl; [done|]. etrans; [|apply IH]. intros [HJ HA HC].
    split; simpl; [done..|]. intros k c [H _]%map_lookup_filter_Some. eauto. }
  unfold prune_condition_history. generalize (List.filter (λ condition, bool_decide
    (MAX_RETAINED_PROBE_INVOCATIONS_PER_CONDITION < length (List.filter (λ row : Uuid * Invocation,
      bool_decide (ni_role row.2 = RoleProbe) && bool_decide (ni_condition_id row.2 = Some condition)
      && prunable_probe s retained row.1 row.2) (btree_entries (nv_invocations s))))%nat)
    (dedup (omap ni_condition_id (btree_values (nv_invocations s))))).
  intros l. revert s. induction l as [|c l IH]; intros s; simpl; [done|]. etrans; [apply Hdel|apply IH].
Qed.

Lemma restart_calm now s : calm_boundaries s →
  calm (finish_active_jobs now (settle_all ARunning VInterrupted now (settle_all AStarting VStartFailed now s))).
Proof.
  intros Hcalm. set (s1 := settle_all ARunning _ _ _).
  destruct (finish_active_jobs_spec now s1) as (E1 & _ & E3 & _ & _ & E6). split.
  - rewrite E6. intros k j (j0 & <- & Hj)%lookup_fmap_Some. unfold finished_job. by case_bool_decide.
  - rewrite E1. simpl. rewrite <-map_fmap_compose. intros k a (a0 & <- & Ha)%lookup_fmap_Some.
    destruct a0 as [? [] ? ? ? ? ? ? ? ?]; by intros [|].
  - unfold calm_boundaries. by rewrite E3.
Qed.

Lemma recover_interrupted_spec d s now mono oid retained s' : life_inv (abs s) →
  recover_interrupted d s now mono oid retained = Ok s' → sim s s' ∧ calm s'.
Proof.
  intros Hinv. unfold recover_interrupted. intros H. set (s0 := s <| nv_invocations ::= _ |>) in H.
  assert (frame s s0) as Hf0.
  { split; [|done]. unfold abs. simpl. rewrite <-map_fmap_compose. f_equal. apply map_fmap_ext.
    intros k i _. by apply where_frame. }
  result_inv. destruct a as [s1 m]. apply sim_interrupt_all in Hstep as (Hs1 & Hc1 & _); [|done..]. result_inv.
  assert (life_inv (abs s1)) as Hinv1 by (eapply sim_inv; [exact Hs1|by rewrite (fr_abs _ _ Hf0)]).
  apply sim_finish_pre_resume_all in Hstep as [Hs2 Hc2]; [|done..]. result_inv.
  destruct a0 as [s4 b4]. result_inv. destruct a0 as [s5 b5]. result_inv. destruct a0 as [s6 b6]. result_inv.
  match goal with H : repair_resolved_empty_probes_tx _ (release_all_safe_attempt_leases ?t) _ _ _ = _ |- _ =>
    set (s3 := t) in * end. split.
  - etrans; [apply sim_frame; exact Hf0|]. etrans; [exact Hs1|]. etrans; [exact Hs2|]. transitivity s3; [by apply sim_restart|].
    etrans; [apply sim_release_all_safe|]. etrans; [by eapply sim_repair|]. etrans; [by eapply sim_expire_due_tx|].
    etrans; [by eapply sim_finalize_recovered|]. apply sim_prune.
  - apply calmer_prune. eapply calmer_finalize_recovered; [done|]. eapply calmer_expire_due; [done|].
    eapply calmer_repair; [done|]. apply calmer_leases. by apply restart_calm.
Qed.
End recovery.
