(* ===== verification/ScheduleRefinement.v ===== *)
(** * ScheduleRefinement: admission and start refine the life of a job

    A preparation that commits is a sequence of steps of [Life.v]; when it starts a
    probe or a primary, the claims it leases fit beside everything that is held. *)
From S2P Require Import Prelude Spec Validate Kernel Scoped ScopedFacts Observation Machine MachineStore.
From S2P Require Import MachineFacts ExchangeFacts Reservation ReservationFacts MachineOffer OfferFacts.
From S2P Require Import Native ConditionStore ProcessRecords Lifecycle Schedule Release NativeRecovery Life LifeFacts.
From S2P Require Import Refinement LifecycleRefinement ReleaseRefinement.

(** ** Claims that fit *)
Lemma native_debits_held s : native_debits s ≡ₚ held (abs s).
Proof.
  unfold native_debits, held, btree_values. simpl. rewrite <-btree_entries_Permutation.
  induction (btree_entries (nv_leases s)) as [|[k l] ls IH]; [done|]. simpl. destruct (decide _); [by rewrite IH|done].
Qed.

Lemma admissible_Permutation caps rules claims l k : l ≡ₚ k →
  admissible caps rules claims l → admissible caps rules claims k.
Proof.
  intros Hp [Hf Hc]. split; [|by rewrite <-Hp]. intros key amount Hk Ha. destruct (Hf key amount Hk Ha) as [H1 H2].
  assert (total_debit key (map scalar_entries k) = total_debit key (map scalar_entries l)) as ->; [|done].
  apply total_debit_Permutation. by rewrite Hp.
Qed.

Lemma admissible_active caps rules claims s : 
  admissible caps rules claims (active_claims_tx s) → admissible caps rules claims (held (abs s) ++ remote s).
Proof. apply admissible_Permutation. unfold active_claims_tx. by rewrite native_debits_held. Qed.

(** The report of the probes: nothing blocks them beside leases, grants and reservations. *)
Lemma blockers_admissible uts caps rules claims active reserved :
  blockers uts claims caps (active ++ reserved) rules = Some [] → admissible caps rules claims active.
Proof.
  intros Hb%legacy_blockers_flat. symmetry in Hb. apply sort_blockers_nil, app_nil in Hb as [Hs Hn].
  unfold scalar_blockers in Hs. apply scalar_vector_blockers_nil in Hs. rewrite map_app in Hs.
  apply non_scalar_blockers_nil, Forall_app in Hn as [Hn _]. split; [by eapply vector_fits_app_l|done].
Qed.

(** What a disposition changes: nothing of the coordinator; a grant fits. *)
Lemma scalar_disposition_spec s id c job claims active now v d :
  scalar_disposition_tx s id c job claims active now = Ok (v, d) → so_machine v = so_machine s ∧
  (d = DGrant → vector_fits (scalar_entries claims) (legacy_capacities c) (map scalar_entries active)).
Proof.
  intros Hrun. unfold scalar_disposition_tx in Hrun. result_inv.
  destruct (local_reservation_decision _ _ _ _ _ _ _ _) eqn:E in Hrun; unfold local_reservation_decision in E.
  - match type of E with reservation_decision ?i = _ => pose proof (reservation_decision_reading i) as Hd end.
    rewrite E in Hd. case_bool_decide; simplify_eq; (split; [done|]); intros _; apply Hd.
  - by simplify_eq.
  - result_inv. by simplify_eq.
  - by simplify_eq.
  - simpl in Hrun. case_bool_decide; by simplify_eq.
Qed.

Section schedule.
Context (caps : ResourceCapacities) (rules : gmap string (list string)).
Implicit Types (s : NativeStore) (lf : Life).
Notation sim := (sim caps rules).

(** ** Reservations are outside the abstraction *)
Lemma frame_write_back s v : so_machine v = so_machine (view s) → frame s (write_back v s).
Proof.
  intros Hm. split.
  - unfold abs, write_back. simpl. f_equal. apply map_eq. intros k. rewrite !lookup_fmap, map_lookup_imap.
    destruct (nv_jobs s !! k) as [j|]; simpl; [|done]. by destruct (so_jobs v !! k).
  - unfold remote, write_back. simpl. by rewrite Hm.
Qed.

Lemma frame_native_disposition d s job input claims active s' disp :
  native_disposition d s job input claims active = Ok (s', disp) → frame s s' ∧
  nv_attempts s' = nv_attempts s ∧
  (disp = DGrant → vector_fits (scalar_entries claims) (legacy_capacities (host_resources (dm_config d)))
                     (map scalar_entries active)).
Proof.
  unfold native_disposition. intros H. result_inv. destruct a as [v disp']. result_inv. simplify_eq.
  apply scalar_disposition_spec in Hstep as [Hm Hd]. split_and!; [by apply frame_write_back|done|done].
Qed.

(** ** Starting *)
Lemma insert_lease_spec k l s s' : insert_lease k l s = Ok s' →
  nv_leases s !! k = None ∧ s' = s <| nv_leases ::= <[k := l]> |>.
Proof.
  unfold insert_lease. intros H. result_inv. guards. split; [|done]. by apply eq_None_not_Some.
Qed.

Lemma insert_planned_attempt_spec at_ job now s s' : insert_planned_attempt at_ job now s = Ok s' →
  nv_attempts s !! at_ = None ∧ ∃ row, s' = s <| nv_attempts ::= <[at_ := row]> |> ∧
    attempt_life row = {| al_job := job; al_state := APlanned |}.
Proof.
  unfold insert_planned_attempt, insert_attempt. intros H. result_inv. guards.
  split; [by apply eq_None_not_Some|]. by eexists.
Qed.

Definition work_lease (at_ : Uuid) (claims : ResolvedClaims) : Lease :=
  {| nl_attempt_id := at_; nl_invocation_id := None; nl_state := LGranted; nl_claims := claims |}.

Lemma insert_primary_spec d at_ ids claims s s' : insert_primary d at_ ids claims s = Ok s' →
  abs s' = (prepare at_ (fi_invocation ids) (fi_containment ids) RolePrimary (abs s))
             <| lf_leases ::= <[fi_lease ids := work_lease at_ claims]> |> ∧
  is_prepared (abs s) (fi_invocation ids) (fi_containment ids) ∧ nv_leases s !! fi_lease ids = None ∧
  remote s' = remote s.
Proof.
  unfold insert_primary. intros H. result_inv. apply insert_prepared_spec in Hstep as (Ha & Hp & _ & Hr & _ & _ & Hl & _).
  apply insert_lease_spec in H as [Hn ->]. rewrite Hl in Hn. split_and!; [|done..].
  unfold abs at 1. simpl. rewrite Hl. change (nv_leases s) with (lf_leases (abs s)).
  unfold abs in Ha at 1. injection Ha as E1 E2 E3 E4 E5. by rewrite E1, E2, E3, E4.
Qed.

(** The primary of a pending job starts: [s0] are the tables the claims were checked
    against, [s1] those with the job active and the attempt starting. *)
Lemma sim_start d s s1 s' job at_ ids claims row arow :
  lf_jobs (abs s) !! job = Some row → jl_state row = Pending → jl_attempt row = Some at_ →
  lf_attempts (abs s) !! at_ = Some arow → waiting (al_state arow) →
  abs s1 = (abs s) <| lf_jobs ::= <[job := row <| jl_state := Active |>]> |>
                   <| lf_attempts ::= <[at_ := arow <| al_state := AStarting |>]> |> →
  remote s1 = remote s → admissible caps rules claims (active_claims_tx s) →
  insert_primary d at_ ids claims s1 = Ok s' → sim s s'.
Proof.
  intros Hj Hp Hat Ha Hw H1 Hr1 Hadm (Habs & Hprep & Hl & Hr)%insert_primary_spec.
  assert (lf_leases (abs s1) !! fi_lease ids = None) as Hl' by exact Hl.
  eapply sim_step; [by rewrite Habs, H1|congruence|]. intros _. rewrite H1 in Hprep, Hl'.
  by apply (life_start _ _ _ (abs s) job row at_ arow _ _ (fi_lease ids) claims), admissible_active.
Qed.

(** The same with the attempt planned by the very transaction. *)
Lemma sim_start_fresh d s s1 s' job at_ ids claims row arow :
  lf_jobs (abs s) !! job = Some row → jl_state row = Pending → jl_attempt row = None →
  lf_attempts (abs s) !! at_ = None → arow = {| al_job := job; al_state := APlanned |} →
  abs s1 = (abs s) <| lf_jobs ::= <[job := row <| jl_attempt := Some at_ |> <| jl_state := Active |>]> |>
                   <| lf_attempts ::= <[at_ := arow <| al_state := AStarting |>]> |> →
  remote s1 = remote s → admissible caps rules claims (active_claims_tx s) →
  insert_primary d at_ ids claims s1 = Ok s' → sim s s'.
Proof.
  intros Hj Hp Hat Ha -> H1 Hr1 Hadm (Habs & Hprep & Hl & Hr)%insert_primary_spec _. split; [|congruence].
  assert (lf_leases (abs s1) !! fi_lease ids = None) as Hl' by exact Hl. rewrite H1 in Hprep, Hl'.
  eapply rtc_l; [by apply (life_plan _ _ _ (abs s) job row at_)|]. apply rtc_once.
  set (lf := (abs s) <| lf_attempts ::= _ |> <| lf_jobs ::= _ |>).
  pose proof (life_start caps rules (remote s) lf job (row <| jl_attempt := Some at_ |>) at_
    {| al_job := job; al_state := APlanned |} (fi_invocation ids) (fi_containment ids) (fi_lease ids) claims) as Hstep.
  rewrite Habs, H1. subst lf. simpl in *. rewrite !lookup_insert_eq, !insert_insert_eq in Hstep. apply Hstep; [done..|by left|done|done|]. by apply admissible_active.
Qed.

(** ** Ends of pending jobs *)
Lemma sim_finish_skipped s job j g f o (settle : bool) fa :
  nv_jobs s !! job = Some j → nj_state j = Pending → g j = true →
  job_life (f j) = (job_life j) <| jl_state := Final |> <| jl_outcome := Some o |> →
  (∀ a, waiting (na_state a) → attempt_life (fa a) = (attempt_life a) <| al_state := ASettled |>) →
  sim s (upd_job_state job g f (match nj_attempt_id j with
    | Some at_ => if settle then upd_attempt at_ fa s else s | None => s end)).
Proof.
  intros Hj Hp Hg Hf Hfa. apply sim_with_inv. intros Hinv. set (s1 := match nj_attempt_id j with Some _ => _ | None => _ end).
  assert (abs s1 = (abs s) <| lf_attempts ::= match nj_attempt_id j with
      | Some a => if settle then alter (λ r, r <| al_state := ASettled |>) a else id | None => id end |> ∧
    nv_jobs s1 = nv_jobs s ∧ remote s1 = remote s) as (Habs & Hjobs & Hr).
  { subst s1. destruct (nj_attempt_id j) as [a|] eqn:Hat; [|done]. destruct settle; [|done]. split_and!; [|done..].
    destruct (li_pending _ Hinv job (job_life j) a) as (ar & Har & _ & Hw); [by apply abs_job|done|done|].
    pose proof Har as (row & Hrow & ->)%abs_attempt_inv. rewrite (abs_upd_attempt _ _ _ _ Hrow), Hfa by done.
    simpl in *. by rewrite (alter_insert_some _ _ _ _ Har). }
  eapply sim_step; [by rewrite (abs_upd_job_state _ _ _ _ j), Hf, Habs by (done || by rewrite Hjobs)|by rewrite remote_upd_job_state|].
  intros _. apply (life_finish _ _ _ (abs s) job (job_life j) o settle); [by apply abs_job|done].
Qed.

(** The admission of an attempt is settled: another attempt, or the end. *)
Lemma sim_settle_admission s spec job attempt reason now j s' :
  nv_jobs s !! job = Some j → nj_state j = Pending → nj_attempt_id j = Some attempt →
  settle_admission s spec job attempt reason now = Ok s' → sim s s'.
Proof.
  intros Hj Hp Hat. unfold settle_admission. intros H. result_inv. rename a into row.
  unfold get_attempt in Hstep. destruct (nv_attempts s !! attempt) as [row'|] eqn:Ha; simplify_eq/=.
  branch H; result_inv.
  - etrans; [|apply sim_frame, frame_conditions, conditions_only_reset]. set (s1 := upd_attempt _ _ s).
    eapply sim_step; [|done|intros _; apply (life_abandon _ _ _ (abs s) job (job_life j) attempt); [by apply abs_job|done..]].
    unfold abs. simpl. rewrite (fmap_alter_at _ _ _ _ _ Ha), (fmap_alter_at _ _ _ _ _ Hj).
    unfold where_. rewrite bool_decide_eq_true_2 by done.
    rewrite (alter_insert_some (attempt_life <$> nv_attempts s) _ attempt (attempt_life row)) by by rewrite lookup_fmap, Ha.
    done.
  - set (fa := λ a : Attempt, _). pose proof (sim_finish_skipped s job j (λ j, bool_decide (nj_state j = Pending))
      (λ j, j <| nj_state := Final |> <| nj_outcome := Some JFailed |> <| nj_finished_ms := Some now |>
              <| nj_retry_not_before_ms := None |>) JFailed true fa) as Hsim. rewrite Hat in Hsim.
    apply Hsim; [done|done|by apply bool_decide_eq_true_2|done|done].
Qed.

(** ** The transaction that prepares a job *)
Lemma frame_active s s' : frame s s' → active_claims_tx s' = active_claims_tx s.
Proof.
  intros [Ha Hr]. unfold active_claims_tx, native_debits. unfold remote in Hr. rewrite Hr.
  assert (nv_leases s' = nv_leases s) as -> by exact (f_equal lf_leases Ha). done.
Qed.

Lemma frame_ensure_admitting_row at_ now limit s : frame s (ensure_admitting_row at_ now limit s).
Proof. unfold ensure_admitting_row. by destruct (nv_admissions s !! at_). Qed.
Lemma ensure_admitting_row_rows at_ now limit s : let s' := ensure_admitting_row at_ now limit s in
  nv_attempts s' = nv_attempts s ∧ nv_jobs s' = nv_jobs s.
Proof. unfold ensure_admitting_row. by destruct (nv_admissions s !! at_). Qed.

(** The job becomes active with the attempt it has, or with the one just planned. *)
Lemma sim_activate d s s4 s6 s8 job j attempt ids claims now started deadline :
  nv_jobs s !! job = Some j → nj_state j = Pending →
  match nj_attempt_id j with
  | Some key => a ← get_attempt s key;
      _ ← guard_err (negb (bool_decide (na_state a ∈ [APlanned; AAdmitting])))
            (EInvalidState "primary preparation requires planned/admitting Attempt");
      Ok (s, key)
  | None => s4 ← insert_planned_attempt (fi_attempt ids) job now s; Ok (s4, fi_attempt ids)
  end = Ok (s4, attempt) →
  frame (upd_job_state job (λ j, bool_decide (nj_state j = Pending)) (activate attempt ids) s4) s6 →
  nv_attempts s6 = nv_attempts s4 → admissible caps rules claims (active_claims_tx s) →
  insert_primary d attempt ids claims (upd_attempt attempt (set_starting [APlanned; AAdmitting] started deadline) s6)
    = Ok s8 → sim s s8.
Proof.
  intros Hj Hp Hat Hf6 Ha6 Hadm Hins. destruct (nj_attempt_id j) as [key|] eqn:Hkey; result_inv.
  - simplify_eq. guards. unfold get_attempt in Hstep. destruct (nv_attempts s4 !! attempt) as [row|] eqn:Ha; simplify_eq/=.
    rename a into row. assert (waiting (na_state row)) as Hw.
    { match goal with H : na_state row ∈ _ |- _ => rewrite elem_of_cons, list_elem_of_singleton in H; exact H end. }
    eapply (sim_start d s4 _ s8 job attempt ids claims (job_life j) (attempt_life row)); [..|exact Hins];
      [by apply abs_job|done|done|by apply abs_attempt|done| | |done].
    + rewrite (abs_upd_attempt _ _ _ row), (fr_abs _ _ Hf6), (abs_upd_job_state _ _ _ _ j) by
        (done || (by rewrite Ha6) || by apply bool_decide_eq_true_2).
      unfold set_starting, where_. rewrite bool_decide_eq_true_2 by (rewrite elem_of_cons, list_elem_of_singleton; exact Hw).
      unfold activate, job_life. simpl. by rewrite Hkey.
    + etrans; [exact (fr_machine _ _ Hf6)|by rewrite remote_upd_job_state].
  - simplify_eq. apply insert_planned_attempt_spec in Hstep as (Hnone & row & -> & Hrow).
    eapply (sim_start_fresh d s _ s8 job (fi_attempt ids) ids claims (job_life j)); [..|exact Hins];
      [by apply abs_job|done|done|simpl; by rewrite lookup_fmap, Hnone|done| | |done].
    + rewrite (abs_upd_attempt _ _ _ row), (fr_abs _ _ Hf6), (abs_upd_job_state _ _ _ _ j) by
        (done || (rewrite Ha6; apply lookup_insert_eq) || by apply bool_decide_eq_true_2).
      assert (attempt_life (set_starting [APlanned; AAdmitting] started deadline row) =
        {| al_job := job; al_state := AStarting |}) as ->.
      { unfold attempt_life in Hrow. injection Hrow as Hr1 Hr2. unfold set_starting, where_. by rewrite Hr2, <-Hr1. }
      rewrite Hrow. unfold abs. simpl. by rewrite fmap_insert, insert_insert_eq.
    + etrans; [exact (fr_machine _ _ Hf6)|by rewrite remote_upd_job_state].
Qed.

Lemma ready_row_spec s job now j : ready_row s job now = Some j → nv_jobs s !! job = Some j ∧ nj_state j = Pending.
Proof.
  unfold ready_row. destruct (nv_jobs s !! job) as [j'|]; [|done]. simpl. intros H. branch H; [|done]. simplify_eq.
  by guards.
Qed.

Lemma sim_yield_reservation s job s' (r : Preparation) : yield_reservation s job = Commit s' r → frame s s'.
Proof. unfold yield_reservation. destruct (release_reservation job s) as [s1 b] eqn:E. unfold release_reservation in E.
  simplify_eq. case_bool_decide; by intros [= <- _]. Qed.

End schedule.

(** ** The transactions of a daemon *)
Section transactions.
Context (uuid_to_string : Uuid → string) (condition_json : ConditionSpec → string)
  (resolve_fences : list string → result StoreError (gset string)) (d : Daemon).
Implicit Types (s : NativeStore).
Let caps := host_resources (dm_config d).
Let rules := host_impact_incompatibilities (dm_config d).
Notation sim := (sim caps rules).

Lemma sim_prepare_tx s job input s' r :
  prepare_tx condition_json d s job input = Ok (Commit s' r) → sim s s'.
Proof.
  unfold prepare_tx. destruct (ready_row s job (pi_now input)) as [j|] eqn:Hready; [|done].
  apply ready_row_spec in Hready as [Hj Hp]. intros H. result_inv. destruct a as [s0 expired].
  branch H; [simplify_eq; by eapply sim_expire|].
  destruct expired; [done|]. apply expire_none in Hstep as ->.
  destruct (dependency_blockers_tx s job) as [deps impossible]. branch H.
  { simplify_eq. pose proof (sim_finish_skipped caps rules s job j (λ j, bool_decide (nj_state j = Pending))
      (λ j, j <| nj_state := Final |> <| nj_outcome := Some JSkipped |> <| nj_finished_ms := Some (pi_skip_now input) |>)
      JSkipped false (λ a, a <| na_state := ASettled |>)) as Hsim.
    destruct (nj_attempt_id j); apply Hsim; done || by apply bool_decide_eq_true_2. }
  branch H; [injection H as H; by apply sim_frame, (sim_yield_reservation s job s' r)|].
  result_inv. destruct a as [s1 refresh]. apply (sim_refresh caps rules) in Hstep as [Hs1 Hc1].
  branch H; [by simplify_eq|]. specialize (Hc1 eq_refl). branch H.
  { destruct (release_reservation job s1) as [s2 released] eqn:E. unfold release_reservation in E. simplify_eq.
    etrans; [exact Hs1|]. branch H; by simplify_eq. }
  branch H; [injection H as H; etrans; [exact Hs1|by apply sim_frame, (sim_yield_reservation s1 job s' r)]|].
  result_inv. destruct a as [s2 final]. apply (sim_refresh caps rules) in Hstep as [Hs2 Hc2].
  branch H; [simplify_eq; etrans; [exact Hs1|]; etrans; [exact Hs2|]; apply sim_frame, frame_release_reservation|].
  guards. match goal with H : cf_deadline_expired final = false |- _ => specialize (Hc2 H) end.
  result_inv. destruct a as [s3 disp]. apply frame_native_disposition in Hstep as (Hf3 & Ha3 & Hfit).
  assert (sim s s3) as Hs3 by (etrans; [exact Hs1|]; etrans; [exact Hs2|by apply sim_frame]).
  destruct disp; simplify_eq; [|done..]. specialize (Hfit eq_refl). result_inv.
  destruct a0 as [s4 attempt]. result_inv. simplify_eq. etrans; [exact Hs3|].
  assert (frame s s3) as Hf by (etrans; [by apply frame_conditions|]; etrans; [by apply frame_conditions|exact Hf3]).
  destruct (frame_job _ _ _ _ Hf Hj) as (j3 & Hj3 & Hl3). injection Hl3 as E1 E2 E3. rewrite <-E2 in Hstep2.
  eapply sim_activate; [exact Hj3|congruence|exact Hstep2| | | |eassumption].
  - apply frame_if; [apply frame_ensure_admitting_row|done].
  - lazymatch goal with |- context [if ?c then _ else _] => destruct c end;
      [rewrite (proj1 (ensure_admitting_row_rows _ _ _ _))|]; apply upd_job_state_fields.
  - split; [by rewrite (frame_active _ _ Hf), <-(frame_active _ _ (frame_conditions _ _ Hc1))|].
    rewrite (frame_active _ _ Hf), <-(frame_active _ _ (frame_conditions _ _ Hc1)). by apply non_scalar_blockers_nil.
Qed.

(** ** Probes *)
Definition probe_lease (at_ i : Uuid) (claims : ResolvedClaims) : Lease :=
  {| nl_attempt_id := at_; nl_invocation_id := Some i; nl_state := LGranted; nl_claims := claims |}.

Lemma sim_start_probe s s1 s2 job at_ ids condition claims row arow :
  lf_jobs (abs s) !! job = Some row → jl_state row = Pending → jl_attempt row = Some at_ →
  lf_attempts (abs s) !! at_ = Some arow → admissible caps rules claims (active_claims_tx s) →
  insert_prepared d at_ (fi_invocation ids) (fi_containment ids) RoleProbe None (Some condition) s = Ok s1 →
  insert_lease (fi_lease ids) (probe_lease at_ (fi_invocation ids) claims) s1 = Ok s2 → sim s s2.
Proof.
  intros Hj Hp Hat Ha Hadm (Habs & Hprep & _ & Hr & _ & _ & Hl & _)%insert_prepared_spec [Hn ->]%insert_lease_spec.
  rewrite Hl in Hn. eapply sim_step; [|done|intros _; by apply (life_probe _ _ _ (abs s) job row at_ arow
    (fi_invocation ids) (fi_containment ids) (fi_lease ids) claims), admissible_active].
  unfold abs at 1. simpl. rewrite Hl. change (nv_leases s) with (lf_leases (abs s)).
  unfold abs in Habs at 1. injection Habs as E1 E2 E3 E4 E5. by rewrite E1, E2, E3, E4.
Qed.

Lemma probe_admissible_spec s spec claims observation now :
  probe_admissible uuid_to_string d s spec claims observation now = Ok true →
  admissible caps rules claims (active_claims_tx s).
Proof.
  unfold probe_admissible. destruct (blockers _ _ _ _ _) as [l|] eqn:Hb; [|done]. simpl. intros H.
  branch H; [done|]. guards. subst l. by eapply blockers_admissible.
Qed.

Lemma due_probe_spec s job now k c : due_probe s job now = Some (k, c) →
  ∃ j, nv_jobs s !! job = Some j ∧ nj_state j = Pending.
Proof.
  unfold due_probe. intros H. assert ((k, c) ∈ List.filter (λ row : Uuid * Condition,
    let c := row.2 in bool_decide (nc_state c = CondWaiting)
    && match nc_next_probe_ms c with Some at_ => bool_decide (at_ ≤ now)%Z | None => false end
    && is_none (nc_probe_invocation_id c)
    && match nc_deadline_ms c with Some deadline => bool_decide (now < deadline)%Z | None => true end
    && match nv_jobs s !! job with
       | Some j => bool_decide (nj_state j = Pending) && negb (nj_cancel_requested j) | None => false end)
    (conditions_of s job)) as Hin by (apply head_Some_elem_of; exact H).
  apply list_elem_of_In, filter_In in Hin as [_ Hc]. apply andb_true_iff in Hc as [_ Hc].
  destruct (nv_jobs s !! job) as [j|]; [|done]. guards. by exists j.
Qed.

Lemma sim_prepare_due_probe s job original observation ids now s' p :
  prepare_due_probe uuid_to_string resolve_fences d s job original observation ids now = Ok (s', p) → sim s s'.
Proof.
  unfold prepare_due_probe. intros H. branch H; [by simplify_eq|].
  destruct (due_probe s job now) as [[condition c]|] eqn:Hdue; [|by simplify_eq].
  apply due_probe_spec in Hdue as (j & Hj & Hp). destruct (cond_predicate (nc_spec c)); result_inv.
  rename a into claims, a0 into adm. branch H; [by simplify_eq|]. guards. subst adm.
  apply probe_admissible_spec in Hstep0. unfold planned_attempt, get_job in H. rewrite Hj in H. simpl in H.
  destruct (nj_attempt_id j) as [key|] eqn:Hat; simpl in H.
  - unfold get_attempt in H. destruct (nv_attempts s !! key) as [row|] eqn:Ha; [|done]. simpl in H. result_inv.
    simplify_eq. etrans; [|apply sim_frame, frame_upd_condition].
    eapply (sim_start_probe s); [by apply abs_job|done|done|by apply abs_attempt|exact Hstep0|eassumption..].
  - result_inv. match goal with H : insert_planned_attempt _ _ _ _ = Ok _ |- _ =>
      apply insert_planned_attempt_spec in H as (Hnone & row & -> & Hrow) end. simplify_eq.
    etrans; [|apply sim_frame, frame_upd_condition]. set (s1 := set_job_attempt _ _ _) in *.
    assert (abs s1 = (abs s) <| lf_attempts ::= <[fi_attempt ids := {| al_job := job; al_state := APlanned |}]> |>
      <| lf_jobs ::= <[job := (job_life j) <| jl_attempt := Some (fi_attempt ids) |>]> |>) as Habs.
    { subst s1. unfold set_job_attempt, abs. simpl. rewrite fmap_insert, Hrow, (fmap_alter_at _ _ _ _ _ Hj).
      unfold where_. by rewrite bool_decide_eq_true_2. }
    transitivity s1.
    + eapply sim_step; [exact Habs|done|]. intros _. apply (life_plan _ _ _ (abs s) job (job_life j));
        [by apply abs_job|done|done|simpl; by rewrite lookup_fmap, Hnone].
    + eapply (sim_start_probe s1); [rewrite Habs; apply lookup_insert_eq|done|done|rewrite Habs; apply lookup_insert_eq| |eassumption..].
      exact Hstep0.
Qed.

(** ** Admission that waits for the host *)

(** The job is pending with its attempt admitting, and its claims are compatible with
    everything that is held. *)
Record admitting s (job attempt : Uuid) (j : Job) (active : list ResolvedClaims) : Prop := {
  ad_job : lf_jobs (abs s) !! job = Some (job_life j);
  ad_pending : nj_state j = Pending;
  ad_attempt : nj_attempt_id j = Some attempt;
  ad_admitting : ∃ arow, lf_attempts (abs s) !! attempt = Some arow ∧ al_state arow = AAdmitting;
  ad_active : active = active_claims_tx s;
  ad_compatible : Forall (claims_compatible rules (nj_claims j)) active;
}.

Lemma admitting_frame s s' job attempt j active : frame s s' → admitting s job attempt j active →
  admitting s' job attempt j active.
Proof. intros Hf [? ? ? ? ? ?]. split; rewrite ?(fr_abs _ _ Hf), ?(frame_active _ _ Hf); done. Qed.

Lemma sim_start_observed s job input j attempt context active s' r : admitting s job attempt j active →
  vector_fits (scalar_entries (nj_claims j)) (legacy_capacities caps) (map scalar_entries active) →
  start_observed uuid_to_string d s job input j attempt context = Ok (Commit s' r) → sim s s'.
Proof.
  intros [Hj Hp Hat (arow & Ha & Hst) -> Hc] Hfit. unfold start_observed. intros H. result_inv. simplify_eq.
  etrans; [|apply sim_frame, frame_upd_admission].
  pose proof Hj as (j' & Hj' & Hl)%abs_job_inv. pose proof Ha as (a' & Ha' & ->)%abs_attempt_inv.
  injection Hl as E1 E2 E3. simpl in Hst.
  eapply (sim_start caps rules d s _ _ job attempt (pi_ids input) (nj_claims j) (job_life j) (attempt_life a'));
    [exact Hj|done|done|exact Ha|by right| | |by split|eassumption].
  - rewrite (abs_upd_attempt _ _ _ a'), (abs_upd_job_state _ _ _ _ j').
    + unfold set_starting, where_. rewrite Hst. rewrite bool_decide_eq_true_2 by by left.
      unfold activate, job_life. simpl. by rewrite Hat, E3.
    + done.
    + rewrite <-E1, <-E2. by rewrite !bool_decide_eq_true_2.
    + by rewrite (proj1 (upd_job_state_fields _ _ _ _)).
  - exact (remote_upd_job_state _ _ _ _).
Qed.

Lemma sim_reserve_observed s job input j attempt active context s' r : admitting s job attempt j active →
  reserve_observed uuid_to_string condition_json d s job input j attempt active context = Ok (Commit s' r) → sim s s'.
Proof.
  intros Had. unfold reserve_observed. intros H. result_inv. destruct a as [s1 final].
  apply (sim_refresh caps rules) in Hstep as [Hs1 Hc1]. branch H.
  { simplify_eq. etrans; [exact Hs1|]. by apply sim_frame. }
  guards. match goal with H : cf_deadline_expired final = false |- _ => specialize (Hc1 H) end.
  result_inv. destruct a as [s2 disp]. apply frame_native_disposition in Hstep as (Hf2 & _ & Hfit).
  assert (frame s s2) as Hf by (etrans; [by apply frame_conditions|exact Hf2]).
  assert (sim s s2) as Hs2 by by apply sim_frame. destruct disp; simplify_eq; [|done..].
  etrans; [exact Hs2|]. eapply sim_start_observed; [by eapply admitting_frame|by apply Hfit|exact H].
Qed.

Lemma frame_advance_quiet s attempt quiet m context s' context' stable :
  advance_quiet uuid_to_string d s attempt quiet m context = Some (s', context', stable) → frame s s'.
Proof. unfold advance_quiet. intros H. branch H; [done|]. by simplify_eq. Qed.

Lemma sim_observe_admission s job input j attempt active s' r : admitting s job attempt j active →
  observe_admission uuid_to_string condition_json d s job input j attempt active = Ok (Commit s' r) → sim s s'.
Proof.
  intros Had. assert (∀ s1 spec reason now s2, frame s s1 →
    settle_admission s1 spec job attempt reason now = Ok s2 → sim s s2) as Hsettle.
  { intros s1 spec reason now s2 Hf Hs. etrans; [by apply sim_frame|].
    destruct (admitting_frame _ _ _ _ _ _ Hf Had) as [Hj Hp Hat _ _ _]. apply abs_job_inv in Hj as (j' & Hj' & Hl).
    injection Hl as E1 E2 E3. eapply sim_settle_admission; [exact Hj'|congruence| |exact Hs]. congruence. }
  unfold observe_admission. intros H. destruct (pi_observation input) as [moment|].
  2: { branch H; [|by simplify_eq]. result_inv. simplify_eq. by eapply Hsettle; [|eassumption]. }
  result_inv. branch H; [result_inv; simplify_eq; by eapply Hsettle; [|eassumption]|].
  branch H; [by simplify_eq|]. destruct (job_quiet (nj_spec j)) as [quiet|]; [|by eapply sim_reserve_observed].
  destruct (advance_quiet _ _ _ _ _ _ _) as [[[s1 context'] stable]|] eqn:Hq.
  - apply frame_advance_quiet in Hq. branch H; [simplify_eq; etrans; apply sim_frame; [exact Hq|done]|].
    etrans; [apply sim_frame; exact Hq|]. eapply sim_reserve_observed; [by eapply admitting_frame|exact H].
  - result_inv. simplify_eq. by eapply Hsettle; [|eassumption].
Qed.

Lemma expire_due_reservations_machine v now : so_machine (expire_due_reservations_tx v now).1 = so_machine v.
Proof. unfold expire_due_reservations_tx. simpl. by destruct (existsb _ _). Qed.

(** A planned attempt starts admitting; the invariant says that a pending job has no
    other. *)
Lemma sim_admit s job j attempt : life_inv (abs s) → nv_jobs s !! job = Some j → nj_state j = Pending →
  nj_attempt_id j = Some attempt → Forall (claims_compatible rules (nj_claims j)) (active_claims_tx s) →
  let s' := upd_attempt attempt (λ a, where_ (bool_decide (na_state a = APlanned)) (λ a, a <| na_state := AAdmitting |>) a) s in
  sim s s' ∧ admitting s' job attempt j (active_claims_tx s).
Proof.
  intros Hinv Hj Hp Hat Hc s'. destruct (li_pending _ Hinv job (job_life j) attempt) as (ar & Har & _ & Hw);
    [by apply abs_job|done|done|]. pose proof Har as (row & Hrow & ->)%abs_attempt_inv.
  assert (abs s' = (abs s) <| lf_attempts ::= <[attempt := (attempt_life row) <| al_state := AAdmitting |>]> |>) as Habs.
  { subst s'. rewrite (abs_upd_attempt _ _ _ row) by done. unfold where_.
    destruct Hw as [Hw|Hw]; simpl in Hw; rewrite Hw; [done|]. rewrite bool_decide_eq_false_2 by done.
    unfold attempt_life. simpl. by rewrite Hw. }
  split.
  - eapply sim_step; [exact Habs|done|]. intros _. by apply life_admit.
  - split; [rewrite Habs; by apply abs_job|done|done| |done|done]. eexists. rewrite Habs. split; [apply lookup_insert_eq|done].
Qed.

Lemma sim_observed_tx s job input s' r :
  observed_tx uuid_to_string condition_json d s job input = Ok (Commit s' r) → sim s s'.
Proof.
  unfold observed_tx. destruct (expire_due_reservations_tx (view s) (pi_now input)) as [v due] eqn:Hdue. intros H.
  branch H.
  { simplify_eq. apply sim_frame, frame_write_back. by rewrite <-(expire_due_reservations_machine (view s) (pi_now input)), Hdue. }
  destruct (ready_row s job (pi_now input)) as [j|] eqn:Hready; [|done].
  apply ready_row_spec in Hready as [Hj Hp]. result_inv. destruct a as [s0 expired].
  branch H; [simplify_eq; by eapply sim_expire|].
  destruct expired; [done|]. apply expire_none in Hstep as ->.
  destruct (dependency_blockers_tx s job) as [deps impossible]. branch H.
  { simplify_eq. match goal with |- sim _ (upd_job_state _ _ ?f match _ with Some at_ => upd_attempt at_ ?fa _ | None => _ end) =>
      pose proof (sim_finish_skipped caps rules s job j (λ j, bool_decide (nj_state j = Pending)) f JSkipped true fa) as Hsim end.
    apply Hsim; [done|done|by apply bool_decide_eq_true_2|done|]. intros a Hw. unfold where_.
    by destruct Hw as [-> | ->]. }
  branch H; [injection H as H; by apply sim_frame, (sim_yield_reservation s job s' r)|].
  result_inv. destruct a as [s1 refresh]. apply (sim_refresh caps rules) in Hstep as [Hs1 Hc1].
  branch H; [by simplify_eq|]. specialize (Hc1 eq_refl). branch H.
  { destruct (release_reservation job s1) as [s2 released] eqn:E. unfold release_reservation in E. simplify_eq.
    etrans; [exact Hs1|]. branch H; by simplify_eq. }
  assert (nv_jobs s1 !! job = Some j) as Hj1 by by destruct Hc1 as (cs & os & ->).
  etrans; [exact Hs1|]. clear Hs1 Hj. destruct (nj_attempt_id j) as [attempt|] eqn:Hat.
  - set (s2 := ensure_admitting_row _ _ _ s1) in H. assert (frame s1 s2) as Hf2 by apply frame_ensure_admitting_row.
    assert (nv_jobs s2 !! job = Some j) as Hj2 by (subst s2; by rewrite (proj2 (ensure_admitting_row_rows _ _ _ _))).
    etrans; [apply sim_frame; exact Hf2|]. clearbody s2. branch H.
    + branch H; [|by simplify_eq]. result_inv. simplify_eq.
      by eapply (sim_settle_admission caps rules (release_reservation job s2).1); [exact Hj2|..].
    + guards. apply sim_with_inv. intros Hinv.
      match goal with H : _ ++ _ = [] |- _ => apply app_nil in H as [_ Hns] end. apply non_scalar_blockers_nil in Hns.
      destruct (sim_admit s2 job j attempt) as [Hs3 Had]; [done..|by rewrite (frame_active _ _ Hf2)|].
      etrans; [exact Hs3|]. eapply sim_observe_admission; [|exact H]. by rewrite (frame_active _ _ Hf2) in Had.
  - result_inv. simplify_eq. apply insert_planned_attempt_spec in Hstep as (Hnone & row & -> & Hrow).
    eapply sim_step; [|done|intros _; apply (life_plan _ _ _ (abs s1) job (job_life j));
      [by apply abs_job|done|done|simpl; by rewrite lookup_fmap, Hnone]].
    unfold set_job_attempt, abs. simpl. rewrite fmap_insert, Hrow, (fmap_alter_at _ _ _ _ _ Hj1).
    unfold where_. by rewrite bool_decide_eq_true_2.
Qed.

(** ** One preparation *)
Lemma sim_finish_prepare s job input obs r s' p : sim s r.1 →
  finish_prepare uuid_to_string resolve_fences d job input obs r = (s', p) → sim s s'.
Proof.
  intros Hs. unfold finish_prepare. destruct r as [s1 [[q|spec]|e]]; simpl in *; [by intros [= <- _]| |by intros [= <- _]].
  destruct (obs ≫= _) as [[s2 [probe|]]|e] eqn:E; intros [= <- _]; [| |done];
    result_inv; (etrans; [exact Hs|]); by eapply sim_prepare_due_probe.
Qed.

Lemma sim_prepare_job_inner s job input s' p :
  prepare_job_inner uuid_to_string condition_json resolve_fences d s job input = (s', p) → sim s s'.
Proof.
  unfold prepare_job_inner. destruct (expire_job_condition_deadline s job (pi_deadline_now input)) as [[s1 b]|e] eqn:E;
    [|by intros [= <- _]].
  assert (sim s s1) as Hs1.
  { unfold expire_job_condition_deadline in E. result_inv. destruct a as [s2 o]. injection E as E.
    case_bool_decide; simplify_eq; [by eapply sim_expire|done]. }
  destruct b; [by intros [= <- _]|]. intros H. etrans; [exact Hs1|]. branch H; [by simplify_eq|].
  destruct (ready_row s1 job (pi_pending_now input)) as [j|]; [|by simplify_eq]. branch H.
  - unfold advance_observed_admission in H. destruct (ready_row s1 job _); [|by simplify_eq].
    eapply sim_finish_prepare; [|exact H]. apply sim_run_tx. intros s2 r. apply sim_observed_tx.
  - eapply sim_finish_prepare; [|exact H]. apply sim_run_tx. intros s2 r. apply sim_prepare_tx.
Qed.
End transactions.
