(* ===== verification/LifecycleFacts.v ===== *)
(** * LifecycleFacts: what a settlement writes, and identities that read back *)
From S2P Require Import Prelude Spec Validate Kernel Scoped Observation Machine MachineStore Reservation.
From S2P Require Import Native ConditionStore ProcessRecords Lifecycle Life LifeFacts Refinement.

(** ** Identities of root processes *)
Lemma i64_of_u64_Some n z : i64_of_u64 n = Some z → z = Z.of_N n.
Proof. unfold i64_of_u64. intros H. case_decide; by simplify_eq. Qed.

(** An identity that is encoded in the columns older stores read is decoded to
    itself. *)
Lemma legacy_record_roundtrip identity pid host boot creation :
  encode_process_record identity pid = Ok (host, boot, creation) →
  decode_legacy_process_record (Some pid) (Some host) (Some boot) (Some creation) = Ok (Some identity).
Proof.
  unfold encode_process_record, decode_legacy_process_record. destruct identity as [| h b p c|]; [done| |done].
  case_decide; [|done]. subst p. destruct (i64_of_u64 c) as [z|] eqn:Hz; [|done]. simpl. intros [= <- <- <-].
  apply i64_of_u64_Some in Hz as ->. rewrite bool_decide_eq_false_2 by lia. simpl. by rewrite N2Z.id.
Qed.

(** After a start is recorded with the identity of its root, the invocation is
    started and its rows read back exactly that identity. *)
Theorem started_identity_reads_back d s job pid hash identity permission now s' :
  mark_started_with_ticket d s job pid hash (Some identity) permission now = Ok s' →
  ∃ i, nv_invocations s' !! pj_invocation_id job = Some i ∧ ni_state i = IStarted ∧
    root_identity_of i = Ok (Some identity).
Proof.
  unfold mark_started_with_ticket, columns_of. intros H. result_inv. destruct a as [[host boot] creation]. result_inv.
  match goal with H : record_identity _ _ _ _ = Ok _ |- _ => rename H into Hrec end.
  unfold record_identity in Hrec. rewrite Hstep in Hrec. simpl in Hrec.
  destruct (nv_invocations s !! pj_invocation_id job) as [i|] eqn:Hi; [|done]. simpl in Hrec. result_inv.
  apply bool_decide_eq_false, dec_stable in Hguard0.
  eexists. split; [|split].
  - destruct (decide (pj_role job = RolePrimary)), (decide (pj_role job = RoleProbe)); simpl;
      rewrite lookup_alter_eq, lookup_alter_eq, Hi; simpl; reflexivity.
  - done.
  - unfold root_identity_of, process_identity_record. simpl. rewrite Hguard0, Hstep. simpl.
    by rewrite bool_decide_eq_true_2.
Qed.

(** ** Settlements *)

(** The start of a job that waits for readiness failed before its user code ran. *)
Definition never_started (spec : JobSpec) (v : AttemptVerdict) : bool :=
  bool_decide (v = VStartFailed)
  && (bool_decide (is_Some (job_quiet spec)) || negb (bool_decide (length (job_conditions spec) = 0%nat))).

(** The rows after a settlement that retried or not. *)
Record settled (s' : NativeStore) (job : PreparedJob) (j : Job) (a : Attempt) (v : AttemptVerdict)
    (now retry_now : Z) (retried : bool) : Prop := {
  st_attempt : ∃ a' j', nv_attempts s' !! pj_attempt_id job = Some a' ∧ nv_jobs s' !! pj_job_id job = Some j' ∧
    na_state a' = ASettled ∧ na_finished_ms a' = Some now ∧
    (never_started (nj_spec j) v = false → na_verdict a' = Some (if nj_cancel_requested j then VCanceled else v)) ∧
    if retried then
      nj_cancel_requested j = false ∧ retryable (nj_spec j) (na_index a) v = true ∧
      nj_state j' = Pending ∧ nj_attempt_id j' = None ∧ nj_cancel_requested j' = false ∧
      nj_retry_not_before_ms j' = Some (after_seconds retry_now (retry_backoff_seconds (job_retry (nj_spec j))))
    else
      nj_state j' = Final ∧ nj_outcome j' = outcome_for_verdict <$> na_verdict a' ∧ nj_finished_ms j' = Some now;
  st_retry : never_started (nj_spec j) v = false →
    retried = negb (nj_cancel_requested j) && retryable (nj_spec j) (na_index a) v;
}.

Lemma upd_job_state_lookup k g f s j : nv_jobs s !! k = Some j → g j = true →
  nv_jobs (upd_job_state k g f s) !! k = Some (f j) ∧ nv_attempts (upd_job_state k g f s) = nv_attempts s.
Proof.
  intros Hk Hg. unfold upd_job_state, jobs_reservation_cleanup. rewrite Hk, Hg. simpl.
  rewrite lookup_alter_eq, Hk. simpl. destruct (_ || _); simpl; by rewrite lookup_alter_eq, Hk.
Qed.
Lemma release_attempt_lease_rows s a : let s' := (release_attempt_lease_if_safe s a).1 in
  nv_jobs s' = nv_jobs s ∧ nv_attempts s' = nv_attempts s.
Proof. unfold release_attempt_lease_if_safe. by destruct (_ && _). Qed.
Lemma reset_conditions_rows s job t : let s' := reset_conditions_for_retry_tx s job t in
  nv_jobs s' = nv_jobs s ∧ nv_attempts s' = nv_attempts s.
Proof. simpl. by destruct (conditions_only_reset s job t) as (cs & os & ->). Qed.

(** The part of the tables a settlement reads after its first statements. *)
Lemma forget_start_rows s job j a : nv_jobs s !! pj_job_id job = Some j → nv_attempts s !! pj_attempt_id job = Some a →
  ∃ j1 a1, nv_jobs (forget_start s job) !! pj_job_id job = Some j1 ∧
    nv_attempts (forget_start s job) !! pj_attempt_id job = Some a1.
Proof.
  intros Hj Ha. unfold forget_start. simpl. rewrite !lookup_alter_eq, Hj, Ha. simpl. by eexists _, _.
Qed.

(** A settlement ends with the attempt, the lease and the job, in this order: [fa]
    and [fj] are what it writes, [h] what it adds to the attempt after the release. *)
Lemma settle_writes s job j a fa (h : Attempt → Attempt) g fj :
  nv_jobs s !! pj_job_id job = Some j → nv_attempts s !! pj_attempt_id job = Some a → g j = true →
  let s1 := (release_attempt_lease_if_safe (upd_attempt (pj_attempt_id job) fa s) (pj_attempt_id job)).1 in
  let s2 := upd_job_state (pj_job_id job) g fj (upd_attempt (pj_attempt_id job) h s1) in
  nv_attempts s2 !! pj_attempt_id job = Some (h (fa a)) ∧ nv_jobs s2 !! pj_job_id job = Some (fj j).
Proof.
  intros Hj Ha Hg s1 s2. destruct (release_attempt_lease_rows (upd_attempt (pj_attempt_id job) fa s) (pj_attempt_id job))
    as [Ej Ea]. fold s1 in Ej, Ea.
  assert (nv_jobs (upd_attempt (pj_attempt_id job) h s1) !! pj_job_id job = Some j) as Hj1 by (simpl; by rewrite Ej).
  destruct (upd_job_state_lookup (pj_job_id job) g fj (upd_attempt (pj_attempt_id job) h s1) j Hj1 Hg) as [Hj2 Ha2].
  split; [|exact Hj2]. subst s2. rewrite Ha2. simpl. rewrite lookup_alter_eq, Ea. simpl. by rewrite lookup_alter_eq, Ha.
Qed.

Lemma upd_attempt_id k s : upd_attempt k id s = s.
Proof.
  destruct s. unfold upd_attempt. simpl. f_equal. apply map_eq. intros k'. destruct (decide (k = k')) as [->|Hne].
  - rewrite lookup_alter_eq. by destruct (_ !! k').
  - by rewrite lookup_alter_ne.
Qed.

Lemma settle_never_started_settled s job j a v now retry_now deadline :
  nv_jobs s !! pj_job_id job = Some j → nv_attempts s !! pj_attempt_id job = Some a →
  never_started (nj_spec j) v = true → settled (settle_never_started s job deadline now) job j a v now retry_now false.
Proof.
  intros Hj Ha Hn. split; [|by rewrite Hn]. unfold settle_never_started.
  set (s0 := if bool_decide (is_Some deadline) then _ else s).
  assert (nv_jobs s0 = nv_jobs s ∧ nv_attempts s0 = nv_attempts s) as [Ej Ea] by (subst s0; by destruct deadline).
  clearbody s0. assert (∃ v' o, default (VCanceled, JCanceled) (deadline_terminal <$> deadline) = (v', o) ∧
    o = outcome_for_verdict v') as (v' & o & -> & ->) by (destruct deadline as [[]|]; by eexists _, _).
  set (s1 := upd_invocation _ _ s0).
  assert (nv_jobs s1 !! pj_job_id job = Some j ∧ nv_attempts s1 !! pj_attempt_id job = Some a) as [Hj1 Ha1]
    by (subst s1; simpl; by rewrite Ej, Ea).
  match goal with |- context [upd_job_state _ ?g ?fj (release_attempt_lease_if_safe (upd_attempt _ ?fa s1) _).1] =>
    destruct (settle_writes s1 job j a fa id g fj Hj1 Ha1 eq_refl) as [Ha2 Hj2] end.
  rewrite upd_attempt_id in Ha2, Hj2. eexists _, _. split_and!; [exact Ha2|exact Hj2|done|done| |done|done|done].
  by rewrite Hn.
Qed.

