(* ===== verification/NativeHistory.v ===== *)
(** * NativeHistory: histories of the native tables

    [native_step] lists the transactions a daemon runs on the tables of native jobs,
    with what their callers guarantee: a runner calls on the invocation it owns
    ([owns]), settles an attempt when nothing of it is handled any more ([idle]), and
    the coordinator changes its grants only so that all claims stay safe together.
    Every transaction refines [Life.v], so that every history does. *)
From S2P Require Import Prelude Spec Validate Kernel Scoped ScopedFacts Observation Machine MachineStore.
From S2P Require Import MachineFacts ExchangeFacts Reservation ReservationFacts MachineOffer OfferFacts.
From S2P Require Import Native ConditionStore ProcessRecords Lifecycle Schedule Release NativeRecovery Life LifeFacts.
From S2P Require Import Refinement LifecycleRefinement ReleaseRefinement RecoveryRefinement ScheduleRefinement.

(** Tables without a single job, beside a coordinator. *)
Definition empty_store (t : Tables) : NativeStore :=
  {| nv_jobs := ∅; nv_attempts := ∅; nv_admissions := ∅; nv_invocations := ∅; nv_containments := ∅;
     nv_conditions := ∅; nv_observations := []; nv_leases := ∅; nv_reservations := ∅; nv_dependencies := [];
     nv_machine := t |}.

Lemma life_inv_empty t : life_inv (abs (empty_store t)).
Proof. split; unfold abs, works; simpl; intros; rewrite ?fmap_empty, ?lookup_empty in *; naive_solver. Qed.

Section history.
Context (caps : ResourceCapacities) (rules : gmap string (list string)).
Context (uuid_to_string : Uuid → string) (condition_json : ConditionSpec → string)
  (blockers_json : list Blocker → string) (resolve_fences : list string → result StoreError (gset string)).
Implicit Types (s : NativeStore) (d : Daemon).

(** A daemon of this machine: the configuration of a generation. *)
Definition of_host d : Prop :=
  host_resources (dm_config d) = caps ∧ host_impact_incompatibilities (dm_config d) = rules.

(** A row of a job that was just accepted. *)
Definition fresh_job (j : Job) : Prop := job_life j = {| jl_state := Pending; jl_attempt := None; jl_outcome := None |}.

(** The claims of native leases and of the grants of attached managers, together. *)
Definition all_claims s : list ResolvedClaims := active_claims_tx s.

Inductive native_step s : NativeStore → Prop :=
(* a job is accepted with its conditions *)
| ns_accept job j conditions cid oid a e s' :
    nv_jobs s !! job = None → fresh_job j →
    insert_conditions_tx (s <| nv_jobs ::= <[job := j]> |>) job conditions cid oid a e = Ok s' → native_step s s'
(* the scheduler *)
| ns_prepare d job input s' p : of_host d →
    prepare_job_inner uuid_to_string condition_json resolve_fences d s job input = (s', p) → native_step s s'
| ns_expire now s' b : expire_due_condition_deadlines s now = Ok (s', b) → native_step s s'
(* the runner of an invocation *)
| ns_suspended d job pid hash identity permission s' :
    record_suspended_root d s job pid hash identity permission = Ok s' → native_step s s'
| ns_release d job observation input s' r :
    authorize_release uuid_to_string condition_json blockers_json d s job observation input = Ok (Commit s' r) →
    native_step s s'
| ns_condition_release d job observation input s' r :
    authorize_condition_release uuid_to_string condition_json blockers_json d s job observation input
      = Ok (Commit s' r) → native_step s s'
| ns_defer job now s' r : pre_resume_defer_reason s job now = Ok (s', r) → native_step s s'
| ns_started d job pid hash identity permission now s' : owns s job →
    mark_started_with_ticket d s job pid hash identity permission now = Ok s' → native_step s s'
| ns_log job stdout offset : native_step s (commit_log_offset s job stdout offset)
| ns_stop job now s' b : invocation_stop_requested s job now = Ok (s', b) → native_step s s'
| ns_exited job code now s' : mark_root_exited s job code now = Ok s' → native_step s s'
| ns_resolved job code class now : may_resolve s job →
    native_step s (mark_invocation_resolved s job code class now)
| ns_primary_result job verdict termination s' r :
    record_primary_result s job verdict termination = Ok (s', r) → native_step s s'
| ns_postcondition d primary index i c s' post : idle s (pj_attempt_id primary) →
    prepare_postcondition d s primary index i c = Ok (s', post) → native_step s s'
| ns_settle job verdict now retry_now s' b : idle s (pj_attempt_id job) →
    settle_attempt s job verdict now retry_now = Ok (s', b) → native_step s s'
| ns_finished job code outcome verdict now s' : owns s job → pj_role job ≠ RoleProbe →
    mark_finished s job code outcome verdict now = Ok s' → native_step s s'
| ns_uncertain job code verdict now opened resolved s' : owns s job → pj_role job ≠ RoleProbe →
    mark_uncertain s job code verdict now opened resolved = Ok s' → native_step s s'
| ns_cleanup_uncertain job code now opened resolved s' : owns s job → pj_role job ≠ RoleProbe →
    mark_pre_release_cleanup_uncertain s job code now opened resolved = Ok s' → native_step s s'
| ns_settle_probe d job code timed_out now mono oid retained failed s' : owns s job →
    settle_probe d s job code timed_out now mono oid retained failed = Ok s' → native_step s s'
| ns_probe_uncertain job code resolved opened now s' :
    mark_probe_uncertain s job code resolved opened now = Ok s' → native_step s s'
| ns_replan d job reason now s' : replan_never_run d s job reason now = Ok s' → native_step s s'
(* clients and operators *)
| ns_cancel jobs clock s' : cancel_jobs s jobs clock = Ok s' → native_step s s'
| ns_resolve_incident d candidate expected resolved next_now s' r : names s candidate →
    commit_containment_resolution d s candidate expected resolved next_now = Ok (s', r) → native_step s s'
(* a new generation of the daemon *)
| ns_recover d now mono oid retained s' :
    recover_interrupted d s now mono oid retained = Ok s' → native_step s s'
| ns_prune retained : native_step s (prune_condition_history retained s).

(** The coordinator changes its tables. *)
Inductive machine_step s : NativeStore → Prop :=
| ms_grants t : claims_safe caps rules (all_claims (s <| nv_machine := t |>)) →
    machine_step s (s <| nv_machine := t |>).

Definition history : NativeStore → NativeStore → Prop := rtc (λ s s', native_step s s' ∨ machine_step s s').

(** ** Every transaction refines the life of a job *)
Lemma conditions_only_insert job a e oid s l s' :
  result_foldM (insert_condition_tx job a e oid) s l = Ok s' → conditions_only s s'.
Proof.
  revert s. induction l as [|[[index id] spec] l IH]; simpl; intros s H; result_inv; [done|].
  etrans; [|by apply IH]. rename Hstep into Hi. unfold insert_condition_tx in Hi. result_inv.
  lazymatch type of Hi with (if _ then Ok ?t else _) = _ => set (s1 := t) in Hi end.
  assert (conditions_only s s1) as H1 by by eexists _, (nv_observations s).
  branch Hi; [by simplify_eq|]. result_inv. destruct a1 as [s2 st]. result_inv.
  etrans; [exact H1|by eapply conditions_only_evaluate].
Qed.

Lemma native_step_sim s s' : native_step s s' → sim caps rules s s'.
Proof.
  intros Hstep. destruct Hstep.
  - unfold insert_conditions_tx in H1. apply conditions_only_insert in H1 as Hc.
    etrans; [|by apply sim_frame, frame_conditions].
    eapply sim_step; [|done|intros _; apply (life_accept _ _ _ _ job)].
    + unfold abs. simpl. rewrite fmap_insert. by rewrite H0.
    + simpl. by rewrite lookup_fmap, H.
  - destruct H as [<- <-]. by eapply sim_prepare_job_inner.
  - unfold expire_due_condition_deadlines in H. result_inv. destruct a as [s1 changed]. injection H as H.
    destruct changed; simplify_eq; [by eapply sim_expire_due_tx|done].
  - by eapply sim_record_suspended_root.
  - by eapply sim_authorize_release.
  - by eapply sim_authorize_condition_release.
  - by eapply sim_frame, frame_defer_reason.
  - by eapply sim_mark_started.
  - apply sim_frame, frame_upd_job. intros j _. by destruct stdout.
  - by eapply sim_stop_requested.
  - by eapply sim_frame, frame_mark_root_exited.
  - by apply sim_mark_resolved.
  - by eapply sim_frame, frame_record_primary_result.
  - by eapply sim_prepare_postcondition.
  - by eapply sim_settle_attempt.
  - by eapply sim_mark_finished.
  - by eapply sim_mark_uncertain_settlement.
  - by eapply sim_mark_uncertain_settlement.
  - unfold settle_probe in H0. result_inv. etrans; [by eapply sim_settle_probe_tx|].
    destruct failed; [done|apply sim_prune].
  - by eapply sim_mark_probe_uncertain.
  - by eapply sim_replan_never_run.
  - by eapply sim_cancel_jobs.
  - by eapply sim_commit_resolution.
  - apply sim_with_inv. intros Hinv. by eapply recover_interrupted_spec.
  - apply sim_prune.
Qed.

(** ** Histories *)

Lemma all_claims_held s : all_claims s ≡ₚ held (abs s) ++ remote s.
Proof. unfold all_claims, active_claims_tx. by rewrite native_debits_held. Qed.

Lemma claims_safe_Permutation l k : l ≡ₚ k → claims_safe caps rules l → claims_safe caps rules k.
Proof. intros Hp. apply claims_safe_submseteq. by rewrite Hp. Qed.

Lemma history_inv s s' : history s s' → life_inv (abs s) → claims_safe caps rules (all_claims s) →
  life_inv (abs s') ∧ claims_safe caps rules (all_claims s').
Proof.
  induction 1 as [|s1 s2 s3 Hstep _ IH]; [done|]. intros Hinv Hsafe. apply IH; destruct Hstep as [Hstep|[t Ht]]; [| | |done].
  - eapply sim_inv; [by eapply native_step_sim|done].
  - exact Hinv.
  - destruct (native_step_sim _ _ Hstep Hinv) as [Hsteps Hr].
    eapply claims_safe_Permutation; [symmetry; apply all_claims_held|]. rewrite Hr.
    eapply life_steps_safe; [exact Hsteps|]. eapply claims_safe_Permutation; [apply all_claims_held|done].
Qed.

(** What the tables promise, in their own terms. *)
Record native_safe s : Prop := {
  (* leases and grants never claim more than the machine has, or what excludes each other *)
  nf_within : within_capacity (legacy_capacities caps) (map scalar_entries (all_claims s));
  nf_compatible : pairwise (claims_compatible rules) (all_claims s);
  (* a boundary that is not proven empty or cleared is covered by a granted lease *)
  nf_leased k c i : nv_containments s !! k = Some c → nv_invocations s !! nt_invocation_id c = Some i →
    is_closed (nt_state c) = false → ∃ lk l, nv_leases s !! lk = Some l ∧ nl_state l = LGranted ∧
      nl_attempt_id l = ni_attempt_id i ∧
      nl_invocation_id l = if decide (ni_role i = RoleProbe) then Some (nt_invocation_id c) else None;
  (* an active job has its attempt underway under exactly one work lease *)
  nf_active k j : nv_jobs s !! k = Some j → nj_state j = Active → ∃ at_ a, nj_attempt_id j = Some at_ ∧
    nv_attempts s !! at_ = Some a ∧ na_job_id a = k ∧ na_state a ∈ [AStarting; ARunning] ∧
    ∃ lk, ∀ lk', (∃ l, nv_leases s !! lk' = Some l ∧ is_work_lease l at_) ↔ lk' = lk;
  (* a final job has an outcome *)
  nf_final k j : nv_jobs s !! k = Some j → nj_state j = Final → is_Some (nj_outcome j);
}.

Lemma life_inv_native_safe s : life_inv (abs s) → claims_safe caps rules (all_claims s) → native_safe s.
Proof.
  intros Hinv [Hw Hp]. split; [done|done| | |].
  - intros k c i Hk Hi Hcl. destruct (li_covered _ Hinv k (boundary_life c) (invocation_life i)) as (lk & l & Hl & Hg & Hc).
    + by apply abs_boundary.
    + by apply abs_invocation.
    + simpl. rewrite <-is_closed_spec. by rewrite Hcl.
    + by exists lk, l.
  - intros k j Hj Hact. destruct (li_active _ Hinv k (job_life j)) as (at_ & ar & Hat & Har & Hjob & Hu); [by apply abs_job|done|].
    pose proof Har as (a & Ha & ->)%abs_attempt_inv. exists at_, a. split_and!; [done..| |].
    + destruct Hu as [Hu|Hu]; simpl in Hu; rewrite Hu; [by left|by right; left].
    + destruct (li_work_lease _ Hinv _ _ Har Hu) as (lk & l & Hl & Hwl). exists lk. intros lk'. split.
      * intros (l' & Hl' & Hwl'). by eapply (li_one_lease _ Hinv lk' lk).
      * intros ->. by exists l.
  - intros k j Hj Hf. apply (li_final _ Hinv k (job_life j)); [by apply abs_job|done].
Qed.

(** C3: every transaction on the native tables, acceptance, preparation, running,
    settlement, cancellation, clearance and restart, implements the abstract life of
    a job: its effect on states, boundaries and leases is a sequence of [life_step]s
    beside the same claims of attached managers. *)
Theorem native_transactions_refine_life s s' :
  life_inv (abs s) → native_step s s' →
  rtc (life_step caps rules (remote s)) (abs s) (abs s') ∧ remote s' = remote s.
Proof. intros Hinv Hstep. by apply native_step_sim. Qed.

(** C2: after any history of transactions from empty tables, the granted leases and
    the grants of attached managers fit the machine together and exclude nothing of
    each other, every boundary that is not proven empty or cleared is covered by a
    granted lease, every active job has one attempt underway under one work lease and
    every final job has an outcome. *)
Theorem native_histories_are_safe t s :
  claims_safe caps rules (grant_debits t) → history (empty_store t) s → native_safe s.
Proof.
  intros Ht Hh. destruct (history_inv _ _ Hh) as [Hinv Hsafe]; [apply life_inv_empty|exact Ht|].
  by apply life_inv_native_safe.
Qed.

(** C21: once a job is final it stays final: no later transaction, restart or
    reconciliation changes its outcome or gives it another attempt. *)
Theorem final_jobs_stay_final s s' k j :
  life_inv (abs s) → claims_safe caps rules (all_claims s) → history s s' →
  nv_jobs s !! k = Some j → nj_state j = Final →
  ∃ j', nv_jobs s' !! k = Some j' ∧ nj_state j' = Final ∧ nj_outcome j' = nj_outcome j ∧
        nj_attempt_id j' = nj_attempt_id j.
Proof.
  intros Hinv Hsafe Hh. revert j Hinv Hsafe. induction Hh as [|s1 s2 s3 Hstep Hh IH]; intros j Hinv Hsafe Hj Hf; [eauto|].
  destruct (history_inv s1 s2) as [Hinv2 Hsafe2]; [by apply rtc_once|done..|].
  assert (∃ j2, nv_jobs s2 !! k = Some j2 ∧ job_life j2 = job_life j) as (j2 & Hj2 & Hl).
  { destruct Hstep as [Hstep|[t _]]; [|by exists j]. destruct (native_step_sim _ _ Hstep Hinv) as [Hsteps _].
    eapply life_steps_final in Hsteps; [|by apply abs_job|done]. apply abs_job_inv in Hsteps as (j2 & Hj2 & He).
    by exists j2. }
  injection Hl as E1 E2 E3. destruct (IH j2) as (j' & ? & ? & ? & ?); [done..|congruence|].
  exists j'. split_and!; congruence.
Qed.

End history.

Definition no_capacity : ResourceCapacities :=
  {| cap_cpu_units := 0; cap_ram_mb := 0; cap_cargo_slots := 0; cap_gpu_slots := 0; cap_custom := ∅ |}.

(** C20: recovery after a restart leaves nothing underway: no active job, no attempt
    starting or running, no boundary creating or live; the tables stay well formed,
    so that what could not be proven empty keeps its granted lease. *)
Theorem recovery_settles_everything d s now mono oid retained s' :
  life_inv (abs s) → recover_interrupted d s now mono oid retained = Ok s' →
  calm s' ∧ life_inv (abs s').
Proof.
  intros Hinv Hr. destruct (recover_interrupted_spec no_capacity ∅ _ _ _ _ _ _ _ Hinv Hr) as [Hs Hc].
  split; [done|]. by eapply sim_inv.
Qed.
