(* ===== verification/NativeDemo.v ===== *)
(** * NativeDemo: a job from acceptance to its outcome, and a restart

    A job waits for a probe, is probed, started suspended, released and settled; a
    second one is interrupted by a restart of the daemon.  The runs are evaluated,
    and show that the hypotheses of the theorems about native jobs hold. *)
From S2P Require Import Prelude Spec Validate ValidateFacts Kernel Scoped ScopedFacts Observation Machine MachineStore.
From S2P Require Import MachineFacts ExchangeFacts Reservation ReservationFacts MachineOffer OfferFacts.
From S2P Require Import Native ConditionStore ProcessRecords Lifecycle Schedule Release NativeRecovery Life LifeFacts.
From S2P Require Import Refinement LifecycleRefinement ReleaseRefinement RecoveryRefinement ScheduleRefinement.
From S2P Require Import LifecycleFacts NativeHistory.

Module NativeDemo.
Definition show (u : Uuid) : string := pretty u.
Definition condition_json (_ : ConditionSpec) : string := "{}".
Definition blockers_json (_ : list Blocker) : string := "[]".
Definition resolve_fences (l : list string) : result StoreError (gset string) := Ok (list_to_set l).

Definition daemon (generation : Uuid) : Daemon :=
  {| dm_config := Sample.host; dm_generation := generation; dm_host_id := Some "host"%string;
     dm_boot_id := Some "boot"%string; dm_capable := true; dm_authority_blocker := false |}.
Definition d := daemon 900.
Definition caps := host_resources (dm_config d).
Definition rules := host_impact_incompatibilities (dm_config d).

Definition cpus (n : N) : ResourceClaims :=
  {| rc_cpu_units := Some n; rc_ram_mb := None; rc_cargo_slots := None; rc_gpu_slots := None; rc_custom := ∅;
     rc_shared_fences := []; rc_exclusive_fences := ["/out"%string]; rc_impacts := [] |}.
Definition probe : ProbeCondition :=
  {| probe_executable := "/bin/probe"; probe_args := []; probe_working_directory := "/";
     probe_environment := Sample.environment; probe_resources := cpus 1; probe_timeout_seconds := 10;
     probe_interval_seconds := 5; probe_accepted_exit_codes := [0%Z] |}.
Definition condition : ConditionSpec :=
  {| cond_predicate := Probe probe; cond_deadline := DeadlineRelative 60; cond_on_deadline := DeadlineFailed |}.
Definition spec (conditions : list ConditionSpec) : JobSpec :=
  {| job_spec_version := 4; job_priority := 1; job_executable := "/bin/true"; job_args := [];
     job_working_directory := "/work"; job_stdin := StdinEof; job_environment := Sample.environment;
     job_resources := cpus 6; job_observed := None; job_conditions := conditions;
     job_retry := {| retry_max_attempts := 2; retry_backoff_seconds := 1;
                     retry_retryable := ["process_failed"%string] |};
     job_postconditions := []; job_labels := []; job_expected_duration_seconds := None;
     job_timeout_seconds := Some 100; job_quiet := None; job_artifacts := []; job_child_submission_policy := None |}.
Definition claims : ResolvedClaims :=
  {| cl_cpu_units := 6; cl_ram_mb := 0; cl_cargo_slots := 0; cl_gpu_slots := 0; cl_custom := ∅;
     cl_shared_fences := ∅; cl_exclusive_fences := {["/out"%string]}; cl_impacts := ∅ |}.
Definition accepted (conditions : list ConditionSpec) (rowid : Z) : Job :=
  {| nj_state := Pending; nj_outcome := None; nj_reason_code := None; nj_spec := spec conditions; nj_claims := claims;
     nj_stdin_hash := None; nj_stdin_len := None; nj_attempt_id := None; nj_invocation_id := None;
     nj_containment_id := None; nj_root_exit_code := None; nj_accepted_ms := 1000; nj_rowid := rowid;
     nj_started_ms := None; nj_finished_ms := None; nj_stdout_len := 0; nj_stderr_len := 0;
     nj_cancel_requested := false; nj_retry_not_before_ms := None; nj_reservation_not_before_ms := None;
     nj_batch_member := None; nj_batch_index := None |}.

(** The queue of the coordinator knows both jobs. *)
Definition machine : Tables :=
  {| tb_domains := ∅; tb_operations := ∅; tb_queue := ∅; tb_queue_next := 1; tb_candidates := ∅; tb_grants := ∅;
     tb_tickets := ∅; tb_readiness := ∅; tb_reservations := ∅; tb_reconciles := ∅; tb_schedule_ms := 0;
     tb_revision := 0; tb_leases := [] |}.

Definition evaluations (now : Z) : ConditionEvaluations :=
  {| ce_observed_ms := now; ce_observed_monotonic_ms := Z.to_N now; ce_scan_elapsed := 0; ce_paths := ∅ |}.
Definition acceptance : ConditionAcceptance :=
  {| ca_daemon_generation := 900; ca_boot_id := Some "boot"%string; ca_accepted_ms := 1000; ca_freshness_millis := 1000 |}.
Definition input (now : Z) (n : Uuid) : PrepareInput :=
  {| pi_deadline_now := now; pi_pending_now := now; pi_observed_now := now; pi_now := now; pi_skip_now := now;
     pi_final_now := now; pi_probe_now := now; pi_evaluations := evaluations now; pi_observation := None;
     pi_provider_clock := Ok (now, Z.to_N now);
     pi_ids := {| fi_attempt := n; fi_invocation := n + 1; fi_containment := n + 2; fi_lease := n + 3;
                  fi_reservation := n + 4 |};
     pi_oid := λ c, c + n + 5; pi_final_oid := λ c, c + n + 6; pi_log_directory := Ok tt |}.
Definition release_input (now : Z) : ReleaseInput :=
  {| rl_evaluation_now := now; rl_evaluations := evaluations now; rl_oid := λ c, c + 7000;
     rl_provider_clock := Ok (now, Z.to_N now); rl_release_monotonic := Z.to_N now; rl_started_now := now |}.
Definition identity : ProcessIdentity := LinuxProcess "host" "boot" 77 1234 4026531836 1000.

Definition prepare (s : NativeStore) (job : Uuid) (now : Z) (n : Uuid) : NativeStore * result StoreError PrepareJob :=
  prepare_job_inner show condition_json resolve_fences d s job (input now n).
Definition no_job : PreparedJob :=
  {| pj_job_id := 0; pj_attempt_id := 0; pj_invocation_id := 0; pj_containment_id := 0; pj_spec := spec [];
     pj_stdin := None; pj_role := RoleProbe; pj_condition_id := None; pj_attempt_deadline_unix_millis := None;
     pj_primary_result := None |}.
Definition ready (r : result StoreError PrepareJob) : PreparedJob :=
  match r with Ok (PrepareReady j) => j | _ => no_job end.

(** The run. *)
Definition s0 := empty_store machine.
Definition s1 := unwrap_or s0 (insert_conditions_tx (s0 <| nv_jobs ::= <[1 := accepted [condition] 1]> |>) 1 [condition]
  (λ i, 50 + i) (λ c, c + 10) acceptance (evaluations 1000)).
Definition r2 := prepare s1 1 1100 100.
Definition s2 := r2.1.
Definition probe_job := ready r2.2.
Definition s3 := unwrap_or s2 (mark_started_with_ticket d s2 probe_job 77 "hash" (Some identity) (Ok tt) 1150).
Definition s4 := unwrap_or s3 (settle_probe d s3 probe_job (Some 0%Z) false 1200 1200 8001 (λ _, false) false).
Definition r5 := prepare s4 1 1300 200.
Definition s5 := r5.1.
Definition work := ready r5.2.
Definition s6 := unwrap_or s5 (record_suspended_root d s5 work 78 "hash" (LinuxProcess "host" "boot" 78 1235 4026531836 1000) (Ok tt)).
Definition s7 := (run_tx s6 (authorize_condition_release show condition_json blockers_json d s6 work None (release_input 1350))).1.
Definition s8 := unwrap_or s7 (mark_root_exited s7 work 0 1400).
Definition s9 := mark_invocation_resolved s8 work (Some 0%Z) None 1410.
Definition s10 := (unwrap_or (s9, {| pr_schema_version := 0; pr_job_id := 0; pr_attempt_id := 0; pr_invocation_id := 0;
  pr_verdict := PSucceeded; pr_root_exit_code := None; pr_termination := TExited; pr_containment := CEmpty;
  pr_started_unix_millis := None; pr_exited_unix_millis := None; pr_resolved_unix_millis := 0 |})
  (record_primary_result s9 work PSucceeded TExited)).1.
Definition s11 := (unwrap_or (s10, false) (settle_attempt s10 work VSucceeded 1420 1420)).1.

(** States of the job, of its work lease and of the boundary after each step. *)
Definition view (s : NativeStore) : option (JobState * option JobOutcome) * list LeaseState * list ContainmentState :=
  ((λ j, (nj_state j, nj_outcome j)) <$> nv_jobs s !! 1, nl_state <$> btree_values (nv_leases s),
   nt_state <$> btree_values (nv_containments s)).

Example native_run : map view [s1; s2; s3; s4; s5; s7; s8; s9; s10; s11] =
  [(Some (Pending, None), [], []);
   (Some (Pending, None), [LGranted], [CCreating]);
   (Some (Pending, None), [LGranted], [CLive]);
   (Some (Pending, None), [LReleased], [CEmpty]);
   (Some (Active, None), [LReleased; LGranted], [CEmpty; CCreating]);
   (Some (Active, None), [LReleased; LGranted], [CEmpty; CLive]);
   (Some (Active, None), [LReleased; LGranted], [CEmpty; CLive]);
   (Some (Active, None), [LReleased; LGranted], [CEmpty; CEmpty]);
   (Some (Active, None), [LReleased; LGranted], [CEmpty; CEmpty]);
   (Some (Final, Some JSucceeded), [LReleased; LReleased], [CEmpty; CEmpty])].
Proof. vm_compute. reflexivity. Qed.

(** A second job runs when the daemon restarts; an operator clears its boundary. *)
Definition s12 := unwrap_or s11 (insert_conditions_tx (s11 <| nv_jobs ::= <[2 := accepted [] 2]> |>) 2 []
  (λ i, 60 + i) (λ c, c + 10) acceptance (evaluations 1500)).
Definition r13 := prepare s12 2 1600 300.
Definition s13 := r13.1.
Definition work2 := ready r13.2.
Definition s14 := unwrap_or s13 (mark_started_with_ticket d s13 work2 79 "hash"
  (Some (LinuxProcess "host" "boot" 79 1236 4026531836 1000)) (Ok tt) 1650).
Definition s15 := unwrap_or s14 (recover_interrupted (daemon 901) s14 2000 2000 (λ c, c + 9000) (λ _, false)).
Definition candidate : ReconciliationCandidate :=
  unwrap_or {| rn_containment_id := 0; rn_invocation_id := 0; rn_attempt_id := 0; rn_version := 0; rn_host_id := None;
     rn_boot_id := None; rn_daemon_generation := None; rn_root_pid_recorded := false; rn_root_identity := None;
     rn_incident_sequence := 0 |} (reconciliation_candidate s15 302).
Definition s16 := (unwrap_or (s15, None) (commit_containment_resolution (daemon 901) s15 candidate None 2100 2100)).1.

Example interrupted_run : map (λ s, ((λ j, (nj_state j, nj_outcome j)) <$> nv_jobs s !! 2,
    last (nl_state <$> btree_values (nv_leases s)), last (nt_state <$> btree_values (nv_containments s))))
    [s12; s13; s14; s15; s16] =
  [(Some (Pending, None), Some LReleased, Some CEmpty);
   (Some (Active, None), Some LGranted, Some CCreating);
   (Some (Active, None), Some LGranted, Some CLive);
   (Some (Final, Some JInterrupted), Some LGranted, Some CUncertain);
   (Some (Final, Some JInterrupted), Some LReleased, Some CCleared)].
Proof. vm_compute. reflexivity. Qed.

(** ** The run is a history *)
Notation step := (native_step caps rules show condition_json blockers_json resolve_fences).
Notation history := (history caps rules show condition_json blockers_json resolve_fences).

(** Ownership, decided on a concrete store. *)
Definition ownsb (s : NativeStore) (job : PreparedJob) : bool :=
  match nv_containments s !! pj_containment_id job, nv_invocations s !! pj_invocation_id job,
        nv_attempts s !! pj_attempt_id job with
  | Some c, Some i, Some a => bool_decide (nt_invocation_id c = pj_invocation_id job) && is_open_boundary (nt_state c)
      && bool_decide (ni_attempt_id i = pj_attempt_id job) && bool_decide (ni_role i = pj_role job)
      && bool_decide (na_job_id a = pj_job_id job)
  | _, _, _ => false
  end.
Lemma ownsb_spec s job : ownsb s job = true → owns s job.
Proof.
  unfold ownsb. destruct (nv_containments s !! _) as [c|] eqn:Hc; [|done].
  destruct (nv_invocations s !! _) as [i|] eqn:Hi; [|done]. destruct (nv_attempts s !! _) as [a|] eqn:Ha; [|done].
  intros H. guards. rewrite is_open_boundary_spec in *. split; eauto.
Qed.

Lemma ok_step {A} (x : A) r : is_ok r = true → r = (Ok (unwrap_or x r) : result StoreError A).
Proof. apply is_ok_unwrap_or. Qed.
Lemma native_ok_pair {A B} (x : A * B) r : is_ok r = true →
  r = (Ok ((unwrap_or x r).1, (unwrap_or x r).2) : result StoreError (A * B)).
Proof. intros H. rewrite (is_ok_unwrap_or x r H) at 1. by destruct (unwrap_or x r). Qed.
Ltac evaluates := first [apply ok_step | apply native_ok_pair]; vm_compute; reflexivity.

Lemma of_host_demo n : of_host caps rules (daemon n).
Proof. done. Qed.

Lemma native_step1 : step s0 s1.
Proof. eapply ns_accept; [done| |evaluates]. done. Qed.
Lemma native_step2 : step s1 s2.
Proof. eapply (ns_prepare _ _ _ _ _ _ _ d 1 (input 1100 100)); [apply of_host_demo|apply surjective_pairing]. Qed.
Lemma native_step3 : step s2 s3.
Proof. eapply ns_started; [|evaluates]. apply ownsb_spec. vm_compute. reflexivity. Qed.
Lemma native_step4 : step s3 s4.
Proof. eapply ns_settle_probe; [|evaluates]. apply ownsb_spec. vm_compute. reflexivity. Qed.
Lemma native_step5 : step s4 s5.
Proof. eapply (ns_prepare _ _ _ _ _ _ _ d 1 (input 1300 200)); [apply of_host_demo|apply surjective_pairing]. Qed.
Lemma native_step6 : step s5 s6.
Proof. eapply ns_suspended. evaluates. Qed.
Lemma native_step7 : step s6 s7.
Proof.
  eapply (ns_condition_release _ _ _ _ _ _ _ d work None (release_input 1350) s7 (Authorized (Some 101350%Z) 2350)).
  vm_compute. reflexivity.
Qed.
Lemma native_step8 : step s7 s8.
Proof. eapply ns_exited. evaluates. Qed.
Lemma native_step9 : step s8 s9.
Proof. apply ns_resolved. intros c Hc. left. vm_compute in Hc. simplify_eq. by right. Qed.
Lemma native_step10 : step s9 s10.
Proof. eapply ns_primary_result. evaluates. Qed.
Lemma native_step11 : step s10 s11.
Proof. eapply ns_settle; [|evaluates]. apply all_closed_idle. vm_compute. reflexivity. Qed.
Lemma native_step12 : step s11 s12.
Proof. eapply ns_accept; [| |evaluates]; [vm_compute; reflexivity|done]. Qed.
Lemma native_step13 : step s12 s13.
Proof. eapply (ns_prepare _ _ _ _ _ _ _ d 2 (input 1600 300)); [apply of_host_demo|apply surjective_pairing]. Qed.
Lemma native_step14 : step s13 s14.
Proof. eapply ns_started; [|evaluates]. apply ownsb_spec. vm_compute. reflexivity. Qed.
Lemma native_step15 : step s14 s15.
Proof. eapply ns_recover. evaluates. Qed.
Lemma native_step16 : step s15 s16.
Proof.
  eapply ns_resolve_incident; [|evaluates]. intros c i Hc Hi. vm_compute in Hc, Hi. by simplify_eq.
Qed.

Lemma to_s10 : history s0 s10.
Proof.
  refine (rtc_l _ s0 s1 _ (or_introl native_step1) _).
  refine (rtc_l _ s1 s2 _ (or_introl native_step2) _).
  refine (rtc_l _ s2 s3 _ (or_introl native_step3) _).
  refine (rtc_l _ s3 s4 _ (or_introl native_step4) _).
  refine (rtc_l _ s4 s5 _ (or_introl native_step5) _).
  refine (rtc_l _ s5 s6 _ (or_introl native_step6) _).
  refine (rtc_l _ s6 s7 _ (or_introl native_step7) _).
  refine (rtc_l _ s7 s8 _ (or_introl native_step8) _).
  refine (rtc_l _ s8 s9 _ (or_introl native_step9) _).
  refine (rtc_l _ s9 s10 _ (or_introl native_step10) _).
  apply rtc_refl.
Qed.
Lemma to_s11 : history s0 s11.
Proof. exact (rtc_r s0 s10 s11 to_s10 (or_introl native_step11)). Qed.
Lemma to_s14 : history s11 s14.
Proof.
  refine (rtc_l _ s11 s12 _ (or_introl native_step12) _).
  refine (rtc_l _ s12 s13 _ (or_introl native_step13) _).
  refine (rtc_l _ s13 s14 _ (or_introl native_step14) _).
  apply rtc_refl.
Qed.
Lemma to_s16 : history s14 s16.
Proof.
  refine (rtc_l _ s14 s15 _ (or_introl native_step15) _).
  refine (rtc_l _ s15 s16 _ (or_introl native_step16) _).
  apply rtc_refl.
Qed.

Lemma nothing_granted : claims_safe caps rules (grant_debits machine).
Proof.
  split; [intros key; apply N.le_0_l|]. intros l1 x l2 y l3 H.
  assert (grant_debits machine = []) as Hn by (vm_compute; reflexivity). rewrite Hn in H. by destruct l1.
Qed.
Lemma safe_s0 : claims_safe caps rules (all_claims s0).
Proof. exact nothing_granted. Qed.
Lemma inv_s11 : life_inv (abs s11) ∧ claims_safe caps rules (all_claims s11).
Proof. exact (history_inv _ _ _ _ _ _ _ _ to_s11 (life_inv_empty machine) safe_s0). Qed.
Lemma inv_s14 : life_inv (abs s14) ∧ claims_safe caps rules (all_claims s14).
Proof. exact (history_inv _ _ _ _ _ _ _ _ to_s14 (proj1 inv_s11) (proj2 inv_s11)). Qed.

(** ** Witnesses *)
Lemma native_transactions_refine_life_witness :
  rtc (life_step caps rules (remote s10)) (abs s10) (abs s11) ∧ remote s11 = remote s10.
Proof.
  apply (native_transactions_refine_life caps rules show condition_json blockers_json resolve_fences s10 s11).
  - exact (proj1 (history_inv _ _ _ _ _ _ _ _ to_s10 (life_inv_empty machine) safe_s0)).
  - exact native_step11.
Defined.

Lemma native_histories_are_safe_witness : native_safe caps rules s11.
Proof.
  apply (native_histories_are_safe caps rules show condition_json blockers_json resolve_fences machine s11).
  - exact nothing_granted.
  - exact to_s11.
Defined.

Lemma final_jobs_stay_final_witness : (nj_outcome <$> nv_jobs s16 !! 1) = Some (Some JSucceeded).
Proof.
  destruct (final_jobs_stay_final caps rules show condition_json blockers_json resolve_fences s11 s16 1
    (default (accepted [] 0) (nv_jobs s11 !! 1))) as (j & Hj & _ & Ho & _).
  - apply inv_s11.
  - apply inv_s11.
  - etrans; [exact to_s14|exact to_s16].
  - vm_compute. reflexivity.
  - vm_compute. reflexivity.
  - transitivity (Some (nj_outcome j)); [exact (f_equal (fmap nj_outcome) Hj)|]. rewrite Ho. vm_compute. reflexivity.
Defined.

Lemma recovery_settles_everything_witness : calm s15 ∧ life_inv (abs s15).
Proof.
  apply (recovery_settles_everything (daemon 901) s14 2000 2000 (λ c, c + 9000) (λ _, false) s15).
  - apply inv_s14.
  - apply ok_step. vm_compute. reflexivity.
Defined.


Lemma started_identity_reads_back_witness :
  ∃ i, nv_invocations s3 !! pj_invocation_id probe_job = Some i ∧ ni_state i = IStarted ∧
    root_identity_of i = Ok (Some identity).
Proof.
  apply (started_identity_reads_back d s2 probe_job 77 "hash" identity (Ok tt) 1150 s3).
  apply ok_step. vm_compute. reflexivity.
Defined.

End NativeDemo.
