(* ===== verification/Runner.v ===== *)
(** * Runner: the runner of an invocation ([src/src/runner/lifecycle.rs])

    A runner is a thread of its own: it holds the lock of the store for one section
    at a time, and between sections other threads run transactions.  [Prog] is a
    program of such sections and of executions of an invocation by the platform; the
    functions of [lifecycle.rs] are translated to it in their own shape.  A section
    gets what it reads from the world as [Answers]: clocks, fresh identities, whether
    the lock is poisoned and which statements of the database fail.  Reports on
    standard error and the registry of live handles ([LiveContainments]) are left
    out. *)
From S2P Require Import Prelude Spec Validate Kernel Scoped Observation Machine MachineStore Reservation.
From S2P Require Import Native ConditionStore ProcessRecords Lifecycle Schedule Release.

(** [n as i32] of a [u32] *)
Definition as_i32 (n : N) : Z := if bool_decide (n < 2147483648) then Z.of_N n else (Z.of_N n - 4294967296)%Z.

Record RunProgress := {
  rp_user_code_released : bool;
  rp_durable_release_authorized : bool;
  rp_release_authorized : bool;
  rp_pre_release_replanned : bool;
  rp_cleanup_proven : bool;
  rp_uncertainty_persisted : bool;
  rp_exit_code : option Z;
  rp_timed_out : bool;
  rp_canceled : bool;
  rp_never_run_reason : option string;
}.

(** What a section reads from the world. *)
Record Answers := {
  an_poisoned : bool;
  an_fault : nat → option StoreError;   (* of the n-th call of the section *)
  an_now : Z;
  an_resolved : Z;
  an_opened : Z;
  an_retry : Z;
  an_monotonic : N;
  an_observation : Uuid;
  an_invocation : Uuid;
  an_containment : Uuid;
  an_retained : Uuid → bool;
  an_prune_failed : bool;
}.

(** [execute] gives the progress and, unless it failed, exit code and timeout. *)
Inductive Prog : Type :=
| Done
| Locked {B : Type} (section : Answers → NativeStore → NativeStore * B) (k : B → Prog)
| Execute (job : PreparedJob) (k : RunProgress → option (N * bool) → Prog).

(** A call of the store: it commits and returns, or leaves the tables as they were. *)
Definition call {A} (fault : option StoreError) (r : result StoreError (NativeStore * A)) (s : NativeStore)
    : NativeStore * result StoreError A :=
  match fault with
  | Some e => (s, Err e)
  | None => match r with Ok (s', a) => (s', Ok a) | Err e => (s, Err e) end
  end.
Definition call_ (fault : option StoreError) (r : result StoreError NativeStore) (s : NativeStore)
    : NativeStore * result StoreError unit :=
  call fault (s' ← r; Ok (s', tt)) s.

(** [store.lock()], as an option: a poisoned lock skips the section. *)
Definition locked {B} (f : Answers → NativeStore → NativeStore * B) (w : Answers) (s : NativeStore)
    : NativeStore * option B :=
  if an_poisoned w then (s, None) else let '(s, b) := f w s in (s, Some b).

(** [call1] then, when it went well, [call2]. *)
Definition and_then {A B} (r : NativeStore * result StoreError A)
    (f : A → NativeStore → NativeStore * result StoreError B) : NativeStore * result StoreError B :=
  match r with
  | (s, Ok a) => f a s
  | (s, Err e) => (s, Err e)
  end.

Section runner.
Context (d : Daemon).
Implicit Types (s : NativeStore) (job : PreparedJob) (w : Answers).

Definition failed_run_verdict (p : RunProgress) : AttemptVerdict :=
  if rp_canceled p then VCanceled
  else if rp_timed_out p then VTimedOut
  else if rp_user_code_released p then VInterrupted
  else VStartFailed.

Definition record_runner_result job (verdict : AttemptVerdict) (fault : option StoreError) s
    : NativeStore * result StoreError unit :=
  let record v t :=
    match call fault (record_primary_result s job v t) s with
    | (s, Ok _) => (s, Ok tt)
    | (s, Err e) => (s, Err e)
    end in
  match verdict with
  | VSucceeded => record PSucceeded TExited
  | VProcessFailed => record PProcessFailed TExited
  | VStartFailed => record PStartFailed TStartFailed
  | VTimedOut => record PTimedOut TTimeout
  | VInterrupted => record PInterrupted TInterrupt
  | VSafetyFailed => record PSafetyFailed TSafetyFailure
  | VCanceled => record PCanceled TCancel
  | VPostconditionRetryable | VPostconditionFailed =>
      (s, Err (EInvalidState "postcondition verdict cannot define the primary Invocation result"))
  end.

Definition resolve_call job (exit_code : option Z) (classification : option ExitClassification) w s
    : NativeStore * result StoreError unit :=
  call_ (an_fault w 0) (Ok (mark_invocation_resolved s job exit_code classification (an_resolved w))) s.

(** [job.role != Primary || record_primary_result(…).is_ok()] *)
Definition record_if_primary job (verdict : AttemptVerdict) w s : NativeStore * result StoreError unit :=
  if decide (pj_role job = RolePrimary) then record_runner_result job verdict (an_fault w 1) s else (s, Ok tt).

Definition settle_call job (verdict : AttemptVerdict) w s : NativeStore * result StoreError unit :=
  and_then (call (an_fault w 2) (settle_attempt s job verdict (an_now w) (an_retry w)) s) (λ _ s, (s, Ok tt)).

(** Resolve, record and settle, as long as they go well. *)
Definition resolve_and_settle job exit_code classification verdict w s : NativeStore * result StoreError unit :=
  and_then (resolve_call job exit_code classification w s) (λ _ s,
  and_then (record_if_primary job verdict w s) (λ _ s, settle_call job verdict w s)).

Definition finish_completed_invocation job exit_code classification verdict : Prog :=
  Locked (locked (resolve_and_settle job exit_code classification verdict)) (λ _, Done).

Definition persist_uncertain_cleanup job (p : RunProgress) w s : NativeStore * result StoreError unit :=
  call_ (an_fault w 0)
    (if decide (pj_role job = RoleProbe)
     then mark_probe_uncertain s job (rp_exit_code p) (an_resolved w) (an_opened w) (an_now w)
     else if (bool_decide (is_Some (job_quiet (pj_spec job))) || negb (bool_decide (length (job_conditions (pj_spec job)) = 0%nat)))
             && negb (rp_release_authorized p)
     then mark_pre_release_cleanup_uncertain s job (rp_exit_code p) (an_now w) (an_opened w) (an_resolved w)
     else mark_uncertain s job (rp_exit_code p) VInterrupted (an_now w) (an_opened w) (an_resolved w)) s.

Definition finish_failed_section job (p : RunProgress) (postcondition : bool) w s : NativeStore * result StoreError unit :=
  if rp_cleanup_proven p then
    match (if rp_user_code_released p then None else rp_never_run_reason p) with
    | Some reason => call_ (an_fault w 0) (replan_never_run d s job reason (an_now w)) s
    | None =>
        let failed := failed_run_verdict p in
        let verdict := if postcondition && bool_decide (failed = VStartFailed) then VPostconditionFailed else failed in
        resolve_and_settle job (rp_exit_code p)
          (if decide (verdict = VPostconditionFailed) then Some ExitFailed else None) verdict w s
    end
  else if negb (rp_uncertainty_persisted p) then persist_uncertain_cleanup job p w s
  else (s, Ok tt).

Definition finish_failed_invocation job p postcondition : Prog :=
  Locked (locked (finish_failed_section job p postcondition)) (λ _, Done).

(** [pending_stop_verdict]; the lock is given back before the clock is read, which
    concerns no table. *)
Definition pending_stop_verdict job (preserve_readiness_terminal : bool) w s
    : NativeStore * result StoreError (option AttemptVerdict) :=
  let timed_out := match pj_attempt_deadline_unix_millis job with
    | Some deadline => if bool_decide (deadline ≤ an_retry w)%Z then Some VTimedOut else None
    | None => None end in
  if an_poisoned w then (s, Err (EInvalidState "store mutex poisoned"))
  else if preserve_readiness_terminal then
    and_then (call (an_fault w 0) (pre_resume_defer_reason s (pj_job_id job) (an_now w)) s) (λ reason s,
      match reason with
      | Some reason => (s, Ok (Some (if contains "outcome=failed" reason then VSafetyFailed else VCanceled)))
      | None => (s, Ok timed_out)
      end)
  else
    and_then (call (an_fault w 0) (invocation_stop_requested s (pj_job_id job) (an_now w)) s) (λ stop s,
      if stop : bool then (s, Ok (Some VCanceled)) else (s, Ok timed_out)).

(** [store.lock().map_err(…).and_then(…)] *)
Definition locked_err {A} (f : Answers → NativeStore → NativeStore * result StoreError A) w s
    : NativeStore * result StoreError A :=
  if an_poisoned w then (s, Err (EInvalidState "store mutex poisoned")) else f w s.

Definition prepare_post_section job (index : nat) w s : NativeStore * result StoreError PreparedJob :=
  call (an_fault w 0) (prepare_postcondition d s job index (an_invocation w) (an_containment w)) s.

Definition classify (p : PostconditionSpec) (code : Z) : ExitClassification :=
  if bool_decide (code ∈ post_accepted_exit_codes p) then ExitAccepted
  else if bool_decide (code ∈ post_retryable_exit_codes p) then ExitRetryable
  else ExitFailed.

(** The last section of [run_with_wake]. *)
Definition settle_and_end job (verdict : AttemptVerdict) : Prog :=
  Locked (locked (settle_call job verdict)) (λ _, Done).

(** The loop over the postconditions, from [index]. *)
Fixpoint run_postconditions job (posts : list PostconditionSpec) (index : nat) (verdict : AttemptVerdict) : Prog :=
  match posts with
  | [] => settle_and_end job verdict
  | definition :: posts =>
      Locked (pending_stop_verdict job false) (λ r,
      match r with
      | Ok (Some stop) => settle_and_end job stop
      | Err _ => settle_and_end job VInterrupted
      | Ok None =>
          Locked (locked_err (prepare_post_section job index)) (λ r,
          match r with
          | Err _ => settle_and_end job VPostconditionFailed
          | Ok postcondition =>
              Execute postcondition (λ progress result,
              match result with
              | None => finish_failed_invocation postcondition progress true
              | Some (exit_code, timed_out) =>
                  let code := as_i32 exit_code in
                  if rp_canceled progress || (timed_out : bool) then
                    let stop := if rp_canceled progress then VCanceled else VTimedOut in
                    Locked (locked (resolve_call postcondition (Some code) None)) (λ r,
                    match r with
                    | None => Done
                    | Some (Ok _) => settle_and_end job stop
                    | Some (Err _) => finish_completed_invocation postcondition (Some code) None stop
                    end)
                  else
                    let classification := classify definition code in
                    let classified := match classification with
                      | ExitAccepted => verdict
                      | ExitRetryable => VPostconditionRetryable
                      | ExitFailed => VPostconditionFailed end in
                    Locked (locked (resolve_call postcondition (Some code) (Some classification))) (λ r,
                    match r with
                    | None => Done
                    | Some (Err _) =>
                        finish_completed_invocation postcondition (Some code) (Some classification) classified
                    | Some (Ok _) =>
                        if decide (classification = ExitAccepted)
                        then run_postconditions job posts (S index) classified
                        else settle_and_end job classified
                    end)
              end)
          end)
      end)
  end.

(** The section after the primary: [mark_invocation_resolved] and its result. *)
Definition primary_section job (exit_code : Z) (verdict : AttemptVerdict) w s : NativeStore * result StoreError unit :=
  and_then (resolve_call job (Some exit_code) None w s) (λ _ s, record_runner_result job verdict (an_fault w 1) s).

Definition run_probe_with_wake job : Prog :=
  let settle code timed_out w s :=
    call_ (an_fault w 0) (settle_probe d s job code timed_out (an_now w) (an_monotonic w) (an_observation w)
      (an_retained w) (an_prune_failed w)) s in
  Execute job (λ progress result,
  match result with
  | Some (exit_code, timed_out) =>
      Locked (locked_err (settle (Some (as_i32 exit_code)) timed_out)) (λ _, Done)
  | None =>
      if rp_cleanup_proven progress
      then Locked (locked_err (settle (rp_exit_code progress) (rp_timed_out progress))) (λ _, Done)
      else if negb (rp_uncertainty_persisted progress)
      then Locked (locked (λ w s, call_ (an_fault w 0)
             (mark_probe_uncertain s job (rp_exit_code progress) (an_resolved w) (an_opened w) (an_now w)) s)) (λ _, Done)
      else Done
  end).

Definition run_with_wake job : Prog :=
  if decide (pj_role job = RoleProbe) then run_probe_with_wake job else
  Execute job (λ progress result,
  match result with
  | None => finish_failed_invocation job progress false
  | Some (exit_code, timed_out) =>
      if rp_pre_release_replanned progress then Done else
      let verdict := if rp_canceled progress then VCanceled
        else if timed_out then VTimedOut
        else if decide (exit_code = 0) then VSucceeded else VProcessFailed in
      Locked (locked (primary_section job (as_i32 exit_code) verdict)) (λ r,
      match r with
      | None => Done
      | Some (Err _) => finish_completed_invocation job (Some (as_i32 exit_code)) None verdict
      | Some (Ok _) =>
          if bool_decide (verdict = VCanceled) || bool_decide (verdict = VTimedOut)
          then settle_and_end job verdict
          else run_postconditions job (job_postconditions (pj_spec job)) 0 verdict
      end)
  end).
End runner.
