(* ===== verification/RunnerFacts.v ===== *)
(** * RunnerFacts: runners keep the rules of the native tables

    [NativeHistory.v] names what the callers of a transaction guarantee.  Here the
    runner of an invocation is shown to guarantee it, section by section and whatever
    other threads do between its sections, as long as they leave the work of its
    attempt to it ([others]); the platform promises what [Executor] states. *)
From S2P Require Import Prelude Spec Validate Kernel Scoped ScopedFacts Observation Machine MachineStore.
From S2P Require Import MachineFacts ExchangeFacts Reservation ReservationFacts MachineOffer OfferFacts.
From S2P Require Import Native ConditionStore ProcessRecords Lifecycle Schedule Release NativeRecovery Life LifeFacts.
From S2P Require Import Refinement LifecycleRefinement ReleaseRefinement RecoveryRefinement ScheduleRefinement.
From S2P Require Import NativeHistory Runner.

(** ** Ownership, seen from the abstract life *)
Record owned (lf : Life) (job : PreparedJob) : Prop := {
  od_boundary : ∃ b, lf_boundaries lf !! pj_containment_id job = Some b ∧
    bl_invocation b = pj_invocation_id job ∧ handled (bl_state b);
  od_invocation : lf_invocations lf !! pj_invocation_id job =
    Some {| il_attempt := pj_attempt_id job; il_role := pj_role job |};
  od_attempt : ∃ row, lf_attempts lf !! pj_attempt_id job = Some row ∧ al_job row = pj_job_id job;
}.

Lemma owns_abs s job : owns s job ↔ owned (abs s) job.
Proof.
  split.
  - intros [(c & Hc & Hci & Hh) (i & Hi & Hia & Hir) (a & Ha & Haj)]. split.
    + exists (boundary_life c). split_and!; [by apply abs_boundary|done|done].
    + rewrite (abs_invocation _ _ _ Hi). unfold invocation_life. by rewrite Hia, Hir.
    + exists (attempt_life a). split; [by apply abs_attempt|done].
  - intros [(b & Hb & Hbi & Hh) Hi (row & Ha & Haj)].
    apply abs_boundary_inv in Hb as (c & Hc & ->). apply abs_invocation_inv in Hi as (i & Hi & Hl).
    apply abs_attempt_inv in Ha as (a & Ha & ->). injection Hl as E1 E2. split; [by exists c|by exists i|by exists a].
Qed.

Lemma owns_role_frame s s' job : frame s s' → owns s job → owns s' job.
Proof. intros Hf. rewrite !owns_abs, (fr_abs _ _ Hf). done. Qed.

Lemma idle_abs s s' a : lf_boundaries (abs s') = lf_boundaries (abs s) → lf_invocations (abs s') = lf_invocations (abs s) →
  idle s a → idle s' a.
Proof. intros Hb Hi H c (b & inv & Hc & Hinv & ?). rewrite Hb in Hc. rewrite Hi in Hinv. by apply (H c); exists b, inv. Qed.

Lemma idle_frame s s' a : frame s s' → idle s a → idle s' a.
Proof. intros Hf. apply idle_abs; by rewrite (fr_abs _ _ Hf). Qed.

Lemma may_resolve_frame s s' job : frame s s' → may_resolve s job → may_resolve s' job.
Proof.
  intros Hf H c Hc. apply abs_boundary in Hc. rewrite (fr_abs _ _ Hf) in Hc.
  apply abs_boundary_inv in Hc as (c' & Hc' & Hl). injection Hl as E1 E2. rewrite E2. by apply H.
Qed.

Lemma owns_may_resolve s job : owns s job → may_resolve s job.
Proof. intros [(c & Hc & _ & Hh) _ _] c' Hc'. left. congruence. Qed.

(** A resolved boundary is empty and its attempt idle. *)
Lemma resolved_idle s job code cls now : life_inv (abs s) → owns s job → pj_role job ≠ RoleProbe →
  idle (mark_invocation_resolved s job code cls now) (pj_attempt_id job).
Proof.
  intros Hinv Hown Hrole. set (s' := mark_invocation_resolved s job code cls now).
  assert (lf_invocations (abs s') = lf_invocations (abs s)) as Hi.
  { unfold s', mark_invocation_resolved, abs. simpl. by rewrite fmap_alter_frame. }
  assert (∀ k, lf_boundaries (abs s') !! k = boundary_life <$>
    (if decide (k = pj_containment_id job) then (λ c, c <| nt_state := CEmpty |>) <$> nv_containments s !! k
     else nv_containments s !! k)) as Hb.
  { intros k. unfold s', mark_invocation_resolved, abs. simpl. rewrite lookup_fmap. f_equal.
    destruct (decide (k = _)) as [->|Hne]; [by rewrite lookup_alter_eq|by rewrite lookup_alter_ne]. }
  apply (owns_idle s s' job Hinv Hown Hrole Hi).
  - intros k b Hk Hne. rewrite Hb, decide_False in Hk by done. simpl. by rewrite lookup_fmap.
  - intros b Hk. rewrite Hb, decide_True in Hk by done. destruct (nv_containments s !! _) as [c|]; simpl in Hk; [|done].
    injection Hk as <-. simpl. by intros [?|?].
Qed.

Lemma resolved_may_resolve s job code cls now : may_resolve (mark_invocation_resolved s job code cls now) job.
Proof.
  intros c. unfold mark_invocation_resolved. simpl. rewrite lookup_alter_eq.
  destruct (nv_containments s !! _) as [c'|]; [|done]. simpl. intros [= <-]. by right.
Qed.

Lemma resolved_idle_again s job code cls now : idle s (pj_attempt_id job) → may_resolve s job →
  idle (mark_invocation_resolved s job code cls now) (pj_attempt_id job).
Proof.
  intros Hidle Hmay c (b & inv & Hb & Hi & Ha & Hr & Hh).
  assert (lf_invocations (abs s) !! bl_invocation b = Some inv) as Hi'.
  { revert Hi. unfold mark_invocation_resolved, abs. simpl. by rewrite fmap_alter_frame. }
  apply abs_boundary_inv in Hb as (row & Hrow & ->). revert Hrow. unfold mark_invocation_resolved. simpl.
  destruct (decide (c = pj_containment_id job)) as [->|Hne].
  - rewrite lookup_alter_eq. destruct (nv_containments s !! _) as [c'|]; [|done]. simpl. intros [= <-].
    by destruct Hh as [?|?].
  - rewrite lookup_alter_ne by done. intros Hrow. apply (Hidle c). exists (boundary_life row), inv.
    by split_and!; [apply abs_boundary|..].
Qed.

(** Before its boundary is resolved the runner owns it; afterwards it may resolve it
    again. *)
Definition ready s (job : PreparedJob) : Prop := owns s job ∨ (idle s (pj_attempt_id job) ∧ may_resolve s job).

Lemma ready_may_resolve s job : ready s job → may_resolve s job.
Proof. intros [?|[_ ?]]; [by apply owns_may_resolve|done]. Qed.

Lemma ready_resolved s job code cls now : life_inv (abs s) → pj_role job ≠ RoleProbe → ready s job →
  idle (mark_invocation_resolved s job code cls now) (pj_attempt_id job).
Proof. intros ?? [?|[??]]; [by apply resolved_idle|by apply resolved_idle_again]. Qed.

(** Rows a stop request leaves alone. *)
Lemma finalize_if_ready_rows s job now s' b : finalize_pending_condition_terminal_if_ready_tx s job now = Ok (s', b) →
  nv_containments s' = nv_containments s ∧ nv_invocations s' = nv_invocations s.
Proof.
  assert (∀ o r, nv_containments (finalize_pending_condition_terminal_tx s job o r now) = nv_containments s ∧
    nv_invocations (finalize_pending_condition_terminal_tx s job o r now) = nv_invocations s) as Hf.
  { intros o r. unfold finalize_pending_condition_terminal_tx, upd_job_state, jobs_reservation_cleanup.
    repeat (simpl; case_match); done. }
  unfold finalize_pending_condition_terminal_if_ready_tx. intros H. result_inv. branch H; [by simplify_eq|].
  destruct (first_deadline _ _ _); [simplify_eq; apply Hf|]. branch H; simplify_eq; [apply Hf|done].
Qed.

Lemma stop_requested_idle s job now s' b a : invocation_stop_requested s job now = Ok (s', b) → idle s a → idle s' a.
Proof.
  unfold invocation_stop_requested. intros H. result_inv. branch H; result_inv; [|by simplify_eq].
  destruct a1 as [s1 o]. result_inv. simplify_eq.
  unfold expire_condition_deadline_tx in Hstep0. destruct (first_deadline _ _ _); [|by simplify_eq].
  result_inv. destruct a1 as [s2 b2]. result_inv. simplify_eq.
  match goal with H : finalize_pending_condition_terminal_if_ready_tx _ _ _ = _ |- _ =>
    apply finalize_if_ready_rows in H as [Hc Hi] end.
  apply idle_abs; simpl; by rewrite ?Hc, ?Hi.
Qed.

(** A prepared postcondition is owned. *)
Lemma postcondition_owned d s primary index i c s' post : life_inv (abs s) →
  prepare_postcondition d s primary index i c = Ok (s', post) →
  owns s' post ∧ pj_attempt_id post = pj_attempt_id primary ∧ pj_job_id post = pj_job_id primary ∧
  pj_role post = RolePostcondition.
Proof.
  intros Hinv. unfold prepare_postcondition, get_job. intros H.
  destruct (nv_jobs s !! pj_job_id primary) as [j|] eqn:Hj; simpl in H; result_inv. simplify_eq. guards. subst.
  destruct (nj_attempt_id j) as [at_|] eqn:Hat; simplify_eq/=.
  match goal with H : insert_prepared _ _ _ _ _ _ _ s = Ok _ |- _ => apply insert_prepared_spec in H as
    (Habs & Hprep & _ & Hrem & Hjobs & Hatt & _) end.
  split_and!; [|done..]. eapply owns_role_frame; [by apply frame_upd_job|]. apply owns_abs. rewrite Habs.
  split; simpl.
  - eexists. split_and!; [by rewrite lookup_insert_eq|done|by left].
  - by rewrite lookup_insert_eq.
  - destruct (li_active _ Hinv (pj_job_id primary) (job_life j)) as (a' & arow & Ha' & Harow & Hjob & _);
      [by apply abs_job|done|]. simpl in Ha'. rewrite Hat in Ha'. simplify_eq. by exists arow.
Qed.

(** ** What the scheduler hands to a runner is owned *)
Definition belongs s (at_ job : Uuid) : Prop := ∃ row, lf_attempts (abs s) !! at_ = Some row ∧ al_job row = job.

Lemma belongs_frame s s' at_ job : frame s s' → belongs s at_ job → belongs s' at_ job.
Proof. intros Hf. unfold belongs. by rewrite (fr_abs _ _ Hf). Qed.

Lemma belongs_upd s f at_ job : (∀ a, na_job_id (f a) = na_job_id a) → belongs s at_ job → belongs (upd_attempt at_ f s) at_ job.
Proof.
  intros Hf (row & Hrow & Hj). pose proof Hrow as (a & Ha & ->)%abs_attempt_inv. exists (attempt_life (f a)).
  rewrite (abs_upd_attempt _ _ _ a) by done. split; [apply lookup_insert_eq|]. simpl. by rewrite Hf.
Qed.

Lemma belongs_pending s job j at_ : life_inv (abs s) → nv_jobs s !! job = Some j → nj_state j = Pending →
  nj_attempt_id j = Some at_ → belongs s at_ job.
Proof.
  intros Hinv Hj Hp Hat. destruct (li_pending _ Hinv job (job_life j) at_) as (ar & Har & Hjob & _); [by apply abs_job|done|done|].
  by exists ar.
Qed.

Lemma set_starting_job from started deadline a : na_job_id (set_starting from started deadline a) = na_job_id a.
Proof. unfold set_starting, where_. by case_bool_decide. Qed.

Lemma primary_owned d s s' job at_ ids claims spec stdin deadline : belongs s at_ job →
  insert_primary d at_ ids claims s = Ok s' → owns s' (primary_job job at_ ids spec stdin deadline).
Proof.
  intros (row & Hrow & Hj) (Habs & _)%insert_primary_spec. apply owns_abs. rewrite Habs. split; simpl.
  - eexists. split_and!; [by rewrite lookup_insert_eq|done|by left].
  - by rewrite lookup_insert_eq.
  - by exists row.
Qed.

(** Transactions that end otherwise. *)
Lemma not_yielded s job s' p : Ok (yield_reservation s job) = Ok (Commit s' (inl (PrepareReady p)) : Tx Preparation) :> result StoreError _ → False.
Proof. unfold yield_reservation. destruct (release_reservation job s) as [? []]; done. Qed.

Lemma not_asked_for_probe (s : NativeStore) job (changed : bool) spec s' p :
  (let '(s2, released) := release_reservation job s in
   let next : Preparation := if released : bool then inl PrepareStateChanged else inr spec in
   Ok (if (released : bool) || changed then Commit s2 next else Rollback next))
  = Ok (Commit s' (inl (PrepareReady p))) :> result StoreError (Tx Preparation) → False.
Proof. destruct (release_reservation job s) as [s2 []]; [done|]. by destruct changed. Qed.

Section preparation.
Context (uuid_to_string : Uuid → string) (condition_json : ConditionSpec → string)
  (resolve_fences : list string → result StoreError (gset string)) (d : Daemon).

Lemma prepare_tx_owned s job input s' p : life_inv (abs s) →
  prepare_tx condition_json d s job input = Ok (Commit s' (inl (PrepareReady p))) → owns s' p.
Proof.
  intros Hinv. unfold prepare_tx. destruct (ready_row s job (pi_now input)) as [j|] eqn:Hready; [|done].
  apply ready_row_spec in Hready as [Hj Hp]. intros H. result_inv. destruct a as [s0 expired].
  branch H; [done|]. destruct expired; [done|]. apply expire_none in Hstep as ->.
  destruct (dependency_blockers_tx s job) as [deps impossible]. branch H; [done|]. branch H.
  { by destruct (not_yielded _ _ _ _ H). }
  result_inv. destruct a as [s1 refresh]. apply (sim_refresh no_capacity ∅) in Hstep as [_ Hc1].
  branch H; [done|]. specialize (Hc1 eq_refl). branch H.
  { by destruct (not_asked_for_probe _ _ _ _ _ _ H). }
  branch H; [by destruct (not_yielded _ _ _ _ H)|].
  result_inv. destruct a as [s2 final]. apply (sim_refresh no_capacity ∅) in Hstep as [_ Hc2]. branch H; [done|].
  guards. match goal with H : cf_deadline_expired final = false |- _ => specialize (Hc2 H) end.
  result_inv. destruct a as [s3 disp]. apply frame_native_disposition in Hstep as (Hf3 & _ & _).
  destruct disp; simplify_eq; [|done..]. result_inv. destruct a0 as [s4 attempt]. result_inv. simplify_eq.
  assert (frame s s3) as Hf by (etrans; [by apply frame_conditions|]; etrans; [by apply frame_conditions|exact Hf3]).
  eapply primary_owned; [|eassumption]. apply belongs_upd; [apply set_starting_job|].
  eapply belongs_frame; [apply frame_if; [apply frame_ensure_admitting_row|done]|].
  assert (belongs s4 attempt job) as (row & Hrow & Hjob).
  { destruct (nj_attempt_id j) as [key|] eqn:Hat; result_inv; simplify_eq.
    - eapply belongs_frame; [exact Hf|by eapply belongs_pending].
    - match goal with H : insert_planned_attempt _ _ _ _ = Ok _ |- _ =>
        apply insert_planned_attempt_spec in H as (_ & row & -> & Hrow) end.
      eexists. split; [simpl; rewrite fmap_insert; apply lookup_insert_eq|]. by rewrite Hrow. }
  exists row. split; [|done]. revert Hrow. unfold abs. simpl. by rewrite (proj1 (upd_job_state_fields _ _ _ _)).
Qed.

(** A transaction that hands out an invocation commits. *)
Ltac follow H :=
  repeat (result_inv; first [discriminate H | branch H
    | lazymatch type of H with match ?x with _ => _ end = _ => destruct x; try discriminate H end]).

Lemma prepare_tx_commits s job input p : prepare_tx condition_json d s job input ≠ Ok (Rollback (inl (PrepareReady p))).
Proof. unfold prepare_tx, yield_reservation. intros H. follow H. by case_bool_decide. Qed.

Lemma observed_tx_commits s job input p :
  observed_tx uuid_to_string condition_json d s job input ≠ Ok (Rollback (inl (PrepareReady p))).
Proof. unfold observed_tx, yield_reservation, observe_admission, reserve_observed, start_observed. intros H. follow H. all: by case_bool_decide. Qed.

Lemma start_observed_owned s job input j at_ context s' p : belongs s at_ job →
  start_observed uuid_to_string d s job input j at_ context = Ok (Commit s' (inl (PrepareReady p))) → owns s' p.
Proof.
  intros Hb. unfold start_observed. intros H. result_inv. simplify_eq.
  eapply owns_role_frame; [apply frame_upd_admission|]. eapply primary_owned; [|eassumption].
  apply belongs_upd; [apply set_starting_job|]. destruct Hb as (row & Hrow & Hjob). exists row. split; [|done].
  revert Hrow. unfold abs. simpl. by rewrite (proj1 (upd_job_state_fields _ _ _ _)).
Qed.

Lemma reserve_observed_owned s job input j at_ active context s' p : belongs s at_ job →
  reserve_observed uuid_to_string condition_json d s job input j at_ active context = Ok (Commit s' (inl (PrepareReady p))) →
  owns s' p.
Proof.
  intros Hb. unfold reserve_observed. intros H. result_inv. destruct a as [s1 final].
  apply (sim_refresh no_capacity ∅) in Hstep as [_ Hc1]. branch H; [done|].
  guards. match goal with H : cf_deadline_expired final = false |- _ => specialize (Hc1 H) end.
  result_inv. destruct a as [s2 disp]. apply frame_native_disposition in Hstep as (Hf2 & _ & _).
  destruct disp; simplify_eq; [|done..]. eapply start_observed_owned; [|exact H].
  eapply belongs_frame; [exact Hf2|]. by eapply belongs_frame; [apply frame_conditions|].
Qed.

Lemma observe_admission_owned s job input j at_ active s' p : belongs s at_ job →
  observe_admission uuid_to_string condition_json d s job input j at_ active = Ok (Commit s' (inl (PrepareReady p))) →
  owns s' p.
Proof.
  intros Hb. unfold observe_admission. intros H. destruct (pi_observation input) as [moment|].
  2: { branch H; [|done]. by result_inv. }
  result_inv. branch H; [by result_inv|]. branch H; [done|].
  destruct (job_quiet (nj_spec j)) as [quiet|]; [|by eapply reserve_observed_owned].
  destruct (advance_quiet _ _ _ _ _ _ _) as [[[s1 context'] stable]|] eqn:Hq; [|by result_inv].
  apply frame_advance_quiet in Hq. branch H; [done|]. eapply reserve_observed_owned; [by eapply belongs_frame|exact H].
Qed.

Lemma observed_tx_owned s job input s' p : life_inv (abs s) →
  observed_tx uuid_to_string condition_json d s job input = Ok (Commit s' (inl (PrepareReady p))) → owns s' p.
Proof.
  intros Hinv. unfold observed_tx. destruct (expire_due_reservations_tx (view s) (pi_now input)) as [v due]. intros H.
  branch H; [done|]. destruct (ready_row s job (pi_now input)) as [j|] eqn:Hready; [|done].
  apply ready_row_spec in Hready as [Hj Hp]. result_inv. destruct a as [s0 expired].
  branch H; [done|]. destruct expired; [done|]. apply expire_none in Hstep as ->.
  destruct (dependency_blockers_tx s job) as [deps impossible]. branch H; [done|].
  branch H; [by destruct (not_yielded _ _ _ _ H)|].
  result_inv. destruct a as [s1 refresh]. apply (sim_refresh no_capacity ∅) in Hstep as [_ Hc1].
  branch H; [done|]. specialize (Hc1 eq_refl). branch H; [by destruct (not_asked_for_probe _ _ _ _ _ _ H)|].
  destruct (nj_attempt_id j) as [attempt|] eqn:Hat; [|by result_inv].
  branch H; [branch H; [by result_inv|done]|]. eapply observe_admission_owned; [|exact H].
  apply belongs_upd; [intros a; unfold where_; by destruct (bool_decide (na_state a = APlanned))|].
  eapply belongs_frame; [apply frame_ensure_admitting_row|]. eapply belongs_frame; [by apply frame_conditions|].
  by eapply belongs_pending.
Qed.

Lemma due_probe_owned s job spec obs ids now s' p : life_inv (abs s) →
  prepare_due_probe uuid_to_string resolve_fences d s job spec obs ids now = Ok (s', Some p) → owns s' p.
Proof.
  intros Hinv. unfold prepare_due_probe. intros H. branch H; [done|].
  destruct (due_probe s job now) as [[condition c]|] eqn:Hdue; [|done].
  apply due_probe_spec in Hdue as (j & Hj & Hp). destruct (cond_predicate (nc_spec c)); result_inv. branch H; [done|].
  unfold planned_attempt, get_job in H. rewrite Hj in H. simpl in H. result_inv. destruct a1 as [s1 at_]. result_inv.
  simplify_eq. eapply owns_role_frame; [apply frame_upd_condition|]. set (s2 := if is_none _ then _ else _) in *.
  assert (belongs s2 at_ job) as (row & Hrow & Hjob).
  { subst s2. destruct (nj_attempt_id j) as [key|] eqn:Hat; result_inv; simplify_eq; [by eapply belongs_pending|].
    match goal with H : insert_planned_attempt _ _ _ _ = Ok _ |- _ =>
      apply insert_planned_attempt_spec in H as (_ & row & -> & Hrow) end.
    exists (attempt_life row). simpl. rewrite fmap_insert. split; [apply lookup_insert_eq|by injection Hrow]. }
  match goal with H : insert_prepared _ _ _ _ _ _ _ _ = Ok _ |- _ => apply insert_prepared_spec in H as (Habs & _) end.
  match goal with H : insert_lease _ _ _ = Ok _ |- _ => apply insert_lease_spec in H as [_ ->] end.
  apply owns_abs. match goal with |- owned (abs (?s <| nv_leases ::= ?f |>)) _ =>
    change (abs (s <| nv_leases ::= f |>)) with ((abs s) <| lf_leases ::= f |>) end.
  rewrite Habs. split; simpl.
  - eexists. split_and!; [by rewrite lookup_insert_eq|done|by left].
  - by rewrite lookup_insert_eq.
  - by exists row.
Qed.

Lemma finish_prepare_owned s job input obs (r : result StoreError (Tx Preparation)) s' p :
  life_inv (abs s) → life_inv (abs (run_tx s r).1) →
  (∀ s1 q, r = Ok (Commit s1 (inl (PrepareReady q))) → owns s1 q) →
  (∀ q, r ≠ Ok (Rollback (inl (PrepareReady q)))) →
  finish_prepare uuid_to_string resolve_fences d job input obs (run_tx s r) = (s', Ok (PrepareReady p)) → owns s' p.
Proof.
  intros Hinv Hinv' Hc Hr. unfold finish_prepare. destruct (run_tx s r) as [s1 [[q|spec]|e]] eqn:E; simpl in *; [| |done].
  - intros [= <- ->]. unfold run_tx in E. destruct r as [[s2 q|q]|e]; simplify_eq; [by apply Hc|by destruct (Hr p)].
  - destruct (obs ≫= _) as [[s2 [probe|]]|e] eqn:E2; intros [= <- ->]. result_inv. by eapply due_probe_owned.
Qed.

Lemma prepared_owned s job input s' p : life_inv (abs s) →
  prepare_job_inner uuid_to_string condition_json resolve_fences d s job input = (s', Ok (PrepareReady p)) → owns s' p.
Proof.
  intros Hinv. unfold prepare_job_inner.
  destruct (expire_job_condition_deadline s job (pi_deadline_now input)) as [[s1 b]|e] eqn:E; [|done].
  assert (life_inv (abs s1)) as Hinv1.
  { eapply (sim_inv no_capacity ∅); [|exact Hinv]. unfold expire_job_condition_deadline in E. result_inv. destruct a as [s2 o].
    injection E as E. case_bool_decide; simplify_eq; [by eapply sim_expire|done]. }
  destruct b; [done|]. intros H. branch H; [done|]. destruct (ready_row s1 job (pi_pending_now input)) as [j|]; [|done].
  branch H.
  - unfold advance_observed_admission in H. destruct (ready_row s1 job _); [|done].
    eapply finish_prepare_owned; [exact Hinv1| | | |exact H].
    + eapply sim_inv; [|exact Hinv1]. apply sim_run_tx. intros s2 r. apply sim_observed_tx.
    + intros s2 q. by apply observed_tx_owned.
    + intros q. apply observed_tx_commits.
  - eapply finish_prepare_owned; [exact Hinv1| | | |exact H].
    + eapply sim_inv; [|exact Hinv1]. apply sim_run_tx. intros s2 r. apply sim_prepare_tx.
    + intros s2 q. by apply prepare_tx_owned.
    + intros q. apply prepare_tx_commits.
Qed.
End preparation.

(** ** Sections of a runner *)
Section sections.
Context (caps : ResourceCapacities) (rules : gmap string (list string)).
Context (uuid_to_string : Uuid → string) (condition_json : ConditionSpec → string)
  (blockers_json : list Blocker → string) (resolve_fences : list string → result StoreError (gset string)).
Context (d : Daemon).
Implicit Types (s : NativeStore) (job : PreparedJob) (w : Answers).

Local Notation step := (native_step caps rules uuid_to_string condition_json blockers_json resolve_fences).
Local Notation history := (history caps rules uuid_to_string condition_json blockers_json resolve_fences).

Lemma history_step s s' : step s s' → history s s'.
Proof. intros H. apply rtc_once. by left. Qed.

Lemma call_history {A} fault (r : result StoreError (NativeStore * A)) s s' b :
  (∀ s1 a, r = Ok (s1, a) → history s s1) → call fault r s = (s', b) → history s s'.
Proof.
  unfold call. destruct fault; [by intros _ [= <- _]|]. destruct r as [[s1 a]|e]; intros Hr [= <- _]; [by eapply Hr|done].
Qed.

Lemma call__history fault r s s' b : (∀ s1, r = Ok s1 → history s s1) → call_ fault r s = (s', b) → history s s'.
Proof. intros Hr. apply call_history. intros s1 [] H. apply Hr. by result_inv. Qed.

Lemma resolve_call_spec job code cls w s s' r : life_inv (abs s) → pj_role job ≠ RoleProbe → ready s job →
  resolve_call job code cls w s = (s', r) →
  history s s' ∧ match r with Ok _ => idle s' (pj_attempt_id job) ∧ may_resolve s' job | Err _ => s' = s end.
Proof.
  intros Hinv Hrole Hready. unfold resolve_call, call_, call. destruct (an_fault w 0); intros [= <- <-]; [done|].
  split; [|split; [by apply ready_resolved|apply resolved_may_resolve]].
  by apply history_step, ns_resolved, ready_may_resolve.
Qed.

Lemma record_result_spec job verdict fault s s' r : record_runner_result job verdict fault s = (s', r) →
  history s s' ∧ frame s s'.
Proof.
  assert (∀ v t, match call fault (record_primary_result s job v t) s with
    | (s, Ok _) => (s, Ok tt) | (s, Err e) => (s, Err e) end = (s', r) → history s s' ∧ frame s s') as Hrec.
  { intros v t. unfold call. destruct fault; [by intros [= <- _]|].
    destruct (record_primary_result s job v t) as [[s1 res]|e] eqn:E; intros [= <- _]; [|done].
    split; [by eapply history_step, ns_primary_result|by eapply frame_record_primary_result]. }
  unfold record_runner_result. destruct verdict; apply Hrec || by intros [= <- _].
Qed.

Lemma record_if_primary_spec job verdict w s s' r : record_if_primary job verdict w s = (s', r) →
  history s s' ∧ frame s s'.
Proof. unfold record_if_primary. destruct (decide _); [apply record_result_spec|by intros [= <- _]]. Qed.

Lemma settle_call_history job verdict w s s' r : idle s (pj_attempt_id job) →
  settle_call job verdict w s = (s', r) → history s s'.
Proof.
  intros Hidle. unfold settle_call, and_then, call. destruct (an_fault w 2); [by intros [= <- _]|].
  destruct (settle_attempt s job verdict (an_now w) (an_retry w)) as [[s1 b]|e] eqn:E; intros [= <- _]; [|done].
  by eapply history_step, ns_settle.
Qed.

Lemma resolve_and_settle_history job code cls verdict w s s' r : life_inv (abs s) → pj_role job ≠ RoleProbe → ready s job →
  resolve_and_settle job code cls verdict w s = (s', r) → history s s'.
Proof.
  intros Hinv Hrole Hready. unfold resolve_and_settle. destruct (resolve_call job code cls w s) as [s1 r1] eqn:E1.
  apply resolve_call_spec in E1 as [Hh1 Hr1]; [|done..]. unfold and_then at 1. destruct r1; [|by intros [= <- _]].
  destruct (record_if_primary job verdict w s1) as [s2 r2] eqn:E2. apply record_if_primary_spec in E2 as [Hh2 Hf2].
  unfold and_then. destruct r2; [|intros [= <- _]; by etrans]. intros Hs.
  etrans; [exact Hh1|]. etrans; [exact Hh2|]. eapply settle_call_history; [|exact Hs]. by eapply idle_frame, Hr1.
Qed.

Lemma persist_uncertain_history job p w s s' r : owns s job →
  persist_uncertain_cleanup job p w s = (s', r) → history s s'.
Proof.
  intros Hown. unfold persist_uncertain_cleanup. apply call__history. intros s1.
  destruct (decide (pj_role job = RoleProbe)); [intros H; by eapply history_step, ns_probe_uncertain|].
  destruct (_ && _); intros H; eapply history_step; [by eapply ns_cleanup_uncertain|by eapply ns_uncertain].
Qed.

(** What a failed execution leaves to its runner. *)
Definition left_to (job : PreparedJob) (p : RunProgress) s : Prop :=
  rp_cleanup_proven p = true ∨ rp_uncertainty_persisted p = false → owns s job.

Lemma finish_failed_history job p post w s s' r : life_inv (abs s) → pj_role job ≠ RoleProbe → left_to job p s →
  finish_failed_section d job p post w s = (s', r) → history s s'.
Proof.
  intros Hinv Hrole Hleft. unfold finish_failed_section. destruct (rp_cleanup_proven p) eqn:Hc.
  - assert (owns s job) as Hown by (apply Hleft; by left).
    destruct (if rp_user_code_released p then None else rp_never_run_reason p) as [reason|].
    + apply call__history. intros s1 H. by eapply history_step, ns_replan.
    + apply resolve_and_settle_history; [done..|by left].
  - destruct (rp_uncertainty_persisted p) eqn:Hu; simpl; [by intros [= <- _]|].
    apply persist_uncertain_history, Hleft. by right.
Qed.

Lemma pending_stop_spec job w s s' r a : idle s a → pending_stop_verdict job false w s = (s', r) →
  history s s' ∧ idle s' a.
Proof.
  intros Hidle. unfold pending_stop_verdict. destruct (an_poisoned w); [by intros [= <- _]|].
  unfold and_then, call. destruct (an_fault w 0); [by intros [= <- _]|].
  destruct (invocation_stop_requested s (pj_job_id job) (an_now w)) as [[s1 stop]|e] eqn:E; [|by intros [= <- _]].
  intros H. assert (s' = s1) as -> by (destruct stop; by simplify_eq).
  split; [by eapply history_step, ns_stop|by eapply stop_requested_idle].
Qed.

Lemma locked_spec {B} (f : Answers → NativeStore → NativeStore * B) w s s' r (P : NativeStore → option B → Prop) :
  P s None → (∀ s1 b, f w s = (s1, b) → P s1 (Some b)) → locked f w s = (s', r) → P s' r.
Proof.
  intros Hn Hf. unfold locked. destruct (an_poisoned w); [by intros [= <- <-]|].
  destruct (f w s) as [s1 b] eqn:E. intros [= <- <-]. by apply Hf.
Qed.

(** ** Programs *)
Definition good s : Prop := life_inv (abs s) ∧ claims_safe caps rules (all_claims s).

Lemma good_history s s' : good s → history s s' → good s'.
Proof. intros [??] Hh. by eapply history_inv. Qed.

(** The invocations a runner answers for: its own, and for work every invocation of
    its attempt that is not a probe. *)
Definition mine job job' : Prop :=
  job' = job ∨ (pj_role job ≠ RoleProbe ∧ pj_role job' ≠ RoleProbe ∧ pj_attempt_id job' = pj_attempt_id job).

(** What other threads leave to the runner of [job]. *)
Record others job s s' : Prop := {
  ot_owned job' : mine job job' → owns s job' → owns s' job';
  ot_resolve job' : mine job job' → may_resolve s job' → may_resolve s' job';
  ot_idle : pj_role job ≠ RoleProbe → idle s (pj_attempt_id job) → idle s' (pj_attempt_id job);
}.

(** Transactions that touch no boundary and no invocation leave them to their runners,
    and so does a runner of another attempt that resolves its own. *)
Lemma others_rows job s s' : lf_boundaries (abs s') = lf_boundaries (abs s) →
  lf_invocations (abs s') = lf_invocations (abs s) →
  (∀ at_ j, belongs s at_ j → belongs s' at_ j) → others job s s'.
Proof.
  intros Hb Hi Ha. split.
  - intros job' _. rewrite !owns_abs. intros [Hb' Hi' Ha']. split; [by rewrite Hb|by rewrite Hi|].
    by apply Ha.
  - intros job' _ H c Hc. apply abs_boundary in Hc. rewrite Hb in Hc.
    apply abs_boundary_inv in Hc as (c' & Hc' & Hl). injection Hl as E1 E2. rewrite E2. by apply H.
  - intros _. by apply idle_abs.
Qed.

Lemma others_resolved job job2 s code cls now : owns s job2 → pj_attempt_id job2 ≠ pj_attempt_id job →
  others job s (mark_invocation_resolved s job2 code cls now).
Proof.
  intros Hown2 Hne. set (s' := mark_invocation_resolved s job2 code cls now).
  assert (∀ c row, nv_containments s' !! c = Some row → ∃ row0, nv_containments s !! c = Some row0 ∧
    nt_invocation_id row = nt_invocation_id row0 ∧ (nt_state row = CEmpty ∨ row = row0)) as Hb.
  { intros c row. unfold s', mark_invocation_resolved. simpl. destruct (decide (c = pj_containment_id job2)) as [->|Hc].
    - rewrite lookup_alter_eq. destruct (nv_containments s !! _) as [c'|]; [|done]. simpl. intros [= <-]. eexists. eauto.
    - rewrite lookup_alter_ne by done. eauto. }
  assert (lf_invocations (abs s') = lf_invocations (abs s)) as Hi.
  { unfold s', mark_invocation_resolved, abs. simpl. by rewrite fmap_alter_frame. }
  split.
  - intros job' Hm Hown. rewrite owns_abs. pose proof Hown as [_ Hi' Ha']%owns_abs. split; [|by rewrite Hi|done].
    destruct Hown as [(c & Hc & Hci & Hh) _ _]. exists (boundary_life c). split_and!; [|done|done]. apply abs_boundary.
    unfold s', mark_invocation_resolved. simpl. rewrite lookup_alter_ne; [done|]. intros Hcc.
    destruct (ow_boundary _ _ Hown2) as (c2 & Hc2 & Hci2 & _). pose proof Hown2 as [_ Hi2 _]%owns_abs.
    rewrite Hcc in Hc2. assert (c2 = c) as -> by congruence. rewrite <-Hci2, Hci, Hi' in Hi2. injection Hi2 as E _.
    destruct Hne. rewrite <-E. destruct Hm as [->|(_ & _ & ?)]; done.
  - intros job' _ H c (row0 & Hrow0 & _ & [?| ->])%Hb; [by right|by apply H].
  - intros _ Hidle c (b & inv & Hbd & Hinv & Hat & Hr & Hh). rewrite Hi in Hinv.
    apply abs_boundary_inv in Hbd as (row & Hrow & ->). apply Hb in Hrow as (row0 & Hrow0 & _ & [He| ->]).
    + simpl in Hh. rewrite He in Hh. by destruct Hh.
    + apply (Hidle c). exists (boundary_life row0), inv. by split_and!; [apply abs_boundary|..].
Qed.

Definition stable job (I : NativeStore → Prop) : Prop := ∀ s s', others job s s' → I s → I s'.

(** What the platform promises: its transactions keep the rules; when it returns a
    result it has not settled the invocation, unless it says that it was replanned,
    which only happens to a primary; when it fails, it has settled nothing or
    persisted the uncertainty. *)
Class Executor (executes : PreparedJob → NativeStore → NativeStore → RunProgress → option (N * bool) → Prop) := {
  ex_history job s s' p r : good s → owns s job → executes job s s' p r → history s s';
  ex_returned job s s' p r : good s → owns s job → executes job s s' p (Some r) →
    rp_pre_release_replanned p = false → owns s' job;
  ex_replanned job s s' p r : executes job s s' p r → rp_pre_release_replanned p = true → pj_role job = RolePrimary;
  ex_failed job s s' p : good s → owns s job → executes job s s' p None → left_to job p s';
}.
Context `{Hex : Executor executes}.

(** A runner among other threads. *)
Inductive sys_step job : Prog * NativeStore → Prog * NativeStore → Prop :=
| ss_section {B} (f : Answers → NativeStore → NativeStore * B) k s w s' b :
    f w s = (s', b) → sys_step job (Locked f k, s) (k b, s')
| ss_execute job' k s s' p r : executes job' s s' p r → sys_step job (Execute job' k, s) (k p r, s')
| ss_others P s s' : others job s s' → history s s' → sys_step job (P, s) (P, s').

(** Started where [I] holds, every section of the program keeps the rules. *)
Fixpoint safe job (P : Prog) (I : NativeStore → Prop) : Prop :=
  match P with
  | Done => True
  | Locked f k => ∀ s w s' b, good s → I s → f w s = (s', b) →
      history s s' ∧ ∃ I', stable job I' ∧ I' s' ∧ safe job (k b) I'
  | Execute job' k => ∀ s, good s → I s → owns s job' ∧
      ∀ s' p r, executes job' s s' p r → ∃ I', stable job I' ∧ I' s' ∧ safe job (k p r) I'
  end.

Lemma safe_run job P I s P' s' : stable job I → safe job P I → I s → good s →
  rtc (sys_step job) (P, s) (P', s') → history s s'.
Proof.
  intros Hst Hsafe HI Hg Hr. remember (P, s) as x eqn:Ex. remember (P', s') as y eqn:Ey.
  revert P I s Ex Hst Hsafe HI Hg. induction Hr as [|x y z Hstep _ IH]; intros P I s -> Hst Hsafe HI Hg.
  { by simplify_eq. }
  inversion Hstep; subst; simpl in Hsafe.
  - destruct (Hsafe _ _ _ _ Hg HI ltac:(eassumption)) as (Hh & I' & Hst' & HI' & Hs'). etrans; [exact Hh|].
    eapply IH; [done|done|exact Hst'|exact Hs'|exact HI'|by eapply good_history].
  - destruct (Hsafe _ Hg HI) as [Hown Hk]. destruct (Hk _ _ _ ltac:(eassumption)) as (I' & Hst' & HI' & Hs').
    assert (history s s'0) as Hh by (by eapply ex_history). etrans; [exact Hh|].
    eapply IH; [done|done|exact Hst'|exact Hs'|exact HI'|by eapply good_history].
  - etrans; [eassumption|]. eapply IH; [done|done|exact Hst|exact Hsafe|by eapply Hst|by eapply good_history].
Qed.

(** ** The programs of a runner *)
Lemma stable_True job : stable job (λ _, True).
Proof. by intros s s' _ _. Qed.

Lemma stable_owns job job' : mine job job' → stable job (λ s, owns s job').
Proof. intros Hm s s' Ho. by apply (ot_owned _ _ _ Ho). Qed.

Lemma stable_left job job' p : mine job job' → stable job (left_to job' p).
Proof. intros Hm s s' Ho Hl Hc. by apply (ot_owned _ _ _ Ho), Hl. Qed.

Lemma stable_idle job : pj_role job ≠ RoleProbe → stable job (λ s, idle s (pj_attempt_id job)).
Proof. intros Hr s s' Ho. by apply (ot_idle _ _ _ Ho). Qed.

Lemma mine_attempt job job' : mine job job' → pj_attempt_id job' = pj_attempt_id job.
Proof. by intros [->|(_ & _ & ?)]. Qed.

Lemma mine_role job job' : mine job job' → pj_role job' ≠ RoleProbe → pj_role job ≠ RoleProbe.
Proof. by intros [->|(? & _)]. Qed.

Lemma stable_ready job job' : mine job job' → pj_role job' ≠ RoleProbe → stable job (λ s, ready s job').
Proof.
  intros Hm Hr s s' Ho [Hown|[Hidle Hmay]]; [left; by apply (ot_owned _ _ _ Ho)|right]. split; [|by apply (ot_resolve _ _ _ Ho)].
  rewrite (mine_attempt job) in * by done. apply (ot_idle _ _ _ Ho); [by eapply mine_role|done].
Qed.

(** A last section needs nothing of what follows it. *)
Lemma safe_last {B} job (f : Answers → NativeStore → NativeStore * B) (I : NativeStore → Prop) :
  (∀ s w s' b, good s → I s → f w s = (s', b) → history s s') → safe job (Locked f (λ _, Done)) I.
Proof. intros Hf s w s' b Hg HI Hs. split; [by eapply Hf|]. by exists (λ _, True). Qed.

Lemma locked_history {B} (f : Answers → NativeStore → NativeStore * B) w s s' r :
  (∀ s1 b, f w s = (s1, b) → history s s1) → locked f w s = (s', r) → history s s'.
Proof. intros Hf. apply (locked_spec f w s s' r (λ s' _, history s s')); [done|exact Hf]. Qed.

Lemma safe_finish_completed job job' code cls verdict : pj_role job' ≠ RoleProbe →
  safe job (finish_completed_invocation job' code cls verdict) (λ s, ready s job').
Proof.
  intros Hr. apply safe_last. intros s w s' b [Hinv _] Hready. apply locked_history. intros s1 b1.
  by apply resolve_and_settle_history.
Qed.

Lemma safe_finish_failed job job' p post : pj_role job' ≠ RoleProbe →
  safe job (finish_failed_invocation d job' p post) (left_to job' p).
Proof.
  intros Hr. apply safe_last. intros s w s' b [Hinv _] Hl. apply locked_history. intros s1 b1.
  by apply finish_failed_history.
Qed.

Lemma safe_settle_and_end job verdict : safe job (settle_and_end job verdict) (λ s, idle s (pj_attempt_id job)).
Proof.
  apply safe_last. intros s w s' b _ Hidle. apply locked_history. intros s1 b1. by apply settle_call_history.
Qed.

(** The section that resolves an invocation, with what comes after it. *)
Lemma safe_resolve job job' code cls (k : option (result StoreError unit) → Prog) :
  mine job job' → pj_role job' ≠ RoleProbe → safe job (k None) (λ _, True) →
  (∀ e, safe job (k (Some (Err e))) (λ s, ready s job')) →
  (∀ x, safe job (k (Some (Ok x))) (λ s, idle s (pj_attempt_id job))) →
  safe job (Locked (locked (resolve_call job' code cls)) k) (λ s, ready s job').
Proof.
  intros Hm Hr Hn He Hok s w s' b [Hinv _] Hready.
  apply (locked_spec _ w s s' b (λ s' b, history s s' ∧ ∃ I', stable job I' ∧ I' s' ∧ safe job (k b) I')).
  { split; [done|]. by exists (λ _, True). }
  intros s1 r Hs. apply resolve_call_spec in Hs as [Hh Hs]; [|done..]. split; [done|]. destruct r as [x|e].
  - exists (λ s, idle s (pj_attempt_id job)). rewrite (mine_attempt job) in Hs by done. split_and!; [|apply Hs|apply Hok].
    by apply stable_idle; eapply mine_role.
  - subst s1. exists (λ s, ready s job'). by split_and!; [apply stable_ready|..].
Qed.

Lemma safe_weaken job P (I J : NativeStore → Prop) : (∀ s, I s → J s) → safe job P J → safe job P I.
Proof.
  intros HIJ. destruct P as [|B f k|job' k]; simpl; [done|..].
  - intros H s w s' b Hg HI. by apply (H s w s' b Hg), HIJ.
  - intros H s Hg HI. by apply (H s Hg), HIJ.
Qed.

(** An execution that gives a result leaves the invocation to its runner, one that
    fails leaves what [left_to] says. *)
Lemma safe_execute job job' (k : RunProgress → option (N * bool) → Prog) :
  mine job job' → (∀ p, safe job (k p None) (left_to job' p)) →
  (∀ p x, rp_pre_release_replanned p = false → safe job (k p (Some x)) (λ s, owns s job')) →
  (∀ p x, rp_pre_release_replanned p = true → pj_role job' = RolePrimary → safe job (k p (Some x)) (λ _, True)) →
  safe job (Execute job' k) (λ s, owns s job').
Proof.
  intros Hm Hf Hret Hrep s Hg Hown. split; [done|]. intros s' p [x|] He.
  - destruct (rp_pre_release_replanned p) eqn:Hp.
    + exists (λ _, True). split_and!; [done..|]. apply Hrep; [done|]. by eapply ex_replanned.
    + exists (λ s, owns s job'). split_and!; [by apply stable_owns|by eapply ex_returned|by apply Hret].
  - exists (left_to job' p). split_and!; [by apply stable_left|by eapply ex_failed|done].
Qed.

Lemma safe_postconditions job posts index verdict : pj_role job ≠ RoleProbe →
  safe job (run_postconditions d job posts index verdict) (λ s, idle s (pj_attempt_id job)).
Proof.
  intros Hr. revert index verdict. induction posts as [|def posts IH]; intros index verdict; [apply safe_settle_and_end|].
  intros s w s' r Hg Hidle Hs. apply (pending_stop_spec _ _ _ _ _ _ Hidle) in Hs as [Hh Hidle']. split; [done|].
  exists (λ s, idle s (pj_attempt_id job)). split_and!; [by apply stable_idle|done|].
  destruct r as [[stop|]|e]; [apply safe_settle_and_end| |apply safe_settle_and_end].
  clear s w s' Hg Hidle Hh Hidle'. intros s w s' r Hg Hidle.
  assert (∀ v, history s s ∧ ∃ I', stable job I' ∧ I' s ∧ safe job (settle_and_end job v) I') as Hend.
  { intros v. split; [done|]. exists (λ s, idle s (pj_attempt_id job)). split_and!; [by apply stable_idle|done|apply safe_settle_and_end]. }
  unfold locked_err, prepare_post_section, call.
  destruct (an_poisoned w); [by intros [= <- <-]|]. destruct (an_fault w 0); [by intros [= <- <-]|].
  destruct (prepare_postcondition d s job index (an_invocation w) (an_containment w)) as [[s1 post]|e] eqn:E;
    intros [= <- <-]; [|done].
  split; [by eapply history_step, ns_postcondition|].
  apply postcondition_owned in E as (Hown & Ha & _ & Hpost); [|apply Hg].
  assert (pj_role post ≠ RoleProbe) as Hp by (by rewrite Hpost). assert (mine job post) as Hm by (by right).
  exists (λ s, owns s post). split_and!; [by apply stable_owns|done|]. apply safe_execute; [done| | |].
  - intros p. by apply safe_finish_failed.
  - intros p [code timed_out] _. cbv beta iota zeta.
    destruct (_ || _); (apply (safe_weaken _ _ _ (λ s, ready s post)); [by left|]);
      (apply safe_resolve; [done|done|done|intros e; by apply safe_finish_completed|intros _]).
    + apply safe_settle_and_end.
    + destruct (decide _); [apply IH|apply safe_settle_and_end].
  - intros p x _ Hprim. congruence.
Qed.

Lemma safe_probe job : pj_role job = RoleProbe → safe job (run_probe_with_wake d job) (λ s, owns s job).
Proof.
  intros Hr. assert (mine job job) as Hm by by left.
  assert (∀ code timed_out, safe job (Locked (locked_err (λ w s, call_ (an_fault w 0) (settle_probe d s job code timed_out
    (an_now w) (an_monotonic w) (an_observation w) (an_retained w) (an_prune_failed w)) s)) (λ _, Done)) (λ s, owns s job)) as Hsettle.
  { intros code timed_out. apply safe_last. intros s w s' b _ Hown. unfold locked_err. destruct (an_poisoned w).
    { by intros [= <- _]. }
    apply call__history. intros s1 H. by eapply history_step, ns_settle_probe. }
  apply safe_execute; [done| | |].
  - intros p. cbv beta iota zeta. destruct (rp_cleanup_proven p) eqn:Hc.
    + eapply safe_weaken; [|apply Hsettle]. intros s Hl. apply Hl. by left.
    + destruct (rp_uncertainty_persisted p) eqn:Hu; [done|]. apply safe_last. intros s w s' b _ _. apply locked_history.
      intros s1 b1. apply call__history. intros s2 H. by eapply history_step, ns_probe_uncertain.
  - intros p [code timed_out] _. apply Hsettle.
  - intros p x _ Hprim. congruence.
Qed.

(** The section after the primary, with what comes after it. *)
Lemma safe_primary job code verdict (k : option (result StoreError unit) → Prog) :
  pj_role job ≠ RoleProbe → safe job (k None) (λ _, True) →
  (∀ e, safe job (k (Some (Err e))) (λ s, ready s job)) →
  (∀ x, safe job (k (Some (Ok x))) (λ s, idle s (pj_attempt_id job))) →
  safe job (Locked (locked (primary_section job code verdict)) k) (λ s, owns s job).
Proof.
  intros Hr Hn He Hok s w s' b [Hinv _] Hown. assert (mine job job) as Hm by by left.
  apply (locked_spec _ w s s' b (λ s' b, history s s' ∧ ∃ I', stable job I' ∧ I' s' ∧ safe job (k b) I')).
  { split; [done|]. exists (λ _, True). by split_and!; [apply stable_True|..]. }
  intros s1 r. unfold primary_section. destruct (resolve_call job (Some code) None w s) as [s2 r2] eqn:E.
  apply resolve_call_spec in E as [Hh E]; [|done|done|by left]. unfold and_then. destruct r2 as [x|e].
  - intros [Hh2 Hf]%record_result_spec. split; [by etrans|]. destruct E as [Hi Hmay]. destruct r as [y|e].
    + exists (λ s, idle s (pj_attempt_id job)). split_and!; [by apply stable_idle|by eapply idle_frame|apply Hok].
    + exists (λ s, ready s job). split_and!; [by apply stable_ready| |apply He].
      right. split; [by eapply idle_frame|by eapply may_resolve_frame].
  - intros [= <- <-]. subst s2. split; [done|]. exists (λ s, ready s job).
    split_and!; [by apply stable_ready|by left|apply He].
Qed.

Lemma safe_run_with_wake job : safe job (run_with_wake d job) (λ s, owns s job).
Proof.
  unfold run_with_wake. destruct (decide (pj_role job = RoleProbe)) as [Hr|Hr]; [by apply safe_probe|].
  apply safe_execute; [by left| | |].
  - intros p. by apply safe_finish_failed.
  - intros p [code timed_out] Hp. cbv beta iota zeta. rewrite Hp. apply safe_primary; [done|done| |].
    + intros e. by apply safe_finish_completed.
    + intros _. destruct (_ || _); [apply safe_settle_and_end|by apply safe_postconditions].
  - intros p [code timed_out] Hp _. cbv beta iota zeta. by rewrite Hp.
Qed.

End sections.

(** A platform may start the root of an invocation and see it exit. *)
Lemma started_owned d s job pid hash ident perm now s' : owns s job →
  mark_started_with_ticket d s job pid hash ident perm now = Ok s' → owns s' job.
Proof.
  intros [(c & Hc & Hci & Hh) (i & Hi & Hia & Hir) (a & Ha & Haj)]. unfold mark_started_with_ticket. intros H. result_inv.
  destruct a0 as [[host boot] creation]. result_inv. simplify_eq. rename a1 into s1.
  assert (nv_containments s1 = nv_containments s ∧ nv_attempts s1 = nv_attempts s) as [Hcs Has].
  { destruct ident; [|by simplify_eq]. unfold record_identity in *. result_inv. done. }
  assert (∃ i', nv_invocations s1 !! pj_invocation_id job = Some i' ∧ invocation_life i' = invocation_life i) as (i' & Hi' & Hl).
  { assert (frame s s1) as Hf by (destruct ident; [by eapply frame_record_identity|by simplify_eq]).
    apply abs_invocation in Hi. rewrite <-(fr_abs _ _ Hf) in Hi. apply abs_invocation_inv in Hi as (i' & Hi' & Hl). by exists i'. }
  injection Hl as E1 E2. split.
  - exists (c <| nt_state := CLive |>). split_and!; [|done|by right].
    destruct (decide (pj_role job = RolePrimary)), (decide (pj_role job = RoleProbe)); simpl;
      by rewrite lookup_alter_eq, Hcs, Hc.
  - eexists. split_and!; [destruct (decide (pj_role job = RolePrimary)), (decide (pj_role job = RoleProbe)); simpl;
      by rewrite lookup_alter_eq, Hi'|simpl; congruence..].
  - destruct (decide (pj_role job = RolePrimary)), (decide (pj_role job = RoleProbe)); simpl; rewrite Has;
      rewrite ?lookup_alter_eq, Ha; by eexists.
Qed.
