(* ===== verification/RunnerDemo.v ===== *)
(** * RunnerDemo: a runner among other threads

    A platform that starts the root of an invocation and sees it exit promises what
    [Executor] states; the runner of the second job of [NativeDemo.v] is driven
    through its sections while another thread accepts a job. *)
From S2P Require Import Prelude Spec Validate ValidateFacts Kernel Scoped ScopedFacts Observation Machine MachineStore.
From S2P Require Import MachineFacts ExchangeFacts Reservation ReservationFacts MachineOffer OfferFacts.
From S2P Require Import Native ConditionStore ProcessRecords Lifecycle Schedule Release NativeRecovery Life LifeFacts.
From S2P Require Import Refinement LifecycleRefinement ReleaseRefinement RecoveryRefinement ScheduleRefinement.
From S2P Require Import LifecycleFacts NativeHistory Runner RunnerFacts NativeDemo.

Module RunnerDemo.
Import NativeDemo.

Definition progress (released : bool) : RunProgress :=
  {| rp_user_code_released := released; rp_durable_release_authorized := released; rp_release_authorized := released;
     rp_pre_release_replanned := false; rp_cleanup_proven := true; rp_uncertainty_persisted := false;
     rp_exit_code := None; rp_timed_out := false; rp_canceled := false; rp_never_run_reason := None |}.

(** Start the root, see it exit with 0; an error of the store is an error of the run. *)
Definition execute (job : PreparedJob) (s : NativeStore) : NativeStore * RunProgress * option (N * bool) :=
  match mark_started_with_ticket d s job 77 "hash" (Some identity) (Ok tt) 1650 with
  | Err _ => (s, progress false, None)
  | Ok s1 =>
      match mark_root_exited s1 job 0 1700 with
      | Err _ => (s1, progress true, None)
      | Ok s2 => (s2, progress true, Some (0, false))
      end
  end.
Definition executes (job : PreparedJob) (s s' : NativeStore) (p : RunProgress) (r : option (N * bool)) : Prop :=
  execute job s = (s', p, r).

Lemma execute_spec job s s' p r : owns s job → executes job s s' p r →
  history s s' ∧ owns s' job ∧ rp_pre_release_replanned p = false.
Proof.
  intros Hown. unfold executes, execute.
  destruct (mark_started_with_ticket d s job 77 "hash" (Some identity) (Ok tt) 1650) as [s1|e] eqn:E1; [|by intros [= <- <- _]].
  assert (history s s1) as H1 by (eapply history_step, ns_started; [exact Hown|exact E1]).
  assert (owns s1 job) as Ho1 by (eapply started_owned; [exact Hown|exact E1]).
  destruct (mark_root_exited s1 job 0 1700) as [s2|e] eqn:E2; [|by intros [= <- <- _]]. intros [= <- <- _].
  split_and!; [etrans; [exact H1|by eapply history_step, ns_exited]| |done].
  eapply owns_role_frame; [by eapply frame_mark_root_exited|exact Ho1].
Qed.

#[export] Instance demo_executor : Executor caps rules show condition_json blockers_json resolve_fences executes.
Proof.
  split.
  - intros job s s' p r _ Hown He. by eapply execute_spec.
  - intros job s s' p r _ Hown He _. by eapply execute_spec.
  - intros job s s' p r. unfold executes, execute. destruct (mark_started_with_ticket _ _ _ _ _ _ _ _); [|by intros [= _ <- _]].
    destruct (mark_root_exited _ _ _ _); by intros [= _ <- _].
  - intros job s s' p _ Hown He _. by eapply execute_spec.
Qed.

Definition answers : Answers :=
  {| an_poisoned := false; an_fault := λ _, None; an_now := 1810; an_resolved := 1800; an_opened := 1800;
     an_retry := 1820; an_monotonic := 1800; an_observation := 7001; an_invocation := 7002; an_containment := 7003;
     an_retained := λ _, false; an_prune_failed := false |}.

(** The run, with the acceptance of a third job after the execution. *)
Definition t14 := (execute work2 s13).1.1.
Definition t15 := unwrap_or t14 (insert_conditions_tx (t14 <| nv_jobs ::= <[3 := accepted [] 3]> |>) 3 []
  (λ i, 70 + i) (λ c, c + 10) acceptance (evaluations 1750)).
Definition t16 := (locked (primary_section work2 (as_i32 0) VSucceeded) answers t15).1.
Definition t17 := (locked (settle_call work2 VSucceeded) answers t16).1.

Example runner_run : map (λ s, ((λ j, (nj_state j, nj_outcome j)) <$> nv_jobs s !! 2,
    last (nl_state <$> btree_values (nv_leases s)), last (nt_state <$> btree_values (nv_containments s))))
    [s13; t14; t15; t16; t17] =
  [(Some (Active, None), Some LGranted, Some CCreating);
   (Some (Active, None), Some LGranted, Some CLive);
   (Some (Active, None), Some LGranted, Some CLive);
   (Some (Active, None), Some LGranted, Some CEmpty);
   (Some (Final, Some JSucceeded), Some LReleased, Some CEmpty)].
Proof. vm_compute. reflexivity. Qed.

Lemma inv_s12 : life_inv (abs s12) ∧ claims_safe caps rules (all_claims s12).
Proof.
  exact (history_inv _ _ _ _ _ _ s11 s12 (history_step _ _ _ _ _ _ _ _ native_step12) (proj1 inv_s11) (proj2 inv_s11)).
Qed.

Notation sys_step := (sys_step caps rules show condition_json blockers_json resolve_fences (executes := executes)).

Lemma accepts_third : step t14 t15.
Proof. eapply ns_accept; [| |evaluates]; [vm_compute; reflexivity|done]. Qed.

Lemma others_accept job s id j : others job s (s <| nv_jobs ::= <[id := j]> |>).
Proof. apply others_rows; [done|done|]. by intros at_ k. Qed.

Lemma third_leaves_second job : others job t14 t15.
Proof.
  assert (t15 = t14 <| nv_jobs ::= <[3 := accepted [] 3]> |>) as -> by (vm_compute; reflexivity).
  generalize t14. intros s. apply others_accept.
Qed.

Lemma sys_section {B} job (f : Answers → NativeStore → NativeStore * B) k s s' b :
  f answers s = (s', b) → sys_step job (Locked f k, s) (k b, s').
Proof. intros H. by eapply ss_section. Qed.

Lemma runner_runs : rtc (sys_step work2) (run_with_wake d work2, s13) (Done, t17).
Proof.
  assert (pj_role work2 = RolePrimary) as Hr by (vm_compute; reflexivity).
  assert (job_postconditions (pj_spec work2) = []) as Hp by (vm_compute; reflexivity).
  assert (executes work2 s13 t14 (progress true) (Some (0, false))) as He by (vm_compute; reflexivity).
  assert (locked (primary_section work2 (as_i32 0) VSucceeded) answers t15 = (t16, Some (Ok tt))) as H16
    by (vm_compute; reflexivity).
  assert (locked (settle_call work2 VSucceeded) answers t16 = (t17, Some (Ok tt))) as H17 by (vm_compute; reflexivity).
  assert (history t14 t15) as Hh by exact (history_step _ _ _ _ _ _ _ _ accepts_third).
  pose proof (third_leaves_second work2) as Ho. generalize dependent t17. generalize dependent t16.
  generalize dependent t15. generalize dependent t14. generalize dependent s13. generalize dependent work2.
  intros job Hr Hp u13 u14 He u15 Hh Ho u16 H16 u17 H17. unfold run_with_wake. rewrite decide_False by (by rewrite Hr).
  eapply rtc_l; [by eapply ss_execute|]. eapply rtc_l; [by eapply ss_others|]. simpl.
  eapply rtc_l; [by eapply sys_section|]. cbv beta iota. rewrite Hp. simpl.
  eapply rtc_l; [by eapply sys_section|]. apply rtc_refl.
Qed.

End RunnerDemo.
