(* ===== verification/Policy.v ===== *)
(** * Policy: what managed parents allow their children ([src/src/store/admission.rs],
      [src/src/resources.rs])

    A job started by the service may submit jobs of its own within the policy it was
    accepted with.  A proposal is checked against the policy of every ancestor, and a
    policy it delegates further may only narrow what remains.  Whether a path lies
    below a root of a policy is a question to the file system ([fences_allow]).
    Details of rejections are cut to 4096 bytes. *)
From S2P Require Import Prelude Spec Validate Scoped Machine MachineStore Text Columns Native ConditionStore.

Definition MAX_MANAGED_POLICY_DEPTH : nat := 64.

Record ManagedParent := { mp_job_id : DurableId; mp_attempt_id : DurableId; mp_invocation_id : DurableId }.
#[export] Instance ManagedParent_eq_dec : EqDecision ManagedParent.
Proof. solve_decision. Defined.

Inductive SubmissionScope := Unmanaged | Managed (parent : ManagedParent).
#[export] Instance SubmissionScope_eq_dec : EqDecision SubmissionScope.
Proof. solve_decision. Defined.

Definition scope_parent (scope : SubmissionScope) : option ManagedParent :=
  match scope with Unmanaged => None | Managed parent => Some parent end.

Record ResolvedPolicyFence := {
  rf_identity_key : string;
  rf_remaining_components : list string;
  rf_display_path : string;
}.
#[export] Instance ResolvedPolicyFence_eq_dec : EqDecision ResolvedPolicyFence.
Proof. solve_decision. Defined.

Record ResolvedChildSubmissionPolicy := {
  rs_policy : ChildSubmissionPolicy;
  rs_shared_fences : list ResolvedPolicyFence;
  rs_exclusive_fences : list ResolvedPolicyFence;
}.

Record EffectiveChildSubmissionPolicy := {
  ep_min_priority : Z;
  ep_max_priority : Z;
  ep_max_claims : ResourceClaimLimits;
  ep_allowed_impacts : list string;
  ep_required_labels : list Label;
  ep_fences : ChildFencePolicy;
  ep_allow_observed : bool;
  ep_allow_quiet : bool;
  ep_allow_delegation : bool;
}.

Record ManagedPolicyAdmissionSnapshot := {
  ps_parent : ManagedParent;
  ps_evaluated_unix_millis : Z;
  ps_effective_policy : EffectiveChildSubmissionPolicy;
  ps_policy_ancestors : list DurableId;
}.

(** The columns of a job that acceptance writes and nothing changes afterwards. *)
Record JobOrigin := {
  og_submission_id : Uuid;
  og_batch_id : option Uuid;
  og_parent : option Uuid * option Uuid * option Uuid;   (* job, attempt, invocation *)
  og_child_policy : option ResolvedChildSubmissionPolicy;
  og_policy_admission : option ManagedPolicyAdmissionSnapshot;
}.

(** [Error::to_string] for the errors of names; a text of serde_json is not modelled. *)
Definition Error_text (e : Error) : string :=
  match e with InvalidSpec d => "invalid specification: " +:+ d | Serialization => "serialization failed" end.

(** [{:?}] of an optional number *)
Definition debug_option (o : option N) : string :=
  match o with Some n => "Some(" +:+ pretty n +:+ ")" | None => "None" end.

(** [truncate_policy_detail] and [policy_rejection] *)
Definition truncate_policy_detail (detail : string) : option string :=
  if bool_decide (len detail ≤ 4096) then Some detail
  else end_ ← prev_boundary 4096 detail 4096; truncate detail end_.

Definition policy_rejection (code detail : string) : StoreError :=
  match truncate_policy_detail detail with
  | Some detail => OperationRejected code detail
  | None => EPanic "not a character boundary"
  end.

Definition canonicalize_custom_claims (r : ResolvedChildSubmissionPolicy) : result string ResolvedChildSubmissionPolicy :=
  let p := rs_policy r in
  let l := cp_max_claims p in
  canonical ← result_foldM (λ (m : gmap string N) '(name, value),
    name ← match canonical_custom_resource_name name with Ok c => Ok c | Err e => Err (Error_text e) end;
    _ ← guard_err (bool_decide (is_Some (m !! name))) "duplicate canonical child-policy custom resource"%string;
    Ok (<[name := value]> m)) ∅ (btree_entries (lim_custom l));
  Ok {| rs_policy :=
          {| cp_min_priority := cp_min_priority p; cp_max_priority := cp_max_priority p;
             cp_max_claims := {| lim_cpu_units := lim_cpu_units l; lim_ram_mb := lim_ram_mb l;
                                 lim_cargo_slots := lim_cargo_slots l; lim_gpu_slots := lim_gpu_slots l;
                                 lim_custom := canonical |};
             cp_allowed_impacts := cp_allowed_impacts p; cp_required_labels := cp_required_labels p;
             cp_fences := cp_fences p; cp_allow_observed := cp_allow_observed p; cp_allow_quiet := cp_allow_quiet p;
             cp_allow_delegation := cp_allow_delegation p |};
        rs_shared_fences := rs_shared_fences r; rs_exclusive_fences := rs_exclusive_fences r |}.

Definition ensure_unique_policy_fences (fences : list ResolvedPolicyFence) : result string unit :=
  _ ← result_foldM (λ (seen : list (string * list string)) f,
    let key := (rf_identity_key f, rf_remaining_components f) in
    _ ← guard_err (bool_decide (key ∈ seen)) "child policy roots collide after resolution"%string;
    Ok (key :: seen)) [] fences;
  Ok tt.

(** [intersect_claim_limits] *)
Definition minimum (left right : option N) : option N :=
  match left, right with Some l, Some r => Some (N.min l r) | _, _ => None end.

Definition intersect_claim_limits (left right : ResourceClaimLimits) : ResourceClaimLimits :=
  {| lim_cpu_units := minimum (lim_cpu_units left) (lim_cpu_units right);
     lim_ram_mb := minimum (lim_ram_mb left) (lim_ram_mb right);
     lim_cargo_slots := minimum (lim_cargo_slots left) (lim_cargo_slots right);
     lim_gpu_slots := minimum (lim_gpu_slots left) (lim_gpu_slots right);
     lim_custom := merge minimum (lim_custom left) (lim_custom right) |}.

Definition managed_parent_from_columns (store : Uuid) (columns : option Uuid * option Uuid * option Uuid)
    : result StoreError (option ManagedParent) :=
  let id u := {| store_uuid := store; entity_uuid := u |} in
  match columns with
  | (None, None, None) => Ok None
  | (Some job, Some attempt, Some invocation) =>
      Ok (Some {| mp_job_id := id job; mp_attempt_id := id attempt; mp_invocation_id := id invocation |})
  | _ => Err (EInvalidState "managed parent columns are only partially populated")
  end.

Section policy.
Context (pf : Platform) (uuid_to_string : Uuid → string).
(* [policy_fences_allow] and [resolve_policy_fence] ask the file system *)
Context (fences_allow : list ResolvedPolicyFence → string → result string bool).
Context (resolve_policy_fence : string → result string ResolvedPolicyFence).

Definition show_id (id : DurableId) : string := durable_to_string uuid_to_string id.

Definition allows_shared (r : ResolvedChildSubmissionPolicy) (path : string) : result string bool :=
  fences_allow (rs_shared_fences r) path.
Definition allows_exclusive (r : ResolvedChildSubmissionPolicy) (path : string) : result string bool :=
  fences_allow (rs_exclusive_fences r) path.

(** [ResolvedChildSubmissionPolicy::resolve] *)
Definition resolve_policy (policy : ChildSubmissionPolicy) : result string ResolvedChildSubmissionPolicy :=
  shared ← result_mapM resolve_policy_fence (cf_shared_roots (cp_fences policy));
  exclusive ← result_mapM resolve_policy_fence (cf_exclusive_roots (cp_fences policy));
  _ ← ensure_unique_policy_fences shared;
  _ ← ensure_unique_policy_fences exclusive;
  canonicalize_custom_claims
    {| rs_policy := policy; rs_shared_fences := shared; rs_exclusive_fences := exclusive |}.

(** ** Claims within a limit *)
Definition over_limit (requested permitted : option N) : bool :=
  match requested with
  | None => false
  | Some value => match permitted with Some maximum => bool_decide (maximum < value) | None => true end
  end.

Definition scalar_limits (r : ResourceClaims) (l : ResourceClaimLimits) : list (string * option N * option N) :=
  [("cpu_units"%string, rc_cpu_units r, lim_cpu_units l); ("ram_mb"%string, rc_ram_mb r, lim_ram_mb l);
   ("cargo_slots"%string, rc_cargo_slots r, lim_cargo_slots l); ("gpu_slots"%string, rc_gpu_slots r, lim_gpu_slots l)].

Definition validate_resource_claims_against_limit (resources : ResourceClaims) (limits : ResourceClaimLimits)
    (ancestor : DurableId) : result StoreError unit :=
  _ ← result_foldM (λ _ '(name, requested, permitted),
    guard_err (over_limit requested permitted)
      (policy_rejection "child_claim_not_permitted" ("claim " +:+ name +:+ "=" +:+ debug_option requested
         +:+ " exceeds " +:+ debug_option permitted +:+ " at policy ancestor " +:+ show_id ancestor)))
    tt (scalar_limits resources limits);
  result_foldM (λ _ '(name, requested),
    canonical ← match canonical_custom_resource_name name with
      | Ok c => Ok c | Err e => Err (EInvalidSpec (Error_text e)) end;
    guard_err (over_limit (Some requested) (lim_custom limits !! canonical))
      (policy_rejection "child_claim_not_permitted" ("custom claim " +:+ debug_str pf name +:+ "="
         +:+ pretty requested +:+ " is denied by policy ancestor " +:+ show_id ancestor)))
    tt (btree_entries (rc_custom resources)).

Definition validate_claims_against_limit (spec : JobSpec) : ResourceClaimLimits → DurableId → result StoreError unit :=
  validate_resource_claims_against_limit (job_resources spec).

(** One fence against a policy: the answer of the file system, or a denial. *)
Definition require_fence (allowed : result string bool) (unresolved : string) (denied : StoreError) : result StoreError unit :=
  match allowed with
  | Err e => Err (EInvalidSpec (unresolved +:+ e))
  | Ok true => Ok tt
  | Ok false => Err denied
  end.

(** The impacts and fences of a job ([what] is empty) or of a probe of it. *)
Definition check_impacts (what : string) (impacts : list string) (policy : ChildSubmissionPolicy) (ancestor : DurableId)
    : result StoreError unit :=
  result_foldM (λ _ impact, guard_err (negb (bool_decide (impact ∈ cp_allowed_impacts policy)))
    (policy_rejection "child_impact_not_permitted" (what +:+ "impact " +:+ debug_str pf impact
       +:+ " is denied by policy ancestor " +:+ show_id ancestor))) tt impacts.

Definition check_fences (what mode : string) (allows : string → result string bool) (fences : list string)
    (ancestor : DurableId) : result StoreError unit :=
  result_foldM (λ _ fence, require_fence (allows fence)
    ("cannot resolve requested " +:+ what +:+ mode +:+ " fence while checking policy ancestor " +:+ show_id ancestor +:+ ": ")
    (policy_rejection "child_fence_not_permitted" (what +:+ mode +:+ " fence " +:+ debug_str pf fence
       +:+ " is denied by policy ancestor " +:+ show_id ancestor))) tt fences.

Definition check_probe (resolved : ResolvedChildSubmissionPolicy) (ancestor : DurableId) (c : ConditionSpec)
    : result StoreError unit :=
  match cond_predicate c with
  | Probe probe =>
      let r := probe_resources probe in
      _ ← validate_resource_claims_against_limit r (cp_max_claims (rs_policy resolved)) ancestor;
      _ ← check_impacts "probe " (rc_impacts r) (rs_policy resolved) ancestor;
      _ ← check_fences "probe " "shared" (allows_shared resolved) (rc_shared_fences r) ancestor;
      check_fences "probe " "exclusive" (allows_exclusive resolved) (rc_exclusive_fences r) ancestor
  | _ => Ok tt
  end.

(** ** The ancestors of a proposed child *)
Fixpoint policy_ancestors (fuel : nat) (store : Uuid) (origins : gmap Uuid JobOrigin) (current : option DurableId)
    (visited : gset Uuid) (ancestors : list (DurableId * ResolvedChildSubmissionPolicy))
    : result StoreError (list (DurableId * ResolvedChildSubmissionPolicy)) :=
  match current with
  | None => Ok ancestors
  | Some job =>
      match fuel with
      | O => Err (EPanic "out of fuel")
      | S fuel =>
          _ ← guard_err (bool_decide (MAX_MANAGED_POLICY_DEPTH ≤ length ancestors + 1)%nat)
                (policy_rejection "child_policy_depth_exceeded" "managed ancestry would exceed 64 Jobs");
          _ ← guard_err (bool_decide (entity_uuid job ∈ visited))
                (EInvalidState "managed policy ancestry contains a cycle");
          row ← ok_or (origins !! entity_uuid job)
                  (EInvalidState ("managed policy ancestor " +:+ show_id job +:+ " is missing"));
          policy ← ok_or (og_child_policy row)
            (policy_rejection "child_submission_disabled"
               ("policy ancestor " +:+ show_id job +:+ " has no child submission policy"));
          resolved ← match canonicalize_custom_claims policy with
            | Ok r => Ok r
            | Err e => Err (EInvalidState ("managed policy ancestor " +:+ show_id job
                              +:+ " has invalid custom claims: " +:+ e)) end;
          parent ← managed_parent_from_columns store (og_parent row);
          policy_ancestors fuel store origins (mp_job_id <$> parent) ({[entity_uuid job]} ∪ visited)
            (ancestors ++ [(job, resolved)])
      end
  end.

(** ** The policy that remains *)
Record Effective := {
  ef_claims : ResourceClaimLimits;
  ef_min_priority : Z;
  ef_max_priority : Z;
  ef_impacts : gset string;
  ef_required : gmap string (string * DurableId);
  ef_observed : bool;
  ef_quiet : bool;
  ef_delegation : bool;
}.

(** [effective_claims = ancestors[0]…] *)
Definition initial_effective (p : ChildSubmissionPolicy) : Effective :=
  {| ef_claims := cp_max_claims p; ef_min_priority := cp_min_priority p; ef_max_priority := cp_max_priority p;
     ef_impacts := list_to_set (cp_allowed_impacts p); ef_required := ∅; ef_observed := true; ef_quiet := true;
     ef_delegation := true |}.

Definition require_labels (ancestor : DurableId) (required : gmap string (string * DurableId)) (labels : list Label)
    : result StoreError (gmap string (string * DurableId)) :=
  result_foldM (λ required label,
    match required !! label_key label with
    | Some (value, _) =>
        _ ← guard_err (bool_decide (value ≠ label_value label))
              (EInvalidState ("policy ancestors disagree on required label " +:+ debug_str pf (label_key label)));
        Ok required
    | None => Ok (<[label_key label := (label_value label, ancestor)]> required)
    end) required labels.

(** What a proposal asks of one ancestor. *)
Definition check_ancestor (spec : JobSpec) (ancestor : DurableId) (resolved : ResolvedChildSubmissionPolicy)
    : result StoreError unit :=
  let policy := rs_policy resolved in
  let resources := job_resources spec in
  _ ← guard_err (bool_decide (job_priority spec < cp_min_priority policy)%Z
                 || bool_decide (job_priority spec > cp_max_priority policy)%Z)
        (policy_rejection "child_priority_not_permitted" ("requested priority " +:+ pretty (job_priority spec)
           +:+ " is outside allowed inclusive range " +:+ pretty (cp_min_priority policy) +:+ "..="
           +:+ pretty (cp_max_priority policy) +:+ " at policy ancestor " +:+ show_id ancestor));
  _ ← validate_claims_against_limit spec (cp_max_claims policy) ancestor;
  _ ← result_foldM (λ _ c, check_probe resolved ancestor c) tt (job_conditions spec);
  _ ← check_impacts "" (rc_impacts resources) policy ancestor;
  _ ← check_fences "" "shared" (allows_shared resolved) (rc_shared_fences resources) ancestor;
  _ ← check_fences "" "exclusive" (allows_exclusive resolved) (rc_exclusive_fences resources) ancestor;
  _ ← guard_err (bool_decide (is_Some (job_observed spec)) && negb (cp_allow_observed policy))
        (policy_rejection "child_observed_not_permitted"
           ("observed policy is denied by policy ancestor " +:+ show_id ancestor));
  guard_err (bool_decide (is_Some (job_quiet spec)) && negb (cp_allow_quiet policy))
    (policy_rejection "child_quiet_not_permitted" ("quiet policy is denied by policy ancestor " +:+ show_id ancestor)).

(** One turn of the loop over the ancestors. *)
Definition narrow (spec : JobSpec) (e : Effective) (a : DurableId * ResolvedChildSubmissionPolicy)
    : result StoreError Effective :=
  let '(ancestor, resolved) := a in
  let policy := rs_policy resolved in
  _ ← check_ancestor spec ancestor resolved;
  required ← require_labels ancestor (ef_required e) (cp_required_labels policy);
  Ok {| ef_claims := intersect_claim_limits (ef_claims e) (cp_max_claims policy);
        ef_min_priority := Z.max (ef_min_priority e) (cp_min_priority policy);
        ef_max_priority := Z.min (ef_max_priority e) (cp_max_priority policy);
        ef_impacts := filter (λ impact, impact ∈ cp_allowed_impacts policy) (ef_impacts e);
        ef_required := required;
        ef_observed := ef_observed e && cp_allow_observed policy;
        ef_quiet := ef_quiet e && cp_allow_quiet policy;
        ef_delegation := ef_delegation e && cp_allow_delegation policy |}.

(** [.map(|label| (key, value)).collect::<BTreeMap<_, _>>()]: the last one wins. *)
Definition label_map (labels : list Label) : gmap string string :=
  foldl (λ m l, <[label_key l := label_value l]> m) ∅ labels.

Definition check_required_labels (spec : JobSpec) (required : gmap string (string * DurableId)) : result StoreError unit :=
  let actual := label_map (job_labels spec) in
  result_foldM (λ _ '(key, (value, ancestor)),
    match actual !! key with
    | None => Err (policy_rejection "child_required_label_missing" ("required label " +:+ debug_str pf key
                +:+ " from policy ancestor " +:+ show_id ancestor +:+ " is absent"))
    | Some v => guard_err (bool_decide (v ≠ value)) (policy_rejection "child_required_label_conflict"
                  ("label " +:+ debug_str pf key +:+ " conflicts with policy ancestor " +:+ show_id ancestor
                   +:+ ": expected " +:+ debug_str pf value))
    end) tt (btree_entries required).

(** The claims of a policy as those of a job: the envelope of the check. *)
Definition envelope (l : ResourceClaimLimits) : ResourceClaims :=
  {| rc_cpu_units := lim_cpu_units l; rc_ram_mb := lim_ram_mb l; rc_cargo_slots := lim_cargo_slots l;
     rc_gpu_slots := lim_gpu_slots l; rc_custom := lim_custom l; rc_shared_fences := []; rc_exclusive_fences := [];
     rc_impacts := [] |}.

Definition escalation (detail : string) : StoreError := policy_rejection "child_policy_escalation" detail.

Definition validate_delegated_policy (delegated : ChildSubmissionPolicy) (e : Effective)
    (ancestors : list (DurableId * ResolvedChildSubmissionPolicy)) (first : DurableId) : result StoreError unit :=
  _ ← match validate_resource_claims_against_limit (envelope (cp_max_claims delegated)) (ef_claims e) first with
      | Ok _ => Ok tt
      | Err _ => Err (escalation "delegated claim limits widen the effective ancestor policy") end;
  _ ← guard_err (bool_decide (cp_min_priority delegated < ef_min_priority e)%Z
                 || bool_decide (cp_max_priority delegated > ef_max_priority e)%Z)
        (escalation "delegated priority range widens the effective ancestor policy");
  _ ← guard_err (existsb (λ impact, negb (bool_decide (impact ∈ ef_impacts e))) (cp_allowed_impacts delegated)
                 || cp_allow_observed delegated && negb (ef_observed e)
                 || cp_allow_quiet delegated && negb (ef_quiet e)
                 || cp_allow_delegation delegated && negb (ef_delegation e))
        (escalation "delegated impacts or booleans widen the effective ancestor policy");
  let labels := label_map (cp_required_labels delegated) in
  _ ← guard_err (existsb (λ '(key, (value, _)), match labels !! key with
                   | None => true | Some v => bool_decide (v ≠ value) end) (btree_entries (ef_required e)))
        (escalation "delegated required labels are not a consistent superset");
  result_foldM (λ _ '(ancestor, resolved),
    _ ← result_foldM (λ _ root, require_fence (allows_shared resolved root)
          ("cannot resolve delegated shared fence while checking policy ancestor " +:+ show_id ancestor +:+ ": ")
          (escalation ("delegated shared fence is denied by ancestor " +:+ show_id ancestor)))
          tt (cf_shared_roots (cp_fences delegated));
    result_foldM (λ _ root, require_fence (allows_exclusive resolved root)
      ("cannot resolve delegated exclusive fence while checking policy ancestor " +:+ show_id ancestor +:+ ": ")
      (escalation ("delegated exclusive fence is denied by ancestor " +:+ show_id ancestor)))
      tt (cf_exclusive_roots (cp_fences delegated))) tt ancestors.

Definition effective_policy (e : Effective) (immediate : ResolvedChildSubmissionPolicy) : EffectiveChildSubmissionPolicy :=
  {| ep_min_priority := ef_min_priority e; ep_max_priority := ef_max_priority e; ep_max_claims := ef_claims e;
     ep_allowed_impacts := btree_elements (ef_impacts e);
     ep_required_labels := map (λ '(key, (value, _)), {| label_key := key; label_value := value |}) (btree_entries (ef_required e));
     ep_fences := {| cf_shared_roots := map rf_display_path (rs_shared_fences immediate);
                     cf_exclusive_roots := map rf_display_path (rs_exclusive_fences immediate) |};
     ep_allow_observed := ef_observed e; ep_allow_quiet := ef_quiet e; ep_allow_delegation := ef_delegation e |}.

Definition evaluate_managed_policy (store : Uuid) (origins : gmap Uuid JobOrigin) (scope : SubmissionScope)
    (spec : JobSpec) (now : Z) : result StoreError (option ManagedPolicyAdmissionSnapshot) :=
  match scope with
  | Unmanaged => Ok None
  | Managed parent =>
      ancestors ← policy_ancestors MAX_MANAGED_POLICY_DEPTH store origins (Some (mp_job_id parent)) ∅ [];
      '(first, immediate) ← ok_or (head ancestors) (EPanic "index out of bounds");
      e ← result_foldM (narrow spec) (initial_effective (rs_policy immediate)) ancestors;
      _ ← check_required_labels spec (ef_required e);
      _ ← match job_child_submission_policy spec with
          | None => Ok tt
          | Some delegated =>
              _ ← guard_err (negb (ef_delegation e))
                    (escalation ("policy delegation is denied by an ancestor of " +:+ show_id (mp_job_id parent)));
              validate_delegated_policy delegated e ancestors first
          end;
      Ok (Some {| ps_parent := parent; ps_evaluated_unix_millis := now;
                  ps_effective_policy := effective_policy e immediate; ps_policy_ancestors := ancestors.*1 |})
  end.

(** The parent of a rejection is named in its detail. *)
Definition contextualize_policy_rejection (e : StoreError) (parent : option ManagedParent) (batch_member : option string)
    : StoreError :=
  match e, parent with
  | OperationRejected code detail, Some p =>
      let member := match batch_member with Some name => "; batch_member=" +:+ debug_str pf name | None => "" end in
      policy_rejection code ("parent_job=" +:+ show_id (mp_job_id p) +:+ " parent_attempt=" +:+ show_id (mp_attempt_id p)
        +:+ " parent_invocation=" +:+ show_id (mp_invocation_id p) +:+ member +:+ "; " +:+ detail)
  | _, _ => e
  end.
End policy.
