(* ===== verification/PolicyFacts.v ===== *)
(** * PolicyFacts: a child stays within the policies of all its ancestors

    The checks of [Policy.v] as a declarative relation: [permits_child] says what one
    policy allows, [ancestry] lists the ancestors of a proposal.  A proposal is
    accepted exactly when every ancestor permits it, and the policy that is recorded
    with it is the meet of theirs. *)
From S2P Require Import Prelude Spec Validate Scoped Machine MachineStore Text Columns Native ConditionStore Policy.

(** ** Chains of checks *)
Lemma check_then {E B} (m : result E unit) (k : result E B) b : (_ ← m; k) = Ok b ↔ m = Ok tt ∧ k = Ok b.
Proof. destruct m as [[]|]; simpl; naive_solver. Qed.

Lemma guard_ok {E} c (e : E) : guard_err c e = Ok tt ↔ c = false.
Proof. by destruct c. Qed.

Lemma foldM_checks {E A} (f : A → result E unit) l : result_foldM (λ _, f) tt l = Ok tt ↔ Forall (λ x, f x = Ok tt) l.
Proof.
  induction l as [|x l IH]; simpl; [done|]. rewrite Forall_cons, <-IH. destruct (f x) as [[]|]; simpl; naive_solver.
Qed.

(** ** What a policy allows *)
Definition within (v m : option N) : Prop := ∀ x, v = Some x → ∃ y, m = Some y ∧ x ≤ y.

Lemma over_limit_false v m : over_limit v m = false ↔ within v m.
Proof.
  unfold over_limit, within. destruct v as [x|]; [|naive_solver]. destruct m as [y|].
  - rewrite bool_decide_eq_false. split; [intros ? ? [= <-]; exists y; split; [done|lia]|].
    intros H. destruct (H x) as (? & [= <-] & ?); [done|lia].
  - split; [done|]. intros H. by destruct (H x) as (? & ? & _).
Qed.

Lemma within_minimum v l r : within v (minimum l r) ↔ within v l ∧ within v r.
Proof.
  unfold within, minimum. destruct v as [x|]; [|naive_solver]. destruct l as [l|], r as [r|].
  - split.
    + intros H. destruct (H x) as (? & [= <-] & ?); [done|]. split; intros ? [= <-]; eexists; (split; [done|lia]).
    + intros [H1 H2] ? [= <-]. destruct (H1 x) as (? & [= <-] & ?), (H2 x) as (? & [= <-] & ?); [done..|].
      eexists. split; [done|lia].
  - split; [intros H; by destruct (H x) as (? & ? & _)|]. intros [_ H]. by destruct (H x) as (? & ? & _).
  - split; [intros H; by destruct (H x) as (? & ? & _)|]. intros [H _]. by destruct (H x) as (? & ? & _).
  - split; [intros H; by destruct (H x) as (? & ? & _)|]. intros [H _]. by destruct (H x) as (? & ? & _).
Qed.

Record claims_within (r : ResourceClaims) (l : ResourceClaimLimits) : Prop := {
  cw_cpu : within (rc_cpu_units r) (lim_cpu_units l);
  cw_ram : within (rc_ram_mb r) (lim_ram_mb l);
  cw_cargo : within (rc_cargo_slots r) (lim_cargo_slots l);
  cw_gpu : within (rc_gpu_slots r) (lim_gpu_slots l);
  cw_custom name v : rc_custom r !! name = Some v →
    ∃ c, canonical_custom_resource_name name = Ok c ∧ within (Some v) (lim_custom l !! c);
}.

Lemma claims_within_intersect r l k : claims_within r (intersect_claim_limits l k) ↔ claims_within r l ∧ claims_within r k.
Proof.
  assert (∀ c, lim_custom (intersect_claim_limits l k) !! c = minimum (lim_custom l !! c) (lim_custom k !! c)) as Hc.
  { intros c. simpl. rewrite lookup_merge. unfold diag_None. by destruct (lim_custom l !! c), (lim_custom k !! c). }
  split.
  - intros [H1 H2 H3 H4 H5]. simpl in H1, H2, H3, H4. apply within_minimum in H1 as [], H2 as [], H3 as [], H4 as [].
    split; split; try done; intros name v Hv; destruct (H5 name v Hv) as (c & Hn & Hw); exists c; (split; [done|]);
      rewrite Hc in Hw; apply within_minimum in Hw; apply Hw.
  - intros [[H1 H2 H3 H4 H5] [K1 K2 K3 K4 K5]]. split; simpl; [by apply within_minimum..|].
    intros name v Hv. destruct (H5 name v Hv) as (c & Hn & Hw), (K5 name v Hv) as (c' & Hn' & Hw').
    exists c. split; [done|]. rewrite Hn in Hn'. injection Hn' as <-. change (merge _ _ _) with (lim_custom (intersect_claim_limits l k)).
    rewrite Hc. by apply within_minimum.
Qed.

Section facts.
Context (pf : Platform) (uuid_to_string : Uuid → string).
Context (fences_allow : list ResolvedPolicyFence → string → result string bool).

Lemma validate_claims_spec r l a : validate_resource_claims_against_limit pf uuid_to_string r l a = Ok tt ↔ claims_within r l.
Proof.
  unfold validate_resource_claims_against_limit. rewrite check_then.
  rewrite (foldM_checks (λ '(name, requested, permitted), guard_err (over_limit requested permitted) _)).
  rewrite (foldM_checks (λ '(name, requested), _ ← _; guard_err _ _)).
  unfold scalar_limits. rewrite !Forall_cons, !guard_ok, !over_limit_false, Forall_btree_entries. split.
  - intros [(H1 & H2 & H3 & H4 & _) H5]. split; [done..|]. intros name v Hv. specialize (H5 _ _ Hv). simpl in H5.
    destruct (canonical_custom_resource_name name) as [c|e]; simpl in H5; [|done]. exists c. split; [done|].
    apply over_limit_false. by apply guard_ok in H5.
  - intros [H1 H2 H3 H4 H5]. split; [by repeat split; try apply Forall_nil|]. intros name v Hv.
    destruct (H5 name v Hv) as (c & -> & Hw). simpl. apply over_limit_false in Hw. by apply guard_ok.
Qed.

(** Impacts and fences of a set of claims. *)
Record resources_allowed (r : ResourceClaims) (p : ResolvedChildSubmissionPolicy) : Prop := {
  ra_impacts i : i ∈ rc_impacts r → i ∈ cp_allowed_impacts (rs_policy p);
  ra_shared f : f ∈ rc_shared_fences r → allows_shared fences_allow p f = Ok true;
  ra_exclusive f : f ∈ rc_exclusive_fences r → allows_exclusive fences_allow p f = Ok true;
}.

Lemma require_fence_ok allowed text e : require_fence allowed text e = Ok tt ↔ allowed = Ok true.
Proof. destruct allowed as [[]|]; simpl; naive_solver. Qed.

Lemma check_impacts_spec what l policy a :
  check_impacts pf uuid_to_string what l policy a = Ok tt ↔ ∀ i, i ∈ l → i ∈ cp_allowed_impacts policy.
Proof.
  unfold check_impacts. rewrite (foldM_checks (λ impact, guard_err _ _)), Forall_forall.
  split; intros H i Hi; specialize (H i Hi); [apply guard_ok in H|apply guard_ok];
    by rewrite negb_false_iff, bool_decide_eq_true in *.
Qed.

Lemma check_fences_spec what mode allows l a :
  check_fences pf uuid_to_string what mode allows l a = Ok tt ↔ ∀ f, f ∈ l → allows f = Ok true.
Proof.
  unfold check_fences. rewrite (foldM_checks (λ fence, require_fence (allows fence) _ _)), Forall_forall.
  by setoid_rewrite require_fence_ok.
Qed.

(** What one policy asks of a proposal itself. *)
Record permits (spec : JobSpec) (p : ResolvedChildSubmissionPolicy) : Prop := {
  pm_priority : (cp_min_priority (rs_policy p) ≤ job_priority spec ≤ cp_max_priority (rs_policy p))%Z;
  pm_claims : claims_within (job_resources spec) (cp_max_claims (rs_policy p));
  pm_resources : resources_allowed (job_resources spec) p;
  pm_probes c probe : c ∈ job_conditions spec → cond_predicate c = Probe probe →
    claims_within (probe_resources probe) (cp_max_claims (rs_policy p)) ∧ resources_allowed (probe_resources probe) p;
  pm_observed : is_Some (job_observed spec) → cp_allow_observed (rs_policy p) = true;
  pm_quiet : is_Some (job_quiet spec) → cp_allow_quiet (rs_policy p) = true;
}.

Lemma check_probe_spec p a c : check_probe pf uuid_to_string fences_allow p a c = Ok tt ↔
  ∀ probe, cond_predicate c = Probe probe →
    claims_within (probe_resources probe) (cp_max_claims (rs_policy p)) ∧ resources_allowed (probe_resources probe) p.
Proof.
  unfold check_probe. destruct (cond_predicate c) as [| | | |probe] eqn:Hp; try naive_solver.
  rewrite !check_then, validate_claims_spec, check_impacts_spec, !check_fences_spec. split.
  - intros (H1 & H2 & H3 & H4) ? [= <-]. by split.
  - intros H. destruct (H probe eq_refl) as [H1 [H2 H3 H4]]. done.
Qed.

Lemma implied_flag (P : Prop) `{!Decision P} (b : bool) : (bool_decide P && negb b) = false ↔ (P → b = true).
Proof. case_bool_decide; destruct b; naive_solver. Qed.

Lemma check_ancestor_spec spec a p : check_ancestor pf uuid_to_string fences_allow spec a p = Ok tt ↔ permits spec p.
Proof.
  unfold check_ancestor, validate_claims_against_limit.
  rewrite !check_then, !guard_ok, validate_claims_spec, check_impacts_spec, !check_fences_spec, !implied_flag,
    (foldM_checks (check_probe pf uuid_to_string fences_allow p a)), Forall_forall.
  setoid_rewrite check_probe_spec. rewrite orb_false_iff, !bool_decide_eq_false. split.
  - intros ([H1 H1'] & H2 & H3 & H4 & H5 & H6 & H7 & H8). split; [lia|done|done|naive_solver|done|done].
  - intros [H1 H2 [H3 H4 H5] H6 H7 H8]. split_and!; try done; [lia|lia|]. intros c Hc probe Hp. by eapply H6.
Qed.

(** ** The policy that remains is the meet *)
Local Notation resolved := ResolvedChildSubmissionPolicy.

(** Bounds, claims and impacts are those of [ps], labels and switches those of [qs]. *)
Record meets (e : Effective) (ps qs : list resolved) : Prop := {
  mt_claims r : claims_within r (ef_claims e) ↔ ∀ p, p ∈ ps → claims_within r (cp_max_claims (rs_policy p));
  mt_min z : (ef_min_priority e ≤ z)%Z ↔ ∀ p, p ∈ ps → (cp_min_priority (rs_policy p) ≤ z)%Z;
  mt_max z : (z ≤ ef_max_priority e)%Z ↔ ∀ p, p ∈ ps → (z ≤ cp_max_priority (rs_policy p))%Z;
  mt_impacts i : i ∈ ef_impacts e ↔ ∀ p, p ∈ ps → i ∈ cp_allowed_impacts (rs_policy p);
  mt_required k v : fst <$> ef_required e !! k = Some v ↔
    ∃ p, p ∈ qs ∧ {| label_key := k; label_value := v |} ∈ cp_required_labels (rs_policy p);
  mt_observed : ef_observed e = true ↔ ∀ p, p ∈ qs → cp_allow_observed (rs_policy p) = true;
  mt_quiet : ef_quiet e = true ↔ ∀ p, p ∈ qs → cp_allow_quiet (rs_policy p) = true;
  mt_delegation : ef_delegation e = true ↔ ∀ p, p ∈ qs → cp_allow_delegation (rs_policy p) = true;
}.

Lemma forall_snoc {A} (P : A → Prop) l x : (∀ y, y ∈ l ++ [x] → P y) ↔ (∀ y, y ∈ l → P y) ∧ P x.
Proof. setoid_rewrite elem_of_app. setoid_rewrite list_elem_of_singleton. naive_solver. Qed.

Lemma require_labels_spec a required labels required' : require_labels pf a required labels = Ok required' →
  ∀ k v, fst <$> required' !! k = Some v ↔
    fst <$> required !! k = Some v ∨ {| label_key := k; label_value := v |} ∈ labels.
Proof.
  unfold require_labels. revert required. induction labels as [|[lk lv] labels IH]; intros required H k v; simpl in H; result_inv.
  { rewrite elem_of_nil. split; [by left|by intros [|]]. }
  destruct (required !! lk) as [[v0 owner]|] eqn:Hl; simpl in H; result_inv.
  - split_conditions. apply dec_stable in Hguard as ->. rewrite (IH _ H k v), elem_of_cons. split; [naive_solver|].
    intros [?|[[= <- <-]|?]]; [by left|left; by rewrite Hl|by right].
  - rewrite (IH _ H k v), elem_of_cons. destruct (decide (k = lk)) as [->|Hne].
    + rewrite lookup_insert_eq, Hl. simpl. naive_solver.
    + rewrite lookup_insert_ne by done. naive_solver.
Qed.

Lemma require_labels_total a (m : gmap string string) required labels :
  (∀ k v, fst <$> required !! k = Some v → m !! k = Some v) → (∀ l, l ∈ labels → m !! label_key l = Some (label_value l)) →
  ∃ required', require_labels pf a required labels = Ok required'.
Proof.
  unfold require_labels. revert required. induction labels as [|[lk lv] labels IH]; intros required Hr Hl; simpl; [by eexists|].
  pose proof (Hl _ ltac:(by left)) as Hm. simpl in Hm. destruct (required !! lk) as [[v0 a0]|] eqn:Hlk; simpl.
  - assert (v0 = lv) as -> by (specialize (Hr lk v0); rewrite Hlk in Hr; specialize (Hr eq_refl); congruence).
    rewrite bool_decide_eq_false_2 by (by intros []). simpl. apply IH; [done|]. intros l ?. apply Hl. by right.
  - apply IH; [|intros l ?; apply Hl; by right]. intros k v. destruct (decide (k = lk)) as [->|Hne].
    + rewrite lookup_insert_eq. simpl. naive_solver.
    + rewrite lookup_insert_ne by done. apply Hr.
Qed.

Lemma narrow_meets spec e a p e' ps qs : meets e ps qs →
  narrow pf uuid_to_string fences_allow spec e (a, p) = Ok e' → permits spec p ∧ meets e' (ps ++ [p]) (qs ++ [p]).
Proof.
  intros [H1 H2 H3 H4 H5 H6 H7 H8]. unfold narrow. rewrite check_then, check_ancestor_spec. intros [Hp H]. split; [done|].
  result_inv. rename a0 into required. split; simpl.
  - intros r. by rewrite claims_within_intersect, H1, (forall_snoc (λ p, claims_within r (cp_max_claims (rs_policy p)))).
  - intros z. rewrite (forall_snoc (λ p, (cp_min_priority (rs_policy p) ≤ z)%Z)), <-H2. lia.
  - intros z. rewrite (forall_snoc (λ p, (z ≤ cp_max_priority (rs_policy p))%Z)), <-H3. lia.
  - intros i. rewrite (forall_snoc (λ p, i ∈ cp_allowed_impacts (rs_policy p))), <-H4, elem_of_filter. naive_solver.
  - intros k v. rewrite (require_labels_spec _ _ _ _ Hstep), H5. setoid_rewrite elem_of_app.
    setoid_rewrite list_elem_of_singleton. naive_solver.
  - rewrite (forall_snoc (λ p, cp_allow_observed (rs_policy p) = true)), <-H6. by rewrite andb_true_iff.
  - rewrite (forall_snoc (λ p, cp_allow_quiet (rs_policy p) = true)), <-H7. by rewrite andb_true_iff.
  - rewrite (forall_snoc (λ p, cp_allow_delegation (rs_policy p) = true)), <-H8. by rewrite andb_true_iff.
Qed.

Lemma initial_meets p : meets (initial_effective (rs_policy p)) [p] [].
Proof.
  split; simpl; try (intros; setoid_rewrite list_elem_of_singleton; naive_solver); try (setoid_rewrite elem_of_nil; naive_solver).
  intros i. setoid_rewrite list_elem_of_singleton. rewrite elem_of_list_to_set. naive_solver.
Qed.

#[local] Arguments narrow : simpl never.

Lemma narrow_fold spec e l e' ps qs : meets e ps qs →
  result_foldM (narrow pf uuid_to_string fences_allow spec) e l = Ok e' →
  Forall (λ x, permits spec x.2) l ∧ meets e' (ps ++ l.*2) (qs ++ l.*2).
Proof.
  revert e ps qs. induction l as [|[a p] l IH]; intros e ps qs He H; simpl in *; result_inv.
  { rewrite !app_nil_r. by split; [constructor|]. }
  destruct (narrow_meets _ _ _ _ _ _ _ He Hstep) as [Hp Hm]. destruct (IH _ _ _ Hm H) as [Hl Hm'].
  split; [by constructor|]. by rewrite <-!app_assoc in Hm'.
Qed.

(** The labels of a proposal decide between ancestors, so that they cannot disagree. *)
Lemma narrow_total spec (m : gmap string string) e l ps qs : meets e ps qs →
  (∀ k v, fst <$> ef_required e !! k = Some v → m !! k = Some v) →
  Forall (λ x, permits spec x.2 ∧ ∀ lab, lab ∈ cp_required_labels (rs_policy x.2) → m !! label_key lab = Some (label_value lab)) l →
  ∃ e', result_foldM (narrow pf uuid_to_string fences_allow spec) e l = Ok e'.
Proof.
  intros He Hr Hl. revert e ps qs He Hr. induction Hl as [|[a p] l [Hp Hlab] Hl IH]; intros e ps qs He Hr; simpl in *; [by eexists|].
  destruct (require_labels_total a m _ _ Hr Hlab) as [req Hreq].
  destruct (narrow pf uuid_to_string fences_allow spec e (a, p)) as [e'|err] eqn:Hn.
  - simpl. destruct (narrow_meets _ _ _ _ _ _ _ He Hn) as [_ Hm]. eapply IH; [exact Hm|].
    intros k v (p' & Hp' & Hin)%(mt_required _ _ _ Hm). apply elem_of_app in Hp' as [Hp'|Hp'].
    + apply Hr. by apply (mt_required _ _ _ He); exists p'.
    + apply list_elem_of_singleton in Hp' as ->. by apply (Hlab _ Hin).
  - exfalso. unfold narrow in Hn. rewrite (proj2 (check_ancestor_spec _ _ _) Hp) in Hn. simpl in Hn. by rewrite Hreq in Hn.
Qed.

(** ** Delegation *)
Lemma check_required_labels_spec spec required : check_required_labels pf uuid_to_string spec required = Ok tt ↔
  ∀ k v, fst <$> required !! k = Some v → label_map (job_labels spec) !! k = Some v.
Proof.
  unfold check_required_labels. rewrite (foldM_checks (λ '(key, (value, ancestor)), _)), Forall_btree_entries. split.
  - intros H k v Hk. destruct (required !! k) as [[v' a]|] eqn:E; simplify_eq/=. specialize (H k _ E). simpl in H.
    destruct (label_map _ !! k) as [v'|]; [|done]. apply guard_ok, bool_decide_eq_false in H. by apply dec_stable in H as ->.
  - intros H k [v a] E. rewrite (H k v) by by rewrite E. apply guard_ok, bool_decide_eq_false. by intros [].
Qed.

(** A policy that gives away no more than [p] does. *)
Record narrower (dp : ChildSubmissionPolicy) (p : resolved) : Prop := {
  nw_delegation : cp_allow_delegation (rs_policy p) = true;
  nw_claims : claims_within (envelope (cp_max_claims dp)) (cp_max_claims (rs_policy p));
  nw_min : (cp_min_priority (rs_policy p) ≤ cp_min_priority dp)%Z;
  nw_max : (cp_max_priority dp ≤ cp_max_priority (rs_policy p))%Z;
  nw_impacts i : i ∈ cp_allowed_impacts dp → i ∈ cp_allowed_impacts (rs_policy p);
  nw_labels l : l ∈ cp_required_labels (rs_policy p) →
    label_map (cp_required_labels dp) !! label_key l = Some (label_value l);
  nw_shared f : f ∈ cf_shared_roots (cp_fences dp) → allows_shared fences_allow p f = Ok true;
  nw_exclusive f : f ∈ cf_exclusive_roots (cp_fences dp) → allows_exclusive fences_allow p f = Ok true;
  nw_observed : cp_allow_observed dp = true → cp_allow_observed (rs_policy p) = true;
  nw_quiet : cp_allow_quiet dp = true → cp_allow_quiet (rs_policy p) = true;
}.

Lemma existsb_false {A} (f : A → bool) l : existsb f l = false ↔ Forall (λ x, f x = false) l.
Proof. induction l as [|x l IH]; simpl; [done|]. by rewrite orb_false_iff, Forall_cons, IH. Qed.

Lemma flag_false (a b : bool) : a && negb b = false ↔ (a = true → b = true).
Proof. destruct a, b; naive_solver. Qed.

Lemma validate_delegated_spec dp e ancestors first ps : meets e ps ps → (∀ p, p ∈ ps ↔ p ∈ ancestors.*2) →
  ef_delegation e = true ∧ validate_delegated_policy pf uuid_to_string fences_allow dp e ancestors first = Ok tt ↔
  ∀ p, p ∈ ps → narrower dp p.
Proof.
  intros [H1 H2 H3 H4 H5 H6 H7 H8] Hps. unfold validate_delegated_policy.
  assert (∀ r k : result StoreError unit, (_ ← match r with Ok _ => Ok tt | Err _ => Err (escalation
    "delegated claim limits widen the effective ancestor policy") end; k) = Ok tt ↔ r = Ok tt ∧ k = Ok tt) as Hmap.
  { intros r k. destruct r as [[]|]; simpl; naive_solver. }
  rewrite Hmap, !check_then, !guard_ok, validate_claims_spec.
  rewrite (foldM_checks (λ '(ancestor, resolved), _ ← _; _)), Forall_forall.
  rewrite !orb_false_iff, !flag_false, !existsb_false, !bool_decide_eq_false, Forall_forall, Forall_btree_entries.
  rewrite H8, H1.
  split.
  - intros (Hd & Hc & [Hmin Hmax] & (((Himp & Hobs) & Hq) & _) & Hlab & Hf) p Hp.
    assert (∃ a, (a, p) ∈ ancestors) as [a Ha].
    { apply Hps, list_elem_of_fmap in Hp as ([a p'] & -> & Ha). by exists a. }
    specialize (Hf _ Ha). simpl in Hf. rewrite check_then in Hf.
    rewrite (foldM_checks (λ root, require_fence (allows_shared fences_allow p root) _ _)), Forall_forall in Hf.
    rewrite (foldM_checks (λ root, require_fence (allows_exclusive fences_allow p root) _ _)), Forall_forall in Hf.
    destruct Hf as [Hs He]. split.
    + by apply Hd.
    + by apply Hc.
    + apply (proj1 (H2 (cp_min_priority dp))); [lia|done].
    + apply (proj1 (H3 (cp_max_priority dp))); [lia|done].
    + intros i Hi. specialize (Himp i Hi). apply negb_false_iff, bool_decide_eq_true in Himp. by apply (H4 i).
    + intros [k v] Hl. destruct (ef_required e !! k) as [[v' a']|] eqn:E.
      2: { assert (fst <$> ef_required e !! k = Some v) as Hx by (apply H5; by exists p). by rewrite E in Hx. }
      assert (v' = v) as ->.
      { assert (fst <$> ef_required e !! k = Some v) as Hx by (apply H5; by exists p). rewrite E in Hx. by injection Hx. }
      specialize (Hlab k _ E). simpl in *. destruct (label_map _ !! k) as [w|]; [|done].
      apply bool_decide_eq_false in Hlab. by apply dec_stable in Hlab as ->.
    + intros f Hfi. by eapply require_fence_ok, Hs.
    + intros f Hfi. by eapply require_fence_ok, He.
    + intros Ho. by apply H6; [apply Hobs|].
    + intros Ho. by apply H7; [apply Hq|].
  - intros Hn. split_and!.
    + intros p Hp. by apply (nw_delegation _ _ (Hn p Hp)).
    + intros p Hp. by apply (nw_claims _ _ (Hn p Hp)).
    + assert (ef_min_priority e ≤ cp_min_priority dp)%Z; [|lia]. apply H2. intros p Hp. by apply (nw_min _ _ (Hn p Hp)).
    + assert (cp_max_priority dp ≤ ef_max_priority e)%Z; [|lia]. apply H3. intros p Hp. by apply (nw_max _ _ (Hn p Hp)).
    + intros i Hi. apply negb_false_iff, bool_decide_eq_true, H4. intros p Hp. by apply (nw_impacts _ _ (Hn p Hp)).
    + intros Ho. apply H6. intros p Hp. by apply (nw_observed _ _ (Hn p Hp)).
    + intros Ho. apply H7. intros p Hp. by apply (nw_quiet _ _ (Hn p Hp)).
    + intros Ho p Hp. by apply (nw_delegation _ _ (Hn p Hp)).
    + intros k [v a] E. assert (∃ p, p ∈ ps ∧ {| label_key := k; label_value := v |} ∈ cp_required_labels (rs_policy p))
        as (p & Hp & Hl) by (apply H5; by rewrite E).
      pose proof (nw_labels _ _ (Hn p Hp) _ Hl) as Hk. simpl in Hk. rewrite Hk. apply bool_decide_eq_false. by intros [].
    + intros [a p] Ha. assert (p ∈ ps) as Hp by (apply Hps, list_elem_of_fmap; by exists (a, p)).
      rewrite check_then. rewrite (foldM_checks (λ root, require_fence (allows_shared fences_allow p root) _ _)), Forall_forall.
      rewrite (foldM_checks (λ root, require_fence (allows_exclusive fences_allow p root) _ _)), Forall_forall.
      split; intros f Hf; apply require_fence_ok; [by apply (nw_shared _ _ (Hn p Hp))|by apply (nw_exclusive _ _ (Hn p Hp))].
Qed.

(** ** Ancestors *)
Inductive ancestry (store : Uuid) (origins : gmap Uuid JobOrigin) : DurableId → list (DurableId * resolved) → Prop :=
| ancestry_root job row p r : origins !! entity_uuid job = Some row → og_child_policy row = Some p →
    canonicalize_custom_claims p = Ok r → managed_parent_from_columns store (og_parent row) = Ok None →
    ancestry store origins job [(job, r)]
| ancestry_child job row p r parent l : origins !! entity_uuid job = Some row → og_child_policy row = Some p →
    canonicalize_custom_claims p = Ok r → managed_parent_from_columns store (og_parent row) = Ok (Some parent) →
    ancestry store origins (mp_job_id parent) l → ancestry store origins job ((job, r) :: l).

Lemma ancestry_length store origins j l : ancestry store origins j l →
  ∀ j' l', entity_uuid j = entity_uuid j' → ancestry store origins j' l' → length l = length l'.
Proof.
  induction 1 as [j row p r Hr Hp Hc Hm|j row p r parent l Hr Hp Hc Hm Hl IH]; intros j' l' He Hl';
    destruct Hl' as [j' row' p' r' Hr' Hp' Hc' Hm'|j' row' p' r' parent' l' Hr' Hp' Hc' Hm' Hl'];
    rewrite He, Hr' in Hr; injection Hr as ->; rewrite Hm' in Hm; simplify_eq; [done|].
  simpl. f_equal. by eapply IH.
Qed.

Lemma ancestry_suffix store origins j l x : ancestry store origins j l → x ∈ l →
  ∃ l', ancestry store origins x.1 l' ∧ (length l' ≤ length l)%nat ∧ (x.1 = j ∨ (length l' < length l)%nat).
Proof.
  induction 1 as [j row p r Hr Hp Hc Hm|j row p r parent l Hr Hp Hc Hm Hl IH]; intros Hx.
  - apply list_elem_of_singleton in Hx as ->. eexists. split_and!; [by eapply ancestry_root|done|by left].
  - apply elem_of_cons in Hx as [->|Hx].
    + eexists. split_and!; [by eapply ancestry_child|done|by left].
    + destruct (IH Hx) as (l' & Hl' & ? & _). exists l'. simpl. split_and!; [done|lia|right; lia].
Qed.

Lemma ancestry_acyclic store origins j r l : ancestry store origins j ((j, r) :: l) →
  ∀ x, x ∈ l → entity_uuid x.1 ≠ entity_uuid j.
Proof.
  intros Hj x Hx He. inversion Hj as [|? row p ? parent ? Hr Hp Hc Hm Hl]; subst; [by apply elem_of_nil in Hx|].
  destruct (ancestry_suffix _ _ _ _ _ Hl Hx) as (l' & Hl' & Hlen & _).
  pose proof (ancestry_length _ _ _ _ Hl' _ _ He Hj). simpl in *. lia.
Qed.

Lemma policy_ancestors_spec store origins fuel job visited acc l : (MAX_MANAGED_POLICY_DEPTH ≤ fuel + length acc)%nat →
  policy_ancestors uuid_to_string fuel store origins (Some job) visited acc = Ok l ↔
  ∃ t, ancestry store origins job t ∧ l = acc ++ t ∧ (length acc + length t < MAX_MANAGED_POLICY_DEPTH)%nat ∧
    ∀ x, x ∈ t → entity_uuid x.1 ∉ visited.
Proof.
  revert job visited acc. induction fuel as [|fuel IH]; intros job visited acc Hfuel.
  { split; [done|]. intros (t & Ht & _ & Hlen & _). destruct Ht; simpl in *; lia. }
  cbn [policy_ancestors]. rewrite !check_then, !guard_ok, !bool_decide_eq_false. split.
  - intros (Hd & Hv & H). result_inv. rename a into row, a0 into p, a1 into r, a2 into parent.
    destruct (origins !! entity_uuid job) as [row'|] eqn:Hr; simplify_eq/=.
    destruct (og_child_policy row) as [p'|] eqn:Hp; simplify_eq/=.
    destruct (canonicalize_custom_claims p) as [r'|] eqn:Hc; simplify_eq/=.
    destruct parent as [parent|]; simpl in H.
    + apply IH in H as (t & Ht & -> & Hlen & Hvis); [|rewrite length_app; simpl; lia].
      exists ((job, r) :: t). rewrite length_app in Hlen. simpl in *. rewrite <-app_assoc. split_and!; [by eapply ancestry_child|done|lia|].
      intros x [->|Hx]%elem_of_cons; [done|]. specialize (Hvis x Hx). set_solver.
    + destruct fuel; simpl in H; result_inv; (exists [(job, r)]; split_and!; [by eapply ancestry_root|done|simpl; lia|];
        intros x ->%list_elem_of_singleton; done).
  - intros (t & Ht & -> & Hlen & Hvis). inversion Ht as [? row p r Hr Hp Hc Hm|? row p r parent t' Hr Hp Hc Hm Ht']; subst; simpl in Hlen.
    + split_and!; [lia|apply (Hvis (job, r)); by left|]. rewrite Hr. simpl. rewrite Hp. simpl. rewrite Hc. simpl. rewrite Hm. simpl.
      by destruct fuel.
    + split_and!; [destruct Ht'; simpl in *; lia|apply (Hvis (job, r)); by left|].
      rewrite Hr. simpl. rewrite Hp. simpl. rewrite Hc. simpl. rewrite Hm. simpl.
      apply IH; [rewrite length_app; simpl; lia|]. exists t'. rewrite <-app_assoc, length_app. simpl.
      split_and!; [done|done|lia|]. intros x Hx [?%elem_of_singleton|Hin]%elem_of_union.
      * by apply (ancestry_acyclic _ _ _ _ _ Ht x Hx).
      * apply (Hvis x); [by right|done].
Qed.

(** ** Proposals *)

(** All that a policy asks of a proposed child. *)
Record permits_child (spec : JobSpec) (p : resolved) : Prop := {
  pc_permits : permits spec p;
  pc_labels l : l ∈ cp_required_labels (rs_policy p) → label_map (job_labels spec) !! label_key l = Some (label_value l);
  pc_delegated dp : job_child_submission_policy spec = Some dp → narrower dp p;
}.

(** The policy recorded with a child is the meet of the policies of its ancestors. *)
Record is_meet (q : EffectiveChildSubmissionPolicy) (ps : list resolved) : Prop := {
  im_claims r : claims_within r (ep_max_claims q) ↔ ∀ p, p ∈ ps → claims_within r (cp_max_claims (rs_policy p));
  im_priority z : (ep_min_priority q ≤ z ≤ ep_max_priority q)%Z ↔
    ∀ p, p ∈ ps → (cp_min_priority (rs_policy p) ≤ z ≤ cp_max_priority (rs_policy p))%Z;
  im_impacts i : i ∈ ep_allowed_impacts q ↔ ∀ p, p ∈ ps → i ∈ cp_allowed_impacts (rs_policy p);
  im_labels l : l ∈ ep_required_labels q ↔ ∃ p, p ∈ ps ∧ l ∈ cp_required_labels (rs_policy p);
  im_observed : ep_allow_observed q = true ↔ ∀ p, p ∈ ps → cp_allow_observed (rs_policy p) = true;
  im_quiet : ep_allow_quiet q = true ↔ ∀ p, p ∈ ps → cp_allow_quiet (rs_policy p) = true;
  im_delegation : ep_allow_delegation q = true ↔ ∀ p, p ∈ ps → cp_allow_delegation (rs_policy p) = true;
}.

Lemma meets_effective e ps imm : meets e ps ps → is_meet (effective_policy e imm) ps.
Proof.
  intros [H1 H2 H3 H4 H5 H6 H7 H8]. split; simpl; try done.
  - intros z. rewrite H2, H3. split; [intros [Ha Hb] p Hp; by split; [apply Ha|apply Hb]|].
    intros H. by split; intros p Hp; apply H.
  - intros i. by rewrite elem_of_btree_elements, H4.
  - intros [k v]. rewrite <-H5. rewrite list_elem_of_fmap. split.
    + intros ([k' [v' a]] & [= -> ->] & Hin). apply elem_of_btree_entries in Hin. by rewrite Hin.
    + intros Hk. destruct (ef_required e !! k) as [[v' a]|] eqn:E; simplify_eq/=.
      exists (k, (v, a)). split; [done|]. by apply elem_of_btree_entries.
Qed.

Lemma meets_cons e p ps qs : p ∈ ps → meets e (p :: ps) qs → meets e ps qs.
Proof.
  intros Hp [H1 H2 H3 H4 H5 H6 H7 H8].
  assert (∀ P : resolved → Prop, (∀ q, q ∈ p :: ps → P q) ↔ (∀ q, q ∈ ps → P q)) as Hcons.
  { intros P. split; [intros H q Hq; apply H; by right|]. intros H q [->|Hq]%elem_of_cons; by apply H. }
  split; try done; intros x; rewrite <-(Hcons (λ q, _)); [apply H1|apply H2|apply H3|apply H4].
Qed.

Lemma ancestry_head store origins j l : ancestry store origins j l → ∃ r, head l = Some (j, r) ∧ r ∈ l.*2.
Proof. destruct 1; eexists; (split; [done|by left]). Qed.

Lemma evaluate_sound store origins parent spec now o :
  evaluate_managed_policy pf uuid_to_string fences_allow store origins (Managed parent) spec now = Ok o →
  ∃ snap ancestors, o = Some snap ∧ ancestry store origins (mp_job_id parent) ancestors ∧
    (length ancestors < MAX_MANAGED_POLICY_DEPTH)%nat ∧ Forall (λ x, permits_child spec x.2) ancestors ∧
    ps_parent snap = parent ∧ ps_policy_ancestors snap = ancestors.*1 ∧ is_meet (ps_effective_policy snap) (ancestors.*2).
Proof.
  unfold evaluate_managed_policy. intros H. result_inv. rename a into ancestors.
  apply policy_ancestors_spec in Hstep as (t & Ht & -> & Hlen & _); [|apply Nat.le_add_r]. cbn [app] in *.
  destruct (ancestry_head _ _ _ _ Ht) as (r & Et & Hr). rewrite Et in Hstep0. injection Hstep0 as <-. result_inv. rename a into e.
  destruct (narrow_fold _ _ _ _ _ _ (initial_meets r) Hstep) as [Hp Hm].
  apply (meets_cons e r) in Hm; [|done]. rename t into ancestors.
  rewrite check_required_labels_spec in Hstep0. eexists _, ancestors. split_and!; try done.
  - apply Forall_forall. intros [a p] Ha. assert (p ∈ ancestors.*2) as Hp2 by (apply list_elem_of_fmap; by exists (a, p)).
    split; simpl.
    + rewrite Forall_forall in Hp. by apply (Hp (a, p)).
    + intros [k v] Hl. apply Hstep0, (mt_required _ _ _ Hm). by exists p.
    + intros dp Hd. rewrite Hd in Hstep1. result_inv. split_conditions.
      eapply (validate_delegated_spec dp e ancestors); [exact Hm|done| |done]. by split.
  - by apply meets_effective.
Qed.

Lemma evaluate_complete store origins parent spec now ancestors :
  ancestry store origins (mp_job_id parent) ancestors → (length ancestors < MAX_MANAGED_POLICY_DEPTH)%nat →
  Forall (λ x, permits_child spec x.2) ancestors →
  ∃ snap, evaluate_managed_policy pf uuid_to_string fences_allow store origins (Managed parent) spec now = Ok (Some snap).
Proof.
  intros Ht Hlen Hc. unfold evaluate_managed_policy.
  rewrite (proj2 (policy_ancestors_spec store origins MAX_MANAGED_POLICY_DEPTH (mp_job_id parent) ∅ [] ancestors (Nat.le_add_r _ _))).
  2: { exists ancestors. split_and!; [done|done|done|]. intros x _. apply not_elem_of_empty. }
  destruct (ancestry_head _ _ _ _ Ht) as (r & Hhd & Hr). cbn [mbind result_bind]. rewrite Hhd. simpl.
  destruct (narrow_total spec (label_map (job_labels spec)) (initial_effective (rs_policy r)) ancestors
    [r] [] (initial_meets r)) as [e He].
  { intros k v. simpl. by rewrite lookup_empty. }
  { eapply Forall_impl; [exact Hc|]. intros x [H1 H2 _]. by split. }
  rewrite He. simpl.
  destruct (narrow_fold _ _ _ _ _ _ (initial_meets r) He) as [_ Hm]. apply (meets_cons e r) in Hm; [|done].
  assert (∀ p, p ∈ ancestors.*2 → permits_child spec p) as Hall.
  { intros p ([a p'] & -> & Ha)%list_elem_of_fmap. rewrite Forall_forall in Hc. by apply (Hc (a, p')). }
  rewrite (proj2 (check_required_labels_spec _ _)). 2:
  { intros k v (p & Hp & Hl)%(mt_required _ _ _ Hm). by apply (pc_labels _ _ (Hall p Hp) _ Hl). }
  simpl. destruct (job_child_submission_policy spec) as [dp|] eqn:Hd; simpl; [|by eexists].
  destruct (proj2 (validate_delegated_spec dp e ancestors (mp_job_id parent) _ Hm (λ p, reflexivity _))) as [Hdel Hv].
  { intros p Hp. by apply (pc_delegated _ _ (Hall p Hp)). }
  rewrite Hdel. simpl. rewrite Hv. simpl. by eexists.
Qed.

(** C8: a managed proposal is admitted exactly when each of its ancestors, fewer than 64
    in a chain without cycles, has a policy that permits it: priority, claims of the job
    and of its probes, impacts, fences, required labels and switches, and a policy it
    delegates further gives away no more than any ancestor does. *)
Theorem managed_policy_spec store origins parent spec now :
  is_ok (evaluate_managed_policy pf uuid_to_string fences_allow store origins (Managed parent) spec now) = true ↔
  ∃ ancestors, ancestry store origins (mp_job_id parent) ancestors ∧
    (length ancestors < MAX_MANAGED_POLICY_DEPTH)%nat ∧ Forall (λ x, permits_child spec x.2) ancestors.
Proof.
  split.
  - destruct (evaluate_managed_policy pf uuid_to_string fences_allow store origins (Managed parent) spec now) as [o|e] eqn:E; [|done].
    intros _. apply evaluate_sound in E as (snap & l & _ & ? & ? & ? & _). by exists l.
  - intros (l & H1 & H2 & H3). by destruct (evaluate_complete _ _ _ _ now _ H1 H2 H3) as [snap ->].
Qed.
End facts.
