(* ===== verification/ManagedWait.v ===== *)
(** * ManagedWait: waits of managed parents ([src/src/store/admission.rs])

    A job that waits for jobs it submitted must not wait for itself, for a stranger or
    for what can only start with resources that the waiting job or one of its ancestors
    holds.  The order in which SQLite scans the leases is not specified by the query;
    it is the parameter [lease_scan]. *)
From S2P Require Import Prelude Spec Validate Kernel Scoped Observation Machine MachineStore Reservation Columns.
From S2P Require Import Native ConditionStore ProcessRecords Lifecycle Schedule Policy.

Section waits.
Context (pf : Platform) (uuid_to_string : Uuid → string).
Context (resolve_fences : list string → result StoreError (gset string)).
Context (lease_scan : gmap Uuid Lease → list Lease).
Context (store : Uuid).
Implicit Types (origins : gmap Uuid JobOrigin) (s : NativeStore) (parent : ManagedParent).

Local Notation show_id := (show_id uuid_to_string).

Definition of_store (id : DurableId) : bool := bool_decide (store_uuid id = store).

(** The current primary of an active job, started by this daemon and not yet exited. *)
Definition is_live_primary (generation : Uuid) s parent : bool :=
  match nv_jobs s !! entity_uuid (mp_job_id parent) with
  | None => false
  | Some j =>
      bool_decide (nj_attempt_id j = Some (entity_uuid (mp_attempt_id parent)))
      && bool_decide (nj_invocation_id j = Some (entity_uuid (mp_invocation_id parent)))
      && bool_decide (nj_state j = Active)
      && match nv_attempts s !! entity_uuid (mp_attempt_id parent), nv_invocations s !! entity_uuid (mp_invocation_id parent) with
         | Some a, Some i =>
             bool_decide (na_state a = ARunning) && bool_decide (ni_state i = IStarted)
             && bool_decide (ni_role i = RolePrimary) && bool_decide (is_Some (ni_root_pid i))
             && bool_decide (ni_root_exit_code i = None) && bool_decide (ni_daemon_generation i = Some generation)
             && existsb (λ c, bool_decide (nt_invocation_id c = entity_uuid (mp_invocation_id parent))
                              && bool_decide (nt_state c = CLive)) (btree_values (nv_containments s))
         | _, _ => false
         end
  end.

Definition validate_current_parent_identity (generation : Uuid) s (scope : SubmissionScope) : result StoreError unit :=
  match scope with
  | Unmanaged => Ok tt
  | Managed parent =>
      _ ← guard_err (negb (of_store (mp_job_id parent)) || negb (of_store (mp_attempt_id parent))
                     || negb (of_store (mp_invocation_id parent)))
            (ERejected "managed parent belongs to a foreign store");
      guard_err (negb (is_live_primary generation s parent))
        (ERejected "managed parent is no longer the live current primary Invocation")
  end.

Definition require_current_parent_policy origins (scope : SubmissionScope) : result StoreError unit :=
  match scope with
  | Unmanaged => Ok tt
  | Managed parent =>
      guard_err (bool_decide ((origins !! entity_uuid (mp_job_id parent) ≫= og_child_policy) = None))
        (policy_rejection "child_submission_disabled"
           ("parent " +:+ show_id (mp_job_id parent) +:+ " has no child submission policy"))
  end.

(** [job_descends_from]: at most 64 jobs are visited. *)
Fixpoint descends_loop (fuel : nat) origins (current : DurableId) (visited : gset Uuid) (ancestor : DurableId)
    : result StoreError bool :=
  match fuel with
  | O => Err (EPanic "out of fuel")
  | S fuel =>
      _ ← guard_err (bool_decide (entity_uuid current ∈ visited))
            (EInvalidState "managed parent graph contains a cycle");
      let visited := {[entity_uuid current]} ∪ visited in
      _ ← guard_err (bool_decide (MAX_MANAGED_POLICY_DEPTH < size visited)%nat)
            (EInvalidState "managed parent graph exceeds 64 Jobs");
      row ← ok_or (origins !! entity_uuid current) (ENotFound (show_id current));
      parent ← managed_parent_from_columns store (og_parent row);
      match parent with
      | None => Ok false
      | Some parent =>
          if decide (mp_job_id parent = ancestor) then Ok true
          else descends_loop fuel origins (mp_job_id parent) visited ancestor
      end
  end.
Definition job_descends_from origins (job ancestor : DurableId) : result StoreError bool :=
  descends_loop (S MAX_MANAGED_POLICY_DEPTH) origins job ∅ ancestor.

(** [SELECT leases.state, leases.claims_json FROM leases JOIN attempts …]: one row, whichever comes first. *)
Definition lease_of s (job attempt : Uuid) : option Lease :=
  head (List.filter (λ l, bool_decide (nl_attempt_id l = attempt)
    && match nv_attempts s !! attempt with Some a => bool_decide (na_job_id a = job) | None => false end)
    (lease_scan (nv_leases s))).

Fixpoint ancestor_claims_loop (fuel : nat) origins s (current : option ManagedParent) (visited : gset (Uuid * Uuid))
    (claims : list ResolvedClaims) : result StoreError (list ResolvedClaims) :=
  match current with
  | None => Ok claims
  | Some ancestor =>
      match fuel with
      | O => Err (EPanic "out of fuel")
      | S fuel =>
          let job := entity_uuid (mp_job_id ancestor) in
          let attempt := entity_uuid (mp_attempt_id ancestor) in
          _ ← guard_err (bool_decide ((job, attempt) ∈ visited)) (EInvalidState "managed ancestor graph contains a cycle");
          lease ← ok_or (lease_of s job attempt)
            (EInvalidState ("managed ancestor " +:+ show_id (mp_job_id ancestor) +:+ " has no Lease for Attempt "
                            +:+ show_id (mp_attempt_id ancestor)));
          let claims := match nl_state lease with LGranted => claims ++ [nl_claims lease] | LReleased => claims end in
          row ← ok_or (origins !! job) (ESql "no rows");
          parent ← managed_parent_from_columns store (og_parent row);
          ancestor_claims_loop fuel origins s parent ({[(job, attempt)]} ∪ visited) claims
      end
  end.
(** Every pair but the first is read from a row of its own. *)
Definition managed_ancestor_claims origins s parent : result StoreError (list ResolvedClaims) :=
  ancestor_claims_loop (size origins + 2) origins s (Some parent) ∅ [].

(** [ORDER BY jobs.accepted_ms, jobs.rowid] *)
Definition accepted_le (x y : Uuid * Job) : Prop :=
  (nj_accepted_ms x.2 < nj_accepted_ms y.2 ∨ nj_accepted_ms x.2 = nj_accepted_ms y.2 ∧ nj_rowid x.2 ≤ nj_rowid y.2)%Z.
#[local] Instance accepted_le_dec : RelDecision accepted_le.
Proof. intros x y. unfold accepted_le. apply _. Defined.

Definition open_predecessors s (job : Uuid) : list Uuid :=
  (sort_by accepted_le (omap (λ '(predecessor, successor, _),
     if bool_decide (successor = job)
     then j ← nv_jobs s !! predecessor; if bool_decide (nj_state j = Final) then None else Some (predecessor, j)
     else None) (nv_dependencies s))).*1.

(** The claims a job waits with: its own and those of its probes. *)
Definition waited_of (job : DurableId) (j : Job) : result StoreError (list (DurableId * string * ResolvedClaims)) :=
  let display := default (uuid_to_string (entity_uuid job)) (nj_batch_member j) in
  result_foldM (λ waited c,
    match cond_predicate c with
    | Probe probe =>
        claims ← resolve resolve_fences (probe_resources probe);
        Ok (waited ++ [(job, display +:+ " probe", claims)])
    | _ => Ok waited
    end) [(job, display, nj_claims j)] (job_conditions (nj_spec j)).

Fixpoint wait_closure (fuel : nat) origins s parent (pending : list DurableId) (visited : gset Uuid)
    (waited : list (DurableId * string * ResolvedClaims))
    : result StoreError (list (DurableId * string * ResolvedClaims)) :=
  match pending with
  | [] => Ok waited
  | job :: pending =>
      match fuel with
      | O => Err (EPanic "out of fuel")
      | S fuel =>
          _ ← guard_err (negb (of_store job))
                (ERejected ("managed wait target " +:+ show_id job +:+ " belongs to a foreign store"));
          if bool_decide (entity_uuid job ∈ visited) then wait_closure fuel origins s parent pending visited waited
          else
            let visited := {[entity_uuid job]} ∪ visited in
            _ ← guard_err (bool_decide (job = mp_job_id parent))
                  (EBlockedByAncestor "the dependency closure reaches the waiting Job itself");
            descends ← job_descends_from origins job (mp_job_id parent);
            _ ← guard_err (negb descends)
                  (ERejected ("managed wait target " +:+ show_id job +:+ " is not an authenticated descendant of "
                              +:+ show_id (mp_job_id parent)));
            j ← ok_or (nv_jobs s !! entity_uuid job) (ENotFound (show_id job));
            if bool_decide (nj_state j = Final) then wait_closure fuel origins s parent pending visited waited
            else
              more ← waited_of job j;
              wait_closure fuel origins s parent
                (pending ++ map (λ u, {| store_uuid := store; entity_uuid := u |}) (open_predecessors s (entity_uuid job)))
                visited (waited ++ more)
      end
  end.

(** One claim beside what the ancestors hold. *)
Definition check_waited (capacities : ResourceCapacities) (rules : gmap string (list string))
    (ancestors : list ResolvedClaims) (w : DurableId * string * ResolvedClaims) : result StoreError unit :=
  let '(job, display, claims) := w in
  let blockers := ancestor_blockers claims capacities ancestors rules in
  if bool_decide (blockers = []) then Ok tt
  else
    let detail := "target " +:+ display +:+ " (" +:+ show_id job +:+ "): " +:+ String.concat "; " (map blocker_detail blockers) in
    if existsb (λ b, bool_decide (blocker_code b = "resource_capacity")) blockers
    then Err (EManagedWaitRejected "resource_capacity" detail)
    else Err (EBlockedByAncestor detail).

(** A predecessor is queued once per dependency of a visited job. *)
Definition validate_managed_wait_targets (generation : Uuid) (capacities : ResourceCapacities)
    (rules : gmap string (list string)) origins s (scope : SubmissionScope) (targets : list DurableId)
    : result StoreError unit :=
  match scope with
  | Unmanaged => Ok tt
  | Managed parent =>
      _ ← guard_err (bool_decide (targets = [])) (ERejected "managed wait requires at least one target");
      _ ← validate_current_parent_identity generation s scope;
      _ ← require_current_parent_policy origins scope;
      ancestors ← managed_ancestor_claims origins s parent;
      waited ← wait_closure (length targets + length (nv_dependencies s)) origins s parent targets ∅ [];
      result_foldM (λ _, check_waited capacities rules ancestors) tt waited
  end.
End waits.
