(* ===== verification/ManagedWaitFacts.v ===== *)
(** * ManagedWaitFacts: a validated wait can come to an end

    The walks over parents and predecessors end before their fuel does.  A wait that is
    admitted reaches neither the waiting job nor a stranger, and every job it waits for
    fits beside the claims that were read for the ancestors. *)
From S2P Require Import Prelude Spec Validate Kernel Scoped ScopedFacts Observation Machine MachineStore Reservation Columns.
From S2P Require Import Native ConditionStore ProcessRecords Lifecycle Schedule Policy PolicyFacts ManagedWait.

Section waits.
Context (uuid_to_string : Uuid → string).
Context (resolve_fences : list string → result StoreError (gset string)).
Context (lease_scan : gmap Uuid Lease → list Lease).
Context (store : Uuid).
Implicit Types (origins : gmap Uuid JobOrigin) (s : NativeStore) (parent : ManagedParent).

Local Notation durable u := {| store_uuid := store; entity_uuid := u |}.
Local Notation show_id := (show_id uuid_to_string).
Local Notation policy_ancestors := (policy_ancestors uuid_to_string).
Local Notation descends_loop := (descends_loop uuid_to_string store).
Local Notation ancestor_claims_loop := (ancestor_claims_loop uuid_to_string lease_scan store).
Local Notation wait_closure := (wait_closure uuid_to_string resolve_fences store).
Local Notation open_predecessors := open_predecessors.

(** ** The walks end *)
Lemma bind_ext {E A B} (m : result E A) (f g : A → result E B) : (∀ a, m = Ok a → f a = g a) → (m ≫= f) = (m ≫= g).
Proof. destruct m; simpl; auto. Qed.

Lemma policy_ancestors_fuel origins n m current visited acc :
  (MAX_MANAGED_POLICY_DEPTH ≤ n + length acc)%nat → (MAX_MANAGED_POLICY_DEPTH ≤ m + length acc)%nat →
  (length acc < MAX_MANAGED_POLICY_DEPTH)%nat →
  policy_ancestors n store origins current visited acc = policy_ancestors m store origins current visited acc.
Proof.
  revert m current visited acc. induction n as [|n IH]; intros m current visited acc Hn Hm Hacc; [lia|].
  destruct m as [|m]; [lia|]. destruct current as [job|]; [|done]. cbn [Policy.policy_ancestors].
  apply bind_ext. intros [] Hd%guard_ok%bool_decide_eq_false. repeat (apply bind_ext; intros ? _).
  apply IH; rewrite length_app; simpl; lia.
Qed.

Lemma descends_fuel origins n m current visited ancestor :
  (S MAX_MANAGED_POLICY_DEPTH ≤ n + size visited)%nat → (S MAX_MANAGED_POLICY_DEPTH ≤ m + size visited)%nat →
  (size visited ≤ MAX_MANAGED_POLICY_DEPTH)%nat →
  descends_loop n origins current visited ancestor = descends_loop m origins current visited ancestor.
Proof.
  revert m current visited. induction n as [|n IH]; intros m current visited Hn Hm Hv; [lia|].
  destruct m as [|m]; [lia|]. cbn [ManagedWait.descends_loop].
  apply bind_ext. intros [] Hd%guard_ok%bool_decide_eq_false. cbv zeta. apply bind_ext. intros [] Hs%guard_ok%bool_decide_eq_false.
  repeat (apply bind_ext; intros ? _). destruct a0 as [p|]; [|done]. destruct (decide _); [done|].
  assert (size ({[entity_uuid current]} ∪ visited) = S (size visited)) as Hsize
    by (rewrite size_union by set_solver; by rewrite size_singleton).
  apply IH; rewrite ?Hsize in *; lia.
Qed.

(** Pairs of a job and its attempt that rows name as parents. *)
Definition parent_pairs origins : gset (Uuid * Uuid) :=
  list_to_set (omap (λ row, match og_parent row with (Some job, Some attempt, _) => Some (job, attempt) | _ => None end)
    (map_to_list origins).*2).

Lemma size_list_to_set_le {A} `{Countable A} (l : list A) : (size (list_to_set l : gset A) ≤ length l)%nat.
Proof.
  induction l as [|x l IH]; simpl; [done|]. rewrite size_union_alt, size_singleton.
  assert (size ((list_to_set l : gset A) ∖ {[x]}) ≤ size (list_to_set l : gset A))%nat by (apply subseteq_size; set_solver). lia.
Qed.

Lemma length_omap_le {A B} (f : A → option B) l : (length (omap f l) ≤ length l)%nat.
Proof. induction l as [|x l IH]; csimpl; [done|]. destruct (f x); csimpl; lia. Qed.

Lemma parent_pairs_size origins : (size (parent_pairs origins) ≤ size origins)%nat.
Proof.
  unfold parent_pairs. etrans; [apply size_list_to_set_le|]. etrans; [apply length_omap_le|].
  by rewrite length_fmap, length_map_to_list.
Qed.

Lemma parent_pairs_elem origins u row p : origins !! u = Some row →
  managed_parent_from_columns store (og_parent row) = Ok (Some p) →
  (entity_uuid (mp_job_id p), entity_uuid (mp_attempt_id p)) ∈ parent_pairs origins.
Proof.
  intros Hr Hm. unfold parent_pairs. apply elem_of_list_to_set, list_elem_of_omap. exists row. split.
  - apply list_elem_of_fmap. exists (u, row). split; [done|]. by apply elem_of_map_to_list.
  - unfold managed_parent_from_columns in Hm. destruct (og_parent row) as [[[j|] [a|]] [i|]]; by simplify_eq/=.
Qed.

Lemma ancestor_claims_fuel origins s (n m : nat) (current : option ManagedParent) (visited U : gset (Uuid * Uuid))
    (claims : list ResolvedClaims) :
  parent_pairs origins ⊆ U → (∀ p, current = Some p → (entity_uuid (mp_job_id p), entity_uuid (mp_attempt_id p)) ∈ U) →
  (size (U ∖ visited) < n)%nat → (size (U ∖ visited) < m)%nat →
  ancestor_claims_loop n origins s current visited claims = ancestor_claims_loop m origins s current visited claims.
Proof.
  intros HU. revert m current visited claims. induction n as [|n IH]; intros m current visited claims Hc Hn Hm; [lia|].
  destruct m as [|m]; [lia|]. destruct current as [p|]; [|done]. cbn [ManagedWait.ancestor_claims_loop]. cbv zeta.
  specialize (Hc p eq_refl). set (pair := (entity_uuid (mp_job_id p), entity_uuid (mp_attempt_id p))) in *.
  apply bind_ext. intros [] Hd%guard_ok%bool_decide_eq_false. apply bind_ext. intros lease _.
  apply bind_ext. intros row Hrow. apply bind_ext. intros parent Hp.
  destruct (origins !! entity_uuid (mp_job_id p)) as [row'|] eqn:Hr; simplify_eq/=.
  assert (size (U ∖ ({[pair]} ∪ visited)) < size (U ∖ visited))%nat as Hsize by (apply subset_size; set_solver).
  apply IH; [|lia|lia]. intros q ->. by apply HU, (parent_pairs_elem _ _ _ _ Hr).
Qed.

(** Dependencies of jobs that were not visited yet. *)
Definition unvisited (deps : list (Uuid * Uuid * DependencyKind)) (visited : gset Uuid) : nat :=
  length (filter (λ '(_, successor, _), successor ∉ visited) deps).

Lemma open_predecessors_length s u :
  (length (open_predecessors s u) ≤ length (filter (λ '(_, successor, _), successor = u) (nv_dependencies s)))%nat.
Proof.
  unfold ManagedWait.open_predecessors. rewrite length_fmap, (Permutation_length (sort_by_Permutation _ _)).
  induction (nv_dependencies s) as [|[[p q] k] l IH]; csimpl; [done|]. rewrite filter_cons. case_bool_decide as Hq; subst.
  - rewrite decide_True by done. csimpl. destruct (nv_jobs s !! p); csimpl; [|lia]. case_bool_decide; csimpl; lia.
  - by rewrite decide_False.
Qed.

Lemma unvisited_visit deps visited u : u ∉ visited →
  (unvisited deps ({[u]} ∪ visited) + length (filter (λ '(_, successor, _), successor = u) deps) = unvisited deps visited)%nat.
Proof.
  intros Hu. unfold unvisited. induction deps as [|[[p q] k] l IH]; [done|]. rewrite !filter_cons.
  destruct (decide (q = u)) as [->|Hne].
  - rewrite (decide_False (P := u ∉ {[u]} ∪ visited)) by set_solver. rewrite (decide_True (P := u ∉ visited)) by done. simpl. lia.
  - destruct (decide (q ∉ visited)).
    + rewrite (decide_True (P := q ∉ {[u]} ∪ visited)) by set_solver. simpl. lia.
    + rewrite (decide_False (P := q ∉ {[u]} ∪ visited)) by set_solver. simpl. lia.
Qed.

Lemma wait_closure_fuel origins s parent n m pending visited waited :
  (length pending + unvisited (nv_dependencies s) visited ≤ n)%nat →
  (length pending + unvisited (nv_dependencies s) visited ≤ m)%nat →
  wait_closure n origins s parent pending visited waited = wait_closure m origins s parent pending visited waited.
Proof.
  revert m pending visited waited. induction n as [|n IH]; intros m [|job pending] visited waited Hn Hm; simpl in Hn, Hm;
    [by destruct m|lia|by destruct m|]. destruct m as [|m]; [lia|]. cbn [ManagedWait.wait_closure].
  apply bind_ext. intros [] _. case_bool_decide as Hv; [apply IH; lia|]. cbv zeta.
  pose proof (unvisited_visit (nv_dependencies s) visited (entity_uuid job) Hv) as Hu.
  pose proof (open_predecessors_length s (entity_uuid job)) as Hp.
  apply bind_ext. intros [] _. apply bind_ext. intros descends _. apply bind_ext. intros [] _. apply bind_ext. intros j _.
  case_bool_decide; [apply IH; lia|]. apply bind_ext. intros more _. apply IH; rewrite length_app, length_map; lia.
Qed.

(** ** What a wait reaches *)
Inductive reached s (targets : list Uuid) : Uuid → Prop :=
| reached_target u : u ∈ targets → reached s targets u
| reached_predecessor u j p jp kind : reached s targets u → nv_jobs s !! u = Some j → nj_state j ≠ Final →
    (p, u, kind) ∈ nv_dependencies s → nv_jobs s !! p = Some jp → nj_state jp ≠ Final → reached s targets p.

Lemma elem_of_open_predecessors s u p jp kind : (p, u, kind) ∈ nv_dependencies s → nv_jobs s !! p = Some jp →
  nj_state jp ≠ Final → p ∈ open_predecessors s u.
Proof.
  intros Hd Hj Hf. apply list_elem_of_fmap. exists (p, jp). split; [done|]. rewrite (sort_by_Permutation _ _).
  apply list_elem_of_omap. exists (p, u, kind). split; [done|]. rewrite bool_decide_eq_true_2 by done. rewrite Hj. simpl.
  by rewrite bool_decide_eq_false_2.
Qed.

(** What the walk has established of a visited job. *)
Record visited_ok origins s parent (V : gset Uuid) (waited : list (DurableId * string * ResolvedClaims)) (u : Uuid) : Prop := {
  vo_other : durable u ≠ mp_job_id parent;
  vo_descends : job_descends_from uuid_to_string store origins (durable u) (mp_job_id parent) = Ok true;
  vo_job : ∃ j, nv_jobs s !! u = Some j ∧ (nj_state j ≠ Final →
    (∃ more, waited_of uuid_to_string resolve_fences (durable u) j = Ok more ∧ more ⊆ waited) ∧
    ∀ p, p ∈ open_predecessors s u → p ∈ V);
}.

(** One visited job: the rest of the walk completes what it has queued. *)
Lemma visited_next origins s parent n (visited : gset Uuid) waited pending job j w p' out :
  (∀ pending visited waited, wait_closure n origins s parent pending visited waited = Ok out →
    waited ⊆ out ∧ ∃ V : gset Uuid, visited ⊆ V ∧ (∀ x, x ∈ pending → entity_uuid x ∈ V) ∧
      ∀ u, u ∈ V → u ∉ visited → visited_ok origins s parent V out u) →
  job = durable (entity_uuid job) → job ≠ mp_job_id parent →
  job_descends_from uuid_to_string store origins job (mp_job_id parent) = Ok true →
  nv_jobs s !! entity_uuid job = Some j → waited ⊆ w →
  wait_closure n origins s parent p' ({[entity_uuid job]} ∪ visited) w = Ok out →
  (nj_state j ≠ Final → (∃ more, waited_of uuid_to_string resolve_fences job j = Ok more ∧ more ⊆ w) ∧
    ∀ p, p ∈ open_predecessors s (entity_uuid job) → durable p ∈ p') → (∀ x, x ∈ pending → x ∈ p') →
  waited ⊆ out ∧ ∃ V : gset Uuid, visited ⊆ V ∧ (∀ x, x ∈ job :: pending → entity_uuid x ∈ V) ∧
    ∀ u, u ∈ V → u ∉ visited → visited_ok origins s parent V out u.
Proof.
  intros IH Hjob Hne Hd Hj Hw Hc Hfin Hpend. apply IH in Hc as (Hwo & V & HV & Hp & Hok). split; [set_solver|]. exists V. split_and!.
  - set_solver.
  - intros x [->|Hx]%elem_of_cons; [set_solver|]. by apply Hp, Hpend.
  - intros u Hu Hnv. destruct (decide (u = entity_uuid job)) as [->|Hneq]; [|apply Hok; set_solver].
    split; [by rewrite <-Hjob|by rewrite <-Hjob|]. exists j. split; [done|]. intros Hf.
    destruct (Hfin Hf) as [(more & Hm & Hsub) Hpre]. split; [exists more; rewrite <-Hjob; split; [done|set_solver]|].
    intros p Hpp. apply (Hp (durable p)), Hpre, Hpp.
Qed.

Lemma wait_closure_sound origins s parent n pending visited waited out :
  wait_closure n origins s parent pending visited waited = Ok out →
  waited ⊆ out ∧ ∃ V : gset Uuid, visited ⊆ V ∧ (∀ x, x ∈ pending → entity_uuid x ∈ V) ∧
    ∀ u, u ∈ V → u ∉ visited → visited_ok origins s parent V out u.
Proof.
  revert pending visited waited. induction n as [|n IH]; intros [|job pending] visited waited H; simpl in H;
    try (simplify_eq; split; [done|]; exists visited; split_and!; [done|by intros x ?%elem_of_nil|done]); [done|].
  rewrite check_then, guard_ok, negb_false_iff in H. destruct H as [Hs H]. apply bool_decide_eq_true in Hs.
  assert (job = durable (entity_uuid job)) as Hjob by (destruct job; simpl in *; by subst). clear Hs.
  case_bool_decide as Hv.
  { apply IH in H as (Hw & V & HV & Hp & Hok). split; [done|]. exists V. split_and!; [done| |done].
    intros x [->|Hx]%elem_of_cons; [set_solver|by apply Hp]. }
  rewrite check_then, guard_ok, bool_decide_eq_false in H. destruct H as [Hne H].
  destruct (job_descends_from uuid_to_string store origins job (mp_job_id parent)) as [descends|] eqn:Hd; [simpl in H|done].
  rewrite check_then, guard_ok, negb_false_iff in H. destruct H as [-> H].
  destruct (nv_jobs s !! entity_uuid job) as [j|] eqn:Hj; [simpl in H|done].
  case_bool_decide as Hf; [by eapply (visited_next origins s parent n visited waited pending job j waited); eauto|].
  destruct (waited_of uuid_to_string resolve_fences job j) as [more|] eqn:Hm; [simpl in H|done].
  eapply (visited_next origins s parent n visited waited pending job j (waited ++ more)); eauto; [set_solver| |].
  - intros _. split; [exists more; split; [done|set_solver]|]. intros p Hp. apply elem_of_app. right.
    apply list_elem_of_fmap. by exists p.
  - intros x Hx. apply elem_of_app. by left.
Qed.
Lemma reached_visited origins s parent (V : gset Uuid) out targets u :
  (∀ u, u ∈ V → visited_ok origins s parent V out u) → (∀ u, u ∈ targets → u ∈ V) → reached s targets u → u ∈ V.
Proof.
  intros Hok Ht. induction 1 as [u Hu|u j p jp kind _ IH Hj Hf Hd Hp Hfp]; [by apply Ht|].
  destruct (vo_job _ _ _ _ _ _ (Hok u IH)) as (j' & Hj' & Hnf). simplify_eq.
  apply (Hnf Hf). by eapply elem_of_open_predecessors.
Qed.

(** ** Descent *)

(** The row of [u] names [p] as its parent. *)
Definition child_of origins (u : Uuid) (p : ManagedParent) : Prop :=
  ∃ row, origins !! u = Some row ∧ managed_parent_from_columns store (og_parent row) = Ok (Some p).

Inductive descends_from origins (ancestor : DurableId) : Uuid → Prop :=
| descends_parent u p : child_of origins u p → mp_job_id p = ancestor → descends_from origins ancestor u
| descends_trans u p : child_of origins u p → descends_from origins ancestor (entity_uuid (mp_job_id p)) →
    descends_from origins ancestor u.

Lemma descends_loop_sound origins n current visited ancestor :
  descends_loop n origins current visited ancestor = Ok true → descends_from origins ancestor (entity_uuid current).
Proof.
  revert current visited. induction n as [|n IH]; intros current visited H; simpl in H; [done|].
  rewrite check_then in H. destruct H as [_ H]. rewrite check_then in H. destruct H as [_ H].
  destruct (origins !! entity_uuid current) as [row|] eqn:Hr; [simpl in H|done].
  destruct (managed_parent_from_columns store (og_parent row)) as [[p|]|] eqn:Hp; simpl in H; [|done..].
  assert (child_of origins (entity_uuid current) p) as Hc by by exists row.
  destruct (decide _) as [Ha|Ha]; [by eapply descends_parent|]. eapply descends_trans; [done|]. by eapply IH.
Qed.

(** ** What the ancestors hold *)
Inductive above origins parent : ManagedParent → Prop :=
| above_self : above origins parent parent
| above_parent p q : above origins parent p → child_of origins (entity_uuid (mp_job_id p)) q → above origins parent q.

Lemma above_step origins parent q p : child_of origins (entity_uuid (mp_job_id parent)) q → above origins parent p →
  p = parent ∨ above origins q p.
Proof.
  intros (row & Hr & Hm). induction 1 as [|p p' _ IH (row' & Hr' & Hm')]; [by left|right].
  destruct IH as [->|IH]; [simplify_eq; rewrite Hm in Hm'; simplify_eq; constructor|]. apply (above_parent _ _ p); [done|]. by exists row'.
Qed.

Local Notation lease_of := (lease_of lease_scan).
(** The lease that stands for an ancestor is among the counted claims while it is granted. *)
Definition counted s (held : list ResolvedClaims) (p : ManagedParent) : Prop :=
  ∃ l, lease_of s (entity_uuid (mp_job_id p)) (entity_uuid (mp_attempt_id p)) = Some l ∧
    (nl_state l = LGranted → nl_claims l ∈ held).

Lemma ancestor_claims_sound origins s n current visited claims held :
  ancestor_claims_loop n origins s current visited claims = Ok held →
  claims ⊆ held ∧ ∀ parent p, current = Some parent → above origins parent p → counted s held p.
Proof.
  revert current visited claims. induction n as [|n IH]; intros [parent|] visited claims H; simpl in H; try done;
    try (by simplify_eq).
  rewrite check_then in H. destruct H as [_ H].
  destruct (lease_of s _ _) as [l|] eqn:Hl; [simpl in H|done].
  destruct (origins !! _) as [row|] eqn:Hr; [simpl in H|done].
  destruct (managed_parent_from_columns store (og_parent row)) as [next|] eqn:Hp; [simpl in H|done].
  apply IH in H as [Hsub Hnext]. split; [destruct (nl_state l); set_solver|]. intros ? p [= <-] Ha.
  assert (counted s held parent) as Hself.
  { exists l. split; [done|]. intros Hg. apply Hsub. rewrite Hg. set_solver. }
  inversion Ha as [|q p' Hab Hc]; subst; [done|]. destruct next as [next|].
  - destruct (above_step origins parent next p) as [->|Hq]; [by exists row|done|done|]. by apply (Hnext next).
  - exfalso. clear -Hr Hp Hab Hc. assert (∀ r, above origins parent r → r = parent) as Honly; [|].
    { induction 1 as [|r r' _ -> (row' & ? & ?)]; [done|]. congruence. }
    destruct Hc as (row' & Hr' & Hm'). rewrite (Honly q) in Hr' by done. congruence.
Qed.
(** The claim fits beside [held] within the capacities and conflicts with none of it. *)
Definition fits_beside (capacities : ResourceCapacities) (rules : gmap string (list string)) (held : list ResolvedClaims)
    (claims : ResolvedClaims) : Prop :=
  vector_fits (scalar_entries claims) (legacy_capacities capacities) (map scalar_entries held) ∧
  Forall (claims_compatible rules claims) held.

Lemma check_waited_ok capacities rules held w :
  check_waited uuid_to_string capacities rules held w = Ok tt ↔ fits_beside capacities rules held w.2.
Proof.
  destruct w as [[job display] claims]. unfold check_waited, fits_beside. cbn [snd]. rewrite <-ancestor_blockers_spec.
  case_bool_decide; [done|]. destruct (existsb _ _); done.
Qed.

Lemma probes_waited (conditions : list ConditionSpec) (job : DurableId) (display : string) waited out :
  result_foldM (λ waited c,
    match cond_predicate c with
    | Probe probe =>
        claims ← resolve resolve_fences (probe_resources probe);
        Ok (waited ++ [(job, display +:+ " probe", claims)])
    | _ => Ok waited
    end) waited conditions = Ok out →
  waited ⊆ out ∧ ∀ c probe, c ∈ conditions → cond_predicate c = Probe probe →
    ∃ claims, resolve resolve_fences (probe_resources probe) = Ok claims ∧ (job, display +:+ " probe", claims) ∈ out.
Proof.
  revert waited. induction conditions as [|c l IH]; intros waited H; simpl in H.
  { simplify_eq. split; [done|]. by intros c probe ?%elem_of_nil. }
  destruct (cond_predicate c) eqn:Hc.
  all: try (apply IH in H as [Hw H]; split; [done|]; intros c' probe' [->|Hin]%elem_of_cons Hp; [congruence|by eapply H]).
  destruct (resolve _ _) as [claims|] eqn:Hr; [simpl in H|done]. apply IH in H as [Hw H]. split; [set_solver|].
  intros c' probe' [->|Hin]%elem_of_cons Hp; [|by eapply H]. rewrite Hc in Hp; injection Hp as <-. exists claims. split; [done|set_solver].
Qed.

(** What a waiting job is entitled to expect of a job it waits for. *)
Record awaited capacities rules origins s parent held (u : Uuid) : Prop := {
  aw_other : durable u ≠ mp_job_id parent;
  aw_descends : descends_from origins (mp_job_id parent) u;
  aw_fits : ∃ j, nv_jobs s !! u = Some j ∧ (nj_state j ≠ Final →
    fits_beside capacities rules held (nj_claims j) ∧
    ∀ c probe, c ∈ job_conditions (nj_spec j) → cond_predicate c = Probe probe →
      ∃ claims, resolve resolve_fences (probe_resources probe) = Ok claims ∧ fits_beside capacities rules held claims);
}.

Lemma visited_awaited capacities rules origins s parent held V out u :
  (∀ w, w ∈ out → fits_beside capacities rules held w.2) → visited_ok origins s parent V out u →
  awaited capacities rules origins s parent held u.
Proof.
  intros Hfit [Hother Hdesc (j & Hj & Hnf)]. split; [done|by eapply (descends_loop_sound _ _ (durable u))|].
  exists j. split; [done|]. intros Hf. destruct (Hnf Hf) as [(more & Hm & Hsub) _].
  apply probes_waited in Hm as [Hown Hprobes]. split.
  - apply (Hfit _ (Hsub _ (Hown _ (list_elem_of_here _ _)))).
  - intros c probe Hc Hp. destruct (Hprobes c probe Hc Hp) as (claims & Hr & Hin). exists claims. split; [done|].
    by apply (Hfit _ (Hsub _ Hin)).
Qed.

(** C10: A wait of a managed parent that is admitted can be satisfied as far as the parent and
    its ancestors are concerned.  The parent is the live current primary and may submit; for
    every ancestor a lease was read and, while granted, its claims are counted in [held]; and
    every job that is a target or an open predecessor, at any distance, of one is not the
    waiting job, descends from it and, unless it is final, fits beside [held] with its own
    claims and with those of each of its probes. *)
Theorem admitted_wait_is_satisfiable generation capacities rules origins s parent targets :
  validate_managed_wait_targets uuid_to_string resolve_fences lease_scan store generation capacities rules origins s
    (Managed parent) targets = Ok tt →
  is_live_primary generation s parent = true ∧ is_Some (origins !! entity_uuid (mp_job_id parent) ≫= og_child_policy) ∧
  ∃ held, (∀ p, above origins parent p → counted s held p) ∧
    ∀ u, reached s (map entity_uuid targets) u → awaited capacities rules origins s parent held u.
Proof.
  unfold validate_managed_wait_targets. intros H. rewrite check_then in H. destruct H as [_ H].
  cbn [validate_current_parent_identity require_current_parent_policy] in H.
  rewrite check_then in H. destruct H as [Hid H]. rewrite check_then, !guard_ok in Hid. destruct Hid as [_ Hlive].
  rewrite check_then, guard_ok, bool_decide_eq_false in H. destruct H as [Hpolicy H].
  split_and!; [by apply negb_false_iff|by apply not_eq_None_Some|].
  destruct (managed_ancestor_claims _ _ _ _ _ _) as [held|] eqn:Ha; [simpl in H|done].
  destruct (wait_closure _ _ _ _ _ _ _) as [out|] eqn:Hc; [simpl in H|done].
  apply ancestor_claims_sound in Ha as [_ Ha]. exists held. split; [intros p; by apply Ha|].
  apply foldM_checks in H. apply wait_closure_sound in Hc as (_ & V & _ & Hp & Hok). intros u Hu.
  apply (visited_awaited _ _ _ _ _ _ V out).
  - intros w Hw. apply check_waited_ok. by rewrite Forall_forall in H; apply H.
  - apply Hok; [|set_solver]. apply (reached_visited origins s parent V out (map entity_uuid targets)); [| |done].
    + intros v Hv. apply Hok; [done|set_solver].
    + intros v (x & -> & Hx)%list_elem_of_fmap. by apply Hp.
Qed.

End waits.
