(* ===== verification/Submission.v ===== *)
(** * Submission: acceptance of jobs and batches ([src/src/store/admission.rs],
      [src/src/store/recovery.rs], [src/src/store/input.rs])

    A submission is received in one transaction and decided in a second one, so that
    a retry with the same key, a restart of the service and the submitter's question
    what became of it all find the same row.  Documents are kept as values: their
    JSON columns are read back as they were written.  Of a receipt the parts that are
    columns of the rows are modelled, not the reports computed beside them (blockers,
    rank, estimate, snapshots). *)
From S2P Require Import Prelude Spec Validate Batch Kernel Scoped Observation Machine MachineStore Reservation Columns.
From S2P Require Import Native ConditionStore ProcessRecords Lifecycle Schedule Policy ManagedWait.

Definition REJECTED : string := "rejected".

(** [StoreError::to_string] *)
Definition StoreError_text (e : StoreError) : string :=
  match e with
  | ESql d => "SQLite: " +:+ d
  | EIo d => "I/O: " +:+ d
  | ENotFound d => "not found: " +:+ d
  | EIdempotencyConflict existing requested =>
      "idempotency conflict: existing payload " +:+ existing +:+ ", requested payload " +:+ requested
  | ERejected d => "submission rejected: " +:+ d
  | OperationRejected code d => "operation rejected (" +:+ code +:+ "): " +:+ d
  | EBlockedByAncestor d => "managed wait blocked by an ancestor: " +:+ d
  | EManagedWaitRejected code d => "managed wait rejected (" +:+ code +:+ "): " +:+ d
  | EInvalidSpec d => "invalid specification: " +:+ d
  | EInvalidState d => "invalid durable state: " +:+ d
  | EViewStale d => "view cursor is stale: " +:+ d
  | EViewUnavailable d => "view unavailable: " +:+ d
  | EJson d => "JSON: " +:+ d
  | EPanic d => d
  end.
(** The text of the I/O error inside. *)
Definition io_text (e : StoreError) : string := match e with EIo d => d | e => StoreError_text e end.

Inductive SubmissionState := SubReceived | SubAccepted | SubRejected.
#[export] Instance SubmissionState_eq_dec : EqDecision SubmissionState.
Proof. solve_decision. Defined.

(** [spec_json], [stdin_json] and [kind] *)
Inductive Document :=
| JobDocument (spec : JobSpec) (stdin : option (string * N))
| BatchDocument (spec : BatchSpec) (stdins : gmap string (string * N)).

Record Submission := {
  sm_scope : string;
  sm_idempotency_key : Uuid;
  sm_payload_hash : string;
  sm_state : SubmissionState;
  sm_document : Document;
  sm_job_id : option Uuid;
  sm_batch_id : option Uuid;
  sm_parent : option Uuid * option Uuid * option Uuid;
  sm_wait_intent : bool;
  sm_reject_code : option string;
  sm_reject_detail : option string;
  sm_daemon_generation : option Uuid;
  sm_created_ms : Z;
}.
#[export] Instance Submission_eta : Eta Submission := λ r,
  {| sm_scope := sm_scope r; sm_idempotency_key := sm_idempotency_key r; sm_payload_hash := sm_payload_hash r;
     sm_state := sm_state r; sm_document := sm_document r; sm_job_id := sm_job_id r; sm_batch_id := sm_batch_id r;
     sm_parent := sm_parent r; sm_wait_intent := sm_wait_intent r; sm_reject_code := sm_reject_code r;
     sm_reject_detail := sm_reject_detail r; sm_daemon_generation := sm_daemon_generation r;
     sm_created_ms := sm_created_ms r |}.

(** The tables of submissions beside those of native jobs; [sb_origins] are columns of
    the table of jobs. *)
Record SubmitStore := {
  sb_native : NativeStore;
  sb_submissions : gmap Uuid Submission;
  sb_batches : gmap Uuid (Uuid * Z);   (* submission_id, accepted_ms *)
  sb_origins : gmap Uuid JobOrigin;
}.
#[export] Instance SubmitStore_eta : Eta SubmitStore := λ r,
  {| sb_native := sb_native r; sb_submissions := sb_submissions r; sb_batches := sb_batches r;
     sb_origins := sb_origins r |}.

Record JobReceipt := {
  jr_submission_id : DurableId;
  jr_job_id : DurableId;
  jr_job_state : JobState;
  jr_reason_code : option string;
  jr_accepted_unix_millis : Z;
  jr_priority : Z;
  jr_effective_priority : option Z;
  jr_parent : option ManagedParent;
  jr_managed_policy_admission : option ManagedPolicyAdmissionSnapshot;
  jr_daemon_generation : Uuid;
}.
Record BatchReceipt := {
  br_submission_id : DurableId;
  br_batch_id : DurableId;
  br_jobs : list (string * JobReceipt);
  br_daemon_generation : Uuid;
}.
Record SubmitResult := { sr_receipt : JobReceipt; sr_should_schedule : bool }.
Record BatchSubmitResult := { bs_receipt : BatchReceipt; bs_should_schedule : bool }.

Inductive RecoveryResult :=
| RUnknown
| RNotReceived
| RConflict (existing requested : string)
| RReceived (submission : DurableId)
| RAccepted (receipt : JobReceipt)
| RAcceptedBatch (receipt : BatchReceipt)
| RRejected (code detail : string).

(** What a submission reads from the world: fresh identities, clocks, scans. *)
Record SubmitInput := {
  si_submission_id : Uuid;
  si_batch_id : Uuid;
  si_job_id : nat → Uuid;                    (* of the n-th member *)
  si_condition_id : nat → N → Uuid;
  si_observation_id : nat → Uuid → Uuid;
  si_evaluations : nat → ConditionEvaluations;
  si_received_ms : Z;
  si_accepted_ms : Z;
  si_receipt_now : Z;
  si_repair_pending : result StoreError bool;   (* a reset of this store is pending in the authority *)
}.

(** ** Decisions on rejections *)
Definition rejection_decision (e : StoreError) : string * string :=
  match e with
  | EBlockedByAncestor detail => ("blocked_by_ancestor"%string, detail)
  | EManagedWaitRejected code detail => (code, detail)
  | OperationRejected code detail => (code, detail)
  | e => (REJECTED, StoreError_text e)
  end.

Definition retained_rejection (code detail : option string) : StoreError :=
  let code := default REJECTED code in
  let detail := default "the retained submission decision is rejected"%string detail in
  if decide (code = "blocked_by_ancestor"%string) then EBlockedByAncestor detail
  else if decide (code = "resource_capacity"%string) then EManagedWaitRejected code detail
  else if String.prefix "child_" code then OperationRejected code detail
  else ERejected detail.

Definition upd_submission (id : Uuid) (f : Submission → Submission) (s : SubmitStore) : SubmitStore :=
  s <| sb_submissions ::= alter f id |>.

(** [UPDATE submissions SET state = 'rejected', … WHERE id = ?1 AND state = 'received'] *)
Definition reject_received_with (id : Uuid) (code detail : string) : SubmitStore → SubmitStore :=
  upd_submission id (λ r, where_ (bool_decide (sm_state r = SubReceived))
    (λ r, r <| sm_state := SubRejected |> <| sm_reject_code := Some code |> <| sm_reject_detail := Some detail |>) r).
Definition reject_received_for_error (id : Uuid) (e : StoreError) : SubmitStore → SubmitStore :=
  let '(code, detail) := rejection_decision e in reject_received_with id code detail.

(** A transaction that rolls back, or rolls back and rejects the submission. *)
Inductive Stop := Fail (e : StoreError) | RejectFor (decision returned : StoreError).
Definition or_fail {A} (r : result StoreError A) : result Stop A :=
  match r with Ok a => Ok a | Err e => Err (Fail e) end.
Definition or_reject {A} (returned : StoreError → StoreError) (r : result StoreError A) : result Stop A :=
  match r with Ok a => Ok a | Err e => Err (RejectFor e (returned e)) end.

(** [return Err(error)] *)
Definition or_return {A B} (s : SubmitStore) (r : result StoreError A) (k : A → SubmitStore * result StoreError B)
    : SubmitStore * result StoreError B :=
  match r with Ok a => k a | Err e => (s, Err e) end.

Definition of_error {A} (r : result Error A) : result StoreError A :=
  match r with Ok a => Ok a | Err e => Err (EInvalidSpec (Error_text e)) end.

(** [INSERT INTO jobs(…)]: the next row id is one more than the largest. *)
Definition next_rowid (s : NativeStore) : Z := (1 + foldr Z.max 0 (nj_rowid <$> btree_values (nv_jobs s)))%Z.

Definition new_job (spec : JobSpec) (claims : ResolvedClaims) (stdin : option (string * N)) (accepted rowid : Z)
    (member : option (string * N)) : Job :=
  {| nj_state := Pending; nj_outcome := None; nj_reason_code := None; nj_spec := spec; nj_claims := claims;
     nj_stdin_hash := fst <$> stdin; nj_stdin_len := snd <$> stdin; nj_attempt_id := None; nj_invocation_id := None;
     nj_containment_id := None; nj_root_exit_code := None; nj_accepted_ms := accepted; nj_rowid := rowid;
     nj_started_ms := None; nj_finished_ms := None; nj_stdout_len := 0; nj_stderr_len := 0;
     nj_cancel_requested := false; nj_retry_not_before_ms := None; nj_reservation_not_before_ms := None;
     nj_batch_member := fst <$> member; nj_batch_index := snd <$> member |}.

Definition insert_job (id : Uuid) (j : Job) (origin : JobOrigin) (s : SubmitStore) : result StoreError SubmitStore :=
  _ ← guard_err (bool_decide (is_Some (nv_jobs (sb_native s) !! id))) (ESql "UNIQUE constraint failed: jobs.id");
  Ok (s <| sb_native ::= (λ n, n <| nv_jobs ::= <[id := j]> |>) |> <| sb_origins ::= <[id := origin]> |>).

Definition insert_dependency (predecessor successor : Uuid) (kind : DependencyKind) (s : SubmitStore)
    : result StoreError SubmitStore :=
  _ ← guard_err (bool_decide ((predecessor, successor, kind) ∈ nv_dependencies (sb_native s)))
        (ESql "UNIQUE constraint failed: dependencies");
  Ok (s <| sb_native ::= (λ n, n <| nv_dependencies ::= (λ l, l ++ [(predecessor, successor, kind)]) |>) |>).

Section submissions.
Context (pf : Platform) (uuid_to_string : Uuid → string).
Context (fences_allow : list ResolvedPolicyFence → string → result string bool).
Context (resolve_policy_fence : string → result string ResolvedPolicyFence).
Context (resolve_fences : list string → result StoreError (gset string)).
Context (lease_scan : gmap Uuid Lease → list Lease).
(* length and digest of the blob of a hash, and the hashes of documents *)
Context (blob_file : string → result StoreError (N * string)).
Context (job_hash : JobSpec → option (string * N) → result StoreError string).
Context (batch_hash : BatchSpec → gmap string (string * N) → result StoreError string).
Context (d : Daemon) (store : Uuid).
Implicit Types (s : SubmitStore) (scope : SubmissionScope) (input : SubmitInput).

Definition durable (u : Uuid) : DurableId := {| store_uuid := store; entity_uuid := u |}.

Definition scope_key scope : string :=
  match scope with
  | Unmanaged => "unmanaged"
  | Managed p => "managed:" +:+ uuid_to_string (entity_uuid (mp_job_id p)) +:+ ":" +:+ uuid_to_string (entity_uuid (mp_attempt_id p))
  end.
Definition parent_columns scope : option Uuid * option Uuid * option Uuid :=
  match scope_parent scope with
  | None => (None, None, None)
  | Some p => (Some (entity_uuid (mp_job_id p)), Some (entity_uuid (mp_attempt_id p)), Some (entity_uuid (mp_invocation_id p)))
  end.

(** ** Staged inputs *)
Definition verify_file (input : string * N) : result StoreError unit :=
  _ ← validate_input_ref input;
  '(length, digest) ← blob_file input.1;
  _ ← guard_err (bool_decide (length ≠ input.2)) (EInvalidSpec "staged stdin length does not match its reference");
  guard_err (bool_decide (digest ≠ input.1)) (EInvalidSpec "staged stdin hash does not match its reference").

Definition verify_staged_input (spec : JobSpec) (stdin : option (string * N)) : result StoreError unit :=
  _ ← validate_input_shape spec stdin;
  match stdin with Some blob => verify_file blob | None => Ok tt end.

Definition file_members (spec : BatchSpec) : gset string :=
  list_to_set (omap (λ m, match job_stdin (member_spec m) with StdinFile _ => Some (member_name m) | _ => None end) (batch_jobs spec)).

Definition validate_batch_input_shape (spec : BatchSpec) (stdins : gmap string (string * N)) : result StoreError unit :=
  let expected := file_members spec in
  _ ← guard_err (bool_decide (size expected ≠ size stdins)
                 || negb (forallb (λ name, bool_decide (name ∈ expected)) (btree_keys stdins)))
        (EInvalidSpec "Batch staged stdin mapping must exactly match file-stdin members");
  result_foldM (λ _ blob, validate_input_ref blob) tt (btree_values stdins).

Definition verify_staged_batch_inputs (spec : BatchSpec) (stdins : gmap string (string * N)) : result StoreError unit :=
  _ ← validate_batch_input_shape spec stdins;
  result_foldM (λ _ blob, verify_file blob) tt (btree_values stdins).

(** ** Receipts *)
Definition accepting_daemon_generation s (submission : Uuid) : result StoreError Uuid :=
  row ← ok_or (sb_submissions s !! submission) (ESql "no rows");
  _ ← guard_err (bool_decide (sm_state row ≠ SubAccepted)) (ESql "no rows");
  ok_or (sm_daemon_generation row) (ESql "null").

(** The columns of a receipt; its blockers, rank, reservation, conditions, estimate,
    GPU provenance and admission are reports computed from other rows. *)
Definition receipt s (submission job : Uuid) (now : Z) : result StoreError JobReceipt :=
  j ← ok_or (nv_jobs (sb_native s) !! job) (ESql "no rows");
  origin ← ok_or (sb_origins s !! job) (ESql "no rows");
  parent ← managed_parent_from_columns store (og_parent origin);
  generation ← accepting_daemon_generation s submission;
  Ok {| jr_submission_id := durable submission; jr_job_id := durable job; jr_job_state := nj_state j;
        jr_reason_code := nj_reason_code j; jr_accepted_unix_millis := nj_accepted_ms j;
        jr_priority := job_priority (nj_spec j);
        jr_effective_priority := if bool_decide (nj_state j = Pending)
          then Some (effective_priority_at (job_priority (nj_spec j)) (nj_accepted_ms j) now) else None;
        jr_parent := parent; jr_managed_policy_admission := og_policy_admission origin;
        jr_daemon_generation := generation |}.

(** [SELECT id, batch_member FROM jobs WHERE batch_id = ?1 ORDER BY batch_index] *)
Definition index_le (x y : Uuid * Job) : Prop := default 0 (nj_batch_index x.2) ≤ default 0 (nj_batch_index y.2).
#[local] Instance index_le_dec : RelDecision index_le.
Proof. intros x y. unfold index_le. apply _. Defined.
Definition batch_members s (batch : Uuid) : list (Uuid * Job) :=
  sort_by index_le (List.filter (λ x : Uuid * Job,
    bool_decide ((sb_origins s !! x.1 ≫= og_batch_id) = Some batch)) (btree_entries (nv_jobs (sb_native s)))).

Definition batch_receipt s (submission batch : Uuid) (now : Z) : result StoreError BatchReceipt :=
  jobs ← result_mapM (λ '(id, j),
    name ← ok_or (nj_batch_member j) (ESql "null");
    r ← receipt s submission id now; Ok (name, r)) (batch_members s batch);
  _ ← guard_err (bool_decide (length jobs = 0%nat)) (EInvalidState ("retained batch " +:+ show_id uuid_to_string (durable batch) +:+ " has no members"));
  generation ← accepting_daemon_generation s submission;
  Ok {| br_submission_id := durable submission; br_batch_id := durable batch; br_jobs := jobs;
        br_daemon_generation := generation |}.

(** ** Acceptance *)
Definition terminal_error (submission : Uuid) : StoreError :=
  EInvalidState ("submission " +:+ show_id uuid_to_string (durable submission) +:+ " is terminal in state rejected").

Definition condition_acceptance input : ConditionAcceptance :=
  {| ca_daemon_generation := dm_generation d; ca_boot_id := dm_boot_id d; ca_accepted_ms := si_accepted_ms input;
     ca_freshness_millis := hoc_condition_rescan_interval_millis (host_observation (dm_config d)) |}.

Definition origin_of (submission : Uuid) (batch : option Uuid) scope (policy : option ResolvedChildSubmissionPolicy)
    (admission : option ManagedPolicyAdmissionSnapshot) : JobOrigin :=
  {| og_submission_id := submission; og_batch_id := batch; og_parent := parent_columns scope;
     og_child_policy := policy; og_policy_admission := admission |}.

(** The row of a member with its conditions. *)
Definition insert_member (id : Uuid) (n : nat) (j : Job) (origin : JobOrigin) input s : result StoreError SubmitStore :=
  s ← insert_job id j origin s;
  native ← insert_conditions_tx (sb_native s) id (job_conditions (nj_spec j)) (si_condition_id input n)
    (si_observation_id input n) (condition_acceptance input) (si_evaluations input n);
  Ok (s <| sb_native := native |>).

Definition evaluate_policy s scope (spec : JobSpec) (member : option string) input
    : result StoreError (option ManagedPolicyAdmissionSnapshot) :=
  match evaluate_managed_policy pf uuid_to_string fences_allow store (sb_origins s) scope spec (si_accepted_ms input) with
  | Ok a => Ok a
  | Err e => Err (contextualize_policy_rejection pf uuid_to_string e (scope_parent scope) member)
  end.

Definition validate_wait s scope (targets : list Uuid) : result StoreError unit :=
  validate_managed_wait_targets uuid_to_string resolve_fences lease_scan store (dm_generation d)
    (host_resources (dm_config d)) (host_impact_incompatibilities (dm_config d)) (sb_origins s) (sb_native s) scope
    (map durable targets).

Definition check_parent s scope : result StoreError unit :=
  validate_current_parent_identity store (dm_generation d) (sb_native s) scope.

(** The transaction of [accept_received]: [inl] is a job accepted before. *)
Definition accept_job_tx (submission : Uuid) (spec : JobSpec) (stdin : option (string * N)) (claims : ResolvedClaims)
    (policy : option ResolvedChildSubmissionPolicy) scope (wait : bool) input s : result Stop (SubmitStore * (Uuid + Uuid)) :=
  row ← or_fail (ok_or (sb_submissions s !! submission) (ESql "no rows"));
  match sm_state row with
  | SubAccepted => job ← or_fail (ok_or (sm_job_id row) (ESql "null")); Ok (s, inl job)
  | SubRejected => Err (Fail (terminal_error submission))
  | SubReceived =>
      _ ← or_reject id (check_parent s scope);
      admission ← or_reject id (evaluate_policy s scope spec None input);
      let job := si_job_id input 0 in
      let j := new_job spec claims stdin (si_accepted_ms input) (next_rowid (sb_native s)) None in
      s ← or_fail (insert_member job 0 j (origin_of submission None scope policy admission) input s);
      _ ← (if wait then or_reject id (validate_wait s scope [job]) else Ok tt);
      Ok (upd_submission submission (λ r, r <| sm_state := SubAccepted |> <| sm_job_id := Some job |>
            <| sm_daemon_generation := Some (dm_generation d) |>) s, inr job)
  end.

Definition resolve_owned_policy (spec : JobSpec) : result string (option ResolvedChildSubmissionPolicy) :=
  match job_child_submission_policy spec with
  | None => Ok None
  | Some p => r ← resolve_policy resolve_policy_fence p; Ok (Some r)
  end.

(** A document that cannot be accepted: the submission is rejected. *)
Definition reject_now {A} (submission : Uuid) (text : string) s : SubmitStore * result StoreError A :=
  (reject_received_with submission REJECTED text s, Err (ERejected text)).

Definition accept_received (submission : Uuid) (spec : JobSpec) (stdin : option (string * N)) scope (wait : bool) input s
    : SubmitStore * result StoreError SubmitResult :=
  match verify_staged_input spec stdin with
  | Err e => reject_now submission (StoreError_text e) s
  | Ok _ =>
  match resolve resolve_fences (job_resources spec) with
  | Err e => reject_now submission (io_text e) s
  | Ok claims =>
  match resolve_owned_policy spec with
  | Err text => reject_now submission text s
  | Ok policy =>
      match accept_job_tx submission spec stdin claims policy scope wait input s with
      | Err (Fail e) => (s, Err e)
      | Err (RejectFor e returned) => (reject_received_for_error submission e s, Err returned)
      | Ok (s', inl job) =>
          (s', r ← receipt s' submission job (si_receipt_now input); Ok {| sr_receipt := r; sr_should_schedule := false |})
      | Ok (s', inr job) =>
          (s', r ← receipt s' submission job (si_receipt_now input); Ok {| sr_receipt := r; sr_should_schedule := true |})
      end
  end end end.

(** ** Batches *)
Record Member := {
  mb_job_id : Uuid;
  mb_claims : ResolvedClaims;
  mb_member : BatchMember;
  mb_stdin : option (string * N);
  mb_policy : option ResolvedChildSubmissionPolicy;
}.

Definition resolve_member (stdins : gmap string (string * N)) input (n : nat) (m : BatchMember) : result StoreError Member :=
  claims ← match resolve resolve_fences (job_resources (member_spec m)) with
    | Ok c => Ok c | Err e => Err (EInvalidSpec (io_text e)) end;
  policy ← match resolve_owned_policy (member_spec m) with
    | Ok p => Ok p | Err text => Err (EInvalidSpec text) end;
  Ok {| mb_job_id := si_job_id input n; mb_claims := claims; mb_member := m; mb_stdin := stdins !! member_name m;
        mb_policy := policy |}.

Definition insert_batch_member (submission batch : Uuid) scope input s
    (x : nat * (Member * option ManagedPolicyAdmissionSnapshot)) : result StoreError SubmitStore :=
  let '(n, (m, admission)) := x in
  let j := new_job (member_spec (mb_member m)) (mb_claims m) (mb_stdin m) (si_accepted_ms input) (next_rowid (sb_native s))
             (Some (member_name (mb_member m), N.of_nat n)) in
  insert_member (mb_job_id m) n j (origin_of submission (Some batch) scope (mb_policy m) admission) input s.

(** [names]: the last member of a name. *)
Definition member_ids (members : list Member) : gmap string Uuid :=
  foldl (λ names m, <[member_name (mb_member m) := mb_job_id m]> names) ∅ members.

Definition insert_dependencies (names : gmap string Uuid) s (m : Member) : result StoreError SubmitStore :=
  result_foldM (λ s dependency,
    predecessor ← ok_or (names !! dep_job dependency)
      (EInvalidState ("retained batch member " +:+ member_name (mb_member m) +:+ " has unknown predecessor " +:+ dep_job dependency));
    insert_dependency predecessor (mb_job_id m) (dep_on dependency) s) s (member_dependencies (mb_member m)).

Definition accept_batch_tx (submission : Uuid) (spec : BatchSpec) (members : list Member) scope (wait : bool) input s
    : result Stop (SubmitStore * (Uuid + Uuid)) :=
  row ← or_fail (ok_or (sb_submissions s !! submission) (ESql "no rows"));
  match sm_state row with
  | SubAccepted => batch ← or_fail (ok_or (sm_batch_id row) (ESql "null")); Ok (s, inl batch)
  | SubRejected => Err (Fail (terminal_error submission))
  | SubReceived =>
      _ ← or_reject (λ e, ERejected (StoreError_text e)) (check_parent s scope);
      admissions ← or_reject id (result_mapM (λ m, evaluate_policy s scope (member_spec m) (Some (member_name m)) input) (batch_jobs spec));
      let batch := si_batch_id input in
      _ ← or_fail (guard_err (bool_decide (is_Some (sb_batches s !! batch))) (ESql "UNIQUE constraint failed: batches.id"));
      let s := s <| sb_batches ::= <[batch := (submission, si_accepted_ms input)]> |> in
      s ← or_fail (result_foldM (insert_batch_member submission batch scope input) s (imap pair (zip members admissions)));
      s ← or_fail (result_foldM (insert_dependencies (member_ids members)) s members);
      _ ← (if wait then or_reject id (validate_wait s scope (map mb_job_id members)) else Ok tt);
      Ok (upd_submission submission (λ r, r <| sm_state := SubAccepted |> <| sm_batch_id := Some batch |>
            <| sm_daemon_generation := Some (dm_generation d) |>) s, inr batch)
  end.

Definition accept_received_batch (submission : Uuid) (spec : BatchSpec) (stdins : gmap string (string * N)) scope
    (wait : bool) input s : SubmitStore * result StoreError BatchSubmitResult :=
  match verify_staged_batch_inputs spec stdins with
  | Err e => (reject_received_with submission REJECTED (StoreError_text e) s, Err e)
  | Ok _ =>
  match result_mapM (λ '(n, m), resolve_member stdins input n m) (imap pair (batch_jobs spec)) with
  | Err e => (reject_received_for_error submission e s, Err (ERejected (StoreError_text e)))
  | Ok members =>
      match accept_batch_tx submission spec members scope wait input s with
      | Err (Fail e) => (s, Err e)
      | Err (RejectFor e returned) => (reject_received_for_error submission e s, Err returned)
      | Ok (s', inl batch) =>
          (s', r ← batch_receipt s' submission batch (si_receipt_now input); Ok {| bs_receipt := r; bs_should_schedule := false |})
      | Ok (s', inr batch) =>
          (s', r ← batch_receipt s' submission batch (si_receipt_now input); Ok {| bs_receipt := r; bs_should_schedule := true |})
      end
  end end.

(** ** Submitting *)
Definition find_submission s (scope_key : string) (key : Uuid) : option (Uuid * Submission) :=
  head (List.filter (λ x : Uuid * Submission, bool_decide (sm_scope x.2 = scope_key)
    && bool_decide (sm_idempotency_key x.2 = key)) (btree_entries (sb_submissions s))).

Definition check_new_submission_during_repair input : result StoreError unit :=
  pending ← si_repair_pending input;
  guard_err pending (OperationRejected "authority_repair_pending"
    "same-store history repair temporarily refuses new submissions; existing receipt recovery and cancellation remain available").

(** The transaction that receives a submission. *)
Definition receive scope (key : Uuid) (hash : string) (document : Document) (wait : bool) input s
    : result StoreError SubmitStore :=
  _ ← check_parent s scope;
  let id := si_submission_id input in
  _ ← guard_err (bool_decide (is_Some (sb_submissions s !! id)) || bool_decide (is_Some (find_submission s (scope_key scope) key)))
        (ESql "UNIQUE constraint failed: submissions");
  Ok (s <| sb_submissions ::= <[id :=
    {| sm_scope := scope_key scope; sm_idempotency_key := key; sm_payload_hash := hash; sm_state := SubReceived;
       sm_document := document; sm_job_id := None; sm_batch_id := None; sm_parent := parent_columns scope;
       sm_wait_intent := wait; sm_reject_code := None; sm_reject_detail := None; sm_daemon_generation := None;
       sm_created_ms := si_received_ms input |}]> |>).

(** [UPDATE submissions SET wait_intent = 1 WHERE id = ?1 AND state = 'received'] *)
Definition set_wait_intent (id : Uuid) : SubmitStore → SubmitStore :=
  upd_submission id (λ r, where_ (bool_decide (sm_state r = SubReceived)) (λ r, r <| sm_wait_intent := true |>) r).

Definition hash_mismatch : StoreError := EInvalidSpec "payload hash does not match the normalized specification".

(** The wait of a received submission, once asked for, stays. *)
Definition keep_wait (id : Uuid) (durable_wait wait : bool) s : SubmitStore * bool :=
  let wait := durable_wait || wait in
  (if wait && negb durable_wait then set_wait_intent id s else s, wait).

Definition submit_with_stdin_scoped_for_wait scope (key : Uuid) (claimed : string) (spec : JobSpec)
    (stdin : option (string * N)) (wait : bool) input s : SubmitStore * result StoreError SubmitResult :=
  or_return s (of_error (JobSpec_validate pf spec)) (λ _,
  or_return s (of_error (validate_job (dm_config d) spec)) (λ _,
  or_return s (validate_input_shape spec stdin) (λ _,
  or_return s (job_hash spec stdin) (λ hash,
  or_return s (guard_err (bool_decide (claimed ≠ hash)) hash_mismatch) (λ _,
  match find_submission s (scope_key scope) key with
  | Some (id, row) =>
      match sm_document row with
      | BatchDocument _ _ => (s, Err (EIdempotencyConflict (sm_payload_hash row) hash))
      | JobDocument stored stored_stdin =>
          if bool_decide (sm_payload_hash row ≠ hash) then (s, Err (EIdempotencyConflict (sm_payload_hash row) hash))
          else match sm_state row with
          | SubAccepted =>
              (s, job ← ok_or (sm_job_id row) (EInvalidState "accepted submission has no job");
                  r ← receipt s id job (si_receipt_now input); Ok {| sr_receipt := r; sr_should_schedule := false |})
          | SubReceived =>
              let '(s, wait) := keep_wait id (sm_wait_intent row) wait s in
              accept_received id stored stored_stdin scope wait input s
          | SubRejected => (s, Err (retained_rejection (sm_reject_code row) (sm_reject_detail row)))
          end
      end
  | None =>
      or_return s (check_new_submission_during_repair input) (λ _,
      or_return s (verify_staged_input spec stdin) (λ _,
      or_return s (receive scope key hash (JobDocument spec stdin) wait input s) (λ s,
      accept_received (si_submission_id input) spec stdin scope wait input s)))
  end))))).

Definition submit_batch_with_stdins_scoped_for_wait scope (key : Uuid) (claimed : string) (spec : BatchSpec)
    (stdins : gmap string (string * N)) (wait : bool) input s : SubmitStore * result StoreError BatchSubmitResult :=
  or_return s (match BatchSpec_validate pf spec with Some r => of_error r | None => Err (EPanic "dependency graph") end) (λ _,
  or_return s (result_foldM (λ _ m, of_error (validate_job (dm_config d) (member_spec m))) tt (batch_jobs spec)) (λ _,
  or_return s (validate_batch_input_shape spec stdins) (λ _,
  or_return s (batch_hash spec stdins) (λ hash,
  or_return s (guard_err (bool_decide (claimed ≠ hash)) hash_mismatch) (λ _,
  match find_submission s (scope_key scope) key with
  | Some (id, row) =>
      match sm_document row with
      | JobDocument _ _ => (s, Err (EIdempotencyConflict (sm_payload_hash row) hash))
      | BatchDocument stored stored_stdins =>
          if bool_decide (sm_payload_hash row ≠ hash) then (s, Err (EIdempotencyConflict (sm_payload_hash row) hash))
          else match sm_state row with
          | SubAccepted =>
              (s, batch ← ok_or (sm_batch_id row) (EInvalidState "accepted batch submission has no batch");
                  r ← batch_receipt s id batch (si_receipt_now input); Ok {| bs_receipt := r; bs_should_schedule := false |})
          | SubReceived =>
              let '(s, wait) := keep_wait id (sm_wait_intent row) wait s in
              accept_received_batch id stored stored_stdins scope wait input s
          | SubRejected => (s, Err (retained_rejection (sm_reject_code row) (sm_reject_detail row)))
          end
      end
  | None =>
      or_return s (check_new_submission_during_repair input) (λ _,
      or_return s (verify_staged_batch_inputs spec stdins) (λ _,
      or_return s (receive scope key hash (BatchDocument spec stdins) wait input s) (λ s,
      accept_received_batch (si_submission_id input) spec stdins scope wait input s)))
  end))))).

(** ** What became of a submission *)
Definition recover_submission_scoped s scope (key : Uuid) (hash : string) (now : Z) : result StoreError RecoveryResult :=
  match find_submission s (scope_key scope) key with
  | None =>
      match scope with
      | Unmanaged => Ok RUnknown
      | Managed _ =>
          match check_parent s scope with
          | Ok _ => Ok RNotReceived
          | Err (ERejected _) => Ok RUnknown
          | Err e => Err e
          end
      end
  | Some (id, row) =>
      if bool_decide (sm_payload_hash row ≠ hash) then Ok (RConflict (sm_payload_hash row) hash)
      else match sm_state row with
      | SubReceived => Ok (RReceived (durable id))
      | SubAccepted =>
          match sm_document row with
          | BatchDocument _ _ =>
              batch ← ok_or (sm_batch_id row) (EInvalidState "accepted batch submission has no batch");
              r ← batch_receipt s id batch now; Ok (RAcceptedBatch r)
          | JobDocument _ _ =>
              job ← ok_or (sm_job_id row) (EInvalidState "accepted submission has no job");
              r ← receipt s id job now; Ok (RAccepted r)
          end
      | SubRejected => Ok (RRejected (default REJECTED (sm_reject_code row))
                            (default "submission was rejected"%string (sm_reject_detail row)))
      end
  end.

(** ** Restart: received submissions are decided *)
Definition tolerated (e : StoreError) : bool :=
  match e with
  | EInvalidSpec _ | ERejected _ | EBlockedByAncestor _ | EManagedWaitRejected _ _ | OperationRejected _ _ => true
  | _ => false
  end.

Definition created_le (x y : Uuid * Submission) : Prop := (sm_created_ms x.2 ≤ sm_created_ms y.2)%Z.
#[local] Instance created_le_dec : RelDecision created_le.
Proof. intros x y. unfold created_le. apply _. Defined.

Definition received_rows s : list (Uuid * Submission) :=
  sort_by created_le (List.filter (λ x : Uuid * Submission, bool_decide (sm_state x.2 = SubReceived))
    (btree_entries (sb_submissions s))).

Definition resume_one (inputs : Uuid → SubmitInput) s (x : Uuid * Submission) : SubmitStore * result StoreError unit :=
  let '(id, row) := x in
  or_return s (managed_parent_from_columns store (sm_parent row)) (λ parent,
  let scope := match parent with None => Unmanaged | Some p => Managed p end in
  let '(s, r) := match sm_document row with
    | BatchDocument spec stdins =>
        let '(s, r) := accept_received_batch id spec stdins scope (sm_wait_intent row) (inputs id) s in
        (s, _ ← r; Ok tt)
    | JobDocument spec stdin =>
        let '(s, r) := accept_received id spec stdin scope (sm_wait_intent row) (inputs id) s in
        (s, _ ← r; Ok tt)
    end in
  match r with
  | Ok _ => (s, Ok tt)
  | Err e => if tolerated e then (s, Ok tt) else (s, Err e)
  end).

Fixpoint resume_rows (inputs : Uuid → SubmitInput) (rows : list (Uuid * Submission)) s : SubmitStore * result StoreError unit :=
  match rows with
  | [] => (s, Ok tt)
  | x :: rows =>
      match resume_one inputs s x with
      | (s, Ok _) => resume_rows inputs rows s
      | (s, Err e) => (s, Err e)
      end
  end.
Definition resume_received (inputs : Uuid → SubmitInput) s : SubmitStore * result StoreError unit :=
  resume_rows inputs (received_rows s) s.
End submissions.
