(* ===== verification/Kept.v ===== *)
(** * Kept: what no transaction on native jobs changes

    Acceptance writes the specification of a job, its claims, input, time, row and
    place in a batch; every later transaction, restart and reconciliation keeps these
    columns, adds and removes no job and no dependency. *)
From S2P Require Import Prelude Spec Validate Kernel Scoped ScopedFacts Observation Machine MachineStore.
From S2P Require Import MachineFacts ExchangeFacts Reservation ReservationFacts MachineOffer OfferFacts.
From S2P Require Import Native ConditionStore ProcessRecords Lifecycle Schedule Release NativeRecovery Life LifeFacts.
From S2P Require Import Refinement NativeHistory.

Definition accepted_columns (j : Job) :=
  (nj_spec j, nj_claims j, nj_stdin_hash j, nj_stdin_len j, nj_accepted_ms j, nj_rowid j, nj_batch_member j, nj_batch_index j).

Record kept (s s' : NativeStore) : Prop := {
  kp_jobs : accepted_columns <$> nv_jobs s' = accepted_columns <$> nv_jobs s;
  kp_dependencies : nv_dependencies s' = nv_dependencies s;
}.

Create HintDb kept.

#[global] Instance kept_preorder : PreOrder kept.
Proof. split; [by split|]. intros s1 s2 s3 [H1 D1] [H2 D2]. split; congruence. Qed.

Lemma kept_refl s : kept s s.
Proof. done. Qed.

Lemma kept_same s s1 s2 : nv_jobs s2 = nv_jobs s1 → nv_dependencies s2 = nv_dependencies s1 → kept s s1 → kept s s2.
Proof. intros Hj Hd [H D]. split; [by rewrite Hj|by rewrite Hd]. Qed.

Lemma kept_upd_job k f s s' : (∀ j, accepted_columns (f j) = accepted_columns j) → kept s s' → kept s (upd_job k f s').
Proof. intros Hf [H D]. split; [simpl; by rewrite fmap_alter_frame|done]. Qed.

Lemma kept_cleanup k s s' : kept s s' → kept s (jobs_reservation_cleanup k s').
Proof. intros H. unfold jobs_reservation_cleanup. repeat case_match; [by apply kept_same with s'|done..]. Qed.

Lemma kept_upd_job_state k guard f s s' : (∀ j, accepted_columns (f j) = accepted_columns j) → kept s s' →
  kept s (upd_job_state k guard f s').
Proof.
  intros Hf H. unfold upd_job_state. repeat case_match; [|done..]. by apply kept_cleanup, kept_upd_job.
Qed.

Lemma kept_write_back v s s' : kept s s' → kept s (write_back v s').
Proof.
  intros [H D]. split; [|done]. rewrite <-H. simpl. apply map_eq. intros k.
  rewrite !lookup_fmap, map_lookup_imap. destruct (nv_jobs s' !! k) as [j|]; [|done]. simpl. by destruct (so_jobs v !! k).
Qed.

(** Rows of jobs: the columns are the same whatever the update chose. *)
Ltac same_columns := intros []; unfold where_; simpl; first [reflexivity | repeat (case_match; simpl); reflexivity].

#[export] Hint Resolve kept_refl kept_write_back kept_cleanup : kept.
#[export] Hint Extern 1 (kept _ ?t) => lazymatch t with if ?b then _ else _ => destruct b end : kept.
#[export] Hint Extern 2 (kept _ (upd_job _ _ _)) => apply kept_upd_job; [same_columns|] : kept.
#[export] Hint Extern 2 (kept _ (upd_job_state _ _ _ _)) => apply kept_upd_job_state; [same_columns|] : kept.

(** Statements on other tables. *)
Ltac other_table :=
  lazymatch goal with
  | |- kept _ (?f _ _ ?s) => apply kept_same with s; [done|done|]
  | |- kept _ (?f _ ?s) => apply kept_same with s; [done|done|]
  end.
#[export] Hint Extern 1 (kept _ (upd_attempt _ _ _)) => other_table : kept.
#[export] Hint Extern 1 (kept _ (upd_invocation _ _ _)) => other_table : kept.
#[export] Hint Extern 1 (kept _ (upd_containment _ _ _)) => other_table : kept.
#[export] Hint Extern 1 (kept _ (upd_condition _ _ _)) => other_table : kept.
#[export] Hint Extern 1 (kept _ (upd_conditions_of _ _ _)) => other_table : kept.
#[export] Hint Extern 1 (kept _ (upd_admission _ _ _)) => other_table : kept.
#[export] Hint Extern 1 (kept _ (fail_conditions _ _)) => other_table : kept.
#[export] Hint Extern 1 (kept _ (release_probe_lease _ _)) => other_table : kept.
#[export] Hint Extern 1 (kept _ (release_leases _ _)) => other_table : kept.
#[export] Hint Extern 1 (kept _ (fst (release_reservation _ ?s))) => apply kept_same with s; [done|done|] : kept.
#[export] Hint Extern 1 (kept _ (upd _ _ ?s)) => apply kept_same with s; [done|done|] : kept.

#[export] Hint Extern 1 (kept _ (Build_NativeStore (nv_jobs ?s) _ _ _ _ _ _ _ _ _ _)) => apply kept_same with s; [done|done|] : kept.

(** The branches of a transaction that succeeded. *)
Ltac outcomes := repeat first [progress result_inv | progress simplify_eq | case_match].
Ltac keeps := solve [eauto 20 with kept].

(** ** Statements *)
Lemma kept_insert_attempt k r s s1 s2 : insert_attempt k r s1 = Ok s2 → kept s s1 → kept s s2.
Proof. unfold insert_attempt. intros H ?. result_inv. by apply kept_same with s1. Qed.
Lemma kept_insert_invocation k r s s1 s2 : insert_invocation k r s1 = Ok s2 → kept s s1 → kept s s2.
Proof. unfold insert_invocation. intros H ?. result_inv. by apply kept_same with s1. Qed.
Lemma kept_insert_containment k r s s1 s2 : insert_containment k r s1 = Ok s2 → kept s s1 → kept s s2.
Proof. unfold insert_containment. intros H ?. result_inv. by apply kept_same with s1. Qed.
Lemma kept_insert_lease k r s s1 s2 : insert_lease k r s1 = Ok s2 → kept s s1 → kept s s2.
Proof. unfold insert_lease. intros H ?. result_inv. by apply kept_same with s1. Qed.
Lemma kept_insert_observation o s s1 s2 : insert_observation o s1 = Ok s2 → kept s s1 → kept s s2.
Proof. unfold insert_observation. intros H ?. result_inv. by apply kept_same with s1. Qed.
#[export] Hint Resolve kept_insert_attempt kept_insert_invocation kept_insert_containment kept_insert_lease kept_insert_observation : kept.

Lemma kept_foldM {A} (f : NativeStore → A → result StoreError NativeStore) s l :
  (∀ s1 x s2, f s1 x = Ok s2 → kept s1 s2) → ∀ s1 s2, result_foldM f s1 l = Ok s2 → kept s s1 → kept s s2.
Proof.
  intros Hf. induction l as [|x l IH]; intros s1 s2 H Hk; simpl in H; result_inv; [done|].
  eapply IH; [done|]. etrans; [done|by eapply Hf].
Qed.
Lemma kept_foldM_pair {A B} (f : NativeStore * B → A → result StoreError (NativeStore * B)) s l :
  (∀ st x st', f st x = Ok st' → kept st.1 st'.1) → ∀ s1 b s2 b', result_foldM f (s1, b) l = Ok (s2, b') → kept s s1 → kept s s2.
Proof.
  intros Hf. induction l as [|x l IH]; intros s1 b s2 b' H Hk; simpl in H; result_inv; [done|].
  destruct a as [s3 b3]. eapply IH; [done|]. etrans; [done|by apply (Hf _ _ _ Hstep)].
Qed.
Lemma kept_foldl {A} (f : NativeStore → A → NativeStore) s l :
  (∀ s1 x, kept s1 (f s1 x)) → ∀ s1, kept s s1 → kept s (foldl f s1 l).
Proof. intros Hf. induction l as [|x l IH]; intros s1 Hk; [done|]. apply IH. by etrans. Qed.

(** ** Conditions *)
Lemma kept_finalize s s1 job o r now : kept s s1 → kept s (finalize_pending_condition_terminal_tx s1 job o r now).
Proof.
  intros H. unfold finalize_pending_condition_terminal_tx. apply kept_upd_job_state; [same_columns|]. repeat case_match; keeps.
Qed.
#[export] Hint Resolve kept_finalize : kept.

Lemma kept_finalize_if_ready s s1 job now s2 b :
  finalize_pending_condition_terminal_if_ready_tx s1 job now = Ok (s2, b) → kept s s1 → kept s s2.
Proof. unfold finalize_pending_condition_terminal_if_ready_tx. intros H ?. outcomes; keeps. Qed.
#[export] Hint Resolve kept_finalize_if_ready : kept.

Lemma kept_expire s s1 job now s2 o : expire_condition_deadline_tx s1 job now = Ok (s2, o) → kept s s1 → kept s s2.
Proof. unfold expire_condition_deadline_tx. intros H ?. outcomes; keeps. Qed.
#[export] Hint Resolve kept_expire : kept.

Lemma kept_expire_due s s1 now s2 b : expire_due_condition_deadlines_tx s1 now = Ok (s2, b) → kept s s1 → kept s s2.
Proof.
  unfold expire_due_condition_deadlines_tx. intros H ?. result_inv. eapply kept_foldM; [|done|done].
  intros s3 job s4 H3. cbv beta in H3. outcomes; keeps.
Qed.
Lemma kept_finalize_recovered s s1 now s2 b :
  finalize_recovered_condition_terminals_tx s1 now = Ok (s2, b) → kept s s1 → kept s s2.
Proof.
  unfold finalize_recovered_condition_terminals_tx. intros H ?. eapply kept_foldM_pair; [|done|done].
  intros [s3 b3] job [s4 b4] H3. cbv beta iota in H3. outcomes; keeps.
Qed.
Lemma kept_evaluate s s1 g b c n sp o m f e i s2 st :
  evaluate_one_tx s1 g b c n sp o m f e i = Ok (s2, st) → kept s s1 → kept s s2.
Proof. unfold evaluate_one_tx. intros H ?. result_inv. destruct a as [[[v st'] ar] src]. result_inv. keeps. Qed.
#[export] Hint Resolve kept_expire_due kept_finalize_recovered kept_evaluate : kept.

Lemma kept_refresh cj s s1 job ctx oid s2 r : refresh_conditions_tx cj s1 job ctx oid = Ok (s2, r) → kept s s1 → kept s s2.
Proof.
  unfold refresh_conditions_tx. intros H ?. result_inv. destruct a as [s3 [o|]]; result_inv; [keeps|].
  destruct a as [s4 b]. result_inv. eapply kept_foldM_pair; [|done|keeps].
  intros [s5 b5] [[key c] last] [s6 b6] H5. unfold refresh_one_tx in H5. outcomes; keeps.
Qed.
Lemma kept_reset s s1 job t : kept s s1 → kept s (reset_conditions_for_retry_tx s1 job t).
Proof. intros. unfold reset_conditions_for_retry_tx. apply kept_foldl; [|done]. intros s2 row. cbv zeta. keeps. Qed.
Lemma kept_insert_conditions s s1 job l cid oid a e s2 :
  insert_conditions_tx s1 job l cid oid a e = Ok s2 → kept s s1 → kept s s2.
Proof.
  unfold insert_conditions_tx. intros H ?. eapply kept_foldM; [|done|done]. intros s3 [[index id] spec] s4 H3.
  unfold insert_condition_tx in H3. result_inv. outcomes; keeps.
Qed.
#[export] Hint Resolve kept_refresh kept_reset kept_insert_conditions : kept.

(** ** History of probes *)
Lemma kept_prune retained s s1 : kept s s1 → kept s (prune_condition_history retained s1).
Proof.
  intros H. unfold prune_condition_history. apply kept_foldl; [|done]. intros s2 c. unfold prune_resolved_probe_history_tx.
  apply kept_foldl; [|done]. intros s3 k. by apply kept_same with s3.
Qed.
#[export] Hint Resolve kept_prune : kept.

(** ** Runners *)
Lemma kept_release_if_safe s s1 a : kept s s1 → kept s (release_attempt_lease_if_safe s1 a).1.
Proof. intros. unfold release_attempt_lease_if_safe. case_match; cbn [fst]; keeps. Qed.
Lemma kept_release_never_run s s1 a s2 b : release_never_run_attempt_lease_if_safe s1 a = (s2, b) → kept s s1 → kept s s2.
Proof. intros H ?. unfold release_never_run_attempt_lease_if_safe in H. case_match; simplify_eq; keeps. Qed.
Lemma kept_record_identity s s1 i ident pid s2 : record_identity i ident pid s1 = Ok s2 → kept s s1 → kept s s2.
Proof. unfold record_identity. intros H ?. outcomes; keeps. Qed.
#[export] Hint Resolve kept_release_if_safe kept_release_never_run kept_record_identity : kept.

Lemma kept_mark_started s s1 d job pid hash ident perm now s2 :
  mark_started_with_ticket d s1 job pid hash ident perm now = Ok s2 → kept s s1 → kept s s2.
Proof. unfold mark_started_with_ticket. intros H ?. outcomes; keeps. Qed.
Lemma kept_mark_root_exited s s1 job code now s2 : mark_root_exited s1 job code now = Ok s2 → kept s s1 → kept s s2.
Proof. unfold mark_root_exited. intros H ?. outcomes; keeps. Qed.
Lemma kept_mark_resolved s s1 job code c now : kept s s1 → kept s (mark_invocation_resolved s1 job code c now).
Proof. intros. unfold mark_invocation_resolved. keeps. Qed.
Lemma kept_primary_result s s1 job v t s2 r : record_primary_result s1 job v t = Ok (s2, r) → kept s s1 → kept s s2.
Proof. unfold record_primary_result. intros H ?. outcomes; keeps. Qed.
Lemma kept_settle_never_started s s1 job deadline now : kept s s1 → kept s (settle_never_started s1 job deadline now).
Proof. intros. unfold settle_never_started. case_match. apply kept_upd_job_state; [same_columns|]. keeps. Qed.
Lemma kept_forget_start s s1 job : kept s s1 → kept s (forget_start s1 job).
Proof. intros. unfold forget_start. keeps. Qed.
Lemma kept_requeue s s1 job t : kept s s1 → kept s (requeue_job job t s1).
Proof. intros. unfold requeue_job. keeps. Qed.
#[export] Hint Resolve kept_mark_started kept_mark_root_exited kept_mark_resolved kept_primary_result : kept.
#[export] Hint Resolve kept_settle_never_started kept_forget_start kept_requeue : kept.

Lemma kept_settle_attempt s s1 job v now retry_now s2 b :
  settle_attempt s1 job v now retry_now = Ok (s2, b) → kept s s1 → kept s s2.
Proof. unfold settle_attempt. intros H ?. outcomes; keeps. Qed.
Lemma kept_stop_requested s s1 job now s2 b : invocation_stop_requested s1 job now = Ok (s2, b) → kept s s1 → kept s s2.
Proof. unfold invocation_stop_requested. intros H ?. outcomes; keeps. Qed.
Lemma kept_cancel_jobs s s1 jobs clock s2 : cancel_jobs s1 jobs clock = Ok s2 → kept s s1 → kept s s2.
Proof.
  unfold cancel_jobs. intros H ?. result_inv. eapply kept_foldM; [|done|done]. intros s3 [job now] s4 H3.
  unfold cancel_one in H3. outcomes; keeps.
Qed.
Lemma kept_mark_finished s s1 job code o v now s2 : mark_finished s1 job code o v now = Ok s2 → kept s s1 → kept s s2.
Proof. unfold mark_finished. intros H ?. result_inv. case_match. result_inv. keeps. Qed.
Lemma kept_open_incident s s1 c n r d o k : kept s s1 → kept s (open_incident c n r d o k s1).
Proof. intros. unfold open_incident. keeps. Qed.
#[export] Hint Resolve kept_open_incident : kept.
Lemma kept_uncertain s s1 job code v r o p now opened resolved s2 :
  mark_uncertain_settlement s1 job code v r o p now opened resolved = Ok s2 → kept s s1 → kept s s2.
Proof. unfold mark_uncertain_settlement. intros H ?. result_inv. do 2 case_match. result_inv. keeps. Qed.
Lemma kept_settle_probe s s1 d job code t now mono oid retained failed s2 :
  settle_probe d s1 job code t now mono oid retained failed = Ok s2 → kept s s1 → kept s s2.
Proof. unfold settle_probe, settle_probe_tx. intros H ?. outcomes; keeps. Qed.
Lemma kept_probe_uncertain s s1 job code resolved opened now s2 :
  mark_probe_uncertain s1 job code resolved opened now = Ok s2 → kept s s1 → kept s s2.
Proof. unfold mark_probe_uncertain. intros H ?. outcomes; keeps. Qed.

(** ** Releases *)
Lemma kept_suspended s s1 d job pid hash ident perm s2 :
  record_suspended_root d s1 job pid hash ident perm = Ok s2 → kept s s1 → kept s s2.
Proof. unfold record_suspended_root. intros H ?. outcomes; keeps. Qed.
Lemma kept_mark_released s s1 job started deadline : kept s s1 → kept s (mark_released job started deadline s1).
Proof. intros. unfold mark_released. keeps. Qed.
Lemma kept_set_defer s s1 job r : kept s s1 → kept s (set_defer_reason job r s1).
Proof. intros. unfold set_defer_reason. repeat case_match; keeps. Qed.
#[export] Hint Resolve kept_mark_released kept_set_defer : kept.
Lemma kept_authorize uts cj bj s s1 d job obs input s2 r :
  authorize_release uts cj bj d s1 job obs input = Ok (Commit s2 r) → kept s s1 → kept s s2.
Proof. unfold authorize_release. intros H ?. outcomes; keeps. Qed.
Lemma kept_authorize_condition uts cj bj s s1 d job obs input s2 r :
  authorize_condition_release uts cj bj d s1 job obs input = Ok (Commit s2 r) → kept s s1 → kept s s2.
Proof. unfold authorize_condition_release. intros H ?. outcomes; keeps. Qed.
Lemma kept_defer s s1 job now s2 r : pre_resume_defer_reason s1 job now = Ok (s2, r) → kept s s1 → kept s s2.
Proof. unfold pre_resume_defer_reason. intros H ?. outcomes; keeps. Qed.
Lemma kept_finalize_job s s1 job f o now : (∀ j, accepted_columns (f j) = accepted_columns j) → kept s s1 →
  kept s (finalize_job job f o now s1).
Proof. intros Hf H. unfold finalize_job. apply kept_upd_job_state; [|done]. intros j. rewrite <-(Hf j). by destruct (f j). Qed.
Lemma kept_settle_replanned s s1 job v r now : kept s s1 → kept s (settle_replanned job v r now s1).
Proof. intros. unfold settle_replanned. keeps. Qed.
#[export] Hint Resolve kept_settle_replanned : kept.
#[export] Hint Extern 2 (kept _ (finalize_job _ _ _ _ _)) => apply kept_finalize_job; [same_columns|] : kept.
Lemma kept_replan_exhausted s s1 job spec i n r now : kept s s1 → kept s (replan_exhausted s1 job spec i n r now).
Proof. intros. unfold replan_exhausted. case_match; keeps. Qed.
Lemma kept_replan_later s s1 d job n r now : kept s s1 → kept s (replan_later d s1 job n r now).
Proof. intros. unfold replan_later. keeps. Qed.
#[export] Hint Resolve kept_replan_exhausted kept_replan_later : kept.
Lemma kept_replan s s1 d job r now s2 : replan_never_run d s1 job r now = Ok s2 → kept s s1 → kept s s2.
Proof.
  unfold replan_never_run. intros H ?. result_inv. destruct a as [[j a] i]. result_inv.
  destruct (release_never_run_attempt_lease_if_safe _ _) as [s3 released] eqn:Hr. result_inv.
  apply kept_release_never_run with (s := s) in Hr; [|keeps]. destruct (replan_terminal _ _) as [[v o]|]; [keeps|].
  destruct (nj_cancel_requested j); [keeps|]. destruct (_ || _); keeps.
Qed.
