(* ===== verification/KeptFacts.v ===== *)
(** * KeptFacts: the scheduler, recovery and reconciliation keep what acceptance wrote *)
From S2P Require Import Prelude Spec Validate Kernel Scoped ScopedFacts Observation Machine MachineStore.
From S2P Require Import MachineFacts ExchangeFacts Reservation ReservationFacts MachineOffer OfferFacts.
From S2P Require Import Native ConditionStore ProcessRecords Lifecycle Schedule Release NativeRecovery Life LifeFacts.
From S2P Require Import Refinement NativeHistory Kept.

(** ** The scheduler *)
Lemma kept_prepared s s1 d a i c r p k s2 : insert_prepared d a i c r p k s1 = Ok s2 → kept s s1 → kept s s2.
Proof. unfold insert_prepared. intros H ?. result_inv. keeps. Qed.
Lemma kept_planned s s1 a job now s2 : insert_planned_attempt a job now s1 = Ok s2 → kept s s1 → kept s s2.
Proof. unfold insert_planned_attempt. intros H ?. keeps. Qed.
Lemma kept_set_job_attempt s s1 job a : kept s s1 → kept s (set_job_attempt job a s1).
Proof. intros. unfold set_job_attempt. keeps. Qed.
Lemma kept_planned_attempt s s1 job a now s2 b : planned_attempt s1 job a now = Ok (s2, b) → kept s s1 → kept s s2.
Proof. unfold planned_attempt. intros H ?. outcomes; keeps. Qed.
#[export] Hint Resolve kept_prepared kept_planned kept_set_job_attempt kept_planned_attempt : kept.
#[export] Hint Extern 2 (kept _ (set_job_attempt _ _ _)) => apply kept_set_job_attempt : kept.

Lemma kept_due_probe uts rf s s1 d job spec obs ids now s2 p :
  prepare_due_probe uts rf d s1 job spec obs ids now = Ok (s2, p) → kept s s1 → kept s s2.
Proof.
  unfold prepare_due_probe. intros H Hk. case_match; [by simplify_eq|]. case_match; [|by simplify_eq].
  do 2 case_match; try done. result_inv. branch H; [by simplify_eq|]. result_inv. destruct a2. result_inv. keeps.
Qed.
Lemma kept_primary s s1 d a ids claims s2 : insert_primary d a ids claims s1 = Ok s2 → kept s s1 → kept s s2.
Proof. unfold insert_primary. intros H ?. result_inv. keeps. Qed.
Lemma kept_ensure_admitting s s1 a now limit : kept s s1 → kept s (ensure_admitting_row a now limit s1).
Proof. intros. unfold ensure_admitting_row. case_match; keeps. Qed.
Lemma kept_disposition s s1 d job input claims active s2 disp :
  native_disposition d s1 job input claims active = Ok (s2, disp) → kept s s1 → kept s s2.
Proof. unfold native_disposition. intros H ?. result_inv. case_match. result_inv. keeps. Qed.
Lemma kept_settle_admission s s1 spec job a r now s2 : settle_admission s1 spec job a r now = Ok s2 → kept s s1 → kept s s2.
Proof. unfold settle_admission. intros H ?. outcomes; keeps. Qed.
Lemma kept_activate k guard a ids s s1 : kept s s1 → kept s (upd_job_state k guard (activate a ids) s1).
Proof. intros. apply kept_upd_job_state; [same_columns|done]. Qed.
Lemma kept_yield s s1 job s2 r : yield_reservation s1 job = Commit s2 r → kept s s1 → kept s s2.
Proof. unfold yield_reservation, release_reservation. intros H ?. outcomes; keeps. Qed.
#[export] Hint Resolve kept_due_probe kept_primary kept_ensure_admitting kept_disposition kept_settle_admission kept_activate kept_yield : kept.

Lemma kept_prepare_tx cj s s1 d job input s2 r : prepare_tx cj d s1 job input = Ok (Commit s2 r) → kept s s1 → kept s s2.
Proof.
  unfold prepare_tx. intros H ?. destruct (ready_row _ _ _) as [j|]; [|done]. result_inv. destruct a as [s3 e]. result_inv.
  branch H; [result_inv; simplify_eq; keeps|]. destruct (dependency_blockers_tx _ _) as [b impossible].
  branch H; [result_inv; simplify_eq; keeps|]. branch H; [result_inv; keeps|]. result_inv. destruct a as [s4 refresh].
  branch H; [result_inv; simplify_eq; keeps|]. branch H.
  { unfold release_reservation in H. outcomes; keeps. }
  branch H; [result_inv; keeps|]. result_inv. destruct a as [s5 final].
  branch H; [result_inv; simplify_eq; keeps|]. result_inv. destruct a as [s6 disp].
  destruct disp; result_inv; simplify_eq; try keeps.
  match goal with p : NativeStore * Uuid |- _ => destruct p as [s7 at_] end. result_inv. simplify_eq.
  assert (kept s s7); [|keeps]. destruct (nj_attempt_id j); result_inv; keeps.
Qed.
#[export] Hint Resolve kept_prepare_tx : kept.

Lemma kept_start_observed uts s s1 d job input j a context s2 r :
  start_observed uts d s1 job input j a context = Ok (Commit s2 r) → kept s s1 → kept s s2.
Proof. unfold start_observed. intros H ?. result_inv. simplify_eq. keeps. Qed.
#[export] Hint Resolve kept_start_observed : kept.
Lemma kept_reserve_observed uts cj s s1 d job input j a active context s2 r :
  reserve_observed uts cj d s1 job input j a active context = Ok (Commit s2 r) → kept s s1 → kept s s2.
Proof.
  unfold reserve_observed. intros H ?. result_inv. destruct a0 as [s3 final].
  branch H; [result_inv; simplify_eq; unfold pause_quiet_progress; keeps|]. result_inv. destruct a0 as [s4 disp].
  destruct disp; result_inv; simplify_eq; keeps.
Qed.
Lemma kept_advance_quiet uts s s1 d a q m context s2 c b :
  advance_quiet uts d s1 a q m context = Some (s2, c, b) → kept s s1 → kept s s2.
Proof. unfold advance_quiet, update_admission_progress. intros H ?. branch H; simplify_eq; keeps. Qed.
#[export] Hint Resolve kept_reserve_observed kept_advance_quiet : kept.
Lemma kept_observe_admission uts cj s s1 d job input j a active s2 r :
  observe_admission uts cj d s1 job input j a active = Ok (Commit s2 r) → kept s s1 → kept s s2.
Proof.
  unfold observe_admission, record_admission_blockers, record_admission_context, pause_quiet_progress. intros H ?.
  outcomes; keeps.
Qed.
#[export] Hint Resolve kept_observe_admission : kept.
Lemma kept_observed_tx uts cj s s1 d job input s2 r :
  observed_tx uts cj d s1 job input = Ok (Commit s2 r) → kept s s1 → kept s s2.
Proof.
  unfold observed_tx, record_admission_blockers, pause_quiet_progress, release_reservation. intros H ?.
  outcomes; keeps.
Qed.
#[export] Hint Resolve kept_observed_tx : kept.

Lemma kept_expire_job s s1 job now s2 b : expire_job_condition_deadline s1 job now = Ok (s2, b) → kept s s1 → kept s s2.
Proof. unfold expire_job_condition_deadline. intros H ?. outcomes; keeps. Qed.

Lemma kept_finish_prepare uts rf s s1 d job input obs r s2 p :
  finish_prepare uts rf d job input obs (s1, r) = (s2, p) → kept s s1 → kept s s2.
Proof.
  unfold finish_prepare. intros H ?. destruct r as [[q|spec]|e]; [by simplify_eq| |by simplify_eq].
  destruct (_ ≫= _) as [[s3 [probe|]]|] eqn:E; simplify_eq; try done; result_inv; keeps.
Qed.

Lemma kept_run_tx {A} s s1 (r : result StoreError (Tx A)) s2 a : run_tx s1 r = (s2, a) →
  (∀ s2 a, r = Ok (Commit s2 a) → kept s s2) → kept s s1 → kept s s2.
Proof. intros H Hc Hk. destruct r as [[s3 b|b]|e]; simpl in H; simplify_eq; [by eapply Hc|done|done]. Qed.

Lemma kept_prepare_job uts cj rf s s1 d job input s2 p :
  prepare_job_inner uts cj rf d s1 job input = (s2, p) → kept s s1 → kept s s2.
Proof.
  unfold prepare_job_inner, advance_observed_admission. intros H Hk.
  destruct (expire_job_condition_deadline _ _ _) as [[s3 changed]|] eqn:He; [|by simplify_eq].
  apply kept_expire_job with (s := s) in He; [|done]. destruct changed; [by simplify_eq|].
  branch H; [by simplify_eq|]. destruct (ready_row _ _ _) as [j|]; [|by simplify_eq].
  branch H; [destruct (ready_row _ _ _); [|by simplify_eq]|].
  all: destruct (run_tx _ _) as [s4 r] eqn:Hr; eapply kept_finish_prepare; [done|].
  all: eapply kept_run_tx; [exact Hr|intros; keeps|done].
Qed.

Lemma kept_postcondition s s1 d primary index i c s2 post :
  prepare_postcondition d s1 primary index i c = Ok (s2, post) → kept s s1 → kept s s2.
Proof. unfold prepare_postcondition. intros H ?. result_inv. keeps. Qed.

(** ** Restart and reconciliation *)
Lemma kept_interrupt_one now st row st' : interrupt_one now st row = Ok st' → kept st.1 st'.1.
Proof. destruct st as [s n], row as [[[k c] i] j]. unfold interrupt_one. intros H. outcomes; cbn [fst]; keeps. Qed.
Lemma kept_finish_pre_resume now s row s2 : finish_pre_resume now s row = Ok s2 → kept s s2.
Proof. destruct row as [[[[job at_] inv] r] st]. unfold finish_pre_resume. intros H. outcomes; keeps. Qed.
Lemma kept_repair s s1 d now mono oid s2 b : repair_resolved_empty_probes_tx d s1 now mono oid = Ok (s2, b) → kept s s1 → kept s s2.
Proof.
  unfold repair_resolved_empty_probes_tx. intros H ?. result_inv. eapply kept_foldM; [|done|done].
  intros s3 [[[[k c] i] inv] j] s4 H3. unfold repair_one_tx in H3. outcomes; keeps.
Qed.
Lemma kept_finish_active s s1 now : kept s s1 → kept s (finish_active_jobs now s1).
Proof. intros. unfold finish_active_jobs. apply kept_foldl; [|done]. intros s2 job. keeps. Qed.
#[export] Hint Resolve kept_repair kept_finish_active : kept.

Lemma kept_recover s s1 d now mono oid retained s2 :
  recover_interrupted d s1 now mono oid retained = Ok s2 → kept s s1 → kept s s2.
Proof.
  unfold recover_interrupted. intros H ?. result_inv. destruct a as [s3 n]. result_inv. destruct a0 as [s5 b5].
  result_inv. destruct a0 as [s6 b6]. result_inv. destruct a0 as [s7 b7]. result_inv. simplify_eq.
  apply kept_prune. eapply kept_finalize_recovered; [done|]. eapply kept_expire_due; [done|].
  eapply kept_repair; [done|]. apply kept_same with (finish_active_jobs now (settle_all ARunning VInterrupted now (settle_all AStarting VStartFailed now a))); [done|done|].
  apply kept_finish_active. apply kept_same with a; [done|done|].
  eapply kept_foldM; [|done|]; [intros; by eapply kept_finish_pre_resume|].
  eapply kept_foldM_pair; [|done|]; [intros; by eapply kept_interrupt_one|]. by apply kept_same with s1.
Qed.
Lemma kept_resolution s s1 d candidate expected resolved now s2 r :
  commit_containment_resolution d s1 candidate expected resolved now = Ok (s2, r) → kept s s1 → kept s s2.
Proof. unfold commit_containment_resolution. intros H ?. outcomes; keeps. Qed.

(** ** Every transaction but acceptance *)
Section history.
Context (caps : ResourceCapacities) (rules : gmap string (list string)).
Context (uuid_to_string : Uuid → string) (condition_json : ConditionSpec → string)
  (blockers_json : list Blocker → string) (resolve_fences : list string → result StoreError (gset string)).
Local Notation native_step := (native_step caps rules uuid_to_string condition_json blockers_json resolve_fences).

Lemma kept_log s s1 job stdout offset : kept s s1 → kept s (commit_log_offset s1 job stdout offset).
Proof. intros. unfold commit_log_offset. apply kept_upd_job; [|done]. intros []. by destruct stdout. Qed.

Lemma accept_adds_job s s' job j conditions cid oid a e :
  insert_conditions_tx (s <| nv_jobs ::= <[job := j]> |>) job conditions cid oid a e = Ok s' → is_Some (nv_jobs s' !! job).
Proof.
  intros H. apply kept_insert_conditions with (s := s <| nv_jobs ::= <[job := j]> |>) in H as [H _]; [|done].
  apply (f_equal (lookup job)) in H. rewrite !lookup_fmap in H. simpl in H. rewrite lookup_insert_eq in H.
  by destruct (nv_jobs s' !! job).
Qed.

Lemma native_step_kept s s' : native_step s s' → (∀ k, is_Some (nv_jobs s' !! k) → is_Some (nv_jobs s !! k)) → kept s s'.
Proof.
  intros Hstep Hnew. destruct Hstep.
  - apply accept_adds_job, Hnew in H1 as [? ?]. congruence.
  - by eapply kept_prepare_job.
  - unfold expire_due_condition_deadlines in H. outcomes; keeps.
  - by eapply kept_suspended.
  - by eapply kept_authorize.
  - by eapply kept_authorize_condition.
  - by eapply kept_defer.
  - by eapply kept_mark_started.
  - by apply kept_log.
  - by eapply kept_stop_requested.
  - by eapply kept_mark_root_exited.
  - by apply kept_mark_resolved.
  - by eapply kept_primary_result.
  - by eapply kept_postcondition.
  - by eapply kept_settle_attempt.
  - by eapply kept_mark_finished.
  - by eapply kept_uncertain.
  - by eapply kept_uncertain.
  - by eapply kept_settle_probe.
  - by eapply kept_probe_uncertain.
  - by eapply kept_replan.
  - by eapply kept_cancel_jobs.
  - by eapply kept_resolution.
  - by eapply kept_recover.
  - by apply kept_prune.
Qed.
End history.
