(* ===== verification/SubmissionFacts.v ===== *)
(** * SubmissionFacts: a submission is decided once

    What submitting, resuming and rejecting do to the tables is a sequence of
    [decision]s: a submission is received, asked to be waited for, rejected, or accepted
    with one new job per member of its document.  Rows of decided submissions and the
    columns that acceptance wrote last. *)
From S2P Require Import Prelude Spec Validate Batch Kernel Scoped Observation Machine MachineStore Reservation Columns.
From S2P Require Import Native ConditionStore ProcessRecords Lifecycle Schedule Release NativeRecovery Life LifeFacts.
From S2P Require Import Refinement NativeHistory Kept KeptFacts Policy PolicyFacts ManagedWait ManagedWaitFacts Submission.

(** The members of a document: the name within the batch, and the specification. *)
Definition members_of (document : Document) : list (option string * JobSpec) :=
  match document with
  | JobDocument spec _ => [(None, spec)]
  | BatchDocument spec _ => map (λ m, (Some (member_name m), member_spec m)) (batch_jobs spec)
  end.

(** A job that acceptance enters: its key, row and origin. *)
Definition Entry : Type := Uuid * Job * JobOrigin.

Lemma Forall2_partner {A B} (P : A → B → Prop) l k x : Forall2 P l k → x ∈ l → ∃ y, y ∈ k ∧ P x y.
Proof.
  intros H [i Hi]%list_elem_of_lookup. destruct (Forall2_lookup_l _ _ _ _ _ H Hi) as (y & Hy & HP).
  exists y. split; [by eapply list_elem_of_lookup_2|done].
Qed.
Lemma Forall2_impl_in {A B} (P Q : A → B → Prop) l k : Forall2 P l k → (∀ x y, x ∈ l → P x y → Q x y) → Forall2 Q l k.
Proof.
  induction 1 as [|x y l k HP H IH]; intros HQ; constructor; [apply HQ; [by left|done]|].
  apply IH. intros; apply HQ; [by right|done].
Qed.

Section submissions.
Context (caps : ResourceCapacities) (rules : gmap string (list string)).
Context (pf : Platform) (uuid_to_string : Uuid → string).
Context (fences_allow : list ResolvedPolicyFence → string → result string bool).
Context (store : Uuid).
Implicit Types (s : SubmitStore) (scope : SubmissionScope) (n : NativeStore).

Local Notation scope_key := (scope_key uuid_to_string).
Local Notation evaluate := (evaluate_managed_policy pf uuid_to_string fences_allow store).

(** ** Entering jobs *)
Definition columns_kept n n' : Prop := accepted_columns <$> nv_jobs n' = accepted_columns <$> nv_jobs n.

(** Tables of submissions are left alone. *)
Definition rows_kept s s' : Prop := sb_submissions s' = sb_submissions s.

Record enters s (e : Entry) s' : Prop := {
  en_fresh : nv_jobs (sb_native s) !! e.1.1 = None;
  en_jobs : columns_kept ((sb_native s) <| nv_jobs ::= <[e.1.1 := e.1.2]> |>) (sb_native s');
  en_origins : sb_origins s' = <[e.1.1 := e.2]> (sb_origins s);
  en_rows : rows_kept s s';
  en_sim : sim caps rules (sb_native s) (sb_native s');
}.

Inductive entered : SubmitStore → list Entry → SubmitStore → Prop :=
| entered_nil s s' : columns_kept (sb_native s) (sb_native s') → sb_origins s' = sb_origins s → rows_kept s s' →
    sim caps rules (sb_native s) (sb_native s') → entered s [] s'
| entered_cons s e s1 l s2 : enters s e s1 → entered s1 l s2 → entered s (e :: l) s2.

Lemma columns_lookup n n' k : columns_kept n n' → accepted_columns <$> nv_jobs n' !! k = accepted_columns <$> nv_jobs n !! k.
Proof. intros H. rewrite <-!lookup_fmap. by rewrite H. Qed.

Lemma columns_some n n' k j : columns_kept n n' → nv_jobs n !! k = Some j →
  ∃ j', nv_jobs n' !! k = Some j' ∧ accepted_columns j' = accepted_columns j.
Proof.
  intros H Hk. apply (columns_lookup _ _ k) in H. rewrite Hk in H. destruct (nv_jobs n' !! k) as [j'|]; [|done].
  exists j'. split; [done|]. by apply (inj Some) in H.
Qed.
Lemma columns_none n n' k : columns_kept n n' → nv_jobs n' !! k = None ↔ nv_jobs n !! k = None.
Proof. intros H%(columns_lookup _ _ k). by destruct (nv_jobs n' !! k), (nv_jobs n !! k). Qed.

(** What entering a list of jobs amounts to. *)
Record entered_all s (l : list Entry) s' : Prop := {
  ea_rows : rows_kept s s';
  ea_sim : sim caps rules (sb_native s) (sb_native s');
  ea_nodup : NoDup l.*1.*1;
  ea_fresh k : k ∈ l.*1.*1 → nv_jobs (sb_native s) !! k = None;
  ea_new k j o : (k, j, o) ∈ l → sb_origins s' !! k = Some o ∧
    ∃ j', nv_jobs (sb_native s') !! k = Some j' ∧ accepted_columns j' = accepted_columns j;
  ea_old k : k ∉ l.*1.*1 → sb_origins s' !! k = sb_origins s !! k ∧
    accepted_columns <$> nv_jobs (sb_native s') !! k = accepted_columns <$> nv_jobs (sb_native s) !! k;
}.

Lemma entered_spec s l s' : entered s l s' → entered_all s l s'.
Proof.
  induction 1 as [s s' Hc Ho Hr Hs|s [[k0 j0] o0] s1 l s2 [Hf Hj Ho Hr Hs] _ [IHr IHs IHn IHf IHnew IHold]]; simpl in *.
  - split; try done; [apply NoDup_nil_2|by intros k ?%elem_of_nil|by intros k j o ?%elem_of_nil|].
    intros k _. by rewrite Ho, (columns_lookup _ _ k Hc).
  - assert (k0 ∉ l.*1.*1) as Hk0.
    { intros Hin%IHf. apply (columns_none _ _ _ Hj) in Hin. simpl in Hin. by rewrite lookup_insert_eq in Hin. }
    assert (∀ k, k ≠ k0 → accepted_columns <$> nv_jobs (sb_native s1) !! k = accepted_columns <$> nv_jobs (sb_native s) !! k) as H1.
    { intros k Hne. rewrite (columns_lookup _ _ k Hj). simpl. by rewrite lookup_insert_ne. }
    split.
    + unfold rows_kept in *. congruence.
    + by etrans.
    + by apply NoDup_cons.
    + intros k [->|Hk]%elem_of_cons; [done|]. destruct (decide (k = k0)) as [->|Hne]; [done|].
      specialize (H1 k Hne). rewrite (IHf k Hk) in H1. by destruct (nv_jobs (sb_native s) !! k).
    + intros k j o [[= -> -> ->]|Hin]%elem_of_cons; [|by apply IHnew].
      destruct (IHold k0 Hk0) as [Ho2 Hj2]. rewrite Ho2, Ho, lookup_insert_eq. split; [done|].
      rewrite (columns_lookup _ _ k0 Hj) in Hj2. simpl in Hj2. rewrite lookup_insert_eq in Hj2.
      destruct (nv_jobs (sb_native s2) !! k0) as [j'|]; [|done]. exists j'. split; [done|]. by apply (inj Some) in Hj2.
    + intros k [Hne Hk]%not_elem_of_cons. destruct (IHold k Hk) as [Ho2 Hj2].
      rewrite Ho2, Hj2, Ho, lookup_insert_ne by done. split; [done|by apply H1].
Qed.

(** ** Decisions *)

(** The proposal lies within the policies of all its ancestors. *)
Definition within_policies (origins : gmap Uuid JobOrigin) scope (spec : JobSpec)
    (admission : option ManagedPolicyAdmissionSnapshot) : Prop :=
  match scope with
  | Unmanaged => admission = None
  | Managed parent => ∃ snap ancestors, admission = Some snap ∧ ps_parent snap = parent ∧
      ancestry store origins (mp_job_id parent) ancestors ∧
      (length ancestors < MAX_MANAGED_POLICY_DEPTH)%nat ∧
      Forall (λ x, permits_child fences_allow spec x.2) ancestors
  end.

Record entry_ok (origins : gmap Uuid JobOrigin) (i : Uuid) (r : Submission) (batch : option Uuid)
    (e : Entry) (m : option string * JobSpec) : Prop := {
  eo_submission : og_submission_id e.2 = i;
  eo_batch : og_batch_id e.2 = batch;
  eo_spec : nj_spec e.1.2 = m.2;
  eo_member : nj_batch_member e.1.2 = m.1;
  eo_scope : ∃ scope, scope_key scope = sm_scope r ∧ og_parent e.2 = parent_columns scope ∧
    within_policies origins scope m.2 (og_policy_admission e.2);
}.

Definition is_batch (d : Document) : Prop := match d with JobDocument _ _ => False | BatchDocument _ _ => True end.

Definition accepted_row (r : Submission) (job batch : option Uuid) (generation : Uuid) : Submission :=
  let r := r <| sm_state := SubAccepted |> in
  (match batch with None => r <| sm_job_id := job |> | Some b => r <| sm_batch_id := Some b |> end)
    <| sm_daemon_generation := Some generation |>.

Definition batch_entered s (i : Uuid) (batch : option Uuid) s' : Prop :=
  match batch with
  | None => sb_batches s' = sb_batches s
  | Some b => sb_batches s !! b = None ∧ ∃ t, sb_batches s' = <[b := (i, t)]> (sb_batches s)
  end.

(** The columns of the parent are those of the scope. *)
Definition names_parent (r : Submission) : Prop :=
  ∃ scope, scope_key scope = sm_scope r ∧ sm_parent r = parent_columns scope.

Inductive decision s : SubmitStore → Prop :=
| dc_receive i r : sb_submissions s !! i = None → sm_state r = SubReceived → sm_job_id r = None → sm_batch_id r = None →
    names_parent r → (∀ k q, sb_submissions s !! k = Some q → sm_scope q = sm_scope r → sm_idempotency_key q ≠ sm_idempotency_key r) →
    decision s (s <| sb_submissions ::= <[i := r]> |>)
| dc_wait i r : sb_submissions s !! i = Some r → sm_state r = SubReceived →
    decision s (s <| sb_submissions ::= <[i := r <| sm_wait_intent := true |>]> |>)
| dc_reject i r code detail : sb_submissions s !! i = Some r → sm_state r = SubReceived →
    decision s (s <| sb_submissions ::= <[i := r <| sm_state := SubRejected |> <| sm_reject_code := Some code |>
      <| sm_reject_detail := Some detail |>]> |>)
| dc_accept i r l batch generation s1 s' : sb_submissions s !! i = Some r → sm_state r = SubReceived →
    entered s l s1 → Forall2 (entry_ok (sb_origins s) i r batch) l (members_of (sm_document r)) →
    (is_Some batch ↔ is_batch (sm_document r)) → batch_entered s i batch s' →
    sb_native s' = sb_native s1 → sb_origins s' = sb_origins s1 →
    sb_submissions s' = <[i := accepted_row r (head l.*1.*1) batch generation]> (sb_submissions s) →
    decision s s'.

(** ** What lasts *)
Record lasts s s' : Prop := {
  ls_row i r : sb_submissions s !! i = Some r → ∃ r', sb_submissions s' !! i = Some r' ∧
    sm_scope r' = sm_scope r ∧ sm_idempotency_key r' = sm_idempotency_key r ∧ sm_payload_hash r' = sm_payload_hash r ∧
    sm_document r' = sm_document r ∧ sm_parent r' = sm_parent r ∧ (sm_state r ≠ SubReceived → r' = r);
  ls_origin k o : sb_origins s !! k = Some o → sb_origins s' !! k = Some o;
  ls_job k j : nv_jobs (sb_native s) !! k = Some j →
    ∃ j', nv_jobs (sb_native s') !! k = Some j' ∧ accepted_columns j' = accepted_columns j;
}.

Lemma lasts_refl s : lasts s s.
Proof. split; [|done|]; intros k x Hk; exists x; by split_and!. Qed.
#[global] Instance lasts_preorder : PreOrder lasts.
Proof.
  split; [exact lasts_refl|]. intros s1 s2 s3 [R1 O1 J1] [R2 O2 J2]. split.
  - intros i r Hr. destruct (R1 i r Hr) as (r2 & H2 & ? & ? & ? & ? & ? & Hd).
    destruct (R2 i r2 H2) as (r3 & Hr3 & ? & ? & ? & ? & ? & Hd3). exists r3. split_and!; try congruence.
    intros Hst. rewrite Hd3; rewrite Hd; done.
  - intros k o Hk. by apply O2, O1.
  - intros k j Hj. destruct (J1 k j Hj) as (j2 & Hj2 & ?). destruct (J2 k j2 Hj2) as (j3 & Hj3 & ?). exists j3. split; congruence.
Qed.

(** A new row, or a row that was received and keeps what identifies it. *)
Lemma lasts_submission s i r : (∀ q, sb_submissions s !! i = Some q → sm_state q = SubReceived ∧ sm_scope r = sm_scope q ∧
    sm_idempotency_key r = sm_idempotency_key q ∧ sm_payload_hash r = sm_payload_hash q ∧ sm_document r = sm_document q ∧
    sm_parent r = sm_parent q) →
  lasts s (s <| sb_submissions ::= <[i := r]> |>).
Proof.
  intros Hq. split; [|done|intros k j Hk; by exists j]. intros k q Hk. simpl. destruct (decide (k = i)) as [->|Hne].
  - rewrite lookup_insert_eq. exists r. destruct (Hq q Hk) as (? & ? & ? & ? & ? & ?). split_and!; congruence.
  - rewrite lookup_insert_ne by done. exists q. by split_and!.
Qed.

Lemma lasts_entered s l s' : (∀ k, is_Some (sb_origins s !! k) → is_Some (nv_jobs (sb_native s) !! k)) →
  entered_all s l s' → lasts s s'.
Proof.
  intros Hdom [Hr _ _ Hf Hnew Hold]. split.
  - intros i r Hi. exists r. unfold rows_kept in Hr. rewrite Hr. by split_and!.
  - intros k o Hk. destruct (decide (k ∈ l.*1.*1)) as [Hin|Hout].
    + apply Hf in Hin. destruct (Hdom k) as [? ?]; [by eexists|]. congruence.
    + by rewrite (proj1 (Hold k Hout)).
  - intros k j Hj. destruct (decide (k ∈ l.*1.*1)) as [Hin|Hout]; [apply Hf in Hin; congruence|].
    destruct (Hold k Hout) as [_ Hc]. rewrite Hj in Hc. destruct (nv_jobs (sb_native s') !! k) as [j'|]; [|done].
    exists j'. split; [done|]. by apply (inj Some) in Hc.
Qed.

Lemma ancestry_mono (m m' : gmap Uuid JobOrigin) j l : (∀ k o, m !! k = Some o → m' !! k = Some o) →
  ancestry store m j l → ancestry store m' j l.
Proof.
  intros Hm. induction 1; [by eapply ancestry_root; [apply Hm|..]|by eapply ancestry_child; [apply Hm|..]].
Qed.
Lemma within_policies_mono (m m' : gmap Uuid JobOrigin) scope spec a : (∀ k o, m !! k = Some o → m' !! k = Some o) →
  within_policies m scope spec a → within_policies m' scope spec a.
Proof.
  intros Hm. destruct scope as [|p]; [done|]. intros (snap & l & ? & ? & ? & ? & ?). exists snap, l. split_and!; try done.
  by eapply ancestry_mono.
Qed.

(** ** The invariant *)

(** The jobs of a submission are one per member of its document. *)
Definition jobs_of s (i : Uuid) (r : Submission) (ks : list Uuid) : Prop :=
  NoDup ks ∧ (∀ k, k ∈ ks ↔ ∃ o, sb_origins s !! k = Some o ∧ og_submission_id o = i) ∧
  Forall2 (λ k m, ∃ j o, nv_jobs (sb_native s) !! k = Some j ∧ sb_origins s !! k = Some o ∧ nj_spec j = m.2 ∧
    nj_batch_member j = m.1 ∧ og_batch_id o = sm_batch_id r) ks (members_of (sm_document r)) ∧
  match sm_document r with
  | JobDocument _ _ => sm_job_id r = head ks ∧ sm_batch_id r = None
  | BatchDocument _ _ => sm_job_id r = None ∧ is_Some (sm_batch_id r)
  end.

Record submitted s : Prop := {
  (* a key of a scope names one submission *)
  su_key i k r q : sb_submissions s !! i = Some r → sb_submissions s !! k = Some q → sm_scope r = sm_scope q →
    sm_idempotency_key r = sm_idempotency_key q → i = k;
  su_parent i r : sb_submissions s !! i = Some r → names_parent r;
  (* a submission that is not accepted has no job *)
  su_undecided i r : sb_submissions s !! i = Some r → sm_state r ≠ SubAccepted →
    sm_job_id r = None ∧ sm_batch_id r = None ∧ ∀ k o, sb_origins s !! k = Some o → og_submission_id o ≠ i;
  (* an accepted one has one job per member *)
  su_accepted i r : sb_submissions s !! i = Some r → sm_state r = SubAccepted →
    is_Some (sm_daemon_generation r) ∧ ∃ ks, jobs_of s i r ks;
  (* every job comes from a submission and lies within the policies of its ancestors *)
  su_job k : is_Some (nv_jobs (sb_native s) !! k) ↔ is_Some (sb_origins s !! k);
  su_origin k o j : sb_origins s !! k = Some o → nv_jobs (sb_native s) !! k = Some j →
    ∃ r scope, sb_submissions s !! og_submission_id o = Some r ∧ scope_key scope = sm_scope r ∧
      og_parent o = parent_columns scope ∧ within_policies (sb_origins s) scope (nj_spec j) (og_policy_admission o);
  (* batches name their submission *)
  su_batch k o b : sb_origins s !! k = Some o → og_batch_id o = Some b →
    ∃ t, sb_batches s !! b = Some (og_submission_id o, t);
}.

Lemma submitted_row s i r : submitted s → (∀ q, sb_submissions s !! i = Some q → sm_state q = SubReceived ∧ sm_scope r = sm_scope q ∧
    sm_idempotency_key r = sm_idempotency_key q) →
  (sb_submissions s !! i = None → (∀ k q, sb_submissions s !! k = Some q → sm_scope q = sm_scope r →
    sm_idempotency_key q ≠ sm_idempotency_key r)) →
  sm_state r ≠ SubAccepted → sm_job_id r = None → sm_batch_id r = None → names_parent r →
  submitted (s <| sb_submissions ::= <[i := r]> |>).
Proof.
  intros [Hkey Hpar Hund Hacc Hjob Horig Hbatch] Hq Hnone Hst Hj Hb Hp.
  assert (∀ k o, sb_origins s !! k = Some o → og_submission_id o ≠ i) as Hno.
  { intros k o Hk. destruct (sb_submissions s !! i) as [q|] eqn:Hi.
    - destruct (Hq q eq_refl) as [Hrec _]. destruct (Hund i q Hi) as (_ & _ & Hn); [congruence|by eapply Hn].
    - intros He. destruct (proj2 (Hjob k)) as [j Hjk]; [by eexists|]. destruct (Horig k o j Hk Hjk) as (q & scope & Hqq & _). congruence. }
  assert (∀ k q, sb_submissions s !! k = Some q → k ≠ i → sm_scope q = sm_scope r → sm_idempotency_key q ≠ sm_idempotency_key r) as Hun.
  { intros k q Hk Hne Hs He. destruct (sb_submissions s !! i) as [q0|] eqn:Hi; [|by eapply Hnone].
    destruct (Hq q0 eq_refl) as (_ & Es & Ek). apply Hne. eapply Hkey; [exact Hk|exact Hi|congruence|congruence]. }
  split; simpl; try done.
  - intros i1 i2 r1 r2. rewrite !lookup_insert_Some. intros [[<- <-]|[Hn1 H1]] [[<- <-]|[Hn2 H2]] Hs He; [done| | |by eapply Hkey].
    + exfalso. eapply (Hun i2 r2 H2); congruence.
    + exfalso. eapply (Hun i1 r1 H1); congruence.
  - intros i1 r1. rewrite lookup_insert_Some. intros [[<- <-]|[_ H1]]; [done|by eapply Hpar].
  - intros i1 r1. rewrite lookup_insert_Some. intros [[<- <-]|[_ H1]]; [done|by apply Hund].
  - intros i1 r1. rewrite lookup_insert_Some. intros [[<- <-]|[_ H1]]; [done|by apply Hacc].
  - intros k o j Hk Hjk. destruct (Horig k o j Hk Hjk) as (q & scope & Hqq & Hrest). exists q, scope.
    rewrite lookup_insert_ne; [done|]. intros E. by eapply Hno.
Qed.

(** Jobs of another submission are found where they were. *)
Lemma jobs_of_lasts s s' i r ks : lasts s s' →
  (∀ k o, sb_origins s' !! k = Some o → og_submission_id o = i → sb_origins s !! k = Some o) →
  jobs_of s i r ks → jobs_of s' i r ks.
Proof.
  intros [_ Ho Hj] Hback (Hnd & Hks & Hall & Hdoc). split_and!; [done| | |done].
  - intros k. rewrite Hks. split; intros (o & Hk & Hi); exists o; (split; [|done]); [by apply Ho|by apply Hback].
  - eapply Forall2_impl; [exact Hall|]. intros k m (j & o & Hjk & Hok & Hs & Hm & Hb).
    destruct (Hj k j Hjk) as (j' & Hj' & Hc). unfold accepted_columns in Hc. exists j', o. split_and!; try done; [by apply Ho|congruence|congruence].
Qed.

Lemma submitted_native s n' : submitted s → columns_kept (sb_native s) n' → submitted (s <| sb_native := n' |>).
Proof.
  intros [Hkey Hpar Hund Hacc Hjob Horig Hbatch] Hc.
  assert (lasts s (s <| sb_native := n' |>)) as Hl.
  { split; [intros i r Hr; exists r; by split_and!|done|]. intros k j Hk. by eapply columns_some. }
  split; simpl; try done.
  - intros i r Hi Hst. destruct (Hacc i r Hi Hst) as [Hg (ks & Hks)]. split; [done|]. exists ks. by eapply jobs_of_lasts.
  - intros k. rewrite <-Hjob. pose proof (columns_none _ _ k Hc) as Hn. rewrite <-!not_eq_None_Some. naive_solver.
  - intros k o j Hk Hj. destruct (nv_jobs (sb_native s) !! k) as [j0|] eqn:Hj0.
    + destruct (columns_some _ _ _ _ Hc Hj0) as (j1 & Hj1 & E). rewrite Hj in Hj1. injection Hj1 as <-.
      destruct (Horig k o j0 Hk Hj0) as (r & scope & ? & ? & ? & ?). exists r, scope. split_and!; try done.
      unfold accepted_columns in E. by replace (nj_spec j) with (nj_spec j0) by congruence.
    + apply (columns_none _ _ k Hc) in Hj0. congruence.
Qed.

(** The row of a submission that was accepted now. *)
Lemma accepted_jobs s i r l batch generation s1 s' :
  submitted s → sb_submissions s !! i = Some r → sm_state r = SubReceived → entered_all s l s1 →
  Forall2 (entry_ok (sb_origins s) i r batch) l (members_of (sm_document r)) →
  (is_Some batch ↔ is_batch (sm_document r)) → sb_origins s' = sb_origins s1 → sb_native s' = sb_native s1 →
  jobs_of s' i (accepted_row r (head l.*1.*1) batch generation) l.*1.*1.
Proof.
  intros Hinv Hi Hst [_ _ Hnd Hfresh Hnew Hold] Hall Hb Eo En. destruct (su_undecided _ Hinv i r Hi) as (Hj & Hbn & Hno); [congruence|].
  unfold jobs_of. rewrite Eo, En. split_and!; [done| | |].
  - intros k. split.
    + intros ([k' j] & -> & ([[k'' j''] o] & [= -> ->] & Hin)%list_elem_of_fmap)%list_elem_of_fmap. exists o.
      split; [by eapply Hnew|]. destruct (Forall2_partner _ _ _ _ Hall Hin) as (m & _ & Hok).
      apply (eo_submission _ _ _ _ _ _ Hok).
    + intros (o & Hk & Ho). destruct (decide (k ∈ l.*1.*1)) as [|Hout]; [done|].
      rewrite (proj1 (Hold k Hout)) in Hk. by destruct (Hno k o Hk).
  - replace (sm_document (accepted_row _ _ _ _)) with (sm_document r) by (by destruct batch). rewrite !Forall2_fmap_l.
    eapply Forall2_impl_in; [exact Hall|]. intros [[k j] o] m Hin [E1 E2 E3 E4 _]. simpl in *.
    destruct (Hnew k j o Hin) as (Ho & j' & Hj' & Hc). unfold accepted_columns in Hc. exists j', o. split_and!; try done; try congruence.
    rewrite E2. by destruct batch.
  - destruct (sm_document r) as [spec stdin|spec stdins] eqn:Hd; destruct batch as [b|]; simpl in Hb; simpl; rewrite Hd.
    + exfalso. apply Hb. by eexists.
    + by split.
    + by split.
    + destruct (proj2 Hb I) as [? ?]. done.
Qed.

Lemma accepted_row_lasts s i r job batch generation : sb_submissions s !! i = Some r → sm_state r = SubReceived →
  lasts s (s <| sb_submissions ::= <[i := accepted_row r job batch generation]> |>).
Proof. intros Hi Hst. apply lasts_submission. intros q Hq. rewrite Hi in Hq. injection Hq as <-. by destruct batch. Qed.

Lemma lasts_same s s1 s2 m : sb_native s2 = sb_native s1 → sb_origins s2 = sb_origins s1 → sb_submissions s2 = m →
  lasts s (s1 <| sb_submissions := m |>) → lasts s s2.
Proof. intros En Eo Es [? ? ?]. by split; rewrite ?En, ?Eo, ?Es. Qed.


Lemma decision_lasts s s' : submitted s → decision s s' → lasts s s'.
Proof.
  intros Hinv. destruct 1 as [i r Hi ? ? ? ? ?|i r Hi Hst|i r code detail Hi Hst|i r l batch g s1 s' Hi Hst Hen Hall Hb Hba En Eo Es].
  - apply lasts_submission. congruence.
  - apply lasts_submission. intros q Hq. by simplify_eq.
  - apply lasts_submission. intros q Hq. by simplify_eq.
  - apply entered_spec in Hen. assert (sb_submissions s1 = sb_submissions s) as Er by apply (ea_rows _ _ _ Hen).
    etrans; [apply (lasts_entered s l s1); [|done]|].
    + intros k. apply (su_job _ Hinv).
    + eapply lasts_same; [exact En|exact Eo|exact Es|]. rewrite <-Er in Hi |- *. by apply accepted_row_lasts.
Qed.

Lemma decision_sim s s' : decision s s' → sim caps rules (sb_native s) (sb_native s').
Proof.
  destruct 1 as [| | |i r l batch g s1 s' Hi Hst Hen Hall Hb Hba En Eo Es]; try done.
  apply entered_spec in Hen. rewrite En. apply (ea_sim _ _ _ Hen).
Qed.

(** Rows of the other submissions after an acceptance. *)
Lemma accepted_other i (r' : Submission) (m : gmap Uuid Submission) k q : <[i := r']> m !! k = Some q →
  (k = i ∧ q = r') ∨ (k ≠ i ∧ m !! k = Some q).
Proof. rewrite lookup_insert_Some. intuition. Qed.

(** What acceptance wrote for each new job. *)
Lemma new_entry s i r l batch s1 s' k o : entered_all s l s1 → Forall2 (entry_ok (sb_origins s) i r batch) l (members_of (sm_document r)) →
  sb_origins s' = sb_origins s1 → sb_native s' = sb_native s1 → sb_origins s' !! k = Some o → k ∈ l.*1.*1 →
  ∃ j m, entry_ok (sb_origins s) i r batch (k, j, o) m ∧
    ∃ j', nv_jobs (sb_native s') !! k = Some j' ∧ accepted_columns j' = accepted_columns j.
Proof.
  intros Hen Hall Eo En Hk ([k' j] & -> & ([[k'' j''] o'] & [= -> ->] & Hin)%list_elem_of_fmap)%list_elem_of_fmap. simpl in *.
  destruct (ea_new _ _ _ Hen k'' j'' o' Hin) as (Ho & j' & Hj' & Hc). rewrite Eo, Ho in Hk. injection Hk as ->.
  destruct (Forall2_partner _ _ _ _ Hall Hin) as (m & _ & Hok). exists j'', m. rewrite En. eauto.
Qed.

Lemma submitted_accept s i r l batch g s1 s' : submitted s → sb_submissions s !! i = Some r → sm_state r = SubReceived →
  entered_all s l s1 → Forall2 (entry_ok (sb_origins s) i r batch) l (members_of (sm_document r)) →
  (is_Some batch ↔ is_batch (sm_document r)) → batch_entered s i batch s' →
  sb_native s' = sb_native s1 → sb_origins s' = sb_origins s1 →
  sb_submissions s' = <[i := accepted_row r (head l.*1.*1) batch g]> (sb_submissions s) → lasts s s' → submitted s'.
Proof.
  intros Hinv Hi Hst Hen Hall Hb Hba En Eo Esub Hl. pose proof Hinv as [Hkey Hpar Hund Hacc Hjob Horig Hbatch].
  set (r' := accepted_row r (head l.*1.*1) batch g) in *.
  assert (sm_scope r' = sm_scope r ∧ sm_idempotency_key r' = sm_idempotency_key r ∧ sm_state r' = SubAccepted) as (Rs & Rk & Rst)
    by by destruct batch.
  assert (jobs_of s' i r' l.*1.*1) as Hjobs by by eapply accepted_jobs.
  assert (is_Some (sm_daemon_generation r')) as Rg by by destruct batch; eexists.
  assert (names_parent r') as Rp by (destruct (Hpar i r Hi) as (scope & ? & ?); exists scope; by destruct batch).
  clearbody r'.
  assert (∀ k o, sb_origins s' !! k = Some o → og_submission_id o ≠ i → sb_origins s !! k = Some o) as Hback.
  { intros k o Hk Hne. destruct (decide (k ∈ l.*1.*1)) as [Hin|Hout]; [|by rewrite <-(proj1 (ea_old _ _ _ Hen k Hout)), <-Eo].
    apply Hjobs in Hin as (o' & Hk' & ?). congruence. }
  split.
  - intros i1 i2 r1 r2. rewrite !Esub.
    intros [[-> ->]|[Hn1 H1]]%accepted_other [[-> ->]|[Hn2 H2]]%accepted_other Hs He; [done| | |by eapply Hkey].
    + eapply Hkey; [exact Hi|exact H2|congruence|congruence].
    + eapply Hkey; [exact H1|exact Hi|congruence|congruence].
  - intros i1 r1. rewrite Esub. intros [[-> ->]|[Hn1 H1]]%accepted_other; [done|by eapply Hpar].
  - intros i1 r1. rewrite Esub. intros [[-> ->]|[Hn1 H1]]%accepted_other Hne; [done|].
    destruct (Hund i1 r1 H1 Hne) as (? & ? & Hno). split_and!; [done|done|]. intros k o Hk.
    destruct (decide (og_submission_id o = i)) as [->|Hoi]; [congruence|]. by eapply Hno, Hback.
  - intros i1 r1. rewrite Esub. intros [[-> ->]|[Hn1 H1]]%accepted_other Hac.
    { split; [done|by eexists]. }
    destruct (Hacc i1 r1 H1 Hac) as [Hg (ks & Hks)]. split; [done|]. exists ks. eapply jobs_of_lasts; [done| |done].
    intros k o Hk Hoi. apply Hback; congruence.
  - intros k. rewrite Eo, En. destruct (decide (k ∈ l.*1.*1)) as [Hin|Hout].
    + apply list_elem_of_fmap in Hin as ([k' j] & -> & ([[k'' j''] o] & [= -> ->] & Hin)%list_elem_of_fmap).
      destruct (ea_new _ _ _ Hen k'' j'' o Hin) as (H1 & j' & H2 & _). simpl. rewrite H1, H2. by split; intros; eexists.
    + destruct (ea_old _ _ _ Hen k Hout) as [-> Hc]. rewrite <-Hjob.
      destruct (nv_jobs (sb_native s1) !! k), (nv_jobs (sb_native s) !! k); try done; by split; intros; eexists.
  - intros k o j Hk Hj. destruct (decide (og_submission_id o = i)) as [Hoi|Hne].
    + destruct (new_entry s i r l batch s1 s' k o) as (j0 & m & [E1 E2 E3 E4 (scope & ? & ? & Hw)] & j' & Hj' & Hc); try done.
      { apply Hjobs. by exists o. }
      simpl in *. exists r', scope. rewrite Hoi, Esub, lookup_insert_eq. split_and!; try done; [congruence|].
      unfold accepted_columns in Hc. replace (nj_spec j) with m.2 by congruence.
      eapply within_policies_mono; [apply (ls_origin _ _ Hl)|done].
    + apply Hback in Hk as Hk0; [|done]. destruct (proj2 (Hjob k)) as [j0 Hj0]; [by eexists|].
      destruct (Horig k o j0 Hk0 Hj0) as (q & scope & Hq & ? & ? & ?). exists q, scope.
      rewrite Esub, lookup_insert_ne by done. split_and!; try done.
      destruct (ls_job _ _ Hl k j0 Hj0) as (j' & Hj' & Hc). unfold accepted_columns in Hc.
      replace (nj_spec j) with (nj_spec j0) by congruence. eapply within_policies_mono; [apply (ls_origin _ _ Hl)|done].
  - intros k o b Hk Hbo. destruct (decide (og_submission_id o = i)) as [Hoi|Hne].
    + destruct (new_entry s i r l batch s1 s' k o) as (j0 & m & [E1 E2 E3 E4 _] & _); try done.
      { apply Hjobs. by exists o. }
      simpl in *. rewrite Hbo in E2. subst batch. destruct Hba as [_ [t ->]]. exists t. by rewrite lookup_insert_eq, Hoi.
    + apply Hback in Hk; [|done]. destruct (Hbatch k o b Hk Hbo) as [t Ht]. exists t.
      destruct batch as [b'|]; simpl in Hba; [|by rewrite Hba]. destruct Hba as [Hn [t' ->]].
      rewrite lookup_insert_ne; [done|]. congruence.
Qed.

Lemma decision_submitted s s' : submitted s → decision s s' → submitted s'.
Proof.
  intros Hinv Hd. pose proof (decision_lasts _ _ Hinv Hd) as Hl.
  destruct Hd as [i r Hi Hst Hj Hb Hp Hun|i r Hi Hst|i r code detail Hi Hst|i r l batch g s1 s' Hi Hst Hen Hall Hb Hba En Eo Es].
  - apply submitted_row; try done; congruence.
  - destruct (su_undecided _ Hinv i r Hi) as (? & ? & _); [congruence|]. pose proof (su_parent _ Hinv i r Hi).
    apply submitted_row; simpl; try done; try congruence. intros q Hq. by simplify_eq.
  - destruct (su_undecided _ Hinv i r Hi) as (? & ? & _); [congruence|]. pose proof (su_parent _ Hinv i r Hi).
    apply submitted_row; simpl; try done; try congruence. intros q Hq. by simplify_eq.
  - apply entered_spec in Hen. by eapply submitted_accept.
Qed.

Definition decisions : SubmitStore → SubmitStore → Prop := rtc decision.

Lemma decisions_submitted s s' : submitted s → decisions s s' → submitted s' ∧ lasts s s' ∧ sim caps rules (sb_native s) (sb_native s').
Proof.
  intros Hinv Hd. induction Hd as [s|s1 s2 s3 Hd _ IH]; [done|].
  destruct IH as (H3 & Hl & Hs); [by eapply decision_submitted|]. split_and!; [done| |].
  - etrans; [by apply decision_lasts|done].
  - etrans; [by apply decision_sim|done].
Qed.

(** ** The operations decide *)
Lemma alter_same {A} (m : gmap Uuid A) i f : (∀ x, m !! i = Some x → f x = x) → alter f i m = m.
Proof.
  intros Hf. apply map_eq. intros k. destruct (decide (k = i)) as [->|Hne]; [|by rewrite lookup_alter_ne].
  rewrite lookup_alter_eq. destruct (m !! i) as [x|] eqn:Hx; [|done]. simpl. by rewrite Hf.
Qed.
(** An update of a received row, or of nothing. *)
Lemma upd_received i (f : Submission → Submission) s :
  (∀ r, sb_submissions s !! i = Some r → sm_state r = SubReceived → decision s (s <| sb_submissions ::= <[i := f r]> |>)) →
  decisions s (upd_submission i (λ r, where_ (bool_decide (sm_state r = SubReceived)) f r) s).
Proof.
  intros Hf. unfold upd_submission. destruct s as [n subs b o]. simpl in *.
  destruct (subs !! i) as [r|] eqn:Hi; [case (decide (sm_state r = SubReceived)) as [Hst|Hst]|].
  - rewrite (alter_insert_some _ _ _ _ Hi). unfold where_. rewrite bool_decide_eq_true_2 by done. by apply rtc_once, Hf.
  - rewrite alter_same; [constructor|]. intros x Hx. rewrite Hi in Hx. injection Hx as <-. unfold where_.
    by rewrite bool_decide_eq_false_2.
  - rewrite alter_same; [constructor|]. congruence.
Qed.

Lemma reject_decides i code detail s : decisions s (reject_received_with i code detail s).
Proof. apply upd_received. intros r Hi Hst. by apply dc_reject. Qed.
Lemma reject_for_decides i e s : decisions s (reject_received_for_error i e s).
Proof. unfold reject_received_for_error. destruct (rejection_decision e). apply reject_decides. Qed.
Lemma set_wait_decides i s : decisions s (set_wait_intent i s).
Proof. apply upd_received. intros r Hi Hst. by apply dc_wait. Qed.
Lemma keep_wait_decides i durable_wait wait s : decisions s (keep_wait i durable_wait wait s).1.
Proof. unfold keep_wait. simpl. destruct (_ && _); [apply set_wait_decides|constructor]. Qed.
End submissions.
