(* ===== verification/SubmissionRefinement.v ===== *)
(** * SubmissionRefinement: submitting and resuming are sequences of decisions

    The transactions of [Submission.v] implement the decisions of [SubmissionFacts.v],
    whatever the file system, the clocks and the order of scans answer. *)
From S2P Require Import Prelude Spec Validate Batch Kernel Scoped Observation Machine MachineStore Reservation Columns.
From S2P Require Import Native ConditionStore ProcessRecords Lifecycle Schedule Release NativeRecovery Life LifeFacts.
From S2P Require Import Refinement NativeHistory Kept KeptFacts Policy PolicyFacts ManagedWait ManagedWaitFacts Submission SubmissionFacts.

Section operations.
Context (caps : ResourceCapacities) (rules : gmap string (list string)).
Context (pf : Platform) (uuid_to_string : Uuid → string).
Context (fences_allow : list ResolvedPolicyFence → string → result string bool).
Context (resolve_policy_fence : string → result string ResolvedPolicyFence).
Context (resolve_fences : list string → result StoreError (gset string)).
Context (lease_scan : gmap Uuid Lease → list Lease).
Context (blob_file : string → result StoreError (N * string)).
Context (job_hash : JobSpec → option (string * N) → result StoreError string).
Context (batch_hash : BatchSpec → gmap string (string * N) → result StoreError string).
Context (d : Daemon) (store : Uuid).
Implicit Types (s : SubmitStore) (scope : SubmissionScope) (input : SubmitInput).

Local Notation scope_key := (scope_key uuid_to_string).
Local Notation decision := (decision caps rules uuid_to_string fences_allow store).
Local Notation decisions := (decisions caps rules uuid_to_string fences_allow store).
Local Notation enters := (enters caps rules).
Local Notation entered := (entered caps rules).
Local Notation entry_ok := (entry_ok uuid_to_string fences_allow store).
Local Notation insert_member := (insert_member d).

(** ** Jobs enter *)
Lemma insert_member_enters id n j origin input s s' : fresh_job j →
  insert_member id n j origin input s = Ok s' → enters s (id, j, origin) s' ∧ sb_batches s' = sb_batches s.
Proof.
  intros Hj H. unfold Submission.insert_member, insert_job in H. result_inv.
  apply bool_decide_eq_false, eq_None_not_Some in Hguard. split; [|done].
  split; simpl; [done| |done|done|].
  - by apply kept_insert_conditions with (s := (sb_native s) <| nv_jobs ::= <[id := j]> |>) in Hstep as [Hc _].
  - eapply (native_step_sim caps rules uuid_to_string (λ _, ""%string) (λ _, ""%string) resolve_fences), ns_accept; done.
Qed.

Lemma fresh_new_job spec claims stdin accepted rowid member : fresh_job (new_job spec claims stdin accepted rowid member).
Proof. done. Qed.

Lemma evaluate_policy_within s scope spec member input a :
  evaluate_policy pf uuid_to_string fences_allow store s scope spec member input = Ok a →
  within_policies fences_allow store (sb_origins s) scope spec a.
Proof.
  unfold evaluate_policy. destruct (evaluate_managed_policy _ _ _ _ _ _ _ _) as [a'|] eqn:E; [|done]. intros [= ->].
  destruct scope as [|p]; [simpl in *; congruence|].
  apply evaluate_sound in E as (snap & l & ? & ? & ? & ? & ? & ? & ?). by exists snap, l.
Qed.

(** The submission that is decided is the one the caller read. *)
Definition awaits s (i : Uuid) (document : Document) scope : Prop :=
  ∃ r, sb_submissions s !! i = Some r ∧ sm_document r = document ∧ scope_key scope = sm_scope r.

Local Notation accept_job_tx := (accept_job_tx pf uuid_to_string fences_allow resolve_fences lease_scan d store).
Local Notation accept_received := (accept_received pf uuid_to_string fences_allow resolve_policy_fence resolve_fences lease_scan blob_file d store).

Lemma or_fail_ok {A} (r : result StoreError A) a : or_fail r = Ok a → r = Ok a.
Proof. destruct r; simpl; congruence. Qed.
Lemma or_reject_ok {A} f (r : result StoreError A) a : or_reject f r = Ok a → r = Ok a.
Proof. destruct r; simpl; congruence. Qed.

Lemma accept_job_decides i spec stdin claims policy scope wait input s s' k : awaits s i (JobDocument spec stdin) scope →
  accept_job_tx i spec stdin claims policy scope wait input s = Ok (s', k) →
  match k with inl _ => s' = s | inr _ => decision s s' end ∧
  ∃ r, sb_submissions s' !! i = Some r ∧ sm_state r = SubAccepted ∧ sm_job_id r = Some (match k with inl job | inr job => job end).
Proof.
  intros (r & Hi & Hd & Hscope) H. unfold Submission.accept_job_tx in H. rewrite Hi in H. simpl in H.
  destruct (sm_state r) eqn:Hst; [| |done].
  - result_inv. apply or_reject_ok in Hstep0. apply or_fail_ok in Hstep1. apply evaluate_policy_within in Hstep0.
    apply insert_member_enters in Hstep1 as [Hen Hbat]; [|apply fresh_new_job]. split.
    + eapply (dc_accept _ _ _ _ _ s i r [(si_job_id input 0, _, _)] None (dm_generation d) a0); try done.
      * eapply entered_cons; [exact Hen|]. by apply entered_nil.
      * rewrite Hd. constructor; [|constructor]. split; try done. by exists scope.
      * rewrite Hd. split; [intros [? ?]; done|done].
      * simpl. rewrite (en_rows _ _ _ _ _ Hen). by rewrite (alter_insert_some _ _ _ _ Hi).
    + simpl. rewrite (en_rows _ _ _ _ _ Hen), lookup_alter_eq, Hi. by eexists.
  - result_inv. apply or_fail_ok in Hstep. split; [done|]. exists r. split_and!; [done|done|]. by destruct (sm_job_id r); simplify_eq/=.
Qed.

Lemma accept_received_decides i spec stdin scope wait input s s' r : awaits s i (JobDocument spec stdin) scope →
  accept_received i spec stdin scope wait input s = (s', r) → decisions s s'.
Proof.
  intros Ha H. unfold Submission.accept_received, reject_now in H.
  destruct (verify_staged_input _ _ _); [|simplify_eq; apply reject_decides].
  destruct (resolve _ _) as [claims|]; [|simplify_eq; apply reject_decides].
  destruct (resolve_owned_policy _ _) as [policy|]; [|simplify_eq; apply reject_decides].
  destruct (accept_job_tx _ _ _ _ _ _ _ _ _) as [[s1 k]|[e|e e']] eqn:E; [|simplify_eq; constructor|simplify_eq; apply reject_for_decides].
  apply accept_job_decides in E as [E _]; [|done]. destruct k; simplify_eq; [constructor|]. by apply rtc_once.
Qed.

(** ** Batches enter *)
Local Notation accept_batch_tx := (accept_batch_tx pf uuid_to_string fences_allow resolve_fences lease_scan d store).
Local Notation accept_received_batch :=
  (accept_received_batch pf uuid_to_string fences_allow resolve_policy_fence resolve_fences lease_scan blob_file d store).

Lemma insert_members_entered submission batch scope input ms l n s s' :
  result_foldM (insert_batch_member d submission batch scope input) s (imap (λ k x, (n + k, x)%nat) (zip ms l)) = Ok s' →
  length ms = length l →
  ∃ entries, entered s entries s' ∧ sb_batches s' = sb_batches s ∧
    Forall2 (λ (e : Entry) '(m, a), nj_spec e.1.2 = member_spec (mb_member m) ∧
      nj_batch_member e.1.2 = Some (member_name (mb_member m)) ∧
      e.2 = origin_of submission (Some batch) scope (mb_policy m) a) entries (zip ms l).
Proof.
  revert l n s. induction ms as [|m ms IH]; intros [|a l] n s H Hlen; simpl in *; try done.
  - result_inv. exists []. split_and!; [|done|constructor]. by apply entered_nil.
  - result_inv. rename a0 into s1. apply insert_member_enters in Hstep as [Hen Hb1]; [|apply fresh_new_job].
    rewrite (imap_ext _ (λ k x, (S n + k, x)%nat)) in H by (intros; simpl; f_equal; lia).
    apply IH in H as (entries & Hes & Hb & Hall); [|lia].
    eexists (_ :: entries). split_and!; [by eapply entered_cons|congruence|]. constructor; [by split_and!|done].
Qed.

Lemma insert_dependencies_rows names (ms : list Member) s s' : result_foldM (insert_dependencies names) s ms = Ok s' →
  sb_submissions s' = sb_submissions s ∧ sb_batches s' = sb_batches s ∧ sb_origins s' = sb_origins s ∧
  ∃ l, sb_native s' = (sb_native s) <| nv_dependencies := l |>.
Proof.
  assert (∀ (f : DependencySpec → result StoreError Uuid) successor (deps : list DependencySpec) s s',
    result_foldM (λ s dep, p ← f dep; insert_dependency p successor (dep_on dep) s) s deps = Ok s' →
    sb_submissions s' = sb_submissions s ∧ sb_batches s' = sb_batches s ∧ sb_origins s' = sb_origins s ∧
    ∃ l, sb_native s' = (sb_native s) <| nv_dependencies := l |>) as Hdeps.
  { intros f successor deps. induction deps as [|dep deps IH]; intros s1 s1' H; simpl in H; result_inv.
    - split_and!; try done. exists (nv_dependencies (sb_native s1')). by destruct (sb_native s1').
    - unfold insert_dependency in Hstep. result_inv. apply IH in H as (-> & -> & -> & l & ->). split_and!; try done. by eexists. }
  revert s. induction ms as [|m ms IH]; intros s H; simpl in H; result_inv.
  - split_and!; try done. exists (nv_dependencies (sb_native s')). by destruct (sb_native s').
  - apply (Hdeps _ _ _ _ _) in Hstep as (E1 & E2 & E3 & l1 & E4). apply IH in H as (-> & -> & -> & l & ->).
    split_and!; [done..|]. exists l. by rewrite E4.
Qed.

Lemma entered_then s l s1 s2 : entered s l s1 → columns_kept (sb_native s1) (sb_native s2) → sb_origins s2 = sb_origins s1 →
  sb_submissions s2 = sb_submissions s1 → sim caps rules (sb_native s1) (sb_native s2) → entered s l s2.
Proof.
  induction 1 as [s s1 Hc Ho Hr Hs|s e s1 l s3 Hen _ IH]; intros Hc' Ho' Hr' Hs'; [|eapply entered_cons; [done|by apply IH]].
  unfold columns_kept, rows_kept in *. apply entered_nil; unfold columns_kept, rows_kept; [congruence..|by etrans].
Qed.
Lemma entered_batches s b l s' : entered (s <| sb_batches := b |>) l s' → entered s l s'.
Proof.
  intros H. inversion H as [? ? Hc Ho Hr Hs|? e s1 l' ? Hen Hes]; subst; [by apply entered_nil|].
  eapply entered_cons; [|done]. by destruct Hen; split.
Qed.

Lemma resolved_members stdins input jobs ms :
  result_mapM (λ '(n, m), resolve_member resolve_policy_fence resolve_fences stdins input n m) (imap pair jobs) = Ok ms →
  map mb_member ms = jobs.
Proof.
  rewrite result_mapM_Ok. intros H. assert (∀ k, Forall2 (λ x y, (let '(n, m) := x in
    resolve_member resolve_policy_fence resolve_fences stdins input n m) = Ok y) (imap (λ i x, ((k + i)%nat, x)) jobs) ms →
    map mb_member ms = jobs) as Hk; [|by apply (Hk 0%nat)].
  clear H. revert ms. induction jobs as [|m jobs IH]; intros ms k H; simpl in H; inversion H as [|? y ? ms' Hy Hrest]; subst; [done|].
  simpl. f_equal.
  - unfold resolve_member in Hy. result_inv. done.
  - apply (IH _ (S k)). by rewrite (imap_ext _ (λ i x, ((S k + i)%nat, x))) in Hrest by (intros; simpl; f_equal; lia).
Qed.

(** The entries of a batch are those of its members. *)
Lemma batch_entries_ok s i r spec batch scope input ms admissions entries :
  scope_key scope = sm_scope r → map mb_member ms = batch_jobs spec →
  Forall2 (λ m a, evaluate_policy pf uuid_to_string fences_allow store s scope (member_spec m) (Some (member_name m)) input = Ok a)
    (batch_jobs spec) admissions →
  Forall2 (λ (e : Entry) '(m, a), nj_spec e.1.2 = member_spec (mb_member m) ∧
      nj_batch_member e.1.2 = Some (member_name (mb_member m)) ∧
      e.2 = origin_of i (Some batch) scope (mb_policy m) a) entries (zip ms admissions) →
  Forall2 (entry_ok (sb_origins s) i r (Some batch)) entries (map (λ m, (Some (member_name m), member_spec m)) (batch_jobs spec)).
Proof.
  intros Hscope <-. revert admissions entries. induction ms as [|m ms IH]; intros admissions entries Ha He; simpl in *.
  { inversion Ha; subst. inversion He. constructor. }
  inversion Ha as [|? a ? admissions' Hm Ha']; subst. inversion He as [|e ? entries' ? Hh He']; subst. destruct Hh as (E1 & E2 & E3).
  constructor; [|by eapply IH]. split; simpl; rewrite ?E3; try done.
  exists scope. split_and!; [done|done|]. by eapply evaluate_policy_within.
Qed.

Lemma accept_batch_decides i spec stdins ms scope wait input s s' k : awaits s i (BatchDocument spec stdins) scope →
  map mb_member ms = batch_jobs spec →
  accept_batch_tx i spec ms scope wait input s = Ok (s', k) →
  match k with inl _ => s' = s | inr _ => decision s s' end.
Proof.
  intros (r & Hi & Hd & Hscope) Hms H. unfold Submission.accept_batch_tx in H. rewrite Hi in H. simpl in H.
  destruct (sm_state r) eqn:Hst; [|result_inv; done|done].
  result_inv. rename a into admissions, a0 into s1, a1 into s2. apply or_reject_ok, result_mapM_Ok in Hstep0.
  apply or_fail_ok, guard_ok, bool_decide_eq_false, eq_None_not_Some in Hstep1.
  apply or_fail_ok in Hstep2, Hstep3.
  apply (insert_members_entered _ _ _ _ _ _ 0) in Hstep2 as (entries & Hen & Hb1 & Hall).
  2: { rewrite <-(Forall2_length _ _ _ Hstep0), <-Hms. by rewrite length_map. }
  apply insert_dependencies_rows in Hstep3 as (E1 & E2 & E3 & deps & E4). apply entered_batches in Hen.
  eapply (dc_accept _ _ _ _ _ s i r entries (Some (si_batch_id input)) (dm_generation d) s2); try done.
  - eapply entered_then; [exact Hen|unfold columns_kept; by rewrite E4|done|done|]. rewrite E4. by apply sim_same.
  - rewrite Hd. eapply batch_entries_ok; done.
  - rewrite Hd. simpl. split; [done|by eexists].
  - split; [done|]. exists (si_accepted_ms input). simpl. by rewrite E2, Hb1.
  - simpl. rewrite E1, (ea_rows _ _ _ _ _ (entered_spec _ _ _ _ _ Hen)). by rewrite (alter_insert_some _ _ _ _ Hi).
Qed.

Lemma accept_received_batch_decides i spec stdins scope wait input s s' r : awaits s i (BatchDocument spec stdins) scope →
  accept_received_batch i spec stdins scope wait input s = (s', r) → decisions s s'.
Proof.
  intros Ha H. unfold Submission.accept_received_batch in H.
  destruct (verify_staged_batch_inputs _ _ _); [|simplify_eq; apply reject_decides].
  destruct (result_mapM _ _) as [ms|] eqn:Hms; [|simplify_eq; apply reject_for_decides]. apply resolved_members in Hms.
  destruct (accept_batch_tx _ _ _ _ _ _ _) as [[s1 k]|[e|e e']] eqn:E; [|simplify_eq; constructor|simplify_eq; apply reject_for_decides].
  eapply accept_batch_decides in E; [|done|done]. destruct k; simplify_eq; [constructor|]. by apply rtc_once.
Qed.

(** ** Receiving *)
Local Notation find_submission := (find_submission).
Local Notation receive := (receive uuid_to_string d store).

Lemma find_submission_some s key id i r : find_submission s key id = Some (i, r) →
  sb_submissions s !! i = Some r ∧ sm_scope r = key ∧ sm_idempotency_key r = id.
Proof.
  unfold Submission.find_submission. intros H.
  assert ((i, r) ∈ List.filter (λ x : Uuid * Submission, bool_decide (sm_scope x.2 = key) && bool_decide (sm_idempotency_key x.2 = id))
    (btree_entries (sb_submissions s))) as Hin by (destruct (List.filter _ _); simplify_eq/=; by left).
  apply list_elem_of_In, filter_In in Hin as [Hin Hc]. apply andb_true_iff in Hc as [H1 H2].
  apply list_elem_of_In, elem_of_btree_entries in Hin. split_and!; [done|by apply bool_decide_eq_true in H1|by apply bool_decide_eq_true in H2].
Qed.
Lemma find_submission_none s key id : find_submission s key id = None →
  ∀ k q, sb_submissions s !! k = Some q → sm_scope q = key → sm_idempotency_key q ≠ id.
Proof.
  unfold Submission.find_submission. intros H k q Hk Hs Hid.
  assert ((k, q) ∈ List.filter (λ x : Uuid * Submission, bool_decide (sm_scope x.2 = key) && bool_decide (sm_idempotency_key x.2 = id))
    (btree_entries (sb_submissions s))) as Hin.
  { apply list_elem_of_In, filter_In. split; [by apply list_elem_of_In, elem_of_btree_entries|]. simpl.
    by rewrite !bool_decide_eq_true_2. }
  destruct (List.filter _ _); [by apply elem_of_nil in Hin|done].
Qed.

Lemma receive_decides scope key hash document wait input s s' : receive scope key hash document wait input s = Ok s' →
  decision s s' ∧ awaits s' (si_submission_id input) document scope.
Proof.
  unfold Submission.receive. intros H. result_inv. apply orb_false_iff in Hguard as [H1 H2].
  apply bool_decide_eq_false, eq_None_not_Some in H1, H2. split.
  - apply dc_receive; try done; [by exists scope|]. intros k q Hk Hs. by apply (find_submission_none _ _ _ H2 k q).
  - eexists. simpl. rewrite lookup_insert_eq. by split_and!.
Qed.

Lemma awaits_decisions s s' i document scope : (submitted uuid_to_string fences_allow store s) → decisions s s' →
  awaits s i document scope → awaits s' i document scope.
Proof.
  intros Hinv Hd (r & Hi & Hdoc & Hs). destruct (decisions_submitted _ _ _ _ _ _ _ Hinv Hd) as (_ & Hl & _).
  destruct (ls_row _ _ Hl i r Hi) as (r' & Hr' & ? & ? & ? & ? & _). exists r'. split_and!; congruence.
Qed.

(** ** Submitting *)
Local Notation submitted := (submitted uuid_to_string fences_allow store).
Local Notation submit_job := (submit_with_stdin_scoped_for_wait pf uuid_to_string fences_allow resolve_policy_fence resolve_fences
  lease_scan blob_file job_hash d store).
Local Notation submit_batch := (submit_batch_with_stdins_scoped_for_wait pf uuid_to_string fences_allow resolve_policy_fence
  resolve_fences lease_scan blob_file batch_hash d store).

Lemma or_return_decides {A B} s (r : result StoreError A) (k : A → SubmitStore * result StoreError B) s' r' :
  or_return s r k = (s', r') → (∀ a, r = Ok a → k a = (s', r') → decisions s s') → decisions s s'.
Proof. destruct r as [a|e]; simpl; intros H Hk; [by eapply Hk|]. simplify_eq. constructor. Qed.

(** The wait is kept, then the submission is decided. *)
Lemma keep_wait_then s i document scope (durable_wait wait : bool) s1 w s' : submitted s → awaits s i document scope →
  keep_wait i durable_wait wait s = (s1, w) → (awaits s1 i document scope → decisions s1 s') → decisions s s'.
Proof.
  intros Hinv Ha Hk Hnext. assert (decisions s s1) as H1.
  { replace s1 with (keep_wait i durable_wait wait s).1 by by rewrite Hk. apply keep_wait_decides. }
  etrans; [exact H1|]. apply Hnext. by eapply awaits_decisions.
Qed.

Lemma submit_job_decides scope key claimed spec stdin wait input s s' r : submitted s →
  submit_job scope key claimed spec stdin wait input s = (s', r) → decisions s s'.
Proof.
  intros Hinv H. unfold submit_with_stdin_scoped_for_wait in H.
  do 5 (eapply or_return_decides; [exact H|clear H; intros ? _ H]). rename a2 into hash.
  destruct (find_submission s _ key) as [[i row]|] eqn:Hf.
  - apply find_submission_some in Hf as (Hi & Hs & _).
    destruct (sm_document row) as [stored sin|] eqn:Hd; [|simplify_eq; constructor].
    case_bool_decide; [simplify_eq; constructor|]. destruct (sm_state row); [|simplify_eq; constructor|simplify_eq; constructor].
    destruct (keep_wait _ _ _ _) as [s1 w] eqn:Hk. eapply (keep_wait_then _ _ (JobDocument stored sin) scope); [done| |exact Hk|].
    + by exists row.
    + intros Ha. by eapply accept_received_decides.
  - do 2 (eapply or_return_decides; [exact H|clear H; intros ? _ H]).
    eapply or_return_decides; [exact H|clear H; intros s1 Hr H]. apply receive_decides in Hr as [Hr Ha].
    eapply rtc_l; [exact Hr|]. by eapply accept_received_decides.
Qed.

Lemma submit_batch_decides scope key claimed spec stdins wait input s s' r : submitted s →
  submit_batch scope key claimed spec stdins wait input s = (s', r) → decisions s s'.
Proof.
  intros Hinv H. unfold submit_batch_with_stdins_scoped_for_wait in H.
  do 5 (eapply or_return_decides; [exact H|clear H; intros ? _ H]).
  destruct (find_submission s _ key) as [[i row]|] eqn:Hf.
  - apply find_submission_some in Hf as (Hi & Hs & _).
    destruct (sm_document row) as [|stored sin] eqn:Hd; [simplify_eq; constructor|].
    case_bool_decide; [simplify_eq; constructor|]. destruct (sm_state row); [|simplify_eq; constructor|simplify_eq; constructor].
    destruct (keep_wait _ _ _ _) as [s1 w] eqn:Hk. eapply (keep_wait_then _ _ (BatchDocument stored sin) scope); [done| |exact Hk|].
    + by exists row.
    + intros Ha. by eapply accept_received_batch_decides.
  - do 2 (eapply or_return_decides; [exact H|clear H; intros ? _ H]).
    eapply or_return_decides; [exact H|clear H; intros s1 Hr H]. apply receive_decides in Hr as [Hr Ha].
    eapply rtc_l; [exact Hr|]. by eapply accept_received_batch_decides.
Qed.

(** ** Resuming *)
Local Notation resume_one := (resume_one pf uuid_to_string fences_allow resolve_policy_fence resolve_fences lease_scan blob_file d store).
Local Notation resume_rows := (resume_rows pf uuid_to_string fences_allow resolve_policy_fence resolve_fences lease_scan blob_file d store).

Lemma parent_scope_key r p : names_parent uuid_to_string r → managed_parent_from_columns store (sm_parent r) = Ok p →
  scope_key (match p with None => Unmanaged | Some p => Managed p end) = sm_scope r.
Proof. intros (scope & Hs & ->) H. rewrite <-Hs. destruct scope as [|[[] [] []]]; simpl in H; by simplify_eq. Qed.

Lemma resume_one_decides inputs s i row s' r : submitted s →
  (∃ q, sb_submissions s !! i = Some q ∧ sm_document q = sm_document row ∧ sm_scope q = sm_scope row ∧ sm_parent q = sm_parent row) →
  resume_one inputs s (i, row) = (s', r) → decisions s s'.
Proof.
  intros Hinv (q & Hq & Hd & Hs & Hp) H. unfold Submission.resume_one in H.
  eapply or_return_decides; [exact H|clear H; intros p Hpar H]. rewrite <-Hp in Hpar.
  pose proof (parent_scope_key _ _ (su_parent _ _ _ _ Hinv i q Hq) Hpar) as Hkey.
  assert (awaits s i (sm_document row) (match p with None => Unmanaged | Some p => Managed p end)) as Ha by by exists q.
  cbv beta zeta in H. set (scope := match p with None => Unmanaged | Some p => Managed p end) in *. clearbody scope.
  destruct (sm_document row) as [spec stdin|spec stdins].
  - destruct (accept_received _ _ _ _ _ _ _) as [s1 r1] eqn:E. apply accept_received_decides in E; [|done].
    destruct (r1 ≫= _); [by simplify_eq|]. destruct (tolerated _); by simplify_eq.
  - destruct (accept_received_batch _ _ _ _ _ _ _) as [s1 r1] eqn:E. apply accept_received_batch_decides in E; [|done].
    destruct (r1 ≫= _); [by simplify_eq|]. destruct (tolerated _); by simplify_eq.
Qed.

Lemma resume_rows_decides inputs rows s s' r : submitted s →
  (∀ i row, (i, row) ∈ rows → ∃ q, sb_submissions s !! i = Some q ∧ sm_document q = sm_document row ∧
    sm_scope q = sm_scope row ∧ sm_parent q = sm_parent row) →
  resume_rows inputs rows s = (s', r) → decisions s s'.
Proof.
  revert s. induction rows as [|[i row] rows IH]; intros s Hinv Hrows H; cbn [Submission.resume_rows] in H; [simplify_eq; constructor|].
  destruct (resume_one _ _ _) as [s1 [u|e]] eqn:E; (apply resume_one_decides in E; [|done|apply Hrows; by left]); [|by simplify_eq].
  etrans; [exact E|]. destruct (decisions_submitted _ _ _ _ _ _ _ Hinv E) as (Hinv1 & Hl & _). apply IH in H; [done|done|].
  intros k q Hin. destruct (Hrows k q) as (q0 & Hq0 & ? & ? & ?); [by right|].
  destruct (ls_row _ _ Hl k q0 Hq0) as (q1 & Hq1 & ? & ? & ? & ? & ? & _). exists q1. split_and!; congruence.
Qed.

Lemma received_rows_found s i row : (i, row) ∈ received_rows s → sb_submissions s !! i = Some row ∧ sm_state row = SubReceived.
Proof.
  unfold received_rows. rewrite elem_of_sort_by, list_elem_of_In, filter_In, <-list_elem_of_In, elem_of_btree_entries.
  intros [H1 H2]. split; [done|by apply bool_decide_eq_true in H2].
Qed.
End operations.
