(* ===== verification/SubmissionHistory.v ===== *)
(** * SubmissionHistory: histories of submissions

    A [system_step] is a submission, a stop of the daemon between the transactions of
    one, the resumption after a restart, or any transaction on the jobs that were
    accepted.  In every history a key of a scope names one submission, an accepted
    submission has one job per member, retries find the receipt of the first answer, and
    managed jobs lie within the policies of all their ancestors. *)
From S2P Require Import Prelude Spec Validate Batch Kernel Scoped ScopedFacts Observation Machine MachineStore Reservation ReservationFacts Columns.
From S2P Require Import Native ConditionStore ProcessRecords Lifecycle Schedule Release NativeRecovery Life LifeFacts.
From S2P Require Import Refinement NativeHistory Kept KeptFacts Policy PolicyFacts ManagedWait ManagedWaitFacts Submission SubmissionFacts SubmissionRefinement.

#[local] Arguments accept_received : simpl never.
#[local] Arguments receive : simpl never.

(** What the file system and the database answer during one step. *)
Record World := {
  wo_policy_fence : string → result string ResolvedPolicyFence;
  wo_fences : list string → result StoreError (gset string);
  wo_lease_scan : gmap Uuid Lease → list Lease;
  wo_blob_file : string → result StoreError (N * string);
}.

Definition empty_system (t : Tables) : SubmitStore :=
  {| sb_native := empty_store t; sb_submissions := ∅; sb_batches := ∅; sb_origins := ∅ |}.

Section history.
Context (caps : ResourceCapacities) (rules : gmap string (list string)).
Context (pf : Platform) (uuid_to_string : Uuid → string).
Context (condition_json : ConditionSpec → string) (blockers_json : list Blocker → string).
Context (fences_allow : list ResolvedPolicyFence → string → result string bool).
Context (job_hash : JobSpec → option (string * N) → result StoreError string).
Context (batch_hash : BatchSpec → gmap string (string * N) → result StoreError string).
Context (store : Uuid).
Implicit Types (s : SubmitStore) (scope : SubmissionScope) (input : SubmitInput) (w : World) (d : Daemon).

Local Notation scope_key := (scope_key uuid_to_string).
Local Notation submitted := (submitted uuid_to_string fences_allow store).
Local Notation decisions := (decisions caps rules uuid_to_string fences_allow store).

Definition submit_job w d := submit_with_stdin_scoped_for_wait pf uuid_to_string fences_allow (wo_policy_fence w) (wo_fences w)
  (wo_lease_scan w) (wo_blob_file w) job_hash d store.
Definition submit_batch w d := submit_batch_with_stdins_scoped_for_wait pf uuid_to_string fences_allow (wo_policy_fence w)
  (wo_fences w) (wo_lease_scan w) (wo_blob_file w) batch_hash d store.
Definition resume w d := resume_rows pf uuid_to_string fences_allow (wo_policy_fence w) (wo_fences w)
  (wo_lease_scan w) (wo_blob_file w) d store.
Definition recover := recover_submission_scoped uuid_to_string.

Inductive system_step s : SubmitStore → Prop :=
| sy_submit w d scope key claimed spec stdin wait input s' r :
    submit_job w d scope key claimed spec stdin wait input s = (s', r) → system_step s s'
| sy_submit_batch w d scope key claimed spec stdins wait input s' r :
    submit_batch w d scope key claimed spec stdins wait input s = (s', r) → system_step s s'
(* the daemon stops between the transactions of a submission *)
| sy_receive d scope key hash document wait input s' :
    receive uuid_to_string d store scope key hash document wait input s = Ok s' → system_step s s'
| sy_wait i durable_wait wait : system_step s (keep_wait i durable_wait wait s).1
(* a restart resumes what was received, as far as it comes *)
| sy_resume w d inputs n s' r : resume w d inputs (take n (received_rows s)) s = (s', r) → system_step s s'
(* any other transaction on native jobs, and on the tables of the coordinator *)
| sy_native w n' : native_step caps rules uuid_to_string condition_json blockers_json (wo_fences w) (sb_native s) n' →
    (∀ k, is_Some (nv_jobs n' !! k) → is_Some (nv_jobs (sb_native s) !! k)) →
    system_step s (s <| sb_native := n' |>)
| sy_machine n' : machine_step caps rules (sb_native s) n' → system_step s (s <| sb_native := n' |>).

Definition histories : SubmitStore → SubmitStore → Prop := rtc system_step.

(** ** One step *)
Lemma lasts_native s n' : columns_kept (sb_native s) n' → lasts s (s <| sb_native := n' |>).
Proof. intros Hc. split; [intros i r Hr; exists r; by split_and!|done|]. intros k j Hk. by eapply columns_some. Qed.

Lemma machine_columns n n' : machine_step caps rules n n' → columns_kept n n'.
Proof. by destruct 1. Qed.

(** A step either decides submissions or leaves what acceptance wrote alone. *)
Lemma system_step_cases s s' : submitted s → system_step s s' → decisions s s' ∨
  ∃ n', s' = s <| sb_native := n' |> ∧ columns_kept (sb_native s) n' ∧
    (sim caps rules (sb_native s) n' ∨ machine_step caps rules (sb_native s) n').
Proof.
  intros Hinv. destruct 1 as [w d scope key claimed spec stdin wait input s' r H|w d scope key claimed spec stdins wait input s' r H|
    d scope key hash document wait input s' H|i dw wait|w d inputs n s' r H|w n' H Hnew|n' H].
  - left. by eapply submit_job_decides.
  - left. by eapply submit_batch_decides.
  - left. apply rtc_once. by eapply receive_decides.
  - left. apply keep_wait_decides.
  - left. eapply resume_rows_decides; [done| |exact H]. intros i row Hin. exists row.
    split_and!; try done. apply received_rows_found. apply elem_of_take in Hin as (m & Hm & _). by eapply list_elem_of_lookup_2.
  - right. exists n'. split_and!; [done| |left; by eapply native_step_sim].
    by apply native_step_kept with (1 := H) in Hnew as [Hc _].
  - right. exists n'. split_and!; [done|by apply machine_columns|by right].
Qed.

Lemma sim_safe n n' : sim caps rules n n' → life_inv (abs n) → claims_safe caps rules (all_claims n) →
  life_inv (abs n') ∧ claims_safe caps rules (all_claims n').
Proof.
  intros Hs Hinv Hsafe. split; [by eapply sim_inv|]. destruct (Hs Hinv) as [Hsteps Hr].
  eapply claims_safe_Permutation; [symmetry; apply all_claims_held|]. rewrite Hr.
  eapply life_steps_safe; [exact Hsteps|]. eapply claims_safe_Permutation; [apply all_claims_held|done].
Qed.

Lemma system_step_inv s s' : system_step s s' → submitted s → submitted s' ∧ lasts s s' ∧
  (life_inv (abs (sb_native s)) → claims_safe caps rules (all_claims (sb_native s)) →
   life_inv (abs (sb_native s')) ∧ claims_safe caps rules (all_claims (sb_native s'))).
Proof.
  intros Hstep Hinv. destruct (system_step_cases _ _ Hinv Hstep) as [Hd|(n' & -> & Hc & Hn)].
  - destruct (decisions_submitted _ _ _ _ _ _ _ Hinv Hd) as (? & ? & Hs). split_and!; [done|done|]. by apply sim_safe.
  - split_and!; [by apply submitted_native|by apply lasts_native|]. intros Hl Hsafe. destruct Hn as [Hs|Hm]; [by eapply sim_safe|].
    by destruct Hm as [t Ht].
Qed.

Lemma histories_inv s s' : histories s s' → submitted s → submitted s' ∧ lasts s s' ∧
  (life_inv (abs (sb_native s)) → claims_safe caps rules (all_claims (sb_native s)) →
   life_inv (abs (sb_native s')) ∧ claims_safe caps rules (all_claims (sb_native s'))).
Proof.
  induction 1 as [s|s1 s2 s3 Hstep _ IH]; intros Hinv; [done|]. destruct (system_step_inv _ _ Hstep Hinv) as (H2 & Hl & Hs).
  destruct (IH H2) as (H3 & Hl3 & Hs3). split_and!; [done|by etrans|]. intros ? ?. destruct Hs as [? ?]; [done..|]. by apply Hs3.
Qed.

Lemma submitted_empty t : submitted (empty_system t).
Proof. split; simpl; intros; by rewrite ?lookup_empty in *. Qed.

(** C6: whatever is submitted, retried, interrupted, resumed and run from empty tables, a
    key of a scope names one submission, a submission that is received or rejected has no
    job, an accepted one has exactly one job per member of its document, every job comes
    from a submission and lies within the policies of its ancestors ([submitted]), and the
    tables of native jobs stay safe ([native_safe]). *)
Theorem submissions_are_decided_once t s :
  claims_safe caps rules (grant_debits t) → histories (empty_system t) s →
  submitted s ∧ native_safe caps rules (sb_native s).
Proof.
  intros Ht Hh. destruct (histories_inv _ _ Hh (submitted_empty t)) as (Hinv & _ & Hsafe). split; [done|].
  destruct Hsafe as [Hl Hc]; [apply life_inv_empty|done|]. by apply life_inv_native_safe.
Qed.

(** ** Receipts *)

(** What identifies an acceptance; state, reason and effective priority are of the moment. *)
Record same_receipt (r r' : JobReceipt) : Prop := {
  sr_submission : jr_submission_id r' = jr_submission_id r;
  sr_job : jr_job_id r' = jr_job_id r;
  sr_accepted : jr_accepted_unix_millis r' = jr_accepted_unix_millis r;
  sr_priority : jr_priority r' = jr_priority r;
  sr_parent : jr_parent r' = jr_parent r;
  sr_policy : jr_managed_policy_admission r' = jr_managed_policy_admission r;
  sr_generation : jr_daemon_generation r' = jr_daemon_generation r;
}.

Lemma receipt_lasts s s' i row job now now' r : lasts s s' → sb_submissions s !! i = Some row → sm_state row = SubAccepted →
  receipt store s i job now = Ok r → ∃ r', receipt store s' i job now' = Ok r' ∧ same_receipt r r'.
Proof.
  intros [Hrows Hor Hj] Hi Hst H. unfold receipt, accepting_daemon_generation in *.
  destruct (nv_jobs (sb_native s) !! job) as [j|] eqn:Ej; [|done]. simpl in H.
  destruct (sb_origins s !! job) as [o|] eqn:Eo; [|done]. simpl in H. destruct (Hj job j Ej) as (j' & Hj' & Hc).
  rewrite Hj', (Hor job o Eo). simpl. destruct (managed_parent_from_columns store (og_parent o)) as [p|]; [|done]. simpl in *.
  destruct (Hrows i row Hi) as (row' & Hi' & _ & _ & _ & _ & _ & Hd). rewrite Hi'. rewrite Hi in H. rewrite Hd by congruence. simpl in *.
  rewrite Hst in H |- *. rewrite (bool_decide_eq_false_2 (SubAccepted ≠ SubAccepted)) in H |- * by (intros Hn; by apply Hn). simpl in *.
  destruct (sm_daemon_generation row) as [g|]; [|done]. simpl in *. injection H as <-. eexists. split; [done|].
  injection Hc as E1 _ _ _ E2 _ _ _. by split; simpl; rewrite ?E1, ?E2.
Qed.

(** The row of a submission that was answered with a receipt. *)
Record receipted s scope (key : Uuid) (hash : string) (r : JobReceipt) (i : Uuid) (row : Submission) : Prop := {
  rc_row : sb_submissions s !! i = Some row;
  rc_scope : sm_scope row = scope_key scope;
  rc_key : sm_idempotency_key row = key;
  rc_hash : sm_payload_hash row = hash;
  rc_document : ¬ is_batch (sm_document row);
  rc_state : sm_state row = SubAccepted;
  rc_receipt : ∃ job now, sm_job_id row = Some job ∧ receipt store s i job now = Ok r;
}.

Lemma accept_received_receipted w d i spec stdin scope wait input s s' r row : submitted s →
  sb_submissions s !! i = Some row → sm_document row = JobDocument spec stdin → sm_scope row = scope_key scope →
  accept_received pf uuid_to_string fences_allow (wo_policy_fence w) (wo_fences w) (wo_lease_scan w) (wo_blob_file w) d store
    i spec stdin scope wait input s = (s', Ok r) →
  ∃ row', receipted s' scope (sm_idempotency_key row) (sm_payload_hash row) (sr_receipt r) i row'.
Proof.
  intros Hinv Hi Hd Hs H. assert (awaits uuid_to_string s i (JobDocument spec stdin) scope) as Ha by by exists row.
  pose proof H as Hdec. apply (accept_received_decides caps rules) in Hdec; [|done].
  destruct (decisions_submitted _ _ _ _ _ _ _ Hinv Hdec) as (Hinv' & Hl & _).
  destruct (ls_row _ _ Hl i row Hi) as (row' & Hi' & ? & ? & ? & Hd' & _ & _). exists row'.
  unfold accept_received, reject_now in H.
  destruct (verify_staged_input _ _ _); [|done]. destruct (resolve _ _) as [claims|]; [|done].
  destruct (resolve_owned_policy _ _) as [policy|]; [|done].
  destruct (accept_job_tx _ _ _ _ _ _ _ _ _ _ _ _ _ _ _ _) as [[s1 k]|[e|e e']] eqn:E; [|done..].
  apply (accept_job_decides caps rules) in E as [_ (q & Hq & Hst & Hjob)]; [|done].
  destruct k as [job|job]; (injection H as <- H; apply result_bind_Ok in H as (rc & Hrc & [= <-]);
    rewrite Hi' in Hq; injection Hq as <-; split; try congruence; [by rewrite Hd', Hd; intros []|by exists job, (si_receipt_now input)]).
Qed.

Lemma submit_job_receipted w d scope key claimed spec stdin wait input s s' r : submitted s →
  submit_job w d scope key claimed spec stdin wait input s = (s', Ok r) →
  JobSpec_validate pf spec = Ok tt ∧ validate_input_shape spec stdin = Ok tt ∧ job_hash spec stdin = Ok claimed ∧
  ∃ i row, receipted s' scope key claimed (sr_receipt r) i row.
Proof.
  intros Hinv H. unfold submit_job, submit_with_stdin_scoped_for_wait in H.
  destruct (JobSpec_validate pf spec) as [[]|]; [simpl in H|done]. destruct (validate_job _ _) as [[]|]; [simpl in H|done].
  destruct (validate_input_shape spec stdin) as [[]|]; [simpl in H|done].
  destruct (job_hash spec stdin) as [hash|]; [simpl in H|done].
  case_bool_decide as Hh; [done|]. subst hash. simpl in H. split_and!; [done..|].
  destruct (find_submission s _ key) as [[i row]|] eqn:Hf.
  - apply find_submission_some in Hf as (Hi & Hs & <-). destruct (sm_document row) as [stored sin|] eqn:Hd; [|done].
    case_bool_decide as Hh; [done|]. rewrite <-Hh. exists i. destruct (sm_state row) eqn:Hst; [| |done].
    + set (s1 := (keep_wait i (sm_wait_intent row) wait s).1). assert (decisions s s1) as H1 by apply keep_wait_decides.
      destruct (decisions_submitted _ _ _ _ _ _ _ Hinv H1) as (Hinv1 & Hl & _).
      destruct (ls_row _ _ Hl i row Hi) as (row1 & Hi1 & E1 & E2 & E3 & E4 & _). rewrite <-E2, <-E3.
      eapply (accept_received_receipted w d i stored sin scope); [exact Hinv1|exact Hi1|congruence|congruence|exact H].
    + injection H as <- H. destruct (sm_job_id row) as [job|] eqn:Hj; [|done]. simpl in H.
      apply result_bind_Ok in H as (rc & Hrc & [= <-]). exists row. split; try done; [by rewrite Hd; intros []|by exists job, (si_receipt_now input)].
  - destruct (check_new_submission_during_repair input); [simpl in H|done]. destruct (verify_staged_input _ _ _); [simpl in H|done].
    destruct (receive _ _ _ _ _ _ _ _ _ s) as [s1|] eqn:Hr; [simpl in H|done].
    pose proof (receive_decides caps rules _ fences_allow _ _ _ _ _ _ _ _ _ _ Hr) as [Hdec (row & Hi & Hd & Hs)].
    exists (si_submission_id input). assert (submitted s1) as Hinv1 by by eapply decision_submitted.
    assert (sm_idempotency_key row = key ∧ sm_payload_hash row = claimed) as [<- <-].
    { unfold receive in Hr. result_inv. simpl in Hi. rewrite lookup_insert_eq in Hi. by injection Hi as <-. }
    eapply accept_received_receipted; done.
Qed.

(** The row that was answered is the row a later question finds, as it was. *)
Lemma receipted_found s s' scope key hash r i row : submitted s' → lasts s s' → receipted s scope key hash r i row →
  find_submission s' (scope_key scope) key = Some (i, row).
Proof.
  intros Hinv Hl [Hi Hs Hk Hh Hd Hst _]. destruct (ls_row _ _ Hl i row Hi) as (row' & Hi' & _ & _ & _ & _ & _ & Hsame).
  rewrite Hsame in Hi' by congruence. destruct (find_submission s' _ key) as [[i' row2]|] eqn:Hf.
  - apply find_submission_some in Hf as (Hi2 & Hs2 & Hk2). assert (i' = i) as -> by (eapply (su_key _ _ _ _ Hinv); try done; congruence).
    congruence.
  - by destruct (find_submission_none _ _ _ Hf i row Hi').
Qed.

Lemma receipted_receipt s s' scope key hash r i row now : lasts s s' → receipted s scope key hash r i row →
  ∃ job r', sm_job_id row = Some job ∧ receipt store s' i job now = Ok r' ∧ same_receipt r r'.
Proof.
  intros Hl [Hi Hs Hk Hh Hd Hst (job & t & Hjob & Hr)]. destruct (receipt_lasts _ _ _ _ _ _ now _ Hl Hi Hst Hr) as (r' & ? & ?).
  by exists job, r'.
Qed.


End history.
