(* ===== verification/SubmissionDemo.v ===== *)
(** * SubmissionDemo: a job, the child it waits for, and a retry

    A job with a policy for its children is submitted, probed, started and released; it
    submits a child and waits for it; the first submission is sent again.  The runs are
    evaluated, and show that the hypotheses of the theorems about submissions hold. *)
From S2P Require Import Prelude Spec Validate ValidateFacts Batch Kernel Scoped ScopedFacts Observation Machine MachineStore.
From S2P Require Import MachineFacts ExchangeFacts Reservation ReservationFacts MachineOffer OfferFacts Columns.
From S2P Require Import Native ConditionStore ProcessRecords Lifecycle Schedule Release NativeRecovery Life LifeFacts.
From S2P Require Import Refinement NativeHistory NativeDemo Kept KeptFacts Policy PolicyFacts ManagedWait ManagedWaitFacts.
From S2P Require Import Submission SubmissionFacts SubmissionRefinement SubmissionHistory.

Module SubmissionDemo.
Import NativeDemo.

Definition store : Uuid := 7000.
Definition durable (u : Uuid) : DurableId := {| store_uuid := store; entity_uuid := u |}.
Definition fences_allow (_ : list ResolvedPolicyFence) (_ : string) : result string bool := Ok true.
Definition job_hash (spec : JobSpec) (_ : option (string * N)) : result StoreError string := Ok (job_executable spec).
Definition batch_hash (_ : BatchSpec) (_ : gmap string (string * N)) : result StoreError string := Ok "batch"%string.
(** Leases in the order of their keys, which here is the order of insertion. *)
Definition world : World :=
  {| wo_policy_fence := λ p, Ok {| rf_identity_key := p; rf_remaining_components := []; rf_display_path := p |};
     wo_fences := resolve_fences; wo_lease_scan := btree_values; wo_blob_file := λ _, Err (EIo "no such file") |}.

Definition limits (cpu : N) : ResourceClaimLimits :=
  {| lim_cpu_units := Some cpu; lim_ram_mb := None; lim_cargo_slots := None; lim_gpu_slots := None; lim_custom := ∅ |}.
Definition policy : ChildSubmissionPolicy :=
  {| cp_min_priority := 0; cp_max_priority := 3; cp_max_claims := limits 4; cp_allowed_impacts := [];
     cp_required_labels := []; cp_fences := {| cf_shared_roots := []; cf_exclusive_roots := ["/child"%string] |};
     cp_allow_observed := false; cp_allow_quiet := false; cp_allow_delegation := false |}.
Definition with_resources (executable : string) (r : ResourceClaims) (conditions : list ConditionSpec)
    (child : option ChildSubmissionPolicy) : JobSpec :=
  {| job_spec_version := 4; job_priority := 1; job_executable := executable; job_args := [];
     job_working_directory := "/work"; job_stdin := StdinEof; job_environment := Sample.environment;
     job_resources := r; job_observed := None; job_conditions := conditions;
     job_retry := {| retry_max_attempts := 2; retry_backoff_seconds := 1;
                     retry_retryable := ["process_failed"%string] |};
     job_postconditions := []; job_labels := []; job_expected_duration_seconds := None;
     job_timeout_seconds := Some 100; job_quiet := None; job_artifacts := []; job_child_submission_policy := child |}.
Definition parent_spec : JobSpec := with_resources "/bin/parent" (cpus 6) [condition] (Some policy).
Definition child_spec (cpu : N) : JobSpec :=
  with_resources "/bin/child" {| rc_cpu_units := Some cpu; rc_ram_mb := None; rc_cargo_slots := None; rc_gpu_slots := None;
    rc_custom := ∅; rc_shared_fences := []; rc_exclusive_fences := ["/child"%string]; rc_impacts := [] |} [] None.

Definition submit_input (submission job : Uuid) (now : Z) : SubmitInput :=
  {| si_submission_id := submission; si_batch_id := 0; si_job_id := λ n, job + N.of_nat n;
     si_condition_id := λ _ i, 50 + i; si_observation_id := λ _ c, c + 10; si_evaluations := λ _, evaluations now;
     si_received_ms := now; si_accepted_ms := now; si_receipt_now := now; si_repair_pending := Ok false |}.
Definition submit (s : SubmitStore) (scope : SubmissionScope) (key : Uuid) (spec : JobSpec) (wait : bool)
    (input : SubmitInput) : SubmitStore * result StoreError SubmitResult :=
  submit_job Sample.unix show fences_allow job_hash store world d scope key (job_executable spec) spec None wait input s.

(** The parent is submitted and runs. *)
Definition u0 := empty_system machine.
Definition q1 := submit u0 Unmanaged 11 parent_spec false (submit_input 21 1 1000).
Definition u1 := q1.1.
Definition on (u : SubmitStore) (n : NativeStore) : SubmitStore := u <| sb_native := n |>.
Definition p2 := prepare (sb_native u1) 1 1100 100.
Definition u2 := on u1 p2.1.
Definition parent_probe := ready p2.2.
Definition n3 := unwrap_or p2.1 (mark_started_with_ticket d p2.1 parent_probe 77 "hash" (Some identity) (Ok tt) 1150).
Definition n4 := unwrap_or n3 (settle_probe d n3 parent_probe (Some 0%Z) false 1200 1200 8001 (λ _, false) false).
Definition p5 := prepare n4 1 1300 200.
Definition parent_work := ready p5.2.
Definition n6 := unwrap_or p5.1 (record_suspended_root d p5.1 parent_work 78 "hash"
  (LinuxProcess "host" "boot" 78 1235 4026531836 1000) (Ok tt)).
Definition n7 := (run_tx n6 (authorize_condition_release show condition_json blockers_json d n6 parent_work None (release_input 1350))).1.
Definition u7 := on u1 n7.
Definition scope : SubmissionScope :=
  Managed {| mp_job_id := durable 1; mp_attempt_id := durable 100; mp_invocation_id := durable 201 |}.

Definition q8 := submit u7 scope 12 (child_spec 2) true (submit_input 22 2 1500).
Definition u8 := q8.1.
Definition q9 := submit u8 Unmanaged 11 parent_spec false (submit_input 23 3 1600).
Definition q10 := submit u7 scope 12 (child_spec 4) true (submit_input 22 2 1500).

(** What the tables say of the three submissions. *)
Definition summary (u : SubmitStore) : list (Uuid * SubmissionState * option Uuid) * list (Uuid * JobState) :=
  (map (λ x : Uuid * Submission, (x.1, sm_state x.2, sm_job_id x.2)) (btree_entries (sb_submissions u)),
   map (λ x : Uuid * Job, (x.1, nj_state x.2)) (btree_entries (nv_jobs (sb_native u)))).

Example submission_run : map summary [u1; u7; u8; q9.1] =
  [([(21, SubAccepted, Some 1)], [(1, Pending)]); ([(21, SubAccepted, Some 1)], [(1, Active)]);
   ([(21, SubAccepted, Some 1); (22, SubAccepted, Some 2)], [(1, Active); (2, Pending)]);
   ([(21, SubAccepted, Some 1); (22, SubAccepted, Some 2)], [(1, Active); (2, Pending)])].
Proof. vm_compute. reflexivity. Qed.

(** ** The run is a history *)
Notation system := (system_step caps rules Sample.unix show condition_json blockers_json fences_allow job_hash batch_hash store).
Notation run := (histories caps rules Sample.unix show condition_json blockers_json fences_allow job_hash batch_hash store).

Lemma same_jobs (n n' : NativeStore) :
  forallb (λ k, bool_decide (is_Some (nv_jobs n !! k))) (btree_keys (nv_jobs n')) = true →
  ∀ k, is_Some (nv_jobs n' !! k) → is_Some (nv_jobs n !! k).
Proof.
  intros H k Hk%elem_of_btree_keys. rewrite forallb_forall in H. apply list_elem_of_In, H in Hk. by apply bool_decide_eq_true in Hk.
Qed.
Lemma native_sys u n n' : step n n' → forallb (λ k, bool_decide (is_Some (nv_jobs n !! k))) (btree_keys (nv_jobs n')) = true →
  system (on u n) (on u n').
Proof. intros Hs Hj. apply (sy_native _ _ _ _ _ _ _ _ _ _ (on u n) world n' Hs). by apply same_jobs. Qed.

Lemma sys_step1 : system u0 u1.
Proof. eapply (sy_submit _ _ _ _ _ _ _ _ _ _ u0 world d Unmanaged 11 "/bin/parent" parent_spec None false). apply surjective_pairing. Qed.
Lemma sys_step2 : system u1 u2.
Proof.
  apply (native_sys u1 (sb_native u1) p2.1); [|vm_compute; reflexivity].
  eapply (ns_prepare _ _ _ _ _ _ _ d 1 (input 1100 100)); [apply of_host_demo|apply surjective_pairing].
Qed.
Lemma sys_step3 : system u2 (on u1 n3).
Proof.
  apply (native_sys u1 p2.1 n3); [|vm_compute; reflexivity].
  eapply ns_started; [|evaluates]. apply ownsb_spec. vm_compute. reflexivity.
Qed.
Lemma sys_step4 : system (on u1 n3) (on u1 n4).
Proof.
  apply (native_sys u1 n3 n4); [|vm_compute; reflexivity].
  eapply ns_settle_probe; [|evaluates]. apply ownsb_spec. vm_compute. reflexivity.
Qed.
Lemma sys_step5 : system (on u1 n4) (on u1 p5.1).
Proof.
  apply (native_sys u1 n4 p5.1); [|vm_compute; reflexivity].
  eapply (ns_prepare _ _ _ _ _ _ _ d 1 (input 1300 200)); [apply of_host_demo|apply surjective_pairing].
Qed.
Lemma sys_step6 : system (on u1 p5.1) (on u1 n6).
Proof. apply (native_sys u1 p5.1 n6); [|vm_compute; reflexivity]. eapply ns_suspended. evaluates. Qed.
Lemma sys_step7 : system (on u1 n6) u7.
Proof.
  apply (native_sys u1 n6 n7); [|vm_compute; reflexivity].
  eapply (ns_condition_release _ _ _ _ _ _ _ d parent_work None (release_input 1350) n7 (Authorized (Some 101350%Z) 2350)).
  vm_compute. reflexivity.
Qed.
Lemma sys_step8 : system u7 u8.
Proof. eapply (sy_submit _ _ _ _ _ _ _ _ _ _ u7 world d scope 12 "/bin/child" (child_spec 2) None true). apply surjective_pairing. Qed.

Lemma to_u8 : run u1 u8.
Proof.
  refine (rtc_l _ u1 u2 _ sys_step2 _). refine (rtc_l _ u2 (on u1 n3) _ sys_step3 _).
  refine (rtc_l _ (on u1 n3) (on u1 n4) _ sys_step4 _). refine (rtc_l _ (on u1 n4) (on u1 p5.1) _ sys_step5 _).
  refine (rtc_l _ (on u1 p5.1) (on u1 n6) _ sys_step6 _). refine (rtc_l _ (on u1 n6) u7 _ sys_step7 _).
  refine (rtc_l _ u7 u8 _ sys_step8 _). apply rtc_refl.
Qed.
Lemma from_empty : run u0 u8.
Proof. exact (rtc_l _ u0 u1 u8 sys_step1 to_u8). Qed.

(** ** Witnesses *)
Lemma submissions_are_decided_once_witness : submitted show fences_allow store u8 ∧ native_safe caps rules (sb_native u8).
Proof.
  apply (submissions_are_decided_once caps rules Sample.unix show condition_json blockers_json fences_allow job_hash batch_hash store machine u8).
  - exact nothing_granted.
  - exact from_empty.
Defined.

Definition first_result : SubmitResult := unwrap_or
  {| sr_receipt := {| jr_submission_id := durable 0; jr_job_id := durable 0; jr_job_state := Final; jr_reason_code := None;
       jr_accepted_unix_millis := 0; jr_priority := 0; jr_effective_priority := None; jr_parent := None;
       jr_managed_policy_admission := None; jr_daemon_generation := 0 |}; sr_should_schedule := false |} q1.2.


Definition parent : ManagedParent := {| mp_job_id := durable 1; mp_attempt_id := durable 100; mp_invocation_id := durable 201 |}.
Definition no_origin : JobOrigin :=
  {| og_submission_id := 0; og_batch_id := None; og_parent := (None, None, None); og_child_policy := None; og_policy_admission := None |}.
Definition child_origin : JobOrigin := default no_origin (sb_origins u8 !! 2).
Definition child_job : Job := default (accepted [] 0) (nv_jobs (sb_native u8) !! 2).


Definition wait_for (u : SubmitStore) (targets : list Uuid) : result StoreError unit :=
  validate_managed_wait_targets show resolve_fences btree_values store 900 caps rules (sb_origins u) (sb_native u)
    (Managed parent) (map durable targets).

Lemma admitted_wait_is_satisfiable_witness : wait_for u8 [2] = Ok tt ∧ ∃ held,
  awaited resolve_fences store caps rules (sb_origins u8) (sb_native u8) parent held 2.
Proof.
  assert (wait_for u8 [2] = Ok tt) as H by (vm_compute; reflexivity). split; [exact H|]. unfold wait_for in H.
  destruct (admitted_wait_is_satisfiable show resolve_fences btree_values store 900 caps rules (sb_origins u8) (sb_native u8) parent
    (map durable [2])) as (_ & _ & held & _ & Hr).
  - exact H.
  - exists held. apply Hr. apply reached_target. left.
Defined.

(** ** The lease that is read for an ancestor

    The attempt of the parent has two leases: the released one of its probe and the granted
    one of its work.  The query of [managed_ancestor_claims] takes the first row of the
    attempt, here the probe's, and the 6 units that the parent holds are not counted: a wait
    for a child of 4 units on a machine of 8 is admitted, although the child cannot start
    before the waiting parent ends. *)
Definition u10 := q10.1.
Definition held_by_parent : list ResolvedClaims := native_debits (sb_native u10).
Definition wide_child : ResolvedClaims := default claims (nj_claims <$> nv_jobs (sb_native u10) !! 2).

Example probed_ancestor_is_not_counted :
  wait_for u10 [2] = Ok tt ∧
  managed_ancestor_claims show btree_values store (sb_origins u10) (sb_native u10) parent = Ok [] ∧
  map cl_cpu_units held_by_parent = [6] ∧ cl_cpu_units wide_child = 4 ∧ cap_cpu_units caps = 8 ∧
  map blocker_code (ancestor_blockers wide_child caps held_by_parent rules) = ["blocked_by_ancestor"%string].
Proof. vm_compute. split_and!; reflexivity. Qed.

(** ** A staged input that is gone at a restart

    A received job whose blob cannot be opened is rejected and the restart goes on; a batch is
    rejected too, but the I/O error is returned, which [resume_received] does not tolerate: the
    store does not open until the next start. *)
Definition blob : string := "0123456789abcdef0123456789abcdef0123456789abcdef0123456789abcdef".
Definition file_job : JobSpec :=
  {| job_spec_version := 4; job_priority := 1; job_executable := "/bin/true"; job_args := [];
     job_working_directory := "/work"; job_stdin := StdinFile "/in"; job_environment := Sample.environment;
     job_resources := cpus 1; job_observed := None; job_conditions := [];
     job_retry := {| retry_max_attempts := 1; retry_backoff_seconds := 0; retry_retryable := [] |};
     job_postconditions := []; job_labels := []; job_expected_duration_seconds := None;
     job_timeout_seconds := Some 100; job_quiet := None; job_artifacts := []; job_child_submission_policy := None |}.
Definition file_batch : BatchSpec :=
  {| batch_spec_version := 4; batch_jobs := [{| member_name := "a"; member_spec := file_job; member_dependencies := [] |}] |}.
Definition received_store (document : Document) : SubmitStore :=
  unwrap_or u0 (receive show d store Unmanaged 13 "hash" document false (submit_input 24 4 1700) u0).
Definition restart (u : SubmitStore) : SubmitStore * result StoreError unit :=
  resume_received Sample.unix show fences_allow (wo_policy_fence world) (wo_fences world) (wo_lease_scan world) (wo_blob_file world)
    (daemon 901) store (λ i, submit_input i 5 1800) u.
Definition restarted_job := restart (received_store (JobDocument file_job (Some (blob, 3)))).
Definition restarted_batch := restart (received_store (BatchDocument file_batch {["a"%string := (blob, 3)]})).

Example missing_batch_input_stops_the_restart :
  (summary restarted_job.1).1 = [(24, SubRejected, None)] ∧ restarted_job.2 = Ok tt ∧
  (summary restarted_batch.1).1 = [(24, SubRejected, None)] ∧ restarted_batch.2 = Err (EIo "no such file") ∧
  (restart restarted_batch.1).2 = Ok tt.
Proof. vm_compute. split_and!; reflexivity. Qed.
End SubmissionDemo.
