(* ===== verification/Registry.v ===== *)
(** * Registry: the durable authority ([src/src/authority.rs],
      [src/src/authority/retirement.rs], [src/src/machine/clearance.rs],
      [src/src/bootstrap.rs])

    The registry survives a reset of the job history.  It is one file that is
    replaced atomically, with an immutable file for the body of an open commit and
    one for the audit of a retirement or of a reset.  A file holds the value that is
    written to it; lengths and digests of values are functions of the record
    [AuthorityWire].  An operation is a function from the current registry to the
    next one; [perform] publishes it.  What the file system answers is an argument,
    so that a stop of the process is an answer that fails followed by [open]. *)
From S2P Require Import Prelude Spec Validate Kernel Scoped Observation Machine MachineStore.
From S2P Require Import Reservation MachineOffer MachineRecovery Columns Native Policy.

(** [std::io::Error]; its kind is read by the retirement of a domain. *)
Inductive IoError := InvalidInput (detail : string) | OtherIo (detail : string).

#[global] Instance Command_eq_dec : EqDecision Command.
Proof. solve_decision. Defined.
#[global] Instance Request_eq_dec : EqDecision Request.
Proof. solve_decision. Defined.
#[global] Instance MachineCommitIntent_eq_dec : EqDecision MachineCommitIntent.
Proof. solve_decision. Defined.
#[global] Instance AuthorityDomains_eq_dec : EqDecision AuthorityDomains.
Proof. solve_decision. Defined.

(** ** Data *)
Inductive ParticipantRole := Executor | RuntimeAdapter.
#[global] Instance ParticipantRole_eq_dec : EqDecision ParticipantRole.
Proof. solve_decision. Defined.

Record InstallationIdentity := {
  ii_installation_nonce : Uuid;
  ii_domain_id : ExecutionDomainId;
  ii_owner_uid : N;
  ii_runtime_registration : string;
  ii_role : ParticipantRole;
}.
#[global] Instance InstallationIdentity_eq_dec : EqDecision InstallationIdentity.
Proof. solve_decision. Defined.

Record PairingRegistration := {
  pg_installation : InstallationIdentity;
  pg_manager_store_uuid : Uuid;
  pg_parent_domain : ExecutionDomainId;
  pg_budgets : gmap string N;
  pg_aliases : gmap string string;
  pg_secret : list N;   (* 32 bytes *)
}.
#[global] Instance PairingRegistration_eq_dec : EqDecision PairingRegistration.
Proof. solve_decision. Defined.

(** What the scheduler reads of a registration. *)
Definition registration_of (r : PairingRegistration) : Registration :=
  {| rg_domain_id := ii_domain_id (pg_installation r); rg_parent_domain := pg_parent_domain r;
     rg_budgets := pg_budgets r; rg_aliases := pg_aliases r |}.

Record ResetGate := {
  gate_reset_id : Uuid;
  gate_displaced_store_uuid : Uuid;
  gate_reason : string;
}.
#[global] Instance ResetGate_eq_dec : EqDecision ResetGate.
Proof. solve_decision. Defined.

Record CoordinatorHistory := {
  ch_store_uuid : Uuid;
  ch_daemon_generation : Uuid;
  ch_process_identity : ProcessIdentity;
  ch_pending_reset : option ResetGate;
}.
#[global] Instance CoordinatorHistory_eq_dec : EqDecision CoordinatorHistory.
Proof. solve_decision. Defined.
#[export] Instance CoordinatorHistory_eta : Eta CoordinatorHistory := λ r,
  {| ch_store_uuid := ch_store_uuid r; ch_daemon_generation := ch_daemon_generation r;
     ch_process_identity := ch_process_identity r; ch_pending_reset := ch_pending_reset r |}.

Record NativeAllocationSnapshot := {
  nas_grant_id : DurableId;
  nas_lease_id : Uuid;
  nas_key : option AllocationKey;
  nas_owner : AllocationOwner;
  nas_state : GrantState;
  nas_claims : Claims;
}.
#[global] Instance NativeAllocationSnapshot_eq_dec : EqDecision NativeAllocationSnapshot.
Proof. solve_decision. Defined.

Record NativeStartPermission := {
  np_allocation : NativeAllocationSnapshot;
  np_invocation_id : DurableId;
  np_containment_id : DurableId;
  np_root_identity : ProcessIdentity;
  np_creator_identity : ProcessIdentity;
  np_daemon_generation : Uuid;
  np_executable_sha256 : string;
  np_boundary_kind : string;
}.
#[global] Instance NativeStartPermission_eq_dec : EqDecision NativeStartPermission.
Proof. solve_decision. Defined.

Record BootstrapWork := {
  bw_operation_id : Uuid;
  bw_distribution : string;
  bw_user : string;
  bw_executable : string;
  bw_args : list string;
  bw_working_directory : string;
  bw_environment : gmap string string;
  bw_timeout_seconds : N;
  bw_delegate_test_cgroup : bool;
}.
#[global] Instance BootstrapWork_eq_dec : EqDecision BootstrapWork.
Proof. solve_decision. Defined.

Record BootstrapBinding := {
  bb_parent : ManagedParent;
  bb_work : BootstrapWork;
  bb_request_sha256 : string;
}.
#[global] Instance BootstrapBinding_eq_dec : EqDecision BootstrapBinding.
Proof. solve_decision. Defined.

Record BootstrapProof := {
  bp_operation_id : Uuid;
  bp_request_sha256 : string;
  bp_boot_id : string;
  bp_uid : N;
  bp_cgroup_path : string;
  bp_cgroup_inode : N;
  bp_phase : string;
  bp_root_exit_code : Z;
  bp_termination : string;
}.
#[global] Instance BootstrapProof_eq_dec : EqDecision BootstrapProof.
Proof. solve_decision. Defined.

Record AuthorityHold := {
  ah_id : Uuid;
  ah_reason : string;
  ah_requester : ProcessIdentity;
  ah_released : bool;
  ah_release_reason : option string;
  ah_released_by : option ProcessIdentity;
  ah_bootstrap : option BootstrapBinding;
  ah_cleanup_proof : option BootstrapProof;
}.
#[global] Instance AuthorityHold_eq_dec : EqDecision AuthorityHold.
Proof. solve_decision. Defined.

Record ParticipantAnchor := {
  pa_registration : PairingRegistration;
  pa_committed : bool;
  pa_next_connection_epoch : N;
  pa_session : option SessionIdentity;
  pa_accepted_sequence : N;
  pa_retired_sequence_floor : N;
}.
#[global] Instance ParticipantAnchor_eq_dec : EqDecision ParticipantAnchor.
Proof. solve_decision. Defined.
#[export] Instance ParticipantAnchor_eta : Eta ParticipantAnchor := λ r,
  {| pa_registration := pa_registration r; pa_committed := pa_committed r;
     pa_next_connection_epoch := pa_next_connection_epoch r; pa_session := pa_session r;
     pa_accepted_sequence := pa_accepted_sequence r;
     pa_retired_sequence_floor := pa_retired_sequence_floor r |}.
Definition pa_domain (a : ParticipantAnchor) : ExecutionDomainId := ii_domain_id (pg_installation (pa_registration a)).
Definition pa_nonce (a : ParticipantAnchor) : Uuid := ii_installation_nonce (pg_installation (pa_registration a)).
Definition pa_store (a : ParticipantAnchor) : Uuid := pg_manager_store_uuid (pa_registration a).

(** *** Clearance and retirement of a domain ([src/src/machine/clearance.rs]) *)
Record DomainClearanceInventory := {
  ci_machine_id : Uuid;
  ci_authority_epoch : Uuid;
  ci_installation : InstallationIdentity;
  ci_manager_store_uuid : Uuid;
  ci_session : option SessionIdentity;
  ci_committed : bool;
  ci_grants : list GrantSnapshot;
}.
#[global] Instance DomainClearanceInventory_eq_dec : EqDecision DomainClearanceInventory.
Proof. solve_decision. Defined.

Record DomainClearancePreview := { cv_inventory : DomainClearanceInventory; cv_sha256 : string }.
#[global] Instance DomainClearancePreview_eq_dec : EqDecision DomainClearancePreview.
Proof. solve_decision. Defined.

Record DomainRetirementRequest := {
  dq_operation_id : Uuid;
  dq_domain_id : ExecutionDomainId;
  dq_expected_inventory_sha256 : string;
  dq_reason : string;
  dq_accept_risk : bool;
}.
#[global] Instance DomainRetirementRequest_eq_dec : EqDecision DomainRetirementRequest.
Proof. solve_decision. Defined.

Record DomainRetirementReceipt := {
  dc_operation_id : Uuid;
  dc_domain_id : ExecutionDomainId;
  dc_manager_store_uuid : Uuid;
  dc_inventory_sha256 : string;
  dc_audit_sha256 : string;
  dc_requester : ProcessIdentity;
  dc_requester_principal : string;
  dc_reason : string;
  dc_risk_accepted : bool;
  dc_retired_unix_millis : Z;
  dc_grants_retired : N;
  dc_tickets_retired : N;
}.
#[global] Instance DomainRetirementReceipt_eq_dec : EqDecision DomainRetirementReceipt.
Proof. solve_decision. Defined.

Record DomainRetirementAudit := {
  du_preview : DomainClearancePreview;
  du_request : DomainRetirementRequest;
  du_requester : ProcessIdentity;
  du_requester_principal : string;
  du_retired_unix_millis : Z;
}.
#[global] Instance DomainRetirementAudit_eq_dec : EqDecision DomainRetirementAudit.
Proof. solve_decision. Defined.

Record RetiredDomain := {
  rt_installation_nonce : Uuid;
  rt_manager_store_uuid : Uuid;
  rt_receipt : DomainRetirementReceipt;
}.
#[global] Instance RetiredDomain_eq_dec : EqDecision RetiredDomain.
Proof. solve_decision. Defined.

Record PendingRetirement := {
  pd_operation_id : Uuid;
  pd_domain_id : ExecutionDomainId;
  pd_audit_sha256 : string;
}.
#[global] Instance PendingRetirement_eq_dec : EqDecision PendingRetirement.
Proof. solve_decision. Defined.

(** *** The registry *)
Record MachineBlob := { mb_operation_id : Uuid; mb_sha256 : string }.
#[global] Instance MachineBlob_eq_dec : EqDecision MachineBlob.
Proof. solve_decision. Defined.
(** [MachineBlob::path]: the name of the file is made of both fields. *)
Definition blob_path (b : MachineBlob) : Uuid * string := (mb_operation_id b, mb_sha256 b).

Record Registry := {
  ry_version : N;
  ry_epoch : Uuid;
  ry_anchor_epoch : option Uuid;
  ry_host : string;
  ry_holds : gmap Uuid AuthorityHold;
  ry_domains : option AuthorityDomains;
  ry_coordinator : option CoordinatorHistory;
  ry_participants : gmap ExecutionDomainId ParticipantAnchor;
  ry_machine_permissions : gmap DurableId GrantSnapshot;
  ry_native_permissions : gmap DurableId NativeStartPermission;
  ry_native_coverage_store : option Uuid;
  ry_retired_allocations : gset string;
  ry_pending_machine_commit : option MachineCommitIntent;
  ry_pending_machine_blob : option MachineBlob;
  ry_retired_domains : gmap ExecutionDomainId RetiredDomain;
  ry_pending_domain_retirement : option PendingRetirement;
}.
#[export] Instance Registry_eta : Eta Registry := λ r,
  {| ry_version := ry_version r; ry_epoch := ry_epoch r; ry_anchor_epoch := ry_anchor_epoch r;
     ry_host := ry_host r; ry_holds := ry_holds r; ry_domains := ry_domains r;
     ry_coordinator := ry_coordinator r; ry_participants := ry_participants r;
     ry_machine_permissions := ry_machine_permissions r; ry_native_permissions := ry_native_permissions r;
     ry_native_coverage_store := ry_native_coverage_store r;
     ry_retired_allocations := ry_retired_allocations r;
     ry_pending_machine_commit := ry_pending_machine_commit r;
     ry_pending_machine_blob := ry_pending_machine_blob r; ry_retired_domains := ry_retired_domains r;
     ry_pending_domain_retirement := ry_pending_domain_retirement r |}.

Record AuthorityStorageBudget := {
  sg_registry_bytes : N;
  sg_registry_limit_bytes : N;
  sg_reserved_recovery_bytes : N;
  sg_new_admission_headroom_bytes : N;
}.
#[global] Instance AuthorityStorageBudget_eq_dec : EqDecision AuthorityStorageBudget.
Proof. solve_decision. Defined.

Record AuthoritySnapshot := {
  ss_epoch : option Uuid;
  ss_domains : option AuthorityDomains;
  ss_coordinator : option CoordinatorHistory;
  ss_machine_obligations : list GrantSnapshot;
  ss_native_obligations : list NativeStartPermission;
  ss_native_coverage_store : option Uuid;
  ss_pending_machine_operation : option Uuid;
  ss_retired_domains : list DomainRetirementReceipt;
  ss_storage_budget : option AuthorityStorageBudget;
  ss_blocker : option string;
  ss_detail : option string;
  ss_holds : list AuthorityHold;
}.
#[global] Instance AuthoritySnapshot_eq_dec : EqDecision AuthoritySnapshot.
Proof. solve_decision. Defined.

(** ** Files *)
Record Envelope := { ev_payload : Registry; ev_sha256 : string }.

Inductive Doc (A : Type) := Unreadable (detail : string) | Written (value : A).
Arguments Unreadable {A} detail.
Arguments Written {A} value.

Record AuthorityFiles := {
  af_anchor : option (Doc (N * Uuid * string));
  af_registry : option (Doc Envelope);
  af_blobs : gmap (Uuid * string) (Doc MachineCommitIntent);
  af_audits : gmap Uuid (Doc DomainRetirementAudit);
  af_resets : gmap (Uuid * string) (Doc AuthoritySnapshot);
}.
#[export] Instance AuthorityFiles_eta : Eta AuthorityFiles := λ r,
  {| af_anchor := af_anchor r; af_registry := af_registry r; af_blobs := af_blobs r;
     af_audits := af_audits r; af_resets := af_resets r |}.

(** [State] and [Authority]; the directory is its files. *)
Inductive RegistryState := StUninitialized | StReady (r : Registry) | StUnknown (detail : string).

Record DurableAuthority := { da_files : AuthorityFiles; da_host : string; da_state : RegistryState }.
#[export] Instance DurableAuthority_eta : Eta DurableAuthority := λ r,
  {| da_files := da_files r; da_host := da_host r; da_state := da_state r |}.

Definition MAX_DOMAINS : N := 256.
Definition MAX_REGISTRY_BYTES : N := 4 * 1024 * 1024.
Definition MAX_HOLDS : N := 1024.
Definition MAX_MACHINE_JOURNAL_BYTES : N := 32 * 1024 * 1024.
Definition REGISTRY_COMMIT_HEADROOM : N := 1024 * 1024.
Definition MAX_RETIRED_DOMAINS : N := 4096.

(** What [serde_json] and [sha2] compute of the values.  [aw_registry_len] is the
    length of the envelope: the digest in it has a fixed width. *)
Record AuthorityWire := {
  aw_anchor_len : N * Uuid * string → N;
  aw_registry_hash : Registry → string;
  aw_registry_len : Registry → N;
  aw_intent_hash : MachineCommitIntent → string;
  aw_intent_len : MachineCommitIntent → N;
  aw_key_hash : AllocationKey → string;
  aw_inventory_hash : DomainClearanceInventory → string;
  aw_audit_hash : DomainRetirementAudit → string;
  aw_audit_len : DomainRetirementAudit → N;
  aw_receipt_len : DomainRetirementReceipt → N;
  aw_snapshot_hash : AuthoritySnapshot → string;
  aw_admission_len : list AuthorityHold → list PairingRegistration → gmap DurableId GrantSnapshot →
    gmap DurableId NativeStartPermission → N;
  aw_work_hash : BootstrapWork → string;
  aw_work_len : BootstrapWork → N;
  aw_is_uuid : string → bool;
}.

Section registry.
Context (w : AuthorityWire).
Implicit Types (r : Registry) (a : DurableAuthority) (fs : AuthorityFiles) (domain : ExecutionDomainId).

(** ** Bootstrap work ([src/src/bootstrap.rs]) *)
Definition validate_binding (b : BootstrapBinding) : result IoError unit :=
  let k := bb_work b in
  guard_err (bool_decide (8192 < aw_work_len w k)
             || negb (bool_decide (1 ≤ bw_timeout_seconds k ≤ 86400))
             || bool_decide (bw_operation_id k ≠ entity_uuid (mp_invocation_id (bb_parent b)))
             || bool_decide (bw_distribution k = ""%string) || bool_decide (bw_user k = ""%string)
             || negb (starts_with "/" (bw_executable k)) || negb (starts_with "/" (bw_working_directory k))
             || existsb contains_nul ([bw_distribution k; bw_user k; bw_executable k; bw_working_directory k]
                  ++ bw_args k ++ btree_values (bw_environment k))
             || existsb (λ key, bool_decide (key = ""%string) || contains_any [Ascii.ascii_of_N 61; nul] key)
                  (btree_keys (bw_environment k))
             || bool_decide (aw_work_hash w k ≠ bb_request_sha256 b))
    (OtherIo "invalid bootstrap descriptor, identity, or payload hash").

Definition validate_proof (b : BootstrapBinding) (p : BootstrapProof) : result IoError unit :=
  guard_err (bool_decide (bp_operation_id p ≠ bw_operation_id (bb_work b))
             || bool_decide (bp_request_sha256 p ≠ bb_request_sha256 b)
             || bool_decide (bp_phase p ≠ "sealed_empty"%string)
             || negb (aw_is_uuid w (bp_boot_id p))
             || negb (starts_with "/sys/fs/cgroup/" (bp_cgroup_path p))
             || negb (ends_with "/work" (bp_cgroup_path p))
             || bool_decide (4096 < len (bp_cgroup_path p)) || contains_nul (bp_cgroup_path p)
             || bool_decide (bp_cgroup_inode p = 0)
             || negb (bool_decide (bp_termination p ∈
                  ["exited"; "canceled"; "timed_out"; "intermediary_lost"]%string)))
    (OtherIo "bootstrap proof identity or seal is invalid").

(** ** Receipts *)
Definition preview_of (inventory : DomainClearanceInventory) : DomainClearancePreview :=
  {| cv_inventory := inventory; cv_sha256 := aw_inventory_hash w inventory |}.

(** [u32::try_from]. *)
Definition as_u32 (n : nat) : result IoError N :=
  if decide (N.of_nat n ≤ u32_max) then Ok (N.of_nat n) else Err (OtherIo "out of range integral type conversion attempted").

Definition audit_receipt (d : DomainRetirementAudit) : result IoError DomainRetirementReceipt :=
  let q := du_request d in
  let inventory := cv_inventory (du_preview d) in
  grants ← as_u32 (length (ci_grants inventory));
  tickets ← as_u32 (sum_list (map (λ g, length (gs_tickets g)) (ci_grants inventory)));
  Ok {| dc_operation_id := dq_operation_id q; dc_domain_id := dq_domain_id q;
        dc_manager_store_uuid := ci_manager_store_uuid inventory;
        dc_inventory_sha256 := cv_sha256 (du_preview d); dc_audit_sha256 := aw_audit_hash w d;
        dc_requester := du_requester d; dc_requester_principal := du_requester_principal d;
        dc_reason := dq_reason q; dc_risk_accepted := dq_accept_risk q;
        dc_retired_unix_millis := du_retired_unix_millis d;
        dc_grants_retired := grants; dc_tickets_retired := tickets |}.

(** ** Budgets *)
Definition valid_reason (reason : string) : bool :=
  negb (bool_decide (reason = ""%string)) && bool_decide (len reason ≤ 1024) && negb (contains_nul reason).

Definition open_holds r : list AuthorityHold := List.filter (λ h, negb (ah_released h)) (btree_values (ry_holds r)).

Definition reserved_retirement_bytes r : N :=
  N.of_nat (length (List.filter (λ id, bool_decide (ry_retired_domains r !! id = None))
                                (btree_keys (ry_participants r)))) * 16 * 1024.
Definition reserved_recovery_bytes r : N :=
  reserved_retirement_bytes r + N.of_nat (length (open_holds r)) * 64 * 1024.

Definition storage_budget r : AuthorityStorageBudget :=
  let bytes := aw_registry_len w (r <| ry_pending_machine_commit := None |>) in
  let reserved := reserved_recovery_bytes r in
  {| sg_registry_bytes := bytes; sg_registry_limit_bytes := MAX_REGISTRY_BYTES;
     sg_reserved_recovery_bytes := reserved;
     sg_new_admission_headroom_bytes :=
       N.min (saturating_sub (MAX_REGISTRY_BYTES - REGISTRY_COMMIT_HEADROOM) bytes)
             (saturating_sub (MAX_REGISTRY_BYTES - 256 * 1024) (saturating_add bytes reserved)) |}.

Definition admission_bytes r : N :=
  aw_admission_len w (open_holds r) (map pa_registration (btree_values (ry_participants r)))
    (ry_machine_permissions r) (ry_native_permissions r).

(** [encode_registry]: the payload of the envelope, and the blob with its name. *)
Definition encode_registry r : result IoError (Registry * option (MachineBlob * MachineCommitIntent)) :=
  enc ← match ry_pending_machine_commit r with
        | Some intent =>
            _ ← guard_err (bool_decide (MAX_MACHINE_JOURNAL_BYTES < aw_intent_len w intent))
                  (InvalidInput "machine commit exceeds durable journal byte budget");
            let blob := {| mb_operation_id := rq_operation_id (mi_request intent);
                           mb_sha256 := aw_intent_hash w intent |} in
            Ok (r <| ry_pending_machine_commit := None |> <| ry_pending_machine_blob := Some blob |>,
                Some (blob, intent))
        | None => Ok (r <| ry_pending_machine_blob := None |>, None)
        end;
  _ ← guard_err (bool_decide (MAX_REGISTRY_BYTES < aw_registry_len w enc.1))
        (InvalidInput "authority registry exceeds durable byte budget; retire existing obligations");
  Ok enc.

Definition check_publication a r : result IoError (Registry * option (MachineBlob * MachineCommitIntent)) :=
  encoded ← encode_registry r;
  _ ← match da_state a with
      | StReady old =>
          encoded_old ← encode_registry old;
          let bytes := aw_registry_len w encoded.1 in
          let future := bytes + reserved_recovery_bytes r in
          let prior_future := aw_registry_len w encoded_old.1 + reserved_recovery_bytes old in
          _ ← guard_err (bool_decide (MAX_REGISTRY_BYTES < future) && bool_decide (prior_future < future))
                (InvalidInput "authority metadata growth would consume reserved cleanup space");
          guard_err (bool_decide (admission_bytes old < admission_bytes r)
                     && (bool_decide (MAX_REGISTRY_BYTES - REGISTRY_COMMIT_HEADROOM < bytes)
                         || bool_decide (MAX_REGISTRY_BYTES - 256 * 1024 < future)))
            (InvalidInput "authority admission budget reached; reserved space is for cleanup and session recovery")
      | _ => Ok tt
      end;
  Ok encoded.

(** ** Publication

    What the file system answers to a publication: the write of the audit file, of
    the blob and of the registry each succeed ([None]) or fail with the file
    replaced or not; blobs that cannot be removed stay. *)
Record PublishIo := {
  io_side_fails : option bool;
  io_blob_fails : option bool;
  io_registry_fails : option bool;
  io_undeleted : Uuid * string → bool;
}.

(** [atomic_write]. *)
Definition atomic_write (fails : option bool) (write : AuthorityFiles → AuthorityFiles) fs
    : AuthorityFiles * result IoError unit :=
  match fails with
  | None => (write fs, Ok tt)
  | Some durable => (if durable then write fs else fs, Err (OtherIo "write failed"))
  end.

Definition write_blob io fs (blob : option (MachineBlob * MachineCommitIntent))
    : AuthorityFiles * result IoError unit :=
  match blob with
  | None => (fs, Ok tt)
  | Some (reference, contents) =>
      match af_blobs fs !! blob_path reference with
      | Some (Written old) =>
          (fs, guard_err (bool_decide (old ≠ contents)) (OtherIo "immutable machine commit blob changed"))
      | Some (Unreadable detail) => (fs, Err (OtherIo detail))
      | None => atomic_write (io_blob_fails io)
                  (λ fs, fs <| af_blobs ::= <[blob_path reference := Written contents]> |>) fs
      end
  end.

(** [prune_machine_blobs]: files with the name of a commit that is not open. *)
Definition prune_machine_blobs (undeleted : Uuid * string → bool) a : DurableAuthority :=
  match da_state a with
  | StReady r =>
      let keep := blob_path <$> ry_pending_machine_blob r in
      a <| da_files ::= λ fs, fs <| af_blobs ::= filter (λ p : (Uuid * string) * Doc MachineCommitIntent,
        is_digest p.1.2 && bool_decide (keep ≠ Some p.1) && negb (undeleted p.1) = false) |> |>
  | _ => a
  end.

Definition publish (io : PublishIo) a (registry : Registry) : DurableAuthority * result IoError unit :=
  match check_publication a registry with
  | Err e => (a, Err e)
  | Ok (payload, blob) =>
      let previous := match da_state a with StReady old => ry_pending_machine_blob old | _ => None end in
      let next := registry <| ry_pending_machine_blob := fst <$> blob |> in
      match write_blob io (da_files a) blob with
      | (fs, Err e) => (a <| da_files := fs |>, Err e)
      | (fs, Ok _) =>
          let envelope := {| ev_payload := payload; ev_sha256 := aw_registry_hash w payload |} in
          match atomic_write (io_registry_fails io) (λ fs, fs <| af_registry := Some (Written envelope) |>) fs with
          | (fs, Err e) =>
              (a <| da_files := fs |> <| da_state := StUnknown "authority publication outcome is uncertain" |>, Err e)
          | (fs, Ok _) =>
              let a := a <| da_files := fs |> <| da_state := StReady next |> in
              let a := match previous with
                       | Some old =>
                           if bool_decide ((λ b, mb_sha256 b.1) <$> blob = Some (mb_sha256 old)) then a
                           else if io_undeleted io (blob_path old) then a
                           else a <| da_files ::= λ fs, fs <| af_blobs ::= delete (blob_path old) |> |>
                       | None => a end in
              (prune_machine_blobs (io_undeleted io) a, Ok tt)
          end
      end
  end.
End registry.
