(* ===== verification/RegistryOps.v ===== *)
(** * RegistryOps: the operations of the authority ([src/src/authority.rs],
      [src/src/authority/retirement.rs])

    Each operation maps the current registry to the next one; [perform] publishes
    the result.  Operations that answer with a snapshot answer with [snapshot] of the
    authority they leave.  Fresh identities and the clock are arguments. *)
From S2P Require Import Prelude Spec Validate Kernel Scoped Observation Machine MachineStore.
From S2P Require Import Reservation MachineOffer MachineRecovery Columns Native Policy Registry.

(** The audit files that are written before a publication. *)
Inductive SideFile :=
| AuditFile (operation : Uuid) (audit : DomainRetirementAudit)
| ResetFile (name : Uuid * string) (expected : AuthoritySnapshot).

Inductive Update :=
| Unchanged
| Publish (next : Registry)
| PublishAfter (file : SideFile) (next : Registry).

Section operations.
Context (w : AuthorityWire).
Implicit Types (r : Registry) (a : DurableAuthority) (fs : AuthorityFiles) (domain : ExecutionDomainId).

(** ** Queries *)
Definition is_retired_domain a domain : bool :=
  match da_state a with StReady r => bool_decide (is_Some (ry_retired_domains r !! domain)) | _ => false end.

Definition retired_receipt r domain : option DomainRetirementReceipt :=
  if bool_decide (pd_domain_id <$> ry_pending_domain_retirement r = Some domain) then None
  else rt_receipt <$> ry_retired_domains r !! domain.
Definition retired_domain_receipt a domain : option DomainRetirementReceipt :=
  match da_state a with StReady r => retired_receipt r domain | _ => None end.

(** [find_map]. *)
Fixpoint find_map {A B} (f : A → option B) (l : list A) : option B :=
  match l with [] => None | x :: l => match f x with Some y => Some y | None => find_map f l end end.

Definition retired_installation_receipt a (nonce store : Uuid) : option DomainRetirementReceipt :=
  match da_state a with
  | StReady r =>
      find_map (λ p : ExecutionDomainId * RetiredDomain, retired_receipt r p.1)
        (List.filter (λ p : ExecutionDomainId * RetiredDomain,
           bool_decide (rt_installation_nonce p.2 = nonce) || bool_decide (rt_manager_store_uuid p.2 = store))
           (btree_entries (ry_retired_domains r)))
  | _ => None
  end.

Definition pending_installation_retirement a (nonce store : Uuid) : option Uuid :=
  match da_state a with
  | StReady r =>
      pending ← ry_pending_domain_retirement r;
      retired ← ry_retired_domains r !! pd_domain_id pending;
      if bool_decide (rt_installation_nonce retired = nonce) || bool_decide (rt_manager_store_uuid retired = store)
      then Some (pd_operation_id pending) else None
  | _ => None
  end.

Definition participants a : result IoError (list ParticipantAnchor) :=
  match da_state a with
  | StReady r => Ok (btree_values (ry_participants r))
  | _ => Err (OtherIo "machine authority history is unavailable")
  end.

Definition pending_machine_commit a : result IoError (option MachineCommitIntent) :=
  match da_state a with
  | StReady r => Ok (ry_pending_machine_commit r)
  | _ => Err (OtherIo "authority history unavailable")
  end.

(** [read_with_limit]. *)
Definition read_with_limit {A} (file : option (Doc A)) (length : A → N) (limit : N) : result IoError A :=
  match file with
  | None => Err (OtherIo "not found")
  | Some (Unreadable detail) => Err (OtherIo detail)
  | Some (Written v) =>
      _ ← guard_err (bool_decide (limit < length v)) (OtherIo "authority record exceeds byte limit");
      Ok v
  end.

Definition read_audit fs (operation : Uuid) : result IoError DomainRetirementAudit :=
  read_with_limit (af_audits fs !! operation) (aw_audit_len w) MAX_MACHINE_JOURNAL_BYTES.

Definition pending_domain_retirement a : result IoError (option DomainRetirementAudit) :=
  match da_state a with
  | StReady r =>
      match ry_pending_domain_retirement r with
      | None => Ok None
      | Some pending =>
          audit ← read_audit (da_files a) (pd_operation_id pending);
          _ ← guard_err (bool_decide (aw_audit_hash w audit ≠ pd_audit_sha256 pending)
                         || bool_decide (dq_operation_id (du_request audit) ≠ pd_operation_id pending)
                         || bool_decide (dq_domain_id (du_request audit) ≠ pd_domain_id pending))
                (OtherIo "pending retirement audit identity/checksum differs");
          Ok (Some audit)
      end
  | _ => Ok None
  end.

Definition domain_clearance_preview r domain : result IoError DomainClearancePreview :=
  _ ← guard_err (bool_decide (is_Some (ry_pending_machine_commit r)))
        (OtherIo "reconcile the pending machine commit before taking a clearance preview");
  p ← ok_or (ry_participants r !! domain) (OtherIo "paired domain is absent");
  domains ← ok_or (ry_domains r) (OtherIo "machine topology is unavailable");
  Ok (preview_of w
        {| ci_machine_id := ad_machine_id domains; ci_authority_epoch := ry_epoch r;
           ci_installation := pg_installation (pa_registration p);
           ci_manager_store_uuid := pg_manager_store_uuid (pa_registration p);
           ci_session := pa_session p; ci_committed := pa_committed p;
           ci_grants := List.filter (λ g, bool_decide (ak_domain_id (cd_key (gs_candidate g)) = domain))
                                    (btree_values (ry_machine_permissions r)) |}).

Definition is_pending_reset r : bool :=
  bool_decide (is_Some (ry_coordinator r ≫= ch_pending_reset)).

Definition admission_blocker a : option (string * string) :=
  match da_state a with
  | StUninitialized => Some ("authority_uninitialized", "Explicit owner initialization with no outstanding work is required")%string
  | StUnknown detail => Some ("authority_history_unknown"%string, detail)
  | StReady r =>
      if bool_decide (is_Some (ry_pending_domain_retirement r)) then
        Some ("authority_retirement_pending", "An owner-audited domain retirement must finish its durable SQL commit")%string
      else if bool_decide (is_Some (ry_pending_machine_commit r)) then
        Some ("authority_commit_pending", "A potentially used machine permission requires its durable SQLite commit to be reconciled")%string
      else if existsb (λ p, negb (pa_committed p)) (btree_values (ry_participants r)) then
        Some ("authority_pairing_incomplete", "Pairing intent is durable; replay the same owner registration to reconcile its SQLite commit")%string
      else if is_pending_reset r then
        Some ("authority_reconciliation_required", "Coordinator history was reset; every potentially used allocation requires reconciliation")%string
      else if existsb (λ h, negb (ah_released h)) (btree_values (ry_holds r)) then
        Some ("authority_held", "Durable admission hold; process exit and store reset do not release it")%string
      else None
  end.

Definition closed_snapshot (blocker detail : string) : AuthoritySnapshot :=
  {| ss_epoch := None; ss_domains := None; ss_coordinator := None; ss_machine_obligations := [];
     ss_native_obligations := []; ss_native_coverage_store := None; ss_pending_machine_operation := None;
     ss_retired_domains := []; ss_storage_budget := None; ss_blocker := Some blocker;
     ss_detail := Some detail; ss_holds := [] |}.

Definition budget_warning : string :=
  "legacy authority exceeds reserved cleanup byte budget; preserve its files and inspect storage_budget before attempting releases".

Definition snapshot a : AuthoritySnapshot :=
  match da_state a with
  | StUninitialized => closed_snapshot "authority_uninitialized"
                         "Explicit owner initialization with no outstanding work is required"
  | StUnknown detail => closed_snapshot "authority_history_unknown" detail
  | StReady r =>
      let blocker := admission_blocker a in
      let budget := storage_budget w r in
      let detail := snd <$> blocker in
      {| ss_epoch := Some (ry_epoch r); ss_domains := ry_domains r; ss_coordinator := ry_coordinator r;
         ss_machine_obligations := btree_values (ry_machine_permissions r);
         ss_native_obligations := btree_values (ry_native_permissions r);
         ss_native_coverage_store := ry_native_coverage_store r;
         ss_pending_machine_operation :=
           match ry_pending_machine_commit r with
           | Some intent => Some (rq_operation_id (mi_request intent))
           | None => pd_operation_id <$> ry_pending_domain_retirement r end;
         ss_retired_domains := omap (λ p : ExecutionDomainId * RetiredDomain, retired_receipt r p.1)
                                    (btree_entries (ry_retired_domains r));
         ss_storage_budget := Some budget; ss_blocker := fst <$> blocker;
         ss_detail :=
           if bool_decide (sg_registry_limit_bytes budget
                < saturating_add (sg_registry_bytes budget) (sg_reserved_recovery_bytes budget))
           then Some (match detail with Some d => d +:+ "; " +:+ budget_warning | None => budget_warning end)
           else detail;
         ss_holds := btree_values (ry_holds r) |}
  end.

(** ** Native start permissions *)
Definition record_native_start (permission : NativeStartPermission) r : result IoError Update :=
  let allocation := np_allocation permission in
  match ry_native_permissions r !! np_invocation_id permission with
  | Some old =>
      if bool_decide (old = permission) then Ok Unchanged
      else Err (OtherIo "native Invocation already names another root or allocation")
  | None =>
      key ← ok_or (nas_key allocation) (OtherIo "native allocation authority identity unavailable");
      let store := ak_manager_store_uuid key in
      _ ← guard_err (bool_decide (ry_epoch r ≠ ak_authority_epoch key)
                     || bool_decide (ry_native_coverage_store r ≠ Some store)
                     || match ry_domains r with
                        | None => true
                        | Some d => bool_decide (ad_machine_id d ≠ ak_machine_id key)
                                    || bool_decide (ad_native_domain d ≠ ak_domain_id key) end
                     || match ry_coordinator r with
                        | None => true
                        | Some c => bool_decide (ch_store_uuid c ≠ store)
                                    || bool_decide (is_Some (ch_pending_reset c)) end
                     || bool_decide (store_uuid (np_invocation_id permission) ≠ store)
                     || bool_decide (store_uuid (np_containment_id permission) ≠ store)
                     || bool_decide (entity_uuid (nas_grant_id allocation) ≠ ak_lease_id key))
            (OtherIo "native start does not belong to this continuous authority");
      _ ← guard_err (bool_decide (store_uuid (nas_grant_id allocation) ≠ store)
                     || bool_decide (nas_lease_id allocation ≠ ak_lease_id key)
                     || bool_decide (nas_state allocation ≠ Armed))
            (OtherIo "native permission does not name its granted Lease");
      _ ← guard_err (bool_decide (65536 ≤ N.of_nat (size (ry_native_permissions r))))
            (OtherIo "native start registry exhausted; cleanup must reconcile");
      Ok (Publish (r <| ry_native_permissions ::= <[np_invocation_id permission := permission]> |>))
  end.

Definition record_reset (reset_id : Uuid) (reason : string) r : Update :=
  match ry_coordinator r with
  | None => Unchanged
  | Some history =>
      if bool_decide (is_Some (ch_pending_reset history)) then Unchanged
      else Publish (r <| ry_coordinator := Some (history <| ch_pending_reset := Some
             {| gate_reset_id := reset_id; gate_displaced_store_uuid := ch_store_uuid history;
                gate_reason := reason |} |>) |>)
  end.

Definition establish_native_coverage (reset_id store : Uuid) (empty : bool) r : Update :=
  if bool_decide (is_Some (ry_native_coverage_store r))
     || match ry_coordinator r with
        | None => true
        | Some c => bool_decide (ch_store_uuid c ≠ store) || bool_decide (is_Some (ch_pending_reset c)) end
  then Unchanged
  else if negb empty then
    record_reset reset_id "native start history predates external coverage and is not empty" r
  else Publish (r <| ry_native_coverage_store := Some store |>).

Definition retire_native_starts (proven : list DurableId) r : Update :=
  if negb (existsb (λ id, bool_decide (is_Some (ry_native_permissions r !! id))) proven) then Unchanged
  else Publish (r <| ry_native_permissions ::= λ m, foldl (λ m id, delete id m) m proven |>).

(** ** The commit journal *)
Definition propose_grant (next : result IoError Registry) (grant : GrantSnapshot) : result IoError Registry :=
  next ← next;
  if bool_decide (gs_state grant = Released) then Ok next
  else
    _ ← guard_err (bool_decide (aw_key_hash w (cd_key (gs_candidate grant)) ∈ ry_retired_allocations next))
          (OtherIo "retired allocation cannot acquire new start rights");
    _ ← guard_err (existsb (λ old, bool_decide (cd_key (gs_candidate old) = cd_key (gs_candidate grant))
                       && (bool_decide (gs_grant_id old ≠ gs_grant_id grant)
                           || bool_decide (gs_offer_nonce old ≠ gs_offer_nonce grant)))
                     (btree_values (ry_machine_permissions next)))
          (OtherIo "allocation already owns another potentially used Grant");
    Ok (next <| ry_machine_permissions ::= <[gs_grant_id grant := grant]> |>).

Definition proposed_machine_commit (intent : MachineCommitIntent) r : result IoError Registry :=
  let s := rq_session (mi_request intent) in
  _ ← guard_err (bool_decide (is_Some (ry_retired_domains r !! se_domain_id s)))
        (OtherIo "retired domain cannot commit machine operations");
  _ ← guard_err (bool_decide (is_Some (ry_pending_domain_retirement r)))
        (OtherIo "pending domain retirement must finish before a machine commit");
  anchor ← ok_or (ry_participants r !! se_domain_id s) (OtherIo "machine commit participant anchor is absent");
  _ ← guard_err (negb (pa_committed anchor) || bool_decide (pa_session anchor ≠ Some s))
        (OtherIo "machine commit session was fenced");
  match ry_pending_machine_commit r with
  | Some pending =>
      if bool_decide (pending = intent) then Ok r
      else Err (OtherIo "another machine commit requires reconciliation")
  | None =>
      next ← foldl propose_grant (Ok r) (mi_grants intent);
      Ok (next <| ry_pending_machine_commit := Some intent |>)
  end.

Definition prepare_machine_commit intent r : result IoError Update :=
  next ← proposed_machine_commit intent r; Ok (Publish next).

(** [check_machine_commit]: a proposal that would be published. *)
Definition check_machine_commit intent a : result IoError unit :=
  match da_state a with
  | StReady r => next ← proposed_machine_commit intent r; _ ← check_publication w a next; Ok tt
  | _ => Err (OtherIo "authority history unavailable")
  end.

Definition retire_grant (next : Registry) (grant : GrantSnapshot) : Registry :=
  if bool_decide (gs_state grant = Released) then
    next <| ry_retired_allocations ::= λ s, {[aw_key_hash w (cd_key (gs_candidate grant))]} ∪ s |>
         <| ry_machine_permissions ::= delete (gs_grant_id grant) |>
  else next.

Definition finish_machine_commit (operation : Uuid) r : result IoError Update :=
  match ry_pending_machine_commit r with
  | None => Ok Unchanged
  | Some intent =>
      let q := mi_request intent in
      let domain := se_domain_id (rq_session q) in
      _ ← guard_err (bool_decide (rq_operation_id q ≠ operation)) (OtherIo "machine commit identity changed");
      let next := (foldl retire_grant r (mi_grants intent)) <| ry_pending_machine_commit := None |> in
      anchor ← ok_or (ry_participants next !! domain) (OtherIo "machine commit participant anchor missing");
      let anchor := anchor <| pa_accepted_sequence ::= N.max (rq_request_sequence q) |> in
      anchor ← match mi_outcome intent with
               | Acknowledged through =>
                   _ ← guard_err (bool_decide (rq_request_sequence q ≤ through))
                         (OtherIo "invalid journaled acknowledgement");
                   Ok (anchor <| pa_retired_sequence_floor ::= N.max through |>)
               | _ => Ok anchor
               end;
      Ok (Publish (next <| ry_participants ::= <[domain := anchor]> |>))
  end.

(** [retirement_candidates] and [compact_machine_retirements]. *)
Definition retirement_candidates (store : Uuid) r : gset string :=
  if bool_decide (ry_pending_machine_commit r = None)
     && match ry_coordinator r with
        | Some h => bool_decide (ch_store_uuid h = store) && bool_decide (ch_pending_reset h = None)
        | None => false end
  then ry_retired_allocations r else ∅.

Definition compact_machine_retirements (store : Uuid) (proven : gset string) r : Update :=
  if bool_decide (retirement_candidates store r ∩ proven = ∅) then Unchanged
  else Publish (r <| ry_retired_allocations ::= λ s, s ∖ proven |>).

(** ** Sessions and sequences of participants *)
Definition committed_anchor r domain : result IoError ParticipantAnchor :=
  anchor ← ok_or (ry_participants r !! domain) (OtherIo "participant anchor missing");
  _ ← guard_err (negb (pa_committed anchor)) (OtherIo "participant anchor missing");
  Ok anchor.

(** [reserve_machine_connection]: the update and the epoch. *)
Definition reserve_machine_connection domain (sql_epoch : N) r : result IoError (Registry * N) :=
  _ ← guard_err (bool_decide (is_Some (ry_retired_domains r !! domain))) (OtherIo "retired domain cannot reconnect");
  anchor ← committed_anchor r domain;
  epoch ← ok_or (checked_add (N.max (pa_next_connection_epoch anchor) sql_epoch) 1) (OtherIo "connection epoch exhausted");
  _ ← guard_err (bool_decide (i64_max < Z.of_N epoch)%Z) (OtherIo "connection epoch exhausted");
  Ok (r <| ry_participants ::= <[domain := anchor <| pa_next_connection_epoch := epoch |>]> |>, epoch).

Definition accept_machine_session (s : SessionIdentity) r : result IoError Update :=
  let domain := se_domain_id s in
  _ ← guard_err (bool_decide (is_Some (ry_retired_domains r !! domain))) (OtherIo "retired domain cannot reconnect");
  anchor ← committed_anchor r domain;
  if bool_decide (pa_session anchor = Some s) then Ok Unchanged
  else
    _ ← guard_err (bool_decide (pa_next_connection_epoch anchor ≠ se_connection_epoch s)
                   || bool_decide (pa_store anchor ≠ se_manager_store_uuid s)
                   || bool_decide (ry_epoch r ≠ se_authority_epoch s)
                   || match ry_domains r with
                      | None => true | Some d => bool_decide (ad_machine_id d ≠ se_machine_id s) end
                   || match pa_session anchor with
                      | None => false
                      | Some old => bool_decide (se_connection_epoch s ≤ se_connection_epoch old) end)
          (OtherIo "session identity or durable connection epoch changed");
    Ok (Publish (r <| ry_participants ::= <[domain := anchor <| pa_session := Some s |>]> |>)).

Definition checkpoint_machine_sequence domain (sequence : N) r : result IoError Update :=
  anchor ← committed_anchor r domain;
  if bool_decide (sequence ≤ pa_accepted_sequence anchor) then Ok Unchanged
  else
    _ ← guard_err (bool_decide (i64_max < Z.of_N sequence)%Z) (OtherIo "operation sequence exhausted");
    Ok (Publish (r <| ry_participants ::= <[domain := anchor <| pa_accepted_sequence := sequence |>]> |>)).

Definition retire_machine_sequences domain (floor : N) r : result IoError Update :=
  anchor ← ok_or (ry_participants r !! domain) (OtherIo "participant anchor missing");
  _ ← guard_err (bool_decide (pa_accepted_sequence anchor < floor)) (OtherIo "cannot retire an unaccepted operation");
  if bool_decide (floor ≤ pa_retired_sequence_floor anchor) then Ok Unchanged
  else Ok (Publish (r <| ry_participants ::= <[domain := anchor <| pa_retired_sequence_floor := floor |>]> |>)).

(** ** Pairing *)
Definition check_retirement_pairing (p : PairingRegistration) r : result IoError unit :=
  let i := pg_installation p in
  _ ← guard_err (bool_decide (is_Some (ry_pending_domain_retirement r)))
        (OtherIo "pending domain retirement must finish before pairing");
  _ ← guard_err (bool_decide (is_Some (ry_retired_domains r !! ii_domain_id i))
                 || existsb (λ old, bool_decide (rt_installation_nonce old = ii_installation_nonce i)
                                    || bool_decide (rt_manager_store_uuid old = pg_manager_store_uuid p))
                      (btree_values (ry_retired_domains r))
                 || existsb (λ old, bool_decide (pa_domain old ≠ ii_domain_id i)
                                    && bool_decide (pa_store old = pg_manager_store_uuid p))
                      (btree_values (ry_participants r)))
        (OtherIo "domain, installation or manager store identity is already used or retired");
  guard_err (bool_decide (ry_participants r !! ii_domain_id i = None)
             && bool_decide (MAX_RETIRED_DOMAINS ≤ N.of_nat (size (ry_retired_domains r))
                                                  + N.of_nat (size (ry_participants r))))
    (OtherIo "retired identity budget is exhausted; preserve the authority and its audits").

Definition new_anchor (p : PairingRegistration) : ParticipantAnchor :=
  {| pa_registration := p; pa_committed := false; pa_next_connection_epoch := 0; pa_session := None;
     pa_accepted_sequence := 0; pa_retired_sequence_floor := 0 |}.

Definition prepare_pairing (p : PairingRegistration) r : result IoError Update :=
  let i := pg_installation p in
  _ ← check_retirement_pairing p r;
  match ry_participants r !! ii_domain_id i with
  | Some old =>
      if bool_decide (pa_registration old = p) then Ok Unchanged
      else Err (OtherIo "domain already belongs to another pairing payload")
  | None =>
      _ ← guard_err (bool_decide (MAX_DOMAINS - 2 ≤ N.of_nat (size (ry_participants r))))
            (OtherIo "machine domain limit reached");
      _ ← guard_err (existsb (λ old, bool_decide (pa_nonce old = ii_installation_nonce i))
                       (btree_values (ry_participants r)))
            (OtherIo "installation nonce already owns a domain");
      Ok (Publish (r <| ry_participants ::= <[ii_domain_id i := new_anchor p]> |>))
  end.

Definition commit_pairing domain r : result IoError Update :=
  anchor ← ok_or (ry_participants r !! domain) (OtherIo "pairing anchor missing");
  if pa_committed anchor then Ok Unchanged
  else Ok (Publish (r <| ry_participants ::= <[domain := anchor <| pa_committed := true |>]> |>)).

(** ** The coordinator and its resets *)
Definition bind_coordinator (reset_id store generation : Uuid) (process : ProcessIdentity) r : Update :=
  let bound := Publish (r <| ry_coordinator := Some
    {| ch_store_uuid := store; ch_daemon_generation := generation; ch_process_identity := process;
       ch_pending_reset := None |} |>) in
  match ry_coordinator r with
  | None => bound
  | Some history =>
      if bool_decide (is_Some (ch_pending_reset history)) then Unchanged
      else if bool_decide (ch_store_uuid history ≠ store) then
        record_reset reset_id "coordinator store UUID differs from its durable authority anchor" r
      else bound
  end.

Definition complete_machine_reset (expected : AuthoritySnapshot) (epoch store generation : Uuid)
    (process : ProcessIdentity) a r : result IoError Update :=
  _ ← guard_err (bool_decide (snapshot a ≠ expected)) (OtherIo "recovery inventory changed; retry its OS proof");
  history ← ok_or (ry_coordinator r) (OtherIo "no pending reset");
  gate ← ok_or (ch_pending_reset history) (OtherIo "no pending reset");
  _ ← guard_err (bool_decide (ry_native_coverage_store r ≠ Some (ch_store_uuid history))
                 || negb (bool_decide (ry_machine_permissions r = ∅))
                 || bool_decide (is_Some (ry_pending_machine_commit r))
                 || bool_decide (is_Some (ry_pending_domain_retirement r))
                 || existsb (λ h, negb (ah_released h)) (btree_values (ry_holds r))
                 || existsb (λ p, negb (pa_committed p)) (btree_values (ry_participants r)))
        (OtherIo "reset still has uncovered obligations");
  Ok (PublishAfter (ResetFile (gate_reset_id gate, aw_snapshot_hash w expected) expected)
        (r <| ry_anchor_epoch := Some (default (ry_epoch r) (ry_anchor_epoch r)) |>
           <| ry_epoch := epoch |> <| ry_retired_allocations := ∅ |> <| ry_native_permissions := ∅ |>
           <| ry_native_coverage_store := Some store |>
           <| ry_coordinator := Some {| ch_store_uuid := store; ch_daemon_generation := generation;
                ch_process_identity := process; ch_pending_reset := None |} |>
           <| ry_participants ::= fmap (λ p, p <| pa_session := None |>) |>)).

(** ** Holds *)
Definition hold (id : Uuid) (reason : string) (requester : ProcessIdentity) r : result IoError Update :=
  match ry_holds r !! id with
  | Some previous =>
      if bool_decide (ah_reason previous ≠ reason) then Err (OtherIo "authority operation ID payload conflict")
      else Ok Unchanged
  | None =>
      _ ← guard_err (bool_decide (MAX_HOLDS ≤ N.of_nat (size (ry_holds r))))
            (OtherIo "authority history limit reached; no obligation was evicted");
      Ok (Publish (r <| ry_holds ::= <[id := {| ah_id := id; ah_reason := reason; ah_requester := requester;
            ah_released := false; ah_release_reason := None; ah_released_by := None; ah_bootstrap := None;
            ah_cleanup_proof := None |}]> |>))
  end.

Definition release_hold (h : AuthorityHold) (reason : string) (requester : ProcessIdentity)
    (proof : option BootstrapProof) : AuthorityHold :=
  {| ah_id := ah_id h; ah_reason := ah_reason h; ah_requester := ah_requester h; ah_released := true;
     ah_release_reason := Some reason; ah_released_by := Some requester; ah_bootstrap := ah_bootstrap h;
     ah_cleanup_proof := proof |}.

Definition force_release (id : Uuid) (reason : string) (requester : ProcessIdentity) r : result IoError Update :=
  h ← ok_or (ry_holds r !! id) (OtherIo "unknown authority hold");
  if ah_released h then
    if bool_decide (ah_release_reason h ≠ Some reason) then Err (OtherIo "authority release payload conflict")
    else Ok Unchanged
  else Ok (Publish (r <| ry_holds ::= <[id := release_hold h reason requester (ah_cleanup_proof h)]> |>)).

Definition arm_bootstrap (binding : BootstrapBinding) (requester : ProcessIdentity) r : result IoError Update :=
  let id := bw_operation_id (bb_work binding) in
  match ry_holds r !! id with
  | Some previous =>
      if bool_decide (ah_bootstrap previous ≠ Some binding) || bool_decide (ah_requester previous ≠ requester)
      then Err (OtherIo "bootstrap operation payload/owner conflict") else Ok Unchanged
  | None =>
      _ ← guard_err (existsb (λ h, negb (ah_released h)) (btree_values (ry_holds r))
                     || bool_decide (MAX_HOLDS ≤ N.of_nat (size (ry_holds r))))
            (OtherIo "another obligation or history limit blocks bootstrap");
      Ok (Publish (r <| ry_holds ::= <[id := {| ah_id := id; ah_reason := "WSL bootstrap obligation";
            ah_requester := requester; ah_released := false; ah_release_reason := None; ah_released_by := None;
            ah_bootstrap := Some binding; ah_cleanup_proof := None |}]> |>))
  end.

Definition seal_bootstrap (proof : BootstrapProof) (requester : ProcessIdentity) r : result IoError Update :=
  h ← ok_or (ry_holds r !! bp_operation_id proof) (OtherIo "bootstrap obligation not found");
  binding ← ok_or (ah_bootstrap h) (OtherIo "hold is not a bootstrap obligation");
  _ ← validate_proof w binding proof;
  if ah_released h then
    if bool_decide (ah_cleanup_proof h ≠ Some proof)
    then Err (OtherIo "bootstrap release replay conflicts with tombstone") else Ok Unchanged
  else Ok (Publish (r <| ry_holds ::= <[bp_operation_id proof :=
         release_hold h "trusted Linux supervisor sealed its empty cgroup" requester (Some proof)]> |>)).
End operations.
