(* ===== verification/Authority.v ===== *)
(** * Authority: retirement of domains, files and histories of the authority
      ([src/src/authority/retirement.rs], [src/src/authority.rs])

    [load] reads and checks the files, [open] is the start of a process on them, and
    [perform] runs one operation and publishes its result.  An [Event] is one of
    these with the answers of the file system; [run] is a history of the directory
    through any number of processes. *)
From S2P Require Import Prelude Spec Validate Kernel Scoped Observation Machine MachineStore.
From S2P Require Import Reservation MachineOffer MachineRecovery Columns Native Policy Registry RegistryOps.

Section authority.
Context (w : AuthorityWire).
Implicit Types (r : Registry) (a : DurableAuthority) (fs : AuthorityFiles) (domain : ExecutionDomainId).

(** ** Retirement of a domain *)
Definition check_retirement_request (q : DomainRetirementRequest) (principal : string) : result IoError unit :=
  guard_err (uuid_is_nil (dq_operation_id q) || negb (valid_reason (dq_reason q))
             || bool_decide (principal = ""%string) || bool_decide (256 < len principal))
    (InvalidInput "retirement needs an operation, reason and authenticated owner principal").

(** The audit of the operation: the recorded one, or a new one. *)
Definition retirement_audit (q : DomainRetirementRequest) (requester : ProcessIdentity) (principal : string)
    (now : Z) fs r : result IoError DomainRetirementAudit :=
  match af_audits fs !! dq_operation_id q with
  | Some _ =>
      old ← read_audit w fs (dq_operation_id q);
      _ ← guard_err (bool_decide (du_request old ≠ q)) (InvalidInput "retirement operation payload conflict");
      Ok old
  | None =>
      preview ← domain_clearance_preview w r (dq_domain_id q);
      Ok {| du_preview := preview; du_request := q; du_requester := requester;
            du_requester_principal := principal; du_retired_unix_millis := now |}
  end.

Definition retire_domain (q : DomainRetirementRequest) (audit : DomainRetirementAudit)
    (receipt : DomainRetirementReceipt) r : Registry :=
  let inventory := cv_inventory (du_preview audit) in
  r <| ry_retired_domains ::= <[dq_domain_id q :=
         {| rt_installation_nonce := ii_installation_nonce (ci_installation inventory);
            rt_manager_store_uuid := ci_manager_store_uuid inventory; rt_receipt := receipt |}]> |>
    <| ry_pending_domain_retirement := Some {| pd_operation_id := dq_operation_id q;
         pd_domain_id := dq_domain_id q; pd_audit_sha256 := dc_audit_sha256 receipt |} |>.

Definition prepare_domain_retirement (q : DomainRetirementRequest) (requester : ProcessIdentity)
    (principal : string) (now : Z) a r : result IoError (DomainRetirementAudit * Update) :=
  let domain := dq_domain_id q in
  let fs := da_files a in
  _ ← guard_err (bool_decide (is_Some (ry_pending_machine_commit r)))
        (OtherIo "reconcile the pending machine commit before domain retirement");
  _ ← guard_err (match ry_pending_domain_retirement r with
                 | Some p => bool_decide (pd_operation_id p ≠ dq_operation_id q) | None => false end)
        (OtherIo "another domain retirement requires recovery");
  _ ← guard_err (existsb (λ p, bool_decide (pg_parent_domain (pa_registration p) = domain))
                   (btree_values (ry_participants r)))
        (OtherIo "retire registered descendant domains before retiring their parent");
  _ ← guard_err (match ry_retired_domains r !! domain with
                 | Some t => bool_decide (dc_operation_id (rt_receipt t) ≠ dq_operation_id q) | None => false end)
        (InvalidInput "domain was already retired by operation");
  audit ← retirement_audit q requester principal now fs r;
  match ry_retired_domains r !! domain with
  | Some t =>
      receipt ← audit_receipt w audit;
      _ ← guard_err (bool_decide (dc_operation_id (rt_receipt t) ≠ dq_operation_id q)
                     || bool_decide (rt_receipt t ≠ receipt))
            (InvalidInput "domain was already retired by another operation");
      Ok (audit, Unchanged)
  | None =>
      preview ← domain_clearance_preview w r domain;
      _ ← guard_err (bool_decide (preview ≠ du_preview audit)
                     || bool_decide (cv_sha256 preview ≠ dq_expected_inventory_sha256 q))
            (InvalidInput "retirement inventory changed; inspect the complete current preview");
      let inventory := cv_inventory preview in
      let grants := negb (bool_decide (ci_grants inventory = [])) in
      _ ← guard_err (grants && negb (dq_accept_risk q))
            (InvalidInput "outstanding Grants require explicit acceptance of unproven process cleanup");
      _ ← guard_err (negb (ci_committed inventory) && (bool_decide (is_Some (ci_session inventory)) || grants))
            (OtherIo "uncommitted registration unexpectedly owns launch authority");
      receipt ← audit_receipt w audit;
      _ ← guard_err (bool_decide (12 * 1024 < aw_receipt_len w receipt))
            (OtherIo "authenticated retirement receipt exceeds reserved metadata budget");
      _ ← guard_err (bool_decide (MAX_MACHINE_JOURNAL_BYTES < aw_audit_len w audit))
            (OtherIo "domain retirement audit exceeds durable byte limit");
      let next := retire_domain q audit receipt r in
      _ ← check_publication w a next;
      Ok (audit, PublishAfter (AuditFile (dq_operation_id q) audit) next)
  end.

Definition finish_domain_retirement (operation : Uuid) r : result IoError Update :=
  match ry_pending_domain_retirement r with
  | None => Ok Unchanged
  | Some pending =>
      _ ← guard_err (bool_decide (pd_operation_id pending ≠ operation))
            (OtherIo "pending domain retirement operation changed");
      Ok (Publish (r <| ry_machine_permissions ::= filter (λ p : DurableId * GrantSnapshot,
                          ak_domain_id (cd_key (gs_candidate p.2)) ≠ pd_domain_id pending) |>
                     <| ry_participants ::= delete (pd_domain_id pending) |>
                     <| ry_pending_domain_retirement := None |>))
  end.

(** ** Loading *)
Definition check_retired r domain (t : RetiredDomain) : result IoError unit :=
  let receipt := rt_receipt t in
  _ ← guard_err (bool_decide (domain ≠ dc_domain_id receipt) || uuid_is_nil (rt_installation_nonce t)
                 || uuid_is_nil (rt_manager_store_uuid t)
                 || bool_decide (rt_manager_store_uuid t ≠ dc_manager_store_uuid receipt)
                 || uuid_is_nil (dc_operation_id receipt))
        (OtherIo "invalid retired domain identity");
  let pending := bool_decide (pd_domain_id <$> ry_pending_domain_retirement r = Some domain) in
  _ ← guard_err (negb pending
                 && (bool_decide (is_Some (ry_participants r !! domain))
                     || existsb (λ p, bool_decide (pg_parent_domain (pa_registration p) = domain))
                          (btree_values (ry_participants r))
                     || existsb (λ g, bool_decide (ak_domain_id (cd_key (gs_candidate g)) = domain))
                          (btree_values (ry_machine_permissions r))))
        (OtherIo "completed retired identity still owns launch authority");
  guard_err (bool_decide ((λ i, se_domain_id (rq_session (mi_request i))) <$> ry_pending_machine_commit r = Some domain))
    (OtherIo "machine commit attempts to revive a retired identity").

Definition validate_retirements fs r : result IoError unit :=
  _ ← guard_err (bool_decide (MAX_RETIRED_DOMAINS < N.of_nat (size (ry_retired_domains r))))
        (OtherIo "retired domain inventory exceeds bounds");
  _ ← result_mapM (λ p : ExecutionDomainId * RetiredDomain, check_retired r p.1 p.2)
        (btree_entries (ry_retired_domains r));
  match ry_pending_domain_retirement r with
  | None => Ok tt
  | Some p =>
      audit ← read_audit w fs (pd_operation_id p);
      receipt ← audit_receipt w audit;
      guard_err (bool_decide (is_Some (ry_pending_machine_commit r))
                 || bool_decide (dq_operation_id (du_request audit) ≠ pd_operation_id p)
                 || bool_decide (dq_domain_id (du_request audit) ≠ pd_domain_id p)
                 || bool_decide (aw_audit_hash w audit ≠ pd_audit_sha256 p)
                 || match ry_retired_domains r !! pd_domain_id p with
                    | None => true
                    | Some t => bool_decide (rt_receipt t ≠ receipt)
                                || bool_decide (dc_audit_sha256 (rt_receipt t) ≠ pd_audit_sha256 p) end)
        (OtherIo "pending retirement audit/fence is inconsistent")
  end.

Definition domains_invalid (d : AuthorityDomains) : bool :=
  uuid_is_nil (ad_machine_id d) || uuid_is_nil (ad_machine_scope d) || uuid_is_nil (ad_native_domain d)
  || bool_decide (ad_machine_scope d = ad_native_domain d) || bool_decide (ad_machine_id d = ad_machine_scope d)
  || bool_decide (ad_machine_id d = ad_native_domain d).

Definition participant_invalid (p : ExecutionDomainId * ParticipantAnchor) : bool :=
  bool_decide (p.1 ≠ pa_domain p.2) || uuid_is_nil p.1 || uuid_is_nil (pa_nonce p.2) || uuid_is_nil (pa_store p.2).

Definition coordinator_invalid (h : CoordinatorHistory) : bool :=
  uuid_is_nil (ch_store_uuid h) || uuid_is_nil (ch_daemon_generation h)
  || match ch_pending_reset h with
     | Some g => uuid_is_nil (gate_reset_id g) || bool_decide (gate_displaced_store_uuid g ≠ ch_store_uuid h)
                 || negb (valid_reason (gate_reason g))
     | None => false end.

Definition hold_invalid (p : Uuid * AuthorityHold) : bool :=
  let h := p.2 in
  bool_decide (p.1 ≠ ah_id h) || negb (valid_reason (ah_reason h))
  || bool_decide (ah_released h ≠ bool_decide (is_Some (ah_release_reason h)))
  || bool_decide (ah_released h ≠ bool_decide (is_Some (ah_released_by h)))
  || match ah_release_reason h with Some reason => negb (valid_reason reason) | None => false end
  || match ah_bootstrap h with
     | Some b => bool_decide (bw_operation_id (bb_work b) ≠ p.1) || negb (is_ok (validate_binding w b))
     | None => false end
  || match ah_cleanup_proof h with
     | Some proof => negb (ah_released h)
         || match ah_bootstrap h with None => true | Some b => negb (is_ok (validate_proof w b proof)) end
     | None => false end.

Definition registry_invalid (anchor : N * Uuid * string) (host : string) r : bool :=
  bool_decide (anchor ≠ (1, default (ry_epoch r) (ry_anchor_epoch r), host))
  || bool_decide (ry_version r ≠ 1) || bool_decide (ry_host r ≠ host)
  || match ry_domains r with Some d => domains_invalid d | None => false end
  || bool_decide (MAX_HOLDS < N.of_nat (size (ry_holds r)))
  || bool_decide (MAX_DOMAINS - 2 < N.of_nat (size (ry_participants r)))
  || existsb participant_invalid (btree_entries (ry_participants r))
  || match ry_coordinator r with Some h => coordinator_invalid h | None => false end
  || existsb hold_invalid (btree_entries (ry_holds r)).

(** The body of an open commit, from its own file. *)
Definition load_blob fs (payload : Registry) : result IoError Registry :=
  match ry_pending_machine_blob payload with
  | None => Ok payload
  | Some blob =>
      _ ← guard_err (uuid_is_nil (mb_operation_id blob) || negb (is_digest (mb_sha256 blob))
                     || bool_decide (is_Some (ry_pending_machine_commit payload)))
            (OtherIo "invalid external machine commit reference");
      intent ← read_with_limit (af_blobs fs !! blob_path blob) (aw_intent_len w) MAX_MACHINE_JOURNAL_BYTES;
      _ ← guard_err (bool_decide (rq_operation_id (mi_request intent) ≠ mb_operation_id blob)
                     || bool_decide (aw_intent_hash w intent ≠ mb_sha256 blob))
            (OtherIo "external machine commit checksum/identity mismatch");
      Ok (payload <| ry_pending_machine_commit := Some intent |>)
  end.

Definition load fs (host : string) : result IoError (option Registry) :=
  match af_anchor fs, af_registry fs with
  | None, None => Ok None
  | anchor, registry =>
      anchor ← read_with_limit anchor (aw_anchor_len w) MAX_REGISTRY_BYTES;
      envelope ← read_with_limit registry (λ e, aw_registry_len w (ev_payload e)) MAX_REGISTRY_BYTES;
      _ ← guard_err (bool_decide (aw_registry_hash w (ev_payload envelope) ≠ ev_sha256 envelope))
            (OtherIo "authority history checksum mismatch");
      r ← load_blob fs (ev_payload envelope);
      _ ← guard_err (registry_invalid anchor host r) (OtherIo "authority identity/schema/history mismatch");
      _ ← validate_retirements fs r;
      Ok (Some r)
  end.

Definition io_detail (e : IoError) : string := match e with InvalidInput d => d | OtherIo d => d end.

(** [open]: [probe] is an error of the file system that no file shows. *)
Definition open (probe : option string) (fresh : AuthorityDomains) (io : PublishIo) fs (host : string)
    : DurableAuthority :=
  let state := match probe with
    | Some detail => StUnknown detail
    | None => match load fs host with
              | Ok (Some r) => StReady r
              | Ok None => StUninitialized
              | Err e => StUnknown (io_detail e) end end in
  let a := {| da_files := fs; da_host := host; da_state := state |} in
  let a := match state with
    | StReady r =>
        if bool_decide (ry_domains r = None) then
          match publish w io a (r <| ry_domains := Some fresh |>) with
          | (a, Ok _) => a
          | (a, Err e) => a <| da_state := StUnknown ("publishing native domain identities: " +:+ io_detail e) |>
          end
        else a
    | _ => a end in
  prune_machine_blobs (io_undeleted io) a.

(** ** Initialization *)
Record InitializeIo := {
  iz_setup_fails : option string;
  (* the write of the anchor fails and leaves a file, or not *)
  iz_anchor_fails : option (option (Doc (N * Uuid * string)));
  iz_publish : PublishIo;
}.

Definition empty_registry (epoch : Uuid) (host : string) (fresh : AuthorityDomains) : Registry :=
  {| ry_version := 1; ry_epoch := epoch; ry_anchor_epoch := None; ry_host := host; ry_holds := ∅;
     ry_domains := Some fresh; ry_coordinator := None; ry_participants := ∅; ry_machine_permissions := ∅;
     ry_native_permissions := ∅; ry_native_coverage_store := None; ry_retired_allocations := ∅;
     ry_pending_machine_commit := None; ry_pending_machine_blob := None; ry_retired_domains := ∅;
     ry_pending_domain_retirement := None |}.

Definition initialize (io : InitializeIo) (epoch : Uuid) (fresh : AuthorityDomains) a
    : DurableAuthority * result IoError unit :=
  match da_state a with
  | StReady _ => (a, Ok tt)
  | StUnknown _ => (a, Err (OtherIo "Cannot initialize over uncertain authority history"))
  | StUninitialized =>
      let a := a <| da_state := StUnknown "authority initialization incomplete" |> in
      match iz_setup_fails io, af_anchor (da_files a), iz_anchor_fails io with
      | Some detail, _, _ => (a, Err (OtherIo detail))
      | None, Some _, _ => (a, Err (OtherIo "already exists"))
      | None, None, Some remains => (a <| da_files ::= λ fs, fs <| af_anchor := remains |> |>, Err (OtherIo "write failed"))
      | None, None, None =>
          publish w (iz_publish io)
            (a <| da_files ::= λ fs, fs <| af_anchor := Some (Written (1, epoch, da_host a)) |> |>)
            (empty_registry epoch (da_host a) fresh)
      end
  end.

(** ** Operations as calls *)
Inductive Call :=
| RecordNativeStart (permission : NativeStartPermission)
| EstablishNativeCoverage (reset_id store : Uuid) (empty : bool)
| RetireNativeStarts (proven : list DurableId)
| PrepareMachineCommit (intent : MachineCommitIntent)
| FinishMachineCommit (operation : Uuid)
| CompactMachineRetirements (store : Uuid) (proven : gset string)
| ReserveMachineConnection (domain : ExecutionDomainId) (sql_epoch : N)
| AcceptMachineSession (session : SessionIdentity)
| CheckpointMachineSequence (domain : ExecutionDomainId) (sequence : N)
| RetireMachineSequences (domain : ExecutionDomainId) (floor : N)
| CompleteMachineReset (expected : AuthoritySnapshot) (epoch store generation : Uuid) (process : ProcessIdentity)
| PreparePairing (registration : PairingRegistration)
| CommitPairing (domain : ExecutionDomainId)
| RecordReset (reset_id : Uuid) (reason : string)
| BindCoordinator (reset_id store generation : Uuid) (process : ProcessIdentity)
| Hold (id : Uuid) (reason : string) (requester : ProcessIdentity)
| ForceRelease (id : Uuid) (reason : string) (requester : ProcessIdentity)
| ArmBootstrap (binding : BootstrapBinding) (requester : ProcessIdentity)
| SealBootstrap (proof : BootstrapProof) (requester : ProcessIdentity)
| PrepareDomainRetirement (request : DomainRetirementRequest) (requester : ProcessIdentity)
    (principal : string) (now : Z)
| FinishDomainRetirement (operation : Uuid).

(** What is checked before the state is looked at. *)
Definition call_check (c : Call) : result IoError unit :=
  match c with
  | Hold _ reason _ => guard_err (negb (valid_reason reason)) (OtherIo "Hold reason must contain 1..1024 bytes without NUL")
  | ForceRelease _ reason _ =>
      guard_err (negb (valid_reason reason)) (OtherIo "Risk acceptance reason must contain 1..1024 bytes without NUL")
  | PrepareDomainRetirement q _ principal _ => check_retirement_request q principal
  | _ => Ok tt
  end.

(** The answer without a continuous history. *)
Definition call_unready (c : Call) : result IoError unit :=
  match c with
  | EstablishNativeCoverage _ _ _ | RecordReset _ _ | BindCoordinator _ _ _ _ => Ok tt
  | RecordNativeStart _ => Err (OtherIo "native start authority history unavailable")
  | RetireNativeStarts _ => Err (OtherIo "native cleanup authority history unavailable")
  | CompactMachineRetirements _ _ => Ok tt
  | ReserveMachineConnection _ _ | AcceptMachineSession _ => Err (OtherIo "pairing history unavailable")
  | CheckpointMachineSequence _ _ => Err (OtherIo "operation checkpoint history unavailable")
  | RetireMachineSequences _ _ => Err (OtherIo "sequence retirement history unavailable")
  | PreparePairing _ => Err (OtherIo "authority history unavailable")
  | CommitPairing _ => Err (OtherIo "pairing authority unavailable")
  | Hold _ _ _ => Err (OtherIo "authority history is not initialized and continuous")
  | ForceRelease _ _ _ => Err (OtherIo "authority history is unknown")
  | ArmBootstrap _ _ | SealBootstrap _ _ => Err (OtherIo "authority history is not continuous")
  | CompleteMachineReset _ _ _ _ _ | PrepareMachineCommit _ | FinishMachineCommit _
  | PrepareDomainRetirement _ _ _ _ | FinishDomainRetirement _ => Err (OtherIo "authority history unavailable")
  end.

Definition call_update (c : Call) a r : result IoError Update :=
  match c with
  | RecordNativeStart permission => record_native_start permission r
  | EstablishNativeCoverage reset_id store empty => Ok (establish_native_coverage reset_id store empty r)
  | RetireNativeStarts proven => Ok (retire_native_starts proven r)
  | PrepareMachineCommit intent => prepare_machine_commit w intent r
  | FinishMachineCommit operation => finish_machine_commit w operation r
  | CompactMachineRetirements store proven => Ok (compact_machine_retirements store proven r)
  | ReserveMachineConnection domain sql_epoch =>
      p ← reserve_machine_connection domain sql_epoch r; Ok (Publish p.1)
  | AcceptMachineSession session => accept_machine_session session r
  | CheckpointMachineSequence domain sequence => checkpoint_machine_sequence domain sequence r
  | RetireMachineSequences domain floor => retire_machine_sequences domain floor r
  | CompleteMachineReset expected epoch store generation process =>
      complete_machine_reset w expected epoch store generation process a r
  | PreparePairing registration => prepare_pairing registration r
  | CommitPairing domain => commit_pairing domain r
  | RecordReset reset_id reason => Ok (record_reset reset_id reason r)
  | BindCoordinator reset_id store generation process => Ok (bind_coordinator reset_id store generation process r)
  | Hold id reason requester => hold id reason requester r
  | ForceRelease id reason requester => force_release id reason requester r
  | ArmBootstrap binding requester => arm_bootstrap binding requester r
  | SealBootstrap proof requester => seal_bootstrap w proof requester r
  | PrepareDomainRetirement request requester principal now =>
      p ← prepare_domain_retirement request requester principal now a r; Ok p.2
  | FinishDomainRetirement operation => finish_domain_retirement operation r
  end.

Definition write_side (io : PublishIo) fs (file : SideFile) : AuthorityFiles * result IoError unit :=
  match file with
  | AuditFile operation audit =>
      match af_audits fs !! operation with
      | Some _ => (fs, Ok tt)
      | None => atomic_write (io_side_fails io) (λ fs, fs <| af_audits ::= <[operation := Written audit]> |>) fs
      end
  | ResetFile name expected =>
      match af_resets fs !! name with
      | Some (Written old) => (fs, guard_err (bool_decide (old ≠ expected)) (OtherIo "reset audit inventory differs"))
      | Some (Unreadable detail) => (fs, Err (OtherIo detail))
      | None => atomic_write (io_side_fails io) (λ fs, fs <| af_resets ::= <[name := Written expected]> |>) fs
      end
  end.

Definition apply_update (io : PublishIo) a (u : Update) : DurableAuthority * result IoError unit :=
  match u with
  | Unchanged => (a, Ok tt)
  | Publish next => publish w io a next
  | PublishAfter file next =>
      match write_side io (da_files a) file with
      | (fs, Err e) => (a <| da_files := fs |>, Err e)
      | (fs, Ok _) => publish w io (a <| da_files := fs |>) next
      end
  end.

Definition perform (io : PublishIo) (c : Call) a : DurableAuthority * result IoError unit :=
  match call_check c with
  | Err e => (a, Err e)
  | Ok _ =>
      match da_state a with
      | StReady r => match call_update c a r with Err e => (a, Err e) | Ok u => apply_update io a u end
      | _ => (a, call_unready c)
      end
  end.

(** [before_store_reset]: the gate is written before the job history is deleted. *)
Definition before_store_reset (host : option string) (probe : option string) (fresh : AuthorityDomains)
    (io_open io : PublishIo) (reset_id : Uuid) fs : AuthorityFiles * result IoError unit :=
  match host with
  | None => (fs, Ok tt)
  | Some host =>
      let a := open probe fresh io_open fs host in
      let out := perform io (RecordReset reset_id "coordinator SQLite history is being reset") a in
      (da_files out.1, out.2)
  end.

(** ** Histories of the directory *)
Inductive Event :=
| Performed (io : PublishIo) (c : Call)
| Opened (probe : option string) (fresh : AuthorityDomains) (io : PublishIo)
| Initialized (io : InitializeIo) (epoch : Uuid) (fresh : AuthorityDomains).

Definition occur a (e : Event) : DurableAuthority :=
  match e with
  | Performed io c => (perform io c a).1
  | Opened probe fresh io => open probe fresh io (da_files a) (da_host a)
  | Initialized io epoch fresh => (initialize io epoch fresh a).1
  end.
Definition run a (events : list Event) : DurableAuthority := foldl occur a events.
End authority.
