(* ===== verification/AuthorityFacts.v ===== *)
(** * AuthorityFacts: the authority file is a durable register

    What a registry must satisfy to be read again ([reg_ok]), that every operation
    keeps it, and that publication is atomic: whatever the file system answers and
    wherever a process stops, the files hold the registry before the operation or
    the one after it, and memory never holds another one than the files. *)
From S2P Require Import Prelude Spec Validate Kernel Scoped Observation Machine MachineStore.
From S2P Require Import Reservation MachineOffer MachineRecovery Columns Native Policy PolicyFacts.
From S2P Require Import Registry RegistryOps Authority.

(** ** Conditions on the entries of a map *)
Lemma existsb_values_false `{Countable K, BTreeKey K} {V} (f : V → bool) (m : gmap K V) :
  existsb f (btree_values m) = false ↔ map_Forall (λ _ v, f v = false) m.
Proof.
  rewrite existsb_false. unfold btree_values. rewrite Forall_fmap, Forall_btree_entries. done.
Qed.
Lemma existsb_entries `{Countable K, BTreeKey K} {V} (f : K * V → bool) (m : gmap K V) :
  existsb f (btree_entries m) = false ↔ map_Forall (λ k v, f (k, v) = false) m.
Proof. by rewrite existsb_false, Forall_btree_entries. Qed.

Lemma read_written {A} (v : A) (length : A → N) limit :
  length v ≤ limit → read_with_limit (Some (Written v)) length limit = Ok v.
Proof. intros H. unfold read_with_limit. by rewrite bool_decide_eq_false_2 by lia. Qed.
Lemma read_inv {A} (file : option (Doc A)) (length : A → N) limit v :
  read_with_limit file length limit = Ok v → file = Some (Written v) ∧ length v ≤ limit.
Proof.
  destruct file as [[?|v']|]; [done| |done]. cbn [read_with_limit].
  intros [H%guard_ok%bool_decide_eq_false [= ->]]%check_then. split; [done|lia].
Qed.

Section facts.
Context (w : AuthorityWire) (host : string).
Implicit Types (r : Registry) (a : DurableAuthority) (fs : AuthorityFiles) (domain : ExecutionDomainId).

(** ** A registry that can be read again *)
Definition retired_fine domain (t : RetiredDomain) : Prop :=
  domain = dc_domain_id (rt_receipt t) ∧ rt_installation_nonce t ≠ uuid_nil ∧ rt_manager_store_uuid t ≠ uuid_nil ∧
  rt_manager_store_uuid t = dc_manager_store_uuid (rt_receipt t) ∧ dc_operation_id (rt_receipt t) ≠ uuid_nil.

(** Nothing in the registry is owned by the domain. *)
Definition clear_of r domain : Prop :=
  ry_participants r !! domain = None ∧
  map_Forall (λ _ p, pg_parent_domain (pa_registration p) ≠ domain) (ry_participants r) ∧
  map_Forall (λ _ g, ak_domain_id (cd_key (gs_candidate g)) ≠ domain) (ry_machine_permissions r).

Definition commit_domain r : option ExecutionDomainId :=
  (λ i, se_domain_id (rq_session (mi_request i))) <$> ry_pending_machine_commit r.

Definition identities r : gset ExecutionDomainId := dom (ry_retired_domains r) ∪ dom (ry_participants r).

Record reg_ok r : Prop := {
  rk_version : ry_version r = 1;
  rk_host : ry_host r = host;
  rk_domains : ∀ d, ry_domains r = Some d → domains_invalid d = false;
  rk_holds_size : N.of_nat (size (ry_holds r)) ≤ MAX_HOLDS;
  rk_holds : map_Forall (λ id h, hold_invalid w (id, h) = false) (ry_holds r);
  rk_size : N.of_nat (size (ry_participants r)) ≤ MAX_DOMAINS - 2;
  rk_participants : map_Forall (λ id p, participant_invalid (id, p) = false) (ry_participants r);
  rk_coordinator : ∀ h, ry_coordinator r = Some h → coordinator_invalid h = false;
  rk_room : N.of_nat (size (identities r)) ≤ MAX_RETIRED_DOMAINS;
  rk_retired : map_Forall retired_fine (ry_retired_domains r);
  rk_fence : ∀ domain, is_Some (ry_retired_domains r !! domain) →
    (pd_domain_id <$> ry_pending_domain_retirement r = Some domain ∨ clear_of r domain) ∧
    commit_domain r ≠ Some domain;
  rk_commit : ∀ i, ry_pending_machine_commit r = Some i →
    rq_operation_id (mi_request i) ≠ uuid_nil ∧ ry_pending_domain_retirement r = None;
}.

(** The pending retirement has its audit. *)
Definition audited fs r : Prop :=
  ∀ p, ry_pending_domain_retirement r = Some p → ∃ audit t,
    af_audits fs !! pd_operation_id p = Some (Written audit) ∧ aw_audit_len w audit ≤ MAX_MACHINE_JOURNAL_BYTES ∧
    ry_retired_domains r !! pd_domain_id p = Some t ∧ audit_receipt w audit = Ok (rt_receipt t) ∧
    dq_operation_id (du_request audit) = pd_operation_id p ∧ dq_domain_id (du_request audit) = pd_domain_id p ∧
    aw_audit_hash w audit = pd_audit_sha256 p.

Definition anchor_epoch r : Uuid := default (ry_epoch r) (ry_anchor_epoch r).

Lemma registry_valid anchor r :
  registry_invalid w anchor host r = false ↔
  anchor = (1, anchor_epoch r, host) ∧ ry_version r = 1 ∧ ry_host r = host ∧
  (∀ d, ry_domains r = Some d → domains_invalid d = false) ∧
  N.of_nat (size (ry_holds r)) ≤ MAX_HOLDS ∧
  N.of_nat (size (ry_participants r)) ≤ MAX_DOMAINS - 2 ∧
  map_Forall (λ id p, participant_invalid (id, p) = false) (ry_participants r) ∧
  (∀ h, ry_coordinator r = Some h → coordinator_invalid h = false) ∧
  map_Forall (λ id h, hold_invalid w (id, h) = false) (ry_holds r).
Proof.
  unfold registry_invalid. rewrite !orb_false_iff, !bool_decide_eq_false, existsb_entries, existsb_entries.
  assert (∀ {A} (o : option A) (f : A → bool),
    match o with Some x => f x | None => false end = false ↔ ∀ x, o = Some x → f x = false) as Ho.
  { intros A [x|] f; naive_solver. }
  rewrite !Ho, !N.nlt_ge. unfold anchor_epoch. split.
  - intros H. destruct_and! H. split_and!; try done; by apply dec_stable.
  - naive_solver.
Qed.

Lemma check_retired_ok r domain t :
  check_retired r domain t = Ok tt ↔
  retired_fine domain t ∧ (pd_domain_id <$> ry_pending_domain_retirement r = Some domain ∨ clear_of r domain) ∧
  commit_domain r ≠ Some domain.
Proof.
  unfold check_retired. rewrite !check_then, !guard_ok, !orb_false_iff, andb_false_iff, negb_false_iff,
    bool_decide_eq_true, !orb_false_iff, !existsb_values_false.
  unfold uuid_is_nil. rewrite !bool_decide_eq_false, <-eq_None_not_Some. unfold retired_fine, clear_of, commit_domain.
  assert (∀ {A} (m : gmap ExecutionDomainId A) (f : A → ExecutionDomainId),
    map_Forall (λ _ x, bool_decide (f x = domain) = false) m ↔ map_Forall (λ _ x, f x ≠ domain) m) as Hf.
  { intros A m f. unfold map_Forall. by setoid_rewrite bool_decide_eq_false. }
  assert (∀ {A} (m : gmap DurableId A) (f : A → ExecutionDomainId),
    map_Forall (λ _ x, bool_decide (f x = domain) = false) m ↔ map_Forall (λ _ x, f x ≠ domain) m) as Hg.
  { intros A m f. unfold map_Forall. by setoid_rewrite bool_decide_eq_false. }
  rewrite Hf, Hg. split.
  - intros ([[[[? ?] ?] ?] ?] & Hc & ?). split_and!; try done; try by apply dec_stable. naive_solver.
  - naive_solver.
Qed.

Lemma receipt_fields audit receipt :
  audit_receipt w audit = Ok receipt →
  dc_operation_id receipt = dq_operation_id (du_request audit) ∧
  dc_domain_id receipt = dq_domain_id (du_request audit) ∧
  dc_manager_store_uuid receipt = ci_manager_store_uuid (cv_inventory (du_preview audit)) ∧
  dc_audit_sha256 receipt = aw_audit_hash w audit.
Proof. unfold audit_receipt. intros H. result_inv. done. Qed.

Lemma retirements_valid fs r : reg_ok r → audited fs r → validate_retirements w fs r = Ok tt.
Proof.
  intros Hok Ha. unfold validate_retirements. apply check_then. rewrite guard_ok, bool_decide_eq_false. split.
  { pose proof (rk_room _ Hok) as Hroom. unfold identities in Hroom.
    assert (size (ry_retired_domains r) ≤ size (dom (ry_retired_domains r) ∪ dom (ry_participants r)))%nat.
    { rewrite <-(size_dom (ry_retired_domains r)). apply subseteq_size. set_solver. }
    lia. }
  destruct (proj2 (result_mapM_unit (λ p : ExecutionDomainId * RetiredDomain, check_retired r p.1 p.2)
    (btree_entries (ry_retired_domains r)))) as [k ->].
  { apply Forall_btree_entries. intros domain t Ht. apply check_retired_ok. split; [by apply (rk_retired _ Hok)|].
    by apply (rk_fence _ Hok). }
  simpl. destruct (ry_pending_domain_retirement r) as [p|] eqn:Hp; [|done].
  destruct (Ha p Hp) as (audit & t & Hfile & Hlen & Ht & Hr & H1 & H2 & H3).
  unfold read_audit. rewrite Hfile, read_written by done. cbn [mbind result_bind].
  rewrite Hr. cbn [mbind result_bind]. apply guard_ok. rewrite Ht, !orb_false_iff, !bool_decide_eq_false. split_and!.
  - intros [i Hi]. apply (rk_commit _ Hok) in Hi as [_ Hi]. congruence.
  - tauto.
  - tauto.
  - tauto.
  - tauto.
  - intros []. destruct (receipt_fields _ _ Hr) as (_ & _ & _ & ->). done.
Qed.

(** What [load] has read. *)
Lemma load_inv fs r :
  load w fs host = Ok (Some r) →
  ∃ payload, af_anchor fs = Some (Written (1, anchor_epoch r, host)) ∧
    aw_anchor_len w (1, anchor_epoch r, host) ≤ MAX_REGISTRY_BYTES ∧
    af_registry fs = Some (Written {| ev_payload := payload; ev_sha256 := aw_registry_hash w payload |}) ∧
    aw_registry_len w payload ≤ MAX_REGISTRY_BYTES ∧ load_blob w fs payload = Ok r ∧
    registry_invalid w (1, anchor_epoch r, host) host r = false ∧ validate_retirements w fs r = Ok tt.
Proof.
  unfold load. intros H.
  assert (∃ anchor registry, af_anchor fs = anchor ∧ af_registry fs = registry ∧
    (anchor ← read_with_limit anchor (aw_anchor_len w) MAX_REGISTRY_BYTES;
     envelope ← read_with_limit registry (λ e, aw_registry_len w (ev_payload e)) MAX_REGISTRY_BYTES;
     _ ← guard_err (bool_decide (aw_registry_hash w (ev_payload envelope) ≠ ev_sha256 envelope))
           (OtherIo "authority history checksum mismatch");
     r ← load_blob w fs (ev_payload envelope);
     _ ← guard_err (registry_invalid w anchor host r) (OtherIo "authority identity/schema/history mismatch");
     _ ← validate_retirements w fs r; Ok (Some r)) = Ok (Some r)) as (oa & oe & Ea & Ee & H').
  { exists (af_anchor fs), (af_registry fs). split_and!; [done..|].
    destruct (af_anchor fs), (af_registry fs); done. }
  clear H. apply result_bind_Ok in H' as (anchor & H1 & H). apply result_bind_Ok in H as (envelope & H2 & H).
  apply check_then in H as [H3 H]. apply guard_ok, bool_decide_eq_false in H3.
  apply result_bind_Ok in H as (r' & H4 & H). apply check_then in H as [H5 H]. apply check_then in H as [H6 H].
  apply guard_ok in H5. injection H as ->.
  assert (anchor = (1, anchor_epoch r, host)) as -> by by apply registry_valid in H5 as [? _].
  apply read_inv in H1 as [-> Hl1], H2 as [-> Hl2]. destruct envelope as [payload hash]. cbn [ev_payload ev_sha256] in *.
  apply dec_stable in H3 as <-. by exists payload.
Qed.

Lemma load_blob_pointer fs payload r :
  load_blob w fs payload = Ok r → ry_pending_machine_blob r = ry_pending_machine_blob payload.
Proof.
  unfold load_blob. destruct (ry_pending_machine_blob payload) as [b|] eqn:Hb; [|by intros [= <-]].
  intros H. result_inv. by rewrite <-Hb.
Qed.

(** The blob a loaded registry points to is there. *)
Lemma load_blob_file fs payload r b :
  load_blob w fs payload = Ok r → ry_pending_machine_blob r = Some b →
  ∃ intent, af_blobs fs !! blob_path b = Some (Written intent) ∧ ry_pending_machine_commit r = Some intent.
Proof.
  intros H Hb. rewrite (load_blob_pointer _ _ _ H) in Hb. unfold load_blob in H. rewrite Hb in H.
  apply check_then in H as [_ H]. apply result_bind_Ok in H as (intent & H1 & H). apply check_then in H as [_ [= <-]].
  apply read_inv in H1 as [H1 _]. by exists intent.
Qed.

(** Files that are not referenced do not matter. *)
Lemma load_ext fs fs' r :
  load w fs host = Ok (Some r) → af_anchor fs' = af_anchor fs → af_registry fs' = af_registry fs →
  (∀ b, ry_pending_machine_blob r = Some b → af_blobs fs' !! blob_path b = af_blobs fs !! blob_path b) →
  (∀ p, ry_pending_domain_retirement r = Some p →
    af_audits fs' !! pd_operation_id p = af_audits fs !! pd_operation_id p) →
  load w fs' host = Ok (Some r).
Proof.
  intros H Ha Hr Hb Hp. pose proof (load_inv _ _ H) as (payload & Ea & _ & Er & _ & Hl & _ & Hv).
  assert (load_blob w fs' payload = load_blob w fs payload) as Hl'.
  { pose proof (load_blob_pointer _ _ _ Hl) as Hptr. unfold load_blob.
    destruct (ry_pending_machine_blob payload) as [b|]; [|done]. by rewrite (Hb b Hptr). }
  assert (validate_retirements w fs' r = validate_retirements w fs r) as Hv'.
  { unfold validate_retirements. destruct (ry_pending_domain_retirement r) as [p|]; [|done].
    unfold read_audit. by rewrite (Hp p eq_refl). }
  unfold load in *. rewrite Ha, Hr, Ea, Er in *.
  destruct (read_with_limit (Some (Written (1, _, _))) _ _); [|done]. cbn [mbind result_bind] in *.
  destruct (read_with_limit (Some (Written _)) _ _) as [e|] eqn:He; [|done]. cbn [mbind result_bind] in *.
  apply read_inv in He as [[= <-] _]. cbn [ev_payload] in *. rewrite Hl', Hl in *.
  cbn [mbind result_bind] in *. by rewrite Hv'.
Qed.

(** ** Publication *)
Context (Hdigest : ∀ intent, is_digest (aw_intent_hash w intent) = true).

(** The registry as it is published. *)
Definition blob_of (intent : MachineCommitIntent) : MachineBlob :=
  {| mb_operation_id := rq_operation_id (mi_request intent); mb_sha256 := aw_intent_hash w intent |}.
Definition published r : Registry := r <| ry_pending_machine_blob := blob_of <$> ry_pending_machine_commit r |>.

Lemma encode_registry_inv r payload blob :
  encode_registry w r = Ok (payload, blob) →
  payload = (published r) <| ry_pending_machine_commit := None |> ∧
  blob = (λ i, (blob_of i, i)) <$> ry_pending_machine_commit r ∧
  aw_registry_len w payload ≤ MAX_REGISTRY_BYTES ∧
  ∀ i, ry_pending_machine_commit r = Some i → aw_intent_len w i ≤ MAX_MACHINE_JOURNAL_BYTES.
Proof.
  unfold encode_registry, published. intros H. apply result_bind_Ok in H as (enc & H1 & H).
  apply check_then in H as [H2%guard_ok%bool_decide_eq_false [= ->]]. cbn in H2.
  destruct r as [? ? ? ? ? ? ? ? ? ? ? ? [i|] ? ? ?]; cbn in *.
  - apply check_then in H1 as [H1%guard_ok%bool_decide_eq_false H]. injection H as <- <-.
    split_and!; [done|done|lia|]. intros j [= <-]. lia.
  - injection H1 as <- <-. split_and!; [done|done|lia|done].
Qed.

(** What was written is read back. *)
Lemma load_blob_written fs r :
  (∀ i, ry_pending_machine_commit r = Some i → rq_operation_id (mi_request i) ≠ uuid_nil ∧
    ry_pending_domain_retirement r = None) →
  (∀ i, ry_pending_machine_commit r = Some i → aw_intent_len w i ≤ MAX_MACHINE_JOURNAL_BYTES) →
  (∀ i, ry_pending_machine_commit r = Some i → af_blobs fs !! blob_path (blob_of i) = Some (Written i)) →
  load_blob w fs ((published r) <| ry_pending_machine_commit := None |>) = Ok (published r).
Proof.
  intros Hnil Hlen Hblob. unfold load_blob.
  destruct (ry_pending_machine_commit r) as [i|] eqn:Hi.
  2:{ unfold published. destruct r; cbn in *. by subst. }
  replace (ry_pending_machine_blob ((published r) <| ry_pending_machine_commit := None |>)) with (Some (blob_of i))
    by (unfold published; cbn; by rewrite Hi).
  destruct (Hnil i eq_refl) as [Hop _]. specialize (Hlen i eq_refl). specialize (Hblob i eq_refl).
  apply check_then. split.
  { apply guard_ok. unfold uuid_is_nil. rewrite !orb_false_iff, !bool_decide_eq_false, negb_false_iff.
    split_and!; [done|apply Hdigest|by intros [? ?]]. }
  rewrite Hblob, read_written by done. cbn [mbind result_bind]. apply check_then. split.
  { apply guard_ok. rewrite orb_false_iff, !bool_decide_eq_false. split; tauto. }
  unfold published. destruct r; cbn in *. by subst.
Qed.

Lemma load_published fs r :
  reg_ok r → audited fs r → encode_registry w r = Ok ((published r) <| ry_pending_machine_commit := None |>,
    (λ i, (blob_of i, i)) <$> ry_pending_machine_commit r) →
  af_anchor fs = Some (Written (1, anchor_epoch r, host)) →
  aw_anchor_len w (1, anchor_epoch r, host) ≤ MAX_REGISTRY_BYTES →
  af_registry fs = Some (Written {| ev_payload := (published r) <| ry_pending_machine_commit := None |>;
    ev_sha256 := aw_registry_hash w ((published r) <| ry_pending_machine_commit := None |>) |}) →
  (∀ i, ry_pending_machine_commit r = Some i → af_blobs fs !! blob_path (blob_of i) = Some (Written i)) →
  load w fs host = Ok (Some (published r)).
Proof.
  intros Hok Ha He Hanchor Hlen Hreg Hblob. apply encode_registry_inv in He as (_ & _ & Hl & Hi).
  unfold load. rewrite Hanchor, Hreg, !read_written by done. cbn [mbind result_bind ev_payload ev_sha256].
  rewrite bool_decide_eq_false_2 by tauto. cbn [guard_err mbind result_bind].
  assert (load_blob w fs ((published r) <| ry_pending_machine_commit := None |>) = Ok (published r)) as Hb
    by (apply load_blob_written; [apply Hok|done..]).
  rewrite Hb. cbn [mbind result_bind].
  assert (reg_ok (published r)) as Hok' by by destruct Hok.
  replace (registry_invalid w _ host _) with false.
  2:{ symmetry. apply registry_valid. destruct Hok'. by split_and!. }
  cbn [guard_err mbind result_bind]. rewrite retirements_valid; [done|done|]. by intros p Hp; apply Ha.
Qed.

Definition refused a a' : Prop := da_state a' = da_state a ∨ ∃ detail, da_state a' = StUnknown detail.

(** A reading survives the removal of blobs it does not point to. *)
Lemma load_prune undeleted a r :
  da_state a = StReady r → load w (da_files a) host = Ok (Some r) →
  load w (da_files (prune_machine_blobs undeleted a)) host = Ok (Some r).
Proof.
  intros Hs Hl. unfold prune_machine_blobs. rewrite Hs. cbn. eapply load_ext; [exact Hl|done..| |done].
  intros b Hb. cbn. destruct (load_inv _ _ Hl) as (payload & _ & _ & _ & _ & Hlb & _).
  destruct (load_blob_file _ _ _ _ Hlb Hb) as (i & Hi & _). rewrite Hi. apply map_lookup_filter_Some.
  split; [done|]. cbn. rewrite Hb. cbn. rewrite (bool_decide_eq_false_2 (Some _ ≠ Some _)) by tauto.
  by rewrite andb_false_r.
Qed.

Lemma load_drop fs r (old : MachineBlob) :
  load w fs host = Ok (Some r) → mb_sha256 <$> ry_pending_machine_blob r ≠ Some (mb_sha256 old) →
  load w (fs <| af_blobs ::= delete (blob_path old) |>) host = Ok (Some r).
Proof.
  intros Hl Hne. eapply load_ext; [exact Hl|done..| |done]. intros b Hb. cbn. apply lookup_delete_ne.
  rewrite Hb in Hne. cbn in Hne. unfold blob_path. intros [= _ Heq]. congruence.
Qed.

(** A new file beside those that are read. *)
Lemma load_insert_blob fs r path doc :
  load w fs host = Ok (Some r) → af_blobs fs !! path = None →
  load w (fs <| af_blobs ::= <[path := doc]> |>) host = Ok (Some r).
Proof.
  intros Hl Hnone. eapply load_ext; [exact Hl|done..| |done]. intros b Hb. cbn. apply lookup_insert_ne. intros ->.
  destruct (load_inv _ _ Hl) as (payload & _ & _ & _ & _ & Hlb & _).
  destruct (load_blob_file _ _ _ _ Hlb Hb) as (i & Hi & _). congruence.
Qed.

Lemma write_blob_spec io fs next fs' res :
  (∃ r, load w fs host = Ok (Some r)) ∨ ry_pending_machine_commit next = None →
  write_blob io fs ((λ i, (blob_of i, i)) <$> ry_pending_machine_commit next) = (fs', res) →
  load w fs' host = load w fs host ∧ af_anchor fs' = af_anchor fs ∧ af_audits fs' = af_audits fs ∧
  (res = Ok tt → ∀ i, ry_pending_machine_commit next = Some i →
    af_blobs fs' !! blob_path (blob_of i) = Some (Written i)).
Proof.
  intros Hl H. destruct (ry_pending_machine_commit next) as [i|]; cbn in H; [|by simplify_eq].
  destruct Hl as [[r Hl]|]; [|done].
  destruct (af_blobs fs !! blob_path (blob_of i)) as [[d|old]|] eqn:Hb.
  - by simplify_eq.
  - simplify_eq. split_and!; [done..|]. intros Hg j [= <-]. apply guard_ok, bool_decide_eq_false in Hg.
    apply dec_stable in Hg as ->. done.
  - unfold atomic_write in H. destruct (io_blob_fails io) as [[]|]; simplify_eq.
    + split_and!; [rewrite Hl; by apply load_insert_blob|done..].
    + done.
    + split_and!; [rewrite Hl; by apply load_insert_blob|done..|]. intros _ j [= <-]. by apply lookup_insert_eq.
Qed.

(** Publication: the files hold the old registry or the new one, memory the same
    one or nothing, and success means the new one. *)
Lemma publish_spec io a next a' res :
  da_host a = host → reg_ok next → audited (da_files a) next →
  af_anchor (da_files a) = Some (Written (1, anchor_epoch next, host)) →
  aw_anchor_len w (1, anchor_epoch next, host) ≤ MAX_REGISTRY_BYTES →
  (∃ r, load w (da_files a) host = Ok (Some r)) ∨ ry_pending_machine_commit next = None →
  publish w io a next = (a', res) →
  da_host a' = host ∧
  (load w (da_files a') host = load w (da_files a) host ∧ (∃ e, res = Err e) ∧ refused a a' ∨
   load w (da_files a') host = Ok (Some (published next)) ∧
     ((∃ e, res = Err e) ∧ (∃ detail, da_state a' = StUnknown detail) ∨
      res = Ok tt ∧ da_state a' = StReady (published next))).
Proof.
  intros Hhost Hok Haud Hanchor Hlen Hl H. unfold publish in H.
  destruct (check_publication w a next) as [[payload blob]|e] eqn:Hc.
  2:{ simplify_eq. split; [done|]. left. split_and!; [done|eauto|by left]. }
  unfold check_publication in Hc. apply result_bind_Ok in Hc as (enc & Henc & Hc).
  apply check_then in Hc as [_ [= ->]]. pose proof Henc as Henc'.
  apply encode_registry_inv in Henc as (-> & -> & Hplen & _).
  destruct (write_blob io (da_files a) _) as [fs [[]|e]] eqn:Hw.
  2:{ simplify_eq. destruct (write_blob_spec _ _ _ _ _ Hl Hw) as (Hsame & _ & _ & _). split; [done|]. left.
      split_and!; [done|eauto|by left]. }
  destruct (write_blob_spec _ _ _ _ _ Hl Hw) as (Hsame & Ha' & Haud' & Hblob). specialize (Hblob eq_refl).
  set (envelope := {| ev_payload := _; ev_sha256 := _ |}) in H.
  assert (load w (fs <| af_registry := Some (Written envelope) |>) host = Ok (Some (published next))) as Hnew.
  { apply load_published; [done| |done|cbn; congruence|done|done|done]. intros p Hp. cbn. rewrite Haud'. by apply Haud. }
  unfold atomic_write in H. destruct (io_registry_fails io) as [[]|].
  - simplify_eq. split; [done|]. right. split; [done|]. left. eauto.
  - simplify_eq. split; [done|]. left. split_and!; [done|eauto|right; by eexists].
  - injection H as <- <-.
    assert (fst <$> ((λ i, (blob_of i, i)) <$> ry_pending_machine_commit next)
            = blob_of <$> ry_pending_machine_commit next) as Hfst by by destruct (ry_pending_machine_commit next).
    rewrite Hfst.
    change (next <| ry_pending_machine_blob := blob_of <$> ry_pending_machine_commit next |>) with (published next).
    set (b := a <| da_files := fs <| af_registry := Some (Written envelope) |> |> <| da_state := StReady (published next) |>).
    match goal with |- context [prune_machine_blobs _ ?x] => set (c := x) end.
    assert (load w (da_files c) host = Ok (Some (published next)) ∧ da_state c = StReady (published next) ∧
            da_host c = host) as (Hc & Hs & Hh).
    { subst c. destruct (match da_state a with StReady old => _ | _ => _ end) as [old|]; [|by subst b].
      case_bool_decide as Hsha; [by subst b|]. destruct (io_undeleted io _); [by subst b|]. split_and!; [|done..].
      pose proof (load_drop _ (published next) old Hnew) as Hd. cbn in Hd |- *. apply Hd. intros Heq. apply Hsha. rewrite <-Heq. unfold published. cbn.
      by destruct (ry_pending_machine_commit next). }
    split; [unfold prune_machine_blobs; by rewrite Hs|]. right. split; [by apply load_prune|]. right. split; [done|].
    unfold prune_machine_blobs. by rewrite Hs.
Qed.
End facts.
