(* ===== verification/AuthorityInv.v ===== *)
(** * AuthorityInv: every operation keeps the invariant of the registry

    [reg_ok] is what [load] asks for; [reg_safe] says that identities of managers are
    not shared, that sessions are current, that an allocation has one grant and that
    every grant belongs to a participant.  [permitted] names what the callers of an
    operation check before it. *)
From S2P Require Import Prelude Spec Validate Kernel Scoped Observation Machine MachineStore.
From S2P Require Import Reservation MachineOffer MachineRecovery Columns Native Policy PolicyFacts.
From S2P Require Import Registry RegistryOps Authority AuthorityFacts.

Lemma size_union_le (X Y : gset ExecutionDomainId) : (size (X ∪ Y) ≤ size X + size Y)%nat.
Proof. rewrite size_union_alt. assert (size (Y ∖ X) ≤ size Y)%nat; [apply subseteq_size; set_solver|lia]. Qed.

Section inv.
Context (w : AuthorityWire) (host : string).
Implicit Types (r n : Registry) (a : DurableAuthority) (domain : ExecutionDomainId) (p : ParticipantAnchor).

Definition grant_domain (g : GrantSnapshot) : ExecutionDomainId := ak_domain_id (cd_key (gs_candidate g)).

Definition anchor_fine r p : Prop :=
  pa_retired_sequence_floor p ≤ pa_accepted_sequence p ∧
  ∀ s, pa_session p = Some s → pa_committed p = true ∧ se_connection_epoch s ≤ pa_next_connection_epoch p ∧
    se_authority_epoch s = ry_epoch r ∧ se_manager_store_uuid s = pa_store p.

Record reg_safe r : Prop := {
  rs_unique : ∀ d p d' p', ry_participants r !! d = Some p → ry_participants r !! d' = Some p' →
    d ≠ d' → pa_nonce p ≠ pa_nonce p' ∧ pa_store p ≠ pa_store p';
  rs_retired : ∀ d t d' p', ry_retired_domains r !! d = Some t → ry_participants r !! d' = Some p' →
    d ≠ d' → pa_nonce p' ≠ rt_installation_nonce t ∧ pa_store p' ≠ rt_manager_store_uuid t;
  rs_pending : ∀ q, ry_pending_domain_retirement r = Some q → is_Some (ry_retired_domains r !! pd_domain_id q) ∧
    map_Forall (λ _ p, pg_parent_domain (pa_registration p) ≠ pd_domain_id q) (ry_participants r);
  rs_anchors : map_Forall (λ _ p, anchor_fine r p) (ry_participants r);
  rs_grants : ∀ id g, ry_machine_permissions r !! id = Some g →
    gs_grant_id g = id ∧ is_Some (ry_participants r !! grant_domain g);
  rs_keys : ∀ id g id' g', ry_machine_permissions r !! id = Some g → ry_machine_permissions r !! id' = Some g' →
    cd_key (gs_candidate g) = cd_key (gs_candidate g') → id = id';
}.

Definition reg_inv r : Prop := reg_ok w host r ∧ reg_safe r.

(** ** What the callers check ([require_machine_registration], [Request_validate],
    [validate_binding], fresh identities) *)
Definition permitted r (c : Call) : Prop :=
  match c with
  | RecordReset id reason => id ≠ uuid_nil ∧ valid_reason reason = true
  | EstablishNativeCoverage id _ _ => id ≠ uuid_nil
  | BindCoordinator id store generation _ => id ≠ uuid_nil ∧ store ≠ uuid_nil ∧ generation ≠ uuid_nil
  | CompleteMachineReset _ epoch store generation _ =>
      store ≠ uuid_nil ∧ generation ≠ uuid_nil ∧ epoch ≠ ry_epoch r
  | PreparePairing g =>
      ii_domain_id (pg_installation g) ≠ uuid_nil ∧ ii_installation_nonce (pg_installation g) ≠ uuid_nil ∧
      pg_manager_store_uuid g ≠ uuid_nil ∧ ry_retired_domains r !! pg_parent_domain g = None
  | PrepareMachineCommit i =>
      rq_operation_id (mi_request i) ≠ uuid_nil ∧
      (∀ g, g ∈ mi_grants i → grant_domain g = se_domain_id (rq_session (mi_request i)) ∧
        (∀ old, ry_machine_permissions r !! gs_grant_id g = Some old → cd_key (gs_candidate old) = cd_key (gs_candidate g)) ∧
        ∀ g', g' ∈ mi_grants i → gs_grant_id g' = gs_grant_id g → cd_key (gs_candidate g') = cd_key (gs_candidate g))
  | ArmBootstrap b _ => validate_binding w b = Ok tt
  | _ => True
  end.

(** ** Updates that keep identities, fences and grants *)
Definition anchors_kept r n : Prop :=
  ∀ d, match ry_participants r !! d, ry_participants n !! d with
       | None, None => True
       | Some p, Some p' => pa_registration p' = pa_registration p ∧ anchor_fine n p'
       | _, _ => False end.

Lemma anchors_kept_some r n d p' :
  anchors_kept r n → ry_participants n !! d = Some p' →
  ∃ p, ry_participants r !! d = Some p ∧ pa_registration p' = pa_registration p ∧ anchor_fine n p'.
Proof. intros H Hp. specialize (H d). rewrite Hp in H. destruct (ry_participants r !! d) as [p|]; [eauto|done]. Qed.
Lemma anchors_kept_is_Some r n d :
  anchors_kept r n → is_Some (ry_participants n !! d) ↔ is_Some (ry_participants r !! d).
Proof.
  intros H. specialize (H d). destruct (ry_participants r !! d), (ry_participants n !! d); try done; by split; intros [].
Qed.
Lemma anchors_kept_dom r n : anchors_kept r n → dom (ry_participants n) = dom (ry_participants r).
Proof. intros H. apply set_eq. intros d. rewrite !elem_of_dom. by apply anchors_kept_is_Some. Qed.

(** The parts of a registry the fences and identities depend on. *)
Lemma reg_inv_frame r n :
  reg_inv r → ry_version n = ry_version r → ry_host n = ry_host r → ry_domains n = ry_domains r →
  ry_retired_domains n = ry_retired_domains r → ry_pending_domain_retirement n = ry_pending_domain_retirement r →
  ry_machine_permissions n ⊆ ry_machine_permissions r →
  ry_pending_machine_commit n = ry_pending_machine_commit r ∨ ry_pending_machine_commit n = None →
  N.of_nat (size (ry_holds n)) ≤ MAX_HOLDS →
  map_Forall (λ id h, hold_invalid w (id, h) = false) (ry_holds n) →
  (∀ h, ry_coordinator n = Some h → coordinator_invalid h = false) →
  anchors_kept r n → reg_inv n.
Proof.
  intros [Hok Hs] Hv Hh Hd Hrt Hpr Hg Hc Hhs Hholds Hco Ha. pose proof (anchors_kept_dom r n Ha) as Hdom.
  assert (∀ k p', ry_participants n !! k = Some p' → ∃ p, ry_participants r !! k = Some p ∧
    pa_registration p' = pa_registration p) as Hsome.
  { intros k p' Hp. destruct (anchors_kept_some r n k p' Ha Hp) as (p & ? & ? & _). eauto. }
  split; constructor.
  - rewrite Hv. apply Hok.
  - rewrite Hh. apply Hok.
  - rewrite Hd. apply Hok.
  - done.
  - done.
  - rewrite <-size_dom, Hdom, size_dom. apply Hok.
  - intros d p' Hp'. destruct (Hsome d p' Hp') as (p & Hp & Hreg). pose proof (rk_participants _ _ _ Hok d p Hp) as Hx.
    unfold participant_invalid, pa_domain, pa_nonce, pa_store in *. cbn in *. by rewrite Hreg.
  - done.
  - unfold identities. rewrite Hrt, Hdom. apply Hok.
  - rewrite Hrt. apply Hok.
  - intros d. rewrite Hrt. intros Hd'. destruct (rk_fence _ _ _ Hok d Hd') as [Hf Hnc]. split.
    + rewrite Hpr. destruct Hf as [Hf|(H1 & H2 & H3)]; [by left|right]. split_and!.
      * apply eq_None_not_Some. rewrite anchors_kept_is_Some by done. by rewrite H1; intros [].
      * intros k p' Hp'. destruct (Hsome k p' Hp') as (p & Hp & ->). by apply (H2 k p).
      * intros id g Hid. apply (H3 id g). by eapply lookup_weaken.
    + unfold commit_domain in *. destruct Hc as [->| ->]; [done|by cbn].
  - intros i Hi. rewrite Hpr. destruct Hc as [Hc|Hc]; [|congruence]. rewrite Hc in Hi. by apply (rk_commit _ _ _ Hok).
  - intros d p' d' q' Hp' Hq' Hne. destruct (Hsome d p' Hp') as (p & Hp & H1). destruct (Hsome d' q' Hq') as (q & Hq & H2).
    unfold pa_nonce, pa_store. rewrite H1, H2. by apply (rs_unique _ Hs d p d' q).
  - intros d t d' p'. rewrite Hrt. intros Ht Hp' Hne. destruct (Hsome d' p' Hp') as (p & Hp & H1).
    unfold pa_nonce, pa_store. rewrite H1. by apply (rs_retired _ Hs d t d' p).
  - intros q. rewrite Hpr, Hrt. intros Hq. destruct (rs_pending _ Hs q Hq) as [H1 H2]. split; [done|].
    intros k p' Hp'. destruct (Hsome k p' Hp') as (p & Hp & ->). by apply (H2 k p).
  - intros d p' Hp'. by destruct (anchors_kept_some r n d p' Ha Hp') as (p & _ & _ & ?).
  - intros id g Hid. rewrite anchors_kept_is_Some by done. apply (rs_grants _ Hs). by eapply lookup_weaken.
  - intros id g id' g' Hid Hid'. apply (rs_keys _ Hs); by eapply lookup_weaken.
Qed.

Lemma anchors_kept_refl r n :
  reg_safe r → ry_participants n = ry_participants r → ry_epoch n = ry_epoch r → anchors_kept r n.
Proof.
  intros Hs Hp He d. rewrite Hp. destruct (ry_participants r !! d) as [p|] eqn:Hd; [|done]. split; [done|].
  pose proof (rs_anchors _ Hs d p Hd) as Hf. unfold anchor_fine in *. by rewrite He.
Qed.

Lemma anchors_kept_insert r n d p p' :
  reg_safe r → ry_participants r !! d = Some p → ry_participants n = <[d := p']> (ry_participants r) →
  ry_epoch n = ry_epoch r → pa_registration p' = pa_registration p → anchor_fine r p' → anchors_kept r n.
Proof.
  intros Hs Hd Hp He Hreg Hf d'. rewrite Hp. destruct (decide (d = d')) as [<-|Hne].
  - rewrite lookup_insert_eq, Hd. split; [done|]. unfold anchor_fine in *. by rewrite He.
  - rewrite lookup_insert_ne by done. destruct (ry_participants r !! d') as [q|] eqn:Hq; [|done]. split; [done|].
    pose proof (rs_anchors _ Hs d' q Hq) as Hf'. unfold anchor_fine in *. by rewrite He.
Qed.

Definition update_next (u : Update) : option Registry :=
  match u with Unchanged => None | Publish n => Some n | PublishAfter _ n => Some n end.

(** An update of one anchor that keeps its registration. *)
Lemma update_anchor r domain p p' :
  reg_inv r → ry_participants r !! domain = Some p → pa_registration p' = pa_registration p → anchor_fine r p' →
  reg_inv (r <| ry_participants ::= <[domain := p']> |>).
Proof.
  intros Hinv Hp Hreg Hf. pose proof Hinv as [Hok Hs].
  eapply reg_inv_frame; [exact Hinv|done..|by left|apply Hok|apply Hok|apply Hok|].
  by eapply anchors_kept_insert.
Qed.

Lemma committed_anchor_ok r domain p :
  committed_anchor r domain = Ok p → ry_participants r !! domain = Some p ∧ pa_committed p = true.
Proof.
  unfold committed_anchor. intros H. apply result_bind_Ok in H as (q & H1 & H).
  apply check_then in H as [H2%guard_ok%negb_false_iff [= ->]].
  destruct (ry_participants r !! domain); [|done]. by injection H1 as ->.
Qed.

(** Updates of one anchor: connections, sessions, sequences and the end of pairing. *)
Lemma reserve_inv domain epoch r n e :
  reg_inv r → reserve_machine_connection domain epoch r = Ok (n, e) → reg_inv n.
Proof.
  intros Hinv H. unfold reserve_machine_connection in H. apply check_then in H as [_ H].
  apply result_bind_Ok in H as (p & Hp & H). apply result_bind_Ok in H as (e' & He & H).
  apply check_then in H as [_ [= <- <-]]. apply committed_anchor_ok in Hp as [Hp _].
  destruct (checked_add _ 1) as [x|] eqn:Hx; [|done]. injection He as ->. apply checked_add_Some in Hx as [-> _].
  eapply update_anchor; [done|exact Hp|done|]. destruct (rs_anchors _ (proj2 Hinv) domain p Hp) as [Hf Hse].
  split; [done|]. intros s Hs. destruct (Hse s Hs) as (? & ? & ? & ?). cbn. split_and!; [done|lia|done..].
Qed.

Lemma accept_session_inv s r n u :
  reg_inv r → accept_machine_session s r = Ok u → update_next u = Some n → reg_inv n.
Proof.
  intros Hinv H Hu. unfold accept_machine_session in H. apply check_then in H as [_ H].
  apply result_bind_Ok in H as (p & Hp & H). apply committed_anchor_ok in Hp as [Hp Hc].
  case_bool_decide; [by injection H as <-|]. apply check_then in H as [Hg%guard_ok [= <-]].
  injection Hu as <-. split_conditions. eapply update_anchor; [done|exact Hp|done|].
  destruct (rs_anchors _ (proj2 Hinv) _ p Hp) as [Hf _]. split; [done|].
  intros s' [= <-]. cbn. repeat match goal with H : ¬ _ ≠ _ |- _ => apply dec_stable in H end.
  split_and!; [done|lia|done|done].
Qed.

Lemma checkpoint_inv domain sequence r n u :
  reg_inv r → checkpoint_machine_sequence domain sequence r = Ok u → update_next u = Some n → reg_inv n.
Proof.
  intros Hinv H Hu. unfold checkpoint_machine_sequence in H.
  apply result_bind_Ok in H as (p & Hp & H). apply committed_anchor_ok in Hp as [Hp Hc].
  case_bool_decide; [by injection H as <-|]. apply check_then in H as [_ [= <-]]. injection Hu as <-.
  eapply update_anchor; [done|exact Hp|done|]. destruct (rs_anchors _ (proj2 Hinv) domain p Hp) as [Hf Hse].
  split; [cbn; lia|done].
Qed.

Lemma ok_or_some {E A} (o : option A) (e : E) x : ok_or o e = Ok x ↔ o = Some x.
Proof. destruct o; simpl; split; congruence. Qed.

Lemma retire_sequences_inv domain floor r n u :
  reg_inv r → retire_machine_sequences domain floor r = Ok u → update_next u = Some n → reg_inv n.
Proof.
  intros Hinv H Hu. unfold retire_machine_sequences in H. apply result_bind_Ok in H as (p & Hp%ok_or_some & H).
  apply check_then in H as [Hg%guard_ok%bool_decide_eq_false H]. case_bool_decide; injection H as <-; [done|].
  injection Hu as <-. eapply update_anchor; [done|exact Hp|done|].
  destruct (rs_anchors _ (proj2 Hinv) domain p Hp) as [Hf Hse]. split; [cbn; lia|done].
Qed.

Lemma commit_pairing_inv domain r n u :
  reg_inv r → commit_pairing domain r = Ok u → update_next u = Some n → reg_inv n.
Proof.
  intros Hinv H Hu. unfold commit_pairing in H. apply result_bind_Ok in H as (p & Hp%ok_or_some & H).
  destruct (pa_committed p) eqn:Hc; injection H as <-; [done|]. injection Hu as <-.
  eapply update_anchor; [done|exact Hp|done|]. destruct (rs_anchors _ (proj2 Hinv) domain p Hp) as [Hf Hse].
  split; [done|]. intros s Hs. destruct (Hse s Hs) as (? & ?). done.
Qed.

(** *** Updates beside the anchors *)
Ltac frame Hinv :=
  pose proof Hinv as [Hok Hs]; eapply reg_inv_frame;
  [exact Hinv|done..|by left|try apply Hok|try apply Hok|try apply Hok|by apply anchors_kept_refl].

Lemma native_start_inv permission r n u :
  reg_inv r → record_native_start permission r = Ok u → update_next u = Some n → reg_inv n.
Proof.
  intros Hinv H Hu. unfold record_native_start in H.
  destruct (ry_native_permissions r !! np_invocation_id permission).
  { case_bool_decide; [by injection H as <-|done]. }
  apply result_bind_Ok in H as (key & _ & H). do 3 apply check_then in H as [_ H]. injection H as <-. injection Hu as <-.
  frame Hinv.
Qed.

Lemma record_reset_inv id reason r n :
  reg_inv r → id ≠ uuid_nil → valid_reason reason = true → update_next (record_reset id reason r) = Some n → reg_inv n.
Proof.
  intros Hinv Hid Hreason Hu. unfold record_reset in Hu. destruct (ry_coordinator r) as [h|] eqn:Hh; [|done].
  case_bool_decide; [done|]. injection Hu as <-. frame Hinv. intros h' [= <-].
  pose proof (rk_coordinator _ _ _ Hok h Hh) as Hv. unfold coordinator_invalid in *. cbn. split_conditions.
  unfold uuid_is_nil. rewrite !orb_false_iff, Hreason. split_and!; try done; by apply bool_decide_eq_false_2; auto.
Qed.

Lemma coverage_inv id store empty r n :
  reg_inv r → id ≠ uuid_nil → update_next (establish_native_coverage id store empty r) = Some n → reg_inv n.
Proof.
  intros Hinv Hid Hu. unfold establish_native_coverage in Hu. destruct (_ || _); [done|].
  destruct empty; cbn [negb] in Hu; [injection Hu as <-; frame Hinv|].
  by eapply record_reset_inv; [..|exact Hu].
Qed.

Lemma retire_native_inv proven r n :
  reg_inv r → update_next (retire_native_starts proven r) = Some n → reg_inv n.
Proof.
  intros Hinv Hu. unfold retire_native_starts in Hu. destruct (negb _); [done|]. injection Hu as <-. frame Hinv.
Qed.

Lemma compact_inv store proven r n :
  reg_inv r → update_next (compact_machine_retirements store proven r) = Some n → reg_inv n.
Proof.
  intros Hinv Hu. unfold compact_machine_retirements in Hu. case_bool_decide; [done|]. injection Hu as <-. frame Hinv.
Qed.

Lemma bind_coordinator_inv id store generation process r n :
  reg_inv r → id ≠ uuid_nil → store ≠ uuid_nil → generation ≠ uuid_nil →
  update_next (bind_coordinator id store generation process r) = Some n → reg_inv n.
Proof.
  intros Hinv Hid Hst Hgen Hu.
  assert (reg_inv (r <| ry_coordinator := Some {| ch_store_uuid := store; ch_daemon_generation := generation;
    ch_process_identity := process; ch_pending_reset := None |} |>)) as Hbound.
  { frame Hinv. intros h [= <-]. unfold coordinator_invalid. cbn. unfold uuid_is_nil.
    by rewrite !bool_decide_eq_false_2. }
  unfold bind_coordinator in Hu. destruct (ry_coordinator r) as [h|]; [|by injection Hu as <-].
  case_bool_decide; [done|]. case_bool_decide; [|by injection Hu as <-]. by eapply record_reset_inv; [..|exact Hu].
Qed.

Lemma complete_reset_inv expected epoch store generation process a r u n :
  reg_inv r → store ≠ uuid_nil → generation ≠ uuid_nil →
  complete_machine_reset w expected epoch store generation process a r = Ok u → update_next u = Some n → reg_inv n.
Proof.
  intros Hinv Hst Hgen H Hu. unfold complete_machine_reset in H. apply check_then in H as [_ H].
  apply result_bind_Ok in H as (h & _ & H). apply result_bind_Ok in H as (gate & _ & H).
  apply check_then in H as [_ [= <-]]. injection Hu as <-. pose proof Hinv as [Hok Hs].
  eapply reg_inv_frame; [exact Hinv|done..|by left|apply Hok|apply Hok| |].
  - intros h' [= <-]. unfold coordinator_invalid. cbn. unfold uuid_is_nil. by rewrite !bool_decide_eq_false_2.
  - intros d. cbn. rewrite lookup_fmap. destruct (ry_participants r !! d) as [p|] eqn:Hp; [|done].
    split; [done|]. split; [apply (rs_anchors _ Hs d p Hp)|done].
Qed.

(** *** Holds *)
Lemma insert_hold_inv r id h :
  reg_inv r → N.of_nat (size (<[id := h]> (ry_holds r))) ≤ MAX_HOLDS → hold_invalid w (id, h) = false →
  reg_inv (r <| ry_holds ::= <[id := h]> |>).
Proof.
  intros Hinv Hsize Hh. frame Hinv; [done|]. apply map_Forall_insert_2; [done|apply Hok].
Qed.

Lemma hold_inv id reason requester r n u :
  reg_inv r → valid_reason reason = true → hold id reason requester r = Ok u → update_next u = Some n → reg_inv n.
Proof.
  intros Hinv Hreason H Hu. unfold hold in H. destruct (ry_holds r !! id) as [old|] eqn:Hold.
  { case_bool_decide; [done|by injection H as <-]. }
  apply check_then in H as [Hg%guard_ok%bool_decide_eq_false [= <-]]. injection Hu as <-. apply insert_hold_inv; [done| |].
  - rewrite map_size_insert_None by done. lia.
  - unfold hold_invalid. cbn. by rewrite Hreason, !bool_decide_eq_false_2 by tauto.
Qed.

Lemma arm_bootstrap_inv b requester r n u :
  reg_inv r → validate_binding w b = Ok tt → arm_bootstrap b requester r = Ok u → update_next u = Some n → reg_inv n.
Proof.
  intros Hinv Hb H Hu. unfold arm_bootstrap in H. destruct (ry_holds r !! _) as [old|] eqn:Hold.
  { destruct (_ || _); [done|by injection H as <-]. }
  apply check_then in H as [Hg%guard_ok [= <-]]. apply orb_false_iff in Hg as [_ Hg%bool_decide_eq_false].
  injection Hu as <-. apply insert_hold_inv; [done| |].
  - rewrite map_size_insert_None by done. lia.
  - unfold hold_invalid. cbn [fst snd ah_id ah_reason ah_released ah_release_reason ah_released_by ah_bootstrap
      ah_cleanup_proof]. rewrite Hb. by rewrite !bool_decide_eq_false_2 by tauto.
Qed.

Lemma release_hold_valid id h reason requester proof :
  hold_invalid w (id, h) = false → valid_reason reason = true →
  (∀ q, proof = Some q → ∃ b, ah_bootstrap h = Some b ∧ validate_proof w b q = Ok tt) →
  hold_invalid w (id, release_hold h reason requester proof) = false.
Proof.
  intros Hh Hreason Hproof. unfold hold_invalid in *. cbn [fst snd] in *. unfold release_hold.
  cbn [ah_id ah_reason ah_released ah_release_reason ah_released_by ah_bootstrap ah_cleanup_proof].
  rewrite !orb_false_iff in Hh. destruct Hh as [[[[[[H1 H2] _] _] _] H6] _].
  rewrite H1, H2, H6, Hreason. rewrite !bool_decide_eq_false_2 by (rewrite bool_decide_eq_true_2 by eauto; tauto).
  cbn [orb negb]. destruct proof as [q|]; [|done]. destruct (Hproof q eq_refl) as (b & -> & ->). done.
Qed.

Lemma force_release_inv id reason requester r n u :
  reg_inv r → valid_reason reason = true → force_release id reason requester r = Ok u →
  update_next u = Some n → reg_inv n.
Proof.
  intros Hinv Hreason H Hu. unfold force_release in H. apply result_bind_Ok in H as (h & Hh%ok_or_some & H).
  destruct (ah_released h) eqn:Hr; [case_bool_decide; [done|by injection H as <-]|].
  injection H as <-. injection Hu as <-. pose proof Hinv as [Hok _]. pose proof (rk_holds _ _ _ Hok id h Hh) as Hv.
  apply insert_hold_inv; [done| |].
  - rewrite map_size_insert_Some by (by rewrite Hh). apply Hok.
  - apply release_hold_valid; [done..|]. intros q Hq. unfold hold_invalid in Hv. cbn [fst snd] in Hv.
    rewrite !orb_false_iff in Hv. destruct Hv as [_ Hv]. by rewrite Hq, Hr in Hv.
Qed.

Lemma seal_bootstrap_inv proof requester r n u :
  reg_inv r → seal_bootstrap w proof requester r = Ok u → update_next u = Some n → reg_inv n.
Proof.
  intros Hinv H Hu. unfold seal_bootstrap in H. apply result_bind_Ok in H as (h & Hh%ok_or_some & H).
  apply result_bind_Ok in H as (b & Hb%ok_or_some & H). apply check_then in H as [Hv H].
  destruct (ah_released h) eqn:Hr; [case_bool_decide; [done|by injection H as <-]|].
  injection H as <-. injection Hu as <-. pose proof Hinv as [Hok _]. apply insert_hold_inv; [done| |].
  - rewrite map_size_insert_Some by (by rewrite Hh). apply Hok.
  - apply release_hold_valid; [by apply (rk_holds _ _ _ Hok)|done|]. intros q [= <-]. by exists b.
Qed.

(** *** The end of a commit *)
Lemma retire_grants_frame grants r :
  let n := foldl (retire_grant w) r grants in
  n = r <| ry_retired_allocations := ry_retired_allocations n |> <| ry_machine_permissions := ry_machine_permissions n |> ∧
  ry_machine_permissions n ⊆ ry_machine_permissions r.
Proof.
  revert r. induction grants as [|g grants IH]; intros r; cbn [foldl].
  { split; [by destruct r|done]. }
  destruct (IH (retire_grant w r g)) as [Heq Hsub]. cbn zeta. set (n := foldl _ _ _) in *. clearbody n.
  unfold retire_grant in *. case_bool_decide; [|done]. cbn in Heq, Hsub. split; [by rewrite Heq|].
  etrans; [exact Hsub|]. apply delete_subseteq.
Qed.

Lemma finish_commit_inv operation r n u :
  reg_inv r → finish_machine_commit w operation r = Ok u → update_next u = Some n → reg_inv n.
Proof.
  intros Hinv H Hu. unfold finish_machine_commit in H.
  destruct (ry_pending_machine_commit r) as [i|] eqn:Hi; [|by injection H as <-].
  apply check_then in H as [_ H]. destruct (retire_grants_frame (mi_grants i) r) as [Heq Hsub].
  set (m := foldl _ _ _) in *. clearbody m.
  assert (reg_inv (m <| ry_pending_machine_commit := None |>)) as Hm.
  { pose proof Hinv as [Hok Hs]. rewrite Heq.
    eapply reg_inv_frame; [exact Hinv|done..|by right|apply Hok|apply Hok|apply Hok|by apply anchors_kept_refl]. }
  clear Heq Hsub Hi Hinv. cbn zeta in H. set (k := m <| ry_pending_machine_commit := None |>) in *. clearbody k.
  apply result_bind_Ok in H as (p & Hp%ok_or_some & H). apply result_bind_Ok in H as (p' & Hp' & [= <-]).
  injection Hu as <-. destruct (rs_anchors _ (proj2 Hm) _ p Hp) as [Hf Hse].
  assert (pa_registration p' = pa_registration p ∧ anchor_fine k p') as [Hreg Hfine].
  { destruct (mi_outcome i); try (injection Hp' as <-; split; [done|split; [cbn; lia|done]]).
    apply check_then in Hp' as [Hg%guard_ok%bool_decide_eq_false [= <-]]. split; [done|]. split; [cbn; lia|done]. }
  by eapply update_anchor.
Qed.

(** *** The start of a commit *)
Definition grants_fit r domain (grants : list GrantSnapshot) : Prop :=
  ∀ g, g ∈ grants → grant_domain g = domain ∧
    (∀ old, ry_machine_permissions r !! gs_grant_id g = Some old → cd_key (gs_candidate old) = cd_key (gs_candidate g)) ∧
    ∀ g', g' ∈ grants → gs_grant_id g' = gs_grant_id g → cd_key (gs_candidate g') = cd_key (gs_candidate g).

Lemma propose_grant_cases r g n :
  propose_grant w (Ok r) g = Ok n →
  n = r ∨ n = r <| ry_machine_permissions ::= <[gs_grant_id g := g]> |> ∧
    ∀ id old, ry_machine_permissions r !! id = Some old →
      cd_key (gs_candidate old) = cd_key (gs_candidate g) → gs_grant_id old = gs_grant_id g.
Proof.
  unfold propose_grant. cbn [mbind result_bind]. case_bool_decide as Hrel; [by intros [= <-]; left|]. intros H.
  apply check_then in H as [_ H]. apply check_then in H as [H2%guard_ok [= <-]]. right. split; [done|].
  intros id old Hold Hkey. apply existsb_values_false in H2. specialize (H2 id old Hold). cbn in H2.
  rewrite bool_decide_eq_true_2 in H2 by done. apply orb_false_iff in H2 as [H2%bool_decide_eq_false _].
  by apply dec_stable in H2.
Qed.

Lemma propose_grant_inv r g n domain grants :
  reg_inv r → is_Some (ry_participants r !! domain) → ry_retired_domains r !! domain = None →
  grants_fit r domain (g :: grants) → propose_grant w (Ok r) g = Ok n →
  reg_inv n ∧ grants_fit n domain grants ∧ n = r <| ry_machine_permissions := ry_machine_permissions n |>.
Proof.
  intros Hinv Hpart Hret Hfit H. destruct (Hfit g (list_elem_of_here _ _)) as (Hdom & Hsame & Hpair).
  apply propose_grant_cases in H as [->|[-> Huniq]].
  { split_and!; [done| |by destruct r]. intros g' Hg'. destruct (Hfit g' (list_elem_of_further _ _ _ Hg')) as (? & ? & Hp).
    split_and!; [done..|]. intros g'' Hg''. apply Hp. by right. }
  pose proof Hinv as [Hok Hs]. split_and!; [split|..|by destruct r].
  - destruct Hok. constructor; try done. intros d Hd. destruct (rk_fence d Hd) as [[Hf|(H1 & H2 & H3)] Hnc]; split;
      try done; [by left|right]. split_and!; [done..|]. apply map_Forall_insert_2; [|done]. cbn.
    unfold grant_domain in Hdom. rewrite Hdom. intros <-. cbn in Hd. rewrite Hret in Hd. by destruct Hd.
  - destruct Hs. constructor; try done.
    + intros id g' Hg'. cbn in Hg'. apply lookup_insert_Some in Hg' as [[<- <-]|[Hne Hg']]; [|by apply rs_grants0].
      split; [done|]. cbn. by rewrite Hdom.
    + intros id1 g1 id2 g2 H1 H2 Hkey. cbn in H1, H2.
      apply lookup_insert_Some in H1 as [[<- <-]|[Hne1 H1]]; apply lookup_insert_Some in H2 as [[<- <-]|[Hne2 H2]].
      * done.
      * symmetry. rewrite <-(proj1 (rs_grants0 _ _ H2)). by apply (Huniq id2).
      * rewrite <-(proj1 (rs_grants0 _ _ H1)). by apply (Huniq id1).
      * by eapply rs_keys0.
  - intros g' Hg'. destruct (Hfit g' (list_elem_of_further _ _ _ Hg')) as (Hd' & Hs' & Hp'). split_and!; [done| |].
    + intros old Hold. cbn in Hold. apply lookup_insert_Some in Hold as [[Heq <-]|[Hne Hold]]; [|by apply Hs'].
      apply Hp'; [by left|done].
    + intros g'' Hg''. apply Hp'. by right.
Qed.

Lemma propose_error e grants : foldl (propose_grant w) (Err e) grants = Err e.
Proof. induction grants as [|g grants IH]; [done|exact IH]. Qed.

Lemma propose_grants_inv grants r n domain :
  reg_inv r → is_Some (ry_participants r !! domain) → ry_retired_domains r !! domain = None →
  grants_fit r domain grants → foldl (propose_grant w) (Ok r) grants = Ok n →
  reg_inv n ∧ n = r <| ry_machine_permissions := ry_machine_permissions n |>.
Proof.
  revert r. induction grants as [|g grants IH]; intros r Hinv Hp Hr Hfit H; cbn [foldl] in H.
  { injection H as <-. split; [done|by destruct r]. }
  destruct (propose_grant w (Ok r) g) as [m|e] eqn:Hm; [|by rewrite propose_error in H].
  destruct (propose_grant_inv _ _ _ _ _ Hinv Hp Hr Hfit Hm) as (Him & Hfm & Heq).
  destruct (IH m) as [Hn Heqn]; [done|by rewrite Heq|by rewrite Heq|done|done|]. split; [done|].
  rewrite Heqn, Heq. done.
Qed.

Lemma prepare_commit_inv i r n u :
  reg_inv r → permitted r (PrepareMachineCommit i) → prepare_machine_commit w i r = Ok u → update_next u = Some n →
  reg_inv n.
Proof.
  intros Hinv [Hop Hgrants] H Hu. unfold prepare_machine_commit in H. apply result_bind_Ok in H as (m & H & [= <-]).
  injection Hu as ->. unfold proposed_machine_commit in H.
  apply check_then in H as [Hret%guard_ok%bool_decide_eq_false H]. rewrite <-eq_None_not_Some in Hret.
  apply check_then in H as [Hpend%guard_ok%bool_decide_eq_false H]. rewrite <-eq_None_not_Some in Hpend.
  apply result_bind_Ok in H as (p & Hp%ok_or_some & H). apply check_then in H as [_ H].
  destruct (ry_pending_machine_commit r) as [pending|] eqn:Hc.
  { case_bool_decide; [by injection H as <-|done]. }
  apply result_bind_Ok in H as (m & H & [= <-]).
  apply (propose_grants_inv _ _ _ (se_domain_id (rq_session (mi_request i)))) in H as [[Hok Hs] Heq]; [|done|by eauto|done|done].
  split.
  - destruct Hok. constructor; try done.
    + intros d Hd. split; [apply (rk_fence d Hd)|]. unfold commit_domain. cbn. intros [= <-].
      cbn in Hd. rewrite Heq in Hd. cbn in Hd. rewrite Hret in Hd. by destruct Hd.
    + intros j [= <-]. split; [done|]. cbn. by rewrite Heq.
  - by destruct Hs.
Qed.

(** *** Pairing *)
Lemma prepare_pairing_inv g r n u :
  reg_inv r → permitted r (PreparePairing g) → prepare_pairing g r = Ok u → update_next u = Some n → reg_inv n.
Proof.
  intros Hinv (Hdom & Hnonce & Hstore & Hparent) H Hu. pose proof Hinv as [Hok Hs]. unfold prepare_pairing in H.
  apply check_then in H as [Hck H]. set (d := ii_domain_id (pg_installation g)) in *.
  destruct (ry_participants r !! d) as [old|] eqn:Hold.
  { case_bool_decide; [by injection H as <-|done]. }
  apply check_then in H as [H1%guard_ok%bool_decide_eq_false H]. apply check_then in H as [H2%guard_ok [= <-]].
  injection Hu as <-. apply existsb_values_false in H2. unfold check_retirement_pairing in Hck. fold d in Hck.
  apply check_then in Hck as [Hpend%guard_ok%bool_decide_eq_false Hck]. rewrite <-eq_None_not_Some in Hpend.
  apply check_then in Hck as [Hck%guard_ok Hroom%guard_ok]. rewrite !orb_false_iff in Hck.
  destruct Hck as [[Hret%bool_decide_eq_false Hre] Hpe]. rewrite <-eq_None_not_Some in Hret.
  apply existsb_values_false in Hre. apply existsb_values_false in Hpe. rewrite Hold in Hroom. rewrite bool_decide_eq_true_2 in Hroom by done.
  cbn [andb] in Hroom. apply bool_decide_eq_false in Hroom.
  assert (∀ d' p', ry_participants r !! d' = Some p' → pa_nonce p' ≠ ii_installation_nonce (pg_installation g) ∧
    pa_store p' ≠ pg_manager_store_uuid g) as Hother.
  { intros d' p' Hp'. specialize (H2 d' p' Hp'). specialize (Hpe d' p' Hp'). cbn in H2, Hpe.
    apply bool_decide_eq_false in H2. split; [done|]. apply andb_false_iff in Hpe as [He|He]; apply bool_decide_eq_false in He; [|done].
    apply dec_stable in He. pose proof (rk_participants _ _ _ Hok d' p' Hp') as Hv. unfold participant_invalid in Hv.
    rewrite !orb_false_iff in Hv. destruct Hv as [[[Hv%bool_decide_eq_false _] _] _]. apply dec_stable in Hv. cbn in Hv.
    exfalso. rewrite <-He, <-Hv, Hp' in Hold. done. }
  split.
  - destruct Hok. constructor; try done; cbn.
    + rewrite map_size_insert_None by done. lia.
    + apply map_Forall_insert_2; [|done]. unfold participant_invalid, pa_domain, pa_nonce, pa_store, uuid_is_nil. cbn.
      by rewrite !bool_decide_eq_false_2 by tauto.
    + unfold identities in *. cbn. rewrite dom_insert_L.
      assert (size (dom (ry_retired_domains r) ∪ ({[d]} ∪ dom (ry_participants r)))
              ≤ S (size (ry_retired_domains r) + size (ry_participants r)))%nat; [|lia].
      etrans; [apply size_union_le|]. rewrite size_dom.
      pose proof (size_union_le {[d]} (dom (ry_participants r))) as Hle. rewrite size_dom, size_singleton in Hle. lia.
    + intros d' Hd'. destruct (rk_fence d' Hd') as [[Hf|(F1 & F2 & F3)] Hnc]; split; try done; [by left|right].
      split_and!; [|apply map_Forall_insert_2|done].
      * cbn. rewrite lookup_insert_ne; [done|]. intros ->. rewrite Hret in Hd'. by destruct Hd'.
      * cbn. intros <-. rewrite Hparent in Hd'. by destruct Hd'.
      * done.
  - destruct Hs. constructor; try done; cbn.
    + intros d1 p1 d2 p2 Hp1 Hp2 Hne. apply lookup_insert_Some in Hp1 as [[<- <-]|[Hne1 Hp1]];
        apply lookup_insert_Some in Hp2 as [[<- <-]|[Hne2 Hp2]]; [done|..|by eapply rs_unique0].
      * destruct (Hother _ _ Hp2). split; apply not_eq_sym; done.
      * by destruct (Hother _ _ Hp1).
    + intros d1 t d2 p2 Ht Hp2 Hne. apply lookup_insert_Some in Hp2 as [[<- <-]|[Hne2 Hp2]]; [|by eapply rs_retired0].
      specialize (Hre d1 t Ht). cbn in Hre. apply orb_false_iff in Hre as [He1%bool_decide_eq_false He2%bool_decide_eq_false].
      split; apply not_eq_sym; done.
    + intros q Hq. congruence.
    + apply map_Forall_insert_2; [|done]. split; [done|]. by cbn.
    + intros id g' Hg'. destruct (rs_grants0 id g' Hg'). split; [done|]. rewrite lookup_insert_is_Some'. by right.
Qed.

(** *** Retirement *)
Lemma preview_inv r domain v :
  domain_clearance_preview w r domain = Ok v →
  ∃ p, ry_participants r !! domain = Some p ∧ ci_installation (cv_inventory v) = pg_installation (pa_registration p) ∧
    ci_manager_store_uuid (cv_inventory v) = pa_store p.
Proof.
  unfold domain_clearance_preview. intros H. apply check_then in H as [_ H].
  apply result_bind_Ok in H as (p & Hp%ok_or_some & H). apply result_bind_Ok in H as (ds & _ & [= <-]). by exists p.
Qed.

(** A retirement that is published: the audit, the participant and what was checked. *)
Lemma prepare_retirement_cases q requester principal now a r audit u n :
  prepare_domain_retirement w q requester principal now a r = Ok (audit, u) → update_next u = Some n →
  ∃ receipt p, u = PublishAfter (AuditFile (dq_operation_id q) audit) n ∧ n = retire_domain q audit receipt r ∧
    audit_receipt w audit = Ok receipt ∧ ry_participants r !! dq_domain_id q = Some p ∧
    ii_installation_nonce (ci_installation (cv_inventory (du_preview audit))) = pa_nonce p ∧
    ci_manager_store_uuid (cv_inventory (du_preview audit)) = pa_store p ∧
    ry_pending_machine_commit r = None ∧ ry_retired_domains r !! dq_domain_id q = None ∧
    (∀ x, ry_pending_domain_retirement r = Some x → pd_operation_id x = dq_operation_id q) ∧
    map_Forall (λ _ p, pg_parent_domain (pa_registration p) ≠ dq_domain_id q) (ry_participants r) ∧
    retirement_audit w q requester principal now (da_files a) r = Ok audit ∧
    aw_audit_len w audit ≤ MAX_MACHINE_JOURNAL_BYTES.
Proof.
  intros H Hu. unfold prepare_domain_retirement in H.
  apply check_then in H as [H1%guard_ok%bool_decide_eq_false H]. rewrite <-eq_None_not_Some in H1.
  apply check_then in H as [H2%guard_ok H]. apply check_then in H as [H3%guard_ok H].
  apply check_then in H as [_ H]. apply result_bind_Ok in H as (audit' & Ha & H).
  destruct (ry_retired_domains r !! dq_domain_id q) as [t|] eqn:Ht.
  { apply result_bind_Ok in H as (rc & _ & H). apply check_then in H as [_ [= <- <-]]. done. }
  apply result_bind_Ok in H as (v & Hv & H). apply check_then in H as [H4%guard_ok H].
  apply check_then in H as [_ H]. apply check_then in H as [_ H]. apply result_bind_Ok in H as (receipt & Hrc & H).
  apply check_then in H as [_ H]. apply check_then in H as [Hlen%guard_ok%bool_decide_eq_false H].
  apply result_bind_Ok in H as (enc & _ & [= <- <-]). injection Hu as <-.
  apply orb_false_iff in H4 as [H4%bool_decide_eq_false _]. apply dec_stable in H4 as ->.
  destruct (preview_inv _ _ _ Hv) as (p & Hp & Hi & Hst). exists receipt, p.
  split_and!; [done..|by rewrite Hi|done|done|done| | |done|lia].
  - intros x Hx. rewrite Hx in H2. apply bool_decide_eq_false in H2. by apply dec_stable.
  - apply existsb_values_false in H3. intros k p' Hp'. specialize (H3 k p' Hp'). by apply bool_decide_eq_false in H3.
Qed.

Lemma retirement_audit_request q requester principal now fs r audit :
  retirement_audit w q requester principal now fs r = Ok audit →
  du_request audit = q ∧ (af_audits fs !! dq_operation_id q = None ∨
    af_audits fs !! dq_operation_id q = Some (Written audit)).
Proof.
  unfold retirement_audit. destruct (af_audits fs !! dq_operation_id q) as [doc|] eqn:Hf.
  - intros H. apply result_bind_Ok in H as (old & Hr & H). apply check_then in H as [Hg%guard_ok%bool_decide_eq_false [= ->]].
    apply dec_stable in Hg. split; [done|]. right. unfold read_audit in Hr. rewrite Hf in Hr. by apply read_inv in Hr as [? _].
  - intros H. apply result_bind_Ok in H as (v & _ & [= <-]). split; [done|by left].
Qed.

Lemma prepare_retirement_inv q requester principal now a r audit u n :
  reg_inv r → audited w (da_files a) r → check_retirement_request q principal = Ok tt →
  prepare_domain_retirement w q requester principal now a r = Ok (audit, u) → update_next u = Some n → reg_inv n.
Proof.
  intros Hinv Haud Hck H Hu. pose proof Hinv as [Hok Hs].
  destruct (prepare_retirement_cases _ _ _ _ _ _ _ _ _ H Hu) as
    (receipt & p & _ & -> & Hrc & Hp & Hnonce & Hstore & Hc & Hret & Hpend & Hpar & Haudit & _).
  destruct (retirement_audit_request _ _ _ _ _ _ _ Haudit) as [Hreq Hfile].
  destruct (receipt_fields _ _ _ Hrc) as (F1 & F2 & F3 & _). rewrite Hreq in F1, F2.
  assert (ry_pending_domain_retirement r = None) as Hnone.
  { destruct (ry_pending_domain_retirement r) as [x|] eqn:Hx; [exfalso|done].
    destruct (Haud x Hx) as (audit' & t & Hf & _ & Ht & _ & _ & Hd & _). rewrite (Hpend x eq_refl) in Hf.
    destruct Hfile as [Hfile|Hfile]; [congruence|]. rewrite Hf in Hfile. injection Hfile as ->.
    rewrite Hreq in Hd. rewrite Hd in Hret. congruence. }
  unfold check_retirement_request in Hck. apply guard_ok in Hck. unfold uuid_is_nil in Hck. split_conditions.
  pose proof (rk_participants _ _ _ Hok _ _ Hp) as Hpv. unfold participant_invalid, uuid_is_nil in Hpv. split_conditions.
  unfold retire_domain. split.
  - destruct Hok. constructor; try done; cbn.
    + unfold identities in *. cbn. rewrite dom_insert_L.
      replace ({[dq_domain_id q]} ∪ dom (ry_retired_domains r) ∪ dom (ry_participants r))
        with (dom (ry_retired_domains r) ∪ dom (ry_participants r)); [done|].
      assert (dq_domain_id q ∈ dom (ry_participants r)) by (apply elem_of_dom; eauto). set_solver.
    + apply map_Forall_insert_2; [|done]. unfold retired_fine. cbn. rewrite Hnonce, Hstore, F1, F2, F3. by split_and!.
    + intros d Hd. split; [|unfold commit_domain; cbn; by rewrite Hc].
      destruct (decide (d = dq_domain_id q)) as [->|Hne]; [by left|right]. rewrite lookup_insert_ne in Hd by done.
      destruct (rk_fence d Hd) as [[Hf|Hf] _]; [|done]. by rewrite Hnone in Hf.
    + intros i Hi. congruence.
  - destruct Hs. constructor; try done; cbn.
    + intros d t d' p' Ht Hp' Hne. apply lookup_insert_Some in Ht as [[<- <-]|[Hne' Ht]]; [|by eapply rs_retired0].
      cbn. rewrite Hnonce, Hstore. by destruct (rs_unique0 d' p' (dq_domain_id q) p).
    + intros x [= <-]. cbn. split; [|done]. rewrite lookup_insert_eq. by eexists.
Qed.

Lemma finish_retirement_inv operation r n u :
  reg_inv r → finish_domain_retirement operation r = Ok u → update_next u = Some n → reg_inv n.
Proof.
  intros Hinv H Hu. pose proof Hinv as [Hok Hs]. unfold finish_domain_retirement in H.
  destruct (ry_pending_domain_retirement r) as [x|] eqn:Hx; [|by injection H as <-].
  apply check_then in H as [_ [= <-]]. injection Hu as <-. destruct (rs_pending _ Hs x Hx) as [Hret Hpar].
  assert (ry_pending_machine_commit r = None) as Hc.
  { destruct (ry_pending_machine_commit r) as [i|] eqn:Hi; [|done]. destruct (rk_commit _ _ _ Hok i Hi). congruence. }
  split.
  - destruct Hok. constructor; try done; cbn.
    + etrans; [|exact rk_size]. rewrite <-!size_dom.
      assert (size (dom (delete (pd_domain_id x) (ry_participants r))) ≤ size (dom (ry_participants r)))%nat; [|lia].
      apply subseteq_size. rewrite dom_delete_L. set_solver.
    + by apply map_Forall_delete.
    + unfold identities in *. cbn. rewrite dom_delete_L. etrans; [|exact rk_room].
      assert (size (dom (ry_retired_domains r) ∪ dom (ry_participants r) ∖ {[pd_domain_id x]})
        ≤ size (dom (ry_retired_domains r) ∪ dom (ry_participants r)))%nat; [|lia]. apply subseteq_size. set_solver.
    + intros d Hd. split; [right|apply (rk_fence d Hd)].
      destruct (decide (d = pd_domain_id x)) as [->|Hne].
      * split_and!; [apply lookup_delete_eq|by apply map_Forall_delete|].
        intros id g Hg. apply map_lookup_filter_Some in Hg as [_ Hg]. done.
      * destruct (rk_fence d Hd) as [[Hf|(F1 & F2 & F3)] _].
        { rewrite Hx in Hf. cbn in Hf. congruence. }
        split_and!; [cbn; by rewrite lookup_delete_ne|by apply map_Forall_delete|].
        intros id g Hg. apply map_lookup_filter_Some in Hg as [Hg _]. by apply (F3 id g).
    + intros i Hi. congruence.
  - destruct Hs. constructor; try done; cbn.
    + intros d1 p1 d2 p2 H1 H2. apply lookup_delete_Some in H1 as [_ H1], H2 as [_ H2]. by apply (rs_unique0 d1 p1 d2 p2).
    + intros d t d' p' Ht Hp'. apply lookup_delete_Some in Hp' as [_ Hp']. by apply (rs_retired0 d t d' p').
    + by apply map_Forall_delete.
    + intros id g Hg. apply map_lookup_filter_Some in Hg as [Hg Hne]. destruct (rs_grants0 id g Hg). split; [done|].
      rewrite lookup_delete_ne; [done|]. cbn in Hne. unfold grant_domain. congruence.
    + intros id g id' g' Hg Hg'. apply map_lookup_filter_Some in Hg as [Hg _], Hg' as [Hg' _]. by eapply rs_keys0.
Qed.

(** ** Every operation *)
Lemma call_inv c a r u n :
  reg_inv r → audited w (da_files a) r → permitted r c → call_check c = Ok tt →
  call_update w c a r = Ok u → update_next u = Some n → reg_inv n.
Proof.
  intros Hinv Haud Hper Hck H Hu. destruct c; cbn [call_update] in H; cbn [permitted] in Hper.
  - by eapply native_start_inv.
  - injection H as <-. by eapply coverage_inv.
  - injection H as <-. by eapply retire_native_inv.
  - by eapply prepare_commit_inv.
  - by eapply finish_commit_inv.
  - injection H as <-. by eapply compact_inv.
  - apply result_bind_Ok in H as ([m e] & H & [= <-]). injection Hu as <-. by eapply reserve_inv.
  - by eapply accept_session_inv.
  - by eapply checkpoint_inv.
  - by eapply retire_sequences_inv.
  - destruct Hper as (? & ? & _). eapply complete_reset_inv; [exact Hinv|..|exact H|exact Hu]; done.
  - by eapply prepare_pairing_inv.
  - by eapply commit_pairing_inv.
  - injection H as <-. destruct Hper. eapply record_reset_inv; [exact Hinv|..|exact Hu]; done.
  - injection H as <-. destruct Hper as (? & ? & ?). eapply bind_coordinator_inv; [exact Hinv|..|exact Hu]; done.
  - cbn in Hck. apply guard_ok, negb_false_iff in Hck. by eapply hold_inv.
  - cbn in Hck. apply guard_ok, negb_false_iff in Hck. by eapply force_release_inv.
  - by eapply arm_bootstrap_inv.
  - by eapply seal_bootstrap_inv.
  - apply result_bind_Ok in H as ([audit v] & H & [= <-]). by eapply prepare_retirement_inv.
  - by eapply finish_retirement_inv.
Qed.
End inv.
