(* ===== verification/AuthorityEvolves.v ===== *)
(** * AuthorityEvolves: what an operation of the authority may change

    Retired domains, holds and anchors of participants only advance; a start right
    leaves the registry with a proof of its end, a retirement of its domain, or a
    reset that has covered everything ([evolves]). *)
From S2P Require Import Prelude Spec Validate Kernel Scoped Observation Machine MachineStore.
From S2P Require Import Reservation MachineOffer MachineRecovery Columns Native Policy PolicyFacts.
From S2P Require Import Registry RegistryOps Authority AuthorityFacts AuthorityInv.

Section evolves.
Context (w : AuthorityWire) (host : string).
Implicit Types (r n : Registry) (a : DurableAuthority) (domain : ExecutionDomainId) (p : ParticipantAnchor).

Definition hold_kept (h h' : AuthorityHold) : Prop :=
  ah_id h' = ah_id h ∧ ah_reason h' = ah_reason h ∧ ah_requester h' = ah_requester h ∧
  ah_bootstrap h' = ah_bootstrap h ∧ (ah_released h = true → h' = h).

(** Everything a reset has to wait for is gone. *)
Definition reconciled r : Prop :=
  is_pending_reset r = true ∧ ry_machine_permissions r = ∅ ∧ ry_pending_machine_commit r = None ∧
  ry_pending_domain_retirement r = None ∧ map_Forall (λ _ h, ah_released h = true) (ry_holds r) ∧
  map_Forall (λ _ p, pa_committed p = true) (ry_participants r).

Definition session_advances r p p' : Prop :=
  pa_session p' = pa_session p ∨ pa_session p' = None ∧ reconciled r ∨
  ∃ s', pa_session p' = Some s' ∧ se_connection_epoch s' = pa_next_connection_epoch p ∧
    ∀ s, pa_session p = Some s → se_connection_epoch s < se_connection_epoch s'.

Definition anchor_advances r p p' : Prop :=
  pa_registration p' = pa_registration p ∧ (pa_committed p = true → pa_committed p' = true) ∧
  pa_next_connection_epoch p ≤ pa_next_connection_epoch p' ∧ pa_accepted_sequence p ≤ pa_accepted_sequence p' ∧
  pa_retired_sequence_floor p ≤ pa_retired_sequence_floor p' ∧ session_advances r p p'.

(** The end of a grant that the open commit proves, or of its whole domain. *)
Definition grant_ended r (g : GrantSnapshot) : Prop :=
  (∃ i g', ry_pending_machine_commit r = Some i ∧ g' ∈ mi_grants i ∧ gs_grant_id g' = gs_grant_id g ∧
     gs_state g' = Released) ∨
  pd_domain_id <$> ry_pending_domain_retirement r = Some (grant_domain g).

(** A domain that was not retired before begins its retirement. *)
Definition retirement_begins (c : Call) r n : Prop :=
  ∃ q requester principal now, c = PrepareDomainRetirement q requester principal now ∧
    ry_retired_domains r !! dq_domain_id q = None ∧
    pd_domain_id <$> ry_pending_domain_retirement n = Some (dq_domain_id q).

Record evolves (c : Call) r n : Prop := {
  ev_anchor : anchor_epoch n = anchor_epoch r;
  ev_retired : ry_retired_domains r ⊆ ry_retired_domains n;
  ev_pending : ry_pending_domain_retirement n = ry_pending_domain_retirement r ∨
    ry_pending_domain_retirement n = None ∨ retirement_begins c r n;
  ev_holds : ∀ id h, ry_holds r !! id = Some h → ∃ h', ry_holds n !! id = Some h' ∧ hold_kept h h';
  ev_grants : ∀ id g, ry_machine_permissions r !! id = Some g →
    (∃ g', ry_machine_permissions n !! id = Some g' ∧ cd_key (gs_candidate g') = cd_key (gs_candidate g)) ∨
    grant_ended r g;
  ev_native : ∀ id q, ry_native_permissions r !! id = Some q → ry_native_permissions n !! id = Some q ∨
    (∃ proven, c = RetireNativeStarts proven ∧ id ∈ proven) ∨ reconciled r;
  ev_participants : ∀ d p, ry_participants r !! d = Some p →
    (∃ p', ry_participants n !! d = Some p' ∧ anchor_advances r p p') ∨
    pd_domain_id <$> ry_pending_domain_retirement r = Some d;
  ev_epoch : ry_epoch n = ry_epoch r ∨ reconciled r;
  ev_gate : ∀ h, ry_coordinator r = Some h → is_Some (ch_pending_reset h) → ry_coordinator n = Some h ∨ reconciled r;
}.

Lemma hold_kept_refl h : hold_kept h h.
Proof. by split_and!. Qed.
Lemma anchor_advances_refl r p : anchor_advances r p p.
Proof. split_and!; [done..|by left]. Qed.

(** Only the fields that change need an argument. *)
Lemma evolves_intro c r n :
  ry_epoch n = ry_epoch r → ry_anchor_epoch n = ry_anchor_epoch r →
  ry_retired_domains n = ry_retired_domains r ∨ ry_retired_domains r ⊆ ry_retired_domains n →
  ry_pending_domain_retirement n = ry_pending_domain_retirement r ∨
    ry_pending_domain_retirement n = None ∨ retirement_begins c r n →
  ry_holds n = ry_holds r ∨
    (∀ id h, ry_holds r !! id = Some h → ∃ h', ry_holds n !! id = Some h' ∧ hold_kept h h') →
  ry_machine_permissions n = ry_machine_permissions r ∨ (∀ id g, ry_machine_permissions r !! id = Some g →
    (∃ g', ry_machine_permissions n !! id = Some g' ∧ cd_key (gs_candidate g') = cd_key (gs_candidate g)) ∨
    grant_ended r g) →
  ry_native_permissions n = ry_native_permissions r ∨ (∀ id q, ry_native_permissions r !! id = Some q →
    ry_native_permissions n !! id = Some q ∨ ∃ proven, c = RetireNativeStarts proven ∧ id ∈ proven) →
  ry_participants n = ry_participants r ∨ (∀ d p, ry_participants r !! d = Some p →
    (∃ p', ry_participants n !! d = Some p' ∧ anchor_advances r p p') ∨
    pd_domain_id <$> ry_pending_domain_retirement r = Some d) →
  ry_coordinator n = ry_coordinator r ∨
    (∀ h, ry_coordinator r = Some h → is_Some (ch_pending_reset h) → ry_coordinator n = Some h) →
  evolves c r n.
Proof.
  intros He Ha Hrt Hpend Hh Hg Hn Hp Hco. constructor.
  - unfold anchor_epoch. by rewrite He, Ha.
  - by destruct Hrt as [->|].
  - done.
  - destruct Hh as [->|]; [|done]. intros id h ?. exists h. split; [done|apply hold_kept_refl].
  - destruct Hg as [->|]; [|done]. intros id g ?. left. by exists g.
  - destruct Hn as [->|Hn]; [intros id q ?; by left|]. intros id q Hq. destruct (Hn id q Hq); auto.
  - destruct Hp as [->|]; [|done]. intros d p ?. left. exists p. split; [done|apply anchor_advances_refl].
  - by left.
  - destruct Hco as [->|Hco]; [by left|]. intros h Hh' Hs. left. by apply Hco.
Qed.

(** The update of one hold, or of one anchor. *)
Lemma insert_hold_kept (m : gmap Uuid AuthorityHold) id h' :
  (∀ h, m !! id = Some h → hold_kept h h') →
  ∀ k h, m !! k = Some h → ∃ h2, <[id := h']> m !! k = Some h2 ∧ hold_kept h h2.
Proof.
  intros H k h Hk. destruct (decide (id = k)) as [<-|Hne].
  - exists h'. rewrite lookup_insert_eq. split; [done|by apply H].
  - exists h. rewrite lookup_insert_ne by done. split; [done|apply hold_kept_refl].
Qed.
Lemma insert_anchor_kept r (m : gmap ExecutionDomainId ParticipantAnchor) d p' (P : ExecutionDomainId → Prop) :
  (∀ p, m !! d = Some p → anchor_advances r p p') →
  ∀ k p, m !! k = Some p → (∃ p2, <[d := p']> m !! k = Some p2 ∧ anchor_advances r p p2) ∨ P k.
Proof.
  intros H k p Hk. left. destruct (decide (d = k)) as [<-|Hne].
  - exists p'. rewrite lookup_insert_eq. split; [done|by apply H].
  - exists p. rewrite lookup_insert_ne by done. split; [done|apply anchor_advances_refl].
Qed.

Ltac evolve := apply evolves_intro; try done; try by left.

Lemma record_reset_evolves c id reason r n : update_next (record_reset id reason r) = Some n → evolves c r n.
Proof.
  unfold record_reset. intros H. destruct (ry_coordinator r) as [h|] eqn:Hh; [|done].
  case_bool_decide as Hp; [done|]. injection H as <-. evolve. right. intros h' Hh' Hs.
  rewrite Hh in Hh'. injection Hh' as ->. done.
Qed.

Lemma anchor_update_evolves c r domain p p' :
  ry_participants r !! domain = Some p → anchor_advances r p p' →
  evolves c r (r <| ry_participants ::= <[domain := p']> |>).
Proof.
  intros Hp Ha. evolve. right. cbn. apply insert_anchor_kept. intros q Hq. by rewrite Hp in Hq; injection Hq as <-.
Qed.

Lemma hold_update_evolves c r id h' :
  (∀ h, ry_holds r !! id = Some h → hold_kept h h') → evolves c r (r <| ry_holds ::= <[id := h']> |>).
Proof. intros H. evolve. right. cbn. by apply insert_hold_kept. Qed.

Lemma accept_session_evolves c s r u n :
  accept_machine_session s r = Ok u → update_next u = Some n → evolves c r n.
Proof.
  intros H Hu. unfold accept_machine_session in H. apply check_then in H as [_ H].
  apply result_bind_Ok in H as (p & Hp & H). apply committed_anchor_ok in Hp as [Hp Hc].
  case_bool_decide; [by injection H as <-|]. apply check_then in H as [Hg%guard_ok [= <-]]. injection Hu as <-.
  eapply anchor_update_evolves; [exact Hp|]. split_and!; [done..|]. right. right. exists s. split_and!; [done| |].
  - split_conditions. match goal with H : ¬ _ ≠ se_connection_epoch s |- _ => apply dec_stable in H; done end.
  - intros old Hold. rewrite Hold in Hg. apply orb_false_iff in Hg as [_ Hg%bool_decide_eq_false]. lia.
Qed.

Lemma sequences_evolve c r domain u n :
  (∃ sequence, checkpoint_machine_sequence domain sequence r = Ok u) ∨
  (∃ floor, retire_machine_sequences domain floor r = Ok u) ∨ commit_pairing domain r = Ok u →
  update_next u = Some n → evolves c r n.
Proof.
  intros [[sequence H]|[[floor H]|H]] Hu.
  - unfold checkpoint_machine_sequence in H. apply result_bind_Ok in H as (p & Hp & H).
    apply committed_anchor_ok in Hp as [Hp _]. case_bool_decide; [by injection H as <-|].
    apply check_then in H as [_ [= <-]]. injection Hu as <-. eapply anchor_update_evolves; [exact Hp|].
    split_and!; [done..|cbn; lia|done|by left].
  - unfold retire_machine_sequences in H. apply result_bind_Ok in H as (p & Hp%ok_or_some & H).
    apply check_then in H as [_ H]. case_bool_decide; injection H as <-; [done|]. injection Hu as <-.
    eapply anchor_update_evolves; [exact Hp|]. split_and!; [done..|cbn; lia|by left].
  - unfold commit_pairing in H. apply result_bind_Ok in H as (p & Hp%ok_or_some & H).
    destruct (pa_committed p) eqn:Hc; injection H as <-; [done|]. injection Hu as <-.
    eapply anchor_update_evolves; [exact Hp|]. split_and!; [done..|by left].
Qed.

Lemma pairing_evolves c g r u n : prepare_pairing g r = Ok u → update_next u = Some n → evolves c r n.
Proof.
  intros H Hu. unfold prepare_pairing in H. apply check_then in H as [_ H].
  destruct (ry_participants r !! _) as [old|] eqn:Hold.
  { case_bool_decide; [by injection H as <-|done]. }
  do 2 apply check_then in H as [_ H]. injection H as <-. injection Hu as <-. evolve. right. cbn.
  apply insert_anchor_kept. intros p Hp. congruence.
Qed.

Lemma holds_evolve c r u n :
  (∃ id reason requester, hold id reason requester r = Ok u) ∨ (∃ b requester, arm_bootstrap b requester r = Ok u) ∨
  (∃ id reason requester, force_release id reason requester r = Ok u) ∨
  (∃ proof requester, seal_bootstrap w proof requester r = Ok u) →
  update_next u = Some n → evolves c r n.
Proof.
  intros [(id & reason & q & H)|[(b & q & H)|[(id & reason & q & H)|(proof & q & H)]]] Hu.
  - unfold hold in H. destruct (ry_holds r !! id) as [old|] eqn:Hold; [case_bool_decide; [done|by injection H as <-]|].
    apply check_then in H as [_ [= <-]]. injection Hu as <-. apply hold_update_evolves. congruence.
  - unfold arm_bootstrap in H. destruct (ry_holds r !! _) as [old|] eqn:Hold; [destruct (_ || _); [done|by injection H as <-]|].
    apply check_then in H as [_ [= <-]]. injection Hu as <-. apply hold_update_evolves. congruence.
  - unfold force_release in H. apply result_bind_Ok in H as (h & Hh%ok_or_some & H).
    destruct (ah_released h) eqn:Hr; [case_bool_decide; [done|by injection H as <-]|].
    injection H as <-. injection Hu as <-. apply hold_update_evolves. intros h' Hh'. rewrite Hh in Hh'. injection Hh' as <-.
    split_and!; [done..|congruence].
  - unfold seal_bootstrap in H. apply result_bind_Ok in H as (h & Hh%ok_or_some & H).
    apply result_bind_Ok in H as (b & _ & H). apply check_then in H as [_ H].
    destruct (ah_released h) eqn:Hr; [case_bool_decide; [done|by injection H as <-]|].
    injection H as <-. injection Hu as <-. apply hold_update_evolves. intros h' Hh'. rewrite Hh in Hh'. injection Hh' as <-.
    split_and!; [done..|congruence].
Qed.

Lemma retire_grants_keep grants r id g :
  ry_machine_permissions r !! id = Some g →
  ry_machine_permissions (foldl (retire_grant w) r grants) !! id = Some g ∨
  ∃ g', g' ∈ grants ∧ gs_grant_id g' = id ∧ gs_state g' = Released.
Proof.
  revert r. induction grants as [|x grants IH]; intros r Hg; cbn [foldl]; [by left|].
  destruct (decide (gs_state x = Released ∧ gs_grant_id x = id)) as [[? ?]|Hne].
  { right. exists x. split_and!; [by left|done..]. }
  destruct (IH (retire_grant w r x)) as [?|(g' & ? & ?)]; [|by left|right; exists g'; split; [by right|done]].
  unfold retire_grant. case_bool_decide; [|done]. cbn. rewrite lookup_delete_ne; [done|]. intros ?. tauto.
Qed.

Lemma finish_commit_evolves c operation r u n :
  reg_safe r → finish_machine_commit w operation r = Ok u → update_next u = Some n → evolves c r n.
Proof.
  intros Hs H Hu. unfold finish_machine_commit in H.
  destruct (ry_pending_machine_commit r) as [i|] eqn:Hi; [|by injection H as <-].
  apply check_then in H as [_ H]. destruct (retire_grants_frame w (mi_grants i) r) as [Heq _].
  pose proof (retire_grants_keep (mi_grants i) r) as Hkeep. set (m := foldl _ _ _) in *. clearbody m.
  apply result_bind_Ok in H as (p & Hp%ok_or_some & H). apply result_bind_Ok in H as (p' & Hp' & [= <-]).
  injection Hu as <-. rewrite Heq in Hp. cbn in Hp.
  assert (anchor_advances r p p') as Hadv.
  { destruct (mi_outcome i); try (injection Hp' as <-; split_and!; [done..|cbn; lia|done|by left]).
    apply check_then in Hp' as [_ [= <-]]. split_and!; [done..|cbn; lia|cbn; lia|by left]. }
  apply evolves_intro; cbn; try (by rewrite Heq); try (left; by rewrite Heq).
  - right. intros id g Hg. destruct (Hkeep id g Hg) as [Hk|(g' & Hin & Hid & Hrel)].
    + left. rewrite Hk. by exists g.
    + right. left. exists i, g'. split_and!; [done..|by rewrite (proj1 (rs_grants _ Hs id g Hg))|done].
  - right. rewrite Heq. cbn. apply insert_anchor_kept. intros q Hq. by rewrite Hp in Hq; injection Hq as <-.
Qed.

Lemma propose_grants_keep grants r n domain :
  grants_fit r domain grants → foldl (propose_grant w) (Ok r) grants = Ok n →
  n = r <| ry_machine_permissions := ry_machine_permissions n |> ∧
  ∀ id g, ry_machine_permissions r !! id = Some g → ∃ g', ry_machine_permissions n !! id = Some g' ∧
    cd_key (gs_candidate g') = cd_key (gs_candidate g).
Proof.
  revert r. induction grants as [|x grants IH]; intros r Hfit H; cbn [foldl] in H.
  { injection H as <-. split; [by destruct r|by eauto]. }
  destruct (propose_grant w (Ok r) x) as [m|e] eqn:Hm; [|by rewrite propose_error in H].
  destruct (Hfit x (list_elem_of_here _ _)) as (Hdx & Hsx & Hpx).
  assert (grants_fit m domain grants ∧ m = r <| ry_machine_permissions := ry_machine_permissions m |> ∧
    ∀ id g, ry_machine_permissions r !! id = Some g → ∃ g', ry_machine_permissions m !! id = Some g' ∧
      cd_key (gs_candidate g') = cd_key (gs_candidate g)) as (Hfm & Heqm & Hkm).
  { apply propose_grant_cases in Hm as [->|[-> _]].
    - split_and!; [|by destruct r|by eauto]. intros g' Hg'. destruct (Hfit g' (list_elem_of_further _ _ _ Hg')) as (? & ? & Hp).
      split_and!; [done..|]. intros g'' Hg''. apply Hp. by right.
    - split_and!; [|by destruct r|].
      + intros g' Hg'. destruct (Hfit g' (list_elem_of_further _ _ _ Hg')) as (Hd' & Hs' & Hp'). split_and!; [done| |].
        * intros old Hold. cbn in Hold. apply lookup_insert_Some in Hold as [[Heq <-]|[Hne Hold]]; [|by apply Hs'].
          apply Hp'; [by left|done].
        * intros g'' Hg''. apply Hp'. by right.
      + intros id g Hg. cbn. destruct (decide (gs_grant_id x = id)) as [<-|Hne].
        * exists x. rewrite lookup_insert_eq. split; [done|]. symmetry. by apply Hsx.
        * exists g. by rewrite lookup_insert_ne. }
  destruct (IH m Hfm H) as [Heqn Hkn]. split; [rewrite Heqn, Heqm; done|].
  intros id g Hg. destruct (Hkm id g Hg) as (g1 & Hg1 & K1). destruct (Hkn id g1 Hg1) as (g2 & Hg2 & K2).
  exists g2. split; [done|congruence].
Qed.

Lemma prepare_commit_evolves c i r u n :
  permitted w r (PrepareMachineCommit i) → prepare_machine_commit w i r = Ok u → update_next u = Some n → evolves c r n.
Proof.
  intros [_ Hfit] H Hu. unfold prepare_machine_commit in H. apply result_bind_Ok in H as (m & H & [= <-]).
  injection Hu as ->. unfold proposed_machine_commit in H. do 2 apply check_then in H as [_ H].
  apply result_bind_Ok in H as (p & _ & H). apply check_then in H as [_ H].
  destruct (ry_pending_machine_commit r) as [pending|].
  { case_bool_decide; [|done]. injection H as <-. evolve. }
  apply result_bind_Ok in H as (m & H & [= <-]).
  destruct (propose_grants_keep _ _ _ (se_domain_id (rq_session (mi_request i))) Hfit H) as [Heq Hkeep].
  apply evolves_intro; cbn; try (by rewrite Heq); try (left; by rewrite Heq). right. intros id g Hg. left. by apply Hkeep.
Qed.

Lemma retirement_evolves q requester principal now a r audit u n :
  prepare_domain_retirement w q requester principal now a r = Ok (audit, u) → update_next u = Some n →
  evolves (PrepareDomainRetirement q requester principal now) r n.
Proof.
  intros H Hu. destruct (prepare_retirement_cases _ _ _ _ _ _ _ _ _ _ H Hu) as
    (receipt & p & _ & -> & _ & _ & _ & _ & _ & Hret & _). evolve.
  - right. cbn. by apply insert_subseteq.
  - right. right. exists q, requester, principal, now. done.
Qed.

Lemma finish_retirement_evolves c operation r u n :
  finish_domain_retirement operation r = Ok u → update_next u = Some n → evolves c r n.
Proof.
  intros H Hu. unfold finish_domain_retirement in H.
  destruct (ry_pending_domain_retirement r) as [x|] eqn:Hx; [|by injection H as <-].
  apply check_then in H as [_ [= <-]]. injection Hu as <-. evolve; right; cbn.
  - by left.
  - intros id g Hg. destruct (decide (grant_domain g = pd_domain_id x)) as [Heq|Hne].
    + right. right. rewrite Hx. cbn. by rewrite Heq.
    + left. exists g. split; [|done]. apply map_lookup_filter_Some. by split.
  - intros d p Hp. destruct (decide (d = pd_domain_id x)) as [->|Hne].
    + right. by rewrite Hx.
    + left. exists p. rewrite lookup_delete_ne by done. split; [done|apply anchor_advances_refl].
Qed.

(** A reset completes only when it has covered everything. *)
Lemma complete_reset_reconciled expected epoch store generation process a r u :
  complete_machine_reset w expected epoch store generation process a r = Ok u → reconciled r.
Proof.
  unfold complete_machine_reset. intros H. apply check_then in H as [_ H].
  apply result_bind_Ok in H as (h & Hh%ok_or_some & H). apply result_bind_Ok in H as (gate & Hgate%ok_or_some & H).
  apply check_then in H as [Hg%guard_ok _]. rewrite !orb_false_iff in Hg.
  destruct Hg as [[[[[_ H2] H3] H4] H5] H6]. apply negb_false_iff, bool_decide_eq_true in H2.
  apply bool_decide_eq_false, eq_None_not_Some in H3, H4. apply existsb_values_false in H5. apply existsb_values_false in H6.
  unfold reconciled, is_pending_reset. rewrite Hh. cbn. rewrite Hgate. split_and!; [by apply bool_decide_eq_true_2; eauto|done..| |].
  - intros id x Hx. specialize (H5 id x Hx). by apply negb_false_iff.
  - intros id x Hx. specialize (H6 id x Hx). by apply negb_false_iff.
Qed.

Lemma complete_reset_evolves c expected epoch store generation process a r u n :
  complete_machine_reset w expected epoch store generation process a r = Ok u → update_next u = Some n → evolves c r n.
Proof.
  intros H Hu. pose proof (complete_reset_reconciled _ _ _ _ _ _ _ _ H) as Hrec.
  unfold complete_machine_reset in H. apply check_then in H as [_ H].
  apply result_bind_Ok in H as (h & _ & H). apply result_bind_Ok in H as (gate & _ & H).
  apply check_then in H as [_ [= <-]]. injection Hu as <-. constructor; cbn; try done; try by right; try by left.
  - by left.
  - intros id x Hx. exists x. split; [done|apply hold_kept_refl].
  - intros id g Hg. left. by exists g.
  - intros id q Hq. by right; right.
  - intros d p Hp. left. rewrite lookup_fmap, Hp. eexists. split; [done|]. split_and!; [done..|]. right. left. done.
Qed.

Lemma retire_native_evolves proven r n :
  update_next (retire_native_starts proven r) = Some n → evolves (RetireNativeStarts proven) r n.
Proof.
  intros Hu. unfold retire_native_starts in Hu. destruct (negb _); [done|]. injection Hu as <-. evolve. right. cbn.
  intros id q Hq. assert (∀ l (m : gmap DurableId NativeStartPermission), m !! id = Some q →
    foldl (λ m id, delete id m) m l !! id = Some q ∨ id ∈ l) as Hl.
  { induction l as [|k l IH]; intros m Hm; cbn; [by left|]. destruct (decide (k = id)) as [->|Hne]; [right; by left|].
    destruct (IH (delete k m)); [by rewrite lookup_delete_ne|by left|right; by right]. }
  destruct (Hl proven _ Hq); [by left|right; by exists proven].
Qed.

Lemma call_evolves c a r u n :
  reg_safe r → permitted w r c → call_update w c a r = Ok u → update_next u = Some n → evolves c r n.
Proof.
  intros Hs Hper H Hu. destruct c; cbn [call_update] in H.
  - unfold record_native_start in H. destruct (ry_native_permissions r !! _) as [old|] eqn:Hold.
    { case_bool_decide; [by injection H as <-|done]. }
    apply result_bind_Ok in H as (key & _ & H). do 3 apply check_then in H as [_ H]. injection H as <-. injection Hu as <-.
    evolve. right. cbn. intros id q Hq. left. rewrite lookup_insert_ne; [done|congruence].
  - injection H as <-. unfold establish_native_coverage in Hu. destruct (_ || _); [done|].
    destruct empty; cbn [negb] in Hu; [injection Hu as <-; evolve|by eapply record_reset_evolves].
  - injection H as <-. by apply retire_native_evolves.
  - by eapply prepare_commit_evolves.
  - by eapply finish_commit_evolves.
  - injection H as <-. unfold compact_machine_retirements in Hu. case_bool_decide; [done|]. injection Hu as <-. evolve.
  - apply result_bind_Ok in H as ([m e] & H & [= <-]). injection Hu as <-. unfold reserve_machine_connection in H.
    apply check_then in H as [_ H]. apply result_bind_Ok in H as (p & Hp & H).
    apply result_bind_Ok in H as (e' & He%ok_or_some & H). apply check_then in H as [_ [= <- <-]].
    apply committed_anchor_ok in Hp as [Hp _]. apply checked_add_Some in He as [-> _].
    eapply anchor_update_evolves; [exact Hp|]. split_and!; [done..|cbn; lia|done|done|by left].
  - by eapply accept_session_evolves.
  - eapply sequences_evolve; [|exact Hu]; eauto.
  - eapply sequences_evolve; [|exact Hu]; eauto.
  - by eapply complete_reset_evolves.
  - by eapply pairing_evolves.
  - eapply sequences_evolve; [|exact Hu]; eauto.
  - injection H as <-. by eapply record_reset_evolves.
  - injection H as <-. unfold bind_coordinator in Hu. destruct (ry_coordinator r) as [h|] eqn:Hh.
    + case_bool_decide as Hpend; [done|]. case_bool_decide; [by eapply record_reset_evolves|]. injection Hu as <-.
      evolve. right. intros h' Hh' Hs'. rewrite Hh in Hh'. injection Hh' as ->. done.
    + injection Hu as <-. evolve. right. intros h'. by rewrite Hh.
  - eapply holds_evolve; [|exact Hu]; eauto 10.
  - eapply holds_evolve; [|exact Hu]; eauto 10.
  - eapply holds_evolve; [|exact Hu]; eauto 10.
  - eapply holds_evolve; [|exact Hu]; eauto 10.
  - apply result_bind_Ok in H as ([audit v] & H & [= <-]). by eapply retirement_evolves.
  - by eapply finish_retirement_evolves.
Qed.
End evolves.
