(* ===== verification/AuthorityHistory.v ===== *)
(** * AuthorityHistory: histories of the authority directory

    A [dir_step] is an operation, the start of a process or an initialization, with
    any answers of the file system.  In every history the directory holds one
    registry that operations replace as a whole; obligations leave it only with their
    end, and identities of retired managers never come back. *)
From S2P Require Import Prelude Spec Validate Kernel Scoped Observation Machine MachineStore.
From S2P Require Import Reservation MachineOffer MachineRecovery Columns Native Policy PolicyFacts.
From S2P Require Import Registry RegistryOps Authority AuthorityFacts AuthorityInv AuthorityEvolves.

Section history.
Context (w : AuthorityWire) (host : string).
Context (Hdigest : ∀ intent, is_digest (aw_intent_hash w intent) = true).
Implicit Types (r n : Registry) (a : DurableAuthority) (fs : AuthorityFiles) (domain : ExecutionDomainId).
Local Notation load := (load w).
Local Notation published := (published w).
Local Notation reg_inv := (reg_inv w host).

(** What a process that starts now would read. *)
Definition durable a : option Registry := match load (da_files a) host with Ok o => o | Err _ => None end.

Definition dir_inv a : Prop :=
  da_host a = host ∧ (∀ r, durable a = Some r → reg_inv r) ∧
  match da_state a with
  | StReady r => durable a = Some r
  | StUninitialized => af_anchor (da_files a) = None ∧ af_registry (da_files a) = None
  | StUnknown _ => True
  end.

Definition event_ok a (e : Event) : Prop :=
  match e with
  | Performed io c => ∀ r, da_state a = StReady r → permitted w r c
  | Opened _ fresh _ => domains_invalid fresh = false
  | Initialized io epoch fresh =>
      domains_invalid fresh = false ∧ aw_anchor_len w (1, epoch, host) ≤ MAX_REGISTRY_BYTES
  end.
Definition dir_step a a' : Prop := ∃ e, event_ok a e ∧ a' = occur w a e.

(** The registry an event is about to publish. *)
Definition proposes a (e : Event) n : Prop :=
  match e with
  | Performed io c => ∃ r u m, da_state a = StReady r ∧ call_check c = Ok tt ∧ call_update w c a r = Ok u ∧
      update_next u = Some m ∧ n = published m
  | Opened _ fresh _ => ∃ r, durable a = Some r ∧ ry_domains r = None ∧ n = published (r <| ry_domains := Some fresh |>)
  | Initialized _ epoch fresh => durable a = None ∧ n = empty_registry epoch host fresh
  end.

Lemma durable_load a r : durable a = Some r ↔ load (da_files a) host = Ok (Some r).
Proof. unfold durable. destruct (load _ _) as [o|]; split; congruence. Qed.
Lemma durable_same a a' : load (da_files a') host = load (da_files a) host → durable a' = durable a.
Proof. unfold durable. by intros ->. Qed.

Lemma load_audited fs r : load fs host = Ok (Some r) → audited w fs r.
Proof.
  intros H p Hp. destruct (load_inv _ _ _ _ H) as (payload & _ & _ & _ & _ & _ & _ & Hv).
  unfold validate_retirements in Hv. apply check_then in Hv as [_ Hv]. apply result_bind_Ok in Hv as (k & _ & Hv).
  rewrite Hp in Hv. apply result_bind_Ok in Hv as (audit & Ha & Hv). apply result_bind_Ok in Hv as (rc & Hrc & Hv).
  apply guard_ok in Hv. rewrite !orb_false_iff in Hv. destruct Hv as [[[[_ H1] H2] H3] H4].
  unfold read_audit in Ha. apply read_inv in Ha as [Hf Hl].
  destruct (ry_retired_domains r !! pd_domain_id p) as [t|] eqn:Ht; [|done].
  apply orb_false_iff in H4 as [H4%bool_decide_eq_false _]. apply bool_decide_eq_false in H1, H2, H3.
  apply dec_stable in H1, H2, H3, H4. exists audit, t. by rewrite H4.
Qed.

Lemma load_anchor fs r :
  load fs host = Ok (Some r) → af_anchor fs = Some (Written (1, anchor_epoch r, host)) ∧
    aw_anchor_len w (1, anchor_epoch r, host) ≤ MAX_REGISTRY_BYTES.
Proof. intros H. destruct (load_inv _ _ _ _ H) as (payload & ? & ? & _). done. Qed.

Lemma reg_inv_published r : reg_inv r → reg_inv (published r).
Proof. intros [Hok Hs]. split; [by destruct Hok|by destruct Hs]. Qed.

(** ** Publication in a directory *)
Lemma publish_dir io a r n a' res :
  da_host a = host → load (da_files a) host = Ok (Some r) → (∀ x, da_state a = StReady x → x = r) →
  (da_state a ≠ StUninitialized) →
  reg_inv r → reg_inv n → anchor_epoch n = anchor_epoch r → audited w (da_files a) n →
  publish w io a n = (a', res) →
  dir_inv a' ∧ (durable a' = Some r ∧ (∃ e, res = Err e) ∨ durable a' = Some (published n)).
Proof.
  intros Hhost Hl Hst Hun Hr Hn He Ha H. destruct (load_anchor _ _ Hl) as [Hanc Hlen]. rewrite <-He in Hanc, Hlen.
  destruct (publish_spec w host Hdigest io a n a' res) as [Hh Hcase]; [done|apply Hn|done|done|done|by left; eauto|done|].
  destruct Hcase as [(Hsame & Herr & Href)|(Hnew & Hcase)].
  - assert (durable a' = Some r) as Hd by (apply durable_load; congruence). split; [|by left].
    split_and!; [done|intros x; rewrite Hd; by intros [= <-]|].
    destruct Href as [->|[d ->]]; [|done]. destruct (da_state a) as [|x|]; [done| |done]. by rewrite Hd, (Hst x eq_refl).
  - assert (durable a' = Some (published n)) as Hd by by apply durable_load. split; [|by right].
    split_and!; [done|intros x; rewrite Hd; intros [= <-]; by apply reg_inv_published|].
    destruct Hcase as [[_ [d ->]]|[_ ->]]; done.
Qed.

(** ** The audit files *)
Lemma write_side_load io fs r file fs' res :
  load fs host = Ok (Some r) → write_side io fs file = (fs', res) → load fs' host = Ok (Some r).
Proof.
  intros Hl H. assert (∀ op audit, af_audits fs !! op = None →
    load (fs <| af_audits ::= <[op := Written audit]> |>) host = Ok (Some r)) as Hins.
  { intros op audit Hnone. eapply load_ext; [exact Hl|done..|]. intros p Hp. cbn. apply lookup_insert_ne. intros ->.
    destruct (load_audited _ _ Hl p Hp) as (au & t & Hf & _). congruence. }
  assert (∀ name doc, load (fs <| af_resets ::= <[name := doc]> |>) host = Ok (Some r)) as Hres.
  { intros name doc. by eapply load_ext. }
  unfold write_side, atomic_write in H. destruct file as [op audit|name expected].
  - destruct (af_audits fs !! op) eqn:Hop; [by simplify_eq|]. specialize (Hins op audit Hop).
    destruct (io_side_fails io) as [[]|]; simplify_eq; done.
  - specialize (Hres name (Written expected)).
    destruct (af_resets fs !! name) as [[]|]; [by simplify_eq|by simplify_eq|]. destruct (io_side_fails io) as [[]|]; simplify_eq; done.
Qed.

Lemma write_audit_file io fs op audit fs' :
  af_audits fs !! op = None ∨ af_audits fs !! op = Some (Written audit) →
  write_side io fs (AuditFile op audit) = (fs', Ok tt) → af_audits fs' !! op = Some (Written audit).
Proof.
  unfold write_side, atomic_write. intros [Hn|Hs] H.
  - rewrite Hn in H. destruct (io_side_fails io) as [[]|]; simplify_eq. cbn. apply lookup_insert_eq.
  - rewrite Hs in H. by simplify_eq.
Qed.

(** The audits of a proposal, once its own file is written. *)
Lemma audited_same fs r n :
  audited w fs r → ry_pending_domain_retirement n = ry_pending_domain_retirement r →
  ry_retired_domains r ⊆ ry_retired_domains n → audited w fs n.
Proof.
  intros Ha Hp Hr p Hp'. rewrite Hp in Hp'. destruct (Ha p Hp') as (audit & t & H1 & H2 & H3 & H4).
  exists audit, t. split_and!; [done|done|by eapply lookup_weaken|tauto..].
Qed.


Lemma audited_proposal io c a r u n fs' :
  audited w (da_files a) r → reg_inv r → permitted w r c → call_update w c a r = Ok u → update_next u = Some n →
  (∀ file, u = PublishAfter file n → write_side io (da_files a) file = (fs', Ok tt)) →
  (∀ op, is_Some (af_audits (da_files a) !! op) → af_audits fs' !! op = af_audits (da_files a) !! op) →
  audited w fs' n.
Proof.
  intros Ha Hr Hper Hc Hu Hside Hkeep. pose proof (call_evolves w c a r u n (proj2 Hr) Hper Hc Hu) as Hev.
  assert (audited w fs' r) as Ha'.
  { intros p Hp. destruct (Ha p Hp) as (audit & t & H1 & H2). exists audit, t. split; [|done]. rewrite Hkeep; eauto. }
  destruct (ev_pending _ _ _ Hev) as [Hp|[Hp|(q & requester & principal & now & -> & _)]].
  - eapply audited_same; [exact Ha'|done|apply Hev].
  - intros p Hp'. congruence.
  - cbn [call_update] in Hc. apply result_bind_Ok in Hc as ([audit v] & Hc & [= <-]).
    destruct (prepare_retirement_cases _ _ _ _ _ _ _ _ _ _ Hc Hu) as
      (receipt & p & Hv & Hn & Hrc & _ & _ & _ & _ & _ & _ & _ & Haudit & Hlen).
    destruct (retirement_audit_request _ _ _ _ _ _ _ _ Haudit) as [Hreq Hfile].
    pose proof (write_audit_file _ _ _ _ _ Hfile (Hside _ Hv)) as Hf. intros x. rewrite Hn. cbn. intros [= <-].
    destruct (receipt_fields _ _ _ Hrc) as (_ & _ & _ & F4). exists audit. eexists. cbn. rewrite lookup_insert_eq.
    split_and!; [done|done|done|done|by rewrite Hreq..|done].
Qed.

(** One operation: what is durable after it, and what its answer means. *)
Lemma perform_spec io c a :
  dir_inv a → (∀ r, da_state a = StReady r → permitted w r c) →
  let a' := (perform w io c a).1 in
  dir_inv a' ∧ (durable a' = durable a ∨ ∃ n, proposes a (Performed io c) n ∧ durable a' = Some n) ∧
  (∀ n, proposes a (Performed io c) n → (perform w io c a).2 = Ok tt → durable a' = Some n).
Proof.
  intros Hinv Hper. unfold perform. destruct (call_check c) as [[]|e] eqn:Hck.
  2:{ cbn. split_and!; [done|by left|]. intros n (r & u & m & _ & Hc & _). congruence. }
  destruct (da_state a) as [|r|d] eqn:Hst; cbn [fst snd];
    try (split_and!; [done|by left|]; intros n (r & u & m & Hs & _); congruence).
  destruct (call_update w c a r) as [u|e] eqn:Hc; cbn [fst snd].
  2:{ split_and!; [done|by left|]. intros n (r' & u & m & Hs & _ & Hc' & _). congruence. }
  destruct (update_next u) as [n|] eqn:Hn.
  2:{ destruct u; [|done..]. cbn. split_and!; [done|by left|]. intros n (r' & u & m & Hs & _ & Hc' & Hm & _).
      rewrite Hst in Hs. injection Hs as <-. rewrite Hc in Hc'. injection Hc' as <-. done. }
  destruct Hinv as (Hhost & Hdur & Hmem). rewrite Hst in Hmem. pose proof (Hdur r Hmem) as Hr.
  pose proof (proj1 (durable_load a r) Hmem) as Hl. specialize (Hper r eq_refl).
  assert (reg_inv n) as Hin by (eapply call_inv; [exact Hr|by apply load_audited|done..]).
  pose proof (call_evolves w c a r u n (proj2 Hr) Hper Hc Hn) as Hev.
  assert (∀ a1 a' res, da_host a1 = host → da_state a1 = StReady r → load (da_files a1) host = Ok (Some r) →
    audited w (da_files a1) n → publish w io a1 n = (a', res) →
    dir_inv a' ∧ (durable a' = durable a ∨ ∃ n, proposes a (Performed io c) n ∧ durable a' = Some n) ∧
    (∀ n, proposes a (Performed io c) n → res = Ok tt → durable a' = Some n)) as Hpub.
  { intros a1 a' res Hh1 Hs1 Hl1 Ha1 H.
    destruct (publish_dir io a1 r n a' res) as [Hinv' Hcase];
      [done|done|by intros x; rewrite Hs1; intros [= <-]|by rewrite Hs1|done|done|apply Hev|done|done|].
    split; [done|]. assert (proposes a (Performed io c) (published n)) as Hprop by (exists r, u, n; done).
    split; [destruct Hcase as [[-> _]|Hcase]; [left; by rewrite Hmem|right; eauto]|].
    intros n' (r' & u' & m & Hs & _ & Hc' & Hm & ->) ->.
    rewrite Hst in Hs. injection Hs as <-. rewrite Hc in Hc'. injection Hc' as <-. rewrite Hn in Hm. injection Hm as <-.
    by destruct Hcase as [[_ [e He]]|]. }
  destruct u as [|n'|file n']; [done|..]; injection Hn as ->; cbn [apply_update].
  - destruct (publish w io a n) as [a' res] eqn:H. cbn. apply (Hpub a a' res); [done..| |done].
    eapply (audited_proposal io); [by apply load_audited|done|done|exact Hc|done|done|done].
  - destruct (write_side io (da_files a) file) as [fs' [[]|e]] eqn:Hw.
    + destruct (publish w io (a <| da_files := fs' |>) n) as [a' res] eqn:H. cbn [fst snd].
      apply (Hpub (a <| da_files := fs' |>) a' res); [done|done| | |done].
      * by eapply write_side_load.
      * eapply (audited_proposal io c a r _ n fs'); [by apply load_audited|done|done|exact Hc|done| |].
        -- by intros file' [= <-].
        -- intros op [doc Hdoc]. clear H. destruct file as [op' audit|name expected]; unfold write_side, atomic_write in Hw.
           ++ destruct (af_audits (da_files a) !! op') eqn:Ho; [by simplify_eq|].
              destruct (io_side_fails io) as [[]|]; simplify_eq; cbn; rewrite lookup_insert_ne; congruence.
           ++ destruct (af_resets (da_files a) !! name) as [[]|]; [by simplify_eq|by simplify_eq|].
              destruct (io_side_fails io) as [[]|]; by simplify_eq.
    + cbn [fst snd]. pose proof (write_side_load _ _ _ _ _ _ Hl Hw) as Hl'.
      assert (durable (a <| da_files := fs' |>) = Some r) as Hd by by apply durable_load.
      split_and!; [|by left; rewrite Hd, Hmem|done]. split_and!; [done|intros x; rewrite Hd; by intros [= <-]|]. cbn. by rewrite Hst.
Qed.

(** Pruning blobs changes nothing that is read. *)
Lemma prune_dir undeleted a :
  dir_inv a → dir_inv (prune_machine_blobs undeleted a) ∧ durable (prune_machine_blobs undeleted a) = durable a.
Proof.
  intros (Hhost & Hdur & Hmem). destruct (da_state a) as [|r|d] eqn:Hst;
    try (unfold prune_machine_blobs; rewrite Hst; split; [split_and!; [done..|by rewrite Hst]|done]).
  pose proof (load_prune w host undeleted a r Hst (proj1 (durable_load a r) Hmem)) as Hl.
  apply (durable_load (prune_machine_blobs undeleted a)) in Hl. rewrite Hl, Hmem. split; [|done].
  split_and!; [unfold prune_machine_blobs; by rewrite Hst|intros x; rewrite Hl; intros [= <-]; by apply Hdur|].
  rewrite Hl. unfold prune_machine_blobs. rewrite Hst. cbn. by rewrite Hst.
Qed.

Lemma open_spec probe fresh io a :
  dir_inv a → domains_invalid fresh = false →
  let a' := open w probe fresh io (da_files a) (da_host a) in
  dir_inv a' ∧ (durable a' = durable a ∨ ∃ n, proposes a (Opened probe fresh io) n ∧ durable a' = Some n).
Proof.
  intros (Hhost & Hdur & _) Hfresh. unfold open. rewrite Hhost. set (state := match probe with Some _ => _ | None => _ end).
  set (a1 := {| da_files := da_files a; da_host := host; da_state := state |}).
  assert (durable a1 = durable a) as Hd1 by done.
  assert (dir_inv a1) as Hinv1.
  { split_and!; [done|by rewrite Hd1|]. subst a1 state. cbn. destruct probe; [done|]. unfold durable. cbn.
    destruct (load (da_files a) host) as [[r|]|] eqn:Hl; [done| |done]. unfold Authority.load in Hl.
    destruct (af_anchor (da_files a)) eqn:?, (af_registry (da_files a)); [exfalso..|done];
      apply result_bind_Ok in Hl as (? & Hx & Hl); apply result_bind_Ok in Hl as (? & _ & Hl);
      apply check_then in Hl as [_ Hl]; apply result_bind_Ok in Hl as (? & _ & Hl);
      do 2 apply check_then in Hl as [_ Hl]; done. }
  match goal with |- context [prune_machine_blobs _ ?x] => set (a2 := x) end.
  assert (dir_inv a2 ∧ (durable a2 = durable a ∨ ∃ n, proposes a (Opened probe fresh io) n ∧ durable a2 = Some n)) as [H2 Hc2].
  { subst a2. destruct state as [|r|d] eqn:Hs; [split; [done|by left]| |split; [done|by left]].
    case_bool_decide as Hdom; [|split; [done|by left]]. pose proof Hinv1 as (_ & _ & Hm1). cbn in Hm1.
    destruct (publish w io a1 _) as [a' res] eqn:H. pose proof (Hdur r) as Hr. rewrite <-Hd1 in Hr. specialize (Hr Hm1).
    destruct (publish_dir io a1 r (r <| ry_domains := Some fresh |>) a' res) as [Hinv' Hcase]; try done.
    - by apply durable_load.
    - by intros x [= <-].
    - destruct Hr as [Hok Hsf]. split; [destruct Hok; constructor; try done|by destruct Hsf]. by intros x [= <-].
    - eapply audited_same; [by apply load_audited, durable_load|done..].
    - assert (durable a' = durable a ∨ ∃ n, proposes a (Opened probe fresh io) n ∧ durable a' = Some n) as Hout.
      { destruct Hcase as [[-> _]| ->]; [left; by rewrite <-Hd1|right]. eexists. split; [|done]. exists r. by rewrite <-Hd1. }
      destruct res; [done|]. split; [|done]. destruct Hinv' as (? & ? & _). by split_and!. }
  destruct (prune_dir (io_undeleted io) a2 H2) as [H3 ->]. done.
Qed.

Lemma empty_registry_inv epoch fresh : domains_invalid fresh = false → reg_inv (empty_registry epoch host fresh).
Proof.
  intros Hf. split; constructor; cbn; try done; try apply map_Forall_empty; try (by intros d [? ?]).
  by intros d [= <-].
Qed.

Lemma initialize_spec io epoch fresh a :
  dir_inv a → domains_invalid fresh = false → aw_anchor_len w (1, epoch, host) ≤ MAX_REGISTRY_BYTES →
  let a' := (initialize w io epoch fresh a).1 in
  dir_inv a' ∧ (durable a' = durable a ∨ ∃ n, proposes a (Initialized io epoch fresh) n ∧ durable a' = Some n).
Proof.
  intros Hinv Hf Hlen. pose proof Hinv as (Hhost & Hdur & Hmem). unfold initialize.
  destruct (da_state a) as [|r|d] eqn:Hst; [|by split; [done|left]..]. destruct Hmem as [Ha Hr].
  assert (∀ fs d, af_registry fs = None → dir_inv {| da_files := fs; da_host := host; da_state := StUnknown d |} ∧
    durable {| da_files := fs; da_host := host; da_state := StUnknown d |} = None) as Hclosed.
  { intros fs d Hreg. assert (durable {| da_files := fs; da_host := host; da_state := StUnknown d |} = None) as Hn.
    { unfold durable, Authority.load. cbn [da_files]. rewrite Hreg. destruct (af_anchor fs) as [doc|]; [|done].
      by destruct (read_with_limit (Some doc) _ _). }
    split; [|done]. split_and!; [done|by rewrite Hn|done]. }
  assert (durable a = None) as Hnone by (unfold durable, Authority.load; by rewrite Ha, Hr).
  cbn. rewrite Ha, Hhost, Hnone. destruct (iz_setup_fails io) as [detail|].
  { destruct (Hclosed (da_files a) "authority initialization incomplete"%string Hr) as [? Hd]. cbn. by split; [|left]. }
  destruct (iz_anchor_fails io) as [remains|].
  { cbn. match goal with |- dir_inv {| da_files := ?fs; da_host := _; da_state := StUnknown ?d |} ∧ _ =>
      destruct (Hclosed fs d Hr) as [? Hd]; rewrite Hd; by split; [|left] end. }
  match goal with |- context [publish w _ ?x _] => set (a1 := x) end.
  destruct (publish w (iz_publish io) a1 _) as [a' res] eqn:H. cbn [fst].
  pose proof (empty_registry_inv epoch fresh Hf) as Hempty.
  destruct (publish_spec w host Hdigest (iz_publish io) a1 (empty_registry epoch host fresh) a' res) as [Hh Hcase];
    [done|apply Hempty|done|done|done|by right|done|].
  assert (durable a1 = None) as Hd1 by (by apply Hclosed). unfold durable in Hd1.
  destruct Hcase as [(Hsame & _ & Href)|(Hnew & Hcase)].
  - assert (durable a' = None) as Hd by (unfold durable; by rewrite Hsame). rewrite Hd. split; [|by left].
    split_and!; [done|by rewrite Hd|]. by destruct Href as [->|[d ->]].
  - assert (durable a' = Some (empty_registry epoch host fresh)) as Hd by by apply durable_load. rewrite Hd. split.
    + split_and!; [done|rewrite Hd; by intros x [= <-]|]. rewrite Hd. by destruct Hcase as [[_ [d ->]]|[_ ->]].
    + right. eexists. split; [|done]. by split.
Qed.

Lemma occur_spec a e :
  dir_inv a → event_ok a e →
  dir_inv (occur w a e) ∧
  (durable (occur w a e) = durable a ∨ ∃ n, proposes a e n ∧ durable (occur w a e) = Some n).
Proof.
  intros Hinv Hok. destruct e as [io c|probe fresh io|io epoch fresh]; cbn [occur event_ok] in *.
  - destruct (perform_spec io c a Hinv Hok) as (? & ? & _). done.
  - by apply open_spec.
  - destruct Hok. by apply initialize_spec.
Qed.

(** A directory without files. *)
Definition no_files : AuthorityFiles :=
  {| af_anchor := None; af_registry := None; af_blobs := ∅; af_audits := ∅; af_resets := ∅ |}.
Definition new_directory : DurableAuthority :=
  {| da_files := no_files; da_host := host; da_state := StUninitialized |}.

Lemma new_directory_inv : dir_inv new_directory.
Proof. by split_and!. Qed.

Lemma histories_dir_inv a a' : dir_inv a → rtc dir_step a a' → dir_inv a'.
Proof. intros Hinv H. induction H as [|a b c (e & Hok & ->) _ IH]; [done|]. apply IH. by apply occur_spec. Qed.

(** ** What a step may change *)
Lemma published_fields n :
  ry_machine_permissions (published n) = ry_machine_permissions n ∧ ry_native_permissions (published n) = ry_native_permissions n ∧
  ry_holds (published n) = ry_holds n ∧ ry_participants (published n) = ry_participants n ∧
  ry_retired_domains (published n) = ry_retired_domains n ∧ ry_coordinator (published n) = ry_coordinator n ∧
  ry_epoch (published n) = ry_epoch n ∧
  ry_pending_domain_retirement (published n) = ry_pending_domain_retirement n.
Proof. by split_and!. Qed.

(** A registry that is there stays, and changes by one operation at a time; the
    start of a process at most names its domains. *)
Lemma step_evolves a e r :
  dir_inv a → event_ok a e → durable a = Some r →
  ∃ n, durable (occur w a e) = Some n ∧
    ((∃ io c, e = Performed io c ∧ ∃ m, evolves c r m ∧ n = published m) ∨
     n = r ∨ ∃ d, n = published (r <| ry_domains := d |>)).
Proof.
  intros Hinv Hok Hr. destruct (occur_spec a e Hinv Hok) as [_ [Hsame|(n & Hprop & Hn)]].
  { exists r. rewrite Hsame. auto. }
  exists n. split; [done|]. pose proof Hinv as (_ & Hdur & Hmem). destruct e as [io c|probe fresh io|io epoch fresh].
  - left. exists io, c. split; [done|]. destruct Hprop as (r' & u & m & Hs & _ & Hc & Hu & ->).
    rewrite Hs in Hmem. rewrite Hr in Hmem. injection Hmem as <-. exists m. split; [|done].
    eapply call_evolves; [apply (Hdur r Hr)|by apply Hok|exact Hc|done].
  - right. right. destruct Hprop as (r' & Hr' & _ & ->). rewrite Hr in Hr'. injection Hr' as <-. eauto.
  - destruct Hprop as [Hnone _]. congruence.
Qed.

(** A domain whose retirement is finished. *)
Definition finished r domain (t : RetiredDomain) : Prop :=
  ry_retired_domains r !! domain = Some t ∧ pd_domain_id <$> ry_pending_domain_retirement r ≠ Some domain.

Lemma finished_step a e r domain t :
  dir_inv a → event_ok a e → durable a = Some r → finished r domain t →
  ∃ n, durable (occur w a e) = Some n ∧ finished n domain t.
Proof.
  intros Hinv Hok Hr [Ht Hp]. destruct (step_evolves a e r Hinv Hok Hr) as (n & Hn & Hcase). exists n. split; [done|].
  destruct Hcase as [(io & c & _ & m & Hev & ->)|[->|[d ->]]]; [|done..].
  destruct (published_fields m) as (_ & _ & _ & _ & F5 & _ & _ & F8). unfold finished. rewrite F5, F8. split.
  - eapply lookup_weaken; [exact Ht|apply Hev].
  - destruct (ev_pending _ _ _ Hev) as [->|[->|(q & ? & ? & ? & _ & Hq & ->)]]; [done|done|]. intros [= <-]. congruence.
Qed.


(** C13: No obligation is lost.  In every history, when an event leaves the registry
    [n] where [r] was: a grant that may have been used stays with its allocation
    unless the open commit carries its release or its domain is being retired; a
    native start stays unless its emptiness was reported or a reset had found nothing
    left; a hold keeps its reason and owner, and once released does not change; a
    recorded reset and the epoch stay until everything is reconciled; participants
    keep registration and commitment, and connection epochs, sessions and sequences
    only advance. *)
Theorem authority_keeps_obligations a e r n :
  rtc dir_step new_directory a → event_ok a e → durable a = Some r → durable (occur w a e) = Some n →
  (∀ id g, ry_machine_permissions r !! id = Some g →
     (∃ g', ry_machine_permissions n !! id = Some g' ∧ cd_key (gs_candidate g') = cd_key (gs_candidate g)) ∨
     grant_ended r g) ∧
  (∀ id q, ry_native_permissions r !! id = Some q → ry_native_permissions n !! id = Some q ∨
     (∃ io proven, e = Performed io (RetireNativeStarts proven) ∧ id ∈ proven) ∨ reconciled r) ∧
  (∀ id h, ry_holds r !! id = Some h → ∃ h', ry_holds n !! id = Some h' ∧ hold_kept h h') ∧
  (∀ h, ry_coordinator r = Some h → is_Some (ch_pending_reset h) → ry_coordinator n = Some h ∨ reconciled r) ∧
  (ry_epoch n = ry_epoch r ∨ reconciled r) ∧
  (∀ d p, ry_participants r !! d = Some p → (∃ p', ry_participants n !! d = Some p' ∧ anchor_advances r p p') ∨
     pd_domain_id <$> ry_pending_domain_retirement r = Some d).
Proof.
  intros H Hok Hr Hn. pose proof (histories_dir_inv _ _ new_directory_inv H) as Hinv.
  destruct (step_evolves a e r Hinv Hok Hr) as (n' & Hn' & Hcase). rewrite Hn in Hn'. injection Hn' as <-.
  assert (∃ c m, evolves c r m ∧ n = published m ∧ (∀ proven, c = RetireNativeStarts proven →
    ∃ io, e = Performed io (RetireNativeStarts proven)) ∨ n = r ∨ ∃ d, n = published (r <| ry_domains := d |>)) as
    (c & m & [(Hev & -> & Hc)|Hsame]).
  { destruct Hcase as [(io & c & -> & m & Hev & ->)|Hsame].
    - exists c, m. left. split_and!; [done..|]. intros proven ->. eauto.
    - exists (CommitPairing 0), r. by right. }
  - destruct (published_fields m) as (-> & -> & -> & -> & _ & -> & -> & _). destruct Hev. split_and!; try done.
    intros id q Hq. destruct (ev_native id q Hq) as [?|[(proven & Hp & Hin)|?]]; [by left| |by right; right].
    right. left. destruct (Hc proven Hp) as [io He]. eauto.
  - assert (ry_machine_permissions n = ry_machine_permissions r ∧ ry_native_permissions n = ry_native_permissions r ∧
      ry_holds n = ry_holds r ∧ ry_participants n = ry_participants r ∧ ry_coordinator n = ry_coordinator r ∧
      ry_epoch n = ry_epoch r) as (-> & -> & -> & -> & -> & ->).
    { destruct Hsame as [->|[d ->]]; by split_and!. }
    split_and!; [by eauto|by eauto| |by eauto|by eauto|].
    + intros id h Hh. exists h. split; [done|apply hold_kept_refl].
    + intros d p Hp. left. exists p. split; [done|apply anchor_advances_refl].
Qed.

(** C14: A retired manager never comes back.  Once the retirement of a domain is
    finished, after every further history the domain is still recorded with the same
    receipt, and no participant, no child of it, no grant and no open commit belongs to
    it; no participant ever has its installation nonce or its store. *)
Theorem retired_identities_never_return a a' r domain t :
  rtc dir_step new_directory a → durable a = Some r → finished r domain t → rtc dir_step a a' →
  ∃ n, durable a' = Some n ∧ ry_retired_domains n !! domain = Some t ∧ clear_of n domain ∧
    commit_domain n ≠ Some domain ∧
    ∀ d p, ry_participants n !! d = Some p → pa_nonce p ≠ rt_installation_nonce t ∧ pa_store p ≠ rt_manager_store_uuid t.
Proof.
  intros H Hr Hf Hrun. pose proof (histories_dir_inv _ _ new_directory_inv H) as Hinv. clear H.
  revert r Hr Hf Hinv. induction Hrun as [a|a b c (e & Hok & ->) _ IH]; intros r Hr [Ht Hp] Hinv.
  - exists r. pose proof (proj1 (proj2 Hinv) r Hr) as [Hrk Hrs].
    destruct (rk_fence _ _ _ Hrk domain) as [[Hpend|Hclear] Hc]; [by eexists|by rewrite Hpend in Hp|].
    split_and!; [done..|]. intros d p Hd. apply (rs_retired _ Hrs domain t d p); [done..|]. intros <-.
    destruct Hclear as [Hnone _]. congruence.
  - destruct (finished_step a e r domain t Hinv Hok Hr) as (n & Hn & Hfn); [done|].
    apply (IH n Hn Hfn). by apply occur_spec.
Qed.
End history.
