(* ===== verification/AuthorityDemo.v ===== *)
(** * AuthorityDemo: a directory through stops, a commit and a retirement

    A directory is initialized, a manager pairs and connects, the commit of a grant is
    interrupted between the write of the registry and its acknowledgement, the next
    process finishes it, and the owner retires the manager. *)
From S2P Require Import Prelude Spec Validate Kernel Scoped Observation Machine MachineStore.
From S2P Require Import Reservation MachineOffer MachineRecovery Columns Native Policy PolicyFacts.
From S2P Require Import Registry RegistryOps Authority AuthorityFacts AuthorityInv AuthorityEvolves AuthorityHistory.

Module AuthorityDemo.
Definition digest : string := "0000000000000000000000000000000000000000000000000000000000000000".

(** Every value has the same length and the same digest. *)
Definition wire : AuthorityWire :=
  {| aw_anchor_len := λ _, 100; aw_registry_hash := λ _, digest; aw_registry_len := λ _, 100;
     aw_intent_hash := λ _, digest; aw_intent_len := λ _, 100; aw_key_hash := λ _, digest;
     aw_inventory_hash := λ _, digest; aw_audit_hash := λ _, digest; aw_audit_len := λ _, 100;
     aw_receipt_len := λ _, 100; aw_snapshot_hash := λ _, digest; aw_admission_len := λ _ _ _ _, 100;
     aw_work_hash := λ _, digest; aw_work_len := λ _, 100; aw_is_uuid := λ _, true |}.
Lemma wire_digest intent : is_digest (aw_intent_hash wire intent) = true.
Proof. reflexivity. Qed.

Definition host : string := "host".
Definition good : PublishIo :=
  {| io_side_fails := None; io_blob_fails := None; io_registry_fails := None; io_undeleted := λ _, false |}.
(** The process stops after the registry file was replaced. *)
Definition stopped : PublishIo :=
  {| io_side_fails := None; io_blob_fails := None; io_registry_fails := Some true; io_undeleted := λ _, true |}.
Definition init_io : InitializeIo := {| iz_setup_fails := None; iz_anchor_fails := None; iz_publish := good |}.

Definition domains : AuthorityDomains := {| ad_machine_id := 1; ad_machine_scope := 2; ad_native_domain := 3 |}.
Definition process : ProcessIdentity := LinuxProcess "host" "boot" 77 1234 4026531836 1000.
Definition registration : PairingRegistration :=
  {| pg_installation := {| ii_installation_nonce := 11; ii_domain_id := 10; ii_owner_uid := 1000;
       ii_runtime_registration := "runtime"; ii_role := Executor |};
     pg_manager_store_uuid := 12; pg_parent_domain := 2; pg_budgets := ∅; pg_aliases := ∅; pg_secret := [7] |}.
Definition session : SessionIdentity :=
  {| se_machine_id := 1; se_authority_epoch := 5; se_domain_id := 10; se_manager_store_uuid := 12;
     se_executor_incarnation := 13; se_connection_epoch := 1 |}.
Definition key : AllocationKey :=
  {| ak_machine_id := 1; ak_authority_epoch := 5; ak_domain_id := 10; ak_manager_store_uuid := 12; ak_lease_id := 14 |}.
Definition candidate : Candidate :=
  {| cd_key := key; cd_owner := Work {| store_uuid := 12; entity_uuid := 15 |} {| store_uuid := 12; entity_uuid := 16 |};
     cd_revision := 1; cd_priority := 0;
     cd_claims := {| mc_scalars := ∅; mc_shared_fences := []; mc_exclusive_fences := []; mc_impacts := [] |};
     cd_configuration_sha256 := digest; cd_observed := None; cd_quiet := None |}.
Definition grant : GrantSnapshot :=
  {| gs_queue_accepted_unix_millis := 0; gs_queue_sequence := 1; gs_uncertainty_reason := None;
     gs_risk_clearance := None; gs_grant_id := {| store_uuid := 20; entity_uuid := 21 |}; gs_candidate := candidate;
     gs_offer_nonce := 22; gs_state := Armed; gs_offered_unix_millis := 0; gs_offer_deadline_unix_millis := 5000;
     gs_armed_unix_millis := Some 10%Z; gs_released_unix_millis := None; gs_tickets := []; gs_sealed_release := None |}.
Definition intent : MachineCommitIntent :=
  {| mi_request := {| rq_version := 1; rq_session := session; rq_request_sequence := 1; rq_operation_id := 23;
       rq_payload_sha256 := digest; rq_command := Arm key 22; rq_authentication := "tag" |};
     mi_outcome := OGrant grant; mi_grants := [grant] |}.
Definition retirement : DomainRetirementRequest :=
  {| dq_operation_id := 30; dq_domain_id := 10; dq_expected_inventory_sha256 := digest; dq_reason := "lost";
     dq_accept_risk := true |}.

(** Pairing and connection of the manager. *)
Definition before_commit : list Event :=
  [Initialized init_io 5 domains; Performed good (BindCoordinator 6 20 7 process);
   Performed good (PreparePairing registration); Performed good (CommitPairing 10);
   Performed good (ReserveMachineConnection 10 0); Performed good (AcceptMachineSession session)].
(** The commit is written, but its process does not live to hear of it. *)
Definition interrupted : list Event := [Performed stopped (PrepareMachineCommit intent)].
Definition resumed : list Event := [Opened None domains good; Performed good (FinishMachineCommit 23)].
Definition retired : list Event :=
  [Performed good (PrepareDomainRetirement retirement process "owner" 40); Performed good (FinishDomainRetirement 30)].

Definition start : DurableAuthority := new_directory host.
Definition connected : DurableAuthority := run wire start before_commit.
Definition stopped_directory : DurableAuthority := run wire connected interrupted.
Definition resumed_directory : DurableAuthority := run wire stopped_directory resumed.
Definition final_directory : DurableAuthority := run wire resumed_directory retired.

Definition registry_of (a : DurableAuthority) : Registry :=
  default (empty_registry 0 host domains) (durable wire host a).

Lemma authority_run :
  admission_blocker connected = None ∧
  da_state stopped_directory = StUnknown "authority publication outcome is uncertain" ∧
  ry_pending_machine_commit (registry_of stopped_directory) = Some intent ∧
  ry_machine_permissions (registry_of resumed_directory) !! gs_grant_id grant = Some grant ∧
  ry_pending_machine_commit (registry_of resumed_directory) = None ∧
  pa_accepted_sequence <$> ry_participants (registry_of resumed_directory) !! 10 = Some 1 ∧
  ry_participants (registry_of final_directory) = ∅ ∧
  ry_machine_permissions (registry_of final_directory) = ∅ ∧
  retired_installation_receipt final_directory 11 99 ≠ None ∧ admission_blocker final_directory = None.
Proof. vm_compute. by split_and!. Qed.

(** ** The history as steps *)
Fixpoint events_ok (a : DurableAuthority) (events : list Event) : Prop :=
  match events with [] => True | e :: events => event_ok wire host a e ∧ events_ok (occur wire a e) events end.
Lemma run_history events a : events_ok a events → rtc (dir_step wire host) a (run wire a events).
Proof.
  revert a. induction events as [|e events IH]; intros a H; [apply rtc_refl|]. destruct H as [He H].
  eapply rtc_l; [by exists e|]. by apply IH.
Qed.

Lemma to_connected : rtc (dir_step wire host) start connected.
Proof.
  apply run_history. cbn [events_ok before_commit event_ok permitted]. split; [done|].
  split; [intros r _; by split_and!|]. split; [|do 2 (split; [intros r _; exact I|]); split; [intros r _; exact I|exact I]].
  intros r Hr. vm_compute in Hr. injection Hr as <-. by split_and!.
Qed.
Lemma to_stopped : rtc (dir_step wire host) start stopped_directory.
Proof.
  etrans; [apply to_connected|]. apply run_history. cbn [events_ok interrupted event_ok permitted]. split; [|done].
  intros r Hr. vm_compute in Hr. injection Hr as <-. split; [done|]. intros g Hg.
  apply list_elem_of_singleton in Hg as ->. split_and!; [done|by vm_compute|].
  intros g' Hg'. by apply list_elem_of_singleton in Hg' as ->.
Qed.
Lemma to_resumed : rtc (dir_step wire host) start resumed_directory.
Proof.
  etrans; [apply to_stopped|]. apply run_history. cbn [events_ok resumed event_ok permitted].
  split; [reflexivity|]. split; [|exact I]. intros r _. exact I.
Qed.
Lemma to_final : rtc (dir_step wire host) start final_directory.
Proof.
  etrans; [apply to_resumed|]. apply run_history. cbn [events_ok retired event_ok permitted].
  split; [intros r _; exact I|]. split; [|exact I]. intros r _. exact I.
Qed.


Definition retiring_directory : DurableAuthority :=
  run wire resumed_directory [Performed good (PrepareDomainRetirement retirement process "owner" 40)].
Lemma to_retiring : rtc (dir_step wire host) start retiring_directory.
Proof.
  etrans; [apply to_resumed|]. apply run_history. cbn [events_ok event_ok permitted].
  split; [intros r _; exact I|exact I].
Qed.

(** The grant of the retired manager is still there when the retirement finishes. *)
Lemma authority_keeps_obligations_witness :
  ry_machine_permissions (registry_of retiring_directory) !! gs_grant_id grant = Some grant ∧
  ((∃ g', ry_machine_permissions (registry_of final_directory) !! gs_grant_id grant = Some g' ∧
      cd_key (gs_candidate g') = key) ∨ grant_ended (registry_of retiring_directory) grant).
Proof.
  split; [by vm_compute|].
  destruct (authority_keeps_obligations wire host wire_digest retiring_directory
    (Performed good (FinishDomainRetirement 30)) (registry_of retiring_directory) (registry_of final_directory))
    as [H _].
  - exact to_retiring.
  - intros r _. exact I.
  - by vm_compute.
  - by vm_compute.
  - apply (H (gs_grant_id grant) grant). by vm_compute.
Defined.

Definition receipt_of (a : DurableAuthority) : RetiredDomain :=
  default {| rt_installation_nonce := 0; rt_manager_store_uuid := 0;
             rt_receipt := {| dc_operation_id := 0; dc_domain_id := 0; dc_manager_store_uuid := 0;
               dc_inventory_sha256 := ""; dc_audit_sha256 := ""; dc_requester := process;
               dc_requester_principal := ""; dc_reason := ""; dc_risk_accepted := false;
               dc_retired_unix_millis := 0; dc_grants_retired := 0; dc_tickets_retired := 0 |} |}
    (ry_retired_domains (registry_of a) !! 10).

Lemma retired_identities_never_return_witness :
  ∃ n, durable wire host (run wire final_directory [Opened None domains good]) = Some n ∧
    ry_retired_domains n !! 10 = Some (receipt_of final_directory) ∧ clear_of n 10.
Proof.
  destruct (retired_identities_never_return wire host wire_digest final_directory
    (run wire final_directory [Opened None domains good]) (registry_of final_directory) 10 (receipt_of final_directory))
    as (n & Hn & Ht & Hc & _).
  - exact to_final.
  - by vm_compute.
  - split; by vm_compute.
  - apply run_history. cbn [events_ok event_ok]. by split.
  - exists n. by split_and!.
Defined.

(** ** A reason that is not read back

    [record_reset] publishes any reason, and [load] refuses one of more than 1024
    bytes: the process that recorded it goes on, and the next one finds no history. *)
Definition long_reason : string := String.concat "" (replicate 129 "12345678"%string).

Example long_reset_reason_is_not_read_back :
  len long_reason = 1032 ∧ (perform wire good (RecordReset 50 long_reason) connected).2 = Ok tt ∧
  let a := (perform wire good (RecordReset 50 long_reason) connected).1 in
  is_pending_reset (match da_state a with StReady r => r | _ => registry_of start end) = true ∧
  da_state (open wire None domains good (da_files a) host) = StUnknown "authority identity/schema/history mismatch".
Proof. vm_compute. by split_and!. Qed.
End AuthorityDemo.
