(* ===== verification/Views.v ===== *)
(** * Views: selectors, lists of jobs and the event log ([src/src/store/observation.rs])

    What a client reads of the tables in pages: the jobs that a selector names,
    newest first, and the events committed after a cursor.  The rows of [events]
    are those the triggers of [src/src/store/database.rs] insert; each insertion
    also drops the rows beyond the last [MAX_EVENT_ROWS].  The summary of a job is
    built from its row by [job_summary], an argument here. *)
From S2P Require Import Prelude Spec Validate Kernel Scoped Observation Machine MachineStore Reservation.
From S2P Require Import Native Policy Submission.

Definition MAX_OBSERVATION_PAGE : N := 1024.
Definition MAX_WAIT_STREAM_JOBS : N := 1024.
Definition MAX_EVENT_ROWS : N := 16384.

Inductive JobSelector :=
| SelAll
| SelJobs (job_ids : list DurableId)
| SelBatch (batch_id : DurableId)
| SelLabels (labels : list Label).

Inductive SchedulerEventKind :=
| JobChanged | LogCommitted | AttemptChanged | InvocationChanged | ContainmentChanged | CancellationRequested.
#[global] Instance SchedulerEventKind_eq_dec : EqDecision SchedulerEventKind.
Proof. solve_decision. Defined.
Inductive InvocationTransition := TransitionStarted | TransitionExited.
#[global] Instance InvocationTransition_eq_dec : EqDecision InvocationTransition.
Proof. solve_decision. Defined.

Record EventCursor := { ec_store_uuid : Uuid; ec_sequence : N }.
#[global] Instance EventCursor_eq_dec : EqDecision EventCursor.
Proof. solve_decision. Defined.
Record JobListCursor := { jc_store_uuid : Uuid; jc_accepted_unix_millis : Z; jc_job_id : DurableId }.
#[global] Instance JobListCursor_eq_dec : EqDecision JobListCursor.
Proof. solve_decision. Defined.

(** A row of [events]; its key is the sequence. *)
Record EventRow := {
  er_kind : SchedulerEventKind;
  er_job_id : Uuid;
  er_batch_id : option Uuid;
  er_attempt_id : option Uuid;
  er_invocation_id : option Uuid;
  er_transition : option InvocationTransition;
  er_committed_ms : Z;
}.

Record SchedulerEvent := {
  sv_cursor : EventCursor;
  sv_kind : SchedulerEventKind;
  sv_job_id : DurableId;
  sv_batch_id : option DurableId;
  sv_attempt_id : option DurableId;
  sv_invocation_id : option DurableId;
  sv_transition : option InvocationTransition;
  sv_committed_unix_millis : Z;
}.

Record JobListPage {Summary : Type} := {
  jp_jobs : list Summary;
  jp_next_cursor : option JobListCursor;
  jp_event_cursor : EventCursor;
}.
Arguments JobListPage : clear implicits.

Record EventGap := { eg_requested : EventCursor; eg_oldest_available : EventCursor }.

Inductive ObservationFrame {Summary : Type} :=
| Events (events : list SchedulerEvent) (cursor : EventCursor)
| Gap (gap : EventGap) (snapshot : JobListPage Summary) (cursor : EventCursor).
Arguments ObservationFrame : clear implicits.

(** The tables that views read: those of jobs, the events, and the revision that the
    triggers [jobs_tree_order_insert] and [jobs_tree_order_update] count. *)
Record ViewStore := {
  vw_store : SubmitStore;
  vw_events : gmap N EventRow;
  vw_tree_order_revision : N;
}.
#[export] Instance ViewStore_eta : Eta ViewStore := λ r,
  {| vw_store := vw_store r; vw_events := vw_events r; vw_tree_order_revision := vw_tree_order_revision r |}.

(** A row that [scan_job_rows] selects. *)
Record ListRow := {
  lr_job_id : DurableId;
  lr_accepted_ms : Z;
  lr_batch_id : option Uuid;
  lr_spec : JobSpec;
}.

(** Newest first: [ORDER BY accepted_ms DESC, id DESC]. *)
Definition newest_le (a b : ListRow) : Prop :=
  lex_le (lr_accepted_ms b, lr_job_id b) (lr_accepted_ms a, lr_job_id a).
#[global] Instance newest_le_dec : RelDecision newest_le.
Proof. unfold newest_le. intros a b. apply _. Defined.

Section views.
Context (store : Uuid).   (* [self.store_uuid] *)
Context (uuid_to_string : Uuid → string).
Context {Summary : Type} (job_summary : DurableId → result StoreError Summary).
Implicit Types (s : SubmitStore) (v : ViewStore) (selector : JobSelector).

Definition durable_id (entity : Uuid) : DurableId := {| store_uuid := store; entity_uuid := entity |}.
Definition show_durable (d : DurableId) : string := Columns.durable_to_string uuid_to_string d.

(** ** The event log *)
Definition event_sequence v : N := foldr N.max 0 (btree_keys (vw_events v)).
Definition event_head v : EventCursor := {| ec_store_uuid := store; ec_sequence := event_sequence v |}.

(** [COALESCE(MIN(sequence), head + 1)] *)
Definition oldest_event_cursor v (head : N) : EventCursor :=
  {| ec_store_uuid := store;
     ec_sequence := match btree_keys (vw_events v) with [] => head + 1 | k :: _ => k end |}.

(** An insertion with the trigger [events_prune]. *)
Definition append_event (e : EventRow) v : ViewStore :=
  let sequence := event_sequence v + 1 in
  v <| vw_events := filter (λ p : N * EventRow, ¬ (Z.of_N p.1 ≤ Z.of_N sequence - Z.of_N MAX_EVENT_ROWS)%Z)
         (<[sequence := e]> (vw_events v)) |>.

(** ** Selectors *)
Definition label_invalid (l : Label) : bool :=
  bool_decide (label_key l = ""%string) || bool_decide (label_value l = ""%string)
  || contains_any [nul; Ascii.ascii_of_N 61] (label_key l) || contains_nul (label_value l).

Definition validate_job_id s (seen : gset DurableId) (job : DurableId) : result StoreError (gset DurableId) :=
  _ ← guard_err (bool_decide (store_uuid job ≠ store) || bool_decide (job ∈ seen))
        (ERejected "explicit Job selector contains a foreign or duplicate ID");
  _ ← guard_err (bool_decide (nv_jobs (sb_native s) !! entity_uuid job = None)) (ENotFound (show_durable job));
  Ok ({[job]} ∪ seen).

Definition validate_label (seen : gset (string * string)) (l : Label) : result StoreError (gset (string * string)) :=
  _ ← guard_err (label_invalid l || bool_decide ((label_key l, label_value l) ∈ seen))
        (ERejected "label selector contains an invalid or duplicate label");
  Ok ({[(label_key l, label_value l)]} ∪ seen).

Definition validate_selector s selector : result StoreError unit :=
  match selector with
  | SelAll => Ok tt
  | SelJobs job_ids =>
      _ ← guard_err (bool_decide (job_ids = []) || bool_decide (MAX_WAIT_STREAM_JOBS < N.of_nat (length job_ids)))
            (ERejected "explicit Job selector must contain 1..=1024 IDs");
      _ ← result_foldM (validate_job_id s) ∅ job_ids; Ok tt
  | SelBatch batch_id =>
      _ ← guard_err (bool_decide (store_uuid batch_id ≠ store)) (ERejected "Batch selector belongs to a different store");
      guard_err (bool_decide (sb_batches s !! entity_uuid batch_id = None)) (ENotFound (show_durable batch_id))
  | SelLabels labels =>
      _ ← guard_err (bool_decide (labels = []) || bool_decide (32 < N.of_nat (length labels)))
            (ERejected "label selector must contain 1..=32 labels");
      _ ← result_foldM validate_label ∅ labels; Ok tt
  end.

Definition row_matches_selector (job : DurableId) (batch : option Uuid) (spec : option JobSpec) selector
    : result StoreError bool :=
  match selector with
  | SelAll => Ok true
  | SelJobs job_ids => Ok (bool_decide (job ∈ job_ids))
  | SelBatch selected => Ok (bool_decide (batch = Some (entity_uuid selected)))
  | SelLabels labels =>
      spec ← ok_or spec (EInvalidState "label match is missing retained Job spec");
      Ok (forallb (λ label, bool_decide (label ∈ job_labels spec)) labels)
  end.

(** ** Lists of jobs *)
Definition list_rows s : list ListRow :=
  sort_by newest_le (map (λ p : Uuid * Job,
    {| lr_job_id := durable_id p.1; lr_accepted_ms := nj_accepted_ms p.2;
       lr_batch_id := sb_origins s !! p.1 ≫= og_batch_id; lr_spec := nj_spec p.2 |})
    (btree_entries (nv_jobs (sb_native s)))).

(** [WHERE accepted_ms < ?1 OR (accepted_ms = ?1 AND id < ?2)] *)
Definition after_cursor (cursor : option JobListCursor) (r : ListRow) : bool :=
  match cursor with
  | None => true
  | Some c => bool_decide (lr_accepted_ms r < jc_accepted_unix_millis c)%Z
              || bool_decide (lr_accepted_ms r = jc_accepted_unix_millis c)
                 && bool_decide (entity_uuid (lr_job_id r) < entity_uuid (jc_job_id c))
  end.

Definition scan_job_rows s (cursor : option JobListCursor) (limit : N) : list ListRow :=
  take (N.to_nat limit) (List.filter (after_cursor cursor) (list_rows s)).

Definition cursor_of (r : ListRow) : JobListCursor :=
  {| jc_store_uuid := store; jc_accepted_unix_millis := lr_accepted_ms r; jc_job_id := lr_job_id r |}.

(** [for row in rows { if matches { selected.push(row); if selected.len() > limit { break; } } }] *)
Fixpoint select_rows selector (limit : nat) (selected rows : list ListRow) : result StoreError (list ListRow) :=
  match rows with
  | [] => Ok selected
  | r :: rows =>
      matches ← row_matches_selector (lr_job_id r) (lr_batch_id r) (Some (lr_spec r)) selector;
      if matches : bool then
        let selected := selected ++ [r] in
        if bool_decide (limit < length selected)%nat then Ok selected else select_rows selector limit selected rows
      else select_rows selector limit selected rows
  end.

(** [while selected.len() <= limit && !exhausted] *)
Fixpoint list_loop (fuel : nat) s selector (limit : nat) (scan : option JobListCursor) (selected : list ListRow)
    (exhausted : bool) : result StoreError (list ListRow) :=
  if bool_decide (length selected ≤ limit)%nat && negb exhausted then
    match fuel with
    | O => Err (EPanic "out of fuel")
    | S fuel =>
        let rows := scan_job_rows s scan MAX_OBSERVATION_PAGE in
        let exhausted := bool_decide (N.of_nat (length rows) < MAX_OBSERVATION_PAGE) in
        let scan := match last rows with Some r => Some (cursor_of r) | None => scan end in
        selected ← select_rows selector limit selected rows;
        list_loop fuel s selector limit scan selected exhausted
    end
  else Ok selected.

Definition check_list_cursor s (cursor : option JobListCursor) : result StoreError unit :=
  match cursor with
  | None => Ok tt
  | Some c =>
      _ ← guard_err (bool_decide (jc_store_uuid c ≠ store) || bool_decide (store_uuid (jc_job_id c) ≠ store))
            (ERejected "list cursor belongs to a different store");
      guard_err (negb (match nv_jobs (sb_native s) !! entity_uuid (jc_job_id c) with
                       | Some j => bool_decide (nj_accepted_ms j = jc_accepted_unix_millis c) | None => false end))
        (ERejected "invalid list cursor")
  end.

Definition page_limit (limit : N) : nat := N.to_nat (N.max 1 (N.min limit MAX_OBSERVATION_PAGE)).

(** The rows of a page and the cursor behind it. *)
Definition list_page s selector (cursor : option JobListCursor) (limit : N)
    : result StoreError (list ListRow * option JobListCursor) :=
  _ ← validate_selector s selector;
  let limit := page_limit limit in
  _ ← check_list_cursor s cursor;
  selected ← list_loop (S (size (nv_jobs (sb_native s)))) s selector limit cursor [] false;
  if bool_decide (limit < length selected)%nat then
    let selected := take (length selected - 1) selected in
    last ← ok_or (last selected) (EPanic "a positive page limit has one row");
    Ok (selected, Some (cursor_of last))
  else Ok (selected, None).

Definition list_jobs v selector (cursor : option JobListCursor) (limit : N) : result StoreError (JobListPage Summary) :=
  '(selected, next_cursor) ← list_page (vw_store v) selector cursor limit;
  jobs ← result_mapM (λ r, job_summary (lr_job_id r)) selected;
  Ok {| jp_jobs := jobs; jp_next_cursor := next_cursor; jp_event_cursor := event_head v |}.

(** ** Observation of events *)
Definition transition_identity s (r : EventRow)
    : result StoreError (option DurableId * option DurableId * option InvocationTransition) :=
  match er_kind r, er_attempt_id r, er_invocation_id r, er_transition r with
  | InvocationChanged, Some attempt, Some invocation, Some transition =>
      let n := sb_native s in
      _ ← guard_err (negb (match nv_invocations n !! invocation, nv_attempts n !! attempt with
                           | Some i, Some a => bool_decide (ni_attempt_id i = attempt)
                                               && bool_decide (na_job_id a = er_job_id r)
                           | _, _ => false end))
            (EInvalidState "InvocationChanged event identity does not belong to its Job");
      Ok (Some (durable_id attempt), Some (durable_id invocation), Some transition)
  | InvocationChanged, _, _, _ => Err (EInvalidState "InvocationChanged event has incomplete transition identity")
  | _, None, None, None => Ok (None, None, None)
  | _, _, _, _ => Err (EInvalidState "non-Invocation event carries Invocation transition identity")
  end.

Definition event_matches s selector (r : EventRow) : result StoreError bool :=
  spec ← match selector with
         | SelLabels _ => j ← ok_or (nv_jobs (sb_native s) !! er_job_id r) (ESql "no rows"); Ok (Some (nj_spec j))
         | _ => Ok None end;
  row_matches_selector (durable_id (er_job_id r)) (er_batch_id r) spec selector.

Definition to_event s (sequence : N) (r : EventRow) : result StoreError SchedulerEvent :=
  '(attempt, invocation, transition) ← transition_identity s r;
  Ok {| sv_cursor := {| ec_store_uuid := store; ec_sequence := sequence |}; sv_kind := er_kind r;
        sv_job_id := durable_id (er_job_id r); sv_batch_id := durable_id <$> er_batch_id r;
        sv_attempt_id := attempt; sv_invocation_id := invocation; sv_transition := transition;
        sv_committed_unix_millis := er_committed_ms r |}.

(** The loop over the rows: the events and the last sequence looked at. *)
Fixpoint scan_events s selector (wanted : nat) (scanned : N) (events : list SchedulerEvent)
    (rows : list (N * EventRow)) : result StoreError (list SchedulerEvent * N) :=
  match rows with
  | [] => Ok (events, scanned)
  | (sequence, r) :: rows =>
      matches ← event_matches s selector r;
      if matches : bool then
        e ← to_event s sequence r;
        let events := events ++ [e] in
        if bool_decide (length events = wanted) then Ok (events, sequence)
        else scan_events s selector wanted sequence events rows
      else scan_events s selector wanted sequence events rows
  end.

(** [SELECT … FROM events WHERE sequence > ?1 ORDER BY sequence LIMIT ?2] *)
Definition event_rows v (after : N) : list (N * EventRow) :=
  take (N.to_nat MAX_OBSERVATION_PAGE)
    (List.filter (λ p : N * EventRow, bool_decide (after < p.1)) (btree_entries (vw_events v))).

Definition observe v selector (cursor : option EventCursor) (limit : N) : result StoreError (ObservationFrame Summary) :=
  let s := vw_store v in
  let head := event_head v in
  let requested := default {| ec_store_uuid := store; ec_sequence := 0 |} cursor in
  if bool_decide (ec_store_uuid requested ≠ store) then
    snapshot ← match selector with
               | SelAll | SelLabels _ => list_jobs v selector None MAX_OBSERVATION_PAGE
               | SelJobs _ | SelBatch _ => Ok {| jp_jobs := []; jp_next_cursor := None; jp_event_cursor := head |} end;
    Ok (Gap {| eg_requested := requested; eg_oldest_available := oldest_event_cursor v (ec_sequence head) |} snapshot head)
  else
    _ ← validate_selector s selector;
    _ ← guard_err (bool_decide (ec_sequence head < ec_sequence requested))
          (ERejected "event cursor is ahead of durable history");
    let oldest := oldest_event_cursor v (ec_sequence head) in
    if bool_decide (saturating_add (ec_sequence requested) 1 < ec_sequence oldest) then
      snapshot ← list_jobs v selector None MAX_OBSERVATION_PAGE;
      Ok (Gap {| eg_requested := requested; eg_oldest_available := oldest |} snapshot head)
    else
      let wanted := page_limit limit in
      '(events, scanned) ←
        (if bool_decide (ec_sequence requested < ec_sequence head) then
           match event_rows v (ec_sequence requested) with
           | [] => Ok ([], ec_sequence head)
           | rows => scan_events s selector wanted (ec_sequence requested) [] rows
           end
         else Ok ([], ec_sequence requested));
      Ok (Events events {| ec_store_uuid := store; ec_sequence := scanned |}).
End views.
