(* ===== verification/ViewFacts.v ===== *)
(** * ViewFacts: followers miss no event, pages miss no job

    The event log keeps the last rows of a history; an observer that follows the
    returned cursors receives the events of its selector exactly once and in order,
    or is told that rows are gone.  The pages of a list, followed to their end, are
    the jobs of the selector, newest first. *)
From S2P Require Import Prelude Spec Validate Kernel Scoped Observation Machine MachineStore Reservation.
From S2P Require Import Native Policy Submission InventoryFacts Views.

(** ** Numbered lists *)
Fixpoint number {A} (k : N) (l : list A) : list (N * A) :=
  match l with [] => [] | x :: l => (k, x) :: number (k + 1) l end.

Section number.
Context {A : Type}.
Implicit Types (l : list A).

Lemma length_number k l : length (number k l) = length l.
Proof. revert k. induction l as [|x l IH]; intros k; [done|]. simpl. by rewrite IH. Qed.
Lemma take_number n k l : take n (number k l) = number k (take n l).
Proof. revert k l. induction n as [|n IH]; intros k [|x l]; simpl; [done..|]. by rewrite IH. Qed.
Lemma number_app k l l' : number k (l ++ l') = number k l ++ number (k + N.of_nat (length l)) l'.
Proof.
  revert k. induction l as [|x l IH]; intros k; simpl; [by rewrite N.add_0_r|].
  rewrite IH. do 3 f_equal. lia.
Qed.
Lemma elem_of_number k l j x :
  (j, x) ∈ number k l ↔ k ≤ j ∧ l !! N.to_nat (j - k) = Some x.
Proof.
  revert k. induction l as [|y l IH]; intros k; simpl; [set_solver|].
  rewrite elem_of_cons, IH. split.
  - intros [[= -> ->]|[Hk Hl]].
    + split; [lia|]. by rewrite N.sub_diag.
    + split; [lia|]. replace (N.to_nat (j - k)) with (S (N.to_nat (j - (k + 1)))) by lia. done.
  - intros [Hk Hl]. destruct (decide (j = k)) as [->|Hne].
    + rewrite N.sub_diag in Hl. simplify_eq/=. by left.
    + right. split; [lia|]. by replace (N.to_nat (j - k)) with (S (N.to_nat (j - (k + 1)))) in Hl by lia.
Qed.
Lemma number_sorted k l : StronglySorted key_lt (number k l).
Proof.
  revert k. induction l as [|x l IH]; intros k; simpl; [constructor|]. constructor; [done|].
  apply Forall_forall. intros [j y] [Hj _]%elem_of_number. split; simpl; [change (k ≤ j)|]; lia.
Qed.
Lemma NoDup_number k l : NoDup (number k l).
Proof.
  revert k. induction l as [|x l IH]; intros k; simpl; constructor; [|done].
  intros [Hk _]%elem_of_number. lia.
Qed.
Lemma number_max k l : 0 < k → foldr N.max 0 (number k l).*1 = match l with [] => 0 | _ => k + N.of_nat (length l) - 1 end.
Proof.
  revert k. induction l as [|x l IH]; intros k Hk; [done|]. simpl. rewrite IH by lia. destruct l; simpl; lia.
Qed.
Lemma filter_number a k l : k ≤ a + 1 →
  List.filter (λ p : N * A, bool_decide (a < p.1)) (number k l) = number (a + 1) (drop (N.to_nat (a + 1 - k)) l).
Proof.
  revert k. induction l as [|x l IH]; intros k Hk; simpl; [by rewrite drop_nil|].
  destruct (decide (k = a + 1)) as [->|Hne].
  - rewrite N.sub_diag, bool_decide_eq_true_2 by lia. simpl. f_equal.
    clear. generalize (a + 1 + 1) (ltac:(lia) : a < a + 1 + 1). induction l as [|y l IH]; intros k Hk; [done|]. simpl.
    rewrite bool_decide_eq_true_2 by lia. f_equal. apply IH. lia.
  - rewrite bool_decide_eq_false_2 by lia. rewrite IH by lia.
    by replace (N.to_nat (a + 1 - k)) with (S (N.to_nat (a + 1 - (k + 1)))) by lia.
Qed.
End number.

#[global] Instance key_lt_anti `{BTreeKey K} {V} : AntiSymm (=) (key_lt (K:=K) (V:=V)).
Proof. intros p q [H1 Hne] [H2 _]. destruct Hne. by apply (anti_symm btree_le). Qed.

(** ** The event log *)
(** The rows of the table are the last rows of the history. *)
Definition log_of (v : ViewStore) (h : list EventRow) : Prop :=
  btree_entries (vw_events v) =
  number (N.of_nat (length h) - MAX_EVENT_ROWS + 1) (drop (N.to_nat (N.of_nat (length h) - MAX_EVENT_ROWS)) h).

(** Histories of the log: other tables change, and rows are appended. *)
Inductive logged : ViewStore → list EventRow → Prop :=
| logged_empty v : vw_events v = ∅ → logged v []
| logged_append v h e : logged v h → logged (append_event e v) (h ++ [e])
| logged_other v h v' : logged v h → vw_events v' = vw_events v → logged v' h.

Lemma log_lookup v h : log_of v h → ∀ k e, vw_events v !! k = Some e ↔
  N.of_nat (length h) - MAX_EVENT_ROWS < k ∧ h !! N.to_nat (k - 1) = Some e.
Proof.
  intros Hv k e. rewrite <-elem_of_btree_entries, Hv, elem_of_number, lookup_drop.
  split; intros [Hk Hl]; (split; [lia|]); rewrite <-Hl; f_equal; lia.
Qed.

Lemma log_of_lookup v h :
  (∀ k e, vw_events v !! k = Some e ↔
    N.of_nat (length h) - MAX_EVENT_ROWS < k ∧ h !! N.to_nat (k - 1) = Some e) → log_of v h.
Proof.
  intros Hv. apply (StronglySorted_unique key_lt); [apply btree_entries_strict|apply number_sorted|].
  apply NoDup_Permutation; [|apply NoDup_number|].
  - eapply NoDup_fmap_1, NoDup_btree_keys.
  - intros [k e]. rewrite elem_of_btree_entries, Hv, elem_of_number, lookup_drop.
    split; intros [Hk Hl]; (split; [lia|]); rewrite <-Hl; f_equal; lia.
Qed.

Lemma log_sequence v h : log_of v h → event_sequence v = N.of_nat (length h).
Proof.
  intros Hv. unfold event_sequence, btree_keys. rewrite Hv, number_max by lia.
  destruct (drop _ h) eqn:Hd.
  - apply (f_equal length) in Hd. rewrite length_drop in Hd. simpl in Hd. unfold MAX_EVENT_ROWS in Hd. lia.
  - rewrite <-Hd, length_drop. apply (f_equal length) in Hd. rewrite length_drop in Hd. simpl in Hd. lia.
Qed.

Lemma log_oldest store v h : log_of v h →
  ec_sequence (oldest_event_cursor store v (event_sequence v)) = N.of_nat (length h) - MAX_EVENT_ROWS + 1.
Proof.
  intros Hv. unfold oldest_event_cursor, btree_keys. simpl. rewrite (log_sequence _ _ Hv), Hv.
  destruct (drop _ h) eqn:Hd; simpl; [|done].
  apply (f_equal length) in Hd. rewrite length_drop in Hd. simpl in Hd. unfold MAX_EVENT_ROWS in *. lia.
Qed.

Lemma logged_log_of v h : logged v h → log_of v h.
Proof.
  induction 1 as [v Hv|v h e _ IH|v h v' _ IH Hv']; [| |].
  - apply log_of_lookup. intros k e. rewrite Hv, lookup_empty, lookup_nil. split; [done|by intros []].
  - apply log_of_lookup. intros k x. unfold append_event. simpl. rewrite (log_sequence _ _ IH).
    rewrite map_lookup_filter_Some, length_app. simpl.
    destruct (decide (k = N.of_nat (length h) + 1)) as [->|Hne].
    + rewrite lookup_insert_eq. rewrite lookup_app_r by lia.
      replace (N.to_nat _ - length h)%nat with O by lia. unfold MAX_EVENT_ROWS. split; [intros [? _]|intros [_ ?]].
      * split; [lia|]. done.
      * split; [done|lia].
    + rewrite lookup_insert_ne by done. rewrite (log_lookup _ _ IH).
      unfold MAX_EVENT_ROWS. split.
      * intros [[Hk Hl] Hz]. split; [lia|]. by apply lookup_app_l_Some.
      * intros [Hk Hl]. pose proof (lookup_lt_Some _ _ _ Hl) as Hlt. rewrite length_app in Hlt. simpl in Hlt.
        rewrite lookup_app_l in Hl by lia. split; [split; [lia|done]|lia].
  - unfold log_of. by rewrite Hv'.
Qed.

Lemma log_rows v h after : log_of v h → N.of_nat (length h) - MAX_EVENT_ROWS ≤ after →
  event_rows v after = number (after + 1) (take (N.to_nat MAX_OBSERVATION_PAGE) (drop (N.to_nat after) h)).
Proof.
  intros Hv Hafter. unfold event_rows. rewrite Hv, filter_number, take_number, drop_drop by lia.
  do 4 f_equal. lia.
Qed.

(** ** Observation *)
#[local] Arguments scan_events : simpl never.
Section observe.
Context (store : Uuid) (uuid_to_string : Uuid → string).
Context {Summary : Type} (job_summary : DurableId → result StoreError Summary).
Implicit Types (s : SubmitStore) (v : ViewStore) (selector : JobSelector) (h : list EventRow) (c : N).

Definition at_sequence c : EventCursor := {| ec_store_uuid := store; ec_sequence := c |}.

(** Whether a selector names the job of an event. *)
Definition names_event s selector (r : EventRow) : bool :=
  match selector with
  | SelAll => true
  | SelJobs job_ids => bool_decide (durable_id store (er_job_id r) ∈ job_ids)
  | SelBatch batch => bool_decide (er_batch_id r = Some (entity_uuid batch))
  | SelLabels labels =>
      match nv_jobs (sb_native s) !! er_job_id r with
      | Some j => forallb (λ label, bool_decide (label ∈ job_labels (nj_spec j))) labels
      | None => false end
  end.

(** The columns of a row as an event. *)
Definition event_of (p : N * EventRow) : SchedulerEvent :=
  let r := p.2 in
  {| sv_cursor := at_sequence p.1; sv_kind := er_kind r; sv_job_id := durable_id store (er_job_id r);
     sv_batch_id := durable_id store <$> er_batch_id r; sv_attempt_id := durable_id store <$> er_attempt_id r;
     sv_invocation_id := durable_id store <$> er_invocation_id r; sv_transition := er_transition r;
     sv_committed_unix_millis := er_committed_ms r |}.

(** The events of a selector after the first [c] rows of a history up to row [c']. *)
Definition events_between s selector h c c' : list SchedulerEvent :=
  map event_of (List.filter (λ p : N * EventRow, names_event s selector p.2)
    (number (c + 1) (take (N.to_nat (c' - c)) (drop (N.to_nat c) h)))).

(** A row that can be shown: its job is stored and its identities belong together. *)
Definition presentable s (r : EventRow) : Prop :=
  is_Some (nv_jobs (sb_native s) !! er_job_id r) ∧ is_ok (transition_identity store s r) = true.

Lemma event_matches_names s selector r b :
  event_matches store s selector r = Ok b → b = names_event s selector r.
Proof.
  unfold event_matches, row_matches_selector, names_event. intros H.
  destruct selector; simpl in *; [by simplify_eq..|].
  destruct (nv_jobs (sb_native s) !! er_job_id r); simpl in H; by simplify_eq.
Qed.

Lemma to_event_event_of s k r e : to_event store s k r = Ok e → e = event_of (k, r).
Proof.
  unfold to_event, event_of, at_sequence. intros H. apply result_bind_Ok in H as ([[a i] t] & Ht & H). simplify_eq.
  assert ((a, i, t) = (durable_id store <$> er_attempt_id r, durable_id store <$> er_invocation_id r, er_transition r))
    as [= -> -> ->]; [|done].
  unfold transition_identity in Ht.
  destruct (er_kind r); destruct (er_attempt_id r); destruct (er_invocation_id r); destruct (er_transition r);
    simplify_eq; try done; apply result_bind_Ok in Ht as (? & _ & Ht); by simplify_eq.
Qed.

Lemma scan_events_spec s selector wanted a acc l es c :
  scan_events store s selector wanted a acc (number (a + 1) l) = Ok (es, c) → (length acc < wanted)%nat →
  ∃ j, (j ≤ length l)%nat ∧ c = a + N.of_nat j ∧ (l ≠ [] → 0 < j)%nat ∧ (length es ≤ wanted)%nat ∧
    es = acc ++ map event_of (List.filter (λ p : N * EventRow, names_event s selector p.2) (number (a + 1) (take j l))).
Proof.
  revert a acc. induction l as [|r l IH]; intros a acc H Hacc; unfold scan_events in H; fold @scan_events in H; simpl in H.
  - simplify_eq. exists O. rewrite app_nil_r. split_and!; [done|lia|done|lia|done].
  - apply result_bind_Ok in H as (b & Hb%event_matches_names & H). subst b.
    destruct (names_event s selector r) eqn:Hn.
    + apply result_bind_Ok in H as (e & He%to_event_event_of & H). subst e.
      case_bool_decide as Hw.
      * simplify_eq. exists 1%nat. simpl. rewrite Hn. simpl. split_and!; [lia..|done].
      * apply IH in H as (j & Hj & -> & _ & Hlen & ->); [|rewrite length_app in *; simpl in *; lia].
        exists (S j). simpl. rewrite Hn. simpl. rewrite <-(assoc_L (++)). split_and!; [lia..|by rewrite <-(assoc_L (++)) in Hlen|done].
    + apply IH in H as (j & Hj & -> & _ & Hlen & ->); [|done].
      exists (S j). simpl. rewrite Hn. split_and!; [lia..|done|done].
Qed.

Lemma page_limit_pos limit : (0 < page_limit limit)%nat.
Proof. unfold page_limit. lia. Qed.

Lemma observation_page_pos : (0 < N.to_nat MAX_OBSERVATION_PAGE)%nat.
Proof. unfold MAX_OBSERVATION_PAGE. lia. Qed.

(** What a frame of events rests on. *)
Lemma observe_events v selector c limit es cursor :
  observe store uuid_to_string job_summary v selector (Some (at_sequence c)) limit = Ok (Events es cursor) →
  c ≤ event_sequence v ∧
  ec_sequence (oldest_event_cursor store v (event_sequence v)) ≤ saturating_add c 1 ∧
  ∃ c', cursor = at_sequence c' ∧
    (if bool_decide (c < event_sequence v) then
       match event_rows v c with
       | [] => Ok ([], event_sequence v)
       | rows => scan_events store (vw_store v) selector (page_limit limit) c [] rows end
     else Ok ([], c)) = Ok (es, c').
Proof.
  unfold observe, event_head, at_sequence. cbn [default id from_option ec_store_uuid ec_sequence].
  rewrite (bool_decide_eq_false_2 (store ≠ store)) by tauto.
  intros H. apply result_bind_Ok in H as ([] & _ & H).
  apply result_bind_Ok in H as ([] & Hahead & H). unfold guard_err in Hahead.
  destruct (bool_decide (_ < c)) eqn:Hle in Hahead; [done|]. apply bool_decide_eq_false in Hle.
  destruct (bool_decide (saturating_add c 1 < _)) eqn:Hgap; [apply result_bind_Ok in H as (? & _ & H); by simplify_eq|].
  apply bool_decide_eq_false in Hgap. split; [lia|]. split; [lia|].
  apply result_bind_Ok in H as ([es' c'] & Hscan & H). injection H as <- <-. by exists c'.
Qed.

(** One observation of a log. *)
Lemma observe_spec v h selector c limit es cursor : log_of v h →
  observe store uuid_to_string job_summary v selector (Some (at_sequence c)) limit = Ok (Events es cursor) →
  ∃ c', cursor = at_sequence c' ∧ c ≤ c' ≤ N.of_nat (length h) ∧ (c < N.of_nat (length h) → c < c') ∧
    (length es ≤ page_limit limit)%nat ∧ es = events_between (vw_store v) selector h c c'.
Proof.
  intros Hv (Hle & Hgap & c' & -> & H)%observe_events. rewrite (log_oldest store _ _ Hv) in Hgap.
  rewrite (log_sequence _ _ Hv) in *. exists c'. split; [done|]. case_bool_decide as Hlt.
  - assert (Hafter : N.of_nat (length h) - MAX_EVENT_ROWS ≤ c).
    { unfold saturating_add in Hgap. lia. }
    rewrite (log_rows _ _ _ Hv Hafter) in H.
    revert H. generalize (N.to_nat MAX_OBSERVATION_PAGE) observation_page_pos. intros page Hpage Hscan.
    set (l := take page (drop (N.to_nat c) h)) in *.
    assert (Hlen' : length l = (page `min` (length h - N.to_nat c))%nat).
    { unfold l. by rewrite length_take, length_drop. }
    assert (Hl : l ≠ []) by (intros Hl; rewrite Hl in Hlen'; simpl in Hlen'; lia).
    destruct (number (c + 1) l) eqn:Hnum; [by destruct l|]. rewrite <-Hnum in Hscan.
    apply scan_events_spec in Hscan as (j & Hj & -> & Hpos & Hlen & ->); [|apply page_limit_pos].
    specialize (Hpos Hl). split_and!; [lia..|done|]. unfold events_between.
    replace (N.to_nat (c + N.of_nat j - c)) with j by lia. simpl. do 3 f_equal.
    unfold l. rewrite take_take. f_equal. lia.
  - injection H as <- <-. split_and!; [lia..|simpl; lia|].
    unfold events_between. by rewrite N.sub_diag.
Qed.

(** ** Followers *)
(** Specifications of stored jobs are kept. *)
Definition specs_kept s s' : Prop :=
  ∀ id j, nv_jobs (sb_native s) !! id = Some j →
  ∃ j', nv_jobs (sb_native s') !! id = Some j' ∧ nj_spec j' = nj_spec j.

(** Every row of the log belongs to a stored job ([job_id TEXT NOT NULL REFERENCES jobs(id)]). *)
Definition jobs_stored s h : Prop := Forall (λ r, is_Some (nv_jobs (sb_native s) !! er_job_id r)) h.

(** A client polls with the cursor of its last answer while the log grows. *)
Inductive follows selector : list EventRow → SubmitStore → N → N → list SchedulerEvent → Prop :=
| follows_start v h c :
    logged v h → jobs_stored (vw_store v) h → c ≤ N.of_nat (length h) → follows selector h (vw_store v) c c []
| follows_poll h s c0 c es v h' limit es' cursor :
    follows selector h s c0 c es →
    logged v h' → jobs_stored (vw_store v) h' → h `prefix_of` h' → specs_kept s (vw_store v) →
    observe store uuid_to_string job_summary v selector (Some (at_sequence c)) limit = Ok (Events es' cursor) →
    follows selector h' (vw_store v) c0 (ec_sequence cursor) (es ++ es').

Lemma names_event_kept s s' selector r : specs_kept s s' → is_Some (nv_jobs (sb_native s) !! er_job_id r) →
  names_event s' selector r = names_event s selector r.
Proof.
  intros Hk [j Hj]. unfold names_event. destruct selector; try done.
  destruct (Hk _ _ Hj) as (j' & Hj' & Hs). by rewrite Hj, Hj', Hs.
Qed.

Lemma events_between_split s selector h c c1 c2 : c ≤ c1 ≤ c2 → c1 ≤ N.of_nat (length h) →
  events_between s selector h c c2 = events_between s selector h c c1 ++ events_between s selector h c1 c2.
Proof.
  intros [H1 H2] H3. unfold events_between. rewrite <-map_app, <-List.filter_app. do 2 f_equal.
  replace (N.to_nat (c2 - c)) with (N.to_nat (c1 - c) + N.to_nat (c2 - c1))%nat by lia.
  rewrite <-take_take_drop, drop_drop, number_app. f_equal.
  rewrite length_take, length_drop. f_equal; [lia|]. do 2 f_equal. lia.
Qed.

Lemma events_between_prefix s s' selector h h' c c' : h `prefix_of` h' → c' ≤ N.of_nat (length h) →
  jobs_stored s h → specs_kept s s' → events_between s' selector h' c c' = events_between s selector h c c'.
Proof.
  intros [k ->] Hc Hs Hk. unfold events_between.
  assert (Htake : take (N.to_nat (c' - c)) (drop (N.to_nat c) (h ++ k)) = take (N.to_nat (c' - c)) (drop (N.to_nat c) h)).
  { destruct (decide (c ≤ c')) as [Hcc|Hcc].
    - rewrite drop_app_le, take_app_le by (rewrite ?length_drop; lia). done.
    - replace (N.to_nat (c' - c)) with O by lia. by rewrite !take_0. }
  rewrite Htake. f_equal. apply List.filter_ext_in. intros [j r] Hin%list_elem_of_In%elem_of_number. simpl.
  apply names_event_kept; [done|]. destruct Hin as [_ Hin%list_elem_of_lookup_2].
  unfold jobs_stored in Hs. rewrite Forall_forall in Hs. apply Hs. eapply elem_of_sublist, sublist_drop. eapply elem_of_sublist, sublist_take. done.
Qed.

Lemma follows_stored selector h s c0 c es : follows selector h s c0 c es → jobs_stored s h.
Proof. by destruct 1. Qed.

Lemma scan_events_total s selector wanted a acc rows : Forall (λ p : N * EventRow, presentable s p.2) rows →
  ∃ out, scan_events store s selector wanted a acc rows = Ok out.
Proof.
  revert a acc. induction rows as [|[k r] rows IH]; intros a acc Hrows;
    unfold scan_events; fold @scan_events; simpl; [eauto|].
  apply Forall_cons in Hrows as [[[j Hj] Ht] Hrows]. simpl in *.
  assert (∃ b, event_matches store s selector r = Ok b) as [b ->].
  { unfold event_matches. destruct selector; simpl; eauto. rewrite Hj. simpl. eauto. }
  simpl. destruct b; [|by apply IH]. unfold to_event.
  destruct (transition_identity store s r) as [[[a' i'] t']|]; [|done]. simpl.
  case_bool_decide; [eauto|by apply IH].
Qed.


End observe.

(** ** Lists of jobs *)
#[global] Instance lex_le_po `{EqDecision A, BTreeKey A, BTreeKey B} : PartialOrder (lex_le (A:=A) (B:=B)).
Proof. exact (btree_le_po (BTreeKey := btree_prod)). Qed.
#[global] Instance lex_le_total `{EqDecision A, BTreeKey A, BTreeKey B} : Total (lex_le (A:=A) (B:=B)).
Proof. exact (btree_le_total (BTreeKey := btree_prod)). Qed.

Lemma filter_split {A} (f : A → bool) (l k : list A) (r : A) (rest : list A) :
  List.filter f l = k ++ r :: rest →
  ∃ l1 l2, l = l1 ++ r :: l2 ∧ List.filter f l1 = k ∧ List.filter f l2 = rest.
Proof.
  revert k. induction l as [|x l IH]; intros k Hf; simpl in Hf; [by destruct k|].
  destruct (f x) eqn:Hx.
  - destruct k as [|y k]; injection Hf as -> Hf; [by exists [], l|].
    destruct (IH _ Hf) as (l1 & l2 & -> & <- & <-). exists (y :: l1), l2. simpl. by rewrite Hx.
  - destruct (IH _ Hf) as (l1 & l2 & -> & <- & <-). exists (x :: l1), l2. simpl. by rewrite Hx.
Qed.

(** A filter that keeps what comes strictly after an element of a sorted list. *)
Lemma filter_strictly_after {A} (R : relation A) (f : A → bool) l1 r l2 :
  StronglySorted R (l1 ++ r :: l2) → f r = false →
  (∀ q, q ∈ l1 → R q r → f q = false) → (∀ q, q ∈ l2 → R r q → f q = true) →
  List.filter f (l1 ++ r :: l2) = l2.
Proof.
  intros Hs Hr H1 H2. rewrite List.filter_app. simpl. rewrite Hr.
  apply StronglySorted_app in Hs as (H12 & _ & [Hr2 _]%StronglySorted_cons).
  assert (List.filter f l1 = []) as ->.
  { assert (∀ q, q ∈ l1 → f q = false) as Hl by (intros q Hq; apply H1; [done|apply H12; set_solver]).
    clear -Hl. induction l1 as [|q l1 IH]; [done|]. simpl. rewrite Hl by set_solver. apply IH. set_solver. }
  simpl. rewrite Forall_forall in Hr2.
  assert (∀ q, q ∈ l2 → f q = true) as Hl by (intros q Hq; apply H2; [done|by apply Hr2]).
  clear -Hl. induction l2 as [|q l2 IH]; [done|]. simpl. rewrite Hl by set_solver. f_equal. apply IH. set_solver.
Qed.

Section lists.
Context (store : Uuid) (uuid_to_string : Uuid → string).
Implicit Types (s : SubmitStore) (selector : JobSelector) (r : ListRow).

Definition newest_lt (a b : ListRow) : Prop := newest_le a b ∧ (lr_accepted_ms a, lr_job_id a) ≠ (lr_accepted_ms b, lr_job_id b).

Lemma list_rows_row s r : r ∈ list_rows store s →
  store_uuid (lr_job_id r) = store ∧
  ∃ j, nv_jobs (sb_native s) !! entity_uuid (lr_job_id r) = Some j ∧ lr_accepted_ms r = nj_accepted_ms j.
Proof.
  unfold list_rows. rewrite elem_of_sort_by, list_elem_of_fmap. intros ([id j] & -> & Hin%elem_of_btree_entries). simpl. eauto.
Qed.

Lemma list_rows_NoDup s : NoDup (lr_job_id <$> list_rows store s).
Proof.
  unfold list_rows. rewrite sort_by_Permutation, <-list_fmap_compose.
  assert (lr_job_id ∘ (λ p : Uuid * Job, {| lr_job_id := durable_id store p.1; lr_accepted_ms := nj_accepted_ms p.2;
       lr_batch_id := sb_origins s !! p.1 ≫= og_batch_id; lr_spec := nj_spec p.2 |}) = durable_id store ∘ fst) as -> by done.
  rewrite list_fmap_compose. apply NoDup_fmap_2; [|apply NoDup_btree_keys]. by intros x y [= ->].
Qed.

Lemma list_rows_sorted s : StronglySorted newest_lt (list_rows store s).
Proof.
  assert (StronglySorted newest_le (list_rows store s)) as Hs.
  { apply sort_by_sorted; unfold newest_le.
    - intros x y z H1 H2. by etrans.
    - intros x y. apply (total lex_le). }
  pose proof (list_rows_NoDup s) as Hnd.
  induction Hs as [|r l Hs IH Hr]; [constructor|]. simpl in Hnd. apply NoDup_cons in Hnd as [Hx Hl].
  constructor; [by apply IH|]. rewrite Forall_forall in Hr |- *. intros q Hq. split; [by apply Hr|].
  intros [= _ Heq]. apply Hx. rewrite Heq. by apply list_elem_of_fmap_2.
Qed.

Lemma durable_le_same a b : store_uuid a = store_uuid b → btree_le a b ↔ entity_uuid a ≤ entity_uuid b.
Proof.
  destruct a as [sa ea], b as [sb eb]. simpl. intros <-. change (lex_le (sa, ea) (sa, eb) ↔ ea ≤ eb).
  unfold lex_le. simpl. change (btree_le ea eb) with (ea ≤ eb). naive_solver.
Qed.

Lemma after_cursor_lt r q : store_uuid (lr_job_id r) = store → store_uuid (lr_job_id q) = store →
  after_cursor (Some (cursor_of store r)) q = true ↔ newest_lt r q.
Proof.
  intros Hr Hq. unfold after_cursor, cursor_of, newest_lt, newest_le, lex_le. cbn [fst snd jc_accepted_unix_millis jc_job_id].
  rewrite orb_true_iff, andb_true_iff, !bool_decide_eq_true, durable_le_same by congruence.
  change (btree_le (lr_accepted_ms q) (lr_accepted_ms r)) with (lr_accepted_ms q ≤ lr_accepted_ms r)%Z.
  assert ((lr_accepted_ms r, lr_job_id r) = (lr_accepted_ms q, lr_job_id q) ↔
    lr_accepted_ms r = lr_accepted_ms q ∧ entity_uuid (lr_job_id r) = entity_uuid (lr_job_id q)) as ->.
  { destruct (lr_job_id r), (lr_job_id q). simpl in *. subst. split; [by intros [= -> ->]|by intros [-> ->]]. }
  change Uuid with N. lia.
Qed.

Lemma scan_after s l1 r l2 : list_rows store s = l1 ++ r :: l2 →
  List.filter (after_cursor (Some (cursor_of store r))) (list_rows store s) = l2.
Proof.
  intros Hl. pose proof (list_rows_sorted s) as Hs. rewrite Hl in Hs |- *.
  assert (∀ q, q ∈ l1 ++ r :: l2 → store_uuid (lr_job_id q) = store) as Hst.
  { intros q Hq. apply (list_rows_row s). by rewrite Hl. }
  apply (filter_strictly_after newest_lt); [done|..].
  - apply not_true_iff_false. rewrite after_cursor_lt by (apply Hst; set_solver). intros [_ []]. done.
  - intros q Hq [Hle Hne]. apply not_true_iff_false. rewrite after_cursor_lt by (apply Hst; set_solver).
    intros [Hle' _]. apply Hne. unfold newest_le in *. by apply (anti_symm lex_le).
  - intros q Hq Hlt. apply after_cursor_lt; [apply Hst; set_solver..|done].
Qed.

(** Whether a selector names a row. *)
Definition names_row selector r : bool :=
  match selector with
  | SelAll => true
  | SelJobs job_ids => bool_decide (lr_job_id r ∈ job_ids)
  | SelBatch batch => bool_decide (lr_batch_id r = Some (entity_uuid batch))
  | SelLabels labels => forallb (λ label, bool_decide (label ∈ job_labels (lr_spec r))) labels
  end.

Lemma row_matches_names selector r :
  row_matches_selector (lr_job_id r) (lr_batch_id r) (Some (lr_spec r)) selector = Ok (names_row selector r).
Proof. by destruct selector. Qed.

Lemma select_rows_spec selector limit selected rows : (length selected ≤ limit)%nat →
  select_rows selector limit selected rows = Ok (take (S limit) (selected ++ List.filter (names_row selector) rows)).
Proof.
  revert selected. induction rows as [|r rows IH]; intros selected Hl; unfold select_rows; fold select_rows.
  - rewrite app_nil_r, take_ge by lia. done.
  - rewrite row_matches_names. simpl. destruct (names_row selector r).
    + rewrite (cons_middle r selected (List.filter _ _)), app_assoc.
      assert (length (selected ++ [r]) = S (length selected)) as Hlen by (rewrite length_app; simpl; lia).
      case_bool_decide as Hlt; [|by rewrite IH by lia].
      rewrite take_app_le, take_ge by lia. done.
    + by rewrite IH.
Qed.

Lemma list_loop_spec fuel s selector limit scan selected post :
  (length post < fuel)%nat → (length selected ≤ limit)%nat →
  (∃ pre, list_rows store s = pre ++ post) →
  List.filter (after_cursor scan) (list_rows store s) = post →
  list_loop store fuel s selector limit scan selected false =
  Ok (take (S limit) (selected ++ List.filter (names_row selector) post)).
Proof.
  revert scan selected post. induction fuel as [|fuel IH]; intros scan selected post Hfuel Hsel [pre Hpre] Hpost; [lia|].
  simpl. rewrite bool_decide_eq_true_2 by done. simpl. unfold scan_job_rows. rewrite Hpost.
  rewrite select_rows_spec by done. simpl.
  pose proof (observation_page_pos) as Hpos. revert Hpos.
  assert (∀ n, (N.of_nat n < MAX_OBSERVATION_PAGE) ↔ (n < N.to_nat MAX_OBSERVATION_PAGE)%nat) as Hiff by (intros; lia).
  rewrite (bool_decide_ext _ _ (Hiff _)). clear Hiff. generalize (N.to_nat MAX_OBSERVATION_PAGE) as page. intros page Hpage.
  rewrite length_take. case_bool_decide as Hex.
  - rewrite take_ge by lia. destruct fuel; simpl; by rewrite andb_false_r.
  - destruct (last (take page post)) as [r|] eqn:Hlast; [|apply last_None, (f_equal length) in Hlast; rewrite length_take in Hlast; simpl in Hlast; lia].
    apply last_Some in Hlast as (l & Hl).
    assert (post = l ++ r :: drop page post) as Hsplit.
    { rewrite <-(take_drop page post) at 1. rewrite Hl, <-(assoc_L (++)). done. }
    destruct (decide (length (selected ++ List.filter (names_row selector) (take page post)) ≤ limit)%nat) as [Hle|Hgt].
    + rewrite take_ge by lia. rewrite (IH _ _ (drop page post)).
      * rewrite <-(assoc_L (++)), <-List.filter_app, take_drop. done.
      * rewrite length_drop. lia.
      * done.
      * exists (pre ++ take page post). by rewrite <-(assoc_L (++)), take_drop.
      * apply scan_after with (pre ++ l). rewrite Hpre, Hsplit at 1. by rewrite (assoc_L (++)).
    + assert (length (take (S limit) (selected ++ List.filter (names_row selector) (take page post))) = S limit) as Hlen
        by (rewrite length_take; lia).
      assert (selected ++ List.filter (names_row selector) post =
        (selected ++ List.filter (names_row selector) (take page post)) ++ List.filter (names_row selector) (drop page post))
        as -> by (by rewrite <-(assoc_L (++)), <-List.filter_app, take_drop).
      rewrite (take_app_le (selected ++ _)) by lia.
      destruct fuel; simpl; rewrite Hlen, bool_decide_eq_false_2 by lia; done.
Qed.

Lemma list_rows_length s : length (list_rows store s) = size (nv_jobs (sb_native s)).
Proof. unfold list_rows. by rewrite sort_by_Permutation, length_map, btree_entries_Permutation, length_map_to_list. Qed.

(** A cursor behind a prefix of the rows. *)
Definition cursor_behind s (cursor : option JobListCursor) (pre : list ListRow) : Prop :=
  match cursor with
  | None => pre = []
  | Some c => ∃ l r, pre = l ++ [r] ∧ c = cursor_of store r
  end.

Lemma list_page_spec s selector cursor limit pre post :
  validate_selector store uuid_to_string s selector = Ok tt →
  list_rows store s = pre ++ post → cursor_behind s cursor pre →
  let matching := List.filter (names_row selector) post in
  let page := take (page_limit limit) matching in
  list_page store uuid_to_string s selector cursor limit =
  Ok (page, if bool_decide (page_limit limit < length matching)%nat then cursor_of store <$> last page else None).
Proof.
  intros Hsel Hrows Hcur. simpl. unfold list_page. rewrite Hsel. cbn [mbind result_bind].
  assert (List.filter (after_cursor cursor) (list_rows store s) = post ∧ check_list_cursor store s cursor = Ok tt)
    as [Hafter ->].
  { destruct cursor as [c|]; simpl in *.
    - destruct Hcur as (l & r & -> & ->). rewrite <-(assoc_L (++)) in Hrows. simpl in Hrows.
      split; [by apply (scan_after s l)|].
      destruct (list_rows_row s r) as (Hst & j & Hj & Ha); [rewrite Hrows; set_solver|].
      unfold cursor_of. cbn [jc_store_uuid jc_job_id jc_accepted_unix_millis]. rewrite Hst, Hj.
      rewrite (bool_decide_eq_false_2 (store ≠ store)) by tauto. simpl. by rewrite bool_decide_eq_true_2.
    - subst pre. simpl in Hrows. split; [|done].
      rewrite Hrows. clear. induction post as [|r l IH]; [done|]. simpl. by rewrite IH. }
  cbn [mbind result_bind]. rewrite (list_loop_spec _ _ _ _ _ _ post); [|..|done].
  - simpl. set (matching := List.filter (names_row selector) post).
    pose proof (page_limit_pos limit) as Hpos. rewrite length_take. do 2 case_bool_decide; try lia.
    + rewrite take_take. replace (_ `min` _)%nat with (page_limit limit) by lia.
      destruct (last (take (page_limit limit) matching)) as [r|] eqn:Hlast; [done|].
      apply last_None, (f_equal length) in Hlast. rewrite length_take in Hlast. simpl in Hlast. lia.
    + by rewrite !take_ge by lia.
  - rewrite <-list_rows_length, Hrows, length_app. lia.
  - simpl. lia.
  - eauto.
Qed.

(** A client that follows the cursors of the pages. *)
Fixpoint all_pages (fuel : nat) s selector (cursor : option JobListCursor) (limit : N) : result StoreError (list ListRow) :=
  match fuel with
  | O => Err (EPanic "out of fuel")
  | S fuel =>
      '(rows, next) ← list_page store uuid_to_string s selector cursor limit;
      match next with
      | None => Ok rows
      | Some c => rest ← all_pages fuel s selector (Some c) limit; Ok (rows ++ rest)
      end
  end.

Lemma all_pages_from fuel s selector cursor limit pre post :
  validate_selector store uuid_to_string s selector = Ok tt →
  list_rows store s = pre ++ post → cursor_behind s cursor pre → (length post < fuel)%nat →
  all_pages fuel s selector cursor limit = Ok (List.filter (names_row selector) post).
Proof.
  intros Hsel. revert cursor pre post. induction fuel as [|fuel IH]; intros cursor pre post Hrows Hcur Hfuel; [lia|].
  simpl. rewrite (list_page_spec _ _ _ _ pre post) by done. simpl.
  set (matching := List.filter (names_row selector) post). set (n := page_limit limit).
  pose proof (page_limit_pos limit) as Hpos. fold n in Hpos.
  case_bool_decide as Hmore; simpl; [|by rewrite take_ge by lia].
  destruct (last (take n matching)) as [r|] eqn:Hlast; simpl;
    [|apply last_None, (f_equal length) in Hlast; rewrite length_take in Hlast; simpl in Hlast; lia].
  apply last_Some in Hlast as (k & Hk).
  assert (List.filter (names_row selector) post = k ++ r :: drop n matching) as Hf.
  { fold matching. rewrite <-(take_drop n matching) at 1. by rewrite Hk, <-(assoc_L (++)). }
  apply filter_split in Hf as (l1 & l2 & -> & Hl1 & Hl2).
  rewrite (IH _ (pre ++ l1 ++ [r]) l2).
  - simpl. rewrite Hl2. by rewrite take_drop.
  - by rewrite Hrows, <-!(assoc_L (++)).
  - simpl. exists (pre ++ l1), r. by rewrite (assoc_L (++)).
  - rewrite length_app in Hfuel. simpl in Hfuel. lia.
Qed.

(** C18: The pages of a job list, followed to their end with any page size, are
    together exactly the jobs that the selector names, each once, newest first; there
    are at most as many pages as jobs and one more. *)
Theorem list_pages_are_complete s selector limit :
  validate_selector store uuid_to_string s selector = Ok tt →
  all_pages (S (size (nv_jobs (sb_native s)))) s selector None limit =
    Ok (List.filter (names_row selector) (list_rows store s)) ∧
  NoDup (lr_job_id <$> list_rows store s) ∧ StronglySorted newest_lt (list_rows store s) ∧
  ∀ id, id ∈ lr_job_id <$> list_rows store s ↔ store_uuid id = store ∧ is_Some (nv_jobs (sb_native s) !! entity_uuid id).
Proof.
  intros Hsel. split_and!; [|apply list_rows_NoDup|apply list_rows_sorted|].
  - apply (all_pages_from _ _ _ _ _ []); [done..|]. rewrite list_rows_length. lia.
  - intros id. rewrite list_elem_of_fmap. split.
    + intros (r & -> & Hr). destruct (list_rows_row _ _ Hr) as (Hs & j & Hj & _). eauto.
    + intros [Hst [j Hj]]. unfold list_rows. setoid_rewrite elem_of_sort_by.
      setoid_rewrite list_elem_of_fmap. eexists. split; [|exists (entity_uuid id, j); split; [done|by apply elem_of_btree_entries]].
      simpl. destruct id. simpl in *. by subst.
Qed.
End lists.
