(* ===== verification/Trees.v ===== *)
(** * Trees: job families in pages ([src/src/store/tree.rs])

    Jobs with their retained parents form a forest.  A view selects a part of it,
    orders its roots by attention and emits nodes in preorder within a number of
    nodes and of encoded bytes; what does not fit is named by a cursor.  The summary
    of a job and the texts and lengths of JSON values are arguments. *)
From S2P Require Import Prelude Spec Validate Kernel Scoped Observation Machine MachineStore Reservation.
From S2P Require Import Native Policy ManagedWait Submission Text Views.

Definition TREE_SCAN_BUDGET : N := 16384.
Definition TREE_SELECTOR_JOB_LIMIT : N := 64.
Definition TREE_RESPONSE_BUDGET_BYTES : N := 8 * 1024 * 1024.
Definition TREE_RESPONSE_METADATA_RESERVE_BYTES : N := 256 * 1024.
Definition MAX_TREE_PAGE_NODES : N := 256.
Definition MAX_TREE_SELECTOR_JOBS : N := 64.

Record TreeRow := {
  tr_job_id : DurableId;
  tr_parent_id : option DurableId;
  tr_accepted_ms : Z;
  tr_state : JobState;
  tr_batch_id : option DurableId;
  tr_labels : list Label;
}.

Record TreeModel := {
  tm_rows : list TreeRow;
  tm_by_id : gmap DurableId nat;
  tm_children : gmap DurableId (list DurableId);
  tm_roots : list DurableId;
}.

Record Selection := {
  sn_eligible : gset DurableId;
  sn_visible : gset DurableId;
  sn_selected_content : gset DurableId;
}.

(** The order of the buckets is the one of their declaration. *)
Inductive TreeAttentionBucket := BucketRunning | BucketQueued | BucketFinished.
#[global] Instance TreeAttentionBucket_eq_dec : EqDecision TreeAttentionBucket.
Proof. solve_decision. Defined.
Definition bucket_rank (b : TreeAttentionBucket) : N :=
  match b with BucketRunning => 0 | BucketQueued => 1 | BucketFinished => 2 end.

Record JobTreeRootCursor := {
  rc_store_uuid : Uuid;
  rc_order_revision : N;
  rc_selector_hash : string;
  rc_bucket : TreeAttentionBucket;
  rc_accepted_unix_millis : Z;
  rc_root_job_id : DurableId;
}.
#[global] Instance JobTreeRootCursor_eq_dec : EqDecision JobTreeRootCursor.
Proof. solve_decision. Defined.

Record JobChildrenCursor := {
  cc_store_uuid : Uuid;
  cc_selector_hash : string;
  cc_parent_job_id : DurableId;
  cc_accepted_unix_millis : Z;
  cc_child_job_id : DurableId;
}.
#[global] Instance JobChildrenCursor_eq_dec : EqDecision JobChildrenCursor.
Proof. solve_decision. Defined.

Record JobTreeNode {Summary : Type} := {
  jn_summary : Summary;
  jn_depth : N;
  jn_family_attention : option TreeAttentionBucket;
  jn_context_only : bool;
  jn_parent_retained : option bool;
  jn_has_children : bool;
  jn_descendants_truncated : bool;
  jn_next_children_cursor : option JobChildrenCursor;
}.
Arguments JobTreeNode : clear implicits.
#[export] Instance JobTreeNode_eta Summary : Eta (JobTreeNode Summary) := λ r,
  {| jn_summary := jn_summary r; jn_depth := jn_depth r; jn_family_attention := jn_family_attention r;
     jn_context_only := jn_context_only r; jn_parent_retained := jn_parent_retained r;
     jn_has_children := jn_has_children r; jn_descendants_truncated := jn_descendants_truncated r;
     jn_next_children_cursor := jn_next_children_cursor r |}.

Record JobTreePage {Summary : Type} := {
  jt_nodes : list (JobTreeNode Summary);
  jt_next_root_cursor : option JobTreeRootCursor;
  jt_selected_job_id : option DurableId;
  jt_event_cursor : EventCursor;
}.
Arguments JobTreePage : clear implicits.

Record JobChildrenPage {Summary : Type} := {
  jk_parent_job_id : DurableId;
  jk_nodes : list (JobTreeNode Summary);
  jk_next_children_cursor : option JobChildrenCursor;
  jk_event_cursor : EventCursor;
}.
Arguments JobChildrenPage : clear implicits.

Inductive TreeObservationFrame {Summary : Type} :=
| TreeEvents (events : list SchedulerEvent) (cursor : EventCursor)
| TreeGap (gap : EventGap) (snapshot : JobTreePage Summary) (cursor : EventCursor).
Arguments TreeObservationFrame : clear implicits.

Record EmitOutcome := { eo_emitted : bool; eo_page_full : bool }.

(** ** Hexadecimal text *)
Definition hex_digit (n : N) : ascii := Ascii.ascii_of_N (if bool_decide (n < 10) then 48 + n else 87 + n).

(** [format!("{byte:02x}")] of every byte *)
Fixpoint hex (bytes : string) : string :=
  match bytes with
  | "" => ""
  | String c rest => String (hex_digit (N_of_ascii c / 16)) (String (hex_digit (N_of_ascii c mod 16)) (hex rest))
  end%string.

(** [char::to_digit(16)] *)
Definition digit_value (c : ascii) : option N :=
  let n := N_of_ascii c in
  if byte_in 48 57 c then Some (n - 48)
  else if byte_in 97 102 c then Some (n - 87)
  else if byte_in 65 70 c then Some (n - 55) else None.

(** [u8::from_str_radix(_, 16)] of two bytes: a leading [+] is a sign. *)
Definition from_str_radix (a b : ascii) : option N :=
  if bool_decide (N_of_ascii a = 43) then digit_value b
  else x ← digit_value a; y ← digit_value b; Some (16 * x + y).

(** [&value[index..index + 2]] panics inside a character. *)
Fixpoint unhex_from (value : string) : result StoreError string :=
  match value with
  | "" => Ok ""
  | String a (String b rest) =>
      _ ← guard_err (is_continuation a || match rest with String c _ => is_continuation c | _ => false end)
            (EPanic "byte index is not a char boundary");
      n ← ok_or (from_str_radix a b) (EViewStale "invalid cursor encoding");
      bytes ← unhex_from rest;
      Ok (String (Ascii.ascii_of_N n) bytes)
  | String _ "" => Err (EPanic "odd length")   (* excluded by [unhex] *)
  end%string.
Definition unhex (value : string) : result StoreError string :=
  _ ← guard_err (bool_decide (len value mod 2 ≠ 0)) (EViewStale "invalid cursor encoding");
  unhex_from value.

(** [str::split_once(':')] *)
Fixpoint split_colon (s : string) : option (string * string) :=
  match s with
  | "" => None
  | String c rest =>
      if decide (c = Ascii.ascii_of_N 58) then Some ("", rest)
      else '(a, b) ← split_colon rest; Some (String c a, b)
  end%string.

(** Derived [Ord] of [Label] *)
Definition label_le (a b : Label) : Prop := lex_le (label_key a, label_value a) (label_key b, label_value b).
#[global] Instance label_le_dec : RelDecision label_le.
Proof. unfold label_le. intros a b. apply _. Defined.

(** ** The model of the forest *)
Implicit Types (m : TreeModel) (sel : Selection) (id : DurableId).

(** [model.row]: indexing panics. *)
Definition tree_row m id : option TreeRow := tm_by_id m !! id ≫= λ i, tm_rows m !! i.
Definition row m id : result StoreError TreeRow := ok_or (tree_row m id) (EPanic "no entry found for key").
Definition children m id : list DurableId := default [] (tm_children m !! id).

(** [.and_then(|index| model.rows[*index].parent_id).filter(|parent| model.by_id.contains_key(parent))] *)
Definition retained_parent m id : option DurableId :=
  parent ← tree_row m id ≫= tr_parent_id;
  if bool_decide (is_Some (tm_by_id m !! parent)) then Some parent else None.

(** [(row.accepted_ms, row.job_id)] *)
Definition tree_key (r : TreeRow) : Z * DurableId := (tr_accepted_ms r, tr_job_id r).
Definition tree_row_le (a b : TreeRow) : Prop := lex_le (tree_key a) (tree_key b).
#[global] Instance tree_row_le_dec : RelDecision tree_row_le.
Proof. unfold tree_row_le. intros a b. apply _. Defined.

(** The key of [child_rows.sort_by_key]; every listed child is the id of a row. *)
Definition child_key (rows : list TreeRow) (by_id : gmap DurableId nat) id : Z * DurableId :=
  match by_id !! id ≫= (rows !!.) with Some r => tree_key r | None => (0%Z, id) end.
Definition child_le (rows : list TreeRow) (by_id : gmap DurableId nat) (a b : DurableId) : Prop :=
  lex_le (child_key rows by_id a) (child_key rows by_id b).
#[global] Instance child_le_dec rows by_id : RelDecision (child_le rows by_id).
Proof. unfold child_le. intros a b. apply _. Defined.

Section trees.
Context (store : Uuid).   (* [self.store_uuid] *)
Context (uuid_to_string : Uuid → string).
Context {Summary : Type} (job_summary : DurableId → result StoreError Summary).
(* [serde_json::to_vec] and [from_slice] of a selector, [Sha256::digest], and the
   encoded lengths of a node and of a response *)
Context (selector_json : JobSelector → string) (parse_selector : string → option JobSelector).
Context (sha256 : string → string).
Context (node_len : JobTreeNode Summary → N).
Context (page_len : JobTreePage Summary → N) (children_page_len : JobChildrenPage Summary → N).
Implicit Types (s : SubmitStore) (v : ViewStore) (selector : JobSelector).
Notation Node := (JobTreeNode Summary).

(** *** Loading *)
Definition to_tree_row s (p : Uuid * Job) : TreeRow :=
  let origin := sb_origins s !! p.1 in
  {| tr_job_id := durable_id store p.1;
     tr_parent_id := durable_id store <$> (origin ≫= λ o, (og_parent o).1.1);
     tr_accepted_ms := nj_accepted_ms p.2; tr_state := nj_state p.2;
     tr_batch_id := durable_id store <$> (origin ≫= og_batch_id);
     tr_labels := job_labels (nj_spec p.2) |}.

(** [SELECT … FROM jobs ORDER BY accepted_ms, id] *)
Definition tree_rows s : list TreeRow :=
  sort_by tree_row_le (map (to_tree_row s) (btree_entries (nv_jobs (sb_native s)))).

Definition index_rows (rows : list TreeRow) : gmap DurableId nat :=
  list_to_map (rev (imap (λ i r, (tr_job_id r, i)) rows)).

Definition link_row (by_id : gmap DurableId nat) (acc : gmap DurableId (list DurableId) * list DurableId) (r : TreeRow)
    : gmap DurableId (list DurableId) * list DurableId :=
  match (parent ← tr_parent_id r; if bool_decide (is_Some (by_id !! parent)) then Some parent else None) with
  | Some parent => (<[parent := default [] (acc.1 !! parent) ++ [tr_job_id r]]> acc.1, acc.2)
  | None => (acc.1, acc.2 ++ [tr_job_id r])
  end.

Definition build_model (rows : list TreeRow) : TreeModel :=
  let by_id := index_rows rows in
  let '(children, roots) := foldl (link_row by_id) (∅, []) rows in
  {| tm_rows := rows; tm_by_id := by_id; tm_children := sort_by (child_le rows by_id) <$> children;
     tm_roots := roots |}.

(** The walk from one row in [validate_parent_graph]: at most 64 jobs. *)
Fixpoint check_ancestry (fuel : nat) m (current : option DurableId) (visited : gset DurableId) : result StoreError unit :=
  match current with
  | None => Ok tt
  | Some id =>
      match fuel with
      | O => Err (EPanic "out of fuel")
      | S fuel =>
          _ ← guard_err (bool_decide (id ∈ visited)) (EInvalidState "tree parent graph contains a cycle");
          let visited := {[id]} ∪ visited in
          _ ← guard_err (bool_decide (64 < size visited)%nat)
                (EViewUnavailable "tree_scan_limit: parent ancestry exceeds 64 Jobs");
          check_ancestry fuel m (retained_parent m id) visited
      end
  end.
Definition ANCESTRY_FUEL : nat := 66.
Definition validate_parent_graph m : result StoreError unit :=
  _ ← result_mapM (λ r, check_ancestry ANCESTRY_FUEL m (Some (tr_job_id r)) ∅) (tm_rows m); Ok tt.

Definition load_tree_model s : result StoreError TreeModel :=
  let raw := take (N.to_nat (TREE_SCAN_BUDGET + 1)) (tree_rows s) in
  _ ← guard_err (bool_decide (TREE_SCAN_BUDGET < N.of_nat (length raw)))
        (EViewUnavailable "tree_scan_limit: scanned more than 16384 Job rows");
  let model := build_model raw in
  _ ← validate_parent_graph model;
  Ok model.

(** *** Selection *)
Definition is_anchor m selector (r : TreeRow) : bool :=
  match selector with
  | SelAll => bool_decide (tr_job_id r ∈ (list_to_set (tm_roots m) : gset DurableId))
  | SelJobs job_ids => bool_decide (tr_job_id r ∈ job_ids)
  | SelBatch batch_id => bool_decide (tr_batch_id r = Some batch_id)
  | SelLabels labels => forallb (λ label, bool_decide (label ∈ tr_labels r)) labels
  end.

(** [while let Some((job_id, relative_depth)) = queue.pop_front()] *)
Fixpoint descend (fuel : nat) m (depth : N) (queue : list (DurableId * N)) (content visible : gset DurableId)
    : result StoreError (gset DurableId * gset DurableId) :=
  match queue with
  | [] => Ok (content, visible)
  | (id, relative) :: queue =>
      match fuel with
      | O => Err (EPanic "out of fuel")
      | S fuel =>
          let visible := if bool_decide (relative ≤ depth) then {[id]} ∪ visible else visible in
          if bool_decide (id ∈ content) then descend fuel m depth queue content visible
          else descend fuel m depth (queue ++ map (λ child, (child, relative + 1)) (children m id))
                 ({[id]} ∪ content) visible
      end
  end.

Fixpoint ascend (fuel : nat) m (current : option DurableId) (seen eligible visible : gset DurableId)
    : result StoreError (gset DurableId * gset DurableId) :=
  match current with
  | None => Ok (eligible, visible)
  | Some id =>
      match fuel with
      | O => Err (EPanic "out of fuel")
      | S fuel =>
          let fresh := negb (bool_decide (id ∈ seen)) in
          let seen := {[id]} ∪ seen in
          _ ← guard_err (negb fresh || bool_decide (64 < size seen)%nat)
                (EInvalidState "tree selector ancestry contains a cycle or exceeds 64 jobs");
          ascend fuel m (retained_parent m id) seen ({[id]} ∪ eligible) ({[id]} ∪ visible)
      end
  end.

Definition select_nodes m selector (depth : N) : result StoreError Selection :=
  let anchors := map tr_job_id (List.filter (is_anchor m selector) (tm_rows m)) in
  _ ← guard_err (match selector with
                 | SelJobs job_ids => existsb (λ id, bool_decide (tm_by_id m !! id = None)) job_ids
                 | _ => false end)
        (ENotFound "tree selector contains an unknown Job");
  '(content, visible) ← descend (S (length anchors + length (tm_rows m))) m depth (map (λ id, (id, 0)) anchors) ∅ ∅;
  '(eligible, visible) ← result_foldM (λ acc id, ascend ANCESTRY_FUEL m (Some id) ∅ acc.1 acc.2) (content, visible) anchors;
  Ok {| sn_eligible := eligible; sn_visible := visible; sn_selected_content := content |}.

(** *** Order of the roots *)
Fixpoint family_loop (fuel : nat) m (pending : list DurableId) (seen : gset DurableId) (queued : bool)
    : result StoreError TreeAttentionBucket :=
  match pending with
  | [] => Ok (if queued then BucketQueued else BucketFinished)
  | id :: pending =>
      match fuel with
      | O => Err (EPanic "out of fuel")
      | S fuel =>
          let fresh := negb (bool_decide (id ∈ seen)) in
          let seen := {[id]} ∪ seen in
          _ ← guard_err (negb fresh || bool_decide (TREE_SCAN_BUDGET < N.of_nat (size seen)))
                (EViewUnavailable "tree_scan_limit while classifying a family");
          r ← row m id;
          match tr_state r with
          | Active | Finalizing => Ok BucketRunning
          | Pending => family_loop fuel m (rev (children m id) ++ pending) seen true
          | Final => family_loop fuel m (rev (children m id) ++ pending) seen queued
          end
      end
  end.
Definition family_bucket m (root : DurableId) : result StoreError TreeAttentionBucket :=
  family_loop (S (length (tm_rows m))) m [root] ∅ false.

(** By bucket, then newest first. *)
Definition root_key m (p : DurableId * TreeAttentionBucket) : N * (Z * DurableId) :=
  (bucket_rank p.2, child_key (tm_rows m) (tm_by_id m) p.1).
Definition root_le m (a b : DurableId * TreeAttentionBucket) : Prop :=
  let ka := root_key m a in let kb := root_key m b in
  ka.1 < kb.1 ∨ (ka.1 = kb.1 ∧ lex_le kb.2 ka.2).
#[global] Instance root_le_dec m : RelDecision (root_le m).
Proof. unfold root_le. intros a b. apply _. Defined.

Definition ordered_roots m sel : result StoreError (list (DurableId * TreeAttentionBucket)) :=
  roots ← result_mapM (λ root, bucket ← family_bucket m root; Ok (root, bucket))
            (List.filter (λ root, bool_decide (root ∈ sn_visible sel)) (tm_roots m));
  Ok (sort_by (root_le m) roots).

(** *** Emission *)
Definition child_cursor (token : string) (parent : DurableId) (child : TreeRow) : JobChildrenCursor :=
  {| cc_store_uuid := store; cc_selector_hash := token; cc_parent_job_id := parent;
     cc_accepted_unix_millis := tr_accepted_ms child; cc_child_job_id := tr_job_id child |}.

Definition eligible_children m sel id : list DurableId :=
  List.filter (λ child, bool_decide (child ∈ sn_eligible sel)) (children m id).

(** [nodes[node_index].descendants_truncated = true; …next_children_cursor = Some(…)] *)
Definition truncate_at m (token : string) (node_index : nat) (parent next : DurableId) (nodes : list Node)
    : result StoreError (list Node) :=
  r ← row m next;
  Ok (alter (λ n : Node, n <| jn_descendants_truncated := true |>
                           <| jn_next_children_cursor := Some (child_cursor token parent r) |>) node_index nodes).

Definition NODE_BUDGET : N := TREE_RESPONSE_BUDGET_BYTES - TREE_RESPONSE_METADATA_RESERVE_BYTES.

(** What has been emitted: the nodes and the bytes reserved for them. *)
Definition Emission : Type := list Node * N.

Section emit.
Context (m : TreeModel) (sel : Selection) (limit : option N) (node_limit : nat) (token : string).

(** The loop over the children of the node at [node_index]; [emit] is the recursive
    call. *)
Fixpoint emit_children (emit : DurableId → Emission → result StoreError (EmitOutcome * Emission))
    (id : DurableId) (depth : N) (node_index : nat) (todo : list DurableId) (e : Emission)
    : result StoreError (EmitOutcome * Emission) :=
  match todo with
  | [] => Ok ({| eo_emitted := true; eo_page_full := false |}, e)
  | child :: todo =>
      if negb (bool_decide (child ∈ sn_visible sel))
         || match limit with Some limit => bool_decide (limit ≤ depth) | None => false end
      then
        nodes ← truncate_at m token node_index id child e.1;
        Ok ({| eo_emitted := true; eo_page_full := false |}, (nodes, e.2))
      else if bool_decide (node_limit ≤ length e.1)%nat then
        nodes ← truncate_at m token node_index id child e.1;
        Ok ({| eo_emitted := true; eo_page_full := true |}, (nodes, e.2))
      else
        '(outcome, e) ← emit child e;
        if eo_page_full outcome then
          nodes ← match (if eo_emitted outcome then head todo else Some child) with
                  | Some next => truncate_at m token node_index id next e.1
                  | None => Ok e.1 end;
          Ok ({| eo_emitted := true; eo_page_full := true |}, (nodes, e.2))
        else emit_children emit id depth node_index todo e
  end.

Fixpoint emit_node (fuel : nat) (depth : N) (id : DurableId) (e : Emission)
    : result StoreError (EmitOutcome * Emission) :=
  match fuel with
  | O => Err (EPanic "out of fuel")
  | S fuel =>
      if bool_decide (node_limit ≤ length e.1)%nat then Ok ({| eo_emitted := false; eo_page_full := true |}, e)
      else
        r ← row m id;
        let eligible := eligible_children m sel id in
        summary ← job_summary id;
        attention ← (if bool_decide (depth = 0) then bucket ← family_bucket m id; Ok (Some bucket) else Ok None);
        let node := {| jn_summary := summary; jn_depth := depth; jn_family_attention := attention;
                       jn_context_only := negb (bool_decide (id ∈ sn_selected_content sel));
                       jn_parent_retained := (λ parent, bool_decide (is_Some (tm_by_id m !! parent))) <$> tr_parent_id r;
                       jn_has_children := negb (bool_decide (eligible = []));
                       jn_descendants_truncated := false; jn_next_children_cursor := None |} in
        let node_cost := saturating_add (saturating_add (node_len node) (len token)) 512 in
        if bool_decide (NODE_BUDGET < saturating_add e.2 node_cost) then
          match e.1 with
          | [] => Err (EViewUnavailable "tree_response_limit: one bounded tree node exceeds the encoded response budget")
          | _ => Ok ({| eo_emitted := false; eo_page_full := true |}, e)
          end
        else
          emit_children (emit_node fuel (depth + 1)) id depth (length e.1) eligible
            (e.1 ++ [node], saturating_add e.2 node_cost)
  end.
End emit.
Definition EMIT_FUEL : nat := 66.

(** *** Requests *)
Definition validate_tree_bounds (root_limit node_limit : N) (depth : option N) (max_depth : N) : result StoreError unit :=
  guard_err (negb (bool_decide (1 ≤ root_limit ≤ 256)) || negb (bool_decide (1 ≤ node_limit ≤ MAX_TREE_PAGE_NODES))
             || match depth with Some depth => bool_decide (max_depth < depth) | None => false end)
    (EInvalidSpec "invalid tree page bounds").

(** [Vec::dedup] drops equal neighbours. *)
Definition normalize_selector selector : JobSelector :=
  match selector with
  | SelAll => SelAll
  | SelJobs job_ids => SelJobs (dedup (sort_by btree_le job_ids))
  | SelBatch batch_id => SelBatch batch_id
  | SelLabels labels => SelLabels (dedup (sort_by label_le labels))
  end.

Definition selector_token selector : string :=
  let json := selector_json selector in
  hex (sha256 json) +:+ String (Ascii.ascii_of_N 58) (hex json).

Definition selector_from_token (token : string) : result StoreError JobSelector :=
  '(claimed, encoded) ← ok_or (split_colon token) (EViewStale "invalid selector-bound cursor");
  json ← unhex encoded;
  _ ← guard_err (bool_decide (claimed ≠ hex (sha256 json))) (EViewStale "selector-bound cursor checksum failed");
  ok_or (parse_selector json) (EJson "invalid selector").

Definition validate_tree_selector s selector : result StoreError unit :=
  _ ← validate_selector store uuid_to_string s selector;
  guard_err (match selector with
             | SelJobs job_ids => bool_decide (TREE_SELECTOR_JOB_LIMIT < N.of_nat (length job_ids))
             | _ => false end)
    (EInvalidSpec "tree Jobs selector exceeds 64 anchors").

Definition selected_job_id selector : option DurableId :=
  match selector with SelJobs [id] => Some id | _ => None end.

(** [for (root_id, bucket) in ordered.iter().skip(start).take(root_limit)] *)
Fixpoint emit_roots m sel (node_limit : nat) (token : string) (roots : list (DurableId * TreeAttentionBucket))
    (emitted : list (DurableId * TreeAttentionBucket)) (e : Emission)
    : result StoreError (list (DurableId * TreeAttentionBucket) * Emission) :=
  match roots with
  | [] => Ok (emitted, e)
  | root :: roots =>
      if bool_decide (length e.1 = node_limit) then Ok (emitted, e)
      else
        '(outcome, e) ← emit_node m sel None node_limit token EMIT_FUEL 0 root.1 e;
        let emitted := if eo_emitted outcome then emitted ++ [root] else emitted in
        if eo_page_full outcome then Ok (emitted, e) else emit_roots m sel node_limit token roots emitted e
  end.

Definition check_root_cursor v (token : string) (cursor : option JobTreeRootCursor) : result StoreError unit :=
  match cursor with
  | None => Ok tt
  | Some c =>
      guard_err (bool_decide (rc_store_uuid c ≠ store) || bool_decide (store_uuid (rc_root_job_id c) ≠ store)
                 || bool_decide (rc_order_revision c ≠ vw_tree_order_revision v)
                 || bool_decide (rc_selector_hash c ≠ token))
        (EViewStale "tree root cursor no longer describes the current ordered view")
  end.

(** [Iterator::position] with a test that can panic. *)
Fixpoint position {A} (f : A → result StoreError bool) (l : list A) : result StoreError (option nat) :=
  match l with
  | [] => Ok None
  | x :: l => found ← f x; if found : bool then Ok (Some O) else index ← position f l; Ok (S <$> (index : option nat))
  end.

Definition start_of_roots m (ordered : list (DurableId * TreeAttentionBucket)) (cursor : option JobTreeRootCursor)
    : result StoreError nat :=
  match cursor with
  | None => Ok O
  | Some c =>
      index ← position (λ p : DurableId * TreeAttentionBucket,
        if bool_decide (p.1 = rc_root_job_id c) && bool_decide (p.2 = rc_bucket c)
        then r ← row m p.1; Ok (bool_decide (tr_accepted_ms r = rc_accepted_unix_millis c)) else Ok false) ordered;
      index ← ok_or index (EViewStale "tree root cursor row is gone");
      Ok (S index)
  end.

Definition next_root_cursor v m (token : string) (consumed total : nat)
    (emitted : list (DurableId * TreeAttentionBucket)) : result StoreError (option JobTreeRootCursor) :=
  if bool_decide (consumed < total)%nat then
    match last emitted with
    | None => Ok None
    | Some (id, bucket) =>
        r ← row m id;
        Ok (Some {| rc_store_uuid := store; rc_order_revision := vw_tree_order_revision v; rc_selector_hash := token;
                    rc_bucket := bucket; rc_accepted_unix_millis := tr_accepted_ms r; rc_root_job_id := id |})
    end
  else Ok None.

Definition ensure_tree_response_budget (encoded : N) : result StoreError unit :=
  guard_err (bool_decide (TREE_RESPONSE_BUDGET_BYTES < encoded))
    (EViewUnavailable ("tree_response_limit: encoded response is " +:+ pretty encoded +:+ " bytes, maximum is "
       +:+ pretty TREE_RESPONSE_BUDGET_BYTES)).

Definition tree_in_snapshot v selector (cursor : option JobTreeRootCursor) (root_limit node_limit : N)
    (max_depth : option N) : result StoreError (JobTreePage Summary) :=
  let s := vw_store v in
  _ ← validate_tree_selector s selector;
  _ ← validate_tree_bounds root_limit node_limit max_depth 64;
  let normalized := normalize_selector selector in
  let token := selector_token normalized in
  _ ← check_root_cursor v token cursor;
  model ← load_tree_model s;
  selection ← select_nodes model normalized (default 64 max_depth);
  ordered ← ordered_roots model selection;
  start ← start_of_roots model ordered cursor;
  '(emitted, (nodes, _)) ← emit_roots model selection (N.to_nat node_limit) token
      (take (N.to_nat root_limit) (drop start ordered)) [] ([], 0);
  next ← next_root_cursor v model token (start + length emitted) (length ordered) emitted;
  let page := {| jt_nodes := nodes; jt_next_root_cursor := next; jt_selected_job_id := selected_job_id normalized;
                 jt_event_cursor := event_head store v |} in
  _ ← ensure_tree_response_budget (page_len page);
  Ok page.

(** [while let Some(parent) = …]: the retained ancestors of a job, with it. *)
Fixpoint path_count_loop (fuel : nat) m (current : DurableId) (seen : gset DurableId) (path_count : N)
    : result StoreError N :=
  match fuel with
  | O => Err (EPanic "out of fuel")
  | S fuel =>
      _ ← ok_or (tree_row m current) (ENotFound (show_durable uuid_to_string current));
      match retained_parent m current with
      | None => Ok path_count
      | Some parent =>
          _ ← guard_err (bool_decide (current ∈ seen) || bool_decide (64 ≤ path_count))
                (EInvalidState "tree_for_job ancestry contains a cycle or exceeds 64 jobs");
          path_count_loop fuel m parent ({[current]} ∪ seen) (path_count + 1)
      end
  end.

Definition tree_for_job_in_snapshot v (job : DurableId) (node_limit : N) (max_depth : option N)
    : result StoreError (JobTreePage Summary) :=
  _ ← guard_err (bool_decide (store_uuid job ≠ store)) (ENotFound (show_durable uuid_to_string job));
  _ ← validate_tree_bounds 1 node_limit max_depth 64;
  model ← load_tree_model (vw_store v);
  path_count ← path_count_loop ANCESTRY_FUEL model job ∅ 1;
  _ ← guard_err (bool_decide (node_limit < path_count))
        (EInvalidSpec ("tree_node_limit_too_small: requires " +:+ pretty path_count +:+ " nodes for the retained ancestor path"));
  tree_in_snapshot v (SelJobs [job]) None 1 node_limit max_depth.

(** [while next_index < children.len() && nodes.len() < node_limit]: the children that
    are left. *)
Fixpoint emit_siblings m sel (limit : N) (node_limit : nat) (token : string) (todo : list DurableId) (e : Emission)
    : result StoreError (list DurableId * Emission) :=
  match todo with
  | [] => Ok ([], e)
  | child :: rest =>
      if bool_decide (length e.1 < node_limit)%nat then
        '(outcome, e) ← emit_node m sel (Some limit) node_limit token EMIT_FUEL 1 child e;
        if negb (eo_emitted outcome) then Ok (todo, e)
        else if eo_page_full outcome then Ok (rest, e)
        else emit_siblings m sel limit node_limit token rest e
      else Ok (todo, e)
  end.

Definition tree_children_in_snapshot v (cursor : JobChildrenCursor) (node_limit : N) (additional_depth : option N)
    : result StoreError (JobChildrenPage Summary) :=
  let s := vw_store v in
  let depth := default 0 additional_depth in
  let parent := cc_parent_job_id cursor in
  _ ← validate_tree_bounds 1 node_limit (Some depth) 63;
  _ ← guard_err (bool_decide (cc_store_uuid cursor ≠ store) || bool_decide (store_uuid parent ≠ store)
                 || bool_decide (store_uuid (cc_child_job_id cursor) ≠ store))
        (EViewStale "tree child cursor belongs to another store");
  selector ← selector_from_token (cc_selector_hash cursor);
  _ ← validate_tree_selector s selector;
  model ← load_tree_model s;
  selection ← select_nodes model selector 64;
  let eligible := eligible_children model selection parent in
  index ← position (λ id, if bool_decide (id = cc_child_job_id cursor)
    then r ← row model id; Ok (bool_decide (tr_accepted_ms r = cc_accepted_unix_millis cursor)) else Ok false) eligible;
  start ← ok_or index (EViewStale "tree child cursor row is gone");
  '(remaining, (nodes, _)) ← emit_siblings model selection (N.min (depth + 1) u32_max) (N.to_nat node_limit)
      (cc_selector_hash cursor) (drop start eligible) ([], 0);
  next ← match head remaining with
         | None => Ok None
         | Some id => r ← row model id; Ok (Some (child_cursor (cc_selector_hash cursor) parent r)) end;
  let page := {| jk_parent_job_id := parent; jk_nodes := nodes; jk_next_children_cursor := next;
                 jk_event_cursor := event_head store v |} in
  _ ← ensure_tree_response_budget (children_page_len page);
  Ok page.

(** *** Observation of trees *)
Fixpoint any_anchor (origins : gmap Uuid JobOrigin) (job : DurableId) (anchors : list DurableId) : result StoreError bool :=
  match anchors with
  | [] => Ok false
  | anchor :: anchors =>
      if bool_decide (job = anchor) then Ok true
      else descends ← job_descends_from uuid_to_string store origins job anchor;
           if descends : bool then Ok true else any_anchor origins job anchors
  end.

Fixpoint retain_events (origins : gmap Uuid JobOrigin) (anchors : list DurableId) (events : list SchedulerEvent)
    : result StoreError (list SchedulerEvent) :=
  match events with
  | [] => Ok []
  | e :: events =>
      retained ← any_anchor origins (sv_job_id e) anchors;
      rest ← retain_events origins anchors events;
      Ok (if retained : bool then e :: rest else rest)
  end.

Definition observe_trees_in_snapshot v (anchors : list DurableId) (cursor : option EventCursor)
    (event_limit root_limit node_limit : N) (max_depth : option N) : result StoreError (TreeObservationFrame Summary) :=
  _ ← guard_err (bool_decide (anchors = []) || bool_decide (MAX_TREE_SELECTOR_JOBS < N.of_nat (length anchors))
                 || existsb (λ id, bool_decide (store_uuid id ≠ store)) anchors)
        (EInvalidSpec "tree observation requires 1..=64 current-store Job IDs");
  _ ← guard_err (negb (bool_decide (1 ≤ event_limit ≤ MAX_OBSERVATION_PAGE)))
        (EInvalidSpec "tree event_limit must be 1..=1024");
  _ ← validate_tree_bounds root_limit node_limit max_depth 64;
  let head := event_head store v in
  let requested := default {| ec_store_uuid := store; ec_sequence := 0 |} cursor in
  frame ← observe store uuid_to_string job_summary v SelAll cursor event_limit;
  match frame with
  | Gap gap _ cursor =>
      snapshot ← tree_in_snapshot v (SelJobs anchors) None root_limit node_limit max_depth;
      Ok (TreeGap gap snapshot cursor)
  | Events events cursor =>
      retained ← retain_events (sb_origins (vw_store v)) anchors events;
      if bool_decide (ec_store_uuid requested ≠ store) then
        snapshot ← tree_in_snapshot v (SelJobs anchors) None root_limit node_limit max_depth;
        Ok (TreeGap {| eg_requested := requested; eg_oldest_available := head |} snapshot head)
      else Ok (TreeEvents retained cursor)
  end.
End trees.
