(* ===== verification/TreeFacts.v ===== *)
(** * TreeFacts: what the model of a forest and a selection contain

    A loaded model is a forest of families of at most 64 generations; the selection
    holds exactly the descendants of the anchors and their ancestors; a family's
    bucket is the one of its most urgent member. *)
From S2P Require Import Prelude Spec Validate Kernel Scoped Observation Machine MachineStore Reservation.
From S2P Require Import Native Policy ManagedWait Submission Text Views ViewFacts Trees.

(** ** Forests *)
(** The number of jobs from one up to its root, both included. *)
Inductive chain (m : TreeModel) : DurableId → nat → Prop :=
| chain_root id : retained_parent m id = None → chain m id 1
| chain_child id parent n : retained_parent m id = Some parent → chain m parent n → chain m id (S n).

Record forest (m : TreeModel) : Prop := {
  fo_ids : NoDup (tr_job_id <$> tm_rows m);
  fo_bound : N.of_nat (length (tm_rows m)) ≤ TREE_SCAN_BUDGET;
  fo_row : ∀ id r, tree_row m id = Some r ↔ r ∈ tm_rows m ∧ tr_job_id r = id;
  fo_known : ∀ id, is_Some (tm_by_id m !! id) ↔ is_Some (tree_row m id);
  fo_children : ∀ id parent, id ∈ children m parent ↔ is_Some (tree_row m id) ∧ retained_parent m id = Some parent;
  fo_children_NoDup : ∀ parent, NoDup (children m parent);
  fo_children_sorted : ∀ parent, StronglySorted (child_le (tm_rows m) (tm_by_id m)) (children m parent);
  fo_roots : ∀ id, id ∈ tm_roots m ↔ is_Some (tree_row m id) ∧ retained_parent m id = None;
  fo_roots_NoDup : NoDup (tm_roots m);
  fo_chain : ∀ id, is_Some (tree_row m id) → ∃ n, (n ≤ 64)%nat ∧ chain m id n;
}.

Lemma chain_fun m id n n' : chain m id n → chain m id n' → n = n'.
Proof.
  intros H. revert n'. induction H as [id Hp|id p n Hp _ IH]; intros n' H'; inversion H'; simplify_eq; [done|].
  f_equal. by apply IH.
Qed.
Lemma chain_pos m id n : chain m id n → (0 < n)%nat.
Proof. destruct 1; lia. Qed.

(** *** Building a model *)
Section build.
Implicit Types (rows : list TreeRow) (id : DurableId).

Lemma index_rows_spec rows : NoDup (tr_job_id <$> rows) → ∀ id i,
  index_rows rows !! id = Some i ↔ ∃ r, rows !! i = Some r ∧ tr_job_id r = id.
Proof.
  intros Hnd id i. unfold index_rows.
  assert ((imap (λ i r, (tr_job_id r, i)) rows).*1 = tr_job_id <$> rows) as Hfst.
  { apply list_eq. intros j. rewrite !list_lookup_fmap, list_lookup_imap. by destruct (rows !! j). }
  rewrite (list_to_map_proper _ (imap (λ i r, (tr_job_id r, i)) rows)).
  - rewrite <-elem_of_list_to_map by (by rewrite Hfst). rewrite elem_of_lookup_imap. naive_solver.
  - rewrite <-(Permutation_rev (imap _ _)), Hfst. done.
  - symmetry. apply Permutation_rev.
Qed.

(** The parent of a row among the rows. *)
Definition linked (by_id : gmap DurableId nat) (r : TreeRow) : option DurableId :=
  parent ← tr_parent_id r; if bool_decide (is_Some (by_id !! parent)) then Some parent else None.

Lemma link_rows_spec by_id rows :
  let out := foldl (link_row by_id) (∅, []) rows in
  (∀ p, default [] (out.1 !! p) = tr_job_id <$> filter (λ r, linked by_id r = Some p) rows) ∧
  out.2 = tr_job_id <$> filter (λ r, linked by_id r = None) rows.
Proof.
  simpl. induction rows as [|r rows IH] using rev_ind; [done|].
  rewrite foldl_app. simpl. destruct (foldl _ _ rows) as [ch roots]. simpl in *. destruct IH as [IH1 IH2].
  unfold link_row. fold (linked by_id r). destruct (linked by_id r) as [parent|] eqn:Hl; simpl.
  - split.
    + intros p. rewrite filter_app, fmap_app, filter_cons, filter_nil, Hl. destruct (decide (parent = p)) as [->|Hne].
      * rewrite lookup_insert_eq, decide_True by done. simpl. by rewrite IH1.
      * rewrite lookup_insert_ne, decide_False by congruence. simpl. by rewrite app_nil_r, IH1.
    + rewrite filter_app, fmap_app, filter_cons, filter_nil, Hl, decide_False by done. simpl. by rewrite app_nil_r.
  - split.
    + intros p. rewrite filter_app, fmap_app, filter_cons, filter_nil, Hl, decide_False by done. simpl. by rewrite app_nil_r.
    + rewrite filter_app, fmap_app, filter_cons, filter_nil, Hl, decide_True by done. simpl. by rewrite IH2.
Qed.

Lemma build_row rows id r : NoDup (tr_job_id <$> rows) →
  tree_row (build_model rows) id = Some r ↔ r ∈ rows ∧ tr_job_id r = id.
Proof.
  intros Hnd. unfold tree_row, build_model. destruct (foldl _ _ _). simpl.
  rewrite bind_Some. setoid_rewrite index_rows_spec; [|done]. rewrite list_elem_of_lookup. split.
  - intros (i & (r' & Hi & <-) & Hr). naive_solver.
  - intros [[i Hi] <-]. exists i. eauto.
Qed.

Lemma build_known rows id : NoDup (tr_job_id <$> rows) →
  is_Some (tm_by_id (build_model rows) !! id) ↔ is_Some (tree_row (build_model rows) id).
Proof.
  intros Hnd. unfold tree_row, build_model. destruct (foldl _ _ _). simpl. split; intros [x Hx].
  - rewrite Hx. simpl. apply index_rows_spec in Hx as (r & Hr & _); eauto.
  - apply bind_Some in Hx as (i & Hi & _). eauto.
Qed.

Lemma build_parent rows r : NoDup (tr_job_id <$> rows) → r ∈ rows →
  retained_parent (build_model rows) (tr_job_id r) = linked (index_rows rows) r.
Proof.
  intros Hnd Hr. unfold retained_parent. rewrite (proj2 (build_row rows (tr_job_id r) r Hnd)) by done. simpl.
  unfold linked, build_model. by destruct (foldl _ _ _).
Qed.

Lemma build_children rows p : children (build_model rows) p =
  sort_by (child_le rows (index_rows rows)) (tr_job_id <$> filter (λ r, linked (index_rows rows) r = Some p) rows).
Proof.
  pose proof (link_rows_spec (index_rows rows) rows) as [H _]. unfold children, build_model.
  destruct (foldl _ _ _) as [ch roots]. simpl in *. rewrite lookup_fmap, <-H. by destruct (ch !! p).
Qed.
Lemma build_roots rows :
  tm_roots (build_model rows) = tr_job_id <$> filter (λ r, linked (index_rows rows) r = None) rows.
Proof.
  pose proof (link_rows_spec (index_rows rows) rows) as [_ H]. unfold build_model.
  by destruct (foldl _ _ _) as [ch roots].
Qed.
Lemma build_rows rows : tm_rows (build_model rows) = rows.
Proof. unfold build_model. by destruct (foldl _ _ _). Qed.
Lemma build_by_id rows : tm_by_id (build_model rows) = index_rows rows.
Proof. unfold build_model. by destruct (foldl _ _ _). Qed.

(** The rows with a given retained parent, or without one. *)
Lemma build_linked rows (o : option DurableId) id `{!∀ r, Decision (linked (index_rows rows) r = o)} : NoDup (tr_job_id <$> rows) →
  id ∈ tr_job_id <$> filter (λ r, linked (index_rows rows) r = o) rows ↔
  is_Some (tree_row (build_model rows) id) ∧ retained_parent (build_model rows) id = o.
Proof.
  intros Hnd. rewrite list_elem_of_fmap. split.
  - intros (r & -> & [Hl Hr]%list_elem_of_filter). rewrite build_parent by done. split; [|done].
    exists r. by apply build_row.
  - intros [[r Hr] Hp]. apply build_row in Hr as [Hr <-]; [|done]. exists r. split; [done|].
    apply list_elem_of_filter. by rewrite build_parent in Hp.
Qed.

#[global] Instance child_le_trans rows by_id : Transitive (child_le rows by_id).
Proof. intros a b c. unfold child_le. apply transitivity. Qed.
#[global] Instance child_le_total rows by_id : Total (child_le rows by_id).
Proof. intros a b. unfold child_le. apply (total lex_le). Qed.
End build.

(** *** Validation of the parent graph *)
Lemma check_ancestry_chain fuel m current visited : check_ancestry fuel m current visited = Ok tt →
  match current with
  | None => True
  | Some id => ∃ n, chain m id n ∧ (n + size visited ≤ 64)%nat
  end.
Proof.
  revert current visited. induction fuel as [|fuel IH]; intros [id|] visited H; simpl in H; try done.
  apply result_bind_Ok in H as ([] & Hfresh & H). apply result_bind_Ok in H as ([] & Hsize & H).
  unfold guard_err in *. repeat case_bool_decide; try done.
  assert (size ({[id]} ∪ visited) = S (size visited)) as Hs by (rewrite size_union, size_singleton by set_solver; lia).
  apply IH in H. destruct (retained_parent m id) as [p|] eqn:Hp.
  - destruct H as (n & Hn & Hle). exists (S n). split; [by econstructor|]. lia.
  - exists 1%nat. split; [by constructor|]. lia.
Qed.

(** A set of jobs further from their roots. *)
Definition deeper m (n : nat) (visited : gset DurableId) : Prop :=
  ∀ x, x ∈ visited → ∃ k, chain m x k ∧ (n < k)%nat.

Lemma deeper_fresh m id n visited : chain m id n → deeper m n visited →
  id ∉ visited ∧ size ({[id]} ∪ visited) = S (size visited).
Proof.
  intros Hc Hv. assert (id ∉ visited) as Hid.
  { intros Hin. destruct (Hv _ Hin) as (k & Hk & Hlt). pose proof (chain_fun _ _ _ _ Hc Hk). lia. }
  split; [done|]. rewrite size_union, size_singleton by set_solver. lia.
Qed.
Lemma deeper_step m id n visited : chain m id (S n) → deeper m (S n) visited → deeper m n ({[id]} ∪ visited).
Proof.
  intros Hc Hv x [->%elem_of_singleton|Hx]%elem_of_union; [exists (S n); split; [done|lia]|].
  destruct (Hv _ Hx) as (k & Hk & Hlt). exists k. split; [done|lia].
Qed.

Lemma chain_check_ancestry fuel m id n visited : chain m id n → (n + size visited ≤ 64)%nat → (n < fuel)%nat →
  deeper m n visited → check_ancestry fuel m (Some id) visited = Ok tt.
Proof.
  intros Hc. revert fuel visited. induction Hc as [id Hp|id p n Hp Hc IH]; intros [|fuel] visited Hle Hf Hv; try lia; simpl.
  - destruct (deeper_fresh m id 1 visited) as [Hid Hs]; [by constructor|done|].
    rewrite Hs, Hp, !bool_decide_eq_false_2 by (done || lia). by destruct fuel.
  - assert (chain m id (S n)) as Hid' by (by econstructor).
    destruct (deeper_fresh m id (S n) visited) as [Hid Hs]; [done..|].
    rewrite Hs, Hp, !bool_decide_eq_false_2 by (done || lia). simpl. apply IH; [lia..|by apply deeper_step].
Qed.

Lemma validate_parent_graph_spec m : validate_parent_graph m = Ok tt ↔
  Forall (λ r, ∃ n, (n ≤ 64)%nat ∧ chain m (tr_job_id r) n) (tm_rows m).
Proof.
  trans (∃ k, result_mapM (λ r, check_ancestry ANCESTRY_FUEL m (Some (tr_job_id r)) ∅) (tm_rows m) = Ok k).
  { unfold validate_parent_graph. rewrite result_bind_Ok.
    split; [intros (k & Hk & _); by exists k|intros [k Hk]; by exists k]. }
  rewrite result_mapM_unit. apply Forall_iff. intros r. split.
  - intros (n & Hn & Hle)%check_ancestry_chain. rewrite size_empty in Hle. exists n. split; [lia|done].
  - intros (n & Hle & Hn). eapply chain_check_ancestry; [done|rewrite size_empty; lia|unfold ANCESTRY_FUEL; lia|].
    intros x Hx. set_solver.
Qed.

(** *** Loading *)
Section load.
Context (store : Uuid).
Implicit Types (s : SubmitStore).

Lemma tree_rows_NoDup s : NoDup (tr_job_id <$> tree_rows store s).
Proof.
  unfold tree_rows. rewrite sort_by_Permutation, <-list_fmap_compose.
  assert (tr_job_id ∘ to_tree_row store s = durable_id store ∘ fst) as -> by done.
  rewrite list_fmap_compose. apply NoDup_fmap_2; [|apply NoDup_btree_keys]. by intros x y [= ->].
Qed.

Lemma tree_rows_length s : length (tree_rows store s) = size (nv_jobs (sb_native s)).
Proof. unfold tree_rows. by rewrite sort_by_Permutation, length_map, btree_entries_Permutation, length_map_to_list. Qed.

Lemma tree_rows_row s r : r ∈ tree_rows store s ↔
  ∃ j, nv_jobs (sb_native s) !! entity_uuid (tr_job_id r) = Some j ∧ r = to_tree_row store s (entity_uuid (tr_job_id r), j).
Proof.
  unfold tree_rows. rewrite elem_of_sort_by, list_elem_of_fmap. split.
  - intros ([id j] & -> & Hin%elem_of_btree_entries). simpl. eauto.
  - intros (j & Hj & ->). exists (entity_uuid (tr_job_id r), j). split; [by simpl|by apply elem_of_btree_entries].
Qed.

Lemma NoDup_fmap_filter {A B} (f : A → B) (P : A → Prop) `{!∀ x, Decision (P x)} l :
  NoDup (f <$> l) → NoDup (f <$> filter P l).
Proof.
  induction l as [|x l IH]; intros Hnd; [done|]. simpl in Hnd. apply NoDup_cons in Hnd as [Hx Hl].
  rewrite filter_cons. case_decide; [|by apply IH]. simpl. apply NoDup_cons. split; [|by apply IH].
  intros (y & Hy & [_ Hin]%list_elem_of_filter)%list_elem_of_fmap. apply Hx. rewrite Hy. by apply list_elem_of_fmap_2.
Qed.

Lemma build_forest rows : NoDup (tr_job_id <$> rows) → N.of_nat (length rows) ≤ TREE_SCAN_BUDGET →
  validate_parent_graph (build_model rows) = Ok tt → forest (build_model rows).
Proof.
  intros Hnd Hlen Hval. rewrite validate_parent_graph_spec in Hval. rewrite build_rows in Hval.
  split; rewrite ?build_rows; [done|done|..].
  - intros id r. by apply build_row.
  - intros id. by apply build_known.
  - intros id p. rewrite build_children, elem_of_sort_by. by apply build_linked.
  - intros p. rewrite build_children, sort_by_Permutation. by apply NoDup_fmap_filter.
  - intros p. rewrite build_children, build_by_id. apply sort_by_sorted; apply _.
  - intros id. rewrite build_roots. by apply build_linked.
  - rewrite build_roots. by apply NoDup_fmap_filter.
  - intros id [r Hr]. apply build_row in Hr as [Hr <-]; [|done]. rewrite Forall_forall in Hval. by apply Hval.
Qed.

(** Loading succeeds exactly on stores of at most 16384 jobs whose retained ancestries
    have at most 64 jobs. *)
Lemma load_tree_model_spec s m : load_tree_model store s = Ok m ↔
  m = build_model (tree_rows store s) ∧ N.of_nat (size (nv_jobs (sb_native s))) ≤ TREE_SCAN_BUDGET ∧
  validate_parent_graph m = Ok tt.
Proof.
  unfold load_tree_model. rewrite <-(tree_rows_length s).
  generalize (tree_rows store s) as rows. intros rows. unfold guard_err.
  rewrite length_take. case_bool_decide as Hlen.
  - split; [done|]. intros (_ & Hle & _). lia.
  - rewrite take_ge by lia. simpl. split.
    + intros H. apply result_bind_Ok in H as ([] & Hval & H). injection H as <-. split_and!; [done|lia|done].
    + intros (-> & Hle & ->). done.
Qed.
End load.

(** ** Selection *)
(** The retained parent as a relation; [nsteps (up m) n x a]: [a] is the ancestor of
    [x] by [n] generations. *)
Definition up m : relation DurableId := λ x p, retained_parent m x = Some p.

Lemma up_row m x p : up m x p → is_Some (tree_row m x).
Proof. unfold up, retained_parent. intros (q & Hq & _)%bind_Some. destruct (tree_row m x); [eauto|done]. Qed.

Lemma up_parent_row m x p : forest m → up m x p → is_Some (tree_row m p).
Proof.
  intros Hm H. unfold up, retained_parent in H. apply bind_Some in H as (q & _ & H). case_bool_decide; simplify_eq.
  by apply (fo_known _ Hm).
Qed.

Lemma child_up m x p : forest m → x ∈ children m p ↔ up m x p.
Proof. intros Hm. rewrite (fo_children _ Hm). split; [by intros []|]. intros H. split; [by eapply up_row|done]. Qed.

(** *** Breadth-first descent *)
Section descend.
Context (m : TreeModel) (Hm : forest m) (depth : N) (anchors : list DurableId).
Implicit Types (queue : list (DurableId * N)) (seen : gmap DurableId N) (visible : gset DurableId).

Definition under (n : nat) (x : DurableId) : Prop := ∃ a, a ∈ anchors ∧ nsteps (up m) n x a.

(** [x] was expanded, or waits to be, at most [n] generations below an anchor. *)
Definition noted queue seen (n : N) (x : DurableId) : Prop :=
  (∃ e, seen !! x = Some e ∧ e ≤ n) ∨ (seen !! x = None ∧ ∃ k, (x, k) ∈ queue ∧ k ≤ n).

(** [seen] maps the expanded jobs to the generation they were expanded at. *)
Record bfs queue seen visible : Prop := {
  bf_sorted : StronglySorted (λ p q, p.2 ≤ q.2 ≤ p.2 + 1) queue;
  bf_before : ∀ x e p, seen !! x = Some e → p ∈ queue → e ≤ p.2;
  bf_visible : ∀ x e, seen !! x = Some e → e ≤ depth → x ∈ visible;
  bf_anchors : ∀ a, a ∈ anchors → noted queue seen 0 a;
  bf_children : ∀ c e x, seen !! c = Some e → x ∈ children m c → noted queue seen (e + 1) x;
  bf_queue : ∀ p, p ∈ queue → under (N.to_nat p.2) p.1;
  bf_seen : ∀ x e, seen !! x = Some e → under (N.to_nat e) x;
  bf_shown : ∀ x, x ∈ visible → ∃ n, N.of_nat n ≤ depth ∧ under n x;
}.

Lemma level_sorted (l : list DurableId) (k : N) :
  StronglySorted (λ p q : DurableId * N, p.2 ≤ q.2 ≤ p.2 + 1) (map (λ id, (id, k)) l).
Proof.
  induction l as [|a l IH]; simpl; constructor; [done|]. apply Forall_forall.
  intros p (x & -> & _)%list_elem_of_fmap. simpl. lia.
Qed.

Lemma bfs_start : bfs (map (λ id, (id, 0)) anchors) ∅ ∅.
Proof.
  split; try (intros; set_solver).
  - apply level_sorted.
  - intros a Ha. right. split; [done|]. exists 0. split; [|lia]. apply list_elem_of_fmap. eauto.
  - intros p (x & -> & Hx)%list_elem_of_fmap. exists x. split; [done|]. constructor.
Qed.

Definition mark (k : N) (x : DurableId) visible : gset DurableId :=
  if bool_decide (k ≤ depth) then {[x]} ∪ visible else visible.

Lemma bfs_shown_mark queue seen visible x k : bfs ((x, k) :: queue) seen visible →
  ∀ y, y ∈ mark k x visible → ∃ n, N.of_nat n ≤ depth ∧ under n y.
Proof.
  intros H y. unfold mark. case_bool_decide as Hk; [|apply (bf_shown _ _ _ H)].
  intros [->%elem_of_singleton|Hy]%elem_of_union; [|by apply (bf_shown _ _ _ H)].
  exists (N.to_nat k). split; [lia|]. apply (bf_queue _ _ _ H (x, k)). set_solver.
Qed.

(** A job that was expanded before is not expanded again. *)
Lemma bfs_skip queue seen visible x k e : bfs ((x, k) :: queue) seen visible → seen !! x = Some e →
  bfs queue seen (mark k x visible).
Proof.
  intros H Hx.
  assert (∀ n y, noted ((x, k) :: queue) seen n y → noted queue seen n y) as Hnoted.
  { intros n y [?|(Hn & k' & [[= -> ->]|Hin]%elem_of_cons & Hle)]; [by left|congruence|]. right. eauto. }
  split.
  - by eapply StronglySorted_inv, bf_sorted.
  - intros y e' p Hy Hp. eapply (bf_before _ _ _ H); [done|set_solver].
  - intros y e' Hy He. unfold mark. pose proof (bf_visible _ _ _ H y e' Hy He). case_bool_decide; set_solver.
  - intros a Ha. by apply Hnoted, (bf_anchors _ _ _ H).
  - intros c e' y Hc Hy. by eapply Hnoted, (bf_children _ _ _ H).
  - intros p Hp. apply (bf_queue _ _ _ H). set_solver.
  - apply (bf_seen _ _ _ H).
  - by eapply bfs_shown_mark.
Qed.

Lemma bfs_expand queue seen visible x k : bfs ((x, k) :: queue) seen visible → seen !! x = None →
  bfs (queue ++ map (λ c, (c, k + 1)) (children m x)) (<[x := k]> seen) (mark k x visible).
Proof.
  intros H Hx. set (queue' := queue ++ _).
  pose proof (bf_sorted _ _ _ H) as [Hsorted Hhead]%StronglySorted_inv. rewrite Forall_forall in Hhead. simpl in Hhead.
  assert (∀ n y, noted ((x, k) :: queue) seen n y → noted queue' (<[x:=k]> seen) n y) as Hnoted.
  { intros n y. destruct (decide (y = x)) as [->|Hne].
    - intros [(e & He & _)|(_ & k' & [[= ->]|Hin]%elem_of_cons & Hle)]; [congruence|..]; left; exists k;
        (split; [by rewrite lookup_insert_eq|]); [done|]. apply Hhead in Hin. simpl in Hin. lia.
    - intros [(e & He & Hle)|(Hn & k' & [[= -> ->]|Hin]%elem_of_cons & Hle)]; [| |].
      + left. exists e. by rewrite lookup_insert_ne.
      + done.
      + right. rewrite lookup_insert_ne by done. split; [done|]. exists k'. unfold queue'. set_solver. }
  split.
  - apply StronglySorted_app_2; [|done|].
    + intros p q Hp (c & -> & _)%list_elem_of_fmap. apply Hhead in Hp. simpl. lia.
    + apply level_sorted.
  - intros y e p Hy [Hp|(c & -> & _)%list_elem_of_fmap]%elem_of_app.
    + destruct (decide (y = x)) as [->|Hne]; [|rewrite lookup_insert_ne in Hy by done; eapply (bf_before _ _ _ H); [done|set_solver]].
      rewrite lookup_insert_eq in Hy. simplify_eq. apply Hhead in Hp. lia.
    + simpl. destruct (decide (y = x)) as [->|Hne]; [rewrite lookup_insert_eq in Hy; simplify_eq; lia|].
      rewrite lookup_insert_ne in Hy by done. pose proof (bf_before _ _ _ H y e (x, k) Hy ltac:(set_solver)). simpl in *. lia.
  - intros y e Hy He. unfold mark. destruct (decide (y = x)) as [->|Hne].
    + rewrite lookup_insert_eq in Hy. simplify_eq. rewrite bool_decide_eq_true_2 by done. set_solver.
    + rewrite lookup_insert_ne in Hy by done. pose proof (bf_visible _ _ _ H y e Hy He). case_bool_decide; set_solver.
  - intros a Ha. by apply Hnoted, (bf_anchors _ _ _ H).
  - intros c e y Hc Hy. destruct (decide (c = x)) as [->|Hne].
    + rewrite lookup_insert_eq in Hc. simplify_eq. unfold noted.
      destruct (decide (y = x)) as [->|Hyx]; [left; exists e; rewrite lookup_insert_eq; split; [done|lia]|].
      rewrite lookup_insert_ne by done. destruct (seen !! y) as [e'|] eqn:Hsy.
      * left. exists e'. split; [done|]. pose proof (bf_before _ _ _ H y e' (x, e) Hsy ltac:(set_solver)). simpl in *. lia.
      * right. split; [done|]. exists (e + 1). split; [|lia]. apply elem_of_app. right. apply list_elem_of_fmap. eauto.
    + rewrite lookup_insert_ne in Hc by done. by eapply Hnoted, (bf_children _ _ _ H).
  - intros p [Hp|(c & -> & Hc)%list_elem_of_fmap]%elem_of_app; [apply (bf_queue _ _ _ H); set_solver|]. simpl.
    destruct (bf_queue _ _ _ H (x, k)) as (a & Ha & Hst); [set_solver|]. exists a. split; [done|].
    replace (N.to_nat (k + 1)) with (S (N.to_nat k)) by lia. econstructor; [by apply child_up|done].
  - intros y e Hy. destruct (decide (y = x)) as [->|Hne].
    + rewrite lookup_insert_eq in Hy. simplify_eq. apply (bf_queue _ _ _ H (x, e)). set_solver.
    + rewrite lookup_insert_ne in Hy by done. by apply (bf_seen _ _ _ H).
  - by eapply bfs_shown_mark.
Qed.

(** When nothing waits, everything below the anchors was expanded. *)
Lemma bfs_done seen visible : bfs [] seen visible → ∀ n x, under n x →
  (∃ e, seen !! x = Some e ∧ e ≤ N.of_nat n) ∧ (N.of_nat n ≤ depth → x ∈ visible).
Proof.
  intros H n x (a & Ha & Hst).
  assert (∃ e, seen !! x = Some e ∧ e ≤ N.of_nat n) as (e & He & Hle).
  { assert (∀ k y, noted [] seen k y → ∃ e, seen !! y = Some e ∧ e ≤ k) as Hn by (unfold noted; set_solver).
    induction Hst as [x|n x p a Hup _ IH]; [by apply Hn, (bf_anchors _ _ _ H)|].
    destruct IH as (e & He & Hle); [done|].
    destruct (Hn (e + 1) x) as (e' & He' & Hle'); [eapply (bf_children _ _ _ H); [done|by apply child_up]|].
    exists e'. split; [done|]. lia. }
  split; [eauto|]. intros Hd. eapply (bf_visible _ _ _ H); [done|]. lia.
Qed.

(** The jobs whose parent has not been expanded. *)
Definition waits (content : gset DurableId) (id : DurableId) : Prop :=
  match retained_parent m id with Some p => p ∉ content | None => False end.
#[global] Instance waits_dec content id : Decision (waits content id).
Proof. unfold waits. case_match; apply _. Defined.
Definition waiting (content : gset DurableId) : list DurableId :=
  filter (waits content) (tr_job_id <$> tm_rows m).

Lemma waiting_step content x : x ∉ content →
  length (waiting content) = (length (waiting ({[x]} ∪ content)) + length (children m x))%nat.
Proof.
  intros Hx. rewrite <-length_app. apply Permutation_length, NoDup_Permutation.
  - apply NoDup_filter, (fo_ids _ Hm).
  - apply NoDup_app. split_and!; [apply NoDup_filter, (fo_ids _ Hm)| |apply (fo_children_NoDup _ Hm)].
    intros id [Hid _]%list_elem_of_filter Hc. apply (child_up _ _ _ Hm) in Hc. unfold up in Hc. unfold waits in Hid.
    rewrite Hc in Hid. set_solver.
  - intros id. unfold waiting. rewrite elem_of_app, !list_elem_of_filter, (child_up _ _ _ Hm). unfold up, waits.
    assert (∀ p, retained_parent m id = Some p → id ∈ tr_job_id <$> tm_rows m) as Hin.
    { intros p [r [Hr <-]%(fo_row _ Hm)]%up_row. by apply list_elem_of_fmap_2. }
    destruct (retained_parent m id) as [p|]; [|naive_solver].
    specialize (Hin p eq_refl). destruct (decide (p = x)) as [->|Hne]; [naive_solver|].
    split; [intros [Hp _]; left; set_solver|intros [[Hp _]|[= ->]]; [set_solver|done]].
Qed.

Lemma descend_ok fuel queue seen visible :
  bfs queue seen visible → (length queue + length (waiting (dom seen)) ≤ fuel)%nat →
  ∃ seen' visible', descend fuel m depth queue (dom seen) visible = Ok (dom seen', visible') ∧ bfs [] seen' visible'.
Proof.
  revert queue seen visible. induction fuel as [|fuel IH]; intros [|[x k] queue] seen visible H Hf; simpl in *; [eauto|lia|eauto|].
  fold (mark k x visible). case_bool_decide as Hx.
  - apply elem_of_dom in Hx as [e He]. apply IH; [by eapply bfs_skip|lia].
  - apply not_elem_of_dom in Hx as He. rewrite <-dom_insert_L with (i:=x) (x:=k) (m:=seen).
    apply IH; [by apply bfs_expand|]. rewrite length_app, length_map, dom_insert_L.
    pose proof (waiting_step _ _ Hx). lia.
Qed.

Lemma descend_spec :
  ∃ content visible, descend (S (length anchors + length (tm_rows m))) m depth (map (λ id, (id, 0)) anchors) ∅ ∅ = Ok (content, visible) ∧
    (∀ x, x ∈ content ↔ ∃ n, under n x) ∧ (∀ x, x ∈ visible ↔ ∃ n, N.of_nat n ≤ depth ∧ under n x).
Proof.
  destruct (descend_ok (S (length anchors + length (tm_rows m))) _ _ _ bfs_start) as (seen & visible & Hd & H).
  { rewrite length_map. unfold waiting. pose proof (length_filter (waits (dom (∅ : gmap DurableId N))) (tr_job_id <$> tm_rows m)) as Hl.
    rewrite length_fmap in Hl. lia. }
  rewrite dom_empty_L in Hd. exists (dom seen), visible. split; [done|]. split; intros x; split.
  - intros [e He]%elem_of_dom. eexists. by eapply (bf_seen _ _ _ H).
  - intros [n Hn]. destruct (bfs_done _ _ H n x Hn) as [(e & He & _) _]. by eapply elem_of_dom_2.
  - apply (bf_shown _ _ _ H).
  - intros (n & Hle & Hn). by apply (bfs_done _ _ H n x Hn).
Qed.
End descend.

(** *** Ancestors *)
Lemma ascend_spec fuel m id n seen eligible visible : chain m id n → (n + size seen ≤ 64)%nat → (n < fuel)%nat →
  deeper m n seen →
  ∃ eligible' visible', ascend fuel m (Some id) seen eligible visible = Ok (eligible', visible') ∧
    (∀ x, x ∈ eligible' ↔ x ∈ eligible ∨ rtc (up m) id x) ∧ (∀ x, x ∈ visible' ↔ x ∈ visible ∨ rtc (up m) id x).
Proof.
  intros Hc. revert fuel seen eligible visible.
  induction Hc as [id Hp|id p n Hp Hc IH]; intros [|fuel] seen eligible visible Hle Hf Hs; try lia; simpl.
  - destruct (deeper_fresh m id 1 seen) as [Hid Hsz]; [by constructor|done|].
    rewrite Hsz, Hp, !bool_decide_eq_false_2 by (done || lia). simpl.
    eexists _, _. split; [by destruct fuel|].
    assert (∀ x, rtc (up m) id x ↔ x = id) as Hroot.
    { intros x. split; [|by intros ->]. intros [->|(y & Hy & _)]%rtc_inv; [done|]. unfold up in Hy. congruence. }
    split; intros x; rewrite Hroot, elem_of_union, elem_of_singleton; tauto.
  - assert (chain m id (S n)) as Hid' by (by econstructor).
    destruct (deeper_fresh m id (S n) seen) as [Hid Hsz]; [done..|].
    rewrite Hsz, Hp, !bool_decide_eq_false_2 by (done || lia). simpl.
    destruct (IH fuel ({[id]} ∪ seen) ({[id]} ∪ eligible) ({[id]} ∪ visible)) as (e' & v' & -> & He & Hv);
      [lia..|by apply deeper_step|].
    assert (∀ x, rtc (up m) id x ↔ x = id ∨ rtc (up m) p x) as Hstep.
    { intros x. split.
      - intros [->|(y & Hy & Hr)]%rtc_inv; [by left|]. unfold up in Hy. simplify_eq. by right.
      - intros [->|Hr]; [done|]. by eapply rtc_l. }
    exists e', v'. split; [done|]. split; intros x; rewrite ?He, ?Hv, Hstep, elem_of_union, elem_of_singleton; tauto.
Qed.

(** The jobs a selector names in a model. *)
Definition anchor m selector (id : DurableId) : Prop :=
  ∃ r, tree_row m id = Some r ∧ is_anchor m selector r = true.

(** A selector of jobs names known ones. *)
Definition known_selector m selector : Prop :=
  match selector with SelJobs ids => Forall (λ id, is_Some (tree_row m id)) ids | _ => True end.

Lemma elem_of_anchors m selector id : forest m →
  id ∈ map tr_job_id (List.filter (is_anchor m selector) (tm_rows m)) ↔ anchor m selector id.
Proof.
  intros Hm. rewrite list_elem_of_fmap. unfold anchor. split.
  - intros (r & -> & [Hr Ha]%list_elem_of_In%filter_In). exists r. split; [|done].
    apply (fo_row _ Hm). split; [by apply list_elem_of_In|done].
  - intros (r & [Hr <-]%(fo_row _ Hm) & Ha). exists r. split; [done|].
    apply list_elem_of_In, filter_In. split; [by apply list_elem_of_In|done].
Qed.

(** What a selection contains, for any depth. *)
Record selects m selector (depth : N) (sel : Selection) : Prop := {
  se_content : ∀ x, x ∈ sn_selected_content sel ↔ ∃ a, anchor m selector a ∧ rtc (up m) x a;
  se_eligible : ∀ x, x ∈ sn_eligible sel ↔ ∃ a, anchor m selector a ∧ (rtc (up m) x a ∨ rtc (up m) a x);
  se_visible : ∀ x, x ∈ sn_visible sel ↔ ∃ a, anchor m selector a ∧
    ((∃ n, N.of_nat n ≤ depth ∧ nsteps (up m) n x a) ∨ rtc (up m) a x);
}.

Lemma select_nodes_spec m selector depth : forest m → known_selector m selector →
  ∃ sel, select_nodes m selector depth = Ok sel ∧ selects m selector depth sel.
Proof.
  intros Hm Hknown. unfold select_nodes.
  set (anchors := map tr_job_id (List.filter (is_anchor m selector) (tm_rows m))).
  assert (∀ a, a ∈ anchors ↔ anchor m selector a) as Hanchors by (intros a; by apply elem_of_anchors).
  assert ((match selector with
           | SelJobs job_ids => existsb (λ id, bool_decide (tm_by_id m !! id = None)) job_ids | _ => false end) = false) as ->.
  { destruct selector as [|ids| |]; try done. simpl in Hknown. clear -Hm Hknown.
    induction Hknown as [|id ids [r Hr] _ IH]; [done|]. simpl. rewrite IH, orb_false_r. apply bool_decide_eq_false.
    intros Hn. destruct (proj2 (fo_known _ Hm id)) as [i Hi]; [eauto|congruence]. }
  cbn [guard_err mbind result_bind].
  destruct (descend_spec m Hm depth anchors) as (content & visible & -> & Hcontent & Hvisible). cbn [mbind result_bind].
  destruct (result_foldM_total (λ done acc,
      (∀ x, x ∈ acc.1 ↔ x ∈ content ∨ ∃ a, a ∈ done ∧ rtc (up m) a x) ∧
      (∀ x, x ∈ acc.2 ↔ x ∈ visible ∨ ∃ a, a ∈ done ∧ rtc (up m) a x))
    (λ acc id, ascend ANCESTRY_FUEL m (Some id) ∅ acc.1 acc.2) (content, visible) anchors) as ([e v] & -> & He & Hv).
  - split; set_solver.
  - intros done a rest [e v] Hsplit [He Hv]. cbn [fst snd] in *.
    destruct (fo_chain _ Hm a) as (n & Hn & Hc).
    { assert (anchor m selector a) as (r & Hr & _); [|eauto]. apply Hanchors. rewrite Hsplit. set_solver. }
    destruct (ascend_spec ANCESTRY_FUEL m a n ∅ e v) as (e' & v' & -> & He' & Hv');
      [done|rewrite size_empty; lia|unfold ANCESTRY_FUEL; lia|intros x Hx; set_solver|].
    eexists. split; [done|]. simpl.
    split; intros x; rewrite ?He', ?Hv', ?He, ?Hv; (split;
      [intros [[?|(b & ? & ?)]|?]; [by left|right; exists b; set_solver|right; exists a; set_solver]
      |intros [?|(b & [?| ->%list_elem_of_singleton]%elem_of_app & ?)]; eauto 6]).
  - eexists. split; [done|]. simpl in *. unfold under in *. split; simpl; intros x.
    + rewrite Hcontent. split.
      * intros (n & a & Ha%Hanchors & Hst). exists a. split; [done|]. by eapply rtc_nsteps_2.
      * intros (a & Ha%Hanchors & [n Hst]%rtc_nsteps_1). eauto.
    + rewrite He, Hcontent. split.
      * intros [(n & a & Ha%Hanchors & Hst)|(a & Ha%Hanchors & Hr)]; exists a; (split; [done|]); [left; by eapply rtc_nsteps_2|by right].
      * intros (a & Ha%Hanchors & [[n Hst]%rtc_nsteps_1|Hr]); [left; eauto|right; eauto].
    + rewrite Hv, Hvisible. split.
      * intros [(n & Hle & a & Ha%Hanchors & Hst)|(a & Ha%Hanchors & Hr)]; exists a; (split; [done|]); [left; eauto|by right].
      * intros (a & Ha%Hanchors & [(n & Hle & Hst)|Hr]); [left; eauto|right; eauto].
Qed.

(** ** Families *)
Definition running (st : JobState) : bool := match st with Active | Finalizing => true | _ => false end.

(** The bucket of a family is the one of its most urgent member. *)
Definition bucket_of m (root : DurableId) (b : TreeAttentionBucket) : Prop :=
  let member x r := rtc (up m) x root ∧ tree_row m x = Some r in
  match b with
  | BucketRunning => ∃ x r, member x r ∧ running (tr_state r) = true
  | BucketQueued => (∀ x r, member x r → running (tr_state r) = false) ∧ ∃ x r, member x r ∧ tr_state r = Pending
  | BucketFinished => ∀ x r, member x r → tr_state r = Final
  end.

Section family.
Context (m : TreeModel) (Hm : forest m) (root : DurableId) (Hroot : is_Some (tree_row m root)).
Implicit Types (pending : list DurableId) (seen : gset DurableId).

(** A job is not its own ancestor. *)
Lemma up_acyclic x y : up m x y → ¬ rtc (up m) y x.
Proof.
  intros Hxy Hyx. destruct (fo_chain _ Hm x) as (n & _ & Hc); [by eapply up_row|].
  assert (∀ a b k, rtc (up m) a b → chain m b k → ∃ j, chain m a j ∧ (k ≤ j)%nat) as Hmono.
  { intros a b k Hr. revert k. induction Hr as [a|a a' b Ha _ IH]; intros k Hk; [eauto|].
    destruct (IH _ Hk) as (j & Hj & Hle). exists (S j). split; [by econstructor|lia]. }
  destruct (Hmono y x n Hyx Hc) as (j & Hj & Hle).
  assert (chain m x (S j)) as Hc' by (by econstructor). pose proof (chain_fun _ _ _ _ Hc Hc'). lia.
Qed.

(** The depth-first search: [seen] was looked at and [pending] is next. *)
Record dfs pending seen (queued : bool) : Prop := {
  df_pending : NoDup pending;
  df_fresh : ∀ x, x ∈ pending → x ∉ seen;
  df_member : ∀ x, x ∈ seen ∨ x ∈ pending → x = root ∨ ∃ p, p ∈ seen ∧ up m x p;
  df_below : ∀ x, x ∈ seen ∨ x ∈ pending → rtc (up m) x root ∧ is_Some (tree_row m x);
  df_root : root ∈ seen ∨ root ∈ pending;
  df_closed : ∀ x p, p ∈ seen → up m x p → x ∈ seen ∨ x ∈ pending;
  df_idle : ∀ x r, x ∈ seen → tree_row m x = Some r → running (tr_state r) = false;
  df_queued : queued = true ↔ ∃ x r, x ∈ seen ∧ tree_row m x = Some r ∧ tr_state r = Pending;
}.

Lemma dfs_start : dfs [root] ∅ false.
Proof.
  split; try set_solver.
  apply NoDup_singleton.
Qed.

Lemma dfs_push x pending seen queued r : dfs (x :: pending) seen queued → tree_row m x = Some r →
  running (tr_state r) = false →
  dfs (rev (children m x) ++ pending) ({[x]} ∪ seen) (bool_decide (tr_state r = Pending) || queued).
Proof.
  intros H Hr Hidle. pose proof (df_pending _ _ _ H) as [Hx Hnd]%NoDup_cons.
  assert (x ∉ seen) as Hxs by (apply (df_fresh _ _ _ H); set_solver).
  assert (∀ c, c ∈ rev (children m x) ↔ up m c x) as Hrev.
  { intros c. rewrite <-(child_up _ _ _ Hm), !list_elem_of_In. symmetry. apply in_rev. }
  assert (∀ c, up m c x → c ∉ seen ∧ c ≠ x ∧ c ∉ pending) as Hnew.
  { intros c Hc. assert (c ≠ root) as Hcr.
    { intros ->. apply (up_acyclic _ _ Hc). apply (df_below _ _ _ H). set_solver. }
    assert (¬ (c ∈ seen ∨ c ∈ x :: pending)) as Hn; [|set_solver].
    intros Hin. destruct (df_member _ _ _ H c Hin) as [?|(p & Hp & Hup)]; [done|]. unfold up in *. congruence. }
  split.
  - apply NoDup_app. split_and!; [|intros c Hc%Hrev; by apply Hnew|done].
    rewrite <-Permutation_rev. apply (fo_children_NoDup _ Hm).
  - intros c [Hc%Hrev|Hc]%elem_of_app; [destruct (Hnew c Hc) as (? & ? & ?); set_solver|].
    assert (c ∉ seen) by (apply (df_fresh _ _ _ H); set_solver). set_solver.
  - intros c Hc. assert (up m c x ∨ c ∈ seen ∨ c ∈ x :: pending) as [Hup|Hin].
    { rewrite elem_of_union, elem_of_app, Hrev in Hc. set_solver. }
    + right. exists x. set_solver.
    + destruct (df_member _ _ _ H c Hin) as [?|(p & Hp & Hup)]; [by left|right; exists p; set_solver].
  - intros c Hc. assert (up m c x ∨ c ∈ seen ∨ c ∈ x :: pending) as [Hup|Hin].
    { rewrite elem_of_union, elem_of_app, Hrev in Hc. set_solver. }
    + split; [|by eapply up_row]. eapply rtc_l; [done|]. apply (df_below _ _ _ H). set_solver.
    + by apply (df_below _ _ _ H).
  - destruct (df_root _ _ _ H) as [?|?]; set_solver.
  - intros c p Hp Hup. rewrite elem_of_union, elem_of_app, Hrev.
    destruct (decide (p = x)) as [->|Hne]; [by right; left|].
    destruct (df_closed _ _ _ H c p) as [?|?]; [set_solver|done|set_solver|set_solver].
  - intros y r' Hy Hr'. apply elem_of_union in Hy as [->%elem_of_singleton|Hy]; [congruence|by eapply (df_idle _ _ _ H)].
  - rewrite orb_true_iff, bool_decide_eq_true, (df_queued _ _ _ H). split.
    + intros [?|(y & r' & ? & ?)]; [exists x, r; set_solver|exists y, r'; set_solver].
    + intros (y & r' & [->%elem_of_singleton|Hy]%elem_of_union & Hr' & Hst); [left; congruence|right; eauto].
Qed.

Lemma dfs_done seen queued : dfs [] seen queued → bucket_of m root (if queued then BucketQueued else BucketFinished).
Proof.
  intros H. assert (∀ x, rtc (up m) x root → x ∈ seen) as Hall.
  { apply rtc_ind_l.
    - destruct (df_root _ _ _ H) as [?|?]; [done|set_solver].
    - intros x p Hup _ Hp. destruct (df_closed _ _ _ H x p Hp Hup); [done|set_solver]. }
  assert (∀ x r, rtc (up m) x root ∧ tree_row m x = Some r → running (tr_state r) = false) as Hidle.
  { intros x r [Hx Hr]. eapply (df_idle _ _ _ H); [by apply Hall|done]. }
  destruct queued.
  - split; [done|]. destruct (proj1 (df_queued _ _ _ H) eq_refl) as (x & r & Hx & Hr & Hst).
    exists x, r. split; [|done]. split; [|done]. apply (df_below _ _ _ H). by left.
  - intros x r [Hx Hr]. specialize (Hidle x r (conj Hx Hr)).
    assert (tr_state r ≠ Pending) as Hne.
    { intros Hst. assert (false = true); [|done]. apply (df_queued _ _ _ H). exists x, r. split; [by apply Hall|done]. }
    by destruct (tr_state r).
Qed.

Lemma family_loop_spec fuel pending seen queued : dfs pending seen queued →
  (length pending + length (waiting m seen) ≤ fuel)%nat →
  ∃ b, family_loop fuel m pending seen queued = Ok b ∧ bucket_of m root b.
Proof.
  revert pending seen queued. induction fuel as [|fuel IH]; intros [|x pending] seen queued H Hf; simpl in *;
    [eauto using dfs_done|lia|eauto using dfs_done|].
  assert (x ∉ seen) as Hx by (apply (df_fresh _ _ _ H); set_solver).
  destruct (df_below _ _ _ H x) as [Hb [r Hr]]; [set_solver|].
  assert (size ({[x]} ∪ seen) ≤ length (tm_rows m))%nat as Hsz.
  { rewrite <-(length_fmap tr_job_id), <-(size_list_to_set (C := gset DurableId)) by apply (fo_ids _ Hm).
    apply subseteq_size. intros y Hy. apply elem_of_list_to_set.
    destruct (df_below _ _ _ H y) as [_ [r' [Hr' <-]%(fo_row _ Hm)]]; [set_solver|]. by apply list_elem_of_fmap_2. }
  pose proof (fo_bound _ Hm) as Hbound. rewrite (bool_decide_eq_false_2 (x ∈ seen)), bool_decide_eq_false_2 by (done || lia).
  simpl. unfold row. rewrite Hr. simpl.
  destruct (running (tr_state r)) eqn:Hrun.
  { exists BucketRunning. split; [by destruct (tr_state r)|]. exists x, r. done. }
  pose proof (dfs_push _ _ _ _ _ H Hr Hrun) as Hpush.
  assert (length (rev (children m x) ++ pending) + length (waiting m ({[x]} ∪ seen)) ≤ fuel)%nat as Hfuel.
  { rewrite length_app, length_rev. pose proof (waiting_step m Hm seen x Hx). lia. }
  destruct (tr_state r); try done; by apply (IH _ _ _ Hpush).
Qed.
End family.

Lemma family_bucket_spec m root : forest m → is_Some (tree_row m root) →
  ∃ b, family_bucket m root = Ok b ∧ bucket_of m root b.
Proof.
  intros Hm Hroot. unfold family_bucket. apply family_loop_spec; [done..|by apply dfs_start|]. simpl.
  unfold waiting. pose proof (length_filter (waits m ∅) (tr_job_id <$> tm_rows m)) as Hl. rewrite length_fmap in Hl. lia.
Qed.


(** ** Order of the roots *)
#[global] Instance root_le_trans m : Transitive (root_le m).
Proof.
  intros a b c. unfold root_le. intros [H1|[H1 H1']] [H2|[H2 H2']]; [left; lia..|].
  right. split; [lia|]. by etrans.
Qed.
#[global] Instance root_le_total m : Total (root_le m).
Proof.
  intros a b. unfold root_le. destruct (N.lt_trichotomy (root_key m a).1 (root_key m b).1) as [?|[?|?]]; [by left; left| |by right; left].
  destruct (total lex_le (root_key m a).2 (root_key m b).2); [right|left]; right; done.
Qed.

(** The visible roots with their buckets, most urgent first and then newest first. *)
Lemma ordered_roots_spec m sel : forest m → ∃ ordered, ordered_roots m sel = Ok ordered ∧
  StronglySorted (root_le m) ordered ∧ NoDup ordered.*1 ∧
  (∀ id, id ∈ ordered.*1 ↔ id ∈ tm_roots m ∧ id ∈ sn_visible sel) ∧
  Forall (λ p, family_bucket m p.1 = Ok p.2 ∧ bucket_of m p.1 p.2) ordered.
Proof.
  intros Hm. unfold ordered_roots.
  set (visible := List.filter (λ root, bool_decide (root ∈ sn_visible sel)) (tm_roots m)).
  assert (∀ id, id ∈ visible ↔ id ∈ tm_roots m ∧ id ∈ sn_visible sel) as Hvis.
  { intros id. unfold visible. rewrite !list_elem_of_In, filter_In, bool_decide_eq_true. done. }
  assert (NoDup visible) as Hnd.
  { apply NoDup_ListNoDup, List.NoDup_filter, NoDup_ListNoDup, (fo_roots_NoDup _ Hm). }
  assert (∃ l, result_mapM (λ root, bucket ← family_bucket m root; Ok (root, bucket)) visible = Ok l ∧
    l.*1 = visible ∧ Forall (λ p, family_bucket m p.1 = Ok p.2 ∧ bucket_of m p.1 p.2) l) as (l & -> & Hl & Hall).
  { assert (∀ id, id ∈ visible → is_Some (tree_row m id)) as Hrow by (intros id Hid; by apply (fo_roots _ Hm), Hvis).
    clear Hvis Hnd. induction visible as [|id visible IH]; [by exists []|]. simpl.
    destruct (family_bucket_spec m id) as (b & Hb & Hof); [done|apply Hrow; set_solver|]. rewrite Hb. simpl.
    destruct IH as (l & -> & Hl & Hall); [set_solver|]. simpl. eexists. split; [done|].
    split; [by rewrite fmap_cons, Hl|]. by constructor. }
  simpl. eexists. split; [done|]. split_and!.
  - apply sort_by_sorted; apply _.
  - rewrite sort_by_Permutation, Hl. done.
  - intros id. rewrite sort_by_Permutation, Hl. apply Hvis.
  - by rewrite sort_by_Permutation.
Qed.
