(* ===== verification/TreePages.v ===== *)
(** * TreePages: what a page of a tree shows and how the rest is reached

    A page holds the selected families in preorder.  A node whose children do not all
    follow names the first one that is missing, so that a client which follows the
    cursors meets every selected job. *)
From S2P Require Import Prelude Spec Validate Kernel Scoped Observation Machine MachineStore Reservation.
From S2P Require Import Native Policy ManagedWait Submission Text Views ViewFacts Trees TreeFacts.

Lemma alter_middle {A} (f : A → A) pre x rest : alter f (length pre) (pre ++ x :: rest) = pre ++ f x :: rest.
Proof. induction pre as [|y pre IH]; [done|]. simpl. by f_equal. Qed.

Lemma map_alter_same {A B} (g : A → B) (f : A → A) i l : (∀ x, g (f x) = g x) → map g (alter f i l) = map g l.
Proof. intros Hg. revert i. induction l as [|x l IH]; intros [|i]; simpl; [done|done|by rewrite Hg|f_equal; apply IH]. Qed.

Section emission.
Context (store : Uuid) {Summary : Type} (job_summary : DurableId → result StoreError Summary).
Context (node_len : JobTreeNode Summary → N).
Context (m : TreeModel) (sel : Selection) (limit : option N) (node_limit : nat) (token : string).
Notation Node := (JobTreeNode Summary).
Notation Block := (list (DurableId * Node)).
Implicit Types (id : DurableId) (e : Emission (Summary:=Summary)).

Notation kids := (eligible_children m sel).

(** The node of a job before its children are looked at. *)
Definition base_node (depth : N) id : result StoreError Node :=
  r ← row m id;
  summary ← job_summary id;
  attention ← (if bool_decide (depth = 0) then bucket ← family_bucket m id; Ok (Some bucket) else Ok None);
  Ok {| jn_summary := summary; jn_depth := depth; jn_family_attention := attention;
        jn_context_only := negb (bool_decide (id ∈ sn_selected_content sel));
        jn_parent_retained := (λ parent, bool_decide (is_Some (tm_by_id m !! parent))) <$> tr_parent_id r;
        jn_has_children := negb (bool_decide (kids id = []));
        jn_descendants_truncated := false; jn_next_children_cursor := None |}.

(** The node of a job whose first [k] eligible children are shown. *)
Definition cut id (k : nat) (n : Node) : Node :=
  match kids id !! k ≫= tree_row m with
  | Some r => n <| jn_descendants_truncated := true |>
                <| jn_next_children_cursor := Some (child_cursor store token id r) |>
  | None => n
  end.

(** Why the children from [child] on are missing: the page is full, or the child lies
    beyond the selected or the requested depth. *)
Definition missing (full : bool) (depth : N) (child : DurableId) : Prop :=
  full = true ∨ child ∉ sn_visible sel ∨ ∃ l, limit = Some l ∧ l ≤ depth.

(** The nodes that show a job and its family in preorder. *)
Inductive shown (full : bool) : N → DurableId → Block → Prop :=
| shown_job depth id k n rest :
    base_node depth id = Ok n →
    shown_all full (depth + 1) (take k (kids id)) rest →
    (∀ child, kids id !! k = Some child → missing full depth child) →
    shown full depth id ((id, cut id k n) :: rest)
with shown_all (full : bool) : N → list DurableId → Block → Prop :=
| shown_nil depth : shown_all full depth [] []
| shown_cons depth id ids block rest :
    shown full depth id block → shown_all full depth ids rest → shown_all full depth (id :: ids) (block ++ rest).

Scheme shown_ind' := Induction for shown Sort Prop
with shown_all_ind' := Induction for shown_all Sort Prop.
Combined Scheme shown_mutind from shown_ind', shown_all_ind'.

Lemma shown_full full :
  (∀ depth id block, shown full depth id block → shown true depth id block) ∧
  (∀ depth ids rest, shown_all full depth ids rest → shown_all true depth ids rest).
Proof.
  apply (shown_mutind full (λ depth id block _, shown true depth id block) (λ depth ids rest _, shown_all true depth ids rest)).
  - intros depth id k n rest Hn _ IH Hm. econstructor; [done..|]. intros child Hc. by left.
  - intros depth. constructor.
  - intros depth id ids block rest _ IH1 _ IH2. by constructor.
Qed.

Lemma shown_all_app full depth ids ids' rest rest' :
  shown_all full depth ids rest → shown_all full depth ids' rest' → shown_all full depth (ids ++ ids') (rest ++ rest').
Proof.
  induction 1 as [|depth id ids block rest Hb Hr IH]; [done|]. intros H'. simpl. rewrite <-(assoc_L (++)).
  constructor; [done|]. by apply IH.
Qed.

Lemma shown_all_one full depth id block : shown full depth id block → shown_all full depth [id] block.
Proof. intros H. rewrite <-(app_nil_r block). constructor; [done|constructor]. Qed.

(** Each entry of a block: its first children are there too, and it names the next. *)
Lemma shown_entries full :
  (∀ depth id block, shown full depth id block → id ∈ block.*1 ∧
    ∀ x n, (x, n) ∈ block → ∃ d k n0, base_node d x = Ok n0 ∧ n = cut x k n0 ∧ ∀ c, c ∈ take k (kids x) → c ∈ block.*1) ∧
  (∀ depth ids block, shown_all full depth ids block → (∀ id, id ∈ ids → id ∈ block.*1) ∧
    ∀ x n, (x, n) ∈ block → ∃ d k n0, base_node d x = Ok n0 ∧ n = cut x k n0 ∧ ∀ c, c ∈ take k (kids x) → c ∈ block.*1).
Proof using Type.
  clear node_len. apply (shown_mutind full
    (λ _ id block _, id ∈ block.*1 ∧
      ∀ x n, (x, n) ∈ block → ∃ d k n0, base_node d x = Ok n0 ∧ n = cut x k n0 ∧ ∀ c, c ∈ take k (kids x) → c ∈ block.*1)
    (λ _ ids block _, (∀ id, id ∈ ids → id ∈ block.*1) ∧
      ∀ x n, (x, n) ∈ block → ∃ d k n0, base_node d x = Ok n0 ∧ n = cut x k n0 ∧ ∀ c, c ∈ take k (kids x) → c ∈ block.*1)).
  - intros depth id k n rest Hn _ [IH1 IH2] _. simpl. split; [by left|].
    intros x y [[= -> ->]|Hin]%elem_of_cons.
    + exists depth, k, n. split_and!; [done|done|]. intros c Hc. apply elem_of_cons. right. by apply IH1.
    + destruct (IH2 x y Hin) as (d & k' & n0 & ? & ? & Hc). exists d, k', n0. split_and!; [done|done|].
      intros c Hc'. apply elem_of_cons. right. by apply Hc.
  - intros depth. split; [intros id Hin|intros x n Hin]; by apply not_elem_of_nil in Hin.
  - intros depth id ids block rest _ [IH1 IH2] _ [IH3 IH4]. rewrite fmap_app. split.
    + intros x [->|Hx]%elem_of_cons; apply elem_of_app; [by left|right; by apply IH3].
    + intros x y [Hin|Hin]%elem_of_app; [destruct (IH2 x y Hin) as (d & k' & n0 & ? & ? & Hc)
        |destruct (IH4 x y Hin) as (d & k' & n0 & ? & ? & Hc)]; exists d, k', n0; (split_and!; [done|done|]);
        intros c Hc'; apply elem_of_app; [left|right]; by apply Hc.
Qed.

(** ** The recursive emission shows a block *)
Definition emits (depth : N) id e (out : EmitOutcome * Emission (Summary:=Summary)) : Prop :=
  let '(o, e') := out in
  (eo_emitted o = false ∧ eo_page_full o = true ∧ e' = e) ∨
  (eo_emitted o = true ∧ ∃ block, shown (eo_page_full o) depth id block ∧ e'.1 = e.1 ++ block.*2 ∧
    (length e'.1 ≤ node_limit)%nat).

Lemma truncate_at_spec id next r pre (n : Node) rest : tree_row m next = Some r →
  truncate_at store m token (length pre) id next (pre ++ n :: rest) =
  Ok (pre ++ (n <| jn_descendants_truncated := true |>
                <| jn_next_children_cursor := Some (child_cursor store token id r) |>) :: rest).
Proof. intros Hr. unfold truncate_at, row. rewrite Hr. simpl. by rewrite alter_middle. Qed.

Hypothesis Hm : forest m.

Lemma kids_up id child : child ∈ kids id → up m child id ∧ child ∈ sn_eligible sel.
Proof.
  unfold eligible_children. rewrite list_elem_of_In, filter_In, bool_decide_eq_true, <-list_elem_of_In.
  by rewrite (child_up _ _ _ Hm).
Qed.
Lemma kids_row id child : child ∈ kids id → is_Some (tree_row m child).
Proof. intros [Hup _]%kids_up. by eapply up_row. Qed.

Lemma cut_at id k child r n : kids id !! k = Some child → tree_row m child = Some r →
  cut id k n = n <| jn_descendants_truncated := true |>
                 <| jn_next_children_cursor := Some (child_cursor store token id r) |>.
Proof. intros Hk Hr. unfold cut. rewrite Hk. simpl. by rewrite Hr. Qed.
Lemma cut_end id k n : (length (kids id) ≤ k)%nat → cut id k n = n.
Proof. intros Hk. unfold cut. by rewrite (proj2 (lookup_ge_None _ _)). Qed.

Lemma emit_children_spec emit id depth pre (n : Node) done todo (rest : Block) e o e' :
  (∀ child e out, child ∈ todo → emit child e = Ok out → (length e.1 ≤ node_limit)%nat → emits (depth + 1) child e out) →
  kids id = done ++ todo → e.1 = pre ++ n :: rest.*2 → (length e.1 ≤ node_limit)%nat →
  base_node depth id = Ok n → shown_all false (depth + 1) done rest →
  emit_children store m sel limit node_limit token emit id depth (length pre) todo e = Ok (o, e') →
  eo_emitted o = true ∧ ∃ block, shown (eo_page_full o) depth id block ∧ e'.1 = pre ++ block.*2 ∧
    (length e'.1 ≤ node_limit)%nat.
Proof.
  intros Hemit Hkids He Hlen Hn Hshown. revert done rest e Hkids He Hlen Hshown.
  induction todo as [|child todo IH]; intros done rest e Hkids He Hlen Hshown Hrun; simpl in Hrun.
  { injection Hrun as <- <-. split; [done|]. exists ((id, cut id (length done) n) :: rest). simpl.
    rewrite app_nil_r in Hkids. rewrite cut_end by (by rewrite Hkids). split_and!; [|done|done].
    rewrite <-(cut_end id (length done) n) by (by rewrite Hkids). econstructor; [done|..].
    - by rewrite Hkids, take_ge by done.
    - intros c Hc. apply lookup_lt_Some in Hc. rewrite Hkids in Hc. lia. }
  assert (kids id !! length done = Some child) as Hat by (rewrite Hkids, lookup_app_r, Nat.sub_diag by done; done).
  assert (take (length done) (kids id) = done) as Htake by (by rewrite Hkids, take_app_length).
  destruct (kids_row id child) as [r Hr]; [rewrite Hkids; set_solver|].
  (* the block that stops before [child] *)
  assert (∀ full, missing full depth child → shown full depth id ((id, cut id (length done) n) :: rest)) as Hstop.
  { intros full Hmiss. econstructor; [done| |].
    - rewrite Htake. destruct full; [by apply (shown_full false)|done].
    - intros c Hc. by rewrite Hat in Hc; injection Hc as <-. }
  destruct (negb _ || _) eqn:Hbeyond.
  { rewrite He, (truncate_at_spec _ _ r) in Hrun by done. simpl in Hrun. injection Hrun as <- <-. split; [done|].
    eexists. split; [apply Hstop|]. 2: { simpl. rewrite (cut_at _ _ child r) by done. split; [done|].
      rewrite He, !length_app in *. simpl in *. lia. }
    right. apply orb_true_iff in Hbeyond as [Hv|Hl]; [left; by apply negb_true_iff, bool_decide_eq_false in Hv|].
    right. destruct limit as [l|]; [|done]. apply bool_decide_eq_true in Hl. eauto. }
  case_bool_decide as Hfull.
  { rewrite He, (truncate_at_spec _ _ r) in Hrun by done. simpl in Hrun. injection Hrun as <- <-. split; [done|].
    eexists. split; [by apply Hstop; left|]. simpl. rewrite (cut_at _ _ child r) by done. split; [done|].
    rewrite He, !length_app in *. simpl in *. lia. }
  apply result_bind_Ok in Hrun as ([o1 e1] & He1 & Hrun).
  apply Hemit in He1; [|set_solver|lia].
  destruct He1 as [(Hem & Hpf & ->)|(Hem & block & Hblock & Happ & Hlen1)]; rewrite Hem in Hrun.
  { rewrite Hpf, He, (truncate_at_spec _ _ r) in Hrun by done. simpl in Hrun. injection Hrun as <- <-. split; [done|].
    eexists. split; [by apply Hstop; left|]. simpl. rewrite (cut_at _ _ child r) by done. split; [done|].
    rewrite He, !length_app in *. simpl in *. lia. }
  assert (kids id = (done ++ [child]) ++ todo) as Hkids' by (by rewrite Hkids, <-(assoc_L (++))).
  assert (e1.1 = pre ++ n :: (rest ++ block).*2) as He1' by (by rewrite Happ, He, fmap_app, <-(assoc_L (++))).
  destruct (eo_page_full o1) eqn:Hpf.
  - assert (take (length (done ++ [child])) (kids id) = done ++ [child]) as Htake' by (by rewrite Hkids', take_app_length).
    assert (shown true depth id ((id, cut id (length (done ++ [child])) n) :: rest ++ block)) as Hall.
    { econstructor; [done| |by left]. rewrite Htake'. apply shown_all_app; [by apply (shown_full false)|by apply shown_all_one]. }
    destruct todo as [|next todo]; simpl in Hrun.
    + injection Hrun as <- <-. split; [done|]. eexists. split; [done|]. simpl.
      rewrite cut_end by (by rewrite Hkids', app_nil_r). done.
    + assert (kids id !! length (done ++ [child]) = Some next) as Hat' by (rewrite Hkids', lookup_app_r, Nat.sub_diag by done; done).
      destruct (kids_row id next) as [r' Hr']; [rewrite Hkids; set_solver|].
      rewrite He1', (truncate_at_spec _ _ r') in Hrun by done. simpl in Hrun. injection Hrun as <- <-. split; [done|].
      eexists. split; [done|]. simpl. rewrite (cut_at _ _ next r') by done. split; [done|].
      rewrite He1', !length_app in *. simpl in *. lia.
  - eapply (IH ltac:(intros; eapply Hemit; [set_solver|done..]) (done ++ [child]) (rest ++ block) e1); [done..| |done].
    apply shown_all_app; [done|by apply shown_all_one].
Qed.

Lemma emit_node_unfold fuel depth id e :
  emit_node store job_summary node_len m sel limit node_limit token (S fuel) depth id e =
  (if bool_decide (node_limit ≤ length e.1)%nat then Ok ({| eo_emitted := false; eo_page_full := true |}, e)
   else
     node ← base_node depth id;
     let cost := saturating_add (saturating_add (node_len node) (len token)) 512 in
     if bool_decide (NODE_BUDGET < saturating_add e.2 cost) then
       match e.1 with
       | [] => Err (EViewUnavailable "tree_response_limit: one bounded tree node exceeds the encoded response budget")
       | _ => Ok ({| eo_emitted := false; eo_page_full := true |}, e)
       end
     else
       emit_children store m sel limit node_limit token
         (emit_node store job_summary node_len m sel limit node_limit token fuel (depth + 1))
         id depth (length e.1) (kids id) (e.1 ++ [node], saturating_add e.2 cost)).
Proof.
  simpl. unfold base_node. case_bool_decide; [done|]. destruct (row m id); simpl; [|done].
  destruct (job_summary id); simpl; [|done]. by destruct (if bool_decide (depth = 0) then _ else _).
Qed.

Lemma emit_node_spec fuel depth id e out :
  emit_node store job_summary node_len m sel limit node_limit token fuel depth id e = Ok out →
  (length e.1 ≤ node_limit)%nat → emits depth id e out.
Proof.
  revert depth id e out. induction fuel as [|fuel IH]; intros depth id e [o e'] Hrun Hlen; [done|].
  rewrite emit_node_unfold in Hrun. case_bool_decide as Hfull; [injection Hrun as <- <-; by left|].
  apply result_bind_Ok in Hrun as (n & Hn & Hrun). simpl in Hrun.
  case_bool_decide; [destruct (e.1) eqn:E; [done|]; injection Hrun as <- <-; by left|].
  right. eapply (emit_children_spec _ id depth e.1 n [] (kids id) []) in Hrun; [done| |done|done| |done|constructor].
  - intros child e1 out _ Hout Hlen1. by eapply IH.
  - simpl. rewrite length_app. simpl. lia.
Qed.

Lemma emit_children_emitted emit id depth i todo e o e' :
  emit_children store m sel limit node_limit token emit id depth i todo e = Ok (o, e') → eo_emitted o = true.
Proof.
  revert e. induction todo as [|child todo IH]; intros e H; simpl in H; [by injection H as <- <-|].
  destruct (negb _ || _); [apply result_bind_Ok in H as (? & _ & H); by injection H as <- <-|].
  case_bool_decide; [apply result_bind_Ok in H as (? & _ & H); by injection H as <- <-|].
  apply result_bind_Ok in H as ([o1 e1] & _ & H). destruct (eo_page_full o1); [|by eapply IH].
  apply result_bind_Ok in H as (? & _ & H). by injection H as <- <-.
Qed.

(** The first node of a page is emitted or the page fails. *)
Lemma emit_node_first fuel depth id e o e' : (0 < node_limit)%nat → e.1 = [] →
  emit_node store job_summary node_len m sel limit node_limit token fuel depth id e = Ok (o, e') → eo_emitted o = true.
Proof.
  intros Hpos Hnil Hrun. destruct fuel as [|fuel]; [done|]. rewrite emit_node_unfold in Hrun. rewrite Hnil in Hrun.
  rewrite bool_decide_eq_false_2 in Hrun by (simpl; lia). apply result_bind_Ok in Hrun as (n & Hn & Hrun).
  cbv zeta in Hrun. case_bool_decide; [done|]. by eapply emit_children_emitted.
Qed.

(** ** Bytes *)
Definition uncut (n : Node) : Node := n <| jn_descendants_truncated := false |> <| jn_next_children_cursor := None |>.
Definition node_cost (n : Node) : N := node_len n + len token + 512.

(** The bytes reserved so far are those of the nodes before they were cut. *)
Definition accounted e : Prop := e.2 = sum_N (map (λ n, node_cost (uncut n)) e.1) ∧ e.2 ≤ NODE_BUDGET.

Lemma base_node_uncut depth id n : base_node depth id = Ok n → uncut n = n.
Proof.
  unfold base_node. intros H. apply result_bind_Ok in H as (r & _ & H). apply result_bind_Ok in H as (s & _ & H).
  apply result_bind_Ok in H as (a & _ & H). by injection H as <-.
Qed.
Lemma uncut_cut id k n : uncut (cut id k n) = uncut n.
Proof. unfold cut. by destruct (kids id !! k ≫= tree_row m). Qed.

Lemma node_budget_max : NODE_BUDGET < u64_max.
Proof. done. Qed.

(** Within the budget nothing saturates. *)
Lemma cost_exact (b : N) n :
  let cost := saturating_add b (saturating_add (saturating_add (node_len n) (len token)) 512) in
  (cost ≤ NODE_BUDGET → cost = b + node_cost n) ∧ cost ≤ b + node_cost n.
Proof.
  pose proof node_budget_max. unfold saturating_add, node_cost. revert H. generalize NODE_BUDGET u64_max. intros budget top H. simpl. lia.
Qed.

Lemma truncate_accounted i id next nodes nodes' b : accounted (nodes, b) →
  truncate_at store m token i id next nodes = Ok nodes' → accounted (nodes', b).
Proof.
  unfold truncate_at. intros [Hb Hle] H. apply result_bind_Ok in H as (r & _ & H). injection H as <-.
  split; [|done]. cbn [fst snd] in *. by rewrite map_alter_same.
Qed.

Lemma emit_children_accounted emit id depth i todo e out :
  (∀ child e out, emit child e = Ok out → accounted e → accounted out.2) → accounted e →
  emit_children store m sel limit node_limit token emit id depth i todo e = Ok out → accounted out.2.
Proof.
  intros Hemit. revert e. induction todo as [|child todo IH]; intros e He H; simpl in H; [by injection H as <-|].
  destruct (negb _ || _).
  { apply result_bind_Ok in H as (nodes & Ht & H). injection H as <-. destruct e. by eapply truncate_accounted. }
  case_bool_decide.
  { apply result_bind_Ok in H as (nodes & Ht & H). injection H as <-. destruct e. by eapply truncate_accounted. }
  apply result_bind_Ok in H as ([o e1] & He1 & H). apply Hemit in He1; [|done]. simpl in He1.
  destruct (eo_page_full o); [|by eapply IH].
  apply result_bind_Ok in H as (nodes & Ht & H). injection H as <-. destruct e1.
  destruct (if eo_emitted o then _ else _); [by eapply truncate_accounted|by injection Ht as <-].
Qed.

Lemma accounted_push e n : accounted e → uncut n = n →
  let cost := saturating_add (saturating_add (node_len n) (len token)) 512 in
  saturating_add e.2 cost ≤ NODE_BUDGET → accounted (e.1 ++ [n], saturating_add e.2 cost).
Proof.
  intros [He1 He2] Hn cost Hb. destruct (cost_exact e.2 n) as [Hexact _]. split; [|done]. cbn [fst snd].
  fold cost in Hexact. rewrite (Hexact Hb), map_app, sum_N_app, <-He1. simpl. rewrite Hn. lia.
Qed.

Lemma emit_node_accounted fuel depth id e out :
  emit_node store job_summary node_len m sel limit node_limit token fuel depth id e = Ok out →
  accounted e → accounted out.2.
Proof.
  revert depth id e out. induction fuel as [|fuel IH]; intros depth id e out H He; [done|].
  rewrite emit_node_unfold in H. case_bool_decide; [by injection H as <-|].
  apply result_bind_Ok in H as (n & Hn & H). cbv zeta in H.
  case_bool_decide as Hb; [destruct (e.1); [done|by injection H as <-]|].
  eapply emit_children_accounted; [|..|exact H]; [intros child e1 out1; apply IH|].
  apply accounted_push; [done|by eapply base_node_uncut|]. lia.
Qed.

(** ** Emission of a forest does not fail *)
Record emittable : Prop := {
  em_summary : ∀ id, is_Some (tree_row m id) → ∃ summary, job_summary id = Ok summary;
  em_small : ∀ depth id n, base_node depth id = Ok n → node_cost n ≤ NODE_BUDGET;
}.

Lemma base_node_total depth id : emittable → is_Some (tree_row m id) → ∃ n, base_node depth id = Ok n.
Proof.
  intros He [r Hr]. unfold base_node, row. rewrite Hr. simpl.
  destruct (em_summary He id) as [s ->]; [eauto|]. simpl.
  destruct (bool_decide (depth = 0)); [|simpl; by eexists].
  destruct (family_bucket_spec m id) as (b & -> & _); [done|by exists r|]. simpl. by eexists.
Qed.

Lemma emit_children_total emit id depth i todo e :
  (∀ child e, child ∈ todo → accounted e → ∃ out, emit child e = Ok out ∧ accounted out.2) →
  (∀ child, child ∈ todo → is_Some (tree_row m child)) → accounted e →
  ∃ out, emit_children store m sel limit node_limit token emit id depth i todo e = Ok out.
Proof.
  intros Hemit Hrow. revert e. induction todo as [|child todo IH]; intros e He; simpl; [eauto|].
  assert (∀ x nodes, x ∈ child :: todo → ∃ nodes', truncate_at (Summary:=Summary) store m token i id x nodes = Ok nodes') as Htr.
  { intros x nodes Hx. unfold truncate_at, row. destruct (Hrow x Hx) as [r ->]. by eexists. }
  destruct (negb _ || _); [destruct (Htr child e.1) as [? ->]; [set_solver|by eexists]|].
  case_bool_decide; [destruct (Htr child e.1) as [? ->]; [set_solver|by eexists]|].
  destruct (Hemit child e) as ([o e1] & -> & He1); [set_solver|done|]. simpl in *.
  destruct (eo_page_full o).
  - destruct (eo_emitted o); [destruct todo as [|next todo]; simpl|simpl]; [by eexists|..];
      (edestruct Htr as [? ->]; [|by eexists]); set_solver.
  - apply IH; [intros; apply Hemit; [set_solver|done]|intros; apply Hrow; set_solver|done].
Qed.

Lemma emit_node_total fuel depth id n e : emittable → chain m id n → (n ≤ 64)%nat → (65 ≤ fuel + n)%nat →
  is_Some (tree_row m id) → accounted e →
  ∃ out, emit_node store job_summary node_len m sel limit node_limit token fuel depth id e = Ok out ∧ accounted out.2.
Proof.
  intros Hem. revert depth id n e. induction fuel as [|fuel IH]; intros depth id n e Hc Hn Hf Hr He; [lia|].
  enough (∃ out, emit_node store job_summary node_len m sel limit node_limit token (S fuel) depth id e = Ok out) as [out Hout].
  { exists out. split; [done|]. by eapply emit_node_accounted. }
  rewrite emit_node_unfold. case_bool_decide; [by eexists|].
  destruct (base_node_total depth id Hem Hr) as [node Hnode]. rewrite Hnode. cbv zeta. cbn [mbind result_bind].
  pose proof (em_small Hem _ _ _ Hnode) as Hsmall. destruct (cost_exact e.2 node) as [_ Hcost]. cbv zeta in Hcost.
  case_bool_decide as Hb.
  { destruct (e.1) eqn:E; [|by eexists]. exfalso. destruct He as [He _]. rewrite E in He. simpl in He. lia. }
  apply emit_children_total.
  - intros child e1 Hchild He1. pose proof (kids_up _ _ Hchild) as [Hup _].
    destruct (fo_chain _ Hm child) as (k & Hk & Hck); [by eapply kids_row|].
    assert (k = S n) as -> by (eapply chain_fun; [done|by econstructor]).
    eapply (IH _ child (S n)); [done|done|lia|by eapply kids_row|done].
  - intros child Hchild. by eapply kids_row.
  - apply accounted_push; [done|by eapply base_node_uncut|]. lia.
Qed.
End emission.
