(* ===== verification/TreeViews.v ===== *)
(** * TreeViews: requests for trees

    The selector inside a cursor reads back; a page of roots or of children shows
    whole families in preorder; and a client that follows every cursor is served
    every selected job. *)
From S2P Require Import Prelude Spec Validate Kernel Scoped Observation Machine MachineStore Reservation.
From S2P Require Import Native Policy ManagedWait Submission Text Views ViewFacts Trees TreeFacts TreePages.

(** ** Hexadecimal text reads back *)
Lemma below_16 (P : N → Prop) : Forall P (map N.of_nat (seq 0 16)) → ∀ n, n < 16 → P n.
Proof.
  intros H n Hn. rewrite Forall_forall in H. apply H. apply list_elem_of_fmap. exists (N.to_nat n).
  split; [lia|]. apply elem_of_seq. lia.
Qed.
Lemma hex_digit_value n : n < 16 → digit_value (hex_digit n) = Some n.
Proof. apply (below_16 (λ n, digit_value (hex_digit n) = Some n)). refine (bool_decide_unpack _ _). vm_compute. exact I. Qed.
Lemma hex_digit_plain n : n < 16 →
  is_continuation (hex_digit n) = false ∧ N_of_ascii (hex_digit n) ≠ 43 ∧ N_of_ascii (hex_digit n) ≠ 58.
Proof.
  apply (below_16 (λ n, is_continuation (hex_digit n) = false ∧ N_of_ascii (hex_digit n) ≠ 43 ∧ N_of_ascii (hex_digit n) ≠ 58)).
  refine (bool_decide_unpack _ _). vm_compute. exact I.
Qed.

Lemma ascii_nibbles c : N_of_ascii c / 16 < 16 ∧ N_of_ascii c mod 16 < 16.
Proof. pose proof (Ascii.N_ascii_bounded c). split; [apply N.Div0.div_lt_upper_bound|apply N.mod_lt]; lia. Qed.

Lemma unhex_from_hex s : unhex_from (hex s) = Ok s.
Proof.
  induction s as [|c s IH]; [done|]. destruct (ascii_nibbles c) as [Hhi Hlo].
  simpl. destruct (hex_digit_plain _ Hhi) as (Hc1 & Hp1 & _). rewrite Hc1.
  assert ((match hex s with String c _ => is_continuation c | EmptyString => false end) = false) as ->.
  { destruct s as [|d s]; [done|]. simpl. by apply hex_digit_plain, ascii_nibbles. }
  simpl. unfold from_str_radix. rewrite bool_decide_eq_false_2 by done.
  rewrite !hex_digit_value by done. simpl. rewrite IH. simpl.
  rewrite <-N.div_mod', Ascii.ascii_N_embedding. done.
Qed.

Lemma len_hex s : len (hex s) = 2 * len s.
Proof. unfold len. induction s as [|c s IH]; [done|]. simpl String.length. lia. Qed.

Lemma unhex_hex s : unhex (hex s) = Ok s.
Proof.
  unfold unhex. rewrite len_hex, N.mul_comm, N.Div0.mod_mul. simpl. apply unhex_from_hex.
Qed.

Lemma split_colon_hex a b : split_colon (hex a +:+ String (Ascii.ascii_of_N 58) b) = Some (hex a, b).
Proof.
  induction a as [|c a IH]; [done|]. destruct (ascii_nibbles c) as [Hhi Hlo].
  cbn [hex]. rewrite !app_cons_s. cbn [split_colon].
  assert (∀ n, n < 16 → hex_digit n ≠ Ascii.ascii_of_N 58) as Hne.
  { intros n Hn Heq. destruct (hex_digit_plain n Hn) as (_ & _ & H). rewrite Heq in H. by apply H. }
  rewrite !decide_False by (by apply Hne). rewrite IH. done.
Qed.

(** ** Valid selectors *)
(** A loop that accepts an element when it satisfies [P] and its key is new. *)
Lemma distinct_loop {E A} `{Countable K} (f : gset K → A → result E (gset K)) (key : A → K) (P : A → Prop) l seen :
  (∀ s x s', f s x = Ok s' ↔ P x ∧ key x ∉ s ∧ s' = {[key x]} ∪ s) →
  (∃ s', result_foldM f seen l = Ok s') ↔ Forall P l ∧ NoDup (key <$> l) ∧ ∀ x, x ∈ l → key x ∉ seen.
Proof.
  intros Hf. revert seen. induction l as [|x l IH]; intros seen; simpl.
  - split; [intros _; split_and!; [constructor..|set_solver]|eauto].
  - rewrite Forall_cons, NoDup_cons. split.
    + intros [s' Hs]. apply result_bind_Ok in Hs as (s1 & (HP & Hx & ->)%Hf & Hs).
      destruct (proj1 (IH _) (ex_intro _ s' Hs)) as (HF & Hnd & Hout). split_and!; [done|done| |done|].
      * intros (y & Hy & Hin)%list_elem_of_fmap. apply (Hout y Hin). set_solver.
      * intros y [->|Hy]%elem_of_cons; [done|]. specialize (Hout y Hy). set_solver.
    + intros ([HP HF] & [Hx Hnd] & Hout). setoid_rewrite result_bind_Ok.
      destruct (proj2 (IH ({[key x]} ∪ seen))) as [s' Hs].
      { split_and!; [done..|]. intros y Hy. assert (key y ≠ key x); [|specialize (Hout y); set_solver].
        intros Heq. apply Hx. rewrite <-Heq. by apply list_elem_of_fmap_2. }
      exists s', ({[key x]} ∪ seen). split; [|done]. apply Hf. split_and!; [done|apply Hout; set_solver|done].
Qed.

Section selectors.
Context (store : Uuid) (uuid_to_string : Uuid → string).
Implicit Types (s : SubmitStore) (selector : JobSelector).

(** What validation asks of a selector of trees. *)
Definition selector_ok s selector : Prop :=
  match selector with
  | SelAll => True
  | SelJobs ids => ids ≠ [] ∧ (N.of_nat (length ids) ≤ 64) ∧ NoDup ids ∧
      Forall (λ id, store_uuid id = store ∧ is_Some (nv_jobs (sb_native s) !! entity_uuid id)) ids
  | SelBatch id => store_uuid id = store ∧ is_Some (sb_batches s !! entity_uuid id)
  | SelLabels labels => labels ≠ [] ∧ N.of_nat (length labels) ≤ 32 ∧ NoDup labels ∧
      Forall (λ l, label_invalid l = false) labels
  end.

Lemma validate_job_id_spec s seen x seen' : validate_job_id store uuid_to_string s seen x = Ok seen' ↔
  (store_uuid x = store ∧ is_Some (nv_jobs (sb_native s) !! entity_uuid x)) ∧ id x ∉ seen ∧ seen' = {[id x]} ∪ seen.
Proof.
  unfold validate_job_id, guard_err, id. destruct (decide (store_uuid x = store)) as [Hs|Hs].
  - rewrite (bool_decide_eq_false_2 (store_uuid x ≠ store)) by tauto. simpl. destruct (bool_decide (x ∈ seen)) eqn:Hx.
    { apply bool_decide_eq_true in Hx. split; [done|tauto]. }
    apply bool_decide_eq_false in Hx. simpl. destruct (nv_jobs (sb_native s) !! entity_uuid x); simpl.
    + split; [intros [= <-]; eauto|by intros (_ & _ & ->)].
    + split; [done|intros [[_ []%is_Some_None] _]].
  - rewrite (bool_decide_eq_true_2 (store_uuid x ≠ store)) by done. simpl. split; [done|tauto].
Qed.
Lemma validate_label_spec seen x seen' : validate_label seen x = Ok seen' ↔
  label_invalid x = false ∧ (label_key x, label_value x) ∉ seen ∧ seen' = {[(label_key x, label_value x)]} ∪ seen.
Proof.
  unfold validate_label, guard_err. destruct (label_invalid x); simpl; [split; [done|by intros []]|].
  case_bool_decide; simpl; [split; [done|tauto]|]. split; [by intros [= <-]|by intros (_ & _ & ->)].
Qed.

Lemma validate_tree_selector_spec s selector :
  validate_tree_selector store uuid_to_string s selector = Ok tt ↔ selector_ok s selector.
Proof.
  unfold validate_tree_selector. rewrite result_bind_Ok.
  destruct selector as [|ids|id|labels]; simpl.
  - split; [done|]. intros _. by exists tt.
  - pose proof (distinct_loop (validate_job_id store uuid_to_string s) id
      (λ id, store_uuid id = store ∧ is_Some (nv_jobs (sb_native s) !! entity_uuid id)) ids ∅) as Hloop.
    specialize (Hloop (validate_job_id_spec s)).
    rewrite list_fmap_id in Hloop. unfold guard_err, MAX_WAIT_STREAM_JOBS, TREE_SELECTOR_JOB_LIMIT.
    split.
    + intros ([] & H & Hlim). destruct (bool_decide (64 < _)) eqn:H64 in Hlim; [done|]. apply bool_decide_eq_false in H64.
      apply result_bind_Ok in H as ([] & Hg & H). destruct (bool_decide (ids = [])) eqn:Hnil in Hg; [done|].
      apply bool_decide_eq_false in Hnil. apply result_bind_Ok in H as (s' & H & _).
      destruct (proj1 Hloop) as (HF & Hnd & _); [eauto|]. split_and!; [done|lia|done|done].
    + intros (Hnil & Hlen & Hnd & HF). exists tt. rewrite !bool_decide_eq_false_2 by (done || lia). simpl.
      destruct (proj2 Hloop) as [s' ->]; [split_and!; [done..|set_solver]|]. done.
  - unfold guard_err. split.
    + intros ([] & H & _). apply result_bind_Ok in H as ([] & H1 & H2).
      destruct (decide (store_uuid id = store)); [|by rewrite bool_decide_eq_true_2 in H1].
      split; [done|]. by destruct (sb_batches s !! entity_uuid id); [eauto|].
    + intros [Hs [b Hb]]. exists tt. rewrite (bool_decide_eq_false_2 (store_uuid id ≠ store)) by tauto. rewrite Hb. done.
  - pose proof (distinct_loop validate_label (λ l, (label_key l, label_value l)) (λ l, label_invalid l = false) labels ∅) as Hloop.
    specialize (Hloop validate_label_spec).
    assert (NoDup ((λ l, (label_key l, label_value l)) <$> labels) ↔ NoDup labels) as Hnd'.
    { split; [apply NoDup_fmap_1|apply NoDup_fmap_2]. intros [] []. simpl. by intros [= -> ->]. }
    unfold guard_err. split.
    + intros ([] & H & _). apply result_bind_Ok in H as ([] & Hg & H).
      destruct (bool_decide (labels = [])) eqn:Hnil in Hg; [done|]. apply bool_decide_eq_false in Hnil.
      destruct (bool_decide (32 < _)) eqn:H32 in Hg; [done|]. apply bool_decide_eq_false in H32.
      apply result_bind_Ok in H as (s' & H & _).
      destruct (proj1 Hloop) as (HF & Hnd & _); [eauto|]. split_and!; [done|lia|by apply Hnd'|done].
    + intros (Hnil & Hlen & Hnd & HF). exists tt. rewrite !bool_decide_eq_false_2 by (done || lia). simpl.
      destruct (proj2 Hloop) as [s' ->]; [split_and!; [done|by apply Hnd'|set_solver]|]. done.
Qed.

#[local] Instance label_le_po : PartialOrder label_le.
Proof.
  unfold label_le. split; [split|].
  - by intros x.
  - intros x y z. apply transitivity.
  - intros [] [] H1 H2. simpl in *. by pose proof (anti_symm lex_le _ _ H1 H2) as [= -> ->].
Qed.
#[local] Instance label_le_total : Total label_le.
Proof. intros x y. unfold label_le. apply (total lex_le). Qed.

Lemma dedup_sort_Permutation {A} `{EqDecision A} (R : relation A) `{!RelDecision R, !PartialOrder R, !Total R} (l : list A) :
  NoDup l → dedup (sort_by R l) ≡ₚ l.
Proof.
  intros Hnd. destruct (dedup_sorted_NoDup R _ (sort_by_sorted R l)) as [_ Hd].
  apply NoDup_Permutation; [done..|]. intros x. by rewrite elem_of_dedup, elem_of_sort_by.
Qed.

Lemma normalize_selector_ok s selector : selector_ok s selector → selector_ok s (normalize_selector selector).
Proof.
  destruct selector as [|ids|id|labels]; cbn [normalize_selector selector_ok]; [done| |done|].
  - intros (Hnil & Hlen & Hnd & HF). pose proof (dedup_sort_Permutation btree_le ids Hnd) as Hp.
    split_and!; [|by rewrite Hp..]. intros H. rewrite H in Hp. apply Hnil. by apply Permutation_nil_l in Hp.
  - intros (Hnil & Hlen & Hnd & HF). pose proof (dedup_sort_Permutation label_le labels Hnd) as Hp.
    split_and!; [|by rewrite Hp..]. intros H. rewrite H in Hp. apply Hnil. by apply Permutation_nil_l in Hp.
Qed.
End selectors.

#[local] Arguments emit_node : simpl never.

Lemma sum_N_le {A} (f g : A → N) l : Forall (λ x, f x ≤ g x) l → sum_N (map f l) ≤ sum_N (map g l).
Proof. induction 1 as [|x l Hx _ IH]; [done|]. unfold sum_N in *. simpl. lia. Qed.

Section requests.
Context (store : Uuid) (uuid_to_string : Uuid → string).
Context {Summary : Type} (job_summary : DurableId → result StoreError Summary).
Context (selector_json : JobSelector → string) (parse_selector : string → option JobSelector) (sha256 : string → string).
Context (node_len : JobTreeNode Summary → N).
Context (page_len : JobTreePage Summary → N) (children_page_len : JobChildrenPage Summary → N).
Notation Node := (JobTreeNode Summary).
Notation tree := (tree_in_snapshot store uuid_to_string job_summary selector_json sha256 node_len page_len).
Notation tree_children :=
  (tree_children_in_snapshot store uuid_to_string job_summary parse_selector sha256 node_len children_page_len).
Notation token_of := (selector_token selector_json sha256).
Implicit Types (v : ViewStore) (selector : JobSelector) (m : TreeModel) (sel : Selection).

(** The selector inside a cursor reads back. *)
Lemma selector_token_reads_back selector : parse_selector (selector_json selector) = Some selector →
  selector_from_token parse_selector sha256 (token_of selector) = Ok selector.
Proof.
  intros Hp. unfold selector_from_token, selector_token. rewrite split_colon_hex. simpl. rewrite unhex_hex. simpl.
  rewrite bool_decide_eq_false_2 by tauto. simpl. by rewrite Hp.
Qed.

(** *** Pages of roots *)
Lemma emit_roots_spec m sel node_limit token roots emitted e emitted' e' : forest m → (0 < node_limit)%nat →
  (length e.1 ≤ node_limit)%nat →
  emit_roots store job_summary node_len m sel node_limit token roots emitted e = Ok (emitted', e') →
  ∃ j block, (j ≤ length roots)%nat ∧ emitted' = emitted ++ take j roots ∧ e'.1 = e.1 ++ block.*2 ∧
    (length e'.1 ≤ node_limit)%nat ∧ shown_all store job_summary m sel None token true 0 (take j roots).*1 block ∧
    (e.1 = [] → roots ≠ [] → 0 < j)%nat.
Proof.
  intros Hm Hpos. revert emitted e. induction roots as [|root roots IH]; intros emitted e Hlen Hrun; simpl in Hrun.
  { injection Hrun as <- <-. exists O, []. rewrite !app_nil_r. split_and!; [done..|constructor|done]. }
  case_bool_decide as Hfull.
  { injection Hrun as <- <-. exists O, []. rewrite !app_nil_r. split_and!; [lia|done..|constructor|].
    intros Hnil. rewrite Hnil in Hfull. simpl in Hfull. lia. }
  apply result_bind_Ok in Hrun as ([o e1] & He & Hrun).
  assert (e.1 = [] → eo_emitted o = true) as Hfirst by (intros Hnil; eapply emit_node_first, He; done).
  apply emit_node_spec in He as [(Hem & Hpf & ->)|(Hem & block & Hb & Happ & Hlen1)]; [| |done|done].
  - rewrite Hem, Hpf in Hrun. injection Hrun as <- <-. exists O, []. rewrite !app_nil_r.
    split_and!; [lia|done..|constructor|]. intros Hnil. by rewrite Hfirst in Hem.
  - rewrite Hem in Hrun. destruct (eo_page_full o).
    + injection Hrun as <- <-. exists 1%nat, block. simpl. rewrite take_0. split_and!; [lia|done..| |lia].
      by apply shown_all_one.
    + apply IH in Hrun as (j & block' & Hj & -> & Happ' & Hlen' & Hall & _); [|done].
      exists (S j), (block ++ block'). simpl. rewrite Happ', Happ, <-!(assoc_L (++)), fmap_app. split_and!; [lia|done|done| | |lia].
      * by rewrite Happ', Happ, <-!(assoc_L (++)) in Hlen'.
      * constructor; [|done]. by apply (shown_full _ _ _ _ _ _ false).
Qed.

Lemma emit_roots_total m sel node_limit token roots emitted e : forest m →
  emittable job_summary node_len m sel token → Forall (λ p : DurableId * TreeAttentionBucket, is_Some (tree_row m p.1)) roots →
  accounted node_len token e →
  ∃ out, emit_roots store job_summary node_len m sel node_limit token roots emitted e = Ok out ∧ accounted node_len token out.2.
Proof.
  intros Hm Hem Hrows. revert emitted e. induction Hrows as [|root roots Hr _ IH]; intros emitted e He; simpl; [eauto|].
  case_bool_decide; [eauto|]. destruct (fo_chain _ Hm root.1 Hr) as (n & Hn & Hc).
  destruct (emit_node_total store job_summary node_len m sel None node_limit token Hm EMIT_FUEL 0 root.1 n e)
    as ([o e1] & -> & He1); [done..|unfold EMIT_FUEL; lia|done|done|]. cbn [mbind result_bind].
  destruct (eo_page_full o); [by eexists|by apply IH].
Qed.

(** A model that loads is a forest with a row for every job. *)
Lemma loaded_forest v m : load_tree_model store (vw_store v) = Ok m →
  forest m ∧ ∀ id, is_Some (tree_row m id) ↔ store_uuid id = store ∧ is_Some (nv_jobs (sb_native (vw_store v)) !! entity_uuid id).
Proof.
  intros (-> & Hsize & Hval)%load_tree_model_spec. split.
  { apply build_forest; [apply tree_rows_NoDup|by rewrite tree_rows_length|done]. }
  split.
  - intros [r Hr]. apply build_row in Hr as [(j & Hj & Hr)%tree_rows_row <-]; [|apply tree_rows_NoDup].
    split; [|eauto]. by rewrite Hr.
  - intros [Hs [j Hj]]. exists (to_tree_row store (vw_store v) (entity_uuid id, j)). apply build_row; [apply tree_rows_NoDup|].
    split; [apply tree_rows_row; simpl; eauto|]. simpl. destruct id. simpl in *. by subst.
Qed.

Lemma valid_known v m selector : load_tree_model store (vw_store v) = Ok m →
  validate_tree_selector store uuid_to_string (vw_store v) selector = Ok tt → known_selector m (normalize_selector selector).
Proof.
  intros [_ Hrow]%loaded_forest Hsel. rewrite validate_tree_selector_spec in Hsel.
  apply normalize_selector_ok in Hsel. destruct (normalize_selector selector); try done. simpl in *.
  destruct Hsel as (_ & _ & _ & Hall). eapply Forall_impl; [done|]. intros id Hid. by apply Hrow.
Qed.

(** The cursor behind a root. *)
Definition root_cursor v m (token : string) (p : DurableId * TreeAttentionBucket) : option JobTreeRootCursor :=
  r ← tree_row m p.1;
  Some {| rc_store_uuid := store; rc_order_revision := vw_tree_order_revision v; rc_selector_hash := token;
          rc_bucket := p.2; rc_accepted_unix_millis := tr_accepted_ms r; rc_root_job_id := p.1 |}.

(** What a page of roots shows. *)
Record shows v selector (cursor : option JobTreeRootCursor) (node_limit : N) (max_depth : option N)
    (page : JobTreePage Summary) m sel (ordered : list (DurableId * TreeAttentionBucket)) (start j : nat)
    (block : list (DurableId * Node)) : Prop := {
  sw_model : load_tree_model store (vw_store v) = Ok m;
  sw_selection : select_nodes m (normalize_selector selector) (default 64 max_depth) = Ok sel;
  sw_ordered : ordered_roots m sel = Ok ordered;
  sw_start : start_of_roots m ordered cursor = Ok start;
  sw_roots : shown_all store job_summary m sel None (token_of (normalize_selector selector)) true 0
               (take j (drop start ordered)).*1 block;
  sw_nodes : jt_nodes page = block.*2;
  sw_limit : N.of_nat (length (jt_nodes page)) ≤ node_limit;
  sw_progress : (start < length ordered → 0 < j)%nat;
  sw_bound : (j ≤ length (drop start ordered))%nat;
  sw_next : jt_next_root_cursor page =
    if bool_decide (start + j < length ordered)%nat
    then ordered !! (start + j - 1)%nat ≫= root_cursor v m (token_of (normalize_selector selector)) else None;
}.

Lemma last_take_drop {A} (l : list A) i j : (0 < j)%nat → (i + j ≤ length l)%nat →
  last (take j (drop i l)) = l !! (i + j - 1)%nat.
Proof.
  intros Hj Hl. rewrite last_lookup, length_take, length_drop, lookup_take_lt by lia. rewrite lookup_drop. f_equal. lia.
Qed.

Lemma tree_page_spec v selector cursor root_limit node_limit max_depth page :
  tree v selector cursor root_limit node_limit max_depth = Ok page →
  ∃ m sel ordered start j block, shows v selector cursor node_limit max_depth page m sel ordered start j block.
Proof.
  unfold tree_in_snapshot. set (token := token_of _). intros H.
  apply result_bind_Ok in H as ([] & _ & H). apply result_bind_Ok in H as ([] & Hbounds & H).
  apply result_bind_Ok in H as ([] & _ & H). apply result_bind_Ok in H as (m & Hload & H).
  apply result_bind_Ok in H as (sel & Hsel & H). apply result_bind_Ok in H as (ordered & Hord & H).
  apply result_bind_Ok in H as (start & Hstart & H). apply result_bind_Ok in H as ([emitted [nodes b]] & Hemit & H).
  apply result_bind_Ok in H as (next & Hnext & H). apply result_bind_Ok in H as ([] & _ & H). injection H as <-.
  assert (1 ≤ root_limit ∧ 1 ≤ node_limit) as [Hrl Hnl].
  { unfold validate_tree_bounds, guard_err, MAX_TREE_PAGE_NODES in Hbounds.
    repeat case_bool_decide; simpl in Hbounds; try done; lia. }
  pose proof (proj1 (loaded_forest v m Hload)) as Hm.
  apply emit_roots_spec in Hemit as (j & block & Hj & -> & Happ & Hlen & Hall & Hpos); [|done|lia|simpl; lia].
  simpl in *. subst nodes. rewrite take_take in *.
  set (k := (j `min` N.to_nat root_limit)%nat) in *.
  assert (k ≤ length (drop start ordered))%nat as Hk by (rewrite length_take in Hj; unfold k; lia).
  assert (start < length ordered → 0 < k)%nat as Hprog.
  { intros Hlt. assert (0 < j)%nat; [|unfold k; lia]. apply Hpos; [done|].
    intros Hnil. apply (f_equal length) in Hnil. rewrite length_take, length_drop in Hnil. simpl in Hnil. lia. }
  exists m, sel, ordered, start, k, block. split; try done.
  - cbn [jt_nodes]. lia.
  - simpl. rewrite length_take in Hnext. rewrite (Nat.min_l k) in Hnext by done.
    unfold next_root_cursor in Hnext. case_bool_decide as Hmore; [|by injection Hnext as <-].
    rewrite length_drop in Hk. rewrite last_take_drop in Hnext by lia.
    destruct (ordered !! (start + k - 1)%nat) as [[id bucket]|]; [|by injection Hnext as <-]. simpl.
    unfold row in Hnext. unfold root_cursor. simpl. destruct (tree_row m id); [|done]. by injection Hnext as <-.
Qed.

(** *** Pages of children *)
Lemma emit_siblings_spec m sel limit node_limit token todo e remaining e' : forest m → (0 < node_limit)%nat →
  (length e.1 ≤ node_limit)%nat →
  emit_siblings store job_summary node_len m sel limit node_limit token todo e = Ok (remaining, e') →
  ∃ j block, (j ≤ length todo)%nat ∧ remaining = drop j todo ∧ e'.1 = e.1 ++ block.*2 ∧
    shown_all store job_summary m sel (Some limit) token true 1 (take j todo) block ∧
    (e.1 = [] → todo ≠ [] → 0 < j)%nat.
Proof.
  intros Hm Hpos. revert e. induction todo as [|child todo IH]; intros e Hlen Hrun; simpl in Hrun.
  { injection Hrun as <- <-. exists O, []. rewrite app_nil_r. split_and!; [done..|constructor|done]. }
  case_bool_decide as Hfull.
  2: { injection Hrun as <- <-. exists O, []. rewrite app_nil_r. split_and!; [simpl; lia|done..|constructor|].
       intros Hnil. rewrite Hnil in Hfull. simpl in Hfull. lia. }
  apply result_bind_Ok in Hrun as ([o e1] & He & Hrun).
  assert (e.1 = [] → eo_emitted o = true) as Hfirst by (intros Hnil; eapply emit_node_first, He; done).
  apply emit_node_spec in He as [(Hem & Hpf & ->)|(Hem & block & Hb & Happ & Hlen1)]; [| |done|done].
  - rewrite Hem in Hrun. simpl in Hrun. injection Hrun as <- <-. exists O, []. rewrite app_nil_r.
    split_and!; [simpl; lia|done..|constructor|]. intros Hnil. by rewrite Hfirst in Hem.
  - rewrite Hem in Hrun. simpl in Hrun. destruct (eo_page_full o).
    + injection Hrun as <- <-. exists 1%nat, block. simpl. rewrite take_0. split_and!; [lia|done..| |lia].
      by apply shown_all_one.
    + apply IH in Hrun as (j & block' & Hj & -> & Happ' & Hall & _); [|done].
      exists (S j), (block ++ block'). simpl. rewrite Happ', Happ, <-!(assoc_L (++)), fmap_app.
      split_and!; [lia|done|done| |lia]. constructor; [|done]. by apply (shown_full _ _ _ _ _ _ false).
Qed.

Lemma emit_siblings_total m sel limit node_limit token todo e : forest m →
  emittable job_summary node_len m sel token → Forall (λ id, is_Some (tree_row m id)) todo → accounted node_len token e →
  ∃ out, emit_siblings store job_summary node_len m sel limit node_limit token todo e = Ok out ∧
    accounted node_len token out.2.
Proof.
  intros Hm Hem Hrows. revert e. induction Hrows as [|child todo Hr _ IH]; intros e He; simpl; [eauto|].
  case_bool_decide; [|by eexists]. destruct (fo_chain _ Hm child Hr) as (n & Hn & Hc).
  destruct (emit_node_total store job_summary node_len m sel (Some limit) node_limit token Hm EMIT_FUEL 1 child n e)
    as ([o e1] & -> & He1); [done..|unfold EMIT_FUEL; lia|done|done|]. cbn [mbind result_bind].
  destruct (eo_emitted o); simpl; [|by eexists]. destruct (eo_page_full o); [by eexists|by apply IH].
Qed.

(** *** Positions *)
Lemma position_found {A} (f : A → result StoreError bool) l i x : l !! i = Some x → f x = Ok true →
  (∀ j y, (j < i)%nat → l !! j = Some y → f y = Ok false) → position f l = Ok (Some i).
Proof.
  revert i. induction l as [|y l IH]; intros [|i] Hx Hf Hbefore; simplify_eq/=; [by rewrite Hf|].
  rewrite (Hbefore O y) by (done || lia). simpl. rewrite (IH i); [done..|].
  intros j z Hj Hz. apply (Hbefore (S j)); [lia|done].
Qed.

Lemma NoDup_before {A B} (g : A → B) (l : list A) i j x y : NoDup (g <$> l) → l !! i = Some x → l !! j = Some y → (j < i)%nat → g y ≠ g x.
Proof.
  intros Hnd Hx Hy Hlt Heq. assert (j = i); [|lia].
  eapply NoDup_lookup; [exact Hnd|by rewrite list_lookup_fmap, Hy|by rewrite list_lookup_fmap, Hx, Heq].
Qed.

(** ** A client that follows the cursors *)
Section client.
Context (v : ViewStore) (selector : JobSelector) (root_limit node_limit : N) (max_depth additional_depth : option N).
Context (m : TreeModel).
Notation normalized := (normalize_selector selector).
Notation token := (token_of normalized).

(** What the requests of the client rest on: valid arguments, a loadable store, an
    encoding of selectors that reads back, and nodes whose encoding fits.  The last
    three are the accounting that the emission reserves bytes for. *)
Record serviceable : Prop := {
  sv_selector : validate_tree_selector store uuid_to_string (vw_store v) selector = Ok tt;
  sv_bounds : validate_tree_bounds root_limit node_limit max_depth 64 = Ok tt;
  sv_child_bounds : validate_tree_bounds 1 node_limit (Some (default 0 additional_depth)) 63 = Ok tt;
  sv_model : load_tree_model store (vw_store v) = Ok m;
  sv_reads_back : parse_selector (selector_json normalized) = Some normalized;
  sv_summary : ∀ id, is_Some (tree_row m id) → ∃ summary, job_summary id = Ok summary;
  sv_small : ∀ sel depth id n, base_node job_summary m sel depth id = Ok n → node_cost node_len token n ≤ NODE_BUDGET;
  sv_growth : ∀ (n : Node) parent r,
    node_len (n <| jn_descendants_truncated := true |>
                <| jn_next_children_cursor := Some (child_cursor store token parent r) |>) ≤ node_cost node_len token n;
  sv_page : ∀ page, (∀ c, jt_next_root_cursor page = Some c → rc_selector_hash c = token) →
    page_len page ≤ TREE_RESPONSE_METADATA_RESERVE_BYTES + sum_N (map node_len (jt_nodes page));
  sv_children_page : ∀ page, (∀ c, jk_next_children_cursor page = Some c → cc_selector_hash c = token) →
    children_page_len page ≤ TREE_RESPONSE_METADATA_RESERVE_BYTES + sum_N (map node_len (jk_nodes page));
}.

(** The pages that the client is served, with the cursors they carry. *)
Inductive served : list Node → option JobTreeRootCursor → option JobChildrenCursor → Prop :=
| served_first page : tree v selector None root_limit node_limit max_depth = Ok page →
    served (jt_nodes page) (jt_next_root_cursor page) None
| served_next nodes c cc page : served nodes (Some c) cc →
    tree v selector (Some c) root_limit node_limit max_depth = Ok page →
    served (jt_nodes page) (jt_next_root_cursor page) None
| served_children nodes rc cc n c page : served nodes rc cc → n ∈ nodes → jn_next_children_cursor n = Some c →
    tree_children v c node_limit additional_depth = Ok page →
    served (jk_nodes page) None (jk_next_children_cursor page)
| served_more nodes rc c page : served nodes rc (Some c) →
    tree_children v c node_limit additional_depth = Ok page →
    served (jk_nodes page) None (jk_next_children_cursor page).

Hypothesis Hok : serviceable.

Lemma client_forest : forest m.
Proof. by apply (loaded_forest v m), sv_model. Qed.
Lemma client_row id : is_Some (tree_row m id) ↔ store_uuid id = store ∧ is_Some (nv_jobs (sb_native (vw_store v)) !! entity_uuid id).
Proof. by apply (loaded_forest v m), sv_model. Qed.
Lemma client_known : known_selector m normalized.
Proof. eapply valid_known; [by apply sv_model|by apply sv_selector]. Qed.

Lemma client_emittable sel : emittable job_summary node_len m sel token.
Proof. split; [apply (sv_summary Hok)|apply (sv_small Hok)]. Qed.

(** The nodes of shown blocks fit where bytes were reserved for them. *)
Lemma shown_bytes sel limit depth ids block b : shown_all store job_summary m sel limit token true depth ids block →
  accounted node_len token (block.*2, b) → sum_N (map node_len block.*2) ≤ NODE_BUDGET.
Proof.
  intros Hshown [Hb Hle]. cbn [fst snd] in *. etrans; [|exact Hle]. rewrite Hb. clear Hb Hle.
  apply shown_entries in Hshown as [_ Hentries].
  apply sum_N_le, Forall_fmap, Forall_forall. intros [x n] Hin. simpl. destruct (Hentries x n Hin) as (d & k & n0 & Hn0 & -> & _).
  rewrite uncut_cut, (base_node_uncut _ _ _ _ _ _ Hn0). unfold cut.
  destruct (eligible_children m sel x !! k ≫= tree_row m); [apply (sv_growth Hok)|unfold node_cost; lia].
Qed.

Lemma response_fits (encoded total : N) : encoded ≤ TREE_RESPONSE_METADATA_RESERVE_BYTES + total → total ≤ NODE_BUDGET →
  ensure_tree_response_budget encoded = Ok tt.
Proof.
  intros H1 H2. unfold ensure_tree_response_budget, guard_err. rewrite bool_decide_eq_false_2; [done|].
  unfold NODE_BUDGET in H2. assert (TREE_RESPONSE_METADATA_RESERVE_BYTES ≤ TREE_RESPONSE_BUDGET_BYTES) by done. lia.
Qed.

Lemma nothing_accounted : accounted node_len token ([], 0).
Proof. split; [done|]. cbn [snd]. lia. Qed.

(** The selection and the order of the roots for the requested depth. *)
Lemma client_view : ∃ sel ordered,
  select_nodes m normalized (default 64 max_depth) = Ok sel ∧ selects m normalized (default 64 max_depth) sel ∧
  ordered_roots m sel = Ok ordered ∧ NoDup ordered.*1 ∧
  (∀ id, id ∈ ordered.*1 ↔ id ∈ tm_roots m ∧ id ∈ sn_visible sel).
Proof.
  destruct (select_nodes_spec m normalized (default 64 max_depth)) as (sel & Hsel & Hs); [apply client_forest|apply client_known|].
  destruct (ordered_roots_spec m sel client_forest) as (ordered & Hord & _ & Hnd & Hids & _). by exists sel, ordered.
Qed.

Lemma root_page_total sel ordered cursor start :
  select_nodes m normalized (default 64 max_depth) = Ok sel → ordered_roots m sel = Ok ordered →
  (∀ id, id ∈ ordered.*1 → id ∈ tm_roots m) →
  check_root_cursor store v token cursor = Ok tt → start_of_roots m ordered cursor = Ok start →
  ∃ page, tree v selector cursor root_limit node_limit max_depth = Ok page.
Proof.
  intros Hsel Hord Hroots Hcur Hstart. unfold tree_in_snapshot.
  rewrite (sv_selector Hok), (sv_bounds Hok), Hcur, (sv_model Hok). cbn [mbind result_bind].
  rewrite Hsel. cbn [mbind result_bind]. rewrite Hord. cbn [mbind result_bind]. rewrite Hstart. cbn [mbind result_bind].
  pose proof client_forest as Hm.
  assert (Forall (λ p : DurableId * TreeAttentionBucket, is_Some (tree_row m p.1)) (take (N.to_nat root_limit) (drop start ordered))) as Hrows.
  { apply Forall_forall. intros p Hp. apply (fo_roots _ Hm), Hroots.
    apply list_elem_of_fmap_2. eapply elem_of_sublist, sublist_drop. by eapply elem_of_sublist, sublist_take. }
  destruct (emit_roots_total m sel (N.to_nat node_limit) token _ [] ([], 0) Hm (client_emittable sel) Hrows nothing_accounted)
    as ([emitted [nodes b]] & Hemit & Hacc).
  pose proof (sv_bounds Hok) as Hbounds. unfold validate_tree_bounds, guard_err in Hbounds.
  assert (1 ≤ node_limit) as Hnl by (repeat case_bool_decide; simpl in Hbounds; try done; lia). clear Hbounds.
  rewrite Hemit. cbn [mbind result_bind].
  apply emit_roots_spec in Hemit as (j & block & _ & -> & Happ & _ & Hall & _); [|done|lia|simpl; lia].
  cbn [fst] in Happ. simpl in Happ. subst nodes.
  assert (∃ next, next_root_cursor store v m token (start + length ([] ++ take j (take (N.to_nat root_limit) (drop start ordered))))
    (length ordered) ([] ++ take j (take (N.to_nat root_limit) (drop start ordered))) = Ok next ∧
    ∀ c, next = Some c → rc_selector_hash c = token) as (next & -> & Hnext).
  { unfold next_root_cursor. case_bool_decide; [|by exists None]. destruct (last _) as [[id bucket]|] eqn:Hlast; [|by exists None].
    apply last_Some in Hlast as (l & Hl).
    assert (is_Some (tree_row m id)) as [r Hr].
    { rewrite Forall_forall in Hrows. apply (Hrows (id, bucket)). simpl in Hl.
      eapply elem_of_sublist, (sublist_take _ j). rewrite Hl. set_solver. }
    unfold row. rewrite Hr. simpl. eexists. split; [done|]. by intros c [= <-]. }
  cbn [mbind result_bind]. erewrite response_fits; [by eexists|by apply (sv_page Hok)|].
  cbn [jt_nodes]. by eapply shown_bytes.
Qed.

Lemma root_cursor_found sel ordered i p c : ordered_roots m sel = Ok ordered → NoDup ordered.*1 →
  (∀ id, id ∈ ordered.*1 → id ∈ tm_roots m) →
  ordered !! i = Some p → root_cursor v m token p = Some c →
  check_root_cursor store v token (Some c) = Ok tt ∧ start_of_roots m ordered (Some c) = Ok (S i).
Proof.
  intros Hord Hnd Hroots Hi Hc. unfold root_cursor in Hc. apply bind_Some in Hc as (r & Hr & Hc). injection Hc as <-.
  assert (store_uuid p.1 = store) as Hst by (apply client_row; eauto).
  split.
  - unfold check_root_cursor. cbn [rc_store_uuid rc_root_job_id rc_order_revision rc_selector_hash]. rewrite Hst.
    rewrite !bool_decide_eq_false_2 by tauto. done.
  - unfold start_of_roots. cbn [rc_bucket rc_root_job_id rc_accepted_unix_millis].
    rewrite (position_found _ ordered i p); [done|done|..].
    + rewrite !bool_decide_eq_true_2 by done. simpl. unfold row. rewrite Hr. simpl. by rewrite bool_decide_eq_true_2.
    + intros j q Hj Hq. rewrite bool_decide_eq_false_2; [done|].
      by eapply (NoDup_before fst ordered).
Qed.

(** *** Children *)
Lemma client_selects depth : ∃ sel, select_nodes m normalized depth = Ok sel ∧ selects m normalized depth sel.
Proof. apply select_nodes_spec; [apply client_forest|apply client_known]. Qed.

(** The depth of a selection does not change what is eligible or content. *)
Lemma selects_same depth depth' sel sel' : selects m normalized depth sel → selects m normalized depth' sel' →
  sn_eligible sel = sn_eligible sel' ∧ sn_selected_content sel = sn_selected_content sel'.
Proof.
  intros H H'. split; apply set_eq; intros x; [rewrite (se_eligible _ _ _ _ H), (se_eligible _ _ _ _ H')
    |rewrite (se_content _ _ _ _ H), (se_content _ _ _ _ H')]; done.
Qed.

Lemma kids_NoDup sel parent : NoDup (eligible_children m sel parent).
Proof. apply NoDup_ListNoDup, List.NoDup_filter, NoDup_ListNoDup, (fo_children_NoDup _ client_forest). Qed.

Lemma children_page sel parent k child r : selects m normalized (default 64 max_depth) sel →
  eligible_children m sel parent !! k = Some child → tree_row m child = Some r →
  ∃ page sel' limit j block,
    tree_children v (child_cursor store token parent r) node_limit additional_depth = Ok page ∧
    jk_nodes page = block.*2 ∧ (0 < j)%nat ∧
    sn_eligible sel' = sn_eligible sel ∧
    shown_all store job_summary m sel' limit token true 1 (take j (drop k (eligible_children m sel parent))) block ∧
    jk_next_children_cursor page =
      child_cursor store token parent <$> (eligible_children m sel parent !! (k + j)%nat ≫= tree_row m).
Proof.
  intros Hselects Hk Hr. pose proof client_forest as Hm.
  destruct (client_selects 64) as (sel' & Hsel' & Hselects').
  destruct (selects_same _ _ _ _ Hselects Hselects') as [Helig _].
  assert (eligible_children m sel' parent = eligible_children m sel parent) as Hkids
    by (unfold eligible_children; by rewrite Helig).
  assert (tr_job_id r = child) as Hid by (by apply (fo_row _ Hm) in Hr as [_ ?]).
  destruct (kids_up m sel Hm parent child) as [Hup _]; [by eapply list_elem_of_lookup_2|].
  assert (store_uuid parent = store) as Hps by (apply client_row; by eapply up_parent_row).
  assert (store_uuid child = store) as Hcs by (apply client_row; eauto).
  unfold tree_children_in_snapshot, child_cursor.
  cbn [cc_store_uuid cc_parent_job_id cc_child_job_id cc_selector_hash cc_accepted_unix_millis].
  rewrite (sv_child_bounds Hok), Hid, Hps, Hcs. rewrite !(bool_decide_eq_false_2 (store ≠ store)) by tauto.
  cbn [mbind result_bind orb guard_err].
  rewrite selector_token_reads_back by apply (sv_reads_back Hok). cbn [mbind result_bind].
  rewrite (proj2 (validate_tree_selector_spec _ _ _ _)) by (apply normalize_selector_ok, (validate_tree_selector_spec _ uuid_to_string), (sv_selector Hok)).
  cbn [mbind result_bind]. rewrite (sv_model Hok). cbn [mbind result_bind]. rewrite Hsel'. cbn [mbind result_bind].
  rewrite Hkids. rewrite (position_found _ _ k child); [|done|..].
  2: { rewrite bool_decide_eq_true_2 by done. unfold row. rewrite Hr. simpl. by rewrite bool_decide_eq_true_2. }
  2: { intros j y Hj Hy. rewrite bool_decide_eq_false_2; [done|]. eapply (NoDup_before id); [|done..].
       rewrite list_fmap_id. apply kids_NoDup. }
  cbn [mbind result_bind ok_or]. set (kids := eligible_children m sel parent) in *.
  set (lim := N.min _ u32_max).
  assert (Forall (λ id, is_Some (tree_row m id)) (drop k kids)) as Hrows.
  { apply Forall_forall. intros x Hx. eapply (kids_row m sel Hm parent). by eapply elem_of_sublist, sublist_drop. }
  destruct (emit_siblings_total m sel' lim (N.to_nat node_limit) token (drop k kids) ([], 0) Hm (client_emittable sel') Hrows nothing_accounted)
    as ([remaining [nodes b]] & Hemit & Hacc).
  pose proof (sv_bounds Hok) as Hbounds. unfold validate_tree_bounds, guard_err in Hbounds.
  assert (1 ≤ node_limit) as Hnl by (repeat case_bool_decide; simpl in Hbounds; try done; lia). clear Hbounds.
  rewrite Hemit. cbn [mbind result_bind].
  apply emit_siblings_spec in Hemit as (j & block & Hj & -> & Happ & Hall & Hpos); [|done|lia|simpl; lia].
  cbn [fst] in Happ. simpl in Happ. subst nodes.
  assert (0 < j)%nat as Hjpos.
  { apply Hpos; [done|]. intros Hnil. apply (f_equal length) in Hnil. rewrite length_drop in Hnil.
    apply lookup_lt_Some in Hk. simpl in Hnil. fold kids in Hk. lia. }
  assert (∃ next, (match head (drop j (drop k kids)) with
       | None => Ok None | Some id => r ← row m id; Ok (Some (child_cursor store token parent r)) end) = Ok next ∧
     next = child_cursor store token parent <$> (kids !! (k + j)%nat ≫= tree_row m)) as (next & Hnext & Hnext').
  { rewrite drop_drop, head_lookup, lookup_drop, Nat.add_0_r.
    destruct (kids !! (k + j)%nat) as [x|] eqn:Hx; [|by exists None]. simpl. unfold row.
    destruct (kids_row m sel Hm parent x) as [rx ->]; [by eapply list_elem_of_lookup_2|]. simpl. eauto. }
  unfold child_cursor in Hnext at 1. rewrite Hnext. cbn [mbind result_bind].
  erewrite response_fits; [|apply (sv_children_page Hok)|cbn [jk_nodes]; by eapply shown_bytes].
  - cbn [mbind result_bind]. eexists _, sel', (Some lim), j, block. split; [done|]. cbn [jk_nodes jk_next_children_cursor].
    split_and!; [done|done|by symmetry|done|done].
  - cbn [jk_next_children_cursor]. intros c ->. destruct (kids !! (k + j)%nat ≫= tree_row m); [|done]. by injection Hnext' as ->.
Qed.

(** *** Everything selected is served *)
(** A served page shows a job. *)
Definition covered (eligible : gset DurableId) (id : DurableId) : Prop :=
  ∃ nodes rc cc sel' limit depth ids block, served nodes rc cc ∧ nodes = block.*2 ∧ sn_eligible sel' = eligible ∧
    shown_all store job_summary m sel' limit token true depth ids block ∧ id ∈ block.*1.

Lemma kids_same sel sel' parent : sn_eligible sel' = sn_eligible sel →
  eligible_children m sel' parent = eligible_children m sel parent.
Proof. intros H. unfold eligible_children. by rewrite H. Qed.

(** From a cursor of the children of a job on. *)
Lemma children_covered sel parent k child r i x : selects m normalized (default 64 max_depth) sel →
  eligible_children m sel parent !! k = Some child → tree_row m child = Some r →
  ((∃ nodes rc cc n, served nodes rc cc ∧ n ∈ nodes ∧ jn_next_children_cursor n = Some (child_cursor store token parent r)) ∨
   (∃ nodes rc, served nodes rc (Some (child_cursor store token parent r)))) →
  (k ≤ i)%nat → eligible_children m sel parent !! i = Some x → covered (sn_eligible sel) x.
Proof.
  intros Hselects. remember (i - k)%nat as d eqn:Hd. revert k child r Hd.
  induction (lt_wf d) as [d _ IH]. intros k child r Hd Hk Hr Hcur Hle Hi.
  destruct (children_page sel parent k child r Hselects Hk Hr) as (page & sel' & limit & j & block & Hpage & Hnodes & Hj & Hel & Hall & Hnext).
  assert (served (jk_nodes page) None (jk_next_children_cursor page)) as Hserved.
  { destruct Hcur as [(nodes & rc & cc & n & Hs & Hn & Hc)|(nodes & rc & Hs)]; [by eapply served_children|by eapply served_more]. }
  destruct (decide (i < k + j)%nat) as [Hlt|Hge].
  - exists (jk_nodes page), None, (jk_next_children_cursor page), sel', limit, 1, (take j (drop k (eligible_children m sel parent))), block.
    split_and!; [done..|]. apply shown_entries in Hall as [Hids _]. apply Hids.
    apply list_elem_of_lookup. exists (i - k)%nat. rewrite lookup_take_lt, lookup_drop by lia. rewrite <-Hi. f_equal. lia.
  - destruct (eligible_children m sel parent !! (k + j)%nat) as [y|] eqn:Hy.
    2: { apply lookup_ge_None in Hy. apply lookup_lt_Some in Hi. lia. }
    destruct (kids_row m sel client_forest parent y) as [ry Hry]; [by eapply list_elem_of_lookup_2|].
    simpl in Hnext. rewrite Hry in Hnext. simpl in Hnext.
    eapply (IH (i - (k + j))%nat ltac:(lia) (k + j)%nat y ry); [done|done|done| |lia|done].
    right. exists (jk_nodes page), None. by rewrite <-Hnext.
Qed.

Lemma covered_child sel parent x : selects m normalized (default 64 max_depth) sel →
  covered (sn_eligible sel) parent → x ∈ eligible_children m sel parent → covered (sn_eligible sel) x.
Proof.
  intros Hselects (nodes & rc & cc & sel' & limit & depth & ids & block & Hs & -> & Hel & Hall & Hin) [i Hi]%list_elem_of_lookup.
  pose proof Hall as [_ Hentries]%shown_entries.
  apply list_elem_of_fmap in Hin as ([y n] & -> & Hin). cbn [fst] in *.
  destruct (Hentries y n Hin) as (d & k & n0 & Hn0 & -> & Hkids). rewrite (kids_same sel sel') in Hkids by done.
  destruct (decide (i < k)%nat) as [Hlt|Hge].
  - exists block.*2, rc, cc, sel', limit, depth, ids, block. split_and!; [done..|]. apply Hkids.
    apply list_elem_of_lookup. exists i. by rewrite lookup_take_lt.
  - destruct (eligible_children m sel y !! k) as [child|] eqn:Hk.
    2: { apply lookup_ge_None in Hk. apply lookup_lt_Some in Hi. lia. }
    destruct (kids_row m sel client_forest y child) as [r Hr]; [by eapply list_elem_of_lookup_2|].
    eapply (children_covered sel y k child r i x); [done..| |lia|done]. left.
    eexists block.*2, rc, cc, _. split; [done|]. split; [by apply (list_elem_of_fmap_2 snd) in Hin|].
    cbn [snd]. rewrite (cut_at _ _ _ _ _ _ child r) by (by rewrite ?(kids_same sel sel')). done.
Qed.

Lemma roots_covered sel ordered i p :
  select_nodes m normalized (default 64 max_depth) = Ok sel → ordered_roots m sel = Ok ordered → NoDup ordered.*1 →
  (∀ id, id ∈ ordered.*1 → id ∈ tm_roots m) →
  ordered !! i = Some p → covered (sn_eligible sel) p.1.
Proof.
  intros Hsel Hord Hnd Hroots Hi.
  assert (∀ start cursor, check_root_cursor store v token cursor = Ok tt → start_of_roots m ordered cursor = Ok start →
    (start ≤ i)%nat → (∀ page, tree v selector cursor root_limit node_limit max_depth = Ok page →
      served (jt_nodes page) (jt_next_root_cursor page) None) → covered (sn_eligible sel) p.1) as Hfrom.
  { intros start. remember (i - start)%nat as d eqn:Hd. revert start Hd. induction (lt_wf d) as [d _ IH].
    intros start Hd cursor Hcheck Hstart Hle Hserve.
    destruct (root_page_total sel ordered cursor start) as [page Hpage]; [done..|].
    pose proof (Hserve _ Hpage) as Hserved.
    apply tree_page_spec in Hpage as (m' & sel' & ordered' & start' & j & block & []).
    rewrite (sv_model Hok) in sw_model0. injection sw_model0 as <-.
    rewrite Hsel in sw_selection0. injection sw_selection0 as <-.
    rewrite Hord in sw_ordered0. injection sw_ordered0 as <-.
    rewrite Hstart in sw_start0. injection sw_start0 as <-.
    pose proof (lookup_lt_Some _ _ _ Hi) as Hilt.
    destruct (decide (i < start + j)%nat) as [Hlt|Hge].
    - exists (jt_nodes page), (jt_next_root_cursor page), None, sel, None, 0, (take j (drop start ordered)).*1, block.
      split_and!; [done..|]. apply shown_entries in sw_roots0 as [Hids _]. apply Hids, list_elem_of_fmap_2.
      apply list_elem_of_lookup. exists (i - start)%nat. rewrite lookup_take_lt, lookup_drop by lia. rewrite <-Hi. f_equal. lia.
    - rewrite bool_decide_eq_true_2 in sw_next0 by lia. specialize (sw_progress0 ltac:(lia)).
      destruct (ordered !! (start + j - 1)%nat) as [q|] eqn:Hq; [|apply lookup_ge_None in Hq; lia].
      simpl in sw_next0. destruct (root_cursor v m token q) as [c|] eqn:Hc.
      + destruct (root_cursor_found sel ordered _ q c Hord Hnd Hroots Hq Hc) as [Hcheck' Hstart'].
        replace (S (start + j - 1))%nat with (start + j)%nat in Hstart' by lia.
        eapply (IH (i - (start + j))%nat ltac:(lia) (start + j)%nat eq_refl (Some c)); [done|done|lia|].
        intros page' Hpage'. eapply served_next; [|done]. rewrite <-sw_next0. exact Hserved.
      + exfalso. unfold root_cursor in Hc. destruct (tree_row m q.1) eqn:Hrow; [done|].
        assert (is_Some (tree_row m q.1)) as [? ?]; [|congruence]. apply (fo_roots _ client_forest), Hroots.
        apply list_elem_of_fmap_2. by eapply list_elem_of_lookup_2. }
  apply (Hfrom O None); [done|done|lia|]. intros page Hpage. by apply served_first.
Qed.

Lemma eligible_up sel x p : selects m normalized (default 64 max_depth) sel → up m x p →
  x ∈ sn_eligible sel → p ∈ sn_eligible sel.
Proof.
  intros Hsel Hup. rewrite !(se_eligible _ _ _ _ Hsel). intros (a & Ha & [Hxa|Hax]).
  - inversion Hxa as [|? p' ? Hp' Hr]; subst; [exists a; split; [done|right; by apply rtc_once]|].
    unfold up in Hup, Hp'. simplify_eq. exists a. split; [done|by left].
  - exists a. split; [done|right; by eapply rtc_r].
Qed.

(** The root of an eligible family is visible whatever the depth. *)
Lemma eligible_root_visible sel x : selects m normalized (default 64 max_depth) sel → retained_parent m x = None →
  x ∈ sn_eligible sel → x ∈ sn_visible sel.
Proof.
  intros Hsel Hn. rewrite (se_eligible _ _ _ _ Hsel), (se_visible _ _ _ _ Hsel). intros (a & Ha & [Hxa|Hax]); exists a.
  - inversion Hxa as [|? p ? Hp]; subst; [split; [done|by right]|]. unfold up in Hp. by rewrite Hn in Hp.
  - split; [done|by right].
Qed.

Lemma eligible_row sel x : selects m normalized (default 64 max_depth) sel → x ∈ sn_eligible sel → is_Some (tree_row m x).
Proof.
  intros Hsel. rewrite (se_eligible _ _ _ _ Hsel). intros (a & (r & Hr & _) & [Hxa|Hax]).
  - inversion Hxa as [|? p ? Hp]; subst; [eauto|by eapply up_row].
  - apply rtc_inv_r in Hax as [<-|(y & _ & Hy)]; [eauto|]. eapply up_parent_row; [apply client_forest|done].
Qed.

Lemma eligible_covered sel x : select_nodes m normalized (default 64 max_depth) = Ok sel →
  x ∈ sn_eligible sel → covered (sn_eligible sel) x.
Proof.
  intros Hsel Hx. destruct client_view as (sel' & ordered & Hsel' & Hs & Hord & Hnd & Hids).
  rewrite Hsel in Hsel'. injection Hsel' as <-.
  destruct (fo_chain _ client_forest x) as (n & _ & Hc); [by eapply eligible_row|].
  induction Hc as [x Hp|x p n Hp _ IH].
  - assert (x ∈ ordered.*1) as [[y b] [Hy Hin]]%list_elem_of_fmap.
    { apply Hids. split; [|by eapply eligible_root_visible]. apply (fo_roots _ client_forest).
      split; [by eapply eligible_row|done]. }
    simpl in Hy. subst y. apply list_elem_of_lookup in Hin as [i Hi].
    apply (roots_covered sel ordered i (x, b)); [done..| |done]. intros id Hid. by apply Hids.
  - eapply (covered_child _ p); [done|apply IH; by eapply eligible_up|].
    unfold eligible_children. rewrite list_elem_of_In, filter_In, bool_decide_eq_true, <-list_elem_of_In.
    split; [by apply child_up; [apply client_forest|]|done].
Qed.

End client.

(** C17: A page of roots that is answered shows the tables: the jobs form a forest of chains of at most 64
    jobs, the selection is the selected jobs with their descendants and ancestors, the roots come in the
    order running, queued, finished and then newest first, where the bucket of a root is the one of its
    whole family, and the page shows consecutive roots in that order, starting behind the cursor, each with
    the first of its children in preorder, within the node limit.  Unless no root is left the page shows at
    least one, and its cursor is there exactly when roots remain. *)
Theorem tree_pages_show_families v selector cursor root_limit node_limit max_depth page :
  tree v selector cursor root_limit node_limit max_depth = Ok page →
  ∃ m sel ordered start j block,
    forest m ∧ (∀ id, is_Some (tree_row m id) ↔
      store_uuid id = store ∧ is_Some (nv_jobs (sb_native (vw_store v)) !! entity_uuid id)) ∧
    selects m (normalize_selector selector) (default 64 max_depth) sel ∧
    StronglySorted (root_le m) ordered ∧ NoDup ordered.*1 ∧
    (∀ id, id ∈ ordered.*1 ↔ id ∈ tm_roots m ∧ id ∈ sn_visible sel) ∧ Forall (λ p, bucket_of m p.1 p.2) ordered ∧
    shows v selector cursor node_limit max_depth page m sel ordered start j block.
Proof.
  intros H. assert (validate_tree_selector store uuid_to_string (vw_store v) selector = Ok tt) as Hvalid.
  { unfold tree_in_snapshot in H. by apply result_bind_Ok in H as ([] & Hv & _). }
  apply tree_page_spec in H as (m & sel & ordered & start & j & block & Hshows).
  pose proof (sw_model _ _ _ _ _ _ _ _ _ _ _ _ Hshows) as Hload.
  destruct (loaded_forest v m Hload) as [Hm Hrows].
  destruct (select_nodes_spec m (normalize_selector selector) (default 64 max_depth) Hm) as (sel' & Hsel' & Hs).
  { by eapply valid_known. }
  rewrite (sw_selection _ _ _ _ _ _ _ _ _ _ _ _ Hshows) in Hsel'. injection Hsel' as <-.
  destruct (ordered_roots_spec m sel Hm) as (ordered' & Hord & Hsorted & Hnd & Hids & Hb).
  rewrite (sw_ordered _ _ _ _ _ _ _ _ _ _ _ _ Hshows) in Hord. injection Hord as <-.
  exists m, sel, ordered, start, j, block. split_and!; try done. eapply Forall_impl; [exact Hb|]. by intros p [_ ?].
Qed.
End requests.
