(* ===== verification/ViewDemo.v ===== *)
(** * ViewDemo: a family of jobs seen through the views

    The tables of SubmissionDemo with two more jobs: a parent with two children and a
    root of its own.  Lists, events and trees of them are read in pages of one, and
    show that the hypotheses of the theorems about views hold. *)
From S2P Require Import Prelude Spec Validate Kernel Scoped Observation Machine MachineStore Reservation Columns.
From S2P Require Import Native NativeDemo Policy ManagedWait Submission SubmissionDemo Text.
From S2P Require Import Views ViewFacts Trees TreeFacts TreePages TreeViews.

Module ViewDemo.
Import NativeDemo SubmissionDemo.

Definition q11 := submit u8 Unmanaged 13 (child_spec 1) false (submit_input 24 3 1700).
Definition q12 := submit q11.1 scope 14 (child_spec 1) false (submit_input 25 4 1800).
Definition family : SubmitStore := q12.1.

(** ** Events *)
Definition event (kind : SchedulerEventKind) (job : Uuid) (now : Z) : EventRow :=
  {| er_kind := kind; er_job_id := job; er_batch_id := None; er_attempt_id := None; er_invocation_id := None;
     er_transition := None; er_committed_ms := now |}.
Definition started : EventRow :=
  {| er_kind := InvocationChanged; er_job_id := 1; er_batch_id := None; er_attempt_id := Some 100;
     er_invocation_id := Some 201; er_transition := Some TransitionStarted; er_committed_ms := 1350 |}.
Definition log : list EventRow := [event JobChanged 1 1000; started; event JobChanged 2 1500; event JobChanged 1 1550].
Definition later : list EventRow := [event JobChanged 3 1700; event JobChanged 4 1800].
Definition view (h : list EventRow) : ViewStore :=
  foldl (λ v e, append_event e v) {| vw_store := family; vw_events := ∅; vw_tree_order_revision := 9 |} h.

Lemma view_logged h : logged (view h) h.
Proof.
  unfold view. set (v0 := {| vw_store := family; vw_events := ∅; vw_tree_order_revision := 9 |}).
  induction h as [|e h IH] using rev_ind; [by constructor|]. rewrite foldl_app. simpl. by constructor.
Qed.
Lemma view_store h : vw_store (view h) = family.
Proof. unfold view. induction h as [|e h IH] using rev_ind; [done|]. by rewrite foldl_app. Qed.

Definition summary_of (job : DurableId) : result StoreError Uuid := Ok (entity_uuid job).
Notation look := (observe store show summary_of).
Definition one : JobSelector := SelJobs [durable 1].

Example observed_events :
  (match look (view log) one (Some (at_sequence store 0)) 2 with
   | Ok (Events es c) => Some (map sv_committed_unix_millis es, ec_sequence c) | _ => None end,
   match look (view (log ++ later)) one (Some (at_sequence store 2)) 2 with
   | Ok (Events es c) => Some (map sv_committed_unix_millis es, ec_sequence c) | _ => None end)
  = (Some ([1000; 1350]%Z, 2), Some ([1550]%Z, 6)).
Proof. vm_compute. reflexivity. Qed.

Definition events_of (f : result StoreError (ObservationFrame Uuid)) : list SchedulerEvent :=
  match f with Ok (Events es _) => es | _ => [] end.
Definition first_poll := events_of (look (view log) one (Some (at_sequence store 0)) 2).
Definition second_poll := events_of (look (view (log ++ later)) one (Some (at_sequence store 2)) 2).

Lemma stored_b h : forallb (λ r, bool_decide (is_Some (nv_jobs (sb_native family) !! er_job_id r))) h = true → jobs_stored family h.
Proof. intros H%Is_true_true_2%forallb_True. unfold jobs_stored. eapply Forall_impl; [exact H|]. intros r Hr. by apply bool_decide_unpack in Hr. Qed.
Lemma log_stored h : h ∈ [log; log ++ later] → jobs_stored (vw_store (view h)) h.
Proof.
  intros Hh. rewrite view_store. apply stored_b. apply list_elem_of_In in Hh as [<-|[<-|[]]]; vm_compute; reflexivity.
Qed.

Lemma specs_kept_refl s : specs_kept s s.
Proof. intros id j Hj. exists j. split; [exact Hj|reflexivity]. Qed.

Lemma followed : follows store show summary_of one (log ++ later) (vw_store (view (log ++ later))) 0 6 (([] ++ first_poll) ++ second_poll).
Proof.
  apply (follows_poll store show summary_of one log (vw_store (view log)) 0 2 ([] ++ first_poll) (view (log ++ later)) _ 2
    second_poll (at_sequence store 6)); [|apply view_logged|apply log_stored; set_solver|by eexists| |vm_compute; reflexivity].
  - apply (follows_poll store show summary_of one log (vw_store (view log)) 0 0 [] (view log) _ 2
      first_poll (at_sequence store 2)); [|apply view_logged|apply log_stored; set_solver|done| |vm_compute; reflexivity].
    + apply (follows_start store show summary_of one (view log) log 0); [apply view_logged|apply log_stored; set_solver|lia].
    + apply specs_kept_refl.
  - rewrite !view_store. apply specs_kept_refl.
Qed.

Lemma log_presentable : Forall (presentable store (vw_store (view log))) log.
Proof. rewrite view_store. repeat (constructor; [split; [eexists; vm_compute; reflexivity|vm_compute; reflexivity]|]). constructor. Qed.

(** ** Lists *)
Definition plain : JobSelector := SelAll.
Lemma list_pages_are_complete_witness :
  map (λ r, entity_uuid (lr_job_id r)) (List.filter (names_row plain) (list_rows store family)) = [4; 3; 2; 1] ∧
  all_pages store show (S (size (nv_jobs (sb_native family)))) family plain None 1 =
    Ok (List.filter (names_row plain) (list_rows store family)).
Proof.
  split; [vm_compute; reflexivity|]. apply (list_pages_are_complete store show family plain 1). reflexivity.
Defined.

(** ** Trees *)
Definition selector_json (selector : JobSelector) : string := match selector with SelAll => "all" | _ => "other" end.
Definition parse_selector (text : string) : option JobSelector := if bool_decide (text = "all"%string) then Some SelAll else None.
Definition digest (_ : string) : string := "digest".
Definition node_len (n : JobTreeNode Uuid) : N := if bool_decide (jn_next_children_cursor n = None) then 200 else 500.
Definition page_len (page : JobTreePage Uuid) : N := 300 + sum_N (map node_len (jt_nodes page)).
Definition children_page_len (page : JobChildrenPage Uuid) : N := 300 + sum_N (map node_len (jk_nodes page)).
Notation tree := (tree_in_snapshot store show summary_of selector_json digest node_len page_len).
Notation tree_children := (tree_children_in_snapshot store show summary_of parse_selector digest node_len children_page_len).
Notation served_here := (served store show summary_of selector_json parse_selector digest node_len page_len children_page_len).

Definition shown_jobs (nodes : list (JobTreeNode Uuid)) : list (Uuid * N * option Uuid) :=
  map (λ n, (jn_summary n, jn_depth n, (λ c, entity_uuid (cc_child_job_id c)) <$> jn_next_children_cursor n)) nodes.

(** Pages of one node: each root is cut at its first child, and the cursors name what is missing. *)
Definition tree_page cursor := tree (view log) SelAll cursor 1 1 None.
Definition root_page := match tree_page None with Ok p => Some p | Err _ => None end.
Definition children_of (page : option (JobTreePage Uuid)) : result StoreError (JobChildrenPage Uuid) :=
  match page ≫= λ p, head (jt_nodes p) ≫= jn_next_children_cursor with
  | Some c => tree_children (view log) c 1 None
  | None => Err (EPanic "no cursor") end.
Example tree_pages :
  (shown_jobs <$> (jt_nodes <$> root_page),
   match root_page ≫= jt_next_root_cursor with
   | Some c => match tree_page (Some c) with Ok p => Some (shown_jobs (jt_nodes p)) | Err _ => None end | None => None end,
   match children_of root_page with
   | Ok p => Some (shown_jobs (jk_nodes p), (λ c, entity_uuid (cc_child_job_id c)) <$> jk_next_children_cursor p)
   | Err _ => None end) =
  (Some [(1, 0, Some 2)], Some [(3, 0, None)], Some ([(2, 1, None)], Some 4)).
Proof. vm_compute. reflexivity. Qed.

Definition model : TreeModel := build_model (tree_rows store family).
Definition selection : Selection :=
  match select_nodes model SelAll 64 with Ok sel => sel | Err _ => {| sn_eligible := ∅; sn_visible := ∅; sn_selected_content := ∅ |} end.

Lemma family_serviceable : serviceable store show summary_of selector_json parse_selector digest node_len page_len
  children_page_len (view log) SelAll 1 1 None None model.
Proof.
  split; [vm_compute; reflexivity|vm_compute; reflexivity|vm_compute; reflexivity|vm_compute; reflexivity
         |vm_compute; reflexivity|..].
  - intros id _. exists (entity_uuid id). reflexivity.
  - intros sel depth id n Hn. unfold node_cost, node_len. rewrite <-(base_node_uncut _ _ _ _ _ _ Hn).
    rewrite bool_decide_eq_true_2 by done. vm_compute. discriminate.
  - intros n parent r. unfold node_cost, node_len at 1. rewrite bool_decide_eq_false_2 by done.
    generalize (len (selector_token selector_json digest (normalize_selector SelAll))). intros k.
    assert (200 ≤ node_len n) by (unfold node_len; case_bool_decide; lia). lia.
  - intros page _. unfold page_len, TREE_RESPONSE_METADATA_RESERVE_BYTES. lia.
  - intros page _. unfold children_page_len, TREE_RESPONSE_METADATA_RESERVE_BYTES. lia.
Qed.


Definition first_page : JobTreePage Uuid := match tree_page None with Ok p => p | Err _ => {| jt_nodes := [];
  jt_next_root_cursor := None; jt_selected_job_id := None; jt_event_cursor := at_sequence store 0 |} end.
Lemma tree_pages_show_families_witness :
  shown_jobs (jt_nodes first_page) = [(1, 0, Some 2)] ∧
  ∃ m sel ordered start j block,
    forest m ∧ (∀ id, is_Some (tree_row m id) ↔
      store_uuid id = store ∧ is_Some (nv_jobs (sb_native (vw_store (view log))) !! entity_uuid id)) ∧
    selects m (normalize_selector SelAll) (default 64 None) sel ∧
    StronglySorted (root_le m) ordered ∧ NoDup ordered.*1 ∧
    (∀ id, id ∈ ordered.*1 ↔ id ∈ tm_roots m ∧ id ∈ sn_visible sel) ∧ Forall (λ p, bucket_of m p.1 p.2) ordered ∧
    shows store summary_of selector_json digest (view log) SelAll None 1 None first_page m sel ordered start j block.
Proof.
  split; [vm_compute; reflexivity|].
  apply (tree_pages_show_families store show summary_of selector_json digest node_len page_len (view log) SelAll None 1 1 None first_page).
  vm_compute. reflexivity.
Defined.

(** ** A cursor that is answered with a panic *)
(** [é] is two bytes; behind one letter, the second pair of bytes starts inside it. *)
Definition crafted : JobChildrenCursor :=
  {| cc_store_uuid := store; cc_selector_hash := String (Ascii.ascii_of_N 58) (String (Ascii.ascii_of_N 97)
       (String (Ascii.ascii_of_N 195) (String (Ascii.ascii_of_N 169) (String (Ascii.ascii_of_N 97) ""))));
     cc_parent_job_id := durable 1; cc_accepted_unix_millis := 1500; cc_child_job_id := durable 2 |}.
Example crafted_cursor_panics :
  tree_children (view log) crafted 1 None = Err (EPanic "byte index is not a char boundary").
Proof. vm_compute. reflexivity. Qed.
End ViewDemo.
