(* ===== verification/Pairing.v ===== *)
(** * Pairing: managers of execution domains ([src/src/store/machine.rs],
      [src/src/store/machine_clearance.rs], [src/src/store/machine_reset.rs])

    The coordinator pairs with the manager of a domain, connects it, exchanges
    requests with it, and retires it; after a reset it rebuilds its tables from the
    registry.  Every operation works on two stores, the tables of SQLite and the
    authority directory, each of which changes atomically and survives a stop.  An
    operation is a program of such changes: it returns the stores it leaves, its
    answer, and the stores of every point where it could have been stopped. *)
From S2P Require Import Prelude Spec Validate Kernel Scoped Observation Machine MachineStore.
From S2P Require Import Reservation MachineOffer MachineRecovery Columns Native Policy Submission Frames Registry RegistryOps Authority.

Record ConnectHello := {
  hl_installation_nonce : Uuid;
  hl_manager_store_uuid : Uuid;
  hl_executor_incarnation : Uuid;
  hl_executor_protocol : N;
  hl_executor_nonce : list N;   (* 32 bytes *)
}.

Record ConnectChallenge := {
  cn_wire_version : N;
  cn_coordinator_protocol : N;
  cn_executor_protocol : N;
  cn_coordinator_installation : Uuid;
  cn_installation : InstallationIdentity;
  cn_session : SessionIdentity;
  cn_coordinator_nonce : list N;
  cn_executor_nonce : list N;
}.
#[global] Instance ConnectChallenge_eq_dec : EqDecision ConnectChallenge.
Proof. solve_decision. Defined.

Record ParticipantSnapshot := {
  ps_installation : InstallationIdentity;
  ps_manager_store_uuid : Uuid;
  ps_connection_epoch : N;
  ps_executor_incarnation : option Uuid;
  ps_reconciliation_required : bool;
  ps_retired_sequence_floor : N;
  ps_accepted_sequence : N;
}.

(** The tables of the coordinator with those of this component, and the authority.
    A row of [machine_domains] is one of [tb_domains] together with its registration:
    [registration_sha256] and [installation_json]. *)
Record ManagerStore := {
  ms_tables : Tables;
  ms_registrations : gmap ExecutionDomainId (string * InstallationIdentity);
  ms_challenges : gmap ExecutionDomainId (ConnectChallenge * Z);
  ms_retirements : gmap ExecutionDomainId (Uuid * DomainRetirementReceipt);
  ms_reset_inventory : option Uuid;   (* [machine_meta], key [reset_inventory] *)
  ms_authority : DurableAuthority;
}.
#[export] Instance ManagerStore_eta : Eta ManagerStore := λ r,
  {| ms_tables := ms_tables r; ms_registrations := ms_registrations r; ms_challenges := ms_challenges r;
     ms_retirements := ms_retirements r; ms_reset_inventory := ms_reset_inventory r;
     ms_authority := ms_authority r |}.

(** ** Programs *)
(** The stores passed through, the stores at the end and the answer. *)
Definition Manager (A : Type) : Type := ManagerStore → list ManagerStore * (ManagerStore * result StoreError A).

#[export] Instance Manager_ret : MRet Manager := λ A x s, ([], (s, Ok x)).
#[export] Instance Manager_bind : MBind Manager := λ A B k m s,
  let '(passed, (s1, answer)) := m s in
  match answer with
  | Err e => (passed, (s1, Err e))
  | Ok x => let '(later, last) := k x s1 in (passed ++ later, last)
  end.

Definition answer {A} (r : result StoreError A) : Manager A := λ s, ([], (s, r)).
Definition read {A} (f : ManagerStore → result StoreError A) : Manager A := λ s, ([], (s, f s)).
Definition refuse {A} (e : StoreError) : Manager A := answer (Err e).
Definition check (b : bool) (e : StoreError) : Manager unit := answer (guard_err b e).

(** A transaction: it commits, or fails and is rolled back. *)
Definition transaction {A} (fault : option StoreError) (f : ManagerStore → result StoreError (ManagerStore * A)) : Manager A := λ s,
  match fault with
  | Some e => ([], (s, Err e))
  | None => match f s with Ok (s', x) => ([s'], (s', Ok x)) | Err e => ([], (s, Err e)) end
  end.

(** [match result { Ok(_) => …, Err(error) => handler }] *)
Definition catch {A} (m : Manager A) (handler : StoreError → Manager A) : Manager A := λ s,
  let '(passed, (s1, r)) := m s in
  match r with
  | Ok x => (passed, (s1, Ok x))
  | Err e => let '(later, last) := handler e s1 in (passed ++ later, last)
  end.

(** Where the program can be after a run or a stop. *)
Definition visited {A} (m : Manager A) (s : ManagerStore) : list ManagerStore :=
  let '(passed, (s', _)) := m s in s :: passed ++ [s'].

(** What an operation reads from the world: whether the writes and statements of its
    program points fail, fresh identities, and the clock. *)
Record World := {
  wd_io : nat → PublishIo;
  wd_fault : nat → option StoreError;
  wd_reset_id : nat → Uuid;
  wd_now : Z;
}.
Definition later (n : nat) (wd : World) : World :=
  {| wd_io := λ k, wd_io wd (n + k); wd_fault := λ k, wd_fault wd (n + k);
     wd_reset_id := λ k, wd_reset_id wd (n + k); wd_now := wd_now wd |}.

Definition io_error (e : IoError) : StoreError := EIo (io_detail e).
Definition lift_io {A} (r : result IoError A) : result StoreError A :=
  match r with Ok x => Ok x | Err e => Err (io_error e) end.

Section pairing.
Context (w : AuthorityWire) (wire : Wire) (uuid_to_string : Uuid → string).
Context (store : Uuid).   (* [self.store_uuid] *)
Context (registration_hash : PairingRegistration → string).   (* [payload_hash] *)
(* [verify_challenge] and [verify_request] of a secret, and the text of a receipt *)
Context (verify_challenge : list N → ConnectChallenge → list N → bool) (verify_request : list N → Request → bool).
Context (receipt_text : DomainRetirementReceipt → string).
Implicit Types (s : ManagerStore) (domain : ExecutionDomainId) (wd : World).

Definition authority {A} (f : DurableAuthority → result IoError A) : Manager A :=
  read (λ s, lift_io (f (ms_authority s))).
Definition perform_as (to_error : IoError → StoreError) (io : PublishIo) (c : Call) : Manager unit := λ s,
  let out := perform w io c (ms_authority s) in
  let s' := s <| ms_authority := out.1 |> in
  ([s'], (s', match out.2 with Ok x => Ok x | Err e => Err (to_error e) end)).
Definition call (io : PublishIo) (c : Call) : Manager unit := perform_as io_error io c.

Definition machine_participant domain : Manager ParticipantSnapshot := read (λ s,
  row ← ok_or (tb_domains (ms_tables s) !! domain) (rejected "not_found" "participant is not registered");
  registration ← ok_or (ms_registrations s !! domain) (rejected "not_found" "participant is not registered");
  Ok {| ps_installation := registration.2; ps_manager_store_uuid := dr_manager_store_uuid row;
        ps_connection_epoch := dr_connection_epoch row; ps_executor_incarnation := dr_executor_incarnation row;
        ps_reconciliation_required := dr_reconciliation_required row;
        ps_retired_sequence_floor := dr_retired_sequence_floor row;
        ps_accepted_sequence := dr_accepted_sequence row |}).

Definition row_of_registration (registration : PairingRegistration) : DomainRow :=
  {| dr_manager_store_uuid := pg_manager_store_uuid registration; dr_connection_epoch := 0;
     dr_executor_incarnation := None; dr_reconciliation_required := true; dr_retired_sequence_floor := 0;
     dr_accepted_sequence := 0 |}.

Definition set_tables (t : Tables) s : ManagerStore := s <| ms_tables := t |>.

(** ** Finishing what is open *)
(** The journal belongs to this store and no reset is pending. *)
Definition is_current (a : DurableAuthority) : bool :=
  match ss_coordinator (snapshot w a) with
  | Some history => bool_decide (ch_store_uuid history = store) && bool_decide (ch_pending_reset history = None)
  | None => false
  end.
Definition reset_pending (a : DurableAuthority) : bool :=
  match ss_coordinator (snapshot w a) with Some c => bool_decide (is_Some (ch_pending_reset c)) | None => false end.

(** [reconcile_pending_machine_commit] with its journal. *)
Definition recover_machine_commit wd : Manager unit :=
  a ← read (λ s, Ok (ms_authority s));
  match pending_machine_commit a with
  | Ok (Some intent) =>
      if negb (is_current a) then mret tt
      else
        disagreement ← transaction (wd_fault wd 0) (λ s,
          recovery ← reconcile_pending_machine_commit (ms_tables s) true (Some intent);
          match recovery with
          | Finished t => Ok (set_tables t s, None)
          | ResetRecorded reason => Ok (s, Some reason)
          end);
        match disagreement with
        | Some reason => call (wd_io wd 0) (RecordReset (wd_reset_id wd 0) reason)
        | None => call (wd_io wd 0) (FinishMachineCommit (rq_operation_id (mi_request intent)))
        end
  | _ => mret tt
  end.

Definition retired_by (audit : DomainRetirementAudit) (grant : GrantSnapshot) : result StoreError GrantSnapshot :=
  let recorded := List.find (λ g,
      bool_decide (gs_grant_id g = gs_grant_id grant) && bool_decide (gs_candidate g = gs_candidate grant)
      && bool_decide (gs_offer_nonce g = gs_offer_nonce grant)
      && forallb (λ t, bool_decide (t ∈ gs_tickets g)) (gs_tickets grant))
    (ci_grants (cv_inventory (du_preview audit))) in
  grant ← match recorded with
          | Some recorded => Ok recorded
          | None =>
              if bool_decide (gs_state grant ≠ Offered)
              then Err (EInvalidState "SQL contains start rights outside the accepted retirement inventory")
              else Ok grant
          end;
  let state := if bool_decide (gs_state grant = Offered) then Expired else Released in
  Ok {| gs_queue_accepted_unix_millis := gs_queue_accepted_unix_millis grant;
        gs_queue_sequence := gs_queue_sequence grant; gs_uncertainty_reason := gs_uncertainty_reason grant;
        gs_risk_clearance := if bool_decide (state = Released) then Some (dq_operation_id (du_request audit)) else None;
        gs_grant_id := gs_grant_id grant; gs_candidate := gs_candidate grant;
        gs_offer_nonce := gs_offer_nonce grant; gs_state := state;
        gs_offered_unix_millis := gs_offered_unix_millis grant;
        gs_offer_deadline_unix_millis := gs_offer_deadline_unix_millis grant;
        gs_armed_unix_millis := gs_armed_unix_millis grant;
        gs_released_unix_millis := Some (du_retired_unix_millis audit);
        gs_tickets := gs_tickets grant; gs_sealed_release := None |}.

(** [machine_grants JOIN machine_candidates USING(allocation_key)] of a domain, outstanding. *)
Definition domain_grants domain (t : Tables) : list GrantSnapshot :=
  omap (λ p : AllocationKey * GrantRow,
    if bool_decide (cr_domain_id <$> tb_candidates t !! p.1 = Some domain) && is_outstanding (gr_state p.2)
    then Some (gr_snapshot p.2) else None) (btree_entries (tb_grants t)).

Definition in_domain domain (rows : gmap AllocationKey CandidateRow) (key : AllocationKey) : bool :=
  bool_decide (cr_domain_id <$> rows !! key = Some domain).
(** [DELETE FROM machine_reservations WHERE allocation_key IN (SELECT … WHERE domain_id=?1)] *)
Definition drop_reservations domain (t : Tables) : Tables :=
  set_reservations (filter (λ p : AllocationKey * ResolvedClaims, in_domain domain (tb_candidates t) p.1 = false)) t.

Definition cancel_domain domain (t : Tables) : Tables :=
  let t := set_candidates (fmap (λ row,
    if bool_decide (cr_domain_id row = domain) then retire_candidate Canceled None row else row)) t in
  set_domains (alter (λ row,
      {| dr_manager_store_uuid := dr_manager_store_uuid row; dr_connection_epoch := dr_connection_epoch row;
         dr_executor_incarnation := None; dr_reconciliation_required := false;
         dr_retired_sequence_floor := dr_retired_sequence_floor row;
         dr_accepted_sequence := dr_accepted_sequence row |}) domain)
    (set_reconciles (delete domain) (drop_reservations domain t)).

Definition retire_tables (audit : DomainRetirementAudit) (t : Tables) : result StoreError Tables :=
  let domain := dq_domain_id (du_request audit) in
  t ← result_foldM (λ t grant, grant ← retired_by audit grant; save_grant t grant None) t (domain_grants domain t);
  Ok (cancel_domain domain t).

Definition apply_domain_retirement wd (audit : DomainRetirementAudit) : Manager unit :=
  let domain := dq_domain_id (du_request audit) in
  let operation := dq_operation_id (du_request audit) in
  transaction (wd_fault wd 0) (λ s,
    receipt ← lift_io (audit_receipt w audit);
    match ms_retirements s !! domain with
    | Some (prior, old) =>
        _ ← guard_err (bool_decide (prior ≠ operation) || bool_decide (old ≠ receipt))
              (EInvalidState "domain retirement SQL audit differs");
        Ok (s, tt)
    | None =>
        t ← retire_tables audit (ms_tables s);
        _ ← guard_err (existsb (λ row : Uuid * DomainRetirementReceipt, bool_decide (row.1 = operation))
                         (btree_values (ms_retirements s)))
              (ESql "UNIQUE constraint failed: machine_domain_retirements.operation_id");
        Ok (set_tables t s <| ms_challenges ::= delete domain |>
              <| ms_retirements ::= <[domain := (operation, receipt)]> |>, tt)
    end).

(** Errors that show that the rows differ from the audit. *)
Definition is_divergence (e : StoreError) : bool :=
  match e with EInvalidState _ | EJson _ => true | _ => false end.

Definition reconcile_pending_domain_retirement wd : Manager unit :=
  audit ← authority (pending_domain_retirement w);
  match audit with
  | None => mret tt
  | Some audit =>
      let operation := dq_operation_id (du_request audit) in
      error ← catch (_ ← apply_domain_retirement wd audit; mret None) (λ e, mret (Some e));
      match error with
      | None => call (wd_io wd 0) (FinishDomainRetirement operation)
      | Some e =>
          if is_divergence e then
            call (wd_io wd 0) (RecordReset (wd_reset_id wd 0)
              ("SQL retirement operation " +:+ uuid_to_string operation +:+ " needs inventory repair: "
               +:+ StoreError_text e))
          else refuse e
      end
  end.

(** What every request does first. *)
Definition finish_open wd : Manager unit :=
  _ ← reconcile_pending_domain_retirement wd; recover_machine_commit (later 1 wd).

(** ** Retirement *)
Definition retirement_error (e : IoError) : StoreError :=
  match e with InvalidInput d => rejected "retirement_conflict" d | e => io_error e end.

Definition prepared_audit (q : DomainRetirementRequest) (requester : ProcessIdentity) (principal : string) (now : Z)
    (a : DurableAuthority) : result IoError DomainRetirementAudit :=
  match da_state a with
  | StReady r => p ← prepare_domain_retirement w q requester principal now a r; Ok p.1
  | _ => Err (OtherIo "authority history unavailable")
  end.

Definition retire_machine_domain wd (q : DomainRetirementRequest) (requester : ProcessIdentity) (principal : string)
    : Manager DomainRetirementReceipt :=
  _ ← finish_open wd;
  let operation := dq_operation_id q in
  a ← read (λ s, Ok (ms_authority s));
  _ ← perform_as retirement_error (wd_io wd 2) (PrepareDomainRetirement q requester principal (wd_now wd));
  audit ← answer (lift_io (prepared_audit q requester principal (wd_now wd) a));
  receipt ← read (λ s, Ok (retired_domain_receipt (ms_authority s) (dq_domain_id (du_request audit))));
  match receipt with
  | Some receipt => mret receipt
  | None =>
      error ← catch (_ ← apply_domain_retirement (later 2 wd) audit; mret None) (λ e, mret (Some e));
      match error with
      | Some e =>
          _ ← (if is_divergence e then
                 call (wd_io wd 3) (RecordReset (wd_reset_id wd 3)
                   "SQL retirement inventory diverges from its accepted external audit")
               else mret tt);
          refuse (rejected "retirement_stalled"
            ("operation " +:+ uuid_to_string operation +:+ " remains fenced: " +:+ StoreError_text e
             +:+ "; inspect authority status and repair coordinator history"))
      | None =>
          _ ← call (wd_io wd 3) (FinishDomainRetirement operation);
          answer (lift_io (audit_receipt w audit))
      end
  end.

Definition machine_clearance_preview wd domain : Manager DomainClearancePreview :=
  _ ← finish_open wd;
  authority (λ a, match da_state a with
                  | StReady r => domain_clearance_preview w r domain
                  | _ => Err (OtherIo "authority history unavailable") end).

(** ** Pairing *)
Context (capacities : ResourceCapacities).   (* [self.capacities] *)

Definition mapping_invalid (registration : PairingRegistration) : bool :=
  existsb (λ name, bool_decide (name = ""%string) || bool_decide (256 < len name) || contains_nul name)
    (btree_keys (pg_budgets registration) ++ btree_keys (pg_aliases registration) ++ btree_values (pg_aliases registration)).

(** The budgets and aliases of all registrations together make a domain tree. *)
Definition pairing_topology (domains : AuthorityDomains) (registrations : list PairingRegistration)
    : result StoreError ResourceTopology :=
  _ ← result_mapM (λ r, guard_err (mapping_invalid r)
        (rejected "invalid_registration" "invalid resource alias or budget name")) registrations;
  let nodes :=
    [{| db_id := ad_machine_scope domains; db_parent := None; db_capacities := machine_capacities capacities |};
     {| db_id := ad_native_domain domains; db_parent := Some (ad_machine_scope domains); db_capacities := ∅ |}]
    ++ map (λ r, {| db_id := ii_domain_id (pg_installation r); db_parent := Some (pg_parent_domain r);
                    db_capacities := pg_budgets r |}) registrations in
  let aliases := btree_extend ∅ (concat (map (λ r,
    map (λ '(alias, physical), ((ii_domain_id (pg_installation r), alias), physical)) (btree_entries (pg_aliases r)))
    registrations)) in
  match ResourceTopology_new (ad_machine_scope domains) nodes aliases with
  | Ok topology => Ok topology
  | Err detail => Err (EInvalidSpec detail)
  end.

Definition require_machine_registration (registration : PairingRegistration) : Manager unit := read (λ s,
  let a := ms_authority s in
  let i := pg_installation registration in
  domains ← ok_or (ss_domains (snapshot w a)) (rejected "history_unknown" "authority topology unavailable");
  _ ← guard_err (negb (is_current a)) (rejected "history_unknown" "coordinator history must reconcile before pairing");
  _ ← guard_err (uuid_is_nil (ii_domain_id i) || uuid_is_nil (ii_installation_nonce i)
                 || uuid_is_nil (pg_manager_store_uuid registration)
                 || bool_decide (ii_domain_id i = ad_machine_scope domains)
                 || bool_decide (ii_domain_id i = ad_native_domain domains)
                 || bool_decide (pg_secret registration = replicate 32 0)
                 || bool_decide (ii_runtime_registration i = ""%string)
                 || bool_decide (1024 < len (ii_runtime_registration i))
                 || bool_decide (256 < size (pg_budgets registration))%nat
                 || bool_decide (256 < size (pg_aliases registration))%nat)
        (rejected "invalid_registration" "invalid or excessive participant identity/mapping");
  anchors ← lift_io (participants a);
  let others := List.filter (λ r, bool_decide (ii_domain_id (pg_installation r) ≠ ii_domain_id i))
                  (map pa_registration anchors) in
  _ ← pairing_topology domains (others ++ [registration]);
  Ok tt).

Definition insert_domain (registration : PairingRegistration) s : result StoreError (ManagerStore * unit) :=
  let domain := ii_domain_id (pg_installation registration) in
  let hash := registration_hash registration in
  match ms_registrations s !! domain with
  | Some (prior, _) =>
      _ ← guard_err (bool_decide (prior ≠ hash)) (rejected "conflict" "domain registration payload changed");
      Ok (s, tt)
  | None =>
      Ok (set_tables (set_domains (<[domain := row_of_registration registration]>) (ms_tables s)) s
            <| ms_registrations ::= <[domain := (hash, pg_installation registration)]> |>, tt)
  end.

Definition pair_machine_domain wd (registration : PairingRegistration) : Manager ParticipantSnapshot :=
  let domain := ii_domain_id (pg_installation registration) in
  _ ← reconcile_pending_domain_retirement wd;
  _ ← require_machine_registration registration;
  _ ← call (wd_io wd 1) (PreparePairing registration);
  _ ← transaction (wd_fault wd 1) (insert_domain registration);
  _ ← call (wd_io wd 2) (CommitPairing domain);
  machine_participant domain.

(** ** Connection *)
Definition reserved_epoch (a : DurableAuthority) domain (sql_epoch : N) : result IoError N :=
  match da_state a with
  | StReady r => p ← reserve_machine_connection domain sql_epoch r; Ok p.2
  | _ => Err (OtherIo "pairing history unavailable")
  end.

Definition machine_connect_begin wd (nonce : result StoreError (list N)) (hello : ConnectHello) : Manager ConnectChallenge :=
  _ ← finish_open wd;
  a ← read (λ s, Ok (ms_authority s));
  _ ← match pending_installation_retirement a (hl_installation_nonce hello) (hl_manager_store_uuid hello) with
      | Some operation => refuse (rejected "retirement_pending"
          ("domain remains fenced by pending retirement operation " +:+ uuid_to_string operation
           +:+ "; inspect authority status and repair coordinator history"))
      | None => mret tt end;
  _ ← match retired_installation_receipt a (hl_installation_nonce hello) (hl_manager_store_uuid hello) with
      | Some receipt => refuse (rejected "retired_domain" (receipt_text receipt))
      | None => mret tt end;
  _ ← check (bool_decide (hl_executor_protocol hello ≠ PROTOCOL_VERSION)
             || uuid_is_nil (hl_executor_incarnation hello)
             || bool_decide (hl_executor_nonce hello = replicate 32 0))
        (rejected "unsupported" "executor protocol or incarnation is not supported");
  anchors ← answer (lift_io (participants a));
  anchor ← answer (ok_or (List.find (λ p, pa_committed p && bool_decide (pa_nonce p = hl_installation_nonce hello)) anchors)
                     (rejected "history_unknown" "continuous pairing anchor not found"));
  let registration := pa_registration anchor in
  participant ← machine_participant (ii_domain_id (pg_installation registration));
  _ ← check (bool_decide (ps_manager_store_uuid participant ≠ hl_manager_store_uuid hello)
             || bool_decide (pg_manager_store_uuid registration ≠ hl_manager_store_uuid hello))
        (rejected "history_unknown" "manager store changed; its outstanding rights require inventory reconciliation");
  let snap := snapshot w a in
  domains ← answer (ok_or (ss_domains snap) (rejected "history_unknown" "machine identity unavailable"));
  nonce ← answer nonce;
  let domain := ii_domain_id (ps_installation participant) in
  epoch ← answer (lift_io (reserved_epoch a domain (ps_connection_epoch participant)));
  _ ← call (wd_io wd 2) (ReserveMachineConnection domain (ps_connection_epoch participant));
  authority_epoch ← answer (ok_or (ss_epoch snap) (rejected "history_unknown" "authority epoch unavailable"));
  let challenge := {| cn_wire_version := WIRE_VERSION; cn_coordinator_protocol := PROTOCOL_VERSION;
    cn_executor_protocol := hl_executor_protocol hello; cn_coordinator_installation := ad_machine_id domains;
    cn_installation := pg_installation registration;
    cn_session := {| se_machine_id := ad_machine_id domains; se_authority_epoch := authority_epoch;
                     se_domain_id := domain; se_manager_store_uuid := hl_manager_store_uuid hello;
                     se_executor_incarnation := hl_executor_incarnation hello; se_connection_epoch := epoch |};
    cn_coordinator_nonce := nonce; cn_executor_nonce := hl_executor_nonce hello |} in
  _ ← transaction (wd_fault wd 2) (λ s,
        Ok (s <| ms_challenges ::= <[domain := (challenge, i64_saturating_add (wd_now wd) 30000)]> |>, tt));
  mret challenge.

Definition connect_row (session : SessionIdentity) (row : DomainRow) : DomainRow :=
  {| dr_manager_store_uuid := dr_manager_store_uuid row; dr_connection_epoch := se_connection_epoch session;
     dr_executor_incarnation := Some (se_executor_incarnation session); dr_reconciliation_required := true;
     dr_retired_sequence_floor := dr_retired_sequence_floor row; dr_accepted_sequence := dr_accepted_sequence row |}.

(** The statements of the connection's transaction after the session is journaled. *)
Definition connect_tables domain (session : SessionIdentity) (t : Tables) : result StoreError Tables :=
  _ ← guard_err (negb match tb_domains t !! domain with
                      | Some row => bool_decide (dr_connection_epoch row < se_connection_epoch session)
                                    && bool_decide (dr_manager_store_uuid row = se_manager_store_uuid session)
                      | None => false end)
        (rejected "stale" "connection epoch or manager store changed");
  let t := set_reconciles (delete domain) (set_domains (alter (connect_row session) domain) t) in
  let t := set_candidates (fmap (λ row, if bool_decide (cr_domain_id row = domain)
    then {| cr_domain_id := cr_domain_id row; cr_candidate := cr_candidate row; cr_queue_owner := cr_queue_owner row;
            cr_state := cr_state row; cr_expires_ms := cr_expires_ms row; cr_revision := cr_revision row;
            cr_reservation_deadline_ms := None; cr_not_before_ms := cr_not_before_ms row |} else row)) t in
  Ok (drop_reservations domain t).

Definition machine_connect_finish wd (challenge : ConnectChallenge) (tag : list N) : Manager ParticipantSnapshot :=
  let domain := ii_domain_id (cn_installation challenge) in
  _ ← finish_open wd;
  anchors ← authority participants;
  anchor ← answer (ok_or (List.find (λ p, pa_committed p
                       && bool_decide (pg_installation (pa_registration p) = cn_installation challenge)) anchors)
                     (rejected "history_unknown" "pairing anchor missing or changed"));
  _ ← check (negb (verify_challenge (pg_secret (pa_registration anchor)) challenge tag))
        (rejected "unauthorized" "pairing authentication failed");
  _ ← answer (match wd_fault wd 2 with Some e => Err e | None => Ok tt end);
  _ ← read (λ s,
        pending ← ok_or (ms_challenges s !! domain) (rejected "stale" "challenge was consumed or replaced");
        guard_err (bool_decide (pending.1 ≠ challenge) || bool_decide (pending.2 ≤ wd_now wd)%Z)
          (rejected "stale" "challenge was consumed, expired or replaced"));
  _ ← call (wd_io wd 2) (AcceptMachineSession (cn_session challenge));
  _ ← transaction (wd_fault wd 3) (λ s,
        t ← connect_tables domain (cn_session challenge) (ms_tables s);
        Ok (set_tables t s <| ms_challenges ::= delete domain |>, tt));
  machine_participant domain.

(** ** Exchange *)
Definition find_anchor (a : DurableAuthority) domain : option ParticipantAnchor :=
  match participants a with
  | Ok anchors => List.find (λ p, pa_committed p && bool_decide (pa_domain p = domain)) anchors
  | Err _ => None
  end.

Definition commit_error (e : IoError) : StoreError :=
  match e with InvalidInput d => rejected "limit_exceeded" d | e => io_error e end.

(** The authority as an exchange sees it; the journal entry is written by
    [machine_exchange_managed] itself. *)
Definition authority_of (a : DurableAuthority) : MachineStore.Authority :=
  {| au_retired_domain := is_retired_domain a;
     au_participant := λ domain, (λ p, (bool_decide (ii_role (pg_installation (pa_registration p)) = Executor), pa_session p))
                                   <$> find_anchor a domain;
     au_verify := λ r, match find_anchor a (se_domain_id (rq_session r)) with
                       | Some p => verify_request (pg_secret (pa_registration p)) r | None => false end;
     au_epoch := ss_epoch (snapshot w a); au_machine_id := ad_machine_id <$> ss_domains (snapshot w a);
     au_blocked := bool_decide (is_Some (ss_blocker (snapshot w a)));
     au_check_commit := λ r outcome grants,
       match check_machine_commit w {| mi_request := r; mi_outcome := outcome; mi_grants := grants |} a with
       | Ok x => Ok x | Err e => Err (commit_error e) end;
     au_prepare_commit := λ _ _ _, Ok tt |}.

(** Allocations whose release is proven by their row. *)
Definition proven_retirements s : gset string :=
  let candidates := match da_state (ms_authority s) with StReady r => retirement_candidates store r | _ => ∅ end in
  list_to_set (List.filter (λ hash, bool_decide (hash ∈ candidates))
    (map (λ p : AllocationKey * GrantRow, aw_key_hash w p.1)
       (List.filter (λ p : AllocationKey * GrantRow, bool_decide (gr_state p.2 = Released)) (btree_entries (tb_grants (ms_tables s)))))).
Definition compact_retirements wd : Manager unit :=
  empty ← read (λ s, Ok match da_state (ms_authority s) with
                        | StReady r => bool_decide (retirement_candidates store r = ∅) | _ => true end);
  if empty : bool then mret tt
  else proven ← read (λ s, Ok (proven_retirements s)); call (wd_io wd 0) (CompactMachineRetirements store proven).

Definition machine_exchange_managed wd (configuration : string) (rd : Readiness) (r : Request) : Manager Reply :=
  let domain := se_domain_id (rq_session r) in
  _ ← finish_open wd;
  _ ← compact_retirements (later 2 wd);
  a ← read (λ s, Ok (ms_authority s));
  _ ← check (is_retired_domain a domain) (rejected "retired_domain" "the owner retired this manager registration");
  _ ← answer (match Request_validate wire r with Ok u => Ok u | Err e => Err (EIo e) end);
  _ ← check (bool_decide (MAX_FRAME_BYTES < request_len wire r)) (EIo "machine frame exceeds length bounds");
  _ ← answer (lift_io (participants a));
  _ ← answer (match wd_fault wd 3 with Some e => Err e | None => Ok tt end);
  out ← read (λ s, exchange_commit uuid_to_string wire (ms_tables s) r configuration (authority_of a) (wd_now wd) rd);
  let '(t, reply, intent) := out in
  _ ← match intent with Some i => call (wd_io wd 3) (PrepareMachineCommit i) | None => mret tt end;
  _ ← transaction (wd_fault wd 4) (λ s, Ok (set_tables t s, tt));
  _ ← match intent with Some _ => call (wd_io wd 4) (FinishMachineCommit (rq_operation_id r)) | None => mret tt end;
  _ ← call (wd_io wd 5) (CheckpointMachineSequence domain (rq_request_sequence r));
  mret reply.

(** ** Validation at a start *)
(** What the loop over the anchors does next. *)
Inductive Validation := GoOn | LeaveLoop | Return.

Definition rolled_back (anchor : ParticipantAnchor) (participant : ParticipantSnapshot) : bool :=
  bool_decide (ps_accepted_sequence participant < pa_accepted_sequence anchor)
  || bool_decide (ps_retired_sequence_floor participant < pa_retired_sequence_floor anchor)
  || bool_decide (pa_next_connection_epoch anchor < ps_connection_epoch participant)
  || match pa_session anchor with
     | None => false
     | Some session =>
         bool_decide (se_connection_epoch session < ps_connection_epoch participant)
         || bool_decide (ps_connection_epoch participant = se_connection_epoch session)
            && bool_decide (ps_executor_incarnation participant ≠ Some (se_executor_incarnation session))
     end.

Definition rows_mismatch : string := "coordinator participant rows do not match durable pairing anchors".
Definition rows_rolled_back : string :=
  "coordinator session/sequence rows rolled back across durable participant checkpoints".

Definition validate_anchor wd (anchor : ParticipantAnchor) : Manager Validation :=
  persisted ← read (λ s, Ok (fst <$> ms_registrations s !! pa_domain anchor));
  if bool_decide (persisted ≠ Some (registration_hash (pa_registration anchor))) then
    _ ← call (wd_io wd 0) (RecordReset (wd_reset_id wd 0) rows_mismatch);
    mret LeaveLoop
  else
    participant ← machine_participant (pa_domain anchor);
    if rolled_back anchor participant then
      _ ← call (wd_io wd 0) (RecordReset (wd_reset_id wd 0) rows_rolled_back);
      mret Return
    else
      _ ← call (wd_io wd 0) (CheckpointMachineSequence (ii_domain_id (ps_installation participant))
                               (ps_accepted_sequence participant));
      mret GoOn.

Fixpoint validate_anchors wd (anchors : list ParticipantAnchor) : Manager Validation :=
  match anchors with
  | [] => mret GoOn
  | anchor :: anchors =>
      next ← validate_anchor wd anchor;
      match next with GoOn => validate_anchors (later 1 wd) anchors | stop => mret stop end
  end.

(** [SELECT snapshot_json FROM machine_grants WHERE state IN ('armed','uncertain')] *)
Definition is_open (state : GrantState) : bool := match state with Armed | Uncertain => true | _ => false end.
Definition inventory (t : Tables) : gmap DurableId GrantSnapshot :=
  btree_extend ∅ (omap (λ row, if is_open (gr_state row)
    then Some (gs_grant_id (gr_snapshot row), gr_snapshot row) else None) (btree_values (tb_grants t))).

(** Native roots whose boundary is open. *)
Definition open_roots (native : NativeStore) : list Uuid :=
  omap (λ c, i ← nv_invocations native !! nt_invocation_id c;
          if bool_decide (is_Some (ni_root_pid i)) && negb (bool_decide (nt_state c ∈ [CEmpty; CCleared]))
          then Some (nt_invocation_id c) else None) (btree_values (nv_containments native)).

Definition validate_inventory wd (native : NativeStore) : Manager unit :=
  s ← read Ok;
  let snap := snapshot w (ms_authority s) in
  if reset_pending (ms_authority s) then mret tt
  else if bool_decide (inventory (ms_tables s) ≠ btree_extend ∅ (map (λ g, (gs_grant_id g, g)) (ss_machine_obligations snap))) then
    call (wd_io wd 0) (RecordReset (wd_reset_id wd 0)
      "SQLite Grants and external start permissions are not the same inventory")
  else if bool_decide (ss_native_coverage_store snap = Some store)
          && existsb (λ root, negb (bool_decide (root ∈ map (λ p, entity_uuid (np_invocation_id p)) (ss_native_obligations snap))))
               (open_roots native) then
    call (wd_io wd 0) (RecordReset (wd_reset_id wd 0) "native root exists without its external start permission")
  else mret tt.

Definition validate_machine_history wd (native : NativeStore) : Manager unit :=
  a ← read (λ s, Ok (ms_authority s));
  match participants a with
  | Err _ => mret tt
  | Ok anchors =>
      if reset_pending a then mret tt
      else
        next ← validate_anchors (later 1 wd) (List.filter pa_committed anchors);
        match next with Return => mret tt | _ => validate_inventory wd native end
  end.

(** ** The start of the service ([src/src/store/authority.rs]) *)
Definition no_native_work (native : NativeStore) : bool :=
  forallb (λ l, negb (bool_decide (nl_state l = LGranted))) (btree_values (nv_leases native))
  && forallb (λ c, bool_decide (nt_state c ∈ [CEmpty; CCleared])) (btree_values (nv_containments native)).

Definition establish_coverage wd (native : NativeStore) : Manager unit :=
  call (wd_io wd 0) (EstablishNativeCoverage (wd_reset_id wd 0) store (no_native_work native)).

Definition reconcile_native_start_permissions wd (native : NativeStore) : Manager unit :=
  permissions ← read (λ s, Ok (ss_native_obligations (snapshot w (ms_authority s))));
  let proven := map np_invocation_id (List.filter (λ p,
    bool_decide (store_uuid (np_invocation_id p) = store)
    && match nv_containments native !! entity_uuid (np_containment_id p),
             nv_invocations native !! entity_uuid (np_invocation_id p) with
       | Some c, Some i => bool_decide (nt_invocation_id c = entity_uuid (np_invocation_id p))
           && bool_decide (nt_state c ∈ [CEmpty; CCleared]) && bool_decide (ni_state i = IResolved)
       | _, _ => false end) permissions) in
  if bool_decide (proven = []) then mret tt else call (wd_io wd 0) (RetireNativeStarts proven).

(** What a start reads: the probe of the directory, fresh domains, the identity of the
    daemon if it is available, its generation. *)
Record Startup := {
  su_attached : bool;
  su_probe : option string;
  su_fresh : AuthorityDomains;
  su_host : string;
  su_process : option ProcessIdentity;
  su_generation : Uuid;
}.

Definition open_authority wd (su : Startup) : Manager unit := λ s,
  let s' := s <| ms_authority := open w (su_probe su) (su_fresh su) (wd_io wd 0) (da_files (ms_authority s)) (su_host su) |> in
  ([s'], (s', Ok tt)).

Definition attach_authority wd (su : Startup) (native : NativeStore) : Manager unit :=
  _ ← check (su_attached su) (EInvalidState
        "attached executor requires its paired coordinator; standalone authority fallback is forbidden");
  _ ← open_authority wd su;
  _ ← match su_process su with
      | Some process => call (wd_io wd 1) (BindCoordinator (wd_reset_id wd 1) store (su_generation su) process)
      | None => mret tt end;
  _ ← finish_open (later 2 wd);
  _ ← validate_machine_history (later 4 wd) native;
  _ ← reconcile_native_start_permissions (later 500 wd) native;
  establish_coverage (later 501 wd) native.

(** ** Recovery from a reset *)
Definition rollback_native_history_quiescent (native : NativeStore) : bool :=
  forallb (λ j, bool_decide (nj_state j = Final)) (btree_values (nv_jobs native)) && no_native_work native.

Definition is_native_owner (owner : QueueOwner) : bool := match owner with Native _ => true | Remote _ => false end.
(** The [DELETE] statements. *)
Definition clear_tables (t : Tables) : Tables :=
  {| tb_domains := ∅; tb_operations := ∅;
     tb_queue := filter (λ p : QueueOwner * QueueRow, is_native_owner p.1 = true) (tb_queue t);
     tb_queue_next := tb_queue_next t; tb_candidates := ∅; tb_grants := ∅; tb_tickets := ∅; tb_readiness := ∅;
     tb_reservations := ∅; tb_reconciles := ∅; tb_schedule_ms := tb_schedule_ms t; tb_revision := tb_revision t;
     tb_leases := tb_leases t |}.

Definition recovered_sequence (pending : option MachineCommitIntent) (anchor : ParticipantAnchor) : N :=
  N.max (pa_accepted_sequence anchor)
    match pending with
    | Some p => if bool_decide (se_domain_id (rq_session (mi_request p)) = pa_domain anchor)
                then rq_request_sequence (mi_request p) else 0
    | None => 0 end.

Definition recovered_row (pending : option MachineCommitIntent) (anchor : ParticipantAnchor) : DomainRow :=
  let accepted := recovered_sequence pending anchor in
  {| dr_manager_store_uuid := pa_store anchor;
     dr_connection_epoch := match pa_session anchor with Some s => se_connection_epoch s | None => 0 end;
     dr_executor_incarnation := se_executor_incarnation <$> pa_session anchor; dr_reconciliation_required := true;
     dr_retired_sequence_floor := accepted; dr_accepted_sequence := accepted |}.

Definition queue_le (a b : GrantSnapshot) : Prop :=
  lex_le (gs_queue_sequence a, gs_grant_id a) (gs_queue_sequence b, gs_grant_id b).
#[global] Instance queue_le_dec : RelDecision queue_le.
Proof. unfold queue_le. intros a b. apply _. Defined.

Definition restore_grant (topology : option (AuthorityDomains * ResourceTopology)) (t : Tables) (grant : GrantSnapshot)
    : result StoreError Tables :=
  let c := gs_candidate grant in
  let key := cd_key c in
  let owner := Remote (owner_job (cd_owner c)) in
  let t := match tb_queue t !! owner with
    | Some _ => t
    | None => set_queue owner {| qr_sequence := tb_queue_next t; qr_accepted_ms := gs_queue_accepted_unix_millis grant;
                                 qr_priority := Some (cd_priority c) |} t
    end in
  queued ← ok_or (tb_queue t !! owner) (ESql "no rows");
  priority ← ok_or (qr_priority queued) (ESql "Invalid column type Null");
  _ ← guard_err (bool_decide (qr_accepted_ms queued ≠ gs_queue_accepted_unix_millis grant)
                 || bool_decide (priority ≠ cd_priority c))
        (EInvalidState "recovered same-Job queue anchors conflict");
  let t := set_meta (Z.max (tb_schedule_ms t) (Z.max (gs_offered_unix_millis grant) (gs_queue_accepted_unix_millis grant)))
             (tb_revision t) t in
  _ ← guard_err (bool_decide (is_Some (tb_candidates t !! key)))
        (ESql "UNIQUE constraint failed: machine_candidates.allocation_key");
  let t := set_candidates (<[key := {| cr_domain_id := ak_domain_id key; cr_candidate := c; cr_queue_owner := owner;
      cr_state := if bool_decide (gs_state grant = Released) then CReleased else Withdrawn;
      cr_expires_ms := i64_max; cr_revision := cd_revision c; cr_reservation_deadline_ms := None;
      cr_not_before_ms := None |}]>) t in
  found ← ok_or topology (EInvalidState "recovered Grant has no registered topology");
  expanded ← match expand found.2 (ak_domain_id key) (MachineOffer.claims (cd_claims c)) with
             | Ok x => Ok x | Err detail => Err (EInvalidState detail) end;
  save_grant t grant (Some (physical_claims uuid_to_string expanded (ad_machine_scope found.1))).

(** The transaction: every table of the machine extension, from the registry. *)
Definition rebuild (anchors : list ParticipantAnchor) (pending : option MachineCommitIntent)
    (retirement : option DomainRetirementAudit) (topology : option (AuthorityDomains * ResourceTopology))
    (grants : gmap DurableId GrantSnapshot) (marker : Uuid) s : result StoreError (ManagerStore * unit) :=
  let t := set_domains (λ _, list_to_map (map (λ p, (pa_domain p, recovered_row pending p)) anchors))
             (clear_tables (ms_tables s)) in
  t ← result_foldM (restore_grant topology) t (sort_by queue_le (btree_values grants));
  let t := match pending with
    | None => t
    | Some intent =>
        let r := mi_request intent in
        set_operations (<[(se_domain_id (rq_session r), rq_request_sequence r) :=
          {| op_operation_id := rq_operation_id r; op_payload_sha256 := rq_payload_sha256 r;
             op_response := mi_outcome intent |}]>) t
    end in
  Ok (set_tables t s
        <| ms_registrations := list_to_map (map (λ p, (pa_domain p,
             (registration_hash (pa_registration p), pg_installation (pa_registration p)))) anchors) |>
        <| ms_challenges := ∅ |>
        <| ms_retirements ::= λ rows, match retirement with
             | Some audit => delete (dq_domain_id (du_request audit)) rows | None => rows end |>
        <| ms_reset_inventory := Some marker |>, tt).

(** [a.checkpoint_machine_sequence(…)?; a.retire_machine_sequences(…)?] of every anchor. *)
Fixpoint retire_history wd (pending : option MachineCommitIntent) (anchors : list ParticipantAnchor) : Manager unit :=
  match anchors with
  | [] => mret tt
  | anchor :: anchors =>
      let accepted := recovered_sequence pending anchor in
      _ ← call (wd_io wd 0) (CheckpointMachineSequence (pa_domain anchor) accepted);
      _ ← call (wd_io wd 1) (RetireMachineSequences (pa_domain anchor) accepted);
      retire_history (later 2 wd) pending anchors
  end.

Definition authority_snapshot : Manager AuthoritySnapshot := read (λ s, Ok (snapshot w (ms_authority s))).

Definition prepare_machine_reset_recovery wd (native : NativeStore) : Manager AuthoritySnapshot :=
  _ ← reconcile_pending_domain_retirement wd;
  snap ← authority_snapshot;
  match ss_coordinator snap ≫= λ history, (history,.) <$> ch_pending_reset history with
  | None => mret snap
  | Some (history, gate) =>
      if bool_decide (ss_native_coverage_store snap ≠ Some (ch_store_uuid history))
         || bool_decide (ch_store_uuid history = store) && negb (rollback_native_history_quiescent native)
      then mret snap
      else
        let marker := gate_reset_id gate in
        installed ← read (λ s, Ok (ms_reset_inventory s));
        anchors ← authority participants;
        pending ← authority pending_machine_commit;
        if bool_decide (installed = Some marker) && bool_decide (pending = None)
           && bool_decide (ss_pending_machine_operation snap = None) then mret snap
        else if existsb (λ p, negb (pa_committed p)) anchors then mret snap
        else
          topology ← answer (machine_topology (Some (ss_domains snap, map (λ p, registration_of (pa_registration p)) anchors)) capacities);
          retirement ← authority (pending_domain_retirement w);
          let grants := btree_extend (btree_extend ∅ (map (λ g, (gs_grant_id g, g)) (ss_machine_obligations snap)))
            match pending with Some intent => map (λ g, (gs_grant_id g, g)) (mi_grants intent) | None => [] end in
          _ ← answer (match wd_fault wd 1 with Some e => Err e | None => Ok tt end);
          _ ← retire_history (later 1 wd) pending anchors;
          _ ← transaction (wd_fault wd 2) (rebuild anchors pending retirement topology grants marker);
          _ ← match pending with
              | Some intent => call (wd_io wd 600) (FinishMachineCommit (rq_operation_id (mi_request intent)))
              | None => mret tt end;
          _ ← reconcile_pending_domain_retirement (later 601 wd);
          authority_snapshot
  end.

Definition finish_machine_reset_recovery wd (native : NativeStore) (expected : AuthoritySnapshot) (native_empty : bool)
    (epoch : Uuid) (su : Startup) : Manager AuthoritySnapshot :=
  let gate := ss_coordinator expected ≫= ch_pending_reset in
  if negb native_empty || bool_decide (gate = None) then authority_snapshot
  else
    s ← read Ok;
    let covered := forallb (λ row, negb (dr_reconciliation_required row)) (btree_values (tb_domains (ms_tables s)))
                   && forallb (λ row, negb (is_outstanding (gr_state row))) (btree_values (tb_grants (ms_tables s))) in
    if negb covered
       || bool_decide (ch_store_uuid <$> ss_coordinator expected = Some store) && negb (rollback_native_history_quiescent native)
       || bool_decide (ms_reset_inventory s ≠ gate_reset_id <$> gate)
       || negb (bool_decide (ss_machine_obligations expected = []))
       || bool_decide (is_Some (ss_pending_machine_operation expected))
       || existsb (λ h, negb (ah_released h)) (ss_holds expected)
    then authority_snapshot
    else
      process ← answer (ok_or (su_process su) (EInvalidState "native creator identity unavailable"));
      _ ← call (wd_io wd 0) (CompleteMachineReset expected epoch store (su_generation su) process);
      authority_snapshot.
End pairing.
