(* ===== verification/PairingLog.v ===== *)
(** * PairingLog: the operation log of a domain under exchanges and recovery

    A row of a domain keeps its connection; its sequences only advance, and they
    cover every operation that is recorded ([log_inv], [log_advances]). *)
From S2P Require Import Prelude Spec Validate Kernel Scoped Observation Machine MachineStore.
From S2P Require Import MachineFacts ExchangeFacts MachineRecovery Columns Native Policy PolicyFacts.

(** The connection of a row. *)
Definition same_connection (row row' : DomainRow) : Prop :=
  dr_manager_store_uuid row' = dr_manager_store_uuid row ∧ dr_connection_epoch row' = dr_connection_epoch row ∧
  dr_executor_incarnation row' = dr_executor_incarnation row.

Definition row_advances (row row' : DomainRow) : Prop :=
  same_connection row row' ∧ dr_accepted_sequence row ≤ dr_accepted_sequence row' ∧
  dr_retired_sequence_floor row ≤ dr_retired_sequence_floor row'.
#[export] Instance row_advances_po : PreOrder row_advances.
Proof.
  unfold row_advances, same_connection. split; [intros row; by split_and!|]. intros a b c ((? & ? & ?) & ? & ?) ((? & ? & ?) & ? & ?).
  split_and!; (congruence || lia).
Qed.

Definition rows_relate (R : DomainRow → DomainRow → Prop) (t t' : Tables) : Prop :=
  ∀ d, option_relation R (λ _, False) (λ _, False) (tb_domains t !! d) (tb_domains t' !! d).
Definition log_advances : Tables → Tables → Prop := rows_relate row_advances.

(** Every recorded operation is accepted, and an acknowledged prefix is retired. *)
Definition log_inv (t : Tables) : Prop :=
  ∀ d s op, tb_operations t !! (d, s) = Some op → ∃ row, tb_domains t !! d = Some row ∧
    s ≤ dr_accepted_sequence row ∧
    ∀ n, op_response op = Acknowledged n → n < s ∧ n ≤ dr_retired_sequence_floor row.

(** Rows that differ in the reconciliation flag only. *)
Definition row_same (row row' : DomainRow) : Prop :=
  same_connection row row' ∧ dr_accepted_sequence row' = dr_accepted_sequence row ∧
  dr_retired_sequence_floor row' = dr_retired_sequence_floor row.
Definition log_same (t t' : Tables) : Prop := rows_relate row_same t t' ∧ tb_operations t' = tb_operations t.

Lemma rows_relate_same (R : DomainRow → DomainRow → Prop) `{!Reflexive R} t t' :
  tb_domains t' = tb_domains t → rows_relate R t t'.
Proof. intros Hd d. rewrite Hd. destruct (tb_domains t !! d); cbn; done. Qed.

Lemma rows_relate_alter (R : DomainRow → DomainRow → Prop) `{!Reflexive R} f d0 t t' :
  tb_domains t' = alter f d0 (tb_domains t) →
  (∀ row, tb_domains t !! d0 = Some row → R row (f row)) → rows_relate R t t'.
Proof.
  intros Hd Hf d. rewrite Hd. destruct (decide (d0 = d)) as [<-|Hne].
  - rewrite lookup_alter_eq. destruct (tb_domains t !! d0) as [row|] eqn:Hrow; cbn; [by apply Hf|done].
  - rewrite lookup_alter_ne by done. by destruct (tb_domains t !! d); cbn.
Qed.

Lemma rows_relate_some (R : DomainRow → DomainRow → Prop) t t' d row :
  rows_relate R t t' → tb_domains t !! d = Some row → ∃ row', tb_domains t' !! d = Some row' ∧ R row row'.
Proof. intros H Hrow. specialize (H d). rewrite Hrow in H. destruct (tb_domains t' !! d); [by eexists|done]. Qed.
Lemma rows_relate_back (R : DomainRow → DomainRow → Prop) t t' d row' :
  rows_relate R t t' → tb_domains t' !! d = Some row' → ∃ row, tb_domains t !! d = Some row ∧ R row row'.
Proof. intros H Hrow. specialize (H d). rewrite Hrow in H. destruct (tb_domains t !! d); [by eexists|done]. Qed.

#[export] Instance row_same_refl : Reflexive row_same.
Proof. intros row. by split_and!. Qed.
#[export] Instance row_same_trans : Transitive row_same.
Proof. unfold row_same, same_connection. intros a b c ((? & ? & ?) & ? & ?) ((? & ? & ?) & ? & ?). split_and!; congruence. Qed.
#[export] Instance rows_relate_trans R `{!Transitive R} : Transitive (rows_relate R).
Proof.
  intros a b c H1 H2 d. specialize (H1 d). specialize (H2 d). destruct (tb_domains a !! d), (tb_domains b !! d), (tb_domains c !! d);
    cbn in *; try done. by etrans.
Qed.
Lemma row_same_advances row row' : row_same row row' → row_advances row row'.
Proof. intros (? & ? & ?). split_and!; [done|lia..]. Qed.
Lemma log_same_advances t t' : log_same t t' → log_advances t t'.
Proof.
  intros [H _] d. specialize (H d). destruct (tb_domains t !! d), (tb_domains t' !! d); try done. by apply row_same_advances.
Qed.
Lemma log_same_log t t' : same_log t t' → log_same t t'.
Proof. intros (Hd & Ho & _). split; [by apply (rows_relate_same _)|done]. Qed.
Lemma log_same_trans t1 t2 t3 : log_same t1 t2 → log_same t2 t3 → log_same t1 t3.
Proof. intros [H1 O1] [H2 O2]. split; [by etrans|congruence]. Qed.

Lemma log_inv_advances t t' : log_inv t → log_advances t t' → tb_operations t' ⊆ tb_operations t → log_inv t'.
Proof.
  intros Hinv Ha Ho d s op Hop. destruct (Hinv d s op) as (row & Hrow & Hs & Hack); [by eapply lookup_weaken|].
  destruct (rows_relate_some _ _ _ _ _ Ha Hrow) as (row' & Hrow' & _ & ? & ?). exists row'. split_and!; [done|lia|].
  intros n Hn. destruct (Hack n Hn). split; [done|lia].
Qed.
Lemma log_inv_same t t' : log_inv t → log_same t t' → log_inv t'.
Proof. intros Hinv Hs. eapply log_inv_advances; [done|by apply log_same_advances|by rewrite (proj2 Hs)]. Qed.

Ltac log_saved :=
  match goal with H : save_grant _ _ None = Ok _ |- _ => apply save_grant_same in H end; by apply log_same_log.

(** Recording an operation, after the compaction that its outcome asks for. *)
Lemma record_operation_log t r o row :
  log_inv t → tb_domains t !! se_domain_id (rq_session r) = Some row →
  dr_accepted_sequence row < rq_request_sequence r →
  (∀ n, o = Acknowledged n → n < rq_request_sequence r ∧ n ≤ dr_retired_sequence_floor row) →
  log_inv (record_operation t r o) ∧ log_advances t (record_operation t r o).
Proof.
  intros Hinv Hrow Hlt Hack. set (d0 := se_domain_id (rq_session r)) in *.
  assert (log_advances t (record_operation t r o)) as Hadv.
  { eapply (rows_relate_alter _); [done|]. fold d0. rewrite Hrow. intros ? [= <-]. split_and!; cbn; [by split_and!|lia..]. }
  split; [|done]. intros d s op Hop. cbn in Hop. fold d0 in Hop. apply lookup_insert_Some in Hop as [[[= <- <-] <-]|[Hne Hop]].
  - cbn. fold d0. rewrite lookup_alter_eq, Hrow. eexists. split; [done|]. cbn. split; [done|]. intros n ->. by apply Hack.
  - destruct (Hinv d s op Hop) as (row1 & Hrow1 & Hs & Ha). destruct (rows_relate_some _ _ _ _ _ Hadv Hrow1) as (row2 & H2 & _ & ? & ?).
    exists row2. split_and!; [done|lia|]. intros n Hn. destruct (Ha n Hn). split; [done|lia].
Qed.

Lemma compact_operations_log t d n :
  log_inv t → log_inv (compact_operations t d n) ∧ log_advances t (compact_operations t d n).
Proof.
  intros Hinv. assert (log_advances t (compact_operations t d n)) as Hadv.
  { eapply (rows_relate_alter _); [done|]. intros row _. split_and!; cbn; [by split_and!|lia..]. }
  split; [|done]. eapply log_inv_advances; [done..|]. apply map_filter_subseteq.
Qed.

(** What the sequences of a domain cover after an operation. *)
Definition covers (t : Tables) (r : Request) (o : Outcome) : Prop :=
  ∃ row, tb_domains t !! se_domain_id (rq_session r) = Some row ∧ rq_request_sequence r ≤ dr_accepted_sequence row ∧
    ∀ n, o = Acknowledged n → n < rq_request_sequence r ∧ n ≤ dr_retired_sequence_floor row.

Lemma recorded_covers t r op :
  log_inv t → tb_operations t !! (se_domain_id (rq_session r), rq_request_sequence r) = Some op → covers t r (op_response op).
Proof. intros Hinv Hop. destruct (Hinv _ _ _ Hop) as (row & ? & ? & ?). by exists row. Qed.
Lemma record_operation_covers t r o : log_inv (record_operation t r o) → covers (record_operation t r o) r o.
Proof.
  intros Hinv. apply (recorded_covers _ r {| op_operation_id := rq_operation_id r;
    op_payload_sha256 := rq_payload_sha256 r; op_response := o |} Hinv). cbn. by rewrite lookup_insert_eq.
Qed.

(** ** Recovery *)
Lemma recover_grants_log missing t grants t' :
  recover_grants missing t grants = Ok (Finished t') → log_same t t'.
Proof.
  revert t. induction grants as [|g grants IH]; intros t H; cbn in H; [injection H as <-; by apply log_same_log|].
  destruct (recover_grant missing t g) as [[t1|reason]|] eqn:Hg; cbn in H; [|done..]. eapply log_same_trans; [|by apply IH].
  unfold recover_grant in Hg. case_bool_decide; [done|]. destruct missing; result_inv.
  - match goal with H : save_grant _ _ None = Ok _ |- _ => apply save_grant_same, log_same_log in H as [H1 H2] end.
    simplify_eq. case_bool_decide; [|done]. split; [|done]. exact H1.
  - case_bool_decide; simplify_eq. by apply log_same_log.
Qed.

(** Recovery leaves the log as the exchange would have. *)
Lemma recovery_log t i t' :
  log_inv t → (∀ n, mi_outcome i = Acknowledged n → n < rq_request_sequence (mi_request i)) →
  reconcile_pending_machine_commit t true (Some i) = Ok (Finished t') →
  log_inv t' ∧ log_advances t t' ∧ covers t' (mi_request i) (mi_outcome i).
Proof.
  intros Hinv Hack H. cbn in H. set (r := mi_request i) in *. set (d := se_domain_id (rq_session r)) in *.
  destruct (tb_operations t !! (d, rq_request_sequence r)) as [op|] eqn:Hop.
  - destruct (_ || _) eqn:Hor in H; [done|]. rewrite bool_decide_eq_false_2 in H by done.
    destruct (recover_grants false t (mi_grants i)) as [[t1|]|] eqn:Hg; cbn in H; [|done..]. injection H as <-.
    apply recover_grants_log in Hg. split_conditions.
    assert (op_response op = mi_outcome i) as <- by (apply dec_stable; tauto).
    assert (log_inv t1) as Hinv1 by by eapply log_inv_same. split_and!; [done|by apply log_same_advances|].
    apply recorded_covers; [done|]. by rewrite (proj2 Hg).
  - case_bool_decide as Hacc; [done|]. rewrite bool_decide_eq_true_2 in H by done.
    destruct (recover_grants true t (mi_grants i)) as [[t1|]|] eqn:Hg; cbn in H; [|done..]. injection H as <-.
    apply recover_grants_log in Hg. assert (log_inv t1) as Hinv1 by by eapply log_inv_same.
    destruct (tb_domains t !! d) as [row|] eqn:Hrow; [|done]. cbn in Hacc. apply checked_add_Some in Hacc as [Hacc _].
    destruct (rows_relate_some _ _ _ _ _ (proj1 Hg) Hrow) as (row1 & Hrow1 & _ & Ha1 & _). fold r.
    assert (∃ t2 row2, recover_operation t1 i = record_operation t2 r (mi_outcome i) ∧ log_inv t2 ∧ log_advances t1 t2 ∧
      tb_domains t2 !! d = Some row2 ∧ dr_accepted_sequence row2 = dr_accepted_sequence row1 ∧
      ∀ n, mi_outcome i = Acknowledged n → n ≤ dr_retired_sequence_floor row2) as (t2 & row2 & -> & Hinv2 & Hadv2 & Hrow2 & Ha2 & Hf2).
    { unfold recover_operation. fold r. fold d.
      destruct (mi_outcome i) eqn:Ho; try by (exists t1, row1; split_and!; [done|done|by apply (rows_relate_same _)|done..]).
      - destruct (compact_operations_log t1 d through_sequence Hinv1) as [? ?].
        eexists _, _. split_and!; [done..| | |]; [cbn; rewrite lookup_alter_eq, Hrow1; done|done|]. intros n [= <-]. cbn. lia.
      - eexists _, _. split; [done|].
        assert (log_advances t1 (set_reconciles (delete d) (set_domains (λ rows, alter (set_reconciliation_required false) d rows) t1))) as Hx.
        { eapply (rows_relate_alter _); [done|]. intros row' _. split_and!; cbn; [by split_and!|done..]. }
        split_and!; [by eapply log_inv_advances|done|cbn; rewrite lookup_alter_eq, Hrow1; done|done|done]. }
    destruct (record_operation_log t2 r (mi_outcome i) row2) as [Hinv3 Hadv3]; [done|done|lia| |].
    { intros n Hn. split; [by apply Hack|by apply Hf2]. }
    split_and!; [done| |by apply record_operation_covers]. etrans; [by apply log_same_advances|]. by etrans.
Qed.
Section commands.
Context (uuid_to_string : Uuid → string) (wire : Wire).

(** An acknowledgement retires operations; no other command touches the log. *)
Lemma apply_command_log t r cfg rec cl now rd t' o :
  apply_command uuid_to_string wire t r cfg rec cl now rd = Ok (t', o) →
  log_same t t' ∧ is_acknowledged o = false ∨
  ∃ n row, o = Acknowledged n ∧ tb_domains t !! se_domain_id (rq_session r) = Some row ∧ n ≤ dr_accepted_sequence row ∧
    t' = compact_operations t (se_domain_id (rq_session r)) n.
Proof.
  unfold apply_command. destruct (rq_command r); intros H;
    match goal with |- _ ∨ ∃ n row, _ => lazymatch type of H with acknowledge _ _ _ = _ => right | _ => left end end.
  - unfold report_uncertain in H. result_inv. simplify_eq. split; [|done]. log_saved.
  - unfold inspect_page in H. result_inv. simplify_eq. split; [|done]. by apply log_same_log.
  - unfold acknowledge in H. result_inv. simplify_eq. split_conditions.
    match goal with H : ok_or (tb_domains t !! ?d) _ = Ok ?row |- _ => exists through_sequence, row; destruct (tb_domains t !! d); simplify_eq/= end.
    split_and!; [done..|lia|done].
  - unfold candidate_upsert in H. result_inv. simplify_eq. destruct (tb_candidates t !! _).
    + unfold refresh_candidate in *. result_inv. split; [by apply log_same_log|done].
    + unfold accept_candidate in *. destruct (tb_queue t !! _); result_inv; split; by try apply log_same_log.
  - unfold withdraw in H. result_inv. simplify_eq. destruct (tb_grants _ !! key); [|by result_inv; split; [apply log_same_log|]].
    case_bool_decide; [|by result_inv; split; [apply log_same_log|]]. split; [|done]. log_saved.
  - unfold arm in H. result_inv. destruct (gs_state _); result_inv; simplify_eq; split; try done; try by apply log_same_log.
    log_saved.
  - unfold authorize_invocation, authorize in H. result_inv.
    match goal with c : Z * N |- _ => destruct c as [unix monotonic] end. result_inv.
    destruct (ticket_waiting _ _ _ _ _ _ _) as [progress [b|]]; result_inv; simplify_eq; (split; [|done]); [by apply log_same_log|].
    log_saved.
  - unfold withdraw in H. result_inv. simplify_eq. destruct (tb_grants _ !! key); [|by result_inv; split; [apply log_same_log|]].
    case_bool_decide; [|by result_inv; split; [apply log_same_log|]]. split; [|done]. log_saved.
  - unfold release_command in H. result_inv. simplify_eq. split; [|done].
    match goal with H : apply_release _ _ _ _ = Ok _ |- _ => apply apply_release_same in H end. by apply log_same_log.
  - unfold inspect in H. result_inv. simplify_eq. split; [|done]. by apply log_same_log.
  - unfold reconcile_begin in H. result_inv. simplify_eq. split; [|done]. split; [|done].
    eapply (rows_relate_alter _); [done|]. intros row _. by split_and!.
  - unfold reconcile_page in H. result_inv. simplify_eq. split; [|done]. by apply log_same_log.
  - unfold reconcile_commit in H. result_inv. simplify_eq. split; [|done].
    match goal with H : result_foldM (reconcile_record _ _) _ _ = Ok _ |- _ =>
      apply (reconcile_records_same t) in H as (Hd & Ho & Hl); [|done] end.
    split; [|done]. eapply (rows_relate_alter _); [cbn; by rewrite Hd|]. intros row _. by split_and!.
Qed.

Lemma exchange_commit_log t r cfg au wall rd t' rep intent :
  log_inv t → exchange_commit uuid_to_string wire t r cfg au wall rd = Ok (t', rep, intent) →
  log_inv t' ∧ log_advances t t' ∧ covers t' r (rp_outcome rep).
Proof.
  intros Hinv (row & Hs & Hcase)%exchange_commit_cases. apply check_session_row in Hs.
  destruct Hcase as [(-> & op & Hop & _ & _ & -> & _)|(_ & Hn & _)].
  { split_and!; [done|by apply (rows_relate_same _)|by apply recorded_covers]. }
  unfold new_operation in Hn. result_inv. apply bool_decide_or_false in Hguard0 as [Hseq%dec_stable _].
  apply checked_add_Some in Hseq as [Hseq _]. set (t0 := set_meta _ _ t) in *.
  assert (log_inv t0 ∧ log_advances t t0 ∧ tb_domains t0 !! se_domain_id (rq_session r) = Some row) as (Hinv0 & Hs0 & Hrow0).
  { split_and!; [done|by apply (rows_relate_same _)|done]. }
  match goal with H : run_command _ _ _ _ _ _ _ _ _ = Ok ?x |- _ => rename x into res, H into Hrun end.
  clearbody t0. destruct res as [t2 o2]. simplify_eq/=.
  assert (∃ row2, log_inv t2 ∧ log_advances t0 t2 ∧ tb_domains t2 !! se_domain_id (rq_session r) = Some row2 ∧
    dr_accepted_sequence row2 = dr_accepted_sequence row ∧
    ∀ n, rp_outcome rep = Acknowledged n → n < rq_request_sequence r ∧ n ≤ dr_retired_sequence_floor row2)
    as (row2 & Hinv2 & Hadv2 & Hrow2 & Hacc2 & Hack2).
  { apply run_command_cases in Hrun as [[[Hsame Hno]|(n & row' & Ho & Hrow' & Hn & ->)]%apply_command_log|[-> (code & detail & Ho)]].
    - destruct (rows_relate_some _ _ _ _ _ (proj1 Hsame) Hrow0) as (row2 & Hrow2 & _ & ? & ?). exists row2.
      split_and!; [by eapply log_inv_same|by apply log_same_advances|done|done|]. intros n Hn. by rewrite Hn in Hno.
    - rewrite Hrow0 in Hrow'. injection Hrow' as <-.
      destruct (compact_operations_log t0 (se_domain_id (rq_session r)) n Hinv0) as [? ?]. eexists. split_and!; [done..| | |].
      + cbn. rewrite lookup_alter_eq, Hrow0. done.
      + done.
      + rewrite Ho. intros n' [= <-]. cbn. split; lia.
    - exists row. split_and!; [done|by apply (rows_relate_same _)|done|done|]. intros n Hn. by rewrite Hn in Ho. }
  destruct (record_operation_log t2 r (rp_outcome rep) row2) as [Hinv3 Hadv3]; [done|done|lia|done|].
  split_and!; [done| |by apply record_operation_covers]. etrans; [exact Hs0|]. by etrans.
Qed.

End commands.
