(* ===== verification/PairingInv.v ===== *)
(** * PairingInv: what the tables and the registry agree on

    [run_ok] is the rule for programs that may be stopped after any of their writes:
    every store on the way satisfies an invariant.  [store_ok] relates the rows of
    the domains to the anchors of the registry; the operations keep it. *)
From S2P Require Import Prelude Spec Validate Kernel Scoped ScopedFacts Observation Machine MachineStore.
From S2P Require Import Reservation MachineOffer MachineFacts MachineRecovery ExchangeFacts Columns Native Policy PolicyFacts Submission Frames.
From S2P Require Import Registry RegistryOps Authority AuthorityFacts AuthorityInv AuthorityEvolves AuthorityHistory PairingLog Pairing.

(** ** Programs *)
Section logic.
Context {I : ManagerStore → Prop}.
Implicit Types s : ManagerStore.

(** Every store that is passed satisfies [I], an answer satisfies [Q]. *)
Definition run_ok {A} (m : Manager A) (Q : A → ManagerStore → Prop) s : Prop :=
  Forall I (m s).1 ∧ I (m s).2.1 ∧ ∀ x, (m s).2.2 = Ok x → Q x (m s).2.1.

Lemma run_visited {A} (m : Manager A) Q s : I s → run_ok m Q s → Forall I (visited m s).
Proof.
  unfold run_ok, visited. destruct (m s) as [passed [s' res]]. cbn. intros Hs (Hp & Hs' & _).
  constructor; [done|]. apply Forall_app. by split; [|constructor].
Qed.
Lemma visited_end {A} (m : Manager A) s : (m s).2.1 ∈ visited m s.
Proof. unfold visited. destruct (m s) as [passed [s' res]]. cbn. right. apply elem_of_app. right. by left. Qed.
Lemma run_weaken {A} (m : Manager A) (Q R : A → ManagerStore → Prop) s :
  run_ok m Q s → (∀ x s', I s' → Q x s' → R x s') → run_ok m R s.
Proof. intros (Hp & Hs & HQ) H. split_and!; [done..|]. intros x Hx. by apply H; [|apply HQ]. Qed.

Lemma run_ret {A} (x : A) Q s : I s → Q x s → run_ok (mret x) Q s.
Proof. intros Hs HQ. split_and!; [constructor|done|]. by intros ? [= <-]. Qed.
Lemma run_bind {A B} (m : Manager A) (k : A → Manager B) Q R s :
  run_ok m Q s → (∀ x s', I s' → Q x s' → run_ok (k x) R s') → run_ok (m ≫= k) R s.
Proof.
  unfold run_ok, mbind, Manager_bind. destruct (m s) as [passed [s1 [x|e]]]; cbn; intros (Hp & Hs & HQ) Hk.
  - specialize (Hk x s1 Hs (HQ x eq_refl)). destruct (k x s1) as [more last]. cbn in *. destruct Hk as (? & ? & ?).
    split_and!; [by apply Forall_app|done..].
  - by split_and!.
Qed.
(** The rest of a program runs where its beginning has led. *)
Lemma run_bind_eq {A B} (m : Manager A) (k : A → Manager B) Q R s :
  run_ok m Q s → (∀ x s', (m s).2 = (s', Ok x) → I s' → Q x s' → run_ok (k x) R s') → run_ok (m ≫= k) R s.
Proof.
  intros Hm Hk. apply (run_bind m k (λ x s', Q x s' ∧ (m s).2 = (s', Ok x))); [|intros x s' ? [? ?]; by apply Hk].
  destruct Hm as (Hp & Hs & HQ). split_and!; [done..|]. intros x Hx. split; [by apply HQ|]. destruct (m s) as [passed [s' res]]. cbn in *. by subst.
Qed.
Lemma run_answer {A} (r : result StoreError A) Q s : I s → (∀ x, r = Ok x → Q x s) → run_ok (answer r) Q s.
Proof. intros Hs HQ. split_and!; [constructor|done|done]. Qed.
Lemma run_read {A} (f : ManagerStore → result StoreError A) Q s :
  I s → (∀ x, f s = Ok x → Q x s) → run_ok (read f) Q s.
Proof. intros Hs HQ. split_and!; [constructor|done|done]. Qed.
Lemma run_refuse {A} (e : StoreError) (Q : A → ManagerStore → Prop) s : I s → run_ok (refuse e) Q s.
Proof. intros Hs. by apply run_answer. Qed.
Lemma run_check b e (Q : unit → ManagerStore → Prop) s : I s → (b = false → Q tt s) → run_ok (check b e) Q s.
Proof. intros Hs HQ. apply run_answer; [done|]. intros [] H%guard_ok. by apply HQ. Qed.
Lemma run_transaction {A} fault (f : ManagerStore → result StoreError (ManagerStore * A)) Q s :
  I s → (∀ s' x, f s = Ok (s', x) → I s' ∧ Q x s') → run_ok (transaction fault f) Q s.
Proof.
  intros Hs HQ. unfold run_ok, transaction. destruct fault; [by split_and!|].
  destruct (f s) as [[s' x]|e] eqn:Hf; [|by split_and!]. destruct (HQ s' x eq_refl). cbn.
  split_and!; [by constructor|done|]. by intros ? [= <-].
Qed.
Lemma run_bind_read {A B} (f : ManagerStore → result StoreError A) (k : A → Manager B) R s :
  I s → (∀ x, f s = Ok x → run_ok (k x) R s) → run_ok (read f ≫= k) R s.
Proof. intros Hs H. apply (run_bind _ _ (λ x s', s' = s ∧ f s = Ok x)); [by apply run_read|]. intros x s' _ [-> Hx]. by apply H. Qed.
Lemma run_bind_answer {A B} (r : result StoreError A) (k : A → Manager B) R s :
  I s → (∀ x, r = Ok x → run_ok (k x) R s) → run_ok (answer r ≫= k) R s.
Proof. intros Hs H. apply (run_bind _ _ (λ x s', s' = s ∧ r = Ok x)); [by apply run_answer|]. intros x s' _ [-> Hx]. by apply H. Qed.
Lemma run_bind_check {B} b e (k : unit → Manager B) R s :
  I s → (b = false → run_ok (k tt) R s) → run_ok (check b e ≫= k) R s.
Proof. intros Hs H. apply run_bind_answer; [done|]. intros [] Hb%guard_ok. by apply H. Qed.

(** A handler runs on the error of its program. *)
Lemma run_catch {A} (m : Manager A) h Q s :
  run_ok m Q s → (∀ e, (m s).2.2 = Err e → I (m s).2.1 → run_ok (h e) Q (m s).2.1) → run_ok (catch m h) Q s.
Proof.
  unfold run_ok, catch. destruct (m s) as [passed [s1 [x|e]]]; cbn; intros (Hp & Hs & HQ) Hh; [by split_and!|].
  specialize (Hh e eq_refl Hs). destruct (h e s1) as [more last]. cbn in *. destruct Hh as (? & ? & ?).
  split_and!; [by apply Forall_app|done..].
Qed.
End logic.
Arguments run_ok : clear implicits.
Arguments run_ok I {A} m Q s.

(** ** Rows and anchors *)
(** The row of a domain is not behind its anchor.  The manager of a domain that is
    being retired may be disconnected already. *)
Definition fits (retiring : Prop) (p : ParticipantAnchor) (row : DomainRow) : Prop :=
  pa_accepted_sequence p ≤ dr_accepted_sequence row ∧ pa_retired_sequence_floor p ≤ dr_retired_sequence_floor row ∧
  dr_connection_epoch row ≤ pa_next_connection_epoch p ∧
  ∀ se, pa_session p = Some se → dr_connection_epoch row ≤ se_connection_epoch se ∧
    (dr_connection_epoch row = se_connection_epoch se →
     dr_executor_incarnation row = Some (se_executor_incarnation se) ∨ retiring).

(** An anchor whose row is not written yet. *)
Definition pristine (p : ParticipantAnchor) : Prop :=
  pa_committed p = false ∧ pa_session p = None ∧ pa_next_connection_epoch p = 0 ∧
  pa_accepted_sequence p = 0 ∧ pa_retired_sequence_floor p = 0.

Lemma fits_advances retiring p row row' : fits retiring p row → row_advances row row' → fits retiring p row'.
Proof.
  intros (H1 & H2 & H3 & H4) ((_ & He & Hi) & Ha & Hf). split_and!; [lia..|]. intros se Hse. rewrite He, Hi. by apply H4.
Qed.

Lemma fits_weaken (P Q : Prop) p row : fits P p row → (P → Q) → fits Q p row.
Proof. intros (H1 & H2 & H3 & H4) HPQ. split_and!; [done..|]. intros se Hse. destruct (H4 se Hse) as [? H]. split; [done|]. tauto. Qed.

Record tables_fine (s : ManagerStore) : Prop := {
  tf_log : log_inv (ms_tables s);
  tf_rows : ∀ d, is_Some (ms_registrations s !! d) ↔ is_Some (tb_domains (ms_tables s) !! d);
  tf_domain : ∀ d h i, ms_registrations s !! d = Some (h, i) → ii_domain_id i = d;
  tf_challenge : ∀ d c e, ms_challenges s !! d = Some (c, e) → se_domain_id (cn_session c) = d ∧
    ∃ row, tb_domains (ms_tables s) !! d = Some row ∧ dr_connection_epoch row < se_connection_epoch (cn_session c);
}.

(** A reset for another reason than the rows of the participants. *)
Definition plain_reason (reason : string) : Prop := reason ≠ rows_mismatch ∧ reason ≠ rows_rolled_back.

Ltac plain := split; vm_compute; discriminate.

Section inv.
Context (w : AuthorityWire) (host : string) (wire : Wire) (uuid_to_string : Uuid → string) (store : Uuid).
Context (registration_hash : PairingRegistration → string).
Context (verify_challenge : list N → ConnectChallenge → list N → bool) (verify_request : list N → Request → bool).
Context (receipt_text : DomainRetirementReceipt → string) (capacities : ResourceCapacities).
Context (Hdigest : ∀ intent, is_digest (aw_intent_hash w intent) = true).
(* the epochs of accepted connections *)
Context (since : ExecutionDomainId → option N).
Implicit Types (s : ManagerStore) (r n : Registry) (a : DurableAuthority) (wd : World) (p : ParticipantAnchor) (d : ExecutionDomainId).
Local Notation durable := (durable w host).
Local Notation dir_inv := (dir_inv w host).

Definition retiring r d : Prop := pd_domain_id <$> ry_pending_domain_retirement r = Some d.

Record rows_agree s r : Prop := {
  ra_anchors : ∀ d p, ry_participants r !! d = Some p →
    ms_registrations s !! d = None ∧ pristine p ∨
    ∃ row, ms_registrations s !! d = Some (registration_hash (pa_registration p), pg_installation (pa_registration p)) ∧
      tb_domains (ms_tables s) !! d = Some row ∧ fits (retiring r d) p row;
  ra_rows : ∀ d, is_Some (ms_registrations s !! d) → is_Some (ry_participants r !! d) ∨ is_Some (ry_retired_domains r !! d);
}.

(** Connections that were accepted: the domain has been retired, or its anchor holds
    a session at least as new. *)
Definition fenced r : Prop :=
  ∀ d e, since d = Some e → is_Some (ry_retired_domains r !! d) ∨
    ∃ p se, ry_participants r !! d = Some p ∧ pa_session p = Some se ∧ e ≤ se_connection_epoch se.

Record agrees s r : Prop := {
  ag_fenced : fenced r;
  ag_store : ∀ h, ry_coordinator r = Some h → ch_store_uuid h = store;
  ag_gate : ∀ h g, ry_coordinator r = Some h → ch_pending_reset h = Some g →
    plain_reason (gate_reason g);
  ag_unbound : ry_coordinator r = None → ry_participants r = ∅ ∧ ms_registrations s = ∅;
  ag_scopes : ∀ d, is_Some (ry_participants r !! d) ∨ is_Some (ry_retired_domains r !! d) →
    ∃ ds, ry_domains r = Some ds ∧ d ≠ ad_machine_scope ds ∧ d ≠ ad_native_domain ds;
  ag_journal : ∀ i k, ry_pending_machine_commit r = Some i → mi_outcome i = Acknowledged k →
    k < rq_request_sequence (mi_request i);
  ag_rows : is_pending_reset r = false → rows_agree s r;
}.

Record store_ok s : Prop := {
  so_dir : dir_inv (ms_authority s);
  so_tables : tables_fine s;
  so_new : durable (ms_authority s) = None → ms_registrations s = ∅ ∧ ∀ d, since d = None;
  so_agrees : ∀ r, durable (ms_authority s) = Some r → agrees s r;
}.

(** ** Changes of the registry *)
Lemma agrees_published s n : agrees s n → agrees s (published w n).
Proof. intros []. constructor; try done. intros Hp. destruct (ag_rows0 Hp). by constructor. Qed.

(** What the rows are about stays. *)
Lemma agrees_frame s r n :
  agrees s r → ry_domains n = ry_domains r → ry_coordinator n = ry_coordinator r → ry_participants n = ry_participants r →
  ry_retired_domains n = ry_retired_domains r → ry_pending_domain_retirement n = ry_pending_domain_retirement r →
  (∀ i k, ry_pending_machine_commit n = Some i → mi_outcome i = Acknowledged k → k < rq_request_sequence (mi_request i)) →
  agrees s n.
Proof.
  intros [] Hd Hc Hp Hrt Hpr Hj. constructor; rewrite ?Hd, ?Hc, ?Hp, ?Hrt; try done.
  { unfold fenced. by rewrite Hp, Hrt. }
  unfold is_pending_reset in *. rewrite Hc. intros Hn. destruct (ag_rows0 Hn). unfold retiring in *.
  constructor; rewrite ?Hp, ?Hrt; try done. unfold retiring. by rewrite Hpr.
Qed.

(** The anchor of one domain with a row advances. *)
Lemma agrees_anchor s r n d p p' :
  agrees s r → ry_participants r !! d = Some p → pa_registration p' = pa_registration p →
  (∀ se, pa_session p = Some se → ∃ se', pa_session p' = Some se' ∧ se_connection_epoch se ≤ se_connection_epoch se') →
  (is_pending_reset r = false → is_Some (ms_registrations s !! d)) →
  (is_pending_reset r = false → ∀ row, tb_domains (ms_tables s) !! d = Some row →
     fits (retiring r d) p row → fits (retiring r d) p' row) →
  ry_domains n = ry_domains r → ry_coordinator n = ry_coordinator r → ry_participants n = <[d := p']> (ry_participants r) →
  ry_retired_domains n = ry_retired_domains r → ry_pending_domain_retirement n = ry_pending_domain_retirement r →
  (∀ i, ry_pending_machine_commit n = Some i → ry_pending_machine_commit r = Some i) → agrees s n.
Proof.
  intros [] Hp Hreg Hsess Hsome Hfit Hd Hc Hpn Hrt Hpr Hj.
  assert (∀ k, is_Some (ry_participants n !! k) ↔ is_Some (ry_participants r !! k)) as Hdom.
  { intros k. rewrite Hpn, lookup_insert_is_Some'. split; [intros [<-|]; eauto|by right]. }
  constructor; rewrite ?Hd, ?Hc, ?Hrt; try done.
  - intros k e Hk. rewrite Hrt, Hpn. destruct (ag_fenced0 k e Hk) as [?|(q & se & Hq & Hse & He)]; [by left|right].
    destruct (decide (d = k)) as [<-|Hne]; [|exists q, se; by rewrite lookup_insert_ne].
    rewrite Hp in Hq. injection Hq as <-. destruct (Hsess se Hse) as (se' & ? & ?). exists p', se'. rewrite lookup_insert_eq. split_and!; [done..|lia].
  - intros Hnone. exfalso. destruct (ag_unbound0 Hnone) as [Hempty _]. by rewrite Hempty in Hp.
  - intros k. rewrite Hdom. apply ag_scopes0.
  - intros i k Hi. apply (ag_journal0 i k). by apply Hj.
  - unfold is_pending_reset in *. rewrite Hc. intros Hn. destruct (ag_rows0 Hn). constructor.
    + intros k q. rewrite Hpn. intros [[<- <-]|[Hne Hq]]%lookup_insert_Some; unfold retiring; rewrite Hpr; [|by apply ra_anchors0].
      destruct (ra_anchors0 d p Hp) as [[Hno _]|(row & H1 & H2 & H3)].
      { destruct (Hsome Hn) as [? Hs]. congruence. }
      right. exists row. rewrite Hreg. split_and!; [done..|]. by apply (Hfit Hn row H2 H3).
    + intros k Hk. rewrite Hdom, Hrt. by apply ra_rows0.
Qed.

(** A committed anchor has its row. *)
Lemma committed_row s r d p :
  rows_agree s r → ry_participants r !! d = Some p → pa_committed p = true → ∃ row,
    ms_registrations s !! d = Some (registration_hash (pa_registration p), pg_installation (pa_registration p)) ∧
    tb_domains (ms_tables s) !! d = Some row ∧ fits (retiring r d) p row.
Proof. intros [Ha _] Hp Hc. destruct (Ha d p Hp) as [[_ [Hno _]]|H]; [congruence|done]. Qed.
Lemma committed_registered s r d p :
  agrees s r → ry_participants r !! d = Some p → pa_committed p = true →
  is_pending_reset r = false → is_Some (ms_registrations s !! d).
Proof. intros Ha Hp Hc Hn. destruct (committed_row s r d p (ag_rows _ _ Ha Hn) Hp Hc) as (row & -> & _). eauto. Qed.

(** ** One operation of the authority *)
Definition called (c : Call) s s' : Prop :=
  s' = s <| ms_authority := ms_authority s' |> ∧
  (∀ r', da_state (ms_authority s') = StReady r' → ∃ r, da_state (ms_authority s) = StReady r) ∧
  ∀ r, da_state (ms_authority s) = StReady r → ∃ u r', call_update w c (ms_authority s) r = Ok u ∧
    da_state (ms_authority s') = StReady r' ∧
    (update_next u = None ∧ r' = r ∨ ∃ n, update_next u = Some n ∧ r' = published w n).

(** The registry before and after an operation that was answered. *)
Lemma called_ready c s s' r' :
  called c s s' → da_state (ms_authority s') = StReady r' → ∃ r u, da_state (ms_authority s) = StReady r ∧
    call_update w c (ms_authority s) r = Ok u ∧
    (update_next u = None ∧ r' = r ∨ ∃ n, update_next u = Some n ∧ r' = published w n).
Proof.
  intros (_ & Hback & H) Hr'. destruct (Hback r' Hr') as [r Hr]. destruct (H r Hr) as (u & r1 & Hu & Hr1 & Hcase).
  rewrite Hr' in Hr1. injection Hr1 as <-. eauto.
Qed.

Lemma publish_ready io a n a' : publish w io a n = (a', Ok tt) → da_state a' = StReady (published w n).
Proof.
  unfold publish. destruct (check_publication w a n) as [[payload blob]|e] eqn:Hc; [|done].
  unfold check_publication in Hc. apply result_bind_Ok in Hc as (enc & Henc & Hc).
  apply check_then in Hc as [_ [= ->]]. apply encode_registry_inv in Henc as (-> & -> & _ & _).
  destruct (write_blob io _ _) as [fs [[]|e]]; [|done]. destruct (atomic_write _ _ _) as [fs' [[]|e]]; [|done]. intros [= <-].
  match goal with |- context [prune_machine_blobs _ ?x] => set (b := x) end.
  assert (da_state b = StReady (published w n)) as Hb.
  { assert (fst <$> ((λ i, (blob_of w i, i)) <$> ry_pending_machine_commit n) = blob_of w <$> ry_pending_machine_commit n) as Hfst
      by by destruct (ry_pending_machine_commit n).
    subst b. destruct (match da_state a with StReady _ => _ | _ => _ end); [case_bool_decide; [|destruct (io_undeleted _ _)]|];
      cbn; by rewrite Hfst. }
  unfold prune_machine_blobs. by rewrite Hb.
Qed.

Lemma perform_unchanged io c a r : da_state a = StReady r →
  (∀ u, call_update w c a r = Ok u → update_next u = None) → (perform w io c a).1 = a.
Proof.
  intros Hs H. unfold perform. destruct (call_check c) as [[]|]; [|done]. rewrite Hs.
  destruct (call_update w c a r) as [[]|] eqn:Hu; [done|specialize (H _ eq_refl); done..|done].
Qed.

Lemma run_call te io c s :
  store_ok s →
  (∀ r u, da_state (ms_authority s) = StReady r → reg_inv w host r → agrees s r →
     call_update w c (ms_authority s) r = Ok u → permitted w r c) →
  (∀ r u n, da_state (ms_authority s) = StReady r → reg_inv w host r → agrees s r →
     call_update w c (ms_authority s) r = Ok u → update_next u = Some n → agrees s n) →
  run_ok store_ok (perform_as w te io c) (λ _, called c s) s.
Proof.
  intros Hok Hper Hnext. pose proof Hok as [Hdir Htab Hnew Hag]. pose proof Hdir as (Hh & Hri & Hst).
  set (a := ms_authority s) in *. set (a' := (perform w io c a).1).
  assert (store_ok (s <| ms_authority := a' |>)) as Hok'.
  { assert (dir_inv a' ∧ (durable a' = durable a ∨ ∃ n, agrees s n ∧ durable a' = Some n)) as [Hd' Hcase].
    2:{ constructor; [done|by destruct Htab|..].
        - cbn. destruct Hcase as [->|(n & _ & ->)]; [done|]. done.
        - cbn. destruct Hcase as [->|(n & Han & ->)]; [|intros r' [= <-]].
          + intros r' Hr'. destruct (Hag r' Hr'). constructor; try done. intros Hn. by destruct (ag_rows0 Hn).
          + destruct Han. constructor; try done. intros Hn. by destruct (ag_rows0 Hn). }
    destruct (da_state a) as [|r|] eqn:Hs.
    1,3: subst a'; unfold perform; destruct (call_check c) as [[]|]; rewrite ?Hs; by split; [|left].
    destruct (call_update w c a r) as [u|e] eqn:Hu.
    2:{ subst a'. rewrite (perform_unchanged io c a r Hs); [by split; [|left]|]. congruence. }
    destruct (perform_spec w host Hdigest io c a Hdir) as (Hd' & Hcase & _).
    { intros r' Hr'. rewrite Hs in Hr'. injection Hr' as <-. eapply Hper; [done|by apply Hri|by apply Hag|exact Hu]. }
    split; [done|]. destruct Hcase as [Hcase|(n & Hprop & Hn)]; [by left|right]. exists n. split; [|done].
    destruct Hprop as (r' & u' & m & Hs' & _ & Hu' & Hm & ->). rewrite Hs in Hs'. injection Hs' as <-.
    rewrite Hu in Hu'. injection Hu' as <-. apply agrees_published. eapply Hnext; [done|by apply Hri|by apply Hag|exact Hu|done]. }
  unfold run_ok, perform_as. cbn [fst snd]. split_and!; [by constructor|done|].
  intros [] Hres. split_and!; [done| |].
  { intros r'. cbn. fold a. destruct (da_state a) as [|r|] eqn:Hs; [|eauto|].
    all: unfold perform; destruct (call_check c) as [[]|]; rewrite ?Hs; cbn; rewrite ?Hs; done. }
  intros r Hr. cbn. fold a in Hr, Hres |- *.
  destruct (perform w io c a) as [a1 [[]|e]] eqn:Hperf; [|done]. cbn in Hres |- *. clear Hres.
  unfold perform in Hperf. destruct (call_check c) as [[]|]; [|done]. rewrite Hr in Hperf.
  destruct (call_update w c a r) as [u|] eqn:Hu; [|done]. exists u.
  destruct u as [|n|file n]; cbn in Hperf.
  - injection Hperf as <-. exists r. split_and!; [done|done|by left].
  - exists (published w n). split_and!; [done|by eapply publish_ready|right; by exists n].
  - destruct (write_side _ _ _) as [fs [[]|]]; [|done]. exists (published w n).
    split_and!; [done|by eapply publish_ready|right; by exists n].
Qed.

(** ** What each operation needs *)
Lemma record_reset_agrees s r n id reason :
  agrees s r → plain_reason reason → update_next (record_reset id reason r) = Some n → agrees s n.
Proof.
  intros [] Hr H. unfold record_reset in H. destruct (ry_coordinator r) as [h|] eqn:Hh; [|done].
  case_bool_decide; [done|]. injection H as <-. constructor; cbn; try done.
  - intros h' [= <-]. exact (ag_store0 h eq_refl).
  - intros h' g [= <-] [= <-]. exact Hr.
Qed.

Lemma finish_commit_agrees s r u n op :
  agrees s r → tables_fine s →
  (∀ i, ry_pending_machine_commit r = Some i → covers (ms_tables s) (mi_request i) (mi_outcome i)) →
  finish_machine_commit w op r = Ok u → update_next u = Some n → agrees s n.
Proof.
  intros Ha Ht Hcov H Hu. unfold finish_machine_commit in H.
  destruct (ry_pending_machine_commit r) as [i|] eqn:Hi; [|by injection H as <-].
  apply check_then in H as [_ H]. destruct (retire_grants_frame w (mi_grants i) r) as [Heq _]. set (m := foldl _ _ _) in *. clearbody m.
  apply result_bind_Ok in H as (p & Hp%ok_or_some & H). apply result_bind_Ok in H as (p' & Hp' & [= <-]).
  injection Hu as <-. rewrite Heq in Hp. cbn in Hp. destruct (Hcov i eq_refl) as (row & Hrow & Hseq & Hack).
  assert (pa_registration p' = pa_registration p ∧ pa_session p' = pa_session p ∧
    (∀ retiring, fits retiring p row → fits retiring p' row)) as (Hreg & Hse & Hfit).
  { destruct (mi_outcome i); try (injection Hp' as <-; split_and!; [done..|]; intros ? (F1 & F2 & F3 & F4); split_and!; [cbn; lia|done..]).
    apply check_then in Hp' as [_ [= <-]]. split_and!; [done..|]. intros ? (F1 & F2 & F3 & F4). destruct (Hack _ eq_refl).
    split_and!; [cbn; lia..|done|done]. }
  assert (ry_domains m = ry_domains r ∧ ry_coordinator m = ry_coordinator r ∧ ry_participants m = ry_participants r ∧
    ry_retired_domains m = ry_retired_domains r ∧ ry_pending_domain_retirement m = ry_pending_domain_retirement r)
    as (H1 & H2 & H3 & H4 & H5) by by (rewrite Heq).
  eapply (agrees_anchor s r _ (se_domain_id (rq_session (mi_request i)))); [done|exact Hp|exact Hreg|..]; cbn; try done.
  - rewrite Hse. eauto.
  - intros _. apply (tf_rows _ Ht). by rewrite Hrow.
  - intros _ row'. rewrite Hrow. intros [= <-]. apply Hfit.
  - by rewrite H3.
Qed.

Lemma finish_retirement_agrees s r u n op :
  agrees s r → reg_inv w host r → finish_domain_retirement op r = Ok u → update_next u = Some n → agrees s n.
Proof.
  intros Ha [_ Hs] H Hu. unfold finish_domain_retirement in H.
  destruct (ry_pending_domain_retirement r) as [x|] eqn:Hx; [|by injection H as <-].
  apply check_then in H as [_ [= <-]]. injection Hu as <-. destruct (rs_pending _ Hs x Hx) as [Hret _]. destruct Ha.
  constructor; cbn; try done.
  - intros d e Hd. cbn. destruct (ag_fenced0 d e Hd) as [?|(p & se & Hp & Hse)]; [by left|].
    destruct (decide (d = pd_domain_id x)) as [->|Hne]; [by left|right]. exists p, se. by rewrite lookup_delete_ne.
  - intros Hc. destruct (ag_unbound0 Hc) as [-> ->]. by rewrite delete_empty.
  - intros d [[p Hp%lookup_delete_Some]|Hd]; apply ag_scopes0; [left; exists p; tauto|by right].
  - intros Hn. destruct (ag_rows0 Hn). constructor; cbn.
    + intros d p [Hne Hp]%lookup_delete_Some. destruct (ra_anchors0 d p Hp) as [H|(row & H1 & H2 & Hf)]; [by left|right].
      exists row. split_and!; [done..|]. eapply fits_weaken; [exact Hf|]. unfold retiring. rewrite Hx. cbn. congruence.
    + intros d Hd. destruct (decide (d = pd_domain_id x)) as [->|Hne]; [by right|]. rewrite lookup_delete_ne by done. by apply ra_rows0.
Qed.

Lemma prepare_retirement_agrees s r u n q requester principal now a audit :
  agrees s r → prepare_domain_retirement w q requester principal now a r = Ok (audit, u) → update_next u = Some n →
  (is_Some (ry_coordinator r) → is_pending_reset r = false → ry_pending_domain_retirement r = None) → agrees s n.
Proof.
  intros Ha H Hu Hnone. destruct (prepare_retirement_cases _ _ _ _ _ _ _ _ _ _ H Hu) as
    (receipt & p & _ & -> & _ & Hp & _ & _ & Hc & Hret & _). destruct Ha. constructor; cbn; try done.
  - intros d e Hd. cbn. rewrite lookup_insert_is_Some'. destruct (ag_fenced0 d e Hd); auto.
  - intros d [Hd|Hd]; apply ag_scopes0; [by left|]. apply lookup_insert_is_Some' in Hd as [<-|Hd]; [left; eauto|by right].
  - intros Hn. destruct (ag_rows0 Hn). constructor; cbn.
    + assert (ry_pending_domain_retirement r = None) as Hx.
      { apply Hnone; [|done]. destruct (ry_coordinator r); [eauto|]. destruct (ag_unbound0 eq_refl) as [Hempty _]. by rewrite Hempty in Hp. }
      intros d q' Hq. destruct (ra_anchors0 d q' Hq) as [H1|(row & H1 & H2 & Hf)]; [by left|right].
      exists row. split_and!; [done..|]. eapply fits_weaken; [exact Hf|]. unfold retiring. by rewrite Hx.
    + intros d Hd. destruct (ra_rows0 d Hd); [by left|right]. rewrite lookup_insert_is_Some'. by right.
Qed.

Lemma prepare_pairing_agrees s r u n g ds :
  agrees s r → prepare_pairing g r = Ok u → update_next u = Some n →
  ry_domains r = Some ds → is_Some (ry_coordinator r) →
  ii_domain_id (pg_installation g) ≠ ad_machine_scope ds → ii_domain_id (pg_installation g) ≠ ad_native_domain ds →
  agrees s n.
Proof.
  intros Ha H Hu Hds Hco Hn1 Hn2. unfold prepare_pairing in H. apply check_then in H as [Hck H].
  set (d0 := ii_domain_id (pg_installation g)) in *. destruct (ry_participants r !! d0) as [old|] eqn:Hold.
  { case_bool_decide; [by injection H as <-|done]. }
  do 2 apply check_then in H as [_ H]. injection H as <-. injection Hu as <-.
  assert (ry_retired_domains r !! d0 = None) as Hret.
  { unfold check_retirement_pairing in Hck. fold d0 in Hck. apply check_then in Hck as [_ Hck]. apply check_then in Hck as [Hck%guard_ok _].
    rewrite !orb_false_iff in Hck. destruct Hck as [[Hck%bool_decide_eq_false _] _]. by apply eq_None_not_Some. }
  destruct Ha. constructor; cbn; try done.
  - intros d e Hd. cbn. destruct (ag_fenced0 d e Hd) as [?|(p & se & Hp & Hse)]; [by left|right]. exists p, se.
    rewrite lookup_insert_ne; [done|congruence].
  - intros Hnone. rewrite Hnone in Hco. by destruct Hco.
  - intros d [Hd|Hd]; [|by apply ag_scopes0; right]. apply lookup_insert_is_Some' in Hd as [<-|Hd]; [eauto|by apply ag_scopes0; left].
  - intros Hn. destruct (ag_rows0 Hn). constructor; cbn.
    + intros d p [[<- <-]|[Hne Hp]]%lookup_insert_Some; [|by apply ra_anchors0]. left. split; [|done].
      apply eq_None_not_Some. intros Hs. destruct (ra_rows0 d0 Hs) as [[? Hx]|[? Hx]]; congruence.
    + intros d Hd. rewrite lookup_insert_is_Some'. destruct (ra_rows0 d Hd); auto.
Qed.

Lemma commit_pairing_agrees s r u n d :
  agrees s r → commit_pairing d r = Ok u → update_next u = Some n → is_Some (ms_registrations s !! d) → agrees s n.
Proof.
  intros Ha H Hu Hs. unfold commit_pairing in H. apply result_bind_Ok in H as (p & Hp%ok_or_some & H).
  destruct (pa_committed p); injection H as <-; [done|]. injection Hu as <-.
  eapply (agrees_anchor s r _ d p (p <| pa_committed := true |>)); [done|done|done|by eauto|done..].
Qed.

Lemma reserve_agrees s r n d epoch e :
  agrees s r → reserve_machine_connection d epoch r = Ok (n, e) →
  agrees s n ∧ epoch < e.
Proof.
  intros Ha H. unfold reserve_machine_connection in H. apply check_then in H as [_ H].
  apply result_bind_Ok in H as (p & Hp & H). apply result_bind_Ok in H as (e' & He%ok_or_some & H).
  apply check_then in H as [_ [= <- <-]]. apply committed_anchor_ok in Hp as [Hp Hc]. apply checked_add_Some in He as [-> _].
  split; [|lia].
  eapply (agrees_anchor s r _ d p (p <| pa_next_connection_epoch := N.max (pa_next_connection_epoch p) epoch + 1 |>)); [done|exact Hp|done|by eauto| |..]; try done.
  - by eapply committed_registered.
  - intros _ row _ (F1 & F2 & F3 & F4). split_and!; [done..|cbn; lia|done].
Qed.

Lemma accept_agrees s r u n se :
  agrees s r → accept_machine_session se r = Ok u → update_next u = Some n →
  (∀ row, tb_domains (ms_tables s) !! se_domain_id se = Some row → dr_connection_epoch row < se_connection_epoch se) →
  agrees s n.
Proof.
  intros Ha H Hu Hlt. unfold accept_machine_session in H. apply check_then in H as [_ H].
  apply result_bind_Ok in H as (p & Hp & H). apply committed_anchor_ok in Hp as [Hp Hc].
  case_bool_decide; [by injection H as <-|]. apply check_then in H as [Hg%guard_ok [= <-]]. injection Hu as <-.
  eapply (agrees_anchor s r _ (se_domain_id se) p (p <| pa_session := Some se |>)); [done|exact Hp|done| | |..]; try done.
  - intros old Hold. rewrite Hold in Hg. apply orb_false_iff in Hg as [_ Hg%bool_decide_eq_false]. exists se. split; [done|lia].
  - by eapply committed_registered.
  - intros _ row Hrow (F1 & F2 & F3 & F4). specialize (Hlt row Hrow). split_and!; [done..|]. cbn. intros se' [= <-]. split; lia.
Qed.

Lemma prepare_commit_agrees s r u n i :
  agrees s r → prepare_machine_commit w i r = Ok u → update_next u = Some n →
  (∀ k, mi_outcome i = Acknowledged k → k < rq_request_sequence (mi_request i)) →
  agrees s n ∧ ry_pending_machine_commit n = Some i.
Proof.
  intros Ha H Hu Hack. unfold prepare_machine_commit in H. apply result_bind_Ok in H as (m & H & [= <-]). injection Hu as ->.
  unfold proposed_machine_commit in H. do 2 apply check_then in H as [_ H]. apply result_bind_Ok in H as (p & _ & H).
  apply check_then in H as [_ H]. destruct (ry_pending_machine_commit r) as [pending|] eqn:Hpend.
  { case_bool_decide; [|done]. injection H as <-. by subst. }
  apply result_bind_Ok in H as (m & H & [= <-]). split; [|done].
  assert (m = r <| ry_machine_permissions := ry_machine_permissions m |>) as Heq.
  { clear Ha Hpend Hack. revert r H. induction (mi_grants i) as [|g gs IH]; intros r H; cbn in H; [injection H as <-; by destruct r|].
    destruct (propose_grant w (Ok r) g) as [r1|e] eqn:Hg; [|cbn in Hg; rewrite Hg, propose_error in H; done].
    rewrite (IH r1); [|by rewrite <-Hg]. apply propose_grant_cases in Hg as [->|[-> _]]; done. }
  eapply (agrees_frame s r); [done|by rewrite Heq..|]. intros j k [= <-]. apply Hack.
Qed.

Lemma checkpoint_agrees s r u n d sequence :
  agrees s r → checkpoint_machine_sequence d sequence r = Ok u → update_next u = Some n →
  (∀ row, tb_domains (ms_tables s) !! d = Some row → sequence ≤ dr_accepted_sequence row) → agrees s n.
Proof.
  intros Ha H Hu Hle. unfold checkpoint_machine_sequence in H. apply result_bind_Ok in H as (p & Hp & H).
  apply committed_anchor_ok in Hp as [Hp Hc]. case_bool_decide; [by injection H as <-|]. apply check_then in H as [_ [= <-]].
  injection Hu as <-. eapply (agrees_anchor s r _ d p (p <| pa_accepted_sequence := sequence |>)); [done|exact Hp|done|by eauto| |..]; try done.
  - by eapply committed_registered.
  - intros _ row Hrow (F1 & F2 & F3 & F4). split_and!; [by apply Hle|done..].
Qed.

Lemma bind_agrees s r n id generation process :
  agrees s r → update_next (bind_coordinator id store generation process r) = Some n → agrees s n.
Proof.
  intros Ha H. unfold bind_coordinator in H. destruct (ry_coordinator r) as [h|] eqn:Hh.
  - case_bool_decide as Hp; [done|]. case_bool_decide; [eapply record_reset_agrees; [done| |exact H]; plain|]. injection H as <-. destruct Ha.
    constructor; cbn; try done; [by intros h' [= <-]|by intros h' g [= <-]|]. intros _. unfold is_pending_reset in ag_rows0.
    rewrite Hh in ag_rows0. cbn in ag_rows0. rewrite bool_decide_eq_false_2 in ag_rows0 by done. by destruct (ag_rows0 eq_refl).
  - injection H as <-. destruct Ha. destruct (ag_unbound0 Hh) as [Hp Hr].
    constructor; cbn; try done; [by intros h' [= <-]|by intros h' g [= <-]|]. intros _. constructor; cbn.
    + intros d p. by rewrite Hp.
    + intros d [x Hx]. by rewrite Hr in Hx.
Qed.

Lemma coverage_agrees s r n id empty :
  agrees s r → update_next (establish_native_coverage id store empty r) = Some n → agrees s n.
Proof.
  intros Ha H. unfold establish_native_coverage in H. destruct (_ || _); [done|]. destruct empty; cbn [negb] in H.
  - injection H as <-. by eapply agrees_frame; try apply Ha.
  - eapply record_reset_agrees; [done| |exact H]; plain.
Qed.
End inv.
