(* ===== verification/PairingRuns.v ===== *)
(** * PairingRuns: the programs of pairing keep the stores in agreement

    Every operation of [Pairing], started on stores in agreement ([store_ok]), passes
    only such stores, whatever writes fail and wherever it is stopped. *)
From S2P Require Import Prelude Spec Validate Kernel Scoped ScopedFacts Observation Machine MachineStore.
From S2P Require Import Reservation MachineOffer MachineFacts MachineRecovery ExchangeFacts Columns Native Policy PolicyFacts Submission Frames.
From S2P Require Import Registry RegistryOps Authority AuthorityFacts AuthorityInv AuthorityEvolves AuthorityHistory PairingLog Pairing PairingInv.

Lemma string_forall_app f x y : string_forall f (x +:+ y) = string_forall f x && string_forall f y.
Proof. induction x as [|c x IH]; [done|]. change (f c && string_forall f (x +:+ y) = f c && string_forall f x && string_forall f y). by rewrite IH, andb_assoc. Qed.
Lemma contains_nul_app x y : contains_nul (x +:+ y) = contains_nul x || contains_nul y.
Proof. unfold contains_nul, contains_any, string_exists. by rewrite string_forall_app, negb_andb. Qed.

(** What an operation may read from the world. *)
Definition world_ok (wd : World) : Prop :=
  (∀ k, wd_reset_id wd k ≠ uuid_nil) ∧ (∀ k e, wd_fault wd k = Some e → is_divergence e = false).
Lemma later_ok n wd : world_ok wd → world_ok (later n wd).
Proof. intros [H1 H2]. split; [intros k; apply H1|intros k e; apply H2]. Qed.

Section runs.
Context (w : AuthorityWire) (host : string) (wire : Wire) (uuid_to_string : Uuid → string) (store : Uuid).
Context (registration_hash : PairingRegistration → string).
Context (verify_challenge : list N → ConnectChallenge → list N → bool) (verify_request : list N → Request → bool).
Context (receipt_text : DomainRetirementReceipt → string) (capacities : ResourceCapacities).
Context (Hdigest : ∀ intent, is_digest (aw_intent_hash w intent) = true).
Context (since : ExecutionDomainId → option N).
Context (Huuid : ∀ u, len (uuid_to_string u) ≤ 36 ∧ contains_nul (uuid_to_string u) = false).
Implicit Types (s : ManagerStore) (r n : Registry) (a : DurableAuthority) (wd : World) (p : ParticipantAnchor) (d : ExecutionDomainId).
Local Notation store_ok := (store_ok w host store registration_hash since).
Local Notation agrees := (agrees store registration_hash since).
Local Notation called := (called w).
Local Notation run_call := (run_call w host store registration_hash Hdigest since).

Lemma ready_agrees s r : store_ok s → da_state (ms_authority s) = StReady r → agrees s r.
Proof. intros Hok Hr. apply (so_agrees _ _ _ _ _ _ Hok). pose proof (so_dir _ _ _ _ _ _ Hok) as (_ & _ & Hs). by rewrite Hr in Hs. Qed.
Lemma ready_inv s r : store_ok s → da_state (ms_authority s) = StReady r → reg_inv w host r.
Proof.
  intros Hok Hr. pose proof (so_dir _ _ _ _ _ _ Hok) as (_ & Hi & Hs). rewrite Hr in Hs. by apply Hi.
Qed.

(** ** Transactions *)
(** The same rows up to a relation that keeps the anchors fitting. *)
Lemma agrees_rows s s' r (R : ExecutionDomainId → DomainRow → DomainRow → Prop) :
  agrees s r → ms_registrations s' = ms_registrations s →
  (∀ d row, tb_domains (ms_tables s) !! d = Some row → ∃ row', tb_domains (ms_tables s') !! d = Some row' ∧ R d row row') →
  (∀ d p row row', ry_participants r !! d = Some p → R d row row' → fits (retiring r d) p row → fits (retiring r d) p row') →
  agrees s' r.
Proof.
  intros [] Hreg Hrow HR. constructor; rewrite ?Hreg; try done. intros Hn. destruct (ag_rows Hn). constructor; rewrite ?Hreg; [|done].
  intros d p Hp. destruct (ra_anchors d p Hp) as [?|(row & ? & Hd & ?)]; [by left|right].
  destruct (Hrow d row Hd) as (row' & ? & ?). exists row'. split_and!; [done..|]. by eapply HR.
Qed.

Lemma tables_fine_log s t' :
  tables_fine s → log_inv t' → log_advances (ms_tables s) t' → tables_fine (set_tables t' s).
Proof.
  intros [] Hl Ha. constructor; cbn; [done| |done|].
  - intros d. rewrite tf_rows. specialize (Ha d).
    destruct (tb_domains (ms_tables s) !! d), (tb_domains t' !! d); try done; by split; eauto.
  - intros d c e Hc. destruct (tf_challenge d c e Hc) as (? & row & Hrow & Hlt). split; [done|].
    destruct (rows_relate_some _ _ _ _ _ Ha Hrow) as (row' & Hrow' & (_ & He & _) & _). exists row'. by rewrite He.
Qed.

Lemma store_ok_log s t' :
  store_ok s → log_inv t' → log_advances (ms_tables s) t' → store_ok (set_tables t' s).
Proof.
  intros [] Hl Ha. constructor; cbn; [done|by apply tables_fine_log|done|]. intros r Hr.
  eapply (agrees_rows s _ r (λ _, row_advances)); [by apply so_agrees|done| |].
  - intros d row Hrow. by apply (rows_relate_some _ _ _ _ _ Ha).
  - intros. by eapply fits_advances.
Qed.

(** ** Retirement in the tables *)
Definition disconnected (row row' : DomainRow) : Prop :=
  dr_accepted_sequence row' = dr_accepted_sequence row ∧ dr_retired_sequence_floor row' = dr_retired_sequence_floor row ∧
  dr_connection_epoch row' = dr_connection_epoch row.

Lemma retire_tables_rows audit t t' :
  retire_tables audit t = Ok t' → tb_operations t' = tb_operations t ∧
  ∀ d, option_relation (λ row row', disconnected row row' ∧ (d ≠ dq_domain_id (du_request audit) → row' = row))
         (λ _, False) (λ _, False) (tb_domains t !! d) (tb_domains t' !! d).
Proof.
  intros H. unfold retire_tables in H. apply result_bind_Ok in H as (t1 & H & [= <-]).
  assert (same_log t t1) as (Hd & Ho & _).
  { revert H. apply (result_foldM_ind (λ _ t1, same_log t t1)); [done|]. intros done g rest t2 t3 _ (IH1 & IH2 & IH3) H.
    apply result_bind_Ok in H as (g' & _ & H). apply save_grant_same in H as (H1 & H2 & H3). split_and!; congruence. }
  cbn. split; [done|]. intros d. rewrite Hd. set (d0 := dq_domain_id (du_request audit)). destruct (decide (d0 = d)) as [<-|Hne].
  - rewrite lookup_alter_eq. by destruct (tb_domains t !! d0).
  - rewrite lookup_alter_ne by done. destruct (tb_domains t !! d); [|done]. by split.
Qed.

Lemma save_grant_error t g claims e : save_grant t g claims = Err e → is_divergence e = false.
Proof.
  unfold save_grant. destruct (result_foldM _ _ _) as [tk|e1] eqn:H; cbn; [done|]. intros [= ->]. revert H.
  match goal with |- result_foldM _ ?m _ = _ → _ => generalize m end. induction (gs_tickets g) as [|i l IH]; intros m; cbn; [done|].
  destruct (record_ticket _ m i) as [m'|e2] eqn:Hi; cbn; [apply IH|]. intros [= ->]. unfold record_ticket in Hi.
  destruct (negb _); cbn in Hi; [|done]. by injection Hi as <-.
Qed.

(** The errors that record a reset are two. *)
Definition audit_error (e : StoreError) : Prop :=
  e = EInvalidState "SQL contains start rights outside the accepted retirement inventory" ∨
  e = EInvalidState "domain retirement SQL audit differs".

Lemma apply_retirement_error wd audit s e :
  world_ok wd → (apply_domain_retirement w wd audit s).2.2 = Err e → is_divergence e = true → audit_error e.
Proof.
  intros [_ Hf] H Hdiv. unfold apply_domain_retirement, transaction in H. destruct (wd_fault wd 0) as [f|] eqn:Hfault.
  { cbn in H. injection H as <-. by rewrite (Hf 0%nat f Hfault) in Hdiv. }
  destruct (audit_receipt w audit) as [receipt|]; cbn in H; [|by injection H as <-].
  destruct (ms_retirements s !! _) as [[prior old]|].
  { destruct (guard_err _ _) eqn:Hg in H; cbn in H; [done|]. injection H as <-. unfold guard_err in Hg. destruct (_ || _) in Hg; [|done].
    injection Hg as <-. by right. }
  destruct (retire_tables audit (ms_tables s)) as [t|e'] eqn:Ht; cbn in H.
  { destruct (guard_err _ _) eqn:Hg in H; cbn in H; [done|]. injection H as <-. unfold guard_err in Hg. destruct (existsb _ _) in Hg; [|done].
    by injection Hg as <-. }
  injection H as <-. unfold retire_tables in Ht. destruct (result_foldM _ _ _) as [t|e''] eqn:Hfold; cbn in Ht; [done|].
  injection Ht as ->. revert Hfold.
  generalize (domain_grants (dq_domain_id (du_request audit)) (ms_tables s)). intros gs. generalize (ms_tables s).
  induction gs as [|g gs IH]; intros t; cbn; [done|].
  destruct (retired_by audit g) as [g'|e1] eqn:Hg; cbn.
  - destruct (save_grant t g' None) as [t'|e1] eqn:Hs; cbn; [apply IH|]. intros [= ->].
    by rewrite (save_grant_error _ _ _ _ Hs) in Hdiv.
  - intros [= ->]. unfold retired_by in Hg. destruct (List.find _ _); cbn in Hg; [done|]. case_bool_decide; cbn in Hg; [|done].
    injection Hg as <-. by left.
Qed.

Lemma apply_retirement_store wd audit s r :
  store_ok s → da_state (ms_authority s) = StReady r → retiring r (dq_domain_id (du_request audit)) →
  run_ok store_ok (apply_domain_retirement w wd audit) (λ _ s', ms_authority s' = ms_authority s) s.
Proof.
  intros Hok Hr Hret. apply run_transaction; [done|]. intros s' [] H.
  apply result_bind_Ok in H as (receipt & _ & H). destruct (ms_retirements s !! _) as [[prior old]|].
  { apply check_then in H as [_ [= <-]]. done. }
  apply result_bind_Ok in H as (t & Ht & H). apply check_then in H as [_ [= <-]]. split; [|done].
  apply retire_tables_rows in Ht as [Ho Hrows].
  assert (∀ d row, tb_domains (ms_tables s) !! d = Some row → ∃ row', tb_domains t !! d = Some row' ∧
    disconnected row row' ∧ (d ≠ dq_domain_id (du_request audit) → row' = row)) as Hforth.
  { intros d row Hd. specialize (Hrows d). rewrite Hd in Hrows. destruct (tb_domains t !! d); [|done]. eauto. }
  pose proof Hok as [Hdir [] Hnew Hag]. constructor; cbn; [done| |done|].
  - constructor; cbn; [| |done|].
    + intros d x op. rewrite Ho. intros Hop. destruct (tf_log d x op Hop) as (row & Hrow & Hx).
      destruct (Hforth d row Hrow) as (row' & ? & (H1 & H2 & _) & _). exists row'. by rewrite H1, H2.
    + intros d. rewrite tf_rows. specialize (Hrows d).
      destruct (tb_domains (ms_tables s) !! d), (tb_domains t !! d); try done; by split; eauto.
    + intros d c e [_ Hc]%lookup_delete_Some. destruct (tf_challenge d c e Hc) as (? & row & Hrow & Hlt). split; [done|].
      destruct (Hforth d row Hrow) as (row' & ? & (_ & _ & He) & _). exists row'. by rewrite He.
  - intros r' Hr'. pose proof Hdir as (_ & _ & Hst). rewrite Hr, Hr' in Hst. injection Hst as ->.
    eapply (agrees_rows s _ _ _); [by apply Hag|done|exact Hforth|]. cbn.
    intros d p row row' Hp [(H1 & H2 & H3) Hsame] (F1 & F2 & F3 & F4). split_and!; [by rewrite ?H1, ?H2, ?H3..|].
    intros se Hse. rewrite H3. destruct (F4 se Hse) as [F5 F6]. split; [done|]. intros He.
    destruct (decide (d = dq_domain_id (du_request audit))) as [->|Hne]; [by right|]. rewrite (Hsame Hne). by apply F6.
Qed.

(** The transaction with its error as a value. *)
Lemma apply_caught_run wd audit s r :
  store_ok s → world_ok wd → da_state (ms_authority s) = StReady r → retiring r (dq_domain_id (du_request audit)) →
  run_ok store_ok (catch (_ ← apply_domain_retirement w wd audit; mret None) (λ e, mret (Some e)))
    (λ o s', ms_authority s' = ms_authority s ∧ ∀ e, o = Some e → is_divergence e = true → audit_error e) s.
Proof.
  intros Hok Hwd Hr Hret. apply run_catch.
  - eapply run_bind; [by eapply apply_retirement_store|]. intros [] s1 Hok1 Ha. by apply run_ret.
  - intros e He Hok1. apply run_ret; [done|]. unfold mbind, Manager_bind in *.
    destruct (apply_domain_retirement w wd audit s) as [passed [s1 [[]|e1]]] eqn:Happ; cbn in He |- *; [done|].
    injection He as ->. split.
    + unfold apply_domain_retirement, transaction in Happ. destruct (wd_fault wd 0); [by injection Happ as <- <- _|].
      destruct (_ ≫= _) as [[s2 []]|]; [done|]. by injection Happ as <- <- _.
    + intros e1 [= <-] Hdiv. eapply apply_retirement_error; [exact Hwd| |exact Hdiv]. by rewrite Happ.
Qed.

(** ** Finishing what is open *)
(** After it no retirement is open, unless a reset is pending. *)
Definition finished s : Prop :=
  ∀ r, da_state (ms_authority s) = StReady r → is_Some (ry_coordinator r) → is_pending_reset r = false →
    ry_pending_domain_retirement r = None.

Lemma reset_run io id reason s :
  store_ok s → id ≠ uuid_nil → valid_reason reason = true → plain_reason reason →
  run_ok store_ok (call w io (RecordReset id reason)) (λ _ s', finished s' ∧ called (RecordReset id reason) s s') s.
Proof.
  intros Hok Hid Hv Hp. eapply run_weaken; [apply run_call; [done|done|]|].
  - intros r u n Hr _ Ha [= <-] Hn. by eapply record_reset_agrees.
  - intros [] s' _ Hc. split; [|done]. intros r' Hr'. destruct (called_ready _ _ _ _ _ Hc Hr') as (r & u & _ & [= <-] & Hcase).
    unfold record_reset in Hcase. destruct (ry_coordinator r) as [h|] eqn:Hh.
    + case_bool_decide as Hb; destruct Hcase as [[Hn Heq]|(n & Hn & Heq)]; try done.
      * subst r'. unfold is_pending_reset. rewrite Hh. cbn. by rewrite bool_decide_eq_true_2.
      * injection Hn as <-. subst r'. done.
    + destruct Hcase as [[_ ->]|(n & Hn & _)]; [|done]. rewrite Hh. by intros [].
Qed.

Lemma audit_reason operation e :
  audit_error e → let reason := ("SQL retirement operation " +:+ uuid_to_string operation +:+ " needs inventory repair: "
    +:+ StoreError_text e)%string in valid_reason reason = true ∧ plain_reason reason.
Proof.
  intros He reason. destruct (Huuid operation) as [Hlen Hnul]. split.
  - unfold valid_reason. apply andb_true_iff. split; [apply andb_true_iff; split|].
    + done.
    + apply bool_decide_eq_true. subst reason. rewrite !len_app.
      assert (len (StoreError_text e) ≤ 120) by (destruct He as [-> | ->]; vm_compute; discriminate).
      assert (len "SQL retirement operation " = 25 ∧ len " needs inventory repair: " = 25) as [-> ->] by done. lia.
    + subst reason. rewrite !contains_nul_app, Hnul. by destruct He as [-> | ->].
  - by split.
Qed.

Lemma reconcile_run wd s :
  store_ok s → world_ok wd →
  run_ok store_ok (reconcile_pending_domain_retirement w uuid_to_string wd) (λ _, finished) s.
Proof.
  intros Hok Hwd. unfold reconcile_pending_domain_retirement.
  apply (run_bind _ _ (λ o s', s' = s ∧ lift_io (pending_domain_retirement w (ms_authority s)) = Ok o)); [by apply run_read|].
  intros [audit|] s' _ [-> Haudit]; unfold pending_domain_retirement in Haudit.
  2:{ apply run_ret; [done|]. intros r Hr _ _. rewrite Hr in Haudit. destruct (ry_pending_domain_retirement r) as [x|]; [|done].
      destruct (read_audit w _ _) as [audit|]; cbn in Haudit; [|done]. by destruct (_ || _). }
  destruct (da_state (ms_authority s)) as [|r|] eqn:Hr; [done| |done].
  destruct (ry_pending_domain_retirement r) as [x|] eqn:Hx; [|done].
  assert (retiring r (dq_domain_id (du_request audit))) as Hret.
  { destruct (read_audit w _ _) as [audit'|]; cbn in Haudit; [|done].
    destruct (_ || _ || bool_decide (dq_domain_id (du_request audit') ≠ pd_domain_id x)) eqn:Hg; cbn in Haudit; [done|].
    injection Haudit as ->. apply orb_false_iff in Hg as [_ Hg%bool_decide_eq_false]. apply dec_stable in Hg. unfold retiring. by rewrite Hx, Hg. }
  apply (run_bind _ _ (λ o s', ms_authority s' = ms_authority s ∧ ∀ e, o = Some e → is_divergence e = true → audit_error e)).
  { by eapply apply_caught_run. }
  intros [e|] s1 Hok1 [Ha Herr].
  - destruct (is_divergence e) eqn:Hdiv; [|by apply run_refuse]. destruct (audit_reason (dq_operation_id (du_request audit)) e) as [Hv Hp]; [by apply Herr|].
    eapply run_weaken; [apply reset_run; [done|apply Hwd|done|done]|]. by intros [] s2 _ [? _].
  - eapply run_weaken; [apply run_call; [done|done|]|].
    + intros r1 u n Hr1 Hinv Hag Hu Hn. by eapply finish_retirement_agrees.
    + intros [] s2 _ Hc r' Hr' _ _. destruct (called_ready _ _ _ _ _ Hc Hr') as (r1 & u & Hr1 & Hu & Hcase).
      rewrite Ha, Hr in Hr1. injection Hr1 as <-. cbn in Hu. unfold finish_domain_retirement in Hu. rewrite Hx in Hu.
      apply check_then in Hu as [_ [= <-]]. destruct Hcase as [[Hn _]|(n & [= <-] & ->)]; done.
Qed.

Lemma recovery_reason t i reason :
  reconcile_pending_machine_commit t true (Some i) = Ok (ResetRecorded reason) → valid_reason reason = true ∧ plain_reason reason.
Proof.
  assert (∀ missing t gs, recover_grants missing t gs = Ok (ResetRecorded reason) → valid_reason reason = true ∧ plain_reason reason) as Hg.
  { intros missing t0 gs. revert t0. induction gs as [|g gs IH]; intros t0 H; cbn in H; [done|].
    destruct (recover_grant missing t0 g) as [[t1|reason']|] eqn:Hr; cbn in H; [by eapply IH| |done]. injection H as ->.
    unfold recover_grant in Hr. case_bool_decide; [injection Hr as <-; done|]. destruct missing.
    - by apply result_bind_Ok in Hr as (? & _ & ?).
    - apply result_bind_Ok in Hr as (g' & _ & Hr). case_bool_decide; [|done]. by injection Hr as <-. }
  cbn. destruct (match tb_operations t !! _ with Some _ => _ | None => _ end); [by intros [= <-]|].
  intros H. apply result_bind_Ok in H as ([t1|reason'] & H & [= ->]). by eapply Hg.
Qed.

Lemma finish_commit_fields op r u n :
  finish_machine_commit w op r = Ok u → update_next u = Some n →
  ry_coordinator n = ry_coordinator r ∧ ry_pending_domain_retirement n = ry_pending_domain_retirement r.
Proof.
  unfold finish_machine_commit. destruct (ry_pending_machine_commit r) as [i|]; [|by intros [= <-]]. intros H Hu.
  apply check_then in H as [_ H]. destruct (retire_grants_frame w (mi_grants i) r) as [Heq _].
  apply result_bind_Ok in H as (p & _ & H). apply result_bind_Ok in H as (p' & _ & [= <-]). injection Hu as <-. cbn.
  rewrite Heq. done.
Qed.

Lemma finish_commit_call io op s :
  store_ok s →
  (∀ r i, da_state (ms_authority s) = StReady r → ry_pending_machine_commit r = Some i →
     covers (ms_tables s) (mi_request i) (mi_outcome i)) →
  run_ok store_ok (call w io (FinishMachineCommit op)) (λ _, called (FinishMachineCommit op) s) s.
Proof.
  intros Hok Hcov. apply run_call; [done|done|]. intros r u n Hr _ Ha Hu Hn.
  eapply finish_commit_agrees; [done|apply Hok| |exact Hu|done]. intros i. by apply Hcov.
Qed.
Lemma finish_commit_finished op s s' : finished s → called (FinishMachineCommit op) s s' → finished s'.
Proof.
  intros Hfin Hc r' Hr'. destruct (called_ready _ _ _ _ _ Hc Hr') as (r & u & Hr & Hu & Hcase).
  destruct Hcase as [[_ ->]|(n & Hn & ->)]; [by apply Hfin|]. destruct (finish_commit_fields op r u n Hu Hn) as [H1 H2].
  unfold is_pending_reset. cbn. rewrite H1, H2. by apply Hfin.
Qed.

Lemma recover_run wd s :
  store_ok s → world_ok wd → finished s → run_ok store_ok (recover_machine_commit w store wd) (λ _, finished) s.
Proof.
  intros Hok Hwd Hfin. unfold recover_machine_commit.
  apply (run_bind _ _ (λ a s', s' = s ∧ a = ms_authority s)); [by apply run_read; [|intros a [= <-]]|].
  intros a s' _ [-> ->]. unfold pending_machine_commit. destruct (da_state (ms_authority s)) as [|r|] eqn:Hr; try by apply run_ret.
  destruct (ry_pending_machine_commit r) as [i|] eqn:Hi; [|by apply run_ret]. destruct (negb _); [by apply run_ret|].
  pose proof (ready_agrees s r Hok Hr) as Ha.
  apply (run_bind _ _ (λ o s1, ms_authority s1 = ms_authority s ∧ (o = None → covers (ms_tables s1) (mi_request i) (mi_outcome i)) ∧
    ∀ reason, o = Some reason → valid_reason reason = true ∧ plain_reason reason)).
  { apply run_transaction; [done|]. intros s1 o H. apply result_bind_Ok in H as (rec & Hrec & H). destruct rec as [t|reason]; injection H as <- <-.
    - destruct (recovery_log (ms_tables s) i t) as (Hl & Hadv & Hcov); [apply Hok|by intros k; apply (ag_journal _ _ _ _ _ Ha)|done|].
      split; [by apply store_ok_log|]. done.
    - split; [done|]. split_and!; [done..|]. intros reason' [= <-]. by eapply recovery_reason. }
  intros [reason|] s1 Hok1 (Hs & Hc & Hv).
  - destruct (Hv reason eq_refl). eapply run_weaken; [apply reset_run; [done|apply Hwd|done|done]|]. by intros [] s2 _ [? _].
  - eapply run_weaken; [apply finish_commit_call; [done|]|].
    + rewrite Hs, Hr. intros r1 i1 [= <-]. rewrite Hi. intros [= <-]. by apply Hc.
    + intros [] s2 _. apply finish_commit_finished. intros r1. rewrite Hs. apply Hfin.
Qed.

Lemma finish_open_run wd s :
  store_ok s → world_ok wd → run_ok store_ok (finish_open w uuid_to_string store wd) (λ _, finished) s.
Proof.
  intros Hok Hwd. eapply run_bind; [by apply reconcile_run|]. intros [] s' Hok' Hfin. apply recover_run; [done|by apply later_ok|done].
Qed.

(** ** Pairing *)
Lemma topology_parent domains registrations g t :
  pairing_topology capacities domains (registrations ++ [g]) = Ok t →
  pg_parent_domain g = ad_machine_scope domains ∨ pg_parent_domain g = ad_native_domain domains ∨
  ∃ g', g' ∈ registrations ++ [g] ∧ pg_parent_domain g = ii_domain_id (pg_installation g').
Proof.
  unfold pairing_topology. intros H. apply result_bind_Ok in H as (checked & _ & H).
  destruct (ResourceTopology_new _ _ _) as [t'|] eqn:Hnew; [|done]. injection H as ->.
  destruct (ResourceTopology_new_fields _ _ _ _ Hnew) as (_ & _ & Hdoms). pose proof (ResourceTopology_new_wf _ _ _ _ Hnew) as Hwf.
  set (nodes := [_; _] ++ map _ _) in *.
  assert (∀ id, is_Some (rt_domains t !! id) → ∃ x, x ∈ nodes ∧ db_id x = id) as Hkeys.
  { intros id [x Hx]. rewrite Hdoms in Hx. apply lookup_btree_extend_Some in Hx as [Hx|Hx]; [|by rewrite lookup_empty in Hx].
    apply list_elem_of_fmap in Hx as (x' & [= -> ->] & Hin). eauto. }
  set (node := λ g, {| db_id := ii_domain_id (pg_installation g); db_parent := Some (pg_parent_domain g); db_capacities := pg_budgets g |}) in *.
  assert (rt_domains t !! ii_domain_id (pg_installation g) = Some (node g)) as Hg.
  { rewrite Hdoms. subst nodes. rewrite !map_app, app_assoc. unfold btree_extend. rewrite foldl_app. cbn. by rewrite lookup_insert_eq. }
  destruct (wf_chains _ Hwf _ _ Hg) as [chain [Hlead _]%ancestors_spec]; [|apply Hwf].
  assert (is_Some (rt_domains t !! pg_parent_domain g)) as Hpar.
  { revert Hg. revert Hlead. generalize (ii_domain_id (pg_installation g)). intros id Hl Hg.
    destruct Hl as [y Hd Hp|id y parent rest Hd Hp Hl]; rewrite Hg in Hd; injection Hd as <-; [done|]. injection Hp as ->.
    destruct Hl; eauto. }
  destruct (Hkeys _ Hpar) as (x & Hin & <-). subst nodes. apply elem_of_app in Hin as [Hin|Hin].
  - apply elem_of_cons in Hin as [->|Hin]; [by left|]. apply list_elem_of_singleton in Hin as ->. by right; left.
  - apply list_elem_of_fmap in Hin as (g' & -> & Hin). right. right. by exists g'.
Qed.

(** What [require_machine_registration] establishes. *)
Definition registrable s (g : PairingRegistration) : Prop :=
  ∃ r ds others t, da_state (ms_authority s) = StReady r ∧ ry_domains r = Some ds ∧ is_Some (ry_coordinator r) ∧
    ii_domain_id (pg_installation g) ≠ uuid_nil ∧ ii_installation_nonce (pg_installation g) ≠ uuid_nil ∧
    pg_manager_store_uuid g ≠ uuid_nil ∧ ii_domain_id (pg_installation g) ≠ ad_machine_scope ds ∧
    ii_domain_id (pg_installation g) ≠ ad_native_domain ds ∧
    (∀ x, x ∈ others → ∃ d p, ry_participants r !! d = Some p ∧ x = pa_registration p) ∧
    pairing_topology capacities ds (others ++ [g]) = Ok t.

Lemma require_run g s :
  store_ok s → run_ok store_ok (require_machine_registration w store capacities g) (λ _ s', s' = s ∧ registrable s g) s.
Proof.
  intros Hok. apply run_read; [done|]. intros [] H. split; [done|].
  apply result_bind_Ok in H as (ds & Hds%ok_or_some & H). apply check_then in H as [Hcur%guard_ok H].
  apply check_then in H as [Hid%guard_ok H]. apply result_bind_Ok in H as (anchors & Hanch & H).
  apply result_bind_Ok in H as (t & Ht & _). unfold snapshot in Hds. unfold is_current, snapshot in Hcur. unfold participants in Hanch.
  destruct (da_state (ms_authority s)) as [|r|] eqn:Hr; [done| |done]. cbn in Hds, Hcur, Hanch. injection Hanch as <-.
  unfold uuid_is_nil in Hid. apply negb_false_iff in Hcur. split_conditions. eexists r, ds, _, t. split_and!; try done.
  - destruct (ry_coordinator r); [eauto|done].
  - intros x Hx. apply list_elem_of_In, filter_In in Hx as [Hx%list_elem_of_In _]. apply list_elem_of_fmap in Hx as (p & -> & Hp).
    apply list_elem_of_fmap in Hp as ([d p'] & -> & Hp%elem_of_btree_entries). by exists d, p'.
Qed.

Lemma pairing_permitted s r u g :
  store_ok s → registrable s g → da_state (ms_authority s) = StReady r → prepare_pairing g r = Ok u →
  permitted w r (PreparePairing g).
Proof.
  intros Hok (r' & ds & others & t & Hr' & Hds & Hco & H1 & H2 & H3 & H4 & H5 & Hothers & Ht) Hr Hu.
  rewrite Hr in Hr'. injection Hr' as <-. split_and!; [done..|]. pose proof (ready_agrees s r Hok Hr) as Ha.
  unfold prepare_pairing in Hu. apply check_then in Hu as [Hck _]. unfold check_retirement_pairing in Hck.
  apply check_then in Hck as [Hpend%guard_ok%bool_decide_eq_false Hck]. apply check_then in Hck as [Hck%guard_ok _].
  rewrite !orb_false_iff in Hck. destruct Hck as [[Hown%bool_decide_eq_false _] _].
  rewrite <-eq_None_not_Some in Hpend. rewrite <-eq_None_not_Some in Hown. apply eq_None_not_Some. intros Hret.
  destruct (ag_scopes _ _ _ _ _ Ha _ (or_intror Hret)) as (ds' & Hds' & Hn1 & Hn2). rewrite Hds in Hds'. injection Hds' as <-.
  destruct (topology_parent _ _ _ _ Ht) as [?|[?|(g' & Hin & Heq)]]; [done..|]. rewrite Heq in Hret.
  apply elem_of_app in Hin as [Hin|Hin]; [|apply list_elem_of_singleton in Hin as ->; rewrite Hown in Hret; by destruct Hret].
  destruct (Hothers g' Hin) as (d & p & Hp & ->). destruct (ready_inv s r Hok Hr) as [Hrok _].
  pose proof (rk_participants _ _ _ Hrok d p Hp) as Hv. unfold participant_invalid in Hv. rewrite !orb_false_iff in Hv.
  destruct Hv as [[[Hv%bool_decide_eq_false _] _] _]. apply dec_stable in Hv. cbn in Hv. change (ii_domain_id _) with (pa_domain p) in Hret.
  rewrite <-Hv in Hret. destruct (rk_fence _ _ _ Hrok d Hret) as [[Hf|[Hf _]] _]; [by rewrite Hpend in Hf|congruence].
Qed.

(** The row of a new pairing. *)
Lemma insert_domain_run g wd s r p :
  store_ok s → da_state (ms_authority s) = StReady r → is_Some (ry_coordinator r) →
  ry_participants r !! ii_domain_id (pg_installation g) = Some p → pa_registration p = g →
  run_ok store_ok (transaction (wd_fault wd 1) (insert_domain registration_hash g))
    (λ _ s', ms_authority s' = ms_authority s ∧ is_Some (ms_registrations s' !! ii_domain_id (pg_installation g))) s.
Proof.
  intros Hok Hr Hco Hp Hpg. apply run_transaction; [done|]. intros s' [] H. unfold insert_domain in H.
  set (d := ii_domain_id (pg_installation g)) in *. destruct (ms_registrations s !! d) as [[prior inst]|] eqn:Hreg.
  { apply check_then in H as [_ [= <-]]. split; [done|]. split; [done|]. by rewrite Hreg. }
  injection H as <-. cbn. split; [|by rewrite lookup_insert_eq; eauto]. pose proof Hok as [Hdir [] Hnew Hag].
  assert (tb_domains (ms_tables s) !! d = None) as Hnone.
  { apply eq_None_not_Some. rewrite <-tf_rows, Hreg. by intros []. }
  assert (durable w host (ms_authority s) = Some r) as Hdur by (destruct Hdir as (_ & _ & Hs); by rewrite Hr in Hs).
  constructor; cbn; [done| |by rewrite Hdur|].
  - constructor; cbn.
    + intros d' x op Hop. destruct (tf_log d' x op Hop) as (row & Hrow & ?). exists row. cbn. rewrite lookup_insert_ne; [done|congruence].
    + intros d'. rewrite !lookup_insert_is_Some'. by rewrite tf_rows.
    + intros d' h i [[<- [= <- <-]]|[_ Hi]]%lookup_insert_Some; [done|]. by eapply tf_domain.
    + intros d' c e Hc. destruct (tf_challenge d' c e Hc) as (? & row & Hrow & ?). split; [done|]. exists row.
      rewrite lookup_insert_ne; [done|congruence].
  - rewrite Hdur. intros r' [= <-]. destruct (Hag r Hdur). constructor; try done.
    { intros Hc. rewrite Hc in Hco. by destruct Hco. }
    intros Hn. destruct (ag_rows Hn). constructor; cbn.
    + intros d' q Hq. destruct (decide (d = d')) as [<-|Hne].
      * right. rewrite Hp in Hq. injection Hq as <-. rewrite !lookup_insert_eq, Hpg. eexists. split_and!; [done..|].
        destruct (ra_anchors d p Hp) as [(_ & _ & F1 & F2 & F3 & F4)|(row & H1 & _)]; [|congruence].
        unfold fits. cbn. rewrite F1, F2, F3, F4. by split_and!.
      * rewrite !lookup_insert_ne by done. by apply ra_anchors.
    + intros d' [<-|Hd]%lookup_insert_is_Some'; [left; eauto|by apply ra_rows].
Qed.

Lemma pair_run wd g s :
  store_ok s → world_ok wd →
  run_ok store_ok (pair_machine_domain w uuid_to_string store registration_hash capacities wd g) (λ _ _, True) s.
Proof.
  intros Hok Hwd. unfold pair_machine_domain. cbv zeta. set (d := ii_domain_id (pg_installation g)).
  eapply run_bind; [by apply reconcile_run|]. intros [] s1 Hok1 _.
  eapply run_bind; [by apply require_run|]. intros [] s2 _ [-> Hreg].
  pose proof Hreg as (r & ds & _ & _ & Hr & Hds & Hco & _ & _ & _ & Hn1 & Hn2 & _).
  eapply run_bind; [apply run_call; [done| |]|].
  { intros r' u Hr' _ _ Hu. by eapply pairing_permitted. }
  { intros r' u n Hr' _ Ha Hu Hn. rewrite Hr in Hr'. injection Hr' as <-. by eapply prepare_pairing_agrees. }
  intros [] s3 Hok3 Hc.
  assert (∃ r3 p, da_state (ms_authority s3) = StReady r3 ∧ is_Some (ry_coordinator r3) ∧
    ry_participants r3 !! d = Some p ∧ pa_registration p = g) as (r3 & p & Hr3 & Hco3 & Hp & Hpg).
  { destruct Hc as (_ & _ & Hc). destruct (Hc r Hr) as (u & r3 & Hu & Hr3 & Hcase). exists r3. cbn in Hu. unfold prepare_pairing in Hu. fold d in Hu.
    apply check_then in Hu as [_ Hu]. destruct (ry_participants r !! d) as [old|] eqn:Hold.
    - case_bool_decide as Heq; [|done]. injection Hu as <-. destruct Hcase as [[_ ->]|(n & Hn & _)]; [|done]. eauto.
    - do 2 apply check_then in Hu as [_ Hu]. injection Hu as <-. destruct Hcase as [[Hn _]|(n & [= <-] & ->)]; [done|].
      exists (new_anchor g). split_and!; [done..| |done]. cbn. apply lookup_insert_eq. }
  eapply run_bind; [by eapply insert_domain_run|]. intros [] s4 Hok4 [Ha4 Hs4].
  eapply run_bind; [apply run_call; [done|done|]|].
  { intros r' u n _ _ Ha Hu Hn. by eapply commit_pairing_agrees. }
  intros [] s5 Hok5 _. by apply run_read.
Qed.

(** ** Connection *)
Lemma participant_row s d x :
  machine_participant d s = ([], (s, Ok x)) → ∃ row hash, tb_domains (ms_tables s) !! d = Some row ∧
    ms_registrations s !! d = Some (hash, ps_installation x) ∧ ps_connection_epoch x = dr_connection_epoch row.
Proof.
  unfold machine_participant, read. intros [= H]. apply result_bind_Ok in H as (row & Hrow%ok_or_some & H).
  apply result_bind_Ok in H as ([hash inst] & Hreg%ok_or_some & [= <-]). by exists row, hash.
Qed.

Lemma challenge_ok s d c e row :
  store_ok s → se_domain_id (cn_session c) = d → tb_domains (ms_tables s) !! d = Some row →
  dr_connection_epoch row < se_connection_epoch (cn_session c) → store_ok (s <| ms_challenges ::= <[d := (c, e)]> |>).
Proof.
  intros [Hdir [] Hnew Hag] Hd Hrow Hlt. constructor; cbn; [done| |done|].
  - constructor; cbn; [done..|]. intros d' c' e' [[<- [= <- <-]]|[_ Hc]]%lookup_insert_Some; [by eauto|by eapply tf_challenge].
  - intros r Hr. destruct (Hag r Hr). constructor; try done. intros Hn. by destruct (ag_rows Hn).
Qed.

Lemma connect_begin_run wd nonce hello s :
  store_ok s → world_ok wd →
  run_ok store_ok (machine_connect_begin w uuid_to_string store receipt_text wd nonce hello) (λ _ _, True) s.
Proof.
  intros Hok0 Hwd. unfold machine_connect_begin. eapply run_bind; [by apply finish_open_run|]. clear s Hok0. intros [] s Hok _.
  apply run_bind_read; [done|]. intros a [= <-].
  apply (run_bind _ _ (λ _ s', s' = s)); [by destruct (pending_installation_retirement _ _ _); [apply run_refuse|apply run_ret]|]. intros [] ? _ ->.
  apply (run_bind _ _ (λ _ s', s' = s)); [by destruct (retired_installation_receipt _ _ _); [apply run_refuse|apply run_ret]|]. intros [] ? _ ->.
  apply run_bind_check; [done|]. intros _. apply run_bind_answer; [done|]. intros anchors _.
  apply run_bind_answer; [done|]. intros anchor _. set (d := ii_domain_id (pg_installation (pa_registration anchor))). cbv zeta.
  apply run_bind_read; [done|]. intros x Hx.
  destruct (participant_row s d x) as (row & hash & Hrow & Hreg & Hep); [unfold machine_participant, read; by rewrite Hx|].
  assert (ii_domain_id (ps_installation x) = d) as -> by by eapply (tf_domain _ (so_tables _ _ _ _ _ _ Hok)).
  apply run_bind_check; [done|]. intros _. apply run_bind_answer; [done|]. intros ds _. apply run_bind_answer; [done|]. intros nc _.
  apply run_bind_answer; [done|]. intros epoch Hepoch.
  assert (dr_connection_epoch row < epoch) as Hlt.
  { unfold reserved_epoch in Hepoch. destruct (da_state (ms_authority s)) as [|r|] eqn:Hr; [done| |done].
    destruct (reserve_machine_connection d _ r) as [[n e]|] eqn:Hres; cbn in Hepoch; [|done]. injection Hepoch as <-.
    rewrite <-Hep. by eapply reserve_agrees; [by apply ready_agrees|]. }
  eapply run_bind; [apply run_call; [done|done|]|].
  { intros r u n _ _ Ha Hu Hn. apply result_bind_Ok in Hu as ([m e] & Hu & [= <-]). injection Hn as <-. by eapply reserve_agrees. }
  intros [] s2 Hok2 [Hs2 _]. apply run_bind_answer; [done|]. intros epoch_id _.
  apply (run_bind _ _ (λ _ _, True)); [apply run_transaction; [done|]; intros s3 [] [= <-]|by intros [] s3 Hok3 _; apply run_ret].
  split; [|done]. eapply challenge_ok; [done|done| |exact Hlt]. rewrite Hs2. exact Hrow.
Qed.

Lemma connect_store s c r p :
  store_ok s → da_state (ms_authority s) = StReady r → ry_participants r !! se_domain_id (cn_session c) = Some p →
  pa_session p = Some (cn_session c) → ∀ t, connect_tables (se_domain_id (cn_session c)) (cn_session c) (ms_tables s) = Ok t →
  store_ok (set_tables t s <| ms_challenges ::= delete (se_domain_id (cn_session c)) |>).
Proof.
  intros Hok Hr Hp Hse t Ht. set (se := cn_session c) in *. set (d := se_domain_id se) in *.
  unfold connect_tables in Ht. apply check_then in Ht as [Hg%guard_ok%negb_false_iff [= <-]].
  destruct (tb_domains (ms_tables s) !! d) as [row|] eqn:Hrow; [|done]. split_conditions.
  pose proof Hok as [Hdir [] Hnew Hag].
  assert (durable w host (ms_authority s) = Some r) as Hdur by (destruct Hdir as (_ & _ & Hst); by rewrite Hr in Hst).
  constructor; cbn; [done| |done|].
  - constructor; cbn.
    + intros d' x op Hop. destruct (tf_log d' x op Hop) as (row' & Hrow' & ?). cbn. destruct (decide (d = d')) as [<-|Hne].
      * rewrite lookup_alter_eq, Hrow'. by eexists.
      * rewrite lookup_alter_ne by done. by eexists.
    + intros d'. rewrite tf_rows. destruct (decide (d = d')) as [<-|Hne]; [|by rewrite lookup_alter_ne].
      rewrite lookup_alter_eq, Hrow. by split; eauto.
    + done.
    + intros d' c' e' [Hne Hc]%lookup_delete_Some. rewrite lookup_alter_ne by done. by eapply tf_challenge.
  - rewrite Hdur. intros r' [= <-]. destruct (ready_inv s r Hok Hr) as [_ Hsafe].
    eapply (agrees_rows s _ r (λ d' row1 row2, d' ≠ d ∧ row2 = row1 ∨ d' = d ∧ row2 = connect_row se row1)); [by apply Hag|done| |]; cbn.
    + intros d' row1 Hrow1. destruct (decide (d = d')) as [<-|Hne].
      * rewrite lookup_alter_eq, Hrow1. eauto.
      * rewrite lookup_alter_ne by done. eauto.
    + intros d' p' row1 row2 Hp' [[_ ->]|[-> ->]]; [done|]. rewrite Hp in Hp'. injection Hp' as <-. intros (F1 & F2 & F3 & F4).
      destruct (rs_anchors _ Hsafe d p Hp) as [_ Hfine]. destruct (Hfine _ Hse) as (_ & Hle & _).
      split_and!; [done..|]. rewrite Hse. intros se' [= <-]. split; [done|]. intros _. by left.
Qed.

Lemma connect_finish_run wd challenge tag s :
  store_ok s → world_ok wd →
  run_ok store_ok (machine_connect_finish w uuid_to_string store verify_challenge wd challenge tag)
    (λ _ s', ∃ r p, da_state (ms_authority s') = StReady r ∧ ry_participants r !! se_domain_id (cn_session challenge) = Some p ∧
       pa_session p = Some (cn_session challenge)) s.
Proof.
  intros Hok0 Hwd. unfold machine_connect_finish. cbv zeta. set (d := ii_domain_id (cn_installation challenge)).
  eapply run_bind; [by apply finish_open_run|]. clear s Hok0. intros [] s Hok _.
  apply run_bind_read; [done|]. intros anchors Hanchors. apply run_bind_answer; [done|]. intros anchor _.
  apply run_bind_check; [done|]. intros _. apply run_bind_answer; [done|]. intros [] _.
  apply run_bind_read; [done|]. intros [] Hc. apply result_bind_Ok in Hc as ([c e] & Hc%ok_or_some & Hg%guard_ok).
  apply orb_false_iff in Hg as [Hg%bool_decide_eq_false _]. apply dec_stable in Hg. cbn in Hg. subst c.
  destruct (tf_challenge _ (so_tables _ _ _ _ _ _ Hok) _ _ _ Hc) as (Hd & row & Hrow & Hlt).
  eapply run_bind; [apply run_call; [done|done|]|].
  { intros r u n Hr _ Ha Hu Hn. eapply accept_agrees; [done|exact Hu|done|]. rewrite Hd, Hrow. by intros ? [= <-]. }
  intros [] s2 Hok2 Hcall.
  assert (∃ r p, da_state (ms_authority s2) = StReady r ∧ ry_participants r !! d = Some p ∧
    pa_session p = Some (cn_session challenge)) as (r & p & Hr & Hp & Hse).
  { unfold participants in Hanchors. destruct (da_state (ms_authority s)) as [|r0|] eqn:Hr0; [done| |done].
    destruct Hcall as (_ & _ & Hcall). destruct (Hcall r0 Hr0) as (u & r & Hu & Hr & Hcase). cbn in Hu.
    unfold accept_machine_session in Hu. apply check_then in Hu as [_ Hu]. apply result_bind_Ok in Hu as (p & Hp & Hu).
    apply committed_anchor_ok in Hp as [Hp _]. rewrite Hd in Hp, Hu. exists r. case_bool_decide as Hse.
    - injection Hu as <-. destruct Hcase as [[_ ->]|(n & Hn & _)]; [|done]. eauto.
    - apply check_then in Hu as [_ [= <-]]. destruct Hcase as [[Hn _]|(n & [= <-] & ->)]; [done|].
      exists (p <| pa_session := Some (cn_session challenge) |>). split_and!; [done| |done]. cbn. apply lookup_insert_eq. }
  subst d. rewrite <-Hd in *.
  apply (run_bind _ _ (λ _ s', ms_authority s' = ms_authority s2)).
  - apply run_transaction; [done|]. intros s3 [] Ht. apply result_bind_Ok in Ht as (t & Ht & [= <-]). split; [|done]. by eapply connect_store.
  - intros [] s4 Hok4 Ha4. apply run_read; [done|]. intros x _. exists r, p. by rewrite Ha4.
Qed.

(** ** Exchange *)
Lemma compact_run wd s : store_ok s → run_ok store_ok (compact_retirements w store wd) (λ _ _, True) s.
Proof.
  intros Hok. unfold compact_retirements. apply run_bind_read; [done|]. intros [] _; [by apply run_ret|].
  apply run_bind_read; [done|]. intros proven _. eapply run_weaken; [apply run_call; [done|done|]|done].
  intros r u n _ _ Ha [= <-] Hn. unfold compact_machine_retirements in Hn. case_bool_decide; [done|]. injection Hn as <-.
  eapply agrees_frame; [exact Ha|done..|apply Ha].
Qed.

Lemma exchange_intent t q cfg au wall rd t' rep i :
  exchange_commit uuid_to_string wire t q cfg au wall rd = Ok (t', rep, Some i) → mi_request i = q ∧ mi_outcome i = rp_outcome rep.
Proof.
  unfold exchange_commit. intros H. apply result_bind_Ok in H as (row & _ & H).
  apply result_bind_Ok in H as ([[t1 o1] new] & _ & H). apply result_bind_Ok in H as (gs & _ & H).
  apply result_bind_Ok in H as ([] & _ & H). injection H as _ <- Hi. destruct (negb _ || _); [|done]. by injection Hi as <-.
Qed.

(** The grants of a journal entry are named apart (fresh identities of grants). *)
Definition exchange_permitted wd cfg rd (q : Request) s : Prop :=
  ∀ s1 s2 r t rep i, (finish_open w uuid_to_string store wd s).2 = (s1, Ok tt) →
    (compact_retirements w store (later 2 wd) s1).2 = (s2, Ok tt) → da_state (ms_authority s2) = StReady r →
    exchange_commit uuid_to_string wire (ms_tables s2) q cfg (authority_of w verify_request (ms_authority s2)) (wd_now wd) rd
      = Ok (t, rep, Some i) →
    permitted w r (PrepareMachineCommit i).

(** A request that passes the guards comes from the session of the anchor. *)
Lemma answered_session s t q row :
  store_ok s → is_retired_domain (ms_authority s) (se_domain_id (rq_session q)) = false →
  check_session wire t q (authority_of w verify_request (ms_authority s)) = Ok row →
  ∀ e, since (se_domain_id (rq_session q)) = Some e → e ≤ se_connection_epoch (rq_session q).
Proof.
  intros Hok Hret H e He. unfold check_session in H. do 3 (apply check_then in H as [_ H]).
  apply result_bind_Ok in H as (anchor & Hanchor%ok_or_some & H). do 2 (apply check_then in H as [_ H]).
  apply check_then in H as [Hse%guard_ok%bool_decide_eq_false _]. apply dec_stable in Hse. cbn in Hanchor.
  destruct (find_anchor (ms_authority s) (se_domain_id (rq_session q))) as [p|] eqn:Hfind; [|done]. injection Hanchor as <-. cbn in Hse.
  unfold find_anchor, participants in Hfind. unfold is_retired_domain in Hret.
  destruct (da_state (ms_authority s)) as [|r|] eqn:Hr; [done| |done]. apply find_some in Hfind as [Hin Hp]. split_conditions.
  apply list_elem_of_In, list_elem_of_fmap in Hin as ([d p'] & -> & Hin%elem_of_btree_entries). cbn in *.
  destruct (ready_inv s r Hok Hr) as [Hrok _]. pose proof (rk_participants _ _ _ Hrok d p' Hin) as Hv. unfold participant_invalid in Hv.
  rewrite !orb_false_iff in Hv. destruct Hv as [[[Hv%bool_decide_eq_false _] _] _]. apply dec_stable in Hv. cbn in Hv.
  destruct (ag_fenced _ _ _ _ _ (ready_agrees s r Hok Hr) _ e He) as [?|(p & se & Hp' & Hse' & Hle)]; [done|].
  assert (p = p') as -> by congruence. rewrite Hse in Hse'. by injection Hse' as <-.
Qed.

Lemma exchange_run wd cfg rd q s :
  store_ok s → world_ok wd → exchange_permitted wd cfg rd q s →
  run_ok store_ok (machine_exchange_managed w wire uuid_to_string store verify_request wd cfg rd q)
    (λ _ _, ∀ e, since (se_domain_id (rq_session q)) = Some e → e ≤ se_connection_epoch (rq_session q)) s.
Proof.
  intros Hok0 Hwd Hper. unfold machine_exchange_managed. cbv zeta.
  eapply run_bind_eq; [by apply finish_open_run|]. intros [] s1 Hs1 Hok1 _.
  eapply run_bind_eq; [by apply compact_run|]. intros [] s2 Hs2 Hok2 _. specialize (Hper s1 s2).
  apply run_bind_read; [done|]. intros a [= <-]. apply run_bind_check; [done|]. intros Hret.
  apply run_bind_answer; [done|]. intros [] _. apply run_bind_check; [done|]. intros _.
  apply run_bind_answer; [done|]. intros anchors _. apply run_bind_answer; [done|]. intros [] _.
  apply run_bind_read; [done|]. intros [[t rep] intent] Hx.
  destruct (exchange_commit_log _ _ _ _ _ _ _ _ _ _ _ (tf_log _ (so_tables _ _ _ _ _ _ Hok2)) Hx) as (Hlog & Hadv & Hcov).
  apply (run_bind _ _ (λ _ s3, ms_tables s3 = ms_tables s2 ∧ ∀ i r3 j, intent = Some i →
    da_state (ms_authority s3) = StReady r3 → ry_pending_machine_commit r3 = Some j → j = i)).
  { destruct intent as [i|]; [|by apply run_ret]. destruct (exchange_intent _ _ _ _ _ _ _ _ _ Hx) as [Hq Ho].
    assert (∀ k, mi_outcome i = Acknowledged k → k < rq_request_sequence (mi_request i)) as Hack.
    { rewrite Hq, Ho. intros k Hk. destruct Hcov as (row & _ & _ & Hack). by apply Hack. }
    eapply run_weaken; [apply run_call; [done| |]|].
    - intros r' u Hr' _ _ _. exact (Hper r' t rep i Hs1 Hs2 Hr' Hx).
    - intros r' u n _ _ Ha Hu Hn. by eapply prepare_commit_agrees.
    - intros [] s3 Hok3 Hc. split; [by rewrite (proj1 Hc)|]. intros i' r3 j [= <-] Hr3.
      destruct (called_ready _ _ _ _ _ Hc Hr3) as (r' & u & Hr' & Hu & Hcase).
      cbn in Hu. pose proof (ready_agrees s2 r' Hok2 Hr') as Ha. destruct Hcase as [[Hn ->]|(n & Hn & ->)].
      + unfold prepare_machine_commit in Hu. by apply result_bind_Ok in Hu as (m & _ & [= <-]).
      + destruct (prepare_commit_agrees _ _ _ _ _ _ _ _ _ Ha Hu Hn Hack) as [_ Hi]. cbn. rewrite Hi. by intros [= <-]. }
  intros [] s3 Hok3 [Ht3 Hp3].
  apply (run_bind _ _ (λ _ s4, ms_tables s4 = t ∧ ms_authority s4 = ms_authority s3)).
  { apply run_transaction; [done|]. intros s4 [] [= <-]. split; [|done]. apply store_ok_log; [done..|by rewrite Ht3]. }
  intros [] s4 Hok4 [Ht4 Ha4].
  apply (run_bind _ _ (λ _ s5, ms_tables s5 = t)).
  { destruct intent as [i|]; [|by apply run_ret]. destruct (exchange_intent _ _ _ _ _ _ _ _ _ Hx) as [Hq Ho].
    eapply run_weaken; [apply finish_commit_call; [done|]|by intros [] s5 _ [-> _]].
    intros r4 j. rewrite Ha4, Ht4. intros Hr4 Hj. by rewrite (Hp3 i r4 j eq_refl Hr4 Hj), Hq, Ho. }
  intros [] s5 Hok5 Ht5. eapply run_bind; [apply run_call; [done|done|]|].
  2:{ intros [] s6 Hok6 _. apply run_ret; [done|]. apply exchange_commit_cases in Hx as (row & Hs & _). exact (answered_session s2 _ q row Hok2 Hret Hs). }
  intros r5 u n _ _ Ha Hu Hn. eapply checkpoint_agrees; [done|exact Hu|done|]. rewrite Ht5.
  destruct Hcov as (row & Hrow & Hseq & _). rewrite Hrow. by intros ? [= <-].
Qed.

(** ** Retirement *)
Lemma preview_run wd d s :
  store_ok s → world_ok wd → run_ok store_ok (machine_clearance_preview w uuid_to_string store wd d) (λ _ _, True) s.
Proof. intros Hok Hwd. eapply run_bind; [by apply finish_open_run|]. intros [] s1 Hok1 _. by apply run_read. Qed.

(** A retirement that was accepted leaves the mark of the domain. *)
Lemma accepted_retirement s s' q requester principal now audit :
  called (PrepareDomainRetirement q requester principal now) s s' →
  prepared_audit w q requester principal now (ms_authority s) = Ok audit →
  du_request audit = q ∧ ∃ r', da_state (ms_authority s') = StReady r' ∧ is_Some (ry_retired_domains r' !! dq_domain_id q).
Proof.
  intros (_ & _ & Hc) Haudit. unfold prepared_audit in Haudit. destruct (da_state (ms_authority s)) as [|r|]; [done| |done].
  destruct (Hc r eq_refl) as (u & r' & Hu & Hr' & Hcase). cbn in Hu. apply result_bind_Ok in Hu as ([audit' u'] & Hu & [= ->]).
  rewrite Hu in Haudit. cbn in Haudit. injection Haudit as ->.
  pose proof Hu as Hu'. unfold prepare_domain_retirement in Hu. do 4 apply check_then in Hu as [_ Hu].
  apply result_bind_Ok in Hu as (audit1 & Ha & Hu). destruct (retirement_audit_request _ _ _ _ _ _ _ _ Ha) as [Hq _].
  destruct (ry_retired_domains r !! dq_domain_id q) as [t|] eqn:Ht.
  - apply result_bind_Ok in Hu as (rc & _ & Hu). apply check_then in Hu as [_ [= <- <-]].
    destruct Hcase as [[_ ->]|(n & Hn & _)]; [|done]. split; [done|]. exists r. by rewrite Ht.
  - destruct Hcase as [[Hn _]|(n & Hn & ->)].
    + exfalso. apply result_bind_Ok in Hu as (v & _ & Hu). do 3 apply check_then in Hu as [_ Hu].
      apply result_bind_Ok in Hu as (rc & _ & Hu). do 2 apply check_then in Hu as [_ Hu]. by apply result_bind_Ok in Hu as (enc & _ & [= <- <-]).
    + destruct (prepare_retirement_cases _ _ _ _ _ _ _ _ _ _ Hu' Hn) as (rc & p & _ & -> & _ & _ & _ & _ & _ & _ & _ & _ & Ha' & _).
      destruct (retirement_audit_request _ _ _ _ _ _ _ _ Ha') as [-> _]. split; [done|]. eexists. split; [done|]. cbn. rewrite lookup_insert_eq. eauto.
Qed.

Definition retired_in s d : Prop :=
  ∃ r, da_state (ms_authority s) = StReady r ∧ is_Some (ry_retired_domains r !! d) ∧ clear_of r d.

Lemma retired_clear s r d :
  store_ok s → da_state (ms_authority s) = StReady r → is_Some (ry_retired_domains r !! d) → ¬ retiring r d → retired_in s d.
Proof.
  intros Hok Hr Hret Hn. exists r. split_and!; [done..|]. destruct (ready_inv s r Hok Hr) as [Hrok _].
  by destruct (rk_fence _ _ _ Hrok d Hret) as [[?|?] _].
Qed.

Lemma retire_run wd q requester principal s :
  store_ok s → world_ok wd →
  run_ok store_ok (retire_machine_domain w uuid_to_string store wd q requester principal) (λ _ s', retired_in s' (dq_domain_id q)) s.
Proof.
  intros Hok0 Hwd. unfold retire_machine_domain. cbv zeta. eapply run_bind; [by apply finish_open_run|]. clear s Hok0. intros [] s Hok Hfin.
  apply run_bind_read; [done|]. intros a [= <-].
  eapply run_bind; [apply run_call; [done|done|]|].
  { intros r u n Hr _ Ha Hu Hn. cbn in Hu. apply result_bind_Ok in Hu as ([audit u'] & Hu & [= ->]).
    eapply prepare_retirement_agrees; [done|exact Hu|done|]. by apply Hfin. }
  intros [] s1 Hok1 Hc. apply run_bind_answer; [done|]. intros audit Haudit. apply run_bind_read; [done|]. intros receipt [= Hrc].
  destruct (accepted_retirement s s1 q requester principal (wd_now wd) audit Hc) as (Hq & r1 & Hr1 & Hret).
  { unfold lift_io in Haudit. by destruct (prepared_audit _ _ _ _ _ _); simplify_eq. }
  unfold retired_domain_receipt in Hrc. rewrite Hr1, Hq in Hrc. unfold retired_receipt in Hrc. case_bool_decide as Hp; subst receipt.
  2:{ destruct Hret as [t Ht]. rewrite Ht. apply run_ret; [done|]. eapply retired_clear; [done..|eauto|done]. }
  eapply run_bind; [eapply apply_caught_run; [done|by apply later_ok|exact Hr1|by rewrite Hq]|]. intros [e|] s2 Hok2 [Ha2 _].
  - eapply (run_bind _ _ (λ _ _, True)); [|intros [] s3 Hok3 _; by apply run_refuse].
    destruct (is_divergence e); [|by apply run_ret]. eapply run_weaken; [apply reset_run; [done|apply Hwd|done|plain]|done].
  - eapply run_bind; [apply run_call; [done|done|]|].
    { intros r2 u n _ Hinv Ha Hu Hn. by eapply finish_retirement_agrees. }
    intros [] s3 Hok3 (_ & _ & Hc3). apply run_answer; [done|]. intros receipt _. rewrite Ha2 in Hc3.
    destruct (Hc3 r1 Hr1) as (u & r3 & Hu & Hr3 & Hcase). cbn in Hu. unfold finish_domain_retirement in Hu.
    destruct (ry_pending_domain_retirement r1) as [x|]; [|done]. apply check_then in Hu as [_ [= <-]].
    destruct Hcase as [[Hn _]|(n & [= <-] & ->)]; [done|]. by eapply retired_clear.
Qed.

(** ** The start of the service *)
Lemma rolled_back_fits p x row :
  fits False p row → ps_accepted_sequence x = dr_accepted_sequence row → ps_retired_sequence_floor x = dr_retired_sequence_floor row →
  ps_connection_epoch x = dr_connection_epoch row → ps_executor_incarnation x = dr_executor_incarnation row → rolled_back p x = false.
Proof.
  intros (F1 & F2 & F3 & F4) H1 H2 H3 H4. unfold rolled_back. rewrite H1, H2, H3, H4.
  rewrite (bool_decide_eq_false_2 (_ < pa_accepted_sequence p)), (bool_decide_eq_false_2 (_ < pa_retired_sequence_floor p)),
    (bool_decide_eq_false_2 (pa_next_connection_epoch p < _)) by lia. cbn.
  destruct (pa_session p) as [se|]; [|done]. destruct (F4 se eq_refl) as [F5 F6]. rewrite bool_decide_eq_false_2 by lia. cbn.
  case_bool_decide as He; [|done]. cbn. apply bool_decide_eq_false_2. destruct (F6 He) as [->|[]]. tauto.
Qed.

Definition in_agreement s p : Prop :=
  ∃ row, ms_registrations s !! pa_domain p = Some (registration_hash (pa_registration p), pg_installation (pa_registration p)) ∧
    tb_domains (ms_tables s) !! pa_domain p = Some row ∧ fits False p row.

(** The loop finds nothing to object to. *)
Lemma validate_anchors_run wd anchors s :
  store_ok s → Forall (in_agreement s) anchors →
  run_ok store_ok (validate_anchors w registration_hash wd anchors) (λ next _, next = GoOn) s.
Proof.
  revert wd s. induction anchors as [|p anchors IH]; intros wd s Hok Hall; cbn [validate_anchors]; [by apply run_ret|].
  apply Forall_cons in Hall as [(row & Hreg & Hrow & Hfit) Hall].
  apply (run_bind _ _ (λ next s', next = GoOn ∧ ms_tables s' = ms_tables s ∧ ms_registrations s' = ms_registrations s)).
  2:{ intros next s' Hok' (-> & Ht & Hr). apply IH; [done|]. eapply Forall_impl; [exact Hall|]. unfold in_agreement. by rewrite Ht, Hr. }
  unfold validate_anchor. apply run_bind_read; [done|]. intros persisted [= <-]. rewrite Hreg. cbn. rewrite bool_decide_eq_false_2 by tauto.
  apply run_bind_read; [done|]. intros x Hx. rewrite Hrow, Hreg in Hx. cbn in Hx. injection Hx as <-.
  rewrite (rolled_back_fits _ _ row) by done.
  eapply run_bind; [apply run_call; [done|done|]|intros [] s1 Hok1 [Hs _]; apply run_ret; [done|]; by rewrite Hs].
  intros r u n _ _ Ha Hu Hn. eapply checkpoint_agrees; [done|exact Hu|done|]. cbn. change (ii_domain_id _) with (pa_domain p).
  rewrite Hrow. by intros ? [= <-].
Qed.

Lemma validate_run wd native s :
  store_ok s → world_ok wd → finished s →
  run_ok store_ok (validate_machine_history w store registration_hash wd native) (λ _ _, True) s.
Proof.
  intros Hok Hwd Hfin. unfold validate_machine_history. apply run_bind_read; [done|]. intros a [= <-].
  destruct (participants (ms_authority s)) as [anchors|] eqn:Hanch; [|by apply run_ret].
  destruct (reset_pending w (ms_authority s)) eqn:Hreset; [by apply run_ret|].
  unfold participants in Hanch. unfold reset_pending, snapshot in Hreset.
  destruct (da_state (ms_authority s)) as [|r|] eqn:Hr; [done| |done]. injection Hanch as <-. cbn in Hreset.
  pose proof (ready_agrees s r Hok Hr) as Ha.
  assert (is_pending_reset r = false) as Hn by (unfold is_pending_reset; by destruct (ry_coordinator r)).
  eapply run_bind; [apply validate_anchors_run; [done|]|].
  { apply Forall_forall. intros p Hp. apply list_elem_of_In, filter_In in Hp as [Hp%list_elem_of_In Hc].
    apply list_elem_of_fmap in Hp as ([d p'] & -> & Hp%elem_of_btree_entries). cbn in Hc |- *.
    destruct (committed_row _ _ _ _ _ (ag_rows _ _ _ _ _ Ha Hn) Hp Hc) as (row & Hreg & Hrow & Hfit).
    destruct (ready_inv s r Hok Hr) as [Hrok _]. pose proof (rk_participants _ _ _ Hrok d p' Hp) as Hv. unfold participant_invalid in Hv.
    rewrite !orb_false_iff in Hv. destruct Hv as [[[Hv%bool_decide_eq_false _] _] _]. apply dec_stable in Hv. cbn in Hv.
    exists row. rewrite <-Hv. split_and!; [done..|]. eapply fits_weaken; [exact Hfit|]. unfold retiring. rewrite (Hfin r Hr); [done| |done].
    destruct (ry_coordinator r) eqn:Hco; [eauto|]. destruct (ag_unbound _ _ _ _ _ Ha Hco) as [Hempty _]. by rewrite Hempty in Hp. }
  intros next s1 Hok1 ->. unfold validate_inventory. apply run_bind_read; [done|]. intros s1' [= <-].
  destruct (reset_pending _ _); [by apply run_ret|].
  case_bool_decide; [eapply run_weaken; [apply reset_run; [done|apply Hwd|done|plain]|done]|].
  destruct (_ && _); [eapply run_weaken; [apply reset_run; [done|apply Hwd|done|plain]|done]|by apply run_ret].
Qed.

Definition startup_ok (su : Startup) : Prop :=
  su_host su = host ∧ domains_invalid (su_fresh su) = false ∧ su_generation su ≠ uuid_nil.

Lemma store_ok_authority s a :
  store_ok s → dir_inv w host a →
  (durable w host a = durable w host (ms_authority s) ∨ ∃ n, durable w host a = Some n ∧ agrees s n) →
  store_ok (s <| ms_authority := a |>).
Proof.
  intros [Hdir Htab Hnew Hag] Ha Hcase. constructor; cbn; [done|by destruct Htab|..].
  - destruct Hcase as [->|(n & -> & _)]; done.
  - intros r Hr. assert (agrees s r) as [].
    { destruct Hcase as [Hc|(n & Hc & ?)]; rewrite Hc in Hr; [by apply Hag|by injection Hr as <-]. }
    constructor; try done. intros Hn. by destruct (ag_rows Hn).
Qed.

Lemma open_run wd su s :
  store_ok s → startup_ok su → run_ok store_ok (open_authority w wd su) (λ _ _, True) s.
Proof.
  intros Hok (Hhost & Hfresh & _). unfold open_authority, run_ok. cbn [fst snd].
  destruct (open_spec w host Hdigest (su_probe su) (su_fresh su) (wd_io wd 0) (ms_authority s)) as [Hd Hcase]; [apply Hok|done|].
  rewrite (proj1 (so_dir _ _ _ _ _ _ Hok)) in Hd, Hcase. rewrite Hhost.
  match goal with |- Forall _ [?s'] ∧ _ => assert (store_ok s') as Hok' end; [|by split_and!; [constructor|..]].
  apply store_ok_authority; [done|done|]. destruct Hcase as [Hcase|(n & Hprop & Hn)]; [by left|right]. exists n. split; [done|].
  destruct Hprop as (r & Hr & Hnone & ->). apply agrees_published. destruct (so_agrees _ _ _ _ _ _ Hok r Hr). constructor; cbn; try done.
  - intros d Hd'. destruct (ag_scopes d Hd') as (ds & Hds & _). congruence.
  - intros Hn'. by destruct (ag_rows Hn').
Qed.

Lemma attach_run wd su native s :
  store ≠ uuid_nil → store_ok s → world_ok wd → startup_ok su →
  run_ok store_ok (attach_authority w uuid_to_string store registration_hash wd su native) (λ _ _, True) s.
Proof.
  intros Hstore Hok Hwd Hsu. unfold attach_authority. apply run_bind_check; [done|]. intros _.
  eapply run_bind; [by apply open_run|]. intros [] s1 Hok1 _.
  apply (run_bind _ _ (λ _ _, True)).
  { destruct (su_process su) as [process|]; [|by apply run_ret]. eapply run_weaken; [apply run_call; [done| |]|done].
    - intros r u _ _ _ _. split_and!; [apply Hwd|done|apply Hsu].
    - intros r u n _ _ Ha [= <-] Hn. by eapply bind_agrees. }
  intros [] s2 Hok2 _. eapply run_bind; [by apply finish_open_run; [|apply later_ok]|]. intros [] s3 Hok3 Hfin.
  eapply run_bind; [by apply validate_run; [|apply later_ok|]|]. intros [] s4 Hok4 _.
  apply (run_bind _ _ (λ _ _, True)).
  { unfold reconcile_native_start_permissions. apply run_bind_read; [done|]. intros permissions _. cbv zeta.
    case_bool_decide; [by apply run_ret|]. eapply run_weaken; [apply run_call; [done|done|]|done].
    intros r u n _ _ Ha [= <-] Hn. unfold retire_native_starts in Hn. destruct (negb _); [done|]. injection Hn as <-.
    eapply agrees_frame; [exact Ha|done..|apply Ha]. }
  intros [] s5 Hok5 _. eapply run_weaken; [apply run_call; [done| |]|done].
  - intros r u _ _ _ _. apply Hwd.
  - intros r u n _ _ Ha [= <-] Hn. by eapply coverage_agrees.
Qed.
End runs.
