(* ===== verification/PairingHistory.v ===== *)
(** * PairingHistory: histories of a coordinator with its managers

    A history is any sequence of operations, each run to its end or stopped after
    one of its writes, of starts of the service, and of transactions of other
    components.  A start never finds the rows of the participants behind the
    registry, and a manager that has connected again stays the only one served.
    Histories go on up to the completion of a reset: its recovery rebuilds the
    tables from the registry. *)
From S2P Require Import Prelude Spec Validate Kernel Scoped ScopedFacts Observation Machine MachineStore.
From S2P Require Import Reservation MachineOffer MachineFacts MachineRecovery ExchangeFacts Columns Native Policy PolicyFacts Submission Frames.
From S2P Require Import Registry RegistryOps Authority AuthorityFacts AuthorityInv AuthorityEvolves AuthorityHistory PairingLog Pairing PairingInv PairingRuns.

Inductive Operation :=
| Attach (su : Startup) (native : NativeStore)
| Pair (registration : PairingRegistration)
| Preview (domain : ExecutionDomainId)
| ConnectBegin (nonce : result StoreError (list N)) (hello : ConnectHello)
| ConnectFinish (challenge : ConnectChallenge) (tag : list N)
| Exchange (configuration : string) (rd : Readiness) (request : Request)
| Retire (request : DomainRetirementRequest) (requester : ProcessIdentity) (principal : string).

Section history.
Context (w : AuthorityWire) (host : string) (wire : Wire) (uuid_to_string : Uuid → string) (store : Uuid).
Context (registration_hash : PairingRegistration → string).
Context (verify_challenge : list N → ConnectChallenge → list N → bool) (verify_request : list N → Request → bool).
Context (receipt_text : DomainRetirementReceipt → string) (capacities : ResourceCapacities).
Implicit Types (s : ManagerStore) (r : Registry) (wd : World) (op : Operation).
Local Notation exchange := (machine_exchange_managed w wire uuid_to_string store verify_request).
Local Notation connect_finish := (machine_connect_finish w uuid_to_string store verify_challenge).
Local Notation durable := (durable w host).

(** The stores where an operation may be stopped, and where it ends. *)
Definition stores wd op s : list ManagerStore :=
  match op with
  | Attach su native => visited (attach_authority w uuid_to_string store registration_hash wd su native) s
  | Pair g => visited (pair_machine_domain w uuid_to_string store registration_hash capacities wd g) s
  | Preview d => visited (machine_clearance_preview w uuid_to_string store wd d) s
  | ConnectBegin nonce hello => visited (machine_connect_begin w uuid_to_string store receipt_text wd nonce hello) s
  | ConnectFinish challenge tag => visited (connect_finish wd challenge tag) s
  | Exchange configuration rd q => visited (exchange wd configuration rd q) s
  | Retire q requester principal => visited (retire_machine_domain w uuid_to_string store wd q requester principal) s
  end.

Definition operation_ok wd op s : Prop :=
  match op with
  | Attach su _ => startup_ok host su
  | Exchange configuration rd q => exchange_permitted w wire uuid_to_string store verify_request wd configuration rd q s
  | _ => True
  end.

Inductive manager_step s : ManagerStore → Prop :=
| step_operation wd op s' : world_ok wd → operation_ok wd op s → s' ∈ stores wd op s → manager_step s s'
| step_initialize io epoch fresh :
    domains_invalid fresh = false → aw_anchor_len w (1, epoch, host) ≤ MAX_REGISTRY_BYTES →
    manager_step s (s <| ms_authority := (initialize w io epoch fresh (ms_authority s)).1 |>)
| step_tables t :   (* offers, jobs, views: other tables of the same database *)
    tb_domains t = tb_domains (ms_tables s) → tb_operations t = tb_operations (ms_tables s) → manager_step s (set_tables t s).

(** A new installation. *)
Definition new_installation s : Prop :=
  ms_authority s = new_directory host ∧ ms_registrations s = ∅ ∧ ms_challenges s = ∅ ∧
  tb_domains (ms_tables s) = ∅ ∧ tb_operations (ms_tables s) = ∅.

Section facts.
Context (Hdigest : ∀ intent, is_digest (aw_intent_hash w intent) = true).
Context (Huuid : ∀ u, len (uuid_to_string u) ≤ 36 ∧ contains_nul (uuid_to_string u) = false).
Context (Hstore : store ≠ uuid_nil).
Local Notation store_ok := (store_ok w host store registration_hash).

Lemma new_installation_ok s : new_installation s → store_ok (λ _, None) s.
Proof.
  intros (Ha & Hr & Hc & Hd & Ho). constructor; rewrite ?Ha; [apply new_directory_inv| |done|done].
  constructor; rewrite ?Hr, ?Hc, ?Hd; try done; [intros d x op; by rewrite Ho|]. intros d. rewrite !lookup_empty. by split; intros [].
Qed.

Lemma stores_ok since wd op s :
  store_ok since s → world_ok wd → operation_ok wd op s → Forall (store_ok since) (stores wd op s).
Proof.
  intros Hok Hwd Hop. destruct op; cbn [stores operation_ok] in *; (eapply run_visited; [done|]).
  - by apply attach_run.
  - by apply pair_run.
  - by apply preview_run.
  - by apply connect_begin_run.
  - by apply connect_finish_run.
  - by apply exchange_run.
  - by apply retire_run.
Qed.

Lemma step_ok since s s' : store_ok since s → manager_step s s' → store_ok since s'.
Proof.
  intros Hok [wd op s1 Hwd Hop Hin|io epoch fresh Hf Hlen|t Hd Ho].
  - pose proof (stores_ok since wd op s Hok Hwd Hop) as Hall. rewrite Forall_forall in Hall. by apply Hall.
  - destruct (initialize_spec w host Hdigest io epoch fresh (ms_authority s)) as [Hdir Hcase]; [apply Hok|done..|].
    apply store_ok_authority; [done|done|]. destruct Hcase as [?|(n & [Hnone ->] & Hn)]; [by left|right]. eexists. split; [exact Hn|].
    destruct (so_new _ _ _ _ _ _ Hok Hnone) as [Hempty Hsince]. constructor; cbn; try done.
    + intros d e. by rewrite Hsince.
    + by intros d [[? ?]|[? ?]].
    + intros _. constructor; cbn; [done|]. rewrite Hempty. by intros d [? ?].
  - apply store_ok_log; [done|..].
    + intros d x op. rewrite Ho, Hd. apply (tf_log _ (so_tables _ _ _ _ _ _ Hok)).
    + by apply (rows_relate_same _).
Qed.

Lemma history_ok since s s' : store_ok since s → rtc manager_step s s' → store_ok since s'.
Proof. intros Hok H. induction H as [|x y z Hxy _ IH]; [done|]. apply IH. by eapply step_ok. Qed.

(** C0: In every history of an installation, wherever it is stopped and whatever
    writes fail, a start of the service never records that the rows of the
    participants disagree with the registry or fell behind it.  As long as no reset
    is pending, the row of every committed participant carries its registration and
    has accepted and retired at least the sequences that the registry names, with a
    connection that the registry issued. *)
Theorem starts_find_the_history_intact s0 s r :
  new_installation s0 → rtc manager_step s0 s → durable (ms_authority s) = Some r →
  (∀ h g, ry_coordinator r = Some h → ch_pending_reset h = Some g →
     gate_reason g ≠ rows_mismatch ∧ gate_reason g ≠ rows_rolled_back) ∧
  (is_pending_reset r = false → ∀ d p, ry_participants r !! d = Some p → pa_committed p = true → ∃ row,
     ms_registrations s !! d = Some (registration_hash (pa_registration p), pg_installation (pa_registration p)) ∧
     tb_domains (ms_tables s) !! d = Some row ∧ pa_accepted_sequence p ≤ dr_accepted_sequence row ∧
     pa_retired_sequence_floor p ≤ dr_retired_sequence_floor row ∧ dr_connection_epoch row ≤ pa_next_connection_epoch p).
Proof.
  intros Hnew Hs Hr. pose proof (history_ok _ _ _ (new_installation_ok s0 Hnew) Hs) as Hok.
  destruct (so_agrees _ _ _ _ _ _ Hok r Hr). split; [exact ag_gate|]. intros Hn d p Hp Hc.
  destruct (committed_row _ _ _ _ _ (ag_rows Hn) Hp Hc) as (row & ? & ? & ? & ? & ? & _). by exists row.
Qed.

(** The stores as they are, with the connection that was just accepted. *)
Lemma store_ok_since s r p se :
  store_ok (λ _, None) s → da_state (ms_authority s) = StReady r → ry_participants r !! se_domain_id se = Some p →
  pa_session p = Some se → store_ok (λ d, if bool_decide (d = se_domain_id se) then Some (se_connection_epoch se) else None) s.
Proof.
  intros Hok Hr Hp Hse. pose proof (so_dir _ _ _ _ _ _ Hok) as (_ & _ & Hst). rewrite Hr in Hst. destruct Hok as [Hdir Htab Hnew Hag].
  constructor; [done|done|by rewrite Hst|]. rewrite Hst. intros r' [= <-]. destruct (Hag r Hst). constructor; try done.
  intros d e Hd. case_bool_decide as Heq; [|done]. injection Hd as <-. right. exists p, se. by rewrite Heq.
Qed.

(** C0: When a manager has connected, no request of an older connection of its
    domain is answered any more: not after stops, restarts, failed writes and other
    operations in between. *)
Theorem old_connections_stay_fenced s0 s wd challenge tag s1 x s2 wd' configuration rd q s3 reply :
  new_installation s0 → rtc manager_step s0 s → world_ok wd → (connect_finish wd challenge tag s).2 = (s1, Ok x) →
  rtc manager_step s1 s2 → world_ok wd' →
  exchange_permitted w wire uuid_to_string store verify_request wd' configuration rd q s2 →
  (exchange wd' configuration rd q s2).2 = (s3, Ok reply) →
  se_domain_id (rq_session q) = se_domain_id (cn_session challenge) →
  se_connection_epoch (cn_session challenge) ≤ se_connection_epoch (rq_session q).
Proof.
  intros Hnew Hs Hwd Hc Hs2 Hwd' Hper Hx Hd. pose proof (history_ok _ _ _ (new_installation_ok s0 Hnew) Hs) as Hok.
  assert (run_ok (store_ok (λ _, None)) (connect_finish wd challenge tag) (λ _ s', ∃ r p, da_state (ms_authority s') = StReady r ∧
    ry_participants r !! se_domain_id (cn_session challenge) = Some p ∧ pa_session p = Some (cn_session challenge)) s)
    as (_ & Hok1 & Hq) by by apply connect_finish_run. rewrite Hc in Hok1, Hq. cbn in Hok1, Hq.
  destruct (Hq x eq_refl) as (r & p & Hr & Hp & Hse).
  pose proof (history_ok _ _ _ (store_ok_since s1 r p _ Hok1 Hr Hp Hse) Hs2) as Hok2.
  eapply exchange_run in Hper as (_ & _ & Hq2); [|done..]. rewrite Hx in Hq2. cbn in Hq2.
  apply (Hq2 reply eq_refl). by rewrite bool_decide_eq_true_2.
Qed.

(** C0: A retirement that is answered is complete: the registry has marked the domain
    as retired and holds no participant, no child domain and no start right of it. *)
Theorem answered_retirements_are_complete s0 s wd q requester principal s' receipt :
  new_installation s0 → rtc manager_step s0 s → world_ok wd →
  (retire_machine_domain w uuid_to_string store wd q requester principal s).2 = (s', Ok receipt) →
  ∃ r, durable (ms_authority s') = Some r ∧ is_Some (ry_retired_domains r !! dq_domain_id q) ∧ clear_of r (dq_domain_id q).
Proof.
  intros Hnew Hs Hwd H. pose proof (history_ok _ _ _ (new_installation_ok s0 Hnew) Hs) as Hok.
  assert (run_ok (store_ok (λ _, None)) (retire_machine_domain w uuid_to_string store wd q requester principal)
    (λ _ s', retired_in s' (dq_domain_id q)) s) as (_ & Hok' & Hq) by by apply retire_run. rewrite H in Hok', Hq. cbn in Hok', Hq.
  destruct (Hq receipt eq_refl) as (r & Hr & ? & ?). exists r. split; [|done]. destruct (so_dir _ _ _ _ _ _ Hok') as (_ & _ & Hst). by rewrite Hr in Hst.
Qed.
End facts.
End history.
