(* ===== verification/PairingTables.v ===== *)
(** * PairingTables: the tables after a retirement and after a reset

    A retirement ends every start right of its domain and touches no other.  The
    tables that recovery builds from the registry hold the row of every participant
    and the grants that the registry is obliged by, and nothing else. *)
From S2P Require Import Prelude Spec Validate Kernel Scoped Observation Machine MachineStore.
From S2P Require Import Reservation MachineOffer MachineFacts MachineRecovery Columns Native Policy PolicyFacts Submission Frames.
From S2P Require Import Registry RegistryOps Authority AuthorityFacts AuthorityInv PairingLog Pairing PairingInv PairingRuns.

(** Every grant is stored under its own key. *)
Definition keyed_grants (t : Tables) : Prop :=
  ∀ k row, tb_grants t !! k = Some row → cd_key (gs_candidate (gr_snapshot row)) = k.

Lemma elem_of_domain_grants d t g :
  g ∈ domain_grants d t ↔ ∃ k row, tb_grants t !! k = Some row ∧ cr_domain_id <$> tb_candidates t !! k = Some d ∧
    is_outstanding (gr_state row) = true ∧ g = gr_snapshot row.
Proof.
  unfold domain_grants. rewrite list_elem_of_omap. split.
  - intros ([k row] & Hin%elem_of_btree_entries & H). cbn in H.
    destruct (bool_decide (cr_domain_id <$> tb_candidates t !! k = Some d)) eqn:Hd; [|done].
    destruct (is_outstanding (gr_state row)) eqn:Ho; [|done]. cbn in H. injection H as <-. apply bool_decide_eq_true in Hd. eauto 10.
  - intros (k & row & Hrow & Hd & Ho & ->). exists (k, row). rewrite elem_of_btree_entries. split; [done|]. cbn.
    by rewrite bool_decide_eq_true_2, Ho.
Qed.

Lemma retired_by_ok audit g g' :
  retired_by audit g = Ok g' → gs_candidate g' = gs_candidate g ∧ is_outstanding (gs_state g') = false.
Proof.
  unfold retired_by. intros H. apply result_bind_Ok in H as (g1 & Hg1 & [= <-]). cbn. split; [|by destruct (bool_decide (gs_state g1 = Offered))].
  destruct (List.find _ _) as [recorded|] eqn:Hf.
  - injection Hg1 as <-. apply find_some in Hf as [_ Hf]. by split_conditions.
  - case_bool_decide; [done|]. by injection Hg1 as <-.
Qed.

(** The grants of a list of snapshots are ended, the others stay. *)
Lemma retire_grants_spec audit gs t t' :
  result_foldM (λ t g, g ← retired_by audit g; save_grant t g None) t gs = Ok t' →
  tb_candidates t' = tb_candidates t ∧ dom (tb_grants t') = dom (tb_grants t) ∧
  ∀ k row', tb_grants t' !! k = Some row' →
    ((∃ g, g ∈ gs ∧ cd_key (gs_candidate g) = k) ∧ is_outstanding (gr_state row') = false) ∨
    ((∀ g, g ∈ gs → cd_key (gs_candidate g) ≠ k) ∧ tb_grants t !! k = Some row').
Proof.
  apply (result_foldM_ind (λ done t', tb_candidates t' = tb_candidates t ∧ dom (tb_grants t') = dom (tb_grants t) ∧ ∀ k row', tb_grants t' !! k = Some row' →
    ((∃ g, g ∈ done ∧ cd_key (gs_candidate g) = k) ∧ is_outstanding (gr_state row') = false) ∨
    ((∀ g, g ∈ done → cd_key (gs_candidate g) ≠ k) ∧ tb_grants t !! k = Some row'))).
  { split_and!; [done..|]. intros k row' Hk. right. split; [set_solver|done]. }
  intros done g rest t1 t2 _ (Hc & Hd & Hg) H. apply result_bind_Ok in H as (g' & [Hcand Hout]%retired_by_ok & H).
  apply save_grant_Ok in H as (Hsame & Hgr & _). rewrite Hcand in Hgr. split_and!; [by rewrite Hsame|by rewrite Hgr, dom_alter_L|].
  intros k row'. rewrite Hgr. destruct (decide (cd_key (gs_candidate g) = k)) as [<-|Hne].
  - rewrite lookup_alter_eq. destruct (tb_grants t1 !! _) as [old|]; [|done]. intros [= <-]. left. split; [|done].
    exists g. split; [|done]. apply elem_of_app. right. by left.
  - rewrite lookup_alter_ne by done. intros Hk. destruct (Hg k row' Hk) as [[(g1 & Hin & Heq) Ho]|[Hno Ht]]; [left|right].
    + split; [|done]. exists g1. split; [|done]. apply elem_of_app. by left.
    + split; [|done]. intros g1 [Hin|Hin]%elem_of_app; [by apply Hno|]. by apply list_elem_of_singleton in Hin as ->.
Qed.

(** C0: The transaction of a retirement frees everything the domain holds: none of
    its grants is outstanding, its candidates are canceled and none of its
    reservations remains, while grants and candidates of other domains stay as they
    are. *)
Theorem retirement_frees_the_domain audit t t' :
  keyed_grants t → retire_tables audit t = Ok t' →
  let d := dq_domain_id (du_request audit) in
  domain_grants d t' = [] ∧
  (∀ k row, tb_candidates t' !! k = Some row → cr_domain_id row = d → cr_state row = Canceled) ∧
  (∀ k, is_Some (tb_reservations t' !! k) → cr_domain_id <$> tb_candidates t' !! k ≠ Some d) ∧
  (∀ k, cr_domain_id <$> tb_candidates t !! k ≠ Some d →
     tb_grants t' !! k = tb_grants t !! k ∧ tb_candidates t' !! k = tb_candidates t !! k).
Proof.
  intros Hkey H d. unfold retire_tables in H. fold d in H. apply result_bind_Ok in H as (t1 & H & [= <-]).
  apply retire_grants_spec in H as (Hc & Hd & Hg).
  assert (∀ k, cr_domain_id <$> tb_candidates (cancel_domain d t1) !! k = cr_domain_id <$> tb_candidates t !! k) as Hdom.
  { intros k. cbn. rewrite lookup_fmap, Hc. destruct (tb_candidates t !! k); [|done]. cbn. by case_bool_decide. }
  split_and!.
  - apply elem_of_nil_inv. intros g (k & row & Hrow & Hk & Ho & ->)%elem_of_domain_grants. rewrite Hdom in Hk. cbn in Hrow.
    destruct (Hg k row Hrow) as [[_ Hout]|[Hno Ht]]; [congruence|]. apply (Hno (gr_snapshot row)); [|by apply Hkey].
    apply elem_of_domain_grants. eauto 10.
  - intros k row. cbn. rewrite lookup_fmap. destruct (tb_candidates t1 !! k) as [row0|]; [|done]. intros [= <-].
    case_bool_decide; [done|]. done.
  - intros k [claims Hk]. cbn in Hk. apply map_lookup_filter_Some in Hk as [_ Hk]. cbn in Hk.
    by apply bool_decide_eq_false in Hk.
  - intros k Hk. split.
    + cbn. destruct (tb_grants t1 !! k) as [row|] eqn:Hrow.
      * destruct (Hg k row Hrow) as [[(g & (k' & row' & Hrow' & Hk' & _ & ->)%elem_of_domain_grants & Heq) _]|[_ ->]]; [|done].
        pose proof (Hkey k' row' Hrow'). congruence.
      * symmetry. apply not_elem_of_dom. rewrite <-Hd. by apply not_elem_of_dom.
    + cbn. rewrite lookup_fmap, Hc. destruct (tb_candidates t !! k) as [row|]; [|done]. cbn in *. case_bool_decide; [congruence|done].
Qed.

(** ** The tables of a recovery *)
Section rebuild.
Context (host : string) (w : AuthorityWire) (uuid_to_string : Uuid → string) (registration_hash : PairingRegistration → string).

(** One grant more, under a key that had none. *)
Lemma restore_grant_spec topology t g t' :
  restore_grant uuid_to_string topology t g = Ok t' →
  let key := cd_key (gs_candidate g) in
  tb_domains t' = tb_domains t ∧ tb_candidates t !! key = None ∧ dom (tb_candidates t') = {[key]} ∪ dom (tb_candidates t) ∧
  ∃ row, gr_snapshot row = g ∧ gr_state row = gs_state g ∧ tb_grants t' = <[key := row]> (tb_grants t).
Proof.
  unfold restore_grant. cbv zeta. set (owner := Remote _). set (key := cd_key (gs_candidate g)).
  set (t1 := match tb_queue t !! owner with Some _ => t | None => _ end).
  assert (tb_domains t1 = tb_domains t ∧ tb_candidates t1 = tb_candidates t ∧ tb_grants t1 = tb_grants t) as (Hd & Hc & Hg)
    by by (subst t1; destruct (tb_queue t !! owner)).
  clearbody t1. intros H. apply result_bind_Ok in H as (queued & _ & H). apply result_bind_Ok in H as (priority & _ & H).
  apply check_then in H as [_ H]. apply check_then in H as [Hn%guard_ok%bool_decide_eq_false H]. cbn in Hn.
  apply result_bind_Ok in H as (found & _ & H). apply result_bind_Ok in H as (expanded & _ & H).
  unfold save_grant in H. apply result_bind_Ok in H as (tickets & _ & [= <-]). cbn. rewrite Hd, Hg.
  rewrite Hc in Hn. split_and!; [done|by apply eq_None_not_Some|by rewrite dom_insert_L, Hc|].
  eexists. split_and!; cycle 2; [reflexivity|done..].
Qed.

Definition restored (gs : list GrantSnapshot) (t : Tables) : Prop :=
  (∀ k, is_Some (tb_candidates t !! k) ↔ ∃ g, g ∈ gs ∧ cd_key (gs_candidate g) = k) ∧
  (∀ k row, tb_grants t !! k = Some row → gr_snapshot row ∈ gs ∧ cd_key (gs_candidate (gr_snapshot row)) = k) ∧
  (∀ g, g ∈ gs → ∃ row, tb_grants t !! cd_key (gs_candidate g) = Some row ∧ gr_snapshot row = g ∧ gr_state row = gs_state g).

Lemma restore_grants_spec topology gs t t' :
  tb_candidates t = ∅ → tb_grants t = ∅ → result_foldM (restore_grant uuid_to_string topology) t gs = Ok t' →
  tb_domains t' = tb_domains t ∧ restored gs t'.
Proof.
  intros Hc Hg. apply (result_foldM_ind (λ done t', tb_domains t' = tb_domains t ∧ restored done t')).
  { split; [done|]. split_and!; rewrite ?Hc, ?Hg; [|done|by intros g Hin%not_elem_of_nil].
    intros k. rewrite lookup_empty. split; [by intros []|by intros (g & Hin%not_elem_of_nil & _)]. }
  intros done g rest t1 t2 _ (Hd & R1 & R2 & R3) (Hd' & Hnone & Hdom & row & Hrow & Hst & Hgr)%restore_grant_spec.
  split; [congruence|]. set (key := cd_key (gs_candidate g)) in *.
  assert (∀ g', g' ∈ done → cd_key (gs_candidate g') ≠ key) as Hfresh.
  { intros g' Hin Heq. assert (is_Some (tb_candidates t1 !! key)) as [? Hx] by (apply R1; eauto). congruence. }
  split_and!.
  - intros k. rewrite <-elem_of_dom, Hdom, elem_of_union, elem_of_singleton, elem_of_dom, R1. split.
    + intros [->|(g' & Hin & <-)]; [exists g|exists g']; (split; [|done]); apply elem_of_app; [right; by left|by left].
    + intros (g' & [Hin|Hin]%elem_of_app & <-); [right; eauto|]. apply list_elem_of_singleton in Hin as ->. by left.
  - intros k row'. rewrite Hgr. intros [[<- <-]|[Hne Hk]]%lookup_insert_Some.
    + rewrite Hrow. split; [|done]. apply elem_of_app. right. by left.
    + destruct (R2 k row' Hk). split; [|done]. apply elem_of_app. by left.
  - intros g' [Hin|Hin]%elem_of_app.
    + destruct (R3 g' Hin) as (row' & ? & ?). exists row'. rewrite Hgr, lookup_insert_ne; [done|]. apply not_eq_sym. by apply Hfresh.
    + apply list_elem_of_singleton in Hin as ->. exists row. rewrite Hgr. fold key. by rewrite lookup_insert_eq.
Qed.

Lemma NoDup_participants r : reg_inv w host r → NoDup (pa_domain <$> btree_values (ry_participants r)).
Proof.
  intros [Hok _]. unfold btree_values. rewrite <-list_fmap_compose.
  replace (pa_domain ∘ snd <$> btree_entries (ry_participants r)) with (btree_keys (ry_participants r)); [apply NoDup_btree_keys|].
  apply list_fmap_ext. intros i [d p] Hi. cbn. apply list_elem_of_lookup_2, elem_of_btree_entries in Hi.
  pose proof (rk_participants _ _ _ Hok d p Hi) as Hv. unfold participant_invalid in Hv. rewrite !orb_false_iff in Hv.
  destruct Hv as [[[Hv%bool_decide_eq_false _] _] _]. by apply dec_stable in Hv.
Qed.

(** C0: Whatever the tables held before, the tables that recovery builds from the
    registry agree with it: the row of every participant carries its registration
    and its session and is not behind its anchor, also after the anchor has retired
    the recovered sequences, and the grants are exactly the start rights the registry
    is obliged by, in the states it recorded. *)
Theorem recovery_rebuilds_from_the_registry r pending retirement topology grants marker s s' :
  reg_inv w host r →
  rebuild uuid_to_string registration_hash (btree_values (ry_participants r)) pending retirement topology grants marker s = Ok (s', tt) →
  ms_reset_inventory s' = Some marker ∧
  (∀ d p x y, ry_participants r !! d = Some p → x ≤ recovered_sequence pending p → y ≤ recovered_sequence pending p →
     in_agreement registration_hash s' p ∧
     in_agreement registration_hash s' (p <| pa_accepted_sequence := x |> <| pa_retired_sequence_floor := y |>)) ∧
  (∀ id g, grants !! id = Some g → ∃ row, tb_grants (ms_tables s') !! cd_key (gs_candidate g) = Some row ∧
     gr_snapshot row = g ∧ gr_state row = gs_state g) ∧
  (∀ k row, tb_grants (ms_tables s') !! k = Some row → ∃ id, grants !! id = Some (gr_snapshot row)).
Proof.
  intros Hinv H. pose proof (NoDup_participants r Hinv) as Hnd. pose proof Hinv as [Hok Hsafe].
  unfold rebuild in H. apply result_bind_Ok in H as (t & Ht & H). injection H as <-.
  apply restore_grants_spec in Ht as (Hd & _ & R2 & R3); [|done..]. cbn in Hd.
  set (t' := match pending with None => t | Some _ => _ end).
  assert (tb_domains t' = tb_domains t ∧ tb_grants t' = tb_grants t) as [Hd' Hg'] by by (subst t'; destruct pending).
  assert (∀ g, g ∈ sort_by queue_le (btree_values grants) ↔ ∃ id, grants !! id = Some g) as Hin.
  { intros g. rewrite elem_of_sort_by. unfold btree_values. rewrite list_elem_of_fmap. split.
    - intros ([id g'] & -> & Hin%elem_of_btree_entries). by exists id.
    - intros [id Hid]. exists (id, g). by rewrite elem_of_btree_entries. }
  split_and!; [done| |intros id g Hid; cbn; rewrite Hg'; apply R3, Hin; eauto|intros k row; cbn; rewrite Hg'; intros Hk; apply Hin; by apply (R2 k row)].
  intros d p x y Hp Hx Hy.
  assert (pa_domain p = d ∧ p ∈ btree_values (ry_participants r)) as [<- Hmem].
  { pose proof (rk_participants _ _ _ Hok d p Hp) as Hv. unfold participant_invalid in Hv. rewrite !orb_false_iff in Hv.
    destruct Hv as [[[Hv%bool_decide_eq_false _] _] _]. apply dec_stable in Hv. cbn in Hv. split; [by rewrite Hv|].
    apply list_elem_of_fmap. exists (d, p). by rewrite elem_of_btree_entries. }
  assert (∀ {V} (f : ParticipantAnchor → V), list_to_map (M := gmap ExecutionDomainId V)
    (map (λ p, (pa_domain p, f p)) (btree_values (ry_participants r))) !! pa_domain p = Some (f p)) as Hlook.
  { intros V f. apply elem_of_list_to_map_1.
    - rewrite <-list_fmap_compose. exact Hnd.
    - apply list_elem_of_fmap. by exists p. }
  destruct (rs_anchors _ Hsafe _ p Hp) as [Hfloor Hse].
  assert (∀ p', pa_registration p' = pa_registration p → pa_session p' = pa_session p →
    pa_next_connection_epoch p' = pa_next_connection_epoch p → pa_accepted_sequence p' ≤ recovered_sequence pending p →
    pa_retired_sequence_floor p' ≤ recovered_sequence pending p →
    in_agreement registration_hash (set_tables t' s
        <| ms_registrations := list_to_map (map (λ p, (pa_domain p,
             (registration_hash (pa_registration p), pg_installation (pa_registration p)))) (btree_values (ry_participants r))) |>) p') as Hall.
  { intros p' Hreg Hs' Hn' Ha' Hf'. exists (recovered_row pending p).
    assert (pa_domain p' = pa_domain p) as -> by (unfold pa_domain; by rewrite Hreg). rewrite Hreg. cbn. rewrite Hd', Hd. split_and!; [apply (Hlook _ (λ p, (_, _)))|apply Hlook|].
    split_and!; cbn; [done..| |]; rewrite ?Hn', ?Hs'.
    - destruct (pa_session p) as [se|]; [apply (Hse se eq_refl)|lia].
    - intros se Hs. rewrite Hs. cbn. split; [lia|]. intros _. by left. }
  assert (pa_accepted_sequence p ≤ recovered_sequence pending p) by (unfold recovered_sequence; lia).
  split; (apply Hall; [done..|cbn; lia|cbn; lia]).
Qed.
End rebuild.
