(* ===== verification/PairingDemo.v ===== *)
(** * PairingDemo: a manager that connects twice and is retired

    A new installation is initialized and started, a manager pairs and connects,
    connects again and is served; a third connection is cut off between the registry
    and the tables, and the next start finds nothing wrong.  At last the owner retires
    the manager. *)
From S2P Require Import Prelude Spec Validate Kernel Scoped ScopedFacts Observation Machine MachineStore.
From S2P Require Import Reservation MachineOffer MachineFacts MachineRecovery Columns Native Policy PolicyFacts Submission Frames.
From S2P Require Import Registry RegistryOps Authority AuthorityFacts AuthorityInv AuthorityEvolves AuthorityHistory AuthorityDemo.
From S2P Require Import CoordinatorDemo PairingLog Pairing PairingInv PairingRuns PairingHistory PairingTables.

Module PairingDemo.
Import AuthorityDemo.
Definition frames : Machine.Wire := Demo.wire.
Definition show (_ : Uuid) : string := "00000000-0000-0000-0000-000000000000".
Definition store : Uuid := 20.
Definition hash (_ : PairingRegistration) : string := digest.
Definition verify_challenge (_ : list N) (_ : ConnectChallenge) (_ : list N) : bool := true.
Definition verify_request (_ : list N) (_ : Request) : bool := true.
Definition receipt_text (_ : DomainRetirementReceipt) : string := "receipt".
Definition capacities : ResourceCapacities :=
  {| cap_cpu_units := 8; cap_ram_mb := 1024; cap_cargo_slots := 1; cap_gpu_slots := 0; cap_custom := ∅ |}.

Lemma show_ok u : len (show u) ≤ 36 ∧ contains_nul (show u) = false.
Proof. split; [vm_compute; discriminate|reflexivity]. Qed.
Lemma store_set : store ≠ uuid_nil.
Proof. done. Qed.

Definition tables : Tables :=
  {| tb_domains := ∅; tb_operations := ∅; tb_queue := ∅; tb_queue_next := 1; tb_candidates := ∅; tb_grants := ∅;
     tb_tickets := ∅; tb_readiness := ∅; tb_reservations := ∅; tb_reconciles := ∅; tb_schedule_ms := 0; tb_revision := 0; tb_leases := [] |}.
Definition s0 : ManagerStore :=
  {| ms_tables := tables; ms_registrations := ∅; ms_challenges := ∅; ms_retirements := ∅; ms_reset_inventory := None;
     ms_authority := new_directory host |}.
Definition native : NativeStore :=
  {| nv_jobs := ∅; nv_attempts := ∅; nv_admissions := ∅; nv_invocations := ∅; nv_containments := ∅; nv_conditions := ∅;
     nv_observations := []; nv_leases := ∅; nv_reservations := ∅; nv_dependencies := []; nv_machine := tables |}.
Definition su : Startup :=
  {| su_attached := false; su_probe := None; su_fresh := domains; su_host := host; su_process := Some process; su_generation := 7 |}.

(** Everything works, or the statement of program point 3 fails. *)
Definition calm : World := {| wd_io := λ _, good; wd_fault := λ _, None; wd_reset_id := λ _, 50; wd_now := 1000 |}.
Definition cut : World :=
  {| wd_io := λ _, good; wd_fault := λ n, if bool_decide (n = 3%nat) then Some (ESql "disk I/O error") else None;
     wd_reset_id := λ _, 50; wd_now := 1000 |}.
Lemma calm_ok : world_ok calm.
Proof. by split. Qed.
Lemma cut_ok : world_ok cut.
Proof. split; [done|]. intros k e H. cbn in H. case_bool_decide; [by injection H as <-|done]. Qed.
Lemma su_ok : startup_ok host su.
Proof. by split_and!. Qed.

Definition hello (incarnation : Uuid) : ConnectHello :=
  {| hl_installation_nonce := 11; hl_manager_store_uuid := 12; hl_executor_incarnation := incarnation;
     hl_executor_protocol := PROTOCOL_VERSION; hl_executor_nonce := [9] |}.
Definition request (session : SessionIdentity) (n : N) : Request :=
  {| rq_version := WIRE_VERSION; rq_session := session; rq_request_sequence := n; rq_operation_id := 1000 + n;
     rq_payload_sha256 := Demo.digest; rq_command := Inspect None; rq_authentication := "tag" |}.

Definition attach := attach_authority wire show store hash calm su native.
Definition pair := pair_machine_domain wire show store hash capacities calm registration.
Definition begin (incarnation : Uuid) := machine_connect_begin wire show store receipt_text calm (Ok [1]) (hello incarnation).
Definition finish wd (c : ConnectChallenge) := machine_connect_finish wire show store verify_challenge wd c [].
Definition exchange (q : Request) := machine_exchange_managed wire frames show store verify_request calm "cfg" (Demo.readiness 5000) q.
Definition retire := retire_machine_domain wire show store calm retirement process "owner".

Definition no_challenge : ConnectChallenge :=
  {| cn_wire_version := 0; cn_coordinator_protocol := 0; cn_executor_protocol := 0; cn_coordinator_installation := 0;
     cn_installation := pg_installation registration; cn_session := session; cn_coordinator_nonce := []; cn_executor_nonce := [] |}.

Definition s1 : ManagerStore := s0 <| ms_authority := (initialize wire init_io 5 domains (ms_authority s0)).1 |>.
Definition s2 := (attach s1).2.1.
Definition s3 := (pair s2).2.1.
Definition s4 := (begin 13 s3).2.1.
Definition c1 := unwrap_or no_challenge (begin 13 s3).2.2.
Definition s5 := (finish calm c1 s4).2.1.
Definition s6 := (begin 14 s5).2.1.
Definition c2 := unwrap_or no_challenge (begin 14 s5).2.2.
Definition s7 := (finish calm c2 s6).2.1.
Definition q := request (cn_session c2) 1.
Definition s8 := (exchange q s7).2.1.
(** The third connection is journaled, its transaction fails; the service starts again. *)
Definition s9 := (begin 15 s8).2.1.
Definition c3 := unwrap_or no_challenge (begin 15 s8).2.2.
Definition s10 := (finish cut c3 s9).2.1.
Definition s11 := (attach s10).2.1.
Definition s12 := (retire s11).2.1.

Definition registry (s : ManagerStore) : Registry := registry_of (ms_authority s).
Definition epochs (s : ManagerStore) : option N * option N :=
  (dr_connection_epoch <$> tb_domains (ms_tables s) !! 10,
   ry_participants (registry s) !! 10 ≫= λ p, se_connection_epoch <$> pa_session p).

Example pairing_run :
  map epochs [s3; s5; s7; s8; s10; s11; s12] =
    [(Some 0, None); (Some 1, Some 1); (Some 2, Some 2); (Some 2, Some 2); (Some 2, Some 3); (Some 2, Some 3); (Some 2, None)] ∧
  (finish cut c3 s9).2.2 = Err (ESql "disk I/O error") ∧ is_pending_reset (registry s11) = false ∧
  is_ok (attach s10).2.2 = true ∧ is_ok (retire s11).2.2 = true ∧
  (exchange (request (cn_session c1) 1) s7).2.2 = Err (rejected "stale" "session was fenced by the durable pairing anchor").
Proof. vm_compute. by split_and!. Qed.

(** ** The history as steps *)
Local Notation step := (manager_step wire host frames show store hash verify_challenge verify_request receipt_text capacities).
Local Notation reaches := (rtc step).
Ltac run_to op := eapply rtc_once, (step_operation _ _ _ _ _ _ _ _ _ _ _ _ op); [| |exact (visited_end _ _)].

Lemma installed : new_installation host s0.
Proof. by split_and!. Qed.
Lemma to_s2 : reaches s0 s2.
Proof.
  eapply rtc_l; [apply (step_initialize _ _ _ _ _ _ _ _ _ _ _ init_io 5 domains); [reflexivity|vm_compute; discriminate]|].
  run_to (Attach su native); [exact calm_ok|exact su_ok].
Qed.
Lemma to_s3 : reaches s0 s3.
Proof. etrans; [exact to_s2|]. run_to (Pair registration); [exact calm_ok|exact I]. Qed.
Lemma to_s4 : reaches s0 s4.
Proof. etrans; [exact to_s3|]. run_to (ConnectBegin (Ok [1]) (hello 13)); [exact calm_ok|exact I]. Qed.
Lemma to_s5 : reaches s0 s5.
Proof. etrans; [exact to_s4|]. run_to (ConnectFinish c1 []); [exact calm_ok|exact I]. Qed.
Lemma to_s6 : reaches s0 s6.
Proof. etrans; [exact to_s5|]. run_to (ConnectBegin (Ok [1]) (hello 14)); [exact calm_ok|exact I]. Qed.
Lemma to_s7 : reaches s0 s7.
Proof. etrans; [exact to_s6|]. run_to (ConnectFinish c2 []); [exact calm_ok|exact I]. Qed.

(** The exchange journals nothing. *)
Lemma exchange_q_permitted : exchange_permitted wire frames show store verify_request calm "cfg" (Demo.readiness 5000) q s7.
Proof.
  intros x y r t rep i Hx Hy _ H.
  assert (x = (finish_open wire show store calm s7).2.1) as -> by by rewrite Hx.
  assert (y = (compact_retirements wire store (later 2 calm) (finish_open wire show store calm s7).2.1).2.1) as -> by by rewrite Hy.
  exfalso. clear Hx Hy. apply (f_equal (λ res, match res with Ok (_, _, o) => bool_decide (is_Some o) | Err _ => false end)) in H.
  vm_compute in H. discriminate H.
Qed.
Lemma from_s7_to_s11 : reaches s7 s11.
Proof.
  eapply rtc_l with s8. { eapply (step_operation _ _ _ _ _ _ _ _ _ _ _ calm (Exchange "cfg" (Demo.readiness 5000) q)); [exact calm_ok|exact exchange_q_permitted|exact (visited_end _ _)]. }
  eapply rtc_l with s9. { eapply (step_operation _ _ _ _ _ _ _ _ _ _ _ calm (ConnectBegin (Ok [1]) (hello 15))); [exact calm_ok|exact I|exact (visited_end _ _)]. }
  eapply rtc_l with s10. { eapply (step_operation _ _ _ _ _ _ _ _ _ _ _ cut (ConnectFinish c3 [])); [exact cut_ok|exact I|exact (visited_end _ _)]. }
  run_to (Attach su native); [exact calm_ok|exact su_ok].
Qed.
Lemma to_paired_s11 : reaches s0 s11.
Proof. etrans; [exact to_s7|exact from_s7_to_s11]. Qed.

(** ** Witnesses *)
(** The end of a run with an answer. *)
Lemma ended {A} (m : Manager A) (dflt : A) s : is_ok (m s).2.2 = true → (m s).2 = ((m s).2.1, Ok (unwrap_or dflt (m s).2.2)).
Proof. destruct (m s) as [passed [s' [x|e]]]; [done|done]. Qed.
Definition no_participant : ParticipantSnapshot :=
  {| ps_installation := pg_installation registration; ps_manager_store_uuid := 0; ps_connection_epoch := 0; ps_executor_incarnation := None;
     ps_reconciliation_required := true; ps_retired_sequence_floor := 0; ps_accepted_sequence := 0 |}.
Definition no_receipt : DomainRetirementReceipt := rt_receipt (receipt_of start).
Lemma connect_answer :
  (machine_connect_finish wire show store verify_challenge calm c2 [] s6).2 = (s7, Ok (unwrap_or no_participant (finish calm c2 s6).2.2)).
Proof. unfold s7, finish. apply ended. by vm_compute. Qed.
Lemma exchange_answer :
  (machine_exchange_managed wire frames show store verify_request calm "cfg" (Demo.readiness 5000) q s7).2 =
    (s8, Ok (unwrap_or Demo.no_reply (exchange q s7).2.2)).
Proof. unfold s8, exchange. apply ended. by vm_compute. Qed.
Lemma retire_answer :
  ∃ receipt, (retire_machine_domain wire show store calm retirement process "owner" s11).2 = (s12, Ok receipt).
Proof.
  unfold s12, retire. eexists. apply (ended _ no_receipt). by vm_compute.
Qed.
Definition anchor : ParticipantAnchor := default (new_anchor registration) (ry_participants (registry s11) !! 10).

Lemma starts_find_the_history_intact_witness :
  durable wire host (ms_authority s11) = Some (registry s11) ∧ pa_committed anchor = true ∧
  ∃ row, tb_domains (ms_tables s11) !! 10 = Some row ∧ pa_accepted_sequence anchor ≤ dr_accepted_sequence row.
Proof.
  assert (durable wire host (ms_authority s11) = Some (registry s11)) as Hr by by vm_compute.
  split; [exact Hr|]. split; [by vm_compute|].
  destruct (starts_find_the_history_intact wire host frames show store hash verify_challenge verify_request receipt_text capacities
    wire_digest show_ok store_set s0 s11 (registry s11) installed to_paired_s11 Hr) as [_ H].
  destruct (H ltac:(by vm_compute) 10 anchor ltac:(by vm_compute) ltac:(by vm_compute)) as (row & _ & Hrow & Hacc & _).
  exists row. split; [exact Hrow|exact Hacc].
Defined.

(** The manager of the second connection is served after it, and nobody before. *)
Lemma old_connections_stay_fenced_witness :
  is_ok (exchange q s7).2.2 = true ∧ se_connection_epoch (cn_session c2) ≤ se_connection_epoch (rq_session q).
Proof.
  split; [by vm_compute|].
  apply (old_connections_stay_fenced wire host frames show store hash verify_challenge verify_request receipt_text capacities
    wire_digest show_ok store_set s0 s6 calm c2 [] s7 (unwrap_or no_participant (finish calm c2 s6).2.2) s7 calm "cfg" (Demo.readiness 5000) q s8
    (unwrap_or Demo.no_reply (exchange q s7).2.2) installed to_s6 calm_ok connect_answer (rtc_refl _ _) calm_ok
    exchange_q_permitted exchange_answer).
  by vm_compute.
Defined.

Lemma answered_retirements_are_complete_witness :
  ∃ r, durable wire host (ms_authority s12) = Some r ∧ is_Some (ry_retired_domains r !! 10) ∧ clear_of r 10.
Proof.
  destruct (retire_answer) as [receipt Hret].
  exact (answered_retirements_are_complete wire host frames show store hash verify_challenge verify_request receipt_text capacities
    wire_digest show_ok store_set s0 s11 calm retirement process "owner" s12 receipt installed to_paired_s11 calm_ok Hret).
Defined.

(** *** A retirement in the tables *)
Definition inventory_of (grants : list GrantSnapshot) : DomainClearanceInventory :=
  {| ci_machine_id := 1; ci_authority_epoch := 5; ci_installation := pg_installation registration; ci_manager_store_uuid := 12;
     ci_session := Some session; ci_committed := true; ci_grants := grants |}.
Definition audit : DomainRetirementAudit :=
  {| du_preview := preview_of wire (inventory_of [grant]); du_request := retirement; du_requester := process;
     du_requester_principal := "owner"; du_retired_unix_millis := 1000 |}.
Definition candidate_row : CandidateRow :=
  {| cr_domain_id := 10; cr_candidate := candidate; cr_queue_owner := Remote (owner_job (cd_owner candidate)); cr_state := Ready;
     cr_expires_ms := 9000; cr_revision := 1; cr_reservation_deadline_ms := None; cr_not_before_ms := None |}.
Definition no_claims : ResolvedClaims :=
  {| cl_cpu_units := 0; cl_ram_mb := 0; cl_cargo_slots := 0; cl_gpu_slots := 0; cl_custom := ∅; cl_shared_fences := ∅;
     cl_exclusive_fences := ∅; cl_impacts := ∅ |}.
Definition granted : Tables :=
  set_grants (λ _, {[key := {| gr_snapshot := grant; gr_physical_claims := no_claims; gr_state := Armed; gr_deadline_ms := 5000 |}]})
    (set_reservations (λ _, {[key := no_claims]}) (set_candidates (λ _, {[key := candidate_row]}) tables)).
Definition freed : Tables := unwrap_or tables (retire_tables audit granted).

Lemma retirement_frees_the_domain_witness :
  domain_grants 10 granted = [grant] ∧ domain_grants 10 freed = [] ∧ is_outstanding <$> (gr_state <$> tb_grants freed !! key) = Some false.
Proof.
  split; [by vm_compute|].
  assert (keyed_grants granted) as Hkey by (intros k row Hk; cbn in Hk; apply lookup_singleton_Some in Hk as [<- <-]; reflexivity).
  assert (retire_tables audit granted = Ok freed) as Hret by by vm_compute.
  destruct (retirement_frees_the_domain audit granted freed Hkey Hret) as [H _]. split; [exact H|by vm_compute].
Defined.

(** *** Tables from the registry *)
Definition recorded : Registry := registry_of resumed_directory.
Lemma recorded_inv : reg_inv wire host recorded.
Proof.
  destruct (histories_dir_inv wire host wire_digest start resumed_directory (new_directory_inv wire host) to_resumed) as (_ & H & _).
  apply H. by vm_compute.
Qed.
Definition topology : option (AuthorityDomains * ResourceTopology) :=
  unwrap_or None (machine_topology (Some (Some domains, [registration_of registration])) capacities).
Definition rebuilt : ManagerStore :=
  (unwrap_or (s12, tt) (rebuild show hash (btree_values (ry_participants recorded)) None None topology
    (ry_machine_permissions recorded) 60 s12)).1.

Lemma recovery_rebuilds_from_the_registry_witness :
  tb_grants (ms_tables s12) = ∅ ∧ ms_reset_inventory rebuilt = Some 60 ∧
  ∃ row, tb_grants (ms_tables rebuilt) !! key = Some row ∧ gr_snapshot row = grant ∧ gr_state row = Armed.
Proof.
  split; [by vm_compute|].
  assert (rebuild show hash (btree_values (ry_participants recorded)) None None topology (ry_machine_permissions recorded) 60 s12
    = Ok (rebuilt, tt)) as Hreb by by vm_compute.
  destruct (recovery_rebuilds_from_the_registry host wire show hash recorded None None topology (ry_machine_permissions recorded) 60
    s12 rebuilt recorded_inv Hreb) as (Hm & _ & Hg & _).
  split; [exact Hm|]. apply (Hg (gs_grant_id grant) grant). by vm_compute.
Defined.
End PairingDemo.
